(* ===== verification/_CoqProject ===== *)
-Q . S2P
Prelude.v
Bits.v
Lock.v
RwLock.v
Barrier.v
Mem.v
Palloc.v
PallocSpec.v
PallocProps.v
Memmap.v
MemmapSpec.v
Pfn.v
PfnSpec.v
PallocInit.v
Id.v
List.v
ListSpec.v
ListRep.v
Sched.v
Wait.v
Ipc.v
SchedSpec.v
WaitSpec.v
SchedProps.v
IpcSpec.v
SchedDemo.v
Vm.v
VmSpec.v
VmMove.v
VmAlloc.v
VmTlb.v
VmProps.v
Page.v
PageSpec.v
PageProps.v
PageKernel.v
Salloc.v
SallocSpec.v
SallocProps.v
SallocKernel.v
Str.v
StrSpec.v
MemWords.v
Print.v
PrintSpec.v
Msg.v
MsgSpec.v
MemSafe.v
Devtree.v
DevtreeSpec.v
DevtreeDemo.v
Futex.v
FutexLogic.v
FutexSpec.v
UserRwlock.v
FutexDemo.v
