(* ===== verification/Prelude.v ===== *)
(** * A verification of the core of toddler-ng

    toddler-ng is an operating system in C for a dozen architectures.  A loader
    and a hardware abstraction layer ([src/src/loader], [src/src/hal],
    [src/src/arch]) bring the machine up and describe its memory in a memory map;
    the kernel ([src/src/kernel]) manages page frames, processes and their
    address spaces, schedules threads and carries messages between them; all three
    share a library, libk ([src/src/libk]); servers and applications run on top of
    it.  This development models the memory management that everything else rests
    on, from the arithmetic of libk up to the address spaces of processes; the
    scheduler with the queues in which threads wait; the strings, formatted
    output, messages and device tree that kernel and user programs share; and the
    locks user threads build from futexes.  It proves what they do right, and
    states exactly what a few of them do wrong.

    ** The program's parts and the files that model them

    - [Prelude]: the compile-time configuration ([Arch]), machine integers, the
      outcome of a call (it returns, panics, accesses memory that is not there,
      or runs forever), the state monad [M] with its weakest precondition [wp],
      and the tactics and generic lemmas of the other files.
    - [Bits]: [libk/lib/bit.c], [libk/lib/math.c] and the alignment macros.
    - [Lock]: [kernel/atomic/spinlock.c], the lock macros of
      [kernel/include/atomic.h], and the interrupt flag of [hal/int/state.c].
    - [RwLock], [Barrier]: the readers-writer locks and barriers of
      [kernel/atomic/rwlock.c] and [kernel/atomic/barrier.c].
    - [Mem]: the address arithmetic of [libk/include/mem.h].
    - [Palloc], [PallocSpec], [PallocProps], [PallocInit]: the buddy allocator of
      [kernel/mem/palloc.c], on single calls, on sequences of calls, and at boot.
    - [Salloc], [SallocSpec], [SallocProps], [SallocKernel]: the structure
      allocator of [kernel/mem/salloc.c], [malloc] and [free] of
      [kernel/mem/malloc.c], and both over the buddy allocator.
    - [Memmap], [MemmapSpec]: the physical memory map of [libk/lib/memmap.c].
    - [Pfn], [PfnSpec]: the page frame database of [kernel/mem/pfn.c].
    - [Id]: the number allocators of [kernel/struct/id.c].
    - [List], [ListSpec], [ListRep]: the linked lists of [kernel/struct/list.c].
    - [Vm], [VmSpec], [VmMove], [VmAlloc], [VmTlb], [VmProps]: the address space
      of a process of [kernel/proc/vm.c] with the TLB shootdown queue of
      [kernel/proc/tlb.c].
    - [Page], [PageSpec], [PageProps], [PageKernel]: the page tables of
      [libk/lib/page.c] for the entry formats of RISC-V and AMD64, and over the
      kernel's frame allocator.
    - [Sched], [Wait], [Ipc]: the scheduler, the wait queue and inter-process
      communication of [kernel/proc/sched.c], [wait.c] and [ipc.c], with the
      thread states and lookups of [thread.c] and the system calls of
      [kernel/syscall] that yield, wait, wake and pass messages; [SchedSpec],
      [WaitSpec], [IpcSpec] describe their operations on the queues,
      [SchedProps] follows threads through sequences of system calls, and
      [SchedDemo] is a small kernel at which the theorems are used.
    - [Str], [StrSpec]: byte memory and the string library of
      [libk/lib/string.c]; [MemWords]: numbers of several bytes in that memory.
    - [Print], [PrintSpec]: formatted output, [libk/print].
    - [Msg], [MsgSpec]: the layout of messages of [common/include/ipc.h], the
      library [libsys/ipc.c] that builds and reads them, and the kernel's
      [copy_msg] of [kernel/proc/ipc.c].
    - [MemSafe]: what the functions of [Str] and [Msg] do on every memory and
      every argument, valid or not.
    - [Devtree], [DevtreeSpec], [DevtreeDemo]: the device tree of
      [libk/devtree] ([devtree.c], [node.c], [prop.c]).
    - [Futex]: the futexes of [libc/sys/futex.c], the mutexes, semaphores,
      condition variables, readers-writer locks and barriers of [libc/kth] and the
      wait events of [kernel/proc/event.c], as programs whose steps are single
      accesses to shared memory and system calls; [FutexLogic] is a separation
      logic for them, [FutexSpec] and [UserRwlock] their contracts, and
      [FutexDemo] the executions in which they go wrong.

    Definitions keep the names of the C functions they translate.  A structure is
    a record, an array or a set of objects reached by pointers is a finite map
    from indices or addresses, and a pointer is the index.  Integers are in [Z]
    and every conversion to a narrower type is written out ([wrap], [swrap] and
    the casts named after the types).  [panic] and [assert] are the outcome
    [Panic], a NULL or dangling access is [Fault], and a loop that is not
    structural takes fuel and ends in [Diverge] without it.  Debug output of the
    components other than [Print], and memory barriers, have no counterpart.

    ** How the parts interact

    At boot [init_pfndb] turns the memory map into the frame database and
    [init_palloc] turns that into the free lists of the allocator ([PallocInit]).
    The allocator serves the bitmaps of [Id], the page tables, and the address
    spaces.  Components that use a part that another file models are proved
    against an interface: [PageArch] and [PageArchLaws] (what an entry format
    promises, implemented by [Riscv] and [Amd64]), [PageEnv] and [PageEnvLaws]
    (what page tables ask of a frame allocator, discharged by the buddy allocator
    in [PageKernel]), [SallocEnv] and [SallocEnvLaws] (what the structure
    allocator asks of it, discharged in [SallocKernel]), [VmEnv] and its laws
    (what address spaces ask of the structure allocator, the page tables and the
    TLB, where releasing a page may panic).  The address spaces and the queues of the scheduler run on the lists of
    [ListRep]; [SchedEnv] and [SchedEnvLaws] are what the scheduler asks of the
    clock, of memory that is shared with user space, and of contexts and message
    buffers.

    Printing reads strings, and messages and the device tree copy and compare
    them, in the memory of [Str]; the signedness of [char] and the addresses of
    string constants are parameters ([CharType], [Literals]).  The kernel appears
    in [Futex] by what waiting on a futex and waking its waiters mean to user
    threads, of which [Wait] has the implementation on the queues.

    ** What the theorems show

    - Frame allocator: an allocation returns an aligned block of free frames; it
      fails if there is none, or if the request rounds up to the largest order,
      and panics beyond that.  Releasing merges buddies completely and undoes the
      allocation; frames of different clients never overlap, for any sequence of
      calls, and as long as frame 0 is not managed no call within the limit panics.
      Boot makes exactly the usable frames free, if neighbouring ones have equal
      tags and there are at most 32 runs of them.
    - Structure allocator: structures in use never overlap, for any history of
      creation, allocation and release; [salloc] and [sfree] refine an abstract
      allocator, and [malloc] serves every request up to its largest size.
    - Page tables: mapping a range gives exactly its addresses the intended
      translation, permissions and privilege, with the cache attribute of an
      executable or data page whatever was asked for; unmapping undoes it and
      returns the tables that have become empty; a page inside a large page cannot
      be unmapped.
    - Address spaces: as long as requests are not empty and do not wrap around,
      each address of the dynamic range is owned by one block on one list in every
      reachable state; allocation, release, merging, purge and the service of
      shootdown requests do what they promise, and return or, when a page cannot
      be unmapped, panic.  A request that wraps around yields a block that reaches
      beyond the process's range.
    - Scheduling: the next thread is the first of the most urgent class that has
      one; a sleeper enters the wait queue in the order of timeouts, and exactly
      the threads that are due, or that wait for the object, are woken, in order;
      in every reachable state every thread is running or in exactly one queue,
      and [dispatch] panics only without an idle thread or on an unknown kind of
      wait.  An answer wakes the thread that waits for it; a serial sender that
      wants one is lost.
    - Lists, number allocators, memory map, frame database: each operation
      refines the operation on the abstract value (a sequence, a set of free
      numbers, a function from addresses to types), and the error cases are
      stated as such.
    - Locks: mutual exclusion for any number of CPUs that call any of the
      functions, one memory access at a time, and no assertion fails; a CPU that
      spins on a free lock gets it in at most four steps of its own; the interrupt
      state is restored.  Readers-writer locks exclude writers unless a writer
      enters between a reader's two loads, which any two CPUs can do; barriers
      keep the rounds of all CPUs apart.
    - Strings: [strcmp] orders strings as lists of bytes, searches find the first
      match; every function returns or faults, whatever its arguments.
    - Output: a format prints its text and its arguments, and a printed number is
      read back by [stou64].
    - Messages: what is appended, sent and copied is what is read; the builder
      functions leave a message whose data fit its buffer whatever the header says,
      and write nowhere else; a header that claims more than the buffer holds makes
      the kernel's copy overrun it.
    - Device tree: searches find the first entry whose name fits; [get_ranges]
      reads the parent's and the child's cells the wrong way round.
    - User synchronisation: for any number of threads and any interleaving, a
      mutex protects its data, a semaphore admits no more than it counts, and a
      readers-writer lock shows a consistent pair to every reader.  A wake-up can
      be lost on any futex, and a thread that waits can overwrite the futex of its owner.
    - Arithmetic: division, multiplication, alignment and bit counting agree
      with the mathematical functions within the stated bounds.

    ** Fuel

    Fuel is always a function of the input that is proved to be enough: the
    number of blocks or pages left for the loops of the allocators, the number
    of levels for walks of page tables and bitmaps, the number of nodes of the
    heap for walks of lists, the number of mapped bytes for scans of strings
    ([scan_fuel]).  The concurrent programs run without fuel, by steps.  The
    weakest precondition [wp] holds only of calls
    that return, so a theorem in this form includes termination; [wpp] also
    admits a panic, where the code gives up for lack of memory, and [wpn] admits
    one under a stated condition.

    ** Not modelled

    The contents of allocated structures; the switch to a thread, its stack and
    register context; the creation and end of processes, and the system call
    handlers that only pass their arguments on.  The hash tables of
    [kernel/struct/dict.c] are not used by the parts modelled here, and
    [libk/devtree/print.c] is debug output.  The hardware layer, the loader, the
    drivers and the per-architecture code consist of register and firmware
    accesses.  The file systems, the servers and the rest of the C library
    ([control.c] and [tls.c] of [libc/kth] included) run in user space on top of
    the parts modelled here. *)

From stdpp Require Import base list gmap.
From Stdlib Require Import ZArith Lia.
From Corelib Require Import ssreflect.

#[global] Open Scope general_if_scope.
#[global] Open Scope Z_scope.

(** ** The machine the kernel is compiled for *)

(** The compile-time constants of [src/arch/<arch>/common/include/abi.h] and
    [mem.h] that the modelled code depends on.  Every [#if (ARCH_WIDTH == ...)]
    of the source is a case distinction on [ARCH_WIDTH]. *)
Class Arch := {
  ARCH_WIDTH : Z;
  ARCH_BIG_ENDIAN : bool;
  PAGE_BITS : Z;
  PADDR_WIDTH : Z;                (* width of paddr_t, ppfn_t and psize_t *)
  MAX_NUM_PADDR_BITS : Z;
  MAX_NUM_VADDR_BITS : Z;
  DATA_ALIGNMENT : Z;
  arch_width_cases : ARCH_WIDTH = 32 ∨ ARCH_WIDTH = 64;
  paddr_width_cases : PADDR_WIDTH = 32 ∨ PADDR_WIDTH = 64;
  page_bits_range : 12 ≤ PAGE_BITS ≤ 13
}.

Definition PAGE_SIZE `{Arch} : Z := 2 ^ PAGE_BITS.

(** RISC-V 64: [src/arch/riscv/common/include/abi.h] and [mem.h]. *)
Definition riscv64 : Arch :=
  {| ARCH_WIDTH := 64; ARCH_BIG_ENDIAN := false; PAGE_BITS := 12;
     PADDR_WIDTH := 64; MAX_NUM_PADDR_BITS := 64; MAX_NUM_VADDR_BITS := 39;
     DATA_ALIGNMENT := 8;
     arch_width_cases := or_intror eq_refl;
     paddr_width_cases := or_intror eq_refl;
     page_bits_range := conj (Z.le_refl 12) (Z.le_succ_diag_r 12) |}.

(** RISC-V 32. *)
Definition riscv32 : Arch :=
  {| ARCH_WIDTH := 32; ARCH_BIG_ENDIAN := false; PAGE_BITS := 12;
     PADDR_WIDTH := 64; MAX_NUM_PADDR_BITS := 34; MAX_NUM_VADDR_BITS := 32;
     DATA_ALIGNMENT := 8;
     arch_width_cases := or_introl eq_refl;
     paddr_width_cases := or_intror eq_refl;
     page_bits_range := conj (Z.le_refl 12) (Z.le_succ_diag_r 12) |}.

(** OpenRISC: big endian, 8 KB pages, 32-bit physical addresses. *)
Definition or1k : Arch :=
  {| ARCH_WIDTH := 32; ARCH_BIG_ENDIAN := true; PAGE_BITS := 13;
     PADDR_WIDTH := 32; MAX_NUM_PADDR_BITS := 32; MAX_NUM_VADDR_BITS := 32;
     DATA_ALIGNMENT := 8;
     arch_width_cases := or_introl eq_refl;
     paddr_width_cases := or_introl eq_refl;
     page_bits_range := conj (Z.le_succ_diag_r 12) (Z.le_refl 13) |}.

(** ** Machine integers *)

(** Conversion to an unsigned type of [w] bits. *)
Definition wrap (w z : Z) : Z := z mod 2 ^ w.

(** Conversion to a signed type of [w] bits (two's complement). *)
Definition swrap (w z : Z) : Z := (z + 2 ^ (w - 1)) mod 2 ^ w - 2 ^ (w - 1).

(** [z] is a value of the unsigned type of [w] bits. *)
Definition uint (w z : Z) : Prop := 0 ≤ z < 2 ^ w.

Abbreviation u8 := (wrap 8).
Abbreviation u16 := (wrap 16).
Abbreviation u32 := (wrap 32).
Abbreviation u64 := (wrap 64).
Abbreviation s32 := (swrap 32).
Abbreviation s64 := (swrap 64).
Abbreviation ulong := (wrap ARCH_WIDTH).

(** Unsigned left shift and right shift for a shift count below the width;
    larger counts are undefined in C, see [shl_chk] below. *)
Definition shl (w a n : Z) : Z := wrap w (Z.shiftl a n).
Definition shr (a n : Z) : Z := Z.shiftr a n.

(** Bitwise complement in an unsigned type of [w] bits. *)
Definition bnot (w a : Z) : Z := wrap w (Z.lnot a).

(** C's truth value of an integer. *)
Definition ctrue (z : Z) : bool := negb (z =? 0).

(** ** Outcomes and the state monad *)

(** What running a piece of kernel code can end in: a value, a stop through
    [panic], [panic_if] or [assert], undefined behaviour (an access outside an
    object, through a NULL or dangling pointer, a shift by the width or more),
    or no result (a spin on a lock nobody releases, or exhausted fuel). *)
Inductive outcome (A : Type) : Type :=
| Ret (a : A)
| Panic
| Fault
| Diverge.

Arguments Ret {A} a.
Arguments Panic {A}.
Arguments Fault {A}.
Arguments Diverge {A}.

#[export] Instance outcome_ret : MRet outcome := @Ret.
#[export] Instance outcome_bind : MBind outcome := λ A B f m,
  match m with
  | Ret a => f a
  | Panic => Panic
  | Fault => Fault
  | Diverge => Diverge
  end.

(** Stateful code: [S] is the state of the component. *)
Definition M (S A : Type) : Type := S → outcome (A * S).

#[export] Instance M_ret {S} : MRet (M S) := λ A a s, Ret (a, s).
#[export] Instance M_bind {S} : MBind (M S) := λ A B f m s,
  match m s with
  | Ret (a, s') => f a s'
  | Panic => Panic
  | Fault => Fault
  | Diverge => Diverge
  end.

Definition gets {S A} (f : S → A) : M S A := λ s, Ret (f s, s).
Definition modify {S} (f : S → S) : M S unit := λ s, Ret (tt, f s).
Definition panic {S A} : M S A := λ _, Panic.
Definition fault {S A} : M S A := λ _, Fault.
Definition diverge {S A} : M S A := λ _, Diverge.
Definition panic_if {S} (b : bool) : M S unit := if b then panic else mret tt.
Definition assert {S} (b : bool) : M S unit := if b then mret tt else panic.

(** Lookup of an object that must exist: absence is undefined behaviour. *)
Definition deref {S A} (f : S → option A) : M S A := λ s,
  match f s with
  | Some a => Ret (a, s)
  | None => Fault
  end.

Definition lift_outcome {S A} (o : outcome A) : M S A := λ s,
  match o with
  | Ret a => Ret (a, s)
  | Panic => Panic
  | Fault => Fault
  | Diverge => Diverge
  end.

(** The final state of a run, and whether the run returns [v]. *)
Definition final {S A} (d : S) (m : outcome (A * S)) : S :=
  match m with
  | Ret (_, s) => s
  | _ => d
  end.
Definition result {S A} (m : outcome (A * S)) : option A := match m with Ret (a, _) => Some a | _ => None end.
Definition returns {S} (v : Z) (m : outcome (Z * S)) : bool :=
  match m with
  | Ret (a, _) => a =? v
  | _ => false
  end.

(** A shift whose count is checked against the width of the shifted type. *)
Definition shl_chk (w a n : Z) : outcome Z :=
  if (0 <=? n) && (n <? w) then Ret (shl w a n) else Fault.

(** [for (i = lo; i < lo + n; i++) acc = body(i, acc)]. *)
Fixpoint for_up {A} (n : nat) (i : Z) (body : Z → A → A) (acc : A) : A :=
  match n with
  | O => acc
  | Datatypes.S n' => for_up n' (i + 1) body (body i acc)
  end.

(** ** Total-correctness weakest preconditions *)

(** [wp m Q s]: run from [s], [m] returns, and its result and final state
    satisfy [Q].  A panic, a fault or divergence satisfies no postcondition. *)
Definition wp {S A} (m : M S A) (Q : A → S → Prop) (s : S) : Prop :=
  match m s with
  | Ret (a, s') => Q a s'
  | _ => False
  end.

Lemma wp_ret {S A} (a : A) (Q : A → S → Prop) s : Q a s → wp (mret a) Q s.
Proof. done. Qed.

Lemma wp_bind {S A B} (m : M S A) (f : A → M S B) Q s :
  wp m (λ a, wp (f a) Q) s → wp (m ≫= f) Q s.
Proof. rw /wp /mbind /M_bind. by destruct (m s) as [[a s']| | |]. Qed.

Lemma wp_mono {S A} (m : M S A) (Q R : A → S → Prop) s :
  wp m Q s → (∀ a s', Q a s' → R a s') → wp m R s.
Proof. rw /wp. destruct (m s) as [[a s']| | |]; auto. Qed.

Lemma wp_gets {S A} (f : S → A) (Q : A → S → Prop) s : Q (f s) s → wp (gets f) Q s.
Proof. done. Qed.

Lemma wp_modify {S} (f : S → S) (Q : unit → S → Prop) s :
  Q tt (f s) → wp (modify f) Q s.
Proof. done. Qed.

Lemma wp_panic_if {S} (b : bool) (Q : unit → S → Prop) s :
  b = false → Q tt s → wp (panic_if b) Q s.
Proof. by intros ->. Qed.

Lemma wp_assert {S} (b : bool) (Q : unit → S → Prop) s :
  b = true → Q tt s → wp (assert b) Q s.
Proof. by intros ->. Qed.

Lemma wp_deref {S A} (f : S → option A) (Q : A → S → Prop) s a :
  f s = Some a → Q a s → wp (deref f) Q s.
Proof. rw /wp /deref. by intros ->. Qed.

Lemma wp_lift {S A} (o : outcome A) (Q : A → S → Prop) s a :
  o = Ret a → Q a s → wp (lift_outcome o) Q s.
Proof. by intros ->. Qed.

Lemma wp_elim {S A} (m : M S A) Q s :
  wp m Q s → ∃ a s', m s = Ret (a, s') ∧ Q a s'.
Proof. rw /wp. destruct (m s) as [[a s']| | |]; naive_solver. Qed.

Lemma wp_intro {S A} (m : M S A) (Q : A → S → Prop) s a s' :
  m s = Ret (a, s') → Q a s' → wp m Q s.
Proof. rw /wp. by intros ->. Qed.

Lemma wp_run {S A} (m : M S A) (Q : A → S → Prop) s a s' :
  wp m Q s → m s = Ret (a, s') → Q a s'.
Proof. rw /wp. intros HQ E. by rw E in HQ. Qed.

(** The computation returns with the postcondition, or the kernel panics. *)
Definition wpp {S A} (m : M S A) (Q : A → S → Prop) (s : S) : Prop :=
  match m s with Ret (a, s') => Q a s' | Panic => True | _ => False end.

Lemma wpp_wp {S A} (m : M S A) (Q : A → S → Prop) s : wp m Q s → wpp m Q s.
Proof. rw /wp /wpp. by destruct (m s) as [[a s']| | |]. Qed.

Lemma wpp_bind {S A B} (m : M S A) (f : A → M S B) Q s : wpp m (λ a, wpp (f a) Q) s → wpp (m ≫= f) Q s.
Proof. rw /wpp /mbind /M_bind. by destruct (m s) as [[a s']| | |]. Qed.

Lemma wpp_mono {S A} (m : M S A) (Q R : A → S → Prop) s : wpp m Q s → (∀ a s', Q a s' → R a s') → wpp m R s.
Proof. rw /wpp. destruct (m s) as [[a s']| | |]; auto. Qed.

Lemma wpp_run {S A} (m : M S A) (Q : A → S → Prop) s a s' : wpp m Q s → m s = Ret (a, s') → Q a s'.
Proof. rw /wpp. intros HQ E. by rw E in HQ. Qed.

(** The computation returns with the postcondition, or the kernel panics and [N] holds. *)
Definition wpn {S A} (N : Prop) (m : M S A) (Q : A → S → Prop) (s : S) : Prop :=
  match m s with Ret (a, s') => Q a s' | Panic => N | _ => False end.

Lemma wpn_wp {S A} N (m : M S A) (Q : A → S → Prop) s : wp m Q s → wpn N m Q s.
Proof. rw /wp /wpn. by destruct (m s) as [[a s']| | |]. Qed.

Lemma wpn_bind {S A B} N (m : M S A) (f : A → M S B) (Q : B → S → Prop) s : wpn N m (λ a, wpn N (f a) Q) s → wpn N (m ≫= f) Q s.
Proof. rw /wpn /mbind /M_bind. by destruct (m s) as [[a s']| | |]. Qed.

Lemma wpn_wp_bind {S A B} N (m : M S A) (f : A → M S B) (Q : B → S → Prop) s : wp m (λ a, wpn N (f a) Q) s → wpn N (m ≫= f) Q s.
Proof. intros Hm. apply wpn_bind. by apply wpn_wp. Qed.

Lemma wpn_ret {S A} N (a : A) (Q : A → S → Prop) s : Q a s → wpn N (mret a) Q s.
Proof. done. Qed.

Lemma wpn_mono {S A} (N N' : Prop) (m : M S A) (Q R : A → S → Prop) s : wpn N m Q s → (N → N') → (∀ a s', Q a s' → R a s') → wpn N' m R s.
Proof. rw /wpn. destruct (m s) as [[a s']| | |]; auto. Qed.

Lemma wpn_run {S A} N (m : M S A) (Q : A → S → Prop) s a s' : wpn N m Q s → m s = Ret (a, s') → Q a s'.
Proof. rw /wpn. intros HQ E. by rw E in HQ. Qed.

Lemma wpn_panic {S A} (N : Prop) (m : M S A) (Q : A → S → Prop) s : m s = Panic → N → wpn N m Q s.
Proof. rw /wpn. by intros ->. Qed.

Lemma wpn_panics {S A} (N : Prop) (m : M S A) (Q : A → S → Prop) s : wpp m Q s → (m s = Panic → N) → wpn N m Q s.
Proof. rw /wpn /wpp. destruct (m s) as [[a s']| | |]; auto. Qed.

Lemma final_run {S A} (d : S) (m : outcome (A * S)) a : result m = Some a → m = Ret (a, final d m).
Proof. destruct m as [[b s]| | |]; [|done..]. by intros [= ->]. Qed.

Lemma returns_final {S} (d : S) v m : returns v m = true → m = Ret (v, final d m).
Proof. destruct m as [[a s]| | |]; cbn; [|done..]. by intros ->%Z.eqb_eq. Qed.

Lemma wp_and {S A} (m : M S A) (Q R : A → S → Prop) s :
  wp m Q s → wp m R s → wp m (λ a s', Q a s' ∧ R a s') s.
Proof. rw /wp. destruct (m s) as [[a s']| | |]; auto. Qed.

(** ** Arithmetic *)

Lemma wrap_small w z : uint w z → wrap w z = z.
Proof. intros. by apply Z.mod_small. Qed.

Lemma wrap_range w z : 0 ≤ w → uint w (wrap w z).
Proof. intros. apply Z.mod_pos_bound. lia. Qed.

Lemma wrap_wrap w z : wrap w (wrap w z) = wrap w z.
Proof. apply Zmod_mod. Qed.

Lemma wrap_testbit w z i : 0 ≤ w →
  Z.testbit (wrap w z) i = (i <? w) && Z.testbit z i.
Proof.
  intros. rw /wrap. destruct (Z.ltb_spec i w); simpl.
  - destruct (Z.lt_ge_cases i 0); [by rw !Z.testbit_neg_r|].
    by rw Z.mod_pow2_bits_low.
  - by rw Z.mod_pow2_bits_high.
Qed.

Lemma uint_testbit_high w z i : uint w z → w ≤ i → Z.testbit z i = false.
Proof.
  intros [??] ?. destruct (Z.eq_dec z 0) as [->|]; [apply Z.bits_0|].
  apply Z.bits_above_log2; [lia|].
  assert (Z.log2 z < w); [|lia]. apply Z.log2_lt_pow2; lia.
Qed.

Lemma uint_of_bits w z : 0 ≤ w → (∀ i, w ≤ i → Z.testbit z i = false) → uint w z.
Proof.
  intros Hw Hz. assert (wrap w z = z) as <-; [|by apply wrap_range].
  apply Z.bits_inj'. intros i Hi. rw wrap_testbit //. destruct (Z.ltb_spec i w); [done|]. by rw Hz.
Qed.

Lemma land_pow2_testbit a i : 0 ≤ i →
  Z.land a (2 ^ i) = if Z.testbit a i then 2 ^ i else 0.
Proof.
  intros. apply Z.bits_inj'. intros n Hn.
  rw Z.land_spec Z.pow2_bits_eqb //.
  destruct (Z.eqb_spec i n) as [->|].
  - destruct (Z.testbit a n); rw ?Z.pow2_bits_true ?Z.bits_0; auto.
  - rw andb_false_r.
    destruct (Z.testbit a i); by rw ?Z.pow2_bits_false ?Z.bits_0.
Qed.

Lemma ctrue_land_pow2 a i : 0 ≤ i → ctrue (Z.land a (2 ^ i)) = Z.testbit a i.
Proof.
  intros. rw /ctrue land_pow2_testbit //. destruct (Z.testbit a i); [|done].
  apply negb_true_iff, Z.eqb_neq. lia.
Qed.

Lemma shl_1_pow2 w i : 0 ≤ i < w → shl w 1 i = 2 ^ i.
Proof.
  intros. rw /shl Z.shiftl_1_l. apply wrap_small. split; [lia|].
  apply Z.pow_lt_mono_r; lia.
Qed.

Lemma land_ones_mod a n : 0 ≤ n → Z.land a (2 ^ n - 1) = a mod 2 ^ n.
Proof. intros. rw -Z.land_ones // Z.ones_equiv. f_equal. Qed.

Lemma pow2_divide_le a b : 0 ≤ a ≤ b → (2 ^ a | 2 ^ b).
Proof.
  intros. exists (2 ^ (b - a)). rw -Z.pow_add_r; [lia|lia|]. f_equal. lia.
Qed.

Lemma for_up_S {A} n i (body : Z → A → A) acc :
  for_up (Datatypes.S n) i body acc = for_up n (i + 1) body (body i acc).
Proof. done. Qed.

(** Loop invariant rule for a counted loop. *)
Lemma for_up_ind {A} (I : Z → A → Prop) n i (body : Z → A → A) acc :
  I i acc →
  (∀ j a, i ≤ j < i + Z.of_nat n → I j a → I (j + 1) (body j a)) →
  I (i + Z.of_nat n) (for_up n i body acc).
Proof.
  revert i acc. induction n as [|n IH]; intros i acc Hi Hstep; cbn [for_up].
  - by rw Z.add_0_r.
  - replace (i + Z.of_nat (Datatypes.S n)) with (i + 1 + Z.of_nat n) by lia.
    apply IH; [apply Hstep; [lia|done]|]. intros; apply Hstep; [lia|done].
Qed.

(** ** Arrays as maps *)

(** An array whose elements all hold [v], by its indices. *)
Definition filled {K V} `{Countable K} (v : V) (ks : list K) : gmap K V :=
  foldr (λ k m, <[k := v]> m) ∅ ks.

Lemma filled_lookup {K V} `{Countable K} (v w : V) (ks : list K) k :
  filled v ks !! k = Some w ↔ k ∈ ks ∧ v = w.
Proof.
  induction ks as [|k' ks IH]; cbn; [rw lookup_empty elem_of_nil; naive_solver|].
  rw lookup_insert_Some elem_of_cons IH. destruct (decide (k' = k)); naive_solver.
Qed.

(** Running the code of one component inside the state of a larger one. *)
Definition zoom {S T A} (get : T → S) (put : S → T → T) (m : M S A) : M T A := λ t,
  match m (get t) with
  | Ret (a, s) => Ret (a, put s t)
  | Panic => Panic
  | Fault => Fault
  | Diverge => Diverge
  end.

Lemma wp_zoom {S T A} (get : T → S) (put : S → T → T) (m : M S A) (Q : A → T → Prop) t :
  wp m (λ a s, Q a (put s t)) (get t) → wp (zoom get put m) Q t.
Proof. rw /wp /zoom. by destruct (m (get t)) as [[a s]| | |]. Qed.

Lemma wpn_zoom {S T A} N (get : T → S) (put : S → T → T) (m : M S A) (Q : A → T → Prop) t :
  wpn N m (λ a s, Q a (put s t)) (get t) → wpn N (zoom get put m) Q t.
Proof. rw /wpn /zoom. by destruct (m (get t)) as [[a s]| | |]. Qed.

Lemma wpp_zoom {S T A} (get : T → S) (put : S → T → T) (m : M S A) (Q : A → T → Prop) t :
  wpp m (λ a s, Q a (put s t)) (get t) → wpp (zoom get put m) Q t.
Proof. rw /wpp /zoom. by destruct (m (get t)) as [[a s]| | |]. Qed.

(** ** Automation *)

(** Machine-width lemmas used as rewrite rules and hints by every component. *)
Create HintDb kernel.
Create Rewrite HintDb kernel.
#[export] Hint Resolve wrap_range : kernel.
#[export] Hint Resolve wrap_small : kernel.
#[export] Hint Rewrite @wrap_wrap : kernel.
#[export] Hint Rewrite @shl_1_pow2 using lia : kernel.

(** One step of a weakest-precondition proof: split a bind, or run a
    primitive whose side condition is at hand. *)
Ltac wp_step :=
  lazymatch goal with
  | |- wp (mbind _ _) _ _ => apply wp_bind
  | |- wp (mret _) _ _ => apply wp_ret
  | |- wp (gets _) _ _ => apply wp_gets
  | |- wp (modify _) _ _ => apply wp_modify
  | |- wp (panic_if _) _ _ => apply wp_panic_if
  | |- wp (assert _) _ _ => apply wp_assert
  | |- wp (deref _) _ _ => eapply wp_deref
  | |- wp (lift_outcome _) _ _ => eapply wp_lift
  end.

(** Changing one entry of a map changes the number of entries with a property by that entry. *)
Lemma count_insert {A} (P : nat * A → bool) (m : gmap nat A) i p p' : m !! i = Some p →
  (size (filter (λ kp, P kp = true) (<[i := p']> m)) + (if P (i, p) then 1 else 0) =
   size (filter (λ kp, P kp = true) m) + (if P (i, p') then 1 else 0))%nat.
Proof.
  intros Hi. assert (∀ q, size (filter (λ kp, P kp = true) (<[i := q]> (delete i m))) =
    (size (filter (λ kp, P kp = true) (delete i m)) + (if P (i, q) then 1 else 0))%nat) as Hq.
  { intros q. destruct (P (i, q)) eqn:E.
    - rw map_filter_insert_True //. rw map_size_insert_None; [|lia]. apply map_lookup_filter_None. left. apply lookup_delete_eq.
    - rw map_filter_insert_False; [by rw E|]. rw delete_delete_eq. lia. }
  pose proof (Hq p) as E1. pose proof (Hq p') as E2. rw insert_delete_eq in E2. rw insert_delete_id // in E1. lia.
Qed.

(** An entry with the property is counted; when all entries are counted, all have it. *)
Lemma count_pos {A} (P : nat * A → bool) (m : gmap nat A) i p : m !! i = Some p → P (i, p) = true →
  (0 < size (filter (λ kp, P kp = true) m))%nat.
Proof.
  intros Hi HP. destruct (size _) eqn:E; [|lia]. apply map_size_empty_iff in E.
  assert (filter (λ kp, P kp = true) m !! i = Some p) as Hf by by apply map_lookup_filter_Some. by rw E in Hf.
Qed.

Lemma count_all {A} (P : nat * A → bool) (m : gmap nat A) : size (filter (λ kp, P kp = true) m) = size m →
  ∀ i p, m !! i = Some p → P (i, p) = true.
Proof.
  intros E i p Hi. assert (filter (λ kp, P kp = true) m = m) as Em.
  { apply map_subseteq_size_eq; [apply map_filter_subseteq|lia]. }
  rw -Em in Hi. by apply map_lookup_filter_Some in Hi as [_ ?].
Qed.

(** When one entry is counted, no other has the property. *)
Lemma count_one {A} (P : nat * A → bool) (m : gmap nat A) i p j q : size (filter (λ kp, P kp = true) m) = 1%nat →
  m !! i = Some p → P (i, p) = true → m !! j = Some q → P (j, q) = true → j = i.
Proof.
  intros E Hi HP Hj HQ. destruct (decide (j = i)) as [|Hne]; [done|]. exfalso.
  assert (filter (λ kp, P kp = true) m !! i = Some p) as Fi by by apply map_lookup_filter_Some.
  assert (filter (λ kp, P kp = true) m !! j = Some q) as Fj by by apply map_lookup_filter_Some.
  assert (is_Some (filter (λ kp, P kp = true) m !! i)) as Hs by (rw Fi; eauto). pose proof (map_size_delete_Some _ _ Hs) as Ed. rw E in Ed. apply map_size_empty_iff in Ed.
  assert (delete i (filter (λ kp, P kp = true) m) !! j = Some q) as Hd by (rw lookup_delete_ne; [congruence|exact Fj]). by rw Ed in Hd.
Qed.

(** Linear facts about the word width. *)
Ltac arch_lia := destruct arch_width_cases; lia.

(** Linear arithmetic with division and remainder by constants. *)
Ltac zdiv := Z.to_euclidean_division_equations; lia.
