(* ===== verification/Bits.v ===== *)
(** Bit manipulation and software arithmetic of the kernel library:
    [src/src/libk/lib/bit.c] and [src/src/libk/lib/math.c], with the alignment
    macros of [src/src/libk/include/bit.h] and the helpers of
    [src/src/libk/include/align.h].

    Out parameters ([qout], [rout]) are components of the result; a NULL out
    parameter discards its component.  Code that can shift by the width of the
    shifted type or more has a result in [outcome]. *)

From stdpp Require Import base list gmap.
From Stdlib Require Import ZArith Lia.
From Corelib Require Import ssreflect.
From S2P Require Import Prelude.

(** ** Alignment macros (bit.h), at an unsigned type of [w] bits *)

Definition ALIGN_UP (w s a : Z) : Z :=
  Z.land (wrap w (s + wrap w (a - 1))) (bnot w (wrap w (a - 1))).
Definition ALIGN_DOWN (w s a : Z) : Z := Z.land s (bnot w (wrap w (a - 1))).
Definition ALIGNED (w s a : Z) : bool := negb (ctrue (Z.land s (wrap w (a - 1)))).

(** ** Byte order (bit.c) *)

Definition swap_endian16 (val : Z) : Z :=
  let r := Z.land val 255 in
  let l := Z.land (shr val 8) 255 in
  u16 (Z.lor (Z.shiftl r 8) l).

Definition swap_endian32 (val : Z) : Z :=
  let rr := Z.land val 255 in
  let rl := Z.land (shr val 8) 255 in
  let lr := Z.land (shr val 16) 255 in
  let ll := Z.land (shr val 24) 255 in
  Z.lor (Z.lor (Z.lor (shl 32 rr 24) (shl 32 rl 16)) (shl 32 lr 8)) ll.

Definition swap_endian64 (val : Z) : Z :=
  let rrr := Z.land val 255 in
  let rrl := Z.land (shr val 8) 255 in
  let rlr := Z.land (shr val 16) 255 in
  let rll := Z.land (shr val 24) 255 in
  let lrr := Z.land (shr val 32) 255 in
  let lrl := Z.land (shr val 40) 255 in
  let llr := Z.land (shr val 48) 255 in
  let lll := Z.land (shr val 56) 255 in
  Z.lor (Z.lor (Z.lor (Z.lor (Z.lor (Z.lor (Z.lor
    (shl 64 rrr 56) (shl 64 rrl 48)) (shl 64 rlr 40)) (shl 64 rll 32))
    (shl 64 lrr 24)) (shl 64 lrl 16)) (shl 64 llr 8)) lll.

Definition swap_endian `{Arch} (val : Z) : Z :=
  if ARCH_WIDTH =? 64 then ulong (swap_endian64 (u64 val))
  else ulong (swap_endian32 (u32 val)).

Definition swap_big_endian16 `{Arch} (val : Z) : Z :=
  if ARCH_BIG_ENDIAN then val else swap_endian16 val.
Definition swap_big_endian32 `{Arch} (val : Z) : Z :=
  if ARCH_BIG_ENDIAN then val else swap_endian32 val.
Definition swap_big_endian64 `{Arch} (val : Z) : Z :=
  if ARCH_BIG_ENDIAN then val else swap_endian64 val.
Definition swap_big_endian `{Arch} (val : Z) : Z :=
  if ARCH_BIG_ENDIAN then val else swap_endian val.
Definition swap_little_endian16 `{Arch} (val : Z) : Z :=
  if ARCH_BIG_ENDIAN then swap_endian16 val else val.
Definition swap_little_endian32 `{Arch} (val : Z) : Z :=
  if ARCH_BIG_ENDIAN then swap_endian32 val else val.
Definition swap_little_endian64 `{Arch} (val : Z) : Z :=
  if ARCH_BIG_ENDIAN then swap_endian64 val else val.
Definition swap_little_endian `{Arch} (val : Z) : Z :=
  if ARCH_BIG_ENDIAN then swap_endian val else val.

(** ** Counting bits (bit.c) *)

Definition popcount64 (val : Z) : Z :=
  for_up 64 0 (λ i count, if ctrue (Z.land val (shl 64 1 i)) then count + 1 else count) 0.
Definition popcount32 (val : Z) : Z :=
  for_up 32 0 (λ i count, if ctrue (Z.land val (shl 32 1 i)) then count + 1 else count) 0.
Definition popcount16 (val : Z) : Z :=
  for_up 16 0 (λ i count, if ctrue (Z.land val (shl 32 1 i)) then count + 1 else count) 0.
Definition popcount `{Arch} (val : Z) : Z :=
  if ARCH_WIDTH =? 64 then popcount64 (u64 val) else popcount32 (u32 val).

(** [for (i = 0; i < n && !(val >> s); i++, val <<= 1) lead_zeros++]
    at the unsigned type of [w] bits. *)
Fixpoint clz_loop (n : nat) (w s val lead_zeros : Z) : Z :=
  match n with
  | O => lead_zeros
  | S n' =>
      if ctrue (shr val s) then lead_zeros
      else clz_loop n' w s (shl w val 1) (lead_zeros + 1)
  end.

Definition clz64 (val : Z) : Z := clz_loop 64 64 63 val 0.
Definition clz32 (val : Z) : Z := clz_loop 32 32 31 val 0.
Definition clz16 (val : Z) : Z := clz_loop 16 16 16 val 0.
Definition clz `{Arch} (val : Z) : Z :=
  if ARCH_WIDTH =? 64 then clz64 (u64 val) else clz32 (u32 val).

(** [for (i = 0; i < n && !(val & 0x1); i++, val >>= 1) trail_zeros++]. *)
Fixpoint ctz_loop (n : nat) (val trail_zeros : Z) : Z :=
  match n with
  | O => trail_zeros
  | S n' =>
      if ctrue (Z.land val 1) then trail_zeros
      else ctz_loop n' (shr val 1) (trail_zeros + 1)
  end.

Definition ctz64 (val : Z) : Z := ctz_loop 64 val 0.
Definition ctz32 (val : Z) : Z := ctz_loop 32 val 0.
Definition ctz16 (val : Z) : Z := ctz_loop 16 val 0.
Definition ctz `{Arch} (val : Z) : Z :=
  if ARCH_WIDTH =? 64 then ctz64 (u64 val) else ctz32 (u32 val).

(** [for (shift = val; shift; pos++, shift >>= 1);], at most [n] iterations. *)
Fixpoint bit_length_loop (n : nat) (shift pos : Z) : outcome Z :=
  if ctrue shift then
    match n with
    | O => Diverge
    | S n' => bit_length_loop n' (shr shift 1) (pos + 1)
    end
  else Ret pos.

Definition align_to_power2_next64 (val : Z) : outcome Z :=
  if val =? 0 then Ret 0 else
  pos ← bit_length_loop 64 val 0;
  aligned ← shl_chk 64 1 pos;
  prev ← shl_chk 64 1 (pos - 1);
  if prev =? val then Ret val else Ret aligned.

Definition align_to_power2_next32 (val : Z) : outcome Z :=
  if val =? 0 then Ret 0 else
  pos ← bit_length_loop 32 val 0;
  aligned ← shl_chk 64 1 pos;
  prev ← shl_chk 64 1 (pos - 1);
  if u32 prev =? val then Ret val else Ret (u32 aligned).

Definition align_to_power2_next `{Arch} (val : Z) : outcome Z :=
  if ARCH_WIDTH =? 64 then align_to_power2_next64 (u64 val)
  else align_to_power2_next32 (u32 val).

(** ** Software multiplication (math.c) *)

Definition mul_u32 (a b : Z) : Z :=
  for_up 32 0 (λ i um, if ctrue (Z.land b (shl 32 1 i)) then u32 (um + shl 32 a i) else um) 0.

(** Two's complement negation, [~x + 1]. *)
Definition neg (w x : Z) : Z := wrap w (bnot w x + 1).

Definition mul_s32 (a b : Z) : Z :=
  let ua := u32 a in
  let ub := u32 b in
  let neg_a := ctrue (shr ua 31) in
  let neg_b := ctrue (shr ub 31) in
  let um := mul_u32 (if neg_a then neg 32 ua else ua) (if neg_b then neg 32 ub else ub) in
  s32 (if xorb neg_a neg_b then neg 32 um else um).

(** The 64-bit loop tests [b & (0x1u << i)]: a 32-bit shift. *)
Fixpoint mul_u64_loop (n : nat) (i a b um : Z) : outcome Z :=
  match n with
  | O => Ret um
  | S n' =>
      bit ← shl_chk 32 1 i;
      mul_u64_loop n' (i + 1) a b (if ctrue (Z.land b bit) then u64 (um + shl 64 a i) else um)
  end.

Definition mul_u64 (a b : Z) : outcome Z := mul_u64_loop 64 0 a b 0.

Definition mul_s64 (a b : Z) : outcome Z :=
  let ua := u64 a in
  let ub := u64 b in
  let neg_a := ctrue (shr ua 63) in
  let neg_b := ctrue (shr ub 63) in
  um ← mul_u64 (if neg_a then neg 64 ua else ua) (if neg_b then neg 64 ub else ub);
  Ret (s64 (if xorb neg_a neg_b then neg 64 um else um)).

Definition mul_ulong `{Arch} (a b : Z) : outcome Z :=
  if ARCH_WIDTH =? 64 then um ← mul_u64 (u64 a) (u64 b); Ret (ulong um)
  else Ret (ulong (mul_u32 (u32 a) (u32 b))).

(** [mul_long] has return type [ulong]. *)
Definition mul_long `{Arch} (a b : Z) : outcome Z :=
  if ARCH_WIDTH =? 64 then um ← mul_s64 (s64 a) (s64 b); Ret (ulong um)
  else Ret (ulong (mul_s32 (s32 a) (s32 b))).

(** ** Software division (math.c) *)

(** [for (i = n; i >= 0; i--)] of [div_u32] and [div_u64], at width [w]; the
    quotient bit is [0x1u << i] in both. *)
Fixpoint div_loop (w : Z) (n : nat) (b q r : Z) : outcome (Z * Z) :=
  t ← shl_chk w b (Z.of_nat n);
  '(q, r) ← (if t <=? r then
              bit ← shl_chk 32 1 (Z.of_nat n);
              Ret (Z.lor q bit, wrap w (r - t))
            else Ret (q, r));
  match n with
  | O => Ret (q, r)
  | S n' => div_loop w n' b q r
  end.

Definition div_u32 (a b : Z) : outcome (Z * Z) := div_loop 32 (Z.to_nat (clz32 b)) b 0 a.
Definition div_u64 (a b : Z) : outcome (Z * Z) := div_loop 64 (Z.to_nat (clz64 b)) b 0 a.

(** The sign fix-up shared, statement for statement, by [div_s32] and
    [div_s64]: both divide magnitudes held in [u32] variables. *)
Definition div_signed (neg_a neg_b : bool) (a b : Z) : outcome (Z * Z) :=
  let ua := if neg_a then neg 32 (u32 a) else u32 a in
  let ub := if neg_b then neg 32 (u32 b) else u32 b in
  '(uq, ur) ← div_u32 ua ub;
  Ret (if neg_a && neg_b then (uq, neg 32 ur)
       else if neg_b then (neg 32 uq, ur)
       else if neg_a && ctrue ur then (neg 32 (u32 (uq + 1)), u32 (neg 32 ur + ub))
       else (uq, ur)).

Definition div_s32 (a b : Z) : outcome (Z * Z) :=
  '(uq, ur) ← div_signed (ctrue (shr a 31)) (ctrue (shr b 31)) a b;
  Ret (s32 uq, s32 ur).

(** [(s64)uq] and [(s64)ur] zero-extend the [u32] magnitudes. *)
Definition div_s64 (a b : Z) : outcome (Z * Z) :=
  '(uq, ur) ← div_signed (ctrue (shr a 63)) (ctrue (shr b 63)) a b;
  Ret (s64 uq, s64 ur).

Definition div_ulong `{Arch} (a b : Z) : outcome (Z * Z) :=
  if ARCH_WIDTH =? 64 then div_u64 (u64 a) (u64 b) else div_u32 (u32 a) (u32 b).
Definition div_long `{Arch} (a b : Z) : outcome (Z * Z) :=
  if ARCH_WIDTH =? 64 then div_s64 (s64 a) (s64 b) else div_s32 (s32 a) (s32 b).

Definition quo_u64 (a b : Z) : outcome Z := '(q, _) ← div_u64 a b; Ret q.
Definition quo_s64 (a b : Z) : outcome Z := '(q, _) ← div_s64 a b; Ret (u64 q).
Definition quo_u32 (a b : Z) : outcome Z := '(q, _) ← div_u32 a b; Ret q.
Definition quo_s32 (a b : Z) : outcome Z := '(q, _) ← div_s32 a b; Ret (u64 q).
Definition quo_ulong `{Arch} (a b : Z) : outcome Z :=
  if ARCH_WIDTH =? 64 then quo_u64 (u64 a) (u64 b) else quo_u32 (u32 a) (u32 b).
Definition quo_long `{Arch} (a b : Z) : outcome Z :=
  q ← (if ARCH_WIDTH =? 64 then quo_s64 (s64 a) (s64 b) else quo_s32 (s32 a) (s32 b));
  Ret (swrap ARCH_WIDTH q).

Definition rem_u64 (a b : Z) : outcome Z := '(_, r) ← div_u64 a b; Ret r.
Definition rem_s64 (a b : Z) : outcome Z := '(_, r) ← div_s64 a b; Ret (u64 r).
Definition rem_u32 (a b : Z) : outcome Z := '(_, r) ← div_u32 a b; Ret r.
Definition rem_s32 (a b : Z) : outcome Z := '(_, r) ← div_s32 a b; Ret (u64 r).
Definition rem_ulong `{Arch} (a b : Z) : outcome Z :=
  if ARCH_WIDTH =? 64 then rem_u64 (u64 a) (u64 b) else rem_u32 (u32 a) (u32 b).
Definition rem_long `{Arch} (a b : Z) : outcome Z :=
  r ← (if ARCH_WIDTH =? 64 then rem_s64 (s64 a) (s64 b) else rem_s32 (s32 a) (s32 b));
  Ret (swrap ARCH_WIDTH r).

(** ** Alignment to any value (align.h) *)

Definition align_up_ulong `{Arch} (val align : Z) : outcome Z :=
  if popcount align =? 1 then Ret (ALIGN_UP ARCH_WIDTH val align) else Panic.
Definition align_down_ulong `{Arch} (val align : Z) : outcome Z :=
  if popcount align =? 1 then Ret (ALIGN_DOWN ARCH_WIDTH val align) else Panic.

Definition align_up_ulong_any `{Arch} (val align : Z) : outcome Z :=
  if align =? 0 then Panic else
  '(q, r) ← div_ulong val align;
  if ctrue r then mul_ulong (ulong (q + 1)) align else Ret val.

Definition align_down_ulong_any `{Arch} (val align : Z) : outcome Z :=
  if align =? 0 then Panic else
  '(q, r) ← div_ulong val align;
  if ctrue r then mul_ulong q align else Ret val.

(** ** Reference definitions *)

(** Byte [k] of [v], counted from the least significant one. *)
Definition byte_of (k v : Z) : Z := v / 2 ^ (8 * k) mod 256.

(** The number of bits set in [v] below position [w]. *)
Definition bits_set (w : nat) (v : Z) : Z :=
  Z.of_nat (length (filter (λ i : Z, Z.testbit v i = true) (seqZ 0 (Z.of_nat w)))).

(** ** Byte order *)

Section ByteOrder.

(** One byte moved from position [a] to position [b]. *)
Lemma moved_byte_testbit w v a b i : 0 ≤ a → 0 ≤ b → b + 8 ≤ w → 0 ≤ i →
  Z.testbit (shl w (Z.land (shr v a) 255) b) i =
  (b <=? i) && (i <? b + 8) && Z.testbit v (i - b + a).
Proof.
  intros. rw /shl /shr wrap_testbit; [lia|].
  rw Z.shiftl_spec // Z.land_spec.
  change 255 with (Z.ones 8).
  destruct (Z.leb_spec b i); simpl; last first.
  { rw Z.testbit_neg_r; [lia|]. by rw andb_false_r. }
  rw Z.shiftr_spec; [lia|].
  destruct (Z.ltb_spec i (b + 8)).
  - rw Z.ones_spec_low; [lia|]. rw (proj2 (Z.ltb_lt i w)); [lia|]. by rw andb_true_r.
  - rw Z.ones_spec_high; [lia|]. by rw !andb_false_r.
Qed.

Lemma low_byte_testbit v a i : 0 ≤ a → 0 ≤ i →
  Z.testbit (Z.land (shr v a) 255) i = (i <? 8) && Z.testbit v (i + a).
Proof.
  intros. rw Z.land_spec /shr Z.shiftr_spec //.
  change 255 with (Z.ones 8). rw Z.testbit_ones_nonneg; [lia|lia|].
  by rw andb_comm.
Qed.

Lemma shr_0 v : v = shr v 0.
Proof. by rw /shr Z.shiftr_0_r. Qed.

(** Bit [i] of the swapped word is the bit at the same place in the mirrored byte. *)
Lemma swap_endian64_testbit v i : 0 ≤ i < 64 →
  Z.testbit (swap_endian64 v) i = Z.testbit v (8 * (7 - i / 8) + i mod 8).
Proof.
  intros. rw /swap_endian64 {1}(shr_0 v) !Z.lor_spec.
  rw !moved_byte_testbit; try lia. rw low_byte_testbit; [lia|lia|].
  pose proof (Z.div_mod i 8 ltac:(lia)). pose proof (Z.mod_pos_bound i 8 ltac:(lia)).
  assert (0 ≤ i / 8 < 8) as Hq by lia.
  generalize dependent (i mod 8). generalize dependent (i / 8). intros q Hq m Hi Hm.
  assert (q = 0 ∨ q = 1 ∨ q = 2 ∨ q = 3 ∨ q = 4 ∨ q = 5 ∨ q = 6 ∨ q = 7) as Hcases by lia.
  destruct_or! Hcases; subst q; repeat
    match goal with
    | |- context [?a <=? ?b] => destruct (Z.leb_spec a b); try lia
    | |- context [?a <? ?b] => destruct (Z.ltb_spec a b); try lia
    end; simpl; rw ?orb_false_r; f_equal; lia.
Qed.

Lemma swap_endian32_testbit v i : 0 ≤ i < 32 →
  Z.testbit (swap_endian32 v) i = Z.testbit v (8 * (3 - i / 8) + i mod 8).
Proof.
  intros. rw /swap_endian32 {1}(shr_0 v) !Z.lor_spec.
  rw !moved_byte_testbit; try lia. rw low_byte_testbit; [lia|lia|].
  pose proof (Z.div_mod i 8 ltac:(lia)). pose proof (Z.mod_pos_bound i 8 ltac:(lia)).
  assert (0 ≤ i / 8 < 4) as Hq by lia.
  generalize dependent (i mod 8). generalize dependent (i / 8). intros q Hq m Hi Hm.
  assert (q = 0 ∨ q = 1 ∨ q = 2 ∨ q = 3) as Hcases by lia.
  destruct_or! Hcases; subst q; repeat
    match goal with
    | |- context [?a <=? ?b] => destruct (Z.leb_spec a b); try lia
    | |- context [?a <? ?b] => destruct (Z.ltb_spec a b); try lia
    end; simpl; rw ?orb_false_r; f_equal; lia.
Qed.

Lemma byte_of_testbit k v i : 0 ≤ k → 0 ≤ i →
  Z.testbit (byte_of k v) i = (i <? 8) && Z.testbit v (i + 8 * k).
Proof.
  intros. rw /byte_of. change 256 with (2 ^ 8).
  rw -/(wrap 8 _) wrap_testbit; [lia|]. rw -Z.shiftr_div_pow2; [lia|].
  by rw Z.shiftr_spec.
Qed.

Lemma bytes_inj n u v : 0 ≤ n → uint (8 * n) u → uint (8 * n) v →
  (∀ k, 0 ≤ k < n → byte_of k u = byte_of k v) → u = v.
Proof.
  intros Hn Hu Hv Hb. apply Z.bits_inj'. intros i Hi.
  destruct (Z.lt_ge_cases i (8 * n)).
  - assert (0 ≤ i / 8 < n) as Hk by (split; [apply Z.div_pos|apply Z.div_lt_upper_bound]; lia).
    pose proof (Hb _ Hk) as Heq. apply (f_equal (λ z, Z.testbit z (i mod 8))) in Heq.
    pose proof (Z.mod_pos_bound i 8 ltac:(lia)). pose proof (Z.div_mod i 8 ltac:(lia)).
    rw !byte_of_testbit in Heq; try lia.
    rw (proj2 (Z.ltb_lt (i mod 8) 8)) /= in Heq; [lia|].
    by replace (i mod 8 + 8 * (i / 8)) with i in Heq by lia.
  - by rw !(uint_testbit_high (8 * n)).
Qed.

(** Bits above and below a boundary. *)
Lemma lor_low_part c k r : 0 ≤ k → 0 ≤ r < 2 ^ k → Z.lor (c * 2 ^ k) r = c * 2 ^ k + r.
Proof.
  intros Hk Hr. rw -(Z.add_lor_land (c * 2 ^ k) r). assert (Z.land (c * 2 ^ k) r = 0) as ->; [|lia].
  apply Z.bits_inj'. intros i Hi. rw Z.land_spec Z.bits_0 -Z.shiftl_mul_pow2 // Z.shiftl_spec //.
  destruct (Z.lt_ge_cases i k); [by rw Z.testbit_neg_r; [lia|]|]. rw (uint_testbit_high k r i) //. by rw andb_false_r.
Qed.

Lemma lor_uint w a b : 0 ≤ w → uint w a → uint w b → uint w (Z.lor a b).
Proof.
  intros Hw [??] [??]. split; [apply Z.lor_nonneg; lia|].
  destruct (Z.eq_dec (Z.lor a b) 0) as [->|]; [lia|].
  apply Z.log2_lt_pow2; [pose proof (Z.lor_nonneg a b); lia|].
  rw Z.log2_lor //.
  destruct (Z.eq_dec a 0) as [->|], (Z.eq_dec b 0) as [->|]; try done.
  all: apply Z.max_lub_lt; try (apply Z.log2_lt_pow2; lia).
  all: destruct (Z.eq_dec w 0) as [->|]; [lia|]; change (Z.log2 0) with 0; lia.
Qed.

Lemma swap_endian64_uint v : uint 64 (swap_endian64 v).
Proof.
  rw /swap_endian64.
  assert (∀ a, uint 64 (Z.land a 255)) as Hb.
  { intros a. change 255 with (Z.ones 8). rw Z.land_ones //.
    pose proof (Z.mod_pos_bound a (2 ^ 8) ltac:(lia)). rw /uint; lia. }
  repeat apply lor_uint; try done; try (by apply wrap_range).
Qed.

Lemma swap_endian32_uint v : uint 32 (swap_endian32 v).
Proof.
  rw /swap_endian32.
  assert (∀ a, uint 32 (Z.land a 255)) as Hb.
  { intros a. change 255 with (Z.ones 8). rw Z.land_ones //.
    pose proof (Z.mod_pos_bound a (2 ^ 8) ltac:(lia)). rw /uint; lia. }
  repeat apply lor_uint; try done; try (by apply wrap_range).
Qed.

Lemma swap_endian32_byte k v : 0 ≤ k < 4 →
  byte_of k (swap_endian32 v) = byte_of (3 - k) v.
Proof.
  intros. apply Z.bits_inj'. intros i Hi. rw !byte_of_testbit; try lia.
  destruct (Z.ltb_spec i 8); simpl; [|done].
  rw swap_endian32_testbit; [lia|]. f_equal.
  replace (i + 8 * k) with (k * 8 + i) by lia.
  rw Z.div_add_l; [lia|]. rw (Z.add_comm (k * 8) i) Z.mod_add; [lia|].
  rw Z.div_small; [lia|]. rw Z.mod_small; lia.
Qed.

Lemma swap_endian64_byte k v : 0 ≤ k < 8 →
  byte_of k (swap_endian64 v) = byte_of (7 - k) v.
Proof.
  intros. apply Z.bits_inj'. intros i Hi. rw !byte_of_testbit; try lia.
  destruct (Z.ltb_spec i 8); simpl; [|done].
  rw swap_endian64_testbit; [lia|]. f_equal.
  replace (i + 8 * k) with (k * 8 + i) by lia.
  rw Z.div_add_l; [lia|]. rw (Z.add_comm (k * 8) i) Z.mod_add; [lia|].
  rw Z.div_small; [lia|]. rw Z.mod_small; lia.
Qed.

End ByteOrder.

(** ** Counting bits *)

Section Counting.

Lemma filter_count_app (P : Z → Prop) `{∀ x, Decision (P x)} l1 l2 :
  length (filter P (l1 ++ l2)) = (length (filter P l1) + length (filter P l2))%nat.
Proof. by rw filter_app length_app. Qed.

Lemma bits_set_S w v :
  bits_set (S w) v = bits_set w v + (if Z.testbit v (Z.of_nat w) then 1 else 0).
Proof.
  rw /bits_set. rw (_ : Z.of_nat (S w) = Z.of_nat w + 1); [lia|].
  rw seqZ_app; [lia|lia|]. rw filter_count_app Nat2Z.inj_add. f_equal.
  rw Z.add_0_l. change (seqZ (Z.of_nat w) 1) with [Z.of_nat 0 + Z.of_nat w].
  rw Z.add_0_l filter_cons. destruct (Z.testbit v (Z.of_nat w)); by case_decide.
Qed.

(** The counting loop, for any width of the shifted constant. *)
Lemma popcount_loop w n v : Z.of_nat n ≤ w →
  for_up n 0 (λ i count, if ctrue (Z.land v (shl w 1 i)) then count + 1 else count) 0
  = bits_set n v.
Proof.
  intros.
  pose (I := λ (i c : Z), c = bits_set (Z.to_nat i) v).
  enough (I (0 + Z.of_nat n) (for_up n 0
    (λ i count, if ctrue (Z.land v (shl w 1 i)) then count + 1 else count) 0)) as HI.
  { rw HI Z.add_0_l. by rw Nat2Z.id. }
  apply for_up_ind; [done|]. intros j c Hj ->. rw /I.
  rw shl_1_pow2; [lia|]. rw ctrue_land_pow2; [lia|].
  rw (_ : Z.to_nat (j + 1) = S (Z.to_nat j)); [lia|].
  rw bits_set_S Z2Nat.id; [lia|]. destruct (Z.testbit v j); lia.
Qed.

Lemma popcount64_bits v : popcount64 v = bits_set 64 v.
Proof. by apply popcount_loop. Qed.

Lemma popcount32_bits v : popcount32 v = bits_set 32 v.
Proof. by apply popcount_loop. Qed.

Lemma bits_set_nonneg n v : 0 ≤ bits_set n v.
Proof. rw /bits_set. lia. Qed.

Lemma bits_set_zero n v :
  bits_set n v = 0 ↔ ∀ i, 0 ≤ i < Z.of_nat n → Z.testbit v i = false.
Proof.
  induction n as [|n IH].
  - split; [|done]. intros _ i ?. lia.
  - rw bits_set_S. pose proof (bits_set_nonneg n v). split.
    + intros Hz i Hi. destruct (Z.testbit v (Z.of_nat n)) eqn:E; [lia|].
      destruct (Z.eq_dec i (Z.of_nat n)) as [->|]; [done|]. apply IH; lia.
    + intros Hall. rw (Hall (Z.of_nat n)); [lia|]. rw (proj2 IH) //.
      intros; apply Hall; lia.
Qed.

Lemma bits_set_one n v : bits_set n v = 1 ↔
  ∃ k, 0 ≤ k < Z.of_nat n ∧ ∀ i, 0 ≤ i < Z.of_nat n → Z.testbit v i = (i =? k).
Proof.
  induction n as [|n IH].
  - split; [done|]. intros (k & ? & _). lia.
  - rw bits_set_S. pose proof (bits_set_nonneg n v). split.
    + destruct (Z.testbit v (Z.of_nat n)) eqn:E; intros H1.
      * assert (bits_set n v = 0) as H0 by lia.
        pose proof (proj1 (bits_set_zero n v) H0) as Hz. exists (Z.of_nat n). split; [lia|].
        intros i Hi. destruct (Z.eqb_spec i (Z.of_nat n)) as [->|]; [done|]. apply Hz; lia.
      * rw Z.add_0_r in H1. apply IH in H1 as (k & ? & Hk). exists k. split; [lia|].
        intros i Hi. destruct (Z.eq_dec i (Z.of_nat n)) as [->|].
        -- rw E. symmetry. apply Z.eqb_neq. lia.
        -- apply Hk; lia.
    + intros (k & ? & Hk). destruct (Z.eq_dec k (Z.of_nat n)) as [->|].
      * rw Hk; [lia|]. rw Z.eqb_refl. rw (proj2 (bits_set_zero n v)) //.
        intros i Hi. rw Hk; [lia|]. apply Z.eqb_neq. lia.
      * rw (Hk (Z.of_nat n)); [lia|]. rw (proj2 (Z.eqb_neq (Z.of_nat n) k)); [lia|].
        rw Z.add_0_r. apply IH. exists k. split; [lia|]. intros; apply Hk; lia.
Qed.

Lemma bits_set_pow2 n v : uint (Z.of_nat n) v →
  bits_set n v = 1 ↔ ∃ k, 0 ≤ k < Z.of_nat n ∧ v = 2 ^ k.
Proof.
  intros Hv. rw bits_set_one. split; intros (k & ? & Hk); exists k; (split; [done|]).
  - apply Z.bits_inj'. intros i Hi. rw Z.pow2_bits_eqb; [lia|].
    rw (Z.eqb_sym k i). destruct (Z.lt_ge_cases i (Z.of_nat n)); [by apply Hk|].
    rw (uint_testbit_high _ _ _ Hv) //. symmetry. apply Z.eqb_neq. lia.
  - subst v. intros i ?. rw Z.pow2_bits_eqb; [lia|]. apply Z.eqb_sym.
Qed.

(** *** Leading zeros *)

Lemma shr_top_bit w v : 0 < w → uint w v →
  ctrue (shr v (w - 1)) = (2 ^ (w - 1) <=? v).
Proof.
  intros Hw [? Hv]. rw /ctrue /shr Z.shiftr_div_pow2; [lia|].
  assert (2 ^ w = 2 * 2 ^ (w - 1)) as E by (rw -Z.pow_succ_r; [lia|]; f_equal; lia).
  destruct (Z.leb_spec (2 ^ (w - 1)) v).
  - apply negb_true_iff, Z.eqb_neq.
    assert (1 ≤ v / 2 ^ (w - 1)); [|lia]. apply Z.div_le_lower_bound; lia.
  - rw Z.div_small; [lia|]. done.
Qed.

Lemma clz_loop_acc n w s v lead : clz_loop n w s v lead = lead + clz_loop n w s v 0.
Proof.
  revert v lead. induction n as [|n IH]; intros v lead; simpl; [lia|].
  destruct (ctrue _); [lia|]. rw (IH _ (lead + 1)) (IH _ (0 + 1)). lia.
Qed.

Lemma clz_loop_zero n w s : clz_loop n w s 0 0 = Z.of_nat n.
Proof.
  induction n as [|n IH]; [done|]. cbn [clz_loop].
  rw /shr /shl Z.shiftr_0_l Z.shiftl_0_l /ctrue /= clz_loop_acc.
  rw /wrap Zmod_0_l IH. lia.
Qed.

Lemma clz_loop_spec n w v : 0 < w → 0 < v < 2 ^ w → w - 1 - Z.log2 v < Z.of_nat n →
  clz_loop n w (w - 1) v 0 = w - 1 - Z.log2 v.
Proof.
  intros Hw. revert v. induction n as [|n IH]; intros v Hv Hn.
  { assert (Z.log2 v < w) by (apply Z.log2_lt_pow2; lia). lia. }
  cbn [clz_loop]. rw shr_top_bit //; [rw /uint; lia|].
  assert (2 ^ w = 2 * 2 ^ (w - 1)) as E by (rw -Z.pow_succ_r; [lia|]; f_equal; lia).
  destruct (Z.leb_spec (2 ^ (w - 1)) v).
  - assert (Z.log2 v = w - 1); [|lia]. apply Z.log2_unique; [lia|].
    replace (Z.succ (w - 1)) with w by lia. lia.
  - assert (shl w v 1 = 2 * v) as ->.
    { rw /shl Z.shiftl_mul_pow2 // wrap_small; [|lia]. rw /uint; lia. }
    rw clz_loop_acc. rw IH; rw ?Z.log2_double; lia.
Qed.

Lemma clz64_spec v : uint 64 v → clz64 v = if v =? 0 then 64 else 63 - Z.log2 v.
Proof.
  intros [??]. destruct (Z.eqb_spec v 0) as [->|]; [by apply clz_loop_zero|].
  rw /clz64. apply (clz_loop_spec 64 64); [lia|lia|].
  pose proof (Z.log2_nonneg v). lia.
Qed.

Lemma clz32_spec v : uint 32 v → clz32 v = if v =? 0 then 32 else 31 - Z.log2 v.
Proof.
  intros [??]. destruct (Z.eqb_spec v 0) as [->|]; [by apply clz_loop_zero|].
  rw /clz32. apply (clz_loop_spec 32 32); [lia|lia|].
  pose proof (Z.log2_nonneg v). lia.
Qed.

(** *** Trailing zeros *)

Lemma ctz_loop_acc n v acc : ctz_loop n v acc = acc + ctz_loop n v 0.
Proof.
  revert v acc. induction n as [|n IH]; intros v acc; simpl; [lia|].
  destruct (ctrue _); [lia|]. rw (IH _ (acc + 1)) (IH _ (0 + 1)). lia.
Qed.

Lemma ctrue_land_1 v : ctrue (Z.land v 1) = Z.testbit v 0.
Proof. by apply (ctrue_land_pow2 v 0). Qed.

Lemma ctz_loop_spec n v k :
  ctz_loop n v 0 = k →
  (0 ≤ k < Z.of_nat n ∧ Z.testbit v k = true ∧ (∀ j, 0 ≤ j < k → Z.testbit v j = false)) ∨
  (k = Z.of_nat n ∧ ∀ j, 0 ≤ j < k → Z.testbit v j = false).
Proof.
  revert v k. induction n as [|n IH]; intros v k; cbn [ctz_loop].
  { intros <-. right. split; [done|]. intros; lia. }
  rw ctrue_land_1. destruct (Z.testbit v 0) eqn:E.
  - intros <-. left. split_and!; [lia|lia|done|]. intros; lia.
  - rw ctz_loop_acc. intros <-.
    assert (∀ j, 0 ≤ j → Z.testbit (shr v 1) j = Z.testbit v (j + 1)) as Hsh.
    { intros. rw /shr. by apply Z.shiftr_spec. }
    set (k' := ctz_loop n (shr v 1) 0) in *.
    assert (∀ j, 0 ≤ j < 0 + 1 + k' →
      (∀ j, 0 ≤ j < k' → Z.testbit (shr v 1) j = false) → Z.testbit v j = false) as Hlow.
    { intros j Hj Hz. destruct (Z.eq_dec j 0) as [->|]; [done|].
      specialize (Hz (j - 1) ltac:(lia)). rw Hsh in Hz; [lia|].
      by replace (j - 1 + 1) with j in Hz by lia. }
    destruct (IH (shr v 1) k' eq_refl) as [(? & Ht & Hz)|(? & Hz)]; [left|right].
    + split_and!; [lia|lia| |auto]. rw Hsh in Ht; [lia|]. by rw Z.add_comm in Ht; rw -Z.add_assoc.
    + split; [lia|auto].
Qed.

End Counting.

(** ** Powers of two *)

Section PowerOfTwo.

Lemma bit_length_loop_spec n v pos : 0 ≤ v < 2 ^ Z.of_nat n →
  bit_length_loop n v pos = Ret (pos + if v =? 0 then 0 else Z.log2 v + 1).
Proof.
  revert v pos. induction n as [|n IH]; intros v pos Hv; cbn [bit_length_loop];
    rw /ctrue; destruct (Z.eqb_spec v 0) as [->|]; simpl; try (f_equal; lia).
  rw Nat2Z.inj_succ Z.pow_succ_r in Hv; [lia|].
  rw /shr -Z.div2_spec Z.div2_div IH. 
  { zdiv. }
  f_equal.
  destruct (Z.eqb_spec (v / 2) 0) as [E|].
  - assert (v = 1) as -> by zdiv. simpl. lia.
  - assert (Z.log2 v = Z.log2 (v / 2) + 1); [|lia].
    assert (v = 2 * (v / 2) ∨ v = 2 * (v / 2) + 1) as [E|E] by zdiv; rw {1}E.
    + rw Z.log2_double; zdiv.
    + rw Z.log2_succ_double; zdiv.
Qed.

(** [p] is the least power of two that is not below [v]. *)
Definition least_pow2 (v p : Z) : Prop :=
  (∃ k, 0 ≤ k ∧ p = 2 ^ k) ∧ v ≤ p ∧ ∀ j, 0 ≤ j → v ≤ 2 ^ j → p ≤ 2 ^ j.

Lemma least_pow2_exact k : 0 ≤ k → least_pow2 (2 ^ k) (2 ^ k).
Proof. intros. split_and!; [eauto|lia|auto]. Qed.

Lemma least_pow2_round v : 0 < v → v ≠ 2 ^ Z.log2 v → least_pow2 v (2 ^ (Z.log2 v + 1)).
Proof.
  intros Hv Hne. pose proof (Z.log2_spec v Hv). pose proof (Z.log2_nonneg v).
  split_and!; [exists (Z.log2 v + 1); split; [lia|done]|rw Z.add_1_r; lia|].
  intros j Hj Hle. apply Z.pow_le_mono_r; [lia|].
  assert (Z.log2 v < j); [|lia]. apply (Z.pow_lt_mono_r_iff 2); lia.
Qed.

Lemma align_to_power2_next64_spec v : 0 < v < 2 ^ 63 →
  ∃ p, align_to_power2_next64 v = Ret p ∧ least_pow2 v p ∧ p ≤ 2 ^ 63.
Proof.
  intros Hv. rw /align_to_power2_next64. rw (proj2 (Z.eqb_neq v 0)); [lia|].
  rw (bit_length_loop_spec 64); [simpl; lia|]. rw (proj2 (Z.eqb_neq v 0)); [lia|].
  pose proof (Z.log2_nonneg v).
  assert (Z.log2 v < 63) by (apply Z.log2_lt_pow2; lia).
  rw Z.add_0_l /mbind /outcome_bind /shl_chk.
  replace (Z.log2 v + 1 - 1) with (Z.log2 v) by lia.
  rw !(proj2 (Z.leb_le 0 _)); [lia|lia|]. rw !(proj2 (Z.ltb_lt _ 64)); [lia|lia|].
  cbn [andb]. rw !shl_1_pow2; [lia|lia|].
  destruct (Z.eqb_spec (2 ^ Z.log2 v) v) as [E|E].
  - exists v. split_and!; [done| |lia]. rw -E. by apply least_pow2_exact.
  - exists (2 ^ (Z.log2 v + 1)). split_and!; [done| |apply Z.pow_le_mono_r; lia].
    apply least_pow2_round; [lia|congruence].
Qed.

Lemma align_to_power2_next32_spec v : 0 < v ≤ 2 ^ 31 →
  ∃ p, align_to_power2_next32 v = Ret p ∧ least_pow2 v p ∧ p ≤ 2 ^ 31.
Proof.
  intros Hv. rw /align_to_power2_next32. rw (proj2 (Z.eqb_neq v 0)); [lia|].
  rw (bit_length_loop_spec 32); [simpl; lia|]. rw (proj2 (Z.eqb_neq v 0)); [lia|].
  pose proof (Z.log2_nonneg v).
  assert (Z.log2 v < 32) by (apply Z.log2_lt_pow2; lia).
  rw Z.add_0_l /mbind /outcome_bind /shl_chk.
  replace (Z.log2 v + 1 - 1) with (Z.log2 v) by lia.
  rw !(proj2 (Z.leb_le 0 _)); [lia|lia|]. rw !(proj2 (Z.ltb_lt _ 64)); [lia|lia|].
  cbn [andb]. rw !shl_1_pow2; [lia|lia|].
  rw wrap_small; [split; [lia|apply Z.pow_lt_mono_r; lia]|].
  destruct (Z.eqb_spec (2 ^ Z.log2 v) v) as [E|E].
  - exists v. split_and!; [done| |lia]. rw -E. by apply least_pow2_exact.
  - exists (2 ^ (Z.log2 v + 1)).
    assert (Z.log2 v < 31).
    { destruct (Z.eq_dec v (2 ^ 31)) as [->|]; [done|]. apply Z.log2_lt_pow2; lia. }
    split_and!; [|apply least_pow2_round; [lia|congruence]|apply Z.pow_le_mono_r; lia].
    rw wrap_small //. split; [lia|apply Z.pow_lt_mono_r; lia].
Qed.

End PowerOfTwo.

(** ** Multiplication *)

Section Multiplication.

Lemma mod_pow2_step b i : 0 ≤ i →
  b mod 2 ^ (i + 1) = b mod 2 ^ i + if Z.testbit b i then 2 ^ i else 0.
Proof.
  intros. rw Z.pow_add_r // Z.rem_mul_r; [lia|lia|].
  rw Z.testbit_eqb //. pose proof (Z.mod_pos_bound (b / 2 ^ i) 2 ltac:(lia)).
  rw Z.pow_1_r. destruct (Z.eqb_spec ((b / 2 ^ i) mod 2) 1); nia.
Qed.

Lemma mul_u32_correct a b : uint 32 b → mul_u32 a b = u32 (a * b).
Proof.
  intros Hb.
  pose (I := λ (i um : Z), um = u32 (a * (b mod 2 ^ i))).
  enough (I (0 + Z.of_nat 32) (mul_u32 a b)) as HI.
  { rw HI. do 2 f_equal. apply Z.mod_small. exact Hb. }
  apply (for_up_ind I); [by rw /I Z.mod_1_r Z.mul_0_r|].
  intros j um Hj ->. rw /I. rw shl_1_pow2; [lia|]. rw ctrue_land_pow2; [lia|].
  rw mod_pow2_step; [lia|]. destruct (Z.testbit b j); [|by rw Z.add_0_r].
  rw /shl Z.shiftl_mul_pow2; [lia|]. rw /wrap -Zplus_mod. f_equal. lia.
Qed.

Lemma neg_opp w x : 0 < w → neg w x = wrap w (- x).
Proof.
  intros. rw /neg /bnot /wrap Zplus_mod_idemp_l.
  f_equal. pose proof (Z.add_lnot_diag x). lia.
Qed.

Lemma wrap_mul_opp_l w a b : wrap w (wrap w (- a) * b) = wrap w (- (a * b)).
Proof. rw /wrap Zmult_mod_idemp_l. f_equal. lia. Qed.

Lemma wrap_mul_opp_r w a b : wrap w (a * wrap w (- b)) = wrap w (- (a * b)).
Proof. rw /wrap Zmult_mod_idemp_r. f_equal. lia. Qed.

Lemma wrap_opp_wrap w a : wrap w (- wrap w a) = wrap w (- a).
Proof. rw /wrap -(Z.sub_0_l (a mod _)) Zminus_mod_idemp_r. f_equal. Qed.

Lemma wrap_mul_cong w x x' y y' :
  wrap w x = wrap w x' → wrap w y = wrap w y' → wrap w (x * y) = wrap w (x' * y').
Proof.
  rw /wrap => Ex Ey. by rw (Zmult_mod x) (Zmult_mod x') Ex Ey.
Qed.

Lemma wrap_opp_cong w x : wrap w (- x) = wrap w (- wrap w x).
Proof. by rw wrap_opp_wrap. Qed.

Lemma swrap_wrap w a : 0 < w → swrap w (wrap w a) = swrap w a.
Proof. intros. rw /swrap /wrap. by rw Zplus_mod_idemp_l. Qed.

Lemma swrap_wrap_eq w a b : 0 < w → wrap w a = wrap w b → swrap w a = swrap w b.
Proof. intros ? E. rw -(swrap_wrap w a) // -(swrap_wrap w b) // E //. Qed.

End Multiplication.

(** ** Division *)

Section Division.

Lemma lor_disjoint_pow2 q n : 0 ≤ n → q mod 2 ^ (n + 1) = 0 → Z.lor q (2 ^ n) = q + 2 ^ n.
Proof.
  intros Hn Hq. rw -(Z.add_lor_land q (2 ^ n)) land_pow2_testbit //.
  assert (Z.testbit q n = false) as ->; [|lia].
  rw -(Z.mod_pow2_bits_low q (n + 1)); [lia|]. by rw Hq Z.bits_0.
Qed.

Lemma mod_pow2_weaken q n : 0 ≤ n → q mod 2 ^ (n + 1) = 0 → q mod 2 ^ n = 0.
Proof.
  intros ? Hq. apply Z.mod_divide in Hq; [|lia]. apply Z.mod_divide; [lia|].
  eapply Z.divide_trans; [|exact Hq]. apply pow2_divide_le. lia.
Qed.

Lemma shl_chk_small w b n : 0 ≤ n < w → 0 ≤ b → b * 2 ^ n < 2 ^ w →
  shl_chk w b n = Ret (b * 2 ^ n).
Proof.
  intros. rw /shl_chk. rw (proj2 (Z.leb_le _ _)) ?(proj2 (Z.ltb_lt _ _)); [lia|lia|].
  cbn [andb]. rw /shl Z.shiftl_mul_pow2; [lia|]. rw wrap_small //. rw /uint; nia.
Qed.

Lemma shl_chk_over w b n : w ≤ n → shl_chk w b n = Fault.
Proof.
  intros. rw /shl_chk. rw (proj2 (Z.ltb_ge n w)) // andb_false_r //.
Qed.

(** The loop invariant of the shift-and-subtract division: with [r] below
    [b * 2^(n+1)] and the low [n+1] bits of [q] clear, the remaining iterations
    add [r / b] to [q] and leave [r mod b] -- as long as no quotient bit at or
    above position 32 is needed. *)
Lemma div_loop_spec w n b q r :
  0 < b → Z.of_nat n < w → b * 2 ^ Z.of_nat n < 2 ^ w →
  0 ≤ r < b * 2 ^ (Z.of_nat n + 1) → q mod 2 ^ (Z.of_nat n + 1) = 0 →
  div_loop w n b q r =
  if r / b <? 2 ^ 32 then Ret (q + r / b, r mod b) else Fault.
Proof.
  intros Hb. revert q r. induction n as [|n IH]; intros q r Hnw Hbw Hr Hq; cbn [div_loop].
  all: rw (shl_chk_small w b); [lia|lia|lia|]; cbn [mbind outcome_bind].
  - change (Z.of_nat 0) with 0 in *. change (2 ^ (0 + 1)) with 2 in *.
    rw Z.pow_0_r Z.mul_1_r in Hbw *. pose proof (Z.mod_pos_bound r b Hb).
    pose proof (Z.div_mod r b ltac:(lia)) as Hdm.
    assert (r / b < 2 ^ 32) by nia. rw (proj2 (Z.ltb_lt (r / b) (2 ^ 32))) //.
    destruct (Z.leb_spec b r).
    + rw (shl_chk_small 32 1); [lia|lia|lia|]. cbn [mbind outcome_bind].
      assert (r / b = 1) as E1 by nia. rw E1 Z.mul_1_l.
      rw (lor_disjoint_pow2 q 0) //. rw wrap_small; [rw /uint; lia|].
      f_equal. f_equal. lia.
    + rw Z.div_small; [lia|]. rw Z.mod_small; [lia|]. cbn. by rw Z.add_0_r.
  - set (N := Z.of_nat (S n)) in *.
    assert (Z.of_nat n + 1 = N) as EN by lia.
    assert (2 ^ (N + 1) = 2 * 2 ^ N) as EP by (rw Z.pow_add_r; lia).
    assert (b * 2 ^ Z.of_nat n < 2 ^ w).
    { eapply Z.le_lt_trans; [|exact Hbw]. apply Z.mul_le_mono_nonneg_l; [lia|].
      apply Z.pow_le_mono_r; lia. }
    destruct (Z.leb_spec (b * 2 ^ N) r) as [Hle|Hlt].
    + assert (2 ^ N ≤ r / b) by (apply Z.div_le_lower_bound; lia).
      destruct (Z.lt_ge_cases N 32) as [H32|H32]; last first.
      { rw shl_chk_over //. cbn. rw (proj2 (Z.ltb_ge (r / b) (2 ^ 32))) //.
        apply Z.le_trans with (2 ^ N); [|done]. apply Z.pow_le_mono_r; lia. }
      rw shl_chk_small; [lia|lia|rw Z.mul_1_l; apply Z.pow_lt_mono_r; lia|].
      cbn [mbind outcome_bind]. rw Z.mul_1_l wrap_small; [rw /uint; lia|].
      rw lor_disjoint_pow2; [lia|done|].
      assert ((r - b * 2 ^ N) / b = r / b - 2 ^ N) as Ediv.
      { replace (r - b * 2 ^ N) with (r + (- 2 ^ N) * b) by lia. rw Z.div_add; lia. }
      assert ((r - b * 2 ^ N) mod b = r mod b) as Emod.
      { replace (r - b * 2 ^ N) with (r + (- 2 ^ N) * b) by lia. by rw Z.mod_add; lia. }
      rw IH; [lia|done|rw EN; lia| |].
      { rw EN Z.add_mod; [lia|]. by rw (mod_pow2_weaken q N) ?Z.mod_same; [lia..|]. }
      rw Ediv Emod.
      assert (r / b < 2 ^ (N + 1)) by (apply Z.div_lt_upper_bound; lia).
      assert (2 ^ (N + 1) ≤ 2 ^ 32) by (apply Z.pow_le_mono_r; lia).
      rw !(proj2 (Z.ltb_lt _ (2 ^ 32))); [lia|lia|]. f_equal. f_equal. lia.
    + cbn [mbind outcome_bind]. apply IH; [lia|done|rw EN; lia|].
      rw EN. apply mod_pow2_weaken; [lia|done].
Qed.

Lemma div_u64_spec a b : uint 64 a → 0 < b < 2 ^ 64 →
  div_u64 a b = if a / b <? 2 ^ 32 then Ret (a / b, a mod b) else Fault.
Proof.
  intros [??] Hb. pose proof (Z.log2_spec b ltac:(lia)) as [Hl1 Hl2].
  pose proof (Z.log2_nonneg b). assert (Z.log2 b < 64) by (apply Z.log2_lt_pow2; lia).
  assert (clz64 b = 63 - Z.log2 b) as Ec.
  { rw clz64_spec; [rw /uint; lia|]. rw (proj2 (Z.eqb_neq b 0)) //. lia. }
  rw /div_u64 Ec. rw (div_loop_spec 64 _ b 0 a); rw ?Z2Nat.id; try lia; try done.
  - rw (_ : 2 ^ 64 = 2 ^ Z.succ (Z.log2 b) * 2 ^ (63 - Z.log2 b)).
    { rw -Z.pow_add_r; [lia|lia|]. f_equal. lia. }
    apply Z.mul_lt_mono_pos_r; lia.
  - split; [lia|]. rw (_ : 63 - Z.log2 b + 1 = 64 - Z.log2 b); [lia|].
    assert (2 ^ 64 = 2 ^ Z.log2 b * 2 ^ (64 - Z.log2 b)) as E.
    { rw -Z.pow_add_r; [lia|lia|]. f_equal. lia. }
    assert (2 ^ Z.log2 b * 2 ^ (64 - Z.log2 b) ≤ b * 2 ^ (64 - Z.log2 b)); [|lia].
    apply Z.mul_le_mono_nonneg_r; lia.
Qed.

Lemma div_u32_spec a b : uint 32 a → 0 < b < 2 ^ 32 →
  div_u32 a b = Ret (a / b, a mod b).
Proof.
  intros [??] Hb. pose proof (Z.log2_spec b ltac:(lia)) as [Hl1 Hl2].
  pose proof (Z.log2_nonneg b). assert (Z.log2 b < 32) by (apply Z.log2_lt_pow2; lia).
  assert (clz32 b = 31 - Z.log2 b) as Ec.
  { rw clz32_spec; [rw /uint; lia|]. rw (proj2 (Z.eqb_neq b 0)) //. lia. }
  rw /div_u32 Ec. rw (div_loop_spec 32 _ b 0 a); rw ?Z2Nat.id; try lia; try done.
  - rw (_ : 2 ^ 32 = 2 ^ Z.succ (Z.log2 b) * 2 ^ (31 - Z.log2 b)).
    { rw -Z.pow_add_r; [lia|lia|]. f_equal. lia. }
    apply Z.mul_lt_mono_pos_r; lia.
  - split; [lia|]. rw (_ : 31 - Z.log2 b + 1 = 32 - Z.log2 b); [lia|].
    assert (2 ^ 32 = 2 ^ Z.log2 b * 2 ^ (32 - Z.log2 b)) as E.
    { rw -Z.pow_add_r; [lia|lia|]. f_equal. lia. }
    assert (2 ^ Z.log2 b * 2 ^ (32 - Z.log2 b) ≤ b * 2 ^ (32 - Z.log2 b)); [|lia].
    apply Z.mul_le_mono_nonneg_r; lia.
  - rw (proj2 (Z.ltb_lt _ _)) //. apply Z.div_lt_upper_bound; nia.
Qed.

End Division.

(** ** Facts at the word width, used by the components *)

Section AtWordWidth.
Context `{Arch}.

Lemma popcount_pow2 v : uint ARCH_WIDTH v →
  popcount v = 1 ↔ ∃ k, 0 ≤ k < ARCH_WIDTH ∧ v = 2 ^ k.
Proof.
  intros Hv. rw /popcount. destruct arch_width_cases as [E|E]; rw E in Hv |- *; cbn [Z.eqb Pos.eqb].
  - rw wrap_small // popcount32_bits. by apply (bits_set_pow2 32).
  - rw wrap_small // popcount64_bits. by apply (bits_set_pow2 64).
Qed.

(** The lowest set bit, or the width for zero. *)
Lemma ctz_lowest v : uint ARCH_WIDTH v → v ≠ 0 →
  0 ≤ ctz v < ARCH_WIDTH ∧ Z.testbit v (ctz v) = true ∧
  ∀ j, 0 ≤ j < ctz v → Z.testbit v j = false.
Proof.
  intros Hv Hz. rw /ctz. destruct arch_width_cases as [E|E]; rw E in Hv |- *; cbn [Z.eqb Pos.eqb].
  - rw wrap_small //. destruct (ctz_loop_spec 32 v _ eq_refl) as [(?&?&?)|[Hk Hj]]; [done|].
    destruct Hz. apply Z.bits_inj'. intros i Hi. rw Z.bits_0.
    destruct (Z.lt_ge_cases i 32); [by apply Hj; rw Hk|by apply (uint_testbit_high 32)].
  - rw wrap_small //. destruct (ctz_loop_spec 64 v _ eq_refl) as [(?&?&?)|[Hk Hj]]; [done|].
    destruct Hz. apply Z.bits_inj'. intros i Hi. rw Z.bits_0.
    destruct (Z.lt_ge_cases i 64); [by apply Hj; rw Hk|by apply (uint_testbit_high 64)].
Qed.

Lemma ctz_zero : ctz 0 = ARCH_WIDTH.
Proof. rw /ctz. by destruct arch_width_cases as [->| ->]. Qed.

Lemma clz_log2 v : uint ARCH_WIDTH v →
  clz v = if v =? 0 then ARCH_WIDTH else ARCH_WIDTH - 1 - Z.log2 v.
Proof.
  intros Hv. rw /clz. destruct arch_width_cases as [E|E]; rw E in Hv |- *; cbn [Z.eqb Pos.eqb].
  - rw wrap_small // clz32_spec //.
  - rw wrap_small // clz64_spec //.
Qed.

End AtWordWidth.

(** ** Properties *)

(** [swap_endian64] mirrors the eight bytes of its argument, and is its
    own inverse on 64-bit values. *)
Theorem swap_endian64_reverses v : uint 64 v →
  (∀ k, 0 ≤ k < 8 → byte_of k (swap_endian64 v) = byte_of (7 - k) v) ∧
  swap_endian64 (swap_endian64 v) = v.
Proof.
  intros Hv. split; [intros; by apply swap_endian64_byte|].
  apply (bytes_inj 8); [done|apply swap_endian64_uint|done|].
  intros k Hk. rw !swap_endian64_byte; try lia. f_equal. lia.
Qed.

(** [clz] counts the leading zeros of a word: the width for zero, and
    otherwise the width minus the position after the highest set bit. *)
Theorem clz_counts_leading_zeros `{Arch} v : uint ARCH_WIDTH v →
  clz v = (if v =? 0 then ARCH_WIDTH else ARCH_WIDTH - 1 - Z.log2 v) ∧
  0 ≤ clz v ≤ ARCH_WIDTH.
Proof.
  intros Hv. rw clz_log2 //. split; [done|]. destruct Hv as [Hv0 Hv].
  assert (0 < ARCH_WIDTH) by arch_lia.
  destruct (Z.eqb_spec v 0); [lia|]. pose proof (Z.log2_nonneg v).
  assert (Z.log2 v < ARCH_WIDTH) by (apply Z.log2_lt_pow2; lia). lia.
Qed.

(** On a positive word not above half the range, [align_to_power2_next]
    returns the least power of two that is not below it. *)
Theorem align_to_power2_next_least `{Arch} v : 0 < v < 2 ^ (ARCH_WIDTH - 1) →
  ∃ p, align_to_power2_next v = Ret p ∧ least_pow2 v p ∧ p ≤ 2 ^ (ARCH_WIDTH - 1).
Proof.
  intros Hv. rw /align_to_power2_next.
  destruct arch_width_cases as [E|E]; rw E in Hv |- *; cbn [Z.eqb Pos.eqb Z.sub Z.opp Z.add] in *.
  - rw wrap_small; [rw /uint; lia|]. apply align_to_power2_next32_spec. simpl in *. lia.
  - rw wrap_small; [rw /uint; lia|]. apply align_to_power2_next64_spec. simpl in *. lia.
Qed.

(** The shift-and-add multiplication of signed 32-bit values is the
    product reduced to 32 bits, whatever the signs. *)
Theorem mul_s32_correct a b :
  - 2 ^ 31 ≤ a < 2 ^ 31 → - 2 ^ 31 ≤ b < 2 ^ 31 → mul_s32 a b = s32 (a * b).
Proof.
  intros Ha Hb. rw /mul_s32.
  set (neg_a := ctrue (shr (u32 a) 31)). set (neg_b := ctrue (shr (u32 b) 31)).
  rw !neg_opp; [lia..|]. rw mul_u32_correct; [destruct neg_b; by apply wrap_range|].
  apply swrap_wrap_eq; [lia|].
  pose proof (wrap_wrap 32 (- a)). pose proof (wrap_wrap 32 (- b)).
  pose proof (wrap_wrap 32 a). pose proof (wrap_wrap 32 b).
  destruct neg_a, neg_b; cbn [xorb]; rw ?wrap_opp_wrap ?wrap_wrap.
  - rw (wrap_mul_cong 32 _ (- a) _ (- b)) //. f_equal. ring.
  - rw ?(wrap_opp_cong 32 (_ * _)). rw (wrap_mul_cong 32 _ (- a) _ b) //. rw -(wrap_opp_cong 32). f_equal. ring.
  - rw ?(wrap_opp_cong 32 (_ * _)). rw (wrap_mul_cong 32 _ a _ (- b)) //. rw -(wrap_opp_cong 32). f_equal. ring.
  - by apply wrap_mul_cong.
Qed.

Section Words.
Context `{Arch}.

Lemma div_ulong_value a b : uint ARCH_WIDTH a → uint ARCH_WIDTH b → b ≠ 0 →
  div_ulong a b = if (a / b <? 2 ^ 32) then Ret (a / b, a mod b) else Fault.
Proof.
  intros Ha Hb Hz. rw /div_ulong.
  destruct arch_width_cases as [E|E]; rw E in Ha Hb |- *; cbn [Z.eqb Pos.eqb];
    rw !wrap_small //; destruct Ha, Hb.
  - rw div_u32_spec; [done|lia|]. rw (proj2 (Z.ltb_lt _ _)) //.
    apply Z.div_lt_upper_bound; nia.
  - apply div_u64_spec; [done|lia].
Qed.

Lemma mul_ulong_value a b : uint ARCH_WIDTH a → uint ARCH_WIDTH b →
  mul_ulong a b = if ARCH_WIDTH =? 32 then Ret (ulong (a * b)) else Fault.
Proof.
  intros Ha Hb. rw /mul_ulong.
  destruct arch_width_cases as [E|E]; rw E in Ha Hb |- *; cbn [Z.eqb Pos.eqb]; [|done].
  by rw (wrap_small 32 a) // (wrap_small 32 b) // mul_u32_correct // wrap_wrap.
Qed.

Lemma quo_ulong_value a b : uint ARCH_WIDTH a → uint ARCH_WIDTH b → b ≠ 0 → a / b < 2 ^ 32 → quo_ulong a b = Ret (a / b).
Proof.
  intros Ha Hb Hz Hq. pose proof (div_ulong_value a b Ha Hb Hz) as E. rw (proj2 (Z.ltb_lt _ _) Hq) /div_ulong in E.
  rw /quo_ulong /quo_u64 /quo_u32. by destruct (ARCH_WIDTH =? 64); rw E.
Qed.

(** The least multiple of [a] that is at least [v]. *)
Definition round_up (v a : Z) : Z := (v + a - 1) / a * a.

Lemma round_up_bounds v a : 0 < a → v ≤ round_up v a < v + a ∧ (a | round_up v a).
Proof.
  intros Ha. rw /round_up. pose proof (Z.div_mod (v + a - 1) a ltac:(lia)). pose proof (Z.mod_pos_bound (v + a - 1) a Ha).
  split; [lia|]. by exists ((v + a - 1) / a).
Qed.

Lemma round_up_exact v a : 0 < a → (a | v) → round_up v a = v.
Proof. intros Ha [k ->]. rw /round_up. replace (k * a + a - 1) with (a - 1 + k * a) by lia. rw Z.div_add; [lia|]. rw Z.div_small; lia. Qed.

(** On a 64-bit machine [align_up_ulong_any] has a result for aligned values only. *)
Lemma align_up_any_value v a : 0 ≤ v → 0 < a → v + a < 2 ^ 32 → ARCH_WIDTH = 32 ∨ (a | v) → align_up_ulong_any v a = Ret (round_up v a).
Proof.
  intros Hv Ha Hlt Hd. assert (2 ^ 32 ≤ 2 ^ ARCH_WIDTH) as Hw by by destruct arch_width_cases as [-> | ->].
  pose proof (Z.div_mod v a ltac:(lia)) as Hdm. pose proof (Z.mod_pos_bound v a Ha) as Hm. pose proof (Z.div_pos v a Hv Ha) as Hq.
  assert (v / a ≤ v) as Hle by nia. rw /align_up_ulong_any (proj2 (Z.eqb_neq a 0)); [lia|].
  rw div_ulong_value; [rw /uint; lia|rw /uint; lia|lia|]. rw (proj2 (Z.ltb_lt _ _)); [lia|]. cbn.
  destruct (ctrue (v mod a)) eqn:Er.
  - assert (v mod a ≠ 0) as Hr by (intros E; rw E in Er; done). destruct Hd as [H32|Hd]; [|by apply Z.mod_divide in Hd; [|lia]].
    assert ((v + a - 1) / a = v / a + 1) as Eq by (symmetry; apply (Z.div_unique_pos _ _ _ (v mod a - 1)); lia).
    rw mul_ulong_value; [apply wrap_range; destruct arch_width_cases; lia|rw /uint; lia|]. rw H32 /round_up Eq. cbn [Z.eqb Pos.eqb]. rw (wrap_small 32 (v / a + 1)); [rw /uint; nia|].
    rw wrap_small; [rw /uint; nia|done].
  - assert (v mod a = 0) as Hr by (rw /ctrue in Er; apply negb_false_iff, Z.eqb_eq in Er; done).
    rw round_up_exact //. apply Z.mod_divide; lia.
Qed.

End Words.

(** [div_ulong] is the exact quotient and remainder of a word by a
    non-zero word whenever the quotient fits in 32 bits; on a 64-bit machine a
    larger quotient evaluates [0x1u << i] with [i >= 32], which C leaves
    undefined. *)
Theorem div_ulong_exact `{Arch} a b : uint ARCH_WIDTH a → uint ARCH_WIDTH b → b ≠ 0 →
  div_ulong a b =
  if (a / b <? 2 ^ 32) then Ret (a / b, a mod b) else Fault.
Proof. apply div_ulong_value. Qed.

(** [mul_ulong] is the product modulo the word size on a 32-bit machine;
    on a 64-bit machine no call has a defined result, because every run of the
    loop in [mul_u64] reaches [i = 32] and evaluates [0x1u << 32]. *)
Theorem mul_ulong_by_width `{Arch} a b : uint ARCH_WIDTH a → uint ARCH_WIDTH b →
  mul_ulong a b = if ARCH_WIDTH =? 32 then Ret (ulong (a * b)) else Fault.
Proof. apply mul_ulong_value. Qed.

(** The sign of a 32-bit value is its bit 31, here as the arithmetic shift. *)
Lemma sign_bit31 a : - 2 ^ 31 ≤ a < 2 ^ 31 → ctrue (shr a 31) = (a <? 0).
Proof.
  intros. rw /ctrue /shr Z.shiftr_div_pow2 //.
  destruct (Z.ltb_spec a 0).
  - assert (a / 2 ^ 31 = -1) as ->; [zdiv|done].
  - rw Z.div_small; [lia|done].
Qed.

Lemma magnitude32 a : - 2 ^ 31 ≤ a < 2 ^ 31 →
  (if a <? 0 then neg 32 (u32 a) else u32 a) = Z.abs a.
Proof.
  intros. destruct (Z.ltb_spec a 0).
  - rw neg_opp // wrap_opp_wrap wrap_small; [rw /uint; lia|]. lia.
  - rw wrap_small; [rw /uint; lia|]. lia.
Qed.

Lemma swrap32_small a : - 2 ^ 31 ≤ a < 2 ^ 31 → s32 a = a.
Proof. intros. rw /swrap Z.mod_small; [simpl in *; lia|]. lia. Qed.

Lemma s32_neg x : s32 (neg 32 x) = s32 (- x).
Proof. rw neg_opp // swrap_wrap //. Qed.

Lemma div_mod_unique_pos a b q r : 0 ≤ r < b → a = b * q + r → a / b = q ∧ a mod b = r.
Proof.
  intros Hr E. split; symmetry; [by apply (Z.div_unique_pos a b q r)|].
  by apply (Z.mod_unique_pos a b q r).
Qed.

(** Signed 32-bit division, sign by sign: with a non-negative dividend
    or two negative operands the result is C's truncated quotient and
    remainder; a negative dividend that is not a multiple of a positive
    divisor gives the floor quotient and a non-negative remainder; and a
    negative dividend that is a multiple of a positive divisor gives the
    magnitude of the quotient, without its sign. *)
Theorem div_s32_by_sign a b :
  - 2 ^ 31 ≤ a < 2 ^ 31 → - 2 ^ 31 ≤ b < 2 ^ 31 → b ≠ 0 →
  div_s32 a b =
  Ret (if (a <? 0) && (0 <? b)
       then if a mod b =? 0 then (s32 (- (a / b)), 0) else (a / b, a mod b)
       else (s32 (Z.quot a b), Z.rem a b)).
Proof.
  intros Ha Hb Hz. rw /div_s32 /div_signed !sign_bit31 // !magnitude32 //.
  rw div_u32_spec; [rw /uint; lia|lia|]. cbn [mbind outcome_bind].
  pose proof (Z.mod_pos_bound (Z.abs a) (Z.abs b) ltac:(lia)).
  pose proof (Z.div_mod (Z.abs a) (Z.abs b) ltac:(lia)) as Hdm.
  pose proof (Z.div_pos (Z.abs a) (Z.abs b) ltac:(lia) ltac:(lia)).
  set (uq := Z.abs a / Z.abs b) in *. set (ur := Z.abs a mod Z.abs b) in *.
  assert (Z.quot a b = Z.sgn a * Z.sgn b * uq) as -> by (by apply Z.quot_div).
  assert (Z.rem a b = Z.sgn a * ur) as -> by (by apply Z.rem_mod).
  destruct (Z.ltb_spec a 0), (Z.ltb_spec b 0); cbn [andb].
  - rw (proj2 (Z.ltb_ge 0 b)); [lia|]. rw s32_neg.
    rw (Z.sgn_neg a) // (Z.sgn_neg b) // (swrap32_small (- ur)); [lia|].
    do 3 f_equal; lia.
  - rw (proj2 (Z.ltb_lt 0 b)); [lia|]. rw /ctrue.
    destruct (Z.eqb_spec ur 0) as [E|E]; cbn [negb].
    + destruct (div_mod_unique_pos a b (- uq) 0) as [-> ->]; [lia|nia|].
      by rw Z.eqb_refl Z.opp_involutive E.
    + destruct (div_mod_unique_pos a b (- uq - 1) (b - ur)) as [-> ->]; [lia|nia|].
      rw (proj2 (Z.eqb_neq (b - ur) 0)); [lia|].
      assert (uq ≤ 2 ^ 31) by nia.
      rw s32_neg neg_opp // /wrap Zplus_mod_idemp_l.
      rw !Z.mod_small; [lia|lia|].
      rw !swrap32_small; [lia|nia|]. do 2 f_equal; lia.
  - rw (Z.sgn_neg b) // s32_neg (swrap32_small ur); [lia|].
    destruct (Z.eq_dec a 0) as [->|]; [|rw (Z.sgn_pos a); [lia|]; do 3 f_equal; lia].
    assert (uq = 0 ∧ ur = 0) as [-> ->] by (rw /uq /ur Z.div_0_l ?Z.mod_0_l; lia). done.
  - rw (Z.sgn_pos b); [lia|]. rw (swrap32_small ur); [lia|].
    destruct (Z.eq_dec a 0) as [->|]; [|rw (Z.sgn_pos a); [lia|]; do 3 f_equal; lia].
    assert (uq = 0 ∧ ur = 0) as [-> ->] by (rw /uq /ur Z.div_0_l ?Z.mod_0_l; lia). done.
Qed.

(** ** Witnesses *)

Lemma swap_endian64_reverses_witness :
  swap_endian64 (swap_endian64 66051) = 66051.
Proof. apply (swap_endian64_reverses 66051). split; [discriminate|reflexivity]. Defined.

Lemma clz_counts_leading_zeros_witness : @clz riscv64 1 = 63 ∧ 0 ≤ @clz riscv64 1 ≤ 64.
Proof. apply (@clz_counts_leading_zeros riscv64 1). split; [discriminate|reflexivity]. Defined.

Lemma align_to_power2_next_least_witness :
  ∃ p, @align_to_power2_next riscv64 5 = Ret p ∧ least_pow2 5 p ∧ p ≤ 2 ^ 63.
Proof. apply (@align_to_power2_next_least riscv64 5). split; reflexivity. Defined.

Lemma mul_s32_correct_witness : mul_s32 (-3) 5 = -15.
Proof.
  rw (mul_s32_correct (-3) 5); [split; [discriminate|reflexivity]..|reflexivity].
Defined.

Lemma div_ulong_exact_witness : @div_ulong riscv64 (2 ^ 40) 1000 = Ret (1099511627, 776).
Proof.
  rw (@div_ulong_exact riscv64 (2 ^ 40) 1000); [split; [discriminate|reflexivity]..|
    discriminate|reflexivity].
Defined.

Lemma mul_ulong_by_width_witness :
  @mul_ulong riscv32 70000 70000 = Ret 605032704 ∧ @mul_ulong riscv64 2 3 = Fault.
Proof.
  split; rw mul_ulong_by_width; try reflexivity; split; discriminate || reflexivity.
Defined.

Lemma div_s32_by_sign_witness : div_s32 (-7) 2 = Ret (-4, 1) ∧ div_s32 (-8) 2 = Ret (4, 0).
Proof.
  split; rw div_s32_by_sign; try reflexivity;
    try (split; [discriminate|reflexivity]); discriminate.
Defined.
