(* ===== verification/Lock.v ===== *)
(** Spin locks and the local interrupt state:
    [src/src/kernel/atomic/spinlock.c], the lock macros of
    [src/src/kernel/include/atomic.h] and [src/src/hal/int/state.c].

    The first part is the view of one CPU, used by every component that
    protects its data with a lock: the operations run on any state that holds
    an interrupt flag and the lock word, and a lock that is already taken makes
    the caller spin, i.e. [Diverge].  The second part is the interleaving
    semantics: any number of CPUs run the acquire loop, a critical section and
    the release on one shared lock word, one shared-memory access at a time. *)

From stdpp Require Import base list gmap.
From Stdlib Require Import ZArith Lia.
From Corelib Require Import ssreflect.
From S2P Require Import Prelude.

(** The bit fields of [spinlock_t]. *)
Record spinlock_t := mk_spinlock { locked : bool; int_enabled : bool }.

Definition SPINLOCK_INIT : spinlock_t := mk_spinlock false false.

(** ** Interrupt state of the local CPU (state.c) *)

(** A state that contains the per-CPU variable [interrupt_enabled]. *)
Class HasInt (S : Type) := {
  int_state : S → bool;
  set_int : bool → S → S;
  int_set : ∀ b s, int_state (set_int b s) = b;
  set_set : ∀ a b s, set_int a (set_int b s) = set_int a s;
  set_same : ∀ s, set_int (int_state s) s = s
}.

Section IntState.
Context {S : Type} `{HasInt S}.

Definition disable_local_int : M S bool :=
  enabled ← gets int_state;
  modify (set_int false);;
  mret enabled.

Definition enable_local_int : M S unit := modify (set_int true).

Definition restore_local_int (enabled : bool) : M S bool :=
  cur_state ← gets int_state;
  (if (cur_state : bool) then assert enabled
   else if (enabled : bool) then enable_local_int else mret tt);;
  mret cur_state.

End IntState.

(** ** A lock word inside a state *)

(** Where a lock word lives; [lk_get] is [None] when the object that holds the
    lock does not exist. *)
Record lock_ref (S : Type) := mk_lock_ref {
  lk_get : S → option spinlock_t;
  lk_set : spinlock_t → S → S
}.

Arguments mk_lock_ref {S} _ _.
Arguments lk_get {S} _ _.
Arguments lk_set {S} _ _ _.

Section Sequential.
Context {S : Type} `{HasInt S} (lock : lock_ref S).

Definition spinlock_init : M S unit := modify (lk_set lock SPINLOCK_INIT).
Definition spinlock_init_locked : M S unit := modify (lk_set lock (mk_spinlock true false)).

Definition spinlock_is_locked : M S bool :=
  v ← deref (lk_get lock); mret (locked v).

(** Alone on the CPU, the acquire loop succeeds at once on a free lock and
    never leaves its inner loop on a taken one. *)
Definition spinlock_lock : M S unit :=
  old_val ← deref (lk_get lock);
  if locked old_val then diverge
  else modify (lk_set lock (mk_spinlock true false)).

Definition spinlock_trylock : M S Z :=
  old_val ← deref (lk_get lock);
  if locked old_val then mret (-1)
  else modify (lk_set lock (mk_spinlock true false));; mret 0.

Definition spinlock_unlock : M S unit :=
  v ← deref (lk_get lock);
  assert (locked v);;
  modify (lk_set lock SPINLOCK_INIT).

Definition spinlock_lock_int : M S unit :=
  enabled ← disable_local_int;
  spinlock_lock;;
  old_val ← deref (lk_get lock);
  assert (locked old_val);;
  modify (lk_set lock (mk_spinlock true enabled)).

(** On failure the interrupt state saved on entry is not restored. *)
Definition spinlock_trylock_int : M S Z :=
  enabled ← disable_local_int;
  err ← spinlock_trylock;
  if ctrue err then mret err
  else
    old_val ← deref (lk_get lock);
    assert (locked old_val);;
    modify (lk_set lock (mk_spinlock true enabled));;
    mret 0.

Definition spinlock_unlock_int : M S unit :=
  v ← deref (lk_get lock);
  spinlock_unlock;;
  restore_local_int (int_enabled v);;
  mret tt.

(** [spinlock_exclusive(l) { body }] and [spinlock_exclusive_int(l) { body }];
    a [break] in the body ends the body and still releases the lock. *)
Definition spinlock_exclusive {A} (body : M S A) : M S A :=
  spinlock_lock;;
  a ← body;
  spinlock_unlock;;
  mret a.

Definition spinlock_exclusive_int {A} (body : M S A) : M S A :=
  spinlock_lock_int;;
  a ← body;
  spinlock_unlock_int;;
  mret a.

(** The lock word behaves like a variable of its own, apart from the interrupt flag. *)
Class LockLaws := {
  lk_get_set : ∀ v s, is_Some (lk_get lock s) → lk_get lock (lk_set lock v s) = Some v;
  lk_set_set : ∀ v w s, lk_set lock v (lk_set lock w s) = lk_set lock v s;
  lk_set_same : ∀ v s, lk_get lock s = Some v → lk_set lock v s = s;
  lk_get_int : ∀ b s, lk_get lock (set_int b s) = lk_get lock s;
  lk_set_int : ∀ v b s, lk_set lock v (set_int b s) = set_int b (lk_set lock v s);
  int_lk_set : ∀ v s, int_state (lk_set lock v s) = int_state s
}.

End Sequential.

(** ** Many CPUs *)

(** Which functions a CPU uses: [spinlock_trylock] instead of [spinlock_lock],
    and whether it is the variant with [_int], which keeps in its local [enabled]
    whether interrupts were enabled on entry. *)
Record spin_call := mk_call { k_try : bool; k_int : option bool }.

Definition with_int (k : spin_call) : bool :=
  match k_int k with Some _ => true | None => false end.

(** Where a CPU is in acquiring and releasing the lock, with its local
    variables.  Each constructor is the next statement it executes. *)
Inductive pc :=
| Outside                                     (* not using the lock *)
| Reading (k : spin_call)                     (* old_val.value = lock->value *)
| Testing (k : spin_call) (old_val : Z)       (* if/while (old_val.locked) *)
| Swapping (k : spin_call) (old_val : Z)      (* atomic_cas_bool(&lock->value, ...) *)
| Rereading (k : spin_call)                   (* _int: old_val.value = lock->value *)
| Rechecking (k : spin_call) (old_val : Z)    (* _int: assert(old_val.locked) *)
| Marking (k : spin_call) (old_val : Z)       (* _int: atomic_cas_bool, assert(success) *)
| Critical (k : spin_call)                    (* the lock is held *)
| Loading (k : spin_call)                     (* _int: enabled = lock->int_enabled *)
| Asserting (k : spin_call) (enabled : bool)  (* assert(lock->locked) *)
| Releasing (k : spin_call) (enabled : bool)  (* lock->value = 0 *)
| Leaving (k : spin_call) (enabled : bool)    (* _int: hal_restore_local_int(enabled) *)
| Panicked.                                   (* an assertion has failed *)

(** The lock word, with [locked] in bit 0 and [int_enabled] in bit 1. *)
Definition lock_word (locked int_enabled : bool) : Z := Z.b2z locked + 2 * Z.b2z int_enabled.
Definition LOCKED : Z := lock_word true false.
Definition is_locked_value (v : Z) : bool := Z.testbit v 0.

(** What the CPU at [p] does next when the lock word is [v] and its interrupt
    flag is [e]: where it goes, its flag, and the lock word. *)
Definition cpu_next (v : Z) (e : bool) (p : pc) : pc * bool * Z :=
  let fail k := if k_try k then Outside else Reading k in
  match p with
  | Outside => (Outside, e, v)
  | Reading k => (Testing k v, e, v)
  | Testing k old => (if is_locked_value old then fail k else Swapping k old, e, v)
  | Swapping k old =>
      if v =? old then (if with_int k then Rereading k else Critical k, e, LOCKED) else (fail k, e, v)
  | Rereading k => (Rechecking k v, e, v)
  | Rechecking k old => (if is_locked_value old then Marking k old else Panicked, e, v)
  | Marking k old =>
      if v =? old then (Critical k, e, lock_word true (default false (k_int k)))
      else (Panicked, e, v)
  | Critical k => (if with_int k then Loading k else Asserting k false, e, v)
  | Loading k => (Asserting k (Z.testbit v 1), e, v)
  | Asserting k en => (if is_locked_value v then Releasing k en else Panicked, e, v)
  | Releasing k en => (if with_int k then Leaving k en else Outside, e, 0)
  | Leaving k en => if (e : bool) then (if (en : bool) then Outside else Panicked, e, v) else (Outside, en, v)
  | Panicked => (Panicked, e, v)
  end.

(** A CPU that does not use the lock may call any of the four functions; the
    variants with [_int] first disable interrupts ([hal_disable_local_int]).
    It releases the lock with the function that belongs to the one it took it
    with. *)
Inductive cpu_step (v : Z) (e : bool) : pc → pc → bool → Z → Prop :=
| step_call try : cpu_step v e Outside (Reading (mk_call try None)) e v
| step_call_int try : cpu_step v e Outside (Reading (mk_call try (Some e))) false v
| step_run p p' e' v' : p ≠ Outside → p ≠ Panicked →
    cpu_next v e p = (p', e', v') → cpu_step v e p p' e' v'.

(** A system state: the lock word, and the program counter and interrupt flag
    of each CPU. *)
Record cpu := mk_cpu { cpu_pc : pc; cpu_int : bool }.
Record smp := mk_smp { lock_value : Z; cpus : gmap nat cpu }.

(** A step of CPU [i]. *)
Inductive smp_cpu (i : nat) : smp → smp → Prop :=
| smp_cpu_step s p e p' e' v' :
    cpus s !! i = Some (mk_cpu p e) → cpu_step (lock_value s) e p p' e' v' →
    smp_cpu i s (mk_smp v' (<[i := mk_cpu p' e']> (cpus s))).

Definition smp_step (s s' : smp) : Prop := ∃ i, smp_cpu i s s'.

(** The lock word is initialised ([spinlock_init]) and no CPU uses it yet. *)
Definition smp_init (s : smp) : Prop :=
  lock_value s = 0 ∧ ∀ i c, cpus s !! i = Some c → cpu_pc c = Outside.

(** A CPU holds the lock from its successful compare-and-swap to its release. *)
Definition holds (p : pc) : bool :=
  match p with
  | Rereading _ | Rechecking _ _ | Marking _ _ | Critical _ | Loading _ | Asserting _ _ | Releasing _ _ => true
  | _ => false
  end.

(** ** One CPU: taking and releasing a lock *)

Section SequentialFacts.
Context {S : Type} `{HasInt S} (lock : lock_ref S) `{!LockLaws lock}.

(** The state inside a critical section entered from [s]. *)
Definition locked_state (s : S) : S :=
  lk_set lock (mk_spinlock true (int_state s)) (set_int false s).

Lemma wp_disable_local_int (Q : bool → S → Prop) s :
  Q (int_state s) (set_int false s) → wp disable_local_int Q s.
Proof. done. Qed.

Lemma wp_spinlock_lock_int (Q : unit → S → Prop) s v :
  lk_get lock s = Some v → locked v = false →
  Q tt (locked_state s) → wp (spinlock_lock_int lock) Q s.
Proof.
  intros Hg Hl HQ. rw /spinlock_lock_int. wp_step. apply wp_disable_local_int.
  wp_step. rw /spinlock_lock. wp_step. eapply wp_deref; [rw lk_get_int; exact Hg|]. rw Hl.
  wp_step. wp_step. eapply wp_deref; [rw lk_get_set; [by rw lk_get_int Hg|reflexivity]|].
  wp_step. wp_step; [done|]. wp_step. by rw lk_set_set.
Qed.

Lemma wp_spinlock_unlock_int (Q : unit → S → Prop) s e :
  lk_get lock s = Some (mk_spinlock true e) → int_state s = false →
  Q tt (set_int e (lk_set lock SPINLOCK_INIT s)) → wp (spinlock_unlock_int lock) Q s.
Proof.
  intros Hg Hi HQ. rw /spinlock_unlock_int. wp_step. eapply wp_deref; [exact Hg|].
  wp_step. rw /spinlock_unlock. wp_step. eapply wp_deref; [exact Hg|].
  wp_step. wp_step; [done|]. wp_step. wp_step. rw /restore_local_int.
  wp_step. wp_step. rw int_lk_set Hi. destruct e; cbn [int_enabled].
  - rw /enable_local_int. do 4 wp_step. exact HQ.
  - do 4 wp_step. assert (set_int false (lk_set lock SPINLOCK_INIT s) = lk_set lock SPINLOCK_INIT s) as <-;
      [|exact HQ]. rw -{1}Hi -(int_lk_set lock SPINLOCK_INIT s). apply set_same.
Qed.

(** The exclusive macro runs its body between the two, and hands the body's
    final state on with the lock released and the interrupt state restored. *)
Lemma wp_spinlock_exclusive_int {A} (body : M S A) (Q : A → S → Prop) s v :
  lk_get lock s = Some v → locked v = false →
  wp body (λ a s', lk_get lock s' = Some (mk_spinlock true (int_state s)) ∧
                   int_state s' = false ∧
                   Q a (set_int (int_state s) (lk_set lock SPINLOCK_INIT s')))
     (locked_state s) →
  wp (spinlock_exclusive_int lock body) Q s.
Proof.
  intros Hg Hl Hb. rw /spinlock_exclusive_int. wp_step. eapply wp_spinlock_lock_int; [exact Hg|exact Hl|].
  wp_step. eapply wp_mono; [exact Hb|]. intros a s' (Hg' & Hi' & HQ).
  wp_step. eapply wp_spinlock_unlock_int; [exact Hg'|exact Hi'|]. by wp_step.
Qed.

(** The same as an equation, for bodies that do not return. *)
Lemma spinlock_exclusive_run {A} (body : M S A) s v :
  lk_get lock s = Some v → locked v = false →
  spinlock_exclusive_int lock body s =
    (a ← body; spinlock_unlock_int lock;; mret a) (locked_state s).
Proof.
  intros Hg Hl. assert (wp (spinlock_lock_int lock) (λ _ s', s' = locked_state s) s) as Hw
    by (eapply wp_spinlock_lock_int; [exact Hg|exact Hl|done]).
  apply wp_elim in Hw as ([] & s' & E & ->). by rw /spinlock_exclusive_int /mbind /M_bind E.
Qed.

Lemma wpn_spinlock_exclusive_int {A} N (body : M S A) (Q : A → S → Prop) s v :
  lk_get lock s = Some v → locked v = false →
  wpn N body (λ a s', lk_get lock s' = Some (mk_spinlock true (int_state s)) ∧
                      int_state s' = false ∧
                      Q a (set_int (int_state s) (lk_set lock SPINLOCK_INIT s')))
     (locked_state s) →
  wpn N (spinlock_exclusive_int lock body) Q s.
Proof.
  intros Hg Hl Hb. rw /wpn (spinlock_exclusive_run body s v Hg Hl). apply wpn_bind. eapply wpn_mono; [exact Hb|done|].
  intros a s' (Hg' & Hi' & HQ). apply wpn_wp. wp_step. eapply wp_spinlock_unlock_int; [exact Hg'|exact Hi'|]. by wp_step.
Qed.

Lemma lk_get_locked_state s : is_Some (lk_get lock s) →
  lk_get lock (locked_state s) = Some (mk_spinlock true (int_state s)).
Proof. intros. rw /locked_state lk_get_set //. by rw lk_get_int. Qed.

Lemma int_locked_state s : int_state (locked_state s) = false.
Proof. by rw /locked_state int_lk_set int_set. Qed.

(** Entering and leaving with nothing in between is the identity. *)
Lemma unlock_locked_state s : lk_get lock s = Some SPINLOCK_INIT →
  set_int (int_state s) (lk_set lock SPINLOCK_INIT (locked_state s)) = s.
Proof.
  intros Hg. rw /locked_state lk_set_set lk_set_int set_set lk_set_same //.
  apply set_same.
Qed.

Lemma spinlock_trylock_int_taken s v :
  lk_get lock s = Some v → locked v = true →
  spinlock_trylock_int lock s = Ret (-1, set_int false s).
Proof.
  intros Hg Hl.
  rw /spinlock_trylock_int /disable_local_int /spinlock_trylock /mbind /M_bind.
  cbn. rw /deref lk_get_int Hg Hl. done.
Qed.

End SequentialFacts.

(** ** Many CPUs: mutual exclusion *)

Section MutualExclusion.

(** What the lock word is while a CPU at [p] holds the lock. *)
Definition word_of (p : pc) : Z :=
  match p with
  | Critical k | Loading k | Asserting k _ | Releasing k _ => lock_word true (default false (k_int k))
  | _ => LOCKED
  end.

(** What the local variables and the interrupt flag of a CPU can be: a value that
    is not locked is 0, what a holder has read is what it has written, interrupts
    are off in the variants with [_int], and nothing has panicked. *)
Definition pc_ok (p : pc) (e : bool) : Prop :=
  let off k := is_Some (k_int k) → e = false in
  match p with
  | Outside => True
  | Reading k | Rereading k | Critical k | Loading k => off k
  | Testing k old => off k ∧ (is_locked_value old = false → old = 0)
  | Swapping k old => off k ∧ old = 0
  | Rechecking k old | Marking k old => off k ∧ old = LOCKED
  | Asserting k en | Releasing k en => off k ∧ en = default false (k_int k)
  | Leaving k en => off k ∧ en = default false (k_int k) ∧ is_Some (k_int k)
  | Panicked => False
  end.

(** The lock word is 0 if no CPU holds the lock and otherwise what the holder
    has written; at most one CPU holds it. *)
Record lock_inv (s : smp) : Prop := {
  li_free : (∀ i c, cpus s !! i = Some c → holds (cpu_pc c) = false) → lock_value s = 0;
  li_held : ∀ i c, cpus s !! i = Some c → holds (cpu_pc c) = true → lock_value s = word_of (cpu_pc c);
  li_unique : ∀ i j c d, cpus s !! i = Some c → cpus s !! j = Some d →
                holds (cpu_pc c) = true → holds (cpu_pc d) = true → i = j;
  li_pc : ∀ i c, cpus s !! i = Some c → pc_ok (cpu_pc c) (cpu_int c)
}.

Lemma lock_inv_init s : smp_init s → lock_inv s.
Proof.
  intros [Hv Hc]. split; [done|..].
  - intros i c Hi Hh. by rw (Hc i c Hi) in Hh.
  - intros i j c d Hi Hj Hh. by rw (Hc i c Hi) in Hh.
  - intros i c Hi. by rw (Hc i c Hi).
Qed.

(** The lock word of a state of the invariant: 0, or it has the [locked] bit. *)
Lemma lock_inv_value s : lock_inv s →
  (∃ i c, cpus s !! i = Some c ∧ holds (cpu_pc c) = true ∧ lock_value s = word_of (cpu_pc c)) ∨
  (∀ i c, cpus s !! i = Some c → holds (cpu_pc c) = false) ∧ lock_value s = 0.
Proof.
  intros [Hf Hh Hu Hp].
  destruct (decide (map_Forall (λ _ c, holds (cpu_pc c) = false) (cpus s))) as [Hall|Hnot].
  - right. split; [exact Hall|by apply Hf].
  - left. apply map_not_Forall in Hnot as (i & c & Hi & Hc); [|apply _]. apply not_false_is_true in Hc.
    exists i, c. split_and!; [done..|]. by apply (Hh i).
Qed.

Lemma word_of_locked p : is_locked_value (word_of p) = true.
Proof. by destruct p as [| | | | | | |[? [[]|]]|[? [[]|]]|[? [[]|]]|[? [[]|]]| |]. Qed.

Lemma unlocked_zero s : lock_inv s → is_locked_value (lock_value s) = false → lock_value s = 0.
Proof.
  intros HI Hl. destruct (lock_inv_value s HI) as [(i & c & _ & _ & E)|[_ E]]; [|done].
  by rw E word_of_locked in Hl.
Qed.

(** A step of a CPU preserves the invariant if its new local state is fine and,
    as for who holds the lock: it keeps the word and stays outside; or it keeps
    the lock and the word is what it should be; or it takes the lock when the word
    is 0; or it gives it back. *)
Lemma lock_inv_update s i p e p' e' v' : lock_inv s → cpus s !! i = Some (mk_cpu p e) →
  pc_ok p' e' →
  (holds p' = true → v' = word_of p' ∧ (holds p = true ∨ lock_value s = 0)) →
  (holds p' = false → v' = if holds p then 0 else lock_value s) →
  lock_inv (mk_smp v' (<[i := mk_cpu p' e']> (cpus s))).
Proof.
  intros HI Hi Hok Hin Hout. pose proof HI as [Hf Hh Hu Hp].
  assert (∀ j d, j ≠ i → cpus s !! j = Some d → holds (cpu_pc d) = true →
    holds p = false ∧ holds p' = false) as Hothers.
  { intros j d Hne Hj Hd.
    assert (holds p = false) as Hp0.
    { destruct (holds p) eqn:E; [|done]. destruct Hne. exact (Hu j i _ (mk_cpu p e) Hj Hi Hd E). }
    split; [done|]. destruct (holds p') eqn:E; [|done].
    destruct (Hin eq_refl) as [_ [?|Hz]]; [congruence|].
    pose proof (Hh j d Hj Hd) as Ew. pose proof (word_of_locked (cpu_pc d)) as Hw.
    by rw -Ew Hz in Hw. }
  split; cbn [lock_value cpus].
  - intros Hall. assert (holds p' = false) as Hp0 by (exact (Hall i (mk_cpu p' e') (lookup_insert_eq _ _ _))).
    rw (Hout Hp0). destruct (holds p) eqn:E; [done|]. apply Hf. intros j d Hj.
    destruct (decide (j = i)) as [->|Hne]; [by simplify_eq|]. apply (Hall j). rw lookup_insert_ne; [congruence|done].
  - intros j d [[<- <-]|[Hne Hj]]%lookup_insert_Some Hd; [by apply Hin|].
    destruct (Hothers j d) as [E E']; [congruence|done..|]. rw (Hout E') E. exact (Hh j d Hj Hd).
  - intros j k c d Hj Hk Hc Hd. apply lookup_insert_Some in Hj, Hk.
    destruct Hj as [[<- <-]|[Hj1 Hj]], Hk as [[<- <-]|[Hk1 Hk]]; [done|..].
    + destruct (Hothers k d) as [_ E]; [congruence|done..|]. cbn in Hc. congruence.
    + destruct (Hothers j c) as [_ E]; [congruence|done..|]. cbn in Hd. congruence.
    + exact (Hu j k c d Hj Hk Hc Hd).
  - intros j d [[<- <-]|[_ Hj]]%lookup_insert_Some; [done|]. exact (Hp j d Hj).
Qed.

(** What a CPU does next keeps its local state fine, and changes the lock word
    only as [lock_inv_update] allows. *)
Lemma cpu_next_ok v e p p' e' v' : cpu_next v e p = (p', e', v') → pc_ok p e → p ≠ Outside →
  (holds p = true → v = word_of p) → (is_locked_value v = false → v = 0) →
  pc_ok p' e' ∧ (holds p' = true → v' = word_of p' ∧ (holds p = true ∨ v = 0)) ∧
  (holds p' = false → v' = if holds p then 0 else v).
Proof.
  destruct p as [|k|k old|k old|k|k old|k old|k|k|k en|k en|k en|]; intros E Hok Hne Hw Hz;
    try destruct k as [t [[]|]]; cbn in E, Hok, Hw; try done; destruct_and?; subst;
    repeat match goal with
    | H : true = true → _ |- _ => specialize (H eq_refl); subst
    | H : is_Some (Some _) → _ |- _ => specialize (H ltac:(done)); subst
    end.
  all: try destruct t; try (destruct (Z.eqb_spec v 0) as [->|]); try destruct (Z.odd _) eqn:Hl;
    rw ?Z.eqb_refl in E; cbn in E; simplify_eq; split_and!; cbn; auto; try done; try (by intros [? [=]]).
Qed.

Lemma lock_inv_step s s' : lock_inv s → smp_step s s' → lock_inv s'.
Proof.
  intros HI [i Hi]. destruct Hi as [s p e p' e' v' Hi Hst].
  apply (lock_inv_update s i p e p' e' v' HI Hi).
  all: destruct Hst as [try|try|p p' e' v' Hne _ E]; [first [done|by intros [? [=]]]|done|].
  all: destruct (cpu_next_ok _ _ _ _ _ _ E (li_pc _ HI _ _ Hi) Hne (li_held _ HI _ _ Hi) (unlocked_zero s HI))
    as (H1 & H2 & H3); done.
Qed.

Lemma lock_inv_reachable s s' : smp_init s → rtc smp_step s s' → lock_inv s'.
Proof.
  intros Hi Hr. apply lock_inv_init in Hi. induction Hr; eauto using lock_inv_step.
Qed.

(** Steps of one CPU, counted. *)
Lemma smp_cpu_next i s p e p' e' v' : cpus s !! i = Some (mk_cpu p e) → p ≠ Outside → p ≠ Panicked →
  cpu_next (lock_value s) e p = (p', e', v') →
  ∀ s', smp_cpu i s s' ↔ s' = mk_smp v' (<[i := mk_cpu p' e']> (cpus s)).
Proof.
  intros Hi Hne Hnp E s'. split.
  - intros Hst. destruct Hst as [s q f q' f' w' Hq Hst]. simplify_eq.
    destruct Hst as [| |q q' f' w' _ _ E']; [done..|]. congruence.
  - intros ->. by apply (smp_cpu_step i s p e); [|apply step_run].
Qed.

(** How many steps a CPU that spins is from taking a free lock. *)
Definition spins_left (p : pc) : nat :=
  match p with
  | Reading _ => 3
  | Testing _ old => if is_locked_value old then 4 else 2
  | Swapping _ _ => 1
  | _ => 0
  end%nat.

(** A CPU is in the loop of [spinlock_lock] or [spinlock_lock_int]. *)
Definition spinning (p : pc) : bool :=
  match p with
  | Reading k | Testing k _ | Swapping k _ => negb (k_try k)
  | _ => false
  end.

Definition spin_kind (p : pc) : spin_call :=
  match p with
  | Reading k | Testing k _ | Swapping k _ => k
  | _ => mk_call false None
  end.

(** Where it is when it has the lock, and what it has read on the way. *)
Definition taken (k : spin_call) : pc := if with_int k then Rereading k else Critical k.
Definition read_free (p : pc) : Prop :=
  match p with
  | Testing _ old => is_locked_value old = false → old = 0
  | Swapping _ old => old = 0
  | _ => True
  end.

(** A CPU that spins on a free lock takes it with its last step, and with every
    other step comes one step closer. *)
Lemma spin_next p e : spinning p = true → read_free p →
  (spins_left p = 1%nat ∧ cpu_next 0 e p = (taken (spin_kind p), e, LOCKED)) ∨
  ∃ p', cpu_next 0 e p = (p', e, 0) ∧ spinning p' = true ∧ read_free p' ∧
    spins_left p = S (spins_left p') ∧ spin_kind p' = spin_kind p.
Proof.
  destruct p as [|k|k old|k old| | | | | | | | |]; intros Hs Hr; try done; cbn in Hs, Hr; cbn [spins_left cpu_next].
  - right. by exists (Testing k 0).
  - destruct (is_locked_value old) eqn:El; right.
    + exists (Reading k). apply negb_true_iff in Hs. rw Hs. split_and!; try done. cbn. by rw Hs.
    + exists (Swapping k old). split_and!; try done. by apply Hr.
  - left. by subst old.
Qed.

Lemma spin_steps n i s p e : lock_value s = 0 → cpus s !! i = Some (mk_cpu p e) →
  spinning p = true → read_free p → spins_left p = n →
  ∀ s', nsteps (smp_cpu i) n s s' ↔
        s' = mk_smp LOCKED (<[i := mk_cpu (taken (spin_kind p)) e]> (cpus s)).
Proof.
  revert s p. induction n as [|n IH]; intros s p Hv Hi Hs Hr Hn s'.
  { destruct p as [| |? old| | | | | | | | | |]; try done. cbn [spins_left] in Hn. by destruct (is_locked_value old). }
  assert (p ≠ Outside ∧ p ≠ Panicked) as [Hne Hnp] by by destruct p.
  destruct (spin_next p e Hs Hr) as [[H1 E]|(p' & E & Hs' & Hr' & Hl & Hk)].
  - rw H1 in Hn. injection Hn as <-.
    assert (∀ t, smp_cpu i s t ↔ t = mk_smp LOCKED (<[i := mk_cpu (taken (spin_kind p)) e]> (cpus s))) as Hst
      by (apply (smp_cpu_next i s p e); try done; by rw Hv).
    split; [intros H2%nsteps_once_inv; by apply Hst|intros H2; by apply nsteps_once, Hst].
  - assert (∀ t, smp_cpu i s t ↔ t = mk_smp 0 (<[i := mk_cpu p' e]> (cpus s))) as Hst
      by (apply (smp_cpu_next i s p e); try done; by rw Hv).
    assert (spins_left p' = n) as Hn' by lia.
    specialize (IH (mk_smp 0 (<[i := mk_cpu p' e]> (cpus s))) p' eq_refl (lookup_insert_eq _ _ _) Hs' Hr' Hn' s').
    cbn [cpus] in IH. rw insert_insert_eq Hk in IH. rw -IH. split.
    + inversion 1 as [|? ? t ? H1 H2]; subst. by apply Hst in H1 as ->.
    + intros H2. by eapply nsteps_l; [apply Hst|].
Qed.

End MutualExclusion.

(** ** Properties *)

(** C39. Mutual exclusion, in every state that any number of CPUs can reach from
    an initialised lock by calling [spinlock_lock], [spinlock_trylock], their
    variants with [_int] and the matching unlock function.  At most one CPU is
    between its successful compare-and-swap and its release; no assertion of these
    functions has failed; a CPU that took the lock by a variant with [_int] has
    interrupts disabled, and gives them back the state in which it found them. *)
Theorem spinlock_mutual_exclusion s s' : smp_init s → rtc smp_step s s' →
  (∀ i j c d, cpus s' !! i = Some c → cpus s' !! j = Some d →
     holds (cpu_pc c) = true → holds (cpu_pc d) = true → i = j) ∧
  (∀ i c, cpus s' !! i = Some c → cpu_pc c ≠ Panicked) ∧
  (∀ i k e, cpus s' !! i = Some (mk_cpu (Critical k) e) → is_Some (k_int k) → e = false) ∧
  (∀ i k en e, cpus s' !! i = Some (mk_cpu (Leaving k en) e) →
     cpu_next (lock_value s') e (Leaving k en) = (Outside, default false (k_int k), lock_value s')).
Proof.
  intros Hi Hr. pose proof (lock_inv_reachable _ _ Hi Hr) as HI. split_and!.
  - apply (li_unique _ HI).
  - intros i c Hc E. pose proof (li_pc _ HI _ _ Hc) as Hok. by rw E in Hok.
  - intros i k e Hc. apply (li_pc _ HI _ _ Hc).
  - intros i k en e Hc. destruct (li_pc _ HI _ _ Hc) as (Hoff & -> & Hint). cbn in Hoff |- *. by rw Hoff.
Qed.

(** C40. Progress: in every reachable state in which no CPU holds the lock, let a
    CPU [i] be anywhere in the loop of [spinlock_lock] or [spinlock_lock_int],
    whatever it has read before.  If only CPU [i] runs, then after exactly
    [spins_left p] of its own steps, at most four, it holds the lock; nothing else
    can happen in so many steps, and no other CPU has moved. *)
Theorem spinlock_progress s s' i p e : smp_init s → rtc smp_step s s' →
  (∀ j c, cpus s' !! j = Some c → holds (cpu_pc c) = false) →
  cpus s' !! i = Some (mk_cpu p e) → spinning p = true →
  (spins_left p ≤ 4)%nat ∧ holds (taken (spin_kind p)) = true ∧
  ∀ s'', nsteps (smp_cpu i) (spins_left p) s' s'' ↔
         s'' = mk_smp LOCKED (<[i := mk_cpu (taken (spin_kind p)) e]> (cpus s')).
Proof.
  intros Hi Hr Hfree Hc Hs. pose proof (lock_inv_reachable _ _ Hi Hr) as HI.
  pose proof (li_free _ HI Hfree) as H0. pose proof (li_pc _ HI _ _ Hc) as Hok. split_and!.
  - destruct p as [| |? old| | | | | | | | | |]; cbn [spins_left]; try lia. destruct (is_locked_value old); lia.
  - rw /taken. by destruct (with_int _).
  - apply (spin_steps _ _ _ p); try done. destruct p; try done; exact (proj2 Hok).
Qed.

(** [spinlock_lock_int] followed by [spinlock_unlock_int], as the
    [spinlock_exclusive_int] macro runs them around a body: from a free lock the
    body runs with the lock held and local interrupts off, and whatever else the
    body changes, afterwards the lock is free again and the interrupt state is
    the one before the call. *)
Theorem spinlock_exclusive_int_restores {S} `{HasInt S} (lock : lock_ref S)
    `{!LockLaws lock} {A} (body : M S A) s a s' :
  lk_get lock s = Some SPINLOCK_INIT →
  body (locked_state lock s) = Ret (a, s') →
  lk_get lock s' = lk_get lock (locked_state lock s) → int_state s' = false →
  ∃ s'', spinlock_exclusive_int lock body s = Ret (a, s'') ∧
         lk_get lock s'' = Some SPINLOCK_INIT ∧ int_state s'' = int_state s ∧
         s'' = set_int (int_state s) (lk_set lock SPINLOCK_INIT s').
Proof.
  intros Hg Hb Hl Hi. rw lk_get_locked_state in Hl; [by rw Hg|].
  destruct (wp_elim (spinlock_exclusive_int lock body)
    (λ a' s'', a' = a ∧ s'' = set_int (int_state s) (lk_set lock SPINLOCK_INIT s')) s)
    as (a' & s'' & E & -> & ->).
  { eapply (wp_spinlock_exclusive_int lock); [exact Hg|done|]. eapply wp_intro; [exact Hb|done]. }
  eexists. split_and!; [exact E| | |done].
  - by rw lk_get_int lk_get_set ?Hl.
  - apply int_set.
Qed.

(** ** Witnesses *)

(** A state that is one lock word and the interrupt flag. *)
Definition one_lock : Type := bool * spinlock_t.

#[export] Instance one_lock_int : HasInt one_lock := {
  int_state := fst;
  set_int b s := (b, snd s);
  int_set _ _ := eq_refl;
  set_set _ _ _ := eq_refl;
  set_same s := match s with (_, _) => eq_refl end
}.

Definition one_lock_ref : lock_ref one_lock :=
  mk_lock_ref (λ s, Some (snd s)) (λ v s, (fst s, v)).

#[export] Instance one_lock_laws : LockLaws one_lock_ref.
Proof. split; try done. intros v [b w] [= ->]. done. Qed.

Lemma spinlock_exclusive_int_restores_witness :
  ∃ s'', spinlock_exclusive_int one_lock_ref (mret 7) (true, SPINLOCK_INIT) = Ret (7, s'') ∧
    snd s'' = SPINLOCK_INIT.
Proof.
  destruct (@spinlock_exclusive_int_restores one_lock one_lock_int one_lock_ref one_lock_laws Z
    (mret 7) (true, SPINLOCK_INIT) 7
    (locked_state one_lock_ref (true, SPINLOCK_INIT)) eq_refl eq_refl eq_refl eq_refl)
    as (s'' & E & _ & _ & E').
  exists s''. split; [exact E|]. rw E'. reflexivity.
Defined.

(** Two CPUs, of which the second takes the lock by [spinlock_lock_int] while
    the first one is about to test the free word it has read. *)
Definition plain_call : spin_call := mk_call false None.
Definition int_call : spin_call := mk_call false (Some true).
Definition two_cpus : smp :=
  mk_smp 0 (<[0%nat := mk_cpu Outside true]> (<[1%nat := mk_cpu Outside true]> ∅)).

Lemma two_cpus_init : smp_init two_cpus.
Proof.
  split; [done|]. intros i c Hi. rw /two_cpus /= in Hi.
  apply lookup_insert_Some in Hi as [[_ <-]|[_ Hi]]; [done|].
  apply lookup_insert_Some in Hi as [[_ <-]|[_ Hi]]; [done|]. by rw lookup_empty in Hi.
Qed.

Definition first_waits : smp :=
  mk_smp 0 (<[0%nat := mk_cpu (Testing plain_call 0) true]> (<[1%nat := mk_cpu Outside true]> ∅)).
Definition second_holds : smp :=
  mk_smp 3 (<[0%nat := mk_cpu (Testing plain_call 0) true]> (<[1%nat := mk_cpu (Critical int_call) false]> ∅)).

Lemma run_cpu_step i s p e p' e' v' t : cpus s !! i = Some (mk_cpu p e) → p ≠ Outside → p ≠ Panicked →
  cpu_next (lock_value s) e p = (p', e', v') →
  rtc smp_step (mk_smp v' (<[i := mk_cpu p' e']> (cpus s))) t → rtc smp_step s t.
Proof.
  intros Hi Hne Hnp E Hr. eapply rtc_l; [|exact Hr]. exists i. by apply (smp_cpu_next i s p e p' e' v').
Qed.

Lemma first_waits_run : rtc smp_step two_cpus first_waits.
Proof.
  eapply rtc_l; [exists 0%nat; apply (smp_cpu_step 0 two_cpus Outside true); [done|apply (step_call _ _ false)]|].
  eapply (run_cpu_step 0); [done..|]. apply rtc_refl.
Qed.

Lemma second_holds_run : rtc smp_step two_cpus second_holds.
Proof.
  etrans; [exact first_waits_run|].
  eapply rtc_l; [exists 1%nat; apply (smp_cpu_step 1 first_waits Outside true); [done|apply (step_call_int _ _ false)]|].
  do 6 (eapply (run_cpu_step 1); [done..|]). apply rtc_refl.
Qed.

Lemma spinlock_mutual_exclusion_witness :
  cpus second_holds !! 1%nat = Some (mk_cpu (Critical int_call) false) ∧
  ∀ c, cpus second_holds !! 0%nat = Some c → cpu_pc c ≠ Panicked.
Proof.
  split; [reflexivity|].
  destruct (spinlock_mutual_exclusion two_cpus second_holds two_cpus_init second_holds_run) as (_ & H & _).
  intros c. exact (H 0%nat c).
Defined.

Lemma first_waits_free j c : cpus first_waits !! j = Some c → holds (cpu_pc c) = false.
Proof.
  rw /first_waits /= => Hj.
  apply lookup_insert_Some in Hj as [[_ <-]|[_ Hj]]; [done|].
  apply lookup_insert_Some in Hj as [[_ <-]|[_ Hj]]; [done|]. by rw lookup_empty in Hj.
Qed.

Lemma spinlock_progress_witness :
  nsteps (smp_cpu 0) 2 first_waits
    (mk_smp LOCKED (<[0%nat := mk_cpu (Critical plain_call) true]> (cpus first_waits))).
Proof.
  destruct (spinlock_progress two_cpus first_waits 0 (Testing plain_call 0) true two_cpus_init
    first_waits_run first_waits_free eq_refl eq_refl) as (_ & _ & H).
  apply H. reflexivity.
Defined.
