(* ===== verification/RwLock.v ===== *)
(** Readers-writer locks: [src/src/kernel/atomic/rwlock.c], with [rwlock_t] of
    [src/src/kernel/include/atomic.h].

    As for the spin locks there are two views.  For one CPU the operations are
    state transformers, and waiting for a lock that nobody else can release is
    [Diverge].  For many CPUs the operations are cut at their accesses to the
    shared word; a CPU performs one access at a time, in any interleaving. *)

From stdpp Require Import base list gmap.
From Stdlib Require Import ZArith Lia.
From Corelib Require Import ssreflect.
From S2P Require Import Prelude Lock.

(** The bit fields of [rwlock_t]; [reads] has [ARCH_WIDTH - 2] bits. *)
Record rwlock_t := mk_rwlock { write : bool; rw_int_enabled : bool; reads : Z }.

Definition RWLOCK_INIT : rwlock_t := mk_rwlock false false 0.

#[export] Instance rwlock_eq_dec : EqDecision rwlock_t.
Proof. solve_decision. Defined.

Section Word.
Context `{Arch}.

(** [new_val.write = 0; new_val.reads++] and [new_val.reads--]. *)
Definition add_reader (v : rwlock_t) : rwlock_t := mk_rwlock false (rw_int_enabled v) (wrap (ARCH_WIDTH - 2) (reads v + 1)).
Definition sub_reader (v : rwlock_t) : rwlock_t := mk_rwlock (write v) (rw_int_enabled v) (wrap (ARCH_WIDTH - 2) (reads v - 1)).
End Word.

(** ** One CPU *)

Record rw_state := mk_rw_state { rw_word : rwlock_t; rw_int : bool }.

#[export] Instance rw_state_int : HasInt rw_state := {
  int_state := rw_int;
  set_int b s := mk_rw_state (rw_word s) b;
  int_set _ _ := eq_refl;
  set_set _ _ _ := eq_refl;
  set_same s := match s with mk_rw_state _ _ => eq_refl end
}.

Definition set_word (v : rwlock_t) (s : rw_state) : rw_state := mk_rw_state v (rw_int s).

Section Sequential.
Context `{Arch}.

Definition rwlock_init : M rw_state unit := modify (set_word RWLOCK_INIT).

Definition rwlock_read_lock : M rw_state unit :=
  v ← gets rw_word;
  if write v then diverge else modify (set_word (add_reader v)).

Definition rwlock_read_unlock : M rw_state unit :=
  v ← gets rw_word;
  assert (negb (write v));;
  modify (set_word (sub_reader v)).

(** The word has to be 0, including [int_enabled]. *)
Definition rwlock_write_lock : M rw_state unit :=
  v ← gets rw_word;
  if decide (v = RWLOCK_INIT) then modify (set_word (mk_rwlock true false 0)) else diverge.

Definition rwlock_write_unlock : M rw_state unit := modify (set_word RWLOCK_INIT).

Definition rwlock_read_lock_int : M rw_state bool :=
  enabled ← disable_local_int;
  rwlock_read_lock;;
  mret enabled.

Definition rwlock_read_unlock_int (enabled : bool) : M rw_state unit :=
  rwlock_read_unlock;;
  restore_local_int enabled;;
  mret tt.

Definition rwlock_write_lock_int : M rw_state unit :=
  enabled ← disable_local_int;
  rwlock_write_lock;;
  v ← gets rw_word;
  assert (reads v =? 0);;
  assert (write v);;
  modify (set_word (mk_rwlock (write v) enabled (reads v))).

Definition rwlock_write_unlock_int : M rw_state unit :=
  v ← gets rw_word;
  rwlock_write_unlock;;
  restore_local_int (rw_int_enabled v);;
  mret tt.

(** Taking and releasing the lock leaves the word and the interrupt state as
    they were; in between interrupts are off. *)
Lemma write_lock_int_restores b : rwlock_write_lock_int (mk_rw_state RWLOCK_INIT b) = Ret (tt, mk_rw_state (mk_rwlock true b 0) false) ∧
  rwlock_write_unlock_int (mk_rw_state (mk_rwlock true b 0) false) = Ret (tt, mk_rw_state RWLOCK_INIT b).
Proof. by destruct b. Qed.

Lemma read_lock_int_restores b n : 0 ≤ n → n + 1 < 2 ^ (ARCH_WIDTH - 2) →
  rwlock_read_lock_int (mk_rw_state (mk_rwlock false false n) b) = Ret (b, mk_rw_state (mk_rwlock false false (n + 1)) false) ∧
  rwlock_read_unlock_int b (mk_rw_state (mk_rwlock false false (n + 1)) false) = Ret (tt, mk_rw_state (mk_rwlock false false n) b).
Proof.
  intros Hn Hlt. assert (uint (ARCH_WIDTH - 2) (n + 1)) as H1 by (rw /uint; lia). assert (uint (ARCH_WIDTH - 2) n) as H2 by (rw /uint; lia).
  pose proof (wrap_small _ _ H1) as E1. pose proof (wrap_small _ _ H2) as E2.
  split.
  - rw /rwlock_read_lock_int /rwlock_read_lock /disable_local_int /mbind /M_bind /gets /modify /set_word /add_reader. cbn -[wrap Z.sub Z.add]. by rw E1.
  - rw /rwlock_read_unlock_int /rwlock_read_unlock /restore_local_int /mbind /M_bind /gets /modify /set_word /sub_reader. cbn -[wrap Z.sub Z.add].
    rw (_ : n + 1 - 1 = n); [lia|]. rw E2. by destruct b.
Qed.
End Sequential.

(** ** Many CPUs *)

(** Where a CPU is, with the value its [old_val] has. *)
Inductive rw_pc :=
| Idle
| RSpin                          (* while (lock->write) *)
| RLoad                          (* old_val.value = lock->value *)
| RSwap (old_val : rwlock_t)     (* atomic_cas_bool in rwlock_read_lock *)
| Reader                         (* the lock is held for reading *)
| UAssert                        (* assert(!lock->write) *)
| ULoad                          (* old_val.value = lock->value *)
| USwap (old_val : rwlock_t)     (* atomic_cas_bool in rwlock_read_unlock *)
| WSpin                          (* while (lock->reads) *)
| WSwap                          (* atomic_cas_bool(&lock->value, 0, new_val.value) *)
| Writer                         (* the lock is held for writing *)
| WStore                         (* lock->value = 0 *)
| Panicked.

Section Smp.
Context `{Arch}.

(** The next access of a CPU that is not idle: where it is afterwards, and the word. *)
Definition rw_next (w : rwlock_t) (p : rw_pc) : rw_pc * rwlock_t :=
  match p with
  | Idle => (Idle, w)
  | RSpin => (if write w then RSpin else RLoad, w)
  | RLoad => (RSwap w, w)
  | RSwap old => if decide (w = old) then (Reader, add_reader old) else (RSpin, w)
  | Reader => (UAssert, w)
  | UAssert => (if write w then Panicked else ULoad, w)
  | ULoad => (USwap w, w)
  | USwap old => if decide (w = old) then (Idle, sub_reader old) else (UAssert, w)
  | WSpin => (if reads w =? 0 then WSwap else WSpin, w)
  | WSwap => if decide (w = RWLOCK_INIT) then (Writer, mk_rwlock true false 0) else (WSpin, w)
  | Writer => (WStore, w)
  | WStore => (Idle, RWLOCK_INIT)
  | Panicked => (Panicked, w)
  end.

Record rw_smp := mk_rw_smp { rw_lock : rwlock_t; rw_cpus : gmap nat rw_pc }.

Inductive rw_step : rw_smp → rw_smp → Prop :=
| rw_enter s i p : rw_cpus s !! i = Some Idle → p = RSpin ∨ p = WSpin →
    rw_step s (mk_rw_smp (rw_lock s) (<[i := p]> (rw_cpus s)))
| rw_access s i p p' w' : rw_cpus s !! i = Some p → rw_next (rw_lock s) p = (p', w') →
    rw_step s (mk_rw_smp w' (<[i := p']> (rw_cpus s))).

Definition rw_init (s : rw_smp) : Prop := rw_lock s = RWLOCK_INIT ∧ ∀ i p, rw_cpus s !! i = Some p → p = Idle.

Definition reading (p : rw_pc) : bool :=
  match p with Reader | UAssert | ULoad | USwap _ => true | _ => false end.
Definition writing (p : rw_pc) : bool :=
  match p with Writer | WStore => true | _ => false end.

(** The steps in which no reader loads a word that a writer has taken since the
    reader's test: [lock->write] is still 0 in [old_val]. *)
Definition unraced_step (s s' : rw_smp) : Prop :=
  rw_step s s' ∧ ∀ i, rw_cpus s !! i = Some RLoad → rw_cpus s' !! i ≠ Some RLoad → write (rw_lock s) = false.

(** ** Exclusion *)

Definition num_readers (s : rw_smp) : nat := size (filter (λ kp : nat * rw_pc, reading kp.2 = true) (rw_cpus s)).

Record rw_inv (s : rw_smp) : Prop := {
  ri_int : rw_int_enabled (rw_lock s) = false;
  ri_write : write (rw_lock s) = true → reads (rw_lock s) = 0 ∧ num_readers s = 0%nat ∧ ∃ i p, rw_cpus s !! i = Some p ∧ writing p = true;
  ri_writing : ∀ i p, rw_cpus s !! i = Some p → writing p = true → write (rw_lock s) = true;
  ri_one : ∀ i j p q, rw_cpus s !! i = Some p → rw_cpus s !! j = Some q → writing p = true → writing q = true → i = j;
  ri_reads : write (rw_lock s) = false → reads (rw_lock s) = Z.of_nat (num_readers s);
  ri_swap : ∀ i old, rw_cpus s !! i = Some (RSwap old) ∨ rw_cpus s !! i = Some (USwap old) → write old = false;
  ri_panic : ∀ i, rw_cpus s !! i ≠ Some Panicked
}.

Lemma readers_move s i p p' w' : rw_cpus s !! i = Some p →
  (num_readers (mk_rw_smp w' (<[i := p']> (rw_cpus s))) + (if reading p then 1 else 0) = num_readers s + (if reading p' then 1 else 0))%nat.
Proof. intros Hi. exact (count_insert (λ kp, reading kp.2) _ _ _ p' Hi). Qed.

Lemma reader_counted s i p : rw_cpus s !! i = Some p → reading p = true → (0 < num_readers s)%nat.
Proof. intros Hi Hr. pose proof (readers_move s i p Idle (rw_lock s) Hi) as E. rw Hr in E. cbn in E. lia. Qed.

Lemma readers_bound s : (num_readers s ≤ size (rw_cpus s))%nat.
Proof. apply map_subseteq_size, map_filter_subseteq. Qed.

(** A step that leaves the word alone, of a CPU that neither gains nor loses the lock. *)
Lemma rw_inv_local s i p p' : rw_inv s → rw_cpus s !! i = Some p → reading p' = reading p → writing p' = writing p →
  (∀ old, p' = RSwap old ∨ p' = USwap old → write old = false) → p' ≠ Panicked →
  rw_inv (mk_rw_smp (rw_lock s) (<[i := p']> (rw_cpus s))).
Proof.
  intros [I1 I2 I3 I4 I5 I6 I7] Hi Hr Hw Hold Hp. pose proof (readers_move s i p p' (rw_lock s) Hi) as Hn. rw Hr in Hn.
  assert (num_readers (mk_rw_smp (rw_lock s) (<[i := p']> (rw_cpus s))) = num_readers s) as En by lia.
  assert (∀ j q, <[i := p']> (rw_cpus s) !! j = Some q → writing q = true → ∃ q', rw_cpus s !! j = Some q' ∧ writing q' = true) as Hwr.
  { intros j q [[-> <-]|[_ Hj]]%lookup_insert_Some Hq; [exists p; by rw -Hw|by exists q]. }
  split; cbn [rw_lock rw_cpus]; rw ?En //.
  - intros E. destruct (I2 E) as (? & ? & j & q & Hj & Hq). split; [done|]. split; [done|]. destruct (decide (j = i)) as [->|Hne].
    + exists i, p'. rw lookup_insert_eq. split; [done|]. rw Hw. congruence.
    + exists j, q. by rw lookup_insert_ne; [congruence|].
  - intros j q Hj Hq. destruct (Hwr j q Hj Hq) as (q' & ? & ?). by apply (I3 j q').
  - intros j k q r Hj Hk Hq Hq'. destruct (Hwr _ _ Hj Hq) as (q1 & ? & ?). destruct (Hwr _ _ Hk Hq') as (q2 & ? & ?). by apply (I4 j k q1 q2).
  - intros j old Hj. rw !lookup_insert_Some in Hj. naive_solver.
  - intros j. rw lookup_insert_Some. naive_solver.
Qed.

(** Each acquisition and release. *)
Lemma rw_inv_read_lock s i old : rw_inv s → rw_cpus s !! i = Some (RSwap old) → rw_lock s = old → Z.of_nat (size (rw_cpus s)) < 2 ^ (ARCH_WIDTH - 2) →
  rw_inv (mk_rw_smp (add_reader old) (<[i := Reader]> (rw_cpus s))).
Proof.
  intros [I1 I2 I3 I4 I5 I6 I7] Hi El Hsz. pose proof (I6 i old (or_introl Hi)) as Hw. subst old.
  pose proof (readers_move s i _ Reader (add_reader (rw_lock s)) Hi) as Hn. cbn in Hn.
  pose proof (readers_bound (mk_rw_smp (add_reader (rw_lock s)) (<[i := Reader]> (rw_cpus s)))) as Hb. cbn in Hb. rw map_size_insert_Some // in Hb.
  assert (∀ j q, <[i := Reader]> (rw_cpus s) !! j = Some q → writing q = true → False) as Hnw.
  { intros j q [[-> <-]|[_ Hj]]%lookup_insert_Some Hq; [done|]. by rw (I3 j q Hj Hq) in Hw. }
  split; cbn [rw_lock rw_cpus]; try done.
  - intros j q Hj Hq. by destruct (Hnw j q Hj Hq).
  - intros j k q r Hj _ Hq. by destruct (Hnw j q Hj Hq).
  - intros _. cbn. rw (I5 Hw) wrap_small; [rw /uint|]; lia.
  - intros j o Hj. rw !lookup_insert_Some in Hj. naive_solver.
  - intros j. rw lookup_insert_Some. naive_solver.
Qed.

Lemma rw_inv_read_unlock s i old : rw_inv s → rw_cpus s !! i = Some (USwap old) → rw_lock s = old → Z.of_nat (size (rw_cpus s)) < 2 ^ (ARCH_WIDTH - 2) →
  rw_inv (mk_rw_smp (sub_reader old) (<[i := Idle]> (rw_cpus s))).
Proof.
  intros [I1 I2 I3 I4 I5 I6 I7] Hi El Hsz. pose proof (I6 i old (or_intror Hi)) as Hw. subst old.
  pose proof (readers_move s i _ Idle (sub_reader (rw_lock s)) Hi) as Hn. cbn in Hn.
  pose proof (readers_bound s) as Hb.
  assert (∀ j q, <[i := Idle]> (rw_cpus s) !! j = Some q → writing q = true → False) as Hnw.
  { intros j q [[-> <-]|[_ Hj]]%lookup_insert_Some Hq; [done|]. by rw (I3 j q Hj Hq) in Hw. }
  split; cbn [rw_lock rw_cpus]; try done.
  - cbn. by rw Hw.
  - intros j q Hj Hq. by destruct (Hnw j q Hj Hq).
  - intros j k q r Hj _ Hq. by destruct (Hnw j q Hj Hq).
  - intros _. cbn. rw (I5 Hw) wrap_small; [rw /uint|]; lia.
  - intros j o Hj. rw !lookup_insert_Some in Hj. naive_solver.
  - intros j. rw lookup_insert_Some. naive_solver.
Qed.

Lemma rw_inv_write_lock s i : rw_inv s → rw_cpus s !! i = Some WSwap → rw_lock s = RWLOCK_INIT →
  rw_inv (mk_rw_smp (mk_rwlock true false 0) (<[i := Writer]> (rw_cpus s))).
Proof.
  intros [I1 I2 I3 I4 I5 I6 I7] Hi El. pose proof (readers_move s i WSwap Writer (mk_rwlock true false 0) Hi) as Hn. cbn in Hn.
  rw El in I3 I5. specialize (I5 eq_refl). cbn in I3, I5.
  split; cbn [rw_lock rw_cpus]; try done.
  - intros _. split; [done|]. split; [lia|]. exists i, Writer. by rw lookup_insert_eq.
  - intros j k q r [[<- _]|[_ Hj]]%lookup_insert_Some [[<- _]|[_ Hk]]%lookup_insert_Some Hq Hr; [done|by specialize (I3 _ _ Hk Hr)|by specialize (I3 _ _ Hj Hq)..].
  - intros j o Hj. rw !lookup_insert_Some in Hj. naive_solver.
  - intros j. rw lookup_insert_Some. naive_solver.
Qed.

Lemma rw_inv_write_unlock s i : rw_inv s → rw_cpus s !! i = Some WStore → rw_inv (mk_rw_smp RWLOCK_INIT (<[i := Idle]> (rw_cpus s))).
Proof.
  intros [I1 I2 I3 I4 I5 I6 I7] Hi. pose proof (readers_move s i WStore Idle RWLOCK_INIT Hi) as Hn. cbn in Hn.
  destruct (I2 (I3 i WStore Hi eq_refl)) as (_ & E & _).
  assert (∀ j q, <[i := Idle]> (rw_cpus s) !! j = Some q → writing q = true → False) as Hnw.
  { intros j q [[-> <-]|[Hne Hj]]%lookup_insert_Some Hq; [done|]. apply Hne. by apply (I4 i j WStore q). }
  split; cbn [rw_lock rw_cpus]; try done.
  - intros j q Hj Hq. by destruct (Hnw j q Hj Hq).
  - intros j k q r Hj _ Hq. by destruct (Hnw j q Hj Hq).
  - intros _. cbn. lia.
  - intros j o Hj. rw !lookup_insert_Some in Hj. naive_solver.
  - intros j. rw lookup_insert_Some. naive_solver.
Qed.

(** While a CPU reads, no writer has the lock. *)
Lemma reader_no_write s i p : rw_inv s → rw_cpus s !! i = Some p → reading p = true → write (rw_lock s) = false.
Proof.
  intros HI Hi Hr. destruct (write (rw_lock s)) eqn:E; [|done]. destruct (ri_write _ HI E) as (_ & En & _).
  pose proof (reader_counted s i p Hi Hr). lia.
Qed.

Lemma rw_inv_step s s' : rw_inv s → Z.of_nat (size (rw_cpus s)) < 2 ^ (ARCH_WIDTH - 2) → unraced_step s s' → rw_inv s'.
Proof.
  intros HI Hsz [Hst Hcl]. destruct Hst as [s i p Hi Hp|s i p p' w' Hi Hnx].
  - apply (rw_inv_local s i Idle); [done|done|by destruct Hp as [->| ->]..|intros old; naive_solver|naive_solver].
  - cbn in Hcl. rw /rw_next in Hnx. destruct p as [| | |old| | | |old| | | | |].
    + injection Hnx as <- <-. by apply (rw_inv_local s i Idle); naive_solver.
    + injection Hnx as <- <-. by apply (rw_inv_local s i RSpin); try done; destruct (write _); naive_solver.
    + injection Hnx as <- <-. apply (rw_inv_local s i RLoad); try done. intros old [[= <-]|]; [|done]. apply (Hcl i Hi). by rw lookup_insert_eq.
    + destruct (decide _) as [E|]; injection Hnx as <- <-; [by apply rw_inv_read_lock|]. by apply (rw_inv_local s i (RSwap old)); naive_solver.
    + injection Hnx as <- <-. by apply (rw_inv_local s i Reader); naive_solver.
    + rw (reader_no_write s i UAssert) // in Hnx. injection Hnx as <- <-. by apply (rw_inv_local s i UAssert); naive_solver.
    + injection Hnx as <- <-. apply (rw_inv_local s i ULoad); try done. intros old [|[= <-]]; [done|]. by apply (reader_no_write s i ULoad).
    + destruct (decide _) as [E|]; injection Hnx as <- <-; [by apply rw_inv_read_unlock|]. by apply (rw_inv_local s i (USwap old)); naive_solver.
    + injection Hnx as <- <-. by apply (rw_inv_local s i WSpin); try done; destruct (reads _ =? 0); naive_solver.
    + destruct (decide _) as [E|]; injection Hnx as <- <-; [by apply rw_inv_write_lock|]. by apply (rw_inv_local s i WSwap); naive_solver.
    + injection Hnx as <- <-. by apply (rw_inv_local s i Writer); naive_solver.
    + injection Hnx as <- <-. by apply rw_inv_write_unlock.
    + by destruct (ri_panic _ HI i).
Qed.

Lemma rw_init_inv s : rw_init s → rw_inv s.
Proof.
  intros [E Hc]. assert (num_readers s = 0%nat) as En.
  { apply map_size_empty_iff, map_empty. intros i. apply map_lookup_filter_None. right. intros p Hi. by rw (Hc i p Hi). }
  split; rw ?E ?En //.
  - intros i p Hi. by rw (Hc i p Hi).
  - intros i j p q Hi. by rw (Hc i p Hi).
  - intros i old [Hi|Hi]; by specialize (Hc _ _ Hi).
  - intros i Hi. by specialize (Hc _ _ Hi).
Qed.

Lemma rw_step_cpus s s' : rw_step s s' → size (rw_cpus s') = size (rw_cpus s).
Proof. intros [s0 i p Hi Hp|s0 i p p' w' Hi Hnx]; cbn; by rw map_size_insert_Some. Qed.

Lemma rw_inv_rtc s s' : rtc unraced_step s s' → rw_inv s → Z.of_nat (size (rw_cpus s)) < 2 ^ (ARCH_WIDTH - 2) → rw_inv s'.
Proof.
  induction 1 as [|s s1 s2 Hst Hrest IH]; [done|]. intros HI Hsz. apply IH; [by apply (rw_inv_step s)|].
  by rw (rw_step_cpus _ _ (proj1 Hst)).
Qed.

(** C38. As long as no writer takes the lock between a reader's test of
    [lock->write] and its load of [lock->value], the lock does what it should,
    whatever the interleaving of any number of CPUs: a writer has it alone, the
    word counts the readers, and no assertion fails. *)
Theorem rwlock_exclusion s s' : rw_init s → Z.of_nat (size (rw_cpus s)) < 2 ^ (ARCH_WIDTH - 2) → rtc unraced_step s s' →
  (∀ i j p q, rw_cpus s' !! i = Some p → rw_cpus s' !! j = Some q → writing p = true → reading q || writing q = true → i = j) ∧
  (write (rw_lock s') = false → reads (rw_lock s') = Z.of_nat (num_readers s')) ∧
  (∀ i, rw_cpus s' !! i ≠ Some Panicked).
Proof.
  intros Hi Hsz Hr. pose proof (rw_inv_rtc s s' Hr (rw_init_inv s Hi) Hsz) as HI. split; [|split; apply HI].
  intros i j p q Hp Hq Hw Hrw. pose proof (ri_writing _ HI i p Hp Hw) as E. destruct (reading q) eqn:Hrq; [by rw (reader_no_write s' j q) in E|].
  by apply (ri_one _ HI i j p q).
Qed.
End Smp.

(** ** The race *)

Section Race.
Context `{Arch}.

Definition rw_two : rw_smp := mk_rw_smp RWLOCK_INIT (<[0%nat := Idle]> (<[1%nat := Idle]> ∅)).

(** CPU [i] moves to [p] and the word becomes [w]. *)
Definition rw_move (s : rw_smp) (i : nat) (p : rw_pc) (w : rwlock_t) : rw_smp := mk_rw_smp w (<[i := p]> (rw_cpus s)).

(** CPU [i] makes its next access. *)
Definition rw_run (i : nat) (s : rw_smp) : rw_smp :=
  match rw_cpus s !! i with
  | Some p => rw_move s i (rw_next (rw_lock s) p).1 (rw_next (rw_lock s) p).2
  | None => s
  end.

Lemma rw_run_step i s : is_Some (rw_cpus s !! i) → rw_step s (rw_run i s).
Proof.
  intros [p Hi]. rw /rw_run Hi. apply (rw_access s i p); [done|]. by destruct (rw_next (rw_lock s) p).
Qed.

Lemma rw_run_at i s p : rw_cpus s !! i = Some p →
  rw_run i s = mk_rw_smp (rw_next (rw_lock s) p).2 (<[i := (rw_next (rw_lock s) p).1]> (rw_cpus s)).
Proof. intros Hi. by rw /rw_run Hi. Qed.

Lemma race_reachable s i j : rw_init s → i ≠ j → is_Some (rw_cpus s !! i) → is_Some (rw_cpus s !! j) →
  rtc rw_step s (mk_rw_smp (mk_rwlock true false 0) (<[j := Writer]> (<[i := RLoad]> (rw_cpus s)))).
Proof.
  intros [Hw Hidle] Hne [p Hi] [q Hj]. pose proof (Hidle i p Hi) as ->. pose proof (Hidle j q Hj) as ->.
  destruct s as [w c]; cbn [rw_lock rw_cpus] in *; subst w.
  eapply rtc_l; [apply (rw_enter _ i RSpin); [done|by left]|].
  eapply rtc_l; [apply (rw_access _ i RSpin RLoad RWLOCK_INIT); [apply lookup_insert_eq|done]|].
  eapply rtc_l; [apply (rw_enter _ j WSpin); [|by right]|]; cbn [rw_cpus rw_lock].
  { rw !lookup_insert_ne //. }
  eapply rtc_l; [apply (rw_access _ j WSpin WSwap RWLOCK_INIT); [apply lookup_insert_eq|done]|].
  eapply rtc_l; [apply (rw_access _ j WSwap Writer (mk_rwlock true false 0)); [apply lookup_insert_eq|done]|].
  cbn [rw_cpus rw_lock]. rw !insert_insert_eq. apply rtc_refl.
Qed.

(** C37. The lock is not exclusive.  Let CPU [i] have left its test of
    [lock->write] and CPU [j] have taken the lock for writing since.  Then the
    next two accesses of CPU [i], its load of the word and its compare-and-swap,
    clear the writer's bit, count one reader more, and make CPU [i] a reader while
    CPU [j] is still the writer; when CPU [j] then releases the lock, the word is
    0 although CPU [i] still reads.  Any two CPUs can get into this state from
    any initial state. *)
Theorem rwlock_reader_enters_during_write i j : i ≠ j →
  (∀ s, rw_cpus s !! i = Some RLoad → rw_cpus s !! j = Some Writer → write (rw_lock s) = true →
     let s1 := rw_run i (rw_run i s) in
     rtc rw_step s s1 ∧ rw_lock s1 = add_reader (rw_lock s) ∧ write (rw_lock s1) = false ∧
     rw_cpus s1 !! i = Some Reader ∧ rw_cpus s1 !! j = Some Writer ∧
     let s2 := rw_run j (rw_run j s1) in
     rtc rw_step s1 s2 ∧ rw_lock s2 = RWLOCK_INIT ∧ rw_cpus s2 !! i = Some Reader) ∧
  (∀ s, rw_init s → is_Some (rw_cpus s !! i) → is_Some (rw_cpus s !! j) →
     ∃ s', rtc rw_step s s' ∧ rw_cpus s' !! i = Some RLoad ∧ rw_cpus s' !! j = Some Writer ∧
       write (rw_lock s') = true).
Proof.
  intros Hne. split.
  - intros s Hi Hj Hw s1.
    assert (s1 = mk_rw_smp (add_reader (rw_lock s)) (<[i := Reader]> (rw_cpus s))) as E1.
    { rw /s1 (rw_run_at i s RLoad Hi) (rw_run_at i _ (RSwap (rw_lock s))); [apply lookup_insert_eq|].
      cbn [rw_lock rw_cpus rw_next]. rw decide_True //. by rw insert_insert_eq. }
    assert (∀ t k, is_Some (rw_cpus t !! k) → rtc rw_step t (rw_run k (rw_run k t))) as Hrun.
    { intros t k Hk. eapply rtc_l; [exact (rw_run_step k t Hk)|]. apply rtc_once, rw_run_step.
      destruct Hk as [p Hk]. rw (rw_run_at k t p Hk). cbn. by rw lookup_insert_eq. }
    assert (rw_cpus s1 !! j = Some Writer) as Hj1 by (rw E1; cbn; by rw lookup_insert_ne).
    split_and!; [by apply Hrun; rw Hi|by rw E1|by rw E1|rw E1; apply lookup_insert_eq|done|].
    intros s2.
    assert (s2 = mk_rw_smp RWLOCK_INIT (<[j := Idle]> (rw_cpus s1))) as E2.
    { rw /s2 (rw_run_at j s1 Writer Hj1) (rw_run_at j _ WStore); [apply lookup_insert_eq|].
      cbn [rw_lock rw_cpus rw_next fst snd]. by rw insert_insert_eq. }
    split_and!; [by apply Hrun; rw Hj1|by rw E2|].
    rw E2. cbn. rw lookup_insert_ne; [congruence|]. rw E1. apply lookup_insert_eq.
  - intros s Hinit Hi Hj. eexists. split; [by apply (race_reachable s i j)|]. cbn.
    rw lookup_insert_ne; [congruence|]. by rw !lookup_insert_eq.
Qed.
End Race.

(** ** Witness *)

(** The first CPU gets the lock for writing. *)
Definition rw_taken : rw_smp := mk_rw_smp (mk_rwlock true false 0) (<[0%nat := Writer]> (<[1%nat := Idle]> ∅)).

Lemma rw_two_init : rw_init rw_two.
Proof.
  split; [done|]. intros i p Hi. rw /rw_two /= in Hi. apply lookup_insert_Some in Hi as [[_ <-]|[_ Hi]]; [done|].
  apply lookup_insert_Some in Hi as [[_ <-]|[_ Hi]]; [done|]. by rw lookup_empty in Hi.
Qed.

Lemma rwlock_exclusion_witness : rw_cpus rw_taken !! 0%nat = Some Writer ∧ reading Idle || writing Idle = false.
Proof.
  split; [reflexivity|]. destruct (reading Idle || writing Idle) eqn:E; [|reflexivity]. exfalso.
  assert (rtc (unraced_step (H := riscv64)) rw_two rw_taken) as Hr.
  { eapply (rtc_l _ _ (rw_move rw_two 0 WSpin RWLOCK_INIT)); [split; [by apply (rw_enter rw_two 0 WSpin); [|right]|done]|].
    eapply (rtc_l _ _ (rw_move rw_two 0 WSwap RWLOCK_INIT)); [split; [by apply (rw_access (rw_move rw_two 0 WSpin RWLOCK_INIT) 0 WSpin)|done]|].
    apply rtc_once. split; [by apply (rw_access (rw_move rw_two 0 WSwap RWLOCK_INIT) 0 WSwap)|done]. }
  destruct (rwlock_exclusion (H := riscv64) rw_two rw_taken rw_two_init ltac:(done) Hr) as [Hx _].
  discriminate (Hx 0%nat 1%nat Writer Idle eq_refl eq_refl eq_refl E).
Defined.

Lemma rwlock_reader_enters_during_write_witness : ∃ s',
  rtc (rw_step (H := riscv64)) rw_two s' ∧ rw_cpus s' !! 0%nat = Some Reader ∧ rw_cpus s' !! 1%nat = Some Writer.
Proof.
  destruct (rwlock_reader_enters_during_write (H := riscv64) 0 1 ltac:(congruence)) as [Hrace Hreach].
  destruct (Hreach rw_two rw_two_init ltac:(done) ltac:(done)) as (s & Hr & Hi & Hj & Hw).
  destruct (Hrace s Hi Hj Hw) as (Hr' & _ & _ & Hi' & Hj' & _).
  eexists. split; [etrans; [exact Hr|exact Hr']|]. split; [exact Hi'|exact Hj'].
Defined.
