(* ===== verification/Barrier.v ===== *)
(** Barriers: [src/src/kernel/atomic/barrier.c], with [barrier_t] and
    [local_barrier_t] of [src/src/kernel/include/atomic.h].

    The first CPU that arrives publishes a [local_barrier_t] on its own stack;
    the others count themselves in there, wait for its [release] and count
    themselves out.  The model has the stack frames: [bs_frames !! i] is the
    [local] of CPU [i] while [i] is in [barrier_wait], and an access to a frame
    that has been left is a fault.  A CPU performs one access to shared memory at
    a time, in any interleaving.  The calls each CPU has started and finished
    are counted beside the state of the program. *)

From stdpp Require Import base list gmap.
From Stdlib Require Import ZArith Lia.
From Corelib Require Import ssreflect.
From S2P Require Import Prelude.

Record local_barrier_t := mk_local { count : Z; release : Z }.

(** Where a CPU is in [barrier_wait]; [l] is [my_local], named by its CPU. *)
Inductive bar_pc :=
| BIdle
| BCas                          (* atomic_cas_val(&barrier->local, NULL, my_local) *)
| BInc (l : nat) (first : bool) (* atomic_inc(&my_local->count) *)
| BAll                          (* first: while (my_local->count != barrier->total) *)
| BClear                        (* first: barrier->local = NULL *)
| BRelease                      (* first: my_local->release = 1 *)
| BOne                          (* first: while (my_local->count != 1) *)
| BWait (l : nat)               (* while (!my_local->release) *)
| BDec (l : nat)                (* atomic_dec(&my_local->count) *)
| BFault.                       (* an access to a frame that is gone *)

(** A CPU: where it is, and how many calls it has started and finished. *)
Record bar_cpu := mk_bcpu { bpc : bar_pc; started : nat; finished : nat }.

Record bar_state := mk_bar {
  bs_local : option nat;                 (* barrier->local *)
  bs_total : Z;                          (* barrier->total *)
  bs_frames : gmap nat local_barrier_t;
  bs_cpus : gmap nat bar_cpu
}.

Section Barrier.
Context `{Arch}.

Definition goto (p : bar_pc) (c : bar_cpu) : bar_cpu := mk_bcpu p (started c) (finished c).

(** [barrier_wait] is called: it returns at once for a single CPU, and otherwise
    sets up its frame. *)
Definition bar_enter (i : nat) (c : bar_cpu) (s : bar_state) : bar_state :=
  if bs_total s <=? 1 then
    mk_bar (bs_local s) (bs_total s) (bs_frames s) (<[i := mk_bcpu BIdle (S (started c)) (S (finished c))]> (bs_cpus s))
  else
    mk_bar (bs_local s) (bs_total s) (<[i := mk_local 0 0]> (bs_frames s)) (<[i := mk_bcpu BCas (S (started c)) (finished c)]> (bs_cpus s)).

(** [barrier_wait] returns: the frame is gone. *)
Definition bar_leave (i : nat) (c : bar_cpu) (s : bar_state) : bar_state :=
  mk_bar (bs_local s) (bs_total s) (delete i (bs_frames s)) (<[i := mk_bcpu BIdle (started c) (S (finished c))]> (bs_cpus s)).

Definition bar_goto (i : nat) (c : bar_cpu) (p : bar_pc) (s : bar_state) : bar_state :=
  mk_bar (bs_local s) (bs_total s) (bs_frames s) (<[i := goto p c]> (bs_cpus s)).

Definition set_frame (l : nat) (b : local_barrier_t) (s : bar_state) : bar_state :=
  mk_bar (bs_local s) (bs_total s) (<[l := b]> (bs_frames s)) (bs_cpus s).

Definition set_local (o : option nat) (s : bar_state) : bar_state :=
  mk_bar o (bs_total s) (bs_frames s) (bs_cpus s).

(** The next access of CPU [i]. *)
Definition bar_next (i : nat) (c : bar_cpu) (s : bar_state) : bar_state :=
  let frame l k := match bs_frames s !! l with Some b => k b | None => bar_goto i c BFault s end in
  match bpc c with
  | BIdle => bar_enter i c s
  | BCas => match bs_local s with
            | None => bar_goto i c (BInc i true) (set_local (Some i) s)
            | Some l => bar_goto i c (BInc l false) s
            end
  | BInc l first => frame l (λ b,
      bar_goto i c (if first : bool then BAll else BWait l) (set_frame l (mk_local (ulong (count b + 1)) (release b)) s))
  | BAll => frame i (λ b, if count b =? bs_total s then bar_goto i c BClear s else s)
  | BClear => bar_goto i c BRelease (set_local None s)
  | BRelease => frame i (λ b, bar_goto i c BOne (set_frame i (mk_local (count b) 1) s))
  | BOne => frame i (λ b, if count b =? 1 then bar_leave i c s else s)
  | BWait l => frame l (λ b, if ctrue (release b) then bar_goto i c (BDec l) s else s)
  | BDec l => frame l (λ b, bar_leave i c (set_frame l (mk_local (ulong (count b - 1)) (release b)) s))
  | BFault => s
  end.

Inductive bar_step : bar_state → bar_state → Prop :=
| bar_access s i c : bs_cpus s !! i = Some c → bar_step s (bar_next i c s).

(** After [barrier_init] with the number of CPUs, which all are outside. *)
Definition bar_init (s : bar_state) : Prop :=
  bs_local s = None ∧ bs_total s = Z.of_nat (size (bs_cpus s)) ∧ bs_frames s = ∅ ∧
  ∀ i c, bs_cpus s !! i = Some c → c = mk_bcpu BIdle 0 0.

(** ** The invariant *)

(** CPU [i] is counted in the frame of [l]. *)
Definition joined (l : nat) (ic : nat * bar_cpu) : bool :=
  match bpc ic.2 with
  | BWait l' | BDec l' => bool_decide (l' = l)
  | BAll | BClear | BRelease | BOne => bool_decide (ic.1 = l)
  | _ => false
  end.

Definition num_joined (l : nat) (s : bar_state) : nat := size (filter (λ ic, joined l ic = true) (bs_cpus s)).

(** The CPUs are in round [k]: [clo] leads the CPUs that are leaving round [k],
    and [opn] those that have arrived for the next one. *)
Definition cpu_ok (k : nat) (clo opn : option nat) (F : gmap nat local_barrier_t) (i : nat) (c : bar_cpu) : Prop :=
  let ahead := started c = S k ∧ finished c = k in
  let behind := started c = k ∧ S (finished c) = k in
  match bpc c with
  | BIdle => started c = k ∧ finished c = k
  | BCas => ahead ∧ F !! i = Some (mk_local 0 0)
  | BInc l first => ahead ∧ opn = Some l ∧ first = bool_decide (l = i)
  | BAll => ahead ∧ opn = Some i
  | BWait l => l ≠ i ∧ (opn = Some l ∧ ahead ∨ clo = Some l ∧ behind)
  | BDec l => l ≠ i ∧ clo = Some l ∧ behind
  | BClear | BRelease | BOne => clo = Some i ∧ behind
  | BFault => False
  end.

Record bar_inv (s : bar_state) (k : nat) (clo opn : option nat) : Prop := {
  bi_cpu : ∀ i c, bs_cpus s !! i = Some c → cpu_ok k clo opn (bs_frames s) i c;
  bi_opn : ∀ a, opn = Some a → ∃ c, bs_cpus s !! a = Some c ∧ (bpc c = BInc a true ∨ bpc c = BAll) ∧
    bs_frames s !! a = Some (mk_local (Z.of_nat (num_joined a s)) 0);
  bi_clo : ∀ b, clo = Some b → ∃ c, bs_cpus s !! b = Some c ∧
    ((bpc c = BClear ∨ bpc c = BRelease) ∧ (∀ i c', bs_cpus s !! i = Some c' → i = b ∨ bpc c' = BWait b) ∧
       bs_frames s !! b = Some (mk_local (Z.of_nat (num_joined b s)) 0) ∨
     bpc c = BOne ∧ bs_frames s !! b = Some (mk_local (Z.of_nat (num_joined b s)) 1));
  bi_local : bs_local s = opn ∨
    ∃ b c, clo = Some b ∧ bs_cpus s !! b = Some c ∧ bpc c = BClear ∧ bs_local s = Some b;
  bi_total : bs_total s = Z.of_nat (size (bs_cpus s));
  bi_two : 1 < bs_total s < 2 ^ ARCH_WIDTH
}.

Lemma joined_move l s s' i c c' : bs_cpus s !! i = Some c → bs_cpus s' = <[i := c']> (bs_cpus s) →
  (num_joined l s' + (if joined l (i, c) then 1 else 0) = num_joined l s + (if joined l (i, c') then 1 else 0))%nat.
Proof. intros Hi E. rw /num_joined E. exact (count_insert (joined l) _ _ _ c' Hi). Qed.

Lemma joined_bound l s : (num_joined l s ≤ size (bs_cpus s))%nat.
Proof. apply map_subseteq_size, map_filter_subseteq. Qed.

(** Only the start of a call depends on the CPU's own frame. *)
Lemma cpu_ok_frames k clo opn F F' i c : cpu_ok k clo opn F i c → (bpc c = BCas → F' !! i = F !! i) → cpu_ok k clo opn F' i c.
Proof. rw /cpu_ok. destruct (bpc c); try done. intros [? ?] E. rw E //. Qed.

(** A CPU that is not the leader of a group cannot be while all are in it. *)
Lemma not_all_joined s k clo opn b i c : bar_inv s k clo opn → clo = Some b → bs_cpus s !! i = Some c → joined b (i, c) = false →
  ∃ cb, bs_cpus s !! b = Some cb ∧ bpc cb = BOne ∧ bs_frames s !! b = Some (mk_local (Z.of_nat (num_joined b s)) 1).
Proof.
  intros HI Hb Hi Hj. destruct (bi_clo _ _ _ _ HI b Hb) as (cb & Hcb & [(Hp & Hall & _)|[Hp Hf]]); [|by exists cb]. exfalso. rw /joined /= in Hj.
  destruct (Hall i c Hi) as [->|E]; [assert (cb = c) as -> by congruence; destruct Hp as [E|E]|]; rw E in Hj; by rw bool_decide_true in Hj.
Qed.

(** The leaders are where [opn] and [clo] say. *)
Lemma opn_leader s k clo opn a c : bar_inv s k clo opn → opn = Some a → bs_cpus s !! a = Some c → bpc c = BInc a true ∨ bpc c = BAll.
Proof. intros HI Ha Hc. destruct (bi_opn _ _ _ _ HI a Ha) as (c0 & Hc0 & Hp & _). assert (c0 = c) as -> by congruence. done. Qed.

Lemma clo_leader s k clo opn b c : bar_inv s k clo opn → clo = Some b → bs_cpus s !! b = Some c → bpc c = BClear ∨ bpc c = BRelease ∨ bpc c = BOne.
Proof. intros HI Hb Hc. destruct (bi_clo _ _ _ _ HI b Hb) as (c0 & Hc0 & Hp). assert (c0 = c) as -> by congruence. naive_solver. Qed.

(** What is left to show when CPU [i] moves and the groups keep their leaders. *)
Lemma bar_inv_move s s' k clo opn i c c' : bar_inv s k clo opn → bs_cpus s !! i = Some c →
  bs_cpus s' = <[i := c']> (bs_cpus s) → bs_total s' = bs_total s → bs_local s' = bs_local s →
  cpu_ok k clo opn (bs_frames s') i c' →
  (∀ j, j ≠ i → opn ≠ Some j → clo ≠ Some j → bs_frames s' !! j = bs_frames s !! j) →
  (∀ a, opn = Some a → a ≠ i ∨ bpc c' = BInc a true ∨ bpc c' = BAll) →
  (∀ a, opn = Some a → bs_frames s' !! a = Some (mk_local (Z.of_nat (num_joined a s')) 0)) →
  (∀ b, clo = Some b → b ≠ i ∧ joined b (i, c) = false ∧ joined b (i, c') = false ∧ bs_frames s' !! b = bs_frames s !! b ∨
     ∃ cb, bs_cpus s' !! b = Some cb ∧ bpc cb = BOne ∧ bs_frames s' !! b = Some (mk_local (Z.of_nat (num_joined b s')) 1)) →
  (∀ b, clo = Some b → bs_local s = Some b → bpc c ≠ BClear) →
  bar_inv s' k clo opn.
Proof.
  intros HI Hi Ec Et El Hok Hfr Ho1 Ho2 Hc1 Hnc. split.
  - intros j cj. rw Ec. intros [[<- <-]|[Hne Hj]]%lookup_insert_Some; [done|]. apply (cpu_ok_frames _ _ _ (bs_frames s)); [by apply HI|].
    intros Hp. apply Hfr; [congruence|intros E; destruct (opn_leader _ _ _ _ _ _ HI E Hj); congruence|intros E; destruct (clo_leader _ _ _ _ _ _ HI E Hj) as [?|[?|?]]; congruence].
  - intros a Ha. destruct (bi_opn _ _ _ _ HI a Ha) as (c0 & Hc0 & Hp & _). destruct (decide (a = i)) as [->|Hne].
    + exists c'. rw Ec lookup_insert_eq. split; [done|]. split; [destruct (Ho1 i Ha) as [?|?]; [congruence|done]|by apply Ho2].
    + exists c0. rw Ec lookup_insert_ne; [congruence|]. split; [done|]. split; [done|by apply Ho2].
  - intros b Hb. destruct (Hc1 b Hb) as [(Hne & J1 & J2 & Hf)|(cb & Hcb & Hp & Hf)]; [|exists cb; by split; [|right]].
    destruct (not_all_joined _ _ _ _ _ _ _ HI Hb Hi J1) as (cb & Hcb & Hp & Hfb). exists cb. rw Ec lookup_insert_ne; [congruence|]. split; [done|].
    right. split; [done|]. rw Hf Hfb. pose proof (joined_move b s s' i c c' Hi Ec) as Hm. rw J1 J2 in Hm. do 2 f_equal. lia.
  - rw El. destruct (bi_local _ _ _ _ HI) as [E|(b & cb & Hb & Hcb & Hp & E)]; [by left|]. right.
    assert (b ≠ i) as Hne by (intros ->; assert (cb = c) as -> by congruence; by apply (Hnc i)).
    exists b, cb. rw Ec lookup_insert_ne; [congruence|]. done.
  - rw Et Ec map_size_insert_Some //. apply HI.
  - rw Et. apply HI.
Qed.

(** *** Each access keeps the invariant *)

Section Access.
Context (s : bar_state) (k : nat) (clo opn : option nat) (i : nat) (c : bar_cpu).
Hypothesis HI : bar_inv s k clo opn.
Hypothesis Hi : bs_cpus s !! i = Some c.

(** A CPU that leads no group. *)
Lemma no_leader : (∀ l, bpc c ≠ BInc l true) → bpc c ≠ BAll → bpc c ≠ BClear → bpc c ≠ BRelease → bpc c ≠ BOne →
  opn ≠ Some i ∧ clo ≠ Some i.
Proof.
  intros N1 N2 N3 N4 N5. split; intros E.
  - destruct (opn_leader _ _ _ _ _ _ HI E Hi); congruence.
  - destruct (clo_leader _ _ _ _ _ _ HI E Hi) as [?|[?|?]]; congruence.
Qed.

Lemma opn_frame s' c' a : bs_cpus s' = <[i := c']> (bs_cpus s) → opn = Some a → joined a (i, c') = joined a (i, c) →
  bs_frames s !! a = Some (mk_local (Z.of_nat (num_joined a s')) 0).
Proof.
  intros Ec Ha Hj. destruct (bi_opn _ _ _ _ HI a Ha) as (ca & _ & _ & ->). pose proof (joined_move a s s' i c c' Hi Ec) as Hm. rw Hj in Hm.
  do 2 f_equal. lia.
Qed.

Lemma inv_enter : bpc c = BIdle → bar_inv (bar_enter i c s) k clo opn.
Proof.
  intros Hp. pose proof (bi_two _ _ _ _ HI). rw /bar_enter. destruct (Z.leb_spec (bs_total s) 1); [lia|].
  destruct no_leader as [No Nc]; try congruence. pose proof (bi_cpu _ _ _ _ HI i c Hi) as Hok. rw /cpu_ok Hp in Hok.
  apply (bar_inv_move s _ k clo opn i c (mk_bcpu BCas (S (started c)) (finished c))); try done; cbn [bs_frames].
  - rw /cpu_ok /=. rw lookup_insert_eq. destruct Hok as [-> ->]. done.
  - intros j Hj _ _. by rw lookup_insert_ne; [congruence|].
  - intros a Ha. left. congruence.
  - intros a Ha. rw lookup_insert_ne; [congruence|]. by apply (opn_frame _ (mk_bcpu BCas (S (started c)) (finished c))); rw /joined //= Hp.
  - intros b Hb. left. split; [congruence|]. rw /joined /= Hp. split; [done|]. split; [done|]. by rw lookup_insert_ne; [congruence|].
  - congruence.
Qed.

Lemma inv_join l : bpc c = BCas → bs_local s = Some l → bar_inv (bar_goto i c (BInc l false) s) k clo opn.
Proof.
  intros Hp El. destruct no_leader as [No Nc]; try congruence. pose proof (bi_cpu _ _ _ _ HI i c Hi) as Hok. rw /cpu_ok Hp in Hok.
  assert (joined l (i, c) = false) as Hj by rw /joined /= Hp //.
  assert (opn = Some l) as Ho.
  { destruct (bi_local _ _ _ _ HI) as [E|(b & cb & Hb & Hcb & Hpb & E)]; [congruence|]. assert (b = l) as -> by congruence.
    destruct (not_all_joined _ _ _ _ _ _ _ HI Hb Hi Hj) as (cb' & Hcb' & Hp' & _). congruence. }
  apply (bar_inv_move s _ k clo opn i c (goto (BInc l false) c)); try done.
  - rw /cpu_ok /=. split; [apply Hok|]. split; [done|]. symmetry. apply bool_decide_eq_false. congruence.
  - intros a Ha. left. congruence.
  - intros a Ha. by apply (opn_frame _ (goto (BInc l false) c)); rw /joined //= Hp.
  - intros b Hb. left. split; [congruence|]. by rw /joined /= Hp.
  - congruence.
Qed.

Lemma inv_lead : bpc c = BCas → bs_local s = None → bar_inv (bar_goto i c (BInc i true) (set_local (Some i) s)) k clo (Some i).
Proof.
  intros Hp El. destruct no_leader as [_ Nc]; try congruence. pose proof (bi_cpu _ _ _ _ HI i c Hi) as Hok. rw /cpu_ok Hp in Hok. destruct Hok as [Hah Hf].
  assert (opn = None) as Ho by (destruct (bi_local _ _ _ _ HI) as [E|(b & cb & _ & _ & _ & E)]; congruence).
  set (s' := bar_goto i c (BInc i true) (set_local (Some i) s)). assert (bs_cpus s' = <[i := goto (BInc i true) c]> (bs_cpus s)) as Ec by done.
  assert (∀ j cj, bs_cpus s !! j = Some cj → joined i (j, cj) = false) as Hnj.
  { intros j cj Hj. pose proof (bi_cpu _ _ _ _ HI j cj Hj) as Hokj. rw /cpu_ok in Hokj. rw /joined /=.
    destruct (bpc cj) eqn:Hpj; try done; apply bool_decide_eq_false; intros ->; first [congruence|naive_solver congruence]. }
  split.
  - intros j cj. rw Ec. intros [[<- <-]|[Hne Hj]]%lookup_insert_Some.
    + rw /cpu_ok /=. split; [done|]. split; [done|]. by rw bool_decide_true.
    + pose proof (bi_cpu _ _ _ _ HI j cj Hj) as Hokj. rw /cpu_ok in Hokj |- *. rw Ho in Hokj. destruct (bpc cj); naive_solver.
  - intros a [= <-]. exists (goto (BInc i true) c). rw Ec lookup_insert_eq. split; [done|]. split; [by left|]. cbn. rw Hf. do 2 f_equal.
    pose proof (joined_move i s s' i c _ Hi Ec) as Hm. rw (Hnj i c Hi) /= in Hm.
    assert (num_joined i s = 0%nat) as E0; [|rw E0 in Hm; cbn in Hm; lia].
    apply map_size_empty_iff, map_empty. intros j. apply map_lookup_filter_None. right. intros cj Hj. by rw (Hnj j cj Hj).
  - intros b Hb. assert (joined b (i, c) = false) as Hj by rw /joined /= Hp //.
    destruct (not_all_joined _ _ _ _ _ _ _ HI Hb Hi Hj) as (cb & Hcb & Hpb & Hfb). exists cb. rw Ec lookup_insert_ne; [congruence|]. split; [done|]. right.
    split; [done|]. cbn. rw Hfb. do 2 f_equal. pose proof (joined_move b s s' i c _ Hi Ec) as Hm. rw Hj /= in Hm. lia.
  - by left.
  - cbn. rw map_size_insert_Some //. apply HI.
  - apply HI.
Qed.

Lemma inv_inc l first b : bpc c = BInc l first → bs_frames s !! l = Some b →
  bar_inv (bar_goto i c (if first then BAll else BWait l) (set_frame l (mk_local (ulong (count b + 1)) (release b)) s)) k clo opn.
Proof.
  intros Hp Hb. pose proof (bi_cpu _ _ _ _ HI i c Hi) as Hok. rw /cpu_ok Hp in Hok. destruct Hok as (Hah & Ho & Hfirst).
  destruct (bi_opn _ _ _ _ HI l Ho) as (cl & Hcl & Hpl & Hfl). assert (b = mk_local (Z.of_nat (num_joined l s)) 0) as -> by congruence.
  set (p' := if first then BAll else BWait l). set (s' := bar_goto i c p' _).
  assert (bs_cpus s' = <[i := goto p' c]> (bs_cpus s)) as Ec by done.
  assert (joined l (i, goto p' c) = true) as Hj'.
  { rw /p' Hfirst /joined /=. destruct (decide (l = i)) as [->|Hne]; [rw bool_decide_true //|rw bool_decide_false //]; cbn; by rw bool_decide_true. }
  assert (joined l (i, c) = false) as Hj by rw /joined /= Hp //.
  pose proof (joined_move l s s' i c (goto p' c) Hi Ec) as Hm. rw Hj Hj' in Hm. pose proof (joined_bound l s') as Hbd.
  rw Ec map_size_insert_Some // in Hbd. pose proof (bi_total _ _ _ _ HI). pose proof (bi_two _ _ _ _ HI).
  assert (clo ≠ Some i) as Nc by (intros E; destruct (clo_leader _ _ _ _ _ _ HI E Hi) as [?|[?|?]]; congruence).
  assert (clo ≠ Some l) as Ncl by (intros E; destruct (clo_leader _ _ _ _ _ _ HI E Hcl) as [?|[?|?]]; destruct Hpl; congruence).
  apply (bar_inv_move s s' k clo opn i c (goto p' c)); try done; cbn [bs_frames].
  - rw /cpu_ok /p' Hfirst. destruct (decide (l = i)) as [->|Hne]; [by rw bool_decide_true|]. rw bool_decide_false //. split; [done|by left].
  - intros j _ Hj1 _. by rw /s' /= lookup_insert_ne; [congruence|].
  - intros a Ha. destruct (decide (a = i)) as [->|]; [|by left]. right. right. assert (l = i) as -> by congruence. by rw /p' Hfirst bool_decide_true.
  - intros a Ha. assert (a = l) as -> by congruence. rw /s' /= lookup_insert_eq -/s'. do 2 f_equal. rw wrap_small; [rw /uint; lia|lia].
  - intros b Hb'. left. split; [congruence|]. assert (l ≠ b) as Hlb by congruence. assert (b ≠ i) as Hbi by congruence. rw /joined /= Hp. split; [done|]. split.
    + rw /p' Hfirst. destruct (decide (l = i)) as [->|Hne]; [rw bool_decide_true //|rw bool_decide_false //]; cbn; by rw bool_decide_false.
    + by rw /s' /= lookup_insert_ne.
  - congruence.
Qed.

Lemma inv_wait l b : bpc c = BWait l → bs_frames s !! l = Some b → ctrue (release b) = true → bar_inv (bar_goto i c (BDec l) s) k clo opn.
Proof.
  intros Hp Hb Hr. destruct no_leader as [No Nc]; try congruence. pose proof (bi_cpu _ _ _ _ HI i c Hi) as Hok. rw /cpu_ok Hp in Hok.
  destruct Hok as (Hne & [[Ho _]|[Hc Hbeh]]).
  { destruct (bi_opn _ _ _ _ HI l Ho) as (cl & _ & _ & Hfl). rw Hfl in Hb. by injection Hb as <-. }
  destruct (bi_clo _ _ _ _ HI l Hc) as (cl & Hcl & [(_ & _ & Hfl)|[Hpl Hfl]]); [rw Hfl in Hb; by injection Hb as <-|].
  assert (∀ a, joined a (i, goto (BDec l) c) = joined a (i, c)) as Hsame by (intros a; by rw /joined /= Hp).
  set (s' := bar_goto i c (BDec l) s). assert (bs_cpus s' = <[i := goto (BDec l) c]> (bs_cpus s)) as Ec by done.
  apply (bar_inv_move s s' k clo opn i c (goto (BDec l) c)); try done.
  - intros a Ha. left. congruence.
  - intros a Ha. by apply (opn_frame s' (goto (BDec l) c)).
  - intros b' Hb'. assert (b' = l) as -> by congruence. right. exists cl. rw Ec lookup_insert_ne; [congruence|]. split; [done|]. split; [done|].
    cbn. rw Hfl. do 2 f_equal. pose proof (joined_move l s s' i c _ Hi Ec) as Hm. rw Hsame in Hm. lia.
  - congruence.
Qed.

Lemma inv_dec l b : bpc c = BDec l → bs_frames s !! l = Some b →
  bar_inv (bar_leave i c (set_frame l (mk_local (ulong (count b - 1)) (release b)) s)) k clo opn.
Proof.
  intros Hp Hb. destruct no_leader as [No Nc]; try congruence. pose proof (bi_cpu _ _ _ _ HI i c Hi) as Hok. rw /cpu_ok Hp in Hok.
  destruct Hok as (Hne & Hc & Hst & Hfin). set (c' := mk_bcpu BIdle (started c) (S (finished c))).
  set (s' := bar_leave i c _). assert (bs_cpus s' = <[i := c']> (bs_cpus s)) as Ec by done.
  assert (joined l (i, c) = true) as Hj by rw /joined /= Hp bool_decide_true //.
  pose proof (joined_move l s s' i c c' Hi Ec) as Hm. rw Hj in Hm. cbn in Hm. pose proof (joined_bound l s). pose proof (bi_total _ _ _ _ HI). pose proof (bi_two _ _ _ _ HI).
  destruct (bi_clo _ _ _ _ HI l Hc) as (cl & Hcl & Hcase).
  assert (opn ≠ Some l) as Nol by (intros E; destruct (opn_leader _ _ _ _ _ _ HI E Hcl), (clo_leader _ _ _ _ _ _ HI Hc Hcl) as [?|[?|?]]; congruence).
  assert (bpc cl = BOne ∧ b = mk_local (Z.of_nat (num_joined l s)) 1) as [Hpl ->].
  { destruct Hcase as [(Hpl & Hall & Hfl)|[Hpl Hfl]]; [|split; [done|congruence]]. destruct (Hall i c Hi); congruence. }
  apply (bar_inv_move s s' k clo opn i c c'); try done; rw /s' /=.
  - intros j Hji Hj1 Hj2. rw lookup_delete_ne; [congruence|]. by rw lookup_insert_ne; [congruence|].
  - intros a Ha. left. congruence.
  - intros a Ha. assert (a ≠ l) by congruence. rw lookup_delete_ne; [congruence|]. rw lookup_insert_ne; [congruence|].
    apply (opn_frame s' c'); [done..|]. rw /joined /= Hp. symmetry. apply bool_decide_eq_false. congruence.
  - intros b Hb'. assert (b = l) as -> by congruence. right. exists cl. rw lookup_insert_ne; [congruence|]. split; [done|]. split; [done|].
    rw lookup_delete_ne; [congruence|]. rw lookup_insert_eq. do 2 f_equal. rw -/s' wrap_small; [rw /uint; lia|lia].
  - congruence.
Qed.

Lemma inv_close b : bpc c = BAll → bs_frames s !! i = Some b → count b = bs_total s → bar_inv (bar_goto i c BClear s) (S k) (Some i) None.
Proof.
  intros Hp Hb Hcnt. pose proof (bi_cpu _ _ _ _ HI i c Hi) as Hok. rw /cpu_ok Hp in Hok. destruct Hok as (Hah & Ho).
  destruct (bi_opn _ _ _ _ HI i Ho) as (c0 & _ & _ & Hfl). assert (b = mk_local (Z.of_nat (num_joined i s)) 0) as -> by congruence. cbn in Hcnt.
  assert (∀ j cj, bs_cpus s !! j = Some cj → joined i (j, cj) = true) as Hall.
  { apply count_all. rw -/(num_joined i s). pose proof (bi_total _ _ _ _ HI). lia. }
  assert (∀ j cj, bs_cpus s !! j = Some cj → j ≠ i → bpc cj = BWait i ∧ started cj = S k ∧ finished cj = k) as Hw.
  { intros j cj Hj Hne. specialize (Hall j cj Hj). pose proof (bi_cpu _ _ _ _ HI j cj Hj) as Hokj. rw /cpu_ok in Hokj. rw /joined /= in Hall.
    destruct (bpc cj) eqn:Hpj; try done; apply bool_decide_eq_true in Hall; try congruence; subst.
    - destruct Hokj as (_ & [[_ ?]|[Hc _]]); [done|]. destruct (clo_leader _ _ _ _ _ _ HI Hc Hi) as [?|[?|?]]; congruence.
    - destruct Hokj as (_ & Hc & _). destruct (clo_leader _ _ _ _ _ _ HI Hc Hi) as [?|[?|?]]; congruence. }
  set (s' := bar_goto i c BClear s). assert (bs_cpus s' = <[i := goto BClear c]> (bs_cpus s)) as Ec by done.
  pose proof (joined_move i s s' i c _ Hi Ec) as Hm. rw (Hall i c Hi) /joined /= bool_decide_true // in Hm.
  split.
  - intros j cj. rw Ec. intros [[<- <-]|[Hne Hj]]%lookup_insert_Some.
    + rw /cpu_ok /=. destruct Hah. split; [done|]. lia.
    + destruct (Hw j cj Hj) as (Hpj & ? & ?); [congruence|]. rw /cpu_ok Hpj. split; [congruence|]. right. split; [done|]. lia.
  - done.
  - intros b [= <-]. exists (goto BClear c). rw Ec lookup_insert_eq. split; [done|]. left. split; [by left|]. split.
    + intros j cj. intros [[<- <-]|[Hne Hj]]%lookup_insert_Some; [by left|]. right. apply (Hw j cj Hj). congruence.
    + cbn. rw Hfl. do 2 f_equal. lia.
  - right. exists i, (goto BClear c). rw Ec lookup_insert_eq. split; [done|]. split; [done|]. split; [done|]. cbn.
    destruct (bi_local _ _ _ _ HI) as [E|(b & cb & Hb' & Hcb & Hpb & E)]; [congruence|]. destruct (decide (b = i)) as [->|Hne]; [done|].
    destruct (Hw b cb Hcb Hne); congruence.
  - cbn. rw map_size_insert_Some //. apply HI.
  - apply HI.
Qed.

(** The group that is released. *)
Lemma closing : bpc c = BClear ∨ bpc c = BRelease → clo = Some i ∧ opn = None ∧ started c = k ∧ S (finished c) = k ∧
  (∀ j cj, bs_cpus s !! j = Some cj → j = i ∨ bpc cj = BWait i) ∧ bs_frames s !! i = Some (mk_local (Z.of_nat (num_joined i s)) 0).
Proof.
  intros Hp. pose proof (bi_cpu _ _ _ _ HI i c Hi) as Hok. rw /cpu_ok in Hok.
  assert (clo = Some i ∧ started c = k ∧ S (finished c) = k) as (Hc & Hst & Hfin) by (destruct Hp as [Hp|Hp]; rw Hp in Hok; naive_solver).
  destruct (bi_clo _ _ _ _ HI i Hc) as (c0 & Hc0 & Hcase). assert (c0 = c) as -> by congruence.
  destruct Hcase as [(_ & Hall & Hf)|[E _]]; [|destruct Hp; congruence]. split; [done|]. split; [|done]. destruct opn as [a|] eqn:Ho; [|done].
  destruct (bi_opn _ _ _ _ HI a eq_refl) as (ca & Hca & Hpa & _). destruct (Hall a ca Hca) as [->|E]; [|destruct Hpa; congruence].
  assert (ca = c) as -> by congruence. destruct Hp, Hpa; congruence.
Qed.

(** The leader moves on while all others wait for it. *)
Lemma inv_leader p' s' : (bpc c = BClear ∨ bpc c = BRelease) → bs_cpus s' = <[i := goto p' c]> (bs_cpus s) → bs_total s' = bs_total s → bs_local s' = None →
  (p' = BRelease ∧ bs_frames s' = bs_frames s ∨
   p' = BOne ∧ ∃ b, bs_frames s !! i = Some b ∧ bs_frames s' = <[i := mk_local (count b) 1]> (bs_frames s)) →
  bar_inv s' k clo opn.
Proof.
  intros Hp Ec Et El Hcase. destruct (closing Hp) as (Hc & Ho & Hst & Hfin & Hall & Hf).
  pose proof (joined_move i s s' i c _ Hi Ec) as Hm.
  assert (joined i (i, c) = true) as J1 by (rw /joined /=; destruct Hp as [->| ->]; by rw bool_decide_true).
  assert (joined i (i, goto p' c) = true) as J2 by (rw /joined /=; destruct Hcase as [[-> _]|[-> _]]; by rw bool_decide_true).
  rw J1 J2 in Hm. assert (num_joined i s' = num_joined i s) as En by lia.
  split.
  - intros j cj. rw Ec. intros [[<- <-]|[Hne Hj]]%lookup_insert_Some.
    + rw /cpu_ok. cbn. destruct Hcase as [[-> _]|[-> _]]; done.
    + pose proof (bi_cpu _ _ _ _ HI j cj Hj) as Hokj. apply (cpu_ok_frames _ _ _ (bs_frames s)); [done|]. intros Hpj.
      destruct (Hall j cj Hj); congruence.
  - intros a Ha. congruence.
  - intros b Hb. assert (b = i) as -> by congruence. exists (goto p' c). rw Ec lookup_insert_eq. split; [done|]. rw En.
    destruct Hcase as [[-> Ef]|[-> (b & Hb' & Ef)]]; rw Ef.
    + left. split; [by right|]. split; [|done]. intros j cj [[<- <-]|[Hne Hj]]%lookup_insert_Some; [by left|]. by apply (Hall j cj).
    + right. split; [done|]. rw lookup_insert_eq. rw Hf in Hb'. by injection Hb' as <-.
  - left. congruence.
  - rw Et Ec map_size_insert_Some //. apply HI.
  - rw Et. apply HI.
Qed.

Lemma inv_done b : bpc c = BOne → bs_frames s !! i = Some b → count b = 1 → bar_inv (bar_leave i c s) k None opn.
Proof.
  intros Hp Hb Hcnt. pose proof (bi_cpu _ _ _ _ HI i c Hi) as Hok. rw /cpu_ok Hp in Hok. destruct Hok as (Hc & Hst & Hfin).
  destruct (bi_clo _ _ _ _ HI i Hc) as (c0 & Hc0 & Hcase). assert (c0 = c) as -> by congruence.
  destruct Hcase as [([E|E] & _)|[_ Hf]]; [congruence..|]. assert (b = mk_local (Z.of_nat (num_joined i s)) 1) as -> by congruence. cbn in Hcnt.
  assert (opn ≠ Some i) as No by (intros E; destruct (opn_leader _ _ _ _ _ _ HI E Hi); congruence).
  assert (joined i (i, c) = true) as J1 by (rw /joined /= Hp; by rw bool_decide_true).
  assert (∀ j cj, bs_cpus s !! j = Some cj → j ≠ i → joined i (j, cj) = false) as Hnone.
  { intros j cj Hj Hne. destruct (joined i (j, cj)) eqn:E; [|done]. destruct Hne. apply (count_one (joined i) (bs_cpus s) i c j cj); try done.
    rw -/(num_joined i s). lia. }
  set (c' := mk_bcpu BIdle (started c) (S (finished c))). assert (bs_cpus (bar_leave i c s) = <[i := c']> (bs_cpus s)) as Ec by done.
  split.
  - intros j cj. rw Ec. intros [[<- <-]|[Hne Hj]]%lookup_insert_Some; [by rw /cpu_ok /=|].
    pose proof (bi_cpu _ _ _ _ HI j cj Hj) as Hokj. assert (j ≠ i) as Hji by congruence. pose proof (Hnone j cj Hj Hji) as Hnj. rw /cpu_ok in Hokj |- *. rw /joined /= in Hnj.
    destruct (bpc cj) eqn:Hpj; try done; try (apply bool_decide_eq_false in Hnj); try naive_solver congruence.
    cbn. rw lookup_delete_ne //; congruence.
  - intros a Ha. destruct (bi_opn _ _ _ _ HI a Ha) as (ca & Hca & Hpa & Hfa). exists ca. rw Ec lookup_insert_ne; [congruence|]. split; [done|]. split; [done|].
    cbn. rw lookup_delete_ne; [congruence|]. apply (opn_frame _ c'); [done..|]. rw /joined /= Hp. symmetry. apply bool_decide_eq_false. congruence.
  - done.
  - left. cbn. destruct (bi_local _ _ _ _ HI) as [E|(b & cb & Hb' & Hcb & Hpb & E)]; [done|]. assert (b = i) as -> by congruence. congruence.
  - cbn. rw map_size_insert_Some //. apply HI.
  - apply HI.
Qed.
End Access.

(** The frame a CPU looks at is there. *)
Lemma frame_live s k clo opn i c l : bar_inv s k clo opn → bs_cpus s !! i = Some c → opn = Some l ∨ clo = Some l → is_Some (bs_frames s !! l).
Proof.
  intros HI Hi [E|E].
  - destruct (bi_opn _ _ _ _ HI l E) as (? & _ & _ & ->). eauto.
  - destruct (bi_clo _ _ _ _ HI l E) as (? & _ & [(_ & _ & ->)|[_ ->]]); eauto.
Qed.

Lemma bar_inv_step s s' k clo opn : bar_inv s k clo opn → bar_step s s' → ∃ k' clo' opn', bar_inv s' k' clo' opn'.
Proof.
  intros HI Hst. destruct Hst as [s i c Hi]. pose proof (bi_cpu _ _ _ _ HI i c Hi) as Hok. rw /cpu_ok in Hok. rw /bar_next.
  destruct (bpc c) as [| |l f| | | | |l|l|] eqn:Hp.
  - exists k, clo, opn. by apply inv_enter.
  - destruct (bs_local s) as [l|] eqn:El; [exists k, clo, opn; by apply inv_join|exists k, clo, (Some i); by apply (inv_lead s k clo opn)].
  - destruct (frame_live _ _ _ _ _ _ l HI Hi) as [b Hb]; [left; apply Hok|]. rw Hb. exists k, clo, opn. by apply inv_inc.
  - destruct (frame_live _ _ _ _ _ _ i HI Hi) as [b Hb]; [left; apply Hok|]. rw Hb. destruct (Z.eqb_spec (count b) (bs_total s)); [|by exists k, clo, opn].
    exists (S k), (Some i), None. by apply (inv_close s k clo opn i c HI Hi b).
  - exists k, clo, opn. by apply (inv_leader s k clo opn i c HI Hi BRelease); [left| | | |left].
  - destruct (frame_live _ _ _ _ _ _ i HI Hi) as [b Hb]; [right; apply Hok|]. rw Hb. exists k, clo, opn.
    destruct (closing s k clo opn i c HI Hi (or_intror Hp)) as (Hc & Ho & _). apply (inv_leader s k clo opn i c HI Hi BOne); try done; [by right| |right; eauto].
    cbn. destruct (bi_local _ _ _ _ HI) as [E|(b' & cb & Hb' & Hcb & Hpb & E)]; [congruence|]. assert (b' = i) as -> by congruence. congruence.
  - destruct (frame_live _ _ _ _ _ _ i HI Hi) as [b Hb]; [right; apply Hok|]. rw Hb. destruct (Z.eqb_spec (count b) 1); [|by exists k, clo, opn].
    exists k, None, opn. by apply (inv_done s k clo opn i c HI Hi b).
  - destruct (frame_live _ _ _ _ _ _ l HI Hi) as [b Hb]; [naive_solver|]. rw Hb. exists k, clo, opn. destruct (ctrue (release b)) eqn:Er; [|done].
    by apply (inv_wait s k clo opn i c HI Hi l b).
  - destruct (frame_live _ _ _ _ _ _ l HI Hi) as [b Hb]; [naive_solver|]. rw Hb. exists k, clo, opn. by apply inv_dec.
  - done.
Qed.

Lemma bar_init_inv s : bar_init s → 1 < bs_total s < 2 ^ ARCH_WIDTH → bar_inv s 0 None None.
Proof.
  intros (El & Et & Ef & Hc) Ht. split; try done; [|by left]. intros i c Hi. by rw (Hc i c Hi).
Qed.

Lemma bar_inv_rtc s s' k clo opn : rtc bar_step s s' → bar_inv s k clo opn → ∃ k' clo' opn', bar_inv s' k' clo' opn'.
Proof.
  intros Hr. revert k clo opn. induction Hr as [s|s s1 s2 Hst _ IH]; intros k clo opn HI; [eauto|].
  destruct (bar_inv_step _ _ _ _ _ HI Hst) as (k1 & clo1 & opn1 & HI1). by apply (IH k1 clo1 opn1).
Qed.

(** C36. A barrier for all [n] CPUs separates rounds, however their accesses are
    interleaved and however often they use it again: no CPU has finished more
    calls than any other CPU has started, and no CPU ever touches the stack frame
    of a call that has returned. *)
Theorem barrier_separates_rounds s s' : bar_init s → 1 < bs_total s < 2 ^ ARCH_WIDTH → rtc bar_step s s' →
  ∀ i j ci cj, bs_cpus s' !! i = Some ci → bs_cpus s' !! j = Some cj → (finished ci ≤ started cj)%nat ∧ bpc ci ≠ BFault.
Proof.
  intros Hinit Ht Hr i j ci cj Hi Hj. destruct (bar_inv_rtc _ _ _ _ _ Hr (bar_init_inv s Hinit Ht)) as (k & clo & opn & HI).
  assert (∀ l cl, bs_cpus s' !! l = Some cl → (finished cl ≤ k ≤ started cl)%nat ∧ bpc cl ≠ BFault) as Hk.
  { intros l cl Hl. pose proof (bi_cpu _ _ _ _ HI l cl Hl) as Hok. rw /cpu_ok in Hok. destruct (bpc cl) eqn:E; (split; [|done]); destruct_and?; destruct_or?; lia. }
  destruct (Hk i ci Hi), (Hk j cj Hj). split; [lia|done].
Qed.
End Barrier.

(** ** Witness *)

(** Two CPUs; [bar_run] lets the CPUs of a list make one access each. *)
Definition bar_two : bar_state := mk_bar None 2 ∅ (<[0%nat := mk_bcpu BIdle 0 0]> (<[1%nat := mk_bcpu BIdle 0 0]> ∅)).

Definition bar_run `{Arch} (order : list nat) (s : bar_state) : bar_state :=
  foldl (λ s i, match bs_cpus s !! i with Some c => bar_next i c s | None => s end) s order.

Lemma bar_run_rtc `{Arch} order s : rtc bar_step s (bar_run order s).
Proof.
  revert s. induction order as [|i order IH]; intros s; [apply rtc_refl|]. cbn. destruct (bs_cpus s !! i) as [c|] eqn:E; [|apply IH].
  eapply rtc_l; [exact (bar_access s i c E)|apply IH].
Qed.

Lemma bar_two_init : bar_init bar_two.
Proof.
  split; [done|]. split; [done|]. split; [done|]. intros i c Hi. rw /bar_two /= in Hi. apply lookup_insert_Some in Hi as [[_ <-]|[_ Hi]]; [done|].
  apply lookup_insert_Some in Hi as [[_ <-]|[_ Hi]]; [done|]. by rw lookup_empty in Hi.
Qed.

(** CPU 1 has left and started again while CPU 0 is still leaving. *)
Definition bar_sched : list nat := [0; 0; 0; 1; 1; 1; 0; 0; 0; 1; 1; 1]%nat.

Lemma barrier_separates_rounds_witness :
  bs_cpus (bar_run (H := riscv64) bar_sched bar_two) !! 1%nat = Some (mk_bcpu BCas 2 1) ∧ (1 ≤ 1)%nat.
Proof.
  split; [vm_compute; reflexivity|].
  destruct (barrier_separates_rounds (H := riscv64) bar_two (bar_run (H := riscv64) bar_sched bar_two) bar_two_init) with (i := 1%nat) (j := 0%nat)
    (ci := mk_bcpu BCas 2 1) (cj := mk_bcpu BOne 1 0) as [Hle _]; [done|apply bar_run_rtc|vm_compute; reflexivity|vm_compute; reflexivity|].
  exact Hle.
Defined.
