(* ===== verification/Mem.v ===== *)
(** Address arithmetic of the kernel library: [src/src/libk/include/mem.h].

    [paddr_t], [ppfn_t] and [psize_t] are unsigned of [PADDR_WIDTH] bits,
    virtual addresses, sizes and pointers are [ulong].  The alignment argument
    is an [int], converted to the type the macro is used at. *)

From stdpp Require Import base list gmap.
From Stdlib Require Import ZArith Lia.
From Corelib Require Import ssreflect.
From S2P Require Import Prelude Bits.

Section Mem.
Context `{Arch}.

(** ** Align up and down *)

Definition align_up_paddr (paddr align : Z) : Z := ALIGN_UP PADDR_WIDTH paddr (wrap PADDR_WIDTH align).
Definition align_down_paddr (paddr align : Z) : Z := ALIGN_DOWN PADDR_WIDTH paddr (wrap PADDR_WIDTH align).
Definition align_up_vaddr (vaddr align : Z) : Z := ALIGN_UP ARCH_WIDTH vaddr (ulong align).
Definition align_down_vaddr (vaddr align : Z) : Z := ALIGN_DOWN ARCH_WIDTH vaddr (ulong align).
Definition align_up_ptr (ptr align : Z) : Z := ALIGN_UP ARCH_WIDTH ptr (ulong align).
Definition align_down_ptr (ptr align : Z) : Z := ALIGN_DOWN ARCH_WIDTH ptr (ulong align).
Definition align_up_psize (psize align : Z) : Z := ALIGN_UP PADDR_WIDTH psize (wrap PADDR_WIDTH align).
Definition align_down_psize (psize align : Z) : Z := ALIGN_DOWN PADDR_WIDTH psize (wrap PADDR_WIDTH align).

(** These two mix the types: the mask is a [psize_t], the sum has the wider of
    the two types, and the result is cut down to [ulong]. *)
Definition align_up_vsize (vsize align : Z) : Z :=
  let a1 := wrap PADDR_WIDTH (wrap PADDR_WIDTH align - 1) in
  ulong (Z.land (wrap (Z.max ARCH_WIDTH PADDR_WIDTH) (vsize + a1)) (bnot PADDR_WIDTH a1)).
Definition align_down_vsize (vsize align : Z) : Z :=
  let a1 := wrap PADDR_WIDTH (wrap PADDR_WIDTH align - 1) in
  ulong (Z.land vsize (bnot PADDR_WIDTH a1)).

Definition is_paddr_aligned (paddr align : Z) : bool := ALIGNED PADDR_WIDTH paddr (wrap PADDR_WIDTH align).
Definition is_vaddr_aligned (vaddr align : Z) : bool := ALIGNED ARCH_WIDTH vaddr (ulong align).
Definition is_ptr_aligned (ptr align : Z) : bool := ALIGNED ARCH_WIDTH ptr (ulong align).

(** ** Casts *)

Definition cast_vaddr_to_paddr (vaddr : Z) : outcome Z :=
  if MAX_NUM_PADDR_BITS <? 64 - clz64 (u64 vaddr) then Panic else Ret (wrap PADDR_WIDTH vaddr).
Definition cast_ptr_to_paddr (ptr : Z) : outcome Z := cast_vaddr_to_paddr ptr.
Definition cast_u64_to_paddr (addr : Z) : outcome Z :=
  if MAX_NUM_PADDR_BITS <? 64 - clz64 addr then Panic else Ret (wrap PADDR_WIDTH addr).
Definition cast_u32_to_paddr (addr : Z) : outcome Z :=
  if MAX_NUM_PADDR_BITS <? 32 - clz32 addr then Panic else Ret (wrap PADDR_WIDTH addr).
Definition cast_u64_to_vaddr (addr : Z) : outcome Z :=
  if MAX_NUM_VADDR_BITS <? 64 - clz64 addr then Panic else Ret (ulong addr).
Definition cast_paddr_to_vaddr (paddr : Z) : outcome Z :=
  if MAX_NUM_VADDR_BITS <? 64 - clz64 (u64 paddr) then Panic else Ret (ulong paddr).
Definition cast_paddr_to_ptr (paddr : Z) : outcome Z := cast_paddr_to_vaddr paddr.
Definition cast_paddr_to_u64 (paddr : Z) : Z := u64 paddr.
Definition cast_paddr_to_u32 (paddr : Z) : outcome Z :=
  if 32 <? 64 - clz64 (u64 paddr) then Panic else Ret (u32 paddr).

(** ** Addresses and page frame numbers *)

Definition paddr_to_ppfn (paddr : Z) : Z := shr paddr PAGE_BITS.
Definition ppfn_to_paddr (ppfn : Z) : Z := shl PADDR_WIDTH ppfn PAGE_BITS.
Definition vaddr_to_vpfn (vaddr : Z) : Z := shr vaddr PAGE_BITS.
Definition vpfn_to_vaddr (vpfn : Z) : Z := shl ARCH_WIDTH vpfn PAGE_BITS.
Definition ptr_to_vpfn (ptr : Z) : Z := shr ptr PAGE_BITS.
Definition vpfn_to_ptr (vpfn : Z) : Z := shl ARCH_WIDTH vpfn PAGE_BITS.

(** ** Page counts and offsets *)

Definition get_ppage_count (psize : Z) : Z := shr (align_up_psize psize PAGE_SIZE) PAGE_BITS.
Definition get_vpage_count (vsize : Z) : Z := shr (align_up_vsize vsize PAGE_SIZE) PAGE_BITS.
Definition cast_ppage_count_to_vpage_count (ppage_count : Z) : outcome Z :=
  if ARCH_WIDTH <=? 64 - clz64 (u64 ppage_count) then Panic else Ret (ulong ppage_count).

Definition get_ppage_offset (paddr : Z) : Z := ulong (Z.land paddr (wrap PADDR_WIDTH (PAGE_SIZE - 1))).
Definition get_vpage_offset (vaddr : Z) : Z := Z.land vaddr (ulong (PAGE_SIZE - 1)).

End Mem.

(** ** Alignment to powers of two *)

Section Align.

Lemma land_bnot_low w s k : 0 ≤ k ≤ w → uint w s →
  Z.land s (bnot w (2 ^ k - 1)) = 2 ^ k * (s / 2 ^ k).
Proof.
  intros Hk Hs. rw -Z.shiftr_div_pow2; [lia|]. rw Z.mul_comm -Z.shiftl_mul_pow2; [lia|].
  apply Z.bits_inj'. intros i Hi. rw Z.land_spec /bnot wrap_testbit; [lia|].
  rw Z.lnot_spec // Z.shiftl_spec // Z.sub_1_r -Z.ones_equiv.
  destruct (Z.lt_ge_cases i k).
  - rw Z.ones_spec_low; [lia|]. rw (Z.testbit_neg_r _ (i - k)); [lia|]. by rw /= !andb_false_r.
  - rw Z.ones_spec_high; [lia|]. rw Z.shiftr_spec; [lia|]. replace (i - k + k) with i by lia.
    destruct (Z.ltb_spec i w); cbn; [by rw andb_true_r|].
    rw (uint_testbit_high _ _ _ Hs) //.
Qed.

Lemma pow2_uint w k : 0 ≤ k < w → uint w (2 ^ k) ∧ uint w (2 ^ k - 1).
Proof. intros. assert (2 ^ k < 2 ^ w) by (apply Z.pow_lt_mono_r; lia). rw /uint. lia. Qed.

(** Rounding up and down to a multiple of [2^k], when the sum does not overflow. *)
Lemma ALIGN_DOWN_pow2 w s k : 0 ≤ k < w → uint w s →
  ALIGN_DOWN w s (2 ^ k) = 2 ^ k * (s / 2 ^ k).
Proof.
  intros Hk Hs. destruct (pow2_uint w k Hk) as [? ?].
  rw /ALIGN_DOWN wrap_small //. apply land_bnot_low; [lia|done].
Qed.

Lemma ALIGN_UP_pow2 w s k : 0 ≤ k < w → 0 ≤ s → s + 2 ^ k - 1 < 2 ^ w →
  ALIGN_UP w s (2 ^ k) = 2 ^ k * ((s + 2 ^ k - 1) / 2 ^ k).
Proof.
  intros Hk Hs Hov. destruct (pow2_uint w k Hk) as [? ?].
  rw /ALIGN_UP (wrap_small w (2 ^ k - 1)) // Z.add_sub_assoc wrap_small; [rw /uint; lia|].
  apply land_bnot_low; [lia|rw /uint; lia].
Qed.

(** [y] is the least multiple of [m] that is not below [x]. *)
Definition least_multiple (m x y : Z) : Prop := (m | y) ∧ x ≤ y < x + m.

Lemma round_up_least m x : 0 < m → least_multiple m x (m * ((x + m - 1) / m)).
Proof.
  intros Hm. split; [apply Z.divide_factor_l|].
  pose proof (Z.mul_div_le (x + m - 1) m). pose proof (Z.mul_succ_div_gt (x + m - 1) m). lia.
Qed.

Lemma clz64_fits v n : uint 64 v → 0 ≤ n → (n <? 64 - clz64 v) = negb (v <? 2 ^ n).
Proof.
  intros Hv Hn. rw clz64_spec //. destruct (Z.eqb_spec v 0) as [->|Hne].
  - rw (proj2 (Z.ltb_ge _ _)); [lia|]. rw (proj2 (Z.ltb_lt _ _)); [lia|done].
  - rw /uint in Hv. destruct (Z.ltb_spec v (2 ^ n)) as [Hlt|Hge]; cbn.
    + apply Z.log2_lt_pow2 in Hlt; [|lia]. apply Z.ltb_ge. lia.
    + apply Z.log2_le_pow2 in Hge; [|lia]. apply Z.ltb_lt. lia.
Qed.

End Align.

Section Pages.
Context `{HA : Arch}.

Lemma paddr_widths : PAGE_BITS < PADDR_WIDTH ∧ PAGE_BITS < ARCH_WIDTH ∧ 0 ≤ PAGE_BITS.
Proof. pose proof page_bits_range. destruct paddr_width_cases; arch_lia. Qed.

Lemma PAGE_SIZE_pos : 0 < PAGE_SIZE.
Proof. rw /PAGE_SIZE. pose proof page_bits_range. lia. Qed.

Lemma wrap_PAGE_SIZE w : PAGE_BITS < w → wrap w PAGE_SIZE = PAGE_SIZE.
Proof. intros. apply wrap_small, pow2_uint. pose proof page_bits_range. lia. Qed.

Lemma align_up_paddr_page a : 0 ≤ a → a + PAGE_SIZE - 1 < 2 ^ PADDR_WIDTH →
  align_up_paddr a PAGE_SIZE = PAGE_SIZE * ((a + PAGE_SIZE - 1) / PAGE_SIZE).
Proof.
  pose proof paddr_widths. intros. rw /align_up_paddr wrap_PAGE_SIZE; [lia|].
  apply ALIGN_UP_pow2; [lia|done|done].
Qed.

Lemma align_down_paddr_page a : uint PADDR_WIDTH a →
  align_down_paddr a PAGE_SIZE = PAGE_SIZE * (a / PAGE_SIZE).
Proof.
  pose proof paddr_widths. intros. rw /align_down_paddr wrap_PAGE_SIZE; [lia|].
  apply ALIGN_DOWN_pow2; [lia|done].
Qed.

Lemma paddr_to_ppfn_div a : paddr_to_ppfn a = a / PAGE_SIZE.
Proof. rw /paddr_to_ppfn /shr Z.shiftr_div_pow2 //. by apply paddr_widths. Qed.

Lemma ppfn_to_paddr_mul n : 0 ≤ n → n * PAGE_SIZE < 2 ^ PADDR_WIDTH →
  ppfn_to_paddr n = n * PAGE_SIZE.
Proof.
  intros Hn Hlt. pose proof paddr_widths. pose proof PAGE_SIZE_pos.
  rw /ppfn_to_paddr /shl Z.shiftl_mul_pow2; [lia|]. apply wrap_small.
  change (2 ^ PAGE_BITS) with PAGE_SIZE. rw /uint. lia.
Qed.

Lemma get_ppage_count_ceil a : 0 ≤ a → a + PAGE_SIZE - 1 < 2 ^ PADDR_WIDTH →
  get_ppage_count a = (a + PAGE_SIZE - 1) / PAGE_SIZE.
Proof.
  intros Ha Hov. pose proof PAGE_SIZE_pos. pose proof paddr_widths.
  rw /get_ppage_count /shr Z.shiftr_div_pow2; [lia|].
  change (align_up_psize a PAGE_SIZE) with (align_up_paddr a PAGE_SIZE).
  rw align_up_paddr_page // Z.mul_comm. apply Z.div_mul. lia.
Qed.

End Pages.

(** ** Properties *)

(** [get_ppage_count] is the least number of pages that hold the given
    number of bytes, and the pages start at the address [ppfn_to_paddr] gives:
    a page frame number survives the conversion to an address and back. *)
Theorem page_count_least `{Arch} psize : 0 ≤ psize → psize + PAGE_SIZE - 1 < 2 ^ PADDR_WIDTH →
  let n := get_ppage_count psize in
  psize ≤ n * PAGE_SIZE ∧ (∀ m, psize ≤ m * PAGE_SIZE → n ≤ m) ∧
  (n * PAGE_SIZE < 2 ^ PADDR_WIDTH → paddr_to_ppfn (ppfn_to_paddr n) = n ∧
     get_ppage_offset (ppfn_to_paddr n) = 0).
Proof.
  intros Hp Hov n. pose proof PAGE_SIZE_pos as Hps. pose proof paddr_widths as (?&?&?).
  pose proof (get_ppage_count_ceil psize Hp Hov) as En. rw -/n in En.
  destruct (round_up_least PAGE_SIZE psize Hps) as [_ [Hle Hlt]]. rw -En in Hle Hlt.
  assert (0 ≤ n) as Hn by (rw En; apply Z.div_pos; lia).
  split_and!; [lia| |].
  - intros m Hm. assert (PAGE_SIZE * (n - 1) < PAGE_SIZE * m) as Hlt' by lia.
    apply Z.mul_lt_mono_pos_l in Hlt'; lia.
  - intros Hfit. rw ppfn_to_paddr_mul // paddr_to_ppfn_div Z.div_mul; [lia|]. split; [done|].
    rw /get_ppage_offset (wrap_small PADDR_WIDTH (PAGE_SIZE - 1)); [apply pow2_uint; lia|].
    rw land_ones_mod; [lia|]. change (2 ^ PAGE_BITS) with PAGE_SIZE.
    rw Z.mod_mul; [lia|]. apply wrap_small. rw /uint. lia.
Qed.

(** The checked casts keep the value or panic: [cast_u64_to_paddr] returns
    its argument unchanged exactly when it fits in the machine's physical
    addresses, and panics on every other value. *)
Theorem cast_u64_to_paddr_exact `{Arch} addr : uint 64 addr →
  0 ≤ MAX_NUM_PADDR_BITS ≤ PADDR_WIDTH →
  cast_u64_to_paddr addr = if addr <? 2 ^ MAX_NUM_PADDR_BITS then Ret addr else Panic.
Proof.
  intros Ha Hm. rw /cast_u64_to_paddr clz64_fits //; [lia|].
  destruct (Z.ltb_spec addr (2 ^ MAX_NUM_PADDR_BITS)) as [Hlt|]; cbn; [|done].
  f_equal. apply wrap_small. rw /uint in Ha *.
  assert (2 ^ MAX_NUM_PADDR_BITS ≤ 2 ^ PADDR_WIDTH) by (apply Z.pow_le_mono_r; lia). lia.
Qed.

(** ** Witnesses *)

Lemma page_count_least_witness : @get_ppage_count riscv64 5000 = 2 ∧
  ∀ m, 5000 ≤ m * 4096 → 2 ≤ m.
Proof.
  split; [vm_compute; reflexivity|].
  destruct (@page_count_least riscv64 5000) as (_ & Hl & _); [lia|vm_compute; reflexivity|].
  exact Hl.
Defined.

Lemma cast_u64_to_paddr_exact_witness :
  @cast_u64_to_paddr riscv32 (2 ^ 34 - 1) = Ret (2 ^ 34 - 1) ∧
  @cast_u64_to_paddr riscv32 (2 ^ 34) = Panic.
Proof.
  split.
  - rw (@cast_u64_to_paddr_exact riscv32 (2 ^ 34 - 1)); [split; vm_compute; congruence..|]. reflexivity.
  - rw (@cast_u64_to_paddr_exact riscv32 (2 ^ 34)); [split; vm_compute; congruence..|]. reflexivity.
Defined.
