(* ===== verification/Palloc.v ===== *)
(** The page frame allocator: [src/src/kernel/mem/palloc.c].

    [nodes !! pfn] is the node [nodes[pfn - pfn_start]]; a pointer to a node is
    its page frame number.  [buddies !! (r, o)] is [regions[r].buddies[o]], the
    head of the list of free blocks of order [o] in region [r], and
    [regions !! r] holds the other fields of [regions[r]].  Bit fields are kept
    at their width.  [kprintf] output is left out. *)

From stdpp Require Import base list gmap.
From Stdlib Require Import ZArith Lia.
From Corelib Require Import ssreflect.
From S2P Require Import Prelude Bits Lock.

Definition PALLOC_ORDER_BITS : Z := 4.
Definition PALLOC_ORDER_COUNT : Z := 2 ^ PALLOC_ORDER_BITS.
Definition PALLOC_MIN_ORDER : Z := 0.
Definition PALLOC_MAX_ORDER : Z := PALLOC_ORDER_COUNT - 1.
Definition PALLOC_REGION_BITS : Z := 5.
Definition MAX_PALLOC_REGION_COUNT : Z := 2 ^ PALLOC_REGION_BITS.

(** ** Data *)

Record palloc_node := mk_node {
  order : Z;
  region : Z;
  alloc : bool;
  has_next : bool;
  avail : bool;
  next : Z
}.

Definition zero_node : palloc_node := mk_node 0 0 false false false 0.

Record palloc_region := mk_region {
  tags : Z;
  total_pages : Z;
  avail_pages : Z;
  rlock : spinlock_t
}.

Record palloc_state := mk_palloc {
  nodes : gmap Z palloc_node;
  buddies : gmap (Z * Z) palloc_node;
  regions : gmap Z palloc_region;
  region_count : Z;
  pfn_start : Z;
  pfn_limit : Z;
  pfn_entry_count : Z;
  num_pages_total : Z;
  num_pages_alloc : Z;
  stats_lock : spinlock_t;
  cpu_int : bool
}.

(** ** Field updates *)

Definition upd_nodes (f : gmap Z palloc_node → gmap Z palloc_node) (s : palloc_state) : palloc_state :=
  mk_palloc (f (nodes s)) (buddies s) (regions s) (region_count s) (pfn_start s) (pfn_limit s)
    (pfn_entry_count s) (num_pages_total s) (num_pages_alloc s) (stats_lock s) (cpu_int s).
Definition upd_buddies (f : gmap (Z * Z) palloc_node → gmap (Z * Z) palloc_node) (s : palloc_state) : palloc_state :=
  mk_palloc (nodes s) (f (buddies s)) (regions s) (region_count s) (pfn_start s) (pfn_limit s)
    (pfn_entry_count s) (num_pages_total s) (num_pages_alloc s) (stats_lock s) (cpu_int s).
Definition upd_regions (f : gmap Z palloc_region → gmap Z palloc_region) (s : palloc_state) : palloc_state :=
  mk_palloc (nodes s) (buddies s) (f (regions s)) (region_count s) (pfn_start s) (pfn_limit s)
    (pfn_entry_count s) (num_pages_total s) (num_pages_alloc s) (stats_lock s) (cpu_int s).
Definition set_region_count (n : Z) (s : palloc_state) : palloc_state :=
  mk_palloc (nodes s) (buddies s) (regions s) n (pfn_start s) (pfn_limit s)
    (pfn_entry_count s) (num_pages_total s) (num_pages_alloc s) (stats_lock s) (cpu_int s).
Definition set_num_pages (total allocd : Z) (s : palloc_state) : palloc_state :=
  mk_palloc (nodes s) (buddies s) (regions s) (region_count s) (pfn_start s) (pfn_limit s)
    (pfn_entry_count s) total allocd (stats_lock s) (cpu_int s).
Definition set_stats_lock (v : spinlock_t) (s : palloc_state) : palloc_state :=
  mk_palloc (nodes s) (buddies s) (regions s) (region_count s) (pfn_start s) (pfn_limit s)
    (pfn_entry_count s) (num_pages_total s) (num_pages_alloc s) v (cpu_int s).
Definition set_cpu_int (b : bool) (s : palloc_state) : palloc_state :=
  mk_palloc (nodes s) (buddies s) (regions s) (region_count s) (pfn_start s) (pfn_limit s)
    (pfn_entry_count s) (num_pages_total s) (num_pages_alloc s) (stats_lock s) b.

#[export] Instance palloc_has_int : HasInt palloc_state := {
  int_state := cpu_int;
  set_int := set_cpu_int;
  int_set _ _ := eq_refl;
  set_set _ _ _ := eq_refl;
  set_same s := match s with mk_palloc _ _ _ _ _ _ _ _ _ _ _ => eq_refl end
}.

Definition set_rlock (v : spinlock_t) (r : palloc_region) : palloc_region :=
  mk_region (tags r) (total_pages r) (avail_pages r) v.

(** [regions[r].lock] and [page_stats.lock]. *)
Definition region_lock (r : Z) : lock_ref palloc_state :=
  mk_lock_ref (λ s, rlock <$> regions s !! r) (λ v, upd_regions (alter (set_rlock v) r)).
Definition page_stats_lock : lock_ref palloc_state :=
  mk_lock_ref (λ s, Some (stats_lock s)) set_stats_lock.

Section Palloc.
Context `{Arch}.

(** ** Node access *)

(** Assignment to the bit fields of a node. *)
Definition set_link (hn : bool) (nx : Z) (n : palloc_node) : palloc_node :=
  mk_node (order n) (region n) (alloc n) hn (avail n) (wrap (ARCH_WIDTH - PAGE_BITS) nx).
Definition set_alloc (a : bool) (n : palloc_node) : palloc_node :=
  mk_node (order n) (region n) a (has_next n) (avail n) (next n).

(** The whole union of a node as one word. *)
Definition node_value (n : palloc_node) : Z :=
  order n + Z.shiftl (region n) 4 + Z.shiftl (Z.b2z (alloc n)) 9 +
  Z.shiftl (Z.b2z (has_next n)) 10 + Z.shiftl (Z.b2z (avail n)) 11 + Z.shiftl (next n) 12.

Definition is_pfn_valid (pfn : Z) : M palloc_state bool :=
  gets (λ s, negb ((pfn <? pfn_start s) || (pfn_limit s <=? pfn))).

Definition get_node_by_pfn (pfn : Z) : M palloc_state Z :=
  valid ← is_pfn_valid pfn;
  panic_if (negb valid);;
  mret pfn.

Definition read_node (p : Z) : M palloc_state palloc_node := deref (λ s, nodes s !! p).
Definition write_node (p : Z) (f : palloc_node → palloc_node) : M palloc_state unit :=
  n ← read_node p; modify (upd_nodes (<[p := f n]>)).
Definition read_buddy (r o : Z) : M palloc_state palloc_node := deref (λ s, buddies s !! (r, o)).
Definition write_buddy (r o : Z) (f : palloc_node → palloc_node) : M palloc_state unit :=
  n ← read_buddy r o; modify (upd_buddies (<[(r, o) := f n]>)).
Definition read_region (r : Z) : M palloc_state palloc_region := deref (λ s, regions s !! r).
Definition write_region (r : Z) (f : palloc_region → palloc_region) : M palloc_state unit :=
  g ← read_region r; modify (upd_regions (<[r := f g]>)).

(** ** Node manipulation *)

Definition insert_node (pfn r o : Z) : M palloc_state unit :=
  node ← get_node_by_pfn pfn;
  hd ← read_buddy r o;
  write_node node (set_link (has_next hd) (next hd));;
  write_buddy r o (set_link true pfn).

(** The do-while loop that follows the list from [prev]. *)
Fixpoint remove_node_loop (fuel : nat) (pfn prev : Z) : M palloc_state unit :=
  match fuel with
  | O => diverge
  | S fuel' =>
      p ← read_node prev;
      let cur_pfn := next p in
      cur ← get_node_by_pfn cur_pfn;
      c ← read_node cur;
      if cur_pfn =? pfn then
        write_node prev (set_link (has_next c) (next c));;
        write_node cur (set_link false 0)
      else if has_next c then remove_node_loop fuel' pfn cur
      else panic
  end.

Definition remove_node (pfn r o : Z) : M palloc_state unit :=
  hd ← read_buddy r o;
  let cur_pfn := next hd in
  cur ← get_node_by_pfn cur_pfn;
  c ← read_node cur;
  if cur_pfn =? pfn then
    write_buddy r o (set_link (has_next c) (next c));;
    write_node cur (set_link false 0)
  else
    assert (has_next c);;
    fuel ← gets (λ s, Z.to_nat (pfn_limit s - pfn_start s));
    remove_node_loop fuel pfn cur.

(** ** Helper functions *)

Definition pfn_mod_order_page_count (pfn order_page_count : Z) : Z :=
  Z.land pfn (wrap PADDR_WIDTH (order_page_count - 1)).

Definition calc_palloc_order (count : Z) : outcome Z :=
  let o := 32 - 1 - clz32 (u32 count) in
  let o := if 1 <? popcount32 (u32 count) then o + 1 else o in
  if o <? PALLOC_MIN_ORDER then Ret PALLOC_MIN_ORDER
  else if PALLOC_MAX_ORDER <? o then Panic
  else Ret o.

(** ** Buddies *)

(** The six assignments that set up a node in [buddy_split]. *)
Definition fresh_node (o r : Z) (n : palloc_node) : palloc_node :=
  mk_node (wrap PALLOC_ORDER_BITS o) (wrap PALLOC_REGION_BITS r) false false true 0.

(** The second half of [buddy_split]: the first block of the list of order [o]
    becomes two blocks of order [o - 1]. *)
Definition split_head (o r : Z) : M palloc_state Z :=
  hd ← read_buddy r o;
  let pfn := next hd in
  node ← get_node_by_pfn pfn;
  n ← read_node node;
  write_buddy r o (set_link (has_next n) (next n));;
  off ← lift_outcome (shl_chk PADDR_WIDTH 1 (o - 1));
  let pfn2 := wrap PADDR_WIDTH (pfn + off) in
  node2 ← get_node_by_pfn pfn2;
  write_node node (fresh_node (o - 1) r);;
  write_node node2 (fresh_node (o - 1) r);;
  insert_node pfn r (o - 1);;
  insert_node pfn2 r (o - 1);;
  mret 0.

(** The recursion goes up one order at a time; [fuel] bounds its depth. *)
Fixpoint buddy_split (fuel : nat) (o r : Z) : M palloc_state Z :=
  match fuel with
  | O => diverge
  | S fuel' =>
      panic_if ((PALLOC_MAX_ORDER <? o) || (o <? PALLOC_MIN_ORDER));;
      hd ← read_buddy r o;
      res ← (if has_next hd then mret 0
             else if o =? PALLOC_MAX_ORDER then mret (-1)
             else buddy_split fuel' (o + 1) r);
      if res =? -1 then mret (-1) else split_head o r
  end.

(** The assignments that set up a node in [buddy_combine]: [alloc] is kept. *)
Definition combined_node (o r : Z) (n : palloc_node) : palloc_node :=
  mk_node (wrap PALLOC_ORDER_BITS o) (wrap PALLOC_REGION_BITS r) (alloc n) false true 0.

(** The two buddies become one block of the next order. *)
Definition merge_buddies (pfn other_pfn higher_pfn r o : Z) : M palloc_state unit :=
  remove_node pfn r o;;
  remove_node other_pfn r o;;
  write_node pfn (combined_node (o + 1) r);;
  write_node other_pfn (combined_node (o + 1) r);;
  insert_node higher_pfn r (o + 1).

Fixpoint buddy_combine (fuel : nat) (pfn : Z) : M palloc_state unit :=
  match fuel with
  | O => diverge
  | S fuel' =>
      node ← get_node_by_pfn pfn;
      n ← read_node node;
      let r := region n in
      let o := order n in
      order_page_count ← lift_outcome (shl_chk ARCH_WIDTH 1 o);
      if o =? PALLOC_MAX_ORDER then mret tt else
      let higher := o + 1 in
      higher_order_count ← lift_outcome (shl_chk ARCH_WIDTH 1 higher);
      let '(higher_pfn, other_pfn) :=
        if pfn_mod_order_page_count pfn higher_order_count =? 0
        then (pfn, wrap PADDR_WIDTH (pfn + order_page_count))
        else (wrap PADDR_WIDTH (pfn - order_page_count), wrap PADDR_WIDTH (pfn - order_page_count)) in
      valid ← is_pfn_valid other_pfn;
      if negb valid then mret tt else
      other_node ← get_node_by_pfn other_pfn;
      m ← read_node other_node;
      if negb (avail m) || negb (region m =? r) || alloc m || negb (o =? order m) then mret tt
      else
        merge_buddies pfn other_pfn higher_pfn r o;;
        buddy_combine fuel' higher_pfn
  end.

(** ** Allocation and release *)

Definition BUDDY_FUEL : nat := 16.

Definition sub_avail (k : Z) (g : palloc_region) : palloc_region :=
  mk_region (tags g) (total_pages g) (ulong (avail_pages g - k)) (rlock g).
Definition add_avail (k : Z) (g : palloc_region) : palloc_region :=
  mk_region (tags g) (total_pages g) (ulong (avail_pages g + k)) (rlock g).

Definition palloc_region_ (count r : Z) : M palloc_state Z :=
  o ← lift_outcome (calc_palloc_order count);
  let order_count := Z.shiftl 1 o in
  g ← read_region r;
  if avail_pages g <? order_count then mret 0 else
  if o =? PALLOC_MAX_ORDER then mret 0 else
  spinlock_lock_int (region_lock r);;
  hd ← read_buddy r o;
  res ← (if has_next hd then mret 0 else buddy_split BUDDY_FUEL (o + 1) r);
  if res =? -1 then
    spinlock_unlock_int (region_lock r);;
    mret 0
  else
    hd ← read_buddy r o;
    let pfn := next hd in
    node ← get_node_by_pfn pfn;
    n ← read_node node;
    write_buddy r o (set_link (has_next n) (next n));;
    write_node node (λ n, set_link false 0 (set_alloc true n));;
    write_region r (sub_avail order_count);;
    spinlock_unlock_int (region_lock r);;
    spinlock_exclusive_int page_stats_lock
      (modify (λ s, set_num_pages (num_pages_total s) (u64 (num_pages_alloc s + order_count)) s));;
    mret pfn.

(** [MEMMAP_ALLOC_MATCH_*], in the order of the enumeration. *)
Inductive alloc_match :=
| MATCH_IGNORE | MATCH_EXACT | MATCH_SET_ALL | MATCH_SET_ANY | MATCH_UNSET_ALL | MATCH_UNSET_ANY.

(** The switch on [match], for 32-bit tags. *)
Definition tags_matched (tags mask : Z) (m : alloc_match) : bool :=
  match m with
  | MATCH_IGNORE => true
  | MATCH_EXACT => tags =? mask
  | MATCH_SET_ALL => Z.land tags mask =? mask
  | MATCH_SET_ANY => ctrue (Z.land tags mask)
  | MATCH_UNSET_ALL => Z.land (bnot 32 tags) mask =? mask
  | MATCH_UNSET_ANY => ctrue (Z.land (bnot 32 tags) mask)
  end.

(** [for (r = r0; r < region_count; r++)], with [n] regions left. *)
Fixpoint palloc_tag_loop (n : nat) (r count mask : Z) (m : alloc_match) : M palloc_state Z :=
  match n with
  | O => mret 0
  | S n' =>
      g ← read_region r;
      pfn ← (if tags_matched (tags g) mask m then palloc_region_ count r else mret 0);
      if ctrue pfn then mret pfn else palloc_tag_loop n' (r + 1) count mask m
  end.

Definition palloc_tag (count mask : Z) (m : alloc_match) : M palloc_state Z :=
  n ← gets (λ s, Z.to_nat (region_count s));
  palloc_tag_loop n 0 count mask m.

Definition MEMMAP_TAG_NORMAL : Z := 1.
Definition MEMMAP_TAG_DIRECT_MAPPED : Z := 2.
Definition MEMMAP_TAG_DIRECT_ACCESS : Z := 4.

Definition direct_mapped_tags : list (alloc_match * Z) :=
  [(MATCH_EXACT, Z.lor (Z.lor MEMMAP_TAG_NORMAL MEMMAP_TAG_DIRECT_MAPPED) MEMMAP_TAG_DIRECT_ACCESS);
   (MATCH_SET_ALL, Z.lor (Z.lor MEMMAP_TAG_NORMAL MEMMAP_TAG_DIRECT_MAPPED) MEMMAP_TAG_DIRECT_ACCESS);
   (MATCH_EXACT, Z.lor MEMMAP_TAG_NORMAL MEMMAP_TAG_DIRECT_MAPPED);
   (MATCH_SET_ALL, Z.lor MEMMAP_TAG_NORMAL MEMMAP_TAG_DIRECT_MAPPED)].

Definition palloc_tags : list (alloc_match * Z) :=
  direct_mapped_tags ++
  [(MATCH_EXACT, MEMMAP_TAG_NORMAL); (MATCH_SET_ALL, MEMMAP_TAG_NORMAL); (MATCH_IGNORE, 0)].

(** [for (t = 0; t < ... && !pfn; t += 2) pfn = palloc_tag(...)]. *)
Fixpoint palloc_tags_loop (count : Z) (ts : list (alloc_match * Z)) : M palloc_state Z :=
  match ts with
  | [] => mret 0
  | (m, mask) :: ts' =>
      pfn ← palloc_tag count mask m;
      if ctrue pfn then mret pfn else palloc_tags_loop count ts'
  end.

Definition palloc_direct_mapped (count : Z) : M palloc_state Z :=
  pfn ← palloc_tags_loop count direct_mapped_tags;
  panic_if (negb (ctrue pfn));;
  mret pfn.

Definition palloc (count : Z) : M palloc_state Z := palloc_tags_loop count palloc_tags.

Definition pfree (pfn : Z) : M palloc_state Z :=
  node ← get_node_by_pfn pfn;
  n ← read_node node;
  let r := region n in
  let o := order n in
  let order_count := Z.shiftl 1 o in
  spinlock_lock_int (region_lock r);;
  write_node node (set_alloc false);;
  hd ← read_buddy r o;
  (if ctrue (node_value hd)
   then write_node node (set_link true (next hd))
   else write_node node (set_link false 0));;
  write_buddy r o (set_link true pfn);;
  write_region r (add_avail order_count);;
  buddy_combine BUDDY_FUEL pfn;;
  spinlock_unlock_int (region_lock r);;
  spinlock_exclusive_int page_stats_lock
    (modify (λ s, set_num_pages (num_pages_total s) (u64 (num_pages_alloc s - order_count)) s));;
  mret order_count.

(** ** Initialisation *)

(** The inner loop [for (order = MAX; order >= MIN; order--)]: the first order
    whose block is aligned at [cur_pfn] and ends by [limit]. *)
Fixpoint find_order (n : nat) (cur_pfn limit : Z) : option Z :=
  let o := Z.of_nat n in
  if (pfn_mod_order_page_count cur_pfn (Z.shiftl 1 o) =? 0) && (wrap PADDR_WIDTH (cur_pfn + Z.shiftl 1 o) <=? limit)
  then Some o
  else match n with O => None | S n' => find_order n' cur_pfn limit end.

Fixpoint init_region_loop (fuel : nat) (cur_pfn limit r : Z) : M palloc_state unit :=
  if cur_pfn <? limit then
    match fuel with
    | O => diverge
    | S fuel' =>
        match find_order (Z.to_nat PALLOC_MAX_ORDER) cur_pfn limit with
        | None => init_region_loop fuel' cur_pfn limit r
        | Some o =>
            node ← get_node_by_pfn cur_pfn;
            write_node node (fresh_node o r);;
            insert_node cur_pfn r o;;
            init_region_loop fuel' (wrap PADDR_WIDTH (cur_pfn + Z.shiftl 1 o)) limit r
        end
    end
  else mret tt.

Definition init_region (start_pfn count r tgs : Z) : M palloc_state unit :=
  modify (λ s, set_num_pages (u64 (num_pages_total s + count)) (num_pages_alloc s) s);;
  write_region r (λ g, mk_region tgs (ulong (total_pages g + count))
                                 (ulong (avail_pages g + count)) (rlock g));;
  init_region_loop (Z.to_nat count) start_pfn (wrap PADDR_WIDTH (start_pfn + count)) r.

End Palloc.
