(* ===== verification/PallocSpec.v ===== *)
(** Correctness of the buddy allocator of [src/src/kernel/mem/palloc.c]
    (model: file Palloc).

    The abstract view of the allocator is a partition of its page frames into
    blocks.  [binv] relates a state to such a partition; the operations are
    shown to move between states related to partitions, and the partitions
    give the meaning of allocation and release in terms of single pages. *)

From stdpp Require Import base list gmap.
From Stdlib Require Import ZArith Lia.
From Corelib Require Import ssreflect.
From S2P Require Import Prelude Bits Lock Palloc.

(** ** Free lists *)

(** [chain N hn nx xs]: following [has_next]/[next] through the nodes [N],
    starting with the link [(hn, nx)], visits [xs] and then stops.  The link at
    the end of a list has [next = 0]. *)
Fixpoint chain (N : gmap Z palloc_node) (hn : bool) (nx : Z) (xs : list Z) : Prop :=
  match xs with
  | [] => hn = false ∧ nx = 0
  | x :: xs' => hn = true ∧ nx = x ∧
      ∃ n, N !! x = Some n ∧ chain N (has_next n) (next n) xs'
  end.

(** The head of a list uses no field but its link. *)
Definition clean (hd : palloc_node) : Prop :=
  order hd = 0 ∧ region hd = 0 ∧ alloc hd = false ∧ avail hd = false.

(** The contents of every free list, by region and order. *)
Definition lists := (Z * Z) → list Z.

Definition upd_list (L : lists) (k : Z * Z) (xs : list Z) : lists :=
  λ k', if decide (k' = k) then xs else L k'.

(** The lists a state holds; no node is on two lists or twice on one. *)
Record desc (hi : Z) (N : gmap Z palloc_node) (H : gmap (Z * Z) palloc_node) (L : lists) : Prop := {
  de_chain : ∀ k hd, H !! k = Some hd → clean hd ∧ chain N (has_next hd) (next hd) (L k);
  de_nodup : ∀ k, NoDup (L k);
  de_disj : ∀ k1 k2 x, x ∈ L k1 → x ∈ L k2 → k1 = k2;
  de_range : ∀ k x, x ∈ L k → 0 ≤ x < hi
}.

(** [p] is on no list. *)
Definition unlisted (L : lists) (p : Z) : Prop := ∀ k, p ∉ L k.

(** ** Blocks *)

Record blk := mk_blk { b_region : Z; b_order : Z; b_alloc : bool }.

#[export] Instance blk_eq_dec : EqDecision blk.
Proof. solve_decision. Defined.

Definition covers (p : Z) (b : blk) (q : Z) : Prop := p ≤ q < p + 2 ^ b_order b.

(** The fields of a node other than its link. *)
Definition node_data (n : palloc_node) : Z * Z * bool * bool :=
  (order n, region n, alloc n, avail n).
Definition data_at (N : gmap Z palloc_node) (q : Z) : option (Z * Z * bool * bool) :=
  node_data <$> N !! q.
Definition same_data (N N' : gmap Z palloc_node) : Prop := ∀ q, data_at N' q = data_at N q.

(** A block is aligned to its size, lies in the managed range, and the node of
    its first page describes it. *)
Definition blk_ok (lo hi : Z) (N : gmap Z palloc_node) (p : Z) (b : blk) : Prop :=
  0 ≤ b_region b < MAX_PALLOC_REGION_COUNT ∧ 0 ≤ b_order b ≤ PALLOC_MAX_ORDER ∧
  lo ≤ p ∧ p + 2 ^ b_order b ≤ hi ∧ p mod 2 ^ b_order b = 0 ∧
  data_at N p = Some (b_order b, b_region b, b_alloc b, true).

(** The blocks [B] partition the pages whose nodes are in use. *)
Record dinv (lo hi : Z) (N : gmap Z palloc_node) (B : gmap Z blk) : Prop := {
  di_dom : ∀ q, lo ≤ q < hi → is_Some (N !! q);
  di_blk : ∀ p b, B !! p = Some b → blk_ok lo hi N p b;
  di_disj : ∀ p1 b1 p2 b2 q, B !! p1 = Some b1 → B !! p2 = Some b2 →
              covers p1 b1 q → covers p2 b2 q → p1 = p2;
  di_cover : ∀ q o r a, lo ≤ q < hi → data_at N q = Some (o, r, a, true) →
               ∃ p b, B !! p = Some b ∧ covers p b q ∧ b_region b = r
}.

Section Invariant.
Context `{HA : Arch}.

(** Page frame numbers fit in the [next] bit field and in a physical address. *)
Definition pfn_bound (hi : Z) : Prop :=
  hi ≤ 2 ^ (ARCH_WIDTH - PAGE_BITS) ∧ hi ≤ 2 ^ (PADDR_WIDTH - PAGE_BITS).

(** The free lists hold exactly the free blocks, by region and order. *)
Record binv (lo hi : Z) (N : gmap Z palloc_node) (H : gmap (Z * Z) palloc_node)
    (L : lists) (B : gmap Z blk) : Prop := {
  bi_lo : 0 ≤ lo;
  bi_bound : pfn_bound hi;
  bi_heads : ∀ r o, 0 ≤ r < MAX_PALLOC_REGION_COUNT → 0 ≤ o ≤ PALLOC_MAX_ORDER →
               is_Some (H !! (r, o));
  bi_dinv : dinv lo hi N B;
  bi_desc : desc hi N H L;
  bi_free : ∀ r o p, p ∈ L (r, o) ↔ B !! p = Some (mk_blk r o false)
}.

End Invariant.

(** ** Lists of free blocks *)

Section Lists.

Lemma chain_frame N N' hn nx xs :
  (∀ x, x ∈ xs → N' !! x = N !! x) → chain N hn nx xs → chain N' hn nx xs.
Proof.
  revert hn nx. induction xs as [|x xs IH]; intros hn nx Hf; [done|].
  intros (-> & -> & n & Hn & Hc). split_and!; [done..|]. exists n.
  rw Hf; [set_solver|]. split; [done|]. apply IH; [set_solver|done].
Qed.

Lemma chain_link_eq N hn nx xs x : x ∈ xs → chain N hn nx xs → is_Some (N !! x).
Proof.
  revert hn nx. induction xs as [|y xs IH]; intros hn nx Hx Hc; [by apply elem_of_nil in Hx|].
  destruct Hc as (_ & _ & n & Hn & Hc). apply elem_of_cons in Hx as [->|Hx]; eauto.
Qed.

Lemma upd_list_eq L k xs : upd_list L k xs k = xs.
Proof. rw /upd_list. by case_decide. Qed.

Lemma upd_list_ne L k k' xs : k ≠ k' → upd_list L k xs k' = L k'.
Proof. intros. rw /upd_list. case_decide; congruence. Qed.

Lemma desc_write hi N H L p n :
  desc hi N H L → unlisted L p → desc hi (<[p := n]> N) H L.
Proof.
  intros [Hc Hd Hj Hr] Hp. split; [|done..]. intros k hd Hk. destruct (Hc k hd Hk) as [? ?].
  split; [done|]. eapply chain_frame; [|eassumption]. intros x Hx.
  rw lookup_insert_ne //. intros ->. by apply (Hp k).
Qed.

Lemma unlisted_upd L k xs p : unlisted L p → p ∉ xs → unlisted (upd_list L k xs) p.
Proof. intros Hu Hx k'. rw /upd_list. case_decide; [done|apply Hu]. Qed.

Context `{HA : Arch}.

Lemma clean_set_link hn nx hd : clean hd → clean (set_link hn nx hd).
Proof. done. Qed.

Lemma chain_next_range hi N hn nx xs :
  0 < hi → (∀ x, x ∈ xs → 0 ≤ x < hi) → chain N hn nx xs → 0 ≤ nx < hi.
Proof.
  intros Hhi Hx. destruct xs as [|x xs]; cbn.
  - intros (_ & ->). lia.
  - intros (_ & -> & _). apply Hx. set_solver.
Qed.

(** Taking the first element off a list. *)
Lemma desc_pop hi N H L k hd p n xs :
  pfn_bound hi → desc hi N H L → H !! k = Some hd → L k = p :: xs → N !! p = Some n →
  desc hi N (<[k := set_link (has_next n) (next n) hd]> H) (upd_list L k xs).
Proof.
  intros [Hb _] [Hc Hd Hj Hr] Hk HL Hn.
  destruct (Hc k hd Hk) as [Hcl Hch]. rw HL in Hch. destruct Hch as (_ & _ & n' & Hn' & Hch).
  simplify_eq. pose proof (Hd k) as Hdk. rw HL in Hdk. apply NoDup_cons in Hdk as [Hp Hdk].
  assert (∀ x, x ∈ xs → x ∈ L k) as Hsub by (rw HL; set_solver).
  assert (0 ≤ p < hi) by (apply (Hr k); rw HL; set_solver).
  assert (0 ≤ next n < hi) by (eapply chain_next_range; [lia| |eassumption]; eauto).
  split.
  - intros k' hd'. rw lookup_insert_Some. intros [[-> <-]|[Hne Hk']].
    + rw upd_list_eq. split; [done|]. cbn. rw wrap_small; [rw /uint; lia|]. done.
    + rw upd_list_ne //. by apply Hc.
  - intros k'. rw /upd_list. case_decide; [done|apply Hd].
  - intros k1 k2 x. rw /upd_list. repeat case_decide; subst; eauto.
  - intros k' x. rw /upd_list. case_decide; subst; eauto.
Qed.

(** Putting an unlisted node in front of a list. *)
Lemma desc_push hi N H L k hd p n :
  pfn_bound hi → desc hi N H L → H !! k = Some hd → N !! p = Some n →
  unlisted L p → 0 ≤ p < hi →
  desc hi (<[p := set_link (has_next hd) (next hd) n]> N)
          (<[k := set_link true p hd]> H) (upd_list L k (p :: L k)).
Proof.
  intros [Hb _] [Hc Hd Hj Hr] Hk Hn Hu Hp.
  destruct (Hc k hd Hk) as [Hcl Hch].
  assert (0 ≤ next hd < hi) by (eapply chain_next_range; [lia| |eassumption]; eauto).
  assert (∀ k' hd', H !! k' = Some hd' →
    chain (<[p := set_link (has_next hd) (next hd) n]> N) (has_next hd') (next hd') (L k')) as Hfr.
  { intros k' hd' Hk'. eapply chain_frame; [|by eapply Hc].
    intros x Hx. rw lookup_insert_ne //. intros ->. by apply (Hu k'). }
  split.
  - intros k' hd'. rw lookup_insert_Some. intros [[-> <-]|[Hne Hk']].
    + rw upd_list_eq. split; [done|]. cbn. rw wrap_small; [rw /uint; lia|].
      split_and!; [done..|]. eexists. rw lookup_insert_eq. split; [done|]. cbn.
      rw wrap_small; [rw /uint; lia|]. by apply Hfr.
    + rw upd_list_ne //. split; [by apply (Hc k')|by apply Hfr].
  - intros k'. rw /upd_list. case_decide; [|apply Hd]. apply NoDup_cons. split; [apply Hu|apply Hd].
  - intros k1 k2 x. rw /upd_list. repeat case_decide; subst; [done|..|apply Hj].
    + intros [->|Hx1]%elem_of_cons Hx2; [by destruct (Hu k2)|eauto].
    + intros Hx1 [->|Hx2]%elem_of_cons; [by destruct (Hu k1)|eauto].
  - intros k' x. rw /upd_list. case_decide; [|apply Hr]. intros [->|Hx]%elem_of_cons; [lia|eapply Hr, Hx].
Qed.

End Lists.

(** ** The primitive accesses *)

(** [s] with its nodes and list heads replaced. *)
Definition put (N : gmap Z palloc_node) (H : gmap (Z * Z) palloc_node) (s : palloc_state) : palloc_state :=
  upd_nodes (λ _, N) (upd_buddies (λ _, H) s).

Section Primitives.
Context `{HA : Arch}.

Lemma put_id s : put (nodes s) (buddies s) s = s.
Proof. by destruct s. Qed.

Lemma put_put N H N' H' s : put N H (put N' H' s) = put N H s.
Proof. done. Qed.

Lemma same_data_trans N1 N2 N3 : same_data N1 N2 → same_data N2 N3 → same_data N1 N3.
Proof. intros H1 H2 q. by rw H2. Qed.

Lemma same_data_insert N p n n' :
  N !! p = Some n → node_data n' = node_data n → same_data N (<[p := n']> N).
Proof.
  intros Hp Hd q. destruct (decide (p = q)) as [<-|]; [|by rw /data_at lookup_insert_ne].
  rw /data_at lookup_insert_eq Hp /=. by f_equal.
Qed.

Lemma same_data_lookup N N' q n : same_data N N' → N !! q = Some n →
  ∃ n', N' !! q = Some n' ∧ node_data n' = node_data n.
Proof.
  intros Hd Hq. specialize (Hd q). rw /data_at Hq /= in Hd.
  destruct (N' !! q) as [n'|]; [|done]. exists n'. split; [done|]. cbn in Hd. congruence.
Qed.

Lemma wp_get_node pfn (Q : Z → palloc_state → Prop) s :
  pfn_start s ≤ pfn < pfn_limit s → Q pfn s → wp (get_node_by_pfn pfn) Q s.
Proof.
  intros Hr HQ. rw /get_node_by_pfn /is_pfn_valid. do 2 wp_step.
  rw (proj2 (Z.ltb_ge _ _)); [lia|]. rw (proj2 (Z.leb_gt _ _)); [lia|].
  wp_step. wp_step; [done|]. by wp_step.
Qed.

Lemma wp_read_node p n (Q : palloc_node → palloc_state → Prop) s :
  nodes s !! p = Some n → Q n s → wp (read_node p) Q s.
Proof. intros Hp HQ. eapply wp_deref; eassumption. Qed.

Lemma wp_write_node p f n (Q : unit → palloc_state → Prop) s :
  nodes s !! p = Some n → Q tt (put (<[p := f n]> (nodes s)) (buddies s) s) →
  wp (write_node p f) Q s.
Proof. intros Hp HQ. rw /write_node. wp_step. eapply wp_read_node; [eassumption|]. by wp_step. Qed.

Lemma wp_read_buddy r o n (Q : palloc_node → palloc_state → Prop) s :
  buddies s !! (r, o) = Some n → Q n s → wp (read_buddy r o) Q s.
Proof. intros Hp HQ. eapply wp_deref; eassumption. Qed.

Lemma wp_write_buddy r o f n (Q : unit → palloc_state → Prop) s :
  buddies s !! (r, o) = Some n → Q tt (put (nodes s) (<[(r, o) := f n]> (buddies s)) s) →
  wp (write_buddy r o f) Q s.
Proof. intros Hp HQ. rw /write_buddy. wp_step. eapply wp_read_buddy; [eassumption|]. by wp_step. Qed.

Lemma wp_read_region r g (Q : palloc_region → palloc_state → Prop) s :
  regions s !! r = Some g → Q g s → wp (read_region r) Q s.
Proof. intros Hp HQ. eapply wp_deref; eassumption. Qed.

Lemma wp_write_region r f g (Q : unit → palloc_state → Prop) s :
  regions s !! r = Some g → Q tt (upd_regions (<[r := f g]>) s) →
  wp (write_region r f) Q s.
Proof. intros Hp HQ. rw /write_region. wp_step. eapply wp_read_region; [eassumption|]. by wp_step. Qed.

Lemma wp_insert_node p r o n hd (Q : unit → palloc_state → Prop) s :
  pfn_start s ≤ p < pfn_limit s → nodes s !! p = Some n → buddies s !! (r, o) = Some hd →
  Q tt (put (<[p := set_link (has_next hd) (next hd) n]> (nodes s))
            (<[(r, o) := set_link true p hd]> (buddies s)) s) →
  wp (insert_node p r o) Q s.
Proof.
  intros Hp Hn Hh HQ. rw /insert_node. wp_step. apply wp_get_node; [done|].
  wp_step. eapply wp_read_buddy; [eassumption|].
  wp_step. eapply wp_write_node; [eassumption|]. eapply wp_write_buddy; [eassumption|exact HQ].
Qed.

End Primitives.

(** ** Unlinking a node *)

Section Unlink.
Context `{HA : Arch}.

Lemma filter_ne_absent (p : Z) (xs : list Z) : p ∉ xs → filter (λ x, x ≠ p) xs = xs.
Proof.
  induction xs as [|x xs IH]; [done|]. intros [Hne Hx]%not_elem_of_cons.
  rw filter_cons_True; [congruence|]. by rw IH.
Qed.

(** Replacing the contents of one list by a sublist, with all relinking
    confined to the nodes of that list. *)
Lemma desc_relink hi N H L N' H' k hd' xs :
  desc hi N H L → (∀ k', k' ≠ k → H' !! k' = H !! k') →
  (∀ q, q ∉ L k → N' !! q = N !! q) → H' !! k = Some hd' → clean hd' →
  chain N' (has_next hd') (next hd') xs → (∀ x, x ∈ xs → x ∈ L k) → NoDup xs →
  desc hi N' H' (upd_list L k xs).
Proof.
  intros [Hc Hd Hj Hr] HH HN Hk Hcl Hch Hsub Hnd. split.
  - intros k' hd''. destruct (decide (k = k')) as [<-|Hne].
    + rw upd_list_eq Hk. by intros [= <-].
    + rw upd_list_ne // HH; [congruence|]. intros Hk'. destruct (Hc _ _ Hk') as [? ?].
      split; [done|]. eapply chain_frame; [|eassumption]. intros x Hx. apply HN.
      intros Hx'. by apply Hne, (Hj k k' x).
  - intros k'. rw /upd_list. case_decide; [done|apply Hd].
  - intros k1 k2 x. rw /upd_list. repeat case_decide; subst; eauto.
  - intros k' x. rw /upd_list. case_decide; subst; eauto.
Qed.

(** The loop follows the list from [prev] to [p] and takes [p] out. *)
Lemma wp_remove_node_loop hi fuel p prev pn ys s :
  hi ≤ 2 ^ (ARCH_WIDTH - PAGE_BITS) → 0 < hi →
  nodes s !! prev = Some pn → chain (nodes s) (has_next pn) (next pn) ys →
  p ∈ ys → NoDup (prev :: ys) → (length ys ≤ fuel)%nat →
  (∀ x, x ∈ ys → pfn_start s ≤ x < pfn_limit s ∧ 0 ≤ x < hi) →
  wp (remove_node_loop fuel p prev)
    (λ _ s', ∃ N', s' = put N' (buddies s) s ∧ same_data (nodes s) N' ∧
      (∀ q, q ∉ prev :: ys → N' !! q = nodes s !! q) ∧
      ∃ pn', N' !! prev = Some pn' ∧
        chain N' (has_next pn') (next pn') (filter (λ x, x ≠ p) ys)) s.
Proof.
  intros Hhi Hpos. revert prev pn ys.
  induction fuel as [|fuel IH]; intros prev pn ys Hprev Hch Hp Hnd Hlen Hr.
  { destruct ys; [by apply elem_of_nil in Hp|]. cbn in Hlen. lia. }
  destruct ys as [|x ys]; [by apply elem_of_nil in Hp|].
  destruct Hch as (Hpn & Hx & c & Hc & Hch). cbn [remove_node_loop].
  apply NoDup_cons in Hnd as [Hprevx Hnd]. apply NoDup_cons in Hnd as [Hxys Hnd].
  apply not_elem_of_cons in Hprevx as [Hne Hprevys].
  wp_step. eapply wp_read_node; [eassumption|]. rw Hx.
  wp_step. apply wp_get_node; [apply Hr; by left|].
  wp_step. eapply wp_read_node; [eassumption|].
  destruct (Z.eqb_spec x p) as [<-|Hxp].
  - (* found *)
    wp_step. eapply wp_write_node; [eassumption|].
    eapply wp_write_node; [cbn; rw lookup_insert_ne //; exact Hc|].
    rw put_put. eexists. split; [reflexivity|]. cbn [nodes put upd_nodes upd_buddies buddies].
    assert (0 ≤ next c < hi) by (eapply chain_next_range; [done| |eassumption]; intros; by apply Hr; right).
    split_and!.
    + apply (same_data_trans _ (<[prev := set_link (has_next c) (next c) pn]> (nodes s))).
      * by apply (same_data_insert _ _ pn).
      * apply (same_data_insert _ _ c); [by rw lookup_insert_ne|done].
    + intros q Hq. apply not_elem_of_cons in Hq as [? Hq]. apply not_elem_of_cons in Hq as [? Hq].
      by rw !lookup_insert_ne; [congruence..|].
    + eexists. rw lookup_insert_ne; [congruence|]. rw lookup_insert_eq.
      split; [reflexivity|]. cbn [set_link has_next next].
      rw filter_cons_False; [tauto|]. rw filter_ne_absent // wrap_small; [rw /uint; lia|].
      eapply chain_frame; [|eassumption]. intros y Hy.
      rw !lookup_insert_ne //; by intros ->.
  - apply elem_of_cons in Hp as [->|Hp]; [done|].
    assert (has_next c = true) as ->.
    { destruct ys; [by apply elem_of_nil in Hp|]. by destruct Hch as (-> & _). }
    eapply wp_mono; [apply (IH x c ys); try done|].
    { by apply NoDup_cons. } { cbn in Hlen. lia. } { intros; apply Hr; by right. }
    intros _ s' (N' & -> & Hsd & Hfr & c' & Hc' & Hch'). exists N'. split_and!; [done..| |].
    + intros q Hq. apply Hfr. intros Hq'. apply Hq. by right.
    + exists pn. rw Hfr; [by apply not_elem_of_cons|]. split; [done|].
      rw filter_cons_True //. cbn [chain]. eauto.
Qed.

(** A list of distinct page frame numbers of the managed range is no longer
    than the range. *)
Lemma nodup_range_length (lo hi : Z) (xs : list Z) :
  NoDup xs → (∀ x, x ∈ xs → lo ≤ x < hi) → (length xs ≤ Z.to_nat (hi - lo))%nat.
Proof.
  intros Hnd Hr. rw -(length_seqZ lo (hi - lo)).
  apply submseteq_length, NoDup_submseteq; [done|]. intros x Hx.
  apply elem_of_seqZ. specialize (Hr x Hx). lia.
Qed.

(** [remove_node] takes [p] out of the list it is on and relinks only nodes of
    that list. *)
Lemma wp_remove_node p r o s L (Q : unit → palloc_state → Prop) :
  pfn_bound (pfn_limit s) → desc (pfn_limit s) (nodes s) (buddies s) L →
  is_Some (buddies s !! (r, o)) → p ∈ L (r, o) →
  (∀ x, x ∈ L (r, o) → pfn_start s ≤ x) →
  (∀ N' H', desc (pfn_limit s) N' H' (upd_list L (r, o) (filter (λ x, x ≠ p) (L (r, o)))) →
     same_data (nodes s) N' → (∀ k, is_Some (H' !! k) ↔ is_Some (buddies s !! k)) →
     Q tt (put N' H' s)) →
  wp (remove_node p r o) Q s.
Proof.
  intros Hb Hd [hd Hh] Hp Hlo HQ.
  destruct (de_chain _ _ _ _ Hd _ _ Hh) as [Hcl Hch].
  pose proof (de_nodup _ _ _ _ Hd (r, o)) as Hnd.
  pose proof (de_range _ _ _ _ Hd (r, o)) as Hr.
  assert (∀ f k, is_Some (<[(r, o) := f]> (buddies s) !! k) ↔ is_Some (buddies s !! k)) as Hsome.
  { intros f k. destruct (decide ((r, o) = k)) as [<-|]; [|by rw lookup_insert_ne].
    rw lookup_insert_eq Hh. by split; eauto. }
  destruct (L (r, o)) as [|x xs] eqn:HL; [by apply elem_of_nil in Hp|].
  destruct Hch as (Hhn & Hx & c & Hc & Hch).
  apply NoDup_cons in Hnd as [Hxxs Hnd].
  assert (0 ≤ x < pfn_limit s) by (apply Hr; by left).
  rw /remove_node. wp_step. eapply wp_read_buddy; [eassumption|]. rw Hx.
  wp_step. apply wp_get_node; [split; [apply Hlo; by left|lia]|].
  wp_step. eapply wp_read_node; [eassumption|].
  destruct (Z.eqb_spec x p) as [<-|Hxp].
  - wp_step. eapply wp_write_buddy; [eassumption|].
    eapply wp_write_node; [eassumption|]. rw put_put.
    apply HQ; [|by apply (same_data_insert _ _ c)|intros; apply Hsome].
    rw filter_cons_False; [tauto|]. rw filter_ne_absent //.
    apply desc_write; [by eapply desc_pop; [| |exact Hh|exact HL|]|].
    intros k. rw /upd_list. case_decide; [done|]. intros Hxk.
    assert ((r, o) = k); [|congruence]. eapply (de_disj _ _ _ _ Hd); [|exact Hxk].
    rw HL. by left.
  - apply elem_of_cons in Hp as [->|Hp]; [done|].
    wp_step. apply wp_assert.
    { destruct xs; [by apply elem_of_nil in Hp|]. by destruct Hch as (-> & _). }
    wp_step. wp_step.
    assert (∀ y, y ∈ xs → pfn_start s ≤ y < pfn_limit s ∧ 0 ≤ y < pfn_limit s) as Hys.
    { intros y Hy. assert (y ∈ x :: xs) as Hy' by (by right).
      specialize (Hr _ Hy'). specialize (Hlo _ Hy'). lia. }
    eapply wp_mono.
    { eapply (wp_remove_node_loop (pfn_limit s) _ p x c xs); [apply Hb|lia|done..| | |done].
      - by apply NoDup_cons.
      - apply nodup_range_length; [done|]. intros; by apply Hys. }
    intros [] s' (N' & -> & Hsd & Hfr & c' & Hc' & Hch'). apply HQ; [|done|done].
    eapply (desc_relink _ _ _ _ _ _ _ hd); [exact Hd|done| |exact Hh|exact Hcl| | |].
    + rw HL. intros q Hq. by apply Hfr.
    + rw filter_cons_True //. cbn [chain]. split_and!; [done..|]. eauto.
    + rw HL. intros y Hy. by apply list_elem_of_filter in Hy as [_ Hy].
    + apply NoDup_filter. by apply NoDup_cons.
Qed.

End Unlink.

(** ** Dyadic blocks *)

Section Blocks.

Lemma covers_start p b : 0 ≤ b_order b → covers p b p.
Proof. rw /covers. intros. lia. Qed.

(** An aligned block is determined by its order and any page in it. *)
Lemma aligned_start p o q : 0 ≤ o → p mod 2 ^ o = 0 → p ≤ q < p + 2 ^ o →
  p = 2 ^ o * (q / 2 ^ o).
Proof.
  intros Ho Hp Hq. apply Z.mod_divide in Hp as [k ->]; [|lia].
  assert (q / 2 ^ o = k) as ->; [|lia].
  symmetry. apply (Z.div_unique_pos _ _ _ (q - k * 2 ^ o)); lia.
Qed.

(** Of two aligned blocks that share a page, the smaller lies in the larger. *)
Lemma aligned_nested p1 o1 p2 o2 q x : 0 ≤ o1 ≤ o2 →
  p1 mod 2 ^ o1 = 0 → p2 mod 2 ^ o2 = 0 →
  p1 ≤ q < p1 + 2 ^ o1 → p2 ≤ q < p2 + 2 ^ o2 →
  p1 ≤ x < p1 + 2 ^ o1 → p2 ≤ x < p2 + 2 ^ o2.
Proof.
  intros Ho H1 H2 Hq1 Hq2 Hx.
  assert (2 ^ o2 = 2 ^ (o2 - o1) * 2 ^ o1) as E.
  { rw -Z.pow_add_r; [lia|lia|]. f_equal. lia. }
  apply Z.mod_divide in H1 as [k1 ->]; [|lia]. apply Z.mod_divide in H2 as [k2 ->]; [|lia].
  rw E in Hq2 *. assert (0 < 2 ^ o1) by lia. assert (0 < 2 ^ (o2 - o1)) by lia. clear E.
  set (a := 2 ^ o1) in *. set (c := 2 ^ (o2 - o1)) in *. clearbody a c.
  assert (k2 * c ≤ k1) by nia. assert (k1 + 1 ≤ (k2 + 1) * c) by nia. nia.
Qed.

Lemma pow2_split o : 1 ≤ o → 2 ^ o = 2 ^ (o - 1) + 2 ^ (o - 1).
Proof. intros. rw (_ : o = Z.succ (o - 1)); [lia|]. rw Z.pow_succ_r; [lia|].
  replace (Z.succ (o - 1) - 1) with (o - 1) by lia. lia. Qed.

Lemma mod_half p o : 1 ≤ o → p mod 2 ^ o = 0 → p mod 2 ^ (o - 1) = 0.
Proof.
  intros. apply mod_pow2_weaken; [lia|]. by replace (o - 1 + 1) with o by lia.
Qed.

Lemma mod_add_pow2 p o : 0 ≤ o → p mod 2 ^ o = 0 → (p + 2 ^ o) mod 2 ^ o = 0.
Proof.
  intros Ho Hp. replace (p + 2 ^ o) with (p + 1 * 2 ^ o) by lia. rw Z.mod_add; lia.
Qed.

(** A multiple of [2^o] that is not one of [2^(o+1)] is the upper half of a block. *)
Lemma half_aligned p o : 0 ≤ o → p mod 2 ^ o = 0 → p mod 2 ^ (o + 1) ≠ 0 →
  (p - 2 ^ o) mod 2 ^ (o + 1) = 0.
Proof.
  intros Ho Hp Hn. apply Z.mod_divide in Hp as [k ->]; [|lia].
  rw Z.pow_add_r // Z.pow_1_r in Hn *.
  assert (k mod 2 = 1) as Hk.
  { rw Z.mul_comm Z.mul_mod_distr_l in Hn; [lia|lia|]. pose proof (Z.mod_pos_bound k 2). lia. }
  replace (k * 2 ^ o - 2 ^ o) with (2 ^ o * (k - 1)) by lia.
  rw Z.mul_mod_distr_l; [lia|lia|]. assert ((k - 1) mod 2 = 0) as -> by zdiv. lia.
Qed.

Context (lo hi : Z).
Implicit Types (N : gmap Z palloc_node) (B : gmap Z blk).

Lemma dinv_same_data N N' B : same_data N N' → dinv lo hi N B → dinv lo hi N' B.
Proof.
  intros Hs [Hd Hb Hj Hc]. split; [|..|done|].
  - intros q Hq. destruct (Hd q Hq) as [n Hn]. specialize (Hs q).
    rw /data_at Hn in Hs. destruct (N' !! q); [eauto|done].
  - intros p b Hp. destruct (Hb p b Hp) as (?&?&?&?&?&?). rw /blk_ok. split_and!; try lia. by rw Hs.
  - intros q o r a Hq. rw Hs. by apply Hc.
Qed.

(** Two blocks of a partition that share a page are the same block. *)
Lemma dinv_same N B p1 b1 p2 b2 q : dinv lo hi N B →
  B !! p1 = Some b1 → B !! p2 = Some b2 → covers p1 b1 q → covers p2 b2 q →
  p1 = p2 ∧ b1 = b2.
Proof.
  intros Hi H1 H2 Hc1 Hc2. assert (p1 = p2) as -> by exact (di_disj _ _ _ _ Hi _ _ _ _ _ H1 H2 Hc1 Hc2).
  split; congruence.
Qed.

(** Only the first page of a block is a key of the partition. *)
Lemma dinv_inner N B p b q : dinv lo hi N B → B !! p = Some b → covers p b q → q ≠ p →
  B !! q = None.
Proof.
  intros Hi Hp Hc Hne. destruct (B !! q) as [b'|] eqn:Hq; [|done].
  destruct (di_blk _ _ _ _ Hi _ _ Hq) as (_ & ? & _).
  destruct (dinv_same _ _ p b q b' q Hi) as [-> _]; [done..|by apply covers_start; lia|done].
Qed.

(** Changing the allocation bit of a block. *)
Lemma dinv_set_alloc N N' B p r o a a' : dinv lo hi N B → B !! p = Some (mk_blk r o a) →
  (∀ q, q ≠ p → data_at N' q = data_at N q) → data_at N' p = Some (o, r, a', true) →
  dinv lo hi N' (<[p := mk_blk r o a']> B).
Proof.
  intros Hi Hp Hf Hd. pose proof Hi as [Hdom Hb Hj Hc].
  pose proof (Hb _ _ Hp) as (?&?&?&?&?&Hdp); cbn in *.
  assert (∀ q b, <[p := mk_blk r o a']> B !! q = Some b →
    ∃ b0, B !! q = Some b0 ∧ b_order b0 = b_order b ∧ b_region b0 = b_region b) as Hback.
  { intros q b. rw lookup_insert_Some. intros [[<- <-]|[? ?]]; eauto. }
  split.
  - intros q Hq. destruct (decide (q = p)) as [->|Hne].
    + rw /data_at in Hd. destruct (N' !! p); [eauto|done].
    + destruct (Hdom q Hq) as [n Hn]. specialize (Hf q Hne). rw /data_at Hn in Hf.
      destruct (N' !! q); [eauto|done].
  - intros q b. rw lookup_insert_Some. intros [[<- <-]|[Hne Hq]]; [by rw /blk_ok /=; split_and!; try lia|].
    destruct (Hb _ _ Hq) as (?&?&?&?&?&?). rw /blk_ok. split_and!; try lia. rw Hf //. congruence.
  - intros p1 b1 p2 b2 q Hx1 Hx2. apply Hback in Hx1 as (c1 & Hx1 & E1 & _).
    apply Hback in Hx2 as (c2 & Hx2 & E2 & _). rw /covers -E1 -E2. by apply (Hj p1 c1 p2 c2).
  - intros q o' r' a'' Hq Hq'.
    assert (∃ a0, data_at N q = Some (o', r', a0, true)) as [a0 Hq0].
    { destruct (decide (q = p)) as [->|]; [|rw -Hf //; eauto]. exists a. congruence. }
    destruct (Hc _ _ _ _ Hq Hq0) as (p1 & b1 & Hx1 & Hx2 & Hx3).
    destruct (decide (p1 = p)) as [->|].
    + exists p, (mk_blk r o a'). rw lookup_insert_eq. simplify_eq. done.
    + exists p1, b1. rw lookup_insert_ne //. congruence.
Qed.

(** Splitting a free block in two halves. *)
Lemma dinv_split N N' B p r o : dinv lo hi N B → B !! p = Some (mk_blk r o false) → 1 ≤ o →
  (∀ q, q ≠ p → q ≠ p + 2 ^ (o - 1) → data_at N' q = data_at N q) →
  data_at N' p = Some (o - 1, r, false, true) →
  data_at N' (p + 2 ^ (o - 1)) = Some (o - 1, r, false, true) →
  dinv lo hi N' (<[p + 2 ^ (o - 1) := mk_blk r (o - 1) false]> (<[p := mk_blk r (o - 1) false]> B)).
Proof.
  intros Hi Hp Ho Hf Hd1 Hd2. pose proof Hi as [Hdom Hb Hj Hc].
  pose proof (Hb _ _ Hp) as (?&?&?&?&?&Hdp); cbn in *.
  set (h := 2 ^ (o - 1)) in *. assert (2 ^ o = h + h) as Eh by (by apply pow2_split).
  assert (0 < h) by (rw /h; lia).
  set (b' := mk_blk r (o - 1) false).
  (* every new block lies in an old block *)
  assert (∀ q b, <[p + h := b']> (<[p := b']> B) !! q = Some b →
    (q = p ∨ q = p + h) ∧ b = b' ∨ q ≠ p ∧ q ≠ p + h ∧ B !! q = Some b) as Hback.
  { intros q b. rw lookup_insert_Some lookup_insert_Some. naive_solver. }
  assert (∀ q b x, B !! q = Some b → q ≠ p → covers q b x → ¬ (p ≤ x < p + 2 ^ o)) as Hsep.
  { intros q b x Hq Hne Hcx Hx. apply Hne. exact (Hj q b p _ x Hq Hp Hcx Hx). }
  split.
  - intros q Hq. enough (is_Some (data_at N' q)) as [d Hd].
    { rw /data_at in Hd. destruct (N' !! q); [eauto|done]. }
    destruct (decide (q = p)) as [->|]; [eauto|]. destruct (decide (q = p + h)) as [->|]; [eauto|].
    rw Hf //. destruct (Hdom q Hq) as [m Hm]. rw /data_at Hm. eauto.
  - intros q b [[[->| ->] ->]|(?&?&Hq)]%Hback.
    + rw /blk_ok /=; split_and!; try lia; [by apply mod_half|done].
    + rw /blk_ok /=; split_and!; try lia; [by apply mod_add_pow2, mod_half; lia|done].
    + destruct (Hb _ _ Hq) as (?&?&?&?&?&?). rw /blk_ok. split_and!; try lia. by rw Hf.
  - intros p1 b1 p2 b2 q [[E1 ->]|(?&?&Hx1)]%Hback [[E2 ->]|(?&?&Hx2)]%Hback Hc1 Hc2.
    + rw /covers in Hc1 Hc2. cbn in *. rw -/h in Hc1 Hc2. lia.
    + exfalso. apply (Hsep p2 b2 q); [done..|]. rw /covers in Hc1. cbn in Hc1. rw -/h in Hc1. lia.
    + exfalso. apply (Hsep p1 b1 q); [done..|]. rw /covers in Hc2. cbn in Hc2. rw -/h in Hc2. lia.
    + by apply (Hj p1 b1 p2 b2 q).
  - intros q o' r' a' Hq Hq'.
    assert (∀ y, p ≤ y < p + 2 ^ o → ∃ p0 b0, <[p + h := b']> (<[p := b']> B) !! p0 = Some b0 ∧
      covers p0 b0 y ∧ b_region b0 = r) as Hin.
    { intros y Hy. destruct (Z.lt_ge_cases y (p + h)).
      - exists p, b'. rw lookup_insert_ne; [lia|]. rw lookup_insert_eq /covers /= -/h. split_and!; try done; lia.
      - exists (p + h), b'. rw lookup_insert_eq /covers /= -/h. split_and!; try done; lia. }
    destruct (decide (q = p)) as [->|]; [|destruct (decide (q = p + h)) as [->|]].
    + simplify_eq. apply Hin. lia.
    + simplify_eq. apply Hin. lia.
    + rw Hf // in Hq'. destruct (Hc _ _ _ _ Hq Hq') as (p1 & b1 & Hx1 & Hx2 & Hx3).
      destruct (decide (p1 = p)) as [->|Hne].
      * simplify_eq. apply Hin. exact Hx2.
      * assert (p + h ≠ p1).
        { intros <-. assert (B !! (p + h) = None); [|congruence].
          apply (dinv_inner _ _ p _ _ Hi Hp); [rw /covers /=; lia|lia]. }
        exists p1, b1. by rw !lookup_insert_ne; [congruence..|].
Qed.

(** Merging two free buddies. *)
Lemma dinv_merge N N' B p r o : dinv lo hi N B →
  B !! p = Some (mk_blk r o false) → B !! (p + 2 ^ o) = Some (mk_blk r o false) →
  o < PALLOC_MAX_ORDER → p mod 2 ^ (o + 1) = 0 →
  (∀ q, q ≠ p → q ≠ p + 2 ^ o → data_at N' q = data_at N q) →
  data_at N' p = Some (o + 1, r, false, true) →
  data_at N' (p + 2 ^ o) = Some (o + 1, r, false, true) →
  dinv lo hi N' (<[p := mk_blk r (o + 1) false]> (delete (p + 2 ^ o) B)).
Proof.
  intros Hi Hp Hp2 Ho Hmod Hf Hd1 Hd2. pose proof Hi as [Hdom Hb Hj Hc].
  pose proof (Hb _ _ Hp) as (?&?&?&?&?&_); pose proof (Hb _ _ Hp2) as (_&_&_&?&_&_); cbn in *.
  set (h := 2 ^ o) in *.
  assert (2 ^ (o + 1) = h + h) as Eh by (rw /h (pow2_split (o + 1)); [lia|]; do 2 f_equal; lia).
  assert (0 < h) by (rw /h; lia).
  set (b' := mk_blk r (o + 1) false).
  assert (∀ q b, <[p := b']> (delete (p + h) B) !! q = Some b →
    q = p ∧ b = b' ∨ q ≠ p ∧ q ≠ p + h ∧ B !! q = Some b) as Hback.
  { intros q b. rw lookup_insert_Some lookup_delete_Some. naive_solver. }
  assert (∀ q b x, B !! q = Some b → q ≠ p → q ≠ p + h → covers q b x →
    ¬ (p ≤ x < p + 2 ^ (o + 1))) as Hsep.
  { intros q b x Hq Hne1 Hne2 Hcx Hx. destruct (Z.lt_ge_cases x (p + h)).
    - apply Hne1. eapply (Hj q b p _ x Hq Hp Hcx). rw /covers /= -/h. lia.
    - apply Hne2. eapply (Hj q b (p + h) _ x Hq Hp2 Hcx). rw /covers /= -/h. lia. }
  split.
  - intros q Hq. enough (is_Some (data_at N' q)) as [d Hd].
    { rw /data_at in Hd. destruct (N' !! q); [eauto|done]. }
    destruct (decide (q = p)) as [->|]; [eauto|]. destruct (decide (q = p + h)) as [->|]; [eauto|].
    rw Hf //. destruct (Hdom q Hq) as [m Hm]. rw /data_at Hm. eauto.
  - intros q b [[-> ->]|(?&?&Hq)]%Hback.
    + rw /blk_ok /=. split_and!; try lia; done.
    + destruct (Hb _ _ Hq) as (?&?&?&?&?&?). rw /blk_ok. split_and!; try lia. by rw Hf.
  - intros p1 b1 p2 b2 q [[-> ->]|(?&?&Hx1)]%Hback [[-> ->]|(?&?&Hx2)]%Hback Hc1 Hc2; [done|..].
    + exfalso. by apply (Hsep p2 b2 q).
    + exfalso. by apply (Hsep p1 b1 q).
    + by apply (Hj p1 b1 p2 b2 q).
  - intros q o' r' a' Hq Hq'.
    destruct (Z.le_gt_cases p q) as [Hle|Hgt];
      [destruct (Z.lt_ge_cases q (p + 2 ^ (o + 1))) as [Hlt|Hge]|].
    + assert (r' = r) as ->.
      { destruct (decide (q = p)) as [->|]; [congruence|].
        destruct (decide (q = p + h)) as [->|]; [congruence|].
        rw Hf // in Hq'. destruct (Hc _ _ _ _ Hq Hq') as (p1 & b1 & Hx1 & Hx2 & <-).
        destruct (decide (p1 = p)) as [->|]; [by simplify_eq|].
        destruct (decide (p1 = p + h)) as [->|]; [by simplify_eq|].
        exfalso. by apply (Hsep p1 b1 q). }
      exists p, b'. rw lookup_insert_eq. done.
    + rw Hf // in Hq'; [lia|lia|]. destruct (Hc _ _ _ _ Hq Hq') as (p1 & b1 & Hx1 & Hx2 & Hx3).
      exists p1, b1. rw lookup_insert_ne; [|rw lookup_delete_ne //]; intros <-; simplify_eq;
        rw /covers /= -/h in Hx2; lia.
    + rw Hf // in Hq'; [lia|lia|]. destruct (Hc _ _ _ _ Hq Hq') as (p1 & b1 & Hx1 & Hx2 & Hx3).
      exists p1, b1. rw lookup_insert_ne; [|rw lookup_delete_ne //]; intros <-; simplify_eq;
        rw /covers /= -/h in Hx2; lia.
Qed.

(** The test of [buddy_combine]: if the node of the buddy page is in use, of the
    same region, free and of the same order, then the buddy is a free block. *)
Lemma dinv_buddy N B p x r o : dinv lo hi N B →
  B !! p = Some (mk_blk r o false) → o < PALLOC_MAX_ORDER →
  (p mod 2 ^ (o + 1) = 0 ∧ x = p + 2 ^ o ∨ p mod 2 ^ (o + 1) ≠ 0 ∧ x = p - 2 ^ o) →
  lo ≤ x < hi → data_at N x = Some (o, r, false, true) →
  B !! x = Some (mk_blk r o false).
Proof.
  intros Hi Hp Ho Hx Hr Hd. pose proof Hi as [Hdom Hb Hj Hc].
  pose proof (Hb _ _ Hp) as (?&?&?&?&Hal&_); cbn in *.
  destruct (Hc _ _ _ _ Hr Hd) as (q & b & Hq & Hcq & Hrq).
  pose proof (Hb _ _ Hq) as (?&?&?&?&Halq&Hdq).
  assert (2 ^ (o + 1) = 2 ^ o + 2 ^ o) as Eh by (rw (pow2_split (o + 1)); [lia|]; do 2 f_equal; lia).
  assert (x mod 2 ^ o = 0 ∧ ∃ c, c mod 2 ^ (o + 1) = 0 ∧ c ≤ p < c + 2 ^ (o + 1) ∧
    c ≤ x < c + 2 ^ (o + 1)) as (Hxal & c & Hcal & Hcp & Hcx).
  { destruct Hx as [[Hm ->]|[Hm ->]].
    - split; [by apply mod_add_pow2; lia|]. exists p. lia.
    - pose proof (half_aligned p o ltac:(lia) Hal Hm) as Hm'.
      split; [apply mod_pow2_weaken; [lia|done]|]. exists (p - 2 ^ o). lia. }
  destruct (Z.le_gt_cases (o + 1) (b_order b)) as [Hbig|Hsmall].
  - (* a larger block around the buddy would contain [p] *)
    destruct (dinv_same _ _ q b p _ p Hi Hq Hp) as [_ ->]; [|apply covers_start; cbn; lia|cbn in Hbig; lia].
    by apply (aligned_nested c (o + 1) q (b_order b) x p); try lia.
  - (* a block inside the buddy that contains its first page starts there *)
    assert (q = x) as ->.
    { pose proof (aligned_start q (b_order b) x ltac:(lia) Halq Hcq) as Eq.
      assert (x mod 2 ^ b_order b = 0) as Hx0.
      { apply Z.mod_divide; [lia|]. apply Z.mod_divide in Hxal; [|lia].
        apply (Z.divide_trans _ (2 ^ o)); [apply pow2_divide_le; lia|exact Hxal]. }
      rw Eq. symmetry. apply Z.div_exact; lia. }
    rw Hd in Hdq. destruct b as [r' o' a']; cbn in *. simplify_eq. done.
Qed.

End Blocks.

(** ** Pages *)

(** [q] is a free page of region [r]. *)
Definition free_page (B : gmap Z blk) (r q : Z) : Prop :=
  ∃ p b, B !! p = Some b ∧ b_alloc b = false ∧ b_region b = r ∧ covers p b q.

(** How many free pages of region [r] a block contributes, and their number. *)
Definition free_weight (r : Z) (b : blk) : Z :=
  if decide (b_region b = r ∧ b_alloc b = false) then 2 ^ b_order b else 0.
Definition free_sum (r : Z) (B : gmap Z blk) : Z :=
  map_fold (λ _ b acc, free_weight r b + acc) 0 B.

(** Two partitions that differ only in how the free pages are cut into blocks. *)
Record page_equiv (B B' : gmap Z blk) : Prop := {
  pe_alloc : ∀ p b, b_alloc b = true → B !! p = Some b ↔ B' !! p = Some b;
  pe_free : ∀ r q, free_page B r q ↔ free_page B' r q;
  pe_sum : ∀ r, free_sum r B = free_sum r B'
}.

#[export] Instance page_equiv_equivalence : Equivalence page_equiv.
Proof.
  split.
  - intros B. by split.
  - intros B B' [Ha Hf Hs]. split; intros; [by rw Ha|by rw Hf|by rw Hs].
  - intros B1 B2 B3 [Ha Hf Hs] [Ha' Hf' Hs'].
    split; intros; [by rw Ha // Ha'|by rw Hf|by rw Hs].
Qed.

Section Pages.

Lemma free_sum_insert r B p b : B !! p = None →
  free_sum r (<[p := b]> B) = free_weight r b + free_sum r B.
Proof.
  intros Hp. rw /free_sum map_fold_insert_L //. intros; lia.
Qed.

Lemma free_sum_delete r B p b : B !! p = Some b →
  free_sum r B = free_weight r b + free_sum r (delete p B).
Proof.
  intros Hp. rw -{1}(insert_delete_id B p b) // free_sum_insert // lookup_delete_eq //.
Qed.

Lemma free_sum_update r B p b b' : B !! p = Some b →
  free_sum r (<[p := b']> B) = free_sum r B - free_weight r b + free_weight r b'.
Proof.
  intros Hp. rw (free_sum_delete r B p b) // -insert_delete_eq free_sum_insert ?lookup_delete_eq //. lia.
Qed.

Lemma free_weight_nonneg r b : 0 ≤ free_weight r b.
Proof. rw /free_weight. case_decide; lia. Qed.

Lemma free_sum_nonneg r B : 0 ≤ free_sum r B.
Proof.
  rw /free_sum. apply (map_fold_weak_ind (λ acc _, 0 ≤ acc)); [done|].
  intros p b m acc _ Hacc. pose proof (free_weight_nonneg r b). lia.
Qed.

Lemma free_sum_block r B p b : B !! p = Some b → free_weight r b ≤ free_sum r B.
Proof.
  intros Hp. rw (free_sum_delete r B p b) //. pose proof (free_sum_nonneg r (delete p B)). lia.
Qed.

Lemma page_equiv_split B p r o : 1 ≤ o → B !! p = Some (mk_blk r o false) →
  B !! (p + 2 ^ (o - 1)) = None →
  page_equiv B (<[p + 2 ^ (o - 1) := mk_blk r (o - 1) false]> (<[p := mk_blk r (o - 1) false]> B)).
Proof.
  intros Ho Hp Hp2. pose proof (pow2_split o Ho) as E.
  set (h := 2 ^ (o - 1)) in *. assert (0 < h) by (rw /h; lia).
  split.
  - intros q b Hb. rw lookup_insert_Some lookup_insert_Some. split.
    + intros Hq. right. split; [congruence|]. right. split; [|done]. intros <-. by simplify_eq.
    + intros [[_ <-]|[_ [[_ <-]|[_ ?]]]]; done.
  - intros r' q. split; intros (x & b & Hx & Ha & <- & Hc).
    + destruct (decide (x = p)) as [->|Hne].
      * simplify_eq. rw /covers /= in Hc. destruct (Z.lt_ge_cases q (p + h)).
        -- exists p, (mk_blk r (o - 1) false). rw lookup_insert_ne; [lia|].
           rw lookup_insert_eq /covers /= -/h. split_and!; try done; lia.
        -- exists (p + h), (mk_blk r (o - 1) false). rw lookup_insert_eq /covers /= -/h.
           split_and!; try done; lia.
      * exists x, b. rw !lookup_insert_ne; [congruence|congruence|]. by split_and!.
    + apply lookup_insert_Some in Hx as [[<- <-]|[_ [[<- <-]|[_ Hx]]%lookup_insert_Some]].
      * exists p, (mk_blk r o false). rw /covers /= -/h in Hc |- *. split_and!; try done; lia.
      * exists p, (mk_blk r o false). rw /covers /= -/h in Hc |- *. split_and!; try done; lia.
      * exists x, b. by split_and!.
  - intros r'. rw free_sum_insert; [rw lookup_insert_ne //; lia|].
    rw (free_sum_update r' B p (mk_blk r o false)) //. rw /free_weight /= -/h.
    case_decide; lia.
Qed.

Lemma page_equiv_merge B p r o : 0 ≤ o → B !! p = Some (mk_blk r o false) →
  B !! (p + 2 ^ o) = Some (mk_blk r o false) →
  page_equiv B (<[p := mk_blk r (o + 1) false]> (delete (p + 2 ^ o) B)).
Proof.
  intros Ho Hp Hp2. symmetry.
  assert (p ≠ p + 2 ^ o) by lia.
  pose proof (page_equiv_split (<[p := mk_blk r (o + 1) false]> (delete (p + 2 ^ o) B)) p r (o + 1)) as Hs.
  replace (o + 1 - 1) with o in Hs by lia.
  rw insert_insert_eq in Hs. rw (insert_id (delete (p + 2 ^ o) B) p (mk_blk r o false)) in Hs; [rw lookup_delete_ne; [congruence|exact Hp]|].
  rw insert_delete_id in Hs; [exact Hp2|].
  apply Hs; [lia|apply lookup_insert_eq|]. rw lookup_insert_ne // lookup_delete_eq //.
Qed.

End Pages.

(** ** Coalescing *)

(** The other half of the next larger block around the block of order [o] at [p]. *)
Definition buddy_of (p o : Z) : Z :=
  if decide (p mod 2 ^ (o + 1) = 0) then p + 2 ^ o else p - 2 ^ o.

(** No two free buddies are left unmerged, apart from pairs with a block at [x]. *)
Definition coalesced_except (B : gmap Z blk) (x : option Z) : Prop :=
  ∀ p r o, 0 ≤ o < PALLOC_MAX_ORDER → Some p ≠ x → Some (buddy_of p o) ≠ x →
    B !! p = Some (mk_blk r o false) → B !! buddy_of p o ≠ Some (mk_blk r o false).

Definition coalesced (B : gmap Z blk) : Prop := coalesced_except B None.

Section Coalescing.

Lemma coalesced_weaken B x : coalesced B → coalesced_except B x.
Proof. intros Hc p r o Ho _ _. by apply Hc. Qed.

Lemma buddy_of_split p o : 1 ≤ o → p mod 2 ^ o = 0 → buddy_of p (o - 1) = p + 2 ^ (o - 1).
Proof.
  intros Ho Hp. rw /buddy_of. replace (o - 1 + 1) with o by lia. by rw decide_True.
Qed.

Lemma buddy_of_invol p o : 0 ≤ o → p mod 2 ^ o = 0 → buddy_of (buddy_of p o) o = p.
Proof.
  intros Ho Hp. rw {2}/buddy_of.
  assert (2 ^ (o + 1) = 2 ^ o * 2) as E by (rw Z.pow_add_r; lia).
  case_decide as Hm.
  - rw /buddy_of decide_False; [|lia]. apply Z.mod_divide in Hm as [k ->]; [|lia].
    rw Z.add_comm Z.mod_add; [lia|]. rw Z.mod_small; lia.
  - pose proof (half_aligned p o Ho Hp Hm) as Hm'. rw /buddy_of decide_True //. lia.
Qed.

(** Splitting a block leaves only the pair of its two halves. *)
Lemma coalesced_split B p r o : 1 ≤ o → p mod 2 ^ o = 0 → coalesced_except B (Some p) →
  B !! p = Some (mk_blk r o false) →
  coalesced_except
    (<[p + 2 ^ (o - 1) := mk_blk r (o - 1) false]> (<[p := mk_blk r (o - 1) false]> B))
    (Some (p + 2 ^ (o - 1))).
Proof.
  intros Ho Hp Hc HB q r' o' Ho' Hq1 Hq2. set (h := 2 ^ (o - 1)) in *.
  rw !(lookup_insert_ne _ (p + h)); [congruence..|].
  destruct (decide (q = p)) as [->|Hne].
  - rw lookup_insert_eq. intros [= <- <-]. by rw buddy_of_split in Hq2.
  - rw lookup_insert_ne; [congruence|]. intros Hq. destruct (decide (buddy_of q o' = p)) as [E|Hne2].
    + rw E lookup_insert_eq. intros [= <- <-].
      assert (q mod 2 ^ (o - 1) = 0 → False) as Hcon.
      { intros Hqm. apply Hq1. f_equal. rw -(buddy_of_invol q (o - 1) ltac:(lia) Hqm) E.
        by apply buddy_of_split. }
      apply Hcon. rw /buddy_of in E. case_decide as Hm; [apply mod_pow2_weaken; [lia|done]|].
      assert (q = p + h) as -> by (rw /h; lia). apply mod_add_pow2, mod_half; [lia|lia|done].
    + rw lookup_insert_ne; [congruence|]. by apply Hc; [|congruence|congruence|].
Qed.

(** Merging two buddies, when they were the only unmerged pair. *)
Lemma coalesced_merge B p x low r o : coalesced_except B (Some p) →
  B !! x = Some (mk_blk r o false) →
  p = low ∧ x = low + 2 ^ o ∨ x = low ∧ p = low + 2 ^ o →
  coalesced_except (<[low := mk_blk r (o + 1) false]> (delete (low + 2 ^ o) B)) (Some low).
Proof.
  intros Hc Hx Hlow q r' o' Ho' Hq1 Hq2. rw !lookup_insert_ne; [congruence..|].
  intros [Hq1' Hq]%lookup_delete_Some [Hq2' Hq']%lookup_delete_Some.
  assert (p = low ∨ p = low + 2 ^ o) as Hp by (destruct Hlow as [[-> _]|[_ ->]]; auto).
  apply (Hc q r' o' Ho'); [destruct Hp; congruence..|done|done].
Qed.

Lemma coalesced_done B p r o : 0 ≤ o → p mod 2 ^ o = 0 → coalesced_except B (Some p) →
  (∀ q b, B !! q = Some b → 0 ≤ b_order b ∧ q mod 2 ^ b_order b = 0) →
  B !! p = Some (mk_blk r o false) →
  (o < PALLOC_MAX_ORDER → B !! buddy_of p o ≠ Some (mk_blk r o false)) → coalesced B.
Proof.
  intros Ho Hp Hc Hal HB Hb q r' o' Ho' _ _ Hq Hq'.
  destruct (decide (q = p)) as [->|Hne]; [simplify_eq; apply Hb; [lia|done]|].
  destruct (decide (buddy_of q o' = p)) as [E|Hne2].
  - rw E HB in Hq'. simplify_eq. destruct (Hal _ _ Hq) as [_ Hqm]; cbn in Hqm.
    apply Hb; [lia|]. by rw buddy_of_invol.
  - by apply (Hc q r' o'); [|congruence|congruence|..].
Qed.

End Coalescing.

(** ** Splitting and combining, on states *)

Section Buddies.
Context `{HA : Arch}.

Definition pinv (s : palloc_state) (L : lists) (B : gmap Z blk) : Prop :=
  binv (pfn_start s) (pfn_limit s) (nodes s) (buddies s) L B.

Lemma pfn_bound_paddr hi x : pfn_bound hi → 0 ≤ x < hi + 2 ^ 16 → uint PADDR_WIDTH x.
Proof.
  intros [_ Hb] Hx. pose proof page_bits_range. split; [lia|].
  assert (2 ^ (PADDR_WIDTH - PAGE_BITS) ≤ 2 ^ (PADDR_WIDTH - 12)) as Hpow
    by (apply Z.pow_le_mono_r; lia).
  destruct paddr_width_cases as [E|E]; rw E in Hb Hpow *; cbn in *; lia.
Qed.

Lemma wrap_order o : 0 ≤ o ≤ PALLOC_MAX_ORDER → wrap PALLOC_ORDER_BITS o = o.
Proof. intros. apply wrap_small. change PALLOC_MAX_ORDER with 15 in *. change (0 ≤ o < 16). lia. Qed.

Lemma wrap_region r : 0 ≤ r < MAX_PALLOC_REGION_COUNT → wrap PALLOC_REGION_BITS r = r.
Proof. intros. apply wrap_small. change MAX_PALLOC_REGION_COUNT with 32 in *. change (0 ≤ r < 32). lia. Qed.

Lemma shl_chk_order w o : 32 ≤ w → 0 ≤ o ≤ 16 → shl_chk w 1 o = Ret (2 ^ o).
Proof.
  intros. rw shl_chk_small; [lia|lia| |by rw Z.mul_1_l].
  rw Z.mul_1_l. apply Z.pow_lt_mono_r; lia.
Qed.

(** A free block is on its list and the other way round; heads tell emptiness. *)
Lemma binv_listed lo hi N H L B r o p : binv lo hi N H L B → p ∈ L (r, o) →
  blk_ok lo hi N p (mk_blk r o false).
Proof. intros Hi Hp. by apply (di_blk _ _ _ _ (bi_dinv _ _ _ _ _ _ Hi)), (bi_free _ _ _ _ _ _ Hi). Qed.

Lemma binv_unlisted lo hi N H L B p : binv lo hi N H L B →
  (∀ r o, B !! p ≠ Some (mk_blk r o false)) → unlisted L p.
Proof. intros Hi Hp [r o] Hx. by apply (bi_free _ _ _ _ _ _ Hi), Hp in Hx. Qed.

Lemma desc_head_empty hi N H L k hd : desc hi N H L → H !! k = Some hd →
  if has_next hd then ∃ x xs n, L k = x :: xs ∧ next hd = x ∧ N !! x = Some n
  else L k = [] ∧ next hd = 0.
Proof.
  intros Hd Hk. destruct (de_chain _ _ _ _ Hd _ _ Hk) as [_ Hch].
  destruct (L k) as [|x xs]; cbn in Hch.
  - by destruct Hch as [-> ->].
  - destruct Hch as (-> & -> & n & Hn & _). eauto 10.
Qed.

Lemma data_at_insert N p n q : data_at (<[p := n]> N) q = if decide (p = q) then Some (node_data n) else data_at N q.
Proof. rw /data_at lookup_insert. by case_decide. Qed.

Lemma data_at_lookup N q n : N !! q = Some n → data_at N q = Some (node_data n).
Proof. intros Hq. by rw /data_at Hq. Qed.

(** The effect of [split_head] on the lists. *)
Definition split_lists (L : lists) (r o p h : Z) (xs : list Z) : lists :=
  let L1 := upd_list L (r, o) xs in
  let L2 := upd_list L1 (r, o - 1) (p :: L1 (r, o - 1)) in
  upd_list L2 (r, o - 1) (p + h :: L2 (r, o - 1)).

Lemma split_lists_free lo hi N H L B r o p xs : binv lo hi N H L B → 1 ≤ o → L (r, o) = p :: xs →
  ∀ r' o' q, q ∈ split_lists L r o p (2 ^ (o - 1)) xs (r', o') ↔
    <[p + 2 ^ (o - 1) := mk_blk r (o - 1) false]> (<[p := mk_blk r (o - 1) false]> B) !! q
      = Some (mk_blk r' o' false).
Proof.
  intros Hi Ho HL r' o' q. pose proof (bi_free _ _ _ _ _ _ Hi) as Hf.
  pose proof (binv_listed _ _ _ _ _ _ r o p Hi ltac:(rw HL; by left)) as (?&?&_).
  assert (B !! p = Some (mk_blk r o false)) as Hp by (apply Hf; rw HL; by left).
  assert (0 < 2 ^ (o - 1)) by lia. pose proof (pow2_split o Ho).
  assert (B !! (p + 2 ^ (o - 1)) = None) as Hp2.
  { eapply (dinv_inner _ _ N B p); [apply Hi|exact Hp|rw /covers /=; lia|lia]. }
  assert (p ∉ xs).
  { pose proof (de_nodup _ _ _ _ (bi_desc _ _ _ _ _ _ Hi) (r, o)) as Hnd. rw HL in Hnd.
    by apply NoDup_cons in Hnd as [? _]. }
  rw !lookup_insert_Some -Hf /split_lists.
  destruct (decide ((r', o') = (r, o - 1))) as [[= -> ->]|Hne].
  - rw !upd_list_eq upd_list_ne; [intros [=]; lia|]. rw !elem_of_cons.
    split; [intros [->|[->|Hx]]|intros [[<- _]|[Hx1 [[<- _]|[Hx2 Hx]]]]]; auto.
    + right. split; [lia|]. by left.
    + right. split; [intros <-|]; [apply Hf in Hx; congruence|]. right.
      split; [intros <-|done]. apply Hf in Hx. simplify_eq. lia.
  - rw !(upd_list_ne _ (r, o - 1)); [congruence..|].
    destruct (decide ((r', o') = (r, o))) as [[= -> ->]|Hne2].
    + rw upd_list_eq HL elem_of_cons.
      split; [intros Hx|intros [[_ [=]]|[Hx1 [[_ [=]]|[Hx2 [->|Hx]]]]]]; try lia; try done.
      right. split; [|right; split; [|by right]]; intros <-; [|done].
      assert (p + 2 ^ (o - 1) ∈ L (r, o)) as Hx' by (rw HL; by right).
      apply Hf in Hx'. congruence.
    + rw upd_list_ne; [congruence|].
      split; [intros Hx|intros [[_ [=]]|[Hx1 [[_ [=]]|[Hx2 Hx]]]]]; try congruence.
      right. split; [intros <-; apply Hf in Hx; congruence|]. right.
      split; [intros <-|done]. apply Hf in Hx. congruence.
Qed.

Lemma unlisted_popped lo hi N H L B k p xs : binv lo hi N H L B → L k = p :: xs →
  unlisted (upd_list L k xs) p.
Proof.
  intros Hi HL k'. pose proof (bi_desc _ _ _ _ _ _ Hi) as Hd. rw /upd_list. case_decide as Hk.
  - pose proof (de_nodup _ _ _ _ Hd k) as Hnd. rw HL in Hnd. by apply NoDup_cons in Hnd as [? _].
  - intros Hp. apply Hk. eapply (de_disj _ _ _ _ Hd); [exact Hp|]. rw HL. by left.
Qed.

Lemma unlisted_None lo hi N H L B p : binv lo hi N H L B → B !! p = None → unlisted L p.
Proof. intros Hi Hp. eapply binv_unlisted; [exact Hi|]. intros r o. by rw Hp. Qed.

Lemma heads_insert (H : gmap (Z * Z) palloc_node) k x k' :
  is_Some (H !! k') → is_Some (<[k := x]> H !! k').
Proof. intros Hk. apply lookup_insert_is_Some'. by right. Qed.

Lemma paddr_ge_32 : 32 ≤ PADDR_WIDTH.
Proof. destruct paddr_width_cases; lia. Qed.

Lemma wp_split_head s L B r o p xs :
  pinv s L B → 1 ≤ o → L (r, o) = p :: xs →
  wp (split_head o r) (λ res s', res = 0 ∧ ∃ N' H', s' = put N' H' s ∧
    pinv s' (split_lists L r o p (2 ^ (o - 1)) xs)
      (<[p + 2 ^ (o - 1) := mk_blk r (o - 1) false]> (<[p := mk_blk r (o - 1) false]> B))) s.
Proof.
  intros Hi Ho HL. pose proof Hi as [Hlo Hb Hh Hdi Hde Hf].
  assert (p ∈ L (r, o)) as HpL by (rw HL; by left).
  pose proof (binv_listed _ _ _ _ _ _ _ _ _ Hi HpL) as (Hr & Ho' & Hp1 & Hp2 & Hal & Hda); cbn in *.
  assert (B !! p = Some (mk_blk r o false)) as HB by (by apply Hf).
  pose proof (pow2_split o Ho) as E. set (h := 2 ^ (o - 1)) in *. assert (0 < h) by (rw /h; lia).
  assert (B !! (p + h) = None) as HB2.
  { eapply (dinv_inner _ _ _ B p); [exact Hdi|exact HB|rw /covers /=; lia|lia]. }
  destruct (Hh r o Hr Ho') as [hd Hhd]. destruct (Hh r (o - 1) Hr ltac:(lia)) as [hd1 Hhd1].
  pose proof (desc_head_empty _ _ _ _ _ _ Hde Hhd) as Hne. rw HL in Hne.
  destruct (has_next hd); [|by destruct Hne]. destruct Hne as (x & xs' & n & [= <- <-] & Hnx & Hn).
  destruct (di_dom _ _ _ _ Hdi (p + h) ltac:(lia)) as [n2 Hn2].
  assert ((r, o) ≠ (r, o - 1)) by (intros [=]; lia).
  rw /split_head. wp_step. eapply wp_read_buddy; [exact Hhd|]. rw Hnx.
  wp_step. apply wp_get_node; [lia|]. wp_step. eapply wp_read_node; [exact Hn|].
  wp_step. eapply wp_write_buddy; [exact Hhd|]. wp_step.
  eapply wp_lift; [apply shl_chk_order; [apply paddr_ge_32|]; change PALLOC_MAX_ORDER with 15 in *; lia|].
  rw -/h wrap_small; [apply (pfn_bound_paddr (pfn_limit s)); [done|lia]|].
  wp_step. apply wp_get_node; [cbn; lia|].
  wp_step. eapply wp_write_node; [cbn; exact Hn|].
  wp_step. eapply wp_write_node; [cbn; rw lookup_insert_ne; [lia|exact Hn2]|].
  wp_step. eapply wp_insert_node; [cbn; lia|cbn; rw lookup_insert_ne; [lia|apply lookup_insert_eq]|
    cbn; rw lookup_insert_ne; [done|exact Hhd1]|].
  wp_step. eapply wp_insert_node; [cbn; lia|cbn; rw lookup_insert_ne; [lia|apply lookup_insert_eq]|
    cbn; apply lookup_insert_eq|].
  wp_step. split; [done|]. rw !put_put. do 2 eexists. split; [reflexivity|].
  pose proof (unlisted_popped _ _ _ _ _ _ _ _ _ Hi HL) as Hu1.
  pose proof (unlisted_upd _ (r, o) xs _ (unlisted_None _ _ _ _ _ _ _ Hi HB2)) as Hu2.
  assert (p + h ∉ xs) as Hxs.
  { intros Hx. apply (unlisted_None _ _ _ _ _ _ _ Hi HB2 (r, o)). rw HL. by right. }
  specialize (Hu2 Hxs).
  split; cbn [put nodes buddies upd_nodes upd_buddies pfn_start pfn_limit]; [done..| | | |].
  - intros r' o' Hr' Ho''. do 3 apply heads_insert. by apply Hh.
  - eapply (dinv_split _ _ (nodes s)); [exact Hdi|exact HB|done|..].
    + intros q Hq1 Hq2. rw !data_at_insert. repeat case_decide; try done; lia.
    + rw -/h !data_at_insert decide_False; [lia|]. rw decide_True // /node_data /=.
      rw wrap_order ?wrap_region //; lia.
    + rw -/h !data_at_insert decide_True // /node_data /= wrap_order ?wrap_region //; lia.
  - rw /split_lists. apply desc_push; [done| |cbn; apply lookup_insert_eq|..].
    + apply desc_push; [done| |by rw lookup_insert_ne| | |lia].
      * do 2 (apply desc_write; [|done]). by apply (desc_pop _ _ _ _ _ _ p n).
      * rw lookup_insert_ne; [lia|]. apply lookup_insert_eq.
      * done.
    + rw lookup_insert_ne; [lia|]. apply lookup_insert_eq.
    + apply unlisted_upd; [done|]. apply not_elem_of_cons. split; [lia|]. apply Hu2.
    + lia.
  - intros r' o' q. by apply (split_lists_free _ _ _ _ _ _ _ _ _ _ Hi).
Qed.

(** [buddy_split] fails, without touching anything, exactly when no block of
    its order or above is free; otherwise it leaves a free block of the next
    lower order at the head of its list and only recuts free pages. *)
Definition split_post (s : palloc_state) (B : gmap Z blk) (r o : Z) (s' : palloc_state) : Prop :=
  ∃ N' H' L' B' x xs, s' = put N' H' s ∧ pinv s' L' B' ∧ page_equiv B B' ∧
    L' (r, o - 1) = x :: xs ∧ (coalesced B → coalesced_except B' (Some x)).

Lemma wp_split_step s s1 L1 B B1 r o p xs N1 H1 :
  s1 = put N1 H1 s → pinv s1 L1 B1 → 1 ≤ o → L1 (r, o) = p :: xs → page_equiv B B1 →
  (coalesced B → coalesced_except B1 (Some p)) →
  wp (split_head o r) (λ res s', res = 0 ∧ split_post s B r o s') s1.
Proof.
  intros -> Hi1 Ho HL1 Hpe Hco. eapply wp_mono; [eapply wp_split_head; [exact Hi1|exact Ho|exact HL1]|].
  intros res s' (-> & N' & H' & -> & Hi'). split; [done|]. rw put_put in Hi' |- *.
  assert (p ∈ L1 (r, o)) as Hp by (rw HL1; by left).
  pose proof (binv_listed _ _ _ _ _ _ _ _ _ Hi1 Hp) as (_ & _ & _ & _ & Hal & _). cbn in Hal.
  apply (bi_free _ _ _ _ _ _ Hi1) in Hp. pose proof (pow2_split o Ho).
  do 6 eexists. split_and!; [reflexivity|exact Hi'| | |].
  - etrans; [exact Hpe|]. apply page_equiv_split; [lia|exact Hp|].
    eapply (dinv_inner _ _ _ B1 p); [apply Hi1|exact Hp|rw /covers /=; lia|lia].
  - by rw /split_lists upd_list_eq.
  - intros Hc. by apply coalesced_split; [| |apply Hco|].
Qed.

Lemma wp_buddy_split fuel o r s L B :
  pinv s L B → 0 ≤ r < MAX_PALLOC_REGION_COUNT → 1 ≤ o ≤ PALLOC_MAX_ORDER →
  PALLOC_MAX_ORDER - o < Z.of_nat fuel →
  wp (buddy_split fuel o r) (λ res s',
    (res = -1 ∧ s' = s ∧ ∀ o', o ≤ o' → L (r, o') = []) ∨
    (res = 0 ∧ split_post s B r o s' ∧ ∃ o', o ≤ o' ∧ L (r, o') ≠ [])) s.
Proof.
  revert o. induction fuel as [|fuel IH]; intros o Hi Hr Ho Hfuel; [lia|].
  cbn [buddy_split]. wp_step. apply wp_panic_if.
  { change PALLOC_MIN_ORDER with 0. apply orb_false_iff. split; apply Z.ltb_ge; lia. }
  destruct (bi_heads _ _ _ _ _ _ Hi r o Hr ltac:(lia)) as [hd Hhd].
  wp_step. eapply wp_read_buddy; [exact Hhd|].
  pose proof (desc_head_empty _ _ _ _ _ _ (bi_desc _ _ _ _ _ _ Hi) Hhd) as Hne.
  wp_step. destruct (has_next hd).
  - destruct Hne as (x & xs & n & HL & _). wp_step. cbn [Z.eqb].
    eapply wp_mono; [apply (wp_split_step s s L B B r o x xs (nodes s) (buddies s));
      [by rw put_id|done|lia|done|done|apply coalesced_weaken]|].
    intros res s' [-> Hrest]. right. split_and!; [done..|]. exists o. split; [lia|]. by rw HL.
  - destruct Hne as [HL _]. destruct (Z.eqb_spec o PALLOC_MAX_ORDER) as [Emax|Hmax].
    + wp_step. cbn [Z.eqb Pos.eqb]. wp_step. left. split_and!; [done..|].
      intros o' Ho'. destruct (decide (o' = o)) as [->|]; [done|].
      destruct (L (r, o')) as [|x xs] eqn:HL'; [done|].
      pose proof (binv_listed _ _ _ _ _ _ r o' x Hi ltac:(rw HL'; by left)) as (_ & ? & _). cbn in *. lia.
    + eapply wp_mono; [apply IH; [done..|lia|lia]|].
      intros res s' [(-> & -> & Hempty)|(-> & (N' & H' & L' & B' & x & xs & -> & Hi' & Hpe & HL' & Hco) & o' & ? & ?)].
      * cbn [Z.eqb Pos.eqb]. wp_step. left. split_and!; [done..|]. intros o' Ho'.
        destruct (decide (o' = o)) as [->|]; [done|]. apply Hempty. lia.
      * cbn [Z.eqb]. replace (o + 1 - 1) with o in HL' by lia.
        eapply wp_mono; [apply (wp_split_step s _ L' B B' r o x xs N' H'); [done|done|lia|done..]|].
        intros res s'' [-> Hrest]. right. split_and!; [done..|]. exists o'. split; [lia|done].
Qed.

(** The effect of [merge_buddies] on the lists. *)
Definition merge_lists (L : lists) (r o p x low : Z) : lists :=
  let L1 := upd_list L (r, o) (filter (λ y, y ≠ p) (L (r, o))) in
  let L2 := upd_list L1 (r, o) (filter (λ y, y ≠ x) (L1 (r, o))) in
  upd_list L2 (r, o + 1) (low :: L2 (r, o + 1)).

Lemma merge_lists_free lo hi N H L B r o p x low :
  binv lo hi N H L B → B !! p = Some (mk_blk r o false) → B !! x = Some (mk_blk r o false) →
  p = low ∧ x = low + 2 ^ o ∨ x = low ∧ p = low + 2 ^ o →
  ∀ r' o' q, q ∈ merge_lists L r o p x low (r', o') ↔
    <[low := mk_blk r (o + 1) false]> (delete (low + 2 ^ o) B) !! q = Some (mk_blk r' o' false).
Proof.
  intros Hi Hp Hx Hlow r' o' q. pose proof (bi_free _ _ _ _ _ _ Hi) as Hf.
  assert (∀ y, y ∈ filter (λ y, y ≠ x) (filter (λ y, y ≠ p) (L (r, o))) ↔
    y ≠ low ∧ y ≠ low + 2 ^ o ∧ B !! y = Some (mk_blk r o false)) as Hflt.
  { intros y. rw !list_elem_of_filter Hf. destruct Hlow as [[-> ->]|[-> ->]]; naive_solver. }
  rw lookup_insert_Some lookup_delete_Some /merge_lists !upd_list_eq.
  destruct (decide ((r', o') = (r, o + 1))) as [[= -> ->]|Hne].
  - rw upd_list_eq !upd_list_ne; [intros [=]; lia..|]. rw elem_of_cons Hf.
    split; [intros [->|Hq]; [by left|]|intros [[<- _]|(?&?&?)]; auto].
    right. split_and!; [intros <-|intros <-|done];
      destruct Hlow as [[-> ->]|[-> ->]]; simplify_eq; lia.
  - rw (upd_list_ne _ (r, o + 1)); [congruence|].
    destruct (decide ((r', o') = (r, o))) as [[= -> ->]|Hne2].
    + rw upd_list_eq Hflt. split; [intros (?&?&?); auto|].
      intros [[_ [=]]|(?&?&?)]; [lia|auto].
    + rw !upd_list_ne; [congruence..|]. rw Hf.
      split; [intros Hq|intros [[_ [=]]|(?&?&?)]; [congruence|done]].
      right. split_and!; [intros <-|intros <-|done];
        destruct Hlow as [[-> ->]|[-> ->]]; simplify_eq.
Qed.

Lemma same_data_keep N N' q d : same_data N N' → data_at N q = Some d → data_at N' q = Some d.
Proof. intros Hs. by rw Hs. Qed.

Lemma wp_merge_buddies s L B r o p x low :
  pinv s L B → B !! p = Some (mk_blk r o false) → B !! x = Some (mk_blk r o false) →
  o < PALLOC_MAX_ORDER → low mod 2 ^ (o + 1) = 0 →
  p = low ∧ x = low + 2 ^ o ∨ x = low ∧ p = low + 2 ^ o →
  wp (merge_buddies p x low r o) (λ _ s', ∃ N' H', s' = put N' H' s ∧
    pinv s' (merge_lists L r o p x low)
      (<[low := mk_blk r (o + 1) false]> (delete (low + 2 ^ o) B))) s.
Proof.
  intros Hi Hp Hx Ho Hal Hlow. pose proof Hi as [Hlo Hb Hh Hdi Hde Hf].
  pose proof (di_blk _ _ _ _ Hdi _ _ Hp) as (Hr & Ho' & Hp1 & Hp2 & _ & Hdp).
  pose proof (di_blk _ _ _ _ Hdi _ _ Hx) as (_ & _ & Hx1 & Hx2 & _ & Hdx). cbn in *.
  assert (0 < 2 ^ o) by lia. assert (p ≠ x) as Hpx by lia.
  rw /merge_buddies. wp_step. eapply wp_remove_node; [exact Hb|exact Hde|by apply Hh|by apply Hf|..].
  { intros y Hy. by apply (binv_listed _ _ _ _ _ _ _ _ _ Hi) in Hy as (_&_&?&_). }
  intros N1 H1 Hde1 Hsd1 Hk1. wp_step. eapply wp_remove_node; [exact Hb|exact Hde1|..].
  { by apply Hk1, Hh. }
  { rw upd_list_eq. apply list_elem_of_filter. split; [congruence|by apply Hf]. }
  { rw upd_list_eq. intros y Hy. apply list_elem_of_filter in Hy as [_ Hy].
    by apply (binv_listed _ _ _ _ _ _ _ _ _ Hi) in Hy as (_&_&?&_). }
  cbn [put nodes buddies upd_nodes upd_buddies pfn_start pfn_limit].
  intros N2 H2 Hde2 Hsd2 Hk2. pose proof (same_data_trans _ _ _ Hsd1 Hsd2) as Hsd.
  set (L2 := upd_list _ _ (filter (λ y, y ≠ x) _)) in Hde2.
  assert (∀ y, y = p ∨ y = x → unlisted L2 y) as Hun.
  { intros y Hy [r' o']. rw /L2 /upd_list. repeat case_decide; try done.
    - rw !list_elem_of_filter. naive_solver.
    - rw Hf. destruct Hy as [->| ->]; congruence. }
  pose proof (same_data_keep _ _ _ _ Hsd Hdp) as Hdp'. pose proof (same_data_keep _ _ _ _ Hsd Hdx) as Hdx'.
  destruct (N2 !! p) as [n|] eqn:Hn; [|by rw /data_at Hn in Hdp'].
  destruct (N2 !! x) as [m|] eqn:Hm; [|by rw /data_at Hm in Hdx'].
  rw (data_at_lookup _ _ _ Hn) /node_data in Hdp'. rw (data_at_lookup _ _ _ Hm) /node_data in Hdx'.
  assert (is_Some (H2 !! (r, o + 1))) as [hd Hhd] by (apply Hk2, Hk1, Hh; lia).
  wp_step. eapply wp_write_node; [exact Hn|].
  wp_step. eapply wp_write_node; [cbn; rw lookup_insert_ne; [done|exact Hm]|].
  set (N3 := <[x := combined_node (o + 1) r m]> (<[p := combined_node (o + 1) r n]> N2)).
  assert (∃ nl, N3 !! low = Some nl ∧ node_data nl = (o + 1, r, false, true)) as (nl & Hnl & Hdl).
  { rw /N3. destruct Hlow as [[-> ->]|[-> ->]].
    - rw lookup_insert_ne; [lia|]. rw lookup_insert_eq. eexists. split; [reflexivity|].
      rw /node_data /= wrap_order ?wrap_region //; [lia|]. congruence.
    - rw lookup_insert_eq. eexists. split; [reflexivity|].
      rw /node_data /= wrap_order ?wrap_region //; [lia|]. congruence. }
  eapply wp_insert_node; [cbn; lia|exact Hnl|exact Hhd|].
  rw !put_put. do 2 eexists. split; [reflexivity|].
  split; cbn [put nodes buddies upd_nodes upd_buddies pfn_start pfn_limit]; [done..| | | |].
  - intros r' o' ??. apply heads_insert, Hk2, Hk1. by apply Hh.
  - assert (∀ y, data_at (<[low := set_link (has_next hd) (next hd) nl]> N3) y =
      if decide (y = p ∨ y = x) then Some (o + 1, r, false, true) else data_at (nodes s) y) as Hda.
    { assert (low = p ∨ low = x) as Hlow' by (destruct Hlow as [[-> _]|[-> _]]; auto).
      intros y. rw data_at_insert /N3 !data_at_insert.
      change (node_data (set_link (has_next hd) (next hd) nl)) with (node_data nl). rw Hdl /node_data /=.
      rw wrap_order ?wrap_region //; [lia|].
      destruct (decide (y = p ∨ y = x)) as [Hy|Hy].
      - case_decide; [done|]. case_decide; [congruence|]. case_decide; [congruence|].
        exfalso. destruct Hy; congruence.
      - rw !decide_False; [destruct Hlow'; naive_solver..|]. apply Hsd. }
    eapply (dinv_merge _ _ (nodes s)); [exact Hdi|..]; try done.
    1-2: destruct Hlow as [[-> ->]|[-> ->]]; done.
    + intros q ??. rw Hda decide_False //. destruct Hlow as [[-> ->]|[-> ->]]; tauto.
    + rw Hda decide_True //. destruct Hlow as [[-> ->]|[-> ->]]; auto.
    + rw Hda decide_True //. destruct Hlow as [[-> ->]|[-> ->]]; auto.
  - apply desc_push; [done| |exact Hhd|exact Hnl|apply Hun; destruct Hlow as [[-> _]|[-> _]]; auto|lia].
    rw /N3. do 2 (apply desc_write; [|apply Hun; auto]). exact Hde2.
  - by apply (merge_lists_free _ _ _ _ _ _ _ _ _ _ _ Hi).
Qed.

(** The order of a block and its alignment, read off the partition. *)
Lemma dinv_aligned lo hi N B q b : dinv lo hi N B → B !! q = Some b →
  0 ≤ b_order b ∧ q mod 2 ^ b_order b = 0.
Proof. intros Hd Hq. destruct (di_blk _ _ _ _ Hd _ _ Hq) as (_ & ? & _ & _ & ? & _). split; [lia|done]. Qed.

Lemma pfn_mod_pow2 p n : 0 ≤ n ≤ 16 → pfn_mod_order_page_count p (2 ^ n) = p mod 2 ^ n.
Proof.
  intros Hn. rw /pfn_mod_order_page_count wrap_small; [|by rw land_ones_mod; lia].
  pose proof paddr_ge_32. assert (2 ^ n < 2 ^ PADDR_WIDTH) by (apply Z.pow_lt_mono_r; lia).
  split; lia.
Qed.

(** The page frame numbers [buddy_combine] computes. *)
Lemma buddy_pfns s L B p r o : pinv s L B → B !! p = Some (mk_blk r o false) →
  o < PALLOC_MAX_ORDER →
  (if pfn_mod_order_page_count p (2 ^ (o + 1)) =? 0
   then (p, wrap PADDR_WIDTH (p + 2 ^ o))
   else (wrap PADDR_WIDTH (p - 2 ^ o), wrap PADDR_WIDTH (p - 2 ^ o))) =
  (Z.min p (buddy_of p o), buddy_of p o).
Proof.
  intros Hi Hp Ho. pose proof (bi_lo _ _ _ _ _ _ Hi). pose proof (bi_bound _ _ _ _ _ _ Hi) as Hb.
  pose proof (di_blk _ _ _ _ (bi_dinv _ _ _ _ _ _ Hi) _ _ Hp) as (_ & Ho' & Hp1 & Hp2 & Hal & _).
  cbn in *. change PALLOC_MAX_ORDER with 15 in *.
  rw pfn_mod_pow2 /buddy_of; [lia|]. destruct (Z.eqb_spec (p mod 2 ^ (o + 1)) 0) as [E|E].
  - rw decide_True //. rw wrap_small; [apply (pfn_bound_paddr (pfn_limit s)); [done|lia]|].
    f_equal. lia.
  - rw decide_False //. assert (2 ^ o ≤ p).
    { apply Z.mod_divide in Hal as [k ->]; [|lia]. assert (k ≠ 0) by (intros ->; by rw Z.mul_0_l Z.mod_0_l in E; lia). nia. }
    rw wrap_small; [apply (pfn_bound_paddr (pfn_limit s)); [done|lia]|]. f_equal. lia.
Qed.

Lemma buddy_low p o : 0 ≤ o → p mod 2 ^ o = 0 →
  let low := Z.min p (buddy_of p o) in
  low mod 2 ^ (o + 1) = 0 ∧
  (p = low ∧ buddy_of p o = low + 2 ^ o ∨ buddy_of p o = low ∧ p = low + 2 ^ o).
Proof.
  intros Ho Hp. rw /buddy_of /=. case_decide as Hm.
  - rw Z.min_l; [lia|]. auto.
  - rw Z.min_r; [lia|]. split; [by apply half_aligned|]. right. lia.
Qed.

(** [buddy_combine] only recuts free pages, and merges every free buddy it can. *)
Lemma wp_buddy_combine fuel s L B r o p :
  pinv s L B → B !! p = Some (mk_blk r o false) → PALLOC_MAX_ORDER - o < Z.of_nat fuel →
  wp (buddy_combine fuel p) (λ _ s', ∃ N' H' L' B', s' = put N' H' s ∧ pinv s' L' B' ∧
    page_equiv B B' ∧ (coalesced_except B (Some p) → coalesced B')) s.
Proof.
  revert s L B o p. induction fuel as [|fuel IH]; intros s L B o p Hi Hp Hfuel.
  { pose proof (di_blk _ _ _ _ (bi_dinv _ _ _ _ _ _ Hi) _ _ Hp) as (_ & ? & _). cbn in *. lia. }
  pose proof (bi_dinv _ _ _ _ _ _ Hi) as Hdi.
  pose proof (di_blk _ _ _ _ Hdi _ _ Hp) as (Hr & Ho & Hp1 & Hp2 & Hal & Hd). cbn in Ho, Hal, Hp2, Hd.
  destruct (nodes s !! p) as [n|] eqn:Hn; [|by rw /data_at Hn in Hd].
  rw (data_at_lookup _ _ _ Hn) /node_data in Hd.
  assert (region n = r ∧ order n = o) as [Er Eo] by (split; congruence).
  assert (32 ≤ ARCH_WIDTH) by arch_lia.
  assert ((o < PALLOC_MAX_ORDER → B !! buddy_of p o ≠ Some (mk_blk r o false)) →
    ∃ N' H' L' B', s = put N' H' s ∧ pinv s L' B' ∧
      page_equiv B B' ∧ (coalesced_except B (Some p) → coalesced B')) as Hstop.
  { intros Hb. exists (nodes s), (buddies s), L, B. rw put_id. split_and!; [done..|].
    intros Hc. apply (coalesced_done B p r o); try done; [lia|].
    intros q b. by apply (dinv_aligned _ _ _ _ _ _ Hdi). }
  cbn [buddy_combine]. wp_step. apply wp_get_node; [lia|]. wp_step. eapply wp_read_node; [exact Hn|].
  rw Er Eo. change PALLOC_MAX_ORDER with 15 in *.
  wp_step. eapply wp_lift; [apply shl_chk_order; lia|].
  destruct (Z.eqb_spec o 15) as [->|Hmax]; [wp_step; apply Hstop; lia|].
  wp_step. eapply wp_lift; [apply shl_chk_order; lia|].
  rw (buddy_pfns s L B p r o Hi Hp ltac:(change PALLOC_MAX_ORDER with 15; lia)).
  destruct (buddy_low p o ltac:(lia) Hal) as [Hlal Hlow].
  set (x := buddy_of p o) in *. set (low := Z.min p x) in *.
  assert (p mod 2 ^ (o + 1) = 0 ∧ x = p + 2 ^ o ∨ p mod 2 ^ (o + 1) ≠ 0 ∧ x = p - 2 ^ o) as Hx
    by (rw /x /buddy_of; case_decide; auto).
  wp_step. rw /is_pfn_valid. wp_step.
  destruct (Z.ltb_spec x (pfn_start s)) as [Hx1|Hx1]; cbn [orb negb].
  { wp_step. apply Hstop. intros _ HB.
    destruct (di_blk _ _ _ _ Hdi _ _ HB) as (_ & _ & ? & _). lia. }
  destruct (Z.leb_spec (pfn_limit s) x) as [Hx2|Hx2]; cbn [orb negb].
  { wp_step. apply Hstop. intros _ HB.
    destruct (di_blk _ _ _ _ Hdi _ _ HB) as (_ & _ & _ & ? & _). cbn in *. lia. }
  destruct (di_dom _ _ _ _ Hdi x ltac:(lia)) as [m Hm].
  wp_step. apply wp_get_node; [lia|]. wp_step. eapply wp_read_node; [exact Hm|].
  destruct (negb (avail m) || negb (region m =? r) || alloc m || negb (o =? order m)) eqn:Ec.
  { wp_step. apply Hstop. intros _ HB. destruct (di_blk _ _ _ _ Hdi _ _ HB) as (_ & _ & _ & _ & _ & Hdx).
    rw (data_at_lookup _ _ _ Hm) /node_data /= in Hdx. injection Hdx as E1 E2 E3 E4.
    by rw E1 E2 E3 E4 !Z.eqb_refl in Ec. }
  rw !orb_false_iff !negb_false_iff !Z.eqb_eq in Ec. destruct Ec as [[[Ea Er'] Eal] Eo'].
  assert (B !! x = Some (mk_blk r o false)) as HBx.
  { eapply (dinv_buddy _ _ _ B p x r o Hdi Hp); [change PALLOC_MAX_ORDER with 15; lia|done|lia|].
    rw (data_at_lookup _ _ _ Hm) /node_data. congruence. }
  wp_step. eapply wp_mono; [eapply (wp_merge_buddies s L B r o p x low); try done; change PALLOC_MAX_ORDER with 15; lia|].
  intros _ s1 (N1 & H1 & -> & Hi1).
  assert (page_equiv B (<[low := mk_blk r (o + 1) false]> (delete (low + 2 ^ o) B))) as Hpe.
  { apply page_equiv_merge; [lia|..]; destruct Hlow as [[E1 E2]|[E1 E2]]; congruence. }
  eapply wp_mono; [eapply (IH _ _ _ (o + 1) low Hi1); [apply lookup_insert_eq|lia]|].
  intros _ s2 (N2 & H2 & L2 & B2 & -> & Hi2 & Hpe2 & Hco2). rw put_put in Hi2 |- *.
  exists N2, H2, L2, B2. split_and!; [done..|etrans; [exact Hpe|exact Hpe2]|].
  intros Hc. apply Hco2. by apply (coalesced_merge B p x low r o).
Qed.

End Buddies.
