(* ===== verification/PallocProps.v ===== *)
(** Allocation and release of page frames: the functions
    [calc_palloc_order], [palloc_region], [palloc_tag], [palloc] and [pfree] of
    [src/src/kernel/mem/palloc.c] (model: file Palloc) against the abstract
    allocator, whose state is the set of allocated blocks and the set of free
    pages of each region. *)

From stdpp Require Import base list gmap.
From Stdlib Require Import ZArith Lia.
From Corelib Require Import ssreflect.
From S2P Require Import Prelude Bits Lock Palloc PallocSpec.

(** ** The order of a request *)

Section Order.

Lemma popcount32_gt1 v : 0 < v < 2 ^ 32 →
  (1 <? popcount32 v) = negb (Z.log2 v =? Z.log2_up v).
Proof.
  intros Hv. rw popcount32_bits. pose proof (bits_set_nonneg 32 v).
  pose proof (bits_set_pow2 32 v ltac:(rw /uint /=; lia)) as H1.
  assert (bits_set 32 v ≠ 0) as H0.
  { intros E. pose proof (proj1 (bits_set_zero 32 v) E (Z.log2 v)) as Hz.
    rw Z.bit_log2 in Hz; [lia|]. pose proof (Z.log2_nonneg v).
    assert (Z.log2 v < 32) by (apply Z.log2_lt_pow2; lia). by discriminate Hz. }
  destruct (Z.eqb_spec (Z.log2 v) (Z.log2_up v)) as [E|E]; cbn [negb].
  - apply Z.ltb_ge. apply Z.log2_log2_up_exact in E as [b ->]; [|lia].
    assert (0 ≤ b) by (destruct (Z.lt_ge_cases b 0); [rw Z.pow_neg_r in Hv; lia|lia]).
    assert (b < 32) by (apply (Z.pow_lt_mono_r_iff 2); lia).
    rw (proj2 H1); [exists b; lia|lia].
  - apply Z.ltb_lt. enough (bits_set 32 v ≠ 1) by lia. intros E1.
    apply H1 in E1 as (k & ? & ->). apply E. rw Z.log2_pow2 ?Z.log2_up_pow2; lia.
Qed.

Lemma calc_order_value count : 0 < count < 2 ^ 31 →
  calc_palloc_order count = if count <=? 2 ^ 15 then Ret (Z.log2_up count) else Panic.
Proof.
  intros Hc. assert (u32 count = count) as E by (apply wrap_small; rw /uint; lia).
  rw /calc_palloc_order E clz32_spec; [rw /uint; lia|]. rw (proj2 (Z.eqb_neq _ _)); [lia|].
  rw popcount32_gt1; [lia|].
  assert ((if negb (Z.log2 count =? Z.log2_up count) then 32 - 1 - (31 - Z.log2 count) + 1
           else 32 - 1 - (31 - Z.log2 count)) = Z.log2_up count) as ->.
  { pose proof (Z.le_log2_log2_up count). pose proof (Z.le_log2_up_succ_log2 count).
    destruct (Z.eqb_spec (Z.log2 count) (Z.log2_up count)); cbn [negb]; lia. }
  change PALLOC_MIN_ORDER with 0. change PALLOC_MAX_ORDER with 15.
  pose proof (Z.log2_up_nonneg count). rw (proj2 (Z.ltb_ge _ _)); [lia|].
  destruct (Z.leb_spec count (2 ^ 15)) as [Hle|Hgt].
  - rw (proj2 (Z.ltb_ge _ _)); [|done]. apply Z.log2_up_le_pow2; lia.
  - rw (proj2 (Z.ltb_lt _ _)); [|done]. apply Z.log2_up_lt_pow2; lia.
Qed.

End Order.

(** ** The region and statistics locks *)

#[export] Instance region_lock_laws r : LockLaws (region_lock r).
Proof.
  split; cbn.
  - intros v s [w Hw]. rw lookup_alter_eq. destruct (regions s !! r); done.
  - intros v w s. rw /upd_regions /=. f_equal. rw alter_alter_eq. done.
  - intros v s Hv. rw /upd_regions. destruct s as [N B R]. cbn in *. f_equal.
    apply alter_id. intros g Hg. rw Hg in Hv. injection Hv as <-. by destruct g.
  - done.
  - done.
  - done.
Qed.

#[export] Instance page_stats_lock_laws : LockLaws page_stats_lock.
Proof. split; cbn; try done. intros v [] [= ->]. done. Qed.

(** ** The abstract allocator *)

(** The allocated blocks of a partition, and their number of pages. *)
Definition allocated (B : gmap Z blk) : gmap Z blk := filter (λ kb, b_alloc kb.2 = true) B.
Definition alloc_sum (B : gmap Z blk) : Z :=
  map_fold (λ _ b acc, 2 ^ b_order b + acc) 0 (allocated B).

Section Abstract.

Lemma allocated_lookup B p b : allocated B !! p = Some b ↔ B !! p = Some b ∧ b_alloc b = true.
Proof. apply map_lookup_filter_Some. Qed.

Lemma page_equiv_allocated B B' : page_equiv B B' → allocated B = allocated B'.
Proof.
  intros Hpe. apply map_eq. intros p. apply option_eq. intros b. rw !allocated_lookup.
  split; intros [? Hb]; (split; [by apply (pe_alloc _ _ Hpe)|done]).
Qed.

Lemma allocated_insert B p b : b_alloc b = true →
  allocated (<[p := b]> B) = <[p := b]> (allocated B).
Proof. intros Hb. by rw /allocated map_filter_insert_True. Qed.

Lemma allocated_free B p b : b_alloc b = false →
  allocated (<[p := b]> B) = delete p (allocated B).
Proof. intros Hb. rw /allocated map_filter_insert_False /= ?Hb // map_filter_delete //. Qed.

Lemma alloc_sum_fold (m : gmap Z blk) p b : m !! p = None →
  map_fold (λ _ b acc, 2 ^ b_order b + acc) 0 (<[p := b]> m) =
  2 ^ b_order b + map_fold (λ _ b acc, 2 ^ b_order b + acc) 0 m.
Proof. intros Hp. rw map_fold_insert_L //. intros; lia. Qed.

Lemma alloc_sum_insert B p b : b_alloc b = true → (∀ b', B !! p = Some b' → b_alloc b' = false) →
  alloc_sum (<[p := b]> B) = alloc_sum B + 2 ^ b_order b.
Proof.
  intros Hb Hp. rw /alloc_sum allocated_insert // alloc_sum_fold; [|lia].
  destruct (allocated B !! p) as [b'|] eqn:E; [|done].
  apply allocated_lookup in E as [E E']. by rw (Hp _ E) in E'.
Qed.

Lemma alloc_sum_free B p b b' : b_alloc b' = false → B !! p = Some b → b_alloc b = true →
  alloc_sum (<[p := b']> B) = alloc_sum B - 2 ^ b_order b.
Proof.
  intros Hb' Hp Hb. rw /alloc_sum allocated_free //.
  assert (allocated B !! p = Some b) as Ha by (by apply allocated_lookup).
  rw -{2}(insert_delete_id (allocated B) p b) // alloc_sum_fold; [apply lookup_delete_eq|]. lia.
Qed.

(** The blocks of a partition hold no more pages than the managed range. *)
Definition block_pages (pb : Z * blk) : list Z := seqZ pb.1 (2 ^ b_order pb.2).

Lemma block_pages_length l : (∀ pb, pb ∈ l → 0 ≤ b_order pb.2) →
  Z.of_nat (length (l ≫= block_pages)) = foldr (λ pb acc, 2 ^ b_order pb.2 + acc) 0 l.
Proof.
  induction l as [|pb l IH]; intros Hl; [done|]. cbn [foldr].
  rw bind_cons length_app Nat2Z.inj_add IH; [intros; apply Hl; by right|].
  rw /block_pages length_seqZ. specialize (Hl pb ltac:(by left)). lia.
Qed.

Lemma dinv_pages lo hi N B : dinv lo hi N B → lo ≤ hi →
  map_fold (λ _ b acc, 2 ^ b_order b + acc) 0 B ≤ hi - lo.
Proof.
  intros Hd Hle. rw map_fold_foldr.
  assert (∀ pb, pb ∈ map_to_list B → blk_ok lo hi N pb.1 pb.2) as Hok.
  { intros [p b] Hpb. apply elem_of_map_to_list in Hpb. by apply (di_blk _ _ _ _ Hd). }
  assert (foldr (λ pb acc, 2 ^ b_order pb.2 + acc) 0 (map_to_list B) ≤ hi - lo) as Hgoal.
  { rw -block_pages_length; [intros pb Hpb; destruct (Hok pb Hpb) as (_ & ? & _); lia|].
    assert (length (map_to_list B ≫= block_pages) ≤ Z.to_nat (hi - lo))%nat; [|lia].
    apply nodup_range_length.
    - apply NoDup_bind; [|intros; apply NoDup_seqZ|apply NoDup_map_to_list].
      intros [p1 b1] [p2 b2] q H1%elem_of_map_to_list H2%elem_of_map_to_list Hq1%elem_of_seqZ Hq2%elem_of_seqZ.
      cbn in *. destruct (dinv_same _ _ _ _ p1 b1 p2 b2 q Hd); [done..|congruence].
    - intros q Hq. apply list_elem_of_bind in Hq as (pb & Hq%elem_of_seqZ & Hpb).
      destruct (Hok pb Hpb) as (_ & _ & ? & ? & _). lia. }
  etrans; [|exact Hgoal]. apply Z.eq_le_incl. clear. induction (map_to_list B) as [|[p b] l IH]; [done|].
  cbn. by rw IH.
Qed.

Lemma fold_weight_le (w1 w2 : blk → Z) (B : gmap Z blk) : (∀ b, w1 b ≤ w2 b) →
  map_fold (λ _ b acc, w1 b + acc) 0 B ≤ map_fold (λ _ b acc, w2 b + acc) 0 B.
Proof.
  intros Hw. induction B as [|p b B Hp _ IH] using map_first_key_ind; [done|].
  rw !map_fold_insert_L //; [intros; lia..|]. specialize (Hw b). lia.
Qed.

Lemma free_sum_bound lo hi N B r : dinv lo hi N B → lo ≤ hi → free_sum r B ≤ hi - lo.
Proof.
  intros Hd Hle. etrans; [|exact (dinv_pages _ _ _ _ Hd Hle)].
  apply fold_weight_le. intros b. rw /free_weight. case_decide; [lia|]. apply Z.pow_nonneg. lia.
Qed.

Lemma alloc_sum_bound lo hi N B : dinv lo hi N B → lo ≤ hi → 0 ≤ alloc_sum B ≤ hi - lo.
Proof.
  intros Hd Hle. split.
  { rw /alloc_sum. apply (map_fold_weak_ind (λ acc _, 0 ≤ acc)); [done|].
    intros p b m acc _ Hacc. pose proof (Z.pow_nonneg 2 (b_order b)). lia. }
  etrans; [|exact (dinv_pages _ _ _ _ Hd Hle)].
  assert (alloc_sum B = map_fold (λ _ b acc, (if b_alloc b then 2 ^ b_order b else 0) + acc) 0 B) as ->.
  { rw /alloc_sum /allocated. clear. induction B as [|p b B Hp _ IH] using map_first_key_ind; [done|].
    rw (map_fold_insert_L _ _ _ _ B) //; [intros; lia|]. rw -IH. destruct (b_alloc b) eqn:E.
    - rw map_filter_insert_True // alloc_sum_fold //. rw map_lookup_filter_None. auto.
    - rw map_filter_insert_False; [cbn; by rw E|]. by rw delete_id. }
  apply fold_weight_le. intros b. pose proof (Z.pow_nonneg 2 (b_order b)). destruct (b_alloc b); lia.
Qed.

End Abstract.

(** ** The allocator's invariant *)

Section Operations.
Context `{HA : Arch}.

(** The state is described by a partition into blocks, all locks are free, the
    page counts of the regions and of [page_stats] agree with the partition, and
    no two free buddies are left unmerged. *)
Record palloc_inv (s : palloc_state) (B : gmap Z blk) : Prop := {
  pi_lists : ∃ L, pinv s L B;
  pi_range : pfn_start s ≤ pfn_limit s;
  pi_region : ∀ r, 0 ≤ r < MAX_PALLOC_REGION_COUNT → ∃ g, regions s !! r = Some g ∧
                rlock g = SPINLOCK_INIT ∧ avail_pages g = free_sum r B;
  pi_count : 0 ≤ region_count s ≤ MAX_PALLOC_REGION_COUNT;
  pi_stats : stats_lock s = SPINLOCK_INIT;
  pi_alloc : num_pages_alloc s = alloc_sum B;
  pi_coal : coalesced B
}.

(** What no allocation or release changes. *)
Record same_setup (s s' : palloc_state) : Prop := {
  ss_start : pfn_start s' = pfn_start s;
  ss_limit : pfn_limit s' = pfn_limit s;
  ss_count : region_count s' = region_count s;
  ss_total : num_pages_total s' = num_pages_total s;
  ss_int : cpu_int s' = cpu_int s;
  ss_tags : ∀ r, tags <$> regions s' !! r = tags <$> regions s !! r
}.

#[export] Instance same_setup_preorder : PreOrder same_setup.
Proof.
  split; [by intros s; split|]. intros s1 s2 s3 [] []. split; congruence.
Qed.

(** The state an operation on region [r] ends in. *)
Definition settle (N : gmap Z palloc_node) (H : gmap (Z * Z) palloc_node) (r : Z)
    (g : palloc_region) (a : Z) (s : palloc_state) : palloc_state :=
  set_num_pages (num_pages_total s) a (upd_regions (<[r := g]>) (put N H s)).

Lemma settle_setup N H r g g' a s : regions s !! r = Some g → tags g' = tags g →
  same_setup s (settle N H r g' a s).
Proof.
  intros Hg Ht. split; try done. intros r'. cbn. destruct (decide (r = r')) as [<-|].
  - rw lookup_insert_eq Hg /=. by f_equal.
  - by rw lookup_insert_ne.
Qed.

(** The end of [palloc_region] and of [pfree]: the region's lock is released
    and the statistics are updated. *)
Lemma wp_release {A} r (f : palloc_region → palloc_region) (h : Z → Z) (v : A) g s N H
    (Q : A → palloc_state → Prop) :
  regions s !! r = Some g → rlock g = SPINLOCK_INIT → stats_lock s = SPINLOCK_INIT →
  (∀ l g, f (set_rlock l g) = set_rlock l (f g)) → rlock (f g) = rlock g →
  Q v (settle N H r (f g) (h (num_pages_alloc s)) s) →
  wp (spinlock_unlock_int (region_lock r);;
      spinlock_exclusive_int page_stats_lock
        (modify (λ s, set_num_pages (num_pages_total s) (h (num_pages_alloc s)) s));;
      mret v) Q
     (put N H (upd_regions (<[r := f (set_rlock (mk_spinlock true (cpu_int s)) g)]>)
                 (locked_state (region_lock r) s))).
Proof.
  intros Hg Hl Hs Hf Hfl HQ. wp_step. eapply (wp_spinlock_unlock_int (region_lock r)).
  { cbn. rw lookup_insert_eq /= Hf. reflexivity. } { done. }
  wp_step. eapply (wp_spinlock_exclusive_int page_stats_lock); [cbn; reflexivity|by rw Hs|].
  wp_step. cbn [lk_get page_stats_lock]. split; [done|]. split; [done|]. wp_step.
  match goal with |- Q v ?t => replace t with (settle N H r (f g) (h (num_pages_alloc s)) s); [done|] end.
  rw /settle /upd_regions /set_num_pages /put /locked_state /upd_nodes /upd_buddies /=.
  rw Hs /set_cpu_int /set_stats_lock /=. f_equal. apply map_eq. intros r'.
  destruct (decide (r = r')) as [<-|Hne].
  - rw lookup_insert_eq lookup_alter_eq lookup_insert_eq /= Hf. f_equal.
    rw Hl in Hfl. rw /set_rlock /=. destruct (f g); cbn in *. by rw Hfl.
  - rw lookup_insert_ne // lookup_alter_ne // lookup_insert_ne // lookup_alter_ne //.
Qed.


(** *** Allocation *)

(** What a successful allocation of [2^o] pages of region [r] at [p] means:
    these pages were free and are now one allocated block; every other page and
    every block allocated before keep their status. *)
Record allocates (B B' : gmap Z blk) (r o p : Z) : Prop := {
  al_aligned : p mod 2 ^ o = 0;
  al_was_free : ∀ q, p ≤ q < p + 2 ^ o → free_page B r q;
  al_blocks : allocated B' = <[p := mk_blk r o true]> (allocated B);
  al_fresh : allocated B !! p = None;
  al_free : ∀ r' q, free_page B' r' q ↔ free_page B r' q ∧ ¬ p ≤ q < p + 2 ^ o
}.

(** No free block of region [r] has at least [2^o] pages. *)
Definition no_free_block (B : gmap Z blk) (r o : Z) : Prop :=
  ∀ p b, B !! p = Some b → b_region b = r → b_alloc b = false → b_order b < o.

Lemma no_free_lists s L B r o : pinv s L B → (∀ o', o ≤ o' → L (r, o') = []) → no_free_block B r o.
Proof.
  intros Hi Hempty p [r' o' a] Hp; cbn. intros -> ->. destruct (Z.lt_ge_cases o' o); [done|].
  apply (bi_free _ _ _ _ _ _ Hi) in Hp. rw Hempty // in Hp. by apply elem_of_nil in Hp.
Qed.

(** Marking a free block as allocated, on partitions. *)
Lemma allocates_mark lo hi N B B1 r o p : dinv lo hi N B1 → page_equiv B B1 →
  B1 !! p = Some (mk_blk r o false) →
  allocates B (<[p := mk_blk r o true]> B1) r o p ∧
  free_sum r (<[p := mk_blk r o true]> B1) = free_sum r B - 2 ^ o ∧
  (∀ r', r' ≠ r → free_sum r' (<[p := mk_blk r o true]> B1) = free_sum r' B) ∧
  alloc_sum (<[p := mk_blk r o true]> B1) = alloc_sum B + 2 ^ o.
Proof.
  intros Hd Hpe Hp. destruct (dinv_aligned _ _ _ _ _ _ Hd Hp) as [Ho Hal]; cbn in Ho, Hal.
  pose proof (page_equiv_allocated _ _ Hpe) as Ea.
  split_and!.
  - split.
    + done.
    + intros q Hq. apply (pe_free _ _ Hpe). by exists p, (mk_blk r o false).
    + by rw Ea allocated_insert.
    + rw Ea. destruct (allocated B1 !! p) as [b|] eqn:E; [|done].
      apply allocated_lookup in E as [E E']. by simplify_eq.
    + intros r' q. rw (pe_free _ _ Hpe). split.
      * intros (x & b & Hx & Hb & Hr & Hc). apply lookup_insert_Some in Hx as [[<- <-]|[Hne Hx]]; [done|].
        split; [by exists x, b|]. intros Hq. apply Hne. symmetry.
        by apply (di_disj _ _ _ _ Hd x b p (mk_blk r o false) q).
      * intros [(x & b & Hx & Hb & Hr & Hc) Hq]. exists x, b. rw lookup_insert_ne; [|done].
        intros <-. simplify_eq. by apply Hq.
  - rw (free_sum_update _ _ _ _ _ Hp) (pe_sum _ _ Hpe) /free_weight /=.
    rw decide_True // decide_False; [by intros []|]. lia.
  - intros r' Hne. rw (free_sum_update _ _ _ _ _ Hp) (pe_sum _ _ Hpe) /free_weight /=.
    rw !decide_False; [naive_solver..|]. lia.
  - rw alloc_sum_insert //; [|by rw /alloc_sum Ea]. intros b' Hb'. by simplify_eq.
Qed.

(** The last part of [palloc_region], on list heads and nodes. *)
Lemma binv_take lo hi N H L B r o p xs hd n : binv lo hi N H L B →
  H !! (r, o) = Some hd → N !! p = Some n → L (r, o) = p :: xs →
  binv lo hi (<[p := set_link false 0 (set_alloc true n)]> N)
    (<[(r, o) := set_link (has_next n) (next n) hd]> H) (upd_list L (r, o) xs)
    (<[p := mk_blk r o true]> B).
Proof.
  intros Hi Hhd Hn HL. pose proof Hi as [Hlo Hb Hh Hdi Hde Hf].
  assert (B !! p = Some (mk_blk r o false)) as Hp by (apply Hf; rw HL; by left).
  pose proof (di_blk _ _ _ _ Hdi _ _ Hp) as (_ & _ & _ & _ & _ & Hd).
  rw (data_at_lookup _ _ _ Hn) /node_data /= in Hd. injection Hd as E1 E2 E3 E4.
  pose proof (unlisted_popped _ _ _ _ _ _ _ _ _ Hi HL) as Hu.
  split; [done..| | | |].
  - intros r' o' ??. apply heads_insert. by apply Hh.
  - eapply dinv_set_alloc; [exact Hdi|exact Hp|..].
    + intros q Hq. rw data_at_insert decide_False //. congruence.
    + rw data_at_insert decide_True // /node_data /=. congruence.
  - apply desc_write; [|done]. by apply (desc_pop _ _ _ _ _ _ p n).
  - intros r' o' q. rw lookup_insert_Some. split.
    + intros Hq. right. split; [intros <-; by apply (Hu (r', o'))|]. apply Hf.
      rw /upd_list in Hq. case_decide as E; [|done]. injection E as -> ->. rw HL. by right.
    + intros [[_ ?]|[Hne Hq]]; [done|]. apply Hf in Hq. rw /upd_list. case_decide as E; [|done].
      injection E as -> ->. rw HL in Hq. by apply elem_of_cons in Hq as [->|Hq].
Qed.

(** The pages of a region stay counted after taking or giving back a block. *)
Lemma palloc_inv_settle s B B' L' N H r k g : palloc_inv s B →
  pinv (put N H s) L' B' → regions s !! r = Some g → 0 ≤ r < MAX_PALLOC_REGION_COUNT →
  free_sum r B' = free_sum r B + k →
  (∀ r', r' ≠ r → free_sum r' B' = free_sum r' B) → alloc_sum B' = alloc_sum B - k →
  coalesced B' →
  palloc_inv (settle N H r (add_avail k g) (u64 (num_pages_alloc s - k)) s) B'.
Proof.
  intros [_ Hrg Hreg Hcnt Hst Hal _] Hi Hg Hr Hs Hs' Ha Hc.
  pose proof (bi_dinv _ _ _ _ _ _ Hi) as Hd. pose proof (bi_bound _ _ _ _ _ _ Hi) as [Hb1 Hb2].
  pose proof (bi_lo _ _ _ _ _ _ Hi) as Hlo. cbn in Hd, Hb1, Hb2, Hlo.
  pose proof (alloc_sum_bound _ _ _ _ Hd Hrg). pose proof (free_sum_bound _ _ _ _ r Hd Hrg).
  pose proof (free_sum_nonneg r B'). pose proof page_bits_range.
  assert (pfn_limit s < 2 ^ ARCH_WIDTH).
  { eapply Z.le_lt_trans; [exact Hb1|]. apply Z.pow_lt_mono_r; arch_lia. }
  assert (pfn_limit s < 2 ^ 64).
  { eapply Z.lt_le_trans; [eassumption|]. apply Z.pow_le_mono_r; arch_lia. }
  destruct (Hreg r Hr) as (g0 & Hg0 & Hl & Hav). simplify_eq.
  split; try done.
  - exists L'. exact Hi.
  - intros r' Hr'. cbn. destruct (decide (r = r')) as [<-|Hne].
    + rw lookup_insert_eq. eexists. split_and!; [done..|]. cbn. rw Hav wrap_small; [split; lia|]. lia.
    + rw lookup_insert_ne //. rw Hs'; [congruence|]. by apply Hreg.
  - cbn. rw Hal wrap_small; [split; lia|]. lia.
Qed.

Lemma coalesced_mark B p b : coalesced_except B (Some p) → b_alloc b = true →
  coalesced (<[p := b]> B).
Proof.
  intros Hc Hb q r o Ho _ _.
  rw lookup_insert_Some. intros [[_ ->]|[Hne Hq]]; [done|].
  rw lookup_insert_Some. intros [[_ ->]|[Hne2 Hq2]]; [done|].
  by apply (Hc q r o Ho); [congruence..|].
Qed.

(** The part of [palloc_region] after the block is known to be there. *)
Lemma wp_take_block s B N H L1 B1 r o g p xs (Q : Z → palloc_state → Prop) :
  palloc_inv s B → regions s !! r = Some g → 0 ≤ r < MAX_PALLOC_REGION_COUNT →
  0 ≤ o ≤ PALLOC_MAX_ORDER →
  pinv (put N H s) L1 B1 → page_equiv B B1 → L1 (r, o) = p :: xs →
  (coalesced B → coalesced_except B1 (Some p)) →
  (∀ s' B', palloc_inv s' B' → same_setup s s' → allocates B B' r o p → Q p s') →
  wp (hd ← read_buddy r o;
      let pfn := next hd in
      node ← get_node_by_pfn pfn;
      n ← read_node node;
      write_buddy r o (set_link (has_next n) (next n));;
      write_node node (λ n, set_link false 0 (set_alloc true n));;
      write_region r (sub_avail (2 ^ o));;
      spinlock_unlock_int (region_lock r);;
      spinlock_exclusive_int page_stats_lock
        (modify (λ s, set_num_pages (num_pages_total s) (u64 (num_pages_alloc s + 2 ^ o)) s));;
      mret pfn) Q (put N H (locked_state (region_lock r) s)).
Proof.
  intros Hpi Hg Hr Ho Hi Hpe HL Hco HQ. pose proof (pi_region _ _ Hpi r Hr) as (g' & Hg' & Hl & Hav).
  simplify_eq.
  assert (p ∈ L1 (r, o)) as Hp by (rw HL; by left).
  pose proof (binv_listed _ _ _ _ _ _ _ _ _ Hi Hp) as (_ & _ & Hp1 & Hp2 & Hpal & _). cbn in Hp1, Hp2, Hpal.
  destruct (bi_heads _ _ _ _ _ _ Hi r o Hr Ho) as [hd Hhd]. cbn in Hhd.
  pose proof (desc_head_empty _ _ _ _ _ _ (bi_desc _ _ _ _ _ _ Hi) Hhd) as Hne.
  rw HL in Hne. destruct (has_next hd); [|by destruct Hne].
  destruct Hne as (x & xs' & n & [= <- <-] & Hnx & Hn). cbn in Hn.
  assert (B1 !! p = Some (mk_blk r o false)) as HB by (by apply (bi_free _ _ _ _ _ _ Hi)).
  destruct (allocates_mark _ _ _ B B1 r o p (bi_dinv _ _ _ _ _ _ Hi) Hpe HB) as (Hal & Hfs & Hfs' & Has).
  assert (0 < 2 ^ o) by lia.
  wp_step. eapply wp_read_buddy; [exact Hhd|]. cbv zeta. rw Hnx.
  wp_step. apply wp_get_node; [cbn; lia|]. wp_step. eapply wp_read_node; [exact Hn|].
  wp_step. eapply wp_write_buddy; [exact Hhd|].
  wp_step. eapply wp_write_node; [exact Hn|].
  wp_step. eapply wp_write_region; [cbn; rw lookup_alter_eq Hg /=; reflexivity|].
  apply (wp_release r (sub_avail (2 ^ o)) (λ a, u64 (a + 2 ^ o)) p g s
    (<[p := set_link false 0 (set_alloc true n)]> N)
    (<[(r, o) := set_link (has_next n) (next n) hd]> H)); try done; [apply Hpi|].
  apply (HQ _ (<[p := mk_blk r o true]> B1)); [|eapply settle_setup; [exact Hg|done]|done].
  pose proof (palloc_inv_settle s B (<[p := mk_blk r o true]> B1) (upd_list L1 (r, o) xs)
    (<[p := set_link false 0 (set_alloc true n)]> N)
    (<[(r, o) := set_link (has_next n) (next n) hd]> H) r (- 2 ^ o) g Hpi) as Hset.
  replace (num_pages_alloc s - - 2 ^ o) with (num_pages_alloc s + 2 ^ o) in Hset by lia.
  apply Hset; try done; try lia.
  - exact (binv_take _ _ _ _ _ _ _ _ _ _ _ _ Hi Hhd Hn HL).
  - apply coalesced_mark; [|done]. apply Hco, Hpi.
Qed.

(** [palloc_region] returns a block of the requested order, or 0 with nothing
    changed when the region has no free block that is large enough or the
    request is of the highest order. *)
Lemma wp_palloc_region s B count r : palloc_inv s B → 0 ≤ r < MAX_PALLOC_REGION_COUNT →
  0 < count ≤ 2 ^ 15 →
  wp (palloc_region_ count r) (λ pfn s', let o := Z.log2_up count in
    (pfn = 0 ∧ s' = s ∧ (o = PALLOC_MAX_ORDER ∨ no_free_block B r o)) ∨
    (o < PALLOC_MAX_ORDER ∧ ¬ no_free_block B r o ∧
     ∃ B', palloc_inv s' B' ∧ same_setup s s' ∧ allocates B B' r o pfn)) s.
Proof.
  intros Hpi Hr Hc. pose proof (pi_lists _ _ Hpi) as [L Hi].
  pose proof (pi_region _ _ Hpi r Hr) as (g & Hg & Hl & Hav).
  rw /palloc_region_. wp_step. eapply wp_lift; [rw calc_order_value; [lia|]; rw (proj2 (Z.leb_le _ _)); [lia|reflexivity]|].
  set (o := Z.log2_up count). assert (0 ≤ o ≤ 15).
  { split; [apply Z.log2_up_nonneg|]. apply Z.log2_up_le_pow2; lia. }
  cbv zeta. rw Z.shiftl_1_l. wp_step. eapply wp_read_region; [exact Hg|].
  destruct (Z.ltb_spec (avail_pages g) (2 ^ o)) as [Hlt|Hge].
  { wp_step. left. split_and!; [done..|]. right. intros p [r' o' a] Hp; cbn; intros -> ->.
    pose proof (free_sum_block r B p _ Hp) as Hw. rw /free_weight decide_True //= in Hw.
    apply (Z.pow_lt_mono_r_iff 2); lia. }
  destruct (Z.eqb_spec o PALLOC_MAX_ORDER) as [Emax|Hmax]; [wp_step; left; auto|].
  change PALLOC_MAX_ORDER with 15 in *.
  wp_step. eapply (wp_spinlock_lock_int (region_lock r)); [cbn; by rw Hg|by rw Hl|].
  destruct (bi_heads _ _ _ _ _ _ Hi r o Hr ltac:(done)) as [hd Hhd].
  wp_step. eapply wp_read_buddy; [exact Hhd|].
  pose proof (desc_head_empty _ _ _ _ _ _ (bi_desc _ _ _ _ _ _ Hi) Hhd) as Hne.
  wp_step. destruct (has_next hd).
  - (* the list is not empty *)
    destruct Hne as (p & xs & n & HL & _). wp_step. cbn [Z.eqb].
    rw -(put_id (locked_state (region_lock r) s)).
    eapply (wp_take_block s B (nodes s) (buddies s) L B r o g p xs); try done.
    { intros; by apply coalesced_weaken. }
    intros s' B' Hpi' Hss Hal. right. split_and!; [lia| |eauto].
    intros Hno. specialize (Hno p (mk_blk r o false)). cbn in Hno.
    rw (proj1 (bi_free _ _ _ _ _ _ Hi r o p)) in Hno; [rw HL; by left|]. specialize (Hno eq_refl eq_refl eq_refl). lia.
  - destruct Hne as [HL _].
    eapply wp_mono; [apply (wp_buddy_split BUDDY_FUEL (o + 1) r (locked_state (region_lock r) s) L B); [exact Hi|done|..];
      change PALLOC_MAX_ORDER with 15; rw /BUDDY_FUEL; lia|].
    intros res s1 [(-> & -> & Hempty)|(-> & (N' & H' & L' & B' & x & xs & -> & Hi' & Hpe & HL' & Hco) & o' & Ho' & Hne')].
    + cbn [Z.eqb Pos.eqb]. wp_step. eapply (wp_spinlock_unlock_int (region_lock r)).
      { apply lk_get_locked_state; [apply region_lock_laws|]. cbn. by rw Hg. } { done. }
      wp_step. left. split; [done|]. split.
      * apply (unlock_locked_state (region_lock r)). cbn. by rw Hg /= Hl.
      * right. eapply no_free_lists; [exact Hi|]. intros o' Ho'.
        destruct (decide (o' = o)) as [->|]; [done|]. apply Hempty. lia.
    + cbn [Z.eqb]. replace (o + 1 - 1) with o in HL' by lia.
      eapply (wp_take_block s B N' H' L' B' r o g x xs); try done.
      intros s' B2 Hpi' Hss Hal. right. split_and!; [lia| |eauto].
      destruct (L (r, o')) as [|y ys] eqn:HLo; [done|]. intros Hno.
      specialize (Hno y (mk_blk r o' false)). cbn in Hno.
      rw (proj1 (bi_free _ _ _ _ _ _ Hi r o' y)) in Hno; [rw HLo; by left|]. specialize (Hno eq_refl eq_refl eq_refl). lia.
Qed.

(** *** Release *)

(** What releasing the block at [p] means. *)
Record releases (B B' : gmap Z blk) (r o p : Z) : Prop := {
  re_blocks : allocated B' = delete p (allocated B);
  re_free : ∀ r' q, free_page B' r' q ↔ free_page B r' q ∨ (r' = r ∧ p ≤ q < p + 2 ^ o)
}.

(** Marking an allocated block as free, on partitions. *)
Lemma releases_mark lo hi N B B' r o p : dinv lo hi N B → B !! p = Some (mk_blk r o true) →
  page_equiv (<[p := mk_blk r o false]> B) B' →
  releases B B' r o p ∧ free_sum r B' = free_sum r B + 2 ^ o ∧
  (∀ r', r' ≠ r → free_sum r' B' = free_sum r' B) ∧ alloc_sum B' = alloc_sum B - 2 ^ o.
Proof.
  intros Hd Hp Hpe. pose proof (page_equiv_allocated _ _ Hpe) as Ea. split_and!.
  - split.
    + by rw -Ea allocated_free.
    + intros r' q. rw -(pe_free _ _ Hpe). split.
      * intros (x & b & Hx & Hb & Hr & Hc). apply lookup_insert_Some in Hx as [[<- <-]|[Hne Hx]].
        -- right. by cbn in Hr.
        -- left. by exists x, b.
      * intros [(x & b & Hx & Hb & Hr & Hc)|[-> Hq]].
        -- exists x, b. rw lookup_insert_ne; [|done]. intros <-. by simplify_eq.
        -- exists p, (mk_blk r o false). by rw lookup_insert_eq.
  - rw -(pe_sum _ _ Hpe) (free_sum_update _ _ _ _ _ Hp) /free_weight /=.
    rw decide_False; [by intros []|]. rw decide_True //. lia.
  - intros r' Hne. rw -(pe_sum _ _ Hpe) (free_sum_update _ _ _ _ _ Hp) /free_weight /=.
    rw !decide_False; [naive_solver..|]. lia.
  - rw -(alloc_sum_free B p (mk_blk r o true) (mk_blk r o false)) //. by rw /alloc_sum Ea.
Qed.

(** The first part of [pfree], on list heads and nodes. *)
Lemma binv_give lo hi N H L B r o p hd n : binv lo hi N H L B →
  H !! (r, o) = Some hd → N !! p = Some n → B !! p = Some (mk_blk r o true) →
  binv lo hi (<[p := set_link (has_next hd) (next hd) (set_alloc false n)]> N)
    (<[(r, o) := set_link true p hd]> H) (upd_list L (r, o) (p :: L (r, o)))
    (<[p := mk_blk r o false]> B).
Proof.
  intros Hi Hhd Hn Hp. pose proof Hi as [Hlo Hb Hh Hdi Hde Hf].
  pose proof (di_blk _ _ _ _ Hdi _ _ Hp) as (_ & ? & Hp1 & Hp2 & _ & Hd). cbn in *.
  rw (data_at_lookup _ _ _ Hn) /node_data /= in Hd. injection Hd as E1 E2 E3 E4.
  assert (unlisted L p) as Hu by (eapply binv_unlisted; [exact Hi|]; intros; by rw Hp).
  assert (0 < 2 ^ o) by lia.
  split; [done..| | | |].
  - intros r' o' ??. apply heads_insert. by apply Hh.
  - eapply dinv_set_alloc; [exact Hdi|exact Hp|..].
    + intros q Hq. rw data_at_insert decide_False //. congruence.
    + rw data_at_insert decide_True // /node_data /=. congruence.
  - pose proof (desc_push hi (<[p := set_alloc false n]> N) H L (r, o) hd p (set_alloc false n)) as Hps.
    rw insert_insert_eq in Hps. apply Hps; try done; [|apply lookup_insert_eq|lia].
    by apply desc_write.
  - intros r' o' q. rw lookup_insert_Some /upd_list. case_decide as E.
    + injection E as -> ->. rw elem_of_cons Hf. split; [intros [->|Hq]; [by left|]|naive_solver].
      right. split; [|done]. intros <-. congruence.
    + rw Hf. split; [intros Hq; right; split; [intros <-; congruence|done]|].
      intros [[_ [= <- <-]]|[_ ?]]; [done|done].
Qed.

(** The head of a list is the zero word exactly when the list is empty. *)
Lemma head_value s L B r o hd : pinv s L B → buddies s !! (r, o) = Some hd →
  ctrue (node_value hd) = has_next hd ∧ (has_next hd = false → next hd = 0).
Proof.
  intros Hi Hhd. pose proof (bi_desc _ _ _ _ _ _ Hi) as Hde.
  destruct (de_chain _ _ _ _ Hde _ _ Hhd) as [(E1 & E2 & E3 & E4) Hch].
  rw /node_value E1 E2 E3 E4 /ctrue. destruct (L (r, o)) as [|x xs] eqn:HL; cbn in Hch.
  - destruct Hch as [-> ->]. done.
  - destruct Hch as (-> & -> & _). split; [|done].
    pose proof (de_range _ _ _ _ Hde (r, o) x ltac:(rw HL; by left)).
    rw !Z.shiftl_mul_pow2; [lia..|]. apply negb_true_iff, Z.eqb_neq. cbn. lia.
Qed.

Lemma wp_pfree s B p r o : palloc_inv s B → B !! p = Some (mk_blk r o true) →
  wp (pfree p) (λ n s', n = 2 ^ o ∧
    ∃ B', palloc_inv s' B' ∧ same_setup s s' ∧ releases B B' r o p) s.
Proof.
  intros Hpi Hp. pose proof (pi_lists _ _ Hpi) as [L Hi]. pose proof (bi_dinv _ _ _ _ _ _ Hi) as Hdi.
  pose proof (di_blk _ _ _ _ Hdi _ _ Hp) as (Hr & Ho & Hp1 & Hp2 & Hal & Hd). cbn in Hr, Ho, Hp2, Hal, Hd.
  pose proof (pi_region _ _ Hpi r Hr) as (g & Hg & Hl & Hav).
  destruct (nodes s !! p) as [n|] eqn:Hn; [|by rw /data_at Hn in Hd].
  rw (data_at_lookup _ _ _ Hn) /node_data in Hd.
  assert (region n = r ∧ order n = o) as [Er Eo] by (split; congruence).
  assert (0 < 2 ^ o) by lia.
  destruct (bi_heads _ _ _ _ _ _ Hi r o Hr Ho) as [hd Hhd].
  destruct (head_value _ _ _ _ _ _ Hi Hhd) as [Hval Hnext].
  rw /pfree. wp_step. apply wp_get_node; [lia|]. wp_step. eapply wp_read_node; [exact Hn|].
  rw Er Eo Z.shiftl_1_l. cbv zeta.
  wp_step. eapply (wp_spinlock_lock_int (region_lock r)); [cbn; by rw Hg|by rw Hl|].
  wp_step. eapply wp_write_node; [exact Hn|]. wp_step. eapply wp_read_buddy; [exact Hhd|].
  wp_step. rw Hval.
  apply wp_mono with (Q := λ _ s', s' = put (<[p := set_link (has_next hd) (next hd) (set_alloc false n)]> (nodes s))
    (buddies s) (locked_state (region_lock r) s)).
  { destruct (has_next hd); [|rw (Hnext eq_refl)];
      (eapply wp_write_node; [cbn; apply lookup_insert_eq|]; by rw /= put_put insert_insert_eq). }
  intros _ s1 ->. wp_step. eapply wp_write_buddy; [exact Hhd|].
  wp_step. eapply wp_write_region; [cbn; rw lookup_alter_eq Hg /=; reflexivity|].
  pose proof (binv_give _ _ _ _ _ _ _ _ _ _ _ Hi Hhd Hn Hp) as Hi1.
  wp_step. eapply wp_mono.
  { eapply (wp_buddy_combine BUDDY_FUEL _ _ _ r o p); [exact Hi1|apply lookup_insert_eq|].
    rw /BUDDY_FUEL. change PALLOC_MAX_ORDER with 15 in *. lia. }
  intros _ s2 (N' & H' & L' & B' & -> & Hi' & Hpe & Hco).
  destruct (releases_mark _ _ _ B B' r o p Hdi Hp Hpe) as (Hre & Hfs & Hfs' & Has).
  eapply (wp_release r (add_avail (2 ^ o)) (λ a, u64 (a - 2 ^ o)) (2 ^ o) g s N' H'); try done; [apply Hpi|].
  split; [done|]. exists B'. split_and!; [|eapply settle_setup; [exact Hg|done]|done].
  eapply (palloc_inv_settle s B B' L'); try done.
  apply Hco. intros q r' o' Ho' Hq1 Hq2. rw !lookup_insert_ne; [congruence..|].
  by apply (pi_coal _ _ Hpi).
Qed.

(** *** Search over the regions *)

(** Nothing in the regions from [lo] to [hi - 1] that satisfy [P] can serve
    a request of order [o]. *)
Definition exhausted (s : palloc_state) (B : gmap Z blk) (P : palloc_region → bool) (o lo hi : Z) : Prop :=
  ∀ r g, lo ≤ r < hi → regions s !! r = Some g → P g = true →
    o = PALLOC_MAX_ORDER ∨ no_free_block B r o.

(** A request of [count] pages is served by some region that satisfies [P]. *)
Definition served (s : palloc_state) (B : gmap Z blk) (P : palloc_region → bool) (o pfn : Z)
    (s' : palloc_state) : Prop :=
  ∃ r g B', 0 ≤ r < region_count s ∧ regions s !! r = Some g ∧ P g = true ∧
    o < PALLOC_MAX_ORDER ∧ palloc_inv s' B' ∧ same_setup s s' ∧ allocates B B' r o pfn.

(** Page frame 0, whose number means failure, is in no block.  [init_pfndb]
    marks it as in use, so no region receives it. *)
Definition page0_reserved (B : gmap Z blk) : Prop := ∀ p b, B !! p = Some b → 0 < p.

Lemma page0_free B r q : page0_reserved B → free_page B r q → 0 < q.
Proof. intros H0 (p & b & Hp & _ & _ & Hc). apply H0 in Hp. rw /covers in Hc. lia. Qed.

(** It is not if the managed frames start above it. *)
Lemma page0_start s B : palloc_inv s B → 0 < pfn_start s → page0_reserved B.
Proof.
  intros Hpi Hst p b Hp. destruct (pi_lists _ _ Hpi) as [L Hi].
  destruct (di_blk _ _ _ _ (bi_dinv _ _ _ _ _ _ Hi) _ _ Hp) as (_ & _ & ? & _). lia.
Qed.

Lemma page0_kept s' B' : palloc_inv s' B' →
  (∀ p, is_Some (allocated B' !! p) → 0 < p) →
  (∀ r q, free_page B' r q → 0 < q) → page0_reserved B'.
Proof.
  intros Hpi Hal Hfr p [r o a] Hp. destruct a; [apply Hal; exists (mk_blk r o true); by apply allocated_lookup|].
  apply (Hfr r). exists p, (mk_blk r o false). split_and!; [done..|].
  destruct (pi_lists _ _ Hpi) as [L Hi].
  destruct (dinv_aligned _ _ _ _ _ _ (bi_dinv _ _ _ _ _ _ Hi) Hp) as [Ho _]. rw /covers. cbn in *. lia.
Qed.

Lemma page0_allocates s' B B' r o p : palloc_inv s' B' → page0_reserved B → 0 ≤ o →
  allocates B B' r o p → 0 < p ∧ page0_reserved B'.
Proof.
  intros Hpi H0 Ho Hal.
  assert (0 < p) by (apply (page0_free B r); [done|]; apply (al_was_free _ _ _ _ _ Hal); lia).
  split; [done|]. apply (page0_kept s' B' Hpi).
  - intros q Hq. rw (al_blocks _ _ _ _ _ Hal) lookup_insert_is_Some' in Hq.
    destruct Hq as [<-|[b Hb]]; [done|]. by apply allocated_lookup in Hb as [?%H0 _].
  - intros r' q Hq. apply (al_free _ _ _ _ _ Hal) in Hq as [Hq _]. exact (page0_free B _ q H0 Hq).
Qed.

Lemma page0_releases s' B B' r o p : palloc_inv s' B' → page0_reserved B →
  B !! p = Some (mk_blk r o true) → releases B B' r o p → page0_reserved B'.
Proof.
  intros Hpi H0 Hp Hre. apply (page0_kept s' B' Hpi).
  - intros q Hq. rw (re_blocks _ _ _ _ _ Hre) lookup_delete_is_Some in Hq. destruct Hq as [_ [b Hb]].
    by apply allocated_lookup in Hb as [?%H0 _].
  - intros r' q Hq. apply (re_free _ _ _ _ _ Hre) in Hq as [Hq|[_ Hq]]; [exact (page0_free B _ q H0 Hq)|].
    apply H0 in Hp. lia.
Qed.

Lemma allocates_range s' B B' r o p : palloc_inv s' B' → allocates B B' r o p → pfn_start s' ≤ p.
Proof.
  intros Hpi Hal. pose proof (pi_lists _ _ Hpi) as [L Hi].
  assert (B' !! p = Some (mk_blk r o true)) as Hp.
  { apply (allocated_lookup B' p (mk_blk r o true)). rw (al_blocks _ _ _ _ _ Hal). apply lookup_insert_eq. }
  by destruct (di_blk _ _ _ _ (bi_dinv _ _ _ _ _ _ Hi) _ _ Hp) as (_ & _ & ? & _).
Qed.

Lemma wp_palloc_tag_loop n r s B count mask m : palloc_inv s B → page0_reserved B →
  0 < count ≤ 2 ^ 15 → 0 ≤ r → r + Z.of_nat n = region_count s →
  wp (palloc_tag_loop n r count mask m) (λ pfn s', let o := Z.log2_up count in
    let P g := tags_matched (tags g) mask m in
    (pfn = 0 ∧ s' = s ∧ exhausted s B P o r (region_count s)) ∨
    (pfn ≠ 0 ∧ served s B P o pfn s')) s.
Proof.
  intros Hpi Hst Hc. revert r. induction n as [|n IH]; intros r Hr Hn; cbn [palloc_tag_loop].
  { wp_step. left. split_and!; [done..|]. intros r' g Hr'. lia. }
  pose proof (pi_count _ _ Hpi) as Hcnt.
  destruct (pi_region _ _ Hpi r) as (g & Hg & Hl & Hav); [lia|].
  wp_step. eapply wp_read_region; [exact Hg|]. wp_step.
  assert ((tags_matched (tags g) mask m = true →
      Z.log2_up count = PALLOC_MAX_ORDER ∨ no_free_block B r (Z.log2_up count)) →
    wp (palloc_tag_loop n (r + 1) count mask m) (λ pfn s', let o := Z.log2_up count in
    let P g := tags_matched (tags g) mask m in
    (pfn = 0 ∧ s' = s ∧ exhausted s B P o r (region_count s)) ∨
    (pfn ≠ 0 ∧ served s B P o pfn s')) s) as Hnext.
  { intros Hno. eapply wp_mono; [apply IH; lia|]. cbv zeta. intros pfn s' [(-> & -> & Hex)|?]; [left|by right].
    split_and!; [done..|]. intros r' g' Hr' Hg' HP. destruct (decide (r' = r)) as [->|].
    - simplify_eq. by apply Hno.
    - apply (Hex r' g'); [lia|done..]. }
  destruct (tags_matched (tags g) mask m) eqn:Em.
  - eapply wp_mono; [apply (wp_palloc_region s B count r Hpi); [lia|done]|].
    cbv zeta. intros pfn s' [(-> & -> & Hno)|(Ho & Hyes & B' & Hpi' & Hss & Hal)].
    + cbn. by apply Hnext.
    + assert (pfn ≠ 0) as Hpfn.
      { destruct (page0_allocates _ _ _ _ _ _ Hpi' Hst ltac:(apply Z.log2_up_nonneg) Hal) as [? _]. lia. }
      rw /ctrue (proj2 (Z.eqb_neq _ _)) //=. wp_step. right. split; [done|].
      exists r, g, B'. split_and!; try done; lia.
  - wp_step. cbn. by apply Hnext.
Qed.

Lemma wp_palloc_tag s B count mask m : palloc_inv s B → page0_reserved B →
  0 < count ≤ 2 ^ 15 →
  wp (palloc_tag count mask m) (λ pfn s', let o := Z.log2_up count in
    let P g := tags_matched (tags g) mask m in
    (pfn = 0 ∧ s' = s ∧ exhausted s B P o 0 (region_count s)) ∨
    (pfn ≠ 0 ∧ served s B P o pfn s')) s.
Proof.
  intros Hpi Hst Hc. rw /palloc_tag. wp_step. wp_step. pose proof (pi_count _ _ Hpi).
  apply wp_palloc_tag_loop; try done; lia.
Qed.

(** The regions acceptable to a list of tag rules. *)
Definition accepts (ts : list (alloc_match * Z)) (g : palloc_region) : bool :=
  existsb (λ t, tags_matched (tags g) t.2 t.1) ts.

Lemma wp_palloc_tags_loop s B count ts : palloc_inv s B → page0_reserved B →
  0 < count ≤ 2 ^ 15 →
  wp (palloc_tags_loop count ts) (λ pfn s', let o := Z.log2_up count in
    (pfn = 0 ∧ s' = s ∧ exhausted s B (accepts ts) o 0 (region_count s)) ∨
    (pfn ≠ 0 ∧ served s B (accepts ts) o pfn s')) s.
Proof.
  intros Hpi Hst Hc. induction ts as [|[m mask] ts IH]; cbn [palloc_tags_loop].
  { wp_step. left. split_and!; [done..|]. by intros r g. }
  wp_step. eapply wp_mono; [exact (wp_palloc_tag s B count mask m Hpi Hst Hc)|]. cbv zeta.
  intros pfn s' [(-> & -> & Hex)|(Hpfn & r & g & B' & Hr & Hg & HP & Hrest)].
  - cbn. eapply wp_mono; [exact IH|]. cbv zeta.
    intros pfn s' [(-> & -> & Hex')|(Hpfn & r & g & B' & Hr & Hg & HP & Hrest)].
    + left. split_and!; [done..|]. intros r g Hr Hg HP. cbn in HP.
      apply orb_true_iff in HP as [HP|HP]; [by apply (Hex r g)|by apply (Hex' r g)].
    + right. split; [done|]. exists r, g, B'. do 2 (split; [done|]). split; [apply orb_true_iff; by right|done].
  - rw /ctrue (proj2 (Z.eqb_neq _ _)) //=. wp_step. right. split; [done|].
    exists r, g, B'. do 2 (split; [done|]). split; [apply orb_true_iff; by left|done].
Qed.

Lemma accepts_all g : accepts palloc_tags g = true.
Proof. rw /accepts /palloc_tags existsb_app /=. by rw !orb_true_r. Qed.

(** *** Requests above the largest order *)

Lemma palloc_region_too_large count r s : 2 ^ 15 < count < 2 ^ 31 → palloc_region_ count r s = Panic.
Proof.
  intros Hc. rw /palloc_region_ calc_order_value; [lia|]. by rw (proj2 (Z.leb_gt _ _)); [lia|].
Qed.

Lemma palloc_tag_loop_too_large n r s B count mask m : palloc_inv s B → 2 ^ 15 < count < 2 ^ 31 →
  0 ≤ r → r + Z.of_nat n ≤ region_count s →
  palloc_tag_loop n r count mask m s = Panic ∨
  palloc_tag_loop n r count mask m s = Ret (0, s) ∧ (m = MATCH_IGNORE → n = O).
Proof.
  intros Hpi Hc. revert r. induction n as [|n IH]; intros r Hr Hn; cbn [palloc_tag_loop]; [by right|].
  pose proof (pi_count _ _ Hpi) as Hcnt.
  destruct (pi_region _ _ Hpi r) as (g & Hg & _); [lia|].
  rw /mbind /M_bind /read_region /deref Hg.
  destruct (tags_matched (tags g) mask m) eqn:Em; [rw palloc_region_too_large //; by left|].
  destruct (IH (r + 1)) as [E|[E _]]; [lia..| |]; cbn; [by left|right; split; [done|]].
  by intros ->.
Qed.

Lemma palloc_tags_loop_too_large s B count ts : palloc_inv s B → 2 ^ 15 < count < 2 ^ 31 →
  palloc_tags_loop count ts s = Panic ∨
  palloc_tags_loop count ts s = Ret (0, s) ∧
    (0 < region_count s → ∀ mask, (MATCH_IGNORE, mask) ∉ ts).
Proof.
  intros Hpi Hc. pose proof (pi_count _ _ Hpi). induction ts as [|[m mask] ts IH]; cbn [palloc_tags_loop].
  { right. split; [done|]. intros _ mask. apply not_elem_of_nil. }
  destruct (palloc_tag_loop_too_large (Z.to_nat (region_count s)) 0 s B count mask m Hpi Hc) as [E|[E Hm]]; [lia..| |].
  { left. rw /mbind /M_bind /palloc_tag /gets /mbind /M_bind E. done. }
  destruct IH as [E'|[E' Hts]]; [left|right].
  all: rw /mbind /M_bind /palloc_tag /gets /mbind /M_bind E /= ?E' //.
  split; [done|]. intros Hpos mask'. rw not_elem_of_cons. split; [|by apply Hts].
  intros [= <- _]. specialize (Hm eq_refl). lia.
Qed.

(** A request above the largest order panics as soon as there is a region. *)
Lemma palloc_too_large s B count : palloc_inv s B → 2 ^ 15 < count < 2 ^ 31 →
  palloc count s = if 0 <? region_count s then Panic else Ret (0, s).
Proof.
  intros Hpi Hc. pose proof (pi_count _ _ Hpi).
  destruct (Z.ltb_spec 0 (region_count s)) as [Hpos|Hz].
  - destruct (palloc_tags_loop_too_large s B count palloc_tags Hpi Hc) as [E|[_ Hno]]; [done|].
    destruct (Hno Hpos 0). rw /palloc_tags. set_solver.
  - assert (∀ ts, palloc_tags_loop count ts s = Ret (0, s)) as Hall; [|apply Hall].
    induction ts as [|[m mask] ts IH]; [done|]. cbn [palloc_tags_loop].
    rw /mbind /M_bind /palloc_tag /gets /mbind /M_bind. by replace (Z.to_nat (region_count s)) with O by lia.
Qed.
End Operations.

(** ** Fully merged partitions are determined by their pages *)

Section Canonical.
Context (lo hi : Z).

(** If all pages of an aligned range are free pages of one region of a fully
    merged partition, then one free block contains the range: otherwise two
    buddies inside the range would be unmerged. *)
Lemma coalesced_covers N B r (k : nat) c : dinv lo hi N B → coalesced B →
  Z.of_nat k ≤ PALLOC_MAX_ORDER → c mod 2 ^ Z.of_nat k = 0 →
  (∀ q, c ≤ q < c + 2 ^ Z.of_nat k → free_page B r q) →
  ∃ p o, B !! p = Some (mk_blk r o false) ∧ p ≤ c ∧ c + 2 ^ Z.of_nat k ≤ p + 2 ^ o ∧ Z.of_nat k ≤ o.
Proof.
  intros Hd Hco. revert c. induction k as [|k IH]; intros c Hk Hc Hfree.
  { destruct (Hfree c ltac:(cbn; lia)) as (p & [r' o a] & Hp & Ha & Hr & Hcv). cbn in *. subst.
    destruct (dinv_aligned _ _ _ _ _ _ Hd Hp) as [? _]. cbn in *. rw /covers /= in Hcv.
    exists p, o. split_and!; try done; lia. }
  rw Nat2Z.inj_succ in Hk Hc Hfree *. set (j := Z.of_nat k) in *. assert (0 ≤ j) by lia.
  assert (2 ^ Z.succ j = 2 ^ j + 2 ^ j) as E by (rw Z.pow_succ_r; lia). assert (0 < 2 ^ j) by lia.
  assert (c mod 2 ^ j = 0) as Hcj by (apply mod_pow2_weaken; [lia|done]).
  destruct (IH c ltac:(lia) Hcj) as (p1 & o1 & Hp1 & Hle1 & Hge1 & Ho1); [intros; apply Hfree; lia|].
  destruct (IH (c + 2 ^ j) ltac:(lia)) as (p2 & o2 & Hp2 & Hle2 & Hge2 & Ho2).
  { by apply mod_add_pow2. } { intros; apply Hfree; lia. }
  destruct (dinv_aligned _ _ _ _ _ _ Hd Hp1) as [_ Hal1]. destruct (dinv_aligned _ _ _ _ _ _ Hd Hp2) as [_ Hal2].
  cbn in Hal1, Hal2.
  (* a larger block around one half contains both halves *)
  assert (∀ p o x, p mod 2 ^ o = 0 → p ≤ x < p + 2 ^ o → c ≤ x < c + 2 ^ Z.succ j → Z.succ j ≤ o →
    p ≤ c ∧ c + 2 ^ Z.succ j ≤ p + 2 ^ o) as Hbig.
  { intros p o x Hal Hx Hx' Ho.
    assert (∀ y, c ≤ y < c + 2 ^ Z.succ j → p ≤ y < p + 2 ^ o) as Hin
      by (intros y; by apply (aligned_nested c (Z.succ j) p o x y); try lia).
    pose proof (Hin c ltac:(lia)). pose proof (Hin (c + 2 ^ Z.succ j - 1) ltac:(lia)). lia. }
  destruct (Z.le_gt_cases (Z.succ j) o1) as [Hb1|Hs1].
  { exists p1, o1. destruct (Hbig p1 o1 c Hal1); [lia..|]. auto. }
  destruct (Z.le_gt_cases (Z.succ j) o2) as [Hb2|Hs2].
  { exists p2, o2. destruct (Hbig p2 o2 (c + 2 ^ j) Hal2); [lia..|]. auto. }
  assert (o1 = j) as -> by lia. assert (o2 = j) as -> by lia.
  assert (p1 = c) as -> by lia. assert (p2 = c + 2 ^ j) as -> by lia.
  exfalso. apply (Hco c r j); [lia|done|done|done|]. rw /buddy_of decide_True //.
Qed.

Lemma coalesced_unique_half N N' B B' p r o : dinv lo hi N B → dinv lo hi N' B' →
  coalesced B → coalesced B' → (∀ r q, free_page B r q ↔ free_page B' r q) →
  B !! p = Some (mk_blk r o false) → B' !! p = Some (mk_blk r o false).
Proof.
  intros Hd Hd' Hc Hc' Hf Hp.
  pose proof (di_blk _ _ _ _ Hd _ _ Hp) as (_ & Ho & _ & _ & Hal & _). cbn in Ho, Hal.
  assert (0 < 2 ^ o) by lia.
  destruct (coalesced_covers N' B' r (Z.to_nat o) p Hd' Hc') as (p' & o' & Hp' & Hle & Hge & Hoo).
  { lia. } { by rw Z2Nat.id; [lia|]. }
  { rw Z2Nat.id; [lia|]. intros q Hq. apply Hf. by exists p, (mk_blk r o false). }
  rw Z2Nat.id in Hge Hoo; [lia..|].
  pose proof (di_blk _ _ _ _ Hd' _ _ Hp') as (_ & Ho' & _ & _ & Hal' & _). cbn in Ho', Hal'.
  destruct (coalesced_covers N B r (Z.to_nat o') p' Hd Hc) as (p2 & o2 & Hp2 & Hle2 & Hge2 & Hoo2).
  { lia. } { by rw Z2Nat.id; [lia|]. }
  { rw Z2Nat.id; [lia|]. intros q Hq. apply Hf. by exists p', (mk_blk r o' false). }
  rw Z2Nat.id in Hge2 Hoo2; [lia..|].
  destruct (dinv_same _ _ _ _ p2 _ p _ p Hd Hp2 Hp) as [-> [= ->]]; [rw /covers /=; lia..|].
  assert (o' = o) as -> by lia. assert (p' = p) as -> by lia. done.
Qed.

(** Two fully merged partitions with the same allocated blocks and the same
    free pages are equal. *)
Lemma coalesced_unique N N' B B' : dinv lo hi N B → dinv lo hi N' B' →
  coalesced B → coalesced B' → allocated B = allocated B' →
  (∀ r q, free_page B r q ↔ free_page B' r q) → B = B'.
Proof.
  intros Hd Hd' Hc Hc' Ha Hf. apply map_eq. intros p. apply option_eq. intros [r o [|]].
  - pose proof (allocated_lookup B p (mk_blk r o true)) as H1.
    pose proof (allocated_lookup B' p (mk_blk r o true)) as H2. rw Ha in H1. naive_solver.
  - split; intros Hp.
    + by apply (coalesced_unique_half N N' B B').
    + apply (coalesced_unique_half N' N B' B); try done. intros; by rw Hf.
Qed.

End Canonical.

(** ** Building a region *)

(** The block of order [o] at [p] could not have been larger. *)
Definition largest_at (p o limit : Z) : Prop :=
  o = PALLOC_MAX_ORDER ∨ p mod 2 ^ (o + 1) ≠ 0 ∨ limit < p + 2 ^ (o + 1).

(** [B'] is [B] with the pages from [lo] to [hi - 1] added as free pages of
    region [r], cut into the largest blocks possible. *)
Record adds (B B' : gmap Z blk) (r lo hi : Z) : Prop := {
  ad_alloc : allocated B' = allocated B;
  ad_free : ∀ r' q, free_page B' r' q ↔ free_page B r' q ∨ (r' = r ∧ lo ≤ q < hi);
  ad_sum : free_sum r B' = free_sum r B + (hi - lo);
  ad_sum' : ∀ r', r' ≠ r → free_sum r' B' = free_sum r' B;
  ad_blocks : ∀ p b, B' !! p = Some b → B !! p = Some b ∨
    (b_region b = r ∧ lo ≤ p ∧ p + 2 ^ b_order b ≤ hi ∧ largest_at p (b_order b) hi)
}.

(** No block of [B] has a page from [lo] to [hi - 1]. *)
Definition vacant (B : gmap Z blk) (lo hi : Z) : Prop :=
  ∀ p b q, B !! p = Some b → covers p b q → ¬ lo ≤ q < hi.

Section InitRegion.
Context `{HA : Arch}.

Lemma adds_refl B r x : adds B B r x x.
Proof. split; try done; [|lia|auto]. intros r' q. split; [auto|]. intros [|[_ ?]]; [done|lia]. Qed.

Lemma adds_block B B' r p o hi : 0 ≤ o → B !! p = None → p + 2 ^ o ≤ hi → largest_at p o hi →
  adds (<[p := mk_blk r o false]> B) B' r (p + 2 ^ o) hi → adds B B' r p hi.
Proof.
  intros Ho Hp Hle Hlg [Ha Hf Hs Hs' Hb]. assert (0 < 2 ^ o) by lia.
  split.
  - rw Ha allocated_free // delete_id //. rw /allocated map_lookup_filter_None. auto.
  - intros r' q. rw Hf. split.
    + intros [(x & b & Hx & Hal & Hr & Hc)|[-> Hq]]; [|right; split; [done|lia]].
      apply lookup_insert_Some in Hx as [[<- <-]|[Hne Hx]].
      * right. rw /covers /= in Hc. cbn in Hr. split; [done|lia].
      * left. by exists x, b.
    + intros [(x & b & Hx & Hal & Hr & Hc)|[-> Hq]].
      * left. exists x, b. rw lookup_insert_ne; [congruence|done].
      * destruct (Z.lt_ge_cases q (p + 2 ^ o)); [|right; split; [done|lia]].
        left. exists p, (mk_blk r o false). rw lookup_insert_eq. split_and!; try done. rw /covers /=. lia.
  - rw Hs free_sum_insert // /free_weight decide_True //=. lia.
  - intros r' Hne. rw Hs' // free_sum_insert // /free_weight decide_False /=; [naive_solver|lia].
  - intros q b Hq. destruct (Hb q b Hq) as [Hq'|(?&?&?&?)].
    + apply lookup_insert_Some in Hq' as [[<- <-]|[_ Hq']]; [|by left]. right. cbn. split_and!; try done; lia.
    + right. split_and!; try done; lia.
Qed.

(** Adding a block on unused pages. *)
Lemma dinv_new lo hi N N' B p r o : dinv lo hi N B →
  0 ≤ r < MAX_PALLOC_REGION_COUNT → 0 ≤ o ≤ PALLOC_MAX_ORDER →
  lo ≤ p → p + 2 ^ o ≤ hi → p mod 2 ^ o = 0 → vacant B p (p + 2 ^ o) →
  (∀ q, q ≠ p → data_at N' q = data_at N q) → data_at N' p = Some (o, r, false, true) →
  dinv lo hi N' (<[p := mk_blk r o false]> B).
Proof.
  intros [Hdom Hb Hj Hc] Hr Ho Hp1 Hp2 Hal Hv Hf Hd. assert (0 < 2 ^ o) by lia. split.
  - intros q Hq. enough (is_Some (data_at N' q)) as [d Hd'].
    { rw /data_at in Hd'. destruct (N' !! q); [eauto|done]. }
    destruct (decide (q = p)) as [->|]; [eauto|]. rw Hf //.
    destruct (Hdom q Hq) as [m Hm]. rw /data_at Hm. eauto.
  - intros q b. rw lookup_insert_Some. intros [[<- <-]|[Hne Hq]].
    + rw /blk_ok /=. split_and!; try lia. done.
    + destruct (Hb _ _ Hq) as (?&?&?&?&?&?). rw /blk_ok. split_and!; try lia. rw Hf //. congruence.
  - intros p1 b1 p2 b2 q. rw !lookup_insert_Some.
    intros [[<- <-]|[? H1]] [[<- <-]|[? H2]] Hc1 Hc2; [done|..].
    + by destruct (Hv p2 b2 q H2 Hc2).
    + by destruct (Hv p1 b1 q H1 Hc1).
    + by apply (Hj p1 b1 p2 b2 q).
  - intros q o' r' a Hq Hq'. destruct (decide (q = p)) as [->|Hne].
    + exists p, (mk_blk r o false). rw lookup_insert_eq. simplify_eq. split_and!; [done| |done].
      apply covers_start. cbn. lia.
    + rw Hf // in Hq'. destruct (Hc _ _ _ _ Hq Hq') as (p1 & b1 & H1 & H2 & H3).
      exists p1, b1. rw lookup_insert_ne //. intros <-.
      destruct (Hb _ _ H1) as (_ & ? & _). apply (Hv p b1 p H1); [apply covers_start; lia|lia].
Qed.

(** The search for the order of the next block finds the largest one. *)
Lemma find_order_spec n cur limit hi : pfn_bound hi → 0 ≤ cur < limit → limit ≤ hi →
  Z.of_nat n ≤ PALLOC_MAX_ORDER →
  (Z.of_nat n = PALLOC_MAX_ORDER ∨ cur mod 2 ^ (Z.of_nat n + 1) ≠ 0 ∨ limit < cur + 2 ^ (Z.of_nat n + 1)) →
  ∃ o, find_order n cur limit = Some o ∧ 0 ≤ o ≤ Z.of_nat n ∧ cur mod 2 ^ o = 0 ∧
    cur + 2 ^ o ≤ limit ∧ largest_at cur o limit.
Proof.
  intros Hb Hcur Hle Hn. change PALLOC_MAX_ORDER with 15 in *.
  assert (∀ o, 0 ≤ o ≤ 15 → ((pfn_mod_order_page_count cur (Z.shiftl 1 o) =? 0) &&
    (wrap PADDR_WIDTH (cur + Z.shiftl 1 o) <=? limit)) = true ↔ cur mod 2 ^ o = 0 ∧ cur + 2 ^ o ≤ limit) as Hiff.
  { intros o Ho. rw Z.shiftl_1_l pfn_mod_pow2; [lia|]. rw wrap_small.
    { apply (pfn_bound_paddr hi); [done|]. assert (2 ^ o ≤ 2 ^ 15) by (apply Z.pow_le_mono_r; lia).
      assert (2 ^ 15 < 2 ^ 16) by done. lia. }
    rw andb_true_iff Z.eqb_eq Z.leb_le. done. }
  induction n as [|n IH]; intros Hlg; cbn [find_order];
    match goal with |- context [if ?c then _ else _] => destruct c eqn:Ec end.
  - apply Hiff in Ec as [??]; [|lia]. eexists. split_and!; try done.
  - exfalso. apply not_true_iff_false in Ec. apply Ec, Hiff; [lia|]. cbn. rw Z.mod_1_r. lia.
  - apply Hiff in Ec as [??]; [|lia]. eexists. split_and!; try done; lia.
  - apply not_true_iff_false in Ec. rw Hiff in Ec; [lia|].
    destruct IH as (o & E & ? & ? & ? & ?); [lia| |exists o; split_and!; try done; lia].
    right. rw Nat2Z.inj_succ in Ec. replace (Z.of_nat n + 1) with (Z.succ (Z.of_nat n)) by lia.
    destruct (decide (cur mod 2 ^ Z.succ (Z.of_nat n) = 0)); [right; lia|by left].
Qed.

Lemma vacant_weaken B lo hi lo' hi' : vacant B lo hi → lo ≤ lo' → hi' ≤ hi → vacant B lo' hi'.
Proof. intros Hv ?? p b q Hp Hc Hq. apply (Hv p b q Hp Hc). lia. Qed.

Lemma vacant_None lo hi N B p x y : dinv lo hi N B → vacant B x y → x ≤ p < y → B !! p = None.
Proof.
  intros Hd Hv Hp. destruct (B !! p) as [b|] eqn:E; [|done].
  exfalso. apply (Hv p b p E); [|done]. apply covers_start.
  by apply (dinv_aligned _ _ _ _ _ _ Hd E).
Qed.

(** One more block on the list of its order. *)
Lemma binv_new lo hi N H L B p r o n hd : binv lo hi N H L B →
  0 ≤ r < MAX_PALLOC_REGION_COUNT → 0 ≤ o ≤ PALLOC_MAX_ORDER →
  lo ≤ p → p + 2 ^ o ≤ hi → p mod 2 ^ o = 0 → vacant B p (p + 2 ^ o) →
  N !! p = Some n → H !! (r, o) = Some hd →
  binv lo hi (<[p := set_link (has_next hd) (next hd) (fresh_node o r n)]> N)
    (<[(r, o) := set_link true p hd]> H) (upd_list L (r, o) (p :: L (r, o)))
    (<[p := mk_blk r o false]> B).
Proof.
  intros Hi Hr Ho Hp1 Hp2 Hal Hv Hn Hhd. pose proof Hi as [Hlo Hb Hh Hdi Hde Hf].
  assert (0 < 2 ^ o) by lia.
  assert (B !! p = None) as Hp by (eapply vacant_None; [exact Hdi|exact Hv|lia]).
  pose proof (unlisted_None _ _ _ _ _ _ _ Hi Hp) as Hu.
  split; [done..| | | |].
  - intros r' o' ??. apply heads_insert. by apply Hh.
  - eapply (dinv_new _ _ N); try done.
    + intros q Hq. rw data_at_insert decide_False //. congruence.
    + rw data_at_insert decide_True // /node_data /= wrap_order // wrap_region //.
  - pose proof (desc_push hi (<[p := fresh_node o r n]> N) H L (r, o) hd p (fresh_node o r n)) as Hps.
    rw insert_insert_eq in Hps. apply Hps; try done; [|apply lookup_insert_eq|lia].
    by apply desc_write.
  - intros r' o' q. rw lookup_insert_Some /upd_list. case_decide as E.
    + injection E as -> ->. rw elem_of_cons Hf. split; [intros [->|Hq]; [by left|]|naive_solver].
      right. split; [|done]. intros <-. congruence.
    + rw Hf. split; [intros Hq; right; split; [intros <-; congruence|done]|].
      intros [[_ [= <- <-]]|[_ ?]]; [done|done].
Qed.

Lemma wp_init_region_loop fuel s L B cur limit r : pinv s L B →
  0 ≤ r < MAX_PALLOC_REGION_COUNT → pfn_start s ≤ cur ≤ limit → limit ≤ pfn_limit s →
  limit - cur ≤ Z.of_nat fuel → vacant B cur limit →
  wp (init_region_loop fuel cur limit r) (λ _ s', ∃ N' H' L' B', s' = put N' H' s ∧
    pinv s' L' B' ∧ adds B B' r cur limit) s.
Proof.
  revert s L B cur. induction fuel as [|fuel IH]; intros s L B cur Hi Hr Hcur Hlim Hfuel Hv;
    cbn [init_region_loop]; destruct (Z.ltb_spec cur limit) as [Hlt|Hge].
  - lia.
  - wp_step. exists (nodes s), (buddies s), L, B. rw put_id. split_and!; [done..|].
    replace limit with cur by lia. apply adds_refl.
  - pose proof (bi_bound _ _ _ _ _ _ Hi) as Hb. pose proof (bi_lo _ _ _ _ _ _ Hi) as Hlo.
    destruct (find_order_spec (Z.to_nat PALLOC_MAX_ORDER) cur limit (pfn_limit s) Hb)
      as (o & -> & Ho & Hal & Hle & Hlg); [lia|lia|done|by left|].
    change (Z.of_nat (Z.to_nat PALLOC_MAX_ORDER)) with PALLOC_MAX_ORDER in Ho.
    assert (0 < 2 ^ o) by lia. rw Z.shiftl_1_l wrap_small.
    { apply (pfn_bound_paddr (pfn_limit s)); [done|lia]. }
    destruct (di_dom _ _ _ _ (bi_dinv _ _ _ _ _ _ Hi) cur ltac:(lia)) as [n Hn].
    destruct (bi_heads _ _ _ _ _ _ Hi r o Hr Ho) as [hd Hhd].
    pose proof (vacant_None _ _ _ _ cur _ _ (bi_dinv _ _ _ _ _ _ Hi) Hv ltac:(lia)) as Hnone.
    pose proof (binv_new _ _ _ _ _ _ cur r o n hd Hi Hr Ho ltac:(lia) ltac:(lia) Hal
      (vacant_weaken _ _ _ cur (cur + 2 ^ o) Hv ltac:(lia) ltac:(lia)) Hn Hhd) as Hi1.
    wp_step. apply wp_get_node; [lia|]. wp_step. eapply wp_write_node; [exact Hn|].
    wp_step. eapply wp_insert_node; [cbn; lia|cbn; apply lookup_insert_eq|exact Hhd|].
    rw put_put. cbn [put nodes upd_nodes buddies upd_buddies]. rw insert_insert_eq.
    eapply wp_mono; [eapply (IH _ _ _ (cur + 2 ^ o)); [exact Hi1|done|cbn; lia|done|lia|]|].
    + intros p b q Hp Hc Hq. apply lookup_insert_Some in Hp as [[<- <-]|[_ Hp]].
      * rw /covers /= in Hc. lia.
      * apply (Hv p b q Hp Hc). lia.
    + intros _ s' (N' & H' & L' & B' & -> & Hi' & Had). rw put_put in Hi' |- *.
      exists N', H', L', B'. split_and!; [done..|]. apply (adds_block B B' r cur o limit); try done. lia.
  - wp_step. exists (nodes s), (buddies s), L, B. rw put_id. split_and!; [done..|].
    replace limit with cur by lia. apply adds_refl.
Qed.

(** Blocks that could not have been larger leave no unmerged buddies. *)
Lemma adds_coalesced lo' hi' N' B B' r lo hi : dinv lo' hi' N' B' → coalesced B →
  (∀ p b, B !! p = Some b → b_region b ≠ r) → adds B B' r lo hi → coalesced B'.
Proof.
  intros Hd Hc Hr Had p r' o Ho _ _ Hp Hp'.
  pose proof (dinv_aligned _ _ _ _ _ _ Hd Hp) as [Ho' Hal]; cbn in Ho', Hal.
  destruct (buddy_low p o ltac:(lia) Hal) as [Hlal Hlow]. set (low := Z.min p (buddy_of p o)) in *.
  assert (2 ^ (o + 1) = 2 ^ o + 2 ^ o) as E by (rw Z.pow_add_r; lia).
  destruct (ad_blocks _ _ _ _ _ Had _ _ Hp) as [Hq|(<- & Hp1 & Hp2 & Hp3)];
    destruct (ad_blocks _ _ _ _ _ Had _ _ Hp') as [Hq'|(Hr' & Hp1' & Hp2' & Hp3')]; cbn in *.
  - by apply (Hc p r' o Ho).
  - subst r'. by destruct (Hr _ _ Hq).
  - by destruct (Hr _ _ Hq').
  - assert (largest_at low o hi) as [->|[|]] by (destruct Hlow as [[<- _]|[<- _]]; done); lia.
Qed.

(** [init_region] adds the pages as free pages of a new region. *)
Lemma wp_init_region s B start count r t : palloc_inv s B → 0 ≤ r < MAX_PALLOC_REGION_COUNT →
  (∀ p b, B !! p = Some b → b_region b ≠ r) →
  0 ≤ count → pfn_start s ≤ start → start + count ≤ pfn_limit s →
  vacant B start (start + count) → uint 64 (num_pages_total s + count) →
  wp (init_region start count r t) (λ _ s', ∃ B', palloc_inv s' B' ∧ adds B B' r start (start + count) ∧
    pfn_start s' = pfn_start s ∧ pfn_limit s' = pfn_limit s ∧ region_count s' = region_count s ∧
    num_pages_total s' = num_pages_total s + count ∧ cpu_int s' = cpu_int s ∧
    (tags <$> regions s' !! r) = Some t ∧
    (∀ r', r' ≠ r → regions s' !! r' = regions s !! r')) s.
Proof.
  intros Hpi Hr Hnew Hcount Hst Hlim Hv Htot. pose proof (pi_lists _ _ Hpi) as [L Hi].
  destruct (pi_region _ _ Hpi r Hr) as (g & Hg & Hl & Hav).
  pose proof (bi_bound _ _ _ _ _ _ Hi) as Hb. pose proof (bi_lo _ _ _ _ _ _ Hi) as Hlo.
  rw /init_region. wp_step. wp_step. wp_step. eapply wp_write_region; [exact Hg|].
  rw (wrap_small PADDR_WIDTH); [apply (pfn_bound_paddr (pfn_limit s)); [done|lia]|].
  eapply wp_mono; [eapply (wp_init_region_loop _ _ L B); [exact Hi|done|cbn; lia|cbn; lia|lia|done]|].
  intros _ s' (N' & H' & L' & B' & -> & Hi' & Had). exists B'.
  pose proof (bi_dinv _ _ _ _ _ _ Hi') as Hd'. cbn in Hd'.
  pose proof (free_sum_bound _ _ _ _ r Hd' (pi_range _ _ Hpi)).
  pose proof (free_sum_nonneg r B). pose proof (free_sum_nonneg r B').
  assert (pfn_limit s < 2 ^ ARCH_WIDTH).
  { destruct Hb as [Hb1 _]. pose proof page_bits_range.
    eapply Z.le_lt_trans; [exact Hb1|]. apply Z.pow_lt_mono_r; arch_lia. }
  pose proof (ad_sum _ _ _ _ _ Had) as Hsum.
  split_and!; try done.
  - split; try apply Hpi.
    + exists L'. exact Hi'.
    + intros r' Hr'. cbn. destruct (decide (r = r')) as [<-|Hne].
      * rw lookup_insert_eq. eexists. split_and!; [done..|]. cbn. rw Hav wrap_small; [split; lia|]. lia.
      * rw lookup_insert_ne //. destruct (pi_region _ _ Hpi r' Hr') as (g' & ? & ? & ?).
        exists g'. split_and!; try done. rw (ad_sum' _ _ _ _ _ Had) //. congruence.
    + cbn. rw (pi_alloc _ _ Hpi) /alloc_sum. by rw (ad_alloc _ _ _ _ _ Had).
    + eapply adds_coalesced; [exact Hd'|apply Hpi|exact Hnew|exact Had].
  - cbn. by apply wrap_small.
  - cbn. by rw lookup_insert_eq.
  - intros r' Hne. cbn. rw lookup_insert_ne //. congruence.
Qed.

End InitRegion.

(** ** The allocator before any region exists *)

Definition zero_region : palloc_region := mk_region 0 0 0 SPINLOCK_INIT.

(** Zeroed nodes, list heads and regions, as [reserve_palloc] and the first
    loop of [init_palloc] leave them; [c] is [region_count]. *)
Definition empty_palloc (lo hi c : Z) : palloc_state :=
  mk_palloc (filled zero_node (seqZ lo (hi - lo)))
    (filled zero_node (r ← seqZ 0 MAX_PALLOC_REGION_COUNT; o ← seqZ 0 PALLOC_ORDER_COUNT; [(r, o)]))
    (filled zero_region (seqZ 0 MAX_PALLOC_REGION_COUNT))
    c lo hi (hi - lo) 0 0 SPINLOCK_INIT true.

Section Empty.
Context `{HA : Arch}.

Lemma empty_inv lo hi c : 0 ≤ lo ≤ hi → pfn_bound hi → 0 ≤ c ≤ MAX_PALLOC_REGION_COUNT →
  palloc_inv (empty_palloc lo hi c) ∅.
Proof.
  intros Hlo Hb Hc. split; try done.
  - exists (λ _, []). split; cbn [empty_palloc nodes buddies pfn_start pfn_limit]; [lia|done|..].
    + intros r o Hr Ho. exists zero_node. apply filled_lookup. split; [|done].
      apply list_elem_of_bind. exists r. rw elem_of_seqZ. split; [|lia].
      apply list_elem_of_bind. exists o. rw elem_of_seqZ. split; [by left|].
      change PALLOC_ORDER_COUNT with (PALLOC_MAX_ORDER + 1). lia.
    + split; [|by intros..|].
      * intros q Hq. exists zero_node. apply filled_lookup. rw elem_of_seqZ. split; [lia|done].
      * intros q o r a _. rw /data_at fmap_Some. intros (n & Hn & E).
        apply filled_lookup in Hn as [_ <-]. done.
    + split; [|intros; apply NoDup_nil; done|by intros ??? ?%elem_of_nil|by intros ?? ?%elem_of_nil].
      intros k hd Hk. apply filled_lookup in Hk as [_ <-]. done.
    + intros r o p. split; [by intros ?%elem_of_nil|done].
  - cbn. lia.
  - intros r Hr. exists zero_region. split_and!; [|done|done]. apply filled_lookup. rw elem_of_seqZ. split; [lia|done].
Qed.

End Empty.

(** ** Clients of the allocator *)

(** A client allocates, any number of pages that is a positive [int], and frees;
    [owned] are the page frames it holds.  A call that does not return makes no
    step. *)
Inductive client_step `{Arch} : palloc_state * gset Z → palloc_state * gset Z → Prop :=
| client_alloc s owned count pfn s' :
    0 < count < 2 ^ 31 → palloc count s = Ret (pfn, s') →
    client_step (s, owned) (s', if pfn =? 0 then owned else {[pfn]} ∪ owned)
| client_free s owned pfn n s' :
    pfn ∈ owned → pfree pfn s = Ret (n, s') →
    client_step (s, owned) (s', owned ∖ {[pfn]}).

Section Clients.
Context `{HA : Arch}.

Lemma wp_palloc s B count : palloc_inv s B → page0_reserved B → 0 < count ≤ 2 ^ 15 →
  wp (palloc count) (λ pfn s', let o := Z.log2_up count in
    (pfn = 0 ∧ s' = s ∧ exhausted s B (λ _, true) o 0 (region_count s)) ∨
    (pfn ≠ 0 ∧ ∃ r B', 0 ≤ r < region_count s ∧ o < PALLOC_MAX_ORDER ∧
       palloc_inv s' B' ∧ same_setup s s' ∧ allocates B B' r o pfn)) s.
Proof.
  intros Hpi Hst Hc. eapply wp_mono; [exact (wp_palloc_tags_loop s B count palloc_tags Hpi Hst Hc)|].
  cbv zeta. intros pfn s' [(-> & -> & Hex)|(Hpfn & r & g & B' & Hr & _ & _ & Ho & Hrest)].
  - left. split_and!; [done..|]. intros r g Hr Hg _. apply (Hex r g Hr Hg), accepts_all.
  - right. split; [done|]. by exists r, B'.
Qed.

(** What holds along a client's run: the invariant, and all page frames the
    client owns are allocated blocks. *)
Definition client_inv (n : Z) (st : palloc_state * gset Z) : Prop :=
  region_count st.1 = n ∧ ∃ B, palloc_inv st.1 B ∧ page0_reserved B ∧ st.2 ⊆ dom (allocated B).

Lemma client_inv_step n st st' : client_inv n st → client_step st st' → client_inv n st'.
Proof.
  intros (Hn & B & Hpi & H0 & Hown) Hstep. destruct Hstep as [s owned count pfn s' Hc E|s owned pfn k s' Hin E]; cbn [fst snd] in *.
  - destruct (Z.le_gt_cases count (2 ^ 15)) as [Hle|Hgt]; cycle 1.
    { rw (palloc_too_large s B count Hpi ltac:(lia)) in E. destruct (0 <? region_count s); [done|]. injection E as <- <-.
      split; [done|]. by exists B. }
    destruct (wp_run _ _ _ _ _ (wp_palloc s B count Hpi H0 ltac:(lia)) E) as [(-> & -> & _)|(Hpfn & r & B' & _ & _ & Hpi' & Hss & Hal)]; [by split; [|exists B]|].
    rw (proj2 (Z.eqb_neq _ _)) //. split; cbn; [by rw (ss_count _ _ Hss)|].
    destruct (page0_allocates _ _ _ _ _ _ Hpi' H0 ltac:(apply Z.log2_up_nonneg) Hal) as [_ H0'].
    exists B'. split_and!; [done..|]. rw (al_blocks _ _ _ _ _ Hal) dom_insert. set_solver.
  - apply Hown, elem_of_dom in Hin as [[r o a] Hp]. apply allocated_lookup in Hp as [Hp Ha]; cbn in Ha; subst a.
    destruct (wp_run _ _ _ _ _ (wp_pfree s B pfn r o Hpi Hp) E) as (_ & B' & Hpi' & Hss & Hre). split; cbn; [by rw (ss_count _ _ Hss)|].
    exists B'. split_and!; [done|exact (page0_releases _ _ _ _ _ _ Hpi' H0 Hp Hre)|]. rw (re_blocks _ _ _ _ _ Hre) dom_delete. set_solver.
Qed.

Lemma client_inv_run n st st' : client_inv n st → rtc client_step st st' → client_inv n st'.
Proof. intros Hi Hr. induction Hr; eauto using client_inv_step. Qed.

End Clients.

(** ** Properties *)

(** [calc_palloc_order] returns the least order whose block holds the
    requested number of pages, for every request up to the largest block; it
    panics on every larger request. *)
Theorem calc_palloc_order_least count : 0 < count < 2 ^ 31 →
  (count ≤ 2 ^ PALLOC_MAX_ORDER →
    ∃ o, calc_palloc_order count = Ret o ∧ PALLOC_MIN_ORDER ≤ o ≤ PALLOC_MAX_ORDER ∧
      count ≤ 2 ^ o ∧ ∀ o', 0 ≤ o' → count ≤ 2 ^ o' → o ≤ o') ∧
  (2 ^ PALLOC_MAX_ORDER < count → calc_palloc_order count = Panic).
Proof.
  intros Hc. rw calc_order_value //. change PALLOC_MAX_ORDER with 15. change PALLOC_MIN_ORDER with 0.
  split; intros Hle; [rw (proj2 (Z.leb_le _ _)) //|rw (proj2 (Z.leb_gt _ _)) //].
  eexists. split_and!; [reflexivity|apply Z.log2_up_nonneg| | |].
  - apply Z.log2_up_le_pow2; lia.
  - apply Z.log2_up_le_pow2; [lia|lia].
  - intros o' Ho' Hle'. apply Z.log2_up_le_pow2; lia.
Qed.

(** C1. [palloc_region] of a region that exists.  A request of more than 2^15
    pages, the largest order, panics.  Every other request returns: if it is below
    the largest order and the region has a free block of at least the requested
    size, the result is an aligned block of the least sufficient order, made of
    pages of that region that were free and now are allocated; no other page
    changes its status and no block allocated earlier is touched.  If there is no
    such free block, or if the request rounds up to the largest order, even when
    a free block of that order exists, the result is 0 and nothing changes. *)
Theorem palloc_region_correct `{Arch} s B count r : palloc_inv s B →
  0 ≤ r < MAX_PALLOC_REGION_COUNT → 0 < count < 2 ^ 31 →
  let o := Z.log2_up count in
  (2 ^ PALLOC_MAX_ORDER < count → palloc_region_ count r s = Panic) ∧
  (count ≤ 2 ^ PALLOC_MAX_ORDER → ∃ pfn s', palloc_region_ count r s = Ret (pfn, s') ∧
    (o < PALLOC_MAX_ORDER → ¬ no_free_block B r o →
       ∃ B', palloc_inv s' B' ∧ same_setup s s' ∧ allocates B B' r o pfn) ∧
    (o = PALLOC_MAX_ORDER ∨ no_free_block B r o → pfn = 0 ∧ s' = s)).
Proof.
  intros Hpi Hr Hc o. split; [intros Hbig; apply palloc_region_too_large; exact (conj Hbig (proj2 Hc))|]. intros Hle.
  destruct (wp_elim _ _ _ (wp_palloc_region s B count r Hpi Hr (conj (proj1 Hc) Hle))) as (pfn & s' & E & Hpost).
  exists pfn, s'. split; [done|].
  destruct Hpost as [(-> & -> & Hno)|(Ho & Hyes & HB)]; split; try done.
  - intros Ho Hyes. destruct Hno as [Hno|Hno]; [|done]. rw /o in Ho. lia.
  - intros [Hno|Hno]; [|done]. rw /o in Hno. lia.
Qed.

(** C2. [pfree] of an allocated block returns the number of its pages, makes
    exactly these pages free pages of the block's region and leaves every other
    page and allocated block as it was; the invariant, which includes the page
    counts and the complete merging of free buddies, holds again. *)
Theorem pfree_correct `{Arch} s B pfn r o : palloc_inv s B →
  allocated B !! pfn = Some (mk_blk r o true) →
  ∃ s' B', pfree pfn s = Ret (2 ^ o, s') ∧
    palloc_inv s' B' ∧ same_setup s s' ∧ releases B B' r o pfn.
Proof.
  intros Hpi [Hp _]%allocated_lookup.
  destruct (wp_elim _ _ _ (wp_pfree s B pfn r o Hpi Hp)) as (n & s' & E & -> & B' & Hrest).
  by exists s', B'.
Qed.

(** C3. Allocating a block and freeing it again restores the allocator: the
    partition of all page frames into free and allocated blocks after the two
    calls is the one before them, with every split undone. *)
Theorem palloc_pfree_roundtrip `{Arch} s B count r pfn s1 : palloc_inv s B →
  0 ≤ r < MAX_PALLOC_REGION_COUNT → 0 < count < 2 ^ PALLOC_MAX_ORDER →
  palloc_region_ count r s = Ret (pfn, s1) → pfn ≠ 0 →
  ∃ n s2, pfree pfn s1 = Ret (n, s2) ∧ palloc_inv s2 B ∧ same_setup s s2.
Proof.
  intros Hpi Hr Hc E Hpfn.
  assert (0 < count ≤ 2 ^ PALLOC_MAX_ORDER) as Hc' by lia.
  destruct (wp_run _ _ _ _ _ (wp_palloc_region s B count r Hpi Hr Hc') E) as [(-> & _)|(Ho & _ & B1 & Hpi1 & Hss1 & Hal)]; [done|].
  set (o := Z.log2_up count) in *.
  assert (B1 !! pfn = Some (mk_blk r o true)) as Hp.
  { apply (allocated_lookup B1 pfn (mk_blk r o true)). rw (al_blocks _ _ _ _ _ Hal). apply lookup_insert_eq. }
  destruct (wp_elim _ _ _ (wp_pfree s1 B1 pfn r o Hpi1 Hp)) as (n & s2 & E2 & _ & B2 & Hpi2 & Hss2 & Hre).
  exists n, s2. split_and!; [done| |etrans; [exact Hss1|exact Hss2]].
  destruct (pi_lists _ _ Hpi) as [L Hi], (pi_lists _ _ Hpi2) as [L2 Hi2].
  assert (B = B2) as ->; [|done].
  pose proof (bi_dinv _ _ _ _ _ _ Hi2) as Hd2.
  rw (ss_start _ _ Hss2) (ss_limit _ _ Hss2) (ss_start _ _ Hss1) (ss_limit _ _ Hss1) in Hd2.
  apply (coalesced_unique _ _ _ _ B B2 (bi_dinv _ _ _ _ _ _ Hi) Hd2); [apply Hpi|apply Hpi2|..].
  - rw (re_blocks _ _ _ _ _ Hre) (al_blocks _ _ _ _ _ Hal) delete_insert_id //. apply Hal.
  - intros r' q. rw (re_free _ _ _ _ _ Hre) (al_free _ _ _ _ _ Hal).
    destruct (decide (pfn ≤ q < pfn + 2 ^ o)) as [Hq|Hq]; [|naive_solver].
    pose proof (al_was_free _ _ _ _ _ Hal q Hq) as Hfree. split; [|naive_solver].
    intros (p1 & b1 & H1 & H2 & <- & H3). right. split; [|done].
    destruct Hfree as (p2 & b2 & H4 & H5 & <- & H6).
    by destruct (dinv_same _ _ _ _ p1 b1 p2 b2 q (bi_dinv _ _ _ _ _ _ Hi)) as [_ ->].
Qed.

(** [palloc] tries every region: it fails, leaving the state unchanged, only
    if no region has a free block of the requested size (or the request needs
    the largest order); otherwise it returns a non-zero page frame number whose
    block was free before. *)
Theorem palloc_correct `{Arch} s B count : palloc_inv s B → page0_reserved B →
  0 < count ≤ 2 ^ PALLOC_MAX_ORDER →
  let o := Z.log2_up count in
  ∃ pfn s', palloc count s = Ret (pfn, s') ∧
    ((pfn = 0 ∧ s' = s ∧
      ∀ r, 0 ≤ r < region_count s → o = PALLOC_MAX_ORDER ∨ no_free_block B r o) ∨
     (pfn ≠ 0 ∧ ∃ r B', 0 ≤ r < region_count s ∧ palloc_inv s' B' ∧ same_setup s s' ∧
        allocates B B' r o pfn)).
Proof.
  intros Hpi Hst Hc o. destruct (wp_elim _ _ _ (wp_palloc s B count Hpi Hst Hc)) as (pfn & s' & E & Hpost).
  exists pfn, s'. split; [done|]. destruct Hpost as [(-> & -> & Hex)|(Hpfn & r & B' & Hr & _ & Hrest)].
  - left. split_and!; [done..|]. intros r Hr. pose proof (pi_count _ _ Hpi).
    destruct (pi_region _ _ Hpi r) as (g & Hg & _); [lia|]. by apply (Hex r g).
  - right. split; [done|]. by exists r, B'.
Qed.

(** C4. Any sequence of allocations and releases by a client that frees only
    what it owns, on an allocator that does not manage page frame 0.  At every
    point of it a request of up to 2^15 pages and every release returns: it does
    not panic, fault or hang.  A larger request panics (with no region at all it
    returns 0).  The blocks the client owns are allocated and never overlap. *)
Theorem palloc_clients_safe `{Arch} s B s' owned : palloc_inv s B → page0_reserved B →
  rtc client_step (s, ∅) (s', owned) →
  (∀ count, 0 < count ≤ 2 ^ PALLOC_MAX_ORDER → ∃ res, palloc count s' = Ret res) ∧
  (∀ count, 2 ^ PALLOC_MAX_ORDER < count < 2 ^ 31 →
    palloc count s' = if 0 <? region_count s then Panic else Ret (0, s')) ∧
  (∀ pfn, pfn ∈ owned → ∃ res, pfree pfn s' = Ret res) ∧
  ∃ B', palloc_inv s' B' ∧ ∀ p1 p2, p1 ∈ owned → p2 ∈ owned →
    ∃ b1 b2, allocated B' !! p1 = Some b1 ∧ allocated B' !! p2 = Some b2 ∧
      (p1 ≠ p2 → ∀ q, covers p1 b1 q → covers p2 b2 q → False).
Proof.
  intros Hpi H0 Hrun.
  destruct (client_inv_run (region_count s) (s, ∅) (s', owned)) as (Hn & B' & Hpi' & H0' & Hown); [|done|].
  { split; [done|]. exists B. split_and!; [done..|]. set_solver. }
  cbn [fst snd] in *. split_and!.
  - intros count Hc. destruct (wp_elim _ _ _ (wp_palloc s' B' count Hpi' H0' Hc)) as (p & s2 & E & _). eauto.
  - intros count Hc. rw -Hn. by apply (palloc_too_large s' B').
  - intros pfn Hp. apply Hown, elem_of_dom in Hp as [[r o a] Hp].
    apply allocated_lookup in Hp as [Hp Ha]; cbn in Ha; subst a.
    destruct (wp_elim _ _ _ (wp_pfree s' B' pfn r o Hpi' Hp)) as (n & s2 & E & _). eauto.
  - exists B'. split; [done|]. intros p1 p2 H1 H2.
    apply Hown, elem_of_dom in H1 as [b1 H1]. apply Hown, elem_of_dom in H2 as [b2 H2].
    exists b1, b2. split_and!; [done..|]. intros Hne q Hc1 Hc2. apply Hne.
    apply allocated_lookup in H1 as [H1 _]. apply allocated_lookup in H2 as [H2 _].
    destruct (pi_lists _ _ Hpi') as [L Hi]. by apply (di_disj _ _ _ _ (bi_dinv _ _ _ _ _ _ Hi) p1 b1 p2 b2 q).
Qed.

(** [init_region] turns a range of unused page frames into free pages of a
    new region: exactly these pages become free, the region's and the global
    page counts grow by their number, and the allocator's invariant holds,
    including that no two buddies are left unmerged. *)
Theorem init_region_correct `{Arch} s B start count r t : palloc_inv s B →
  0 ≤ r < MAX_PALLOC_REGION_COUNT → (∀ p b, B !! p = Some b → b_region b ≠ r) →
  0 ≤ count → pfn_start s ≤ start → start + count ≤ pfn_limit s →
  vacant B start (start + count) → uint 64 (num_pages_total s + count) →
  ∃ s' B', init_region start count r t s = Ret (tt, s') ∧ palloc_inv s' B' ∧
    allocated B' = allocated B ∧
    (∀ r' q, free_page B' r' q ↔ free_page B r' q ∨ (r' = r ∧ start ≤ q < start + count)) ∧
    num_pages_total s' = num_pages_total s + count ∧
    (∀ g, regions s' !! r = Some g → tags g = t ∧ avail_pages g = free_sum r B').
Proof.
  intros Hpi Hr Hnew Hc Hst Hlim Hv Htot.
  destruct (wp_elim _ _ _ (wp_init_region s B start count r t Hpi Hr Hnew Hc Hst Hlim Hv Htot))
    as ([] & s' & E & B' & Hpi' & Had & _ & _ & _ & Ht & _ & Htag & _).
  exists s', B'. split_and!; try done; [apply Had|apply Had|].
  intros g Hg. rw Hg in Htag. destruct (pi_region _ _ Hpi' r Hr) as (g' & Hg' & _ & Hav). simplify_eq.
  by injection Htag as ->.
Qed.

(** ** Witnesses *)

Lemma calc_palloc_order_least_witness : ∃ o, calc_palloc_order 5 = Ret o ∧ 5 ≤ 2 ^ o.
Proof.
  destruct (calc_palloc_order_least 5 ltac:(lia)) as [Hle _].
  destruct (Hle ltac:(vm_compute; congruence)) as (o & E & _ & Ho & _). exists o. split; [exact E|exact Ho].
Defined.

(** Page frames 16 to 47 of a 64-bit RISC-V machine, in one region. *)
Definition small_empty : palloc_state := empty_palloc 16 48 1.

Lemma small_empty_inv : @palloc_inv riscv64 small_empty ∅.
Proof. apply empty_inv; [lia|split; vm_compute; congruence|vm_compute; split; congruence]. Qed.

Definition small_state : palloc_state :=
  final small_empty (@init_region riscv64 16 32 0 7 small_empty).

(** What [init_region] makes of it: every page is free, in one region. *)
Lemma small_state_inv : ∃ B, @palloc_inv riscv64 small_state B ∧
  (∀ r q, free_page B r q ↔ r = 0 ∧ 16 ≤ q < 48) ∧ ¬ no_free_block B 0 2 ∧ page0_reserved B.
Proof.
  destruct (wp_elim _ _ _ (@wp_init_region riscv64 small_empty ∅ 16 32 0 7 small_empty_inv
    ltac:(vm_compute; split; congruence) ltac:(done) ltac:(done) ltac:(done) ltac:(done)
    ltac:(by intros p b q ?) ltac:(split; [done|vm_compute; congruence])))
    as (u & s' & E & B & Hpi & Had & _).
  assert (∀ r q, free_page B r q ↔ r = 0 ∧ 16 ≤ q < 48) as Hf.
  { intros r q. rw (ad_free _ _ _ _ _ Had).
    split; [intros [(p & b & Hp & _)|?]; [done|lia]|intros [-> ?]; right; lia]. }
  exists B. rw /small_state E. split; [exact Hpi|]. split; [exact Hf|].
  split; [intros Hno|apply (page0_kept _ _ Hpi)]; cycle 1.
  { intros p [b Hb]. change (allocated B !! p = Some b) in Hb. by rw (ad_alloc _ _ _ _ _ Had) in Hb. }
  { intros r q Hq. apply Hf in Hq. lia. }
  destruct (pi_lists _ _ Hpi) as [L Hi].
  destruct (coalesced_covers _ _ _ B 0 2 16 (bi_dinv _ _ _ _ _ _ Hi) (pi_coal _ _ Hpi))
    as (p & o & Hp & _ & _ & Ho); [done|done|intros q Hq; apply Hf; cbn in Hq; lia|].
  specialize (Hno p _ Hp eq_refl eq_refl). cbn in Hno. lia.
Qed.

Lemma init_region_correct_witness :
  ∃ B, @palloc_inv riscv64 small_state B ∧ ∀ r q, free_page B r q ↔ r = 0 ∧ 16 ≤ q < 48.
Proof.
  destruct (@init_region_correct riscv64 small_empty ∅ 16 32 0 7 small_empty_inv)
    as (s' & B & E & Hpi & _ & Hf & _); [vm_compute; split; congruence|done|done|done|done|
      by intros p b q ?|split; [done|vm_compute; congruence]|].
  exists B. rw /small_state E. split; [exact Hpi|]. intros r q. rw Hf.
  split; [intros [(p & b & Hp & _)|?]; [done|lia]|intros [-> ?]; right; lia].
Defined.


Lemma palloc_region_correct_witness : ∃ B pfn s',
  @palloc_inv riscv64 small_state B ∧ @palloc_region_ riscv64 3 0 small_state = Ret (pfn, s') ∧
  ∃ B', @palloc_inv riscv64 s' B' ∧ allocates B B' 0 2 pfn.
Proof.
  destruct small_state_inv as (B & Hpi & _ & Hyes & _).
  destruct (@palloc_region_correct riscv64 small_state B 3 0 Hpi) as (_ & Hok);
    [vm_compute; split; congruence|vm_compute; split; congruence|].
  destruct (Hok ltac:(vm_compute; congruence)) as (pfn & s' & E & Hal' & _).
  destruct (Hal' eq_refl Hyes) as (B' & Hpi' & _ & Hal).
  exists B, pfn, s'. split; [exact Hpi|]. split; [exact E|]. exists B'. split; [exact Hpi'|exact Hal].
Defined.

(** The state after allocating three pages, and the block obtained. *)
Definition small_alloc : palloc_state :=
  final small_state (@palloc_region_ riscv64 3 0 small_state).

Lemma small_alloc_run : @palloc_region_ riscv64 3 0 small_state = Ret (44, small_alloc).
Proof. apply returns_final. vm_compute. reflexivity. Qed.

Lemma small_alloc_inv : ∃ B, @palloc_inv riscv64 small_alloc B ∧
  allocated B !! 44 = Some (mk_blk 0 2 true).
Proof.
  destruct small_state_inv as (B & Hpi & _ & Hyes & _).
  destruct (wp_run _ _ _ _ _ (@wp_palloc_region riscv64 small_state B 3 0 Hpi
    ltac:(vm_compute; split; congruence) ltac:(vm_compute; split; congruence)) small_alloc_run) as [(? & _)|(_ & _ & B' & Hpi' & _ & Hal)]; [done|].
  exists B'. split; [done|]. rw (al_blocks _ _ _ _ _ Hal). apply lookup_insert_eq.
Qed.

Lemma pfree_correct_witness : ∃ s', @pfree riscv64 44 small_alloc = Ret (4, s').
Proof.
  destruct small_alloc_inv as (B & Hpi & Hp).
  destruct (@pfree_correct riscv64 small_alloc B 44 0 2 Hpi Hp) as (s' & B' & E & _).
  exists s'. exact E.
Defined.

Lemma palloc_pfree_roundtrip_witness : ∃ B n s2, @palloc_inv riscv64 small_state B ∧
  @pfree riscv64 44 small_alloc = Ret (n, s2) ∧ @palloc_inv riscv64 s2 B.
Proof.
  destruct small_state_inv as (B & Hpi & _).
  destruct (@palloc_pfree_roundtrip riscv64 small_state B 3 0 44 small_alloc Hpi) as (n & s2 & E & Hpi2 & _);
    [vm_compute; split; congruence|vm_compute; split; congruence|exact small_alloc_run|done|].
  exists B, n, s2. split; [exact Hpi|]. split; [exact E|exact Hpi2].
Defined.

Lemma palloc_correct_witness : ∃ pfn s', @palloc riscv64 3 small_state = Ret (pfn, s').
Proof.
  destruct small_state_inv as (B & Hpi & _ & _ & H0).
  destruct (@palloc_correct riscv64 small_state B 3 Hpi) as (pfn & s' & E & _);
    [exact H0|vm_compute; split; congruence|]. exists pfn, s'. exact E.
Defined.

Definition small_palloc : palloc_state :=
  final small_state (@palloc riscv64 3 small_state).

Lemma small_palloc_run : @palloc riscv64 3 small_state = Ret (44, small_palloc).
Proof. apply returns_final. vm_compute. reflexivity. Qed.

Lemma small_client_run : rtc (@client_step riscv64) (small_state, ∅) (small_palloc, {[44]} ∪ ∅).
Proof.
  eapply rtc_l; [|apply rtc_refl].
  exact (@client_alloc riscv64 small_state ∅ 3 44 small_palloc ltac:(lia) small_palloc_run).
Qed.

Lemma palloc_clients_safe_witness : ∃ res, @pfree riscv64 44 small_palloc = Ret res.
Proof.
  destruct small_state_inv as (B & Hpi & _ & _ & H0).
  destruct (@palloc_clients_safe riscv64 small_state B small_palloc ({[44]} ∪ ∅) Hpi)
    as (_ & _ & Hfree & _); [exact H0|exact small_client_run|].
  apply Hfree. set_solver.
Defined.
