(* ===== verification/Memmap.v ===== *)
(** The physical memory map: [src/src/libk/lib/memmap.c], with the data of
    [src/src/common/include/memmap.h].

    The map is an array of [num_slots] slots of which the first [num_entries]
    are in use; a pointer to an entry is its index.  Copying between slots is
    done slot by slot in the order of the source.  [kprintf] and [warn_if] output is left out. *)

From stdpp Require Import base list gmap.
From Stdlib Require Import ZArith Lia.
From Corelib Require Import ssreflect.
From S2P Require Import Prelude Bits Palloc.

(** ** Data *)

Definition MEMMAP_NONE : Z := 0.
Definition MEMMAP_USABLE : Z := 1.
Definition MEMMAP_USED : Z := 2.
Definition MEMMAP_USED_RECLAIM : Z := 3.
Definition MEMMAP_INVALID : Z := 4.

Record loader_memmap_entry := mk_entry {
  e_start : Z;
  e_size : Z;
  e_flags : Z;
  e_tags : Z
}.

Definition zero_entry : loader_memmap_entry := mk_entry 0 0 0 0.

Record loader_memmap := mk_memmap {
  num_slots : Z;
  num_entries : Z;
  entries : list loader_memmap_entry
}.

Definition set_entries (es : list loader_memmap_entry) (m : loader_memmap) : loader_memmap :=
  mk_memmap (num_slots m) (num_entries m) es.
Definition set_num_entries (n : Z) (m : loader_memmap) : loader_memmap :=
  mk_memmap (num_slots m) n (entries m).

(** [entry->start + entry->size], in 64 bits. *)
Definition entry_end (e : loader_memmap_entry) : Z := u64 (e_start e + e_size e).

(** [&memmap->entries[idx]], read and written; out of the array is undefined. *)
Definition read_entry (idx : Z) : M loader_memmap loader_memmap_entry :=
  deref (λ m, if idx <? 0 then None else entries m !! Z.to_nat idx).
Definition write_entry (idx : Z) (f : loader_memmap_entry → loader_memmap_entry) : M loader_memmap unit :=
  e ← read_entry idx;
  modify (λ m, set_entries (<[Z.to_nat idx := f e]> (entries m)) m).

(** Assignments to single fields. *)
Definition with_start (v : Z) (e : loader_memmap_entry) := mk_entry v (e_size e) (e_flags e) (e_tags e).
Definition with_size (v : Z) (e : loader_memmap_entry) := mk_entry (e_start e) v (e_flags e) (e_tags e).
Definition with_flags (v : Z) (e : loader_memmap_entry) := mk_entry (e_start e) (e_size e) v (e_tags e).
Definition with_tags (v : Z) (e : loader_memmap_entry) := mk_entry (e_start e) (e_size e) (e_flags e) v.

(** [memcpy(&entries[dst], &entries[src], sizeof(entry))]. *)
Definition copy_entry (dst src : Z) : M loader_memmap unit :=
  e ← read_entry src; write_entry dst (λ _, e).

(** ** Inserting, removing and splitting entries *)

(** [for (i = idx + n - 1; i >= idx; i--)], copying slot [i] to slot [i + 1]. *)
Fixpoint shift_up (n : nat) (idx : Z) : M loader_memmap unit :=
  match n with
  | O => mret tt
  | S n' => let i := idx + Z.of_nat n' in copy_entry (i + 1) i;; shift_up n' idx
  end.

Definition insert_entry (idx : Z) : M loader_memmap Z :=
  full ← gets (λ m, num_slots m <=? num_entries m);
  panic_if full;;
  n ← gets num_entries;
  panic_if (n <? idx);;
  shift_up (Z.to_nat (n - idx)) idx;;
  modify (set_num_entries (n + 1));;
  mret idx.

Definition append_entry : M loader_memmap Z :=
  n ← gets num_entries; insert_entry n.

(** [for (i = idx; i < idx + n; i++)], copying slot [i + 1] to slot [i]. *)
Fixpoint shift_down (n : nat) (i : Z) : M loader_memmap Z :=
  match n with
  | O => mret i
  | S n' => copy_entry i (i + 1);; shift_down n' (i + 1)
  end.

Definition remove_entry (idx : Z) : M loader_memmap unit :=
  n ← gets num_entries;
  if n <? idx then mret tt else
  i ← shift_down (Z.to_nat (n - 1 - idx)) idx;
  write_entry i (λ _, zero_entry);;
  modify (set_num_entries (n - 1)).

Definition split_entry (idx offset : Z) : M loader_memmap Z :=
  entry ← read_entry idx;
  panic_if (e_size entry <=? offset);;
  next_entry ← insert_entry (idx + 1);
  copy_entry next_entry idx;;
  write_entry idx (with_size offset);;
  write_entry next_entry (λ e, with_size (u64 (e_size e - offset)) e);;
  write_entry next_entry (λ e, with_start (u64 (e_start e + offset)) e);;
  mret next_entry.

Definition split_entry2 (idx offset1 offset2 : Z) : M loader_memmap Z :=
  entry ← read_entry idx;
  panic_if ((e_size entry <=? offset1) || (e_size entry <=? offset2) || (offset2 <=? offset1));;
  entry3 ← insert_entry (idx + 1);
  copy_entry entry3 idx;;
  write_entry entry3 (λ e, with_size (u64 (e_size e - offset2)) e);;
  write_entry entry3 (λ e, with_start (u64 (e_start e + offset2)) e);;
  entry2 ← insert_entry (idx + 1);
  copy_entry entry2 idx;;
  write_entry entry2 (with_size (u64 (offset2 - offset1)));;
  write_entry entry2 (λ e, with_start (u64 (e_start e + offset1)) e);;
  write_entry idx (with_size offset1);;
  mret entry2.

(** The loop removes an entry or moves on; [fuel] bounds the entries left. *)
Fixpoint merge_loop (fuel : nat) (i : Z) : M loader_memmap unit :=
  n ← gets num_entries;
  if i <? n - 1 then
    match fuel with
    | O => diverge
    | S fuel' =>
        entry ← read_entry i;
        next ← read_entry (i + 1);
        if (entry_end entry =? e_start next) && (e_flags entry =? e_flags next) then
          write_entry i (with_size (u64 (e_size entry + e_size next)));;
          remove_entry (i + 1);;
          merge_loop fuel' i
        else merge_loop fuel' (i + 1)
    end
  else mret tt.

Definition merge_consecutive_regions : M loader_memmap unit :=
  n ← gets num_entries; merge_loop (Z.to_nat n) 0.

(** ** Claiming a region *)

(** What one round of the loop leaves in [i] (before the [i++] of the loop
    header), [start] and [size]. *)
Definition claim_step (i start size end_ type : Z) : M loader_memmap (Z * Z * Z) :=
  entry ← read_entry i;
  if end_ <=? e_start entry then
    e ← insert_entry i;
    write_entry e (with_start start);;
    write_entry e (with_size size);;
    write_entry e (with_flags type);;
    mret (i, start, 0)
  else if start <? e_start entry then
    e ← insert_entry i;
    write_entry e (with_start start);;
    write_entry e (λ e, with_size (u64 (e_start e - start)) e);;
    write_entry e (with_flags type);;
    new ← read_entry e;
    mret (i, u64 (start + e_size new), u64 (size - e_size new))
  else if start =? e_start entry then
    (if e_size entry <=? size then
       write_entry i (with_flags type);;
       mret (i, u64 (start + e_size entry), u64 (size - e_size entry))
     else
       split_entry i size;;
       write_entry i (with_flags type);;
       mret (i, start, 0))
  else if (e_start entry <? start) && (start <? entry_end entry) then
    (if entry_end entry <=? end_ then
       e ← split_entry i (u64 (start - e_start entry));
       write_entry e (with_flags type);;
       new ← read_entry e;
       mret (i + 1, start, u64 (size - e_size new))
     else
       e ← split_entry2 i (u64 (start - e_start entry)) (u64 (end_ - e_start entry));
       write_entry e (with_flags type);;
       mret (i + 2, start, 0))
  else mret (i, start, size).

(** The loop ends with the values of [start] and [size]. *)
Fixpoint claim_loop (fuel : nat) (i start size end_ type : Z) : M loader_memmap (Z * Z) :=
  n ← gets num_entries;
  if (i <? n) && ctrue size then
    match fuel with
    | O => diverge
    | S fuel' =>
        '(i', start', size') ← claim_step i start size end_ type;
        claim_loop fuel' (i' + 1) start' size' end_ type
    end
  else mret (start, size).

Definition claim_memmap_region (start size type : Z) : M loader_memmap unit :=
  let end_ := u64 (start + size) in
  slots ← gets num_slots;
  '(start', size') ← claim_loop (Z.to_nat slots + 1) 0 start size end_ type;
  (if ctrue size' then
     e ← append_entry;
     write_entry e (with_start start');;
     write_entry e (with_size size');;
     write_entry e (with_flags type)
   else mret tt);;
  merge_consecutive_regions.

(** ** Tags *)

Definition retag (mask : Z) (tag : bool) (e : loader_memmap_entry) : loader_memmap_entry :=
  with_tags (if tag then Z.lor (e_tags e) mask else Z.land (e_tags e) (bnot 32 mask)) e.

Definition tag_step (i start end_ mask : Z) (tag : bool) : M loader_memmap Z :=
  entry ← read_entry i;
  let entry_start := e_start entry in
  let entry_end := entry_end entry in
  if (entry_start <? start) && (start <? entry_end) && (entry_end <? end_) then
    e ← split_entry i (u64 (start - entry_start));
    write_entry e (retag mask tag);;
    mret (i + 1)
  else if (start <? entry_start) && (entry_start <? end_) && (end_ <? entry_end) then
    split_entry i (u64 (start - entry_start));;
    write_entry i (retag mask tag);;
    mret i
  else if (entry_start <? start) && (end_ <? entry_end) then
    e ← split_entry2 i (u64 (start - entry_start)) (u64 (end_ - entry_start));
    write_entry e (retag mask tag);;
    mret (i + 1)
  else if (start <=? entry_start) && (entry_end <=? end_) then
    write_entry i (retag mask tag);;
    mret i
  else mret i.

Fixpoint tag_loop (fuel : nat) (i start end_ mask : Z) (tag : bool) : M loader_memmap unit :=
  n ← gets num_entries;
  if i <? n then
    match fuel with
    | O => diverge
    | S fuel' => i' ← tag_step i start end_ mask tag; tag_loop fuel' (i' + 1) start end_ mask tag
    end
  else mret tt.

Definition do_tag_memmap_region (start size mask : Z) (tag : bool) : M loader_memmap unit :=
  let end_ := u64 (start + size) in
  slots ← gets num_slots;
  if ctrue size then tag_loop (Z.to_nat slots + 1) 0 start end_ mask tag else mret tt.

Definition tag_memmap_region (start size mask : Z) := do_tag_memmap_region start size mask true.
Definition untag_memmap_region (start size mask : Z) := do_tag_memmap_region start size mask false.

(** ** Finding free memory *)

(** The first usable entry from [i] on with room for an aligned region and
    matching tags. *)
Fixpoint find_loop (n : nat) (i size align mask : Z) (match_ : alloc_match) : M loader_memmap Z :=
  match n with
  | O => mret 0
  | S n' =>
      entry ← read_entry i;
      let aligned_start := if ctrue align then ALIGN_UP 64 (e_start entry) align else e_start entry in
      let entry_end := entry_end entry in
      if (e_flags entry =? MEMMAP_USABLE) && (size <=? e_size entry) &&
         (aligned_start <? entry_end) && (size <=? u64 (entry_end - aligned_start)) &&
         tags_matched (e_tags entry) mask match_
      then claim_memmap_region aligned_start size MEMMAP_USED;; mret aligned_start
      else find_loop n' (i + 1) size align mask match_
  end.

Definition find_free_memmap_region (size align mask : Z) (match_ : alloc_match) : M loader_memmap Z :=
  panic_if (1 <? popcount64 align);;
  n ← gets num_entries;
  find_loop (Z.to_nat n) 0 size align mask match_.

(** [for (t = 0; t < ... && !paddr; t += 2)] over the table of tag rules. *)
Fixpoint find_tags_loop (size align : Z) (ts : list (alloc_match * Z)) : M loader_memmap Z :=
  match ts with
  | [] => mret 0
  | (m, mask) :: ts' =>
      paddr ← find_free_memmap_region size align mask m;
      if ctrue paddr then mret paddr else find_tags_loop size align ts'
  end.

Definition find_free_memmap_region_for_palloc (size align : Z) : M loader_memmap Z :=
  paddr ← find_tags_loop size align palloc_tags;
  panic_if (negb (ctrue paddr));;
  mret paddr.

Definition find_free_memmap_direct_mapped_region (size align : Z) : M loader_memmap Z :=
  paddr ← find_tags_loop size align direct_mapped_tags;
  panic_if (negb (ctrue paddr));;
  mret paddr.

(** ** Checking a region *)

Fixpoint check_loop (es : list loader_memmap_entry) (start end_ : Z) : Z :=
  match es with
  | [] => 1
  | e :: es' =>
      if ((e_start e <=? start) && (start <? entry_end e)) ||
         ((e_start e <? end_) && (end_ <=? entry_end e))
      then if negb (e_flags e =? MEMMAP_USABLE) then 0 else check_loop es' start end_
      else check_loop es' start end_
  end.

Definition check_memmap_region_usable (start size : Z) : M loader_memmap Z :=
  let end_ := u64 (start + size) in
  gets (λ m, check_loop (take (Z.to_nat (num_entries m)) (entries m)) start end_).
