(* ===== verification/MemmapSpec.v ===== *)
(** Correctness of the physical memory map ([src/src/libk/lib/memmap.c], model:
    file Memmap).

    The map is read as a function from addresses to the type of the entry that
    covers them.  Claiming a region inside one entry changes that function
    exactly on the region, allocation picks a region that was usable, and the
    cases in which the code does something else are stated as such. *)

From stdpp Require Import base list gmap.
From Stdlib Require Import ZArith Lia.
From Corelib Require Import ssreflect.
From S2P Require Import Prelude Bits Mem Palloc Memmap.

(** ** The view of a map as a list *)

(** A map whose used slots hold [live] and whose free slots hold [rest]. *)
Definition mm (live rest : list loader_memmap_entry) : loader_memmap :=
  mk_memmap (Z.of_nat (length (live ++ rest))) (Z.of_nat (length live)) (live ++ rest).

(** Entries are in address order from [lo] on, not empty and do not overlap. *)
Fixpoint ordered (lo : Z) (es : list loader_memmap_entry) : Prop :=
  match es with
  | [] => True
  | e :: es' => lo ≤ e_start e ∧ 0 < e_size e ∧ e_start e + e_size e < 2 ^ 64 ∧
      ordered (e_start e + e_size e) es'
  end.

Definition in_entry (e : loader_memmap_entry) (x : Z) : Prop :=
  e_start e ≤ x < e_start e + e_size e.

#[export] Instance in_entry_dec e x : Decision (in_entry e x).
Proof. rw /in_entry. apply _. Defined.

(** The type of the memory at address [x], if any entry covers it. *)
Fixpoint flag_at (es : list loader_memmap_entry) (x : Z) : option Z :=
  match es with
  | [] => None
  | e :: es' => if decide (in_entry e x) then Some (e_flags e) else flag_at es' x
  end.

(** ** The slot operations on lists *)

Section Slots.
Implicit Types (A B C live rest : list loader_memmap_entry) (e x y : loader_memmap_entry).

Lemma snoc_app A e B : A ++ e :: B = (A ++ [e]) ++ B.
Proof. by rw -app_assoc. Qed.

Lemma wp_read_at i A e B live rest (Q : loader_memmap_entry → loader_memmap → Prop) :
  live = A ++ e :: B → i = Z.of_nat (length A) → Q e (mm live rest) →
  wp (read_entry i) Q (mm live rest).
Proof.
  intros -> -> HQ. eapply wp_deref; [|exact HQ]. cbn.
  rw (proj2 (Z.ltb_ge _ _)); [lia|]. rw Nat2Z.id -app_assoc /=. by apply list_lookup_middle.
Qed.

Lemma wp_write_at i f A e B live rest (Q : unit → loader_memmap → Prop) :
  live = A ++ e :: B → i = Z.of_nat (length A) → Q tt (mm (A ++ f e :: B) rest) →
  wp (write_entry i f) Q (mm live rest).
Proof.
  intros -> -> HQ. rw /write_entry. wp_step. eapply wp_read_at; [done|done|]. wp_step.
  eapply eq_ind; [exact HQ|]. rw /set_entries /mm /= Nat2Z.id. f_equal; [by rw !length_app..|].
  by rw -!app_assoc /= insert_app_r_alt // Nat.sub_diag.
Qed.

(** The copying loop of [insert_entry], one free slot after the entries. *)
Lemma wp_shift_up A B y C n s (Q : unit → loader_memmap → Prop) :
  Q tt (mk_memmap s n (A ++ default y (head B) :: B ++ C)) →
  wp (shift_up (length B) (Z.of_nat (length A))) Q (mk_memmap s n (A ++ B ++ y :: C)).
Proof.
  revert y C. induction B as [|b B IH] using rev_ind; intros y C HQ; [done|].
  rw length_app Nat.add_comm. cbn [length Nat.add shift_up].
  assert (Z.of_nat (length A) + Z.of_nat (length B) = Z.of_nat (length (A ++ B))) as -> by (rw length_app; lia).
  wp_step. rw /copy_entry. wp_step.
  eapply wp_deref. { cbn. rw (proj2 (Z.ltb_ge _ _)); [lia|]. rw Nat2Z.id -app_assoc app_assoc /=. by apply list_lookup_middle. }
  rw /write_entry. wp_step. eapply wp_deref.
  { cbn. rw (proj2 (Z.ltb_ge _ _)); [lia|]. rw -app_assoc (app_assoc A B) /= snoc_app. apply list_lookup_middle.
    rw !length_app /=. lia. }
  wp_step. rw /set_entries /=.
  assert (<[Z.to_nat (Z.of_nat (length (A ++ B)) + 1) := b]> (A ++ (B ++ [b]) ++ y :: C) = A ++ B ++ b :: b :: C) as ->.
  { rw -app_assoc (app_assoc A B) /= (snoc_app (A ++ B) b) insert_app_r_alt; [rw !length_app /=; lia|].
    replace (Z.to_nat _ - _)%nat with 0%nat by (rw !length_app /=; lia). cbn. by rw -!app_assoc. }
  apply IH. rw -app_assoc in HQ. destruct B as [|b' B]; cbn in *; exact HQ.
Qed.

Lemma wp_insert_at i A B y rest live (Q : Z → loader_memmap → Prop) :
  live = A ++ B → i = Z.of_nat (length A) →
  Q i (mm (A ++ default y (head B) :: B) rest) →
  wp (insert_entry i) Q (mm live (y :: rest)).
Proof.
  intros -> -> HQ. rw /insert_entry. do 2 wp_step. wp_step. cbn. wp_step.
  { apply Z.leb_gt. rw !length_app /=. lia. }
  do 2 wp_step. wp_step. wp_step. { cbn. apply Z.ltb_ge. rw !length_app /=. lia. }
  wp_step. cbn [num_entries mm].
  replace (Z.to_nat (Z.of_nat (length (A ++ B)) - Z.of_nat (length A))) with (length B) by (rw length_app; lia).
  rw /mm -app_assoc. apply wp_shift_up. do 2 wp_step. wp_step.
  eapply eq_ind; [exact HQ|]. rw /set_num_entries /mm /=.
  f_equal; [rw ?length_app /= ?length_app /=; lia..|by rw -app_assoc].
Qed.

Lemma wp_copy_at dst src A e B A' e' B' live rest (Q : unit → loader_memmap → Prop) :
  live = A ++ e :: B → src = Z.of_nat (length A) →
  live = A' ++ e' :: B' → dst = Z.of_nat (length A') →
  Q tt (mm (A' ++ e :: B') rest) → wp (copy_entry dst src) Q (mm live rest).
Proof.
  intros E1 -> E2 -> HQ. rw /copy_entry. wp_step. eapply wp_read_at; [exact E1|done|].
  eapply wp_write_at; [exact E2|done|exact HQ].
Qed.

(** The copying loop of [remove_entry]. *)
Lemma wp_shift_down A x B live rest (Q : Z → loader_memmap → Prop) :
  live = A ++ x :: B →
  (∀ z, Q (Z.of_nat (length (A ++ B))) (mm (A ++ B ++ [z]) rest)) →
  wp (shift_down (length B) (Z.of_nat (length A))) Q (mm live rest).
Proof.
  revert A x live. induction B as [|b B IH]; intros A x live -> HQ; cbn [length shift_down].
  - wp_step. rw app_nil_r in HQ. apply HQ.
  - wp_step. eapply (wp_copy_at _ _ (A ++ [x]) b B A x (b :: B)); [by rw -app_assoc|rw length_app /=; lia|done|done|].
    replace (Z.of_nat (length A) + 1) with (Z.of_nat (length (A ++ [b]))) by (rw length_app /=; lia).
    eapply (IH _ b); [by rw -app_assoc|]. intros z. rw -!app_assoc. apply HQ.
Qed.

Lemma wp_remove_at i A e B live rest (Q : unit → loader_memmap → Prop) :
  live = A ++ e :: B → i = Z.of_nat (length A) → Q tt (mm (A ++ B) (zero_entry :: rest)) →
  wp (remove_entry i) Q (mm live rest).
Proof.
  intros -> -> HQ. rw /remove_entry. wp_step. wp_step. cbn [num_entries mm].
  rw (proj2 (Z.ltb_ge _ _)); [rw length_app; lia|].
  replace (Z.to_nat _) with (length B) by (rw length_app /=; lia).
  wp_step. eapply (wp_shift_down A e B); [done|]. intros z.
  wp_step. eapply (wp_write_at _ _ (A ++ B) z []); [by rw -app_assoc|done|].
  wp_step. eapply eq_ind; [exact HQ|]. rw /set_num_entries /mm /=.
  f_equal; [by rw -!app_assoc|rw ?length_app /= ?length_app /=; lia|by rw -!app_assoc].
Qed.

(** ** Splitting *)

Definition head_part (off : Z) (e : loader_memmap_entry) : loader_memmap_entry := with_size off e.
Definition tail_part (off : Z) (e : loader_memmap_entry) : loader_memmap_entry :=
  mk_entry (e_start e + off) (e_size e - off) (e_flags e) (e_tags e).

(** The entry's bounds are 64-bit values. *)
Definition bounded (e : loader_memmap_entry) : Prop :=
  0 ≤ e_start e ∧ 0 < e_size e ∧ e_start e + e_size e < 2 ^ 64.

Lemma wp_split_at i off A e B y live rest (Q : Z → loader_memmap → Prop) :
  live = A ++ e :: B → i = Z.of_nat (length A) → bounded e → 0 ≤ off < e_size e →
  Q (i + 1) (mm (A ++ head_part off e :: tail_part off e :: B) rest) →
  wp (split_entry i off) Q (mm live (y :: rest)).
Proof.
  intros -> -> (?&?&?) Hoff HQ. rw /split_entry. wp_step. eapply wp_read_at; [done|done|].
  wp_step. wp_step; [apply Z.leb_gt; lia|].
  assert (Z.of_nat (length A) + 1 = Z.of_nat (length (A ++ [e]))) as E by (rw length_app /=; lia).
  wp_step. eapply (wp_insert_at _ (A ++ [e]) B); [by rw -app_assoc|exact E|]. set (x := default y (head B)).
  wp_step. eapply (wp_copy_at _ _ A e (x :: B) (A ++ [e]) x B); [by rw -app_assoc|done|done|exact E|].
  wp_step. eapply (wp_write_at _ _ A e (e :: B)); [by rw -app_assoc|done|].
  wp_step. eapply (wp_write_at _ _ (A ++ [with_size off e]) e B); [by rw -app_assoc|rw length_app /=; lia|].
  wp_step. eapply (wp_write_at _ _ (A ++ [with_size off e])); [done|rw length_app /=; lia|].
  wp_step. eapply eq_ind; [exact HQ|]. f_equal. rw -app_assoc /tail_part /with_start /=.
  rw !wrap_small //; rw /uint; lia.
Qed.

Lemma wp_split2_at i off1 off2 A e B y1 y2 live rest (Q : Z → loader_memmap → Prop) :
  live = A ++ e :: B → i = Z.of_nat (length A) → bounded e → 0 ≤ off1 < off2 → off2 < e_size e →
  Q (i + 1) (mm (A ++ head_part off1 e :: head_part (off2 - off1) (tail_part off1 e) ::
                 tail_part off2 e :: B) rest) →
  wp (split_entry2 i off1 off2) Q (mm live (y1 :: y2 :: rest)).
Proof.
  intros -> -> (?&?&?) Hoff1 Hoff2 HQ. rw /split_entry2. wp_step. eapply wp_read_at; [done|done|].
  wp_step. wp_step; [rw !orb_false_iff !Z.leb_gt; lia|].
  assert (Z.of_nat (length A) + 1 = Z.of_nat (length (A ++ [e]))) as E by (rw length_app /=; lia).
  wp_step. eapply (wp_insert_at _ (A ++ [e]) B); [by rw -app_assoc|exact E|]. set (x := default y1 (head B)).
  wp_step. eapply (wp_copy_at _ _ A e (x :: B) (A ++ [e]) x B); [by rw -app_assoc|done|done|exact E|].
  wp_step. eapply (wp_write_at _ _ (A ++ [e]) e B); [done|exact E|].
  wp_step. eapply (wp_write_at _ _ (A ++ [e])); [done|exact E|].
  set (e3 := with_start _ _). wp_step. eapply (wp_insert_at _ (A ++ [e]) (e3 :: B)); [done|exact E|]. cbn [head default from_option id].
  wp_step. eapply (wp_copy_at _ _ A e (e3 :: e3 :: B) (A ++ [e]) e3 (e3 :: B)); [by rw -app_assoc|done|done|exact E|].
  wp_step. eapply (wp_write_at _ _ (A ++ [e])); [done|exact E|].
  wp_step. eapply (wp_write_at _ _ (A ++ [e])); [done|exact E|].
  wp_step. eapply (wp_write_at _ _ A e); [by rw -app_assoc|done|].
  wp_step. eapply eq_ind; [exact HQ|]. f_equal.
  rw /e3 /tail_part /head_part /with_start /with_size /=. rw !wrap_small //; rw /uint; lia.
Qed.

(** ** Merging *)

(** What [merge_consecutive_regions] makes of the entries from [e] on. *)
Fixpoint merge_with (e : loader_memmap_entry) (es : list loader_memmap_entry) : list loader_memmap_entry :=
  match es with
  | [] => [e]
  | e' :: es' =>
      if (entry_end e =? e_start e') && (e_flags e =? e_flags e')
      then merge_with (with_size (u64 (e_size e + e_size e')) e) es'
      else e :: merge_with e' es'
  end.

Definition merge_list (es : list loader_memmap_entry) : list loader_memmap_entry :=
  match es with
  | [] => []
  | e :: es' => merge_with e es'
  end.

Lemma wp_merge_loop fuel A e B live rest (Q : unit → loader_memmap → Prop) :
  live = A ++ e :: B → (length B ≤ fuel)%nat →
  (∀ rest', (length rest ≤ length rest')%nat → Q tt (mm (A ++ merge_with e B) rest')) →
  wp (merge_loop fuel (Z.of_nat (length A))) Q (mm live rest).
Proof.
  revert A e B live rest. induction fuel as [|fuel IH]; intros A e B live rest -> Hf HQ;
    cbn [merge_loop]; wp_step; wp_step; cbn [num_entries mm]; destruct B as [|b B].
  1, 3: rw (proj2 (Z.ltb_ge _ _)); [rw length_app /=; lia|]; wp_step; by apply HQ.
  - cbn in Hf. lia.
  - rw (proj2 (Z.ltb_lt _ _)); [rw length_app /=; lia|].
    assert (Z.of_nat (length A) + 1 = Z.of_nat (length (A ++ [e]))) as E by (rw length_app /=; lia).
    wp_step. eapply wp_read_at; [done|done|]. wp_step.
    eapply (wp_read_at _ (A ++ [e]) b B); [by rw -app_assoc|exact E|]. cbn [merge_with] in HQ.
    destruct ((entry_end e =? e_start b) && (e_flags e =? e_flags b)).
    + wp_step. eapply wp_write_at; [done|done|]. wp_step.
      set (e' := with_size _ e). eapply (wp_remove_at _ (A ++ [e']) b B); [by rw -app_assoc|rw length_app /=; lia|].
      eapply (IH A e' B); [by rw -app_assoc|cbn in Hf; lia|]. intros rest' Hr. apply HQ. cbn in Hr. lia.
    + rw E. eapply (IH (A ++ [e]) b B); [by rw -app_assoc|cbn in Hf; lia|].
      intros rest' Hr. rw -app_assoc. by apply HQ.
Qed.

Lemma wp_merge live rest (Q : unit → loader_memmap → Prop) :
  (∀ rest', (length rest ≤ length rest')%nat → Q tt (mm (merge_list live) rest')) →
  wp merge_consecutive_regions Q (mm live rest).
Proof.
  intros HQ. rw /merge_consecutive_regions. wp_step. wp_step. destruct live as [|e B].
  - cbn. by apply HQ.
  - cbn [num_entries mm]. eapply (wp_merge_loop _ [] e B); [done|cbn; lia|done].
Qed.

End Slots.

(** ** Meaning of the lists *)

Section Meaning.

Lemma ordered_weaken lo lo' es : lo' ≤ lo → ordered lo es → ordered lo' es.
Proof. destruct es; [done|]. cbn. intros ? (?&?&?&?). split_and!; try done; lia. Qed.

Lemma ordered_app lo A e B : ordered lo (A ++ e :: B) → 0 ≤ lo →
  bounded e ∧ (∀ a, a ∈ A → bounded a ∧ e_start a + e_size a ≤ e_start e) ∧
  ordered (e_start e) (e :: B).
Proof.
  revert lo. induction A as [|a A IH]; intros lo.
  - cbn. intros (?&?&?&?) ?. split; [split_and!; lia|]. split; [by intros a ?%elem_of_nil|].
    split_and!; try done; lia.
  - cbn [app ordered]. intros (?&?&?&Ho) ?. destruct (IH _ Ho ltac:(lia)) as (?&HA&?).
    split; [done|]. split; [|done]. intros a' [->|Ha]%elem_of_cons; [|by apply HA]. split; [split_and!; lia|].
    assert (∀ lo A, ordered lo (A ++ e :: B) → lo ≤ e_start e) as Hle.
    { clear. intros lo A. revert lo. induction A as [|a A IH]; intros lo; cbn; [tauto|].
      intros (?&?&?&Ho). apply IH in Ho. lia. }
    by apply Hle in Ho.
Qed.

Lemma ordered_above lo es x : ordered lo es → x < lo → flag_at es x = None.
Proof.
  revert lo. induction es as [|e es IH]; intros lo; [done|]. cbn. intros (?&?&?&Ho) Hx.
  rw decide_False; [rw /in_entry; lia|]. apply (IH _ Ho). lia.
Qed.

(** Replacing one entry by entries inside its bounds. *)
Lemma ordered_replace lo A e D B : ordered lo (A ++ e :: B) →
  (∀ lo', lo' ≤ e_start e → ordered (e_start e + e_size e) B → ordered lo' (D ++ B)) →
  ordered lo (A ++ D ++ B).
Proof.
  intros Ho HD. revert lo Ho. induction A as [|a A IH]; intros lo; cbn.
  - intros (?&?&?&?). by apply HD.
  - intros (?&?&?&Ho). split_and!; try done. by apply IH.
Qed.

Lemma flag_replace A e D B x : (flag_at (D ++ B) x = flag_at (e :: B) x) →
  flag_at (A ++ D ++ B) x = flag_at (A ++ e :: B) x.
Proof.
  intros HD. induction A as [|a A IH]; cbn [app flag_at]; [exact HD|]. by case_decide.
Qed.

Lemma entry_end_small e : bounded e → entry_end e = e_start e + e_size e.
Proof. intros (?&?&?). apply wrap_small. rw /uint. lia. Qed.

(** Merging entries keeps the order and the type of every address. *)
Lemma merge_with_meaning lo e es : 0 ≤ lo → ordered lo (e :: es) →
  ordered lo (merge_with e es) ∧ ∀ x, flag_at (merge_with e es) x = flag_at (e :: es) x.
Proof.
  revert lo e. induction es as [|e' es IH]; intros lo e Hlo Ho; [done|].
  cbn [merge_with]. pose proof Ho as (?&?&?&He'). pose proof He' as (?&?&?&Hes).
  rw entry_end_small; [split_and!; lia|].
  destruct (Z.eqb_spec (e_start e + e_size e) (e_start e')) as [E|E]; cbn [andb].
  1: destruct (Z.eqb_spec (e_flags e) (e_flags e')) as [Ef|Ef].
  2, 3: destruct (IH (e_start e + e_size e) e' ltac:(lia) He') as [Ho' Hf']; split;
    [cbn; by split_and!|intros x; cbn [flag_at]; case_decide; [done|apply Hf']].
  rw wrap_small; [rw /uint; lia|].
  destruct (IH lo (with_size (e_size e + e_size e') e) Hlo) as [Ho' Hf'].
  { cbn. split_and!; try lia. eapply ordered_weaken; [|exact Hes]. lia. }
  split; [done|]. intros x. rw Hf'. cbn [flag_at]. rw /in_entry /with_size /=.
  repeat case_decide; try done; try lia; congruence.
Qed.

Lemma merge_meaning lo es : 0 ≤ lo → ordered lo es →
  ordered lo (merge_list es) ∧ ∀ x, flag_at (merge_list es) x = flag_at es x.
Proof. destruct es; [done|]. apply merge_with_meaning. Qed.

(** *** Cutting a region out of an entry *)

(** The entries that replace [e] when [size] bytes from [start] become [type]. *)
Definition carve (e : loader_memmap_entry) (start size type : Z) : list loader_memmap_entry :=
  let pre := start - e_start e in
  let post := e_start e + e_size e - (start + size) in
  (if 0 <? pre then [head_part pre e] else []) ++
  [mk_entry start size type (e_tags e)] ++
  (if 0 <? post then [tail_part (pre + size) e] else []).

Definition inside (e : loader_memmap_entry) (start size : Z) : Prop :=
  bounded e ∧ 0 < size ∧ e_start e ≤ start ∧ start + size ≤ e_start e + e_size e.

Lemma carve_ordered lo A e B start size type : inside e start size →
  ordered lo (A ++ e :: B) → ordered lo (A ++ carve e start size type ++ B).
Proof.
  intros ((?&?&?)&?&?&?) Ho. eapply ordered_replace; [exact Ho|]. intros lo' Hlo HB.
  assert (start + size = e_start e + e_size e → ordered (start + size) B) as HB' by (by intros ->).
  rw /carve. destruct (Z.ltb_spec 0 (start - e_start e)), (Z.ltb_spec 0 (e_start e + e_size e - (start + size)));
    cbn; split_and!; try lia; try (apply HB'; lia).
  all: eapply ordered_weaken; [|exact HB]; lia.
Qed.

Lemma carve_flag A e B start size type x : inside e start size →
  ordered 0 (A ++ e :: B) →
  flag_at (A ++ carve e start size type ++ B) x =
    if decide (start ≤ x < start + size) then Some type else flag_at (A ++ e :: B) x.
Proof.
  intros ((?&?&?)&?&?&?) Ho. case_decide as Hx.
  - destruct (ordered_app _ _ _ _ Ho ltac:(lia)) as (_ & HA & _).
    clear Ho. induction A as [|a A IH]; cbn [app].
    + rw /carve. destruct (0 <? start - e_start e); cbn [app flag_at];
        rw ?(decide_False (P := in_entry (head_part _ _) _)) ?(decide_True (P := in_entry (mk_entry _ _ _ _) _)) //;
        rw /in_entry /=; lia.
    + cbn [flag_at]. destruct (HA a ltac:(by left)) as [(?&?&?) ?].
      rw decide_False; [rw /in_entry; lia|]. apply IH. intros; apply HA. by right.
  - apply flag_replace. rw /carve.
    destruct (Z.ltb_spec 0 (start - e_start e)), (Z.ltb_spec 0 (e_start e + e_size e - (start + size)));
      cbn [app flag_at]; rw /in_entry /head_part /tail_part /with_size /=;
      repeat case_decide; try done; lia.
Qed.

End Meaning.

(** ** Claiming a region inside an entry *)

Section Claim.

(** An entry that ends before the claimed region is passed over. *)
Lemma wp_claim_skip A a B live rest start size end_ type (Q : Z * Z * Z → loader_memmap → Prop) :
  live = A ++ a :: B → bounded a → e_start a + e_size a ≤ start → start < end_ →
  Q (Z.of_nat (length A), start, size) (mm live rest) →
  wp (claim_step (Z.of_nat (length A)) start size end_ type) Q (mm live rest).
Proof.
  intros -> Ha Hle Hend HQ. pose proof Ha as (?&?&?). rw /claim_step. wp_step. eapply wp_read_at; [done|done|].
  rw entry_end_small //. rw (proj2 (Z.leb_gt _ _)); [lia|]. rw (proj2 (Z.ltb_ge start _)); [lia|].
  rw (proj2 (Z.eqb_neq _ _)); [lia|]. rw (proj2 (Z.ltb_ge start (e_start a + e_size a))); [lia|].
  rw andb_false_r. by wp_step.
Qed.

(** The round that finds the entry cuts the region out of it and leaves nothing to do. *)
Lemma wp_claim_hit A e B live rest start size type (Q : Z * Z * Z → loader_memmap → Prop) :
  live = A ++ e :: B → inside e start size → (2 ≤ length rest)%nat →
  (∀ i s rest', Q (i, s, 0) (mm (A ++ carve e start size type ++ B) rest')) →
  wp (claim_step (Z.of_nat (length A)) start size (start + size) type) Q (mm live rest).
Proof.
  intros -> (Hb & Hsz & Hst & Hen) Hrest HQ. pose proof Hb as (?&?&?).
  destruct rest as [|y1 [|y2 rest]]; cbn in Hrest; [lia..|].
  rw /claim_step. wp_step. eapply wp_read_at; [done|done|].
  rw entry_end_small //. rw (proj2 (Z.leb_gt _ _)); [lia|]. rw (proj2 (Z.ltb_ge start _)); [lia|].
  destruct (Z.eqb_spec start (e_start e)) as [->|Hne].
  - rw /carve Z.sub_diag in HQ. cbn [Z.ltb] in HQ. destruct (Z.leb_spec (e_size e) size) as [Hle|Hgt].
    + assert (size = e_size e) as -> by lia. wp_step. eapply wp_write_at; [done|done|]. wp_step.
      rw Z.sub_diag. rw Z.sub_diag in HQ. cbn in HQ. apply HQ.
    + wp_step. eapply wp_split_at; [done|done|done|lia|].
      wp_step. eapply wp_write_at; [done|done|]. wp_step.
      rw (proj2 (Z.ltb_lt 0 (e_start e + e_size e - (e_start e + size)))) in HQ; [lia|]. cbn in HQ. apply HQ.
  - rw (proj2 (Z.ltb_lt _ _)); [lia|]. rw (proj2 (Z.ltb_lt start _)); [lia|]. cbn [andb].
    rw /carve (proj2 (Z.ltb_lt 0 (start - e_start e))) in HQ; [lia|].
    rw (wrap_small 64 (start - e_start e)); [rw /uint; lia|].
    assert (∀ x : loader_memmap_entry, Z.of_nat (length A) + 1 = Z.of_nat (length (A ++ [x]))) as E
      by (intros; rw length_app /=; lia).
    destruct (Z.leb_spec (e_start e + e_size e) (start + size)) as [Hle|Hgt].
    + rw (proj2 (Z.ltb_ge 0 (e_start e + e_size e - (start + size)))) in HQ; [lia|].
      wp_step. eapply wp_split_at; [done|done|done|lia|].
      wp_step. eapply (wp_write_at _ _ (A ++ [head_part (start - e_start e) e])); [by rw -app_assoc|apply E|].
      wp_step. eapply (wp_read_at _ (A ++ [head_part (start - e_start e) e])); [done|apply E|]. wp_step.
      replace (size - e_size (with_flags type (tail_part (start - e_start e) e))) with 0 by (cbn; lia).
      refine (eq_ind_r (Q _) (HQ _ _ (y2 :: rest)) _).
      rw -app_assoc /with_flags /tail_part /=. f_equal. f_equal. f_equal. f_equal. f_equal; lia.
    + rw (proj2 (Z.ltb_lt 0 (e_start e + e_size e - (start + size)))) in HQ; [lia|].
      rw (wrap_small 64 (start + size - e_start e)); [rw /uint; lia|].
      wp_step. eapply wp_split2_at; [done|done|done|lia|lia|].
      wp_step. eapply (wp_write_at _ _ (A ++ [head_part (start - e_start e) e])); [by rw -app_assoc|apply E|].
      wp_step. refine (eq_ind_r (Q _) (HQ _ _ rest) _).
      rw -app_assoc /with_flags /head_part /tail_part /with_size /=. f_equal. f_equal. f_equal.
      f_equal; [f_equal; lia|]. f_equal. f_equal; lia.
Qed.


Lemma wp_claim_loop fuel A1 A2 e B rest start size type (Q : Z * Z → loader_memmap → Prop) :
  ordered 0 ((A1 ++ A2) ++ e :: B) → inside e start size → (2 ≤ length rest)%nat →
  (length A2 < fuel)%nat →
  (∀ s rest', Q (s, 0) (mm ((A1 ++ A2) ++ carve e start size type ++ B) rest')) →
  wp (claim_loop fuel (Z.of_nat (length A1)) start size (start + size) type) Q (mm ((A1 ++ A2) ++ e :: B) rest).
Proof.
  intros Ho Hin Hrest. pose proof Hin as (Hb & Hsz & Hst & Hen).
  destruct (ordered_app _ _ _ _ Ho ltac:(lia)) as (_ & HA & _).
  assert (ctrue size = true) as Hct by (rw /ctrue (proj2 (Z.eqb_neq _ _)); [lia|done]).
  revert A1 Ho HA fuel. induction A2 as [|a A2 IH]; intros A1 Ho HA [|fuel] Hf HQ; cbn in Hf; [lia| |lia|].
  - rw app_nil_r. rw app_nil_r in HQ. cbn [claim_loop]. wp_step. wp_step. cbn [num_entries mm].
    rw (proj2 (Z.ltb_lt _ _)); [rw length_app /=; lia|]. rw Hct. cbn [andb].
    wp_step. eapply wp_claim_hit; [done|done|done|]. intros i s rest'.
    destruct fuel; cbn [claim_loop]; wp_step; wp_step; rw andb_false_r; wp_step; apply HQ.
  - cbn [claim_loop]. wp_step. wp_step. cbn [num_entries mm].
    rw (proj2 (Z.ltb_lt _ _)); [rw !length_app /=; lia|]. rw Hct. cbn [andb].
    destruct (HA a ltac:(set_solver)) as [Hba Hle]. rw (snoc_app A1 a A2) in Ho HA HQ |- *.
    wp_step. eapply (wp_claim_skip A1 a (A2 ++ e :: B)); [by rw -!app_assoc|done|lia|lia|].
    replace (Z.of_nat (length A1) + 1) with (Z.of_nat (length (A1 ++ [a]))) by (rw length_app /=; lia).
    apply IH; [done|done|lia|done].
Qed.

Lemma wp_claim_inside A e B rest start size type (Q : unit → loader_memmap → Prop) :
  ordered 0 (A ++ e :: B) → inside e start size → (2 ≤ length rest)%nat →
  (∀ rest', Q tt (mm (merge_list (A ++ carve e start size type ++ B)) rest')) →
  wp (claim_memmap_region start size type) Q (mm (A ++ e :: B) rest).
Proof.
  intros Ho Hin Hrest HQ. pose proof Hin as ((?&?&?) & Hsz & Hst & Hen).
  rw /claim_memmap_region. rw wrap_small; [rw /uint; lia|]. wp_step. wp_step.
  wp_step. eapply (wp_claim_loop _ [] A e B); [exact Ho|done|done|cbn; rw !length_app; lia|].
  intros s rest'. cbn [ctrue Z.eqb negb]. wp_step. wp_step. apply wp_merge. intros; apply HQ.
Qed.

(** ** A claim that begins before an entry and reaches into it *)

(** Each round inserts an empty entry and does not advance, so the slots run out. *)
Lemma claim_before_panics fuel A e B rest start size end_ type :
  start < e_start e → e_start e < end_ → 0 < size → uint 64 start → uint 64 size →
  (length rest < fuel)%nat →
  claim_loop fuel (Z.of_nat (length A)) start size end_ type (mm (A ++ e :: B) rest) = Panic.
Proof.
  intros Hst Hend Hsz Hu Hu'. assert (ctrue size = true) as Hct by (rw /ctrue (proj2 (Z.eqb_neq _ _)); [lia|done]).
  revert A fuel. induction rest as [|y rest IH]; intros A [|fuel] Hf; cbn in Hf; [lia| |lia|].
  - cbn [claim_loop]. rw /mbind /M_bind /gets. cbn [num_entries mm].
    rw (proj2 (Z.ltb_lt _ _)); [rw length_app /=; lia|]. rw Hct. cbn [andb].
    assert (claim_step (Z.of_nat (length A)) start size end_ type (mm (A ++ e :: B) []) = Panic) as ->; [|done].
    rw /claim_step /mbind /M_bind. pose proof (wp_elim (read_entry (Z.of_nat (length A)))
      (λ e' m', e' = e ∧ m' = mm (A ++ e :: B) []) (mm (A ++ e :: B) [])) as (? & ? & -> & -> & ->).
    { by eapply wp_read_at. }
    rw (proj2 (Z.leb_gt _ _)); [lia|]. rw (proj2 (Z.ltb_lt _ _)); [lia|].
    rw /insert_entry /mbind /M_bind /gets. cbn [num_slots num_entries mm].
    rw app_nil_r Z.leb_refl. done.
  - cbn [claim_loop]. rw {1}/mbind /M_bind {1}/gets. cbn [num_entries mm].
    rw (proj2 (Z.ltb_lt _ _)); [rw length_app /=; lia|]. rw Hct. cbn [andb].
    rw {1}/mbind.
    set (z := mk_entry start 0 type (e_tags e)).
    assert (claim_step (Z.of_nat (length A)) start size end_ type (mm (A ++ e :: B) (y :: rest)) =
      Ret (Z.of_nat (length A), start, size, mm (A ++ z :: e :: B) rest)) as ->.
    { destruct (wp_elim (claim_step (Z.of_nat (length A)) start size end_ type)
        (λ r m', r = (Z.of_nat (length A), start, size) ∧ m' = mm (A ++ z :: e :: B) rest)
        (mm (A ++ e :: B) (y :: rest))) as (? & ? & -> & -> & ->); [|done].
      rw /claim_step. wp_step. eapply wp_read_at; [done|done|].
      rw (proj2 (Z.leb_gt _ _)); [lia|]. rw (proj2 (Z.ltb_lt _ _)); [lia|].
      wp_step. eapply (wp_insert_at _ A (e :: B)); [done|done|]. cbn [head default from_option id].
      wp_step. eapply wp_write_at; [done|done|]. wp_step. eapply wp_write_at; [done|done|].
      wp_step. eapply wp_write_at; [done|done|]. wp_step. eapply wp_read_at; [done|done|]. wp_step.
      cbn [e_size e_start with_flags with_size with_start]. rw Z.sub_diag.
      change (wrap 64 0) with 0. rw Z.add_0_r Z.sub_0_r !wrap_small //. }
    cbn beta iota.
    replace (Z.of_nat (length A) + 1) with (Z.of_nat (length (A ++ [z]))) by (rw length_app /=; lia).
    rw (snoc_app A z (e :: B)). apply IH. lia.
Qed.

End Claim.

(** ** Finding free memory *)

Section Find.

(** An alignment the function accepts: none, or a power of two. *)
Definition valid_align (align : Z) : Prop := align = 0 ∨ ∃ k, 0 ≤ k < 64 ∧ align = 2 ^ k.

(** Where a region of the entry would be placed. *)
Definition place (e : loader_memmap_entry) (align : Z) : Z :=
  if decide (align = 0) then e_start e else align * ((e_start e + align - 1) / align).

(** The entry can serve the request. *)
Definition fits (e : loader_memmap_entry) (size align mask : Z) (m : alloc_match) : Prop :=
  e_flags e = MEMMAP_USABLE ∧ place e align + size ≤ e_start e + e_size e ∧
  tags_matched (e_tags e) mask m = true.

(** Rounding up to the alignment does not overflow for any entry. *)
Definition align_room (es : list loader_memmap_entry) (align : Z) : Prop :=
  ∀ e, e ∈ es → e_start e + align ≤ 2 ^ 64.

Lemma place_start e align : valid_align align → e_start e ≤ place e align.
Proof.
  intros Ha. rw /place. case_decide; [lia|]. destruct Ha as [|(k & ? & ->)]; [done|].
  destruct (round_up_least (2 ^ k) (e_start e) ltac:(lia)) as [_ ?]. lia.
Qed.

Lemma place_aligned e align : valid_align align → align ≠ 0 → (align | place e align).
Proof. intros _ Hne. rw /place decide_False //. apply Z.divide_factor_l. Qed.

Lemma place_value e align : bounded e → valid_align align → e_start e + align ≤ 2 ^ 64 →
  (if ctrue align then ALIGN_UP 64 (e_start e) align else e_start e) = place e align.
Proof.
  intros (?&?&?) Ha Hroom. rw /place /ctrue. destruct Ha as [->|(k & ? & ->)]; [done|].
  assert (0 < 2 ^ k) by lia. rw (proj2 (Z.eqb_neq _ _)); [lia|]. rw decide_False; [lia|].
  cbn [negb]. apply ALIGN_UP_pow2; lia.
Qed.

Lemma fits_test e size align mask m : bounded e → valid_align align → e_start e + align ≤ 2 ^ 64 →
  0 < size →
  ((e_flags e =? MEMMAP_USABLE) && (size <=? e_size e) && (place e align <? entry_end e) &&
    (size <=? u64 (entry_end e - place e align)) && tags_matched (e_tags e) mask m) = true ↔
  fits e size align mask m.
Proof.
  intros Hb Ha Hroom Hsz. pose proof Hb as (?&?&?). pose proof (place_start e align Ha).
  rw entry_end_small // !andb_true_iff Z.eqb_eq !Z.leb_le Z.ltb_lt /fits. split.
  - intros ((((?&?)&?)&Hfit)&?). rw wrap_small in Hfit; [rw /uint; lia|]. split_and!; try done; lia.
  - intros (?&?&?). rw wrap_small; [rw /uint; lia|]. split_and!; try done; lia.
Qed.

(** What an allocation does to the map. *)
Definition allocated_from (es : list loader_memmap_entry) (size align mask : Z) (m : alloc_match)
    (paddr : Z) (m' : loader_memmap) : Prop :=
  ∃ e es' rest', e ∈ es ∧ fits e size align mask m ∧ paddr = place e align ∧ inside e paddr size ∧
    m' = mm es' rest' ∧ ordered 0 es' ∧
    ∀ x, flag_at es' x = if decide (paddr ≤ x < paddr + size) then Some MEMMAP_USED else flag_at es x.

Lemma wp_find_loop A B rest size align mask m :
  ordered 0 (A ++ B) → (2 ≤ length rest)%nat → valid_align align → align_room (A ++ B) align → 0 < size →
  wp (find_loop (length B) (Z.of_nat (length A)) size align mask m) (λ paddr m',
    (paddr = 0 ∧ m' = mm (A ++ B) rest ∧ ∀ e, e ∈ B → ¬ fits e size align mask m) ∨
    allocated_from (A ++ B) size align mask m paddr m') (mm (A ++ B) rest).
Proof.
  intros Ho Hrest Ha Hroom Hsz. revert A Ho Hroom. induction B as [|e B IH]; intros A Ho Hroom; cbn [length find_loop].
  { wp_step. left. split_and!; [done..|]. by intros e ?%elem_of_nil. }
  destruct (ordered_app _ _ _ _ Ho ltac:(lia)) as (Hb & _ & _). pose proof Hb as (?&?&?).
  assert (e_start e + align ≤ 2 ^ 64) as Hre by (apply Hroom; set_solver).
  wp_step. eapply wp_read_at; [done|done|]. rw place_value //.
  pose proof (fits_test e size align mask m Hb Ha Hre Hsz) as Hiff.
  destruct ((e_flags e =? MEMMAP_USABLE) && _ && _ && _ && _).
  - pose proof (proj1 Hiff eq_refl) as Hfit. pose proof Hfit as (_ & Hend & _).
    assert (inside e (place e align) size) as Hin by (split_and!; try done; by apply place_start).
    wp_step. apply wp_claim_inside; [done|done|done|]. intros rest'. wp_step. right.
    destruct (merge_meaning 0 (A ++ carve e (place e align) size MEMMAP_USED ++ B)) as [Ho' Hf'];
      [done|by apply carve_ordered|].
    exists e, (merge_list (A ++ carve e (place e align) size MEMMAP_USED ++ B)), rest'.
    split_and!; try done; [set_solver|]. intros x. rw Hf'. by apply carve_flag.
  - replace (Z.of_nat (length A) + 1) with (Z.of_nat (length (A ++ [e]))) by (rw length_app /=; lia).
    rw (snoc_app A e B) in Ho Hroom |- *. eapply wp_mono; [by apply IH|]. cbn beta.
    intros paddr m' [(-> & -> & Hno)|?]; [left|by right]. split_and!; [done..|].
    intros e' [->|?]%elem_of_cons; [|by apply Hno]. intros Hfit. by apply Hiff in Hfit.
Qed.

Lemma valid_align_popcount align : valid_align align → (1 <? popcount64 align) = false.
Proof.
  rw popcount64_bits. intros [->|(k & Hk & ->)]; [done|]. apply Z.ltb_ge.
  rw (proj2 (bits_set_pow2 64 (2 ^ k) _)); [|exists k; split; [cbn; lia|done]|lia].
  apply pow2_uint. lia.
Qed.

Lemma wp_find_free es rest size align mask m :
  ordered 0 es → (2 ≤ length rest)%nat → valid_align align → align_room es align → 0 < size →
  wp (find_free_memmap_region size align mask m) (λ paddr m',
    (paddr = 0 ∧ m' = mm es rest ∧ ∀ e, e ∈ es → ¬ fits e size align mask m) ∨
    allocated_from es size align mask m paddr m') (mm es rest).
Proof.
  intros Ho Hrest Ha Hroom Hsz. rw /find_free_memmap_region. wp_step. apply wp_panic_if.
  { by apply valid_align_popcount. }
  wp_step. wp_step. cbn [num_entries mm]. rw Nat2Z.id. by apply (wp_find_loop [] es).
Qed.

End Find.

(** ** Properties *)

(** [claim_memmap_region] on a region that lies inside one entry: the call
    returns, the entries stay in order and disjoint, and afterwards exactly the
    claimed addresses have the new type, every other address keeping its own. *)
Theorem claim_memmap_region_inside A e B rest start size type :
  ordered 0 (A ++ e :: B) → inside e start size → (2 ≤ length rest)%nat →
  ∃ es' rest', claim_memmap_region start size type (mm (A ++ e :: B) rest) = Ret (tt, mm es' rest') ∧
    ordered 0 es' ∧
    ∀ x, flag_at es' x = if decide (start ≤ x < start + size) then Some type
                         else flag_at (A ++ e :: B) x.
Proof.
  intros Ho Hin Hrest.
  destruct (merge_meaning 0 (A ++ carve e start size type ++ B)) as [Ho' Hf'];
    [done|by apply carve_ordered|].
  destruct (wp_elim (claim_memmap_region start size type)
    (λ _ m', ∃ rest', m' = mm (merge_list (A ++ carve e start size type ++ B)) rest')
    (mm (A ++ e :: B) rest)) as ([] & m' & E & rest' & ->).
  { apply wp_claim_inside; eauto. }
  exists (merge_list (A ++ carve e start size type ++ B)), rest'. split_and!; [done|done|].
  intros x. rw Hf'. by apply carve_flag.
Qed.

(** C34. [find_free_memmap_region] with a power-of-two (or no) alignment returns
    an aligned region of the requested size inside one usable entry with matching
    tags, marks exactly that region as used, and returns 0 without a change only
    if no entry can hold such a region. *)
Theorem find_free_memmap_region_correct es rest size align mask m :
  ordered 0 es → (2 ≤ length rest)%nat → valid_align align → align_room es align → 0 < size →
  ∃ paddr m', find_free_memmap_region size align mask m (mm es rest) = Ret (paddr, m') ∧
    ((paddr = 0 ∧ m' = mm es rest ∧ ∀ e, e ∈ es → ¬ fits e size align mask m) ∨
     (∃ e es' rest', e ∈ es ∧ fits e size align mask m ∧ inside e paddr size ∧
        (align ≠ 0 → (align | paddr)) ∧ m' = mm es' rest' ∧ ordered 0 es' ∧
        ∀ x, flag_at es' x =
          if decide (paddr ≤ x < paddr + size) then Some MEMMAP_USED else flag_at es x)).
Proof.
  intros Ho Hrest Ha Hroom Hsz.
  destruct (wp_elim _ _ _ (wp_find_free es rest size align mask m Ho Hrest Ha Hroom Hsz))
    as (paddr & m' & E & Hpost). exists paddr, m'. split; [done|].
  destruct Hpost as [?|(e & es' & rest' & He & Hfit & -> & Hin & -> & Ho' & Hf)]; [by left|right].
  exists e, es', rest'. split_and!; try done. by apply place_aligned.
Qed.

(** A claim that starts below the first entry and reaches into it never
    succeeds: [claim_memmap_region] inserts empty entries until the table is full
    and panics, however many slots there are. *)
Theorem claim_memmap_region_overlap e B rest start size type :
  uint 64 start → start < e_start e → e_start e < start + size → start + size < 2 ^ 64 →
  claim_memmap_region start size type (mm (e :: B) rest) = Panic.
Proof.
  intros Hu Hst Hend Hov. rw /uint in Hu.
  rw /claim_memmap_region wrap_small; [rw /uint; lia|]. rw /mbind /M_bind {1}/gets.
  rw (claim_before_panics _ [] e B rest start size (start + size) type) //; [lia|rw /uint; lia|].
  cbn. rw length_app. lia.
Qed.

(** ** Witnesses *)

(** One megabyte at 0x1000, usable, and a used region above it. *)
Definition sample_map : list loader_memmap_entry :=
  [mk_entry 4096 1048576 MEMMAP_USABLE 7; mk_entry 2097152 65536 MEMMAP_USED 0].
Definition free_slots : list loader_memmap_entry := replicate 4 zero_entry.

Lemma sample_ordered : ordered 0 sample_map.
Proof. cbn. lia. Qed.

Lemma claim_memmap_region_inside_witness : ∃ es' rest',
  claim_memmap_region 8192 4096 MEMMAP_USED (mm sample_map free_slots) = Ret (tt, mm es' rest') ∧
  flag_at es' 8192 = Some MEMMAP_USED ∧ flag_at es' 4096 = Some MEMMAP_USABLE.
Proof.
  destruct (claim_memmap_region_inside [] (mk_entry 4096 1048576 MEMMAP_USABLE 7)
    [mk_entry 2097152 65536 MEMMAP_USED 0] free_slots 8192 4096 MEMMAP_USED)
    as (es' & rest' & E & _ & Hf); [exact sample_ordered|rw /inside /bounded /=; lia|cbn; lia|].
  exists es', rest'. split; [exact E|]. rw !Hf. split; reflexivity.
Defined.

Lemma find_free_memmap_region_correct_witness : ∃ paddr m',
  find_free_memmap_region 4096 4096 3 MATCH_SET_ALL (mm sample_map free_slots) = Ret (paddr, m').
Proof.
  destruct (find_free_memmap_region_correct sample_map free_slots 4096 4096 3 MATCH_SET_ALL)
    as (paddr & m' & E & _); [exact sample_ordered|cbn; lia|right; exists 12; split; [lia|reflexivity]| |lia|].
  - intros e [->|[->|[]%elem_of_nil]%elem_of_cons]%elem_of_cons; vm_compute; congruence.
  - exists paddr, m'. exact E.
Defined.

Lemma claim_memmap_region_overlap_witness :
  claim_memmap_region 0 8192 MEMMAP_USED (mm sample_map free_slots) = Panic.
Proof.
  apply (claim_memmap_region_overlap (mk_entry 4096 1048576 MEMMAP_USABLE 7)
    [mk_entry 2097152 65536 MEMMAP_USED 0] free_slots 0 8192 MEMMAP_USED);
    [split; vm_compute; congruence|reflexivity|reflexivity|reflexivity].
Defined.
