(* ===== verification/Pfn.v ===== *)
(** The page frame database: [src/src/kernel/mem/pfn.c].

    [pfndb !! n] is the entry of page frame [n].  The array is placed by
    [reserve_pfndb] in memory whose contents are unknown; they are an argument.
    [kprintf] output is left out. *)

From stdpp Require Import base list gmap.
From Stdlib Require Import ZArith Lia.
From Corelib Require Import ssreflect.
From S2P Require Import Prelude Bits Mem Palloc Memmap.

Record pfndb_entry := mk_pfndb_entry {
  usable : bool;
  mapped : bool;
  ptags : Z;                      (* 10 bits *)
  inuse : bool;
  zeroed : bool;
  kernel : bool;
  swappable : bool
}.

Definition PFN_TAG_BITS : Z := 10.
Definition PFNDB_ENTRY_SIZE : Z := 2.

Record pfn_state := mk_pfn {
  memmap : loader_memmap;
  paddr_len : Z;
  paddr_start : Z;
  paddr_end : Z;
  pfndb_entries : Z;
  pfndb_offset : Z;
  pfndb_limit : Z;
  pfndb : gmap Z pfndb_entry
}.

Definition set_memmap (m : loader_memmap) (s : pfn_state) : pfn_state :=
  mk_pfn m (paddr_len s) (paddr_start s) (paddr_end s) (pfndb_entries s) (pfndb_offset s)
    (pfndb_limit s) (pfndb s).
Definition set_pfndb (db : gmap Z pfndb_entry) (s : pfn_state) : pfn_state :=
  mk_pfn (memmap s) (paddr_len s) (paddr_start s) (paddr_end s) (pfndb_entries s) (pfndb_offset s)
    (pfndb_limit s) db.
Definition set_range (len start end_ n off lim : Z) (s : pfn_state) : pfn_state :=
  mk_pfn (memmap s) len start end_ n off lim (pfndb s).

Section Pfn.
Context `{Arch}.

(** ** Entries *)

(** A pointer to an entry is its page frame number. *)
Definition get_pfn_entry_by_pfn (pfn : Z) : M pfn_state Z :=
  out ← gets (λ s, (pfn <? pfndb_offset s) || (pfndb_limit s <=? pfn));
  panic_if out;;
  mret pfn.

Definition get_pfn_entry_by_paddr (paddr : Z) : M pfn_state Z :=
  get_pfn_entry_by_pfn (paddr_to_ppfn paddr).

Definition read_pfn_entry (p : Z) : M pfn_state pfndb_entry := deref (λ s, pfndb s !! p).
Definition write_pfn_entry (p : Z) (e : pfndb_entry) : M pfn_state unit :=
  read_pfn_entry p;; modify (λ s, set_pfndb (<[p := e]> (pfndb s)) s).

(** ** Ranges *)

Definition get_mem_range : M pfn_state (Z * Z * Z) :=
  gets (λ s, (paddr_len s, paddr_start s, paddr_end s)).
Definition get_pfn_range : M pfn_state (Z * Z * Z) :=
  gets (λ s, (pfndb_entries s, pfndb_offset s, pfndb_limit s)).

Definition find_paddr_range : M pfn_state (Z * Z * Z) :=
  first ← zoom memmap set_memmap (read_entry 0);
  n ← gets (λ s, num_entries (memmap s));
  last ← zoom memmap set_memmap (read_entry (n - 1));
  let end64 := u64 (e_start last + e_size last) in
  lo ← lift_outcome (cast_u64_to_paddr (e_start first));
  hi ← lift_outcome (cast_u64_to_paddr end64);
  let lower := align_down_paddr lo PAGE_SIZE in
  let upper := align_up_paddr hi PAGE_SIZE in
  mret (wrap PADDR_WIDTH (upper - lower), lower, upper).

(** ** Construction *)

(** The three sets of assignments to an entry. *)
Definition hole_page : pfndb_entry := mk_pfndb_entry false false 0 true false true false.
Definition usable_page (tags : Z) : pfndb_entry :=
  mk_pfndb_entry true true (wrap PFN_TAG_BITS tags) false false false true.
Definition reserved_page : pfndb_entry := mk_pfndb_entry true true 0 true false true false.

(** [for (i = i0; i < limit; i += PAGE_SIZE)], setting the entry of each page. *)
Fixpoint fill_range (fuel : nat) (i limit : Z) (e : pfndb_entry) : M pfn_state unit :=
  if i <? limit then
    match fuel with
    | O => diverge
    | S fuel' =>
        p ← get_pfn_entry_by_paddr i;
        write_pfn_entry p e;;
        fill_range fuel' (wrap PADDR_WIDTH (i + PAGE_SIZE)) limit e
    end
  else mret tt.

Definition fill (i limit : Z) (e : pfndb_entry) : M pfn_state unit :=
  fill_range (Z.to_nat ((limit - i) / PAGE_SIZE + 1)) i limit e.

(** The loop over the memory map; the result is the final [prev_end]. *)
Fixpoint construct_loop (n : nat) (e prev_end : Z) : M pfn_state Z :=
  match n with
  | O => mret prev_end
  | S n' =>
      cur ← zoom memmap set_memmap (read_entry e);
      start ← lift_outcome (cast_u64_to_paddr (e_start cur));
      end_ ← lift_outcome (cast_u64_to_paddr (u64 (e_start cur + e_size cur)));
      let aligned_start := align_up_paddr start PAGE_SIZE in
      let aligned_end := align_down_paddr end_ PAGE_SIZE in
      fill prev_end aligned_start hole_page;;
      fill aligned_start aligned_end
        (if e_flags cur =? MEMMAP_USABLE then usable_page (e_tags cur) else reserved_page);;
      construct_loop n' (e + 1) aligned_end
  end.

Definition construct_pfndb : M pfn_state unit :=
  start ← gets paddr_start;
  n ← gets (λ s, num_entries (memmap s));
  prev_end ← construct_loop (Z.to_nat n) 0 start;
  end_ ← gets paddr_end;
  fill prev_end end_ hole_page.

(** ** Reservation and initialisation *)

(** [cast_to_ptr] is the HAL's [hal_cast_paddr_to_kernel_ptr]; [contents] is
    what the reserved memory holds. *)
Definition reserve_pfndb (cast_to_ptr : Z → Z) (contents : pfndb_entry) : M pfn_state unit :=
  '(len, start, end_) ← find_paddr_range;
  let off := paddr_to_ppfn start in
  let lim := paddr_to_ppfn end_ in
  let n := wrap PADDR_WIDTH (lim - off) in
  modify (set_range len start end_ n off lim);;
  let pfndb_bytes := ulong (n * PFNDB_ENTRY_SIZE) in
  let aligned_pfndb_bytes := align_up_vsize pfndb_bytes PAGE_SIZE in
  pfndb_u64 ← zoom memmap set_memmap (find_free_memmap_direct_mapped_region aligned_pfndb_bytes PAGE_SIZE);
  pfndb_paddr ← lift_outcome (cast_u64_to_paddr pfndb_u64);
  panic_if (cast_to_ptr pfndb_paddr =? 0);;
  modify (set_pfndb (filled contents (seqZ off n))).

Definition init_pfndb : M pfn_state unit :=
  construct_pfndb;;
  off ← gets pfndb_offset;
  if ctrue off then mret tt else
  p ← get_pfn_entry_by_paddr 0;
  e ← read_pfn_entry p;
  if usable e && negb (inuse e) then
    write_pfn_entry p (mk_pfndb_entry false (mapped e) (ptags e) true (zeroed e) (kernel e) (swappable e))
  else mret tt.

End Pfn.
