(* ===== verification/PfnSpec.v ===== *)
(** Correctness of the page frame database ([src/src/kernel/mem/pfn.c], model:
    file Pfn): after [construct_pfndb] the entry of every page frame is the one
    the memory map prescribes for that page. *)

From stdpp Require Import base list gmap.
From Stdlib Require Import ZArith Lia.
From Corelib Require Import ssreflect.
From S2P Require Import Prelude Bits Mem Palloc Memmap MemmapSpec Pfn.

Section PfnSpec.
Context `{Harch : Arch}.

(** Page frame [n] lies completely inside the entry. *)
Definition holds_page (n : Z) (e : loader_memmap_entry) : Prop :=
  e_start e ≤ n * PAGE_SIZE ∧ (n + 1) * PAGE_SIZE ≤ e_start e + e_size e.

#[export] Instance holds_page_dec n e : Decision (holds_page n e).
Proof. rw /holds_page. apply _. Defined.

(** The database entry a memory map entry prescribes for its pages. *)
Definition page_of (e : loader_memmap_entry) : pfndb_entry :=
  if e_flags e =? MEMMAP_USABLE then usable_page (e_tags e) else reserved_page.

(** The database entry the memory map prescribes for page frame [n]. *)
Fixpoint page_entry (es : list loader_memmap_entry) (n : Z) : pfndb_entry :=
  match es with
  | [] => hole_page
  | e :: es' => if decide (holds_page n e) then page_of e else page_entry es' n
  end.

(** All memory lies below the largest physical address, with room to round up. *)
Definition mem_fits (es : list loader_memmap_entry) : Prop :=
  0 ≤ MAX_NUM_PADDR_BITS ≤ PADDR_WIDTH ∧
  ∀ e, e ∈ es → e_start e + e_size e + PAGE_SIZE ≤ 2 ^ MAX_NUM_PADDR_BITS.

(** The database covers the page frames from [off] to [lim - 1]. *)
Record db_ok (s : pfn_state) : Prop := {
  do_range : 0 ≤ pfndb_offset s ≤ pfndb_limit s;
  do_limit : pfndb_limit s * PAGE_SIZE < 2 ^ PADDR_WIDTH;
  do_dom : ∀ n, pfndb_offset s ≤ n < pfndb_limit s → is_Some (pfndb s !! n)
}.

(** *** Filling a range of pages *)

Lemma wp_get_pfn_entry a n (Q : Z → pfn_state → Prop) s :
  a = n * PAGE_SIZE → pfndb_offset s ≤ n < pfndb_limit s → Q n s →
  wp (get_pfn_entry_by_paddr a) Q s.
Proof.
  intros -> Hn HQ. pose proof PAGE_SIZE_pos. rw /get_pfn_entry_by_paddr paddr_to_ppfn_div Z.div_mul; [lia|].
  rw /get_pfn_entry_by_pfn. do 2 wp_step. wp_step. wp_step.
  { rw orb_false_iff Z.ltb_ge Z.leb_gt. lia. }
  by wp_step.
Qed.

Lemma wp_write_pfn_entry p e (Q : unit → pfn_state → Prop) s :
  is_Some (pfndb s !! p) → Q tt (set_pfndb (<[p := e]> (pfndb s)) s) → wp (write_pfn_entry p e) Q s.
Proof.
  intros [e0 He] HQ. rw /write_pfn_entry /read_pfn_entry. wp_step. eapply wp_deref; [exact He|]. by wp_step.
Qed.

Lemma wp_fill_range fuel a b e (Q : unit → pfn_state → Prop) s :
  db_ok s → pfndb_offset s ≤ a → b ≤ pfndb_limit s → b - a ≤ Z.of_nat fuel →
  (∀ db, (∀ n, db !! n = if decide (a ≤ n < b) then Some e else pfndb s !! n) →
     Q tt (set_pfndb db s)) →
  wp (fill_range fuel (a * PAGE_SIZE) (b * PAGE_SIZE) e) Q s.
Proof.
  pose proof PAGE_SIZE_pos as Hps. revert a s.
  induction fuel as [|fuel IH]; intros a s Hok Ha Hb Hf HQ; cbn [fill_range];
    destruct (Z.ltb_spec (a * PAGE_SIZE) (b * PAGE_SIZE)) as [Hlt|Hge].
  - nia.
  - wp_step. assert (b ≤ a) by nia. replace s with (set_pfndb (pfndb s) s) by (by destruct s).
    apply HQ. intros n. by rw decide_False; [lia|].
  - assert (a < b) by nia. pose proof Hok as [Hrg Hlim Hdom].
    wp_step. eapply (wp_get_pfn_entry _ a); [done|lia|].
    wp_step. apply wp_write_pfn_entry; [apply Hdom; lia|].
    rw wrap_small; [split; nia|]. replace (a * PAGE_SIZE + PAGE_SIZE) with ((a + 1) * PAGE_SIZE) by lia.
    apply IH; [|cbn; lia|done|lia|].
    { split; cbn; [done|done|]. intros n Hn. destruct (decide (a = n)) as [<-|]; [rw lookup_insert_eq; eauto|].
      rw lookup_insert_ne //. by apply Hdom. }
    intros db Hdb. rw /set_pfndb /=. apply HQ. intros n. rw Hdb /=.
    destruct (decide (a = n)) as [<-|].
    + rw decide_False; [lia|]. rw decide_True; [lia|]. apply lookup_insert_eq.
    + rw lookup_insert_ne //. by repeat case_decide; try lia.
  - wp_step. assert (b ≤ a) by nia. replace s with (set_pfndb (pfndb s) s) by (by destruct s).
    apply HQ. intros n. by rw decide_False; [lia|].
Qed.

Lemma wp_fill a b e (Q : unit → pfn_state → Prop) s :
  db_ok s → pfndb_offset s ≤ a → b ≤ pfndb_limit s →
  (∀ db, (∀ n, db !! n = if decide (a ≤ n < b) then Some e else pfndb s !! n) →
     Q tt (set_pfndb db s)) →
  wp (fill (a * PAGE_SIZE) (b * PAGE_SIZE) e) Q s.
Proof.
  intros Hok Ha Hb HQ. pose proof PAGE_SIZE_pos. rw /fill. apply wp_fill_range; try done.
  replace (b * PAGE_SIZE - a * PAGE_SIZE) with ((b - a) * PAGE_SIZE) by lia. rw Z.div_mul; lia.
Qed.

(** *** Bounds of an entry, in pages *)

Definition first_page (e : loader_memmap_entry) : Z := (e_start e + PAGE_SIZE - 1) / PAGE_SIZE.
Definition last_page (e : loader_memmap_entry) : Z := (e_start e + e_size e) / PAGE_SIZE.

Lemma page_bounds e n : holds_page n e ↔ first_page e ≤ n < last_page e.
Proof.
  pose proof PAGE_SIZE_pos as Hps. rw /holds_page /first_page /last_page.
  pose proof (Z.mul_div_le (e_start e + PAGE_SIZE - 1) PAGE_SIZE Hps).
  pose proof (Z.mul_succ_div_gt (e_start e + PAGE_SIZE - 1) PAGE_SIZE Hps).
  pose proof (Z.mul_div_le (e_start e + e_size e) PAGE_SIZE Hps).
  pose proof (Z.mul_succ_div_gt (e_start e + e_size e) PAGE_SIZE Hps).
  split; intros [? ?]; split; nia.
Qed.

Lemma cast_entry x : 0 ≤ MAX_NUM_PADDR_BITS ≤ PADDR_WIDTH → uint 64 x →
  x < 2 ^ MAX_NUM_PADDR_BITS → cast_u64_to_paddr x = Ret x.
Proof.
  intros Hm Hx Hlt. rw /cast_u64_to_paddr clz64_fits //; [lia|].
  rw (proj2 (Z.ltb_lt _ _)) //=. f_equal. apply wrap_small. rw /uint in Hx *.
  assert (2 ^ MAX_NUM_PADDR_BITS ≤ 2 ^ PADDR_WIDTH) by (apply Z.pow_le_mono_r; lia). lia.
Qed.

Lemma page_entry_hole es n : (∀ e, e ∈ es → ¬ holds_page n e) → page_entry es n = hole_page.
Proof.
  induction es as [|e es IH]; intros Hn; [done|]. cbn. rw decide_False; [apply Hn; set_solver|].
  apply IH. set_solver.
Qed.

Lemma page_entry_at A e B n : (∀ a, a ∈ A → ¬ holds_page n a) → holds_page n e →
  page_entry (A ++ e :: B) n = page_of e.
Proof.
  induction A as [|a A IH]; intros HA He; cbn; [by rw decide_True|].
  rw decide_False; [apply HA; set_solver|]. apply IH; [set_solver|done].
Qed.

(** The page bounds of entries follow their order. *)
Lemma ordered_pages A e B : ordered 0 (A ++ e :: B) →
  (∀ a, a ∈ A → last_page a ≤ first_page e ∧ last_page a ≤ last_page e) ∧
  (∀ b, b ∈ B → first_page e ≤ first_page b ∧ last_page e * PAGE_SIZE ≤ e_start b) ∧
  0 ≤ first_page e ∧ 0 ≤ last_page e.
Proof.
  pose proof PAGE_SIZE_pos as Hps. intros Ho.
  destruct (ordered_app _ _ _ _ Ho ltac:(lia)) as ((?&?&?) & HA & HB).
  split_and!; rw /first_page /last_page.
  - intros a Ha. destruct (HA a Ha) as [(?&?&?) ?]. split; apply Z.div_le_mono; lia.
  - intros b Hb. assert (e_start e + e_size e ≤ e_start b).
    { apply list_elem_of_split in Hb as (B1 & B2 & ->).
      destruct (ordered_app 0 (A ++ e :: B1) b B2) as (_ & Hle & _); [by rw -app_assoc|lia|].
      apply Hle. set_solver. }
    pose proof (Z.mul_div_le (e_start e + e_size e) PAGE_SIZE Hps).
    split; [apply Z.div_le_mono; lia|lia].
  - apply Z.div_pos; lia.
  - apply Z.div_pos; lia.
Qed.

Definition settled (s : pfn_state) (es : list loader_memmap_entry) (p : Z) : Prop :=
  ∀ n, pfndb_offset s ≤ n < p → pfndb s !! n = Some (page_entry es n).

Lemma db_ok_upd s db : db_ok s → (∀ n, is_Some (pfndb s !! n) → is_Some (db !! n)) →
  db_ok (set_pfndb db s).
Proof. intros [? ? Hd] Hn. split; cbn; auto. Qed.

Lemma wp_construct_loop A B live rest p s :
  memmap s = mm live rest → live = A ++ B → ordered 0 live → mem_fits live → db_ok s →
  pfndb_offset s ≤ p → settled s live p →
  (∀ a, a ∈ A → last_page a ≤ p) → (∀ b, b ∈ B → p * PAGE_SIZE ≤ e_start b) →
  (∀ e, e ∈ live → first_page e ≤ pfndb_limit s ∧ last_page e ≤ pfndb_limit s) →
  wp (construct_loop (length B) (Z.of_nat (length A)) (p * PAGE_SIZE)) (λ r s', ∃ p' db,
    r = p' * PAGE_SIZE ∧ s' = set_pfndb db s ∧ db_ok s' ∧ pfndb_offset s ≤ p' ∧
    settled s' live p' ∧ ∀ e, e ∈ live → last_page e ≤ p') s.
Proof.
  intros Hm -> Ho [Hmax Hfit]. pose proof PAGE_SIZE_pos as Hps.
  revert A p s Hm Ho Hfit. induction B as [|e B IH]; intros A p s Hm Ho Hfit Hok Hp Hset HA HB Hlim; cbn [length construct_loop].
  { wp_step. exists p, (pfndb s). rw app_nil_r in Hset Hlim |- *.
    replace (set_pfndb (pfndb s) s) with s by (by destruct s). by split_and!. }
  destruct (ordered_app _ _ _ _ Ho ltac:(lia)) as ((?&?&?) & _ & _).
  destruct (ordered_pages _ _ _ Ho) as (HAe & HeB & ? & ?).
  assert (e_start e + e_size e + PAGE_SIZE ≤ 2 ^ MAX_NUM_PADDR_BITS) as He by (apply Hfit; set_solver).
  assert (2 ^ MAX_NUM_PADDR_BITS ≤ 2 ^ PADDR_WIDTH) by (apply Z.pow_le_mono_r; lia).
  destruct (Hlim e ltac:(set_solver)) as [Hf Hl].
  wp_step. apply wp_zoom. rw Hm. eapply wp_read_at; [done|done|].
  replace (set_memmap (mm (A ++ e :: B) rest) s) with s by (rw -Hm; by destruct s).
  wp_step. eapply wp_lift; [apply cast_entry; [done|rw /uint; lia|lia]|].
  rw (wrap_small 64); [rw /uint; lia|].
  wp_step. eapply wp_lift; [apply cast_entry; [done|rw /uint; lia|lia]|].
  rw align_up_paddr_page; [lia|lia|]. rw align_down_paddr_page; [rw /uint; lia|].
  rw -/(first_page e) -/(last_page e) !(Z.mul_comm PAGE_SIZE).
  assert (p ≤ first_page e ∧ p ≤ last_page e) as [Hpf Hpl].
  { assert (p * PAGE_SIZE ≤ e_start e) by (apply HB; set_solver).
    split; apply Z.div_le_lower_bound; lia. }
  wp_step. apply wp_fill; [done|done|done|]. intros db1 Hdb1.
  assert (db_ok (set_pfndb db1 s)) as Hok1.
  { apply db_ok_upd; [done|]. intros n. rw Hdb1. case_decide; eauto. }
  wp_step. apply wp_fill; [done|cbn; lia|done|]. intros db2 Hdb2. cbn [set_pfndb pfndb] in Hdb2.
  change (set_pfndb db2 (set_pfndb db1 s)) with (set_pfndb db2 s).
  replace (Z.of_nat (length A) + 1) with (Z.of_nat (length (A ++ [e]))) by (rw length_app /=; lia).
  rw (snoc_app A e B).
  assert (∀ n, pfndb_offset s ≤ n < last_page e → db2 !! n = Some (page_entry (A ++ e :: B) n)) as Hset2.
  { intros n Hn. rw Hdb2. case_decide as Hn1; [|rw Hdb1; case_decide as Hn2].
    - rw page_entry_at // ?page_bounds //. intros a Ha. rw page_bounds. destruct (HAe a Ha). lia.
    - rw page_entry_hole //. intros x Hx. rw page_bounds.
      apply elem_of_app in Hx as [Hx|[->|Hx]%elem_of_cons]; [specialize (HA x Hx)| |destruct (HeB x Hx)]; lia.
    - apply Hset. lia. }
  eapply wp_mono; [apply (IH (A ++ [e]) (last_page e) (set_pfndb db2 s)); cbn [set_pfndb pfndb_offset pfndb_limit memmap]|].
  - by rw Hm snoc_app.
  - by rw -snoc_app.
  - intros x Hx. apply Hfit. by rw snoc_app.
  - apply (db_ok_upd (set_pfndb db1 s)); [done|]. intros n. cbn. rw Hdb2. case_decide; eauto.
  - lia.
  - intros n Hn. rw -snoc_app. by apply Hset2.
  - intros a [Ha|Ha%list_elem_of_singleton]%elem_of_app; [by destruct (HAe a Ha)|subst; lia].
  - intros b Hb. by destruct (HeB b Hb).
  - intros x Hx. apply Hlim. by rw snoc_app.
  - intros r s' (p' & db & -> & -> & Hok' & Hp' & Hset' & Hlast). exists p', db. split_and!; try done.
Qed.

(** The range of the database is the page range of the memory map. *)
Record range_ok (s : pfn_state) (es : list loader_memmap_entry) : Prop := {
  ro_start : paddr_start s = pfndb_offset s * PAGE_SIZE;
  ro_end : paddr_end s = pfndb_limit s * PAGE_SIZE;
  ro_in : ∀ e, e ∈ es → paddr_start s ≤ e_start e ∧ e_start e + e_size e ≤ paddr_end s
}.

Lemma wp_construct_pfndb s es rest : memmap s = mm es rest → ordered 0 es → mem_fits es →
  db_ok s → range_ok s es →
  wp construct_pfndb (λ _ s', ∃ db, s' = set_pfndb db s ∧ db_ok s' ∧ settled s' es (pfndb_limit s)) s.
Proof.
  intros Hm Ho Hfit Hok [Hst Hen Hin]. pose proof PAGE_SIZE_pos as Hps.
  assert (∀ e, e ∈ es → first_page e ≤ pfndb_limit s ∧ last_page e ≤ pfndb_limit s) as Hlim.
  { intros e He. destruct (Hin e He) as [_ Hle]. rw Hen in Hle.
    apply list_elem_of_split in He as (A & B & ->).
    destruct (ordered_app _ _ _ _ Ho ltac:(lia)) as ((?&?&?) & _). split.
    - apply Z.lt_succ_r, Z.div_lt_upper_bound; lia.
    - apply Z.div_le_upper_bound; lia. }
  rw /construct_pfndb. wp_step. wp_step. wp_step. wp_step. rw Hm Hst. cbn [num_entries mm]. rw Nat2Z.id.
  wp_step. eapply wp_mono; [apply (wp_construct_loop [] es es rest (pfndb_offset s));
    [done|done|done|done|done|lia|intros n ?; lia|by intros a ?%elem_of_nil| |done]|].
  { intros b Hb. destruct (Hin b Hb). lia. }
  intros r s1 (p & db & -> & -> & Hok1 & Hp & Hset & Hlast).
  wp_step. wp_step. cbn [paddr_end set_pfndb]. rw Hen. apply wp_fill; [done|done|cbn; lia|].
  intros db2 Hdb2. exists db2. split; [done|]. split.
  - apply (db_ok_upd (set_pfndb db s)); [done|]. intros n. cbn. rw Hdb2. case_decide; eauto.
  - intros n Hn. cbn. rw Hdb2. case_decide as E.
    + rw page_entry_hole //. intros e He. rw page_bounds. specialize (Hlast e He). lia.
    + apply Hset. cbn in *. lia.
Qed.

(** An available page: usable and not in use. *)
Definition available (e : pfndb_entry) : bool := usable e && negb (inuse e).

End PfnSpec.

(** ** Properties *)

(** [init_pfndb] returns and describes every page frame of the range as the
    memory map does: a page is available, with the tags of the map, exactly if it
    lies completely inside a usable region; page frame 0 is never available. *)
Theorem init_pfndb_correct `{Arch} s es rest : memmap s = mm es rest → ordered 0 es →
  mem_fits es → db_ok s → range_ok s es → pfndb_offset s < pfndb_limit s →
  ∃ s', init_pfndb s = Ret (tt, s') ∧
    (∀ n, pfndb_offset s ≤ n < pfndb_limit s → n ≠ 0 → pfndb s' !! n = Some (page_entry es n)) ∧
    (∀ n e, pfndb s' !! n = Some e → pfndb_offset s ≤ n < pfndb_limit s →
       available e = true ↔ n ≠ 0 ∧ ∃ m, m ∈ es ∧ e_flags m = MEMMAP_USABLE ∧ holds_page n m ∧
         e = usable_page (e_tags m)).
Proof.
  intros Hm Ho Hfit Hok Hr Hne.
  assert (∀ n e, page_entry es n = e → available e = true ↔
    ∃ m, m ∈ es ∧ e_flags m = MEMMAP_USABLE ∧ holds_page n m ∧ e = usable_page (e_tags m)) as Hiff.
  { intros n e <-. split.
    - clear. induction es as [|m es IH]; cbn [page_entry]; [done|]. case_decide as Hh.
      + rw /page_of. destruct (Z.eqb_spec (e_flags m) MEMMAP_USABLE); [|done]. intros _. exists m. split_and!; set_solver.
      + intros Ha. destruct (IH Ha) as (m' & ? & ?). exists m'. set_solver.
    - by intros (m & _ & _ & _ & ->). }
  destruct (wp_elim init_pfndb (λ _ s', ∃ db, s' = set_pfndb db s ∧
    (∀ n, pfndb_offset s ≤ n < pfndb_limit s → n ≠ 0 → db !! n = Some (page_entry es n)) ∧
    (pfndb_offset s = 0 → ∃ e, db !! 0 = Some e ∧ available e = false)) s) as ([] & s' & E & db & -> & Hdb & H0).
  { rw /init_pfndb. wp_step. eapply wp_mono; [exact (wp_construct_pfndb s es rest Hm Ho Hfit Hok Hr)|].
    intros _ s1 (db & -> & Hok1 & Hset). wp_step. wp_step. cbn [set_pfndb pfndb_offset].
    rw /ctrue. destruct (Z.eqb_spec (pfndb_offset s) 0) as [Eo|Eo]; cbn [negb].
    - wp_step. eapply (wp_get_pfn_entry 0 0); [done|cbn; lia|].
      assert (db !! 0 = Some (page_entry es 0)) as E0 by (apply Hset; cbn; lia).
      wp_step. eapply wp_deref; [exact E0|].
      destruct (usable (page_entry es 0) && negb (inuse (page_entry es 0))) eqn:Ea.
      + apply wp_write_pfn_entry; [cbn; eauto|]. eexists. split; [reflexivity|]. split.
        * intros n Hn Hn0. cbn. rw lookup_insert_ne; [congruence|]. by apply Hset.
        * intros _. eexists. cbn. split; [apply lookup_insert_eq|done].
      + wp_step. exists db. split_and!; [done|intros; by apply Hset|]. intros _. exists (page_entry es 0). done.
    - wp_step. exists db. split_and!; [done|intros; by apply Hset|done]. }
  exists (set_pfndb db s). split_and!; [done|done|].
  intros n e He Hn. cbn in He. destruct (decide (n = 0)) as [->|Hn0].
  - destruct (H0 ltac:(destruct (do_range _ Hok); lia)) as (e' & He' & Hav).
    assert (e = e') as -> by congruence. rw Hav. split; [done|]. by intros [? _].
  - rw (Hdb n Hn Hn0) in He. injection He as He. rw (Hiff n e He). naive_solver.
Qed.

(** ** Witness *)

(** A database over the pages of [sample_map]: page frames 1 to 527. *)
Definition sample_pfn : pfn_state :=
  mk_pfn (mm sample_map free_slots) (527 * 4096) 4096 (528 * 4096) 527 1 528
    (filled hole_page (seqZ 1 527)).

Lemma init_pfndb_correct_witness : ∃ s', @init_pfndb riscv64 sample_pfn = Ret (tt, s') ∧
  pfndb s' !! 2 = Some (usable_page 7) ∧ pfndb s' !! 400 = Some hole_page.
Proof.
  destruct (@init_pfndb_correct riscv64 sample_pfn sample_map free_slots) as (s' & E & Hdb & _).
  - reflexivity.
  - exact sample_ordered.
  - split; [vm_compute; split; congruence|].
    intros e [->|[->|[]%elem_of_nil]%elem_of_cons]%elem_of_cons; vm_compute; congruence.
  - split; [vm_compute; split; congruence|vm_compute; reflexivity|].
    intros n Hn. exists hole_page. apply filled_lookup. split; [|reflexivity]. apply elem_of_seqZ. cbn in Hn. lia.
  - split; [reflexivity|reflexivity|].
    intros e [->|[->|[]%elem_of_nil]%elem_of_cons]%elem_of_cons; vm_compute; split; congruence.
  - reflexivity.
  - exists s'. split; [exact E|]. rw !Hdb; [cbn; lia|lia|cbn; lia|lia|]. split; reflexivity.
Defined.
