(* ===== verification/PallocInit.v ===== *)
(** Bringing up the page frame allocator, and its entry points that work on
    addresses: [reserve_palloc], [init_palloc], [palloc_paddr],
    [palloc_paddr_direct_mapped], [pfree_paddr], [palloc_ptr], [pfree_ptr] and
    [palloc_stats_page] of [src/src/kernel/mem/palloc.c].

    During boot the allocator reads the page frame database and takes its own
    memory from the memory map, so the state is the pair of the two components.
    The HAL's casts between physical addresses and kernel pointers are arguments. *)

From stdpp Require Import base list gmap.
From Stdlib Require Import ZArith Lia.
From Corelib Require Import ssreflect.
From S2P Require Import Prelude Bits Lock Mem Palloc PallocSpec PallocProps Memmap MemmapSpec Pfn PfnSpec.

Record boot_state := mk_boot { b_palloc : palloc_state; b_pfn : pfn_state }.

Definition set_b_palloc (s : palloc_state) (b : boot_state) : boot_state := mk_boot s (b_pfn b).
Definition set_b_pfn (s : pfn_state) (b : boot_state) : boot_state := mk_boot (b_palloc b) s.
Definition in_palloc {A} (m : M palloc_state A) : M boot_state A := zoom b_palloc set_b_palloc m.
Definition in_pfn {A} (m : M pfn_state A) : M boot_state A := zoom b_pfn set_b_pfn m.

Section PallocInit.
Context `{Arch}.

(** ** Entry points on addresses *)

Definition palloc_stats_page : M palloc_state (Z * Z) :=
  spinlock_exclusive_int page_stats_lock (gets (λ s, (num_pages_total s, num_pages_alloc s))).

Definition palloc_paddr (count : Z) : M palloc_state Z :=
  ppfn ← palloc count; mret (ppfn_to_paddr ppfn).

Definition palloc_paddr_direct_mapped (count : Z) : M palloc_state Z :=
  ppfn ← palloc_direct_mapped count; mret (ppfn_to_paddr ppfn).

Definition pfree_paddr (paddr : Z) : M palloc_state Z := pfree (paddr_to_ppfn paddr).

Section Pointers.
Context (cast_to_ptr cast_to_paddr : Z → Z).

Definition palloc_ptr (count : Z) : M palloc_state Z :=
  paddr ← palloc_paddr_direct_mapped count;
  mret (if ctrue paddr then cast_to_ptr paddr else 0).

Definition pfree_ptr (ptr : Z) : M palloc_state Z :=
  let paddr := cast_to_paddr ptr in
  pfree (paddr_to_ppfn paddr).

End Pointers.

(** ** Boot *)

Definition set_nodes (lo hi n : Z) (N : gmap Z palloc_node) (s : palloc_state) : palloc_state :=
  mk_palloc N (buddies s) (regions s) (region_count s) lo hi n
    (num_pages_total s) (num_pages_alloc s) (stats_lock s) (cpu_int s).

Definition reserve_palloc : M boot_state unit :=
  '(n, lo, hi) ← in_pfn get_pfn_range;
  let node_bytes := ulong (n * (ARCH_WIDTH / 8)) in
  let aligned_node_bytes := align_up_vsize node_bytes PAGE_SIZE in
  nodes_u64 ← in_pfn (zoom memmap set_memmap (find_free_memmap_direct_mapped_region aligned_node_bytes PAGE_SIZE));
  lift_outcome (cast_u64_to_paddr nodes_u64);;
  in_palloc (modify (set_nodes lo hi n (filled zero_node (seqZ lo n)))).

(** The first loop of [init_palloc]: all fields of all regions are reset. *)
Definition reset_regions (s : palloc_state) : palloc_state :=
  upd_regions (λ _, filled zero_region (seqZ 0 MAX_PALLOC_REGION_COUNT))
    (upd_buddies (λ _, filled zero_node
      (r ← seqZ 0 MAX_PALLOC_REGION_COUNT; o ← seqZ 0 PALLOC_ORDER_COUNT; [(r, o)])) s).

(** A region from [start] to [end_ - 1] is complete. *)
Definition close_region (start end_ tag : Z) : M boot_state unit :=
  r ← gets (λ b, region_count (b_palloc b));
  in_palloc (init_region start (ulong (end_ - start)) r tag);;
  in_palloc (modify (λ s, set_region_count (region_count s + 1) s)).

(** The scan over the database: [n] page frames from [i] on; the result is
    [recording], [cur_region_start] and [cur_tag] at the end. *)
Fixpoint scan_loop (n : nat) (i : Z) (recording : bool) (cur_start cur_tag : Z) : M boot_state (bool * Z * Z) :=
  match n with
  | O => mret (recording, cur_start, cur_tag)
  | S n' =>
      p ← in_pfn (get_pfn_entry_by_pfn i);
      entry ← in_pfn (read_pfn_entry p);
      if recording && (negb (usable entry) || inuse entry || negb (cur_tag =? ptags entry)) then
        close_region cur_start i cur_tag;;
        scan_loop n' (i + 1) false cur_start cur_tag
      else if negb recording && (usable entry && negb (inuse entry)) then
        scan_loop n' (i + 1) true i (ptags entry)
      else scan_loop n' (i + 1) recording cur_start cur_tag
  end.

Definition init_palloc : M boot_state unit :=
  in_palloc (modify reset_regions);;
  lo ← gets (λ b, pfn_start (b_palloc b));
  n ← gets (λ b, pfn_entry_count (b_palloc b));
  '(recording, cur_start, cur_tag) ← scan_loop (Z.to_nat n) lo false 0 0;
  hi ← gets (λ b, pfn_limit (b_palloc b));
  if (recording : bool) then close_region cur_start hi cur_tag else mret tt.

End PallocInit.

(** ** The scan *)

Section Scan.
Context `{Harch : Arch}.

(** Which page frames the database offers. *)
Definition avail_at (db : gmap Z pfndb_entry) (n : Z) : bool :=
  match db !! n with
  | Some e => available e
  | None => false
  end.
Definition tag_at (db : gmap Z pfndb_entry) (n : Z) : Z :=
  match db !! n with
  | Some e => ptags e
  | None => 0
  end.

(** Neighbouring available pages have the same tags. *)
Definition uniform_tags (db : gmap Z pfndb_entry) : Prop :=
  ∀ n, avail_at db n = true → avail_at db (n + 1) = true → tag_at db n = tag_at db (n + 1).

(** The number of maximal runs of available pages that begin between [lo] and [i - 1]. *)
Definition run_starts (db : gmap Z pfndb_entry) (lo : Z) (k : nat) : Z :=
  Z.of_nat (length (filter (λ n, avail_at db n = true ∧ ¬ (lo < n ∧ avail_at db (n - 1) = true))
                     (seqZ lo (Z.of_nat k)))).

(** What the allocator knows after the pages from [lo] to [c - 1]. *)
Record scanned (db : gmap Z pfndb_entry) (s : palloc_state) (B : gmap Z blk) (lo c : Z) : Prop := {
  sc_inv : palloc_inv s B;
  sc_alloc : allocated B = ∅;
  sc_below : ∀ p b, B !! p = Some b → lo ≤ p ∧ p + 2 ^ b_order b ≤ c ∧ 0 ≤ b_region b < region_count s;
  sc_free : ∀ q, (∃ r, free_page B r q) ↔ lo ≤ q < c ∧ avail_at db q = true;
  sc_tags : ∀ r q g, free_page B r q → regions s !! r = Some g → tags g = tag_at db q;
  sc_total : 0 ≤ num_pages_total s ≤ c - lo
}.

Lemma run_starts_S db lo k : run_starts db lo (S k) = run_starts db lo k +
  (if decide (avail_at db (lo + Z.of_nat k) = true ∧ ¬ (lo < lo + Z.of_nat k ∧ avail_at db (lo + Z.of_nat k - 1) = true))
   then 1 else 0).
Proof.
  rw /run_starts seqZ_S filter_app length_app filter_cons filter_nil. case_decide; cbn [length]; lia.
Qed.

Lemma run_starts_mono db lo k k' : (k ≤ k')%nat → run_starts db lo k ≤ run_starts db lo k'.
Proof.
  induction 1 as [|k' _ IH]; [lia|]. rw run_starts_S. case_decide; lia.
Qed.

(** Closing a region adds the recorded run to what has been scanned. *)
Lemma wp_close_region db s pf B lo start i tag (Q : unit → boot_state → Prop) :
  scanned db s B lo start → pfn_start s = lo → start < i ≤ pfn_limit s →
  region_count s < MAX_PALLOC_REGION_COUNT →
  (∀ q, start ≤ q < i → avail_at db q = true ∧ tag_at db q = tag) →
  (∀ s' B', scanned db s' B' lo i → pfn_start s' = pfn_start s → pfn_limit s' = pfn_limit s →
     region_count s' = region_count s + 1 → Q tt (mk_boot s' pf)) →
  wp (close_region start i tag) Q (mk_boot s pf).
Proof.
  intros Hsc Hlo Hi Hcnt Hrun HQ. pose proof Hsc as [Hpi Hal Hbel Hfr Htg Htot].
  pose proof (pi_count _ _ Hpi) as Hc0. destruct (pi_lists _ _ Hpi) as [L HL].
  pose proof (bi_bound _ _ _ _ _ _ HL) as [Hb1 Hb2]. pose proof (bi_lo _ _ _ _ _ _ HL) as Hlo0.
  destruct (pi_region _ _ Hpi (region_count s)) as (g & Hg & _); [lia|].
  assert (pfn_limit s < 2 ^ ARCH_WIDTH).
  { pose proof page_bits_range. eapply Z.le_lt_trans; [exact Hb1|]. apply Z.pow_lt_mono_r; arch_lia. }
  assert (2 ^ ARCH_WIDTH ≤ 2 ^ 64) by (apply Z.pow_le_mono_r; arch_lia).
  rw /close_region. wp_step. wp_step. wp_step. apply wp_zoom. rw wrap_small; [rw /uint; lia|].
  cbn [b_palloc].
  assert (vacant B start (start + (i - start))) as Hv.
  { intros p b q Hp Hcv Hq. destruct (Hbel p b Hp) as (_ & ? & _). rw /covers in Hcv. lia. }
  eapply wp_mono; [apply (wp_init_region s B start (i - start) (region_count s) tag); try done; try lia|].
  { intros p b Hp. destruct (Hbel p b Hp). lia. } { rw /uint. lia. }
  intros _ s' (B' & Hpi' & Had & Es & El & Ec & Et & _ & Etag & Eoth).
  replace (start + (i - start)) with i in Had by lia.
  apply wp_zoom. wp_step. cbn [b_palloc set_b_palloc].
  apply (HQ (set_region_count (region_count s' + 1) s') B'); cbn; [|done|done|lia].
  assert (∀ r q, free_page B r q → r < region_count s) as Hrlt.
  { intros r q (p & b & Hp & _ & <- & _). destruct (Hbel p b Hp). lia. }
  split; cbn.
  - destruct Hpi'. split; try done. cbn. lia.
  - by rw (ad_alloc _ _ _ _ _ Had).
  - intros p b Hp. destruct (ad_blocks _ _ _ _ _ Had _ _ Hp) as [Hp'|(-> & ? & ? & _)]; [|lia].
    destruct (Hbel p b Hp') as (?&?&?). lia.
  - intros q. split.
    + intros (r & Hf). apply (ad_free _ _ _ _ _ Had) in Hf as [Hf|[-> Hq]].
      * assert (lo ≤ q < start ∧ avail_at db q = true) as [? ?] by (apply Hfr; eauto). split; [lia|done].
      * split; [|by apply Hrun]. destruct (Hrun q Hq). assert (lo ≤ start) by lia. lia.
    + intros [Hq Ha]. destruct (Z.lt_ge_cases q start).
      * destruct (proj2 (Hfr q)) as [r Hf]; [split; [lia|done]|]. exists r. apply (ad_free _ _ _ _ _ Had). by left.
      * exists (region_count s). apply (ad_free _ _ _ _ _ Had). right. split; [done|lia].
  - intros r q g' Hf Hg'. apply (ad_free _ _ _ _ _ Had) in Hf as [Hf|[-> Hq]].
    + pose proof (Hrlt r q Hf). rw Eoth in Hg'; [lia|]. by apply (Htg r q g').
    + rw Hg' /= in Etag. injection Etag as ->. symmetry. by apply Hrun.
  - lia.
Qed.

Lemma scanned_skip db s B lo i : scanned db s B lo i → lo ≤ i → avail_at db i = false →
  scanned db s B lo (i + 1).
Proof.
  intros [Hpi Hal Hbel Hfr Htg Htot] Hle Hn. split; try done; [| |lia].
  - intros p b Hp. destruct (Hbel p b Hp) as (?&?&?). lia.
  - intros q. rw Hfr. split; intros [? Ha]; (split; [|done]).
    + lia.
    + destruct (decide (q = i)) as [->|]; [congruence|lia].
Qed.

(** The state of the scan before page frame [lo + k]. *)
Record scan_inv (db : gmap Z pfndb_entry) (lo hi : Z) (k : nat) (recording : bool)
    (cur_start cur_tag : Z) (s : palloc_state) (B : gmap Z blk) : Prop := {
  si_scanned : scanned db s B lo (if recording then cur_start else lo + Z.of_nat k);
  si_start : pfn_start s = lo;
  si_limit : pfn_limit s = hi;
  si_count : region_count s + (if recording then 1 else 0) = run_starts db lo k;
  si_run : recording = true → lo ≤ cur_start < lo + Z.of_nat k ∧
             ∀ q, cur_start ≤ q < lo + Z.of_nat k → avail_at db q = true ∧ tag_at db q = cur_tag;
  si_idle : recording = false → k = 0%nat ∨ avail_at db (lo + Z.of_nat k - 1) = false
}.

Lemma run_starts_begin db lo k : avail_at db (lo + Z.of_nat k) = true →
  k = 0%nat ∨ avail_at db (lo + Z.of_nat k - 1) = false →
  run_starts db lo (S k) = run_starts db lo k + 1.
Proof.
  intros Ha Hp. rw run_starts_S decide_True //. split; [done|]. intros [? Hp']. destruct Hp as [->|Hp]; [cbn in *; lia|congruence].
Qed.

Lemma run_starts_same db lo k : avail_at db (lo + Z.of_nat k) = false ∨
  (0 < Z.of_nat k ∧ avail_at db (lo + Z.of_nat k - 1) = true) → run_starts db lo (S k) = run_starts db lo k.
Proof.
  intros Ha. rw run_starts_S decide_False; [|lia]. intros [Ha' Hp]. destruct Ha as [Ha|[? Ha]]; [congruence|].
  apply Hp. split; [lia|done].
Qed.

Lemma wp_scan_loop db pf lo hi m k recording cur_start cur_tag s B (Q : bool * Z * Z → boot_state → Prop) :
  pfndb pf = db → db_ok pf → pfndb_offset pf = lo → pfndb_limit pf = hi → uniform_tags db →
  lo + Z.of_nat (k + m) = hi → run_starts db lo (k + m) ≤ MAX_PALLOC_REGION_COUNT →
  scan_inv db lo hi k recording cur_start cur_tag s B →
  (∀ r st t s' B', scan_inv db lo hi (k + m) r st t s' B' → Q (r, st, t) (mk_boot s' pf)) →
  wp (scan_loop m (lo + Z.of_nat k) recording cur_start cur_tag) Q (mk_boot s pf).
Proof.
  intros Edb Hok Elo Ehi Hut. revert k recording cur_start cur_tag s B.
  induction m as [|m IH]; intros k recording cur_start cur_tag s B Hhi Hruns Hinv HQ; cbn [scan_loop].
  { wp_step. rw Nat.add_0_r in HQ. by apply (HQ _ _ _ s B). }
  set (i := lo + Z.of_nat k) in *.
  destruct (do_dom _ Hok i) as [e He]; [lia|]. rw Edb in He.
  assert (avail_at db i = available e) as Eav by (by rw /avail_at He).
  assert (tag_at db i = ptags e) as Etag by (by rw /tag_at He).
  assert (∀ r st t s' B', scan_inv db lo hi (S k) r st t s' B' →
    wp (scan_loop m (i + 1) r st t) Q (mk_boot s' pf)) as Hnext.
  { intros r st t s' B' Hinv'. replace (i + 1) with (lo + Z.of_nat (S k)) by lia.
    apply (IH (S k) r st t s' B'); [lia|by rw -plus_n_Sm in Hruns|done|].
    intros r2 st2 t2 s2 B2. replace (S k + m)%nat with (k + S m)%nat by lia. apply HQ. }
  pose proof Hinv as [Hsc Hst Hlim Hcnt Hrun Hidle].
  wp_step. apply wp_zoom. rw /get_pfn_entry_by_pfn. do 2 wp_step. wp_step. wp_step.
  { cbn. rw orb_false_iff Z.ltb_ge Z.leb_gt. lia. }
  wp_step. wp_step. apply wp_zoom. eapply wp_deref; [cbn; rw Edb; exact He|]. cbn [set_b_pfn b_pfn b_palloc].
  change (set_b_pfn pf (mk_boot s pf)) with (mk_boot s pf).
  destruct recording; cbv iota in Hcnt, Hsc; cbn [andb negb].
  - destruct (Hrun eq_refl) as [Hcs Hall]. destruct (Hall (i - 1) ltac:(lia)) as [Hprev Hptag].
    destruct (available e) eqn:Ea.
    + (* the run goes on: neighbouring pages have the same tags *)
      assert (cur_tag = ptags e) as ->.
      { rw -Hptag -Etag. replace i with (i - 1 + 1) at 2 by lia. apply Hut; [done|]. by replace (i - 1 + 1) with i by lia. }
      rw /available in Ea. apply andb_true_iff in Ea as [-> Hin]. apply negb_true_iff in Hin as ->.
      rw Z.eqb_refl. cbn [negb orb]. apply (Hnext true cur_start (ptags e) s B). split; try done.
      * rw run_starts_same //. right. split; [lia|done].
      * intros _. split; [lia|]. intros q Hq. destruct (decide (q = i)) as [->|]; [by rw Eav Etag|]. apply Hall. lia.
    + (* the run ends here *)
      assert ((negb (usable e) || inuse e || negb (cur_tag =? ptags e)) = true) as ->.
      { rw /available in Ea. destruct (usable e), (inuse e); done. }
      assert (run_starts db lo (S k) = run_starts db lo k) as Hsame by (apply run_starts_same; by left; rw -/i Eav).
      pose proof (run_starts_mono db lo (S k) (k + S m) ltac:(lia)).
      wp_step. eapply (wp_close_region db s pf B lo cur_start i cur_tag); [exact Hsc|done|lia|lia|exact Hall|].
      intros s' B' Hsc' Es El Ec. apply (Hnext _ _ _ _ B'). split; try congruence.
      * replace (lo + Z.of_nat (S k)) with (i + 1) by lia. apply scanned_skip; [done|lia|by rw Eav].
      * lia.
      * intros _. right. replace (lo + Z.of_nat (S k) - 1) with i by lia. by rw Eav.
  - specialize (Hidle eq_refl). rw -/i in Hsc. change (usable e && negb (inuse e)) with (available e).
    destruct (available e) eqn:Ea.
    + (* a run begins *)
      apply (Hnext true i (ptags e) s B). split; try done.
      * rw run_starts_begin //. lia.
      * intros _. split; [lia|]. intros q Hq. assert (q = i) as -> by lia. by rw Eav Etag.
    + apply (Hnext false cur_start cur_tag s B). split; try done.
      * replace (lo + Z.of_nat (S k)) with (i + 1) by lia. apply scanned_skip; [done|lia|by rw Eav].
      * rw run_starts_same //. by left; rw -/i Eav.
      * intros _. right. replace (lo + Z.of_nat (S k) - 1) with i by lia. by rw Eav.
Qed.

End Scan.

(** ** The state before the scan *)

Section Boot.
Context `{Harch : Arch}.

(** What [reserve_palloc] leaves behind for the page frames from [lo] to [hi - 1]. *)
Record reserved (s : palloc_state) (lo hi : Z) : Prop := {
  rs_nodes : nodes s = filled zero_node (seqZ lo (hi - lo));
  rs_start : pfn_start s = lo;
  rs_limit : pfn_limit s = hi;
  rs_entries : pfn_entry_count s = hi - lo;
  rs_count : region_count s = 0;
  rs_total : num_pages_total s = 0;
  rs_alloc : num_pages_alloc s = 0;
  rs_lock : stats_lock s = SPINLOCK_INIT
}.

Lemma reset_inv s lo hi : reserved s lo hi → 0 ≤ lo ≤ hi → pfn_bound hi →
  palloc_inv (reset_regions s) ∅.
Proof.
  intros Hr Hlo Hb.
  pose proof (empty_inv lo hi 0 Hlo Hb ltac:(vm_compute; split; congruence)) as [[L HL] Hrg Hreg Hcnt _ _ _].
  destruct Hr as [En Es El Ee Ec Et Ea Ek].
  split.
  - exists L. rw /pinv in HL |- *.
    cbn [reset_regions upd_regions upd_buddies empty_palloc nodes buddies pfn_start pfn_limit] in HL |- *.
    rw Es El En. exact HL.
  - cbn [reset_regions upd_regions upd_buddies pfn_start pfn_limit]. rw Es El. lia.
  - exact Hreg.
  - cbn [reset_regions upd_regions upd_buddies region_count]. rw Ec. exact Hcnt.
  - exact Ek.
  - cbn [reset_regions upd_regions upd_buddies num_pages_alloc]. rw Ea. done.
  - done.
Qed.

Lemma scan_start db s lo hi : reserved s lo hi → 0 ≤ lo ≤ hi → pfn_bound hi →
  scan_inv db lo hi 0 false 0 0 (reset_regions s) ∅.
Proof.
  intros Hr Hlo Hb. split; cbn [reset_regions upd_regions upd_buddies pfn_start pfn_limit region_count].
  - rw Z.add_0_r. split; try done.
    + by apply (reset_inv s lo hi).
    + intros q. split; [intros (r & p & b & Hp & _); done|lia].
    + intros r q g (p & b & Hp & _). done.
    + cbn [reset_regions upd_regions upd_buddies num_pages_total]. rw (rs_total _ _ _ Hr). lia.
  - apply Hr.
  - apply Hr.
  - rw (rs_count _ _ _ Hr). done.
  - done.
  - auto.
Qed.

End Boot.

(** ** Properties *)

(** C5. [init_palloc]: if neighbouring available pages have the same tags and
    the available pages form at most 32 runs, the allocator comes up with its
    invariant established, nothing allocated, and exactly the available pages of
    the page frame database free, each in a region that carries the page's tags.
    In particular it leaves page frame 0 alone unless that is available.  (Without
    the first condition a page at which the tags change is lost, see
    [init_palloc_tag_change]; a 33rd run is written behind the table of regions.) *)
Theorem init_palloc_correct `{Arch} s pf lo hi : reserved s lo hi → 0 ≤ lo ≤ hi → pfn_bound hi →
  db_ok pf → pfndb_offset pf = lo → pfndb_limit pf = hi → uniform_tags (pfndb pf) →
  run_starts (pfndb pf) lo (Z.to_nat (hi - lo)) ≤ MAX_PALLOC_REGION_COUNT →
  ∃ s' B, init_palloc (mk_boot s pf) = Ret (tt, mk_boot s' pf) ∧ palloc_inv s' B ∧
    allocated B = ∅ ∧
    (∀ q, (∃ r, free_page B r q) ↔ lo ≤ q < hi ∧ avail_at (pfndb pf) q = true) ∧
    (∀ r q g, free_page B r q → regions s' !! r = Some g → tags g = tag_at (pfndb pf) q) ∧
    (avail_at (pfndb pf) 0 = false → page0_reserved B).
Proof.
  intros Hr Hlo Hb Hok Eo El Hut Hruns.
  destruct (wp_elim init_palloc (λ _ b, ∃ s' B, b = mk_boot s' pf ∧ scanned (pfndb pf) s' B lo hi) (mk_boot s pf))
    as ([] & b & E & s' & B & -> & Hsc).
  { rw /init_palloc. wp_step. apply wp_zoom. wp_step. wp_step. wp_step. wp_step. wp_step.
    cbn [b_palloc set_b_palloc reset_regions upd_regions upd_buddies pfn_start pfn_entry_count b_pfn].
    rw (rs_start _ _ _ Hr) (rs_entries _ _ _ Hr). wp_step.
    change (set_b_palloc (reset_regions s) (mk_boot s pf)) with (mk_boot (reset_regions s) pf).
    assert (lo = lo + Z.of_nat 0) as E0 by lia. rw {2}E0.
    eapply (wp_scan_loop (pfndb pf) pf lo hi _ 0 false 0 0 (reset_regions s) ∅); try done; [cbn; lia|by apply scan_start|].
    intros r st t s' B [Hsc Es El' Hcnt Hrun Hidle].
    rw Nat.add_0_l Z2Nat.id in Hsc Hrun; [lia..|]. replace (lo + (hi - lo)) with hi in Hsc, Hrun by lia.
    wp_step. wp_step. cbn [b_palloc]. rw El'. destruct r; cbv iota in Hsc, Hcnt.
    - destruct (Hrun eq_refl) as [Hst Hall].
      eapply (wp_close_region (pfndb pf) s' pf B lo st hi t); [done|done|lia|cbn in Hcnt; lia|exact Hall|].
      intros s2 B2 Hsc2 _ _ _. by exists s2, B2.
    - wp_step. by exists s', B. }
  exists s', B. split; [done|]. destruct Hsc. split_and!; try done. intros Hz.
  apply (page0_kept s' B); [done|intros p [b Hp]; by rw sc_alloc0 in Hp|].
  intros r q Hq. destruct (proj1 (sc_free0 q) (ex_intro _ r Hq)) as [Hq1 Hq2].
  destruct (Z.eq_dec q 0) as [->|]; [congruence|lia].
Qed.

(** ** Witnesses and an example *)

(** Page frames 16 to 19, of which [db] describes each. *)
Definition boot_pfn (db : list pfndb_entry) : pfn_state :=
  mk_pfn (mm [] []) (4 * 4096) (16 * 4096) (20 * 4096) 4 16 20
    (list_to_map (zip (seqZ 16 4) db)).

Definition boot_palloc : palloc_state :=
  mk_palloc (filled zero_node (seqZ 16 4)) ∅ ∅ 0 16 20 4 0 0 SPINLOCK_INIT true.

Lemma boot_reserved : reserved boot_palloc 16 20.
Proof. by split. Qed.

(** Three available pages with the same tags, then a page in use. *)
Definition three_pages : list pfndb_entry :=
  [usable_page 7; usable_page 7; usable_page 7; reserved_page].

Lemma three_pages_avail n : avail_at (pfndb (boot_pfn three_pages)) n = true → 16 ≤ n ≤ 18.
Proof.
  rw /avail_at. cbn. rw !lookup_insert lookup_empty. cbn [fst snd]. repeat case_decide; cbn; intros; try done; lia.
Qed.

Lemma init_palloc_correct_witness : ∃ s' B,
  @init_palloc riscv64 (mk_boot boot_palloc (boot_pfn three_pages)) =
    Ret (tt, mk_boot s' (boot_pfn three_pages)) ∧
  @palloc_inv riscv64 s' B ∧ ∃ r, free_page B r 17.
Proof.
  destruct (@init_palloc_correct riscv64 boot_palloc (boot_pfn three_pages) 16 20 boot_reserved)
    as (s' & B & E & Hpi & _ & Hf & _).
  - lia.
  - split; vm_compute; congruence.
  - split; [vm_compute; split; congruence|vm_compute; reflexivity|].
    intros n Hn. cbn in Hn. assert (n = 16 ∨ n = 17 ∨ n = 18 ∨ n = 19) as [->|[->|[->| ->]]] by lia;
      vm_compute; eexists; reflexivity.
  - reflexivity.
  - reflexivity.
  - intros n H1 H2. apply three_pages_avail in H1, H2.
    assert (n = 16 ∨ n = 17) as [->| ->] by lia; reflexivity.
  - vm_compute. congruence.
  - exists s', B. split; [exact E|]. split; [exact Hpi|]. apply Hf. split; [lia|reflexivity].
Defined.

(** When the tags change between two available pages, the page at which they
    change is given to no region: page frame 18 is available but stays unused. *)
Example init_palloc_tag_change :
  match @init_palloc riscv64 (mk_boot boot_palloc
          (boot_pfn [usable_page 1; usable_page 1; usable_page 7; usable_page 7])) with
  | Ret (_, b) =>
      map_fold (λ n e l, if avail e then n :: l else l) [] (nodes (b_palloc b)) =
        [19; 16] ∧ region_count (b_palloc b) = 2 ∧ num_pages_total (b_palloc b) = 3
  | _ => False
  end.
Proof. vm_compute. split_and!; reflexivity. Qed.
