(* ===== verification/Id.v ===== *)
(** Number allocators: [src/src/kernel/struct/id.c], with [id_obj_t] of
    [src/src/kernel/include/struct.h].

    A set of free numbers is a tree of bitmap words of one to three levels; a
    set bit is a free number (last level) or a word with a set bit below it.
    [words !! (l, i)] is [bitmaps[l][i]]: [mask1] is [(1, 0)], [mask2[i]] is
    [(2, i)] and [mask3[i]] is [(3, i)].  The pages behind [mask3] come from the
    page frame allocator, which is part of the state. *)

From stdpp Require Import base list gmap.
From Stdlib Require Import ZArith Lia.
From Corelib Require Import ssreflect.
From S2P Require Import Prelude Bits Lock Mem Palloc PallocProps Memmap MemmapSpec Pfn PfnSpec PallocInit.

Record id_obj := mk_id {
  id_base : Z;
  id_range : Z;
  alloc_count : Z;
  words : gmap (Z * Z) Z;
  num_levels : Z;
  id_lock : spinlock_t
}.

Record id_state := mk_id_state { obj : id_obj; id_palloc : palloc_state }.

Definition set_obj (o : id_obj) (s : id_state) : id_state := mk_id_state o (id_palloc s).
Definition set_id_palloc (p : palloc_state) (s : id_state) : id_state := mk_id_state (obj s) p.
Definition upd_obj (f : id_obj → id_obj) (s : id_state) : id_state := set_obj (f (obj s)) s.

Definition set_words (w : gmap (Z * Z) Z) (o : id_obj) : id_obj :=
  mk_id (id_base o) (id_range o) (alloc_count o) w (num_levels o) (id_lock o).
Definition set_levels (n : Z) (o : id_obj) : id_obj :=
  mk_id (id_base o) (id_range o) (alloc_count o) (words o) n (id_lock o).
Definition set_id_range (n : Z) (o : id_obj) : id_obj :=
  mk_id (id_base o) n (alloc_count o) (words o) (num_levels o) (id_lock o).
Definition set_alloc_count (n : Z) (o : id_obj) : id_obj :=
  mk_id (id_base o) (id_range o) n (words o) (num_levels o) (id_lock o).
Definition set_id_lock (v : spinlock_t) (o : id_obj) : id_obj :=
  mk_id (id_base o) (id_range o) (alloc_count o) (words o) (num_levels o) v.

(** The interrupt flag is the CPU's, kept with the allocator. *)
#[export] Instance id_has_int : HasInt id_state := {
  int_state s := cpu_int (id_palloc s);
  set_int b s := set_id_palloc (set_cpu_int b (id_palloc s)) s;
  int_set _ _ := eq_refl;
  set_set _ _ _ := eq_refl;
  set_same s := match s with mk_id_state _ (mk_palloc _ _ _ _ _ _ _ _ _ _ _) => eq_refl end
}.

Definition obj_lock : lock_ref id_state :=
  mk_lock_ref (λ s, Some (id_lock (obj s))) (λ v, upd_obj (set_id_lock v)).

Section Id.
Context `{Arch}.

Definition NUM_BITS_PER_MAP : Z := ARCH_WIDTH.
Definition MAX_NUM_BITS_L1 : Z := NUM_BITS_PER_MAP.
Definition MAX_NUM_BITS_L2 : Z := NUM_BITS_PER_MAP * NUM_BITS_PER_MAP.
Definition MAX_NUM_BITS_L3 : Z := NUM_BITS_PER_MAP * NUM_BITS_PER_MAP * NUM_BITS_PER_MAP.

(** [bitmaps[level][i]]. *)
Definition read_word (level i : Z) : M id_state Z := deref (λ s, words (obj s) !! (level, i)).
Definition write_word (level i : Z) (v : Z) : M id_state unit :=
  read_word level i;; modify (upd_obj (λ o, set_words (<[(level, i) := v]> (words o)) o)).

(** ** Creation *)

(** [(0x1ul << n) - 0x1ul]. *)
Definition low_bits (n : Z) : outcome Z :=
  b ← shl_chk ARCH_WIDTH 1 n; Ret (ulong (b - 1)).

Definition _create_l1 : M id_state unit :=
  modify (upd_obj (set_levels 1));;
  range ← gets (λ s, id_range (obj s));
  m ← lift_outcome (low_bits range);
  write_word 1 0 m.

(** The leaf word with [count] numbers left, and the count after it. *)
Definition leaf_word (count : Z) : outcome (Z * Z) :=
  if NUM_BITS_PER_MAP <=? count then Ret (ulong (-1), count - NUM_BITS_PER_MAP)
  else m ← low_bits count; Ret (m, 0).

Fixpoint create_l2_loop (fuel : nat) (l2idx count : Z) : M id_state unit :=
  if ctrue count then
    match fuel with
    | O => diverge
    | S fuel' =>
        '(m, count') ← lift_outcome (leaf_word count);
        write_word 2 l2idx m;;
        b ← lift_outcome (shl_chk ARCH_WIDTH 1 l2idx);
        m1 ← read_word 1 0;
        write_word 1 0 (Z.lor m1 b);;
        create_l2_loop fuel' (l2idx + 1) count'
    end
  else mret tt.

Definition _create_l2 : M id_state unit :=
  modify (upd_obj (set_levels 2));;
  range ← gets (λ s, id_range (obj s));
  create_l2_loop (Z.to_nat range) 0 range.

Fixpoint create_l3_loop (fuel : nat) (l3idx count : Z) : M id_state unit :=
  if ctrue count then
    match fuel with
    | O => diverge
    | S fuel' =>
        '(m, count') ← lift_outcome (leaf_word count);
        write_word 3 l3idx m;;
        let l2idx := l3idx / NUM_BITS_PER_MAP in
        b2 ← lift_outcome (shl_chk ARCH_WIDTH 1 (l3idx mod NUM_BITS_PER_MAP));
        m2 ← read_word 2 l2idx;
        write_word 2 l2idx (Z.lor m2 b2);;
        b1 ← lift_outcome (shl_chk ARCH_WIDTH 1 l2idx);
        m1 ← read_word 1 0;
        write_word 1 0 (Z.lor m1 b1);;
        create_l3_loop fuel' (l3idx + 1) count'
    end
  else mret tt.

(** The allocated pages hold [contents] in every word. *)
Definition _create_l3 (cast_to_ptr : Z → Z) (contents : Z) : M id_state unit :=
  modify (upd_obj (set_levels 3));;
  let num_pages := get_vpage_count MAX_NUM_BITS_L3 in
  zoom id_palloc set_id_palloc (palloc_ptr cast_to_ptr num_pages);;
  let n := num_pages * PAGE_SIZE / (ARCH_WIDTH / 8) in
  modify (upd_obj (λ o, set_words (words o ∪ filled contents ((λ i, (3, i)) <$> seqZ 0 n)) o));;
  range ← gets (λ s, id_range (obj s));
  create_l3_loop (Z.to_nat range) 0 range.

Definition id_alloc_create (cast_to_ptr : Z → Z) (contents first last : Z) : M id_state unit :=
  let range := ulong (last - first + 1) in
  modify (set_obj (mk_id first range 0
    (filled 0 ((1, 0) :: ((λ i, (2, i)) <$> seqZ 0 NUM_BITS_PER_MAP))) 0 SPINLOCK_INIT));;
  (if range <=? MAX_NUM_BITS_L1 then _create_l1
   else if range <=? MAX_NUM_BITS_L2 then _create_l2
   else if range <=? MAX_NUM_BITS_L3 then _create_l3 cast_to_ptr contents
   else
     modify (upd_obj (set_id_range MAX_NUM_BITS_L3));;
     _create_l3 cast_to_ptr contents;;
     panic);;
  spinlock_init obj_lock.

(** ** Allocation *)

(** The descent over the remaining [k] levels: the word of the last level, the
    bit in it, and the number of that bit among all bits of its level. *)
Fixpoint descend (k : nat) (level bitmap_idx : Z) : M id_state (Z * Z * Z) :=
  bitmap ← read_word level bitmap_idx;
  let bitmap_pos := ctz bitmap in
  let idx := ulong (ulong (bitmap_idx * NUM_BITS_PER_MAP) + bitmap_pos) in
  match k with
  | O => mret (bitmap_idx, bitmap_pos, idx)
  | S k' => descend k' (level + 1) idx
  end.

(** [*bitmap &= ~(0x1ul << pos)]; the result is the new word. *)
Definition clear_bit (level i pos : Z) : M id_state Z :=
  bitmap ← read_word level i;
  b ← lift_outcome (shl_chk ARCH_WIDTH 1 pos);
  let v := Z.land bitmap (bnot ARCH_WIDTH b) in
  write_word level i v;;
  mret v.

(** [for (level = num_levels - 1; level; level--)]. *)
Fixpoint clear_up (level : nat) (clear_idx : Z) : M id_state unit :=
  match level with
  | O => mret tt
  | S level' =>
      let bitmap_idx := clear_idx / NUM_BITS_PER_MAP in
      v ← clear_bit (Z.of_nat level) bitmap_idx (clear_idx mod NUM_BITS_PER_MAP);
      if ctrue v then mret tt else clear_up level' bitmap_idx
  end.

(** What runs under the object's lock. *)
Definition id_alloc_body : M id_state Z :=
  full ← gets (λ s, alloc_count (obj s) =? id_range (obj s));
  if (full : bool) then mret (-1) else
  n ← gets (λ s, num_levels (obj s));
  '(i, pos, idx) ← descend (Z.to_nat (n - 1)) 1 0;
  base ← gets (λ s, id_base (obj s));
  let id := swrap ARCH_WIDTH (base + idx) in
  v ← clear_bit n i pos;
  (if ctrue v then mret tt else clear_up (Z.to_nat (n - 1)) (idx / NUM_BITS_PER_MAP));;
  mret id.

Definition id_alloc : M id_state Z := spinlock_exclusive_int obj_lock id_alloc_body.

(** ** Release *)

(** [for (level = num_levels; level; level--)]; [top] is [num_levels]. *)
Fixpoint set_up (top : Z) (level : nat) (idx : Z) : M id_state unit :=
  match level with
  | O => mret tt
  | S level' =>
      let bitmap_idx := idx / NUM_BITS_PER_MAP in
      mask ← lift_outcome (shl_chk ARCH_WIDTH 1 (idx mod NUM_BITS_PER_MAP));
      bitmap ← read_word (Z.of_nat level) bitmap_idx;
      panic_if ((Z.of_nat level =? top) && ctrue (Z.land bitmap mask));;
      write_word (Z.of_nat level) bitmap_idx (Z.lor bitmap mask);;
      set_up top level' bitmap_idx
  end.

Definition id_free (id : Z) : M id_state unit :=
  base ← gets (λ s, id_base (obj s));
  range ← gets (λ s, id_range (obj s));
  let idx := ulong (id - base) in
  panic_if (range <=? idx);;
  spinlock_exclusive_int obj_lock (
    n ← gets (λ s, num_levels (obj s));
    set_up n (Z.to_nat n) idx;;
    modify (upd_obj (λ o, set_alloc_count (ulong (alloc_count o - 1)) o))).

End Id.

(** ** The tree of words *)

Section Tree.
Context `{Harch : Arch}.

Abbreviation W := NUM_BITS_PER_MAP.

Lemma W_cases : W = 32 ∨ W = 64.
Proof. apply arch_width_cases. Qed.

Lemma W_pow l : 0 ≤ l ≤ 3 → 0 < W ^ l < 2 ^ ARCH_WIDTH.
Proof.
  intros Hl. rw /NUM_BITS_PER_MAP. assert (l = 0 ∨ l = 1 ∨ l = 2 ∨ l = 3) as [->|[->|[->| ->]]] by lia;
    destruct arch_width_cases as [->| ->]; vm_compute; split; congruence.
Qed.

Lemma W_pow_S l : 0 ≤ l → W ^ (l + 1) = W ^ l * W.
Proof. intros. rw Z.pow_add_r // Z.pow_1_r. done. Qed.

Definition word (w : gmap (Z * Z) Z) (l i : Z) : Z := default 0 (w !! (l, i)).

(** Bit number [k] of level [l], counted over the words of the level. *)
Definition bit (w : gmap (Z * Z) Z) (l k : Z) : bool := Z.testbit (word w l (k / W)) (k mod W).

Record tree_words (n : Z) (w : gmap (Z * Z) Z) : Prop := {
  tw_levels : 1 ≤ n ≤ 3;
  tw_dom : ∀ l i, 1 ≤ l ≤ n → 0 ≤ i < W ^ (l - 1) → ∃ v, w !! (l, i) = Some v ∧ uint ARCH_WIDTH v;
  tw_out : w !! (2, W) = None
}.

(** Every bit above the last level tells whether the word below it has a set
    bit, except possibly bit [x] of level [x0]. *)
Definition summary_except (n : Z) (w : gmap (Z * Z) Z) (x0 x : Z) : Prop :=
  ∀ l k, 1 ≤ l < n → 0 ≤ k < W ^ l → (l, k) ≠ (x0, x) →
    bit w l k = negb (word w (l + 1) k =? 0).

Definition summary (n : Z) (w : gmap (Z * Z) Z) : Prop :=
  ∀ l k, 1 ≤ l < n → 0 ≤ k < W ^ l → bit w l k = negb (word w (l + 1) k =? 0).

Lemma div_mod_W k j i : 0 ≤ j < W → k = i * W + j → k / W = i ∧ k mod W = j.
Proof.
  intros Hj ->. pose proof W_cases. split.
  - symmetry. apply (Z.div_unique_pos _ _ _ j); lia.
  - symmetry. apply (Z.mod_unique_pos _ _ i); lia.
Qed.

Lemma bit_in_word w l i j : 0 ≤ j < W → bit w l (i * W + j) = Z.testbit (word w l i) j.
Proof. intros Hj. rw /bit. by destruct (div_mod_W (i * W + j) j i Hj eq_refl) as [-> ->]. Qed.

Lemma split_index k : k = k / W * W + k mod W ∧ 0 ≤ k mod W < W.
Proof. pose proof W_cases. split; [rw Z.mul_comm; apply Z.div_mod; lia|apply Z.mod_pos_bound; lia]. Qed.

Lemma index_range l k : 1 ≤ l → 0 ≤ k < W ^ l → 0 ≤ k / W < W ^ (l - 1).
Proof.
  intros Hl Hk. pose proof W_cases. split; [apply Z.div_pos; lia|]. apply Z.div_lt_upper_bound; [lia|].
  replace (W * W ^ (l - 1)) with (W ^ l); [lia|]. rw Z.mul_comm -W_pow_S; [lia|]. f_equal. lia.
Qed.

Lemma word_zero v : uint ARCH_WIDTH v → v = 0 ↔ ∀ j, 0 ≤ j < W → Z.testbit v j = false.
Proof.
  intros Hv. split; [intros -> j _; apply Z.bits_0|]. intros Hb. apply Z.bits_inj'. intros i Hi.
  rw Z.bits_0. destruct (Z.lt_ge_cases i W); [apply Hb; lia|by apply (uint_testbit_high ARCH_WIDTH)].
Qed.

Lemma word_lookup w l i v : w !! (l, i) = Some v → word w l i = v.
Proof. intros E. by rw /word E. Qed.

Lemma bit_insert w l i v l' k :
  bit (<[(l, i) := v]> w) l' k =
    if decide (l = l' ∧ k / W = i) then Z.testbit v (k mod W) else bit w l' k.
Proof.
  rw /bit /word lookup_insert. case_decide as E; case_decide as E'; try done.
  - injection E as -> ->. tauto.
  - destruct E' as [-> <-]. done.
Qed.

Lemma word_insert w l i v l' i' :
  word (<[(l, i) := v]> w) l' i' = if decide (l = l' ∧ i = i') then v else word w l' i'.
Proof.
  rw /word lookup_insert. case_decide as E; case_decide as E'; try done.
  - injection E as -> ->. tauto.
  - destruct E' as [-> <-]. done.
Qed.

Lemma tree_words_insert n w l i v : tree_words n w → 1 ≤ l ≤ n → 0 ≤ i < W ^ (l - 1) →
  uint ARCH_WIDTH v → tree_words n (<[(l, i) := v]> w).
Proof.
  intros [Hn Hd Ho] Hl Hi Hv. split; [done|..].
  - intros l' i' Hl' Hi'. destruct (decide ((l, i) = (l', i'))) as [[= <- <-]|Hne].
    + exists v. by rw lookup_insert_eq.
    + rw lookup_insert_ne //. by apply Hd.
  - rw lookup_insert_ne //. intros [= -> ->]. rw (_ : 2 - 1 = 1) // Z.pow_1_r in Hi. lia.
Qed.

(** Clearing or setting one bit of a word. *)
Lemma clear_bit_spec v pos j : uint ARCH_WIDTH v → 0 ≤ pos < W → 0 ≤ j →
  uint ARCH_WIDTH (Z.land v (bnot ARCH_WIDTH (2 ^ pos))) ∧
  Z.testbit (Z.land v (bnot ARCH_WIDTH (2 ^ pos))) j = Z.testbit v j && negb (j =? pos).
Proof.
  intros Hv Hp Hj. assert (0 ≤ ARCH_WIDTH) by arch_lia. split.
  - split; [apply Z.land_nonneg; left; apply Hv|]. destruct Hv as [Hv1 Hv2].
    destruct (decide (Z.land v (bnot ARCH_WIDTH (2 ^ pos)) = 0)) as [->|Hne]; [lia|].
    assert (0 ≤ Z.land v (bnot ARCH_WIDTH (2 ^ pos))) by (apply Z.land_nonneg; by left).
    apply Z.log2_lt_pow2; [lia|]. pose proof (Z.log2_land v (bnot ARCH_WIDTH (2 ^ pos)) Hv1) as Hlog.
    assert (0 ≤ bnot ARCH_WIDTH (2 ^ pos) < 2 ^ ARCH_WIDTH) as [Hb1 Hb2] by (by apply wrap_range).
    specialize (Hlog Hb1). destruct (decide (v = 0)) as [->|]; [by rw Z.land_0_l in Hne|].
    assert (Z.log2 v < ARCH_WIDTH) by (apply Z.log2_lt_pow2; lia). lia.
  - rw Z.land_spec /bnot wrap_testbit // Z.lnot_spec // Z.pow2_bits_eqb; [lia|]. rw (Z.eqb_sym pos).
    destruct (Z.ltb_spec j ARCH_WIDTH); cbn [andb]; [done|].
    by rw (uint_testbit_high _ _ _ Hv).
Qed.

Lemma set_bit_spec v pos j : uint ARCH_WIDTH v → 0 ≤ pos < W → 0 ≤ j →
  uint ARCH_WIDTH (Z.lor v (2 ^ pos)) ∧
  Z.testbit (Z.lor v (2 ^ pos)) j = Z.testbit v j || (j =? pos).
Proof.
  intros Hv Hp Hj. split.
  - apply lor_uint; [arch_lia|done|]. apply pow2_uint. rw /NUM_BITS_PER_MAP in Hp. lia.
  - rw Z.lor_spec Z.pow2_bits_eqb; [lia|]. by rw (Z.eqb_sym pos).
Qed.

End Tree.

(** ** The loops *)

Section Loops.
Context `{Harch : Arch}.

Abbreviation W := NUM_BITS_PER_MAP.

Definition putw (w : gmap (Z * Z) Z) (s : id_state) : id_state := upd_obj (set_words w) s.

Lemma putw_id s : putw (words (obj s)) s = s.
Proof. by destruct s as [[] ?]. Qed.

Lemma wp_read_word l i v (Q : Z → id_state → Prop) s :
  words (obj s) !! (l, i) = Some v → Q v s → wp (read_word l i) Q s.
Proof. intros E HQ. eapply wp_deref; [exact E|exact HQ]. Qed.

Lemma wp_write_word l i v v' (Q : unit → id_state → Prop) s :
  words (obj s) !! (l, i) = Some v → Q tt (putw (<[(l, i) := v']> (words (obj s))) s) →
  wp (write_word l i v') Q s.
Proof. intros E HQ. rw /write_word. wp_step. eapply wp_read_word; [exact E|]. by wp_step. Qed.

Lemma shl_chk_W pos : 0 ≤ pos < W → shl_chk ARCH_WIDTH 1 pos = Ret (2 ^ pos).
Proof.
  intros Hp. rw /NUM_BITS_PER_MAP in Hp. rw shl_chk_small; [lia|lia| |by rw Z.mul_1_l].
  rw Z.mul_1_l. apply Z.pow_lt_mono_r; lia.
Qed.

(** The descent finds the least set bit of the last level. *)
Lemma wp_descend n s k l i : tree_words n (words (obj s)) → summary n (words (obj s)) →
  1 ≤ l → l + Z.of_nat k = n → 0 ≤ i < W ^ (l - 1) → word (words (obj s)) l i ≠ 0 →
  (∀ i', 0 ≤ i' < i → word (words (obj s)) l i' = 0) →
  wp (descend k l i) (λ r s', s' = s ∧ ∃ idx, r = (idx / W, idx mod W, idx) ∧ 0 ≤ idx < W ^ n ∧
    bit (words (obj s)) n idx = true ∧ ∀ j, 0 ≤ j < idx → bit (words (obj s)) n j = false) s.
Proof.
  intros Ht Hs. set (w := words (obj s)) in *. pose proof Ht as [Hn Hd _]. pose proof W_cases.
  revert l i. induction k as [|k IH]; intros l i Hl Hk Hi Hw Hmin; cbn [descend];
    destruct (Hd l i ltac:(lia) Hi) as (v & Hv & Huv);
    pose proof (word_lookup _ _ _ _ Hv) as Ew; rw Ew in Hw;
    destruct (ctz_lowest v Huv Hw) as (Hpos & Hbit & Hlow); set (pos := ctz v) in *;
    change ARCH_WIDTH with W in Hpos;
    assert (W ^ l = W ^ (l - 1) * W) as EW by (rw -W_pow_S; [lia|]; f_equal; lia);
    pose proof (W_pow l ltac:(lia));
    assert (0 ≤ i * W + pos < W ^ l) as Hidx by (rw EW; clear - Hi Hpos; split; nia);
    assert (ulong (ulong (i * W) + pos) = i * W + pos) as Eidx by (rw !wrap_small //; rw /uint; lia);
    assert (bit w l (i * W + pos) = true) as Hb by (by rw bit_in_word // Ew);
    assert (∀ j, 0 ≤ j < i * W + pos → bit w l j = false) as Hmin'.
  1, 3: intros j Hj; destruct (split_index j) as [Ej Hjm]; rw {1}Ej bit_in_word //;
    destruct (decide (j / W = i)) as [E|Hne];
    [rw E Ew; apply Hlow; lia|rw Hmin ?Z.bits_0 //; split; [apply Z.div_pos; lia|nia]].
  - wp_step. eapply wp_read_word; [exact Hv|]. cbv zeta. rw -/pos Eidx. wp_step. split; [done|].
    assert (n = l) as -> by lia. exists (i * W + pos).
    destruct (div_mod_W (i * W + pos) pos i Hpos eq_refl) as [-> ->].
    split; [done|]. split; [exact Hidx|]. split; [exact Hb|exact Hmin'].
  - wp_step. eapply wp_read_word; [exact Hv|]. cbv zeta. rw -/pos Eidx.
    apply IH; [lia|lia|by replace (l + 1 - 1) with l by lia|..].
    + rw (Hs l) // in Hb; [lia|]. by apply negb_true_iff, Z.eqb_neq in Hb.
    + intros i' Hi'. specialize (Hmin' i' Hi'). rw (Hs l) // in Hmin'; [lia|lia|].
      by apply negb_false_iff, Z.eqb_eq in Hmin'.
Qed.

Lemma wp_clear_bit n l k (Q : Z → id_state → Prop) s : tree_words n (words (obj s)) →
  1 ≤ l ≤ n → 0 ≤ k < W ^ l →
  (∀ v w', tree_words n w' → word w' l (k / W) = v → uint ARCH_WIDTH v →
     (∀ l' j, bit w' l' j = bit (words (obj s)) l' j && negb ((l' =? l) && (j =? k))) →
     (∀ l' i, (l', i) ≠ (l, k / W) → word w' l' i = word (words (obj s)) l' i) →
     Q v (putw w' s)) →
  wp (clear_bit l (k / W) (k mod W)) Q s.
Proof.
  intros Ht Hl Hk HQ. destruct (split_index k) as [Ek Hkm]. pose proof (index_range l k ltac:(lia) Hk) as Hi.
  destruct (tw_dom _ _ Ht l (k / W) Hl Hi) as (v & Hv & Huv).
  rw /clear_bit. wp_step. eapply wp_read_word; [exact Hv|]. wp_step. eapply wp_lift; [by apply shl_chk_W|].
  cbv zeta. set (v' := Z.land _ _). pose proof (clear_bit_spec v (k mod W) 0 Huv Hkm ltac:(lia)) as [Hu _]. rw -/v' in Hu.
  wp_step. eapply wp_write_word; [exact Hv|]. wp_step. apply HQ.
  - by apply tree_words_insert.
  - by rw word_insert decide_True.
  - done.
  - intros l' j. rw bit_insert. destruct (split_index j) as [Ej Hjm]. case_decide as E.
    + destruct E as [<- E]. rw /v' (proj2 (clear_bit_spec v (k mod W) (j mod W) Huv Hkm (proj1 Hjm))).
      rw Z.eqb_refl /= {1}/bit E (word_lookup _ _ _ _ Hv). f_equal. f_equal.
      destruct (Z.eqb_spec (j mod W) (k mod W)), (Z.eqb_spec j k); try done; congruence.
    + destruct (Z.eqb_spec l' l) as [->|]; cbn [andb negb]; [|by rw andb_true_r].
      destruct (Z.eqb_spec j k) as [->|]; cbn [andb negb]; [|by rw andb_true_r]. tauto.
  - intros l' i Hne. rw word_insert decide_False //. intros [<- <-]. done.
Qed.

(** The upward loop of [id_alloc] repairs the summary bits. *)
Lemma wp_clear_up n s level k : tree_words n (words (obj s)) →
  summary_except n (words (obj s)) (Z.of_nat level) k → Z.of_nat level < n →
  (1 ≤ Z.of_nat level → 0 ≤ k < W ^ Z.of_nat level ∧ word (words (obj s)) (Z.of_nat level + 1) k = 0) →
  wp (clear_up level k) (λ _ s', ∃ w', s' = putw w' s ∧ tree_words n w' ∧ summary n w' ∧
    ∀ j, bit w' n j = bit (words (obj s)) n j) s.
Proof.
  pose proof W_cases. revert s k. induction level as [|level IH]; intros s k Ht Hs Hlt Hk; cbn [clear_up].
  { wp_step. exists (words (obj s)). rw putw_id. split_and!; try done.
    intros l k' Hl Hk'. apply Hs; [done|done|]. intros [= ? ?]. cbn in *. lia. }
  destruct (Hk ltac:(lia)) as [Hkr Hz]. set (l := Z.of_nat (S level)) in *.
  wp_step. apply (wp_clear_bit n l k); [done|lia|done|].
  intros v w' Ht' Hv Huv Hbits Hwords.
  assert (∀ j, bit w' n j = bit (words (obj s)) n j) as Hleaf.
  { intros j. rw Hbits (proj2 (Z.eqb_neq n l)); [lia|]. by rw andb_true_r. }
  (* after clearing, only the bit above the changed word can be wrong *)
  assert (∀ l' k', 1 ≤ l' < n → 0 ≤ k' < W ^ l' → (l', k') ≠ (l - 1, k / W) →
    bit w' l' k' = negb (word w' (l' + 1) k' =? 0)) as Hex.
  { intros l' k' Hl' Hk' Hne. rw Hbits. destruct (decide ((l', k') = (l, k))) as [[= -> ->]|Hne2].
    - rw !Z.eqb_refl Hwords; [intros [=]; lia|]. rw Hz. by rw andb_false_r.
    - rw Hwords; [intros [= E1 E2]; apply Hne; f_equal; lia|]. rw -Hs //.
      destruct (Z.eqb_spec l' l), (Z.eqb_spec k' k); cbn [andb negb]; rw ?andb_true_r //. congruence. }
  rw /ctrue. destruct (Z.eqb_spec v 0) as [Ev|Ev]; cbn [negb].
  - eapply wp_mono; [apply (IH (putw w' s) (k / W)); cbn [putw upd_obj set_obj obj words set_words]; try done|].
    + intros l' k' Hl' Hk' Hne. apply Hex; [done|done|]. intros [= -> ->]. apply Hne. f_equal. lia.
    + lia.
    + intros Hl1. replace (Z.of_nat level + 1) with l by lia. split; [|by rw Hv].
      replace (Z.of_nat level) with (l - 1) by lia. apply index_range; [lia|done].
    + intros _ s' (w2 & -> & ? & ? & Hl2). exists w2. split_and!; try done. intros j. by rw Hl2.
  - wp_step. exists w'. split_and!; try done. intros l' k' Hl' Hk'.
    destruct (decide ((l', k') = (l - 1, k / W))) as [[= -> ->]|]; [|by apply Hex].
    replace (l - 1 + 1) with l by lia. rw Hv (proj2 (Z.eqb_neq _ _)) //.
    (* the word had a set bit before, so its summary bit was set *)
    rw Hbits (proj2 (Z.eqb_neq (l - 1) l)); [lia|]. cbn [andb negb]. rw andb_true_r.
    rw Hs //; [intros [=]; lia|]. replace (l - 1 + 1) with l by lia.
    apply negb_true_iff, Z.eqb_neq. intros Hz'. apply Ev. apply word_zero; [done|].
    intros j Hj. rw -Hv -(bit_in_word w' l (k / W) j Hj) Hbits bit_in_word // Hz' Z.bits_0. done.
Qed.


(** The upward loop of [id_free] sets the bit and its summary bits. *)
Lemma wp_set_up n s level k : tree_words n (words (obj s)) →
  summary_except n (words (obj s)) (Z.of_nat level) k → Z.of_nat level ≤ n →
  (1 ≤ Z.of_nat level → 0 ≤ k < W ^ Z.of_nat level) →
  (1 ≤ Z.of_nat level < n → word (words (obj s)) (Z.of_nat level + 1) k ≠ 0) →
  (Z.of_nat level = n → bit (words (obj s)) n k = false) →
  wp (set_up n level k) (λ _ s', ∃ w', s' = putw w' s ∧ tree_words n w' ∧ summary n w' ∧
    ∀ j, bit w' n j = bit (words (obj s)) n j || ((Z.of_nat level =? n) && (j =? k))) s.
Proof.
  pose proof W_cases. revert s k. induction level as [|level IH]; intros s k Ht Hs Hle Hk Hnz Hcl; cbn [set_up].
  { wp_step. exists (words (obj s)). rw putw_id. pose proof (tw_levels _ _ Ht). split_and!; try done.
    - intros l k' Hl Hk'. apply Hs; [done|done|]. intros [= ? ?]. cbn in *. lia.
    - intros j. rw (proj2 (Z.eqb_neq _ _)); [cbn; lia|]. by rw orb_false_r. }
  set (l := Z.of_nat (S level)) in *. specialize (Hk ltac:(lia)).
  destruct (split_index k) as [Ek Hkm]. pose proof (index_range l k ltac:(lia) Hk) as Hi.
  destruct (tw_dom _ _ Ht l (k / W) ltac:(lia) Hi) as (v & Hv & Huv).
  wp_step. eapply wp_lift; [by apply shl_chk_W|]. wp_step. eapply wp_read_word; [exact Hv|].
  wp_step. apply wp_panic_if.
  { destruct (Z.eqb_spec l n) as [El|]; cbn [andb]; [|done]. rw ctrue_land_pow2; [lia|].
    specialize (Hcl El). rw -El /bit (word_lookup _ _ _ _ Hv) in Hcl. done. }
  wp_step. eapply wp_write_word; [exact Hv|]. set (v' := Z.lor v (2 ^ (k mod W))).
  assert (uint ARCH_WIDTH v') as Hu' by apply (set_bit_spec v (k mod W) 0 Huv Hkm ltac:(lia)).
  set (w' := <[(l, k / W) := v']> (words (obj s))).
  assert (∀ l' j, bit w' l' j = bit (words (obj s)) l' j || ((l' =? l) && (j =? k))) as Hbits.
  { intros l' j. rw /w' bit_insert. destruct (split_index j) as [Ej Hjm]. case_decide as E.
    - destruct E as [<- E]. rw /v' (proj2 (set_bit_spec v (k mod W) (j mod W) Huv Hkm (proj1 Hjm))).
      rw Z.eqb_refl /= {1}/bit E (word_lookup _ _ _ _ Hv). f_equal.
      destruct (Z.eqb_spec (j mod W) (k mod W)), (Z.eqb_spec j k); try done; congruence.
    - destruct (Z.eqb_spec l' l) as [->|]; cbn [andb]; [|by rw orb_false_r].
      destruct (Z.eqb_spec j k) as [->|]; cbn [andb]; [|by rw orb_false_r]. tauto. }
  assert (word w' l (k / W) ≠ 0) as Hnz'.
  { rw /w' word_insert decide_True //. intros E0.
    pose proof (proj2 (set_bit_spec v (k mod W) (k mod W) Huv Hkm (proj1 Hkm))) as Hb. rw -/v' E0 Z.bits_0 Z.eqb_refl orb_true_r // in Hb. }
  assert (tree_words n w') as Ht' by (by apply tree_words_insert; [|lia|..]).
  eapply wp_mono; [apply (IH (putw w' s) (k / W)); cbn [putw upd_obj set_obj obj words set_words]; try done|].
  - intros l' k' Hl' Hk' Hne. rw Hbits. destruct (decide ((l', k') = (l, k))) as [[= -> ->]|Hne2].
    + rw !Z.eqb_refl orb_true_r /w' word_insert decide_False; [lia|].
      symmetry. apply negb_true_iff, Z.eqb_neq, Hnz. lia.
    + rw /w' word_insert decide_False; [intros [E1 E2]; apply Hne; f_equal; lia|]. rw -Hs //.
      destruct (Z.eqb_spec l' l), (Z.eqb_spec k' k); cbn [andb]; rw ?orb_false_r //. congruence.
  - lia.
  - intros Hl1. replace (Z.of_nat level) with (l - 1) by lia. done.
  - intros Hl1. by replace (Z.of_nat level + 1) with l by lia.
  - lia.
  - intros _ s' (w2 & -> & ? & ? & Hl2). exists w2. split_and!; try done. intros j. rw Hl2.
    rw (proj2 (Z.eqb_neq (Z.of_nat level) n)); [lia|]. rw orb_false_r Hbits. by rw (Z.eqb_sym n l).
Qed.

(** ** The allocator's invariant *)

(** Number [k] (counted from [base]) is free. *)
Definition is_free (o : id_obj) (k : Z) : bool := bit (words o) (num_levels o) k.

Record id_inv (o : id_obj) : Prop := {
  ii_tree : tree_words (num_levels o) (words o);
  ii_summary : summary (num_levels o) (words o);
  ii_range : 0 < id_range o ≤ W ^ num_levels o;
  ii_free : ∀ k, is_free o k = true → 0 ≤ k < W ^ num_levels o → k < id_range o;
  ii_base : 0 ≤ id_base o ∧ id_base o + id_range o ≤ 2 ^ (ARCH_WIDTH - 1);
  ii_lock : id_lock o = SPINLOCK_INIT
}.

#[export] Instance obj_lock_laws : LockLaws obj_lock.
Proof. split; cbn; try done. intros v [[] ?] [= ->]. done. Qed.

(** What allocation and release leave alone. *)
Definition same_obj (s s' : id_state) : Prop :=
  id_base (obj s') = id_base (obj s) ∧ id_range (obj s') = id_range (obj s) ∧
  num_levels (obj s') = num_levels (obj s) ∧ id_palloc s' = id_palloc s.

Lemma unlock_putw w s : id_lock (obj s) = SPINLOCK_INIT →
  set_int (int_state s) (lk_set obj_lock SPINLOCK_INIT (putw w (locked_state obj_lock s))) = putw w s.
Proof. intros Hl. destruct s as [[] []]; cbn in *. by subst. Qed.

Lemma inv_after o w : id_inv o → tree_words (num_levels o) w → summary (num_levels o) w →
  (∀ k, bit w (num_levels o) k = true → 0 ≤ k < W ^ num_levels o → k < id_range o) →
  id_inv (set_words w o).
Proof. intros [? ? ? ? ? ?] ? ? ?. by split. Qed.

Lemma swrap_small z : 0 ≤ z < 2 ^ (ARCH_WIDTH - 1) → swrap ARCH_WIDTH z = z.
Proof.
  intros Hz. rw /swrap. assert (2 ^ ARCH_WIDTH = 2 * 2 ^ (ARCH_WIDTH - 1)) as E.
  { rw -Z.pow_succ_r; [arch_lia|]. f_equal. lia. }
  rw Z.mod_small; lia.
Qed.

(** A set bit of the last level makes the root word non-zero. *)
Lemma root_nonzero n w k : tree_words n w → summary n w → 0 ≤ k < W ^ n → bit w n k = true →
  word w 1 0 ≠ 0.
Proof.
  intros Ht Hs Hk Hf. pose proof (tw_levels _ _ Ht) as Hn.
  assert (∀ m l, n = l + Z.of_nat m → 1 ≤ l → ∃ i, 0 ≤ i < W ^ (l - 1) ∧ word w l i ≠ 0) as Hup.
  { induction m as [|m IHm]; intros l El Hl1.
    - exists (k / W). split; [apply index_range; [lia|]; by replace l with n by lia|].
      intros E. rw /bit in Hf. replace n with l in Hf by lia. by rw E Z.bits_0 in Hf.
    - destruct (IHm (l + 1) ltac:(lia) ltac:(lia)) as (i & Hi & Hw). replace (l + 1 - 1) with l in Hi by lia.
      exists (i / W). split; [by apply index_range|]. intros E.
      assert (bit w l i = true) as Hb by (rw Hs; [lia|done|]; by apply negb_true_iff, Z.eqb_neq).
      by rw /bit E Z.bits_0 in Hb. }
  destruct (Hup (Z.to_nat (n - 1)) 1 ltac:(lia) ltac:(lia)) as (i & Hi & Hw).
  rw Z.sub_diag Z.pow_0_r in Hi. by replace i with 0 in Hw by lia.
Qed.

(** Clearing the least set bit and repairing the summary, on one state. *)
Lemma wp_take n k s (Q : unit → id_state → Prop) : tree_words n (words (obj s)) →
  summary n (words (obj s)) → 0 ≤ k < W ^ n →
  (∀ w', tree_words n w' → summary n w' →
     (∀ j, bit w' n j = bit (words (obj s)) n j && negb (j =? k)) → Q tt (putw w' s)) →
  wp (v ← clear_bit n (k / W) (k mod W);
      if ctrue v then mret tt else clear_up (Z.to_nat (n - 1)) (k / W)) Q s.
Proof.
  intros Ht Hs Hk HQ. pose proof (tw_levels _ _ Ht) as Hn. pose proof W_cases.
  wp_step. apply (wp_clear_bit n n k); [done|lia|done|]. intros v w' Ht' Hv Huv Hbits Hwords.
  assert (∀ j, bit w' n j = bit (words (obj s)) n j && negb (j =? k)) as Hleaf
    by (intros j; by rw Hbits Z.eqb_refl).
  assert (summary_except n w' (n - 1) (k / W)) as Hex.
  { intros l k' Hl Hk' Hne. rw Hbits (proj2 (Z.eqb_neq l n)); [lia|]. cbn [andb negb].
    rw andb_true_r Hwords; [intros [= E1 E2]; apply Hne; f_equal; lia|]. by apply Hs. }
  rw /ctrue. destruct (Z.eqb_spec v 0) as [Ev|Ev]; cbn [negb].
  - eapply wp_mono; [apply (wp_clear_up n (putw w' s) (Z.to_nat (n - 1)) (k / W));
      cbn [putw upd_obj set_obj obj words set_words]; [done|by rw Z2Nat.id; [lia|]|lia|]|].
    + rw Z2Nat.id; [lia|]. intros Hn1. split; [by apply index_range; [lia|]|].
      by replace (n - 1 + 1) with n by lia; rw Hv.
    + intros [] s' (w2 & -> & Ht2 & Hs2 & Hb2). change (putw w2 (putw w' s)) with (putw w2 s).
      apply HQ; [done|done|]. intros j. by rw Hb2.
  - wp_step. apply HQ; [done| |done]. intros l k' Hl Hk'.
    destruct (decide ((l, k') = (n - 1, k / W))) as [[= -> ->]|]; [|by apply Hex].
    replace (n - 1 + 1) with n by lia. rw Hv (proj2 (Z.eqb_neq _ _)) //.
    rw Hbits (proj2 (Z.eqb_neq (n - 1) n)); [lia|]. cbn [andb negb]. rw andb_true_r Hs //.
    replace (n - 1 + 1) with n by lia. apply negb_true_iff, Z.eqb_neq. intros Hz'. apply Ev.
    apply word_zero; [done|]. intros j Hj. rw -Hv -(bit_in_word w' n (k / W) j Hj) Hbits bit_in_word // Hz' Z.bits_0. done.
Qed.

Lemma wp_id_alloc_body s k : id_inv (set_id_lock SPINLOCK_INIT (obj s)) →
  alloc_count (obj s) ≠ id_range (obj s) →
  0 ≤ k < id_range (obj s) → is_free (obj s) k = true →
  (∀ j, 0 ≤ j < k → is_free (obj s) j = false) →
  wp id_alloc_body (λ id s', id = id_base (obj s) + k ∧ ∃ w', s' = putw w' s ∧
    tree_words (num_levels (obj s)) w' ∧ summary (num_levels (obj s)) w' ∧
    ∀ j, bit w' (num_levels (obj s)) j = is_free (obj s) j && negb (j =? k)) s.
Proof.
  intros [Ht Hs Hr Hfr [Hb1 Hb2] _] Hne Hk Hf Hmin. cbn in Ht, Hs, Hr, Hfr, Hb1, Hb2.
  pose proof (tw_levels _ _ Ht) as Hn. set (n := num_levels (obj s)) in *.
  rw /id_alloc_body. wp_step. wp_step. rw (proj2 (Z.eqb_neq _ _)) //. wp_step. wp_step. rw -/n.
  wp_step. eapply wp_mono.
  { apply (wp_descend n s (Z.to_nat (n - 1)) 1 0); [done|done|lia|lia| | |lia].
    - rw Z.sub_diag Z.pow_0_r. lia.
    - apply (root_nonzero n _ k); [done|done|lia|exact Hf]. }
  intros r s1 (-> & idx & -> & Hidx & Hbit & Hlow).
  assert (idx = k) as ->.
  { rw /is_free -/n in Hf Hmin. destruct (Z.lt_trichotomy idx k) as [Hlt|[|Hgt]]; [|done|].
    - specialize (Hmin idx ltac:(lia)). congruence.
    - specialize (Hlow k ltac:(lia)). congruence. }
  wp_step. wp_step. rw swrap_small; [lia|].
  assert (∀ (Q : Z → id_state → Prop),
    wp (v ← clear_bit n (k / W) (k mod W);
        if ctrue v then mret tt else clear_up (Z.to_nat (n - 1)) (k / W)) (λ _, Q (id_base (obj s) + k)) s →
    wp (v ← clear_bit n (k / W) (k mod W);
        (if ctrue v then mret tt else clear_up (Z.to_nat (n - 1)) (k / W));; mret (id_base (obj s) + k)) Q s) as Hassoc.
  { intros Q HQ. rw /wp /mbind /M_bind in HQ |- *.
    destruct (clear_bit n (k / W) (k mod W) s) as [[v s1]| | |]; [|done..].
    by destruct ((if ctrue v then mret tt else clear_up (Z.to_nat (n - 1)) (k / W)) s1) as [[[] s2]| | |]. }
  apply Hassoc. apply wp_take; [done|done|lia|]. intros w' Ht' Hs' Hb'. split; [done|]. by exists w'.
Qed.

Lemma wp_id_alloc s k : id_inv (obj s) → alloc_count (obj s) ≠ id_range (obj s) →
  0 ≤ k < id_range (obj s) → is_free (obj s) k = true →
  (∀ j, 0 ≤ j < k → is_free (obj s) j = false) →
  wp id_alloc (λ id s', id = id_base (obj s) + k ∧ id_inv (obj s') ∧ same_obj s s' ∧
    alloc_count (obj s') = alloc_count (obj s) ∧
    ∀ j, is_free (obj s') j = is_free (obj s) j && negb (j =? k)) s.
Proof.
  intros Hi Hne Hk Hf Hmin. pose proof (ii_lock _ Hi) as Hl.
  rw /id_alloc. eapply (wp_spinlock_exclusive_int obj_lock); [cbn; reflexivity|by rw Hl|].
  eapply wp_mono; [apply (wp_id_alloc_body (locked_state obj_lock s) k); [|done..]|].
  { destruct s as [[] ?]; cbn in *. by subst. }
  intros id s1 (-> & w' & -> & Ht' & Hs' & Hb'). split; [done|]. split; [done|].
  rw unlock_putw //. split; [done|]. split.
  - apply inv_after; [done|done|done|]. intros j Hj Hjr. apply (ii_free _ Hi); [|done].
    change (num_levels (obj s)) with (num_levels (obj (locked_state obj_lock s))) in Hj.
    rw Hb' in Hj. by apply andb_true_iff in Hj as [? _].
  - split; [done|]. split; [done|]. exact Hb'.
Qed.

(** *** Release *)

Lemma wp_id_free s k : id_inv (obj s) → 0 ≤ k < id_range (obj s) → is_free (obj s) k = false →
  wp (id_free (id_base (obj s) + k)) (λ _ s', id_inv (obj s') ∧ same_obj s s' ∧
    alloc_count (obj s') = ulong (alloc_count (obj s) - 1) ∧
    ∀ j, is_free (obj s') j = is_free (obj s) j || (j =? k)) s.
Proof.
  intros Hi Hk Hf. pose proof Hi as [Ht Hs Hr Hfr [Hb1 Hb2] Hl]. pose proof (tw_levels _ _ Ht) as Hn.
  pose proof (W_pow (num_levels (obj s)) ltac:(lia)).
  rw /id_free. wp_step. wp_step. wp_step. wp_step.
  replace (id_base (obj s) + k - id_base (obj s)) with k by lia. rw wrap_small; [rw /uint; lia|].
  wp_step. wp_step; [apply Z.leb_gt; lia|].
  eapply (wp_spinlock_exclusive_int obj_lock); [cbn; reflexivity|by rw Hl|].
  wp_step. wp_step. change (num_levels (obj (locked_state obj_lock s))) with (num_levels (obj s)).
  set (n := num_levels (obj s)) in *. wp_step.
  eapply wp_mono; [apply (wp_set_up n (locked_state obj_lock s) (Z.to_nat n) k)|].
  - exact Ht.
  - intros l k' Hl' Hk' _. by apply Hs.
  - lia.
  - rw Z2Nat.id; [lia|]. lia.
  - lia.
  - intros _. exact Hf.
  - intros [] s1 (w' & -> & Ht' & Hs' & Hb'). rw Z2Nat.id in Hb'; [lia|]. rw Z.eqb_refl in Hb'.
    wp_step. split; [done|]. split; [done|]. split; [|split; [|split]].
    + split; try done; cbn. intros j Hj Hjr. rw /is_free /= -/n in Hj. rw Hb' in Hj.
      apply orb_true_iff in Hj as [Hj|Hj]; [by apply Hfr|]. cbn in Hj. apply Z.eqb_eq in Hj as ->. lia.
    + destruct s as [? []]. done.
    + done.
    + exact Hb'.
Qed.

End Loops.

(** ** Creation *)

Section Create.
Context `{Harch : Arch}.

Abbreviation W := NUM_BITS_PER_MAP.

(** The words [memzero] leaves: [mask1] and the array [mask2]. *)
Definition zero_words : gmap (Z * Z) Z := filled 0 ((1, 0) :: ((λ i, (2, i)) <$> seqZ 0 W)).

Lemma zero_words_lookup l i v : zero_words !! (l, i) = Some v ↔
  v = 0 ∧ (l = 1 ∧ i = 0 ∨ l = 2 ∧ 0 ≤ i < W).
Proof.
  rw /zero_words filled_lookup elem_of_cons list_elem_of_fmap. pose proof W_cases. split.
  - intros [[[= -> ->]|(y & [= -> ->] & Hy%elem_of_seqZ)] <-]; split; auto; lia.
  - intros [-> [[-> ->]|[-> Hi]]]; (split; [|done]); [by left|right]. exists i. split; [done|]. apply elem_of_seqZ. lia.
Qed.

Lemma zero_words_word l i : word zero_words l i = 0.
Proof.
  rw /word. destruct (zero_words !! (l, i)) as [v|] eqn:E; [|done]. by apply zero_words_lookup in E as [-> _].
Qed.

Lemma zero_tree n : 1 ≤ n ≤ 2 → tree_words n zero_words.
Proof.
  intros Hn. pose proof W_cases. assert (0 < ARCH_WIDTH) by arch_lia. split; [lia|..].
  - intros l i Hl Hi. exists 0. split; [|rw /uint; lia]. apply zero_words_lookup. split; [done|].
    assert (l = 1 ∨ l = 2) as [->| ->] by lia; [left|right]; split; try done.
    + rw Z.sub_diag Z.pow_0_r in Hi. lia.
    + by rw (_ : 2 - 1 = 1) // Z.pow_1_r in Hi.
  - destruct (zero_words !! (2, W)) as [v|] eqn:E; [|done].
    apply zero_words_lookup in E as [_ [[? _]|[_ ?]]]; lia.
Qed.

Lemma low_bits_value n : 0 ≤ n < W → low_bits n = Ret (2 ^ n - 1).
Proof.
  intros Hn. rw /low_bits. rw shl_chk_W //. cbn. f_equal. apply wrap_small. apply pow2_uint.
  rw /NUM_BITS_PER_MAP in Hn. lia.
Qed.

Lemma ones_testbit n j : 0 ≤ n → 0 ≤ j → Z.testbit (2 ^ n - 1) j = (j <? n).
Proof.
  intros. rw Z.sub_1_r -Z.ones_equiv. destruct (Z.ltb_spec j n); [apply Z.ones_spec_low|apply Z.ones_spec_high]; lia.
Qed.

(** One leaf word: the bits of the numbers that exist. *)
Lemma leaf_word_value count : 0 < count → ∃ m, leaf_word count = Ret (m, Z.max 0 (count - W)) ∧
  uint ARCH_WIDTH m ∧ ∀ j, 0 ≤ j < W → Z.testbit m j = (j <? count).
Proof.
  intros Hc. rw /leaf_word. pose proof W_cases. destruct (Z.leb_spec W count) as [Hle|Hgt].
  - exists (2 ^ ARCH_WIDTH - 1). assert (ulong (-1) = 2 ^ ARCH_WIDTH - 1) as ->.
    { rw /wrap. assert (0 < ARCH_WIDTH) by arch_lia. symmetry. apply (Z.mod_unique_pos _ _ (-1)); lia. }
    assert (0 < 2 ^ ARCH_WIDTH) by (apply Z.pow_pos_nonneg; arch_lia).
    rw Z.max_r; [lia|]. split; [done|]. split; [rw /uint; lia|]. intros j Hj. rw /NUM_BITS_PER_MAP in Hj Hle.
    rw ones_testbit; [lia|lia|]. destruct (Z.ltb_spec j ARCH_WIDTH), (Z.ltb_spec j count); try done; lia.
  - rw low_bits_value; [lia|]. exists (2 ^ count - 1). rw Z.max_l; [lia|]. split; [done|].
    split; [apply pow2_uint; rw /NUM_BITS_PER_MAP in Hgt; lia|]. intros j Hj. apply ones_testbit; lia.
Qed.

(** The words after [i] rounds of [_create_l2]. *)
Record filling (range i : Z) (w : gmap (Z * Z) Z) : Prop := {
  fl_tree : tree_words 2 w;
  fl_root : ∀ j, 0 ≤ j < W → Z.testbit (word w 1 0) j = (j <? i);
  fl_leaf : ∀ a j, 0 ≤ a < W → 0 ≤ j < W →
              Z.testbit (word w 2 a) j = (a <? i) && (a * W + j <? range);
  fl_used : ∀ a, 0 ≤ a < i → a * W < range
}.

Lemma wp_create_l2_loop fuel range i count s (Q : unit → id_state → Prop) :
  filling range i (words (obj s)) → 0 ≤ i → range ≤ W * W →
  (count = range - i * W ∨ count = 0 ∧ range ≤ i * W) → 0 ≤ count → count ≤ Z.of_nat fuel →
  (∀ w' i', filling range i' w' → range ≤ i' * W → Q tt (putw w' s)) →
  wp (create_l2_loop fuel i count) Q s.
Proof.
  pose proof W_cases as HW. revert i count s. induction fuel as [|fuel IH];
    intros i count s Hfl Hi Hr Hc Hc0 Hf HQ; cbn [create_l2_loop]; rw /ctrue;
    destruct (Z.eqb_spec count 0) as [Ez|Ez]; cbn [negb].
  1, 3: wp_step; rw -(putw_id s); apply (HQ _ i); [done|lia].
  { lia. }
  destruct Hc as [Hc|[? _]]; [|lia].
  destruct (leaf_word_value count ltac:(lia)) as (m & Em & Hum & Hm).
  assert (i < W) as HiW by nia. pose proof Hfl as [Ht Hroot Hleaf Hused].
  destruct (tw_dom _ _ Ht 2 i ltac:(lia)) as (v2 & Hv2 & Hu2); [by rw (_ : 2 - 1 = 1) // Z.pow_1_r|].
  destruct (tw_dom _ _ Ht 1 0 ltac:(lia)) as (v1 & Hv1 & Hu1); [by rw Z.sub_diag Z.pow_0_r|].
  wp_step. eapply wp_lift; [exact Em|]. cbv beta iota. wp_step. eapply wp_write_word; [exact Hv2|].
  wp_step. eapply wp_lift; [apply shl_chk_W; lia|].
  wp_step. eapply wp_read_word; [cbn; rw lookup_insert_ne //; exact Hv1|].
  wp_step. eapply wp_write_word; [cbn; rw lookup_insert_ne //; exact Hv1|].
  cbn [putw upd_obj set_obj obj words set_words].
  set (w' := <[(1, 0) := Z.lor v1 (2 ^ i)]> (<[(2, i) := m]> (words (obj s)))).
  assert (∀ j, 0 ≤ j → uint ARCH_WIDTH (Z.lor v1 (2 ^ i)) ∧
    Z.testbit (Z.lor v1 (2 ^ i)) j = Z.testbit v1 j || (j =? i)) as Hset
    by (intros; apply set_bit_spec; [done|lia|done]).
  assert (filling range (i + 1) w') as Hfl'.
  { split.
    - rw /w'. apply tree_words_insert; [|lia|by rw Z.sub_diag Z.pow_0_r|by apply (Hset 0)].
      apply tree_words_insert; [done|lia|by rw (_ : 2 - 1 = 1) // Z.pow_1_r|done].
    - intros j Hj. rw /w' word_insert. destruct (decide (1 = 1 ∧ 0 = 0)) as [_|E0]; [|tauto]. rw (proj2 (Hset j ltac:(lia))).
      specialize (Hroot j Hj). rw (word_lookup _ _ _ _ Hv1) in Hroot. rw Hroot.
      destruct (Z.ltb_spec j i), (Z.eqb_spec j i), (Z.ltb_spec j (i + 1)); try done; lia.
    - intros a j Ha Hj. rw /w' word_insert. destruct (decide (1 = 2 ∧ 0 = a)) as [[? _]|_]; [done|]. rw word_insert. destruct (decide (2 = 2 ∧ i = a)) as [E|E].
      + destruct E as [_ <-]. rw Hm // (proj2 (Z.ltb_lt i (i + 1))); [lia|]. cbn [andb].
        destruct (Z.ltb_spec j count), (Z.ltb_spec (i * W + j) range); try done; lia.
      + rw Hleaf //. destruct (Z.ltb_spec a i), (Z.ltb_spec a (i + 1)); try done; [lia|].
        exfalso. apply E. split; [done|lia].
    - intros a Ha. destruct (decide (a = i)) as [->|]; [lia|]. apply Hused. lia. }
  apply (IH (i + 1) _ (putw w' s)); [exact Hfl'|lia|done| |lia|lia|].
  - destruct (Z.le_gt_cases W count); [left|right]; lia.
  - intros w2 i2. apply HQ.
Qed.

(** A new object: all numbers of the range are free. *)
Definition fresh_id (s : id_state) (first range : Z) : Prop :=
  id_inv (obj s) ∧ id_base (obj s) = first ∧ id_range (obj s) = range ∧ alloc_count (obj s) = 0 ∧
  ∀ k, 0 ≤ k < W ^ num_levels (obj s) → is_free (obj s) k = (k <? range).

Lemma wp_id_alloc_create s cast_to_ptr contents first last :
  0 ≤ first ≤ last → last < 2 ^ (ARCH_WIDTH - 1) →
  last - first + 1 ≠ W → last - first + 1 ≤ W * W →
  wp (id_alloc_create cast_to_ptr contents first last) (λ _ s',
    fresh_id s' first (last - first + 1) ∧ id_palloc s' = id_palloc s) s.
Proof.
  intros Hfl Hlast Hne Hmax. set (range := last - first + 1) in *. pose proof W_cases as HW.
  assert (2 ^ (ARCH_WIDTH - 1) < 2 ^ ARCH_WIDTH) by (apply Z.pow_lt_mono_r; arch_lia).
  rw /id_alloc_create -/range. rw wrap_small; [rw /uint /range; lia|]. rw -/zero_words.
  wp_step. wp_step. cbv zeta. rw /MAX_NUM_BITS_L1 /MAX_NUM_BITS_L2.
  set (s0 := set_obj _ s). wp_step. destruct (Z.leb_spec range W) as [Hle|Hgt].
  - rw /_create_l1. wp_step. wp_step. wp_step. wp_step. cbn [obj upd_obj set_obj s0 id_range set_levels].
    wp_step. eapply wp_lift; [apply low_bits_value; rw /range in Hne Hle |- *; lia|].
    eapply wp_write_word; [cbn; apply zero_words_lookup; by auto|].
    cbn [putw upd_obj set_obj obj words set_words s0 set_levels]. rw /spinlock_init. wp_step.
    assert (0 ≤ range < ARCH_WIDTH) as Hra by (change ARCH_WIDTH with W; rw /range in Hne Hle |- *; lia).
    pose proof (pow2_uint ARCH_WIDTH range Hra) as [_ Hu].
    split; [|done]. rw /fresh_id. cbn [obj lk_set obj_lock upd_obj set_obj set_id_lock num_levels id_base id_range alloc_count words].
    assert (∀ k, 0 ≤ k < W → bit (<[(1, 0) := 2 ^ range - 1]> zero_words) 1 k = (k <? range)) as Hbits.
    { intros k Hk. rw bit_insert (Z.div_small k W) // Z.mod_small //. case_decide as E; [|tauto]. by rw ones_testbit; [lia|lia|]. }
    split_and!; try done; [|intros k; rw Z.pow_1_r; apply Hbits].
    split; cbn; try done.
    + apply tree_words_insert; [by apply zero_tree|lia|by rw Z.sub_diag Z.pow_0_r|done].
    + intros l k Hl. lia.
    + rw Z.pow_1_r. lia.
    + intros k. rw /is_free /= Z.pow_1_r. intros Hb Hk. rw Hbits // in Hb. by apply Z.ltb_lt in Hb.
    + rw /range. lia.
  - rw (proj2 (Z.leb_le range (W * W))) // /_create_l2. wp_step. wp_step. wp_step. wp_step.
    cbn [obj upd_obj set_obj s0 id_range set_levels].
    apply (wp_create_l2_loop _ range 0); [|lia|done|left; lia|lia|lia|].
    { split; cbn [obj upd_obj set_obj s0 words set_levels].
      - by apply zero_tree.
      - intros j Hj. rw zero_words_word Z.bits_0. symmetry. apply Z.ltb_ge. lia.
      - intros a j Ha Hj. rw zero_words_word Z.bits_0. rw (proj2 (Z.ltb_ge a 0)); [lia|done].
      - intros a Ha. lia. }
    intros w' i [Ht Hroot Hleaf Hused] Hi. cbn [putw upd_obj set_obj obj set_words s0 set_levels id_base id_range alloc_count num_levels id_lock].
    rw /spinlock_init. wp_step. split; [|done]. rw /fresh_id.
    cbn [obj lk_set obj_lock upd_obj set_obj set_id_lock num_levels id_base id_range alloc_count words].
    assert (∀ k, 0 ≤ k < W ^ 2 → bit w' 2 k = (k <? range)) as Hbits.
    { intros k Hk. destruct (split_index k) as [Ek Hkm]. pose proof (index_range 2 k ltac:(lia) Hk) as Hkd.
      rw (_ : 2 - 1 = 1) // Z.pow_1_r in Hkd. rw /bit Hleaf // -Ek.
      destruct (Z.ltb_spec (k / W) i), (Z.ltb_spec k range); try done. nia. }
    split_and!; try done. split; cbn; try done.
    + intros l k Hl Hk. assert (l = 1) as -> by lia. rw Z.pow_1_r in Hk.
      rw /bit (Z.div_small k W) // Z.mod_small // Hroot // (_ : 1 + 1 = 2) //.
      destruct (tw_dom _ _ Ht 2 k ltac:(lia)) as (v & Hv & Hu); [by rw (_ : 2 - 1 = 1) // Z.pow_1_r|].
      rw (word_lookup _ _ _ _ Hv). destruct (Z.eqb_spec v 0) as [->|Hv0]; cbn [negb].
      * apply Z.ltb_ge. destruct (Z.le_gt_cases i k) as [|Hlt]; [done|]. exfalso.
        specialize (Hused k ltac:(lia)). specialize (Hleaf k 0 Hk ltac:(lia)).
        rw (word_lookup _ _ _ _ Hv) Z.bits_0 (proj2 (Z.ltb_lt k i)) // in Hleaf.
        rw (proj2 (Z.ltb_lt (k * W + 0) range)) // in Hleaf. lia.
      * apply Z.ltb_lt. destruct (Z.lt_ge_cases k i) as [|Hge]; [done|]. exfalso. apply Hv0, word_zero; [done|].
        intros j Hj. rw -(word_lookup _ _ _ _ Hv) Hleaf // (proj2 (Z.ltb_ge k i)) //.
    + rw (_ : W ^ 2 = W * W); [by rw Z.pow_2_r|]. lia.
    + intros k Hb Hk. rw /is_free /= Hbits // in Hb. by apply Z.ltb_lt in Hb.
    + rw /range. lia.
Qed.
End Create.

(** ** Exhaustion and double release *)

Section Errors.
Context `{Harch : Arch}.

Abbreviation W := NUM_BITS_PER_MAP.

(** Without a free number the whole tree is zero. *)
Lemma all_zero n w : tree_words n w → summary n w → (∀ k, 0 ≤ k < W ^ n → bit w n k = false) →
  word w 1 0 = 0.
Proof.
  intros Ht Hs Hb. pose proof (tw_levels _ _ Ht) as Hn. pose proof W_cases.
  assert (∀ m l i, n = l + Z.of_nat m → 1 ≤ l → 0 ≤ i < W ^ (l - 1) → word w l i = 0) as Hz.
  { induction m as [|m IHm]; intros l i El Hl Hi;
      destruct (tw_dom _ _ Ht l i ltac:(lia) Hi) as (v & Hv & Hu); rw (word_lookup _ _ _ _ Hv);
      apply word_zero; try done; intros j Hj; rw -(word_lookup _ _ _ _ Hv) -bit_in_word //;
      assert (0 ≤ i * W + j < W ^ l) as Hij
        by (replace (W ^ l) with (W ^ (l - 1) * W); [clear - Hi Hj; split; nia|];
            rw -W_pow_S; [lia|]; f_equal; lia).
    - replace l with n by lia. apply Hb. by replace n with l by lia.
    - rw Hs //; [lia|]. rw (IHm (l + 1)) //; [lia|lia|]. by replace (l + 1 - 1) with l by lia. }
  apply (Hz (Z.to_nat (n - 1))); [lia|lia|]. rw Z.sub_diag Z.pow_0_r. lia.
Qed.

(** The descent into an empty tree leaves the bitmaps: position [W] of the root
    is bit [W] of a word of [W] bits, or word [W] of a level of [W] words. *)
Lemma id_alloc_body_empty s : tree_words (num_levels (obj s)) (words (obj s)) →
  summary (num_levels (obj s)) (words (obj s)) → alloc_count (obj s) ≠ id_range (obj s) →
  (∀ k, 0 ≤ k < W ^ num_levels (obj s) → is_free (obj s) k = false) →
  id_alloc_body s = Fault.
Proof.
  intros Ht Hs Hne Hfree. pose proof (tw_levels _ _ Ht) as Hn. pose proof (W_pow 1 ltac:(lia)) as HW1.
  rw Z.pow_1_r in HW1. pose proof W_cases.
  pose proof (all_zero _ _ Ht Hs Hfree) as Hz.
  destruct (tw_dom _ _ Ht 1 0 ltac:(lia)) as (v & Hv & Hu); [rw Z.sub_diag Z.pow_0_r; lia|].
  rw (word_lookup _ _ _ _ Hv) in Hz. subst v.
  assert (ulong (ulong (0 * W) + ctz 0) = W) as Ei.
  { rw Z.mul_0_l ctz_zero. change ARCH_WIDTH with W at 3. rw wrap_small; [|rw wrap_small /uint; lia].
    rw wrap_small /uint; lia. }
  assert (read_word 1 0 s = Ret (0, s)) as Er by (by rw /read_word /deref Hv).
  assert (shl_chk ARCH_WIDTH 1 W = Fault) as Esh
    by (rw /shl_chk /NUM_BITS_PER_MAP Z.ltb_irrefl; by destruct (0 <=? ARCH_WIDTH)).
  rw /id_alloc_body /mbind /M_bind /gets (proj2 (Z.eqb_neq _ _)) //.
  destruct (decide (num_levels (obj s) = 1)) as [E1|H1].
  - rw E1. change (Z.to_nat (1 - 1)) with 0%nat. cbn [descend].
    rw /mbind /M_bind Er Ei. rw /mret /M_ret /clear_bit /mbind /M_bind Er /= ctz_zero.
    change ARCH_WIDTH with W at 2. by rw Esh.
  - assert (∃ m, Z.to_nat (num_levels (obj s) - 1) = S m) as [m ->] by (exists (Z.to_nat (num_levels (obj s) - 2)); lia).
    cbn [descend]. rw /mbind /M_bind Er Ei.
    assert (∀ k, descend k (1 + 1) W s = Fault) as Ed; [|by rw Ed].
    intros k. destruct k; cbn [descend]; rw /mbind /M_bind /read_word /deref; change (1 + 1) with 2;
      by rw (tw_out _ _ Ht).
Qed.

Lemma id_alloc_empty s : id_inv (obj s) → alloc_count (obj s) ≠ id_range (obj s) →
  (∀ k, 0 ≤ k < W ^ num_levels (obj s) → is_free (obj s) k = false) → id_alloc s = Fault.
Proof.
  intros Hi Hne Hfree. pose proof Hi as [Ht Hs _ _ _ Hl].
  rw /id_alloc (spinlock_exclusive_run obj_lock _ s (id_lock (obj s))) //; [by rw Hl|].
  rw /mbind /M_bind id_alloc_body_empty //.
Qed.

(** Releasing a number that is free already. *)
Lemma id_free_twice s k : id_inv (obj s) → 0 ≤ k < id_range (obj s) → is_free (obj s) k = true →
  id_free (id_base (obj s) + k) s = Panic.
Proof.
  intros Hi Hk Hf. pose proof Hi as [Ht Hs Hr Hfr [Hb1 Hb2] Hl]. pose proof (tw_levels _ _ Ht) as Hn.
  pose proof (W_pow (num_levels (obj s)) ltac:(lia)). destruct (split_index k) as [Ek Hkm].
  assert (0 ≤ k / W < W ^ (num_levels (obj s) - 1)) as Hi' by (apply index_range; lia).
  destruct (tw_dom _ _ Ht (num_levels (obj s)) (k / W) ltac:(lia) Hi') as (v & Hv & Huv).
  rw /id_free /mbind /M_bind /gets. replace (id_base (obj s) + k - id_base (obj s)) with k by lia.
  rw wrap_small; [rw /uint; lia|]. rw (proj2 (Z.leb_gt _ _)); [lia|]. cbn [panic_if mret M_ret].
  rw /mret /M_ret. rw (spinlock_exclusive_run obj_lock _ s (id_lock (obj s))) //; [by rw Hl|].
  rw /mbind /M_bind. cbv beta. change (num_levels (obj (locked_state obj_lock s))) with (num_levels (obj s)).
  assert (∃ m, Z.to_nat (num_levels (obj s)) = S m) as [m Em] by (exists (Z.to_nat (num_levels (obj s) - 1)); lia).
  rw Em. cbn [set_up]. replace (Z.of_nat (S m)) with (num_levels (obj s)) by lia.
  rw /mbind /M_bind shl_chk_W // /= /read_word /deref.
  change (words (obj (locked_state obj_lock s))) with (words (obj s)). rw Hv Z.eqb_refl ctrue_land_pow2; [lia|].
  rw /is_free /bit (word_lookup _ _ _ _ Hv) in Hf. by rw Hf.
Qed.

End Errors.

(** ** Properties *)

(** [n] allocations in a row. *)
Fixpoint id_alloc_n `{Arch} (n : nat) : M id_state (list Z) :=
  match n with
  | O => mret []
  | S n' => id ← id_alloc; ids ← id_alloc_n n'; mret (id :: ids)
  end.

Section Props.
Context `{Harch : Arch}.

Abbreviation W := NUM_BITS_PER_MAP.

Lemma wp_id_alloc_n n s k : id_inv (obj s) → alloc_count (obj s) = 0 → 0 ≤ k →
  k + Z.of_nat n = id_range (obj s) →
  (∀ j, 0 ≤ j < W ^ num_levels (obj s) → is_free (obj s) j = (k <=? j) && (j <? id_range (obj s))) →
  wp (id_alloc_n n) (λ ids s', ids = seqZ (id_base (obj s) + k) (Z.of_nat n) ∧
    id_inv (obj s') ∧ same_obj s s' ∧ alloc_count (obj s') = 0 ∧
    ∀ j, 0 ≤ j < W ^ num_levels (obj s) → is_free (obj s') j = false) s.
Proof.
  revert s k. induction n as [|n IH]; intros s k Hi Hac Hk Hn Hf; cbn [id_alloc_n].
  - wp_step. split; [done|]. split; [done|]. split; [done|]. split; [done|].
    intros j Hj. rw Hf //. destruct (Z.leb_spec k j), (Z.ltb_spec j (id_range (obj s))); try done; lia.
  - pose proof (ii_range _ Hi) as Hr. wp_step.
    eapply wp_mono; [apply (wp_id_alloc s k); [done|lia|lia|..]|].
    + rw Hf; [lia|]. apply andb_true_iff. split; [apply Z.leb_le|apply Z.ltb_lt]; lia.
    + intros j Hj. rw Hf; [lia|]. by rw (proj2 (Z.leb_gt k j)); [lia|].
    + intros id s1 (-> & Hi1 & (Eb & Er & En & Ep) & Hac1 & Hf1). wp_step.
      eapply wp_mono; [apply (IH s1 (k + 1)); [done|congruence|lia|rw Er; lia|]|].
      * intros j Hj. rw En in Hj. rw Hf1 Hf // Er.
        destruct (Z.leb_spec k j), (Z.leb_spec (k + 1) j), (Z.eqb_spec j k), (Z.ltb_spec j (id_range (obj s))); try done; lia.
      * intros ids s2 (-> & Hi2 & (Eb2 & Er2 & En2 & Ep2) & Hac2 & Hf2). wp_step.
        split; [|split; [done|split; [|split; [done|]]]].
        -- rw Eb. rw (seqZ_cons _ (Z.of_nat (S n))); [lia|]. f_equal. f_equal; lia.
        -- rw /same_obj. split_and!; congruence.
        -- intros j Hj. apply Hf2. by rw En.
Qed.

(** C35. [id_alloc] hands out the least free number: on an allocator whose
    bitmap tree is consistent it returns [base + k] for the least free [k],
    marks exactly that number as used, repairs the summary bits of every level,
    keeps range, base and levels, and leaves [alloc_count] as it was. *)
Theorem id_alloc_least (s : id_state) (k : Z) :
  id_inv (obj s) → alloc_count (obj s) ≠ id_range (obj s) →
  0 ≤ k < id_range (obj s) → is_free (obj s) k = true →
  (∀ j, 0 ≤ j < k → is_free (obj s) j = false) →
  wp id_alloc (λ id s', id = id_base (obj s) + k ∧ id_inv (obj s') ∧ same_obj s s' ∧
    alloc_count (obj s') = alloc_count (obj s) ∧
    ∀ j, is_free (obj s') j = is_free (obj s) j && negb (j =? k)) s.
Proof. apply wp_id_alloc. Qed.

(** [id_free] gives a number back exactly once: a number in use becomes
    free and no other number changes; releasing a free number panics. *)
Theorem id_free_correct (s : id_state) (k : Z) :
  id_inv (obj s) → 0 ≤ k < id_range (obj s) →
  (is_free (obj s) k = false →
     wp (id_free (id_base (obj s) + k)) (λ _ s', id_inv (obj s') ∧ same_obj s s' ∧
       alloc_count (obj s') = ulong (alloc_count (obj s) - 1) ∧
       ∀ j, is_free (obj s') j = is_free (obj s) j || (j =? k)) s) ∧
  (is_free (obj s) k = true → id_free (id_base (obj s) + k) s = Panic).
Proof. intros Hi Hk. split; intros Hf; [by apply wp_id_free|by apply id_free_twice]. Qed.

(** [id_alloc_create] builds an allocator of one or two levels in which
    exactly the numbers [first] to [last] are free.  A range of exactly the
    word width is excluded: [_create_l1] then shifts by the width, which is
    undefined, as is the second conjunct's run. *)
Theorem id_alloc_create_correct (s : id_state) (cast_to_ptr : Z → Z) (contents first last : Z) :
  0 ≤ first ≤ last → last < 2 ^ (ARCH_WIDTH - 1) → last - first + 1 ≤ W * W →
  (last - first + 1 ≠ W →
     wp (id_alloc_create cast_to_ptr contents first last) (λ _ s',
       fresh_id s' first (last - first + 1) ∧ id_palloc s' = id_palloc s) s) ∧
  (last - first + 1 = W → id_alloc_create cast_to_ptr contents first last s = Fault).
Proof.
  intros Hfl Hlast Hmax. split; [intros Hne; by apply wp_id_alloc_create|]. intros E.
  rw /id_alloc_create E /mbind /M_bind /modify. rw wrap_small.
  { rw /uint. pose proof (W_pow 1 ltac:(lia)) as HW. rw Z.pow_1_r in HW. lia. }
  rw /MAX_NUM_BITS_L1 Z.leb_refl /_create_l1 /mbind /M_bind /gets /modify. cbn [obj upd_obj set_obj id_range set_levels].
  rw /low_bits /shl_chk /NUM_BITS_PER_MAP Z.ltb_irrefl. by destruct (0 <=? ARCH_WIDTH).
Qed.

(** A new allocator hands out [first], [first + 1], ..., [last] in this
    order, and the allocation after that runs out of the bitmaps:
    [alloc_count] is never incremented, so the test for a full allocator does
    not hold and [ctz(0)] is used as a bit position. *)
Theorem id_alloc_exhaustion (s : id_state) (cast_to_ptr : Z → Z) (contents first last : Z) :
  0 ≤ first ≤ last → last < 2 ^ (ARCH_WIDTH - 1) → last - first + 1 ≤ W * W →
  last - first + 1 ≠ W →
  wp (id_alloc_create cast_to_ptr contents first last;;
      id_alloc_n (Z.to_nat (last - first + 1)))
    (λ ids s', ids = seqZ first (last - first + 1) ∧ alloc_count (obj s') = 0 ∧
       id_alloc s' = Fault) s.
Proof.
  intros Hfl Hlast Hmax Hne. wp_step. eapply wp_mono; [by apply wp_id_alloc_create|].
  intros [] s1 ((Hi & Eb & Er & Ea & Hf) & _). eapply wp_mono.
  { apply (wp_id_alloc_n _ s1 0); [done|done|lia|lia|]. intros j Hj. rw Hf // Er.
    by rw (proj2 (Z.leb_le 0 j)); [lia|]. }
  intros ids s2 (-> & Hi2 & (Eb2 & Er2 & En2 & _) & Ea2 & Hf2).
  rw Z.add_0_r Eb Z2Nat.id; [lia|]. split; [done|]. split; [done|].
  apply id_alloc_empty; [done|lia|]. intros k Hk. apply Hf2. congruence.
Qed.

End Props.

(** *** Witnesses *)

(** A state to build allocators in, and an allocator of numbers 5 to 104. *)
Definition id_state0 : id_state :=
  mk_id_state (mk_id 0 0 0 ∅ 1 SPINLOCK_INIT) (mk_palloc ∅ ∅ ∅ 0 0 0 0 0 0 SPINLOCK_INIT true).
Definition id_state1 : id_state :=
  final id_state0 (id_alloc_create (H := riscv64) (λ p, p) 0 5 104 id_state0).

Lemma id_state1_fresh : fresh_id (Harch := riscv64) id_state1 5 100.
Proof.
  assert (wp (id_alloc_create (H := riscv64) (λ p, p) 0 5 104)
    (λ _ s', fresh_id (Harch := riscv64) s' 5 100 ∧ id_palloc s' = id_palloc id_state0) id_state0) as Hw.
  { apply (wp_id_alloc_create (Harch := riscv64) id_state0 _ _ 5 104); vm_compute; (try split); congruence. }
  apply wp_elim in Hw as (a & s' & E & Hf & _). rw /id_state1 E. exact Hf.
Qed.

Lemma id_alloc_least_witness : wp (id_alloc (H := riscv64)) (λ id _, id = 5) id_state1.
Proof.
  destruct id_state1_fresh as (Hi & Eb & Er & Ea & Hf). pose proof (ii_range _ Hi) as Hr.
  eapply wp_mono; [apply (id_alloc_least (Harch := riscv64) id_state1 0)|].
  - exact Hi.
  - rw Ea Er. lia.
  - rw Er. lia.
  - rw Hf; [lia|done].
  - intros j Hj. lia.
  - intros id s' (-> & _). rw Eb. done.
Defined.

Lemma id_free_correct_witness : id_free (H := riscv64) 5 id_state1 = Panic.
Proof.
  destruct id_state1_fresh as (Hi & Eb & Er & Ea & Hf). pose proof (ii_range _ Hi) as Hr.
  assert (5 = id_base (obj id_state1) + 0) as -> by lia.
  apply (id_free_correct (Harch := riscv64) id_state1 0); [exact Hi|rw Er; lia|].
  rw Hf; [lia|done].
Defined.

Lemma id_alloc_create_correct_witness :
  wp (id_alloc_create (H := riscv64) (λ p, p) 0 1 1000) (λ _ s', fresh_id (Harch := riscv64) s' 1 1000) id_state0 ∧
  id_alloc_create (H := riscv64) (λ p, p) 0 1 64 id_state0 = Fault.
Proof.
  split.
  - eapply wp_mono; [apply (id_alloc_create_correct (Harch := riscv64) id_state0 (λ p, p) 0 1 1000);
      vm_compute; (try split); congruence|]. by intros [] s' [Hf _].
  - apply (id_alloc_create_correct (Harch := riscv64) id_state0 (λ p, p) 0 1 64); vm_compute; (try split); congruence.
Defined.

Lemma id_alloc_exhaustion_witness :
  wp (id_alloc_create (H := riscv64) (λ p, p) 0 7 9;; id_alloc_n (H := riscv64) 3)
    (λ ids s', ids = [7; 8; 9] ∧ id_alloc (H := riscv64) s' = Fault) id_state0.
Proof.
  eapply wp_mono; [apply (id_alloc_exhaustion (Harch := riscv64) id_state0 (λ p, p) 0 7 9);
    vm_compute; (try split); congruence|]. by intros ids s' (-> & _ & Ef).
Defined.
