(* ===== verification/List.v ===== *)
(** Doubly linked lists: [src/src/kernel/struct/list.c], with [list_node_t],
    [list_t] and the list macros of [src/src/kernel/include/struct.h]
    ([LIST_CHECK_OWNER] is 1 there).

    All list nodes of the kernel live in one [list_heap]: the sentinels [head]
    and [tail] of every list and the nodes embedded in the kernel's objects.  A
    list is named by a number, a node by the number of the object it is
    embedded in, so [container_of] is the identity on that number.  Every write
    goes to one field of one node, in the order of the source, and an access
    to a node that does not exist is a fault. *)

From stdpp Require Import base list gmap countable.
From Stdlib Require Import ZArith Lia.
From Corelib Require Import ssreflect.
From S2P Require Import Prelude Lock.

(** ** Data *)

(** Pointers to list nodes: NULL, [&l->head], [&l->tail] and an embedded node. *)
Inductive list_ptr :=
| PNull
| PHead (l : Z)
| PTail (l : Z)
| PNode (n : Z).

#[export] Instance list_ptr_eq_dec : EqDecision list_ptr.
Proof. solve_decision. Defined.

#[export] Instance list_ptr_countable : Countable list_ptr.
Proof.
  refine (inj_countable'
    (λ p, match p with PNull => inl (inl tt) | PHead l => inl (inr l) | PTail l => inr (inl l) | PNode n => inr (inr n) end)
    (λ c, match c with inl (inl _) => PNull | inl (inr l) => PHead l | inr (inl l) => PTail l | inr (inr n) => PNode n end) _).
  by intros [].
Defined.

Record list_node_t := mk_node { prev : list_ptr; next : list_ptr; owner : option Z }.

(** The scalar fields of [list_t]. *)
Record list_hdr := mk_hdr { count : Z; list_lk : spinlock_t }.

Record list_heap := mk_heap { lnodes : gmap list_ptr list_node_t; lhdrs : gmap Z list_hdr }.

Definition upd_lnodes (f : gmap list_ptr list_node_t → gmap list_ptr list_node_t) (h : list_heap) : list_heap :=
  mk_heap (f (lnodes h)) (lhdrs h).
Definition upd_lhdrs (f : gmap Z list_hdr → gmap Z list_hdr) (h : list_heap) : list_heap :=
  mk_heap (lnodes h) (f (lhdrs h)).

(** ** Field accesses *)

Definition get_node (p : list_ptr) : M list_heap list_node_t := deref (λ h, lnodes h !! p).
Definition put_node (p : list_ptr) (f : list_node_t → list_node_t) : M list_heap unit :=
  get_node p;; modify (upd_lnodes (alter f p)).

Definition set_prev (p v : list_ptr) : M list_heap unit := put_node p (λ n, mk_node v (next n) (owner n)).
Definition set_next (p v : list_ptr) : M list_heap unit := put_node p (λ n, mk_node (prev n) v (owner n)).
Definition set_owner (p : list_ptr) (v : Z) : M list_heap unit := put_node p (λ n, mk_node (prev n) (next n) (Some v)).

Definition get_count (l : Z) : M list_heap Z := deref (λ h, count <$> lhdrs h !! l).
Definition set_count (l v : Z) : M list_heap unit :=
  get_count l;; modify (upd_lhdrs (alter (λ r, mk_hdr v (list_lk r)) l)).

(** The lock of list [l] in a bare heap. *)
Definition heap_lock (l : Z) : lock_ref list_heap :=
  mk_lock_ref (λ h, list_lk <$> lhdrs h !! l) (λ v, upd_lhdrs (alter (λ r, mk_hdr (count r) v) l)).

Section List.
Context `{Arch}.

(** ** Operations under the caller's lock *)

Definition list_init (l : Z) : M list_heap unit :=
  set_count l 0;;
  set_prev (PHead l) PNull;;
  set_next (PHead l) (PTail l);;
  set_prev (PTail l) (PHead l);;
  set_next (PTail l) PNull;;
  set_owner (PHead l) l;;
  set_owner (PTail l) l;;
  spinlock_init (heap_lock l).

(** [panic_if(!spinlock_is_locked(&l->lock))]. *)
Definition check_locked (l : Z) : M list_heap unit :=
  b ← spinlock_is_locked (heap_lock l);
  panic_if (negb b).

Definition list_remove (l : Z) (n : list_ptr) : M list_heap list_ptr :=
  check_locked l;;
  if bool_decide (n = PNull ∨ n = PHead l ∨ n = PTail l) then mret PNull else
  nd ← get_node n;
  panic_if (negb (bool_decide (owner nd = Some l)));;
  let p := prev nd in
  let q := next nd in
  set_next p q;;
  set_prev q p;;
  c ← get_count l;
  set_count l (ulong (c - 1));;
  mret n.

Definition list_insert (l : Z) (p n : list_ptr) : M list_heap unit :=
  check_locked l;;
  pd ← get_node p;
  let q := next pd in
  set_prev q n;;
  set_next p n;;
  set_prev n p;;
  set_next n q;;
  c ← get_count l;
  set_count l (ulong (c + 1));;
  set_owner n l.

(** [cmp] on the objects two nodes are embedded in; the sentinels have none. *)
Definition cmp_ptr (cmp : Z → Z → Z) (a b : list_ptr) : outcome Z :=
  match a, b with
  | PNode x, PNode y => Ret (cmp x y)
  | _, _ => Fault
  end.

(** The search loop of [list_insert_sorted]; the result is [inserted]. *)
Fixpoint insert_sorted_loop (fuel : nat) (l : Z) (n : list_ptr) (cmp : Z → Z → Z)
    (left right : list_ptr) : M list_heap bool :=
  if bool_decide (left = PTail l) then mret false else
  match fuel with
  | O => diverge
  | S fuel' =>
      cmp_left ← lift_outcome (if bool_decide (left = PHead l) then Ret 1 else cmp_ptr cmp n left);
      cmp_right ← lift_outcome (if bool_decide (right = PTail l) then Ret 1 else cmp_ptr cmp right n);
      if (0 <=? cmp_left) && (0 <=? cmp_right) then
        set_prev right n;;
        set_next left n;;
        set_prev n left;;
        set_next n right;;
        c ← get_count l;
        set_count l (ulong (c + 1));;
        mret true
      else
        rd ← get_node right;
        insert_sorted_loop fuel' l n cmp right (next rd)
  end.

(** A list has fewer nodes than the heap, so the loop has fuel for all of them. *)
Definition list_insert_sorted (l : Z) (n : list_ptr) (cmp : Z → Z → Z) : M list_heap unit :=
  check_locked l;;
  hd ← get_node (PHead l);
  fuel ← gets (λ h, size (lnodes h));
  inserted ← insert_sorted_loop fuel l n cmp (PHead l) (next hd);
  panic_if (negb inserted);;
  set_owner n l.

Definition list_front (l : Z) : M list_heap list_ptr :=
  check_locked l;;
  hd ← get_node (PHead l);
  mret (if bool_decide (next hd = PTail l) then PNull else next hd).

Definition list_back (l : Z) : M list_heap list_ptr :=
  check_locked l;;
  tl ← get_node (PTail l);
  mret (if bool_decide (prev tl = PHead l) then PNull else prev tl).

Definition list_push_front (l : Z) (n : list_ptr) : M list_heap unit := list_insert l (PHead l) n.

Definition list_push_back (l : Z) (n : list_ptr) : M list_heap unit :=
  tl ← get_node (PTail l);
  list_insert l (prev tl) n.

Definition list_pop_front (l : Z) : M list_heap list_ptr :=
  hd ← get_node (PHead l);
  list_remove l (next hd).

Definition list_pop_back (l : Z) : M list_heap list_ptr :=
  tl ← get_node (PTail l);
  list_remove l (prev tl).

End List.

(** ** Lists inside the kernel's state *)

(** A state that contains the list heap and the interrupt flag. *)
Class HasLists (S : Type) `{HasInt S} := {
  lists : S → list_heap;
  set_lists : list_heap → S → S;
  lists_set : ∀ h s, lists (set_lists h s) = h;
  set_lists_set : ∀ h h' s, set_lists h (set_lists h' s) = set_lists h s;
  set_lists_same : ∀ s, set_lists (lists s) s = s;
  lists_int : ∀ b s, lists (set_int b s) = lists s;
  set_lists_int : ∀ h b s, set_lists h (set_int b s) = set_int b (set_lists h s);
  int_lists : ∀ h s, int_state (set_lists h s) = int_state s
}.

Section Exclusive.
Context `{Arch} {S : Type} `{HasLists S}.

(** Heap operations run on the heap of the state. *)
Definition on_lists {A} (m : M list_heap A) : M S A := zoom lists set_lists m.

Definition list_lock (l : Z) : lock_ref S :=
  mk_lock_ref (λ s, lk_get (heap_lock l) (lists s))
    (λ v s, set_lists (lk_set (heap_lock l) v (lists s)) s).

(** [list_access_exclusive(l) { body }]. *)
Definition list_access_exclusive {A} (l : Z) (body : M S A) : M S A :=
  spinlock_exclusive_int (list_lock l) body.

(** [list_foreach(l, n) { body }]; the body may change any state but the nodes
    it leaves linked. *)
Fixpoint list_foreach_from (fuel : nat) (l : Z) (n : list_ptr) (body : list_ptr → M S unit) : M S unit :=
  if bool_decide (n = PTail l) then mret tt else
  match fuel with
  | O => diverge
  | Datatypes.S fuel' =>
      body n;;
      nd ← on_lists (get_node n);
      list_foreach_from fuel' l (next nd) body
  end.

Definition list_foreach (l : Z) (body : list_ptr → M S unit) : M S unit :=
  hd ← on_lists (get_node (PHead l));
  fuel ← gets (λ s, size (lnodes (lists s)));
  list_foreach_from fuel l (next hd) body.

(** [merger(a, b)] merges the object of [b] into that of [a] and returns 0, or
    leaves both and returns something else. *)
Definition list_merge (l : Z) (n : list_ptr) (merger : list_ptr → list_ptr → M S Z) :
    M S (option list_ptr * option list_ptr) :=
  nd ← on_lists (get_node n);
  '(n', free1) ←
    (if bool_decide (prev nd = PHead l) then mret (n, None) else
     err ← merger (prev nd) n;
     if ctrue err then mret (n, None) else
     on_lists (list_remove l n);;
     nd' ← on_lists (get_node n);
     mret (prev nd', Some n));
  nd2 ← on_lists (get_node n');
  if bool_decide (next nd2 = PTail l) then mret (free1, None) else
  err ← merger n' (next nd2);
  if ctrue err then mret (free1, None) else
  nd3 ← on_lists (get_node n');
  let nn := next nd3 in
  on_lists (list_remove l nn);;
  mret (free1, Some nn).

Definition list_insert_merge_sorted (l : Z) (n : list_ptr) (cmp : Z → Z → Z)
    (merger : list_ptr → list_ptr → M S Z) : M S (option list_ptr * option list_ptr) :=
  on_lists (list_insert_sorted l n cmp);;
  list_merge l n merger.

(** [if (free && freer) freer(free)]. *)
Definition free_node (freer : option (list_ptr → M S unit)) (f : option list_ptr) : M S unit :=
  match f, freer with
  | Some p, Some fr => fr p
  | _, _ => mret tt
  end.

Definition list_insert_merge_free_sorted (l : Z) (n : list_ptr) (cmp : Z → Z → Z)
    (merger : list_ptr → list_ptr → M S Z) (freer : option (list_ptr → M S unit)) : M S unit :=
  '(free1, free2) ← list_insert_merge_sorted l n cmp merger;
  free_node freer free1;;
  free_node freer free2.

(** [d] is called with the index and the node, unless it is NULL. *)
Fixpoint list_display_from (fuel : nat) (l : Z) (n : list_ptr) (idx : Z)
    (d : option (Z → list_ptr → M S unit)) : M S unit :=
  if bool_decide (n = PTail l) then mret tt else
  match fuel with
  | O => diverge
  | Datatypes.S fuel' =>
      match d with
      | Some show => show idx n
      | None => mret tt
      end;;
      nd ← on_lists (get_node n);
      list_display_from fuel' l (next nd) (swrap 32 (idx + 1)) d
  end.

Definition list_display (l : Z) (d : option (Z → list_ptr → M S unit)) : M S unit :=
  on_lists (check_locked l);;
  hd ← on_lists (get_node (PHead l));
  fuel ← gets (λ s, size (lnodes (lists s)));
  list_display_from fuel l (next hd) 0 d.

(** ** Exclusive operations *)

Definition list_remove_exclusive (l : Z) (n : list_ptr) : M S list_ptr :=
  list_access_exclusive l (on_lists (list_remove l n)).

Definition list_insert_exclusive (l : Z) (p n : list_ptr) : M S unit :=
  list_access_exclusive l (on_lists (list_insert l p n)).

Definition list_insert_sorted_exclusive (l : Z) (n : list_ptr) (cmp : Z → Z → Z) : M S unit :=
  list_access_exclusive l (on_lists (list_insert_sorted l n cmp)).

Definition list_insert_merge_sorted_exclusive (l : Z) (n : list_ptr) (cmp : Z → Z → Z)
    (merger : list_ptr → list_ptr → M S Z) : M S (option list_ptr * option list_ptr) :=
  list_access_exclusive l (
    on_lists (list_insert_sorted l n cmp);;
    list_merge l n merger).

Definition list_insert_merge_free_sorted_exclusive (l : Z) (n : list_ptr) (cmp : Z → Z → Z)
    (merger : list_ptr → list_ptr → M S Z) (freer : option (list_ptr → M S unit)) : M S unit :=
  '(free1, free2) ← list_insert_merge_sorted_exclusive l n cmp merger;
  free_node freer free1;;
  free_node freer free2.

Definition list_push_front_exclusive (l : Z) (n : list_ptr) : M S unit :=
  list_access_exclusive l (on_lists (list_push_front l n)).

Definition list_push_back_exclusive (l : Z) (n : list_ptr) : M S unit :=
  list_access_exclusive l (on_lists (list_push_back l n)).

Definition list_pop_front_exclusive (l : Z) : M S list_ptr :=
  list_access_exclusive l (on_lists (hd ← get_node (PHead l); list_remove l (next hd))).

Definition list_pop_back_exclusive (l : Z) : M S list_ptr :=
  list_access_exclusive l (on_lists (tl ← get_node (PTail l); list_remove l (prev tl))).

Definition list_display_exclusive (l : Z) (d : option (Z → list_ptr → M S unit)) : M S unit :=
  list_access_exclusive l (list_display l d).

Definition list_count_exclusive (l : Z) : M S Z :=
  list_access_exclusive l (on_lists (get_count l)).

End Exclusive.
