(* ===== verification/ListSpec.v ===== *)
(** What the list operations mean: every list of the heap is a sequence of
    nodes, and each operation of [src/src/kernel/struct/list.c] acts on the
    sequence of its own list alone. *)

From stdpp Require Import base list gmap sorting.
From Stdlib Require Import ZArith Lia.
From Corelib Require Import ssreflect.
From S2P Require Import Prelude Lock List.

(** ** Views of the heap *)

Definition nxt (h : list_heap) (p : list_ptr) : option list_ptr := next <$> lnodes h !! p.
Definition prv (h : list_heap) (p : list_ptr) : option list_ptr := prev <$> lnodes h !! p.
Definition own (h : list_heap) (p : list_ptr) : option (option Z) := owner <$> lnodes h !! p.
Definition live (h : list_heap) (p : list_ptr) : Prop := is_Some (lnodes h !! p).

(** The heaps after one field write. *)
Definition st_prev (p v : list_ptr) : list_heap → list_heap :=
  upd_lnodes (alter (λ n, mk_node v (next n) (owner n)) p).
Definition st_next (p v : list_ptr) : list_heap → list_heap :=
  upd_lnodes (alter (λ n, mk_node (prev n) v (owner n)) p).
Definition st_owner (p : list_ptr) (v : Z) : list_heap → list_heap :=
  upd_lnodes (alter (λ n, mk_node (prev n) (next n) (Some v)) p).
Definition st_count (l v : Z) : list_heap → list_heap :=
  upd_lhdrs (alter (λ r, mk_hdr v (list_lk r)) l).

Section Views.
Implicit Types (h : list_heap) (p q : list_ptr).

Lemma alter_view {A} (f : list_node_t → A) g m p q :
  (f <$> (alter g p m : gmap list_ptr list_node_t) !! q) =
    if decide (q = p) then (λ n, f (g n)) <$> m !! p else f <$> m !! q.
Proof.
  case_decide as E; [subst; rw lookup_alter_eq; by destruct (m !! p)|by rw lookup_alter_ne; [congruence|]].
Qed.

Lemma view_live {A} (f : list_node_t → A) h p (v : A) : f <$> lnodes h !! p = Some v → live h p.
Proof. rw /live. by destruct (lnodes h !! p) as [n|]; [eauto|]. Qed.

Lemma nxt_live h p q : nxt h p = Some q → live h p.
Proof. apply view_live. Qed.
Lemma prv_live h p q : prv h p = Some q → live h p.
Proof. apply view_live. Qed.

Lemma live_alter g p q h : live (upd_lnodes (alter g p) h) q ↔ live h q.
Proof. by rw /live /= lookup_alter_is_Some. Qed.

Lemma live_st_prev p v h q : live (st_prev p v h) q ↔ live h q.
Proof. apply live_alter. Qed.
Lemma live_st_next p v h q : live (st_next p v h) q ↔ live h q.
Proof. apply live_alter. Qed.
Lemma live_st_owner p v h q : live (st_owner p v h) q ↔ live h q.
Proof. apply live_alter. Qed.
Lemma live_st_count l v h q : live (st_count l v h) q ↔ live h q.
Proof. done. Qed.

Lemma nxt_st_next p v h q : live h p → nxt (st_next p v h) q = if decide (q = p) then Some v else nxt h q.
Proof. intros [n E]. rw /nxt /= alter_view. case_decide; [by rw E|done]. Qed.
Lemma nxt_st_prev p v h q : nxt (st_prev p v h) q = nxt h q.
Proof. rw /nxt /= alter_view. case_decide; [by subst|done]. Qed.
Lemma nxt_st_owner p v h q : nxt (st_owner p v h) q = nxt h q.
Proof. rw /nxt /= alter_view. case_decide; [by subst|done]. Qed.
Lemma prv_st_prev p v h q : live h p → prv (st_prev p v h) q = if decide (q = p) then Some v else prv h q.
Proof. intros [n E]. rw /prv /= alter_view. case_decide; [by rw E|done]. Qed.
Lemma prv_st_next p v h q : prv (st_next p v h) q = prv h q.
Proof. rw /prv /= alter_view. case_decide; [by subst|done]. Qed.
Lemma prv_st_owner p v h q : prv (st_owner p v h) q = prv h q.
Proof. rw /prv /= alter_view. case_decide; [by subst|done]. Qed.
Lemma own_st_owner p v h q : live h p → own (st_owner p v h) q = if decide (q = p) then Some (Some v) else own h q.
Proof. intros [n E]. rw /own /= alter_view. case_decide; [by rw E|done]. Qed.
Lemma own_st_next p v h q : own (st_next p v h) q = own h q.
Proof. rw /own /= alter_view. case_decide; [by subst|done]. Qed.
Lemma own_st_prev p v h q : own (st_prev p v h) q = own h q.
Proof. rw /own /= alter_view. case_decide; [by subst|done]. Qed.

(** Field writes and reads as weakest preconditions. *)
Lemma wp_get_lnode p (Q : list_node_t → list_heap → Prop) h n :
  lnodes h !! p = Some n → Q n h → wp (get_node p) Q h.
Proof. intros E HQ. eapply wp_deref; [exact E|exact HQ]. Qed.

Lemma wp_put_node p f (Q : unit → list_heap → Prop) h :
  live h p → Q tt (upd_lnodes (alter f p) h) → wp (put_node p f) Q h.
Proof. intros [n E] HQ. rw /put_node. wp_step. eapply wp_get_lnode; [exact E|]. by wp_step. Qed.

Lemma wp_set_prev p v (Q : unit → list_heap → Prop) h :
  live h p → Q tt (st_prev p v h) → wp (set_prev p v) Q h.
Proof. apply wp_put_node. Qed.
Lemma wp_set_next p v (Q : unit → list_heap → Prop) h :
  live h p → Q tt (st_next p v h) → wp (set_next p v) Q h.
Proof. apply wp_put_node. Qed.
Lemma wp_set_owner p v (Q : unit → list_heap → Prop) h :
  live h p → Q tt (st_owner p v h) → wp (set_owner p v) Q h.
Proof. apply wp_put_node. Qed.

Lemma wp_get_count l (Q : Z → list_heap → Prop) h r :
  lhdrs h !! l = Some r → Q (count r) h → wp (get_count l) Q h.
Proof. intros E HQ. eapply wp_deref; [by rw E|exact HQ]. Qed.
Lemma wp_set_count l v (Q : unit → list_heap → Prop) h r :
  lhdrs h !! l = Some r → Q tt (st_count l v h) → wp (set_count l v) Q h.
Proof. intros E HQ. rw /set_count. wp_step. eapply wp_get_count; [exact E|]. by wp_step. Qed.

(** The list is locked. *)
Definition list_locked h (l : Z) : Prop := ∃ r, lhdrs h !! l = Some r ∧ locked (list_lk r) = true.

Lemma wp_check_locked l (Q : unit → list_heap → Prop) h :
  list_locked h l → Q tt h → wp (check_locked l) Q h.
Proof.
  intros (r & E & Hl) HQ. rw /check_locked /spinlock_is_locked. wp_step. wp_step.
  eapply wp_deref; [cbn; by rw E|]. wp_step. cbn. rw Hl. by apply wp_panic_if.
Qed.
End Views.

(** Rewriting with the views of a heap after field writes. *)
Create HintDb views.
Create Rewrite HintDb views.
#[export] Hint Rewrite live_st_prev live_st_next live_st_owner live_st_count : views.
#[export] Hint Rewrite nxt_st_prev nxt_st_owner prv_st_next prv_st_owner own_st_next own_st_prev : views.
#[export] Hint Resolve nxt_live prv_live : views.

(** ** Sequences of nodes *)

(** From pointer [a] over the nodes [xs] to pointer [b], linked both ways. *)
Fixpoint seg (h : list_heap) (a : list_ptr) (xs : list Z) (b : list_ptr) : Prop :=
  match xs with
  | [] => nxt h a = Some b ∧ prv h b = Some a
  | x :: xs' => nxt h a = Some (PNode x) ∧ prv h (PNode x) = Some a ∧ seg h (PNode x) xs' b
  end.

(** The pointers before and after a gap. *)
Definition last_ptr (a : list_ptr) (xs : list Z) : list_ptr :=
  match last xs with Some x => PNode x | None => a end.
Definition first_ptr (ys : list Z) (b : list_ptr) : list_ptr :=
  match ys with [] => b | y :: _ => PNode y end.

(** The heap holds list [l] with the nodes [xs]; [l->count] is their number in
    the counter's type. *)
Record is_list `{Arch} (h : list_heap) (l : Z) (xs : list Z) : Prop := {
  il_seg : seg h (PHead l) xs (PTail l);
  il_nodup : NoDup xs;
  il_own : ∀ x, x ∈ xs → own h (PNode x) = Some (Some l);
  il_count : count <$> lhdrs h !! l = Some (ulong (Z.of_nat (length xs)))
}.

Section Segments.
Implicit Types (h : list_heap) (a b p q : list_ptr) (xs ys : list Z).

Lemma last_ptr_cons a x xs : last_ptr a (x :: xs) = last_ptr (PNode x) xs.
Proof. rw /last_ptr. by destruct xs as [|y ys] using rev_ind; [|rw last_snoc app_comm_cons last_snoc]. Qed.

Lemma last_ptr_snoc a xs x : last_ptr a (xs ++ [x]) = PNode x.
Proof. by rw /last_ptr last_snoc. Qed.

Lemma last_ptr_in a xs : last_ptr a xs = a ∨ ∃ x, x ∈ xs ∧ last_ptr a xs = PNode x.
Proof.
  rw /last_ptr. destruct (last xs) as [x|] eqn:E; [right|by left].
  exists x. split; [|done]. by apply last_Some_elem_of in E.
Qed.

Lemma first_ptr_in ys b : first_ptr ys b = b ∨ ∃ y, y ∈ ys ∧ first_ptr ys b = PNode y.
Proof. destruct ys as [|y ys]; [by left|right]. exists y. split; [left|done]. Qed.

Lemma seg_frame h h' a xs b :
  (∀ p, p = a ∨ (∃ x, x ∈ xs ∧ p = PNode x) → nxt h' p = nxt h p) →
  (∀ p, p = b ∨ (∃ x, x ∈ xs ∧ p = PNode x) → prv h' p = prv h p) →
  seg h a xs b → seg h' a xs b.
Proof.
  revert a. induction xs as [|x xs IH]; intros a Hn Hp; cbn.
  - rw (Hn a); [by left|]. rw (Hp b); [by left|done].
  - rw (Hn a); [by left|]. rw (Hp (PNode x)); [right; exists x; split; [left|done]|].
    intros (? & ? & Hs). split_and!; try done. apply IH; [|  |done].
    + intros p [->|(y & Hy & ->)]; apply Hn; right; eexists; (split; [|done]); [left|by right].
    + intros p [->|(y & Hy & ->)]; apply Hp; [by left|]. right. exists y. split; [by right|done].
Qed.

(** Both links at the gap between [xs] and [ys]. *)
Lemma seg_gap h a xs ys b : seg h a (xs ++ ys) b →
  nxt h (last_ptr a xs) = Some (first_ptr ys b) ∧ prv h (first_ptr ys b) = Some (last_ptr a xs).
Proof.
  revert a. induction xs as [|x xs IH]; intros a; cbn [app].
  - destruct ys; cbn; tauto.
  - cbn [seg]. intros (_ & _ & Hs). rw last_ptr_cons. by apply IH.
Qed.

Lemma seg_live h a xs b x : seg h a xs b → x ∈ xs → live h (PNode x).
Proof.
  revert a. induction xs as [|y xs IH]; intros a; [by rw elem_of_nil|].
  intros (_ & Hp & Hs) [->|Hx]%elem_of_cons; [eapply prv_live; exact Hp|exact (IH _ Hs Hx)].
Qed.

(** Linking [n] into a gap. *)
Lemma seg_insert h h' a xs n ys b :
  seg h a (xs ++ ys) b → NoDup (xs ++ ys) → n ∉ xs ++ ys → a ≠ PNode n → b ≠ PNode n →
  (∀ x, x ∈ xs ++ ys → a ≠ PNode x ∧ b ≠ PNode x) →
  (∀ p, nxt h' p = if decide (p = PNode n) then Some (first_ptr ys b)
                   else if decide (p = last_ptr a xs) then Some (PNode n) else nxt h p) →
  (∀ p, prv h' p = if decide (p = PNode n) then Some (last_ptr a xs)
                   else if decide (p = first_ptr ys b) then Some (PNode n) else prv h p) →
  seg h' a (xs ++ n :: ys) b.
Proof.
  revert a. induction xs as [|x xs IH]; intros a Hs Hnd Hn Han Hbn Hab Hnx Hpv; cbn [app].
  - cbn [app] in *. cbn [last_ptr last seg]. rw Hnx decide_False //. cbn [last_ptr last] in *.
    rw decide_True // Hpv decide_True //. split_and!; [done..|].
    destruct ys as [|y ys]; cbn [first_ptr seg] in *.
    + rw Hnx decide_True // Hpv decide_False // decide_True //.
    + destruct Hs as (Hs1 & Hs2 & Hs3). apply not_elem_of_cons in Hn as [Hny Hn].
      rw Hnx decide_True // Hpv decide_False; [congruence|]. rw decide_True //.
      apply NoDup_cons in Hnd as [Hy Hnd].
      split_and!; [done..|]. eapply seg_frame; [| |exact Hs3].
      * intros p Hp. rw Hnx !decide_False //; destruct Hp as [->|(z & Hz & ->)]; try congruence.
        -- intros <-. eapply (proj1 (Hab y ltac:(left))). done.
        -- intros E. by destruct (Hab z ltac:(by right)) as [[] _].
      * intros p Hp. rw Hpv !decide_False //; destruct Hp as [->|(z & Hz & ->)]; try congruence.
        -- by apply Hab; left.
  - cbn [app seg] in *. destruct Hs as (Hs1 & Hs2 & Hs3).
    apply NoDup_cons in Hnd as [Hx Hnd]. apply not_elem_of_cons in Hn as [Hnx' Hn].
    rw last_ptr_cons in Hnx Hpv. split_and!.
    + rw Hnx !decide_False //. intros E. destruct (last_ptr_in (PNode x) xs) as [E'|(z & Hz & E')]; rw E' in E.
      * exact (proj1 (Hab x ltac:(left)) E).
      * apply (proj1 (Hab z ltac:(right; apply elem_of_app; by left))). exact E.
    + rw Hpv !decide_False //; [congruence|]. intros E.
      destruct (first_ptr_in ys b) as [E'|(z & Hz & E')]; rw E' in E.
      * exact (proj2 (Hab x ltac:(left)) (eq_sym E)).
      * injection E as ->. apply Hx, elem_of_app. by right.
    + apply IH; try done; [congruence|]. intros z Hz. split; [|apply Hab; by right].
      intros [= ->]. done.
Qed.

(** Unlinking a node. *)
Lemma seg_delete h h' a xs n ys b :
  seg h a (xs ++ n :: ys) b → NoDup (xs ++ n :: ys) →
  (∀ x, x ∈ xs ++ n :: ys → a ≠ PNode x ∧ b ≠ PNode x) →
  (∀ p, p ≠ PNode n → nxt h' p = if decide (p = last_ptr a xs) then Some (first_ptr ys b) else nxt h p) →
  (∀ p, p ≠ PNode n → prv h' p = if decide (p = first_ptr ys b) then Some (last_ptr a xs) else prv h p) →
  seg h' a (xs ++ ys) b.
Proof.
  revert a. induction xs as [|x xs IH]; intros a Hs Hnd Hab Hnx Hpv; cbn [app] in *.
  - cbn [seg last_ptr last] in *. destruct Hs as (Hs1 & Hs2 & Hs3).
    destruct (Hab n ltac:(left)) as [Han Hbn]. apply NoDup_cons in Hnd as [Hn Hnd].
    destruct ys as [|y ys]; cbn [first_ptr seg] in *.
    + rw Hnx // Hpv // !decide_True //.
    + destruct Hs3 as (Hs3 & Hs4 & Hs5). apply not_elem_of_cons in Hn as [Hny Hn].
      apply NoDup_cons in Hnd as [Hy Hnd].
      rw Hnx // Hpv; [congruence|]. rw !decide_True //. split_and!; [done..|].
      eapply seg_frame; [| |exact Hs5].
      * intros p Hp. rw Hnx; [destruct Hp as [->|(z & Hz & ->)]; congruence|].
        rw decide_False //. intros ->. destruct Hp as [E|(z & Hz & E)].
        -- exact (proj1 (Hab y ltac:(right; left)) E).
        -- exact (proj1 (Hab z ltac:(right; by right)) E).
      * intros p Hp. rw Hpv; [destruct Hp as [->|(z & Hz & ->)]; congruence|].
        rw decide_False //. intros ->. destruct Hp as [E|(z & Hz & E)].
        -- exact (proj2 (Hab y ltac:(right; left)) (eq_sym E)).
        -- congruence.
  - cbn [seg] in *. destruct Hs as (Hs1 & Hs2 & Hs3). apply NoDup_cons in Hnd as [Hx Hnd].
    rw last_ptr_cons in Hnx Hpv.
    assert (x ≠ n) as Hxn by (intros ->; apply Hx, elem_of_app; right; left).
    destruct (Hab n ltac:(right; apply elem_of_app; right; left)) as [Han Hbn].
    split_and!.
    + rw Hnx // decide_False //. intros E. destruct (last_ptr_in (PNode x) xs) as [E'|(z & Hz & E')]; rw E' in E.
      * exact (proj1 (Hab x ltac:(left)) E).
      * apply (proj1 (Hab z ltac:(right; apply elem_of_app; by left))). exact E.
    + rw Hpv; [congruence|]. rw decide_False //. intros E.
      destruct (first_ptr_in ys b) as [E'|(z & Hz & E')]; rw E' in E.
      * exact (proj2 (Hab x ltac:(left)) (eq_sym E)).
      * injection E as ->. apply Hx, elem_of_app. right. by right.
    + apply IH; try done. intros z Hz. split; [|apply Hab; by right]. intros [= ->]. done.
Qed.
End Segments.

(** ** What an operation on one list may change *)

(** From [h] to [h'] only the sentinels of [l], the nodes [xs] and the node [n]
    are relinked, only the owner of [n] and the counter of [l] change. *)
Record changed (h h' : list_heap) (l : Z) (xs : list Z) (n : Z) : Prop := {
  ch_links : ∀ p, p ≠ PHead l → p ≠ PTail l → p ≠ PNode n → (∀ x, x ∈ xs → p ≠ PNode x) →
    nxt h' p = nxt h p ∧ prv h' p = prv h p;
  ch_own : ∀ p, p ≠ PNode n → own h' p = own h p;
  ch_live : ∀ p, live h' p ↔ live h p;
  ch_hdr : ∀ l', l' ≠ l → lhdrs h' !! l' = lhdrs h !! l';
  ch_lock : list_lk <$> lhdrs h' !! l = list_lk <$> lhdrs h !! l
}.

Section Changes.
Context `{Harch : Arch}.
Implicit Types (h : list_heap) (p q : list_ptr) (l n : Z) (xs ys : list Z).

(** Other lists keep their nodes. *)
Lemma changed_other h h' l xs n l' zs : changed h h' l xs n → is_list h l xs → l' ≠ l → n ∉ zs →
  is_list h l' zs → is_list h' l' zs.
Proof.
  intros [Hl Ho _ Hh _] [_ _ Hown _] Hne Hn [Hs Hnd Hown' Hc].
  assert (∀ p, p = PHead l' ∨ p = PTail l' ∨ (∃ z, z ∈ zs ∧ p = PNode z) →
    nxt h' p = nxt h p ∧ prv h' p = prv h p) as Hsame.
  { intros p Hp. apply Hl.
    - destruct Hp as [->|[->|(z & ? & ->)]]; congruence.
    - destruct Hp as [->|[->|(z & ? & ->)]]; congruence.
    - destruct Hp as [->|[->|(z & ? & ->)]]; congruence.
    - intros x Hx. destruct Hp as [->|[->|(z & Hz & ->)]]; try done. intros [= ->].
      specialize (Hown _ Hx). specialize (Hown' _ Hz). congruence. }
  split; [|done| |by rw Hh].
  - eapply seg_frame; [| |exact Hs]; intros p [->|(z & Hz & ->)]; apply Hsame; naive_solver.
  - intros z Hz. rw Ho; [congruence|]. by apply Hown'.
Qed.

Lemma changed_locked h h' l xs n l' : changed h h' l xs n → list_locked h l' → list_locked h' l'.
Proof.
  intros [_ _ _ Hh Hlk] (r & E & Hr). destruct (decide (l' = l)) as [->|Hne].
  - rw E /= in Hlk. destruct (lhdrs h' !! l) as [r'|] eqn:E'; [|done].
    injection Hlk as Hlk. exists r'. split; [done|congruence].
  - exists r. by rw Hh.
Qed.

Lemma is_list_hdr h l xs : is_list h l xs → ∃ r, lhdrs h !! l = Some r ∧ count r = ulong (Z.of_nat (length xs)).
Proof.
  intros [_ _ _ Hc]. destruct (lhdrs h !! l) as [r|]; [|done]. injection Hc as Hc. by exists r.
Qed.

Lemma is_list_live h l xs p : is_list h l xs →
  p = PHead l ∨ p = PTail l ∨ (∃ x, x ∈ xs ∧ p = PNode x) → live h p.
Proof.
  intros [Hs _ _ _] [->|[->|(x & Hx & ->)]].
  - pose proof (seg_gap h _ [] xs _ Hs) as [E _]. exact (nxt_live _ _ _ E).
  - rw -(app_nil_r xs) in Hs. pose proof (seg_gap h _ xs [] _ Hs) as [_ E]. exact (prv_live _ _ _ E).
  - exact (seg_live _ _ _ _ _ Hs Hx).
Qed.

Lemma live_last_ptr h l xs ys : is_list h l (xs ++ ys) → live h (last_ptr (PHead l) xs).
Proof.
  intros Hi. apply (is_list_live h l (xs ++ ys)); [done|].
  destruct (last_ptr_in (PHead l) xs) as [->|(x & Hx & ->)]; [by left|].
  right; right. exists x. split; [|done]. apply elem_of_app. by left.
Qed.

Lemma live_first_ptr h l xs ys : is_list h l (xs ++ ys) → live h (first_ptr ys (PTail l)).
Proof.
  intros Hi. apply (is_list_live h l (xs ++ ys)); [done|].
  destruct (first_ptr_in ys (PTail l)) as [->|(x & Hx & ->)]; [by auto|].
  right; right. exists x. split; [|done]. apply elem_of_app. by right.
Qed.

(** Incrementing and decrementing the counter. *)
Lemma count_step (k d : Z) : ulong (ulong k + d) = ulong (k + d).
Proof. rw /wrap. by rw Zplus_mod_idemp_l. Qed.

(** *** The two pointer manipulations *)

(** The writes that put [n] between [p] and [q]. *)
Definition link (p n q : list_ptr) (h : list_heap) : list_heap :=
  st_next n q (st_prev n p (st_next p n (st_prev q n h))).
Definition unlink (p q : list_ptr) (h : list_heap) : list_heap := st_prev q p (st_next p q h).

Lemma link_list h l xs ys n c : is_list h l (xs ++ ys) → live h (PNode n) → n ∉ xs ++ ys →
  c = ulong (Z.of_nat (length (xs ++ ys)) + 1) →
  let h' := st_owner (PNode n) l (st_count l c (link (last_ptr (PHead l) xs) (PNode n) (first_ptr ys (PTail l)) h)) in
  is_list h' l (xs ++ n :: ys) ∧ changed h h' l (xs ++ ys) n.
Proof.
  intros Hi Hn Hnin Hc. set (p := last_ptr (PHead l) xs). set (q := first_ptr ys (PTail l)). intros h'.
  pose proof (live_last_ptr _ _ _ _ Hi) as Hp. pose proof (live_first_ptr _ _ _ _ Hi) as Hq. fold p in Hp. fold q in Hq.
  assert (p ≠ PNode n) as Hpn.
  { rw /p. destruct (last_ptr_in (PHead l) xs) as [->|(x & Hx & ->)]; [done|]. intros [= ->].
    apply Hnin, elem_of_app. by left. }
  assert (q ≠ PNode n) as Hqn.
  { rw /q. destruct (first_ptr_in ys (PTail l)) as [->|(x & Hx & ->)]; [done|]. intros [= ->].
    apply Hnin, elem_of_app. by right. }
  assert (∀ r, nxt h' r = if decide (r = PNode n) then Some q else if decide (r = p) then Some (PNode n) else nxt h r) as Hnx.
  { intros r. rw /h' /link nxt_st_owner. change (nxt (st_count l c ?g) r) with (nxt g r).
    rw nxt_st_next; [by autorewrite with views|]. case_decide; [done|]. rw nxt_st_prev nxt_st_next; [by autorewrite with views|].
    case_decide; [done|]. by rw nxt_st_prev. }
  assert (∀ r, prv h' r = if decide (r = PNode n) then Some p else if decide (r = q) then Some (PNode n) else prv h r) as Hpv.
  { intros r. rw /h' /link prv_st_owner. change (prv (st_count l c ?g) r) with (prv g r).
    rw prv_st_next prv_st_prev; [by autorewrite with views|]. case_decide; [done|]. rw prv_st_next prv_st_prev //. }
  assert (∀ r, own h' r = if decide (r = PNode n) then Some (Some l) else own h r) as Ho.
  { intros r. rw /h' /link own_st_owner; [by autorewrite with views|]. case_decide; [done|].
    change (own (st_count l c ?g) r) with (own g r). by rw own_st_next own_st_prev own_st_next own_st_prev. }
  assert (lhdrs h' = alter (λ r, mk_hdr c (list_lk r)) l (lhdrs h)) as Eh by done.
  split.
  - destruct Hi as [Hs Hnd Hown Hcnt]. split.
    + eapply seg_insert; [exact Hs|done|done|done|done| |exact Hnx|exact Hpv]. done.
    + apply NoDup_app in Hnd as (? & Hd & ?). rw elem_of_app in Hnin. apply NoDup_app. split; [done|].
      split; [|apply NoDup_cons; split; [tauto|done]]. intros x Hx. rw elem_of_cons. intros [->|?]; [tauto|]. by apply (Hd x).
    + intros x Hx. rw Ho. case_decide as E; [done|]. apply Hown.
      rw elem_of_app elem_of_cons in Hx. rw elem_of_app. destruct Hx as [|[->|]]; [tauto|congruence|tauto].
    + rw Eh lookup_alter_eq. destruct (lhdrs h !! l); [|done]. cbn. f_equal. rw Hc. f_equal. rw !length_app /=. lia.
  - split.
    + intros r Hr1 Hr2 Hr3 Hr. rw Hnx Hpv. rw !(decide_False (P := r = PNode n)) //.
      assert (r ≠ p) as Hrp.
      { rw /p. destruct (last_ptr_in (PHead l) xs) as [->|(x & Hx & ->)]; [done|]. apply Hr, elem_of_app. by left. }
      assert (r ≠ q) as Hrq.
      { rw /q. destruct (first_ptr_in ys (PTail l)) as [->|(x & Hx & ->)]; [done|]. apply Hr, elem_of_app. by right. }
      by rw !decide_False.
    + intros r Hr. by rw Ho decide_False.
    + intros r. rw /h' /link. by autorewrite with views.
    + intros l' Hl'. by rw Eh lookup_alter_ne; [congruence|].
    + rw Eh lookup_alter_eq. by destruct (lhdrs h !! l).
Qed.

Lemma unlink_list h l xs n ys c : is_list h l (xs ++ n :: ys) →
  c = ulong (Z.of_nat (length (xs ++ n :: ys)) - 1) →
  let h' := st_count l c (unlink (last_ptr (PHead l) xs) (first_ptr ys (PTail l)) h) in
  is_list h' l (xs ++ ys) ∧ changed h h' l (xs ++ n :: ys) n ∧
  prv h' (PNode n) = Some (last_ptr (PHead l) xs).
Proof.
  intros Hi Hc. set (p := last_ptr (PHead l) xs). set (q := first_ptr ys (PTail l)). intros h'.
  assert (live h q) as Hq by (apply (live_first_ptr h l (xs ++ [n])); by rw -app_assoc).
  pose proof (live_last_ptr _ _ _ _ Hi) as Hp. fold p in Hp.
  assert (∀ r, nxt h' r = if decide (r = p) then Some q else nxt h r) as Hnx.
  { intros r. change (nxt h' r) with (nxt (unlink p q h) r). by rw /unlink nxt_st_prev nxt_st_next. }
  assert (∀ r, prv h' r = if decide (r = q) then Some p else prv h r) as Hpv.
  { intros r. change (prv h' r) with (prv (unlink p q h) r). rw /unlink prv_st_prev; [by autorewrite with views|].
    by rw prv_st_next. }
  assert (∀ r, own h' r = own h r) as Ho.
  { intros r. change (own h' r) with (own (unlink p q h) r). by rw /unlink own_st_prev own_st_next. }
  assert (lhdrs h' = alter (λ r, mk_hdr c (list_lk r)) l (lhdrs h)) as Eh by done.
  assert (∀ x, x ∈ xs ++ ys → x ∈ xs ++ n :: ys) as Hsub.
  { intros x. rw !elem_of_app elem_of_cons. tauto. }
  split; [|split].
  - destruct Hi as [Hs Hnd Hown Hcnt]. split.
    + eapply seg_delete; [exact Hs|done|done|by intros; apply Hnx|by intros; apply Hpv].
    + apply NoDup_app in Hnd as (? & Hd & [? ?]%NoDup_cons). apply NoDup_app. split; [done|]. split; [|done].
      intros x Hx Hx'. apply (Hd x); [done|by right].
    + intros x Hx. rw Ho. by apply Hown, Hsub.
    + rw Eh lookup_alter_eq. destruct (lhdrs h !! l); [|done]. cbn. f_equal. rw Hc. f_equal. rw !length_app /=. lia.
  - split.
    + intros r Hr1 Hr2 Hr3 Hr. rw Hnx Hpv.
      assert (r ≠ p) as Hrp.
      { rw /p. destruct (last_ptr_in (PHead l) xs) as [->|(x & Hx & ->)]; [done|]. apply Hr, elem_of_app. by left. }
      assert (r ≠ q) as Hrq.
      { rw /q. destruct (first_ptr_in ys (PTail l)) as [->|(x & Hx & ->)]; [done|]. apply Hr, elem_of_app. right. by right. }
      by rw !decide_False.
    + intros r Hr. apply Ho.
    + intros r. rw /h' /unlink. by autorewrite with views.
    + intros l' Hl'. by rw Eh lookup_alter_ne; [congruence|].
    + rw Eh lookup_alter_eq. by destruct (lhdrs h !! l).
  - destruct (seg_gap h _ xs (n :: ys) _ (il_seg _ _ _ Hi)) as [_ Ep]. rw Hpv decide_False //.
    rw /q. destruct (first_ptr_in ys (PTail l)) as [->|(x & Hx & ->)]; [done|]. intros [= ->].
    pose proof (il_nodup _ _ _ Hi) as (_ & _ & [Hn _]%NoDup_cons)%NoDup_app. done.
Qed.

(** ** The operations *)

(** Insertion of [n] after the nodes [xs]. *)
Lemma wp_list_insert h l xs ys n (Q : unit → list_heap → Prop) :
  is_list h l (xs ++ ys) → list_locked h l → live h (PNode n) → n ∉ xs ++ ys →
  (∀ h', is_list h' l (xs ++ n :: ys) → changed h h' l (xs ++ ys) n → Q tt h') →
  wp (list_insert l (last_ptr (PHead l) xs) (PNode n)) Q h.
Proof.
  intros Hi Hlk Hn Hnin HQ. destruct (seg_gap h _ xs ys _ (il_seg _ _ _ Hi)) as [Egap _].
  pose proof (live_last_ptr _ _ _ _ Hi) as Hp. pose proof (live_first_ptr _ _ _ _ Hi) as Hq.
  destruct (is_list_hdr _ _ _ Hi) as (r & Er & Ec).
  rw /list_insert. wp_step. apply wp_check_locked; [done|]. wp_step.
  destruct Hp as [nd End]. eapply wp_get_lnode; [exact End|]. rw /nxt End in Egap. injection Egap as ->.
  assert (live h (last_ptr (PHead l) xs)) as Hp by by exists nd.
  wp_step. apply wp_set_prev; [done|]. wp_step. apply wp_set_next; [by autorewrite with views|].
  wp_step. apply wp_set_prev; [by autorewrite with views|]. wp_step. apply wp_set_next; [by autorewrite with views|].
  wp_step. eapply wp_get_count; [exact Er|]. wp_step. eapply wp_set_count; [exact Er|].
  apply wp_set_owner; [by autorewrite with views|]. rw Ec count_step.
  destruct (link_list h l xs ys n _ Hi Hn Hnin eq_refl) as [Hi' Hch]. by apply HQ.
Qed.

(** Removal of the node between [xs] and [ys]. *)
Lemma wp_list_remove h l xs n ys (Q : list_ptr → list_heap → Prop) :
  is_list h l (xs ++ n :: ys) → list_locked h l →
  (∀ h', is_list h' l (xs ++ ys) → changed h h' l (xs ++ n :: ys) n →
     prv h' (PNode n) = Some (last_ptr (PHead l) xs) → Q (PNode n) h') →
  wp (list_remove l (PNode n)) Q h.
Proof.
  intros Hi Hlk HQ. pose proof (il_seg _ _ _ Hi) as Hs.
  destruct (seg_gap h _ xs (n :: ys) _ Hs) as [_ Ep]. cbn [first_ptr] in Ep.
  assert (is_list h l ((xs ++ [n]) ++ ys)) as Hi2 by by rw -app_assoc.
  destruct (seg_gap h _ (xs ++ [n]) ys _ (il_seg _ _ _ Hi2)) as [En _]. rw last_ptr_snoc in En.
  pose proof (live_last_ptr _ _ _ _ Hi) as Hp. pose proof (live_first_ptr _ _ _ _ Hi2) as Hq.
  destruct (is_list_hdr _ _ _ Hi) as (r & Er & Ec).
  pose proof (il_own _ _ _ Hi n ltac:(apply elem_of_app; right; left)) as Hown.
  rw /list_remove. wp_step. apply wp_check_locked; [done|]. rw bool_decide_eq_false_2; [naive_solver|].
  rw /prv in Ep. rw /nxt in En. rw /own in Hown. destruct (lnodes h !! PNode n) as [nd|] eqn:End; [|done].
  injection Ep as Ep. injection En as En. injection Hown as Hown. cbn [fst] in Hown.
  wp_step. eapply wp_get_lnode; [exact End|]. wp_step. apply wp_panic_if; [by rw bool_decide_eq_true_2|].
  cbv zeta. rw Ep En. wp_step. apply wp_set_next; [done|]. wp_step. apply wp_set_prev; [by autorewrite with views|].
  wp_step. eapply wp_get_count; [exact Er|]. wp_step. eapply wp_set_count; [exact Er|]. wp_step.
  rw Ec. replace (ulong (ulong (Z.of_nat (length (xs ++ n :: ys))) - 1))
    with (ulong (Z.of_nat (length (xs ++ n :: ys)) - 1)) by (symmetry; apply (count_step _ (-1))).
  destruct (unlink_list h l xs n ys _ Hi eq_refl) as (Hi' & Hch & Ho). by apply HQ.
Qed.

Lemma wp_list_remove_sentinel h l p (Q : list_ptr → list_heap → Prop) :
  list_locked h l → p = PNull ∨ p = PHead l ∨ p = PTail l → Q PNull h → wp (list_remove l p) Q h.
Proof.
  intros Hlk Hp HQ. rw /list_remove. wp_step. apply wp_check_locked; [done|].
  rw bool_decide_eq_true_2 //.
Qed.
End Changes.

(** ** Sorted insertion *)

(** The position [list_insert_sorted] chooses: before the first node that
    compares greater than or equal to [n]. *)
Fixpoint sorted_insert (cmp : Z → Z → Z) (n : Z) (zs : list Z) : list Z :=
  match zs with
  | [] => [n]
  | z :: zs' => if 0 <=? cmp z n then n :: zs else z :: sorted_insert cmp n zs'
  end.

(** [x] may stand before [y]. *)
Definition cmp_le (cmp : Z → Z → Z) (x y : Z) : Prop := 0 ≤ cmp y x.

#[export] Instance cmp_le_dec cmp : RelDecision (cmp_le cmp).
Proof. intros x y. rw /cmp_le. apply _. Defined.

Section SortedInsert.
Context (cmp : Z → Z → Z).

Lemma sorted_insert_perm n zs : sorted_insert cmp n zs ≡ₚ n :: zs.
Proof.
  induction zs as [|z zs IH]; cbn; [done|]. destruct (0 <=? cmp z n); [done|]. rw IH. apply Permutation_swap.
Qed.

Lemma sorted_insert_sorted n zs : Total (cmp_le cmp) →
  Sorted (cmp_le cmp) zs → Sorted (cmp_le cmp) (sorted_insert cmp n zs).
Proof.
  intros Ht. induction zs as [|z zs IH]; cbn; [by repeat constructor|]. intros Hs.
  destruct (Z.leb_spec 0 (cmp z n)) as [Hle|Hgt]; [by constructor; [|constructor]|].
  assert (cmp_le cmp z n) as Hzn.
  { destruct (Ht z n) as [|Hnz]; [done|]. rw /cmp_le in Hnz. lia. }
  apply Sorted_inv in Hs as [Hs Hh]. constructor; [by apply IH|].
  destruct zs as [|y zs]; cbn; [by constructor|]. destruct (0 <=? cmp y n); constructor; [done|].
  by apply HdRel_inv in Hh.
Qed.
End SortedInsert.

Section SortedLoop.
Context `{Harch : Arch}.
Implicit Types (h : list_heap) (l n : Z) (xs ys zs : list Z).

(** A list has at most as many nodes as the heap, sentinels included. *)
Lemma is_list_size h l xs : is_list h l xs → (length xs + 2 ≤ size (lnodes h))%nat.
Proof.
  intros Hi. set (ps := PHead l :: PTail l :: (PNode <$> xs)).
  assert (NoDup ps) as Hnd.
  { apply NoDup_cons. split; [|apply NoDup_cons; split].
    - rw elem_of_cons list_elem_of_fmap. intros [?|(x & ? & _)]; done.
    - rw list_elem_of_fmap. intros (x & ? & _); done.
    - apply NoDup_fmap_2; [by intros ?? [= ->]|]. apply (il_nodup _ _ _ Hi). }
  assert (length xs + 2 = size (list_to_set ps : gset list_ptr))%nat as ->.
  { rw size_list_to_set // /ps /= length_fmap. lia. }
  rw -size_dom. apply subseteq_size. intros p Hp. apply elem_of_dom.
  apply (is_list_live h l xs); [done|]. rw elem_of_list_to_set /ps !elem_of_cons list_elem_of_fmap in Hp.
  destruct Hp as [->|[->|(x & -> & Hx)]]; eauto.
Qed.

Lemma first_ptr_cases ys l : (ys = [] ∧ first_ptr ys (PTail l) = PTail l) ∨
  ∃ y ys', ys = y :: ys' ∧ first_ptr ys (PTail l) = PNode y.
Proof. destruct ys as [|y ys]; [by left|right]. by exists y, ys. Qed.

Lemma last_ptr_cases xs l : (xs = [] ∧ last_ptr (PHead l) xs = PHead l) ∨
  ∃ xs' x, xs = xs' ++ [x] ∧ last_ptr (PHead l) xs = PNode x.
Proof.
  destruct xs as [|x xs _] using rev_ind; [by left|right]. exists xs, x. by rw last_ptr_snoc.
Qed.

(** The loop stops at the gap of [sorted_insert]. *)
Lemma wp_insert_sorted_loop cmp fuel h l n xs ys (Q : bool → list_heap → Prop) :
  is_list h l (xs ++ ys) → live h (PNode n) →
  (∀ z, z ∈ xs ++ ys → 0 ≤ cmp z n ∨ 0 ≤ cmp n z) →
  (∀ x, x ∈ xs → cmp x n < 0) → (length ys < fuel)%nat →
  (∀ xs' ys', xs' ++ ys' = xs ++ ys → xs' ++ n :: ys' = xs ++ sorted_insert cmp n ys →
     Q true (st_count l (ulong (Z.of_nat (length (xs ++ ys)) + 1))
       (link (last_ptr (PHead l) xs') (PNode n) (first_ptr ys' (PTail l)) h))) →
  wp (insert_sorted_loop fuel l (PNode n) cmp (last_ptr (PHead l) xs) (first_ptr ys (PTail l))) Q h.
Proof.
  revert xs ys. induction fuel as [|fuel IH]; intros xs ys Hi Hn Htot Hlt Hf HQ; [lia|].
  cbn [insert_sorted_loop]. rw bool_decide_eq_false_2.
  { by destruct (last_ptr_cases xs l) as [[_ ->]|(? & ? & _ & ->)]. }
  assert (∃ cl, (if bool_decide (last_ptr (PHead l) xs = PHead l) then Ret 1
     else cmp_ptr cmp (PNode n) (last_ptr (PHead l) xs)) = Ret cl ∧ 0 ≤ cl) as (cl & Ecl & Hcl).
  { destruct (last_ptr_cases xs l) as [[_ ->]|(xs' & x & -> & ->)].
    - rw bool_decide_eq_true_2 //. by exists 1.
    - rw bool_decide_eq_false_2 // /=. exists (cmp n x). split; [done|].
      destruct (Htot x) as [Hx|]; [rw !elem_of_app; left; right; left| |done].
      specialize (Hlt x). rw elem_of_app in Hlt. specialize (Hlt ltac:(right; left)). lia. }
  wp_step. eapply wp_lift; [exact Ecl|].
  pose proof (live_last_ptr _ _ _ _ Hi) as Hp. pose proof (live_first_ptr _ _ _ _ Hi) as Hq.
  destruct (is_list_hdr _ _ _ Hi) as (r & Er & Ec).
  assert (xs ++ n :: ys = xs ++ sorted_insert cmp n ys →
    wp (set_prev (first_ptr ys (PTail l)) (PNode n);; set_next (last_ptr (PHead l) xs) (PNode n);;
        set_prev (PNode n) (last_ptr (PHead l) xs);; set_next (PNode n) (first_ptr ys (PTail l));;
        c ← get_count l; set_count l (ulong (c + 1));; mret true) Q h) as Hins.
  { intros Es. wp_step. apply wp_set_prev; [done|]. wp_step. apply wp_set_next; [by autorewrite with views|].
    wp_step. apply wp_set_prev; [by autorewrite with views|]. wp_step. apply wp_set_next; [by autorewrite with views|].
    wp_step. eapply wp_get_count; [exact Er|]. wp_step. eapply wp_set_count; [exact Er|]. wp_step.
    rw Ec count_step. by apply HQ. }
  destruct (first_ptr_cases ys l) as [[-> E]|(y & ys' & -> & E)].
  - wp_step. eapply wp_lift; [rw E; by rw bool_decide_eq_true_2|].
    rw (proj2 (Z.leb_le 0 cl)) //=. apply Hins. done.
  - wp_step. eapply wp_lift; [rw E; by rw bool_decide_eq_false_2|].
    rw (proj2 (Z.leb_le 0 cl)) //. cbn [andb]. destruct (Z.leb_spec 0 (cmp y n)) as [Hle|Hgt].
    + apply Hins. cbn [sorted_insert]. by rw (proj2 (Z.leb_le _ _)).
    + rw E. destruct (seg_gap h (PHead l) (xs ++ [y]) ys' (PTail l)) as [Egap _]; [rw -app_assoc; apply (il_seg _ _ _ Hi)|].
      rw last_ptr_snoc in Egap. rw /nxt in Egap. destruct (lnodes h !! PNode y) as [nd|] eqn:End; [|done].
      injection Egap as Egap. wp_step. eapply wp_get_lnode; [exact End|]. rw Egap.
      rw -(last_ptr_snoc (PHead l) xs y). apply IH.
      * by rw -app_assoc.
      * done.
      * by rw -app_assoc.
      * intros x [Hx|Hx]%elem_of_app; [by apply Hlt|]. by apply list_elem_of_singleton in Hx as ->.
      * cbn in Hf. lia.
      * rw -!app_assoc. intros xs' ys2 E1 E2. apply HQ; [done|].
        rw E2. cbn [sorted_insert app]. by rw (proj2 (Z.leb_gt _ _)).
Qed.

Lemma wp_list_insert_sorted cmp h l n zs (Q : unit → list_heap → Prop) :
  is_list h l zs → list_locked h l → live h (PNode n) → n ∉ zs →
  (∀ z, z ∈ zs → 0 ≤ cmp z n ∨ 0 ≤ cmp n z) →
  (∀ h', is_list h' l (sorted_insert cmp n zs) → changed h h' l zs n → Q tt h') →
  wp (list_insert_sorted l (PNode n) cmp) Q h.
Proof.
  intros Hi Hlk Hn Hnin Htot HQ. rw /list_insert_sorted. wp_step. apply wp_check_locked; [done|].
  destruct (seg_gap h _ [] zs _ (il_seg _ _ _ Hi)) as [Egap _]. cbn [last_ptr last] in Egap.
  rw /nxt in Egap. destruct (lnodes h !! PHead l) as [nd|] eqn:End; [|done]. injection Egap as Egap.
  wp_step. eapply wp_get_lnode; [exact End|]. rw Egap. wp_step. wp_step. wp_step.
  apply (wp_insert_sorted_loop cmp _ h l n [] zs); [done|done|done|by intros x ?%elem_of_nil| |].
  { pose proof (is_list_size _ _ _ Hi). lia. }
  intros xs' ys' E1 E2. cbn [app] in E1, E2. subst zs. wp_step. apply wp_panic_if; [done|].
  apply wp_set_owner; [rw /link; by autorewrite with views|].
  destruct (link_list h l xs' ys' n _ Hi Hn Hnin eq_refl) as [Hi' Hch]. apply HQ; [|done]. by rw -E2.
Qed.
End SortedLoop.

(** ** Under the list's lock *)

Section Locks.
Implicit Types (h : list_heap) (l : Z) (v : spinlock_t).

Lemma heap_lock_get_set l l' v h : lk_get (heap_lock l) (lk_set (heap_lock l') v h) =
  if decide (l = l') then (λ _, v) <$> lk_get (heap_lock l) h else lk_get (heap_lock l) h.
Proof.
  cbn. case_decide as E; [subst; rw lookup_alter_eq; by destruct (lhdrs h !! l')|by rw lookup_alter_ne; [congruence|]].
Qed.

Lemma heap_lock_set_set l v w h : lk_set (heap_lock l) v (lk_set (heap_lock l) w h) = lk_set (heap_lock l) v h.
Proof. destruct h as [n r]. cbn. rw /upd_lhdrs /=. f_equal. by rw alter_alter_eq. Qed.

Lemma heap_lock_set_same l v h : lk_get (heap_lock l) h = Some v → lk_set (heap_lock l) v h = h.
Proof.
  destruct h as [n r]. cbn. intros E. rw /upd_lhdrs /=. f_equal. apply alter_id. intros x Hx.
  rw Hx in E. injection E as <-. by destruct x.
Qed.

Lemma is_list_lock `{Arch} l v h l' xs : is_list h l' xs → is_list (lk_set (heap_lock l) v h) l' xs.
Proof.
  intros [Hs Hnd Ho Hc]. split; [by eapply seg_frame; [..|exact Hs]|done|done|]. cbn. destruct (decide (l' = l)) as [->|];
    [rw lookup_alter_eq; by destruct (lhdrs h !! l)|by rw lookup_alter_ne; [congruence|]].
Qed.

Context {S : Type} `{HasLists S}.

#[export] Instance list_lock_laws l : LockLaws (list_lock (S := S) l).
Proof.
  split; rw /list_lock; cbn [lk_get lk_set].
  - intros v s [w E]. by rw lists_set heap_lock_get_set decide_True // E.
  - intros v w s. by rw lists_set set_lists_set heap_lock_set_set.
  - intros v s E. by rw heap_lock_set_same // set_lists_same.
  - intros b s. by rw lists_int.
  - intros v b s. by rw lists_int set_lists_int.
  - intros v s. apply int_lists.
Qed.

Lemma wp_on_lists {A} (m : M list_heap A) (Q : A → S → Prop) s :
  wp m (λ a h, Q a (set_lists h s)) (lists s) → wp (on_lists m) Q s.
Proof. apply wp_zoom. Qed.

(** A heap operation run exclusively. *)
Lemma wp_list_exclusive {A} l (m : M list_heap A) (Q : A → S → Prop) s :
  lk_get (heap_lock l) (lists s) = Some SPINLOCK_INIT →
  wp m (λ a h, lk_get (heap_lock l) h = Some (mk_spinlock true (int_state s)) ∧
               Q a (set_lists (lk_set (heap_lock l) SPINLOCK_INIT h) s))
    (lk_set (heap_lock l) (mk_spinlock true (int_state s)) (lists s)) →
  wp (list_access_exclusive l (on_lists m)) Q s.
Proof.
  intros Hl Hm. rw /list_access_exclusive.
  eapply (wp_spinlock_exclusive_int (list_lock l)); [exact Hl|done|].
  apply wp_on_lists. rw /locked_state. cbn [list_lock lk_set lk_get]. rw lists_set lists_int.
  eapply wp_mono; [exact Hm|]. intros a h [Hlk HQ]. rw lists_set int_lists int_lists int_set.
  split; [done|]. split; [done|]. rw !set_lists_set set_lists_int set_set -set_lists_int.
  by rw set_same.
Qed.
End Locks.

(** ** Refinement: a heap of lists is a map from lists to sequences *)

Section Refinement.
Context `{Harch : Arch} {S : Type} `{HasLists S} (cmp : Z → Z → Z).

(** Operations on the lists of the kernel, each under the list's own lock. *)
Inductive list_op :=
| OpPushFront (l n : Z)
| OpPushBack (l n : Z)
| OpPopFront (l : Z)
| OpPopBack (l : Z)
| OpRemove (l n : Z)
| OpInsertSorted (l n : Z).

Definition run_op (op : list_op) : M S list_ptr :=
  match op with
  | OpPushFront l n => list_push_front_exclusive l (PNode n);; mret PNull
  | OpPushBack l n => list_push_back_exclusive l (PNode n);; mret PNull
  | OpPopFront l => list_pop_front_exclusive l
  | OpPopBack l => list_pop_back_exclusive l
  | OpRemove l n => list_remove_exclusive l (PNode n)
  | OpInsertSorted l n => list_insert_sorted_exclusive l (PNode n) cmp;; mret PNull
  end.

Fixpoint run_ops (ops : list list_op) : M S (list list_ptr) :=
  match ops with
  | [] => mret []
  | op :: ops' => r ← run_op op; rs ← run_ops ops'; mret (r :: rs)
  end.

(** The specification: sequences, and which operations are allowed. *)
Definition unlinked (n : Z) (m : gmap Z (list Z)) : Prop := map_Forall (λ _ xs, n ∉ xs) m.

#[export] Instance unlinked_dec n m : Decision (unlinked n m).
Proof. rw /unlinked. apply _. Defined.

Definition ptr_of (o : option Z) : list_ptr :=
  match o with Some n => PNode n | None => PNull end.

(** Removing the first or last element, or a given one. *)
Definition drop_last (xs : list Z) : list Z := reverse (tail (reverse xs)).
Definition without (n : Z) (xs : list Z) : list Z := filter (λ x, x ≠ n) xs.

Definition spec_op (op : list_op) (m : gmap Z (list Z)) : option (list_ptr * gmap Z (list Z)) :=
  match op with
  | OpPushFront l n =>
      xs ← m !! l; if decide (unlinked n m) then Some (PNull, <[l := n :: xs]> m) else None
  | OpPushBack l n =>
      xs ← m !! l; if decide (unlinked n m) then Some (PNull, <[l := xs ++ [n]]> m) else None
  | OpPopFront l => xs ← m !! l; Some (ptr_of (head xs), <[l := tail xs]> m)
  | OpPopBack l => xs ← m !! l; Some (ptr_of (last xs), <[l := drop_last xs]> m)
  | OpRemove l n =>
      xs ← m !! l; if decide (n ∈ xs) then Some (PNode n, <[l := without n xs]> m) else None
  | OpInsertSorted l n =>
      xs ← m !! l; if decide (unlinked n m) then Some (PNull, <[l := sorted_insert cmp n xs]> m) else None
  end.

Fixpoint spec_ops (ops : list list_op) (m : gmap Z (list Z)) : option (list list_ptr * gmap Z (list Z)) :=
  match ops with
  | [] => Some ([], m)
  | op :: ops' =>
      '(r, m1) ← spec_op op m;
      '(rs, m2) ← spec_ops ops' m1;
      Some (r :: rs, m2)
  end.

(** The heap represents [m], and every list is unlocked. *)
Definition lists_rep (h : list_heap) (m : gmap Z (list Z)) : Prop :=
  ∀ l xs, m !! l = Some xs → is_list h l xs ∧ lk_get (heap_lock l) h = Some SPINLOCK_INIT.

(** The node an operation links in must exist. *)
Definition op_live (h : list_heap) (op : list_op) : Prop :=
  match op with
  | OpPushFront _ n | OpPushBack _ n | OpInsertSorted _ n => live h (PNode n)
  | _ => True
  end.

Lemma rep_update s m l xs xs' n h' e : lists_rep (lists s) m → m !! l = Some xs →
  (∀ l' zs, l' ≠ l → m !! l' = Some zs → n ∉ zs) →
  is_list h' l xs' → changed (lk_set (heap_lock l) (mk_spinlock true e) (lists s)) h' l xs n →
  lk_get (heap_lock l) h' = Some (mk_spinlock true e) ∧
  lists_rep (lk_set (heap_lock l) SPINLOCK_INIT h') (<[l := xs']> m) ∧
  ∀ p, live (lk_set (heap_lock l) SPINLOCK_INIT h') p ↔ live (lists s) p.
Proof.
  intros Hrep Hl Hn Hi Hch. destruct (Hrep _ _ Hl) as [Hil Hlk].
  assert (lk_get (heap_lock l) h' = Some (mk_spinlock true e)) as Hlk'.
  { cbn. rw (ch_lock _ _ _ _ _ Hch).
    change (lk_get (heap_lock l) (lk_set (heap_lock l) (mk_spinlock true e) (lists s)) = Some (mk_spinlock true e)).
    by rw heap_lock_get_set decide_True // Hlk. }
  split; [done|]. split.
  - intros l' zs. destruct (decide (l = l')) as [<-|Hne].
    + rw lookup_insert_eq. intros [= <-]. split; [by apply is_list_lock|]. by rw heap_lock_get_set decide_True // Hlk'.
    + rw lookup_insert_ne //. intros Hl'. destruct (Hrep _ _ Hl') as [Hil' Hlk2]. split.
      * apply is_list_lock. eapply changed_other; [exact Hch|by apply is_list_lock|congruence| |by apply is_list_lock].
        apply (Hn l'); [congruence|done].
      * rw heap_lock_get_set decide_False; [congruence|]. cbn. rw (ch_hdr _ _ _ _ _ Hch); [congruence|].
        change (lk_get (heap_lock l') (lk_set (heap_lock l) (mk_spinlock true e) (lists s)) = Some SPINLOCK_INIT).
        by rw heap_lock_get_set decide_False; [congruence|].
  - intros p. change (live h' p ↔ live (lists s) p). rw (ch_live _ _ _ _ _ Hch). done.
Qed.

(** An operation whose body relinks [n] in list [l]. *)
Lemma wp_op_body {A} s m l xs xs' n (body : M list_heap A) (r : A) :
  lists_rep (lists s) m → m !! l = Some xs → (∀ l' zs, l' ≠ l → m !! l' = Some zs → n ∉ zs) →
  (∀ h1 (Q : A → list_heap → Prop), is_list h1 l xs → list_locked h1 l →
     (∀ p, live h1 p ↔ live (lists s) p) →
     (∀ h', is_list h' l xs' → changed h1 h' l xs n → Q r h') → wp body Q h1) →
  wp (list_access_exclusive l (on_lists body)) (λ r' s', r' = r ∧ ∃ h', s' = set_lists h' s ∧
    lists_rep h' (<[l := xs']> m) ∧ ∀ p, live h' p ↔ live (lists s) p) s.
Proof.
  intros Hrep Hl Hn Hbody. destruct (Hrep _ _ Hl) as [Hil Hlk].
  apply wp_list_exclusive; [done|]. apply Hbody.
  - by apply is_list_lock.
  - cbn in Hlk. destruct (lhdrs (lists s) !! l) as [hd|] eqn:E; [|done].
    eexists. cbn. rw lookup_alter_eq E. done.
  - done.
  - intros h' Hi' Hch. destruct (rep_update s m l xs xs' n h' _ Hrep Hl Hn Hi' Hch) as (? & ? & ?).
    split; [done|]. split; [done|]. eexists. split; [reflexivity|]. done.
Qed.

(** Popping from an empty list changes nothing. *)
Lemma wp_op_empty s m l (body : M list_heap list_ptr) :
  lists_rep (lists s) m → m !! l = Some [] →
  (∀ h1 (Q : list_ptr → list_heap → Prop), is_list h1 l [] → list_locked h1 l → Q PNull h1 → wp body Q h1) →
  wp (list_access_exclusive l (on_lists body)) (λ r' s', r' = PNull ∧ ∃ h', s' = set_lists h' s ∧
    lists_rep h' (<[l := []]> m) ∧ ∀ p, live h' p ↔ live (lists s) p) s.
Proof.
  intros Hrep Hl Hbody. destruct (Hrep _ _ Hl) as [Hil Hlk]. apply wp_list_exclusive; [done|]. apply Hbody.
  - by apply is_list_lock.
  - cbn in Hlk. destruct (lhdrs (lists s) !! l) as [hd|] eqn:E; [|done].
    eexists. cbn. rw lookup_alter_eq E. done.
  - split; [by rw heap_lock_get_set decide_True // Hlk|]. split; [done|].
    rw heap_lock_set_set heap_lock_set_same //. exists (lists s). split; [done|]. by rw insert_id.
Qed.

Lemma unlinked_other n m : unlinked n m → ∀ l xs, m !! l = Some xs → n ∉ xs.
Proof. intros Hu l xs Hl. exact (Hu l xs Hl). Qed.

Lemma rep_disjoint h m l xs n : lists_rep h m → m !! l = Some xs → n ∈ xs →
  ∀ l' zs, l' ≠ l → m !! l' = Some zs → n ∉ zs.
Proof.
  intros Hrep Hl Hn l' zs Hne Hl' Hz. destruct (Hrep _ _ Hl) as [Hi _]. destruct (Hrep _ _ Hl') as [Hi' _].
  pose proof (il_own _ _ _ Hi _ Hn). pose proof (il_own _ _ _ Hi' _ Hz). congruence.
Qed.

Lemma without_id n xs : n ∉ xs → without n xs = xs.
Proof.
  induction xs as [|x xs IH]; [done|]. rw not_elem_of_cons. intros [Hne Hn]. rw /without filter_cons_True; [congruence|].
  f_equal. by apply IH.
Qed.

Lemma without_split n xs ys : NoDup (xs ++ n :: ys) → without n (xs ++ n :: ys) = xs ++ ys.
Proof.
  intros (_ & Hd & Hn)%NoDup_app. apply NoDup_cons in Hn as [Hn _]. rw /without filter_app filter_cons_False; [naive_solver|].
  f_equal; apply without_id; [|done]. intros Hx. apply (Hd n); [done|left].
Qed.

Lemma wp_head_next h l xs (Q : list_node_t → list_heap → Prop) : is_list h l xs →
  (∀ nd, next nd = first_ptr xs (PTail l) → Q nd h) → wp (get_node (PHead l)) Q h.
Proof.
  intros Hi HQ. destruct (seg_gap h _ [] xs _ (il_seg _ _ _ Hi)) as [E _]. cbn [last_ptr last] in E.
  rw /nxt in E. destruct (lnodes h !! PHead l) as [nd|] eqn:End; [|done]. injection E as E.
  eapply wp_get_lnode; [exact End|]. by apply HQ.
Qed.

Lemma wp_tail_prev h l xs (Q : list_node_t → list_heap → Prop) : is_list h l xs →
  (∀ nd, prev nd = last_ptr (PHead l) xs → Q nd h) → wp (get_node (PTail l)) Q h.
Proof.
  intros Hi HQ. assert (seg h (PHead l) (xs ++ []) (PTail l)) as Hs by (rw app_nil_r; apply (il_seg _ _ _ Hi)).
  destruct (seg_gap h _ xs [] _ Hs) as [_ E]. cbn [first_ptr] in E.
  rw /prv in E. destruct (lnodes h !! PTail l) as [nd|] eqn:End; [|done]. injection E as E.
  eapply wp_get_lnode; [exact End|]. by apply HQ.
Qed.

Lemma drop_last_snoc xs x : drop_last (xs ++ [x]) = xs.
Proof. by rw /drop_last reverse_snoc /= reverse_involutive. Qed.

(** Each operation refines its specification. *)
Lemma wp_run_op s m op r m' : Total (cmp_le cmp) → lists_rep (lists s) m → op_live (lists s) op →
  spec_op op m = Some (r, m') →
  wp (run_op op) (λ r' s', r' = r ∧ ∃ h', s' = set_lists h' s ∧ lists_rep h' m' ∧
    ∀ p, live h' p ↔ live (lists s) p) s.
Proof.
  intros Htot Hrep Hlive Hspec.
  destruct op as [l n|l n|l|l|l n|l n]; cbn [spec_op op_live run_op] in *;
    destruct (m !! l) as [xs|] eqn:Hl; try discriminate Hspec; cbn [mbind option_bind] in Hspec.
  - case_decide as Hu; [|done]. injection Hspec as <- <-. pose proof (unlinked_other _ _ Hu) as Hn.
    wp_step. eapply wp_mono; [apply (wp_op_body s m l xs (n :: xs) n _ tt)|by intros [] s' [_ Hs']; wp_step]; try done; [naive_solver|].
    intros h1 Q Hi Hlk Hlv HQ. apply (wp_list_insert h1 l [] xs n); [done|done|by apply Hlv|exact (Hn l xs Hl)|done].
  - case_decide as Hu; [|done]. injection Hspec as <- <-. pose proof (unlinked_other _ _ Hu) as Hn.
    wp_step. eapply wp_mono; [apply (wp_op_body s m l xs (xs ++ [n]) n _ tt)|by intros [] s' [_ Hs']; wp_step]; try done; [naive_solver|].
    intros h1 Q Hi Hlk Hlv HQ. rw /list_push_back. wp_step. apply (wp_tail_prev h1 l xs); [done|]. intros nd ->.
    apply (wp_list_insert h1 l xs [] n); rw ?app_nil_r; [done|done|by apply Hlv|exact (Hn l xs Hl)|done].
  - injection Hspec as <- <-. destruct xs as [|x xs].
    + apply wp_op_empty; [done|done|]. intros h1 Q Hi Hlk HQ. wp_step. apply (wp_head_next h1 l []); [done|].
      intros nd ->. apply wp_list_remove_sentinel; auto.
    + apply (wp_op_body s m l (x :: xs) xs x _ (PNode x)); [done|done|exact (rep_disjoint _ _ _ _ _ Hrep Hl ltac:(left))|].
      intros h1 Q Hi Hlk Hlv HQ. wp_step. apply (wp_head_next h1 l (x :: xs)); [done|]. intros nd ->.
      apply (wp_list_remove h1 l [] x xs); auto.
  - injection Hspec as <- <-. destruct xs as [|x xs _] using rev_ind.
    + apply wp_op_empty; [done|done|]. intros h1 Q Hi Hlk HQ. wp_step. apply (wp_tail_prev h1 l []); [done|].
      intros nd ->. apply wp_list_remove_sentinel; auto.
    + rw last_snoc drop_last_snoc. apply (wp_op_body s m l (xs ++ [x]) xs x _ (PNode x));
        [done|done|exact (rep_disjoint _ _ _ _ _ Hrep Hl ltac:(apply elem_of_app; right; left))|].
      intros h1 Q Hi Hlk Hlv HQ. wp_step. apply (wp_tail_prev h1 l (xs ++ [x])); [done|]. intros nd ->. rw last_ptr_snoc.
      apply (wp_list_remove h1 l xs x []); [done|done|]. intros h'. rw app_nil_r. auto.
  - case_decide as Hin; [|done]. injection Hspec as <- <-.
    pose proof Hin as (xs1 & xs2 & E)%list_elem_of_split. pose proof (proj1 (Hrep _ _ Hl)) as Hil.
    pose proof (il_nodup _ _ _ Hil) as Hnd. subst xs. rw without_split //.
    apply (wp_op_body s m l (xs1 ++ n :: xs2) (xs1 ++ xs2) n _ (PNode n)); [done|done|exact (rep_disjoint _ _ _ _ _ Hrep Hl Hin)|].
    intros h1 Q Hi Hlk Hlv HQ. apply (wp_list_remove h1 l xs1 n xs2); auto.
  - case_decide as Hu; [|done]. injection Hspec as <- <-. pose proof (unlinked_other _ _ Hu) as Hn.
    wp_step. eapply wp_mono; [apply (wp_op_body s m l xs (sorted_insert cmp n xs) n _ tt)|by intros [] s' [_ Hs']; wp_step]; try done; [naive_solver|].
    intros h1 Q Hi Hlk Hlv HQ. apply (wp_list_insert_sorted cmp h1 l n xs); [done|done|by apply Hlv|exact (Hn l xs Hl)| |done].
    intros z Hz. destruct (Htot n z); auto.
Qed.

Lemma op_live_iff h h' op : (∀ p, live h' p ↔ live h p) → op_live h op → op_live h' op.
Proof. intros Hl. destruct op; cbn; auto; apply Hl. Qed.

Lemma wp_run_ops ops s m rs m' : Total (cmp_le cmp) → lists_rep (lists s) m →
  Forall (op_live (lists s)) ops → spec_ops ops m = Some (rs, m') →
  wp (run_ops ops) (λ rs' s', rs' = rs ∧ ∃ h', s' = set_lists h' s ∧ lists_rep h' m') s.
Proof.
  intros Ht. revert s m rs. induction ops as [|op ops IH]; intros s m rs Hrep Hlv Hspec; cbn [spec_ops run_ops] in *.
  - injection Hspec as <- <-. wp_step. split; [done|]. exists (lists s). by rw set_lists_same.
  - apply Forall_cons in Hlv as [Hop Hlv].
    destruct (spec_op op m) as [[r m1]|] eqn:E1; [|done]. cbn [mbind option_bind] in Hspec.
    destruct (spec_ops ops m1) as [[rs2 m2]|] eqn:E2; [|done]. cbn in Hspec. injection Hspec as <- ->.
    wp_step. eapply wp_mono; [by apply (wp_run_op s m op r m1)|]. intros r' s1 (-> & h1 & -> & Hrep1 & Hlv1).
    wp_step. eapply wp_mono; [apply (IH (set_lists h1 s) m1 rs2); rw ?lists_set; [done| |done]|].
    + eapply Forall_impl; [exact Hlv|]. intros op'. by apply op_live_iff.
    + intros rs' s2 (-> & h2 & -> & Hrep2). wp_step. split; [done|]. exists h2. by rw set_lists_set.
Qed.
End Refinement.

(** ** Creation *)

Section Init.
Context `{Harch : Arch}.

Lemma wp_list_init h l (Q : unit → list_heap → Prop) :
  live h (PHead l) → live h (PTail l) → is_Some (lhdrs h !! l) →
  (∀ h', is_list h' l [] → lk_get (heap_lock l) h' = Some SPINLOCK_INIT →
     (∀ p, live h' p ↔ live h p) →
     (∀ p, p ≠ PHead l → p ≠ PTail l → lnodes h' !! p = lnodes h !! p) →
     (∀ l', l' ≠ l → lhdrs h' !! l' = lhdrs h !! l') → Q tt h') →
  wp (list_init l) Q h.
Proof.
  intros Hh Ht [r Er] HQ. rw /list_init. wp_step. eapply wp_set_count; [exact Er|].
  do 4 (wp_step; (apply wp_set_prev || apply wp_set_next); [by autorewrite with views|]).
  do 2 (wp_step; apply wp_set_owner; [by autorewrite with views|]).
  rw /spinlock_init. wp_step. set (h1 := st_owner (PTail l) l _).
  assert (lhdrs h1 !! l = Some (mk_hdr 0 (list_lk r))) as E1 by (cbn; by rw lookup_alter_eq Er).
  assert (∀ p, live h1 p ↔ live h p) as Hlv by (intros p; rw /h1; by autorewrite with views).
  apply HQ; [split|..].
  - change (seg h1 (PHead l) [] (PTail l)). rw /h1. split.
    + rw nxt_st_owner nxt_st_owner nxt_st_next; [by autorewrite with views|]. case_decide as E; [done|]. rw nxt_st_prev.
      rw nxt_st_next; [by autorewrite with views|]. by case_decide.
    + rw prv_st_owner prv_st_owner prv_st_next prv_st_prev; [by autorewrite with views|]. by case_decide.
  - constructor.
  - by intros x ?%elem_of_nil.
  - cbn [lk_set heap_lock upd_lhdrs lhdrs]. rw lookup_alter_eq E1. cbn. by rw /wrap Z.mod_0_l; [apply Z.pow_nonzero; arch_lia|].
  - by rw heap_lock_get_set decide_True // /= E1.
  - exact Hlv.
  - intros p Hp1 Hp2. cbn. by rw !lookup_alter_ne; [congruence..|].
  - intros l' Hl'. cbn. by rw !lookup_alter_ne; [congruence..|].
Qed.
End Init.

(** ** Properties *)

Section Props.
Context `{Harch : Arch} {S : Type} `{HasLists S}.

(** C33. Refinement.  Any sequence of exclusive list operations (push and pop at
    both ends, removal, sorted insertion, on any number of lists) that the
    specification on plain sequences allows runs to its end on the linked
    heap: it returns the specified nodes, every list of the heap is again the
    specified sequence, linked in both directions, owned and counted, every
    lock is free and nothing outside the list heap has changed. *)
Theorem list_ops_refine (cmp : Z → Z → Z) (ops : list list_op) (s : S) (m m' : gmap Z (list Z)) (rs : list list_ptr) :
  Total (cmp_le cmp) → lists_rep (lists s) m → Forall (op_live (lists s)) ops →
  spec_ops cmp ops m = Some (rs, m') →
  wp (run_ops cmp ops) (λ rs' s', rs' = rs ∧ ∃ h', s' = set_lists h' s ∧ lists_rep h' m') s.
Proof. apply wp_run_ops. Qed.

(** [list_insert_sorted] terminates on every well-formed list, never
    reaches its panic, and keeps the list sorted: the new list is a
    permutation of the old one and the new node, sorted by the comparison, the
    new node in front of the nodes that compare equal to it; all other lists
    of the heap stay as they are. *)
Theorem list_insert_sorted_correct (cmp : Z → Z → Z) (h : list_heap) (l n : Z) (zs : list Z) :
  Total (cmp_le cmp) → is_list h l zs → list_locked h l → live h (PNode n) → n ∉ zs →
  Sorted (cmp_le cmp) zs →
  wp (list_insert_sorted l (PNode n) cmp) (λ _ h',
    ∃ xs ys, zs = xs ++ ys ∧ is_list h' l (xs ++ n :: ys) ∧ Sorted (cmp_le cmp) (xs ++ n :: ys) ∧
      Forall (λ x, cmp x n < 0) xs ∧
      ∀ l' zs', l' ≠ l → n ∉ zs' → is_list h l' zs' → is_list h' l' zs') h.
Proof.
  intros Htot Hi Hlk Hn Hnin Hs. apply (wp_list_insert_sorted cmp h l n zs); [done..| |].
  { intros z _. destruct (Htot n z); auto. }
  intros h' Hi' Hch.
  assert (∃ xs ys, zs = xs ++ ys ∧ sorted_insert cmp n zs = xs ++ n :: ys ∧ Forall (λ x, cmp x n < 0) xs)
    as (xs & ys & E & Es & Hxs).
  { clear. induction zs as [|z zs (xs & ys & -> & Es & Hxs)]; cbn; [by exists [], []|].
    destruct (Z.leb_spec 0 (cmp z n)); [by exists [], (z :: xs ++ ys)|].
    exists (z :: xs), ys. rw Es. split; [done|]. split; [done|]. by constructor. }
  exists xs, ys. split; [done|]. rw -Es. split; [done|]. split; [by apply sorted_insert_sorted|]. split; [done|].
  intros l' zs' Hne Hnz. by apply (changed_other _ _ _ _ _ _ _ Hch).
Qed.

End Props.

(** ** The kernel's own list test *)

(** The state of [test_list]: the heap, the interrupt flag, the numbers of the
    sixteen static nodes, [alloc_idx], and what the display callback printed. *)
Record test_state := mk_test {
  t_heap : list_heap;
  t_int : bool;
  t_nums : gmap Z Z;
  t_alloc_idx : Z;
  t_out : list (Z * Z)
}.

#[export] Instance test_has_int : HasInt test_state := {
  int_state := t_int;
  set_int b s := mk_test (t_heap s) b (t_nums s) (t_alloc_idx s) (t_out s);
  int_set _ _ := eq_refl;
  set_set _ _ _ := eq_refl;
  set_same s := match s with mk_test _ _ _ _ _ => eq_refl end
}.

#[export] Instance test_has_lists : HasLists test_state := {
  lists := t_heap;
  set_lists h s := mk_test h (t_int s) (t_nums s) (t_alloc_idx s) (t_out s);
  lists_set _ _ := eq_refl;
  set_lists_set _ _ _ := eq_refl;
  set_lists_same s := match s with mk_test _ _ _ _ _ => eq_refl end;
  lists_int _ _ := eq_refl;
  set_lists_int _ _ _ := eq_refl;
  int_lists _ _ := eq_refl
}.

Definition test_list_compare (nums : gmap Z Z) (a b : Z) : Z :=
  let x := default 0 (nums !! a) in
  let y := default 0 (nums !! b) in
  if y <? x then 1 else if x <? y then -1 else 0.

Definition test_list_node_display (idx : Z) (n : list_ptr) : M test_state unit :=
  match n with
  | PNode a =>
      num ← deref (λ s, t_nums s !! a);
      modify (λ s, mk_test (t_heap s) (t_int s) (t_nums s) (t_alloc_idx s) (t_out s ++ [(idx, num)]))
  | _ => fault
  end.

Section Test.
Context `{Arch}.

(** [list_for_test] is list 0, [nodes_for_test[i]] is node [i]. *)
Definition insert_node (n : Z) : M test_state unit :=
  nums ← gets t_nums;
  list_insert_sorted_exclusive 0 (PNode n) (test_list_compare nums).

Definition test_list_insert (num : Z) : M test_state Z :=
  i ← gets t_alloc_idx;
  modify (λ s, mk_test (t_heap s) (t_int s) (<[i := num]> (t_nums s)) (i + 1) (t_out s));;
  insert_node i;;
  mret i.

Fixpoint pop_all (fuel : nat) : M test_state unit :=
  c ← on_lists (get_count 0);
  if ctrue c then
    match fuel with
    | O => diverge
    | S fuel' => on_lists (list_pop_front 0);; pop_all fuel'
    end
  else mret tt.

Definition test_list : M test_state unit :=
  on_lists (list_init 0);;
  node1 ← test_list_insert 1;
  node2 ← test_list_insert 2;
  node3 ← test_list_insert 3;
  node0 ← test_list_insert 0;
  node4 ← test_list_insert 4;
  node32 ← test_list_insert 3;
  node42 ← test_list_insert 4;
  node02 ← test_list_insert 0;
  list_display_exclusive 0 (Some test_list_node_display);;
  list_remove_exclusive 0 (PNode node3);;
  list_display_exclusive 0 (Some test_list_node_display);;
  insert_node node3;;
  list_display_exclusive 0 (Some test_list_node_display);;
  list_access_exclusive 0 (pop_all 16);;
  list_display_exclusive 0 (Some test_list_node_display);;
  insert_node node3;; insert_node node4;; insert_node node0;; insert_node node2;;
  insert_node node1;; insert_node node42;; insert_node node02;; insert_node node32;;
  list_display_exclusive 0 (Some test_list_node_display).

End Test.

(** Static memory: the sentinels, the sixteen nodes and the header, zeroed. *)
Definition test_state0 : test_state :=
  mk_test (mk_heap (filled (mk_node PNull PNull None) (PHead 0 :: PTail 0 :: (PNode <$> seqZ 0 16)))
             {[0 := mk_hdr 0 SPINLOCK_INIT]}) true ∅ 0 [].

(** The numbers the test prints, display by display. *)
Example test_list_output :
  match test_list (H := riscv64) test_state0 with
  | Ret (_, s) => snd <$> t_out s
  | _ => []
  end = [0; 0; 1; 2; 3; 3; 4; 4] ++ [0; 0; 1; 2; 3; 4; 4] ++ [0; 0; 1; 2; 3; 3; 4; 4] ++ [] ++
        [0; 0; 1; 2; 3; 3; 4; 4].
Proof. vm_compute. reflexivity. Qed.

(** *** Witnesses *)

(** Two empty lists, 0 and 1, and the nodes 0 to 4. *)
Definition two_lists : list_heap :=
  mk_heap (list_to_map [(PHead 0, mk_node PNull (PTail 0) (Some 0)); (PTail 0, mk_node (PHead 0) PNull (Some 0));
                        (PHead 1, mk_node PNull (PTail 1) (Some 1)); (PTail 1, mk_node (PHead 1) PNull (Some 1));
                        (PNode 0, mk_node PNull PNull None); (PNode 1, mk_node PNull PNull None);
                        (PNode 2, mk_node PNull PNull None); (PNode 3, mk_node PNull PNull None)])
    {[0 := mk_hdr 0 SPINLOCK_INIT; 1 := mk_hdr 0 SPINLOCK_INIT]}.

Lemma two_lists_rep : lists_rep (Harch := riscv64) two_lists {[0 := []; 1 := []]}.
Proof.
  intros l xs Hl. apply lookup_insert_Some in Hl as [[<- <-]|[_ Hl]].
  - split; [|done]. split; [by split|constructor| |done]. by intros x ?%elem_of_nil.
  - apply lookup_singleton_Some in Hl as [<- <-].
    split; [|done]. split; [by split|constructor| |done]. by intros x ?%elem_of_nil.
Qed.

Lemma z_sub_total : Total (cmp_le Z.sub).
Proof. intros x y. rw /cmp_le. lia. Qed.

Lemma list_ops_refine_witness :
  wp (run_ops (Harch := riscv64) (S := test_state) Z.sub
       [OpPushBack 0 2; OpPushFront 0 3; OpInsertSorted 1 1; OpInsertSorted 1 0; OpRemove 0 2; OpPopBack 1; OpPopFront 0; OpPopFront 0])
    (λ rs _, rs = [PNull; PNull; PNull; PNull; PNode 2; PNode 1; PNode 3; PNull])
    (mk_test two_lists true ∅ 0 []).
Proof.
  eapply wp_mono.
  - eapply (list_ops_refine (Harch := riscv64) Z.sub _ (mk_test two_lists true ∅ 0 []) {[0 := []; 1 := []]}).
    + apply z_sub_total.
    + apply two_lists_rep.
    + repeat constructor; by eexists.
    + vm_compute. reflexivity.
  - by intros rs s' [-> _].
Defined.

Definition locked_lists : list_heap := lk_set (heap_lock 0) (mk_spinlock true true) two_lists.

Lemma list_insert_sorted_correct_witness :
  wp (list_insert_sorted (H := riscv64) 0 (PNode 3) Z.sub) (λ _ h', is_list (H := riscv64) h' 0 [3]) locked_lists.
Proof.
  eapply wp_mono.
  - apply (list_insert_sorted_correct (Harch := riscv64) Z.sub locked_lists 0 3 []).
    + apply z_sub_total.
    + apply is_list_lock, (two_lists_rep 0 []). reflexivity.
    + eexists. split; [reflexivity|reflexivity].
    + by eexists.
    + intros H%elem_of_nil. done.
    + constructor.
  - intros [] h' (xs & ys & E & Hi & _). symmetry in E. apply app_nil in E as [-> ->]. exact Hi.
Defined.
