(* ===== verification/ListRep.v ===== *)
(** List operations as operations on a map of sequences, for clients that run
    several of them under one lock: [rep h m lk] says that the heap holds the
    sequences [m] and that the lock words are [lk].  Each rule updates one entry
    of [m] and leaves the locks alone. *)

From stdpp Require Import base list gmap sorting.
From Stdlib Require Import ZArith Lia.
From Corelib Require Import ssreflect.
From S2P Require Import Prelude Lock List ListSpec.

Definition rep `{Arch} (h : list_heap) (m : gmap Z (list Z)) (lk : Z → spinlock_t) : Prop :=
  ∀ l xs, m !! l = Some xs → is_list h l xs ∧ lk_get (heap_lock l) h = Some (lk l).

(** All locks free, and all but that of [l]. *)
Definition unlocked : Z → spinlock_t := λ _, SPINLOCK_INIT.
Definition holding (l : Z) (e : bool) : Z → spinlock_t :=
  λ l', if decide (l' = l) then mk_spinlock true e else SPINLOCK_INIT.

(** The result of an operation: new sequences, same locks, same objects. *)
Definition rep_ok `{Arch} (h : list_heap) (m' : gmap Z (list Z)) (lk : Z → spinlock_t) (h' : list_heap) : Prop :=
  rep h' m' lk ∧ ∀ p, live h' p ↔ live h p.

Section Rep.
Context `{Harch : Arch}.
Implicit Types (h : list_heap) (m : gmap Z (list Z)) (l n : Z) (xs ys : list Z) (lk : Z → spinlock_t).

Lemma rep_unlocked h m : rep h m unlocked ↔ lists_rep h m.
Proof. done. Qed.

Lemma rep_is_list h m lk l xs : rep h m lk → m !! l = Some xs → is_list h l xs.
Proof. intros Hr Hl. apply (Hr l xs Hl). Qed.

Lemma rep_locked h m lk l xs : rep h m lk → m !! l = Some xs → locked (lk l) = true → list_locked h l.
Proof.
  intros Hr Hl Hlk. destruct (Hr l xs Hl) as [_ E]. cbn in E.
  destruct (lhdrs h !! l) as [r|] eqn:Er; [|done]. injection E as E. exists r. by rw E.
Qed.

(** A node is in at most one list. *)
Lemma rep_unique h m lk l l' xs xs' n : rep h m lk → m !! l = Some xs → m !! l' = Some xs' →
  n ∈ xs → n ∈ xs' → l = l'.
Proof.
  intros Hr Hl Hl' Hn Hn'. pose proof (il_own _ _ _ (rep_is_list _ _ _ _ _ Hr Hl) _ Hn).
  pose proof (il_own _ _ _ (rep_is_list _ _ _ _ _ Hr Hl') _ Hn'). congruence.
Qed.

Lemma rep_changed h h' m lk l xs xs' n : rep h m lk → m !! l = Some xs →
  (∀ l' zs, l' ≠ l → m !! l' = Some zs → n ∉ zs) →
  is_list h' l xs' → changed h h' l xs n → rep_ok h (<[l := xs']> m) lk h'.
Proof.
  intros Hr Hl Hn Hi Hch. destruct (Hr _ _ Hl) as [Hil Hlk]. split; [|apply (ch_live _ _ _ _ _ Hch)].
  intros l' zs. destruct (decide (l = l')) as [<-|Hne].
  - rw lookup_insert_eq. intros [= <-]. split; [done|]. cbn. rw (ch_lock _ _ _ _ _ Hch). exact Hlk.
  - rw lookup_insert_ne //. intros Hl'. destruct (Hr _ _ Hl') as [Hil' Hlk']. split.
    + eapply changed_other; [exact Hch|done|congruence|by apply (Hn l'); [congruence|]|done].
    + cbn. rw (ch_hdr _ _ _ _ _ Hch); [congruence|]. exact Hlk'.
Qed.

(** Creating or deleting nodes that are in no list. *)
Lemma is_list_nodes h h' l xs : is_list h l xs → lhdrs h' = lhdrs h →
  (∀ p, p = PHead l ∨ p = PTail l ∨ (∃ x, x ∈ xs ∧ p = PNode x) → lnodes h' !! p = lnodes h !! p) →
  is_list h' l xs.
Proof.
  intros [Hs Hnd Ho Hc] Eh Hp. split; [|done| |by rw Eh].
  - eapply seg_frame; [| |exact Hs]; intros p Hpp; rw /nxt /prv Hp //; naive_solver.
  - intros x Hx. rw /own Hp; [by eauto|]. by apply Ho.
Qed.

Lemma rep_nodes h m lk f (F : list_ptr → Prop) : rep h m lk →
  (∀ nodes p, ¬ F p → (f nodes : gmap list_ptr list_node_t) !! p = nodes !! p) →
  (∀ p, F p → ∃ n, p = PNode n ∧ unlinked n m) → rep (upd_lnodes f h) m lk.
Proof.
  intros Hr Hf HF l xs Hl. destruct (Hr _ _ Hl) as [Hi Hlk]. split; [|exact Hlk].
  apply (is_list_nodes h); [done|done|]. intros p Hp. apply Hf. intros HFp.
  destruct (HF p HFp) as (n & -> & Hu). destruct Hp as [?|[?|(x & Hx & [= ->])]]; [done..|].
  by apply (Hu l xs Hl).
Qed.

(** ** Under the lock *)

Lemma wp_rep_insert h m lk l xs ys n (Q : unit → list_heap → Prop) :
  rep h m lk → m !! l = Some (xs ++ ys) → locked (lk l) = true → live h (PNode n) → unlinked n m →
  (∀ h', rep_ok h (<[l := xs ++ n :: ys]> m) lk h' → Q tt h') →
  wp (list_insert l (last_ptr (PHead l) xs) (PNode n)) Q h.
Proof.
  intros Hr Hl Hlk Hn Hu HQ. pose proof (rep_is_list _ _ _ _ _ Hr Hl) as Hi.
  apply (wp_list_insert h l xs ys n); [done|exact (rep_locked _ _ _ _ _ Hr Hl Hlk)|done|by apply (Hu l)|].
  intros h' Hi' Hch. apply HQ. eapply rep_changed; [exact Hr|exact Hl| |exact Hi'|exact Hch].
  intros l' zs _ Hl'. by apply (Hu l').
Qed.

Lemma wp_rep_remove h m lk l xs n ys (Q : list_ptr → list_heap → Prop) :
  rep h m lk → m !! l = Some (xs ++ n :: ys) → locked (lk l) = true →
  (∀ h', rep_ok h (<[l := xs ++ ys]> m) lk h' → prv h' (PNode n) = Some (last_ptr (PHead l) xs) → Q (PNode n) h') →
  wp (list_remove l (PNode n)) Q h.
Proof.
  intros Hr Hl Hlk HQ. pose proof (rep_is_list _ _ _ _ _ Hr Hl) as Hi.
  apply (wp_list_remove h l xs n ys); [done|exact (rep_locked _ _ _ _ _ Hr Hl Hlk)|].
  intros h' Hi' Hch Hpv. apply HQ; [|done]. eapply rep_changed; [exact Hr|exact Hl| |exact Hi'|exact Hch].
  intros l' zs Hne Hl' Hz. apply Hne. exact (rep_unique h m lk l' l zs _ n Hr Hl' Hl Hz ltac:(apply elem_of_app; right; left)).
Qed.

Lemma wp_rep_insert_sorted cmp h m lk l n zs (Q : unit → list_heap → Prop) :
  rep h m lk → m !! l = Some zs → locked (lk l) = true → live h (PNode n) → unlinked n m →
  (∀ z, z ∈ zs → 0 ≤ cmp z n ∨ 0 ≤ cmp n z) →
  (∀ h', rep_ok h (<[l := sorted_insert cmp n zs]> m) lk h' → Q tt h') →
  wp (list_insert_sorted l (PNode n) cmp) Q h.
Proof.
  intros Hr Hl Hlk Hn Hu Ht HQ. pose proof (rep_is_list _ _ _ _ _ Hr Hl) as Hi.
  apply (wp_list_insert_sorted cmp h l n zs); [done|exact (rep_locked _ _ _ _ _ Hr Hl Hlk)|done|by apply (Hu l)|done|].
  intros h' Hi' Hch. apply HQ. eapply rep_changed; [exact Hr|exact Hl| |exact Hi'|exact Hch].
  intros l' zs' _ Hl'. by apply (Hu l').
Qed.

Lemma wp_rep_back h m lk l xs (Q : list_ptr → list_heap → Prop) :
  rep h m lk → m !! l = Some xs → locked (lk l) = true → Q (ptr_of (last xs)) h → wp (list_back l) Q h.
Proof.
  intros Hr Hl Hlk HQ. pose proof (rep_is_list _ _ _ _ _ Hr Hl) as Hi. rw /list_back.
  wp_step. apply wp_check_locked; [exact (rep_locked _ _ _ _ _ Hr Hl Hlk)|]. wp_step. apply (wp_tail_prev h l xs); [done|].
  intros nd ->. wp_step. destruct (last_ptr_cases xs l) as [[-> ->]|(xs' & x & -> & ->)].
  - by rw bool_decide_eq_true_2.
  - rw bool_decide_eq_false_2 //. by rw last_snoc in HQ.
Qed.

Lemma wp_rep_front h m lk l xs (Q : list_ptr → list_heap → Prop) :
  rep h m lk → m !! l = Some xs → locked (lk l) = true → Q (ptr_of (head xs)) h → wp (list_front l) Q h.
Proof.
  intros Hr Hl Hlk HQ. pose proof (rep_is_list _ _ _ _ _ Hr Hl) as Hi. rw /list_front.
  wp_step. apply wp_check_locked; [exact (rep_locked _ _ _ _ _ Hr Hl Hlk)|]. wp_step. apply (wp_head_next h l xs); [done|].
  intros nd ->. wp_step. destruct (first_ptr_cases xs l) as [[-> ->]|(x & xs' & -> & ->)].
  - by rw bool_decide_eq_true_2.
  - by rw bool_decide_eq_false_2.
Qed.

Lemma wp_rep_pop_front h m lk l xs (Q : list_ptr → list_heap → Prop) :
  rep h m lk → m !! l = Some xs → locked (lk l) = true →
  (∀ h', rep_ok h (<[l := tail xs]> m) lk h' → Q (ptr_of (head xs)) h') → wp (list_pop_front l) Q h.
Proof.
  intros Hr Hl Hlk HQ. pose proof (rep_is_list _ _ _ _ _ Hr Hl) as Hi. rw /list_pop_front.
  wp_step. apply (wp_head_next h l xs); [done|]. intros nd ->. destruct xs as [|x xs].
  - apply wp_list_remove_sentinel; [exact (rep_locked _ _ _ _ _ Hr Hl Hlk)|by auto|]. apply HQ. rw /= insert_id //.
  - cbn [first_ptr]. apply (wp_rep_remove h m lk l [] x xs); [done..|]. intros h' Hok _. exact (HQ h' Hok).
Qed.

Lemma wp_rep_push_back h m lk l xs n (Q : unit → list_heap → Prop) :
  rep h m lk → m !! l = Some xs → locked (lk l) = true → live h (PNode n) → unlinked n m →
  (∀ h', rep_ok h (<[l := xs ++ [n]]> m) lk h' → Q tt h') → wp (list_push_back l (PNode n)) Q h.
Proof.
  intros Hr Hl Hlk Hn Hu HQ. pose proof (rep_is_list _ _ _ _ _ Hr Hl) as Hi. rw /list_push_back.
  wp_step. apply (wp_tail_prev h l xs); [done|]. intros nd ->.
  apply (wp_rep_insert h m lk l xs []); [done|by rw app_nil_r|done..].
Qed.

Lemma wp_rep_count h m lk l xs (Q : Z → list_heap → Prop) :
  rep h m lk → m !! l = Some xs → Q (ulong (Z.of_nat (length xs))) h → wp (get_count l) Q h.
Proof.
  intros Hr Hl HQ. destruct (is_list_hdr _ _ _ (rep_is_list _ _ _ _ _ Hr Hl)) as (r & E & Ec).
  eapply wp_get_count; [exact E|]. by rw Ec.
Qed.

(** Reading a linked node. *)
Lemma wp_node_at h l xs n ys (Q : list_node_t → list_heap → Prop) : is_list h l (xs ++ n :: ys) →
  (∀ nd, prev nd = last_ptr (PHead l) xs → next nd = first_ptr ys (PTail l) → Q nd h) → wp (get_node (PNode n)) Q h.
Proof.
  intros Hi HQ. destruct (seg_gap h _ xs (n :: ys) _ (il_seg _ _ _ Hi)) as [_ Ep]. cbn [first_ptr] in Ep.
  assert (is_list h l ((xs ++ [n]) ++ ys)) as Hi2 by by rw -app_assoc.
  destruct (seg_gap h _ (xs ++ [n]) ys _ (il_seg _ _ _ Hi2)) as [En _]. rw last_ptr_snoc in En.
  rw /prv in Ep. rw /nxt in En. destruct (lnodes h !! PNode n) as [nd|] eqn:End; [|done].
  injection Ep as Ep. injection En as En. eapply wp_get_lnode; [exact End|]. by apply HQ.
Qed.

(** ** Taking and releasing the lock *)

Lemma rep_lock h m l e : rep h m unlocked → rep (lk_set (heap_lock l) (mk_spinlock true e) h) m (holding l e).
Proof.
  intros Hr l' xs Hl. destruct (Hr _ _ Hl) as [Hi Hlk]. split; [by apply is_list_lock|].
  rw heap_lock_get_set /holding. case_decide; [by rw Hlk|done].
Qed.

Lemma rep_unlock h m l e : rep h m (holding l e) → rep (lk_set (heap_lock l) SPINLOCK_INIT h) m unlocked.
Proof.
  intros Hr l' xs Hl. destruct (Hr _ _ Hl) as [Hi Hlk]. split; [by apply is_list_lock|].
  rw heap_lock_get_set. rw /holding in Hlk. case_decide; [by rw Hlk|done].
Qed.

Lemma holding_locked l e : locked (holding l e l) = true.
Proof. rw /holding. by case_decide. Qed.

Context {S : Type} `{HasLists S}.

(** A critical section on list [l]. *)
Lemma wp_access {A} (l : Z) (body : M S A) (Q : A → S → Prop) s m xs :
  rep (lists s) m unlocked → m !! l = Some xs →
  wp body (λ a s', int_state s' = false ∧ ∃ m' xs', rep (lists s') m' (holding l (int_state s)) ∧
      m' !! l = Some xs' ∧
      Q a (set_int (int_state s) (set_lists (lk_set (heap_lock l) SPINLOCK_INIT (lists s')) s')))
    (set_lists (lk_set (heap_lock l) (mk_spinlock true (int_state s)) (lists s)) (set_int false s)) →
  wp (list_access_exclusive l body) Q s.
Proof.
  intros Hr Hl Hb. destruct (Hr _ _ Hl) as [_ Hlk]. rw /list_access_exclusive.
  eapply (wp_spinlock_exclusive_int (list_lock l)); [exact Hlk|done|].
  rw /locked_state. cbn [list_lock lk_set lk_get]. rw lists_int.
  eapply wp_mono; [exact Hb|]. intros a s' (Hi & m' & xs' & Hr' & Hl' & HQ). split; [|done].
  destruct (Hr' _ _ Hl') as [_ E]. rw E. f_equal. rw /holding. by case_decide.
Qed.

(** Exclusive operations. *)
Lemma wp_rep_exclusive {A} (l : Z) (op : M list_heap A) (Q : A → S → Prop) s m xs :
  rep (lists s) m unlocked → m !! l = Some xs →
  (∀ h (R : A → list_heap → Prop), rep h m (holding l (int_state s)) → (∀ p, live h p ↔ live (lists s) p) →
     (∀ a h' m' xs', rep_ok h m' (holding l (int_state s)) h' → m' !! l = Some xs' →
        (∀ g, rep_ok (lists s) m' unlocked g → Q a (set_lists g s)) → R a h') → wp op R h) →
  wp (list_access_exclusive l (on_lists op)) Q s.
Proof.
  intros Hr Hl Hop. eapply wp_access; [exact Hr|exact Hl|]. apply wp_on_lists. rw lists_set.
  apply Hop; [by apply rep_lock|done|]. intros a h' m' xs' [Hr' Hlv] Hl' HQ.
  rw !int_lists int_set. split; [done|]. exists m', xs'. rw !lists_set. split; [done|]. split; [done|].
  rw !set_lists_set set_lists_int set_set -set_lists_int set_same.
  apply HQ. split; [exact (rep_unlock _ _ _ _ Hr')|]. exact Hlv.
Qed.
End Rep.

(** ** Exclusive operations on the map *)

Section ExclusiveRules.
Context `{Harch : Arch} {S : Type} `{HasLists S}.
Implicit Types (m : gmap Z (list Z)) (l n : Z) (xs zs : list Z).

Lemma wp_excl_push_back s m l xs n (Q : unit → S → Prop) :
  rep (lists s) m unlocked → m !! l = Some xs → live (lists s) (PNode n) → unlinked n m →
  (∀ g, rep_ok (lists s) (<[l := xs ++ [n]]> m) unlocked g → Q tt (set_lists g s)) →
  wp (list_push_back_exclusive l (PNode n)) Q s.
Proof.
  intros Hr Hl Hn Hu HQ. eapply wp_rep_exclusive; [exact Hr|exact Hl|]. intros h R Hrh Hlv HR.
  eapply wp_rep_push_back; [exact Hrh|exact Hl|apply holding_locked|by apply Hlv|done|].
  intros h' Hok. eapply HR; [exact Hok|apply lookup_insert_eq|exact HQ].
Qed.

Lemma wp_excl_pop_front s m l xs (Q : list_ptr → S → Prop) :
  rep (lists s) m unlocked → m !! l = Some xs →
  (∀ g, rep_ok (lists s) (<[l := tail xs]> m) unlocked g → Q (ptr_of (head xs)) (set_lists g s)) →
  wp (list_pop_front_exclusive l) Q s.
Proof.
  intros Hr Hl HQ. eapply wp_rep_exclusive; [exact Hr|exact Hl|]. intros h R Hrh Hlv HR.
  eapply wp_rep_pop_front; [exact Hrh|exact Hl|apply holding_locked|].
  intros h' Hok. eapply HR; [exact Hok|apply lookup_insert_eq|exact HQ].
Qed.

Lemma wp_excl_pop_back s m l xs (Q : list_ptr → S → Prop) :
  rep (lists s) m unlocked → m !! l = Some xs →
  (∀ g, rep_ok (lists s) (<[l := drop_last xs]> m) unlocked g → Q (ptr_of (last xs)) (set_lists g s)) →
  wp (list_pop_back_exclusive l) Q s.
Proof.
  intros Hr Hl HQ. eapply wp_rep_exclusive; [exact Hr|exact Hl|]. intros h R Hrh Hlv HR.
  wp_step. apply (wp_tail_prev h l xs); [exact (rep_is_list _ _ _ _ _ Hrh Hl)|]. intros nd ->.
  destruct (last_ptr_cases xs l) as [[-> ->]|(xs' & x & -> & ->)].
  - apply wp_list_remove_sentinel; [exact (rep_locked _ _ _ _ _ Hrh Hl (holding_locked _ _))|by auto|].
    eapply (HR _ _ (<[l := []]> m)); [|apply lookup_insert_eq|exact HQ]. rw insert_id //.
  - eapply (wp_rep_remove h m _ l xs' x []); [exact Hrh|exact Hl|apply holding_locked|].
    intros h' Hok _. rw app_nil_r in Hok. rw last_snoc drop_last_snoc in HQ.
    eapply HR; [exact Hok|apply lookup_insert_eq|exact HQ].
Qed.

Lemma wp_excl_remove s m l xs n ys (Q : list_ptr → S → Prop) :
  rep (lists s) m unlocked → m !! l = Some (xs ++ n :: ys) →
  (∀ g, rep_ok (lists s) (<[l := xs ++ ys]> m) unlocked g → Q (PNode n) (set_lists g s)) →
  wp (list_remove_exclusive l (PNode n)) Q s.
Proof.
  intros Hr Hl HQ. eapply wp_rep_exclusive; [exact Hr|exact Hl|]. intros h R Hrh Hlv HR.
  eapply wp_rep_remove; [exact Hrh|exact Hl|apply holding_locked|].
  intros h' Hok _. eapply HR; [exact Hok|apply lookup_insert_eq|exact HQ].
Qed.

Lemma wp_excl_insert_sorted cmp s m l zs n (Q : unit → S → Prop) :
  rep (lists s) m unlocked → m !! l = Some zs → live (lists s) (PNode n) → unlinked n m →
  (∀ z, z ∈ zs → 0 ≤ cmp z n ∨ 0 ≤ cmp n z) →
  (∀ g, rep_ok (lists s) (<[l := sorted_insert cmp n zs]> m) unlocked g → Q tt (set_lists g s)) →
  wp (list_insert_sorted_exclusive l (PNode n) cmp) Q s.
Proof.
  intros Hr Hl Hn Hu Ht HQ. eapply wp_rep_exclusive; [exact Hr|exact Hl|]. intros h R Hrh Hlv HR.
  eapply wp_rep_insert_sorted; [exact Hrh|exact Hl|apply holding_locked|by apply Hlv|done|done|].
  intros h' Hok. eapply HR; [exact Hok|apply lookup_insert_eq|exact HQ].
Qed.
End ExclusiveRules.

(** ** Critical sections while other locks are held *)

Definition lock_at (lk : Z → spinlock_t) (l : Z) (v : spinlock_t) : Z → spinlock_t := λ l', if decide (l' = l) then v else lk l'.

Lemma lock_at_same lk l v : lock_at lk l v l = v.
Proof. rw /lock_at. by rw decide_True. Qed.
Lemma lock_at_other lk l v l' : l' ≠ l → lock_at lk l v l' = lk l'.
Proof. intros ?. rw /lock_at. by rw decide_False. Qed.

Section Nested.
Context `{Harch : Arch} {S : Type} `{HasLists S}.
Implicit Types (m : gmap Z (list Z)) (l n : Z) (xs zs : list Z) (lk : Z → spinlock_t).

Lemma rep_lock_at h m lk l v : rep h m lk → rep (lk_set (heap_lock l) v h) m (lock_at lk l v).
Proof.
  intros Hr l' xs Hl. destruct (Hr _ _ Hl) as [Hi Hlk]. split; [by apply is_list_lock|].
  rw heap_lock_get_set /lock_at. case_decide; [by rw Hlk|done].
Qed.

Lemma rep_ext h m lk lk' : (∀ l, lk l = lk' l) → rep h m lk → rep h m lk'.
Proof. intros E Hr l xs Hl. destruct (Hr l xs Hl) as [Hi Hlk]. by rw -E. Qed.

Lemma rep_unlock_at h m lk l v : lk l = SPINLOCK_INIT → rep h m (lock_at lk l v) → rep (lk_set (heap_lock l) SPINLOCK_INIT h) m lk.
Proof.
  intros El Hr. eapply rep_ext; [|apply rep_lock_at; exact Hr]. intros l'. rw /lock_at. case_decide; [by subst|done].
Qed.

Lemma wp_access_at {A} l (body : M S A) (Q : A → S → Prop) s m lk xs :
  rep (lists s) m lk → m !! l = Some xs → lk l = SPINLOCK_INIT →
  wp body (λ a s', int_state s' = false ∧ ∃ m' xs', rep (lists s') m' (lock_at lk l (mk_spinlock true (int_state s))) ∧
      m' !! l = Some xs' ∧
      Q a (set_int (int_state s) (set_lists (lk_set (heap_lock l) SPINLOCK_INIT (lists s')) s')))
    (set_lists (lk_set (heap_lock l) (mk_spinlock true (int_state s)) (lists s)) (set_int false s)) →
  wp (list_access_exclusive l body) Q s.
Proof.
  intros Hr Hl El Hb. destruct (Hr _ _ Hl) as [_ Hlk]. rw El in Hlk. rw /list_access_exclusive.
  eapply (wp_spinlock_exclusive_int (list_lock l)); [exact Hlk|done|].
  rw /locked_state. cbn [list_lock lk_set lk_get]. rw lists_int.
  eapply wp_mono; [exact Hb|]. intros a s' (Hi & m' & xs' & Hr' & Hl' & HQ). split; [|done].
  destruct (Hr' _ _ Hl') as [_ E]. rw E. by rw lock_at_same.
Qed.

Lemma wp_rep_exclusive_at {A} l (op : M list_heap A) (Q : A → S → Prop) s m lk xs :
  rep (lists s) m lk → m !! l = Some xs → lk l = SPINLOCK_INIT →
  (∀ h (R : A → list_heap → Prop), rep h m (lock_at lk l (mk_spinlock true (int_state s))) → (∀ p, live h p ↔ live (lists s) p) →
     (∀ a h' m' xs', rep_ok h m' (lock_at lk l (mk_spinlock true (int_state s))) h' → m' !! l = Some xs' →
        (∀ g, rep_ok (lists s) m' lk g → Q a (set_lists g s)) → R a h') → wp op R h) →
  wp (list_access_exclusive l (on_lists op)) Q s.
Proof.
  intros Hr Hl El Hop. eapply wp_access_at; [exact Hr|exact Hl|exact El|]. apply wp_on_lists. rw lists_set.
  apply Hop; [by apply rep_lock_at|done|]. intros a h' m' xs' [Hr' Hlv] Hl' HQ.
  rw !int_lists int_set. split; [done|]. exists m', xs'. rw !lists_set. split; [done|]. split; [done|].
  rw !set_lists_set set_lists_int set_set -set_lists_int set_same.
  apply HQ. split; [exact (rep_unlock_at _ _ _ _ _ El Hr')|]. exact Hlv.
Qed.

Lemma wp_push_back_at s m lk l xs n (Q : unit → S → Prop) :
  rep (lists s) m lk → m !! l = Some xs → lk l = SPINLOCK_INIT → live (lists s) (PNode n) → unlinked n m →
  (∀ g, rep_ok (lists s) (<[l := xs ++ [n]]> m) lk g → Q tt (set_lists g s)) →
  wp (list_push_back_exclusive l (PNode n)) Q s.
Proof.
  intros Hr Hl El Hn Hu HQ. eapply wp_rep_exclusive_at; [exact Hr|exact Hl|exact El|]. intros h R Hrh Hlv HR.
  eapply wp_rep_push_back; [exact Hrh|exact Hl|by rw lock_at_same|by apply Hlv|done|].
  intros h' Hok. eapply HR; [exact Hok|apply lookup_insert_eq|exact HQ].
Qed.

Lemma wp_excl_remove_at s m lk l xs n ys (Q : list_ptr → S → Prop) :
  rep (lists s) m lk → m !! l = Some (xs ++ n :: ys) → lk l = SPINLOCK_INIT →
  (∀ g, rep_ok (lists s) (<[l := xs ++ ys]> m) lk g → Q (PNode n) (set_lists g s)) →
  wp (list_remove_exclusive l (PNode n)) Q s.
Proof.
  intros Hr Hl El HQ. eapply wp_rep_exclusive_at; [exact Hr|exact Hl|exact El|]. intros h R Hrh Hlv HR.
  eapply wp_rep_remove; [exact Hrh|exact Hl|by rw lock_at_same|].
  intros h' Hok _. eapply HR; [exact Hok|apply lookup_insert_eq|exact HQ].
Qed.

Lemma wp_pop_front_at s m lk l xs (Q : list_ptr → S → Prop) :
  rep (lists s) m lk → m !! l = Some xs → lk l = SPINLOCK_INIT →
  (∀ g, rep_ok (lists s) (<[l := tail xs]> m) lk g → Q (ptr_of (head xs)) (set_lists g s)) →
  wp (list_access_exclusive l (on_lists (list_pop_front l))) Q s.
Proof.
  intros Hr Hl El HQ. eapply wp_rep_exclusive_at; [exact Hr|exact Hl|exact El|]. intros h R Hrh Hlv HR.
  eapply wp_rep_pop_front; [exact Hrh|exact Hl|by rw lock_at_same|].
  intros h' Hok. eapply HR; [exact Hok|apply lookup_insert_eq|exact HQ].
Qed.

Lemma wp_count_at s m lk l xs (Q : Z → S → Prop) :
  rep (lists s) m lk → m !! l = Some xs → lk l = SPINLOCK_INIT →
  (∀ g, rep_ok (lists s) m lk g → Q (ulong (Z.of_nat (length xs))) (set_lists g s)) →
  wp (list_access_exclusive l (on_lists (get_count l))) Q s.
Proof.
  intros Hr Hl El HQ. eapply wp_rep_exclusive_at; [exact Hr|exact Hl|exact El|]. intros h R Hrh Hlv HR.
  eapply wp_rep_count; [exact Hrh|exact Hl|]. eapply (HR _ h m xs); [by split|exact Hl|exact HQ].
Qed.

(** A loop over a list whose body keeps a property [P] of the state, which
    says that the lists stay as they are. *)
Lemma wp_list_foreach s m lk l xs (body : list_ptr → M S unit) (P : S → Prop) (Q : unit → S → Prop) :
  P s → (∀ s, P s → rep (lists s) m lk) → m !! l = Some xs →
  (∀ s k, P s → k ∈ xs → wp (body (PNode k)) (λ _ s', P s') s) → (∀ s', P s' → Q tt s') →
  wp (list_foreach l body) Q s.
Proof.
  intros HP Hrep Hl Hbody HQ.
  assert (∀ fuel pre ys s, P s → xs = pre ++ ys → (length ys < fuel)%nat →
    wp (list_foreach_from fuel l (first_ptr ys (PTail l)) body) Q s) as Hloop.
  { induction fuel as [|fuel IH]; intros pre ys s1 HP1 E Hlen; [lia|]. cbn [list_foreach_from].
    destruct ys as [|y ys]; cbn [first_ptr].
    - rw bool_decide_eq_true_2 //. wp_step. by apply HQ.
    - rw bool_decide_eq_false_2 //. wp_step. eapply wp_mono; [apply (Hbody s1 y HP1); rw E; apply elem_of_app; right; left|].
      intros [] s2 HP2. wp_step. apply wp_on_lists.
      apply (wp_node_at _ l pre y ys); [rw -E; exact (rep_is_list _ _ _ _ _ (Hrep s2 HP2) Hl)|]. intros nd _ ->. rw set_lists_same.
      apply (IH (pre ++ [y])); [done|by rw -app_assoc|cbn in Hlen; lia]. }
  pose proof (rep_is_list _ _ _ _ _ (Hrep s HP) Hl) as Hi.
  rw /list_foreach. wp_step. apply wp_on_lists. apply (wp_head_next _ l xs); [done|]. intros nd ->. rw set_lists_same.
  wp_step. wp_step. apply (Hloop _ []); [done|done|]. pose proof (is_list_size _ _ _ Hi). lia.
Qed.

End Nested.
