(* ===== verification/Sched.v ===== *)
(** Scheduling, waiting and inter-process communication:
    [src/src/kernel/proc/sched.c], [wait.c] and [ipc.c], with the thread states
    and lookups of [thread.c] and [process.c] and the system calls of
    [src/src/kernel/syscall] that put threads to sleep and wake them.

    A thread is in a run queue, in the wait queue, in the IPC queue, or running;
    the queues are lists of [List.v].  The clock, the futex words in memory, the
    message buffers and register contexts, and the memory of a new thread are the
    interface [SchedEnv].  Switching to the chosen thread ends the kernel's part,
    so [sched] returns it. *)

From stdpp Require Import base list gmap.
From Stdlib Require Import ZArith Lia.
From Corelib Require Import ssreflect.
From S2P Require Import Prelude Bits Lock List.

(** ** Data *)

Inductive thread_state := THREAD_STATE_ENTER | THREAD_STATE_NORMAL | THREAD_STATE_WAIT | THREAD_STATE_EXIT.

#[export] Instance thread_state_eq_dec : EqDecision thread_state.
Proof. solve_decision. Defined.

Definition WAIT_ON_TIMEOUT : Z := 0.
Definition WAIT_ON_FUTEX : Z := 1.

Definition IPC_WAIT_FOR_RESP : Z := 0.
Definition IPC_WAIT_FOR_SERIAL_RECV : Z := 1.
Definition IPC_WAIT_FOR_SERIAL_REQ : Z := 2.

Definition SCHED_CLASS_REAL_TIME : Z := 1.
Definition SCHED_CLASS_INTERRUPT : Z := 2.
Definition SCHED_CLASS_TIMER : Z := 3.
Definition SCHED_CLASS_NORMAL : Z := 4.
Definition SCHED_CLASS_IDLE : Z := 5.
Definition NUM_SCHED_CLASSES : Z := 6.

(** [struct thread] without its list nodes, memory and context. *)
Record thread := mk_thread {
  t_tid : Z;
  t_pid : Z;
  t_state : thread_state;
  t_wait_type : Z;
  t_wait_obj : Z;
  t_wait_timeout_ms : Z;
  t_sched_class : Z;
  t_ipc_pid : Z;                 (* ipc_wait *)
  t_ipc_tid : Z;
  t_ipc_opcode : Z;
  t_ipc_need_response : Z;
  t_reply_pid : Z;               (* ipc_reply_to *)
  t_reply_tid : Z;
  t_lock : spinlock_t;
  t_ref_count : Z
}.

Definition set_state v t := mk_thread (t_tid t) (t_pid t) v (t_wait_type t) (t_wait_obj t) (t_wait_timeout_ms t) (t_sched_class t)
  (t_ipc_pid t) (t_ipc_tid t) (t_ipc_opcode t) (t_ipc_need_response t) (t_reply_pid t) (t_reply_tid t) (t_lock t) (t_ref_count t).
Definition set_wait_type v t := mk_thread (t_tid t) (t_pid t) (t_state t) v (t_wait_obj t) (t_wait_timeout_ms t) (t_sched_class t)
  (t_ipc_pid t) (t_ipc_tid t) (t_ipc_opcode t) (t_ipc_need_response t) (t_reply_pid t) (t_reply_tid t) (t_lock t) (t_ref_count t).
Definition set_wait_obj v t := mk_thread (t_tid t) (t_pid t) (t_state t) (t_wait_type t) v (t_wait_timeout_ms t) (t_sched_class t)
  (t_ipc_pid t) (t_ipc_tid t) (t_ipc_opcode t) (t_ipc_need_response t) (t_reply_pid t) (t_reply_tid t) (t_lock t) (t_ref_count t).
Definition set_wait_timeout v t := mk_thread (t_tid t) (t_pid t) (t_state t) (t_wait_type t) (t_wait_obj t) v (t_sched_class t)
  (t_ipc_pid t) (t_ipc_tid t) (t_ipc_opcode t) (t_ipc_need_response t) (t_reply_pid t) (t_reply_tid t) (t_lock t) (t_ref_count t).
Definition set_ipc_wait (pid tid : Z) t := mk_thread (t_tid t) (t_pid t) (t_state t) (t_wait_type t) (t_wait_obj t) (t_wait_timeout_ms t) (t_sched_class t)
  pid tid (t_ipc_opcode t) (t_ipc_need_response t) (t_reply_pid t) (t_reply_tid t) (t_lock t) (t_ref_count t).
Definition set_ipc_opcode (opcode need : Z) t := mk_thread (t_tid t) (t_pid t) (t_state t) (t_wait_type t) (t_wait_obj t) (t_wait_timeout_ms t) (t_sched_class t)
  (t_ipc_pid t) (t_ipc_tid t) opcode need (t_reply_pid t) (t_reply_tid t) (t_lock t) (t_ref_count t).
Definition set_reply_to (pid tid : Z) t := mk_thread (t_tid t) (t_pid t) (t_state t) (t_wait_type t) (t_wait_obj t) (t_wait_timeout_ms t) (t_sched_class t)
  (t_ipc_pid t) (t_ipc_tid t) (t_ipc_opcode t) (t_ipc_need_response t) pid tid (t_lock t) (t_ref_count t).
Definition set_t_lock v t := mk_thread (t_tid t) (t_pid t) (t_state t) (t_wait_type t) (t_wait_obj t) (t_wait_timeout_ms t) (t_sched_class t)
  (t_ipc_pid t) (t_ipc_tid t) (t_ipc_opcode t) (t_ipc_need_response t) (t_reply_pid t) (t_reply_tid t) v (t_ref_count t).
Definition upd_t_ref f t := mk_thread (t_tid t) (t_pid t) (t_state t) (t_wait_type t) (t_wait_obj t) (t_wait_timeout_ms t) (t_sched_class t)
  (t_ipc_pid t) (t_ipc_tid t) (t_ipc_opcode t) (t_ipc_need_response t) (t_reply_pid t) (t_reply_tid t) (t_lock t) (f (t_ref_count t)).

Definition set_sched_class v t := mk_thread (t_tid t) (t_pid t) (t_state t) (t_wait_type t) (t_wait_obj t) (t_wait_timeout_ms t) v
  (t_ipc_pid t) (t_ipc_tid t) (t_ipc_opcode t) (t_ipc_need_response t) (t_reply_pid t) (t_reply_tid t) (t_lock t) (t_ref_count t).

Inductive process_state := PROCESS_STATE_ENTER | PROCESS_STATE_NORMAL | PROCESS_STATE_CRASHED | PROCESS_STATE_STOPPED | PROCESS_STATE_ZOMBIE.

#[export] Instance process_state_eq_dec : EqDecision process_state.
Proof. solve_decision. Defined.

(** The fields of [struct process] used here. *)
Record sproc := mk_sproc {
  pr_pid : Z;
  pr_state : process_state;
  pr_page_table : Z;
  pr_popup : Z;                  (* popup_msg_handler *)
  pr_lock : spinlock_t;
  pr_ref_count : Z
}.

Definition set_pr_popup v p := mk_sproc (pr_pid p) (pr_state p) (pr_page_table p) v (pr_lock p) (pr_ref_count p).
Definition set_pr_lock v p := mk_sproc (pr_pid p) (pr_state p) (pr_page_table p) (pr_popup p) v (pr_ref_count p).
Definition upd_pr_ref f p := mk_sproc (pr_pid p) (pr_state p) (pr_page_table p) (pr_popup p) (pr_lock p) (f (pr_ref_count p)).

(** ** Interface to the rest of the kernel *)

Class SchedEnv (K : Type) := {
  env_get_ms : M K Z;                           (* hal_get_ms *)
  env_translate : Z → Z → M K Z;                (* hal_exports.translate(page_table, vaddr) *)
  env_cast_paddr : Z → Z;                       (* hal_cast_paddr_to_kernel_ptr *)
  env_read_word : Z → M K Z;                    (* a word of memory *)
  env_copy_msg : Z → Z → M K unit;              (* the message of a thread is copied to another's buffer *)
  env_set_return : Z → Z → Z → M K unit;        (* hal_set_syscall_return(&t->context, success, return value, 0) *)
  env_set_regs : Z → Z → Z → M K unit;          (* the same for the registers of the system call of t, kdi->regs *)
  env_save_context : Z → M K unit;              (* thread_save_context(t, kdi->regs) *)
  env_service_tlb : M K unit;                   (* service_tlb_shootdown_requests *)
  env_notify_msg : Z → Z → M K unit;            (* the message of a thread becomes one of nobody with one parameter *)
  env_create : Z → Z → Z → M K Z;               (* the memory, stack and context of a new thread of a process: its address *)
  env_free_thread : Z → M K unit                (* they are given back *)
}.

Record sched_state (K : Type) := mk_sched {
  sc_lists : list_heap;
  sc_int : bool;
  sc_threads : gmap Z thread;
  sc_procs : gmap Z sproc;
  sc_kernel_proc : Z;
  sc_system_pid : Z;
  sc_env : K
}.

Arguments mk_sched {K} _ _ _ _ _ _ _.
Arguments sc_lists {K} _.
Arguments sc_int {K} _.
Arguments sc_threads {K} _.
Arguments sc_procs {K} _.
Arguments sc_kernel_proc {K} _.
Arguments sc_system_pid {K} _.
Arguments sc_env {K} _.

(** ** Lists and nodes *)

Definition wait_queue : Z := 0.
Definition ipc_wait_queue : Z := 1.
Definition threads : Z := 2.
Definition processes : Z := 3.
Definition sched_queue : Z := 4.     (* initialised, not used *)
Definition sched_queues (class : Z) : Z := 8 + class.

(** The list [threads] of a process. *)
Definition proc_threads (p : Z) : Z := - p - 1.

(** The nodes [node], [node_sched], [node_wait] and [node_proc] of a thread, and [node] of a process. *)
Definition t_node (t : Z) : list_ptr := PNode (4 * t).
Definition node_sched (t : Z) : list_ptr := PNode (4 * t + 1).
Definition node_wait (t : Z) : list_ptr := PNode (4 * t + 2).
Definition node_proc (t : Z) : list_ptr := PNode (4 * t + 3).
Definition p_node (p : Z) : list_ptr := PNode (- p - 1).

(** [list_entry] for a node of a thread and of a process. *)
Definition thread_of (n : list_ptr) : outcome Z := match n with PNode k => Ret (k / 4) | _ => Fault end.
Definition proc_of (n : list_ptr) : outcome Z := match n with PNode k => Ret (- k - 1) | _ => Fault end.

Section Sched.
Context `{Arch} {K : Type} `{SchedEnv K}.

Definition upd_sc_lists (f : list_heap → list_heap) (s : sched_state K) : sched_state K :=
  mk_sched (f (sc_lists s)) (sc_int s) (sc_threads s) (sc_procs s) (sc_kernel_proc s) (sc_system_pid s) (sc_env s).
Definition set_sc_int (b : bool) (s : sched_state K) : sched_state K :=
  mk_sched (sc_lists s) b (sc_threads s) (sc_procs s) (sc_kernel_proc s) (sc_system_pid s) (sc_env s).
Definition upd_sc_threads (f : gmap Z thread → gmap Z thread) (s : sched_state K) : sched_state K :=
  mk_sched (sc_lists s) (sc_int s) (f (sc_threads s)) (sc_procs s) (sc_kernel_proc s) (sc_system_pid s) (sc_env s).
Definition upd_sc_procs (f : gmap Z sproc → gmap Z sproc) (s : sched_state K) : sched_state K :=
  mk_sched (sc_lists s) (sc_int s) (sc_threads s) (f (sc_procs s)) (sc_kernel_proc s) (sc_system_pid s) (sc_env s).
Definition set_sc_env (k : K) (s : sched_state K) : sched_state K :=
  mk_sched (sc_lists s) (sc_int s) (sc_threads s) (sc_procs s) (sc_kernel_proc s) (sc_system_pid s) k.

#[export] Instance sched_has_int : HasInt (sched_state K) := {
  int_state := sc_int;
  set_int := set_sc_int;
  int_set _ _ := eq_refl;
  set_set _ _ _ := eq_refl;
  set_same s := match s with mk_sched _ _ _ _ _ _ _ => eq_refl end
}.

#[export] Instance sched_has_lists : HasLists (sched_state K) := {
  lists := sc_lists;
  set_lists h := upd_sc_lists (λ _, h);
  lists_set _ _ := eq_refl;
  set_lists_set _ _ _ := eq_refl;
  set_lists_same s := match s with mk_sched _ _ _ _ _ _ _ => eq_refl end;
  lists_int _ _ := eq_refl;
  set_lists_int _ _ _ := eq_refl;
  int_lists _ _ := eq_refl
}.

Abbreviation SC := (M (sched_state K)).

Definition on_sc_env {A} (m : M K A) : SC A := zoom sc_env set_sc_env m.

Definition get_thread (t : Z) : SC thread := deref (λ s, sc_threads s !! t).
Definition upd_thread (t : Z) (f : thread → thread) : SC unit := get_thread t;; modify (upd_sc_threads (alter f t)).
Definition get_sproc (p : Z) : SC sproc := deref (λ s, sc_procs s !! p).
Definition upd_sproc (p : Z) (f : sproc → sproc) : SC unit := get_sproc p;; modify (upd_sc_procs (alter f p)).

Definition thread_lock (t : Z) : lock_ref (sched_state K) :=
  mk_lock_ref (λ s, t_lock <$> sc_threads s !! t) (λ v, upd_sc_threads (alter (set_t_lock v) t)).
Definition proc_lock (p : Z) : lock_ref (sched_state K) :=
  mk_lock_ref (λ s, pr_lock <$> sc_procs s !! p) (λ v, upd_sc_procs (alter (set_pr_lock v) p)).

(** [list_foreach(l, n) { body }] with the value of [n] at the end of the body,
    which [list_remove_in_foreach] changes, and whether the body breaks. *)
Fixpoint foreach_from {A} (fuel : nat) (l : Z) (n : list_ptr) (acc : A) (body : list_ptr → A → SC (list_ptr * A * bool)) : SC A :=
  if bool_decide (n = PTail l) then mret acc else
  match fuel with
  | O => diverge
  | S fuel' =>
      '(n', acc', brk) ← body n acc;
      if (brk : bool) then mret acc' else
      nd ← on_lists (get_node n');
      foreach_from fuel' l (next nd) acc' body
  end.

Definition foreach {A} (l : Z) (acc : A) (body : list_ptr → A → SC (list_ptr * A * bool)) : SC A :=
  hd ← on_lists (get_node (PHead l));
  fuel ← gets (λ s, size (lnodes (sc_lists s)));
  foreach_from fuel l (next hd) acc body.

Definition list_remove_in_foreach (l : Z) (n : list_ptr) : SC list_ptr :=
  removed_n ← on_lists (list_remove l n);
  if bool_decide (removed_n = PNull) then mret n else
  nd ← on_lists (get_node removed_n);
  mret (prev nd).

(** A loop that looks for the first node accepted by [f]. *)
Definition find_in (l : Z) (f : Z → SC bool) : SC (option Z) :=
  foreach l None (λ n _, t ← lift_outcome (thread_of n); b ← f t; mret (n, if (b : bool) then Some t else None, b)).

(** ** Threads and processes *)

Definition acquire_thread (id : Z) : SC (option Z) :=
  list_access_exclusive threads (
    r ← find_in threads (λ cur, th ← get_thread cur; mret (t_tid th =? id));
    match r with
    | Some t => upd_thread t (upd_t_ref (λ v, ulong (v + 1)));; mret (Some t)
    | None => mret None
    end).

Definition release_thread (t : Z) : SC unit :=
  th ← get_thread t;
  panic_if (t_ref_count th <=? 0);;
  upd_thread t (upd_t_ref (λ v, ulong (v - 1))).

Definition acquire_process (id : Z) : SC (option Z) :=
  list_access_exclusive processes (
    r ← foreach processes None (λ n _,
      p ← lift_outcome (proc_of n);
      pr ← get_sproc p;
      let b := pr_pid pr =? id in
      mret (n, if b then Some p else None, b));
    match r with
    | Some p => upd_sproc p (upd_pr_ref (λ v, ulong (v + 1)));; mret (Some p)
    | None => mret None
    end).

Definition release_process (p : Z) : SC unit :=
  pr ← get_sproc p;
  panic_if (pr_ref_count pr <=? 0);;
  upd_sproc p (upd_pr_ref (λ v, ulong (v - 1))).

Definition thread_exists (tid : Z) : SC Z :=
  list_access_exclusive threads (
    r ← find_in threads (λ cur, th ← get_thread cur; mret (t_tid th =? tid));
    mret (match r with Some _ => 1 | None => 0 end)).

Definition get_num_threads : SC Z := list_access_exclusive threads (on_lists (get_count threads)).

(** [access_thread(id, t) { body }] and [access_process(id, p) { body }]; [dflt]
    is the value of the variables the body sets when there is no such object. *)
Definition access_thread {A} (id : Z) (dflt : A) (body : Z → SC A) : SC A :=
  r ← acquire_thread id;
  match r with
  | Some t => a ← body t; release_thread t;; mret a
  | None => mret dflt
  end.
Definition access_process {A} (id : Z) (dflt : A) (body : Z → SC A) : SC A :=
  r ← acquire_process id;
  match r with
  | Some p => a ← body p; release_process p;; mret a
  | None => mret dflt
  end.

Definition valid_transition (from to : thread_state) : bool :=
  match to with
  | THREAD_STATE_NORMAL => bool_decide (from = THREAD_STATE_ENTER ∨ from = THREAD_STATE_WAIT)
  | THREAD_STATE_WAIT => bool_decide (from = THREAD_STATE_NORMAL)
  | THREAD_STATE_EXIT => bool_decide (from = THREAD_STATE_NORMAL ∨ from = THREAD_STATE_WAIT)
  | THREAD_STATE_ENTER => false
  end.

Definition set_thread_state (t : Z) (st : thread_state) : SC unit :=
  spinlock_exclusive_int (thread_lock t) (
    th ← get_thread t;
    panic_if (negb (valid_transition (t_state th) st));;
    upd_thread t (set_state st)).

(** ** The scheduler *)

Fixpoint init_queues (n : nat) (class : Z) : SC unit :=
  match n with
  | O => mret tt
  | S n' => on_lists (list_init (sched_queues class));; init_queues n' (class + 1)
  end.

Definition init_sched : SC unit :=
  on_lists (list_init sched_queue);;
  init_queues (Z.to_nat NUM_SCHED_CLASSES) 0.

Definition sched_put (t : Z) : SC unit :=
  th ← get_thread t;
  panic_if (negb (bool_decide (t_state th = THREAD_STATE_NORMAL)));;
  panic_if (NUM_SCHED_CLASSES <=? t_sched_class th);;
  lift_outcome (if t_sched_class th <? 0 then Fault else Ret tt);;
  list_push_back_exclusive (sched_queues (t_sched_class th)) (node_sched t).

Definition run_thread (t : Z) : SC unit :=
  upd_thread t (upd_t_ref (λ v, ulong (v + 1)));;
  set_thread_state t THREAD_STATE_NORMAL;;
  sched_put t.

Definition _pick_from_sched_queue (class : Z) : SC (option Z) :=
  let q := sched_queues class in
  c ← list_count_exclusive q;
  if negb (ctrue c) then mret None else
  n ← list_access_exclusive q (on_lists (list_pop_front q));
  match n with
  | PNull => mret None
  | _ => t ← lift_outcome (thread_of n); mret (Some t)
  end.

Definition get_num_wait_threads : SC Z := list_access_exclusive wait_queue (on_lists (get_count wait_queue)).

Definition is_wait_queue_ready : SC bool :=
  cur_ms ← on_sc_env env_get_ms;
  next_ready_ms ← list_access_exclusive wait_queue (
    n ← on_lists (list_front wait_queue);
    match n with
    | PNull => mret (2 ^ 64 - 1)
    | _ => t ← lift_outcome (thread_of n); th ← get_thread t; mret (t_wait_timeout_ms th)
    end);
  mret (next_ready_ms <=? cur_ms).

Definition _pick_from_sched_queue_timer : SC (option Z) :=
  b ← is_wait_queue_ready;
  if (b : bool) then _pick_from_sched_queue SCHED_CLASS_TIMER else mret None.

(** [if (!t) t = pick]. *)
Definition or_pick (r : option Z) (pick : SC (option Z)) : SC (option Z) :=
  match r with Some t => mret (Some t) | None => pick end.

(** The thread [switch_to_thread] is called with. *)
Definition sched : SC Z :=
  t ← _pick_from_sched_queue SCHED_CLASS_REAL_TIME;
  t ← or_pick t (_pick_from_sched_queue SCHED_CLASS_INTERRUPT);
  t ← or_pick t _pick_from_sched_queue_timer;
  t ← or_pick t (_pick_from_sched_queue SCHED_CLASS_NORMAL);
  t ← or_pick t (_pick_from_sched_queue SCHED_CLASS_IDLE);
  match t with
  | Some t => mret t
  | None => panic
  end.

End Sched.
