(* ===== verification/Wait.v ===== *)
(** Waiting and waking: [src/src/kernel/proc/wait.c] and the system calls
    [syscall_handler_wait], [syscall_handler_wake] of
    [src/src/kernel/syscall/system.c]. *)

From stdpp Require Import base list gmap.
From Stdlib Require Import ZArith Lia.
From Corelib Require Import ssreflect.
From S2P Require Import Prelude Bits Lock List Sched.

(** The two fields of a futex word; [kernel] is declared first. *)
Definition futex_kernel `{Arch} (v : Z) : bool := Z.testbit v (if ARCH_BIG_ENDIAN then ARCH_WIDTH - 1 else 0).
Definition futex_locked `{Arch} (v : Z) : Z := if ARCH_BIG_ENDIAN then v mod 2 ^ (ARCH_WIDTH - 1) else shr v 1.

Definition FUTEX_WHEN_NE `{Arch} : Z := 2 ^ (ARCH_WIDTH - 1).
Definition FUTEX_VALUE_MASK `{Arch} : Z := 2 ^ (ARCH_WIDTH - 1) - 1.

Section Wait.
Context `{Arch} {K : Type} `{SchedEnv K}.
Abbreviation SC := (M (sched_state K)).

(** [wait_queue_compare] on the threads of two nodes. *)
Definition wait_queue_compare (ths : gmap Z thread) (a b : Z) : Z :=
  let ta := default 0 (t_wait_timeout_ms <$> ths !! (a / 4)) in
  let tb := default 0 (t_wait_timeout_ms <$> ths !! (b / 4)) in
  if tb <? ta then 1 else if ta <? tb then -1 else 0.

(** The pointer to the futex at [obj] of process [p], or NULL. *)
Definition find_futex (p obj : Z) : SC Z :=
  kp ← gets sc_kernel_proc;
  if p =? kp then mret obj else
  pr ← get_sproc p;
  paddr ← on_sc_env (env_translate (pr_page_table pr) obj);
  mret (if ctrue paddr then env_cast_paddr paddr else 0).

(** The test of a futex against [wait_value], when its kernel bit is [kernel]. *)
Definition futex_test (futex wait_value : Z) (kernel : bool) : SC bool :=
  value ← on_sc_env (env_read_word futex);
  let when_ne := ctrue (Z.land wait_value FUTEX_WHEN_NE) in
  let when_val := Z.land wait_value FUTEX_VALUE_MASK in
  if Bool.eqb (futex_kernel value) kernel then
    value ← on_sc_env (env_read_word futex);
    mret (if when_ne then negb (futex_locked value =? when_val) else futex_locked value =? when_val)
  else mret false.

(** ** Wait *)

(** On success the lock of the wait queue is still held. *)
Definition wait_on_object (p t wait_type wait_obj wait_value timeout_ms : Z) : SC Z :=
  spinlock_lock_int (list_lock wait_queue);;
  th ← get_thread t;
  '(do_wait, obj, err) ←
    (if wait_type =? WAIT_ON_TIMEOUT then mret (true, t_tid th, 0)
     else if wait_type =? WAIT_ON_FUTEX then
       futex ← find_futex p wait_obj;
       if ctrue futex then
         b ← futex_test futex wait_value true;
         mret (b, wait_obj, 0)
       else mret (false, wait_obj, -1)
     else mret (false, wait_obj, -1));
  panic_if (ctrue err && (do_wait : bool));;
  if (do_wait : bool) then
    spinlock_exclusive_int (thread_lock t) (
      upd_thread t (set_wait_type wait_type);;
      upd_thread t (set_wait_obj obj);;
      v ← (if ctrue timeout_ms then ms ← on_sc_env env_get_ms; mret (u64 (ms + timeout_ms)) else mret (2 ^ 64 - 1));
      upd_thread t (set_wait_timeout v));;
    mret err
  else
    spinlock_unlock_int (list_lock wait_queue);;
    mret (-1).

Definition sleep_thread (t : Z) : SC unit :=
  b ← spinlock_is_locked (list_lock wait_queue);
  panic_if (negb b);;
  set_thread_state t THREAD_STATE_WAIT;;
  ths ← gets sc_threads;
  on_lists (list_insert_sorted wait_queue (node_wait t) (wait_queue_compare ths));;
  spinlock_unlock_int (list_lock wait_queue).

(** ** Wake *)

Definition wakeup_thread (t : Z) : SC unit :=
  set_thread_state t THREAD_STATE_NORMAL;;
  sched_put t.

(** The loop of [timeout_wakeup_worker] under the lock: threads at the front
    are woken while they have timed out. *)
Fixpoint timeout_loop (fuel : nat) (n : list_ptr) : SC unit :=
  match n with
  | PNull => mret tt
  | _ =>
      match fuel with
      | O => diverge
      | S fuel' =>
          wait_t ← lift_outcome (thread_of n);
          counter_ms ← on_sc_env env_get_ms;
          th ← get_thread wait_t;
          if counter_ms <? t_wait_timeout_ms th then mret tt else
          on_lists (list_pop_front wait_queue);;
          wakeup_thread wait_t;;
          n ← on_lists (list_front wait_queue);
          timeout_loop fuel' n
      end
  end.

(** One round of [timeout_wakeup_worker]. *)
Definition timeout_wakeup : SC unit :=
  list_access_exclusive wait_queue (
    n ← on_lists (list_front wait_queue);
    fuel ← gets (λ s, size (lnodes (sc_lists s)));
    timeout_loop fuel n).

(** The body of the loops that wake the threads accepted by [f], at most [max]
    of them unless [max] is 0. *)
Definition wake_body (q max : Z) (f : thread → bool) (before : Z → SC unit) (n : list_ptr) (count : Z) : SC (list_ptr * Z * bool) :=
  wait_t ← lift_outcome (thread_of n);
  th ← get_thread wait_t;
  if f th then
    n' ← list_remove_in_foreach q n;
    before wait_t;;
    wakeup_thread wait_t;;
    let count := ulong (count + 1) in
    mret (n', count, ctrue max && (max <=? count))
  else mret (n, count, false).

Definition wakes (p : sproc) (wait_type wait_obj : Z) (th : thread) : bool :=
  (t_wait_type th =? wait_type) && (t_wait_obj th =? wait_obj) && (pr_pid p =? t_pid th).

Definition wake_on_object (p wait_type wait_obj wait_value max_wakeup_count : Z) : SC Z :=
  b ← spinlock_is_locked (list_lock wait_queue);
  panic_if (negb b);;
  do_wakeup ←
    (if wait_type =? WAIT_ON_FUTEX then
       futex ← find_futex p wait_obj;
       if ctrue futex then futex_test futex wait_value false else mret false
     else mret false);
  if (do_wakeup : bool) then
    pr ← get_sproc p;
    foreach wait_queue 0 (wake_body wait_queue max_wakeup_count (wakes pr wait_type wait_obj) (λ _, mret tt))
  else mret 0.

Definition wake_on_object_exclusive (p wait_type wait_obj wait_value max_wakeup_count : Z) : SC Z :=
  list_access_exclusive wait_queue (wake_on_object p wait_type wait_obj wait_value max_wakeup_count).

Definition purge_wait_queue (p : Z) : SC Z :=
  list_access_exclusive wait_queue (
    pr ← get_sproc p;
    foreach wait_queue 0 (wake_body wait_queue 0 (λ th, t_pid th =? pr_pid pr) (λ _, mret tt))).

End Wait.
