(* ===== verification/Ipc.v ===== *)
(** Inter-process communication: [src/src/kernel/proc/ipc.c], and the part of
    [src/src/kernel/syscall/dispatch.c] that puts the calling thread to sleep, back
    into a run queue or to an end, with the handlers of
    [src/src/kernel/syscall/system.c] for waiting, waking and messages. *)

From stdpp Require Import base list gmap.
From Stdlib Require Import ZArith Lia.
From Corelib Require Import ssreflect.
From S2P Require Import Prelude Bits Lock List Sched Wait.

Definition IPC_SEND_SERIAL : Z := 1.
Definition IPC_SEND_POPUP : Z := 2.
Definition IPC_SEND_WAIT_FOR_REPLY : Z := 4.

Definition SYSCALL_HANDLED_SAVE : Z := 1.
Definition SYSCALL_HANDLED_PUT_BACK : Z := 2.
Definition SYSCALL_HANDLED_RESUME : Z := 4.
Definition SYSCALL_HANDLED_EXIT_THREAD : Z := 8.
Definition SYSCALL_HANDLED_SLEEP_THREAD : Z := 16.
Definition SYSCALL_HANDLED_SLEEP_IPC : Z := 32.
Definition SYSCALL_HANDLED_CONTINUE : Z := SYSCALL_HANDLED_RESUME.
Definition SYSCALL_HANDLED_SAVE_RESCHED : Z := Z.lor SYSCALL_HANDLED_SAVE SYSCALL_HANDLED_PUT_BACK.
Definition SYSCALL_HANDLED_SAVE_SLEEP : Z := Z.lor SYSCALL_HANDLED_SAVE SYSCALL_HANDLED_SLEEP_THREAD.
Definition SYSCALL_HANDLED_SAVE_IPC : Z := Z.lor SYSCALL_HANDLED_SAVE SYSCALL_HANDLED_SLEEP_IPC.

Section Ipc.
Context `{Arch} {K : Type} `{SchedEnv K}.
Abbreviation SC := (M (sched_state K)).

Definition has_flag (flags f : Z) : bool := ctrue (Z.land flags f).
Definition ref_inc (v : Z) : Z := ulong (v + 1).
Definition ref_dec (v : Z) : Z := ulong (v - 1).

Definition sleep_ipc_thread (t : Z) : SC unit :=
  b ← spinlock_is_locked (list_lock ipc_wait_queue);
  panic_if (negb b);;
  set_thread_state t THREAD_STATE_WAIT;;
  on_lists (list_push_front ipc_wait_queue (node_wait t));;
  spinlock_unlock_int (list_lock ipc_wait_queue).

Definition get_num_ipc_threads : SC Z := list_access_exclusive ipc_wait_queue (on_lists (get_count ipc_wait_queue)).

Definition ipc_reg_popup_handler (p entry : Z) : SC Z :=
  spinlock_exclusive_int (proc_lock p) (upd_sproc p (set_pr_popup entry);; mret 0).

Definition copy_msg (dst_t src_t : Z) : SC unit := on_sc_env (env_copy_msg dst_t src_t).

(** ** New threads *)

(** [create_thread]: the record of a new thread, whose id is its address. *)
Definition new_thread (tid pid : Z) : thread :=
  mk_thread tid pid THREAD_STATE_ENTER 0 0 0 SCHED_CLASS_NORMAL 0 0 0 0 0 0 SPINLOCK_INIT 1.

Definition new_nodes (t : Z) : gmap list_ptr list_node_t → gmap list_ptr list_node_t :=
  λ m, <[t_node t := mk_node PNull PNull None]> (<[node_sched t := mk_node PNull PNull None]> (<[node_wait t := mk_node PNull PNull None]> (<[node_proc t := mk_node PNull PNull None]> m))).

Definition create_thread (p entry param : Z) : SC Z :=
  t ← on_sc_env (env_create p entry param);
  assert (ctrue t);;
  pr ← get_sproc p;
  modify (upd_sc_threads (<[t := new_thread t (pr_pid pr)]>));;
  modify (upd_sc_lists (upd_lnodes (new_nodes t)));;
  upd_sproc p (upd_pr_ref ref_inc);;
  list_push_back_exclusive threads (t_node t);;
  list_push_back_exclusive (proc_threads p) (node_proc t);;
  mret t.

(** [create_and_run_thread(tid, t, p, entry, param, NULL) { body }]. *)
Definition create_and_run_thread (p entry param : Z) (err : Z) (body : Z → SC Z) : SC Z :=
  tid ← create_thread p entry param;
  if negb (ctrue tid) then mret err else
  r ← acquire_thread tid;
  match r with
  | Some t => err' ← body t; release_thread t;; run_thread t;; mret err'
  | None => mret err
  end.

(** [create_and_run_kernel_thread] for [timeout_wakeup_worker], in the class of the timer. *)
Definition init_wait (timeout_wakeup_worker : Z) : SC unit :=
  on_lists (list_init wait_queue);;
  kp ← gets sc_kernel_proc;
  kpr ← get_sproc kp;
  access_process (pr_pid kpr) tt (λ p,
    create_and_run_thread p timeout_wakeup_worker 0 0 (λ t, upd_thread t (set_sched_class SCHED_CLASS_TIMER);; mret 0);;
    mret tt).

Definition init_ipc : SC unit := on_lists (list_init ipc_wait_queue).

(** ** Requests *)

(** The thread of a waiting queue with the given kind of wait for process [pid]. *)
Definition find_waiting (wait_type pid : Z) : SC (option Z) :=
  find_in ipc_wait_queue (λ cur, th ← get_thread cur; mret ((t_wait_type th =? wait_type) && (t_ipc_pid th =? pid))).

(** [t] waits for a reply of [dst]. *)
Definition link_reply (t dst : Z) : SC unit :=
  d ← get_thread dst;
  upd_thread t (set_ipc_wait (t_pid d) (t_tid d));;
  th ← get_thread t;
  upd_thread dst (set_reply_to (t_pid th) (t_tid th));;
  upd_thread dst (upd_t_ref ref_inc);;
  upd_thread t (upd_t_ref ref_inc).

Definition popup_request (t p popup_entry opcode flags : Z) : SC (Z * bool) :=
  let reply := has_flag flags IPC_SEND_WAIT_FOR_REPLY in
  (if reply then
     spinlock_lock_int (list_lock ipc_wait_queue);;
     upd_thread t (set_wait_type IPC_WAIT_FOR_RESP)
   else mret tt);;
  err ← create_and_run_thread p popup_entry opcode (-1) (λ dst_t,
    (if reply then link_reply t dst_t else mret tt);;
    copy_msg dst_t t;;
    mret 0);
  mret (err, reply).

Definition serial_request (t dst_pid opcode flags : Z) : SC (Z * bool) :=
  spinlock_lock_int (list_lock ipc_wait_queue);;
  r ← find_waiting IPC_WAIT_FOR_SERIAL_REQ dst_pid;
  match r with
  | Some recv_t =>
      on_lists (list_remove ipc_wait_queue (node_wait recv_t));;
      let reply := has_flag flags IPC_SEND_WAIT_FOR_REPLY in
      (if reply then
         upd_thread t (set_wait_type IPC_WAIT_FOR_RESP);;
         link_reply t recv_t
       else spinlock_unlock_int (list_lock ipc_wait_queue));;
      copy_msg recv_t t;;
      on_sc_env (env_set_return recv_t 0 opcode);;
      wakeup_thread recv_t;;
      mret (0, reply)
  | None =>
      upd_thread t (set_wait_type IPC_WAIT_FOR_SERIAL_RECV);;
      upd_thread t (set_ipc_wait dst_pid 0);;
      upd_thread t (set_ipc_opcode opcode (if has_flag flags IPC_SEND_WAIT_FOR_REPLY then 1 else 0));;
      mret (0, true)
  end.

(** The result and [*wait]. *)
Definition ipc_request (t dst_pid0 opcode flags : Z) : SC (Z * bool) :=
  sys ← gets sc_system_pid;
  let dst_pid := if ctrue dst_pid0 then dst_pid0 else sys in
  panic_if (negb (ctrue dst_pid));;
  access_process dst_pid (-1, false) (λ dst_proc,
    popup_entry ← (if has_flag flags IPC_SEND_POPUP
                   then spinlock_exclusive_int (proc_lock dst_proc) (pr ← get_sproc dst_proc; mret (pr_popup pr))
                   else mret 0);
    if has_flag flags IPC_SEND_POPUP && ctrue popup_entry then popup_request t dst_proc popup_entry opcode flags
    else if has_flag flags IPC_SEND_SERIAL then serial_request t dst_pid opcode flags
    else mret (-1, false)).

Definition ipc_respond (t : Z) : SC Z :=
  '(dst_pid, dst_tid) ← spinlock_exclusive_int (thread_lock t) (th ← get_thread t; mret (t_reply_pid th, t_reply_tid th));
  if ctrue dst_pid && ctrue dst_tid then
    r ← list_access_exclusive ipc_wait_queue (
      r ← find_in ipc_wait_queue (λ cur, th ← get_thread cur;
        mret ((t_pid th =? dst_pid) && (t_tid th =? dst_tid) && (t_wait_type th =? IPC_WAIT_FOR_RESP)));
      match r with
      | Some dst_t => on_lists (list_remove ipc_wait_queue (node_wait dst_t));; mret (Some dst_t)
      | None => mret None
      end);
    match r with
    | Some dst_t =>
        copy_msg dst_t t;;
        upd_thread dst_t (upd_t_ref ref_dec);;
        upd_thread t (upd_t_ref ref_dec);;
        wakeup_thread dst_t;;
        mret 0
    | None => mret (-1)
    end
  else mret (-1).

(** The result, [*opcode] and [*wait]. *)
Definition ipc_receive (p t opcode : Z) : SC (Z * Z * bool) :=
  spinlock_lock_int (list_lock ipc_wait_queue);;
  pr ← get_sproc p;
  r ← find_waiting IPC_WAIT_FOR_SERIAL_RECV (pr_pid pr);
  match r with
  | Some sender_t =>
      on_lists (list_remove ipc_wait_queue (node_wait sender_t));;
      copy_msg t sender_t;;
      sd ← get_thread sender_t;
      let opcode := t_ipc_opcode sd in
      (if ctrue (t_ipc_need_response sd) then
         upd_thread sender_t (set_wait_type IPC_WAIT_FOR_RESP);;
         link_reply sender_t t
       else
         on_sc_env (env_set_return sender_t 0 opcode);;
         wakeup_thread sender_t);;
      spinlock_unlock_int (list_lock ipc_wait_queue);;
      mret (0, opcode, false)
  | None =>
      upd_thread t (set_wait_type IPC_WAIT_FOR_SERIAL_REQ);;
      th ← get_thread t;
      upd_thread t (set_ipc_wait (t_pid th) (t_tid th));;
      mret (0, opcode, true)
  end.

(** What [purge_ipc_queue] does with a thread before it wakes it. *)
Definition unlink_reply (wait_t : Z) : SC unit :=
  upd_thread wait_t (upd_t_ref ref_dec);;
  th ← get_thread wait_t;
  if (t_wait_type th =? IPC_WAIT_FOR_RESP) && ctrue (t_ipc_tid th) then
    access_thread (t_ipc_tid th) tt (λ sender_t,
      spinlock_exclusive_int (thread_lock sender_t) (upd_thread sender_t (set_reply_to 0 0));;
      upd_thread sender_t (upd_t_ref ref_dec))
  else mret tt.

Definition purge_ipc_queue (p : Z) : SC Z :=
  list_access_exclusive ipc_wait_queue (
    pr ← get_sproc p;
    foreach ipc_wait_queue 0 (wake_body ipc_wait_queue 0 (λ th, t_pid th =? pr_pid pr) unlink_reply)).

Definition ipc_notify_system (opcode pid : Z) : SC Z :=
  dst_pid ← gets sc_system_pid;
  panic_if (negb (ctrue dst_pid));;
  access_process dst_pid (-1) (λ dst_proc,
    popup_entry ← spinlock_exclusive_int (proc_lock dst_proc) (pr ← get_sproc dst_proc; mret (pr_popup pr));
    if ctrue popup_entry then
      create_and_run_thread dst_proc popup_entry opcode (-1) (λ dst_t, on_sc_env (env_notify_msg dst_t pid);; mret 0)
    else mret (-1)).

(** ** System calls *)

Definition syscall_handler_wait (p t param0 param1 param2 : Z) : SC Z :=
  let wait_type := s32 param0 in
  err ← (if wait_type =? WAIT_ON_TIMEOUT then wait_on_object p t wait_type param1 0 param2
         else if wait_type =? WAIT_ON_FUTEX then wait_on_object p t wait_type param1 param2 0
         else mret 0);
  on_sc_env (env_set_regs t 0 (ulong err));;
  mret (if ctrue err then SYSCALL_HANDLED_CONTINUE else SYSCALL_HANDLED_SAVE_SLEEP).

Definition syscall_handler_wake (p t param0 param1 param2 : Z) : SC Z :=
  let wait_type := s32 param0 in
  count ← (if wait_type =? WAIT_ON_TIMEOUT then wake_on_object_exclusive p wait_type param1 0 param2
           else if wait_type =? WAIT_ON_FUTEX then wake_on_object_exclusive p wait_type param1 param2 0
           else mret 0);
  on_sc_env (env_set_regs t 0 count);;
  mret SYSCALL_HANDLED_CONTINUE.

Definition syscall_handler_thread_yield (t : Z) : SC Z :=
  on_sc_env (env_set_regs t 0 0);; mret SYSCALL_HANDLED_SAVE_RESCHED.

Definition syscall_handler_thread_exit (t : Z) : SC Z :=
  on_sc_env (env_set_regs t 0 0);; mret SYSCALL_HANDLED_EXIT_THREAD.

Definition syscall_handler_ipc_request (t param0 param1 param2 : Z) : SC Z :=
  '(err, wait) ← ipc_request t param0 param1 param2;
  on_sc_env (env_set_regs t err 0);;
  mret (if (wait : bool) then SYSCALL_HANDLED_SAVE_IPC else SYSCALL_HANDLED_CONTINUE).

Definition syscall_handler_ipc_respond (t : Z) : SC Z :=
  err ← ipc_respond t;
  on_sc_env (env_set_regs t err 0);;
  mret SYSCALL_HANDLED_CONTINUE.

Definition syscall_handler_ipc_receive (p t : Z) : SC Z :=
  '(err, opcode, wait) ← ipc_receive p t 0;
  on_sc_env (env_set_regs t err opcode);;
  mret (if (wait : bool) then SYSCALL_HANDLED_SAVE_IPC else SYSCALL_HANDLED_CONTINUE).

Definition exit_thread (t : Z) : SC unit :=
  th ← get_thread t;
  access_process (t_pid th) tt (λ proc,
    on_sc_env (env_free_thread t);;
    list_access_exclusive wait_queue (
      list_remove_exclusive threads (t_node t);;
      list_remove_exclusive (proc_threads proc) (node_proc t);;
      mret tt);;
    upd_thread t (upd_t_ref ref_dec);;
    th ← get_thread t;
    panic_if (negb (t_ref_count th =? 0));;
    modify (upd_sc_threads (delete t));;
    upd_sproc proc (upd_pr_ref ref_dec)).

(** The end of [dispatch]: the thread that runs next, or None when the caller goes on. *)
Definition after_syscall (t handled : Z) : SC (option Z) :=
  let put_back := has_flag handled SYSCALL_HANDLED_PUT_BACK in
  let resume := has_flag handled SYSCALL_HANDLED_RESUME in
  (if has_flag handled SYSCALL_HANDLED_EXIT_THREAD then
     panic_if put_back;; panic_if resume;;
     upd_thread t (upd_t_ref ref_dec);;
     exit_thread t
   else if has_flag handled SYSCALL_HANDLED_SLEEP_THREAD then
     panic_if put_back;; panic_if resume;;
     sleep_thread t
   else if has_flag handled SYSCALL_HANDLED_SLEEP_IPC then
     panic_if put_back;; panic_if resume;;
     sleep_ipc_thread t
   else if put_back then sched_put t
   else mret tt);;
  if resume then mret None else t' ← sched; mret (Some t').

(** The handler runs and the context is saved when it asks for that. *)
Definition handle (handler : Z → Z → SC Z) (p t : Z) : SC Z :=
  handled ← handler p t;
  (if has_flag handled SYSCALL_HANDLED_SAVE then on_sc_env (env_save_context t) else mret tt);;
  mret handled.

(** [dispatch] for a system call of thread [tid]; [handler] is the entry of [handlers]. *)
Definition dispatch (tid : Z) (handler : Z → Z → SC Z) : SC (option Z) :=
  on_sc_env env_service_tlb;;
  r ← access_thread tid None (λ t,
    th ← get_thread t;
    access_process (t_pid th) None (λ p,
      th ← get_thread t;
      pr ← get_sproc p;
      if bool_decide (t_state th = THREAD_STATE_EXIT) then mret (Some (t, SYSCALL_HANDLED_EXIT_THREAD))
      else if bool_decide (pr_state pr = PROCESS_STATE_STOPPED) then
        set_thread_state t THREAD_STATE_EXIT;; mret (Some (t, SYSCALL_HANDLED_EXIT_THREAD))
      else handled ← handle handler p t; mret (Some (t, handled))));
  match r with
  | None => panic
  | Some (t, handled) => after_syscall t handled
  end.

End Ipc.
