(* ===== verification/SchedSpec.v ===== *)
(** The queues of [Sched.v] and [Wait.v] as sequences of threads: which thread is
    in which queue, in which order, and what each operation does to them. *)

From stdpp Require Import base list gmap sorting.
From Stdlib Require Import ZArith Lia.
From Corelib Require Import ssreflect.
From S2P Require Import Prelude Bits Lock List ListSpec ListRep Sched Wait.

(** ** The queues *)

Record queues := mk_queues {
  q_run : Z → list Z;       (* by class *)
  q_wait : list Z;
  q_ipc : list Z;
  q_threads : list Z;
  q_procs : list Z
}.

Definition tn (t : Z) : Z := 4 * t.
Definition ns (t : Z) : Z := 4 * t + 1.
Definition nw (t : Z) : Z := 4 * t + 2.
Definition pn (p : Z) : Z := - p - 1.

Definition set_run (c : Z) (l : list Z) (q : queues) : queues :=
  mk_queues (λ c', if decide (c' = c) then l else q_run q c') (q_wait q) (q_ipc q) (q_threads q) (q_procs q).
Definition set_wait (l : list Z) (q : queues) : queues := mk_queues (q_run q) l (q_ipc q) (q_threads q) (q_procs q).
Definition set_ipc (l : list Z) (q : queues) : queues := mk_queues (q_run q) (q_wait q) l (q_threads q) (q_procs q).

(** A thread enters the back of the run queue of its class. *)
Definition push_run (c t : Z) (q : queues) : queues := set_run c (q_run q c ++ [t]) q.

(** The sequences of nodes in the lists. *)
Definition seqs (q : queues) : gmap Z (list Z) :=
  <[wait_queue := nw <$> q_wait q]> (<[ipc_wait_queue := nw <$> q_ipc q]>
  (<[threads := tn <$> q_threads q]> (<[processes := pn <$> q_procs q]>
  (<[sched_queues 0 := ns <$> q_run q 0]> (<[sched_queues 1 := ns <$> q_run q 1]> (<[sched_queues 2 := ns <$> q_run q 2]>
  (<[sched_queues 3 := ns <$> q_run q 3]> (<[sched_queues 4 := ns <$> q_run q 4]> (<[sched_queues 5 := ns <$> q_run q 5]> ∅))))))))).

Lemma seqs_lookup q l : seqs q !! l =
  if decide (l = wait_queue) then Some (nw <$> q_wait q) else if decide (l = ipc_wait_queue) then Some (nw <$> q_ipc q)
  else if decide (l = threads) then Some (tn <$> q_threads q) else if decide (l = processes) then Some (pn <$> q_procs q)
  else if decide (8 ≤ l < 14) then Some (ns <$> q_run q (l - 8)) else None.
Proof.
  rw /seqs /sched_queues. repeat (destruct (decide (l = _)) as [->|]; [reflexivity|]).
  destruct (decide (8 ≤ l < 14)) as [Hl|Hl].
  - assert (l = 8 ∨ l = 9 ∨ l = 10 ∨ l = 11 ∨ l = 12 ∨ l = 13) as Hc by lia.
    destruct_or! Hc; subst l; reflexivity.
  - rw !lookup_insert_ne //; lia.
Qed.

Lemma seqs_wait q : seqs q !! wait_queue = Some (nw <$> q_wait q).
Proof. by rw seqs_lookup. Qed.
Lemma seqs_ipc q : seqs q !! ipc_wait_queue = Some (nw <$> q_ipc q).
Proof. by rw seqs_lookup. Qed.
Lemma seqs_threads q : seqs q !! threads = Some (tn <$> q_threads q).
Proof. by rw seqs_lookup. Qed.
Lemma seqs_procs q : seqs q !! processes = Some (pn <$> q_procs q).
Proof. by rw seqs_lookup. Qed.
Lemma seqs_run q c : 0 ≤ c < 6 → seqs q !! sched_queues c = Some (ns <$> q_run q c).
Proof.
  intros Hc. rw seqs_lookup /sched_queues /wait_queue /ipc_wait_queue /threads /processes.
  do 4 (rw decide_False; [lia|]). rw decide_True; [lia|]. do 2 f_equal. f_equal. lia.
Qed.

Lemma seqs_set_wait q l : <[wait_queue := nw <$> l]> (seqs q) = seqs (set_wait l q).
Proof. rw /seqs. by rw insert_insert_eq. Qed.

Lemma seqs_set_ipc q l : <[ipc_wait_queue := nw <$> l]> (seqs q) = seqs (set_ipc l q).
Proof.
  apply map_eq. intros k. destruct (decide (k = ipc_wait_queue)) as [->|Hne]; [transitivity (Some (nw <$> l)); [apply lookup_insert_eq|symmetry; apply (seqs_ipc (set_ipc l q))]|].
  rw lookup_insert_ne; [congruence|]. rw !seqs_lookup. repeat case_decide; done.
Qed.

Lemma seqs_set_run q c l : 0 ≤ c < 6 → <[sched_queues c := ns <$> l]> (seqs q) = seqs (set_run c l q).
Proof.
  intros Hc. apply map_eq. intros k. destruct (decide (k = sched_queues c)) as [->|Hne].
  - transitivity (Some (ns <$> l)); [apply lookup_insert_eq|]. rw (seqs_run (set_run c l q)) //. cbn. by rw decide_True.
  - rw lookup_insert_ne; [congruence|]. rw !seqs_lookup. repeat case_decide; try done. cbn. rw decide_False //. intros E. apply Hne. rw /sched_queues -E. lia.
Qed.

Lemma nw_inj : Inj (=) (=) nw.
Proof. intros x y. rw /nw. lia. Qed.
Lemma ns_inj : Inj (=) (=) ns.
Proof. intros x y. rw /ns. lia. Qed.

Lemma elem_of_nw t (l : list Z) : nw t ∈ nw <$> l ↔ t ∈ l.
Proof. rw list_elem_of_fmap. split; [intros (x & E & Hx); by apply nw_inj in E as ->|eauto]. Qed.
Lemma elem_of_ns t (l : list Z) : ns t ∈ ns <$> l ↔ t ∈ l.
Proof. rw list_elem_of_fmap. split; [intros (x & E & Hx); by apply ns_inj in E as ->|eauto]. Qed.

(** A node of a thread is in the queues of its kind only. *)
Lemma unlinked_sched q t : 0 ≤ t → (∀ p, p ∈ q_procs q → 0 ≤ p) → (∀ c, 0 ≤ c < 6 → t ∉ q_run q c) → unlinked (ns t) (seqs q).
Proof.
  intros Ht Hp Hr l xs. rw seqs_lookup. repeat case_decide; intros [= <-]; rw ?elem_of_ns.
  - rw list_elem_of_fmap. intros (x & E & _). rw /ns /nw in E. lia.
  - rw list_elem_of_fmap. intros (x & E & _). rw /ns /nw in E. lia.
  - rw list_elem_of_fmap. intros (x & E & _). rw /ns /tn in E. lia.
  - rw list_elem_of_fmap. intros (x & E & Hx). apply Hp in Hx. rw /ns /pn in E. lia.
  - apply Hr. lia.
Qed.

Lemma unlinked_wait q t : 0 ≤ t → (∀ p, p ∈ q_procs q → 0 ≤ p) → t ∉ q_wait q → t ∉ q_ipc q → unlinked (nw t) (seqs q).
Proof.
  intros Ht Hp Hw Hi l xs. rw seqs_lookup. repeat case_decide; intros [= <-]; rw ?elem_of_nw //.
  - rw list_elem_of_fmap. intros (x & E & _). rw /nw /tn in E. lia.
  - rw list_elem_of_fmap. intros (x & E & Hx). apply Hp in Hx. rw /nw /pn in E. lia.
  - rw list_elem_of_fmap. intros (x & E & _). rw /ns /nw in E. lia.
Qed.

Lemma thread_of_sched t : thread_of (PNode (ns t)) = Ret t.
Proof. cbn. f_equal. rw /ns. symmetry. apply (Z.div_unique_pos _ 4 t 1); lia. Qed.
Lemma thread_of_wait t : thread_of (PNode (nw t)) = Ret t.
Proof. cbn. f_equal. rw /nw. symmetry. apply (Z.div_unique_pos _ 4 t 2); lia. Qed.
Lemma thread_of_node t : thread_of (PNode (tn t)) = Ret t.
Proof. cbn. f_equal. rw /tn. symmetry. apply (Z.div_unique_pos _ 4 t 0); lia. Qed.

(** ** The invariant *)

Definition timeout_of (ths : gmap Z thread) (t : Z) : Z := default 0 (t_wait_timeout_ms <$> ths !! t).
Definition earlier (ths : gmap Z thread) (a b : Z) : Prop := timeout_of ths a ≤ timeout_of ths b.

Record threads_ok (ths : gmap Z thread) (h : list_heap) (q : queues) : Prop := {
  to_thread : ∀ t th, ths !! t = Some th → 0 ≤ t ∧ 0 ≤ t_sched_class th < 6 ∧ t_lock th = SPINLOCK_INIT ∧ live h (PNode (ns t)) ∧ live h (PNode (nw t));
  to_run : ∀ c t, 0 ≤ c < 6 → t ∈ q_run q c → ∃ th, ths !! t = Some th ∧ t_state th = THREAD_STATE_NORMAL ∧ t_sched_class th = c;
  to_wait : ∀ t, t ∈ q_wait q ∨ t ∈ q_ipc q → ∃ th, ths !! t = Some th ∧ t_state th = THREAD_STATE_WAIT;
  to_procs : ∀ p, p ∈ q_procs q → 0 ≤ p;
  to_sorted : StronglySorted (earlier ths) (q_wait q)
}.

Lemma threads_ok_live ths h h' q : (∀ p, live h' p ↔ live h p) → threads_ok ths h q → threads_ok ths h' q.
Proof.
  intros Hl [T1 T2 T3 T4 T5]. split; try done. intros t th Ht. destruct (T1 t th Ht) as (? & ? & ? & ? & ?). by rw !Hl.
Qed.

Lemma sorted_ext (R R' : Z → Z → Prop) l : (∀ x y, x ∈ l → y ∈ l → R x y → R' x y) → StronglySorted R l → StronglySorted R' l.
Proof.
  intros HR Hs. induction Hs as [|x l Hs IH Hall]; [constructor|]. constructor.
  - apply IH. intros y z Hy Hz. apply HR; by right.
  - apply Forall_forall. intros y Hy. apply HR; [by left|by right|]. by apply (proj1 (Forall_forall _ _) Hall).
Qed.

(** Changing one thread. *)
Lemma threads_ok_alter f t ths h q : (∀ th, t_sched_class (f th) = t_sched_class th ∧ t_lock (f th) = t_lock th) →
  (∀ th, ths !! t = Some th → (∃ c, 0 ≤ c < 6 ∧ t ∈ q_run q c) ∨ t ∈ q_wait q ∨ t ∈ q_ipc q → t_state (f th) = t_state th) →
  (∀ th, ths !! t = Some th → t ∈ q_wait q → t_wait_timeout_ms (f th) = t_wait_timeout_ms th) →
  threads_ok ths h q → threads_ok (alter f t ths) h q.
Proof.
  intros Hf Hst Htm [T1 T2 T3 T4 T5].
  assert (∀ x th, ths !! x = Some th → ∃ th', alter f t ths !! x = Some th' ∧ t_sched_class th' = t_sched_class th ∧
    ((∃ c, 0 ≤ c < 6 ∧ x ∈ q_run q c) ∨ x ∈ q_wait q ∨ x ∈ q_ipc q → t_state th' = t_state th)) as Hfw.
  { intros x th Hx. destruct (decide (x = t)) as [->|Hne]; [rw lookup_alter_eq Hx|rw lookup_alter_ne; [congruence|]; eauto].
    exists (f th). split; [done|]. split; [apply Hf|]. by apply Hst. }
  split; [|intros c x Hc Hx|intros x Hx|done|].
  - intros x th'. destruct (decide (x = t)) as [->|Hne]; [rw lookup_alter_eq|rw lookup_alter_ne; [congruence|]; apply T1].
    destruct (ths !! t) as [th|] eqn:Ht; [|done]. intros [= <-]. destruct (Hf th) as [-> ->]. by apply T1.
  - destruct (T2 c x Hc Hx) as (th & Ht & Hs & Hcl). destruct (Hfw x th Ht) as (th' & Ht' & Hcl' & Hs'). exists th'. rw Hcl' Hs'; [left; eauto|done].
  - destruct (T3 x Hx) as (th & Ht & Hs). destruct (Hfw x th Ht) as (th' & Ht' & _ & Hs'). exists th'. rw Hs'; [tauto|done].
  - assert (∀ x, x ∈ q_wait q → timeout_of (alter f t ths) x = timeout_of ths x) as Hto.
    { intros x Hx. rw /timeout_of. destruct (decide (x = t)) as [->|Hne]; [rw lookup_alter_eq|by rw lookup_alter_ne; [congruence|]].
      destruct (ths !! t) as [th|] eqn:Ht; [|done]. cbn. by apply Htm. }
    eapply sorted_ext; [|exact T5]. intros x y Hx Hy. rw /earlier. by rw !Hto.
Qed.

Lemma threads_ok_queues ths h q q' : threads_ok ths h q → q_procs q' = q_procs q → (∀ c t, 0 ≤ c < 6 → t ∈ q_run q' c → t ∈ q_run q c ∨
    ∃ th, ths !! t = Some th ∧ t_state th = THREAD_STATE_NORMAL ∧ t_sched_class th = c) →
  (∀ t, t ∈ q_wait q' ∨ t ∈ q_ipc q' → (t ∈ q_wait q ∨ t ∈ q_ipc q) ∨ ∃ th, ths !! t = Some th ∧ t_state th = THREAD_STATE_WAIT) →
  StronglySorted (earlier ths) (q_wait q') → threads_ok ths h q'.
Proof.
  intros [T1 T2 T3 T4 T5] Hp Hr Hw Hs. split; [done| | |by rw Hp|done].
  - intros c t Hc Ht. destruct (Hr c t Hc Ht) as [?|?]; auto.
  - intros t Ht. destruct (Hw t Ht) as [?|?]; auto.
Qed.

Lemma sorted_sublist {R : Z → Z → Prop} l l' : sublist l l' → StronglySorted R l' → StronglySorted R l.
Proof.
  intros Hs. induction Hs as [|x l l' Hs IH|x l l' Hs IH]; [done| |]; intros [Hs' Hall]%StronglySorted_inv; [|auto].
  constructor; [auto|]. apply Forall_forall. intros y Hy. apply (proj1 (Forall_forall _ _) Hall). clear -Hs Hy. by apply (sublist_subseteq _ _ Hs).
Qed.

Section Spec.
Context `{Harch : Arch} {K : Type} `{Henv : SchedEnv K}.
Implicit Types (s : sched_state K) (q : queues) (lk : Z → spinlock_t) (t c : Z).

Definition sched_inv s q lk : Prop := rep (sc_lists s) (seqs q) lk ∧ threads_ok (sc_threads s) (sc_lists s) q.

(** No run queue is locked. *)
Definition runs_free lk : Prop := ∀ c, 0 ≤ c < 6 → lk (sched_queues c) = SPINLOCK_INIT.

Lemma runs_free_at lk l v : (∀ c, 0 ≤ c < 6 → sched_queues c ≠ l) → runs_free lk → runs_free (lock_at lk l v).
Proof. intros Hl Hf c Hc. rw lock_at_other; auto. Qed.

Lemma runs_free_unlocked : runs_free unlocked.
Proof. done. Qed.

(** *** Threads *)

#[export] Instance thread_lock_laws t : LockLaws (S := sched_state K) (thread_lock t).
Proof.
  split; cbn.
  - intros v s [w Hw]. rw lookup_alter_eq. destruct (sc_threads s !! t); done.
  - intros v w s. rw /upd_sc_threads /=. f_equal. rw alter_alter_eq. done.
  - intros v s Hv. rw /upd_sc_threads. destruct s as [L I T P kp sp k]. cbn in *. f_equal.
    apply alter_id. intros th Ht. rw Ht in Hv. injection Hv as <-. by destruct th.
  - done.
  - done.
  - done.
Qed.

Lemma wp_get_thread s t th (Q : thread → sched_state K → Prop) : sc_threads s !! t = Some th → Q th s → wp (get_thread t) Q s.
Proof. intros E HQ. eapply wp_deref; [exact E|exact HQ]. Qed.

Lemma wp_upd_thread s t f (Q : unit → sched_state K → Prop) : is_Some (sc_threads s !! t) → Q tt (upd_sc_threads (alter f t) s) → wp (upd_thread t f) Q s.
Proof. intros [th Ht] HQ. rw /upd_thread. wp_step. eapply wp_get_thread; [exact Ht|]. by wp_step. Qed.

(** A critical section of a thread that updates it. *)
Lemma wp_thread_exclusive s t th f (body : M (sched_state K) unit) (Q : unit → sched_state K → Prop) : sc_threads s !! t = Some th → t_lock th = SPINLOCK_INIT →
  (∀ v th', t_lock (f (set_t_lock v th')) = v) → (∀ v th', set_t_lock v (f th') = f (set_t_lock v th')) →
  (∀ s1 (R : unit → sched_state K → Prop), is_Some (sc_threads s1 !! t) → sc_lists s1 = sc_lists s → sc_env s1 = sc_env s →
     sc_threads s1 !! t = Some (set_t_lock (mk_spinlock true (sc_int s)) th) →
     (R tt (upd_sc_threads (alter f t) s1)) → wp body R s1) →
  Q tt (upd_sc_threads (alter f t) s) → wp (spinlock_exclusive_int (thread_lock t) body) Q s.
Proof.
  intros Ht Hl Hf1 Hf2 Hb HQ. eapply (wp_spinlock_exclusive_int (thread_lock t)); [cbn; by rw Ht /= Hl|done|].
  rw /locked_state. cbn [thread_lock lk_set lk_get]. apply Hb; [rw /= lookup_alter_eq Ht; eauto|done|done|by rw /= lookup_alter_eq Ht|].
  cbn. rw !lookup_alter_eq Ht. split; [cbn; by rw Hf1|]. split; [done|]. revert HQ. rw /upd_sc_threads /set_sc_int /=.
  assert (alter (set_t_lock SPINLOCK_INIT) t (alter f t (alter (set_t_lock (mk_spinlock true (sc_int s))) t (sc_threads s))) = alter f t (sc_threads s)) as ->; [|done].
  apply map_eq. intros x. destruct (decide (x = t)) as [->|Hne]; [|by rw !lookup_alter_ne; [congruence..|]].
  rw !lookup_alter_eq Ht. cbn. f_equal. rw Hf2. f_equal. rw -Hl. by destruct th.
Qed.

Lemma wp_set_thread_state s t th st (Q : unit → sched_state K → Prop) : sc_threads s !! t = Some th → t_lock th = SPINLOCK_INIT → valid_transition (t_state th) st = true →
  Q tt (upd_sc_threads (alter (set_state st) t) s) → wp (set_thread_state t st) Q s.
Proof.
  intros Ht Hl Hv HQ. rw /set_thread_state. eapply (wp_thread_exclusive s t th (set_state st)); [exact Ht|exact Hl|done|done| |exact HQ].
  intros s1 R Hs1 _ _ Ht1 HR. wp_step. eapply wp_get_thread; [exact Ht1|]. wp_step. wp_step; [cbn; by rw Hv|]. by apply wp_upd_thread.
Qed.

(** *** Run queues *)

Lemma wp_sched_put s q lk t th (Q : unit → sched_state K → Prop) : sched_inv s q lk → runs_free lk → sc_threads s !! t = Some th →
  t_state th = THREAD_STATE_NORMAL → (∀ c, 0 ≤ c < 6 → t ∉ q_run q c) →
  (∀ g, sched_inv (upd_sc_lists (λ _, g) s) (push_run (t_sched_class th) t q) lk → (∀ p, live g p ↔ live (sc_lists s) p) → Q tt (upd_sc_lists (λ _, g) s)) →
  wp (sched_put t) Q s.
Proof.
  intros [Hr Hok] Hf Ht Hst Hn HQ. destruct (to_thread _ _ _ Hok t th Ht) as (Ht0 & Hc & _ & Hlv & _). rw /sched_put.
  wp_step. eapply wp_get_thread; [exact Ht|]. wp_step. wp_step; [rw bool_decide_eq_true_2 //|]. wp_step. wp_step; [apply Z.leb_gt; rw /NUM_SCHED_CLASSES; lia|].
  wp_step. rw (proj2 (Z.ltb_ge (t_sched_class th) 0)); [lia|]. wp_step; [done|].
  eapply (wp_push_back_at s (seqs q) lk); [exact Hr|by apply seqs_run|by apply Hf|done|apply unlinked_sched; [done|apply (to_procs _ _ _ Hok)|done]|].
  intros g [Hr' Hl']. apply HQ; [|done]. rw -(fmap_app ns _ [t]) seqs_set_run // in Hr'. split; [done|].
  apply (threads_ok_live _ (sc_lists s)); [done|]. eapply threads_ok_queues; [exact Hok|done| |by left|apply (to_sorted _ _ _ Hok)].
  intros c x Hc'. cbn. destruct (decide (c = t_sched_class th)) as [->|]; [|by left]. rw elem_of_app list_elem_of_singleton. intros [?| ->]; [by left|right]. eauto.
Qed.

(** A waiting thread that has left its queue runs again. *)
Lemma wp_wakeup_thread s q lk t th (Q : unit → sched_state K → Prop) : sched_inv s q lk → runs_free lk → sc_threads s !! t = Some th →
  t_state th = THREAD_STATE_WAIT → t ∉ q_wait q → t ∉ q_ipc q →
  (∀ g, let s' := upd_sc_lists (λ _, g) (upd_sc_threads (alter (set_state THREAD_STATE_NORMAL) t) s) in
     sched_inv s' (push_run (t_sched_class th) t q) lk → (∀ p, live g p ↔ live (sc_lists s) p) → Q tt s') →
  wp (wakeup_thread t) Q s.
Proof.
  intros [Hr Hok] Hf Ht Hst Hn1 Hn2 HQ. destruct (to_thread _ _ _ Hok t th Ht) as (_ & _ & Hl & _).
  assert (∀ c, 0 ≤ c < 6 → t ∉ q_run q c) as Hn.
  { intros c Hc Hin. destruct (to_run _ _ _ Hok c t Hc Hin) as (th' & Ht' & Hs' & _). congruence. }
  rw /wakeup_thread. wp_step. eapply wp_set_thread_state; [exact Ht|exact Hl|by rw Hst|].
  eapply (wp_sched_put _ q lk t (set_state THREAD_STATE_NORMAL th)); [|done|by rw /= lookup_alter_eq Ht|done|done|].
  - split; [done|]. apply threads_ok_alter; [done| |done|done]. intros th' _ [(c & Hc & Hin)|[?|?]]; [by destruct (Hn c)|done..].
  - exact HQ.
Qed.

Lemma threads_ok_fewer ths h q c l : (∀ x, x ∈ l → x ∈ q_run q c) → threads_ok ths h q → threads_ok ths h (set_run c l q).
Proof.
  intros Hl Hok. eapply threads_ok_queues; [exact Hok|done| |by left|apply (to_sorted _ _ _ Hok)].
  intros c' x Hc'. cbn. case_decide; [subst c'|by left]. left. by apply Hl.
Qed.

(** The number of threads fits into the counters of the queues. *)
Definition counts_fit q : Prop := ∀ c, 0 ≤ c < 6 → Z.of_nat (length (q_run q c)) < 2 ^ ARCH_WIDTH.

Lemma wp_pick s q lk c (Q : option Z → sched_state K → Prop) : sched_inv s q lk → runs_free lk → 0 ≤ c < 6 → counts_fit q →
  (∀ g, let s' := upd_sc_lists (λ _, g) s in sched_inv s' (set_run c (tail (q_run q c)) q) lk → Q (head (q_run q c)) s') →
  wp (_pick_from_sched_queue c) Q s.
Proof.
  intros [Hr Hok] Hf Hc Hfit HQ. rw /_pick_from_sched_queue. wp_step.
  eapply (wp_count_at s (seqs q) lk); [exact Hr|by apply seqs_run|by apply Hf|]. intros g [Hg Hlg].
  assert (ulong (Z.of_nat (length (ns <$> q_run q c))) = Z.of_nat (length (q_run q c))) as ->.
  { rw length_fmap. apply wrap_small. specialize (Hfit c Hc). rw /uint. lia. }
  destruct (q_run q c) as [|t l] eqn:El.
  - cbn. apply HQ. split; [|apply (threads_ok_live _ (sc_lists s)); [done|]; apply threads_ok_fewer; [by intros x ?%elem_of_nil|done]].
    change (rep g (seqs (set_run c [] q)) lk). rw -seqs_set_run // insert_id //. rw seqs_run // El //.
  - assert (ctrue (Z.of_nat (length (t :: l))) = true) as -> by reflexivity. cbn [negb]. wp_step. eapply (wp_pop_front_at _ (seqs q) lk); [exact Hg|by apply seqs_run|by apply Hf|]. intros g' [Hg' Hlg'].
    rw El /=. wp_step. wp_step; [apply thread_of_sched|]. wp_step. apply HQ. rw El /= seqs_set_run // in Hg'. split; [done|].
    apply (threads_ok_live _ (sc_lists s)); [intros p; by rw Hlg' Hlg|]. apply threads_ok_fewer; [|done]. intros x Hx. rw El. by right.
Qed.
End Spec.

(** ** What the rest of the kernel promises *)

(** [env_le k k']: the rest of the machine goes from [k] to [k'].  The clock never
    goes back, and a mapped futex can be read; what is read is the word of that
    moment, and nothing says that it stays. *)
Class SchedEnvLaws (K : Type) `{SchedEnv K} := {
  env_le : K → K → Prop;
  env_time : K → Z;
  env_readable : Z → Prop;
  env_word : K → Z → Z;
  env_map : K → Z → Z → Z;
  env_le_pre : PreOrder env_le;
  env_le_time : ∀ k k', env_le k k' → env_time k ≤ env_time k';
  env_get_ms_ok : ∀ k, wp env_get_ms (λ ms k', env_le k k' ∧ env_time k ≤ ms ≤ env_time k') k;
  env_translate_ok : ∀ k pt a, wp (env_translate pt a) (λ paddr k', paddr = env_map k pt a ∧ env_le k k' ∧ (paddr ≠ 0 → env_readable (env_cast_paddr paddr))) k;
  env_read_word_ok : ∀ k a, env_readable a → wp (env_read_word a) (λ v k', v = env_word k a ∧ env_le k k') k;
  env_copy_msg_ok : ∀ k d u, wp (env_copy_msg d u) (λ _ k', env_le k k') k;
  env_set_return_ok : ∀ k t a b, wp (env_set_return t a b) (λ _ k', env_le k k') k;
  env_set_regs_ok : ∀ k t a b, wp (env_set_regs t a b) (λ _ k', env_le k k') k;
  env_save_context_ok : ∀ k t, wp (env_save_context t) (λ _ k', env_le k k') k;
  env_service_tlb_ok : ∀ k, wp env_service_tlb (λ _ k', env_le k k') k
}.
#[export] Existing Instance env_le_pre.
#[export] Hint Resolve env_le_time : kernel.

Section Laws.
Context `{Harch : Arch} {K : Type} `{Henv : SchedEnv K} `{!SchedEnvLaws K}.
Implicit Types (s : sched_state K) (q : queues) (lk : Z → spinlock_t) (t c : Z).

Lemma wp_sc_env {X} (m : M K X) (Q : X → sched_state K → Prop) s : wp m (λ a k, Q a (set_sc_env k s)) (sc_env s) → wp (on_sc_env m) Q s.
Proof. apply wp_zoom. Qed.

Lemma wp_get_ms s (Q : Z → sched_state K → Prop) : (∀ ms k, env_le (sc_env s) k → env_time (sc_env s) ≤ ms ≤ env_time k → Q ms (set_sc_env k s)) → wp (on_sc_env env_get_ms) Q s.
Proof. intros HQ. apply wp_sc_env. eapply wp_mono; [apply env_get_ms_ok|]. intros ms k [Hl Hk]. by apply HQ. Qed.

(** When the first waiting thread times out. *)
Definition next_ready s q : Z := match q_wait q with t :: _ => timeout_of (sc_threads s) t | [] => 2 ^ 64 - 1 end.

(** Only lists and the rest of the kernel have changed. *)
Definition quiet s s' : Prop := ∃ g k, env_le (sc_env s) k ∧ s' = upd_sc_lists (λ _, g) (set_sc_env k s).

Lemma quiet_lists s g : quiet s (upd_sc_lists (λ _, g) s).
Proof. exists g, (sc_env s). split; [reflexivity|]. by destruct s. Qed.

Lemma quiet_trans s1 s2 s3 : quiet s1 s2 → quiet s2 s3 → quiet s1 s3.
Proof. intros (g & k & Hk & ->) (g' & k' & Hk' & ->). exists g', k'. split; [by transitivity k|done]. Qed.

Lemma wp_ready s q lk (Q : bool → sched_state K → Prop) : sched_inv s q lk → lk wait_queue = SPINLOCK_INIT →
  (∀ ms s', quiet s s' → env_time (sc_env s) ≤ ms ≤ env_time (sc_env s') → sched_inv s' q lk → Q (next_ready s q <=? ms) s') →
  wp is_wait_queue_ready Q s.
Proof.
  intros [Hr Hok] Hlk HQ. rw /is_wait_queue_ready. wp_step. apply wp_get_ms. intros ms k Hle Hk. wp_step.
  eapply (wp_access_at _ _ _ _ (seqs q) lk); [exact Hr|apply seqs_wait|exact Hlk|]. cbn -[wait_queue].
  wp_step. apply wp_on_lists. cbn -[wait_queue]. eapply (wp_rep_front _ (seqs q)); [apply rep_lock_at; exact Hr|apply seqs_wait|by rw lock_at_same|].
  assert (∀ g s', s' = upd_sc_lists (λ _, g) (set_sc_env k s) → rep g (seqs q) lk → (∀ p, live g p ↔ live (sc_lists s) p) →
    Q (next_ready s q <=? ms) s') as Hfin.
  { intros g s' -> Hg Hl. apply HQ; [by exists g, k|done|]. split; [done|]. by apply (threads_ok_live _ (sc_lists s)). }
  assert (∀ b, b = (next_ready s q <=? ms) → false = false ∧ ∃ m' xs', rep (lk_set (heap_lock wait_queue) (mk_spinlock true (sc_int s)) (sc_lists s)) m'
    (lock_at lk wait_queue (mk_spinlock true (sc_int s))) ∧ m' !! wait_queue = Some xs' ∧
    Q b (set_sc_int (sc_int s) (upd_sc_lists (λ _, lk_set (heap_lock wait_queue) SPINLOCK_INIT (lk_set (heap_lock wait_queue) (mk_spinlock true (sc_int s)) (sc_lists s))) (set_sc_env k s)))) as Hend.
  { intros b ->. split; [done|]. eexists _, _. split; [exact (rep_lock_at _ _ _ wait_queue _ Hr)|]. split; [apply seqs_wait|]. eapply Hfin; [done| |done].
    eapply rep_unlock_at; [exact Hlk|exact (rep_lock_at _ _ _ wait_queue _ Hr)]. }
  rw /next_ready in Hend. destruct (q_wait q) as [|t l] eqn:El; cbn -[wait_queue].
  - by apply Hend.
  - destruct (to_wait _ _ _ Hok t ltac:(left; rw El; by left)) as (th & Ht & _). wp_step. wp_step; [apply (thread_of_wait t)|]. wp_step. eapply wp_get_thread; [exact Ht|].
    wp_step. rw /timeout_of Ht in Hend. by apply Hend.
Qed.

Lemma set_run_same s q lk c : 0 ≤ c < 6 → sched_inv s (set_run c (q_run q c) q) lk → sched_inv s q lk.
Proof.
  intros Hc [Hr Hok]. split.
  - rw -seqs_set_run // insert_id // in Hr. by apply seqs_run.
  - eapply threads_ok_queues; [exact Hok|done| |by left|apply (to_sorted _ _ _ Hok)]. intros c' x _ Hx. left. cbn. by case_decide; [subst|].
Qed.

Lemma wp_pick_cases s q lk c (Q : option Z → sched_state K → Prop) : sched_inv s q lk → runs_free lk → 0 ≤ c < 6 → counts_fit q →
  (∀ s', quiet s s' → match q_run q c with [] => sched_inv s' q lk → Q None s' | t :: l => sched_inv s' (set_run c l q) lk → Q (Some t) s' end) →
  wp (_pick_from_sched_queue c) Q s.
Proof.
  intros HI Hf Hc Hfit HQ. eapply wp_pick; [exact HI|done|done|done|]. intros g s' HI'. specialize (HQ _ (quiet_lists s g)).
  destruct (q_run q c) as [|t l] eqn:El; apply HQ; [|done]. apply (set_run_same _ q lk c); [done|]. by rw El.
Qed.

(** The order of the classes, with the timer's only when a thread is due. *)
Definition classes (ready : bool) : list Z :=
  [SCHED_CLASS_REAL_TIME; SCHED_CLASS_INTERRUPT] ++ (if ready then [SCHED_CLASS_TIMER] else []) ++ [SCHED_CLASS_NORMAL; SCHED_CLASS_IDLE].

(** The first thread of the first class that has one. *)
Fixpoint first_of q (cs : list Z) : option (Z * Z) :=
  match cs with
  | [] => None
  | c :: cs' => match q_run q c with t :: _ => Some (c, t) | [] => first_of q cs' end
  end.

Lemma first_of_app q cs cs' : first_of q (cs ++ cs') = match first_of q cs with Some x => Some x | None => first_of q cs' end.
Proof. induction cs as [|c cs IH]; [done|]. cbn. by destruct (q_run q c). Qed.

(** What is known when the classes [cs] have been tried. *)
Definition tried s q lk (cs : list Z) (r : option Z) s' : Prop := quiet s s' ∧
  match r with
  | None => first_of q cs = None ∧ sched_inv s' q lk
  | Some t => ∃ c, first_of q cs = Some (c, t) ∧ sched_inv s' (set_run c (tail (q_run q c)) q) lk
  end.

Lemma wp_or_pick_quiet s q lk cs c r s1 : runs_free lk → 0 ≤ c < 6 → counts_fit q → tried s q lk cs r s1 →
  wp (or_pick r (_pick_from_sched_queue c)) (λ r' s', quiet s1 s' ∧ tried s q lk (cs ++ [c]) r' s') s1.
Proof.
  intros Hf Hc Hfit [Hq Hr]. destruct r as [t|]; cbn [or_pick].
  - wp_step. split; [exists (sc_lists s1), (sc_env s1); split; [reflexivity|by destruct s1]|]. split; [done|]. destruct Hr as (c' & Hfi & HI). exists c'. by rw first_of_app Hfi.
  - destruct Hr as [Hfi HI]. eapply wp_pick_cases; [exact HI|done|done|done|]. intros s2 Hq2. destruct (q_run q c) as [|t l] eqn:El; intros HI2; (split; [done|]).
    + split; [exact (quiet_trans _ _ _ Hq Hq2)|]. by rw first_of_app Hfi /= El.
    + split; [exact (quiet_trans _ _ _ Hq Hq2)|]. exists c. by rw first_of_app Hfi /= El.
Qed.

(** The readiness that decided, at a time [ms] of the clock between [s] and [s']; it counts only when no more urgent thread was there. *)
Definition due s q (ready : bool) s' : Prop := ∃ ms, env_time (sc_env s) ≤ ms ≤ env_time (sc_env s') ∧
  (first_of q [SCHED_CLASS_REAL_TIME; SCHED_CLASS_INTERRUPT] = None → ready = (next_ready s q <=? ms)).

Lemma quiet_time s s' : quiet s s' → env_time (sc_env s) ≤ env_time (sc_env s').
Proof. intros (g & k & Hk & ->). by apply env_le_time. Qed.

Lemma due_later s q ready s1 s2 : due s q ready s1 → quiet s1 s2 → due s q ready s2.
Proof. intros (ms & Hms & Hr) Hq%quiet_time. exists ms. split; [lia|done]. Qed.

Lemma tried_quiet s q lk cs r s' : tried s q lk cs r s' → quiet s s'.
Proof. by intros [? _]. Qed.

Lemma wp_or_pick_due s q lk cs ready c r s1 : runs_free lk → 0 ≤ c < 6 → counts_fit q → due s q ready s1 → tried s q lk cs r s1 →
  wp (or_pick r (_pick_from_sched_queue c)) (λ r' s', due s q ready s' ∧ tried s q lk (cs ++ [c]) r' s') s1.
Proof.
  intros Hf Hc Hfit Hd Ht. eapply wp_mono; [exact (wp_or_pick_quiet s q lk cs c r s1 Hf Hc Hfit Ht)|].
  intros r' s' [Hq Ht']. split; [exact (due_later _ _ _ _ _ Hd Hq)|done].
Qed.

Lemma wp_or_pick_timer s q lk r s1 : runs_free lk → lk wait_queue = SPINLOCK_INIT → counts_fit q →
  tried s q lk [SCHED_CLASS_REAL_TIME; SCHED_CLASS_INTERRUPT] r s1 →
  wp (or_pick r _pick_from_sched_queue_timer) (λ r' s', ∃ ready, due s q ready s' ∧
    tried s q lk ([SCHED_CLASS_REAL_TIME; SCHED_CLASS_INTERRUPT] ++ if ready then [SCHED_CLASS_TIMER] else []) r' s') s1.
Proof.
  intros Hf Hlk Hfit [Hq Hr]. destruct r as [t|]; cbn [or_pick].
  - wp_step. destruct Hr as (c & Hfi & HI). exists true. split; [|split; [done|]; exists c; by rw first_of_app Hfi].
    apply quiet_time in Hq. exists (env_time (sc_env s)). split; [lia|]. by rw Hfi.
  - destruct Hr as [Hfi HI]. rw /_pick_from_sched_queue_timer. wp_step. eapply wp_ready; [exact HI|done|]. intros ms s2 Hq2 Hms HI2.
    assert (next_ready s1 q = next_ready s q) as En by (destruct Hq as (g & k & _ & ->); done).
    assert (due s q (next_ready s1 q <=? ms) s2) as Hdue by (exists ms; pose proof (quiet_time _ _ Hq); split; [lia|by rw En]).
    destruct (next_ready s1 q <=? ms).
    + eapply wp_pick_cases; [exact HI2|done|done|done|]. intros s3 Hq3. pose proof (quiet_trans _ _ _ (quiet_trans _ _ _ Hq Hq2) Hq3) as Hq13.
      pose proof (due_later _ _ _ _ _ Hdue Hq3) as Hdue3. destruct (q_run q SCHED_CLASS_TIMER) as [|t l] eqn:El; intros HI3; exists true; (split; [done|]; split; [done|]).
      * by rw first_of_app Hfi /= El.
      * exists SCHED_CLASS_TIMER. by rw first_of_app Hfi /= El.
    + wp_step. exists false. split; [done|]. split; [exact (quiet_trans _ _ _ Hq Hq2)|]. split; [exact Hfi|done].
Qed.

(** The thread [t] that runs next is the first of the first class that has one. *)
Definition sched_post s q lk (t : Z) s' : Prop := quiet s s' ∧ ∃ ready c, due s q ready s' ∧
  first_of q (classes ready) = Some (c, t) ∧ sched_inv s' (set_run c (tail (q_run q c)) q) lk.

Lemma wp_sched_classes s q lk : sched_inv s q lk → runs_free lk → lk wait_queue = SPINLOCK_INIT → counts_fit q →
  wp (t ← _pick_from_sched_queue SCHED_CLASS_REAL_TIME; t ← or_pick t (_pick_from_sched_queue SCHED_CLASS_INTERRUPT);
      t ← or_pick t _pick_from_sched_queue_timer; t ← or_pick t (_pick_from_sched_queue SCHED_CLASS_NORMAL);
      or_pick t (_pick_from_sched_queue SCHED_CLASS_IDLE)) (λ r s', ∃ ready, due s q ready s' ∧ tried s q lk (classes ready) r s') s.
Proof.
  intros HI Hf Hlk Hfit. assert (tried s q lk [] None s) as T0 by (split; [exists (sc_lists s), (sc_env s); split; [reflexivity|by destruct s]|done]).
  wp_step. eapply wp_mono; [exact (wp_or_pick_quiet s q lk [] SCHED_CLASS_REAL_TIME None s Hf ltac:(done) Hfit T0)|]. intros r1 s1 [_ T1].
  wp_step. eapply wp_mono; [exact (wp_or_pick_quiet s q lk _ SCHED_CLASS_INTERRUPT r1 s1 Hf ltac:(done) Hfit T1)|]. intros r2 s2 [_ T2].
  wp_step. eapply wp_mono; [exact (wp_or_pick_timer s q lk r2 s2 Hf Hlk Hfit T2)|]. intros r3 s3 (ready & D3 & T3).
  wp_step. eapply wp_mono; [exact (wp_or_pick_due s q lk _ ready SCHED_CLASS_NORMAL r3 s3 Hf ltac:(done) Hfit D3 T3)|]. intros r4 s4 (D4 & T4).
  eapply wp_mono; [exact (wp_or_pick_due s q lk _ ready SCHED_CLASS_IDLE r4 s4 Hf ltac:(done) Hfit D4 T4)|]. intros r5 s5 (D5 & T5).
  exists ready. split; [done|]. by rw -!app_assoc in T5.
Qed.

Lemma first_of_idle q ready : q_run q SCHED_CLASS_IDLE ≠ [] → first_of q (classes ready) ≠ None.
Proof. intros Hi. rw /classes !first_of_app. destruct (first_of q _); [done|]. destruct (first_of q (if ready then _ else _)); [done|]. cbn.
  destruct (q_run q SCHED_CLASS_NORMAL); [|done]. by destruct (q_run q SCHED_CLASS_IDLE). Qed.

Lemma sched_unfold s : sched s = (r ← (t ← _pick_from_sched_queue SCHED_CLASS_REAL_TIME; t ← or_pick t (_pick_from_sched_queue SCHED_CLASS_INTERRUPT);
    t ← or_pick t _pick_from_sched_queue_timer; t ← or_pick t (_pick_from_sched_queue SCHED_CLASS_NORMAL);
    or_pick t (_pick_from_sched_queue SCHED_CLASS_IDLE)); match r with Some t => mret t | None => panic end) s.
Proof.
  rw /sched /mbind /M_bind. destruct (_pick_from_sched_queue SCHED_CLASS_REAL_TIME s) as [[r1 s1]| | |]; [|done..].
  destruct (or_pick r1 _ s1) as [[r2 s2]| | |]; [|done..]. destruct (or_pick r2 _ s2) as [[r3 s3]| | |]; [|done..].
  by destruct (or_pick r3 _ s3) as [[r4 s4]| | |].
Qed.

Lemma wp_sched s q lk : sched_inv s q lk → runs_free lk → lk wait_queue = SPINLOCK_INIT → counts_fit q →
  wpp sched (sched_post s q lk) s ∧ (q_run q SCHED_CLASS_IDLE ≠ [] → wp sched (sched_post s q lk) s).
Proof.
  intros HI Hf Hlk Hfit. destruct (wp_elim _ _ _ (wp_sched_classes s q lk HI Hf Hlk Hfit)) as (r & s' & E & ready & Hd & Hq & Hr).
  assert (sched s = match r with Some t => Ret (t, s') | None => Panic end) as Es.
  { rw sched_unfold {1}/mbind {1}/M_bind E. by destruct r. }
  rw /wp /wpp Es. destruct r as [t|].
  - destruct Hr as (c & Hfi & HI'). assert (sched_post s q lk t s') as Hp by (split; [done|]; by exists ready, c). done.
  - split; [done|]. intros Hi. destruct Hr as [Hn _]. by apply (first_of_idle q ready) in Hi.
Qed.
End Laws.
