(* ===== verification/WaitSpec.v ===== *)
(** Sleeping and waking: what [Wait.v] does to the queues of [SchedSpec.v]. *)

From stdpp Require Import base list gmap sorting.
From Stdlib Require Import ZArith Lia.
From Corelib Require Import ssreflect.
From S2P Require Import Prelude Bits Lock List ListSpec ListRep Sched Wait SchedSpec.

Section Loops.
Context `{Harch : Arch} {K : Type} `{Henv : SchedEnv K}.
Implicit Types (s : sched_state K) (q : queues) (lk : Z → spinlock_t) (t c : Z).

(** *** Loops over a list *)

(** Loops that keep or remove the current node: [pre] are the nodes kept so far, [ys] those to come. *)
Lemma wp_foreach_from {A} l (Inv : list Z → list Z → A → sched_state K → Prop) (Q : A → sched_state K → Prop) (body : list_ptr → A → M (sched_state K) (list_ptr * A * bool)) :
  (∀ pre ys acc s, Inv pre ys acc s → is_list (sc_lists s) l (pre ++ ys)) →
  (∀ pre y ys acc s, Inv pre (y :: ys) acc s → wp (body (PNode y) acc) (λ '(n', acc', brk) s', if brk then Q acc' s' else
     (n' = PNode y ∧ Inv (pre ++ [y]) ys acc' s') ∨ (n' = last_ptr (PHead l) pre ∧ Inv pre ys acc' s')) s) →
  (∀ pre acc s, Inv pre [] acc s → Q acc s) →
  ∀ fuel pre ys acc s, (length ys ≤ fuel)%nat → Inv pre ys acc s → wp (foreach_from fuel l (first_ptr ys (PTail l)) acc body) Q s.
Proof.
  intros Hlist Hbody Hend. induction fuel as [|fuel IH]; intros pre ys acc s Hlen HI.
  - destruct ys as [|y ys]; [|cbn in Hlen; lia]. cbn [first_ptr foreach_from]. rw bool_decide_eq_true_2 //. wp_step. exact (Hend _ _ _ HI).
  - destruct ys as [|y ys]; [cbn [first_ptr foreach_from]; rw bool_decide_eq_true_2 //; wp_step; exact (Hend _ _ _ HI)|]. cbn [first_ptr foreach_from].
    rw bool_decide_eq_false_2 //. wp_step. eapply wp_mono; [exact (Hbody _ _ _ _ _ HI)|]. intros [[n' acc'] brk] s' Hb. destruct brk; [by wp_step|].
    cbn in Hlen. wp_step. apply wp_on_lists. destruct Hb as [[-> HI']|[-> HI']].
    + pose proof (Hlist _ _ _ _ HI') as Hi. rw -app_assoc in Hi. eapply wp_node_at; [exact Hi|]. intros nd _ ->.
      change (set_lists (sc_lists s') s') with (upd_sc_lists (λ _, sc_lists s') s'). rw /upd_sc_lists. destruct s'. apply (IH (pre ++ [y])); [lia|done].
    + pose proof (Hlist _ _ _ _ HI') as Hi. destruct (last_ptr_cases pre l) as [[-> ->]|(pre' & x & -> & ->)].
      * eapply wp_head_next; [exact Hi|]. intros nd ->. change (set_lists (sc_lists s') s') with (upd_sc_lists (λ _, sc_lists s') s'). rw /upd_sc_lists. destruct s'. apply (IH [] ys); [lia|done].
      * rw -app_assoc in Hi. eapply wp_node_at; [exact Hi|]. intros nd _ ->.
        change (set_lists (sc_lists s') s') with (upd_sc_lists (λ _, sc_lists s') s'). rw /upd_sc_lists. destruct s'. apply (IH (pre' ++ [x])); [lia|done].
Qed.

Lemma wp_foreach {A} l (Inv : list Z → list Z → A → sched_state K → Prop) (Q : A → sched_state K → Prop) (body : list_ptr → A → M (sched_state K) (list_ptr * A * bool)) xs acc s :
  (∀ pre ys acc s, Inv pre ys acc s → is_list (sc_lists s) l (pre ++ ys)) →
  (∀ pre y ys acc s, Inv pre (y :: ys) acc s → wp (body (PNode y) acc) (λ '(n', acc', brk) s', if brk then Q acc' s' else
     (n' = PNode y ∧ Inv (pre ++ [y]) ys acc' s') ∨ (n' = last_ptr (PHead l) pre ∧ Inv pre ys acc' s')) s) →
  (∀ pre acc s, Inv pre [] acc s → Q acc s) →
  Inv [] xs acc s → wp (foreach l acc body) Q s.
Proof.
  intros Hlist Hbody Hend HI. rw /foreach. wp_step. apply wp_on_lists. pose proof (Hlist _ _ _ _ HI) as Hi. eapply wp_head_next; [exact Hi|]. intros nd ->.
  wp_step. wp_step. change (set_lists (sc_lists s) s) with (upd_sc_lists (λ _, sc_lists s) s). rw /upd_sc_lists. destruct s.
  eapply (wp_foreach_from l Inv); [done|done|done| |exact HI]. pose proof (is_list_size _ _ _ Hi) as Hs. cbn in *. lia.
Qed.

(** Taking a node out in a loop. *)
Lemma wp_remove_in_foreach s m lk l xs n ys (Q : list_ptr → sched_state K → Prop) : rep (sc_lists s) m lk → m !! l = Some (xs ++ n :: ys) → locked (lk l) = true →
  (∀ g, rep_ok (sc_lists s) (<[l := xs ++ ys]> m) lk g → Q (last_ptr (PHead l) xs) (upd_sc_lists (λ _, g) s)) →
  wp (list_remove_in_foreach l (PNode n)) Q s.
Proof.
  intros Hr Hl Hlk HQ. rw /list_remove_in_foreach. wp_step. apply wp_on_lists. eapply wp_rep_remove; [exact Hr|exact Hl|exact Hlk|].
  intros h' Hok Hp. rw bool_decide_eq_false_2 //. wp_step. apply wp_on_lists. rw /prv in Hp. destruct (lnodes h' !! PNode n) as [nd|] eqn:En; [|done].
  injection Hp as Hp. eapply wp_get_lnode; [exact En|]. wp_step. rw Hp. by apply HQ.
Qed.

(** *** Taking a thread out of the wait queue *)

Lemma wait_not_twice s q lk t : sched_inv s q lk → t ∈ q_wait q → t ∉ q_ipc q.
Proof.
  intros [Hr _] Hw Hi. assert (wait_queue = ipc_wait_queue); [|done].
  eapply (rep_unique _ _ _ _ _ _ _ (nw t) Hr (seqs_wait q) (seqs_ipc q)); by apply elem_of_nw.
Qed.

Lemma wait_nodup s q lk : sched_inv s q lk → NoDup (q_wait q).
Proof. intros [Hr _]. apply (NoDup_fmap_1 nw). exact (il_nodup _ _ _ (rep_is_list _ _ _ _ _ Hr (seqs_wait q))). Qed.

(** With [t] gone from the wait queue. *)
Lemma wait_removed s q lk pre t ys g : sched_inv s q lk → q_wait q = pre ++ t :: ys →
  rep_ok (sc_lists s) (<[wait_queue := nw <$> (pre ++ ys)]> (seqs q)) lk g →
  sched_inv (upd_sc_lists (λ _, g) s) (set_wait (pre ++ ys) q) lk ∧ t ∉ pre ++ ys.
Proof.
  intros HI Hw [Hr Hl]. pose proof (wait_nodup _ _ _ HI) as Hnd. rw Hw in Hnd. destruct HI as [_ Hok]. split; [split|].
  - by rw seqs_set_wait in Hr.
  - apply (threads_ok_live _ (sc_lists s)); [done|]. eapply threads_ok_queues; [exact Hok|done|by left| |].
    + intros x [Hx|Hx]; left; [left|by right]. rw Hw. cbn in Hx. set_solver.
    + eapply sorted_sublist; [|apply (to_sorted _ _ _ Hok)]. rw Hw. cbn. apply sublist_app; [done|by apply sublist_cons].
  - apply NoDup_app in Hnd as (_ & Hd & [Hn _]%NoDup_cons). rw elem_of_app. intros [Hx|Hx]; [|done]. apply (Hd t Hx). by left.
Qed.

(** *** Waking several threads *)

Definition class_of (ths : gmap Z thread) (t : Z) : Z := default 0 (t_sched_class <$> ths !! t).

(** The threads [ws] run again, each at the end of the queue of its class. *)
Definition wake_threads (ws : list Z) (ths : gmap Z thread) : gmap Z thread :=
  foldl (λ m t, alter (set_state THREAD_STATE_NORMAL) t m) ths ws.
Definition wake_queues (ths : gmap Z thread) (ws : list Z) (q : queues) : queues :=
  foldl (λ q t, push_run (class_of ths t) t q) q ws.

Lemma wake_threads_lookup ws ths t : wake_threads ws ths !! t = (if decide (t ∈ ws) then set_state THREAD_STATE_NORMAL else id) <$> ths !! t.
Proof.
  induction ws as [|x ws IH] using rev_ind; [destruct (decide (t ∈ [])) as [Hx|]; [by apply elem_of_nil in Hx|]; by rw /= option_fmap_id|].
  rw /wake_threads foldl_snoc. fold (wake_threads ws ths). destruct (decide (x = t)) as [->|Hne].
  - rw lookup_alter_eq IH. destruct (decide (t ∈ ws ++ [t])) as [_|Hn]; [|exfalso; set_solver]. case_decide; by destruct (ths !! t).
  - rw lookup_alter_ne // IH. repeat case_decide; try done; exfalso; set_solver.
Qed.

Lemma wake_queues_run ths ws q c : q_run (wake_queues ths ws q) c = q_run q c ++ filter (λ t, class_of ths t = c) ws.
Proof.
  revert q. induction ws as [|t ws IH]; intros q; [by rw app_nil_r|]. cbn [wake_queues foldl]. fold (wake_queues ths ws (push_run (class_of ths t) t q)). rw IH.
  rw filter_cons. cbn. repeat case_decide; try done; try congruence. subst c. by rw -app_assoc.
Qed.

Lemma wake_queues_rest ths ws q : q_wait (wake_queues ths ws q) = q_wait q ∧ q_ipc (wake_queues ths ws q) = q_ipc q.
Proof. revert q. induction ws as [|t ws IH]; intros q; [done|]. apply (IH (push_run (class_of ths t) t q)). Qed.

(** The first [n] elements of [l] with [p], and the others. *)
Fixpoint wake_split (p : Z → bool) (n : nat) (l : list Z) : list Z * list Z :=
  match n, l with
  | O, _ => ([], l)
  | _, [] => ([], [])
  | S n', x :: l' => if p x then let '(w, k) := wake_split p n' l' in (x :: w, k) else let '(w, k) := wake_split p n l' in (w, x :: k)
  end.

Lemma wake_split_0 p l : wake_split p 0 l = ([], l).
Proof. by destruct l. Qed.

Lemma wake_split_app p d l n : (length (filter (λ x, p x = true) d) ≤ n)%nat → wake_split p n (d ++ l) =
  let '(w, k) := wake_split p (n - length (filter (λ x, p x = true) d)) l in (filter (λ x, p x = true) d ++ w, filter (λ x, p x = false) d ++ k).
Proof.
  revert n. induction d as [|x d IH]; intros n Hn; [cbn [filter list_filter length app]; rw Nat.sub_0_r; by destruct (wake_split p n l)|].
  destruct (p x) eqn:Ex.
  - assert (filter (λ x, p x = true) (x :: d) = x :: filter (λ x, p x = true) d) as E1 by by apply filter_cons_True. rw E1 in Hn |- *. rw (filter_cons_False (λ x, p x = false)); [by rw Ex|]. cbn [length] in Hn |- *.
    destruct n as [|n]; [lia|]. cbn [wake_split app Nat.sub]. rw Ex IH; [lia|]. by destruct (wake_split p (n - _) l).
  - assert (filter (λ x, p x = true) (x :: d) = filter (λ x, p x = true) d) as E1 by (apply filter_cons_False; by rw Ex). rw E1 in Hn |- *. rw (filter_cons_True (λ x, p x = false)) //. destruct n as [|n].
    + specialize (IH 0%nat Hn). rw !wake_split_0 in IH |- *. injection IH as <- E. cbn [app]. by rw -E.
    + cbn [wake_split app]. rw Ex IH; [done|]. by destruct (wake_split p _ l).
Qed.

Lemma wake_split_woken p n l : (wake_split p n l).1 = take n (filter (λ x, p x = true) l).
Proof.
  revert n. induction l as [|x l IH]; intros [|n]; try done. cbn [wake_split]. destruct (p x) eqn:Ex.
  - rw (filter_cons_True (λ x, p x = true)) //. cbn [take]. rw -IH. by destruct (wake_split p n l).
  - rw (filter_cons_False (λ x, p x = true)); [by rw Ex|]. rw -IH. by destruct (wake_split p (S n) l).
Qed.

Lemma wake_queues_set_wait ths ws l q : wake_queues ths ws (set_wait l q) = set_wait l (wake_queues ths ws q).
Proof. revert q. induction ws as [|t ws IH]; intros q; [done|]. apply (IH (push_run (class_of ths t) t q)). Qed.

Lemma class_of_wake ws ths t : class_of (wake_threads ws ths) t = class_of ths t.
Proof. rw /class_of wake_threads_lookup. by case_decide; destruct (ths !! t). Qed.

Lemma wake_threads_snoc ws t ths : wake_threads (ws ++ [t]) ths = alter (set_state THREAD_STATE_NORMAL) t (wake_threads ws ths).
Proof. by rw /wake_threads foldl_snoc. Qed.

(** The threads that a loop wakes. *)
Definition accepts (f : thread → bool) (ths : gmap Z thread) (t : Z) : bool := match ths !! t with Some th => f th | None => false end.

Definition woken s ws g : sched_state K := upd_sc_lists (λ _, g) (upd_sc_threads (wake_threads ws) s).

(** One thread leaves the wait queue and runs again. *)
Lemma wp_wake_one s q lk ws g pre t ys max f count (Q : list_ptr * Z * bool → sched_state K → Prop) :
  sched_inv (woken s ws g) (wake_queues (sc_threads s) ws (set_wait (pre ++ t :: ys) q)) lk → runs_free lk → locked (lk wait_queue) = true →
  accepts f (wake_threads ws (sc_threads s)) t = true →
  (∀ g', sched_inv (woken s (ws ++ [t]) g') (wake_queues (sc_threads s) (ws ++ [t]) (set_wait (pre ++ ys) q)) lk →
     Q (last_ptr (PHead wait_queue) (nw <$> pre), ulong (count + 1), ctrue max && (max <=? ulong (count + 1))) (woken s (ws ++ [t]) g')) →
  wp (wake_body wait_queue max f (λ _, mret tt) (PNode (nw t)) count) Q (woken s ws g).
Proof.
  intros HI Hf Hlk Ha HQ. set (q1 := wake_queues (sc_threads s) ws (set_wait (pre ++ t :: ys) q)) in HI.
  assert (q_wait q1 = pre ++ t :: ys) as Hw by apply (wake_queues_rest (sc_threads s) ws (set_wait (pre ++ t :: ys) q)).
  rw /accepts in Ha. destruct (wake_threads ws (sc_threads s) !! t) as [th|] eqn:Eth; [|done].
  assert (sc_threads (woken s ws g) !! t = Some th) as Ht by exact Eth.
  rw /wake_body. wp_step. wp_step; [apply thread_of_wait|]. wp_step. eapply wp_get_thread; [exact Ht|]. rw Ha.
  assert (t ∈ q_wait q1) as Hin by (rw Hw; set_solver).
  wp_step. eapply (wp_remove_in_foreach _ (seqs q1) lk _ (nw <$> pre) _ (nw <$> ys)); [apply HI|by rw seqs_wait Hw fmap_app|done|].
  intros g1 Hok. rw -fmap_app in Hok. destruct (wait_removed _ _ _ pre t ys g1 HI Hw Hok) as [HI1 Hn].
  destruct (to_wait _ _ _ (proj2 HI) t (or_introl Hin)) as (th' & Ht' & Hst). assert (th' = th) as -> by congruence.
  wp_step. wp_step. wp_step. eapply wp_wakeup_thread; [exact HI1|done|exact Ht|done|exact Hn|exact (wait_not_twice _ _ _ _ HI Hin)|].
  intros g2 s' HI2 _. wp_step.
  assert (s' = woken s (ws ++ [t]) g2) as -> by (rw /s' /woken /upd_sc_threads /upd_sc_lists /= wake_threads_snoc; reflexivity). apply HQ.
  rw /wake_queues foldl_snoc. fold (wake_queues (sc_threads s) ws (set_wait (pre ++ ys) q)). rw wake_queues_set_wait.
  rw /q1 wake_queues_set_wait in HI2. assert (t_sched_class th = class_of (sc_threads s) t) as Ec by by rw -(class_of_wake ws) /class_of Eth.
  rw Ec in HI2. exact HI2.
Qed.

Section WakeLoop.
Variables (s : sched_state K) (q : queues) (lk : Z → spinlock_t) (max : Z) (f : thread → bool).
Hypothesis Hf : runs_free lk.
Hypothesis Hlk : locked (lk wait_queue) = true.
Hypothesis Hstate : ∀ st th, f (set_state st th) = f th.
Hypothesis Hmax : uint ARCH_WIDTH max.
Hypothesis Hfit : uint ARCH_WIDTH (Z.of_nat (length (q_wait q))).

Abbreviation p := (accepts f (sc_threads s)).

(** How many threads may be woken. *)
Definition wake_limit : nat := if max =? 0 then length (q_wait q) else Z.to_nat max.

Lemma accepts_wake ws t : accepts f (wake_threads ws (sc_threads s)) t = p t.
Proof using Hstate. rw /accepts wake_threads_lookup. case_decide; destruct (sc_threads s !! t); cbn; auto. Qed.

(** The loop has passed [d]. *)
Definition wake_loop_inv (pre ys : list Z) (count : Z) (s1 : sched_state K) : Prop := ∃ d rest g, q_wait q = d ++ rest ∧
  pre = nw <$> filter (λ t, p t = false) d ∧ ys = nw <$> rest ∧ count = Z.of_nat (length (filter (λ t, p t = true) d)) ∧
  (max = 0 ∨ count < max) ∧ s1 = woken s (filter (λ t, p t = true) d) g ∧
  sched_inv s1 (wake_queues (sc_threads s) (filter (λ t, p t = true) d) (set_wait (filter (λ t, p t = false) d ++ rest) q)) lk.

Definition wake_loop_post (Q : Z → sched_state K → Prop) : Prop := ∀ ws ks g, wake_split p wake_limit (q_wait q) = (ws, ks) →
  sched_inv (woken s ws g) (wake_queues (sc_threads s) ws (set_wait ks q)) lk → Q (Z.of_nat (length ws)) (woken s ws g).

Lemma wake_loop_list pre ys count s1 : wake_loop_inv pre ys count s1 → is_list (sc_lists s1) wait_queue (pre ++ ys).
Proof.
  intros (d & rest & g & _ & -> & -> & _ & _ & _ & [Hr _]). rw -fmap_app.
  eapply rep_is_list; [exact Hr|]. rw seqs_wait. by destruct (wake_queues_rest (sc_threads s) (filter (λ t, p t = true) d) (set_wait (filter (λ t, p t = false) d ++ rest) q)) as [-> _].
Qed.

Lemma filter_snoc (P : Z → Prop) `{∀ x, Decision (P x)} (d : list Z) t : filter P (d ++ [t]) = filter P d ++ (if decide (P t) then [t] else []).
Proof. rw filter_app filter_cons. by case_decide. Qed.

(** The number of threads passed is not more than the limit. *)
Lemma wake_limit_ok d rest : q_wait q = d ++ rest → max = 0 ∨ Z.of_nat (length (filter (λ t, p t = true) d)) ≤ max →
  (length (filter (λ t, p t = true) d) ≤ wake_limit)%nat.
Proof.
  intros Hq Hc. rw /wake_limit. destruct (Z.eqb_spec max 0) as [->|]; [|lia]. pose proof (length_filter (λ t, p t = true) d). rw Hq length_app. lia.
Qed.

Lemma wp_wake_loop_body (Q : Z → sched_state K → Prop) pre y ys count s1 : wake_loop_post Q → wake_loop_inv pre (y :: ys) count s1 →
  wp (wake_body wait_queue max f (λ _, mret tt) (PNode y) count) (λ '(n', count', brk) s', if brk then Q count' s' else
     (n' = PNode y ∧ wake_loop_inv (pre ++ [y]) ys count' s') ∨ (n' = last_ptr (PHead wait_queue) pre ∧ wake_loop_inv pre ys count' s')) s1.
Proof using Hf Hlk Hstate Hmax Hfit.
  intros HQ (d & rest & g & Hq & -> & Hys & -> & Hc & -> & HI). destruct rest as [|t rest]; [done|]. injection Hys as -> ->.
  assert (q_wait q = (d ++ [t]) ++ rest) as Hq' by by rw -app_assoc.
  destruct (p t) eqn:Ep.
  - eapply wp_wake_one; [exact HI|done|done|by rw accepts_wake|]. intros g' HI'.
    assert (filter (λ t, p t = true) (d ++ [t]) = filter (λ t, p t = true) d ++ [t]) as E1 by (rw filter_snoc decide_True //).
    assert (filter (λ t, p t = false) (d ++ [t]) = filter (λ t, p t = false) d) as E2 by (rw filter_snoc decide_False; [by rw Ep|by rw app_nil_r]).
    assert (length (filter (λ t, p t = true) (d ++ [t])) ≤ length (q_wait q))%nat as Hle by (rw Hq' length_app; pose proof (length_filter (λ t, p t = true) (d ++ [t])); lia).
    assert (ulong (Z.of_nat (length (filter (λ t, p t = true) d)) + 1) = Z.of_nat (length (filter (λ t, p t = true) (d ++ [t])))) as ->.
    { rw E1 length_app Nat2Z.inj_add. apply wrap_small. rw E1 length_app in Hle. pose proof Hfit as [_ Hfit']. rw /uint. cbn in *. lia. }
    rw -E1 -E2 in HI' |- *. destruct (ctrue max && (max <=? _)) eqn:Eb.
    + apply andb_true_iff in Eb as [Hm Hle'%Z.leb_le]. assert (max ≠ 0) as Hm0 by (intros E0; by rw E0 in Hm).
      assert (wake_limit = length (filter (λ t, p t = true) (d ++ [t]))) as Hlim.
      { rw /wake_limit. rw (proj2 (Z.eqb_neq max 0)) //. rw E1 length_app /= in Hle' |- *. destruct Hc; [done|]. lia. }
      assert (wake_split p wake_limit (q_wait q) = (filter (λ t, p t = true) (d ++ [t]), filter (λ t, p t = false) (d ++ [t]) ++ rest)) as Hs.
      { rw Hq' wake_split_app; [by rw Hlim|]. rw Hlim Nat.sub_diag wake_split_0. by rw app_nil_r. }
      exact (HQ _ _ g' Hs HI').
    + right. split; [by rw E2|]. exists (d ++ [t]), rest, g'. do 4 (split; [done|]). split; [|done].
      apply andb_false_iff in Eb as [Eb|Hgt%Z.leb_gt]; [left|by right]. destruct (decide (max = 0)) as [|Hne]; [done|]. rw /ctrue (proj2 (Z.eqb_neq max 0)) // in Eb.
  - assert (sc_threads (woken s (filter (λ t, p t = true) d) g) !! t = wake_threads (filter (λ t, p t = true) d) (sc_threads s) !! t) as Es by done.
    destruct (to_wait _ _ _ (proj2 HI) t) as (th & Ht & _).
    { left. destruct (wake_queues_rest (sc_threads s) (filter (λ t, p t = true) d) (set_wait (filter (λ t, p t = false) d ++ t :: rest) q)) as [-> _]. cbn. set_solver. }
    rw /wake_body. wp_step. wp_step; [apply thread_of_wait|]. wp_step. eapply wp_get_thread; [exact Ht|].
    assert (f th = false) as ->. { pose proof (accepts_wake (filter (λ t, p t = true) d) t) as Ea. rw Ep /accepts -Es Ht in Ea. done. }
    wp_step. left. split; [done|]. exists (d ++ [t]), rest, g.
    assert (filter (λ t, p t = true) (d ++ [t]) = filter (λ t, p t = true) d) as -> by (rw filter_snoc decide_False; [by rw Ep|by rw app_nil_r]).
    assert (filter (λ t, p t = false) (d ++ [t]) = filter (λ t, p t = false) d ++ [t]) as -> by (rw filter_snoc decide_True //).
    rw -!app_assoc fmap_app. do 6 (split; [done|]). exact HI.
Qed.

Lemma wp_wake_loop (Q : Z → sched_state K → Prop) : sched_inv s q lk → wake_loop_post Q →
  wp (foreach wait_queue 0 (wake_body wait_queue max f (λ _, mret tt))) Q s.
Proof using Hf Hlk Hstate Hmax Hfit.
  intros HI HQ. eapply (wp_foreach wait_queue wake_loop_inv Q _ (nw <$> q_wait q)); [apply wake_loop_list| | |].
  - intros pre y ys count s1 Hinv. by apply wp_wake_loop_body.
  - intros pre count s1 (d & rest & g & Hq & -> & Hys & -> & Hc & -> & HI'). destruct rest; [|done]. refine (HQ _ _ g _ HI'). rw !app_nil_r in Hq |- *.
    rw Hq -{1}(app_nil_r d) wake_split_app; [apply (wake_limit_ok d []); [by rw app_nil_r|destruct Hc; [by left|right; lia]]|].
    destruct (wake_limit - _)%nat; cbn; by rw !app_nil_r.
  - exists [], (q_wait q), (sc_lists s). do 4 (split; [done|]). split; [destruct (decide (max = 0)); [by left|right; destruct Hmax; cbn; lia]|].
    split; [by rw /woken /upd_sc_lists /upd_sc_threads; destruct s|]. cbn. assert (set_wait (q_wait q) q = q) as -> by by destruct q. done.
Qed.
End WakeLoop.

End Loops.

Section Waking.
Context `{Harch : Arch} {K : Type} `{Henv : SchedEnv K} `{!SchedEnvLaws K}.
Implicit Types (s : sched_state K) (q : queues) (lk : Z → spinlock_t) (t c : Z).

(** A critical section on one of the queues. *)
Definition held (l : Z) lk s : Z → spinlock_t := lock_at lk l (mk_spinlock true (sc_int s)).
Definition locked_sc (l : Z) s : sched_state K := upd_sc_lists (lk_set (heap_lock l) (mk_spinlock true (sc_int s))) (set_sc_int false s).
Abbreviation wait_held := (held wait_queue).
Abbreviation wait_locked := (locked_sc wait_queue).

Lemma held_runs l lk s : (∀ c, 0 ≤ c < 6 → sched_queues c ≠ l) → runs_free lk → runs_free (held l lk s).
Proof. apply runs_free_at. Qed.
Lemma wait_held_runs lk s : runs_free lk → runs_free (wait_held lk s).
Proof. apply held_runs. rw /sched_queues /wait_queue. lia. Qed.
Lemma wait_held_locked lk s : locked (wait_held lk s wait_queue) = true.
Proof. by rw /held lock_at_same. Qed.

Lemma lock_inv l s q lk : sched_inv s q lk → sched_inv (locked_sc l s) q (held l lk s).
Proof. intros [Hr Hok]. split; [exact (rep_lock_at _ _ _ _ _ Hr)|]. by apply (threads_ok_live _ (sc_lists s)). Qed.

Lemma unlock_inv l s s' q' lk : lk l = SPINLOCK_INIT → sched_inv s' q' (held l lk s) →
  sched_inv (set_sc_int (sc_int s) (upd_sc_lists (lk_set (heap_lock l) SPINLOCK_INIT) s')) q' lk.
Proof. intros Hl [Hr Hok]. split; [exact (rep_unlock_at _ _ _ _ _ Hl Hr)|]. by apply (threads_ok_live _ (sc_lists s')). Qed.

Lemma wp_queue_access {A} l s q lk (body : M (sched_state K) A) (Q : A → sched_state K → Prop) : (∀ q, is_Some (seqs q !! l)) → sched_inv s q lk → lk l = SPINLOCK_INIT →
  (sched_inv (locked_sc l s) q (held l lk s) → wp body (λ a s', sc_int s' = false ∧ ∃ q', sched_inv s' q' (held l lk s) ∧
     ∀ g, sched_inv (set_sc_int (sc_int s) (upd_sc_lists (λ _, g) s')) q' lk → Q a (set_sc_int (sc_int s) (upd_sc_lists (λ _, g) s'))) (locked_sc l s)) →
  wp (list_access_exclusive l body) Q s.
Proof.
  intros Hin HI Hl Hb. specialize (Hb (lock_inv l _ _ _ HI)). destruct (Hin q) as [xs Hxs]. eapply wp_access_at; [apply HI|exact Hxs|exact Hl|].
  eapply wp_mono; [exact Hb|]. intros a s' (Hint & q' & HI' & HQ). split; [done|]. destruct (Hin q') as [xs' Hxs']. exists (seqs q'), xs'. split; [apply HI'|]. split; [done|].
  apply HQ. exact (unlock_inv l s s' q' lk Hl HI').
Qed.

Lemma in_seqs_wait q : is_Some (seqs q !! wait_queue).
Proof. by rw seqs_wait. Qed.

(** *** Timeouts *)

(** Another environment. *)
Definition at_env s (k : K) : sched_state K := set_sc_env k s.

Lemma timeout_of_wake ws ths t : timeout_of (wake_threads ws ths) t = timeout_of ths t.
Proof. rw /timeout_of wake_threads_lookup. by case_decide; destruct (ths !! t). Qed.

(** [ws] have been woken because they were due; the others were not at [ms]. *)
Definition timeout_post s q lk (Q : unit → sched_state K → Prop) : Prop := ∀ ws ks g k ms, q_wait q = ws ++ ks →
  env_le (sc_env s) k → env_time (sc_env s) ≤ ms ≤ env_time k → (∀ t, t ∈ ws → timeout_of (sc_threads s) t ≤ env_time k) → (∀ t, t ∈ ks → ms < timeout_of (sc_threads s) t) →
  sched_inv (woken (at_env s k) ws g) (wake_queues (sc_threads s) ws (set_wait ks q)) lk → Q tt (woken (at_env s k) ws g).

Lemma wp_pop_waiting s q lk t ys (Q : list_ptr → sched_state K → Prop) : sched_inv s q lk → locked (lk wait_queue) = true → q_wait q = t :: ys →
  (∀ g, sched_inv (upd_sc_lists (λ _, g) s) (set_wait ys q) lk → t ∉ ys → Q (PNode (nw t)) (upd_sc_lists (λ _, g) s)) → wp (on_lists (list_pop_front wait_queue)) Q s.
Proof.
  intros HI Hlk Hw HQ. apply wp_on_lists. eapply wp_rep_pop_front; [apply HI|apply seqs_wait|done|]. intros g Hok. rw Hw in Hok |- *. cbn [fmap list_fmap tail head ptr_of] in Hok |- *.
  destruct (wait_removed s q lk [] t ys g HI Hw Hok) as [HI' Hn]. by apply HQ.
Qed.

Lemma sorted_later ths t ys ms : StronglySorted (earlier ths) (t :: ys) → ms < timeout_of ths t → ∀ x, x ∈ t :: ys → ms < timeout_of ths x.
Proof.
  intros [_ Hall]%StronglySorted_inv Hms x [->|Hx]%elem_of_cons; [done|]. pose proof (proj1 (Forall_forall _ _) Hall x Hx) as Hle. rw /earlier in Hle. lia.
Qed.

Lemma wp_timeout_loop s q lk (Q : unit → sched_state K → Prop) : runs_free lk → locked (lk wait_queue) = true → StronglySorted (earlier (sc_threads s)) (q_wait q) → timeout_post s q lk Q →
  ∀ fuel ws ks g k, (length ks ≤ fuel)%nat → q_wait q = ws ++ ks → env_le (sc_env s) k → (∀ t, t ∈ ws → timeout_of (sc_threads s) t ≤ env_time k) →
  sched_inv (woken (at_env s k) ws g) (wake_queues (sc_threads s) ws (set_wait ks q)) lk →
  wp (timeout_loop fuel (ptr_of (head (nw <$> ks)))) Q (woken (at_env s k) ws g).
Proof.
  intros Hf Hlk Hsort HQ. induction fuel as [|fuel IH]; intros ws ks g k Hlen Hq Hle Hws HI; pose proof (env_le_time _ _ Hle) as Hk.
  { destruct ks as [|t ks]; [|cbn in Hlen; lia]. apply wp_ret. apply (HQ ws [] g k (env_time k)); [done|done|lia|done|by intros t ?%elem_of_nil|done]. }
  destruct ks as [|t ks]; [apply wp_ret; apply (HQ ws [] g k (env_time k)); [done|done|lia|done|by intros t ?%elem_of_nil|done]|].
  cbn [fmap list_fmap head ptr_of timeout_loop]. set (q1 := wake_queues (sc_threads s) ws (set_wait (t :: ks) q)) in HI.
  assert (q_wait q1 = t :: ks) as Hw by apply (wake_queues_rest (sc_threads s) ws (set_wait (t :: ks) q)).
  destruct (to_wait _ _ _ (proj2 HI) t ltac:(left; rw Hw; by left)) as (th & Ht & Hst).
  assert (t_wait_timeout_ms th = timeout_of (sc_threads s) t) as Eto by (rw -(timeout_of_wake ws) /timeout_of; change (wake_threads ws (sc_threads s)) with (sc_threads (woken (at_env s k) ws g)); by rw Ht).
  wp_step. wp_step; [apply thread_of_wait|]. wp_step. apply wp_get_ms. intros ms k1 Hle1 Hms. wp_step. eapply (wp_get_thread _ t th); [exact Ht|].
  change (env_time (sc_env (woken (at_env s k) ws g))) with (env_time k) in Hms. rw Eto. assert (env_le (sc_env s) k1) as Hle2 by (transitivity k; [exact Hle|exact Hle1]).
  assert (sched_inv (woken (at_env s k1) ws g) q1 lk) as HI1 by exact HI.
  destruct (Z.ltb_spec ms (timeout_of (sc_threads s) t)) as [Hlt|Hge].
  - wp_step. apply (HQ ws (t :: ks) g k1 ms); [done|done|lia| |apply sorted_later; [|done]|done].
    + intros x Hx. specialize (Hws x Hx). lia.
    + rw Hq in Hsort. eapply sorted_sublist; [|exact Hsort]. by apply sublist_inserts_l.
  - wp_step. eapply (wp_pop_waiting (woken (at_env s k1) ws g) q1 lk t ks); [exact HI1|done|done|]. intros g1 HI2 Hn.
    wp_step. eapply (wp_wakeup_thread _ _ lk t th); [exact HI2|done|exact Ht|done|exact Hn|exact (wait_not_twice _ _ _ t HI ltac:(rw Hw; by left))|].
    intros g2 s' HI3 _. wp_step. apply wp_on_lists. eapply (wp_rep_front _ _ _ _ (nw <$> ks)); [apply HI3|apply seqs_wait|done|].
    assert (s' = woken (at_env s k1) (ws ++ [t]) g2) as Es by (rw /s' /woken /upd_sc_threads /upd_sc_lists /= wake_threads_snoc; reflexivity).
    assert (set_lists (lists s') s' = s') as -> by reflexivity. rw Es. apply IH; [cbn in Hlen; lia|by rw -app_assoc|done| |].
    + intros x [Hx|Hx%list_elem_of_singleton]%elem_of_app; [specialize (Hws x Hx); lia|subst x; lia].
    + rw -Es /wake_queues foldl_snoc. fold (wake_queues (sc_threads s) ws (set_wait ks q)). rw wake_queues_set_wait. rw /q1 wake_queues_set_wait in HI3.
      assert (t_sched_class th = class_of (sc_threads s) t) as Ec by (rw -(class_of_wake ws) /class_of; change (wake_threads ws (sc_threads s)) with (sc_threads (woken (at_env s k) ws g)); by rw Ht).
      rw Ec in HI3. exact HI3.
Qed.

Lemma wait_fits s q lk : sched_inv s q lk → (length (q_wait q) ≤ size (lnodes (sc_lists s)))%nat.
Proof. intros [Hr _]. pose proof (is_list_size _ _ _ (rep_is_list _ _ _ _ _ Hr (seqs_wait q))) as Hs. rw length_fmap in Hs. lia. Qed.

Lemma wp_timeout_wakeup s q lk (Q : unit → sched_state K → Prop) : sched_inv s q lk → runs_free lk → lk wait_queue = SPINLOCK_INIT →
  timeout_post s q lk Q → wp timeout_wakeup Q s.
Proof.
  intros HI Hf Hl HQ. rw /timeout_wakeup. eapply wp_queue_access; [exact in_seqs_wait|exact HI|done|]. intros HL.
  wp_step. apply wp_on_lists. eapply (wp_rep_front _ _ _ _ (nw <$> q_wait q)); [apply HL|apply seqs_wait|apply wait_held_locked|].
  assert (set_lists (lists (wait_locked s)) (wait_locked s) = wait_locked s) as -> by reflexivity. wp_step. wp_step.
  assert (wait_locked s = woken (at_env (wait_locked s) (sc_env s)) [] (sc_lists (wait_locked s))) as Es by reflexivity. rw {2}Es.
  eapply (wp_timeout_loop (wait_locked s) q (wait_held lk s) _ (wait_held_runs _ _ Hf) (wait_held_locked _ _) (to_sorted _ _ _ (proj2 HI))).
  - intros ws ks g k ms Hq Hle Hms Hws Hks HI'. split; [done|]. eexists. split; [exact HI'|]. intros g' HIg.
    exact (HQ ws ks g' k ms Hq Hle Hms Hws Hks HIg).
  - exact (wait_fits _ _ _ HL).
  - done.
  - change (env_le (sc_env s) (sc_env s)). reflexivity.
  - by intros t ?%elem_of_nil.
  - rw -Es. cbn. assert (set_wait (q_wait q) q = q) as -> by by destruct q. exact HL.
Qed.

(** *** Waking by object *)

(** The futex of a process can be read where it is mapped. *)
Definition futex_ok s p obj : Prop := is_Some (sc_procs s !! p) ∧ (p = sc_kernel_proc s → env_readable obj).

(** Where it is, or NULL. *)
Definition futex_addr s p (pr : sproc) obj : Z :=
  if p =? sc_kernel_proc s then obj else
  let paddr := env_map (sc_env s) (pr_page_table pr) obj in if ctrue paddr then env_cast_paddr paddr else 0.

Lemma wp_find_futex s p pr obj (Q : Z → sched_state K → Prop) : futex_ok s p obj → sc_procs s !! p = Some pr →
  (∀ k, let a := futex_addr s p pr obj in env_le (sc_env s) k → (a ≠ 0 → env_readable a) → Q a (at_env s k)) → wp (find_futex p obj) Q s.
Proof.
  intros [_ Hk] Hp HQ. rw /find_futex. wp_step. wp_step. rw /futex_addr in HQ. destruct (Z.eqb_spec p (sc_kernel_proc s)) as [E|_].
  - wp_step. specialize (HQ (sc_env s) ltac:(reflexivity) (λ _, Hk E)). by destruct s.
  - wp_step. eapply wp_deref; [exact Hp|]. wp_step. apply wp_sc_env. eapply wp_mono; [apply env_translate_ok|]. intros a k (-> & Ht & Ha). wp_step. apply HQ; [done|].
    rw /ctrue. destruct (Z.eqb_spec (env_map (sc_env s) (pr_page_table pr) obj) 0); [done|]. intros _. by apply Ha.
Qed.

(** The condition on the value of a futex. *)
Definition futex_cond (wait_value locked : Z) : bool :=
  if ctrue (Z.land wait_value FUTEX_WHEN_NE) then negb (locked =? Z.land wait_value FUTEX_VALUE_MASK) else locked =? Z.land wait_value FUTEX_VALUE_MASK.

(** The machine goes from [a] over [b] and [c] to [d]. *)
Definition span (a b c d : K) : Prop := env_le a b ∧ env_le b c ∧ env_le c d.

Lemma span_refl (k : K) : span k k k k.
Proof. split; [reflexivity|split; reflexivity]. Qed.
Lemma span_last (a b c d e : K) : span a b c d → env_le d e → span a b c e.
Proof. intros (? & ? & ?) ?. split; [done|]. split; [done|]. by transitivity d. Qed.

(** The outcome of the test: the kernel bit of one read, at [k], and the value of the next, at [k1]. *)
Definition tested (a wait_value : Z) (kernel : bool) (k k1 : K) : bool :=
  Bool.eqb (futex_kernel (env_word k a)) kernel && futex_cond wait_value (futex_locked (env_word k1 a)).

Lemma wp_futex_test s a wait_value kernel (Q : bool → sched_state K → Prop) : env_readable a →
  (∀ k1 k2, env_le (sc_env s) k1 → env_le k1 k2 → Q (tested a wait_value kernel (sc_env s) k1) (at_env s k2)) → wp (futex_test a wait_value kernel) Q s.
Proof.
  intros Ha HQ. rw /futex_test. wp_step. apply wp_sc_env. eapply wp_mono; [by apply env_read_word_ok|]. intros v k1 [-> Hk1].
  destruct (Bool.eqb _ kernel) eqn:Eb.
  - wp_step. apply wp_sc_env. eapply wp_mono; [by apply env_read_word_ok|]. intros v k2 [-> Hk2]. wp_step. specialize (HQ k1 k2). rw /tested Eb in HQ. by apply HQ.
  - wp_step. specialize (HQ k1 k1). rw /tested Eb in HQ. apply HQ; [done|reflexivity].
Qed.

(** The futex of process [p] at [obj] is mapped and has the given kernel bit, at [k], and value, at [k1]. *)
Definition futex_says s p pr obj wait_value (kernel : bool) (k k1 : K) : bool :=
  let a := futex_addr s p pr obj in ctrue a && tested a wait_value kernel k k1.

Lemma wakes_state p wait_type wait_obj st th : wakes p wait_type wait_obj (set_state st th) = wakes p wait_type wait_obj th.
Proof. done. Qed.

Lemma wp_is_locked s q lk l xs (Q : bool → sched_state K → Prop) : sched_inv s q lk → seqs q !! l = Some xs → Q (locked (lk l)) s → wp (spinlock_is_locked (list_lock l)) Q s.
Proof.
  intros [Hr _] Hl HQ. destruct (Hr _ _ Hl) as [_ E]. rw /spinlock_is_locked. wp_step. eapply wp_deref; [exact E|]. by wp_step.
Qed.

(** What [wake_on_object] does: nothing, or the wake-up of the first [max] threads of the process that wait for the object. *)
Definition wake_result s q (b : bool) pr wait_type obj max : list Z * list Z :=
  if b then wake_split (accepts (wakes pr wait_type obj) (sc_threads s)) (wake_limit q max) (q_wait q) else ([], q_wait q).
Definition wake_post s q lk p wait_type obj wait_value max (Q : Z → sched_state K → Prop) : Prop := ∀ pr ws ks g k0 k1 k,
  sc_procs s !! p = Some pr → span (sc_env s) k0 k1 k →
  wake_result s q ((wait_type =? WAIT_ON_FUTEX) && futex_says s p pr obj wait_value false k0 k1) pr wait_type obj max = (ws, ks) →
  sched_inv (woken (at_env s k) ws g) (wake_queues (sc_threads s) ws (set_wait ks q)) lk → Q (Z.of_nat (length ws)) (woken (at_env s k) ws g).

Lemma wp_wake_on_object s q lk p wait_type obj wait_value max (Q : Z → sched_state K → Prop) : sched_inv s q lk → runs_free lk → locked (lk wait_queue) = true →
  uint ARCH_WIDTH max → uint ARCH_WIDTH (Z.of_nat (length (q_wait q))) → futex_ok s p obj →
  wake_post s q lk p wait_type obj wait_value max Q → wp (wake_on_object p wait_type obj wait_value max) Q s.
Proof.
  intros HI Hf Hlk Hmax Hfit Hfx HQ. pose proof (proj1 Hfx) as [pr Hp]. rw /wake_on_object. wp_step. eapply wp_is_locked; [exact HI|apply seqs_wait|]. rw Hlk. wp_step. wp_step; [done|]. wp_step.
  assert (∀ k0 k1 k, span (sc_env s) k0 k1 k →
    (wait_type =? WAIT_ON_FUTEX) && futex_says s p pr obj wait_value false k0 k1 = false → Q 0 (at_env s k)) as Hno.
  { intros k0 k1 k Hspan Eb. refine (HQ pr [] (q_wait q) (sc_lists s) k0 k1 k Hp Hspan _ _); [by rw Eb|]. cbn. by destruct q. }
  rw /futex_says in Hno. destruct (wait_type =? WAIT_ON_FUTEX) eqn:Et; [|wp_step; wp_step; specialize (Hno (sc_env s) (sc_env s) (sc_env s)); destruct s; apply Hno; [apply span_refl|done]].
  wp_step. eapply wp_find_futex; [done|exact Hp|]. intros k a Hk Ha. fold a in Hno. cbn [andb] in Hno. destruct (ctrue a) eqn:Ea; [|wp_step; wp_step; apply (Hno k k k); [exact (conj Hk (conj (reflexivity k) (reflexivity k)))|done]].
  apply wp_futex_test; [apply Ha; intros E; by rw E in Ea|]. intros k1 k2 Hk1 Hk2. change (sc_env (at_env s k)) with k in Hk1 |- *. destruct (tested a wait_value false k k1) eqn:Eb; [|wp_step; apply (Hno k k1 k2); [done|done]].
  wp_step. eapply wp_deref; [exact Hp|].
  apply (wp_wake_loop (at_env s k2) q lk max (wakes pr wait_type obj)); [done|done|done|done|done|exact HI|].
  intros ws ks g Hs HI'. refine (HQ pr ws ks g k k1 k2 Hp _ _ HI'); [done|]. by rw Et /futex_says -/a Ea Eb.
Qed.

Lemma wp_wake_on_object_exclusive s q lk p wait_type obj wait_value max (Q : Z → sched_state K → Prop) : sched_inv s q lk → runs_free lk → lk wait_queue = SPINLOCK_INIT →
  uint ARCH_WIDTH max → uint ARCH_WIDTH (Z.of_nat (length (q_wait q))) → futex_ok s p obj →
  wake_post s q lk p wait_type obj wait_value max Q → wp (wake_on_object_exclusive p wait_type obj wait_value max) Q s.
Proof.
  intros HI Hf Hl Hmax Hfit Hfx HQ. rw /wake_on_object_exclusive. eapply wp_queue_access; [exact in_seqs_wait|exact HI|done|]. intros HL.
  eapply wp_wake_on_object; [exact HL|by apply wait_held_runs|apply wait_held_locked|done|done|done|].
  intros pr ws ks g k0 k1 k Hp Hspan Hs HI'. split; [done|]. eexists. split; [exact HI'|]. intros g' HIg. exact (HQ pr ws ks g' k0 k1 k Hp Hspan Hs HIg).
Qed.

(** *** Purging *)

Lemma wp_purge_wait_queue s q lk p pr (Q : Z → sched_state K → Prop) : sched_inv s q lk → runs_free lk → lk wait_queue = SPINLOCK_INIT →
  uint ARCH_WIDTH (Z.of_nat (length (q_wait q))) → sc_procs s !! p = Some pr →
  (∀ ws ks g, wake_split (accepts (λ th, t_pid th =? pr_pid pr) (sc_threads s)) (length (q_wait q)) (q_wait q) = (ws, ks) →
     sched_inv (woken s ws g) (wake_queues (sc_threads s) ws (set_wait ks q)) lk → Q (Z.of_nat (length ws)) (woken s ws g)) →
  wp (purge_wait_queue p) Q s.
Proof.
  intros HI Hf Hl Hfit Hp HQ. rw /purge_wait_queue. eapply wp_queue_access; [exact in_seqs_wait|exact HI|done|]. intros HL. wp_step. eapply wp_deref; [exact Hp|].
  apply (wp_wake_loop (wait_locked s) q (wait_held lk s) 0); [by apply wait_held_runs|apply wait_held_locked|done|split; [lia|apply Z.pow_pos_nonneg; arch_lia]|done|exact HL|].
  intros ws ks g Hs HI'. split; [done|]. eexists. split; [exact HI'|]. intros g' HIg. exact (HQ ws ks g' Hs HIg).
Qed.

(** *** Going to sleep *)

(** Before the threads that time out at the same time or later. *)
Fixpoint insert_wait (ths : gmap Z thread) (t : Z) (l : list Z) : list Z :=
  match l with
  | [] => [t]
  | x :: l' => if timeout_of ths t <=? timeout_of ths x then t :: l else x :: insert_wait ths t l'
  end.

Lemma nw_div t : nw t / 4 = t.
Proof. pose proof (thread_of_wait t) as E. by injection E. Qed.

Lemma compare_nw ths x t : wait_queue_compare ths (nw x) (nw t) =
  (if timeout_of ths t <? timeout_of ths x then 1 else if timeout_of ths x <? timeout_of ths t then -1 else 0).
Proof. by rw /wait_queue_compare !nw_div. Qed.

Lemma sorted_insert_nw ths t l : sorted_insert (wait_queue_compare ths) (nw t) (nw <$> l) = nw <$> insert_wait ths t l.
Proof.
  induction l as [|x l IH]; [done|]. cbn [fmap list_fmap sorted_insert insert_wait]. rw compare_nw.
  destruct (Z.leb_spec (timeout_of ths t) (timeout_of ths x)), (Z.ltb_spec (timeout_of ths t) (timeout_of ths x)), (Z.ltb_spec (timeout_of ths x) (timeout_of ths t)); try lia; cbn; try done; by f_equal.
Qed.

Lemma elem_of_insert_wait ths t l x : x ∈ insert_wait ths t l ↔ x = t ∨ x ∈ l.
Proof. induction l as [|y l IH]; cbn; [set_solver|]. destruct (_ <=? _); set_solver. Qed.

Lemma insert_wait_sorted ths t l : StronglySorted (earlier ths) l → StronglySorted (earlier ths) (insert_wait ths t l).
Proof.
  induction l as [|x l IH]; cbn; intros Hs; [repeat constructor|]. pose proof Hs as [Hs' Hall]%StronglySorted_inv.
  destruct (Z.leb_spec (timeout_of ths t) (timeout_of ths x)).
  - constructor; [done|]. constructor; [done|]. eapply Forall_impl; [exact Hall|]. intros y. rw /earlier. lia.
  - constructor; [auto|]. apply Forall_forall. intros y [->|Hy]%elem_of_insert_wait; [rw /earlier; lia|]. by apply (proj1 (Forall_forall _ _) Hall).
Qed.

(** A thread in no queue. *)
Definition idle_thread q t : Prop := (∀ c, 0 ≤ c < 6 → t ∉ q_run q c) ∧ (t ∉ q_wait q) ∧ t ∉ q_ipc q.

Lemma wp_sleep_thread s q lk t th e (Q : unit → sched_state K → Prop) : sched_inv s q (lock_at lk wait_queue (mk_spinlock true e)) → lk wait_queue = SPINLOCK_INIT → sc_int s = false →
  sc_threads s !! t = Some th → t_state th = THREAD_STATE_NORMAL → idle_thread q t →
  (∀ g, let s' := set_sc_int e (upd_sc_lists (λ _, g) (upd_sc_threads (alter (set_state THREAD_STATE_WAIT) t) s)) in
     sched_inv s' (set_wait (insert_wait (sc_threads s) t (q_wait q)) q) lk → Q tt s') → wp (sleep_thread t) Q s.
Proof.
  intros HI Hlk Hint Ht Hst (Hn & Hw & Hi) HQ. pose proof (proj2 HI) as Hok. destruct (to_thread _ _ _ Hok t th Ht) as (Ht0 & _ & Hl & _ & Hlv).
  rw /sleep_thread. wp_step. eapply wp_is_locked; [exact HI|apply seqs_wait|]. rw lock_at_same. wp_step. wp_step; [done|].
  wp_step. eapply wp_set_thread_state; [exact Ht|exact Hl|by rw Hst|]. wp_step. wp_step. wp_step. apply wp_on_lists.
  set (ths := alter (set_state THREAD_STATE_WAIT) t (sc_threads s)).
  assert (threads_ok ths (sc_lists s) q) as Hok1.
  { apply threads_ok_alter; [done| |done|done]. intros th' _ [(c & Hc & Hin)|[?|?]]; [by destruct (Hn c)|done..]. }
  eapply (wp_rep_insert_sorted _ _ (seqs q)); [apply HI|apply seqs_wait|by rw lock_at_same|done|apply unlinked_wait; [done|apply (to_procs _ _ _ Hok)|done|done]| |].
  { intros z (x & -> & Hx)%list_elem_of_fmap. rw !compare_nw. repeat case_match; lia. }
  intros g [Hr Hlg]. rw sorted_insert_nw seqs_set_wait in Hr.
  assert (∀ l, insert_wait ths t l = insert_wait (sc_threads s) t l) as Eins.
  { assert (∀ x, timeout_of ths x = timeout_of (sc_threads s) x) as E.
    { intros x. rw /timeout_of /ths. destruct (decide (x = t)) as [->|]; [rw lookup_alter_eq Ht //|by rw lookup_alter_ne; [congruence|]]. }
    intros l. induction l as [|x l IH]; [done|]. cbn. by rw !E IH. }
  assert (threads_ok ths g (set_wait (insert_wait (sc_threads s) t (q_wait q)) q)) as Hok2.
  { apply (threads_ok_live _ (sc_lists s)); [done|]. eapply threads_ok_queues; [exact Hok1|done|by left| |].
    - intros x [Hx|Hx]; [|left; by right]. cbn in Hx. apply elem_of_insert_wait in Hx as [->|Hx]; [right|left; by left].
      exists (set_state THREAD_STATE_WAIT th). by rw /ths lookup_alter_eq Ht.
    - cbn. rw -Eins. apply insert_wait_sorted. apply (to_sorted _ _ _ Hok1). }
  change (rep g (seqs (set_wait (insert_wait ths t (q_wait q)) q)) (lock_at lk wait_queue (mk_spinlock true e))) in Hr. rw Eins in Hr.
  destruct (Hr _ _ (seqs_wait _)) as [_ Eg]. rw lock_at_same in Eg.
  eapply (wp_spinlock_unlock_int (list_lock wait_queue)); [exact Eg|exact Hint|]. apply (HQ (lk_set (heap_lock wait_queue) SPINLOCK_INIT g)).
  split; [exact (rep_unlock_at _ _ _ _ _ Hlk Hr)|]. by apply (threads_ok_live _ g).
Qed.

Definition set_waiting (wait_type obj v : Z) (th : thread) : thread := set_wait_timeout v (set_wait_obj obj (set_wait_type wait_type th)).

(** When the wait ends: never, or [timeout_ms] after the clock showed [ms]. *)
Definition wake_time (timeout_ms ms : Z) : Z := if ctrue timeout_ms then u64 (ms + timeout_ms) else 2 ^ 64 - 1.

Lemma note_wait_map (ths : gmap Z thread) t th wait_type obj v w : ths !! t = Some th → t_lock th = SPINLOCK_INIT →
  alter (set_t_lock SPINLOCK_INIT) t (alter (set_wait_timeout v) t (alter (set_wait_obj obj) t (alter (set_wait_type wait_type) t (alter (set_t_lock w) t ths)))) =
  alter (set_waiting wait_type obj v) t ths.
Proof.
  intros Ht Hl. apply map_eq. intros x. destruct (decide (x = t)) as [->|Hne]; [|by rw !lookup_alter_ne; [congruence..|]].
  rw !lookup_alter_eq Ht. cbn. f_equal. rw -Hl. by destruct th.
Qed.

(** Noting what a thread waits for, under its lock. *)
Lemma wp_note_wait s t th wait_type obj timeout_ms (Q : unit → sched_state K → Prop) : sc_threads s !! t = Some th → t_lock th = SPINLOCK_INIT →
  (∀ ms k, env_le (sc_env s) k → env_time (sc_env s) ≤ ms ≤ env_time k → Q tt (at_env (upd_sc_threads (λ _, alter (set_waiting wait_type obj (wake_time timeout_ms ms)) t (sc_threads s)) s) k)) →
  wp (spinlock_exclusive_int (thread_lock t) (
      upd_thread t (set_wait_type wait_type);;
      upd_thread t (set_wait_obj obj);;
      v ← (if ctrue timeout_ms then ms ← on_sc_env env_get_ms; mret (u64 (ms + timeout_ms)) else mret (2 ^ 64 - 1));
      upd_thread t (set_wait_timeout v))) Q s.
Proof.
  intros Ht Hl HQ. eapply (wp_spinlock_exclusive_int (thread_lock t)); [cbn; by rw Ht /= Hl|done|].
  rw /locked_state. cbn [thread_lock lk_set lk_get]. set (s1 := upd_sc_threads _ _).
  assert (sc_threads s1 !! t = Some (set_t_lock (mk_spinlock true (sc_int s)) th)) as H1 by by rw /s1 /= lookup_alter_eq Ht.
  wp_step. apply wp_upd_thread; [by rw H1|]. wp_step. apply wp_upd_thread; [apply lookup_alter_is_Some; by rw H1|]. wp_step.
  assert (∀ ms k, env_le (sc_env s) k → env_time (sc_env s) ≤ ms ≤ env_time k → wp (upd_thread t (set_wait_timeout (wake_time timeout_ms ms)))
     (λ _ s', lk_get (thread_lock t) s' = Some (mk_spinlock true (sc_int s)) ∧ sc_int s' = false ∧ Q tt (set_sc_int (sc_int s) (upd_sc_threads (alter (set_t_lock SPINLOCK_INIT) t) s')))
     (at_env (upd_sc_threads (alter (set_wait_obj obj) t) (upd_sc_threads (alter (set_wait_type wait_type) t) s1)) k)) as Hend.
  { intros ms k Hle Hms. apply wp_upd_thread; [do 2 apply lookup_alter_is_Some; by rw H1|]. split; [cbn; by rw !lookup_alter_eq Ht|]. split; [done|].
    specialize (HQ ms k Hle Hms). rw -(note_wait_map _ t th wait_type obj (wake_time timeout_ms ms) (mk_spinlock true (sc_int s)) Ht Hl) in HQ. exact HQ. }
  rw /wake_time in Hend. destruct (ctrue timeout_ms).
  - wp_step. apply wp_get_ms. intros ms k Hle Hms. wp_step. eapply wp_mono; [exact (Hend ms k Hle Hms)|]. intros [] s' Hs'. exact Hs'.
  - wp_step. specialize (Hend (env_time (sc_env s)) (sc_env s) (reflexivity _) (conj (Z.le_refl _) (Z.le_refl _))). eapply wp_mono; [exact Hend|]. intros [] s' Hs'. exact Hs'.
Qed.

(** Whether the thread is to wait. *)
Definition waits s p pr wait_type obj wait_value (k0 k1 : K) : bool :=
  if wait_type =? WAIT_ON_TIMEOUT then true else (wait_type =? WAIT_ON_FUTEX) && futex_says s p pr obj wait_value true k0 k1.

(** The lock of the wait queue is kept exactly when the thread is to sleep. *)
Definition wait_post s q lk p t wait_type obj wait_value timeout_ms (Q : Z → sched_state K → Prop) : Prop := ∀ pr th k0 k1 k,
  sc_procs s !! p = Some pr → sc_threads s !! t = Some th → span (sc_env s) k0 k1 k →
  if waits s p pr wait_type obj wait_value k0 k1 then ∀ ms, env_time (sc_env s) ≤ ms ≤ env_time k →
    let s' := at_env (upd_sc_threads (alter (set_waiting wait_type (if wait_type =? WAIT_ON_TIMEOUT then t_tid th else obj) (wake_time timeout_ms ms)) t) (wait_locked s)) k in
    sched_inv s' q (wait_held lk s) → Q 0 s'
  else ∀ g, sched_inv (at_env (upd_sc_lists (λ _, g) s) k) q lk → Q (-1) (at_env (upd_sc_lists (λ _, g) s) k).

Lemma wp_wait_on_object s q lk p t th wait_type obj wait_value timeout_ms (Q : Z → sched_state K → Prop) : sched_inv s q lk → lk wait_queue = SPINLOCK_INIT →
  sc_threads s !! t = Some th → t ∉ q_wait q → futex_ok s p obj →
  wait_post s q lk p t wait_type obj wait_value timeout_ms Q → wp (wait_on_object p t wait_type obj wait_value timeout_ms) Q s.
Proof.
  intros HI Hlk Ht Hn Hfx HQ. pose proof (proj1 Hfx) as [pr Hp]. pose proof (lock_inv wait_queue _ _ _ HI) as HL.
  destruct (to_thread _ _ _ (proj2 HI) t th Ht) as (_ & _ & Hl & _).
  destruct ((proj1 HI) _ _ (seqs_wait q)) as [_ Eg]. rw Hlk in Eg.
  rw /wait_on_object. wp_step. eapply (wp_spinlock_lock_int (list_lock wait_queue)); [exact Eg|done|].
  change (locked_state (list_lock wait_queue) s) with (wait_locked s). wp_step. eapply wp_get_thread; [exact Ht|]. wp_step.
  assert (∀ k0 k1 k b obj' err, span (sc_env s) k0 k1 k →
    b = waits s p pr wait_type obj wait_value k0 k1 → (b = true → obj' = (if wait_type =? WAIT_ON_TIMEOUT then t_tid th else obj) ∧ err = 0) →
    wp (panic_if (ctrue err && b);; if b : bool then spinlock_exclusive_int (thread_lock t) (
      upd_thread t (set_wait_type wait_type);; upd_thread t (set_wait_obj obj');;
      v ← (if ctrue timeout_ms then ms ← on_sc_env env_get_ms; mret (u64 (ms + timeout_ms)) else mret (2 ^ 64 - 1));
      upd_thread t (set_wait_timeout v));; mret err
    else spinlock_unlock_int (list_lock wait_queue);; mret (-1)) Q (at_env (wait_locked s) k)) as Hend.
  { intros k0 k1 k b obj' err Hspan Eb Hb. wp_step. specialize (HQ pr th k0 k1). rw -Eb in HQ. destruct b.
    - destruct (Hb eq_refl) as [-> ->]. wp_step; [done|]. wp_step. eapply wp_note_wait; [exact Ht|done|]. intros ms k2 Hle Hms. wp_step.
      refine (HQ k2 Hp Ht (span_last _ _ _ _ _ Hspan Hle) ms _ _); [pose proof (env_le_time _ _ (proj1 Hspan)); pose proof (env_le_time _ _ (proj1 (proj2 Hspan))); pose proof (env_le_time _ _ (proj2 (proj2 Hspan))); cbn in Hms; lia|]. destruct HL as [Hr Hok]. split; [exact Hr|]. by apply threads_ok_alter.
    - wp_step; [by rw andb_false_r|]. wp_step. eapply (wp_spinlock_unlock_int (list_lock wait_queue) _ _ (sc_int s)); [|done|].
      + destruct HL as [Hr _]. destruct (Hr _ _ (seqs_wait q)) as [_ E]. rw /held lock_at_same in E. exact E.
      + wp_step. refine (HQ k Hp Ht Hspan _ _). exact (unlock_inv wait_queue s (at_env (wait_locked s) k) q lk Hlk HL). }
  assert (wait_locked s = at_env (wait_locked s) (sc_env s)) as Es by reflexivity. rw /waits in Hend.
  destruct (wait_type =? WAIT_ON_TIMEOUT) eqn:E1; [wp_step; rw Es; apply (Hend (sc_env s) (sc_env s) (sc_env s) true (t_tid th) 0); [apply span_refl|done|done]|].
  destruct (wait_type =? WAIT_ON_FUTEX) eqn:E2; [|wp_step; rw Es; apply (Hend (sc_env s) (sc_env s) (sc_env s) false obj (-1)); [apply span_refl|done|done]].
  wp_step. eapply (wp_find_futex _ _ pr); [exact Hfx|exact Hp|]. intros k a Hk Ha. change (futex_addr (wait_locked s) p pr obj) with (futex_addr s p pr obj) in a.
  rw /futex_says -/a in Hend. destruct (ctrue a) eqn:Ea; [|wp_step; apply (Hend k k k false obj (-1)); [exact (conj Hk (conj (reflexivity k) (reflexivity k)))|done|done]].
  wp_step. apply wp_futex_test; [apply Ha; intros E; by rw E in Ea|]. intros k1 k2 Hk1 Hk2. wp_step. apply (Hend k k1 k2 _ obj 0); [exact (conj Hk (conj Hk1 Hk2))|done|done].
Qed.
End Waking.
