(* ===== verification/SchedProps.v ===== *)
(** The theorems about scheduling and waiting: which thread runs next, who is
    woken and when, that no thread is lost by system calls that yield, wait and
    wake, and two ways in which the code loses one or stops. *)

From stdpp Require Import base list gmap sorting.
From Stdlib Require Import ZArith Lia.
From Corelib Require Import ssreflect.
From S2P Require Import Prelude Bits Lock List ListSpec ListRep Sched Wait Ipc SchedSpec WaitSpec.

Section Props.
Context `{Harch : Arch} {K : Type} `{Henv : SchedEnv K} `{!SchedEnvLaws K}.
Implicit Types (s : sched_state K) (q : queues) (lk : Z → spinlock_t) (t c : Z) (R : gset Z).

(** *** What system calls leave alone *)

Definition ident (th : thread) : Z * Z * Z := (t_tid th, t_pid th, t_ref_count th).

(** Ids, reference counts, processes and the lists of threads and processes stay. *)
Record frame s q s' q' : Prop := {
  fr_idents : ident <$> sc_threads s' = ident <$> sc_threads s;
  fr_procs : sc_procs s' = sc_procs s;
  fr_kernel : sc_kernel_proc s' = sc_kernel_proc s;
  fr_lists : q_threads q' = q_threads q ∧ q_procs q' = q_procs q
}.

(** And an idle thread that can run. *)
Definition keeps s q s' q' : Prop := frame s q s' q' ∧ (q_run q' SCHED_CLASS_IDLE = [] → q_run q SCHED_CLASS_IDLE = []).

Lemma sched_frame_trans s q s1 q1 s2 q2 : frame s q s1 q1 → frame s1 q1 s2 q2 → frame s q s2 q2.
Proof. intros [A1 A2 A3 [A4 A5]] [B1 B2 B3 [B4 B5]]. split; [congruence..|split; congruence]. Qed.

(** *** Where the threads are *)

(** Every thread that can run is running or in the run queue of its class, and every waiting thread is in a wait queue. *)
Definition located (ths : gmap Z thread) q R : Prop := ∀ t th, ths !! t = Some th →
  (t_state th = THREAD_STATE_NORMAL → t ∈ R ∨ t ∈ q_run q (t_sched_class th)) ∧ (t_state th = THREAD_STATE_WAIT → t ∈ q_wait q ∨ t ∈ q_ipc q).

(** [R] are the threads that are running on some processor: they can run and are in no queue. *)
Record sys_inv lk s q R : Prop := {
  si_queues : sched_inv s q lk;
  si_located : located (sc_threads s) q R;
  si_running : ∀ t, t ∈ R → ∃ th, sc_threads s !! t = Some th ∧ t_state th = THREAD_STATE_NORMAL ∧ ∀ c, 0 ≤ c < 6 → t ∉ q_run q c;
  si_size : Z.of_nat (size (sc_threads s)) < 2 ^ ARCH_WIDTH
}.

Lemma length_threads (ths : gmap Z thread) (l : list Z) : NoDup l → (∀ t, t ∈ l → is_Some (ths !! t)) → (length l ≤ size ths)%nat.
Proof.
  intros Hnd Hin. rw -(size_list_to_set (C := gset Z)) // -size_dom. apply subseteq_size. intros t. rw elem_of_list_to_set elem_of_dom. apply Hin.
Qed.

Lemma run_nodup s q lk c : sched_inv s q lk → 0 ≤ c < 6 → NoDup (q_run q c).
Proof. intros [Hr _] Hc. apply (NoDup_fmap_1 ns). exact (il_nodup _ _ _ (rep_is_list _ _ _ _ _ Hr (seqs_run q c Hc))). Qed.

Lemma sched_inv_counts s q lk : sched_inv s q lk → Z.of_nat (size (sc_threads s)) < 2 ^ ARCH_WIDTH → counts_fit q.
Proof.
  intros HI Hsz c Hc. pose proof (length_threads (sc_threads s) (q_run q c) (run_nodup _ _ _ _ HI Hc)) as Hl.
  assert (∀ t, t ∈ q_run q c → is_Some (sc_threads s !! t)) as Hin by (intros t Ht; destruct (to_run _ _ _ (proj2 HI) c t Hc Ht) as (th & -> & _); eauto).
  specialize (Hl Hin). lia.
Qed.

Lemma sched_inv_wait_fits s q lk : sched_inv s q lk → Z.of_nat (size (sc_threads s)) < 2 ^ ARCH_WIDTH → uint ARCH_WIDTH (Z.of_nat (length (q_wait q))).
Proof.
  intros HI Hsz. pose proof (length_threads (sc_threads s) (q_wait q) (wait_nodup _ _ _ HI)) as Hl.
  assert (∀ t, t ∈ q_wait q → is_Some (sc_threads s !! t)) as Hin by (intros t Ht; destruct (to_wait _ _ _ (proj2 HI) t (or_introl Ht)) as (th & -> & _); eauto).
  specialize (Hl Hin). rw /uint. lia.
Qed.

(** A running thread waits nowhere. *)
Lemma running_idle lk s q R t : sys_inv lk s q R → t ∈ R → ∃ th, sc_threads s !! t = Some th ∧ t_state th = THREAD_STATE_NORMAL ∧ idle_thread q t.
Proof.
  intros HI HR. destruct (si_running _ _ _ _ HI t HR) as (th & Ht & Hst & Hn). exists th. split; [done|]. split; [done|]. split; [done|].
  assert (¬ (t ∈ q_wait q ∨ t ∈ q_ipc q)) as Hw; [|tauto]. intros Hw. destruct (to_wait _ _ _ (proj2 (si_queues _ _ _ _ HI)) t Hw) as (th' & Ht' & Hs'). congruence.
Qed.

(** *** Choosing the next thread *)

Lemma first_of_some q cs c t : first_of q cs = Some (c, t) → c ∈ cs ∧ ∃ l, q_run q c = t :: l.
Proof.
  induction cs as [|c' cs IH]; cbn; [done|]. destruct (q_run q c') as [|t' l] eqn:E; [intros H; destruct (IH H); split; [by right|done]|].
  intros [= <- <-]. split; [by left|eauto].
Qed.

Lemma classes_range ready c : c ∈ classes ready → 0 ≤ c < 6.
Proof. rw /classes !elem_of_app. destruct ready; rw !elem_of_cons !elem_of_nil /SCHED_CLASS_REAL_TIME /SCHED_CLASS_INTERRUPT /SCHED_CLASS_TIMER /SCHED_CLASS_NORMAL /SCHED_CLASS_IDLE; lia. Qed.

(** The chosen thread leaves its queue and runs. *)
Lemma sched_step s q R t s' : sys_inv unlocked s q R → sched_post s q unlocked t s' → ∃ q', sys_inv unlocked s' q' (R ∪ {[t]}) ∧ frame s q s' q' ∧ t ∉ R.
Proof.
  intros HI ((g & k & _ & ->) & ready & c & _ & Hfi & HI'). apply first_of_some in Hfi as [Hc [l El]]. apply classes_range in Hc.
  destruct (to_run _ _ _ (proj2 (si_queues _ _ _ _ HI)) c t Hc ltac:(rw El; by left)) as (th & Ht & Hst & Hcl).
  pose proof (run_nodup _ _ _ _ (si_queues _ _ _ _ HI) Hc) as Hnd. rw El in Hnd. apply NoDup_cons in Hnd as [Htl _]. rw El in HI'. cbn [tail] in HI'.
  exists (set_run c l q). split; [split|split; [done|]].
  - exact HI'.
  - intros x thx Hx. destruct (si_located _ _ _ _ HI x thx Hx) as [L1 L2]. split; [|exact L2]. intros Hn. destruct (L1 Hn) as [HR|Hq]; [left; set_solver|].
    cbn. case_decide as Ed; [|by right]. rw Ed El in Hq. apply elem_of_cons in Hq as [->|Hq]; [left; set_solver|by right].
  - intros x [HR| ->%elem_of_singleton]%elem_of_union.
    + destruct (si_running _ _ _ _ HI x HR) as (thx & Hx & Hsx & Hnx). exists thx. split; [done|]. split; [done|]. intros c' Hc'. cbn. case_decide as Ed; [|by apply Hnx].
      intros Hin. apply (Hnx c Hc). rw El. by right.
    + exists th. split; [done|]. split; [done|]. intros c' Hc'. cbn. case_decide as Ed; [done|]. intros Hin. destruct (to_run _ _ _ (proj2 (si_queues _ _ _ _ HI)) c' t Hc' Hin) as (th' & Ht' & _ & Hcl'). congruence.
  - apply (si_size _ _ _ _ HI).
  - intros HR. destruct (si_running _ _ _ _ HI t HR) as (thx & Hx & Hsx & Hnx). apply (Hnx c Hc). rw El. by left.
Qed.

Lemma map_size_alter (f : thread → thread) t (m : gmap Z thread) : size (alter f t m) = size m.
Proof. by rw -!size_dom dom_alter_L. Qed.

(** Only the rest of the kernel has changed. *)
Lemma sys_inv_env lk s q R k : sys_inv lk s q R → sys_inv lk (at_env s k) q R.
Proof. by intros [H1 H2 H3 H4]. Qed.

Lemma wpn_sched s q R : sys_inv unlocked s q R → wpn (q_run q SCHED_CLASS_IDLE = []) sched (λ t' s', ∃ q', sys_inv unlocked s' q' (R ∪ {[t']}) ∧ frame s q s' q' ∧ t' ∉ R) s.
Proof.
  intros HI. pose proof (wp_sched s q unlocked (si_queues _ _ _ _ HI) runs_free_unlocked eq_refl (sched_inv_counts _ _ _ (si_queues _ _ _ _ HI) (si_size _ _ _ _ HI))) as [Hp Hw].
  rw /wpn. rw /wpp in Hp. rw /wp in Hw. destruct (sched s) as [[t' s']| | |]; [exact (sched_step _ _ _ _ _ HI Hp)| |done|done].
  destruct (q_run q SCHED_CLASS_IDLE); [done|]. exfalso. by apply Hw.
Qed.

(** *** Yielding *)

Lemma sys_inv_put s q R t th g : sys_inv unlocked s q R → t ∈ R → sc_threads s !! t = Some th → sched_inv (upd_sc_lists (λ _, g) s) (push_run (t_sched_class th) t q) unlocked →
  sys_inv unlocked (upd_sc_lists (λ _, g) s) (push_run (t_sched_class th) t q) (R ∖ {[t]}).
Proof.
  intros HI HR Ht HI'. split; [exact HI'| | |apply (si_size _ _ _ _ HI)].
  - intros x thx Hx. destruct (si_located _ _ _ _ HI x thx Hx) as [L1 L2]. split; [|exact L2]. intros Hn. cbn. destruct (decide (x = t)) as [->|Hne].
    + right. assert (thx = th) as -> by (cbn in Hx; congruence). rw decide_True //. set_solver.
    + destruct (L1 Hn) as [HRx|Hq]; [left; set_solver|right]. case_decide as Ed; [|done]. rw -Ed. set_solver.
  - intros x [HRx Hne]%elem_of_difference. destruct (si_running _ _ _ _ HI x HRx) as (thx & Hx & Hsx & Hnx). exists thx. split; [done|]. split; [done|].
    intros c Hc. cbn. case_decide as Ed; [|by apply Hnx]. rw Ed in Hc. specialize (Hnx _ Hc). set_solver.
Qed.

(** *** Waiting *)

Lemma sys_inv_sleep lk s q R t th f l s' : sys_inv lk s q R → t ∈ R → sc_threads s !! t = Some th → (∀ x, x ∈ l ↔ x = t ∨ x ∈ q_wait q) →
  (∀ th, t_state (f th) = THREAD_STATE_WAIT) → sc_threads s' = alter f t (sc_threads s) → sched_inv s' (set_wait l q) unlocked →
  sys_inv unlocked s' (set_wait l q) (R ∖ {[t]}).
Proof.
  intros HI HR Ht Hl Hf Es HI'. split; [exact HI'| | |].
  - intros x thx. rw Es. destruct (decide (x = t)) as [->|Hne].
    + rw lookup_alter_eq Ht. intros [= <-]. rw Hf. split; [done|]. intros _. left. cbn. apply Hl. by left.
    + rw lookup_alter_ne; [congruence|]. intros Hx. destruct (si_located _ _ _ _ HI x thx Hx) as [L1 L2]. split; intros Hs.
      * destruct (L1 Hs); [left; set_solver|by right].
      * destruct (L2 Hs); [left; cbn; apply Hl; by right|by right].
  - intros x [HRx Hne]%elem_of_difference. rw Es lookup_alter_ne; [set_solver|]. exact (si_running _ _ _ _ HI x HRx).
  - rw Es map_size_alter. apply (si_size _ _ _ _ HI).
Qed.

(** *** Waking *)

Lemma wake_split_elem p n l ws ks x : wake_split p n l = (ws, ks) → x ∈ l ↔ x ∈ ws ∨ x ∈ ks.
Proof.
  revert n ws ks. induction l as [|y l IH]; intros [|n] ws ks; [by intros [= <- <-]; set_solver..|]. cbn [wake_split]. destruct (p y).
  - destruct (wake_split p n l) as [w k] eqn:E. intros [= <- <-]. apply IH in E. set_solver.
  - destruct (wake_split p (S n) l) as [w k] eqn:E. intros [= <- <-]. apply IH in E. set_solver.
Qed.

Lemma wake_queues_procs ths ws q : q_procs (wake_queues ths ws q) = q_procs q.
Proof. revert q. induction ws as [|t ws IH]; intros q; [done|]. apply (IH (push_run (class_of ths t) t q)). Qed.

Lemma sys_inv_wake s q R ws ks g k : sys_inv unlocked s q R → (∀ x, x ∈ q_wait q ↔ x ∈ ws ∨ x ∈ ks) →
  sched_inv (woken (at_env s k) ws g) (wake_queues (sc_threads s) ws (set_wait ks q)) unlocked → sys_inv unlocked (woken (at_env s k) ws g) (wake_queues (sc_threads s) ws (set_wait ks q)) R.
Proof.
  intros HI Hl HI'. destruct (wake_queues_rest (sc_threads s) ws (set_wait ks q)) as [Ew Ei].
  split; [exact HI'| | |].
  - intros x thx. change (sc_threads (woken (at_env s k) ws g)) with (wake_threads ws (sc_threads s)). rw wake_queues_run Ew Ei wake_threads_lookup. destruct (sc_threads s !! x) as [th|] eqn:Hx; [|done]. cbn. intros [= <-].
    destruct (si_located _ _ _ _ HI x th Hx) as [L1 L2]. case_decide as Ed.
    + split; [|done]. intros _. right. rw elem_of_app list_elem_of_filter. right. split; [|done]. by rw /class_of Hx.
    + split; intros Hs; [destruct (L1 Hs); [by left|right; rw elem_of_app; by left]|]. destruct (L2 Hs) as [Hw|]; [|by right]. apply Hl in Hw as [|]; [done|by left].
  - intros x HR. destruct (running_idle _ _ _ _ _ HI HR) as (th & Hx & Hs & (Hn & Hw & _)). exists th.
    assert (x ∉ ws) as Hnw by (intros Hin; apply Hw; apply Hl; by left). change (sc_threads (woken (at_env s k) ws g)) with (wake_threads ws (sc_threads s)).
    rw wake_threads_lookup Hx decide_False //. split; [done|]. split; [done|]. intros c Hc. rw wake_queues_run elem_of_app list_elem_of_filter. intros [Hin|[_ Hin]]; [by apply (Hn c Hc)|done].
  - assert (size (wake_threads ws (sc_threads s)) = size (sc_threads s)) as E; [|change (Z.of_nat (size (wake_threads ws (sc_threads s))) < 2 ^ ARCH_WIDTH); rw E; apply (si_size _ _ _ _ HI)].
    clear. rw /wake_threads. generalize (sc_threads s). induction ws as [|t ws IH]; intros m; [done|]. cbn. by rw IH map_size_alter.
Qed.

Lemma idents_alter f t (m : gmap Z thread) : (∀ th, ident (f th) = ident th) → ident <$> alter f t m = ident <$> m.
Proof.
  intros Hf. apply map_eq. intros x. rw !lookup_fmap. destruct (decide (x = t)) as [->|]; [rw lookup_alter_eq|by rw lookup_alter_ne; [congruence|]].
  destruct (m !! t); [cbn; by rw Hf|done].
Qed.

Lemma idents_wake ws (m : gmap Z thread) : ident <$> wake_threads ws m = ident <$> m.
Proof. revert m. induction ws as [|t ws IH]; intros m; [done|]. cbn. fold (wake_threads ws (alter (set_state THREAD_STATE_NORMAL) t m)). by rw IH idents_alter. Qed.

Lemma keeps_wake s q ws ks g k : keeps s q (woken (at_env s k) ws g) (wake_queues (sc_threads s) ws (set_wait ks q)).
Proof.
  split; [split; [apply idents_wake|done|done|]|].
  - assert (∀ q1, q_threads q1 = q_threads q ∧ q_procs q1 = q_procs q → q_threads (wake_queues (sc_threads s) ws q1) = q_threads q ∧ q_procs (wake_queues (sc_threads s) ws q1) = q_procs q) as Hq; [|by apply Hq].
    induction ws as [|t ws IH]; intros q1; [done|]. intros H1. by apply (IH (push_run (class_of (sc_threads s) t) t q1)).
  - rw wake_queues_run. by intros [? _]%app_nil.
Qed.

(** Changing what a running thread notes about itself, or a reference count. *)
Lemma sys_inv_alter lk s q R t f : sys_inv lk s q R → (∀ th, t_sched_class (f th) = t_sched_class th ∧ t_lock (f th) = t_lock th ∧ t_state (f th) = t_state th) →
  (∀ th, t_wait_timeout_ms (f th) = t_wait_timeout_ms th) ∨ t ∉ q_wait q → sys_inv lk (upd_sc_threads (alter f t) s) q R.
Proof.
  intros HI Hf Ht. assert (∀ x th', alter f t (sc_threads s) !! x = Some th' → ∃ th, sc_threads s !! x = Some th ∧ t_sched_class th' = t_sched_class th ∧ t_state th' = t_state th) as Hx.
  { intros x th'. destruct (decide (x = t)) as [->|]; [rw lookup_alter_eq|rw lookup_alter_ne; [congruence|]; eauto].
    destruct (sc_threads s !! t) as [th|] eqn:E; [|done]. intros [= <-]. exists th. destruct (Hf th) as (? & _ & ?). done. }
  split.
  - destruct (si_queues _ _ _ _ HI) as [Hr Hok]. split; [exact Hr|]. apply threads_ok_alter; [intros th; destruct (Hf th) as (? & ? & _); done|intros th _ _; apply Hf| |done].
    intros th _ Hin. destruct Ht as [Ht|Ht]; [apply Ht|done].
  - intros x th' Hx'. destruct (Hx x th' Hx') as (th & Eth & -> & ->). exact (si_located _ _ _ _ HI x th Eth).
  - intros x HR. destruct (si_running _ _ _ _ HI x HR) as (th & Eth & Hst & Hn). assert (is_Some (alter f t (sc_threads s) !! x)) as [th' E'] by (apply lookup_alter_is_Some; eauto).
    exists th'. split; [done|]. split; [|done]. destruct (Hx x th' E') as (th2 & E2 & _ & ->). congruence.
  - cbn. rw map_size_alter. apply (si_size _ _ _ _ HI).
Qed.

Lemma sys_inv_procs lk s q R f : sys_inv lk s q R → sys_inv lk (upd_sc_procs f s) q R.
Proof. by intros [H1 H2 H3 H4]. Qed.

(** *** The system calls *)

Inductive syscall := Yield | Wait (a b c : Z) | Wake (a b c : Z).

Definition handler_of (call : syscall) (p t : Z) : M (sched_state K) Z :=
  match call with
  | Yield => syscall_handler_thread_yield t
  | Wait a b c => syscall_handler_wait p t a b c
  | Wake a b c => syscall_handler_wake p t a b c
  end.

(** The arguments are words; a futex of the kernel's own process, which is read
    without translation, is at an address that can be read. *)
Definition call_ok s (call : syscall) (p : Z) : Prop :=
  match call with
  | Yield => True
  | Wait a b c | Wake a b c => uint ARCH_WIDTH c ∧ (p = sc_kernel_proc s → env_readable b)
  end.

(** The calls that wait for something that does not exist. *)
Definition unknown_wait (call : syscall) : bool :=
  match call with
  | Wait a _ _ => negb (s32 a =? WAIT_ON_TIMEOUT) && negb (s32 a =? WAIT_ON_FUTEX)
  | _ => false
  end.

(** The state between the handler and the end of [dispatch]. *)
Definition handled_ok (e : bool) q R (handled : Z) s : Prop :=
  (handled = SYSCALL_HANDLED_CONTINUE ∨ handled = SYSCALL_HANDLED_SAVE_RESCHED) ∧ sys_inv unlocked s q R ∨
  handled = SYSCALL_HANDLED_SAVE_SLEEP ∧ sc_int s = false ∧ sys_inv (lock_at unlocked wait_queue (mk_spinlock true e)) s q R.

Lemma wp_env_step {X} s (m : M K X) (Q : X → sched_state K → Prop) : (∀ k, wp m (λ _ k', env_le k k') k) → (∀ a k, env_le (sc_env s) k → Q a (at_env s k)) → wp (on_sc_env m) Q s.
Proof. intros Hm HQ. apply wp_sc_env. eapply wp_mono; [apply Hm|]. intros a k Hk. by apply HQ. Qed.

Lemma wp_handler_wait s q R p t a b c : sys_inv unlocked s q R → t ∈ R → is_Some (sc_procs s !! p) → call_ok s (Wait a b c) p → unknown_wait (Wait a b c) = false →
  wp (syscall_handler_wait p t a b c) (λ h s', h ≠ SYSCALL_HANDLED_SAVE_RESCHED ∧ ∃ q', keeps s q s' q' ∧ handled_ok (sc_int s) q' R h s') s.
Proof.
  intros HI HR Hp [_ Hrd] Hk.
  assert (s32 a = WAIT_ON_TIMEOUT ∨ s32 a = WAIT_ON_FUTEX) as Ha
    by (cbn in Hk; destruct (Z.eqb_spec (s32 a) WAIT_ON_TIMEOUT); [by left|]; destruct (Z.eqb_spec (s32 a) WAIT_ON_FUTEX); [by right|done]).
  destruct (running_idle _ _ _ _ _ HI HR) as (th & Ht & Hst & (Hn & Hw & _)).
  assert (∀ v w, wp (wait_on_object p t (s32 a) b v w) (λ err s', if ctrue err then ∃ g k, s' = at_env (upd_sc_lists (λ _, g) s) k ∧ sched_inv s' q unlocked
    else ∃ o ms k, s' = at_env (upd_sc_threads (alter (set_waiting (s32 a) o ms) t) (locked_sc wait_queue s)) k ∧ sched_inv s' q (held wait_queue unlocked s)) s) as Hwait.
  { intros v w. eapply wp_wait_on_object; [apply HI|done|exact Ht|exact Hw|by split|]. intros pr th' k0 k1 k _ _ _.
    destruct (waits _ _ _ _ _ _ _ _); [intros ms _ s' HI'|intros g HI']; cbn; eauto 7. }
  rw /syscall_handler_wait. wp_step.
  assert (∀ m, m = wait_on_object p t (s32 a) b 0 c ∨ m = wait_on_object p t (s32 a) b c 0 → wp m (λ err, wp (on_sc_env (env_set_regs t 0 (ulong err));; mret (if ctrue err then SYSCALL_HANDLED_CONTINUE else SYSCALL_HANDLED_SAVE_SLEEP))
    (λ h s', h ≠ SYSCALL_HANDLED_SAVE_RESCHED ∧ ∃ q', keeps s q s' q' ∧ handled_ok (sc_int s) q' R h s')) s) as Hm.
  { intros m Em. eapply wp_mono; [destruct Em as [-> | ->]; apply Hwait|]. intros err s' Hs'. wp_step. apply wp_env_step; [intros k; apply env_set_regs_ok|]. intros _ k' _. wp_step.
    cbn beta in Hs'. destruct (ctrue err).
    - destruct Hs' as (g & k & -> & HI'). split; [done|]. exists q. split; [done|]. left. split; [by left|]. destruct HI as [J1 J2 J3 J4]. by split.
    - destruct Hs' as (o & ms & k & -> & HI'). split; [done|]. exists q. split; [split; [split; [by apply idents_alter|done..]|done]|]. right. split; [done|]. split; [done|].
      assert (sys_inv (held wait_queue unlocked s) (locked_sc wait_queue s) q R) as HIL by (destruct HI as [J1 J2 J3 J4]; split; [exact (lock_inv _ _ _ _ J1)|done..]).
      destruct (sys_inv_alter _ _ _ _ t (set_waiting (s32 a) o ms) HIL) as [J1 J2 J3 J4]; [done|by right|]. by split. }
  destruct Ha as [E|E]; rw E; [rw (Z.eqb_refl WAIT_ON_TIMEOUT)|rw (Z.eqb_refl WAIT_ON_FUTEX); change (WAIT_ON_FUTEX =? WAIT_ON_TIMEOUT) with false; cbn iota]; rw -E; apply Hm; auto.
Qed.

Lemma wake_result_elem s q b pr wait_type obj max ws ks x : wake_result s q b pr wait_type obj max = (ws, ks) → x ∈ q_wait q ↔ x ∈ ws ∨ x ∈ ks.
Proof. rw /wake_result. destruct b; [apply wake_split_elem|intros [= <- <-]; set_solver]. Qed.

Lemma wp_handler_wake s q R p t a b c : sys_inv unlocked s q R → is_Some (sc_procs s !! p) → call_ok s (Wake a b c) p →
  wp (syscall_handler_wake p t a b c) (λ h s', h = SYSCALL_HANDLED_CONTINUE ∧ ∃ q', keeps s q s' q' ∧ sys_inv unlocked s' q' R) s.
Proof.
  intros HI Hp [Hc Hrd]. rw /syscall_handler_wake. wp_step.
  assert (∀ v w (Q : Z → sched_state K → Prop), uint ARCH_WIDTH w → (∀ n s' q', keeps s q s' q' → sys_inv unlocked s' q' R → Q n s') → wp (wake_on_object_exclusive p (s32 a) b v w) Q s) as Hwake.
  { intros v w Q Hw HQ. eapply wp_wake_on_object_exclusive; [apply HI|apply runs_free_unlocked|done|done|exact (sched_inv_wait_fits _ _ _ (si_queues _ _ _ _ HI) (si_size _ _ _ _ HI))|by split|].
    intros pr ws ks g k0 k1 k _ _ Hres HI'. apply (HQ _ _ (wake_queues (sc_threads s) ws (set_wait ks q))); [apply keeps_wake|].
    apply sys_inv_wake; [done| |exact HI']. intros x. exact (wake_result_elem _ _ _ _ _ _ _ _ _ x Hres). }
  assert (∀ n s' q', keeps s q s' q' → sys_inv unlocked s' q' R → wp (on_sc_env (env_set_regs t 0 n);; mret SYSCALL_HANDLED_CONTINUE)
    (λ h s', h = SYSCALL_HANDLED_CONTINUE ∧ ∃ q', keeps s q s' q' ∧ sys_inv unlocked s' q' R) s') as Hend.
  { intros n s' q' [[F1 F2 F3 F4] F5] HI'. wp_step. apply wp_env_step; [intros k; apply env_set_regs_ok|]. intros _ k _. wp_step. split; [done|]. exists q'. split; [done|by apply sys_inv_env]. }
  assert (uint ARCH_WIDTH 0) as H0 by (split; [lia|apply Z.pow_pos_nonneg; arch_lia]).
  destruct (s32 a =? WAIT_ON_TIMEOUT); [by apply Hwake|]. destruct (s32 a =? WAIT_ON_FUTEX); [by apply Hwake|].
  wp_step. by apply (Hend 0 s q).
Qed.

Lemma handled_ok_env e q R h s k : handled_ok e q R h s → handled_ok e q R h (at_env s k).
Proof. intros [[? ?]|(? & ? & ?)]; [left; split; [done|by apply sys_inv_env]|right; split; [done|]; split; [done|by apply sys_inv_env]]. Qed.

Lemma wp_handle s q R call p t : sys_inv unlocked s q R → t ∈ R → is_Some (sc_procs s !! p) → call_ok s call p → unknown_wait call = false →
  wp (handle (handler_of call) p t) (λ h s', ∃ q', keeps s q s' q' ∧ handled_ok (sc_int s) q' R h s') s.
Proof.
  intros HI HR Hp Hok Hk. rw /handle. wp_step.
  assert (wp (handler_of call p t) (λ h s', ∃ q', keeps s q s' q' ∧ handled_ok (sc_int s) q' R h s') s) as Hh.
  { destruct call as [|a b c|a b c].
    - rw /= /syscall_handler_thread_yield. wp_step. apply wp_env_step; [intros k; apply env_set_regs_ok|]. intros _ k _. wp_step. exists q. split; [done|]. left. split; [by right|by apply sys_inv_env].
    - eapply wp_mono; [exact (wp_handler_wait s q R p t a b c HI HR Hp Hok Hk)|]. by intros h s' [_ ?].
    - eapply wp_mono; [exact (wp_handler_wake s q R p t a b c HI Hp Hok)|]. intros h s' (-> & q' & Hf & HI'). exists q'. split; [done|]. left. split; [by left|done]. }
  eapply wp_mono; [exact Hh|]. intros h s' (q' & Hf & Hm). wp_step. destruct (has_flag h SYSCALL_HANDLED_SAVE).
  - apply wp_env_step; [intros k; apply env_save_context_ok|]. intros _ k _. wp_step. exists q'. split; [|by apply handled_ok_env]. destruct Hf as [[F1 F2 F3 F4] F5]. done.
  - wp_step. wp_step. eauto.
Qed.

(** The threads that are running after a system call of [t]. *)
Definition now_running R t (r : option Z) : gset Z := match r with None => R | Some t' => R ∖ {[t]} ∪ {[t']} end.

Lemma wpn_after_syscall e s q R t h : handled_ok e q R h s → t ∈ R →
  wpn (q_run q SCHED_CLASS_IDLE = []) (after_syscall t h) (λ r s', ∃ q', sys_inv unlocked s' q' (now_running R t r) ∧ frame s q s' q') s.
Proof.
  intros Hh HR. rw /after_syscall. destruct Hh as [[[-> | ->] HI]|(-> & Hint & HI)].
  - change (∃ q', sys_inv unlocked s q' R ∧ frame s q s q'). by exists q.
  - cbn [has_flag]. destruct (si_running _ _ _ _ HI t HR) as (th & Ht & Hst & Hn).
    apply wpn_wp_bind. change (wp (sched_put t) (λ _ : unit, wpn (q_run q SCHED_CLASS_IDLE = []) (t' ← sched; mret (Some t')) (λ r s', ∃ q', sys_inv unlocked s' q' (now_running R t r) ∧ frame s q s' q')) s).
    eapply wp_sched_put; [apply HI|apply runs_free_unlocked|exact Ht|done|done|]. intros g HI' _. apply wpn_bind.
    eapply wpn_mono; [exact (wpn_sched _ _ _ (sys_inv_put _ _ _ _ _ _ HI HR Ht HI'))|intros E; cbn in E; case_decide; [by apply app_nil in E as [_ ?]|done]|]. intros t' s' (q' & HI2 & Hfr & _). apply wpn_ret. exists q'. split; [done|]. eapply sched_frame_trans; [|exact Hfr]. done.
  - destruct (running_idle _ _ _ _ _ HI HR) as (th & Ht & Hst & Hid).
    apply wpn_wp_bind. change (wp (panic_if false;; panic_if false;; sleep_thread t) (λ _ : unit, wpn (q_run q SCHED_CLASS_IDLE = []) (t' ← sched; mret (Some t')) (λ r s', ∃ q', sys_inv unlocked s' q' (now_running R t r) ∧ frame s q s' q')) s).
    wp_step. wp_step; [done|]. wp_step. wp_step; [done|]. eapply wp_sleep_thread; [apply HI|done|done|exact Ht|done|done|]. intros g s' HI'. apply wpn_bind.
    assert (sys_inv unlocked s' (set_wait (insert_wait (sc_threads s) t (q_wait q)) q) (R ∖ {[t]})) as HI2.
    { eapply (sys_inv_sleep _ s q R t th (set_state THREAD_STATE_WAIT)); [exact HI|done|exact Ht|intros x; apply elem_of_insert_wait|done|done|exact HI']. }
    eapply wpn_mono; [exact (wpn_sched _ _ _ HI2)|done|]. intros t' s2 (q' & HI3 & Hfr & _). apply wpn_ret. exists q'. split; [done|]. eapply sched_frame_trans; [|exact Hfr]. split; [by apply idents_alter|done..].
Qed.

(** *** Finding threads and processes *)

(** A loop that stops at the first node with [b]. *)
Lemma wp_foreach_search {X} l xs (b : Z → bool) (v : Z → X) (body : list_ptr → option X → M (sched_state K) (list_ptr * option X * bool)) s (Q : option X → sched_state K → Prop) :
  is_list (sc_lists s) l xs →
  (∀ y acc (R : list_ptr * option X * bool → sched_state K → Prop), y ∈ xs → R (PNode y, if b y then Some (v y) else None, b y) s → wp (body (PNode y) acc) R s) →
  (∀ y, y ∈ xs → b y = true → Q (Some (v y)) s) → ((∀ y, y ∈ xs → b y = false) → Q None s) → wp (foreach l None body) Q s.
Proof.
  intros Hl Hb HQ1 HQ0. eapply (wp_foreach l (λ pre ys acc s1, s1 = s ∧ xs = pre ++ ys ∧ acc = None ∧ ∀ y, y ∈ pre → b y = false) Q body xs).
  - by intros pre ys acc s1 (-> & <- & _).
  - intros pre y ys acc s1 (-> & E & -> & Hpre). apply Hb; [rw E; set_solver|]. destruct (b y) eqn:Eb; [apply HQ1; [rw E; set_solver|done]|].
    left. split; [done|]. split; [done|]. split; [by rw -app_assoc|]. split; [done|]. intros z [Hz| ->%list_elem_of_singleton]%elem_of_app; [by apply Hpre|done].
  - intros pre acc s1 (-> & E & -> & Hpre). rw app_nil_r in E. rw E in HQ0. by apply HQ0.
  - split; [done|]. split; [done|]. split; [done|]. by intros y ?%elem_of_nil.
Qed.

(** Every thread and the process it belongs to can be found by their ids. *)
Record ids_ok s q : Prop := {
  io_thread : ∀ t tid pid ref, (ident <$> sc_threads s) !! t = Some (tid, pid, ref) → tid = t ∧ t ∈ q_threads q ∧
    ∃ p pr, p ∈ q_procs q ∧ sc_procs s !! p = Some pr ∧ pr_pid pr = pid;
  io_listed : ∀ t, t ∈ q_threads q → is_Some ((ident <$> sc_threads s) !! t);
  io_proc : ∀ p, p ∈ q_procs q → ∃ pr, sc_procs s !! p = Some pr ∧ 0 ≤ pr_ref_count pr < 2 ^ ARCH_WIDTH - 1 ∧ pr_state pr ≠ PROCESS_STATE_STOPPED
}.

(** Reference counts of threads can be raised. *)
Definition refs_fit s : Prop := ∀ t tid pid ref, (ident <$> sc_threads s) !! t = Some (tid, pid, ref) → 0 ≤ ref < 2 ^ ARCH_WIDTH - 1.

Lemma refs_fit_frame s q s' q' : frame s q s' q' → refs_fit s → refs_fit s'.
Proof. intros [F1 _ _ _]. by rw /refs_fit F1. Qed.

Lemma ids_ok_frame s q s' q' : frame s q s' q' → ids_ok s q → ids_ok s' q'.
Proof. intros [F1 F2 F3 [F4 F5]] [I1 I2 I3]. split; rw ?F1 ?F2 ?F4 ?F5; done. Qed.

Lemma in_seqs_threads q : is_Some (seqs q !! threads).
Proof. by rw seqs_threads. Qed.
Lemma in_seqs_procs q : is_Some (seqs q !! processes).
Proof. by rw seqs_procs. Qed.

Definition add_ref t s : sched_state K := upd_sc_threads (alter (upd_t_ref (λ v, ulong (v + 1))) t) s.
Definition drop_ref t s : sched_state K := upd_sc_threads (alter (upd_t_ref (λ v, ulong (v - 1))) t) s.
Definition add_pref p s : sched_state K := upd_sc_procs (alter (upd_pr_ref (λ v, ulong (v + 1))) p) s.
Definition drop_pref p s : sched_state K := upd_sc_procs (alter (upd_pr_ref (λ v, ulong (v - 1))) p) s.

Lemma sched_inv_ref f t s q lk : sched_inv s q lk → sched_inv (upd_sc_threads (alter (upd_t_ref f) t) s) q lk.
Proof. intros [Hr Hok]. split; [exact Hr|]. by apply threads_ok_alter. Qed.

Lemma wp_acquire_thread s q t (Q : option Z → sched_state K → Prop) : sched_inv s q unlocked → ids_ok s q → is_Some (sc_threads s !! t) →
  (∀ g, sched_inv (add_ref t (upd_sc_lists (λ _, g) s)) q unlocked → Q (Some t) (add_ref t (upd_sc_lists (λ _, g) s))) → wp (acquire_thread t) Q s.
Proof.
  intros HI Hid [th Ht] HQ. rw /acquire_thread. eapply wp_queue_access; [exact in_seqs_threads|exact HI|done|]. intros HL.
  assert (∀ x thx, sc_threads s !! x = Some thx → t_tid thx = x ∧ x ∈ q_threads q) as Htid.
  { intros x thx Hx. destruct (io_thread _ _ Hid x (t_tid thx) (t_pid thx) (t_ref_count thx)) as (? & ? & _); [by rw lookup_fmap Hx|done]. }
  wp_step. rw /find_in. eapply (wp_foreach_search threads (tn <$> q_threads q) (λ y, y / 4 =? t) (λ y, y / 4)).
  - exact (rep_is_list _ _ _ _ _ (proj1 HL) (seqs_threads q)).
  - intros y acc R (x & -> & Hx)%list_elem_of_fmap HR. destruct (io_listed _ _ Hid x Hx) as [i Hi]. rw lookup_fmap in Hi. destruct (sc_threads s !! x) as [thx|] eqn:Ex; [|done].
    assert (tn x / 4 = x) as Ed by (pose proof (thread_of_node x) as E; by injection E). rw Ed in HR.
    wp_step. wp_step; [apply thread_of_node|]. wp_step. wp_step. eapply wp_get_thread; [exact Ex|]. wp_step. wp_step. destruct (Htid x thx Ex) as [-> _]. exact HR.
  - intros y (x & -> & Hx)%list_elem_of_fmap Hy%Z.eqb_eq. rw Hy. wp_step. apply wp_upd_thread; [by rw Ht|]. wp_step. split; [done|]. exists q. split; [by apply sched_inv_ref|].
    intros g HIg. exact (HQ g HIg).
  - intros Hno. exfalso. destruct (Htid t th Ht) as [_ Hin]. specialize (Hno (tn t)). assert (tn t / 4 = t) as Ed by (pose proof (thread_of_node t) as E; by injection E).
    rw Ed Z.eqb_refl in Hno. specialize (Hno ltac:(apply list_elem_of_fmap; eauto)). done.
Qed.

Lemma pn_inv x : - pn x - 1 = x.
Proof. rw /pn. lia. Qed.

Lemma wp_acquire_process s q pid (Q : option Z → sched_state K → Prop) : sched_inv s q unlocked → ids_ok s q → (∃ p pr, p ∈ q_procs q ∧ sc_procs s !! p = Some pr ∧ pr_pid pr = pid) →
  (∀ g p pr, p ∈ q_procs q → sc_procs s !! p = Some pr → pr_pid pr = pid → sched_inv (add_pref p (upd_sc_lists (λ _, g) s)) q unlocked → Q (Some p) (add_pref p (upd_sc_lists (λ _, g) s))) →
  wp (acquire_process pid) Q s.
Proof.
  intros HI Hid (p0 & pr0 & Hp0 & Hpr0 & Hpid) HQ. rw /acquire_process. eapply wp_queue_access; [exact in_seqs_procs|exact HI|done|]. intros HL.
  set (b := λ y, default false ((λ pr, pr_pid pr =? pid) <$> sc_procs s !! (- y - 1))).
  wp_step. eapply (wp_foreach_search processes (pn <$> q_procs q) b (λ y, - y - 1)).
  - exact (rep_is_list _ _ _ _ _ (proj1 HL) (seqs_procs q)).
  - intros y acc R (x & -> & Hx)%list_elem_of_fmap HR. destruct (io_proc _ _ Hid x Hx) as (pr & Hpr & _). rw /b !pn_inv Hpr in HR.
    wp_step. wp_step; [reflexivity|]. wp_step. eapply wp_deref; [cbn; rw pn_inv; exact Hpr|]. wp_step. cbn -[Z.sub] in HR |- *. rw pn_inv. exact HR.
  - intros y (x & -> & Hx)%list_elem_of_fmap Hy. destruct (io_proc _ _ Hid x Hx) as (pr & Hpr & _). rw /b pn_inv Hpr in Hy. apply Z.eqb_eq in Hy. rw pn_inv.
    wp_step. rw /upd_sproc. wp_step. eapply wp_deref; [exact Hpr|]. wp_step. wp_step. split; [done|]. exists q. split; [exact HL|]. intros g HIg. exact (HQ g x pr Hx Hpr Hy HIg).
  - intros Hno. exfalso. specialize (Hno (pn p0) ltac:(apply list_elem_of_fmap; eauto)). rw /b pn_inv Hpr0 /= Hpid Z.eqb_refl in Hno. done.
Qed.

(** Releasing. *)
Lemma wp_release_thread s t th (Q : unit → sched_state K → Prop) : sc_threads s !! t = Some th → 0 < t_ref_count th → Q tt (drop_ref t s) → wp (release_thread t) Q s.
Proof. intros Ht Hr HQ. rw /release_thread. wp_step. eapply wp_get_thread; [exact Ht|]. wp_step. wp_step; [by apply Z.leb_gt|]. apply wp_upd_thread; [by rw Ht|exact HQ]. Qed.

Lemma wp_release_process s p pr (Q : unit → sched_state K → Prop) : sc_procs s !! p = Some pr → 0 < pr_ref_count pr → Q tt (drop_pref p s) → wp (release_process p) Q s.
Proof. intros Hp Hr HQ. rw /release_process. wp_step. eapply wp_deref; [exact Hp|]. wp_step. wp_step; [by apply Z.leb_gt|]. rw /upd_sproc. wp_step. eapply wp_deref; [exact Hp|]. by wp_step. Qed.

Lemma ref_up_down v : 0 ≤ v < 2 ^ ARCH_WIDTH - 1 → ulong (v + 1) = v + 1 ∧ ulong (ulong (v + 1) - 1) = v.
Proof. intros Hv. assert (ulong (v + 1) = v + 1) as -> by (apply wrap_small; rw /uint; lia). split; [done|]. replace (v + 1 - 1) with v by lia. apply wrap_small. rw /uint. lia. Qed.

Lemma idents_refs t (m m' : gmap Z thread) : (∀ tid pid ref, (ident <$> m) !! t = Some (tid, pid, ref) → 0 ≤ ref < 2 ^ ARCH_WIDTH - 1) →
  ident <$> m' = ident <$> alter (upd_t_ref (λ v, ulong (v + 1))) t m → ident <$> alter (upd_t_ref (λ v, ulong (v - 1))) t m' = ident <$> m.
Proof.
  intros Hr E. apply map_eq. intros x. pose proof (f_equal (.!! x) E) as Ex. rw !lookup_fmap in Ex |- *. destruct (decide (x = t)) as [->|Hne].
  - specialize (Hr). rw lookup_fmap in Hr. rw lookup_alter_eq in Ex. rw lookup_alter_eq. destruct (m !! t) as [th|], (m' !! t) as [th'|]; try done. cbn in Hr, Ex |- *.
    specialize (Hr _ _ _ eq_refl). rw /ident /= in Ex. injection Ex as E1 E2 E3.
    by rw /ident /upd_t_ref /= E1 E2 E3 (proj2 (ref_up_down _ Hr)).
  - rw lookup_alter_ne in Ex; [congruence|]. by rw lookup_alter_ne; [congruence|].
Qed.

Lemma procs_refs p (m : gmap Z sproc) pr : m !! p = Some pr → 0 ≤ pr_ref_count pr < 2 ^ ARCH_WIDTH - 1 →
  alter (upd_pr_ref (λ v, ulong (v - 1))) p (alter (upd_pr_ref (λ v, ulong (v + 1))) p m) = m.
Proof.
  intros Hp Hr. apply map_eq. intros x. destruct (decide (x = p)) as [->|Hne]; [|by rw !lookup_alter_ne; [congruence..|]].
  rw !lookup_alter_eq Hp. cbn. f_equal. rw /upd_pr_ref /= (proj2 (ref_up_down _ Hr)). by destruct pr.
Qed.

(** *** [dispatch] *)

(** The processes that thread [t] may belong to accept the call. *)
Definition call_ok_for s q (call : syscall) t : Prop := ∀ p th pr, p ∈ q_procs q → sc_threads s !! t = Some th → sc_procs s !! p = Some pr → pr_pid pr = t_pid th → call_ok s call p.

Lemma call_ok_kernel s s' call p : sc_kernel_proc s' = sc_kernel_proc s → call_ok s call p → call_ok s' call p.
Proof. intros E. destruct call; cbn; by rw ?E. Qed.

(** The part of [dispatch] that works with the thread and its process. *)
Definition dispatch_body (handler : Z → Z → M (sched_state K) Z) t : M (sched_state K) (option (Z * Z)) :=
  th ← get_thread t;
  access_process (t_pid th) None (λ p,
    th ← get_thread t;
    pr ← get_sproc p;
    if bool_decide (t_state th = THREAD_STATE_EXIT) then mret (Some (t, SYSCALL_HANDLED_EXIT_THREAD))
    else if bool_decide (pr_state pr = PROCESS_STATE_STOPPED) then set_thread_state t THREAD_STATE_EXIT;; mret (Some (t, SYSCALL_HANDLED_EXIT_THREAD))
    else handled ← handle handler p t; mret (Some (t, handled))).

Section Front.
Variables (R : gset Z) (handler : Z → Z → M (sched_state K) Z) (t : Z) (P : Z → queues → sched_state K → Prop).
Hypothesis P_ref : ∀ h q s x f, P h q s → P h q (upd_sc_threads (alter (upd_t_ref f) x) s).
Hypothesis P_procs : ∀ h q s f, P h q s → P h q (upd_sc_procs f s).

(** What the handler does from the states in which [dispatch] calls it. *)
Definition handler_spec s q : Prop := ∀ s1 p, sys_inv unlocked s1 q R → is_Some (sc_procs s1 !! p) → sc_int s1 = sc_int s → sc_kernel_proc s1 = sc_kernel_proc s →
  (∃ th pr, p ∈ q_procs q ∧ sc_threads s !! t = Some th ∧ sc_procs s !! p = Some pr ∧ pr_pid pr = t_pid th) →
  wp (handle handler p t) (λ h s2, ∃ q2, keeps s1 q s2 q2 ∧ P h q2 s2) s1.

(** The result of the handler. *)
Definition served s q (r : option (Z * Z)) s' : Prop := ∃ h q', r = Some (t, h) ∧ P h q' s' ∧
  (q_run q' SCHED_CLASS_IDLE = [] → q_run q SCHED_CLASS_IDLE = []) ∧ frame s q s' q'.

Lemma wp_dispatch_body s q : sys_inv unlocked s q R → ids_ok s q → t ∈ R → handler_spec s q → wp (dispatch_body handler t) (served s q) s.
Proof using All.
  intros HI Hid HR Hspec. destruct (si_running _ _ _ _ HI t HR) as (th & Ht & Hst & _). rw /dispatch_body. wp_step. eapply wp_get_thread; [exact Ht|].
  destruct (io_thread _ _ Hid t (t_tid th) (t_pid th) (t_ref_count th)) as (_ & _ & Hproc); [by rw lookup_fmap Ht|].
  rw /access_process. wp_step. eapply wp_acquire_process; [apply HI|done|exact Hproc|]. intros g p pr Hp Hpr Hpid HI1. set (s1 := add_pref p (upd_sc_lists (λ _, g) s)).
  destruct (io_proc _ _ Hid p Hp) as (pr' & Hpr' & Href & Hstop). assert (pr' = pr) as -> by congruence.
  assert (sc_procs s1 !! p = Some (upd_pr_ref (λ v, ulong (v + 1)) pr)) as Hpr1 by by rw /s1 /= lookup_alter_eq Hpr.
  assert (sys_inv unlocked s1 q R) as HS1 by (destruct HI as [J1 J2 J3 J4]; by split).
  wp_step. wp_step. eapply (wp_get_thread s1); [exact Ht|]. wp_step. eapply wp_deref; [exact Hpr1|]. rw bool_decide_eq_false_2; [by rw Hst|]. rw bool_decide_eq_false_2 //.
  wp_step. eapply wp_mono; [apply (Hspec s1 p HS1); [by rw Hpr1|done|done|by exists th, pr]|].
  intros h s2 (q2 & [Hfr Hidle] & Hh). wp_step. wp_step. eapply wp_release_process; [rw (fr_procs _ _ _ _ Hfr); exact Hpr1|cbn; rw (proj1 (ref_up_down _ Href)); lia|]. wp_step.
  exists h, q2. split; [done|]. split; [by apply P_procs|split; [done|]].
  split; [exact (fr_idents _ _ _ _ Hfr)| |exact (fr_kernel _ _ _ _ Hfr)|exact (fr_lists _ _ _ _ Hfr)].
  rw /drop_pref /= (fr_procs _ _ _ _ Hfr). exact (procs_refs p _ pr Hpr Href).
Qed.

Lemma ids_ok_ref s q th : sc_threads s !! t = Some th → ids_ok s q → ids_ok (add_ref t s) q.
Proof.
  intros Ht [I1 I2 I3]. split; [|intros x Hx|exact I3]; rw /add_ref /=.
  - intros x tid pid ref. rw lookup_fmap. destruct (decide (x = t)) as [->|Hne]; [rw lookup_alter_eq Ht; intros [= <- <- _]; apply (I1 t _ _ (t_ref_count th)); by rw lookup_fmap Ht|].
    rw lookup_alter_ne; [congruence|]. intros E. apply (I1 x tid pid ref). by rw lookup_fmap.
  - specialize (I2 x Hx). rw lookup_fmap fmap_is_Some in I2. rw lookup_fmap fmap_is_Some. by apply lookup_alter_is_Some.
Qed.

Lemma wp_dispatch_front s q : sys_inv unlocked s q R → ids_ok s q → refs_fit s → t ∈ R → handler_spec s q →
  wp (on_sc_env env_service_tlb;; access_thread t None (dispatch_body handler)) (served s q) s.
Proof using All.
  intros HI Hid Href HR Hspec. wp_step. apply wp_env_step; [apply env_service_tlb_ok|]. intros _ k _.
  destruct (si_running _ _ _ _ HI t HR) as (th & Ht & Hst & _).
  rw /access_thread. wp_step. eapply (wp_acquire_thread (at_env s k) q); [apply HI|destruct Hid as [I1 I2 I3]; by split|by rw /= Ht|]. intros g HIg.
  set (s1 := add_ref t _). assert (sc_threads s1 !! t = Some (upd_t_ref (λ v, ulong (v + 1)) th)) as Ht1 by by rw /s1 /= lookup_alter_eq Ht.
  assert (sys_inv unlocked s1 q R) as HS1.
  { destruct (sys_inv_alter unlocked s q R t (upd_t_ref (λ v, ulong (v + 1))) HI) as [J1 J2 J3 J4]; [done|by left|]. by split. }
  assert (ids_ok s1 q) as Hid1 by (apply (ids_ok_ref _ _ th); [done|destruct Hid as [I1 I2 I3]; by split]).
  assert (0 ≤ t_ref_count th < 2 ^ ARCH_WIDTH - 1) as Hrt by (apply (Href t (t_tid th) (t_pid th)); by rw lookup_fmap Ht).
  wp_step. eapply wp_mono; [apply (wp_dispatch_body s1 q HS1 Hid1 HR)|].
  { intros s2 p HI2 Hp2 Eint Ekp (thx & pr & Hp & Htx & Hpr & Hpid). rw Ht1 in Htx. injection Htx as <-. apply (Hspec s2 p HI2 Hp2 Eint Ekp). by exists th, pr. }
  intros r s2 (h & q2 & -> & Hh & Hidle & Hfr). wp_step.
  assert (∃ th2, sc_threads s2 !! t = Some th2 ∧ t_ref_count th2 = t_ref_count th + 1) as (th2 & Ht2 & Hr2).
  { pose proof (f_equal (.!! t) (fr_idents _ _ _ _ Hfr)) as E. cbn beta in E. rw !lookup_fmap Ht1 in E. destruct (sc_threads s2 !! t) as [th2|]; [|done]. exists th2. split; [done|].
    rw /ident /= in E. injection E as _ _ ->. exact (proj1 (ref_up_down _ Hrt)). }
  eapply wp_release_thread; [exact Ht2|lia|]. wp_step. exists h, q2. split; [done|]. split; [by apply P_ref|]. split; [done|].
  destruct Hfr as [F1 F2 F3 F4]. split; [|exact F2|exact F3|exact F4]. exact (idents_refs t _ _ (Href t) F1).
Qed.
End Front.

Lemma dispatch_run t handler s r s' : (on_sc_env env_service_tlb;; access_thread t None (dispatch_body handler)) s = Ret (r, s') →
  dispatch t handler s = match r with None => Panic | Some (t, handled) => after_syscall t handled s' end.
Proof.
  change (dispatch t handler) with (on_sc_env env_service_tlb;; r ← access_thread t None (dispatch_body handler); match r with None => panic | Some (t, handled) => after_syscall t handled end).
  rw /mbind /M_bind. destruct (on_sc_env env_service_tlb s) as [[u s1]| | |]; [|done..]. intros ->. by destruct r as [[]|].
Qed.

Lemma wpn_dispatch s q R call t : sys_inv unlocked s q R → ids_ok s q → refs_fit s → t ∈ R → call_ok_for s q call t → unknown_wait call = false →
  wpn (q_run q SCHED_CLASS_IDLE = []) (dispatch t (handler_of call)) (λ r s', ∃ q', sys_inv unlocked s' q' (now_running R t r) ∧ frame s q s' q') s.
Proof.
  intros HI Hid Href HR Hcall Hk.
  assert (wp (on_sc_env env_service_tlb;; access_thread t None (dispatch_body (handler_of call))) (served t (λ h q' s', handled_ok (sc_int s) q' R h s') s q) s) as Hfront.
  { apply (wp_dispatch_front R (handler_of call) t); [|..|done|done|done|done|].
    - intros h q' s' x f [[? ?]|(? & ? & ?)]; [left; split; [done|]|right; split; [done|]; split; [done|]]; (apply sys_inv_alter; [done|done|by left]).
    - intros h q' s' f [[? ?]|(? & ? & ?)]; [left; split; [done|]|right; split; [done|]; split; [done|]]; by apply sys_inv_procs.
    - intros s1 p HI1 Hp Eint Ekp (th & pr & Hin & Ht & Hpr & Hpid). rw -Eint. apply wp_handle; [done|done|done| |done]. apply (call_ok_kernel s); [done|]. exact (Hcall p th pr Hin Ht Hpr Hpid). }
  destruct (wp_elim _ _ _ Hfront) as (r & s2 & E & h & q2 & -> & Hh & Hidle & Hfr). rw /wpn (dispatch_run _ _ _ _ _ E).
  pose proof (wpn_after_syscall _ _ _ _ t _ Hh HR) as Haf. rw /wpn in Haf. destruct (after_syscall t h s2) as [[r s3]| | |]; [|by apply Hidle|done..].
  destruct Haf as (q3 & HI3 & Hfr3). exists q3. split; [done|]. exact (sched_frame_trans _ _ _ _ _ _ Hfr Hfr3).
Qed.

(** *** Which thread runs next *)

Lemma first_of_before q cs c t : first_of q cs = Some (c, t) → StronglySorted Z.lt cs → ∀ c', c' ∈ cs → c' < c → q_run q c' = [].
Proof.
  induction cs as [|x cs IH]; [done|]. cbn. intros Hf [Hs Hall]%StronglySorted_inv c' Hc' Hlt. destruct (q_run q x) as [|t' l] eqn:E.
  - apply elem_of_cons in Hc' as [->|Hc']; [done|]. by apply IH.
  - injection Hf as <- <-. apply elem_of_cons in Hc' as [->|Hc']; [lia|]. pose proof (proj1 (Forall_forall _ _) Hall c' Hc') as Hx. cbn in Hx. lia.
Qed.

Lemma classes_sorted ready : StronglySorted Z.lt (classes ready).
Proof. destruct ready; repeat constructor. Qed.

Lemma in_classes ready c : c ∈ classes ready ↔ 1 ≤ c ≤ 5 ∧ (c = SCHED_CLASS_TIMER → ready = true).
Proof.
  rw /classes /SCHED_CLASS_REAL_TIME /SCHED_CLASS_INTERRUPT /SCHED_CLASS_TIMER /SCHED_CLASS_NORMAL /SCHED_CLASS_IDLE !elem_of_app.
  destruct ready; rw !elem_of_cons !elem_of_nil; split; intros; try lia; split; try lia; intros; try done; lia.
Qed.

(** The timer class counts when the first waiting thread is due. *)
Lemma sched_post_order s q lk t s' : sched_post s q lk t s' → quiet s s' ∧ ∃ ms c l, env_time (sc_env s) ≤ ms ≤ env_time (sc_env s') ∧ 1 ≤ c ≤ 5 ∧ q_run q c = t :: l ∧
  (c = SCHED_CLASS_TIMER → next_ready s q ≤ ms) ∧ (∀ c', 1 ≤ c' < c → (c' = SCHED_CLASS_TIMER → next_ready s q ≤ ms) → q_run q c' = []) ∧ sched_inv s' (set_run c l q) lk.
Proof.
  intros (Hq & ready & c & (ms & Hms & Hr) & Hf & HI). split; [done|]. destruct (first_of_some _ _ _ _ Hf) as [Hc [l El]]. apply in_classes in Hc as [Hc Hct].
  exists ms, c, l. split; [done|]. split; [done|]. split; [done|].
  assert (3 ≤ c → ready = (next_ready s q <=? ms)) as Hrd.
  { intros H3. apply Hr. destruct (first_of q [SCHED_CLASS_REAL_TIME; SCHED_CLASS_INTERRUPT]) as [[c1 t1]|] eqn:E; [|done]. exfalso.
    rw /classes first_of_app E in Hf. injection Hf as -> _. apply first_of_some in E as [E _]. rw !elem_of_cons elem_of_nil /SCHED_CLASS_REAL_TIME /SCHED_CLASS_INTERRUPT in E. lia. }
  split; [|split].
  - intros ->. specialize (Hct eq_refl). rw Hrd in Hct; [rw /SCHED_CLASS_TIMER; lia|]. by apply Z.leb_le.
  - intros c' Hc' Ht. eapply first_of_before; [exact Hf|apply classes_sorted| |lia]. apply in_classes. split; [lia|]. intros E. rw Hrd; [rw /SCHED_CLASS_TIMER in E; lia|]. apply Z.leb_le. auto.
  - rw El in HI. exact HI.
Qed.

(** C10. The scheduler returns the thread at the front of the first run queue that is not empty, in the order real time,
    interrupt, timer, normal, idle; the timer's queue counts only if, at a time of the clock during the call, the first
    waiting thread has timed out.  The thread leaves its queue, and nothing else changes.  It panics only when the queue
    of the idle threads is empty. *)
Theorem sched_picks_by_class s q : sched_inv s q unlocked → counts_fit q →
  wpn (q_run q SCHED_CLASS_IDLE = []) sched (λ t s', quiet s s' ∧ ∃ ms c l, env_time (sc_env s) ≤ ms ≤ env_time (sc_env s') ∧ 1 ≤ c ≤ 5 ∧ q_run q c = t :: l ∧
    (c = SCHED_CLASS_TIMER → next_ready s q ≤ ms) ∧ (∀ c', 1 ≤ c' < c → (c' = SCHED_CLASS_TIMER → next_ready s q ≤ ms) → q_run q c' = []) ∧
    sched_inv s' (set_run c l q) unlocked) s.
Proof.
  intros HI Hfit. destruct (wp_sched s q unlocked HI runs_free_unlocked eq_refl Hfit) as [Hp Hw]. rw /wpn. rw /wpp in Hp. rw /wp in Hw.
  destruct (sched s) as [[t' s']| | |]; [by apply sched_post_order in Hp| |done|done]. destruct (q_run q SCHED_CLASS_IDLE); [done|]. exfalso. by apply Hw.
Qed.

(** *** Who is woken *)

(** The threads [ws] left the wait queue and are at the ends of the run queues of their classes, in this order; [ks] stay. *)
Definition woke s q ws ks s' : Prop := ∃ g k, s' = woken (at_env s k) ws g ∧ env_le (sc_env s) k ∧ ∃ q', sched_inv s' q' unlocked ∧
  q_wait q' = ks ∧ q_ipc q' = q_ipc q ∧ ∀ c, q_run q' c = q_run q c ++ filter (λ t, class_of (sc_threads s) t = c) ws.

Lemma woke_intro s q ws ks g k : env_le (sc_env s) k → sched_inv (woken (at_env s k) ws g) (wake_queues (sc_threads s) ws (set_wait ks q)) unlocked →
  woke s q ws ks (woken (at_env s k) ws g).
Proof.
  intros Hk HI. exists g, k. split; [done|]. split; [done|]. eexists. split; [exact HI|]. destruct (wake_queues_rest (sc_threads s) ws (set_wait ks q)) as [-> ->].
  split; [done|]. split; [done|]. intros c. exact (wake_queues_run _ _ (set_wait ks q) c).
Qed.

(** A round of the timeout worker wakes a prefix of the wait queue: every thread whose timeout had passed when it
    started, no thread whose timeout has not passed when it ends, in the order of their timeouts. *)
Theorem timeout_wakeup_exact s q : sched_inv s q unlocked →
  wp timeout_wakeup (λ _ s', ∃ ws ks, q_wait q = ws ++ ks ∧ (∀ t, t ∈ ws → timeout_of (sc_threads s) t ≤ env_time (sc_env s')) ∧
    (∀ t, t ∈ ks → env_time (sc_env s) < timeout_of (sc_threads s) t) ∧ woke s q ws ks s') s.
Proof.
  intros HI. apply (wp_timeout_wakeup s q unlocked); [done|apply runs_free_unlocked|done|]. intros ws ks g k ms Hq Hle Hms Hws Hks HI'.
  exists ws, ks. split; [done|]. split; [exact Hws|]. split; [intros t Ht; specialize (Hks t Ht); lia|]. by apply woke_intro.
Qed.

(** C12. Waking on an object: if it is a futex that is mapped, whose kernel bit is clear and whose value meets the
    condition when they are read, the first [max] threads of the process (all of them when [max] is 0) that wait for it
    are woken, in the order of the queue, and their number is returned; otherwise no thread is woken. *)
Theorem wake_on_object_exact s q p pr wait_type obj wait_value max : sched_inv s q unlocked → Z.of_nat (size (sc_threads s)) < 2 ^ ARCH_WIDTH →
  uint ARCH_WIDTH max → sc_procs s !! p = Some pr → (p = sc_kernel_proc s → env_readable obj) →
  wp (wake_on_object_exclusive p wait_type obj wait_value max) (λ n s', ∃ k0 k1 ws ks, span (sc_env s) k0 k1 (sc_env s') ∧ n = Z.of_nat (length ws) ∧
    (if (wait_type =? WAIT_ON_FUTEX) && futex_says s p pr obj wait_value false k0 k1
     then ws = take (wake_limit q max) (filter (λ t, accepts (wakes pr wait_type obj) (sc_threads s) t = true) (q_wait q)) else ws = []) ∧
    (∀ t, t ∈ q_wait q ↔ t ∈ ws ∨ t ∈ ks) ∧ woke s q ws ks s') s.
Proof.
  intros HI Hsz Hmax Hp Hrd. apply (wp_wake_on_object_exclusive s q unlocked); [done|apply runs_free_unlocked|done|done|exact (sched_inv_wait_fits _ _ _ HI Hsz)|by split|].
  intros pr' ws ks g k0 k1 k Hp' Hspan Hres HI'. assert (pr' = pr) as -> by congruence. exists k0, k1, ws, ks. split; [done|]. split; [done|]. split; [|split; [intros t; exact (wake_result_elem _ _ _ _ _ _ _ _ _ t Hres)|apply woke_intro; [destruct Hspan as (? & ? & ?); transitivity k0; [done|by transitivity k1]|done]]].
  rw /wake_result in Hres. destruct (_ && _); [by rw -wake_split_woken Hres|by injection Hres as <- _].
Qed.

Lemma alter_at (m : gmap Z thread) t th f : m !! t = Some th → alter f t m = <[t := f th]> m.
Proof.
  intros Ht. apply map_eq. intros x. destruct (decide (x = t)) as [->|Hne]; [by rw lookup_alter_eq lookup_insert_eq Ht|].
  rw lookup_alter_ne; [congruence|]. by rw lookup_insert_ne; [congruence|].
Qed.

(** C11. A thread that waits: if the object says so when it is read, the thread notes the object and the time at which the
    wait ends and enters the wait queue before the threads that end at the same time or later, in the waiting state;
    otherwise -1 is returned and it goes on, with no change.  Either way the lock of the queue is free again. *)
Theorem wait_sleeps_in_order s q p t pr th wait_type obj wait_value timeout_ms : sched_inv s q unlocked → idle_thread q t →
  sc_procs s !! p = Some pr → sc_threads s !! t = Some th → t_state th = THREAD_STATE_NORMAL → (p = sc_kernel_proc s → env_readable obj) →
  wp (err ← wait_on_object p t wait_type obj wait_value timeout_ms; (if ctrue err then mret tt else sleep_thread t);; mret err) (λ err s', ∃ k0 k1, span (sc_env s) k0 k1 (sc_env s') ∧
    if waits s p pr wait_type obj wait_value k0 k1 then
      err = 0 ∧ ∃ ms, env_time (sc_env s) ≤ ms ≤ env_time (sc_env s') ∧
      let th' := set_waiting wait_type (if wait_type =? WAIT_ON_TIMEOUT then t_tid th else obj) (wake_time timeout_ms ms) th in
      let ths := <[t := th']> (sc_threads s) in
      sc_threads s' = <[t := set_state THREAD_STATE_WAIT th']> (sc_threads s) ∧
      sched_inv s' (set_wait (insert_wait ths t (q_wait q)) q) unlocked
    else err = -1 ∧ quiet s s' ∧ sched_inv s' q unlocked) s.
Proof.
  intros HI Hid Hp Ht Hst Hrd. wp_step. eapply wp_wait_on_object; [exact HI|done|exact Ht|apply Hid|by split|].
  intros pr' th2 k0 k1 k Hp' Ht' Hspan. assert (pr' = pr) as -> by congruence. assert (th2 = th) as -> by congruence.
  destruct (waits s p pr wait_type obj wait_value k0 k1) eqn:Ew.
  - intros ms Hms s1 HI1. change (ctrue 0) with false. cbn iota. wp_step. set (f := set_waiting wait_type (if wait_type =? WAIT_ON_TIMEOUT then t_tid th else obj) (wake_time timeout_ms ms)).
    assert (sc_threads s1 = <[t := f th]> (sc_threads s)) as E1 by by apply alter_at.
    eapply (wp_sleep_thread s1 q unlocked t (f th) (sc_int s)); [exact HI1|done|done|by rw E1 lookup_insert_eq|done|done|].
    intros g s' HI2. wp_step. exists k0, k1. split; [done|]. rw Ew. split; [done|]. exists ms. split; [done|]. fold f. cbv zeta. rw -E1. split; [|exact HI2].
    transitivity (alter (set_state THREAD_STATE_WAIT) t (sc_threads s1)); [done|]. rw (alter_at _ t (f th)); [by rw E1 lookup_insert_eq|]. by rw E1 insert_insert_eq.
  - intros g HI1. change (ctrue (-1)) with true. cbn iota. wp_step. wp_step. wp_step. exists k0, k1. split; [done|]. rw Ew. split; [done|]. split; [|done].
    exists g, k. split; [|done]. destruct Hspan as (? & ? & ?). transitivity k0; [done|by transitivity k1].
Qed.

(** *** No thread is lost *)

(** The calls of threads of any process that a thread may belong to are well formed. *)
Definition call_valid s (call : syscall) t : Prop := ∀ p th pr, sc_threads s !! t = Some th → sc_procs s !! p = Some pr → pr_pid pr = t_pid th → call_ok s call p.

(** The kernel between two events. *)
Definition sys_ok s q R : Prop := sys_inv unlocked s q R ∧ ids_ok s q ∧ refs_fit s.

(** *** A kind of wait that does not exist *)

(** A system call to wait with an unknown kind stops the kernel: the handler reports success, [dispatch] puts the
    caller to sleep, and [sleep_thread] panics because nobody holds the lock of the wait queue. *)
Lemma wait_unknown_kind_panics s q R t call : sys_ok s q R → t ∈ R → unknown_wait call = true → dispatch t (handler_of call) s = Panic.
Proof.
  destruct call as [|a b c|]; [done| |done]. intros (HI & Hid & Href) HR [H1 H2]%andb_prop. apply negb_true_iff, Z.eqb_neq in H1, H2. set (P := λ h q' s', h = SYSCALL_HANDLED_SAVE_SLEEP ∧ sched_inv s' q' unlocked : Prop).
  assert (wp (on_sc_env env_service_tlb;; access_thread t None (dispatch_body (handler_of (Wait a b c)))) (served t P s q) s) as Hfront.
  { apply (wp_dispatch_front R); [|..|done|done|done|done|].
    - intros h q' s' x f [-> HI']. split; [done|]. by apply sched_inv_ref.
    - intros h q' s' f [-> HI']. done.
    - intros s1 p HI1 _ _ _ _. rw /handle /handler_of /syscall_handler_wait. wp_step. wp_step.
      rw (proj2 (Z.eqb_neq _ _) H1) (proj2 (Z.eqb_neq _ _) H2). wp_step. wp_step. apply wp_env_step; [intros k; apply env_set_regs_ok|]. intros _ k _. wp_step.
      change (has_flag (if ctrue 0 then SYSCALL_HANDLED_CONTINUE else SYSCALL_HANDLED_SAVE_SLEEP) SYSCALL_HANDLED_SAVE) with true. cbn iota.
      wp_step. apply wp_env_step; [intros k'; apply env_save_context_ok|]. intros _ k' _. wp_step. exists q. split; [done|]. split; [done|]. apply HI1. }
  destruct (wp_elim _ _ _ Hfront) as (r & s2 & E & h & q2 & -> & [-> HI2] & _). rw (dispatch_run _ _ _ _ _ E).
  assert (wp (spinlock_is_locked (list_lock wait_queue)) (λ l s', l = false ∧ s' = s2) s2) as Hl by by eapply wp_is_locked; [exact HI2|apply seqs_wait|].
  destruct (wp_elim _ _ _ Hl) as (l & s3 & El & -> & ->). rw /after_syscall /sleep_thread.
  change (has_flag SYSCALL_HANDLED_SAVE_SLEEP SYSCALL_HANDLED_EXIT_THREAD) with false. change (has_flag SYSCALL_HANDLED_SAVE_SLEEP SYSCALL_HANDLED_SLEEP_THREAD) with true.
  change (has_flag SYSCALL_HANDLED_SAVE_SLEEP SYSCALL_HANDLED_PUT_BACK) with false. change (has_flag SYSCALL_HANDLED_SAVE_SLEEP SYSCALL_HANDLED_RESUME) with false.
  rw /mbind /M_bind /=. by rw El.
Qed.
(** C9. From every state between two events, [dispatch] of a system call that yields, waits or wakes returns to the caller
    or switches to a thread that was not running, and leaves such a state, in which the caller is replaced by the
    chosen thread.  It panics in two cases: when no idle thread is in its run queue, and always when the call is a wait of
    an unknown kind. *)
Theorem dispatch_serves s q R call t : sys_ok s q R → t ∈ R → call_valid s call t →
  if unknown_wait call then dispatch t (handler_of call) s = Panic else
  wpn (q_run q SCHED_CLASS_IDLE = []) (dispatch t (handler_of call)) (λ r s', ∃ q', sys_ok s' q' (now_running R t r)) s.
Proof.
  intros Hok HR Hcall. destruct (unknown_wait call) eqn:Hk; [by apply (wait_unknown_kind_panics s q R)|].
  destruct Hok as (HI & Hid & Href). eapply wpn_mono; [apply (wpn_dispatch s q R call t HI Hid Href HR); [|done]|done|].
  - intros p th pr _ Ht Hpr Hpid. exact (Hcall p th pr Ht Hpr Hpid).
  - intros r s' (q' & HI' & Hfr). exists q'. split; [done|]. split; [exact (ids_ok_frame _ _ _ _ Hfr Hid)|exact (refs_fit_frame _ _ _ _ Hfr Href)].
Qed.

(** The events: a system call of a running thread, a round of the timeout worker, and what the rest of the machine does. *)
Inductive sys_step : sched_state K * gset Z → sched_state K * gset Z → Prop :=
| step_call s R call t r s' : t ∈ R → call_valid s call t → dispatch t (handler_of call) s = Ret (r, s') → sys_step (s, R) (s', now_running R t r)
| step_timeout s R s' : timeout_wakeup s = Ret (tt, s') → sys_step (s, R) (s', R)
| step_machine s R k : env_le (sc_env s) k → sys_step (s, R) (at_env s k, R).

Lemma sys_step_ok s q R s' R' : sys_ok s q R → sys_step (s, R) (s', R') → ∃ q', sys_ok s' q' R'.
Proof.
  intros Hok Hs. pose proof Hok as (HI & Hid & Href). inversion Hs as [? ? call t r ? HR Hcall E|? ? ? E|? ? k Hk]; subst; clear Hs.
  - assert (call_ok_for s q call t) as Hc by (intros p th pr _ Ht Hpr Hpid; exact (Hcall p th pr Ht Hpr Hpid)).
    destruct (unknown_wait call) eqn:Hk; [by rw (wait_unknown_kind_panics s q R t call Hok HR Hk) in E|].
    pose proof (wpn_dispatch s q R call t HI Hid Href HR Hc Hk) as Hw. rw /wpn E in Hw. destruct Hw as (q' & HI' & Hfr). exists q'. split; [done|].
    split; [exact (ids_ok_frame _ _ _ _ Hfr Hid)|exact (refs_fit_frame _ _ _ _ Hfr Href)].
  - assert (wp timeout_wakeup (λ _ s', ∃ q', sys_ok s' q' R') s) as Hw; [|exact (wp_run _ _ _ _ _ Hw E)].
    apply (wp_timeout_wakeup s q unlocked); [apply HI|apply runs_free_unlocked|done|]. intros ws ks g k ms Hq _ _ _ _ HI'.
    destruct (keeps_wake s q ws ks g k) as [Hfr _]. eexists. split; [apply sys_inv_wake; [exact HI|intros x; rw Hq; apply elem_of_app|exact HI']|].
    split; [exact (ids_ok_frame _ _ _ _ Hfr Hid)|exact (refs_fit_frame _ _ _ _ Hfr Href)].
  - exists q. split; [by apply sys_inv_env|]. destruct Hid as [I1 I2 I3]. done.
Qed.

(** C8. No thread is lost: after any sequence of system calls that yield, wait and wake, rounds of the timeout worker and
    steps of the machine, every thread that can run is running, on no queue, or it is in exactly the run queue of its
    class, once; and every waiting thread is in exactly one of the wait queue and the IPC queue, once. *)
Theorem threads_never_lost s0 R0 s R : (∃ q0, sys_ok s0 q0 R0) → rtc sys_step (s0, R0) (s, R) → ∃ q, sched_inv s q unlocked ∧
  (∀ c, 0 ≤ c < 6 → NoDup (q_run q c)) ∧ NoDup (q_wait q) ∧
  ∀ t th, sc_threads s !! t = Some th →
    (t_state th = THREAD_STATE_NORMAL → (t ∉ q_wait q) ∧ (t ∉ q_ipc q) ∧ ∀ c, 0 ≤ c < 6 → (t ∈ q_run q c ↔ (t ∉ R) ∧ c = t_sched_class th)) ∧
    (t_state th = THREAD_STATE_WAIT → (t ∉ R) ∧ (t ∈ q_wait q ↔ t ∉ q_ipc q) ∧ ∀ c, 0 ≤ c < 6 → t ∉ q_run q c).
Proof.
  intros H0 Hrtc. assert (∃ q, sys_ok s q R) as (q & HI & _).
  { remember (s, R) as x eqn:Ex. remember (s0, R0) as x0 eqn:Ex0. revert s0 R0 s R H0 Ex Ex0. induction Hrtc as [x|x [s1 R1] x2 Hstep _ IH]; intros s0 R0 s R [q0 Hq0] -> E; [by injection E as -> ->; exists q0|].
    subst x. destruct (sys_step_ok _ _ _ _ _ Hq0 Hstep) as [q1 Hq1]. exact (IH s1 R1 s R (ex_intro _ q1 Hq1) eq_refl eq_refl). }
  pose proof (si_queues _ _ _ _ HI) as Hq. exists q. split; [done|]. split; [intros c Hc; exact (run_nodup _ _ _ _ Hq Hc)|]. split; [exact (wait_nodup _ _ _ Hq)|].
  intros t th Ht. destruct (si_located _ _ _ _ HI t th Ht) as [L1 L2]. split; intros Hs.
  - assert (¬ (t ∈ q_wait q ∨ t ∈ q_ipc q)) as Hw by (intros Hw; destruct (to_wait _ _ _ (proj2 Hq) t Hw) as (th' & Ht' & ?); congruence).
    split; [tauto|]. split; [tauto|]. intros c Hc. split.
    + intros Hin. destruct (to_run _ _ _ (proj2 Hq) c t Hc Hin) as (th' & Ht' & _ & Hcl). split; [|congruence]. intros HR. destruct (si_running _ _ _ _ HI t HR) as (_ & _ & _ & Hn). by apply (Hn c Hc).
    + intros [HR ->]. by destruct (L1 Hs).
  - assert (t ∉ R) as HR by (intros HR; destruct (si_running _ _ _ _ HI t HR) as (th' & Ht' & ? & _); congruence). split; [done|]. split.
    + split; [exact (wait_not_twice _ _ _ t Hq)|]. intros Hn. by destruct (L2 Hs).
    + intros c Hc Hin. destruct (to_run _ _ _ (proj2 Hq) c t Hc Hin) as (th' & Ht' & ? & _). congruence.
Qed.

End Props.
