(* ===== verification/IpcSpec.v ===== *)
(** Messages between threads: what the operations of [Ipc.v] do to the IPC queue
    and to the threads that wait for a message or for an answer. *)

From stdpp Require Import base list gmap sorting.
From Stdlib Require Import ZArith Lia.
From Corelib Require Import ssreflect.
From S2P Require Import Prelude Bits Lock List ListSpec ListRep Sched Wait Ipc SchedSpec WaitSpec SchedProps.

Section Ipc.
Context `{Harch : Arch} {K : Type} `{Henv : SchedEnv K} `{!SchedEnvLaws K}.
Implicit Types (s : sched_state K) (q : queues) (lk : Z → spinlock_t) (t u c : Z).

Lemma in_seqs_ipc q : is_Some (seqs q !! ipc_wait_queue).
Proof. by rw seqs_ipc. Qed.

(** The records of threads, apart from what the scheduler looks at. *)
Definition quiet_update (f : thread → thread) : Prop :=
  ∀ th, t_sched_class (f th) = t_sched_class th ∧ t_lock (f th) = t_lock th ∧ t_state (f th) = t_state th ∧ t_wait_timeout_ms (f th) = t_wait_timeout_ms th.

Lemma sched_inv_alter f t s q lk : quiet_update f → sched_inv s q lk → sched_inv (upd_sc_threads (alter f t) s) q lk.
Proof.
  intros Hf [Hr Hok]. split; [exact Hr|]. apply threads_ok_alter; [| | |done].
  - intros th. destruct (Hf th) as (? & ? & _). done.
  - intros th _ _. by destruct (Hf th) as (_ & _ & ? & _).
  - intros th _ _. by destruct (Hf th) as (_ & _ & _ & ?).
Qed.

Lemma wp_upd_quiet f s q lk t (Q : unit → sched_state K → Prop) : quiet_update f → sched_inv s q lk → is_Some (sc_threads s !! t) →
  (sched_inv (upd_sc_threads (alter f t) s) q lk → Q tt (upd_sc_threads (alter f t) s)) → wp (upd_thread t f) Q s.
Proof. intros Hf HI Ht HQ. apply wp_upd_thread; [done|]. apply HQ. by apply sched_inv_alter. Qed.

(** *** Looking for a thread in the IPC queue *)

Lemma wp_find_ipc s q lk (f : thread → bool) (Q : option Z → sched_state K → Prop) : sched_inv s q lk →
  (∀ u th, u ∈ q_ipc q → sc_threads s !! u = Some th → f th = true → Q (Some u) s) →
  ((∀ u th, u ∈ q_ipc q → sc_threads s !! u = Some th → f th = false) → Q None s) →
  wp (find_in ipc_wait_queue (λ cur, th ← get_thread cur; mret (f th))) Q s.
Proof.
  intros HI HQ1 HQ0. rw /find_in.
  eapply (wp_foreach_search ipc_wait_queue (nw <$> q_ipc q) (λ y, accepts f (sc_threads s) (y / 4)) (λ y, y / 4)).
  - exact (rep_is_list _ _ _ _ _ (proj1 HI) (seqs_ipc q)).
  - intros y acc R (x & -> & Hx)%list_elem_of_fmap HR. destruct (to_wait _ _ _ (proj2 HI) x (or_intror Hx)) as (th & Ht & _). rw nw_div /accepts Ht in HR.
    wp_step. wp_step; [apply thread_of_wait|]. wp_step. wp_step. eapply wp_get_thread; [exact Ht|]. by do 2 wp_step.
  - intros y (x & -> & Hx)%list_elem_of_fmap. rw nw_div /accepts. destruct (sc_threads s !! x) as [th|] eqn:Ht; [|done]. intros Hf. by apply (HQ1 x th).
  - intros Hno. apply HQ0. intros u th Hu Ht. specialize (Hno (nw u) ltac:(apply list_elem_of_fmap; eauto)). by rw nw_div /accepts Ht in Hno.
Qed.

(** Taking it out. *)
Definition without_ipc u q : queues := set_ipc (filter (λ x, x ≠ u) (q_ipc q)) q.

Lemma ipc_nodup s q lk : sched_inv s q lk → NoDup (q_ipc q).
Proof. intros [Hr _]. apply (NoDup_fmap_1 nw). exact (il_nodup _ _ _ (rep_is_list _ _ _ _ _ Hr (seqs_ipc q))). Qed.

Lemma wp_ipc_remove s q lk u (Q : list_ptr → sched_state K → Prop) : sched_inv s q lk → locked (lk ipc_wait_queue) = true → u ∈ q_ipc q →
  (∀ g, sched_inv (upd_sc_lists (λ _, g) s) (without_ipc u q) lk → Q (node_wait u) (upd_sc_lists (λ _, g) s)) → wp (on_lists (list_remove ipc_wait_queue (node_wait u))) Q s.
Proof.
  intros HI Hlk (l1 & l2 & El)%list_elem_of_split HQ. pose proof (ipc_nodup _ _ _ HI) as Hnd. rw El in Hnd.
  assert (filter (λ x, x ≠ u) (q_ipc q) = l1 ++ l2) as Ef by (rw El; exact (without_split Z.sub u l1 l2 Hnd)).
  apply wp_on_lists. destruct HI as [Hr Hok]. eapply (wp_rep_remove _ (seqs q) lk _ (nw <$> l1) (nw u) (nw <$> l2)); [exact Hr|by rw seqs_ipc El fmap_app|done|].
  intros g [Hg Hlg] _. apply HQ. rw /without_ipc Ef. rw -fmap_app seqs_set_ipc in Hg. split; [exact Hg|]. apply (threads_ok_live _ (sc_lists s)); [done|].
  eapply threads_ok_queues; [exact Hok|done|by left| |apply (to_sorted _ _ _ Hok)]. intros x [Hx|Hx]; left; [by left|right]. cbn in Hx. rw El. set_solver.
Qed.

Lemma not_in_without u q : u ∉ q_ipc (without_ipc u q).
Proof. rw /without_ipc /=. rw list_elem_of_filter. tauto. Qed.

(** Reading a thread under its lock. *)
Lemma wp_thread_read {X} s t th (f : thread → X) (Q : X → sched_state K → Prop) : sc_threads s !! t = Some th → t_lock th = SPINLOCK_INIT →
  (∀ v, f (set_t_lock v th) = f th) → Q (f th) s → wp (spinlock_exclusive_int (thread_lock t) (th ← get_thread t; mret (f th))) Q s.
Proof.
  intros Ht Hl Hf HQ. eapply (wp_spinlock_exclusive_int (thread_lock t)); [cbn; by rw Ht /= Hl|done|].
  rw /locked_state. cbn [thread_lock lk_set lk_get]. wp_step. eapply wp_get_thread; [by rw /= lookup_alter_eq Ht|]. wp_step. rw Hf.
  cbn. rw !lookup_alter_eq Ht. split; [done|]. split; [done|]. rw /upd_sc_threads /set_sc_int /=.
  assert (alter (set_t_lock SPINLOCK_INIT) t (alter (set_t_lock (mk_spinlock true (sc_int s))) t (sc_threads s)) = sc_threads s) as ->; [|by destruct s].
  apply map_eq. intros x. destruct (decide (x = t)) as [->|Hne]; [|by rw !lookup_alter_ne; [congruence..|]].
  rw !lookup_alter_eq Ht. cbn. f_equal. rw -Hl. by destruct th.
Qed.

(** A thread taken from the IPC queue runs again. *)
Lemma wp_ipc_wakeup s q lk u th (Q : unit → sched_state K → Prop) : sched_inv s (without_ipc u q) lk → runs_free lk → u ∉ q_wait q → sc_threads s !! u = Some th → t_state th = THREAD_STATE_WAIT →
  (∀ g, let s' := upd_sc_lists (λ _, g) (upd_sc_threads (alter (set_state THREAD_STATE_NORMAL) u) s) in
     sched_inv s' (push_run (t_sched_class th) u (without_ipc u q)) lk → Q tt s') → wp (wakeup_thread u) Q s.
Proof.
  intros HI Hf Hw Ht Hst HQ. eapply wp_wakeup_thread; [exact HI|done|exact Ht|done|exact Hw|apply not_in_without|]. intros g s' HI' _. by apply HQ.
Qed.

Lemma ipc_not_waiting s q lk u : sched_inv s q lk → u ∈ q_ipc q → u ∉ q_wait q.
Proof. intros HI Hi Hw. by apply (wait_not_twice _ _ _ _ HI Hw). Qed.

(** *** Answers *)

(** Thread [th] waits for the answer of a thread that answers ([pid], [tid]). *)
Definition awaits (pid tid : Z) (th : thread) : bool := (t_pid th =? pid) && (t_tid th =? tid) && (t_wait_type th =? IPC_WAIT_FOR_RESP).

Lemma ref_update_quiet f : quiet_update (upd_t_ref f).
Proof. done. Qed.

Lemma held_ipc_runs lk s : runs_free lk → runs_free (held ipc_wait_queue lk s).
Proof. apply held_runs. rw /sched_queues /ipc_wait_queue. lia. Qed.

(** The threads after [u] got the answer of [t]. *)
Definition answered u t (ths : gmap Z thread) : gmap Z thread :=
  alter (set_state THREAD_STATE_NORMAL) u (alter (upd_t_ref ref_dec) t (alter (upd_t_ref ref_dec) u ths)).

Lemma wp_ipc_respond s q t th : sched_inv s q unlocked → sc_threads s !! t = Some th →
  wp (ipc_respond t) (λ r s',
    (r = 0 ∧ ∃ u thu, u ∈ q_ipc q ∧ sc_threads s !! u = Some thu ∧ awaits (t_reply_pid th) (t_reply_tid th) thu = true ∧
       sc_threads s' = answered u t (sc_threads s) ∧ sched_inv s' (push_run (t_sched_class thu) u (without_ipc u q)) unlocked) ∨
    (r = -1 ∧ (t_reply_pid th = 0 ∨ t_reply_tid th = 0 ∨ ∀ u thu, u ∈ q_ipc q → sc_threads s !! u = Some thu → awaits (t_reply_pid th) (t_reply_tid th) thu = false) ∧
       quiet s s' ∧ sched_inv s' q unlocked)) s.
Proof.
  intros HI Ht. destruct (to_thread _ _ _ (proj2 HI) t th Ht) as (_ & _ & Hl & _). rw /ipc_respond. wp_step.
  eapply (wp_thread_read s t th (λ th, (t_reply_pid th, t_reply_tid th))); [exact Ht|done|done|]. cbn iota beta.
  destruct (ctrue (t_reply_pid th) && ctrue (t_reply_tid th)) eqn:Ec; [|wp_step; right; split; [done|]; split].
  - wp_step. eapply (wp_queue_access ipc_wait_queue s q unlocked); [exact in_seqs_ipc|exact HI|done|]. intros HL. wp_step.
    apply (wp_find_ipc _ q (held ipc_wait_queue unlocked s) (awaits (t_reply_pid th) (t_reply_tid th))); [exact HL| |].
    + intros u thu Hu Htu Ha. change (sc_threads s !! u = Some thu) in Htu. wp_step. eapply wp_ipc_remove; [exact HL|by rw /held lock_at_same|exact Hu|]. intros g HI1. wp_step. split; [done|].
      exists (without_ipc u q). split; [done|]. intros g1 HI2. wp_step. rw /copy_msg. apply wp_env_step; [intros k; apply env_copy_msg_ok|]. intros _ k _.
      wp_step. eapply wp_upd_quiet; [apply ref_update_quiet|exact HI2|by rw /= Htu|]. intros HI3.
      wp_step. eapply wp_upd_quiet; [apply ref_update_quiet|exact HI3|apply lookup_alter_is_Some; by rw /= Ht|]. intros HI4.
      destruct (to_wait _ _ _ (proj2 HI) u (or_intror Hu)) as (thu' & Htu' & Hstu). assert (thu' = thu) as -> by congruence.
      assert (∃ thu2, alter (upd_t_ref ref_dec) t (alter (upd_t_ref ref_dec) u (sc_threads s)) !! u = Some thu2 ∧ t_state thu2 = THREAD_STATE_WAIT ∧ t_sched_class thu2 = t_sched_class thu) as (thu2 & Htu2 & Hst2 & Hcl2).
      { destruct (decide (u = t)) as [->|Hne]; [rw !lookup_alter_eq Htu|rw (lookup_alter_ne _ _ t u); [congruence|]; rw lookup_alter_eq Htu]; by eexists. }
      wp_step. eapply (wp_ipc_wakeup _ q unlocked u thu2); [exact HI4|apply runs_free_unlocked|exact (ipc_not_waiting _ _ _ _ HI Hu)|exact Htu2|done|].
      intros g2 s' HI5. wp_step. left. split; [done|]. exists u, thu. split; [done|]. split; [done|]. split; [done|]. split; [done|]. by rw -Hcl2.
    + intros Hno. wp_step. split; [done|]. exists q. split; [done|]. intros g HI1. wp_step. right. split; [done|]. split; [right; right; exact Hno|]. split; [|done].
      exact (quiet_lists s g).
  - apply andb_false_iff in Ec as [Ec|Ec]; rw /ctrue negb_false_iff Z.eqb_eq in Ec; [by left|right; by left].
  - split; [exists (sc_lists s), (sc_env s); split; [reflexivity|by destruct s]|done].
Qed.

(** Answering a message: the thread that the caller has to answer, if it is waiting for an answer in the IPC queue,
    leaves the queue and runs again at the end of the run queue of its class, and 0 is returned; if no such thread is
    waiting, -1 is returned and nothing changes. *)
Theorem ipc_respond_correct s q t th : sched_inv s q unlocked → sc_threads s !! t = Some th →
  wp (ipc_respond t) (λ r s',
    (r = 0 ∧ ∃ u thu, u ∈ q_ipc q ∧ sc_threads s !! u = Some thu ∧ awaits (t_reply_pid th) (t_reply_tid th) thu = true ∧
       sc_threads s' = answered u t (sc_threads s) ∧ sched_inv s' (push_run (t_sched_class thu) u (without_ipc u q)) unlocked) ∨
    (r = -1 ∧ (t_reply_pid th = 0 ∨ t_reply_tid th = 0 ∨ ∀ u thu, u ∈ q_ipc q → sc_threads s !! u = Some thu → awaits (t_reply_pid th) (t_reply_tid th) thu = false) ∧
       quiet s s' ∧ sched_inv s' q unlocked)) s.
Proof. apply wp_ipc_respond. Qed.

(** *** Receiving *)

(** Thread [th] waits until somebody of process [pid] receives its message. *)
Definition sends_to (pid : Z) (th : thread) : bool := (t_wait_type th =? IPC_WAIT_FOR_SERIAL_RECV) && (t_ipc_pid th =? pid).

(** [u] notes that it waits for the answer of [t], and [t] whom it has to answer. *)
Definition linked u thu t th (ths : gmap Z thread) : gmap Z thread :=
  alter (upd_t_ref ref_inc) u (alter (upd_t_ref ref_inc) t (alter (set_reply_to (t_pid thu) (t_tid thu)) t (alter (set_ipc_wait (t_pid th) (t_tid th)) u ths))).

Lemma wp_link_reply s q lk u thu t th (Q : unit → sched_state K → Prop) : sched_inv s q lk → sc_threads s !! u = Some thu → sc_threads s !! t = Some th →
  (∀ s', s' = upd_sc_threads (λ _, linked u thu t th (sc_threads s)) s → sched_inv s' q lk → Q tt s') → wp (link_reply u t) Q s.
Proof.
  intros HI Hu Ht HQ. rw /link_reply. wp_step. eapply wp_get_thread; [exact Ht|]. wp_step. eapply wp_upd_quiet; [done|exact HI|by rw Hu|]. intros HI1.
  wp_step. eapply (wp_get_thread _ u (set_ipc_wait (t_pid th) (t_tid th) thu)); [by rw /= lookup_alter_eq Hu|].
  wp_step. eapply wp_upd_quiet; [done|exact HI1|apply lookup_alter_is_Some; by rw Ht|]. intros HI2.
  wp_step. eapply wp_upd_quiet; [done|exact HI2|do 2 apply lookup_alter_is_Some; by rw Ht|]. intros HI3.
  eapply wp_upd_quiet; [done|exact HI3|do 3 apply lookup_alter_is_Some; by rw Hu|]. intros HI4. by apply HQ.
Qed.

(** The threads after [u], which wants an answer, was received by [t]. *)
Definition received u thu t th (ths : gmap Z thread) : gmap Z thread :=
  linked u (set_wait_type IPC_WAIT_FOR_RESP thu) t th (alter (set_wait_type IPC_WAIT_FOR_RESP) u ths).

(** What [ipc_receive] returns and leaves when it finds the sender [u]. *)
Definition receive_post s q t th opcode u thu (r : Z * Z * bool) s' : Prop := r = (0, opcode, false) ∧
  (if ctrue (t_ipc_need_response thu) then sc_threads s' = received u thu t th (sc_threads s) ∧ sched_inv s' (without_ipc u q) unlocked
   else sc_threads s' = alter (set_state THREAD_STATE_NORMAL) u (sc_threads s) ∧ sched_inv s' (push_run (t_sched_class thu) u (without_ipc u q)) unlocked).

Lemma wp_ipc_unlock s q (e : bool) {X} (a : X) (Q : X → sched_state K → Prop) : sched_inv s q (lock_at unlocked ipc_wait_queue (mk_spinlock true e)) → sc_int s = false →
  (∀ g, let s' := set_sc_int e (upd_sc_lists (λ _, g) s) in sched_inv s' q unlocked → Q a s') → wp (spinlock_unlock_int (list_lock ipc_wait_queue);; mret a) Q s.
Proof.
  intros [Hr Hok] Hint HQ. destruct (Hr _ _ (seqs_ipc q)) as [_ E]. rw lock_at_same in E. wp_step.
  eapply (wp_spinlock_unlock_int (list_lock ipc_wait_queue)); [exact E|exact Hint|]. wp_step. apply HQ. split; [exact (rep_unlock_at _ _ _ _ _ eq_refl Hr)|]. by apply (threads_ok_live _ (sc_lists s)).
Qed.

Lemma wp_ipc_receive s q p pr t th opcode (Q : Z * Z * bool → sched_state K → Prop) : sched_inv s q unlocked → sc_procs s !! p = Some pr → sc_threads s !! t = Some th → t ∉ q_ipc q →
  (∀ u thu s', u ∈ q_ipc q → sc_threads s !! u = Some thu → sends_to (pr_pid pr) thu = true → receive_post s q t th (t_ipc_opcode thu) u thu (0, t_ipc_opcode thu, false) s' → Q (0, t_ipc_opcode thu, false) s') →
  ((∀ u thu, u ∈ q_ipc q → sc_threads s !! u = Some thu → sends_to (pr_pid pr) thu = false) → ∀ s', sc_int s' = false → sched_inv s' q (held ipc_wait_queue unlocked s) →
     sc_threads s' = alter (set_ipc_wait (t_pid th) (t_tid th)) t (alter (set_wait_type IPC_WAIT_FOR_SERIAL_REQ) t (sc_threads s)) → Q (0, opcode, true) s') →
  wp (ipc_receive p t opcode) Q s.
Proof.
  intros HI Hp Ht Hnt HQ1 HQ0. pose proof (lock_inv ipc_wait_queue _ _ _ HI) as HL. destruct ((proj1 HI) _ _ (seqs_ipc q)) as [_ Eg].
  rw /ipc_receive. wp_step. eapply (wp_spinlock_lock_int (list_lock ipc_wait_queue)); [exact Eg|done|]. change (locked_state (list_lock ipc_wait_queue) s) with (locked_sc ipc_wait_queue s).
  wp_step. eapply wp_deref; [exact Hp|]. wp_step. apply (wp_find_ipc _ q (held ipc_wait_queue unlocked s) (sends_to (pr_pid pr))); [exact HL| |].
  - intros u thu Hu Htu Hs. change (sc_threads s !! u = Some thu) in Htu. specialize (HQ1 u thu). wp_step. eapply wp_ipc_remove; [exact HL|by rw /held lock_at_same|exact Hu|]. intros g HI1.
    wp_step. rw /copy_msg. apply wp_env_step; [intros k; apply env_copy_msg_ok|]. intros _ k _. set (s1 := at_env _ k).
    wp_step. eapply (wp_get_thread s1 u thu); [exact Htu|]. wp_step. assert (u ≠ t) as Hut by congruence. rw /receive_post in HQ1. destruct (ctrue (t_ipc_need_response thu)).
    + wp_step. eapply (wp_upd_quiet _ s1); [done|exact HI1|by rw /= Htu|]. intros HI2.
      eapply (wp_link_reply _ _ _ u (set_wait_type IPC_WAIT_FOR_RESP thu) t); [exact HI2|by rw /= lookup_alter_eq Htu|rw /= (lookup_alter_ne _ _ u t); [done|exact Ht]|].
      intros s2 -> HI3. eapply wp_ipc_unlock; [exact HI3|done|]. intros g2 s3 HI4. by apply HQ1.
    + wp_step. apply wp_env_step; [intros k'; apply env_set_return_ok|]. intros _ k' _. destruct (to_wait _ _ _ (proj2 HI) u (or_intror Hu)) as (thu' & Htu' & Hstu). assert (thu' = thu) as -> by congruence.
      eapply (wp_ipc_wakeup _ q _ u thu); [exact HI1|apply held_ipc_runs, runs_free_unlocked|exact (ipc_not_waiting _ _ _ _ HI Hu)|exact Htu|done|].
      intros g2 s2 HI2. eapply wp_ipc_unlock; [exact HI2|done|]. intros g3 s3 HI3. by apply HQ1.
  - intros Hno. wp_step. eapply (wp_upd_quiet _ (locked_sc ipc_wait_queue s)); [done|exact HL|by rw /= Ht|]. intros HI1. wp_step.
    eapply (wp_get_thread _ t (set_wait_type IPC_WAIT_FOR_SERIAL_REQ th)); [by rw /= lookup_alter_eq Ht|]. wp_step. eapply wp_upd_quiet; [done|exact HI1|apply lookup_alter_is_Some; by rw /= Ht|]. intros HI2.
    wp_step. by apply HQ0.
Qed.

Lemma received_lookup u thu t th ths : u ≠ t → ths !! u = Some thu → ths !! t = Some th →
  received u thu t th ths !! u = Some (upd_t_ref ref_inc (set_ipc_wait (t_pid th) (t_tid th) (set_wait_type IPC_WAIT_FOR_RESP thu))) ∧
  received u thu t th ths !! t = Some (upd_t_ref ref_inc (set_reply_to (t_pid thu) (t_tid thu) th)) ∧
  ∀ x, x ≠ u → x ≠ t → received u thu t th ths !! x = ths !! x.
Proof.
  intros Hne Hu Ht. rw /received /linked. split; [|split].
  - rw lookup_alter_eq. do 2 (rw (lookup_alter_ne _ _ t u); [congruence|]). by rw !lookup_alter_eq Hu.
  - rw (lookup_alter_ne _ _ u t); [congruence|]. rw !lookup_alter_eq. do 2 (rw (lookup_alter_ne _ _ u t); [congruence|]). by rw Ht.
  - intros x Hxu Hxt. by rw !lookup_alter_ne; [congruence..|].
Qed.

(** C13. A serial message whose sender wants an answer loses the sender: when it is received, the sender is taken out of the
    IPC queue and not put back, so the answer of the receiver finds nobody and returns -1, and the sender stays in the
    waiting state in no queue at all. *)
Theorem serial_sender_lost s q p pr t th u thu opcode : sched_inv s q unlocked → sc_procs s !! p = Some pr → sc_threads s !! t = Some th → t ∉ q_ipc q →
  (∀ x thx, sc_threads s !! x = Some thx → t_tid thx = x) → sc_threads s !! u = Some thu →
  (∀ x thx, x ∈ q_ipc q → sc_threads s !! x = Some thx → sends_to (pr_pid pr) thx = bool_decide (x = u)) → u ∈ q_ipc q → t_ipc_need_response thu ≠ 0 →
  wp (r ← ipc_receive p t opcode; r' ← ipc_respond t; mret (r, r')) (λ '(r, r') s', r = (0, t_ipc_opcode thu, false) ∧ r' = -1 ∧
    ∃ q' thu', sched_inv s' q' unlocked ∧ sc_threads s' !! u = Some thu' ∧ t_state thu' = THREAD_STATE_WAIT ∧ (u ∉ q_wait q') ∧ (u ∉ q_ipc q') ∧ ∀ c, 0 ≤ c < 6 → u ∉ q_run q' c) s.
Proof.
  intros HI Hp Ht Hnt Htid Htu Hone Hu Hneed. assert (u ≠ t) as Hut by congruence. wp_step. eapply wp_ipc_receive; [exact HI|exact Hp|exact Ht|exact Hnt| |].
  - intros u' thu' s1 Hu' Htu' Hs [_ Hpost]. rw (Hone u' thu' Hu' Htu') in Hs. apply bool_decide_eq_true in Hs as ->. assert (thu' = thu) as -> by congruence.
    assert (ctrue (t_ipc_need_response thu) = true) as En by by rw /ctrue (proj2 (Z.eqb_neq _ _) Hneed). rw En in Hpost. destruct Hpost as [E1 HI1].
    destruct (received_lookup u thu t th (sc_threads s) Hut Htu Ht) as (L1 & L2 & L3). rw -E1 in L1 L2 L3.
    wp_step. eapply wp_mono; [exact (wp_ipc_respond s1 (without_ipc u q) t _ HI1 L2)|]. intros r s2 Hr. wp_step. split; [done|].
    destruct (to_wait _ _ _ (proj2 HI) u (or_intror Hu)) as (thu2 & Htu2 & Hst). assert (thu2 = thu) as -> by congruence.
    assert (∀ x thx, x ∈ q_ipc (without_ipc u q) → sc_threads s1 !! x = Some thx → awaits (t_pid thu) (t_tid thu) thx = false) as Hno.
    { intros x thx Hx Hthx. assert (x ≠ u) as Hxu by (intros ->; by apply not_in_without in Hx). assert (t_tid thx = x) as Ex.
      { destruct (decide (x = t)) as [->|Hxt]; [rw L2 in Hthx; injection Hthx as <-; exact (Htid t th Ht)|rw L3 // in Hthx; exact (Htid x thx Hthx)]. }
      rw /awaits Ex (Htid u thu Htu) (proj2 (Z.eqb_neq x u) Hxu) andb_false_r. done. }
    destruct Hr as [(_ & x & thx & Hx & Hthx & Ha & _)|(-> & _ & (g & k & _ & ->) & HI2)]; [cbn in Ha; by rw (Hno x thx Hx Hthx) in Ha|].
    split; [done|]. exists (without_ipc u q). eexists. split; [exact HI2|]. split; [exact L1|]. split; [exact Hst|]. split; [exact (ipc_not_waiting _ _ _ _ HI Hu)|]. split; [apply not_in_without|].
    intros c Hc Hin. destruct (to_run _ _ _ (proj2 HI) c u Hc Hin) as (th2 & Ht2 & Hs2 & _). congruence.
  - intros Hno. specialize (Hno u thu Hu Htu). rw (Hone u thu Hu Htu) bool_decide_eq_true_2 // in Hno.
Qed.

End Ipc.
