(* ===== verification/SchedDemo.v ===== *)
(** A kernel with four threads and a simple machine: the instances at which the
    theorems of [SchedProps.v] and [IpcSpec.v] are used. *)

From stdpp Require Import base list gmap sorting.
From Stdlib Require Import ZArith Lia.
From Corelib Require Import ssreflect.
From S2P Require Import Prelude Bits Lock List ListSpec ListRep Sched Wait Ipc SchedSpec WaitSpec SchedProps IpcSpec.

(** ** Checking a heap *)

Fixpoint seg_b (h : list_heap) (a : list_ptr) (xs : list Z) (b : list_ptr) : bool :=
  match xs with
  | [] => bool_decide (nxt h a = Some b) && bool_decide (prv h b = Some a)
  | x :: xs' => bool_decide (nxt h a = Some (PNode x)) && bool_decide (prv h (PNode x) = Some a) && seg_b h (PNode x) xs' b
  end.

Lemma seg_b_sound h a xs b : seg_b h a xs b = true → seg h a xs b.
Proof.
  revert a. induction xs as [|x xs IH]; intros a; cbn [seg_b seg].
  - by intros [?%bool_decide_eq_true ?%bool_decide_eq_true]%andb_true_iff.
  - intros [[?%bool_decide_eq_true ?%bool_decide_eq_true]%andb_true_iff ?]%andb_true_iff. auto.
Qed.

#[local] Instance spinlock_eq_dec : EqDecision spinlock_t.
Proof. solve_decision. Defined.
#[local] Instance hdr_eq_dec : EqDecision list_hdr.
Proof. solve_decision. Defined.

Definition list_b `{Arch} (h : list_heap) (l : Z) (xs : list Z) : bool :=
  seg_b h (PHead l) xs (PTail l) && bool_decide (NoDup xs) && bool_decide (Forall (λ x, own h (PNode x) = Some (Some l)) xs) &&
  bool_decide (lhdrs h !! l = Some (mk_hdr (ulong (Z.of_nat (length xs))) SPINLOCK_INIT)).

Lemma list_b_sound `{Arch} h l xs : list_b h l xs = true → is_list h l xs ∧ lk_get (heap_lock l) h = Some SPINLOCK_INIT.
Proof.
  rw /list_b. intros [[[Hs%seg_b_sound Hn%bool_decide_eq_true]%andb_true_iff Ho%bool_decide_eq_true]%andb_true_iff Hh%bool_decide_eq_true]%andb_true_iff.
  split; [|by rw /= Hh]. split; [done|done|by apply Forall_forall|by rw Hh].
Qed.

Definition rep_b `{Arch} (h : list_heap) (m : gmap Z (list Z)) : bool := bool_decide (map_Forall (λ l xs, list_b h l xs = true) m).

Lemma rep_b_sound `{Arch} h m : rep_b h m = true → rep h m unlocked.
Proof. intros Hm%bool_decide_eq_true l xs Hl. apply list_b_sound. exact (Hm l xs Hl). Qed.

(** ** The machine *)

(** The clock and the word that every address of the machine holds. *)
Definition machine : Type := Z * Z.

#[export] Instance machine_env : SchedEnv machine := {
  env_get_ms := λ k, Ret (k.1, (k.1 + 1, k.2));
  env_translate _ a := mret a;
  env_cast_paddr a := a;
  env_read_word _ := gets snd;
  env_copy_msg _ _ := mret tt;
  env_set_return _ _ _ := mret tt;
  env_set_regs _ _ _ := mret tt;
  env_save_context _ := mret tt;
  env_service_tlb := mret tt;
  env_notify_msg _ _ := mret tt;
  env_create _ _ _ := mret 0;
  env_free_thread _ := mret tt
}.

#[export] Instance machine_laws : SchedEnvLaws machine.
Proof.
  refine {| env_le := λ k k', k.1 ≤ k'.1; env_time := fst; env_readable := λ _, True; env_word := λ k _, k.2; env_map := λ _ _ a, a |}.
  - split; [intros k; lia|intros k1 k2 k3; lia].
  - done.
  - intros k. rw /wp /=. lia.
  - intros k pt a. rw /wp /=. lia.
  - intros k a _. rw /wp /=. lia.
  - intros k d u. rw /wp /=. lia.
  - intros k t a b. rw /wp /=. lia.
  - intros k t a b. rw /wp /=. lia.
  - intros k t. rw /wp /=. lia.
  - intros k. rw /wp /=. lia.
Defined.

(** ** The kernel *)

Module Demo.
#[local] Existing Instance riscv64.

Definition zero_node : list_node_t := mk_node PNull PNull None.
Definition list_ids : list Z := [0; 1; 2; 3; 8; 9; 10; 11; 12; 13].
Definition node_ids : list Z := concat (map (λ t, [4 * t; 4 * t + 1; 4 * t + 2; 4 * t + 3]) [1; 10; 20; 30; 31; 40]) ++ [-2; -3].

Definition blank : list_heap :=
  mk_heap (list_to_map (concat (map (λ l, [(PHead l, zero_node); (PTail l, zero_node)]) list_ids) ++ map (λ n, (PNode n, zero_node)) node_ids))
    (list_to_map (map (λ l, (l, mk_hdr 0 SPINLOCK_INIT)) list_ids)).

Fixpoint run_all (ms : list (M list_heap unit)) : M list_heap unit := match ms with [] => mret tt | m :: ms => m;; run_all ms end.

(** The lists are initialised and filled, each under its lock. *)
Definition fill (l : Z) (xs : list Z) : M list_heap unit :=
  spinlock_init (heap_lock l);; modify (lk_set (heap_lock l) (mk_spinlock true true));;
  run_all (map (λ x, list_push_back l (PNode x)) xs);; modify (lk_set (heap_lock l) SPINLOCK_INIT).

(** Thread 1 is idle, 10 runs, 20 can run, 30 waits for a futex, 31 for 5 ms to
    pass, and 40, of the other process, for somebody of process 5 to receive its message. *)
Definition demo_q : queues :=
  mk_queues (λ c, if c =? 5 then [1] else if c =? 4 then [20] else []) [31; 30] [40] [1; 10; 20; 30; 31; 40] [1; 2].

Definition demo_heap : list_heap :=
  final blank (run_all (map list_init list_ids ++ map (λ '(l, xs), fill l xs) (map_to_list (seqs demo_q))) blank).

Definition th (tid pid : Z) (st : thread_state) (wt obj timeout class ipid op need : Z) : thread :=
  mk_thread tid pid st wt obj timeout class ipid 0 op need 0 0 SPINLOCK_INIT 2.

Definition demo_threads : gmap Z thread := list_to_map (map (λ x, (t_tid x, x)) [
  th 1 5 THREAD_STATE_NORMAL 0 0 0 5 0 0 0; th 10 5 THREAD_STATE_NORMAL 0 0 0 4 0 0 0; th 20 6 THREAD_STATE_NORMAL 0 0 0 4 0 0 0;
  th 30 5 THREAD_STATE_WAIT 1 64 (2 ^ 64 - 1) 4 0 0 0; th 31 5 THREAD_STATE_WAIT 0 31 5 4 0 0 0;
  th 40 6 THREAD_STATE_WAIT 1 0 0 4 5 77 1]).

Definition demo_procs : gmap Z sproc :=
  <[1 := mk_sproc 5 PROCESS_STATE_NORMAL 0 0 SPINLOCK_INIT 5]> (<[2 := mk_sproc 6 PROCESS_STATE_NORMAL 0 0 SPINLOCK_INIT 3]> ∅).

(** At 3 ms; every futex is free. *)
Definition demo : sched_state machine := mk_sched demo_heap true demo_threads demo_procs 0 0 (3, 0).

(** A property of all entries of a map, by evaluation. *)
Lemma map_check {A} (P : Z → A → Prop) `{∀ i x, Decision (P i x)} (m : gmap Z A) : bool_decide (map_Forall P m) = true → ∀ i x, m !! i = Some x → P i x.
Proof. intros Hm%bool_decide_eq_true i x Hi. exact (Hm i x Hi). Qed.
Lemma list_check (P : Z → Prop) `{∀ x, Decision (P x)} (l : list Z) : bool_decide (Forall P l) = true → ∀ x, x ∈ l → P x.
Proof. intros Hl%bool_decide_eq_true. exact (proj1 (Forall_forall _ _) Hl). Qed.

Lemma demo_rep : rep (sc_lists demo) (seqs demo_q) unlocked.
Proof. apply rep_b_sound. vm_compute. reflexivity. Qed.

Definition state_of (t : Z) : option (thread_state * Z) := (λ x, (t_state x, t_sched_class x)) <$> demo_threads !! t.

Lemma state_of_some t st c : state_of t = Some (st, c) → ∃ th, demo_threads !! t = Some th ∧ t_state th = st ∧ t_sched_class th = c.
Proof. rw /state_of. destruct (demo_threads !! t); [|done]. intros [= <- <-]. eauto. Qed.

Lemma demo_threads_ok : threads_ok (sc_threads demo) (sc_lists demo) demo_q.
Proof.
  split.
  - refine (map_check (λ t x, 0 ≤ t ∧ 0 ≤ t_sched_class x < 6 ∧ t_lock x = SPINLOCK_INIT ∧ live demo_heap (PNode (ns t)) ∧ live demo_heap (PNode (nw t))) demo_threads _). vm_compute. reflexivity.
  - intros c t Hc Ht. apply (state_of_some t). revert t Ht. cbn [demo_q q_run]. destruct (Z.eqb_spec c 5) as [->|]; [|destruct (Z.eqb_spec c 4) as [->|]; [|by intros t ?%elem_of_nil]];
      [apply (list_check (λ t, state_of t = Some (THREAD_STATE_NORMAL, 5)))|apply (list_check (λ t, state_of t = Some (THREAD_STATE_NORMAL, 4)))]; vm_compute; reflexivity.
  - intros t Ht. assert (∃ c, state_of t = Some (THREAD_STATE_WAIT, c)) as [c (x & Hx & Hs & _)%state_of_some]; [|eauto]. exists 4. revert t Ht.
    assert (∀ t, t ∈ [31; 30; 40] → state_of t = Some (THREAD_STATE_WAIT, 4)) as Hl by (apply (list_check (λ t, state_of t = Some (THREAD_STATE_WAIT, 4))); vm_compute; reflexivity). intros t Ht. apply Hl. cbn in Ht. set_solver.
  - apply (list_check (λ p, 0 ≤ p)). vm_compute. reflexivity.
  - repeat constructor; vm_compute; discriminate.
Qed.

Lemma demo_sched_inv : sched_inv demo demo_q unlocked.
Proof. split; [exact demo_rep|exact demo_threads_ok]. Qed.

Lemma demo_sys_inv : sys_inv unlocked demo demo_q {[10]}.
Proof.
  split; [exact demo_sched_inv| | |vm_compute; reflexivity].
  - refine (map_check (λ t x, (t_state x = THREAD_STATE_NORMAL → t ∈ ({[10]} : gset Z) ∨ t ∈ q_run demo_q (t_sched_class x)) ∧ (t_state x = THREAD_STATE_WAIT → t ∈ q_wait demo_q ∨ t ∈ q_ipc demo_q)) demo_threads _).
    vm_compute. reflexivity.
  - intros t ->%elem_of_singleton. destruct (state_of_some 10 THREAD_STATE_NORMAL 4) as (x & Hx & Hs & _); [vm_compute; reflexivity|]. exists x. split; [exact Hx|]. split; [exact Hs|].
    intros c Hc. cbn [demo_q q_run]. destruct (c =? 5), (c =? 4); set_solver.
Qed.

Lemma demo_ids : ids_ok demo demo_q.
Proof.
  split.
  - intros t tid pid ref Ht. assert (tid = t ∧ t ∈ q_threads demo_q ∧ (pid = 5 ∨ pid = 6)) as (-> & Hin & Hp).
    { refine (map_check (λ t i, i.1.1 = t ∧ t ∈ q_threads demo_q ∧ (i.1.2 = 5 ∨ i.1.2 = 6)) (ident <$> demo_threads) _ t (tid, pid, ref) Ht). vm_compute. reflexivity. }
    split; [done|]. split; [done|]. destruct Hp as [-> | ->]; [exists 1|exists 2]; (eexists; split; [cbn; set_solver|split; reflexivity]).
  - refine (list_check (λ t, is_Some ((ident <$> demo_threads) !! t)) (q_threads demo_q) _). vm_compute. reflexivity.
  - intros p Hp. cbn in Hp. assert (p = 1 ∨ p = 2) as [-> | ->] by set_solver; (eexists; split; [reflexivity|split; [|done]]; vm_compute; split; [discriminate|reflexivity]).
Qed.

Lemma demo_refs : refs_fit demo.
Proof. intros t tid pid ref Ht. refine (map_check (λ t i, 0 ≤ i.2 < 2 ^ 64 - 1) (ident <$> demo_threads) _ t (tid, pid, ref) Ht). vm_compute. reflexivity. Qed.

Lemma demo_sys_ok : sys_ok demo demo_q {[10]}.
Proof. split; [exact demo_sys_inv|split; [exact demo_ids|exact demo_refs]]. Qed.

Lemma demo_counts : counts_fit demo_q.
Proof. intros c Hc. cbn [demo_q q_run]. destruct (c =? 5), (c =? 4); vm_compute; reflexivity. Qed.

(** A call of thread 10, of a process that is not the kernel's. *)
Lemma demo_call a b c : uint 64 c → call_valid demo (Wait a b c) 10.
Proof. intros Hc p x pr _ _ _. by split. Qed.

(** *** Witnesses *)

Lemma idle_runs : q_run demo_q SCHED_CLASS_IDLE ≠ [].
Proof. discriminate. Qed.

Lemma demo_front c t l : 1 ≤ c ≤ 5 → q_run demo_q c = t :: l → (4 < c → q_run demo_q 4 = []) → t = 20 ∧ set_run c l demo_q = set_run 4 [] demo_q.
Proof.
  intros Hc El Hlow. assert (c = 4) as ->.
  { destruct (Z.eqb_spec c 4) as [|H4]; [assumption|exfalso]. destruct (Z.eqb_spec c 5) as [->|H5]; [discriminate (Hlow ltac:(lia))|].
    cbn [demo_q q_run] in El. rw (proj2 (Z.eqb_neq c 5) H5) (proj2 (Z.eqb_neq c 4) H4) in El. discriminate El. }
  change ([20] = t :: l) in El. injection El as <- <-. split; reflexivity.
Qed.

Lemma sched_picks_by_class_witness : wpn False sched (λ t s', t = 20 ∧ sched_inv s' (set_run 4 [] demo_q) unlocked) demo.
Proof.
  eapply wpn_mono; [exact (sched_picks_by_class demo demo_q demo_sched_inv demo_counts)|exact idle_runs|].
  intros t s' (_ & ms & c & l & _ & Hc & El & _ & Hlow & HI). destruct (demo_front c t l Hc El) as [-> E]; [|rw -E; exact (conj eq_refl HI)].
  intros H4. apply Hlow; [lia|]. intros E. discriminate E.
Defined.

Lemma timeout_wakeup_exact_witness : wp timeout_wakeup (λ _ s', ∃ ws ks, [31; 30] = ws ++ ks ∧ sc_threads s' = wake_threads ws demo_threads) demo.
Proof.
  eapply wp_mono; [exact (timeout_wakeup_exact demo demo_q demo_sched_inv)|]. intros u s' (ws & ks & E & _ & _ & (g & k & -> & _)). by exists ws, ks.
Defined.

(** The futex at 64 is free, so thread 30 is woken. *)
Lemma wake_on_object_exact_witness : wp (wake_on_object_exclusive 1 WAIT_ON_FUTEX 64 0 0) (λ n s', n = 0 ∨ n = 1) demo.
Proof.
  eapply wp_mono; [apply (wake_on_object_exact demo demo_q 1 (mk_sproc 5 PROCESS_STATE_NORMAL 0 0 SPINLOCK_INIT 5) WAIT_ON_FUTEX 64 0 0 demo_sched_inv)|].
  - vm_compute. reflexivity.
  - by vm_compute.
  - reflexivity.
  - done.
  - intros n s' (k0 & k1 & ws & ks & _ & -> & Hw & _ & _). destruct (_ && _) in Hw; subst ws; [right|by left]. vm_compute. reflexivity.
Defined.

(** Thread 10 waits 4 ms, which end after the wait of thread 31. *)
Lemma wait_sleeps_in_order_witness : wp (err ← wait_on_object 1 10 WAIT_ON_TIMEOUT 0 0 4; (if ctrue err then mret tt else sleep_thread 10);; mret err) (λ err s', err = 0) demo.
Proof.
  eapply wp_mono; [apply (wait_sleeps_in_order demo demo_q 1 10 (mk_sproc 5 PROCESS_STATE_NORMAL 0 0 SPINLOCK_INIT 5) (th 10 5 THREAD_STATE_NORMAL 0 0 0 4 0 0 0) WAIT_ON_TIMEOUT 0 0 4 demo_sched_inv)|].
  - destruct (running_idle _ _ _ _ 10 demo_sys_inv) as (x & _ & _ & Hid); [by apply elem_of_singleton|exact Hid].
  - reflexivity.
  - vm_compute. reflexivity.
  - reflexivity.
  - done.
  - by intros err s' (k0 & k1 & _ & [-> _]).
Defined.

Lemma dispatch_serves_witness : dispatch 10 (handler_of (Wait 7 0 0)) demo = Panic ∧
  wpn False (dispatch 10 (handler_of (Wait 0 0 4))) (λ r s', ∃ q', sys_ok s' q' (now_running {[10]} 10 r)) demo.
Proof.
  split.
  - apply (dispatch_serves demo demo_q {[10]} (Wait 7 0 0) 10 demo_sys_ok); [by apply elem_of_singleton|]. apply demo_call. split; vm_compute; congruence.
  - eapply wpn_mono; [apply (dispatch_serves demo demo_q {[10]} (Wait 0 0 4) 10 demo_sys_ok)|exact idle_runs|intros r s' Hs; exact Hs].
    + by apply elem_of_singleton.
    + apply demo_call. split; vm_compute; congruence.
Defined.

Lemma demo_tids t x : demo_threads !! t = Some x → t_tid x = t.
Proof. revert t x. apply (@map_check thread (λ t x, t_tid x = t) (λ t x, Z.eq_dec (t_tid x) t)). vm_compute. reflexivity. Qed.

(** Two events: thread 10 yields to thread 20, and the timeout worker has a round. *)
Definition after_yield : sched_state machine := final demo (dispatch 10 (handler_of Yield) demo).
Definition after_worker : sched_state machine := final demo (timeout_wakeup after_yield).

Lemma demo_yields : sys_step (demo, {[10]}) (after_yield, now_running {[10]} 10 (Some 20)).
Proof. apply (step_call demo {[10]} Yield); [by apply elem_of_singleton|by intros p x pr _ _ _|]. apply final_run. vm_compute. reflexivity. Qed.

Lemma demo_worker R : sys_step (after_yield, R) (after_worker, R).
Proof. apply step_timeout. apply final_run. vm_compute. reflexivity. Qed.

Lemma threads_never_lost_witness : ∃ q, sched_inv after_worker q unlocked ∧ ∀ t x, sc_threads after_worker !! t = Some x → t_state x = THREAD_STATE_WAIT → t ∈ q_wait q ↔ t ∉ q_ipc q.
Proof.
  destruct (threads_never_lost demo {[10]} after_worker (now_running {[10]} 10 (Some 20))) as (q & HI & _ & _ & Hall).
  - exists demo_q. exact demo_sys_ok.
  - eapply rtc_l; [exact demo_yields|]. apply rtc_once. apply demo_worker.
  - exists q. split; [exact HI|]. intros t x Hx Hs. destruct (Hall t x Hx) as [_ Hw]. exact (proj1 (proj2 (Hw Hs))).
Defined.

(** Nobody waits for an answer of thread 10. *)
Lemma ipc_respond_correct_witness : wp (ipc_respond 10) (λ r s', r = -1) demo.
Proof.
  eapply wp_mono; [apply (ipc_respond_correct demo demo_q 10 (th 10 5 THREAD_STATE_NORMAL 0 0 0 4 0 0 0) demo_sched_inv); vm_compute; reflexivity|].
  intros r s' [(_ & u & x & Hu & Hx & Ha & _)|[-> _]]; [|reflexivity]. exfalso. revert Ha. cbn in Hu. apply list_elem_of_singleton in Hu as ->.
  assert (x = th 40 6 THREAD_STATE_WAIT 1 0 0 4 5 77 1) as ->; [|by vm_compute]. assert (demo_threads !! 40 = Some (th 40 6 THREAD_STATE_WAIT 1 0 0 4 5 77 1)) as E by (vm_compute; reflexivity).
  change (demo_threads !! 40 = Some x) in Hx. rw E in Hx. by apply (inj Some) in Hx.
Defined.

(** Thread 10 receives the message of thread 40 and cannot answer it. *)
Lemma serial_sender_lost_witness : wp (r ← ipc_receive 1 10 0; r' ← ipc_respond 10; mret (r, r')) (λ r s', r = ((0, 77, false), -1) ∧
  ∃ q' x, sched_inv s' q' unlocked ∧ sc_threads s' !! 40 = Some x ∧ t_state x = THREAD_STATE_WAIT ∧ (40 ∉ q_wait q') ∧ 40 ∉ q_ipc q') demo.
Proof.
  eapply wp_mono; [apply (serial_sender_lost demo demo_q 1 (mk_sproc 5 PROCESS_STATE_NORMAL 0 0 SPINLOCK_INIT 5) 10 (th 10 5 THREAD_STATE_NORMAL 0 0 0 4 0 0 0) 40 (th 40 6 THREAD_STATE_WAIT 1 0 0 4 5 77 1) 0 demo_sched_inv)|].
  - reflexivity.
  - vm_compute. reflexivity.
  - cbn. set_solver.
  - exact demo_tids.
  - vm_compute. reflexivity.
  - intros x y Hx Hy. cbn in Hx. apply list_elem_of_singleton in Hx as ->. assert (demo_threads !! 40 = Some (th 40 6 THREAD_STATE_WAIT 1 0 0 4 5 77 1)) as E by (vm_compute; reflexivity).
    change (demo_threads !! 40 = Some y) in Hy. rw E in Hy. apply (inj Some) in Hy as <-. vm_compute. reflexivity.
  - cbn. set_solver.
  - done.
  - intros [r r'] s' (-> & -> & q' & x & HI & Hx & Hs & Hw & Hi & _). split; [reflexivity|]. exists q', x. done.
Defined.

End Demo.
