(* ===== verification/Vm.v ===== *)
(** Dynamic virtual memory of processes: [src/src/kernel/proc/vm.c], the TLB
    shootdown queue of [src/src/kernel/proc/tlb.c], [event_signal] of
    [src/src/kernel/proc/event.c] and the process lookup of
    [src/src/kernel/proc/process.c].

    A process owns a range of addresses, cut into blocks that move between five
    lists: available, in use, reusable (thread blocks), and on their way back
    through sanitizing, first mapped and then unmapped.  Blocks are objects of
    the structure allocator; the lists are those of [List.v].  What the code
    calls outside these files (structure and page frame allocation, the page
    table and TLB operations exported by the HAL, the wait queue) is the
    interface [VmEnv]. *)

From stdpp Require Import base list gmap.
From Stdlib Require Import ZArith Lia.
From Corelib Require Import ssreflect.
From S2P Require Import Prelude Bits Lock Mem List.

(** ** Data *)

Inductive process_vm_type := VM_TYPE_AVAIL | VM_TYPE_GENERIC | VM_TYPE_THREAD.
Inductive process_vm_map_type := VM_MAP_TYPE_NONE | VM_MAP_TYPE_OWNER | VM_MAP_TYPE_GUEST.

#[export] Instance process_vm_type_eq_dec : EqDecision process_vm_type.
Proof. solve_decision. Defined.
#[export] Instance process_vm_map_type_eq_dec : EqDecision process_vm_map_type.
Proof. solve_decision. Defined.

(** [struct vm_block] without its list nodes, which are in the list heap. *)
Record vm_block := mk_block {
  b_proc : Z;
  b_base : Z;
  b_size : Z;
  b_type : process_vm_type;
  b_map_type : process_vm_map_type;
  b_tlb_seq : Z;
  b_wait_acks : Z
}.

Definition zero_block : vm_block := mk_block 0 0 0 VM_TYPE_AVAIL VM_MAP_TYPE_NONE 0 0.

Definition set_b_proc v b := mk_block v (b_base b) (b_size b) (b_type b) (b_map_type b) (b_tlb_seq b) (b_wait_acks b).
Definition set_b_base v b := mk_block (b_proc b) v (b_size b) (b_type b) (b_map_type b) (b_tlb_seq b) (b_wait_acks b).
Definition set_b_size v b := mk_block (b_proc b) (b_base b) v (b_type b) (b_map_type b) (b_tlb_seq b) (b_wait_acks b).
Definition set_b_type v b := mk_block (b_proc b) (b_base b) (b_size b) v (b_map_type b) (b_tlb_seq b) (b_wait_acks b).
Definition set_b_map_type v b := mk_block (b_proc b) (b_base b) (b_size b) (b_type b) v (b_tlb_seq b) (b_wait_acks b).
Definition set_b_tlb_seq v b := mk_block (b_proc b) (b_base b) (b_size b) (b_type b) (b_map_type b) v (b_wait_acks b).
Definition set_b_wait_acks v b := mk_block (b_proc b) (b_base b) (b_size b) (b_type b) (b_map_type b) (b_tlb_seq b) v.

(** The futex word of an event: [locked] and [kernel]. *)
Record wait_event := mk_event { ev_locked : bool; ev_kernel : bool }.

(** The fields of [struct process] the file uses; the lists are in the heap. *)
Record vm_proc := mk_proc {
  p_pid : Z;
  p_asid : Z;
  p_page_table : Z;
  p_page_table_lock : spinlock_t;
  p_dynamic_start : Z;
  p_dynamic_end : Z;
  p_num_active_blocks : Z;
  p_num_palloc_pages : Z;
  p_num_salloc_objs : Z;
  p_cleanup_event : wait_event;
  p_ref_count : Z
}.

Definition set_p_lock v p := mk_proc (p_pid p) (p_asid p) (p_page_table p) v (p_dynamic_start p) (p_dynamic_end p)
  (p_num_active_blocks p) (p_num_palloc_pages p) (p_num_salloc_objs p) (p_cleanup_event p) (p_ref_count p).
Definition upd_active f p := mk_proc (p_pid p) (p_asid p) (p_page_table p) (p_page_table_lock p) (p_dynamic_start p) (p_dynamic_end p)
  (f (p_num_active_blocks p)) (p_num_palloc_pages p) (p_num_salloc_objs p) (p_cleanup_event p) (p_ref_count p).
Definition upd_pages f p := mk_proc (p_pid p) (p_asid p) (p_page_table p) (p_page_table_lock p) (p_dynamic_start p) (p_dynamic_end p)
  (p_num_active_blocks p) (f (p_num_palloc_pages p)) (p_num_salloc_objs p) (p_cleanup_event p) (p_ref_count p).
Definition upd_objs f p := mk_proc (p_pid p) (p_asid p) (p_page_table p) (p_page_table_lock p) (p_dynamic_start p) (p_dynamic_end p)
  (p_num_active_blocks p) (p_num_palloc_pages p) (f (p_num_salloc_objs p)) (p_cleanup_event p) (p_ref_count p).
Definition set_event v p := mk_proc (p_pid p) (p_asid p) (p_page_table p) (p_page_table_lock p) (p_dynamic_start p) (p_dynamic_end p)
  (p_num_active_blocks p) (p_num_palloc_pages p) (p_num_salloc_objs p) v (p_ref_count p).
Definition upd_ref f p := mk_proc (p_pid p) (p_asid p) (p_page_table p) (p_page_table_lock p) (p_dynamic_start p) (p_dynamic_end p)
  (p_num_active_blocks p) (p_num_palloc_pages p) (p_num_salloc_objs p) (p_cleanup_event p) (f (p_ref_count p)).

(** ** Interface to the rest of the kernel *)

(** [K] is the state of everything outside the modelled files. *)
Class VmEnv (K : Type) := {
  env_salloc : M K (option Z);                (* salloc(&vm_salloc_obj) *)
  env_sfree : Z → M K unit;                   (* sfree *)
  env_palloc_paddr : Z → M K Z;
  env_palloc_paddr_direct_mapped : Z → M K Z;
  env_pfree_paddr : Z → M K Z;
  env_translate : Z → Z → M K Z;              (* hal_exports.translate(page_table, vaddr) *)
  env_map_range : Z → Z → Z → Z → Z → Z → Z → Z → Z → M K Z;
  env_unmap_range : Z → Z → Z → Z → M K Z;
  env_cast_kernel_ptr_to_paddr : Z → Z;
  env_invalidate_tlb : Z → Z → Z → M K unit;
  env_flush_tlb : M K unit;
  env_num_cpus : Z;
  env_asid_supported : bool;
  env_wake : Z → M K unit                     (* wake_on_object_exclusive on a process's event *)
}.

Record vm_state (K : Type) := mk_vm {
  v_lists : list_heap;
  v_int : bool;
  v_blocks : gmap Z vm_block;
  v_procs : gmap Z vm_proc;
  v_tlb_seq : Z;
  v_cpu_seq : Z;
  v_env : K
}.

Arguments mk_vm {K} _ _ _ _ _ _ _.
Arguments v_lists {K} _.
Arguments v_int {K} _.
Arguments v_blocks {K} _.
Arguments v_procs {K} _.
Arguments v_tlb_seq {K} _.
Arguments v_cpu_seq {K} _.
Arguments v_env {K} _.

(** ** Lists and nodes *)

(** Two nodes are embedded in a block, one in a process. *)
Definition blk_node (b : Z) : list_ptr := PNode (2 * b).
Definition tlb_node (b : Z) : list_ptr := PNode (2 * b + 1).
Definition proc_node (p : Z) : list_ptr := PNode (- p - 1).

(** [list_entry(n, struct vm_block, node)] and its two variants. *)
Definition entry_of (f : Z → Z) (n : list_ptr) : outcome Z :=
  match n with PNode k => Ret (f k) | _ => Fault end.
Definition blk_of : list_ptr → outcome Z := entry_of (λ k, k / 2).
Definition tlb_blk_of : list_ptr → outcome Z := entry_of (λ k, (k - 1) / 2).
Definition proc_of : list_ptr → outcome Z := entry_of (λ k, - k - 1).

Definition tlb_shootdown_reqs : Z := 0.
Definition processes : Z := 1.
Definition avail_unmapped (p : Z) : Z := 8 * p + 2.
Definition sanit_unmapped (p : Z) : Z := 8 * p + 3.
Definition sanit_mapped (p : Z) : Z := 8 * p + 4.
Definition reuse_mapped (p : Z) : Z := 8 * p + 5.
Definition inuse_mapped (p : Z) : Z := 8 * p + 6.

Section Vm.
Context `{Arch} {K : Type} `{VmEnv K}.

Definition upd_v_lists (f : list_heap → list_heap) (s : vm_state K) : vm_state K :=
  mk_vm (f (v_lists s)) (v_int s) (v_blocks s) (v_procs s) (v_tlb_seq s) (v_cpu_seq s) (v_env s).
Definition set_v_int (b : bool) (s : vm_state K) : vm_state K :=
  mk_vm (v_lists s) b (v_blocks s) (v_procs s) (v_tlb_seq s) (v_cpu_seq s) (v_env s).
Definition upd_v_blocks (f : gmap Z vm_block → gmap Z vm_block) (s : vm_state K) : vm_state K :=
  mk_vm (v_lists s) (v_int s) (f (v_blocks s)) (v_procs s) (v_tlb_seq s) (v_cpu_seq s) (v_env s).
Definition upd_v_procs (f : gmap Z vm_proc → gmap Z vm_proc) (s : vm_state K) : vm_state K :=
  mk_vm (v_lists s) (v_int s) (v_blocks s) (f (v_procs s)) (v_tlb_seq s) (v_cpu_seq s) (v_env s).
Definition set_v_tlb_seq (q : Z) (s : vm_state K) : vm_state K :=
  mk_vm (v_lists s) (v_int s) (v_blocks s) (v_procs s) q (v_cpu_seq s) (v_env s).
Definition set_v_cpu_seq (q : Z) (s : vm_state K) : vm_state K :=
  mk_vm (v_lists s) (v_int s) (v_blocks s) (v_procs s) (v_tlb_seq s) q (v_env s).
Definition set_v_env (k : K) (s : vm_state K) : vm_state K :=
  mk_vm (v_lists s) (v_int s) (v_blocks s) (v_procs s) (v_tlb_seq s) (v_cpu_seq s) k.

#[export] Instance vm_has_int : HasInt (vm_state K) := {
  int_state := v_int;
  set_int := set_v_int;
  int_set _ _ := eq_refl;
  set_set _ _ _ := eq_refl;
  set_same s := match s with mk_vm _ _ _ _ _ _ _ => eq_refl end
}.

#[export] Instance vm_has_lists : HasLists (vm_state K) := {
  lists := v_lists;
  set_lists h := upd_v_lists (λ _, h);
  lists_set _ _ := eq_refl;
  set_lists_set _ _ _ := eq_refl;
  set_lists_same s := match s with mk_vm _ _ _ _ _ _ _ => eq_refl end;
  lists_int _ _ := eq_refl;
  set_lists_int _ _ _ := eq_refl;
  int_lists _ _ := eq_refl
}.

Abbreviation VM := (M (vm_state K)).

Definition on_env {A} (m : M K A) : VM A := zoom v_env set_v_env m.

(** Field accesses of blocks and processes. *)
Definition get_blk (b : Z) : VM vm_block := deref (λ s, v_blocks s !! b).
Definition upd_blk (b : Z) (f : vm_block → vm_block) : VM unit :=
  get_blk b;; modify (upd_v_blocks (alter f b)).
Definition get_proc (p : Z) : VM vm_proc := deref (λ s, v_procs s !! p).
Definition upd_proc (p : Z) (f : vm_proc → vm_proc) : VM unit :=
  get_proc p;; modify (upd_v_procs (alter f p)).

Definition ref_inc (v : Z) : Z := ulong (v + 1).
Definition ref_dec (v : Z) : Z := ulong (v - 1).

Definition page_table_lock (p : Z) : lock_ref (vm_state K) :=
  mk_lock_ref (λ s, p_page_table_lock <$> v_procs s !! p) (λ v, upd_v_procs (alter (set_p_lock v) p)).

(** [salloc_audit(&vm_salloc_obj, &p->vm.num_salloc_objs)]: the constructor
    zeroes the new block with its two nodes. *)
Definition salloc_audit (p : Z) : VM (option Z) :=
  r ← on_env env_salloc;
  match r with
  | None => mret None
  | Some b =>
      modify (upd_v_blocks <[b := zero_block]>);;
      modify (upd_v_lists (upd_lnodes (λ m, <[blk_node b := mk_node PNull PNull None]>
                                            (<[tlb_node b := mk_node PNull PNull None]> m))));;
      upd_proc p (upd_objs ref_inc);;
      mret (Some b)
  end.

(** [sfree_audit(b, &p->vm.num_salloc_objs)]: the block and its nodes are gone. *)
Definition sfree_audit (b p : Z) : VM unit :=
  get_blk b;;
  on_env (env_sfree b);;
  modify (upd_v_blocks (delete b));;
  modify (upd_v_lists (upd_lnodes (λ m, delete (blk_node b) (delete (tlb_node b) m))));;
  upd_proc p (upd_objs ref_dec).

(** [event_signal(&p->cleanup_event)], uncontended. *)
Definition event_signal (p : Z) : VM unit :=
  pr ← get_proc p;
  let k := ev_kernel (p_cleanup_event pr) in
  upd_proc p (set_event (mk_event true k));;
  if k then
    upd_proc p (set_event (mk_event true false));;
    on_env (env_wake p)
  else mret tt.

(** [list_foreach] that stops at the first node [f] accepts. *)
Fixpoint find_from {A} (fuel : nat) (l : Z) (n : list_ptr) (f : list_ptr → VM (option A)) : VM (option A) :=
  if bool_decide (n = PTail l) then mret None else
  match fuel with
  | O => diverge
  | S fuel' =>
      r ← f n;
      match r with
      | Some a => mret (Some a)
      | None => nd ← on_lists (get_node n); find_from fuel' l (next nd) f
      end
  end.

Definition list_find_first {A} (l : Z) (f : list_ptr → VM (option A)) : VM (option A) :=
  hd ← on_lists (get_node (PHead l));
  fuel ← gets (λ s, size (lnodes (v_lists s)));
  find_from fuel l (next hd) f.

(** ** Sort and merge callbacks *)

(** [list_compare] on the blocks of two nodes. *)
Definition list_compare (blocks : gmap Z vm_block) (x y : Z) : Z :=
  let bx := default 0 (b_base <$> blocks !! (x / 2)) in
  let by' := default 0 (b_base <$> blocks !! (y / 2)) in
  if by' <? bx then 1 else if bx <? by' then -1 else 0.

(** [list_insert_sorted_exclusive(l, &b->node, list_compare)]. *)
Definition insert_block (l b : Z) : VM unit :=
  blocks ← gets v_blocks;
  list_insert_sorted_exclusive l (blk_node b) (list_compare blocks).

Definition avail_list_merge (a b : list_ptr) : VM Z :=
  ba ← lift_outcome (blk_of a);
  bb ← lift_outcome (blk_of b);
  x ← get_blk ba;
  y ← get_blk bb;
  if ulong (b_base x + b_size x) =? b_base y then
    upd_blk ba (set_b_size (ulong (b_size x + b_size y)));; mret 0
  else mret (-1).

Definition avail_list_free (n : list_ptr) : VM unit :=
  b ← lift_outcome (blk_of n);
  x ← get_blk b;
  upd_proc (b_proc x) (upd_ref ref_dec);;
  sfree_audit b (b_proc x).

(** ** Create *)

Definition vm_create (p : Z) : VM Z :=
  r ← salloc_audit p;
  match r with
  | None => panic
  | Some b =>
      pr ← get_proc p;
      upd_blk b (set_b_proc p);;
      upd_blk b (set_b_base (p_dynamic_start pr));;
      upd_blk b (set_b_size (ulong (p_dynamic_end pr - p_dynamic_start pr)));;
      upd_blk b (set_b_type VM_TYPE_AVAIL);;
      list_push_back_exclusive (avail_unmapped p) (blk_node b);;
      upd_proc p (upd_ref ref_inc);;
      mret 0
  end.

(** ** Allocate *)

Definition free_deleted (delete_block : option Z) (p : Z) : VM unit :=
  match delete_block with
  | Some d => sfree_audit d p;; upd_proc p (upd_ref ref_dec)
  | None => mret tt
  end.

(** What [vm_alloc_thread] does under the lock of [avail_unmapped]: the base
    (0 when there is no room) and the block to delete. *)
Definition carve_thread (p block_size : Z) : VM (Z * option Z) :=
  n ← on_lists (list_back (avail_unmapped p));
  if bool_decide (n = PNull) then mret (0, None) else
  last ← lift_outcome (blk_of n);
  x ← get_blk last;
  if b_size x <? block_size then mret (0, None) else
  let sz := ulong (b_size x - block_size) in
  upd_blk last (set_b_size sz);;
  let base := ulong (b_base x + sz) in
  del ← (if ctrue sz then mret None
         else on_lists (list_remove (avail_unmapped p) (blk_node last));; mret (Some last));
  upd_proc p (upd_active ref_inc);;
  upd_proc p (upd_ref ref_inc);;
  mret (base, del).

(** [t->memory.block_size] is [block_size]; [mapper] may be NULL. *)
Definition vm_alloc_thread (p block_size : Z) (mapper : option (Z → VM unit)) (reuser : Z → VM unit) : VM (option Z) :=
  n ← list_pop_back_exclusive (reuse_mapped p);
  if negb (bool_decide (n = PNull)) then
    b ← lift_outcome (blk_of n);
    x ← get_blk b;
    panic_if (negb (b_size x =? block_size));;
    reuser b;;
    insert_block (inuse_mapped p) b;;
    mret (Some b)
  else
  r ← salloc_audit p;
  match r with
  | None => panic
  | Some b =>
      '(base, delete_block) ← list_access_exclusive (avail_unmapped p) (carve_thread p block_size);
      res ← (if ctrue base then
               upd_blk b (set_b_proc p);;
               upd_blk b (set_b_base base);;
               upd_blk b (set_b_size block_size);;
               upd_blk b (set_b_type VM_TYPE_THREAD);;
               upd_blk b (set_b_map_type VM_MAP_TYPE_OWNER);;
               match mapper with Some f => f b | None => mret tt end;;
               insert_block (inuse_mapped p) b;;
               mret (Some b)
             else
               sfree_audit b p;; mret None);
      free_deleted delete_block p;;
      mret res
  end.

(** The test of the search loop of [vm_alloc]. *)
Definition fits (base size end_ : Z) (x : vm_block) : bool :=
  if ctrue base then (b_base x <=? base) && (end_ <=? ulong (b_base x + b_size x))
  else size <=? b_size x.

(** What [vm_alloc] does under the lock of [avail_unmapped]: whether a block
    was found, the block to delete, and whether [extra_b] was used. *)
Definition carve (p b extra_b base size end_ : Z) : VM (bool * option Z * bool) :=
  target ← list_find_first (avail_unmapped p) (λ n,
    c ← lift_outcome (blk_of n);
    x ← get_blk c;
    mret (if fits base size end_ x then Some c else None));
  match target with
  | None => mret (false, None, false)
  | Some t =>
      upd_proc p (upd_active ref_inc);;
      upd_proc p (upd_ref ref_inc);;
      x ← get_blk t;
      if ctrue base then
        upd_blk b (set_b_base base);;
        let target_end := ulong (b_base x + b_size x) in
        if b_base x =? base then
          if target_end =? end_ then
            on_lists (list_remove (avail_unmapped p) (blk_node t));;
            mret (true, Some t, false)
          else
            upd_blk t (set_b_base (ulong (b_base x + size)));;
            upd_blk t (set_b_size (ulong (b_size x - size)));;
            mret (true, None, false)
        else if target_end =? end_ then
          upd_blk t (set_b_size (ulong (b_size x - size)));;
          mret (true, None, false)
        else
          upd_blk t (set_b_size (ulong (base - b_base x)));;
          upd_blk extra_b (set_b_proc p);;
          upd_blk extra_b (set_b_base end_);;
          upd_blk extra_b (set_b_size (ulong (target_end - end_)));;
          upd_blk extra_b (set_b_type VM_TYPE_AVAIL);;
          upd_proc p (upd_ref ref_inc);;
          on_lists (list_insert (avail_unmapped p) (blk_node t) (blk_node extra_b));;
          mret (true, None, true)
      else
        upd_blk b (set_b_base (b_base x));;
        let sz := ulong (b_size x - size) in
        upd_blk t (set_b_size sz);;
        upd_blk t (set_b_base (ulong (b_base x + size)));;
        if ctrue sz then mret (true, None, false)
        else
          on_lists (list_remove (avail_unmapped p) (blk_node t));;
          mret (true, Some t, false)
  end.

(** What [vm_alloc] does after that section. *)
Definition vm_alloc_finish (p b extra_b size : Z) (r : bool * option Z * bool) : VM (option Z) :=
  let '(found, delete_block, extra_used) := r in
  res ← (if (found : bool) then
           upd_blk b (set_b_proc p);;
           upd_blk b (set_b_size size);;
           upd_blk b (set_b_type VM_TYPE_GENERIC);;
           upd_blk b (set_b_map_type VM_MAP_TYPE_NONE);;
           insert_block (inuse_mapped p) b;;
           mret (Some b)
         else sfree_audit b p;; mret None);
  free_deleted delete_block p;;
  (if (extra_used : bool) then mret tt else sfree_audit extra_b p);;
  mret res.

Definition vm_alloc (p base0 size0 : Z) : VM (option Z) :=
  let end_ := align_up_vaddr (ulong (base0 + size0)) PAGE_SIZE in
  let base := align_down_vsize base0 PAGE_SIZE in
  let size := ulong (end_ - base) in
  r1 ← salloc_audit p;
  match r1 with
  | None => panic
  | Some b =>
  r2 ← salloc_audit p;
  match r2 with
  | None => panic
  | Some extra_b =>
      r ← list_access_exclusive (avail_unmapped p) (carve p b extra_b base size end_);
      vm_alloc_finish p b extra_b size r
  end end.

(** ** TLB shootdown (tlb.c) *)

Definition vm_move_to_sanit_unmapped (p b : Z) : VM unit :=
  list_remove_exclusive (sanit_mapped p) (blk_node b);;
  list_push_back_exclusive (sanit_unmapped p) (blk_node b);;
  event_signal p.

Definition alloc_tlb_shootdown_seq : VM Z :=
  q ← gets v_tlb_seq;
  modify (set_v_tlb_seq (ulong (q + 1)));;
  mret q.

Definition init_tlb_shootdown : VM unit :=
  modify (set_v_cpu_seq 0);;
  on_lists (list_init tlb_shootdown_reqs).

Definition request_tlb_shootdown (p b : Z) : VM Z :=
  if env_num_cpus <=? 1 then
    pr ← get_proc p;
    x ← get_blk b;
    on_env (env_invalidate_tlb (p_asid pr) (b_base x) (b_size x));;
    vm_move_to_sanit_unmapped p b;;
    mret 0
  else
    upd_blk b (set_b_wait_acks env_num_cpus);;
    list_access_exclusive tlb_shootdown_reqs (
      q ← alloc_tlb_shootdown_seq;
      upd_blk b (set_b_tlb_seq q);;
      on_lists (list_push_back tlb_shootdown_reqs (tlb_node b)));;
    mret env_num_cpus.

(** The body of the first loop of [service_tlb_shootdown_requests]. *)
Definition ack_request (n : list_ptr) : VM unit :=
  b ← lift_outcome (tlb_blk_of n);
  x ← get_blk b;
  my_seq ← gets v_cpu_seq;
  if my_seq <? b_tlb_seq x then
    (if env_asid_supported then
       pr ← get_proc (b_proc x);
       on_env (env_invalidate_tlb (p_asid pr) (b_base x) (b_size x))
     else mret tt);;
    upd_blk b (λ y, set_b_wait_acks (ulong (b_wait_acks y - 1)) y);;
    modify (set_v_cpu_seq (b_tlb_seq x))
  else mret tt.

Fixpoint retire_requests (fuel : nat) : VM unit :=
  c ← on_lists (get_count tlb_shootdown_reqs);
  if ctrue c then
    match fuel with
    | O => diverge
    | S fuel' =>
        n ← on_lists (list_front tlb_shootdown_reqs);
        b ← lift_outcome (tlb_blk_of n);
        x ← get_blk b;
        if ctrue (b_wait_acks x) then mret tt else
        on_lists (list_pop_front tlb_shootdown_reqs);;
        vm_move_to_sanit_unmapped (b_proc x) b;;
        retire_requests fuel'
    end
  else mret tt.

Definition service_tlb_shootdown_requests : VM unit :=
  list_access_exclusive tlb_shootdown_reqs (list_foreach tlb_shootdown_reqs ack_request);;
  (if env_asid_supported then mret tt else on_env env_flush_tlb);;
  list_access_exclusive tlb_shootdown_reqs (
    fuel ← gets (λ s, size (lnodes (v_lists s)));
    retire_requests fuel).

Definition tlb_shootdown_stats : VM (Z * Z) :=
  c ← list_count_exclusive tlb_shootdown_reqs;
  q ← gets v_tlb_seq;
  mret (c, q).

(** ** Free *)

(** [sanit_threshold] is 0. *)
Definition _vm_free_removed_block (p b : Z) : VM Z :=
  x ← get_blk b;
  b_sanit ←
    (if bool_decide (b_type x = VM_TYPE_THREAD) then
       list_access_exclusive (reuse_mapped p) (
         blocks ← gets v_blocks;
         on_lists (list_insert_sorted (reuse_mapped p) (blk_node b) (list_compare blocks));;
         c ← on_lists (get_count (reuse_mapped p));
         if 0 <? c then
           n ← on_lists (list_pop_front (reuse_mapped p));
           d ← lift_outcome (blk_of n);
           mret (Some d)
         else mret None)
     else mret (Some b));
  match b_sanit with
  | Some d =>
      insert_block (sanit_mapped p) d;;
      request_tlb_shootdown p d;;
      mret 0
  | None => mret 0
  end.

Definition vm_free_block (p b : Z) : VM Z :=
  list_remove_exclusive (inuse_mapped p) (blk_node b);;
  _vm_free_removed_block p b.

(** The first block of a list whose base is [base]. *)
Definition find_base (l base : Z) : VM (option Z) :=
  list_find_first l (λ n,
    b ← lift_outcome (blk_of n);
    x ← get_blk b;
    mret (if b_base x =? base then Some b else None)).

Definition vm_free (p base : Z) : VM Z :=
  b_free ← list_access_exclusive (inuse_mapped p) (find_base (inuse_mapped p) base);
  match b_free with
  | None => panic
  | Some b => vm_free_block p b
  end.

(** ** Free pages *)

(** One round of [vm_free_block_pages]; the result is the new [prev_paddr]. *)
Definition free_page (p : Z) (owner_ : bool) (vaddr prev_paddr : Z) : VM Z :=
  paddr ← spinlock_exclusive_int (page_table_lock p) (
    pr ← get_proc p;
    a ← on_env (env_translate (p_page_table pr) vaddr);
    (if ctrue a && negb (a =? prev_paddr)
     then on_env (env_unmap_range (p_page_table pr) vaddr a PAGE_SIZE);; mret tt
     else mret tt);;
    mret a);
  if ctrue paddr && negb (paddr =? prev_paddr) then
    (if owner_ then
       on_env (env_pfree_paddr paddr);;
       upd_proc p (upd_pages ref_dec)
     else mret tt);;
    mret paddr
  else mret prev_paddr.

Fixpoint free_pages_loop (fuel : nat) (p b offset prev_paddr : Z) : VM unit :=
  x ← get_blk b;
  if offset <? b_size x then
    match fuel with
    | O => diverge
    | S fuel' =>
        pp ← free_page p (bool_decide (b_map_type x = VM_MAP_TYPE_OWNER)) (ulong (b_base x + offset)) prev_paddr;
        free_pages_loop fuel' p b (ulong (offset + PAGE_SIZE)) pp
    end
  else mret tt.

Definition vm_free_block_pages (p b : Z) : VM unit :=
  x ← get_blk b;
  free_pages_loop (Z.to_nat (b_size x)) p b 0 0.

(** ** Back to the available list *)

Fixpoint move_sanit_loop (fuel : nat) (p : Z) (n : list_ptr) : VM unit :=
  if bool_decide (n = PNull) then mret tt else
  match fuel with
  | O => diverge
  | S fuel' =>
      b ← lift_outcome (blk_of n);
      vm_free_block_pages p b;;
      blocks ← gets v_blocks;
      list_insert_merge_free_sorted_exclusive (avail_unmapped p) n (list_compare blocks)
        avail_list_merge (Some avail_list_free);;
      upd_proc p (upd_active ref_dec);;
      n' ← list_pop_front_exclusive (sanit_unmapped p);
      move_sanit_loop fuel' p n'
  end.

Definition vm_move_sanit_to_avail (p : Z) : VM unit :=
  fuel ← gets (λ s, size (lnodes (v_lists s)));
  n ← list_pop_front_exclusive (sanit_unmapped p);
  move_sanit_loop fuel p n.

(** ** Purge and destroy *)

Fixpoint purge_loop (fuel : nat) (p count : Z) (n : list_ptr) : VM Z :=
  if bool_decide (n = PNull) then mret count else
  match fuel with
  | O => diverge
  | S fuel' =>
      b ← lift_outcome (blk_of n);
      _vm_free_removed_block p b;;
      n' ← list_pop_front_exclusive (inuse_mapped p);
      purge_loop fuel' p (ulong (count + 1)) n'
  end.

Definition vm_purge (p : Z) : VM Z :=
  fuel ← gets (λ s, size (lnodes (v_lists s)));
  n ← list_pop_front_exclusive (inuse_mapped p);
  count ← purge_loop fuel p 0 n;
  (if ctrue count then event_signal p else mret tt);;
  mret count.

Fixpoint destroy_loop (fuel : nat) (p count : Z) (n : list_ptr) : VM Z :=
  if bool_decide (n = PNull) then mret count else
  match fuel with
  | O => diverge
  | S fuel' =>
      b ← lift_outcome (blk_of n);
      sfree_audit b p;;
      n' ← list_pop_front_exclusive (avail_unmapped p);
      destroy_loop fuel' p (ulong (count + 1)) n'
  end.

Definition vm_destory (p : Z) : VM unit :=
  fuel ← gets (λ s, size (lnodes (v_lists s)));
  n ← list_pop_front_exclusive (avail_unmapped p);
  count ← destroy_loop fuel p 0 n;
  if ctrue count then event_signal p else mret tt.

(** ** Map *)

(** [map_range] under the page table lock of [p]. *)
Definition map_locked (p vaddr paddr size cache : Z) : VM unit :=
  spinlock_exclusive_int (page_table_lock p) (
    pr ← get_proc p;
    on_env (env_map_range (p_page_table pr) vaddr paddr size cache 1 1 0 0);;
    mret tt).

(** The page fault handler. *)
Definition vm_map (p addr : Z) : VM Z :=
  r ← list_access_exclusive (inuse_mapped p) (list_find_first (inuse_mapped p) (λ n,
    b ← lift_outcome (blk_of n);
    x ← get_blk b;
    let end_ := ulong (b_base x + b_size x) in
    if (b_base x <=? addr) && (addr <? end_) then
      page_base ← lift_outcome (align_down_ulong addr PAGE_SIZE);
      paddr ← on_env (env_palloc_paddr 1);
      upd_proc p (upd_pages ref_inc);;
      map_locked p page_base paddr PAGE_SIZE 1;;
      match b_map_type x with
      | VM_MAP_TYPE_NONE => upd_blk b (set_b_map_type VM_MAP_TYPE_OWNER)
      | VM_MAP_TYPE_OWNER => mret tt
      | VM_MAP_TYPE_GUEST => panic
      end;;
      mret (Some tt)
    else mret None));
  mret (match r with Some _ => 0 | None => -1 end).

(** Map the kernel memory [ptr .. ptr + size) as a guest block:
    [vm_map_coreimg] and [vm_map_devtree] with the pointer and the size their
    getters return. *)
Definition vm_map_kernel_range (p ptr size : Z) : VM Z :=
  if negb (ctrue ptr) then mret 0 else
  if negb (ctrue size) then mret 0 else
  let kernel_vaddr_start := align_down_vaddr ptr PAGE_SIZE in
  let kernel_vaddr_end := align_up_vaddr (ulong (ptr + size)) PAGE_SIZE in
  let map_size := ulong (kernel_vaddr_end - kernel_vaddr_start) in
  r ← vm_alloc p 0 map_size;
  match r with
  | None => mret 0
  | Some b =>
      let paddr := env_cast_kernel_ptr_to_paddr kernel_vaddr_start in
      upd_blk b (set_b_map_type VM_MAP_TYPE_GUEST);;
      x ← get_blk b;
      map_locked p (b_base x) paddr (b_size x) 1;;
      mret (ulong (b_base x + ulong (ptr - kernel_vaddr_start)))
  end.

Definition vm_map_coreimg (p get_coreimg coreimg_size : Z) : VM Z := vm_map_kernel_range p get_coreimg coreimg_size.
Definition vm_map_devtree (p devtree_head devtree_size : Z) : VM Z := vm_map_kernel_range p devtree_head devtree_size.

Definition vm_map_dev (p ppfn size : Z) : VM Z :=
  let paddr_start := ppfn_to_paddr (wrap PADDR_WIDTH ppfn) in
  let map_size := align_up_vaddr size PAGE_SIZE in
  r ← vm_alloc p 0 map_size;
  match r with
  | None => mret 0
  | Some b =>
      upd_blk b (set_b_map_type VM_MAP_TYPE_GUEST);;
      x ← get_blk b;
      map_locked p (b_base x) paddr_start (b_size x) 0;;
      mret (b_base x)
  end.

Fixpoint map_kernel_loop (fuel : nat) (p b offset map_size : Z) : VM unit :=
  if offset <? map_size then
    match fuel with
    | O => diverge
    | S fuel' =>
        paddr ← on_env (env_palloc_paddr_direct_mapped 1);
        panic_if (paddr =? 0);;
        upd_proc p (upd_pages ref_inc);;
        x ← get_blk b;
        map_locked p (ulong (b_base x + offset)) paddr PAGE_SIZE 1;;
        map_kernel_loop fuel' p b (ulong (offset + PAGE_SIZE)) map_size
    end
  else mret tt.

Definition vm_map_kernel (p size : Z) : VM Z :=
  let map_size := align_up_vsize size PAGE_SIZE in
  r ← vm_alloc p 0 map_size;
  match r with
  | None => mret 0
  | Some b =>
      upd_blk b (set_b_map_type VM_MAP_TYPE_OWNER);;
      map_kernel_loop (Z.to_nat map_size) p b 0 map_size;;
      x ← get_blk b;
      mret (b_base x)
  end.

(** [acquire_process] and [release_process] of process.c. *)
Definition acquire_process (id : Z) : VM (option Z) :=
  list_access_exclusive processes (list_find_first processes (λ n,
    p ← lift_outcome (proc_of n);
    pr ← get_proc p;
    if p_pid pr =? id then upd_proc p (upd_ref ref_inc);; mret (Some p) else mret None)).

Definition release_process (p : Z) : VM unit :=
  pr ← get_proc p;
  panic_if (p_ref_count pr <=? 0);;
  upd_proc p (upd_ref ref_dec).

Fixpoint map_cross_loop (fuel : nat) (p remote_p remote_vbase local_vbase offset map_size : Z) : VM unit :=
  if offset <? map_size then
    match fuel with
    | O => diverge
    | S fuel' =>
        paddr ← on_env (env_palloc_paddr 1);
        upd_proc remote_p (upd_pages ref_inc);;
        map_locked remote_p (ulong (remote_vbase + offset)) paddr PAGE_SIZE 1;;
        map_locked p (ulong (local_vbase + offset)) paddr PAGE_SIZE 1;;
        map_cross_loop fuel' p remote_p remote_vbase local_vbase (ulong (offset + PAGE_SIZE)) map_size
    end
  else mret tt.

Definition vm_map_cross (p remote_pid remote_vbase size : Z) : VM Z :=
  r ← acquire_process remote_pid;
  match r with
  | None => mret 0
  | Some remote_p =>
      let remote_map_vbase := align_down_vaddr remote_vbase PAGE_SIZE in
      let remote_map_vend := align_up_vaddr (ulong (remote_vbase + size)) PAGE_SIZE in
      let map_size := ulong (remote_map_vend - remote_map_vbase) in
      rb ← vm_alloc remote_p remote_map_vbase map_size;
      local ← match rb with
              | None => mret 0
              | Some remote_b =>
                  upd_blk remote_b (set_b_map_type VM_MAP_TYPE_OWNER);;
                  lb ← vm_alloc p 0 map_size;
                  match lb with
                  | None => panic
                  | Some local_b =>
                      upd_blk local_b (set_b_map_type VM_MAP_TYPE_GUEST);;
                      x ← get_blk local_b;
                      map_cross_loop (Z.to_nat map_size) p remote_p remote_map_vbase (b_base x) 0 map_size;;
                      mret (b_base x)
                  end
              end;
      release_process remote_p;;
      mret (if ctrue local then ulong (local + ulong (remote_vbase - remote_map_vbase)) else 0)
  end.

End Vm.
