(* ===== verification/VmSpec.v ===== *)
(** Correctness of the dynamic virtual memory of [Vm.v]: the blocks on the five
    lists of a process always partition its dynamic address range. *)

From stdpp Require Import base list gmap sorting.
From Stdlib Require Import ZArith Lia.
From Corelib Require Import ssreflect.
From S2P Require Import Prelude Bits Lock Mem List ListSpec ListRep Vm.

(** ** What the rest of the kernel promises *)

(** [env_inv k X n]: the blocks [X] are allocated, and [n] more can be;
    [valid_table pt]: [pt] is the page table of a process.  Translation does not
    panic; unmapping the page it found and giving its frame back either works
    or panics, as it does for a page inside a large one. *)
Class VmEnvLaws (K : Type) `{Arch} `{VmEnv K} := {
  env_inv : K → gset Z → nat → Prop;
  valid_table : Z → Prop;
  salloc_ok : ∀ k X n, env_inv k X (S n) →
    wp env_salloc (λ r k', ∃ b, r = Some b ∧ 0 ≤ b ∧ (b ∉ X) ∧ env_inv k' ({[b]} ∪ X) n) k;
  sfree_ok : ∀ k X n b, env_inv k X n → b ∈ X → wp (env_sfree b) (λ _ k', env_inv k' (X ∖ {[b]}) n) k;
  wake_ok : ∀ k X n p, env_inv k X n → wp (env_wake p) (λ _ k', env_inv k' X n) k;
  invalidate_ok : ∀ k X n asid base size, env_inv k X n →
    wp (env_invalidate_tlb asid base size) (λ _ k', env_inv k' X n) k;
  flush_ok : ∀ k X n, env_inv k X n → wp env_flush_tlb (λ _ k', env_inv k' X n) k;
  translate_ok : ∀ k X n pt vaddr, env_inv k X n → valid_table pt →
    wp (env_translate pt vaddr) (λ _ k', env_inv k' X n) k;
  unmap_ok : ∀ k X n pt vaddr a k1, env_inv k X n → valid_table pt → env_translate pt vaddr k = Ret (a, k1) → a ≠ 0 →
    wpp (env_unmap_range pt vaddr a PAGE_SIZE) (λ _ k2, env_inv k2 X n ∧
      wpp (env_pfree_paddr a) (λ _ k3, env_inv k3 X n) k2) k1
}.

(** The page at [vaddr] cannot be released: in some state in which the
    environment's invariant holds, unmapping it or giving its frame back panics. *)
Definition cannot_release `{Arch} {K} `{VmEnv K} `{!VmEnvLaws K} (pt vaddr : Z) : Prop :=
  ∃ k X n a k1, env_inv k X n ∧ env_translate pt vaddr k = Ret (a, k1) ∧ a ≠ 0 ∧
    (env_unmap_range pt vaddr a PAGE_SIZE k1 = Panic ∨
     ∃ r k2, env_unmap_range pt vaddr a PAGE_SIZE k1 = Ret (r, k2) ∧ env_pfree_paddr a k2 = Panic).

(** ** Partitions *)

(** [R k a]: address [a] belongs to the block of node [k]. *)
Definition partition (N : Z → Prop) (R : Z → Z → Prop) (lo hi : Z) : Prop :=
  (∀ a, lo ≤ a < hi → ∃ k, N k ∧ R k a) ∧
  (∀ k k' a, N k → N k' → R k a → R k' a → k = k').

(** Some nodes are exchanged for others that cover the same addresses. *)
Lemma partition_replace (N N' T T' : Z → Prop) (R R' : Z → Z → Prop) lo hi :
  partition N R lo hi →
  (∀ k, N' k ↔ (N k ∧ ¬ T k) ∨ T' k) → (∀ k, T k → N k) →
  (∀ k a, N k → ¬ T k → R' k a ↔ R k a) →
  (∀ k, T' k → N k → T k) →
  (∀ a, (∃ k, T' k ∧ R' k a) ↔ ∃ k, T k ∧ R k a) →
  (∀ k k' a, T' k → T' k' → R' k a → R' k' a → k = k') →
  (∀ k, T k ∨ ¬ T k) →
  partition N' R' lo hi.
Proof.
  intros [Hc Hu] HN HT HR Hd Ha Hu' Hdec. split.
  - intros a Hl. destruct (Hc a Hl) as (k & Hk & Hka). destruct (Hdec k) as [Htk|Htk].
    + destruct (proj2 (Ha a)) as (k' & Hk' & Hka'); [by exists k|]. exists k'. rw HN. auto.
    + exists k. rw HN HR //. auto.
  - intros k k' a Hk Hk' Hka Hka'. rw HN in Hk. rw HN in Hk'.
    destruct Hk as [[Hk Hnt]|Ht], Hk' as [[Hk' Hnt']|Ht'].
    + rw HR // in Hka. rw HR // in Hka'. exact (Hu k k' a Hk Hk' Hka Hka').
    + rw HR // in Hka. destruct (proj1 (Ha a)) as (j & Hj & Hja); [by exists k'|].
      assert (k = j) as -> by (apply (Hu k j a); auto). done.
    + rw HR // in Hka'. destruct (proj1 (Ha a)) as (j & Hj & Hja); [by exists k|].
      assert (k' = j) as -> by (apply (Hu k' j a); auto). done.
    + exact (Hu' k k' a Ht Ht' Hka Hka').
Qed.

(** ** The state of a process *)

Definition rng (bl : gmap Z vm_block) (k a : Z) : Prop :=
  ∃ x, bl !! (k / 2) = Some x ∧ b_base x ≤ a < b_base x + b_size x.

(** Node [k] is linked on one of the five lists of process [p]. *)
Definition on_proc (m : gmap Z (list Z)) (p k : Z) : Prop :=
  ∃ j xs, 2 ≤ j ≤ 6 ∧ m !! (8 * p + j) = Some xs ∧ k ∈ xs.

(** A block of process [p] inside its range. *)
Definition good_block (bl : gmap Z vm_block) (p lo hi k : Z) : Prop :=
  ∃ b x, k = 2 * b ∧ bl !! b = Some x ∧ b_proc x = p ∧ 0 < b_size x ∧ lo ≤ b_base x ∧ b_base x + b_size x ≤ hi.

(** The fields the invariant depends on. *)
Definition core (x : vm_block) : Z * Z * Z := (b_proc x, b_base x, b_size x).

Lemma core_lookup (bl bl' : gmap Z vm_block) d x : core <$> bl' !! d = core <$> bl !! d → bl !! d = Some x →
  ∃ y, bl' !! d = Some y ∧ b_proc y = b_proc x ∧ b_base y = b_base x ∧ b_size y = b_size x.
Proof.
  intros E Ex. rw Ex in E. destruct (bl' !! d) as [y|]; [|done]. injection E as ? ? ?. by exists y.
Qed.

Lemma rng_core (bl bl' : gmap Z vm_block) k a : core <$> bl' !! (k / 2) = core <$> bl !! (k / 2) →
  rng bl' k a ↔ rng bl k a.
Proof.
  intros E. rw /rng. split; intros (x & Ex & Ha).
  - destruct (core_lookup _ _ _ _ (eq_sym E) Ex) as (y & Ey & _ & Hb & Hs). exists y. split; [done|]. lia.
  - destruct (core_lookup _ _ _ _ E Ex) as (y & Ey & _ & Hb & Hs). exists y. split; [done|]. lia.
Qed.

Record space `{Arch} (bl : gmap Z vm_block) (m : gmap Z (list Z)) (p lo hi : Z) : Prop := {
  sp_bounds : 0 < lo ∧ hi < 2 ^ ARCH_WIDTH;
  sp_lists : ∀ j, 2 ≤ j ≤ 6 → is_Some (m !! (8 * p + j));
  sp_good : ∀ k, on_proc m p k → good_block bl p lo hi k;
  sp_part : partition (on_proc m p) (rng bl) lo hi
}.

Section VmInv.
Context `{Harch : Arch} {K : Type} `{Henv : VmEnv K} `{!VmEnvLaws K}.
Implicit Types (s : vm_state K) (m : gmap Z (list Z)).

(** The lock of the page table is free, and the page table is valid. *)
Definition proc_ok (pr : vm_proc) : Prop := p_page_table_lock pr = SPINLOCK_INIT ∧ valid_table (p_page_table pr).

(** What holds of the heap, the blocks and the environment at any point. *)
Record vm_base s m (lk : Z → spinlock_t) (n : nat) : Prop := {
  vb_rep : rep (v_lists s) m lk;
  vb_env : env_inv (v_env s) (dom (v_blocks s)) n;
  vb_live : ∀ b, b ∈ dom (v_blocks s) → 0 ≤ b ∧ live (v_lists s) (blk_node b) ∧ live (v_lists s) (tlb_node b);
  vb_proc : ∀ p pr, v_procs s !! p = Some pr → proc_ok pr;
  vb_dom : ∀ l xs k, m !! l = Some xs → k ∈ xs → k < 0 ∨ k / 2 ∈ dom (v_blocks s)
}.

(** Every process's space is partitioned. *)
Record vm_inv_at s m (lk : Z → spinlock_t) (n : nat) : Prop := {
  vi_base : vm_base s m lk n;
  vi_space : ∀ p pr, v_procs s !! p = Some pr →
    space (v_blocks s) m p (p_dynamic_start pr) (p_dynamic_end pr);
  vi_tlb : ∀ xs k, m !! tlb_shootdown_reqs = Some xs → k ∈ xs →
    ∃ b x, k = 2 * b + 1 ∧ v_blocks s !! b = Some x ∧ ∃ ys, m !! sanit_mapped (b_proc x) = Some ys ∧ 2 * b ∈ ys;
  vi_owner : ∀ q xs k, m !! sanit_mapped q = Some xs → k ∈ xs → is_Some (v_procs s !! q);
  vi_tlb_list : is_Some (m !! tlb_shootdown_reqs);
  vi_odd : ∀ l xs k, m !! l = Some xs → k ∈ xs → 0 ≤ k → Z.odd k = true → l = tlb_shootdown_reqs
}.

(** The parts of a process that the operations leave alone. *)
Definition fixed_part (pr : vm_proc) : Z * Z * spinlock_t * Z :=
  (p_dynamic_start pr, p_dynamic_end pr, p_page_table_lock pr, p_page_table pr).
Definition same_procs s s' : Prop := ∀ p, fixed_part <$> v_procs s' !! p = fixed_part <$> v_procs s !! p.

#[export] Instance same_procs_preorder : PreOrder same_procs.
Proof. split; [done|]. intros s1 s2 s3 H1 H2 p. by rw H2 H1. Qed.

Lemma same_procs_lookup s s' p pr : same_procs s s' → v_procs s !! p = Some pr →
  ∃ pr', v_procs s' !! p = Some pr' ∧ fixed_part pr' = fixed_part pr.
Proof. intros Hs E. specialize (Hs p). rw E in Hs. destruct (v_procs s' !! p) as [pr'|]; [|done]. exists pr'. split; [done|]. cbn in Hs. congruence. Qed.

(** *** Field accesses *)

Lemma wp_get_blk b x (Q : vm_block → vm_state K → Prop) s :
  v_blocks s !! b = Some x → Q x s → wp (get_blk b) Q s.
Proof. intros E HQ. eapply wp_deref; [exact E|exact HQ]. Qed.

Lemma wp_upd_blk b f x (Q : unit → vm_state K → Prop) s :
  v_blocks s !! b = Some x → Q tt (upd_v_blocks <[b := f x]> s) → wp (upd_blk b f) Q s.
Proof.
  intros E HQ. rw /upd_blk. wp_step. eapply wp_get_blk; [exact E|]. wp_step.
  eapply eq_ind; [exact HQ|]. rw /upd_v_blocks. f_equal. apply map_eq. intros i.
  destruct (decide (b = i)) as [<-|]; [by rw lookup_insert_eq lookup_alter_eq E|].
  by rw lookup_insert_ne // lookup_alter_ne.
Qed.

Lemma wp_get_proc p pr (Q : vm_proc → vm_state K → Prop) s :
  v_procs s !! p = Some pr → Q pr s → wp (get_proc p) Q s.
Proof. intros E HQ. eapply wp_deref; [exact E|exact HQ]. Qed.

Lemma wp_upd_proc p f pr (Q : unit → vm_state K → Prop) s :
  v_procs s !! p = Some pr → Q tt (upd_v_procs (alter f p) s) → wp (upd_proc p f) Q s.
Proof. intros E HQ. rw /upd_proc. wp_step. eapply wp_get_proc; [exact E|]. by wp_step. Qed.

(** Counter updates of a process keep the fixed part. *)
Lemma same_procs_alter f p s : (∀ pr, fixed_part (f pr) = fixed_part pr) →
  same_procs s (upd_v_procs (alter f p) s).
Proof.
  intros Hf q. cbn. destruct (decide (p = q)) as [->|].
  - rw lookup_alter_eq. destruct (v_procs s !! q) as [pr|]; [|done]. cbn. by rw Hf.
  - by rw lookup_alter_ne.
Qed.

Lemma wp_on_env {A} (m : M K A) (Q : A → vm_state K → Prop) s :
  wp m (λ a k, Q a (set_v_env k s)) (v_env s) → wp (on_env m) Q s.
Proof. apply wp_zoom. Qed.
End VmInv.

(** Between operations no list is locked. *)
Abbreviation vm_inv s m n := (vm_inv_at s m unlocked n).

(** *** Objects *)

Section Objects.
Context `{Harch : Arch} {K : Type} `{Henv : VmEnv K} `{!VmEnvLaws K}.
Implicit Types (s : vm_state K) (m : gmap Z (list Z)).

(** Changes of the state that the base invariant does not see. *)
Lemma vm_base_ext s s' m lk n : vm_base s m lk n → v_lists s' = v_lists s → v_blocks s' = v_blocks s →
  v_env s' = v_env s → same_procs s s' → vm_base s' m lk n.
Proof.
  intros [Hr He Hl Hp Hd] El Eb Ee Hs. split; rw ?El ?Eb ?Ee //.
  intros p pr E. specialize (Hs p). rw E in Hs. destruct (v_procs s !! p) as [pr0|] eqn:E0; [|done].
  injection Hs as _ _ Hlk Hpt. rw /proc_ok Hlk Hpt. exact (Hp p pr0 E0).
Qed.

Lemma vm_base_upd_blk s m lk n b f x : vm_base s m lk n → v_blocks s !! b = Some x →
  vm_base (upd_v_blocks <[b := f x]> s) m lk n.
Proof.
  intros [Hr He Hl Hp Hd] E. assert (dom (<[b := f x]> (v_blocks s)) = dom (v_blocks s)) as Ed.
  { rw dom_insert_L. apply elem_of_dom_2 in E. set_solver. }
  split; cbn; rw ?Ed //.
Qed.

Lemma vm_base_rep s m lk n g m' : vm_base s m lk n → rep_ok (v_lists s) m' lk g →
  (∀ l xs k, m' !! l = Some xs → k ∈ xs → k < 0 ∨ k / 2 ∈ dom (v_blocks s)) →
  vm_base (set_lists g s) m' lk n.
Proof.
  intros [Hr He Hl Hp Hd] [Hr' Hlv] Hd'. split; try done. cbn. intros b Hb. destruct (Hl b Hb) as (? & ? & ?).
  split; [done|]. split; by apply Hlv.
Qed.

(** A node of a block that does not exist is on no list. *)
Lemma fresh_unlinked s m lk n b k : vm_base s m lk n → 0 ≤ b → b ∉ dom (v_blocks s) → k = 2 * b ∨ k = 2 * b + 1 →
  unlinked k m.
Proof.
  intros Hb Hb0 Hnb Hk l xs Hl Hin. destruct (vb_dom _ _ _ _ Hb l xs k Hl Hin) as [|Hd]; [lia|].
  apply Hnb. replace (k / 2) with b in Hd; [done|]. destruct Hk as [->| ->]; zdiv.
Qed.

Lemma wp_salloc_audit s m lk n p (Q : option Z → vm_state K → Prop) :
  vm_base s m lk (S n) → is_Some (v_procs s !! p) →
  (∀ b s', 0 ≤ b → b ∉ dom (v_blocks s) → vm_base s' m lk n →
     v_blocks s' = <[b := zero_block]> (v_blocks s) → same_procs s s' → v_int s' = v_int s →
     unlinked (2 * b) m → unlinked (2 * b + 1) m → Q (Some b) s') →
  wp (salloc_audit p) Q s.
Proof.
  intros Hb [pr Ep] HQ. pose proof Hb as [Hr He Hl Hp Hd]. rw /salloc_audit. wp_step. apply wp_on_env.
  eapply wp_mono; [exact (salloc_ok _ _ _ He)|]. intros r k (b & -> & Hb0 & Hnb & He').
  pose proof (fresh_unlinked s m lk _ b (2 * b) Hb Hb0 Hnb ltac:(auto)) as Hu1.
  pose proof (fresh_unlinked s m lk _ b (2 * b + 1) Hb Hb0 Hnb ltac:(auto)) as Hu2.
  wp_step. wp_step. wp_step. wp_step. wp_step. eapply wp_upd_proc; [exact Ep|]. wp_step.
  set (s' := upd_v_procs _ _). apply HQ; try done.
  - split; cbn.
    + apply (rep_nodes _ _ _ _ (λ q, q = blk_node b ∨ q = tlb_node b)); [done|..].
      * intros nodes q Hq. rw !lookup_insert_ne //; naive_solver.
      * rw /blk_node /tlb_node. intros q [->| ->]; eauto.
    + rw dom_insert_L. done.
    + rw dom_insert_L. intros c [->%elem_of_singleton|Hc]%elem_of_union.
      * split; [done|]. rw /live /= lookup_insert_eq. split; [done|].
        destruct (decide (blk_node b = tlb_node b)) as [E|]; [rw E lookup_insert_eq //|rw lookup_insert_ne // lookup_insert_eq //].
      * destruct (Hl c Hc) as (? & [y1 E1] & [y2 E2]). split; [done|].
        assert (c ≠ b) by (intros ->; done).
        rw /live /= !lookup_insert_ne; [rw /blk_node /tlb_node; intros [=]; lia..|]. rw E1 E2. eauto.
    + intros q pr' Eq. destruct (decide (p = q)) as [->|].
      * rw lookup_alter_eq Ep in Eq. injection Eq as <-. exact (Hp q pr Ep).
      * rw lookup_alter_ne // in Eq. exact (Hp q pr' Eq).
    + intros l xs k' Hlk Hk. rw dom_insert_L. destruct (Hd l xs k' Hlk Hk); [by left|right; set_solver].
  - exact (same_procs_alter (upd_objs _) p s (λ _, eq_refl)).
Qed.

Lemma wp_sfree_audit s m lk n p b x (Q : unit → vm_state K → Prop) :
  vm_base s m lk n → is_Some (v_procs s !! p) → v_blocks s !! b = Some x →
  unlinked (2 * b) m → unlinked (2 * b + 1) m →
  (∀ s', vm_base s' m lk n → v_blocks s' = delete b (v_blocks s) → same_procs s s' → v_int s' = v_int s → Q tt s') →
  wp (sfree_audit b p) Q s.
Proof.
  intros Hb [pr Ep] Ex Hu1 Hu2 HQ. pose proof Hb as [Hr He Hl Hp Hd]. rw /sfree_audit. wp_step.
  eapply wp_get_blk; [exact Ex|]. wp_step. apply wp_on_env.
  assert (b ∈ dom (v_blocks s)) as Hbd by (by apply elem_of_dom_2 in Ex).
  eapply wp_mono; [exact (sfree_ok _ _ _ b He Hbd)|]. intros [] k He'.
  wp_step. wp_step. wp_step. wp_step. eapply wp_upd_proc; [exact Ep|].
  set (s' := upd_v_procs _ _). apply HQ; try done.
  - split; cbn.
    + apply (rep_nodes _ _ _ _ (λ q, q = blk_node b ∨ q = tlb_node b)); [done|..].
      * intros nodes q Hq. rw !lookup_delete_ne //; naive_solver.
      * rw /blk_node /tlb_node. intros q [->| ->]; eauto.
    + by rw dom_delete_L.
    + rw dom_delete_L. intros c [Hc Hcb]%elem_of_difference. rw elem_of_singleton in Hcb.
      destruct (Hl c Hc) as (? & [y1 E1] & [y2 E2]). split; [done|].
      rw /live /= !lookup_delete_ne; [rw /blk_node /tlb_node; intros [=]; lia..|]. rw E1 E2. eauto.
    + intros q pr' Eq. destruct (decide (p = q)) as [->|].
      * rw lookup_alter_eq Ep in Eq. injection Eq as <-. exact (Hp q pr Ep).
      * rw lookup_alter_ne // in Eq. exact (Hp q pr' Eq).
    + intros l xs k' Hlk Hk. rw dom_delete_L elem_of_difference elem_of_singleton.
      destruct (Hd l xs k' Hlk Hk); [by left|right]. split; [done|]. intros E.
      assert (k' = 2 * b ∨ k' = 2 * b + 1) as [->| ->] by zdiv; [by apply (Hu1 l xs)|by apply (Hu2 l xs)].
  - exact (same_procs_alter (upd_objs _) p s (λ _, eq_refl)).
Qed.
End Objects.

(** *** Searching a list *)

Fixpoint first_some {A} (g : Z → option A) (xs : list Z) : option A :=
  match xs with
  | [] => None
  | x :: xs' => match g x with Some a => Some a | None => first_some g xs' end
  end.

Lemma first_some_Some {A} (g : Z → option A) xs a : first_some g xs = Some a →
  ∃ pre k post, xs = pre ++ k :: post ∧ g k = Some a ∧ ∀ j, j ∈ pre → g j = None.
Proof.
  induction xs as [|x xs IH]; cbn; [done|]. destruct (g x) as [b|] eqn:E.
  - intros [= <-]. exists [], x, xs. split_and!; try done. by intros j ?%elem_of_nil.
  - intros Hf. destruct (IH Hf) as (pre & k & post & -> & Hk & Hpre). exists (x :: pre), k, post.
    split_and!; try done. intros j [->|Hj]%elem_of_cons; auto.
Qed.

Lemma first_some_None {A} (g : Z → option A) xs : first_some g xs = None → ∀ k, k ∈ xs → g k = None.
Proof.
  induction xs as [|x xs IH]; cbn; [by intros _ k ?%elem_of_nil|]. destruct (g x) eqn:E; [done|].
  intros Hf k [->|Hk]%elem_of_cons; auto.
Qed.

Section Search.
Context `{Harch : Arch} {K : Type} `{VmEnv K}.
Implicit Types (s : vm_state K) (m : gmap Z (list Z)).

(** A search whose test does not change the state. *)
Lemma wp_find_first {A} s m lk l xs (f : list_ptr → M (vm_state K) (option A)) (g : Z → option A)
    (Q : option A → vm_state K → Prop) :
  rep (v_lists s) m lk → m !! l = Some xs →
  (∀ k (R : option A → vm_state K → Prop), k ∈ xs → R (g k) s → wp (f (PNode k)) R s) →
  Q (first_some g xs) s → wp (list_find_first l f) Q s.
Proof.
  intros Hr Hl Hf HQ. pose proof (rep_is_list _ _ _ _ _ Hr Hl) as Hi.
  assert (∀ fuel pre ys, xs = pre ++ ys → (length ys < fuel)%nat → first_some g ys = first_some g xs →
    wp (find_from fuel l (first_ptr ys (PTail l)) f) Q s) as Hloop.
  { induction fuel as [|fuel IH]; intros pre ys E Hlen Efs; [lia|]. cbn [find_from].
    destruct ys as [|y ys]; cbn [first_ptr].
    - rw bool_decide_eq_true_2 //. wp_step. cbn in Efs. by rw Efs.
    - rw bool_decide_eq_false_2 //. wp_step. apply Hf; [rw E; apply elem_of_app; right; left|].
      cbn [first_some] in Efs. destruct (g y) as [a|]; [wp_step; by rw Efs|].
      wp_step. apply wp_on_lists. subst xs.
      destruct (seg_gap (v_lists s) (PHead l) (pre ++ [y]) ys (PTail l)) as [En _]; [rw -app_assoc; apply (il_seg _ _ _ Hi)|].
      rw last_ptr_snoc /nxt in En. destruct (lnodes (v_lists s) !! PNode y) as [nd|] eqn:End; [|done].
      injection En as En. eapply wp_get_lnode; [exact End|]. cbv beta. rw En.
      rw set_lists_same.
      apply (IH (pre ++ [y])); [by rw -app_assoc|cbn in Hlen; lia|done]. }
  rw /list_find_first. wp_step. apply wp_on_lists. apply (wp_head_next _ l xs); [done|]. intros nd ->.
  rw set_lists_same.
  wp_step. wp_step. apply (Hloop _ []); [done| |done]. pose proof (is_list_size _ _ _ Hi). lia.
Qed.
End Search.

(** The comparison of blocks is total. *)
Lemma list_compare_total bl : Total (cmp_le (list_compare bl)).
Proof.
  intros x y. rw /cmp_le /list_compare.
  destruct (Z.ltb_spec (default 0 (b_base <$> bl !! (x / 2))) (default 0 (b_base <$> bl !! (y / 2))));
  destruct (Z.ltb_spec (default 0 (b_base <$> bl !! (y / 2))) (default 0 (b_base <$> bl !! (x / 2)))); lia.
Qed.

(** *** Changes of one process's space *)

Section Spaces.
Context `{Harch : Arch}.
Implicit Types (m : gmap Z (list Z)) (bl : gmap Z vm_block).

(** Other processes do not notice a change of the lists of [p] and of blocks
    that are not theirs. *)
Lemma space_frame bl bl' m m' q lo hi : space bl m q lo hi →
  (∀ j, 2 ≤ j ≤ 6 → is_Some (m' !! (8 * q + j))) → (∀ k, on_proc m' q k ↔ on_proc m q k) →
  (∀ k, on_proc m q k → core <$> bl' !! (k / 2) = core <$> bl !! (k / 2)) → space bl' m' q lo hi.
Proof.
  intros [Hbd Hl Hg [Hc Hu]] Hl' Hon Hb. split; [done|done|..].
  - intros k Hk%Hon. destruct (Hg k Hk) as (b & x & -> & Ex & Hx). specialize (Hb _ Hk).
    rw (_ : 2 * b / 2 = b) in Hb; [zdiv|]. destruct (core_lookup _ _ _ _ Hb Ex) as (y & Ey & E1 & E2 & E3).
    exists b, y. rw E1 E2 E3. done.
  - split.
    + intros a Ha. destruct (Hc a Ha) as (k & Hk & Hka). exists k. split; [by apply Hon|]. by apply (rng_core bl); [apply Hb|].
    + intros k k' a Hk%Hon Hk'%Hon. rw !(rng_core bl bl') //; [by apply Hb|by apply Hb|]. by apply Hu.
Qed.

(** The lists of a process, unchanged. *)
Lemma on_proc_ext m m' q : (∀ j, 2 ≤ j ≤ 6 → m' !! (8 * q + j) = m !! (8 * q + j)) →
  ∀ k, on_proc m' q k ↔ on_proc m q k.
Proof.
  intros Hm k. split; intros (j & xs & Hj & E & Hk); exists j, xs; (split; [done|]); split; try done; [by rw -Hm|by rw Hm].
Qed.

(** Exchange of the blocks [T] for the blocks [T']. *)
Lemma space_replace bl bl' m m' p lo hi (T T' : list Z) : space bl m p lo hi →
  (∀ j, 2 ≤ j ≤ 6 → is_Some (m' !! (8 * p + j))) →
  (∀ k, on_proc m' p k ↔ (on_proc m p k ∧ k ∉ T) ∨ k ∈ T') →
  (∀ k, k ∈ T → on_proc m p k) → (∀ k, k ∈ T' → on_proc m p k → k ∈ T) →
  (∀ k, on_proc m p k → k ∉ T → bl' !! (k / 2) = bl !! (k / 2)) →
  (∀ k, k ∈ T' → good_block bl' p lo hi k) →
  (∀ a, (∃ k, k ∈ T' ∧ rng bl' k a) ↔ ∃ k, k ∈ T ∧ rng bl k a) →
  (∀ k k' a, k ∈ T' → k' ∈ T' → rng bl' k a → rng bl' k' a → k = k') →
  space bl' m' p lo hi.
Proof.
  intros [Hbd Hl Hg Hp] Hl' Hon HT HT' Hb Hgd Ha Hu. split; [done|done|..].
  - intros k [[Hk Hnt]|Hk]%Hon; [|by apply Hgd]. destruct (Hg k Hk) as (b & x & -> & Ex & Hx).
    exists b, x. split; [done|]. split; [|done]. rw -Ex. replace b with (2 * b / 2) by zdiv. by apply Hb.
  - eapply (partition_replace _ _ (λ k, k ∈ T) (λ k, k ∈ T')); [exact Hp|exact Hon|exact HT| |exact HT'|exact Ha|exact Hu|].
    + intros k a Hk Hnt. by rw /rng Hb.
    + intros k. destruct (decide (k ∈ T)); auto.
Qed.

End Spaces.

(** *** Carving a piece out of an available block *)

(** Lookups in maps built by insertions at distinct keys. *)
Ltac blk_simpl :=
  cbn [v_blocks v_procs v_lists v_env v_int upd_v_blocks upd_v_procs upd_v_lists set_v_env set_lists vm_has_lists lists];
  repeat first [rw lookup_insert_eq | rw lookup_insert_ne; [congruence|]].

(** Node [d] now covers [lo .. hi) for process [p]. *)
Definition covers (bl : gmap Z vm_block) (d p lo hi : Z) : Prop :=
  ∃ y, bl !! d = Some y ∧ b_proc y = p ∧ b_base y = lo ∧ b_size y = hi - lo.

(** The four ways to take [c .. c + size) out of block [t], which covers
    [tlo .. thi): the whole block, its front, its back, its middle.  The last
    two arguments are the block to delete and whether [e] was used. *)
Inductive carved (bl : gmap Z vm_block) (m : gmap Z (list Z)) (p b e t tlo thi c size : Z) (pre post : list Z) :
    gmap Z vm_block → gmap Z (list Z) → option Z → bool → Prop :=
| CWhole bl' : c = tlo → c + size = thi → is_Some (bl' !! t) → bl' !! e = bl !! e →
    carved bl m p b e t tlo thi c size pre post bl' (<[avail_unmapped p := pre ++ post]> m) (Some t) false
| CFront bl' : c = tlo → c + size < thi → covers bl' t p (c + size) thi → bl' !! e = bl !! e →
    carved bl m p b e t tlo thi c size pre post bl' m None false
| CBack bl' : tlo < c → c + size = thi → covers bl' t p tlo c → bl' !! e = bl !! e →
    carved bl m p b e t tlo thi c size pre post bl' m None false
| CMiddle bl' : tlo < c → c + size < thi → covers bl' t p tlo c → covers bl' e p (c + size) thi →
    carved bl m p b e t tlo thi c size pre post bl'
      (<[avail_unmapped p := pre ++ 2 * t :: 2 * e :: post]> m) None true.

Section Carve.
Context `{Harch : Arch} {K : Type} `{Henv : VmEnv K} `{!VmEnvLaws K}.
Implicit Types (s : vm_state K) (m : gmap Z (list Z)).

(** What the critical section of [vm_alloc] guarantees. *)
Definition carve_post s m lk n p b e base size end_ A (r : bool * option Z * bool) s' : Prop :=
  (r = (false, None, false) ∧ s' = s ∧
     ∀ t x, 2 * t ∈ A → v_blocks s !! t = Some x → fits base size end_ x = false) ∨
  (∃ t x pre post c del used m', r = (true, del, used) ∧ A = pre ++ 2 * t :: post ∧
     v_blocks s !! t = Some x ∧ fits base size end_ x = true ∧ (base ≠ 0 → c = base) ∧
     b_base x ≤ c ∧ c + size ≤ b_base x + b_size x ∧
     carved (v_blocks s) m p b e t (b_base x) (b_base x + b_size x) c size pre post (v_blocks s') m' del used ∧
     (∀ d, d ≠ b → d ≠ e → d ≠ t → v_blocks s' !! d = v_blocks s !! d) ∧
     (∃ y, v_blocks s' !! b = Some y ∧ b_base y = c) ∧
     vm_base s' m' lk n ∧ same_procs s s' ∧ v_int s' = v_int s).

Lemma vm_base_procs s m lk n f p : vm_base s m lk n → (∀ pr, fixed_part (f pr) = fixed_part pr) →
  vm_base (upd_v_procs (alter f p) s) m lk n.
Proof. intros Hb Hf. eapply vm_base_ext; [exact Hb|done|done|done|]. by apply same_procs_alter. Qed.

(** The search for an available block that holds the request. *)
Lemma wp_target {B} s m lk p A base size end_ (F : option Z → M (vm_state K) B) (Q : B → vm_state K → Prop) :
  rep (v_lists s) m lk → m !! avail_unmapped p = Some A →
  (∀ k, k ∈ A → ∃ t x, k = 2 * t ∧ v_blocks s !! t = Some x) →
  ((∀ t x, 2 * t ∈ A → v_blocks s !! t = Some x → fits base size end_ x = false) → wp (F None) Q s) →
  (∀ t x pre post, A = pre ++ 2 * t :: post → v_blocks s !! t = Some x → fits base size end_ x = true → wp (F (Some t)) Q s) →
  wp (target ← list_find_first (avail_unmapped p) (λ n,
        c ← lift_outcome (blk_of n);
        x ← get_blk c;
        mret (if fits base size end_ x then Some c else None)); F target) Q s.
Proof.
  intros Hr HA Hgood Hnone Hsome. wp_step.
  eapply (wp_find_first s m lk _ A _ (λ k, match v_blocks s !! (k / 2) with
    | Some x => if fits base size end_ x then Some (k / 2) else None | None => None end)); [exact Hr|done|..].
  { intros k R Hk HR. destruct (Hgood k Hk) as (t & x & -> & Ex). rw (_ : 2 * t / 2 = t) in HR |- *; [zdiv|].
    wp_step. eapply wp_lift; [done|]. wp_step. rw (_ : 2 * t / 2 = t); [zdiv|]. eapply wp_get_blk; [exact Ex|]. wp_step. by rw Ex in HR. }
  destruct (first_some _ A) as [t|] eqn:Efs.
  - apply first_some_Some in Efs as (pre & k & post & -> & Hk & _).
    destruct (Hgood k) as (t' & x & -> & Ex); [apply elem_of_app; right; left|].
    rw (_ : 2 * t' / 2 = t') in Hk; [zdiv|]. rw Ex in Hk. destruct (fits base size end_ x) eqn:Hfit; [|done]. injection Hk as ->.
    by apply (Hsome t x pre post).
  - apply Hnone. intros t x Hin Ex.
    pose proof (first_some_None _ _ Efs _ Hin) as Hn. cbn in Hn. rw (_ : 2 * t / 2 = t) in Hn; [zdiv|]. rw Ex in Hn.
    by destruct (fits base size end_ x).
Qed.

Lemma wp_carve s m lk n p b e base size end_ A :
  vm_base s m lk n → locked (lk (avail_unmapped p)) = true → m !! avail_unmapped p = Some A →
  is_Some (v_procs s !! p) →
  (∀ k, k ∈ A → ∃ t x, k = 2 * t ∧ t ≠ b ∧ t ≠ e ∧ v_blocks s !! t = Some x ∧ b_proc x = p ∧
     0 < b_size x ∧ 0 < b_base x ∧ b_base x + b_size x < 2 ^ ARCH_WIDTH) →
  is_Some (v_blocks s !! b) → is_Some (v_blocks s !! e) → b ≠ e → unlinked (2 * e) m →
  0 ≤ base → (base ≠ 0 → end_ = base + size) → 0 < size → base + size < 2 ^ ARCH_WIDTH →
  wp (carve p b e base size end_) (carve_post s m lk n p b e base size end_ A) s.
Proof.
  intros Hb Hlk HA [pr Epr] Hgood [xb Eb] [xe Ee] Hbe Hue Hbase Hend Hsz Hov.
  eapply (wp_target s m lk); [apply Hb|exact HA| | |].
  { intros k Hk. destruct (Hgood k Hk) as (t & x & -> & _ & _ & Ex & _). by exists t, x. }
  { intros Hno. wp_step. left. by split. }
  intros t x pre post -> Ex Hfit.
  destruct (Hgood (2 * t)) as (t' & x' & Et & Htb & Hte & Ex' & Hxp & Hxs & Hxb & Hxo); [apply elem_of_app; right; left|].
  assert (t' = t) as -> by lia. assert (x' = x) as -> by congruence.
  wp_step. eapply wp_upd_proc; [exact Epr|]. wp_step. eapply wp_upd_proc; [cbn; by rw lookup_alter_eq Epr|].
  wp_step. eapply wp_get_blk; [exact Ex|].
  set (s1 := upd_v_procs _ (upd_v_procs _ s)).
  assert (vm_base s1 m lk n) as Hb1 by (do 2 (apply vm_base_procs; [|done]); done).
  assert (same_procs s s1) as Hs1.
  { etrans; [exact (same_procs_alter (upd_active ref_inc) p s (λ _, eq_refl))|].
    exact (same_procs_alter (upd_ref ref_inc) p _ (λ _, eq_refl)). }
  assert (is_Some (v_procs s1 !! p)) as [pr1 Epr1] by (cbn; rw !lookup_alter_eq Epr; eauto).
  pose proof Hfit as Hfit0. rw /fits in Hfit. rw /ctrue in Hfit |- *. destruct (Z.eqb_spec base 0) as [->|Hnz]; cbn [negb] in Hfit |- *.
  - (* anywhere *)
    apply Z.leb_le in Hfit. wp_step. eapply wp_upd_blk; [exact Eb|]. cbv zeta.
    rw (wrap_small _ (b_size x - size)); [rw /uint; lia|]. rw (wrap_small _ (b_base x + size)); [rw /uint; lia|].
    wp_step. eapply wp_upd_blk; [blk_simpl; exact Ex|]. wp_step. eapply wp_upd_blk; [blk_simpl; reflexivity|].
    set (s2 := upd_v_blocks _ (upd_v_blocks _ (upd_v_blocks _ s1))).
    assert (vm_base s2 m lk n) as Hb2.
    { apply vm_base_upd_blk; [apply vm_base_upd_blk; [apply vm_base_upd_blk|]|]; [exact Hb1|exact Eb|blk_simpl; exact Ex|by blk_simpl]. }
    destruct (Z.eqb_spec (b_size x - size) 0) as [Ez|Ez]; cbn [negb].
    + wp_step. apply wp_on_lists. eapply (wp_rep_remove _ m lk _ pre (2 * t) post); [apply Hb2|done|done|]. intros h' Hok _.
      wp_step. right. exists t, x, pre, post, (b_base x), (Some t), false, (<[avail_unmapped p := pre ++ post]> m).
      split_and!; try done; try lia.
      * apply CWhole; [done|lia|blk_simpl; eauto|by blk_simpl].
      * intros d ? ? ?. by blk_simpl.
      * exists (set_b_base (b_base x) xb). by blk_simpl.
      * apply (vm_base_rep _ m); [done|exact Hok|]. intros l xs k. rw lookup_insert. case_decide as El.
        -- intros [= <-] Hk. apply (vb_dom _ _ _ _ Hb2 _ _ k HA). rw elem_of_app in Hk. rw elem_of_app elem_of_cons. tauto.
        -- apply (vb_dom _ _ _ _ Hb2).
    + wp_step. right. exists t, x, pre, post, (b_base x), None, false, m.
      split_and!; try done; try lia.
      * apply CFront; [done|lia| |by blk_simpl]. eexists. split; [by blk_simpl|]. cbn. split_and!; try done. lia.
      * intros d ? ? ?. by blk_simpl.
      * exists (set_b_base (b_base x) xb). by blk_simpl.
  - (* at [base] *)
    specialize (Hend Hnz). subst end_. rw (wrap_small _ (b_base x + b_size x)) in Hfit |- *; [rw /uint; lia|].
    apply andb_true_iff in Hfit as [Hf1%Z.leb_le Hf2%Z.leb_le].
    wp_step. eapply wp_upd_blk; [exact Eb|]. cbv zeta.
    rw (wrap_small _ (b_base x + size)); [rw /uint; lia|]. rw (wrap_small _ (b_size x - size)); [rw /uint; lia|].
    rw (wrap_small _ (base - b_base x)); [rw /uint; lia|]. rw (wrap_small _ (b_base x + b_size x - (base + size))); [rw /uint; lia|].
    set (s2 := upd_v_blocks _ s1).
    assert (vm_base s2 m lk n) as Hb2 by (apply vm_base_upd_blk; [exact Hb1|exact Eb]).
    assert (v_blocks s2 !! t = Some x) as Et2 by by rw /s2; blk_simpl.
    destruct (Z.eqb_spec (b_base x) base) as [E1|E1]; destruct (Z.eqb_spec (b_base x + b_size x) (base + size)) as [E2|E2].
    + wp_step. apply wp_on_lists. eapply (wp_rep_remove _ m lk _ pre (2 * t) post); [apply Hb2|done|done|]. intros h' Hok _.
      wp_step. right. exists t, x, pre, post, base, (Some t), false, (<[avail_unmapped p := pre ++ post]> m).
      split_and!; try done; try lia.
      * apply CWhole; [done|lia|exists x; by blk_simpl|by blk_simpl].
      * intros d ? ? ?. by blk_simpl.
      * exists (set_b_base base xb). by blk_simpl.
      * apply (vm_base_rep _ m); [done|exact Hok|]. intros l xs k. rw lookup_insert. case_decide as El.
        -- intros [= <-] Hk. apply (vb_dom _ _ _ _ Hb2 _ _ k HA). rw elem_of_app in Hk. rw elem_of_app elem_of_cons. tauto.
        -- apply (vb_dom _ _ _ _ Hb2).
    + wp_step. eapply wp_upd_blk; [exact Et2|]. wp_step. eapply wp_upd_blk; [blk_simpl; reflexivity|].
      wp_step. right. exists t, x, pre, post, base, None, false, m. split_and!; try done; try lia.
      * apply CFront; [done|lia| |by blk_simpl]. eexists. split; [by blk_simpl|]. cbn. split_and!; try done; lia.
      * intros d ? ? ?. by blk_simpl.
      * exists (set_b_base base xb). by blk_simpl.
      * apply vm_base_upd_blk; [apply vm_base_upd_blk; [done|exact Et2]|by blk_simpl].
    + wp_step. eapply wp_upd_blk; [exact Et2|].
      wp_step. right. exists t, x, pre, post, base, None, false, m. split_and!; try done; try lia.
      * apply CBack; [lia|lia| |by blk_simpl]. eexists. split; [by blk_simpl|]. cbn. split_and!; try done; lia.
      * intros d ? ? ?. by blk_simpl.
      * exists (set_b_base base xb). by blk_simpl.
      * apply vm_base_upd_blk; [done|exact Et2].
    + wp_step. eapply wp_upd_blk; [exact Et2|]. wp_step. eapply wp_upd_blk; [blk_simpl; exact Ee|].
      do 3 (wp_step; eapply wp_upd_blk; [by blk_simpl|]). wp_step. eapply wp_upd_proc; [exact Epr1|]. wp_step. apply wp_on_lists.
      set (s3 := upd_v_procs _ _).
      assert (vm_base s3 m lk n) as Hb3.
      { apply vm_base_procs; [|done]. do 4 (eapply vm_base_upd_blk; [|by blk_simpl]).
        eapply vm_base_upd_blk; [done|exact Et2]. }
      assert (live (v_lists s3) (blk_node e)) as Hlive by (apply (vb_live _ _ _ _ Hb e); by apply elem_of_dom_2 in Ee).
      rw /blk_node -(last_ptr_snoc (PHead (avail_unmapped p)) pre (2 * t)).
      eapply (wp_rep_insert _ m lk _ (pre ++ [2 * t]) post); [apply Hb3|by rw -app_assoc|done|done|done|]. intros h' Hok.
      rw -app_assoc in Hok. wp_step. right.
      exists t, x, pre, post, base, None, true, (<[avail_unmapped p := pre ++ 2 * t :: 2 * e :: post]> m).
      split_and!; try done; try lia.
      * apply CMiddle; [lia|lia|..].
        -- eexists. split; [by rw /s3; blk_simpl|]. cbn. split_and!; try done; lia.
        -- eexists. split; [by rw /s3; blk_simpl|]. cbn. split_and!; try done; lia.
      * intros d ? ? ?. by rw /s3; blk_simpl.
      * exists (set_b_base base xb). by rw /s3; blk_simpl.
      * apply (vm_base_rep _ m); [done|exact Hok|]. intros l xs k. rw lookup_insert. case_decide as El.
        -- intros [= <-]. rw elem_of_app !elem_of_cons. intros Hk. destruct (decide (k = 2 * e)) as [->|].
           ++ right. rw (_ : 2 * e / 2 = e); [zdiv|]. apply elem_of_dom. rw /s3. blk_simpl. eauto.
           ++ apply (vb_dom _ _ _ _ Hb3 _ _ k HA). rw elem_of_app elem_of_cons. tauto.
        -- apply (vb_dom _ _ _ _ Hb3).
      * etrans; [exact Hs1|]. exact (same_procs_alter (upd_ref ref_inc) p s1 (λ _, eq_refl)).
Qed.
End Carve.

(** *** The space after an allocation *)

Section SpaceCarved.
Context `{Harch : Arch}.
Implicit Types (m : gmap Z (list Z)) (bl : gmap Z vm_block).

(** One list of the process changes: [T] leaves it and [T'] enters it. *)
Lemma on_proc_change h m lk p j xs ys (T T' : list Z) k : rep h m lk → 2 ≤ j ≤ 6 →
  m !! (8 * p + j) = Some xs → (∀ i, i ∈ T → i ∈ xs) →
  (∀ i, i ∈ ys ↔ (i ∈ xs ∧ i ∉ T) ∨ i ∈ T') →
  on_proc (<[8 * p + j := ys]> m) p k ↔ (on_proc m p k ∧ k ∉ T) ∨ k ∈ T'.
Proof.
  intros Hr Hj Hl HT Hys. split.
  - intros (j' & zs & Hj' & E & Hk). destruct (decide (j' = j)) as [->|Hne].
    + rw lookup_insert_eq in E. injection E as <-. apply Hys in Hk as [[Hk Hn]|Hk]; [|by right].
      left. split; [|done]. by exists j, xs.
    + rw lookup_insert_ne in E; [lia|]. left. split; [by exists j', zs|]. intros HkT. apply Hne.
      assert (8 * p + j' = 8 * p + j); [|lia]. exact (rep_unique _ _ _ _ _ _ _ _ Hr E Hl Hk (HT _ HkT)).
  - intros [[(j' & zs & Hj' & E & Hk) Hn]|Hk].
    + destruct (decide (j' = j)) as [->|Hne].
      * exists j, ys. rw lookup_insert_eq. split; [done|]. split; [done|]. apply Hys. left. split; [congruence|done].
      * exists j', zs. rw lookup_insert_ne; [lia|]. done.
    + exists j, ys. rw lookup_insert_eq. split; [done|]. split; [done|]. apply Hys. by right.
Qed.

Lemma on_proc_add m p j xs ys n k : 2 ≤ j ≤ 6 → m !! (8 * p + j) = Some xs →
  (∀ i, i ∈ ys ↔ i ∈ xs ∨ i = n) →
  on_proc (<[8 * p + j := ys]> m) p k ↔ on_proc m p k ∨ k = n.
Proof.
  intros Hj Hl Hys. split.
  - intros (j' & zs & Hj' & E & Hk). destruct (decide (j' = j)) as [->|Hne].
    + rw lookup_insert_eq in E. injection E as <-. apply Hys in Hk as [Hk|Hk]; [|by right]. left. by exists j, xs.
    + rw lookup_insert_ne in E; [lia|]. left. by exists j', zs.
  - intros [(j' & zs & Hj' & E & Hk)|Hk].
    + destruct (decide (j' = j)) as [->|Hne].
      * exists j, ys. rw lookup_insert_eq. split; [done|]. split; [done|]. apply Hys. left. congruence.
      * exists j', zs. rw lookup_insert_ne; [lia|]. done.
    + exists j, ys. rw lookup_insert_eq. split; [done|]. split; [done|]. apply Hys. by right.
Qed.

Lemma covers_rng bl d p lo hi a : covers bl d p lo hi → rng bl (2 * d) a ↔ lo ≤ a < hi.
Proof.
  intros (y & E & _ & Hb & Hs). rw /rng (_ : 2 * d / 2 = d); [zdiv|]. split.
  - intros (y' & E' & Ha). assert (y' = y) as -> by congruence. lia.
  - intros Ha. exists y. split; [done|lia].
Qed.

(** The blocks [ds] lie end to end and cover [lo .. hi). *)
Fixpoint tiles bl (p lo hi : Z) (ds : list Z) : Prop :=
  match ds with
  | [] => lo = hi
  | d :: ds' => ∃ mid, lo < mid ∧ covers bl d p lo mid ∧ tiles bl p mid hi ds'
  end.

Lemma tiles_le bl p lo hi ds : tiles bl p lo hi ds → lo ≤ hi.
Proof. revert lo. induction ds as [|d ds IH]; intros lo; cbn; [lia|]. intros (mid & Hlt & _ & Ht). specialize (IH _ Ht). lia. Qed.

Lemma tiles_in bl p lo hi ds d : tiles bl p lo hi ds → d ∈ ds →
  ∃ l r, lo ≤ l < r ∧ r ≤ hi ∧ covers bl d p l r.
Proof.
  revert lo. induction ds as [|e ds IH]; intros lo; cbn; [by intros _ ?%elem_of_nil|].
  intros (mid & Hlt & Hc & Ht) [->|Hd]%elem_of_cons.
  - exists lo, mid. pose proof (tiles_le _ _ _ _ _ Ht). split_and!; try done; lia.
  - destruct (IH _ Ht Hd) as (l & r & ? & ? & ?). exists l, r. split_and!; try done; lia.
Qed.

Lemma tiles_cover bl p lo hi ds a : tiles bl p lo hi ds →
  (∃ d, d ∈ ds ∧ rng bl (2 * d) a) ↔ lo ≤ a < hi.
Proof.
  intros Ht. split.
  - intros (d & Hd & Hr). destruct (tiles_in _ _ _ _ _ _ Ht Hd) as (l & r & ? & ? & Hc).
    apply (covers_rng _ _ _ _ _ _ Hc) in Hr. lia.
  - revert lo Ht. induction ds as [|e ds IH]; intros lo; cbn; [lia|]. intros (mid & Hlt & Hc & Ht) Ha.
    destruct (Z.lt_ge_cases a mid).
    + exists e. split; [left|]. apply (covers_rng _ _ _ _ _ _ Hc). lia.
    + destruct (IH _ Ht ltac:(lia)) as (d & Hd & Hr). exists d. split; [by right|done].
Qed.

Lemma tiles_unique bl p lo hi ds d d' a : tiles bl p lo hi ds → d ∈ ds → d' ∈ ds →
  rng bl (2 * d) a → rng bl (2 * d') a → d = d'.
Proof.
  revert lo. induction ds as [|e ds IH]; intros lo; cbn; [by intros _ ?%elem_of_nil|].
  intros (mid & Hlt & Hc & Ht) [->|Hd]%elem_of_cons [->|Hd']%elem_of_cons Hr Hr'; [done|..].
  - destruct (tiles_in _ _ _ _ _ _ Ht Hd') as (l & r & ? & ? & Hc').
    apply (covers_rng _ _ _ _ _ _ Hc) in Hr. apply (covers_rng _ _ _ _ _ _ Hc') in Hr'. lia.
  - destruct (tiles_in _ _ _ _ _ _ Ht Hd) as (l & r & ? & ? & Hc').
    apply (covers_rng _ _ _ _ _ _ Hc') in Hr. apply (covers_rng _ _ _ _ _ _ Hc) in Hr'. lia.
  - exact (IH _ Ht Hd Hd' Hr Hr').
Qed.

Definition nodes_of (ds : list Z) : list Z := (λ d, 2 * d) <$> ds.

Lemma elem_of_nodes_of d ds : 2 * d ∈ nodes_of ds ↔ d ∈ ds.
Proof.
  rw /nodes_of list_elem_of_fmap. split; [intros (d' & E & Hd); by replace d with d' by lia|by exists d].
Qed.

(** The blocks [ds] of a process are exchanged for blocks [ds'] over the same addresses. *)
Lemma space_tiles bl bl' m m' p lo hi u v ds ds' : space bl m p lo hi →
  (∀ j, 2 ≤ j ≤ 6 → is_Some (m' !! (8 * p + j))) →
  (∀ k, on_proc m' p k ↔ (on_proc m p k ∧ k ∉ nodes_of ds) ∨ k ∈ nodes_of ds') →
  (∀ d, d ∈ ds → on_proc m p (2 * d)) → (∀ d, d ∈ ds' → on_proc m p (2 * d) → d ∈ ds) →
  (∀ d, on_proc m p (2 * d) → d ∉ ds → bl' !! d = bl !! d) →
  tiles bl p u v ds → tiles bl' p u v ds' → lo ≤ u → v ≤ hi → space bl' m' p lo hi.
Proof.
  intros Hsp Hl' Hon Hds Hds' Hb Ht Ht' Hu Hv.
  eapply (space_replace bl bl' m m' p lo hi (nodes_of ds) (nodes_of ds')); [done|done|exact Hon|..].
  - intros k (d & -> & Hd)%list_elem_of_fmap. by apply Hds.
  - intros k (d & -> & Hd)%list_elem_of_fmap Hk. apply elem_of_nodes_of. by apply Hds'.
  - intros k Hk Hn. destruct (sp_good _ _ _ _ _ Hsp k Hk) as (d & y & -> & _). rw (_ : 2 * d / 2 = d); [zdiv|].
    rw elem_of_nodes_of in Hn. by apply Hb.
  - intros k (d & -> & Hd)%list_elem_of_fmap. destruct (tiles_in _ _ _ _ _ _ Ht' Hd) as (l & r & ? & ? & (y & E & Hp & Hbb & Hss)).
    exists d, y. split_and!; try done; lia.
  - intros a. assert (∀ b0 es, (∃ k, k ∈ nodes_of es ∧ rng b0 k a) ↔ ∃ d, d ∈ es ∧ rng b0 (2 * d) a) as Hx.
    { intros b0 es. split; [intros (k & (d & -> & Hd)%list_elem_of_fmap & Hr); by exists d|].
      intros (d & Hd & Hr). exists (2 * d). by rw elem_of_nodes_of. }
    rw !Hx (tiles_cover _ _ _ _ _ _ Ht) (tiles_cover _ _ _ _ _ _ Ht'). done.
  - intros k k' a (d & -> & Hd)%list_elem_of_fmap (d' & -> & Hd')%list_elem_of_fmap Hr Hr'.
    by rw (tiles_unique _ _ _ _ _ _ _ _ Ht' Hd Hd' Hr Hr').
Qed.

(** The pieces a block is cut into, in address order. *)
Lemma carved_tiles bl bl' bl2 m m' p b e t lo hi c size pre post del used :
  carved bl m p b e t lo hi c size pre post bl' m' del used → 0 < size →
  m !! avail_unmapped p = Some (pre ++ 2 * t :: post) →
  covers bl2 b p c (c + size) → (del = None → bl2 !! t = bl' !! t) → (used = true → bl2 !! e = bl' !! e) →
  ∃ T ds, m' = <[avail_unmapped p := pre ++ nodes_of T ++ post]> m ∧ tiles bl2 p lo hi ds ∧
    (∀ d, d ∈ ds ↔ d = b ∨ d ∈ T) ∧ ∀ d, d ∈ T → d = t ∨ d = e.
Proof.
  intros Hcv Hsz HA Hb Ht He. inversion Hcv as [? E1 E2 Ht' He'|? E1 E2 Ht' He'|? E1 E2 Ht' He'|? E1 E2 Ht' He']; subst.
  - exists [], [b]. split; [done|]. split; [by exists (lo + size); split; [lia|]|]. set_solver.
  - exists [t], [b; t]. split; [by rw insert_id|]. split; [|set_solver].
    exists (lo + size). split; [lia|]. split; [done|]. exists hi. split; [lia|]. by rw /covers Ht.
  - exists [t], [t; b]. split; [by rw insert_id|]. split; [|set_solver].
    exists c. split; [lia|]. split; [by rw /covers Ht|]. exists (c + size). split; [lia|]. done.
  - exists [t; e], [t; b; e]. split; [done|]. split; [|set_solver].
    exists c. split; [lia|]. split; [by rw /covers Ht|]. exists (c + size). split; [lia|]. split; [done|].
    exists hi. split; [lia|]. by rw /covers He.
Qed.

(** Whichever way a piece is taken out of an available block, the process's
    space stays partitioned. *)
Lemma space_carved h bl bl' bl2 m m' lk p lo hi b e t x c size pre post del used I ys :
  space bl m p lo hi → rep h m lk → m !! avail_unmapped p = Some (pre ++ 2 * t :: post) →
  m !! inuse_mapped p = Some I → bl !! t = Some x →
  (∀ k, on_proc m p k → k ≠ 2 * b ∧ k ≠ 2 * e) → 0 < size →
  carved bl m p b e t (b_base x) (b_base x + b_size x) c size pre post bl' m' del used →
  (∀ d, d ≠ b → d ≠ e → d ≠ t → bl2 !! d = bl !! d) →
  covers bl2 b p c (c + size) → (del = None → bl2 !! t = bl' !! t) → (used = true → bl2 !! e = bl' !! e) →
  (∀ i, i ∈ ys ↔ i ∈ I ∨ i = 2 * b) →
  space bl2 (<[inuse_mapped p := ys]> m') p lo hi.
Proof.
  intros Hsp Hr HA HI Ex Hfresh Hsz Hcv Hother Hb Ht He Hys.
  assert (on_proc m p (2 * t)) as Hont.
  { exists 2, (pre ++ 2 * t :: post). split; [lia|]. split; [exact HA|]. apply elem_of_app. right. left. }
  destruct (sp_good _ _ _ _ _ Hsp _ Hont) as (t' & x' & Et' & Ex' & Hxp & Hxs & Hxlo & Hxhi).
  assert (t' = t) as -> by lia. assert (x' = x) as -> by congruence.
  assert (2 * t ∉ pre ++ post) as Hnt.
  { pose proof (il_nodup _ _ _ (rep_is_list _ _ _ _ _ Hr HA)) as Hnd.
    apply NoDup_app in Hnd as (_ & Hd & Hn). apply NoDup_cons in Hn as [Hn _]. rw elem_of_app.
    intros [Hp|Hp]; [|done]. by apply (Hd _ Hp); left. }
  destruct (carved_tiles bl bl' bl2 m m' p b e t _ _ c size pre post del used Hcv Hsz HA Hb Ht He)
    as (T & ds & -> & Htiles & Hds & HT).
  eapply (space_tiles bl bl2 m _ p lo hi (b_base x) (b_base x + b_size x) [t] ds).
  - done.
  - intros j Hj. rw lookup_insert. case_decide; [done|]. rw lookup_insert. case_decide; [done|]. by apply (sp_lists _ _ _ _ _ Hsp).
  - intros k. rw (on_proc_add _ p 6 I ys (2 * b)); [lia|rw lookup_insert_ne; [rw /avail_unmapped; lia|exact HI]|done|].
    rw (on_proc_change h m lk p 2 (pre ++ 2 * t :: post) _ (nodes_of [t]) (nodes_of T)); [done|lia|exact HA| | |].
    + intros i ->%list_elem_of_singleton. apply elem_of_app. right. left.
    + intros i. cbn [nodes_of fmap list_fmap]. rw !elem_of_app elem_of_cons list_elem_of_singleton.
      rw elem_of_app in Hnt. destruct (decide (i = 2 * t)) as [->|]; naive_solver.
    + assert (∀ es, k ∈ nodes_of es ↔ ∃ d, k = 2 * d ∧ d ∈ es) as Hel by (intros es; apply list_elem_of_fmap).
      rw !Hel. setoid_rewrite Hds. naive_solver.
  - by intros d ->%list_elem_of_singleton.
  - intros d [->|[->| ->]%HT]%Hds Hd; [by destruct (Hfresh _ Hd)|left|by destruct (Hfresh _ Hd)].
  - intros d Hd Hdt. rw list_elem_of_singleton in Hdt. destruct (Hfresh _ Hd). apply Hother; [lia|lia|done].
  - exists (b_base x + b_size x). split; [lia|]. split; [|done]. exists x. split_and!; try done. lia.
  - exact Htiles.
  - done.
  - done.
Qed.
End SpaceCarved.

(** ** Allocation *)

Section Alloc.
Context `{Harch : Arch} {K : Type} `{Henv : VmEnv K} `{!VmEnvLaws K}.
Implicit Types (s : vm_state K) (m : gmap Z (list Z)).

Lemma elem_of_sorted_insert cmp n zs i : i ∈ sorted_insert cmp n zs ↔ i ∈ zs ∨ i = n.
Proof. rw sorted_insert_perm elem_of_cons. tauto. Qed.

Lemma wp_insert_block s m n l xs b x (Q : unit → vm_state K → Prop) :
  vm_base s m unlocked n → m !! l = Some xs → v_blocks s !! b = Some x → unlinked (2 * b) m →
  (∀ g ys, (∀ i, i ∈ ys ↔ i ∈ xs ∨ i = 2 * b) → vm_base (set_lists g s) (<[l := ys]> m) unlocked n →
     Q tt (set_lists g s)) →
  wp (insert_block l b) Q s.
Proof.
  intros Hb Hl Ex Hu HQ. rw /insert_block. wp_step. wp_step.
  assert (b ∈ dom (v_blocks s)) as Hbd by (by apply elem_of_dom_2 in Ex).
  eapply wp_excl_insert_sorted; [apply Hb|exact Hl|apply (vb_live _ _ _ _ Hb b Hbd)|done|..].
  { intros z _. destruct (list_compare_total (v_blocks s) (2 * b) z); auto. }
  intros g Hok. apply (HQ g _ (λ i, elem_of_sorted_insert (list_compare (v_blocks s)) (2 * b) xs i)). eapply vm_base_rep; [exact Hb|exact Hok|].
  intros l' xs' k. rw lookup_insert. case_decide; [|apply Hb].
  intros [= <-] [Hk| ->]%elem_of_sorted_insert; [exact (vb_dom _ _ _ _ Hb _ _ _ Hl Hk)|].
  right. by rw (_ : 2 * b / 2 = b); [zdiv|].
Qed.

(** Entering and leaving a critical section on a list. *)
Lemma wp_vm_access {A} s m n l xs (body : M (vm_state K) A) (Q : A → vm_state K → Prop) :
  vm_base s m unlocked n → m !! l = Some xs →
  (∀ s1, vm_base s1 m (holding l (v_int s)) n → v_blocks s1 = v_blocks s → v_procs s1 = v_procs s → v_int s1 = false →
    wp body (λ a s2, v_int s2 = false ∧ ∃ m' n' xs', vm_base s2 m' (holding l (v_int s)) n' ∧ m' !! l = Some xs' ∧
      ∀ s3, vm_base s3 m' unlocked n' → v_blocks s3 = v_blocks s2 → v_procs s3 = v_procs s2 → v_int s3 = v_int s → Q a s3) s1) →
  wp (list_access_exclusive l body) Q s.
Proof.
  intros Hb Hl Hbody. eapply wp_access; [apply Hb|exact Hl|].
  set (s1 := set_lists _ _). assert (vm_base s1 m (holding l (v_int s)) n) as Hb1.
  { destruct Hb as [Hr He Hlv Hp Hd]. split; try done. by apply rep_lock. }
  eapply wp_mono; [by apply (Hbody s1 Hb1)|]. intros a s2 (Hi & m' & n' & xs' & Hb2 & Hl' & HQ).
  split; [done|]. exists m', xs'. split; [apply Hb2|]. split; [done|]. apply HQ; try done.
  destruct Hb2 as [Hr He Hlv Hp Hd]. split; try done. exact (rep_unlock _ _ _ _ Hr).
Qed.

Lemma wp_free_deleted s m n p del (Q : unit → vm_state K → Prop) :
  vm_base s m unlocked n → is_Some (v_procs s !! p) →
  (∀ d, del = Some d → is_Some (v_blocks s !! d) ∧ unlinked (2 * d) m ∧ unlinked (2 * d + 1) m) →
  (∀ s', vm_base s' m unlocked n → same_procs s s' → v_int s' = v_int s →
     v_blocks s' = match del with Some d => delete d (v_blocks s) | None => v_blocks s end → Q tt s') →
  wp (free_deleted del p) Q s.
Proof.
  intros Hb Hp Hd HQ. rw /free_deleted. destruct del as [d|]; [|by wp_step; apply HQ].
  destruct (Hd d eq_refl) as ([x Ex] & Hu1 & Hu2). wp_step.
  eapply wp_sfree_audit; [exact Hb|done|exact Ex|done|done|]. intros s1 Hb1 Eb1 Hs1 Hi1.
  destruct Hp as [pr Ep]. destruct (same_procs_lookup _ _ _ _ Hs1 Ep) as (pr1 & Ep1 & _).
  eapply wp_upd_proc; [exact Ep1|]. apply HQ; try done.
  - by apply vm_base_procs.
  - etrans; [exact Hs1|]. exact (same_procs_alter (upd_ref ref_dec) p s1 (λ _, eq_refl)).
Qed.

(** A linked even node of a process has no shootdown request unless it is being sanitized. *)
Lemma tlb_unlinked s m lk n p j xs t x : vm_inv_at s m lk n → m !! (8 * p + j) = Some xs → 2 * t ∈ xs → 0 ≤ t →
  2 ≤ j ≤ 6 → j ≠ 4 → v_blocks s !! t = Some x → unlinked (2 * t + 1) m.
Proof.
  intros Hi Hl Ht Ht0 Hj Hj4 Ex l ys Hl' Hin. pose proof (vb_rep _ _ _ _ (vi_base _ _ _ _ Hi)) as Hr.
  assert (l = tlb_shootdown_reqs) as ->.
  { apply (vi_odd _ _ _ _ Hi l ys (2 * t + 1)); [done|done|lia|]. rw Z.odd_add Z.odd_mul. done. }
  destruct (vi_tlb _ _ _ _ Hi ys _ Hl' Hin) as (b & x' & E & Ex' & zs & Hz & Hbz).
  assert (b = t) as -> by lia. pose proof (rep_unique _ _ _ _ _ _ _ _ Hr Hl Hz Ht Hbz) as E'. rw /sanit_mapped in E'. lia.
Qed.

(** After a carve the available list no longer has a deleted block, and the
    nodes of [b] are on no list. *)
Lemma carved_unlinked h m lk bl p b e t lo hi c size pre post bl' m' del used :
  rep h m lk → carved bl m p b e t lo hi c size pre post bl' m' del used →
  m !! avail_unmapped p = Some (pre ++ 2 * t :: post) →
  (∀ k, unlinked k m → k ≠ 2 * e → unlinked k m') ∧
  (∀ d, del = Some d → d = t ∧ unlinked (2 * t) m') ∧ (used = false → unlinked (2 * e) m → unlinked (2 * e) m') ∧
  (∀ l, l ≠ avail_unmapped p → m' !! l = m !! l) ∧ is_Some (m' !! avail_unmapped p).
Proof.
  intros Hr Hcv HA.
  assert (∀ k ys, unlinked k m → k ∉ ys → unlinked k (<[avail_unmapped p := ys]> m)) as Hins.
  { intros k ys Hu Hk l xs. rw lookup_insert. case_decide; [by intros [= <-]|apply Hu]. }
  assert (unlinked (2 * t) (<[avail_unmapped p := pre ++ post]> m)) as Hut.
  { intros l xs. rw lookup_insert. case_decide as E; intros Hl Hin.
    - injection Hl as <-. pose proof (il_nodup _ _ _ (rep_is_list _ _ _ _ _ Hr HA)) as Hnd.
      apply NoDup_app in Hnd as (_ & Hd & Hn). apply NoDup_cons in Hn as [Hn _].
      apply elem_of_app in Hin as [Hp|Hp]; [|done]. apply (Hd _ Hp). left.
    - apply E. symmetry. exact (rep_unique _ _ _ _ _ _ _ _ Hr Hl HA Hin ltac:(apply elem_of_app; right; left)). }
  inversion Hcv; subst.
  - split_and!; try done.
    + intros k Hu _. apply Hins; [done|]. intros Hk. apply (Hu _ _ HA). rw elem_of_app in Hk. rw elem_of_app elem_of_cons. tauto.
    + by intros d [= ->].
    + intros _ Hu. apply Hins; [done|]. intros Hk. apply (Hu _ _ HA). rw elem_of_app in Hk. rw elem_of_app elem_of_cons. tauto.
    + intros l Hl. by rw lookup_insert_ne; [congruence|].
    + by rw lookup_insert_eq.
  - by split_and!.
  - by split_and!.
  - split_and!; try done.
    + intros k Hu Hk. apply Hins; [done|]. rw elem_of_app !elem_of_cons. intros Hin. apply (Hu _ _ HA).
      rw elem_of_app elem_of_cons. tauto.
    + intros l Hl. by rw lookup_insert_ne; [congruence|].
    + by rw lookup_insert_eq.
Qed.
End Alloc.

Section AllocProof.
Context `{Harch : Arch} {K : Type} `{Henv : VmEnv K} `{!VmEnvLaws K}.
Implicit Types (s : vm_state K) (m : gmap Z (list Z)).

(** An operation on process [p] keeps the invariant of all processes. *)
Lemma vm_inv_step s s' m m' lk lk' n n' p pr : vm_inv_at s m lk n → vm_base s' m' lk' n' → same_procs s s' →
  v_procs s !! p = Some pr →
  (∀ l, (∀ j, 2 ≤ j ≤ 6 → l ≠ 8 * p + j) → l ≠ tlb_shootdown_reqs → m' !! l = m !! l) →
  (∀ q k, q ≠ p → on_proc m q k → core <$> v_blocks s' !! (k / 2) = core <$> v_blocks s !! (k / 2)) →
  space (v_blocks s') m' p (p_dynamic_start pr) (p_dynamic_end pr) →
  (∀ xs k, m' !! tlb_shootdown_reqs = Some xs → k ∈ xs →
    ∃ b x, k = 2 * b + 1 ∧ v_blocks s' !! b = Some x ∧ ∃ ys, m' !! sanit_mapped (b_proc x) = Some ys ∧ 2 * b ∈ ys) →
  is_Some (m' !! tlb_shootdown_reqs) →
  vm_inv_at s' m' lk' n'.
Proof.
  intros Hi Hb Hs Ep Hm Hbl Hsp Ht Htl. split; [done| |done| |done|].
  - intros q pr' Eq. specialize (Hs q). rw Eq in Hs. destruct (v_procs s !! q) as [pr0|] eqn:E0; [|done].
    injection Hs as -> -> _ _. destruct (decide (q = p)) as [->|Hne]; [by assert (pr0 = pr) as -> by congruence|].
    assert (∀ j, 2 ≤ j ≤ 6 → m' !! (8 * q + j) = m !! (8 * q + j)) as Hm'
      by (intros j Hj; apply Hm; [|rw /tlb_shootdown_reqs]; lia).
    pose proof (vi_space _ _ _ _ Hi _ _ E0) as Hq. eapply space_frame; [exact Hq|..].
    + intros j Hj. rw Hm' //. by apply (sp_lists _ _ _ _ _ Hq).
    + by apply on_proc_ext.
    + intros k Hk. by apply (Hbl q).
  - intros q xs k Hl Hk. destruct (decide (q = p)) as [->|Hne].
    + destruct (same_procs_lookup _ _ _ _ Hs Ep) as (pr' & -> & _). by eexists.
    + rw Hm in Hl; [rw /sanit_mapped; lia|rw /sanit_mapped /tlb_shootdown_reqs; lia|].
      destruct (vi_owner _ _ _ _ Hi q xs k Hl Hk) as [pr0 E0]. destruct (same_procs_lookup _ _ _ _ Hs E0) as (pr' & -> & _). by eexists.
  - intros l xs k Hl Hk Hk0 Hko. destruct (decide (l = tlb_shootdown_reqs)) as [|Hne]; [done|].
    destruct (decide (2 ≤ l - 8 * p ≤ 6)) as [Hj|Hn].
    + destruct (sp_good _ _ _ _ _ Hsp k) as (b & x & -> & _).
      { exists (l - 8 * p), xs. split; [done|]. by replace (8 * p + (l - 8 * p)) with l by lia. }
      by rw Z.odd_mul in Hko.
    + apply (vi_odd _ _ _ _ Hi l xs k); try done. rw -Hm //. intros j Hj ->. lia.
Qed.

(** What a successful allocation gives: a block in use, over addresses that
    were available before. *)
Definition allocated s m s' m' (p b base size : Z) : Prop :=
  v_blocks s !! b = None ∧ ∃ y I, v_blocks s' !! b = Some y ∧ m' !! inuse_mapped p = Some I ∧ 2 * b ∈ I ∧
    b_proc y = p ∧ b_size y = size ∧ (base ≠ 0 → b_base y = base) ∧
    ∀ a, b_base y ≤ a < b_base y + size → ∃ A k, m !! avail_unmapped p = Some A ∧ k ∈ A ∧ rng (v_blocks s) k a.

(** Nothing fits: both new objects are given back. *)
Lemma wp_finish_none s bl m n p b e size (Q : option Z → vm_state K → Prop) :
  vm_base s m unlocked n → is_Some (v_procs s !! p) → b ≠ e → bl !! b = None → bl !! e = None →
  v_blocks s = <[e := zero_block]> (<[b := zero_block]> bl) →
  unlinked (2 * b) m → unlinked (2 * b + 1) m → unlinked (2 * e) m → unlinked (2 * e + 1) m →
  (∀ s', vm_base s' m unlocked n → v_blocks s' = bl → same_procs s s' → Q None s') →
  wp (vm_alloc_finish p b e size (false, None, false)) Q s.
Proof.
  intros Hb [pr Ep] Hbe Eb Ee Ebl Hub Hub' Hue Hue' HQ. rw /vm_alloc_finish. wp_step. wp_step.
  eapply wp_sfree_audit; [exact Hb|by rw Ep|rw Ebl lookup_insert_ne; [congruence|]; by rw lookup_insert_eq|done|done|].
  intros s1 Hb1 Eb1 Hs1 _. wp_step. wp_step. rw /free_deleted. wp_step. wp_step.
  destruct (same_procs_lookup _ _ _ _ Hs1 Ep) as (pr1 & Ep1 & _).
  eapply wp_sfree_audit; [exact Hb1|by rw Ep1|rw Eb1 Ebl lookup_delete_ne; [congruence|]; by rw lookup_insert_eq|done|done|].
  intros s2 Hb2 Eb2 Hs2 _. wp_step. apply HQ; [done| |etrans; [exact Hs1|exact Hs2]].
  rw Eb2 Eb1 Ebl. apply map_eq. intros d. destruct (decide (e = d)) as [<-|]; [by rw lookup_delete_eq|].
  rw lookup_delete_ne //. destruct (decide (b = d)) as [<-|]; [by rw lookup_delete_eq|].
  by rw lookup_delete_ne // !lookup_insert_ne.
Qed.

(** Something fits: the block is set up and linked, the leftovers are freed. *)
Lemma wp_finish_some s m n p b e size del used y I (Q : option Z → vm_state K → Prop) :
  vm_base s m unlocked n → is_Some (v_procs s !! p) → m !! inuse_mapped p = Some I →
  v_blocks s !! b = Some y → is_Some (v_blocks s !! e) → b ≠ e →
  unlinked (2 * b) m → (used = false → unlinked (2 * e) m) → unlinked (2 * e + 1) m →
  (∀ d, del = Some d → d ≠ b ∧ d ≠ e ∧ is_Some (v_blocks s !! d) ∧ unlinked (2 * d) m ∧ unlinked (2 * d + 1) m) →
  (∀ s' ys, vm_base s' (<[inuse_mapped p := ys]> m) unlocked n → same_procs s s' →
     (∀ i, i ∈ ys ↔ i ∈ I ∨ i = 2 * b) →
     v_blocks s' !! b = Some (set_b_map_type VM_MAP_TYPE_NONE (set_b_type VM_TYPE_GENERIC (set_b_size size (set_b_proc p y)))) →
     (∀ d, d ≠ b → (used = false → d ≠ e) → del ≠ Some d → v_blocks s' !! d = v_blocks s !! d) → Q (Some b) s') →
  wp (vm_alloc_finish p b e size (true, del, used)) Q s.
Proof.
  intros Hb [pr Ep] HI Ey [ye Eye] Hbe Hub Hue Hue' Hdel HQ. rw /vm_alloc_finish. wp_step. wp_step.
  eapply wp_upd_blk; [exact Ey|]. do 3 (wp_step; eapply wp_upd_blk; [by blk_simpl|]). set (s1 := upd_v_blocks _ _).
  assert (vm_base s1 m unlocked n) as Hb1.
  { do 3 (eapply vm_base_upd_blk; [|by blk_simpl]). eapply vm_base_upd_blk; [exact Hb|exact Ey]. }
  set (y' := set_b_map_type VM_MAP_TYPE_NONE (set_b_type VM_TYPE_GENERIC (set_b_size size (set_b_proc p y)))) in HQ.
  assert (v_blocks s1 !! b = Some y') as Ey1 by by rw /s1; blk_simpl.
  assert (∀ d, d ≠ b → v_blocks s1 !! d = v_blocks s !! d) as E1 by (intros d Hd; by rw /s1; blk_simpl).
  wp_step. eapply wp_insert_block; [exact Hb1|exact HI|exact Ey1|done|].
  intros g ys Hys Hb2. set (s2 := set_lists g s1) in Hb2 |- *. wp_step. wp_step.
  assert (∀ k, k ≠ 2 * b → unlinked k m → unlinked k (<[inuse_mapped p := ys]> m)) as Hun.
  { intros k Hk Hu l xs. rw lookup_insert. case_decide; [|apply Hu]. intros [= <-] [Hin|]%Hys; [|done].
    by apply (Hu _ _ HI). }
  eapply wp_free_deleted; [exact Hb2|by exists pr|..].
  { intros d Ed. destruct (Hdel d Ed) as (? & ? & ? & ? & ?). split; [by cbn; rw E1|]. split; apply Hun; try done; lia. }
  intros s3 Hb3 Hs3 _ Eb3. assert (same_procs s s3) as Hs3' by (etrans; [|exact Hs3]; done).
  assert (∀ d, del ≠ Some d → v_blocks s3 !! d = v_blocks s1 !! d) as E3.
  { intros d Hd. rw Eb3. destruct del as [d'|]; [|done]. rw lookup_delete_ne; [congruence|done]. }
  assert (del ≠ Some b ∧ del ≠ Some e) as [Hdb Hde] by (split; intros E; by destruct (Hdel _ E) as (? & ? & _)).
  wp_step. destruct used.
  - wp_step. wp_step. apply (HQ s3 ys); [done|done|done|by rw E3|]. intros d ? _ ?. by rw E3 // E1.
  - destruct (same_procs_lookup _ _ _ _ Hs3' Ep) as (pr3 & Ep3 & _).
    eapply wp_sfree_audit; [exact Hb3|by rw Ep3|rw E3 // E1; [congruence|exact Eye]|apply Hun; [lia|by apply Hue]|apply Hun; [lia|done]|].
    intros s4 Hb4 Eb4 Hs4 _. wp_step. apply (HQ s4 ys); [done|etrans; [exact Hs3'|exact Hs4]|done| |].
    + rw Eb4 lookup_delete_ne; [congruence|]. by rw E3.
    + intros d ? Hd ?. rw Eb4 lookup_delete_ne; [intros ->; by apply Hd|]. by rw E3 // E1.
Qed.

(** A block that is in the lists of one process is in those of no other. *)
Lemma other_proc s m lk n p q j xs t x k : vm_inv_at s m lk n → m !! (8 * p + j) = Some xs → 2 * t ∈ xs →
  2 ≤ j ≤ 6 → j ≠ 4 → v_blocks s !! t = Some x → q ≠ p → on_proc m q k → k / 2 ≠ t.
Proof.
  intros Hi Hl Ht Hj Hj4 Ex Hq (i & ys & Hi' & Hl' & Hk) E. pose proof (vi_base _ _ _ _ Hi) as Hb.
  assert (t ∈ dom (v_blocks s)) as Hd by (by apply elem_of_dom_2 in Ex).
  destruct (vb_live _ _ _ _ Hb t Hd) as (Ht0 & _).
  assert (k = 2 * t ∨ k = 2 * t + 1) as [->| ->] by zdiv.
  - pose proof (rep_unique _ _ _ _ _ _ _ _ (vb_rep _ _ _ _ Hb) Hl Hl' Ht Hk). lia.
  - by apply (tlb_unlinked s m lk n p j xs t x Hi Hl Ht Ht0 Hj Hj4 Ex _ _ Hl').
Qed.

(** A linked node belongs to a block that exists. *)
Lemma linked_dom s m lk n q k : vm_inv_at s m lk n → on_proc m q k → k / 2 ∈ dom (v_blocks s) ∨ v_blocks s !! (k / 2) = None ∧ k < 0.
Proof.
  intros Hi (j & xs & Hj & Hl & Hk). pose proof (vi_base _ _ _ _ Hi) as Hb.
  destruct (decide (k / 2 ∈ dom (v_blocks s))) as [|Hn]; [by left|right].
  destruct (vb_dom _ _ _ _ Hb _ _ _ Hl Hk) as [|]; [|done]. split; [by apply not_elem_of_dom|done].
Qed.
End AllocProof.

Section AllocMain.
Context `{Harch : Arch} {K : Type} `{Henv : VmEnv K} `{!VmEnvLaws K}.
Implicit Types (s : vm_state K) (m : gmap Z (list Z)).

(** The invariant after a piece of block [t] has become block [b]. *)
Lemma alloc_inv s s' m m' n0 n p pr bl1 blm b e t x c size pre post del used I ys :
  vm_inv s m n0 → v_procs s !! p = Some pr →
  m !! avail_unmapped p = Some (pre ++ 2 * t :: post) → m !! inuse_mapped p = Some I →
  v_blocks s !! t = Some x → v_blocks s !! b = None → v_blocks s !! e = None → 0 < size →
  (∀ d, d ≠ b → d ≠ e → bl1 !! d = v_blocks s !! d) →
  carved bl1 m p b e t (b_base x) (b_base x + b_size x) c size pre post blm m' del used →
  (∀ l, l ≠ avail_unmapped p → m' !! l = m !! l) →
  vm_base s' (<[inuse_mapped p := ys]> m') unlocked n → same_procs s s' →
  (∀ i, i ∈ ys ↔ i ∈ I ∨ i = 2 * b) →
  (∀ d, d ≠ b → d ≠ e → d ≠ t → v_blocks s' !! d = v_blocks s !! d) →
  covers (v_blocks s') b p c (c + size) → (del = None → v_blocks s' !! t = blm !! t) →
  (used = true → v_blocks s' !! e = blm !! e) →
  vm_inv s' (<[inuse_mapped p := ys]> m') n.
Proof.
  intros Hi Ep HA HI Ext Hbn Hen Hsz E1 Hcv Hm' Hb' Hss Hys Eother Hcov Ht He.
  pose proof (vi_base _ _ _ _ Hi) as Hb. pose proof (vi_space _ _ _ _ Hi _ _ Ep) as Hsp.
  assert (2 * t ∈ pre ++ 2 * t :: post) as Hin by (apply elem_of_app; right; left).
  assert (∀ d z, v_blocks s !! d = Some z → d ≠ b ∧ d ≠ e) as Hne by (intros d z Ez; split; congruence).
  assert (m' !! tlb_shootdown_reqs = m !! tlb_shootdown_reqs) as Etlb by (apply Hm'; rw /avail_unmapped /tlb_shootdown_reqs; lia).
  eapply (vm_inv_step s s' m _ _ _ _ _ p pr Hi); [done|done|done|..].
  - intros l Hl _. rw lookup_insert_ne; [specialize (Hl 6); rw /inuse_mapped; lia|]. apply Hm'.
    specialize (Hl 2). rw /avail_unmapped. lia.
  - intros q k Hq Hk. destruct (linked_dom _ _ _ _ _ _ Hi Hk) as [[z Ez]%elem_of_dom|[En Hk0]].
    + destruct (Hne _ _ Ez). f_equal. apply Eother; [done|done|]. by eapply (other_proc s m _ _ p q 2); eauto; lia.
    + f_equal. rw En. rw -En. destruct (decide (v_blocks s' !! (k / 2) = None)) as [E|E]; [by rw E|].
      destruct (v_blocks s' !! (k / 2)) as [z|] eqn:Ez; [|done].
      destruct (vb_live _ _ _ _ Hb' (k / 2)) as (? & _); [by apply elem_of_dom_2 in Ez|]. zdiv.
  - eapply (space_carved (v_lists s) bl1 blm (v_blocks s') m m' unlocked p _ _ b e t x c size pre post del used I ys);
      [|apply Hb|exact HA|exact HI| | |done|exact Hcv| |done|done|done|done].
    + eapply space_frame; [exact Hsp|apply Hsp|done|]. intros k Hk. f_equal.
      destruct (sp_good _ _ _ _ _ Hsp _ Hk) as (d & z & -> & Ez & _). rw (_ : 2 * d / 2 = d); [zdiv|].
      destruct (Hne _ _ Ez). by apply E1.
    + destruct (Hne _ _ Ext). by rw E1.
    + intros k Hk. destruct (sp_good _ _ _ _ _ Hsp _ Hk) as (d & z & -> & Ez & _). destruct (Hne _ _ Ez). lia.
    + intros d ? ? ?. by rw Eother // E1.
  - intros xs k. rw lookup_insert_ne; [rw /inuse_mapped /tlb_shootdown_reqs; lia|]. rw Etlb.
    intros Hl Hk. destruct (vi_tlb _ _ _ _ Hi xs k Hl Hk) as (d & z & -> & Ez & zs & Hz & Hdz). exists d, z.
    destruct (Hne _ _ Ez). assert (d ≠ t).
    { intros ->. pose proof (rep_unique _ _ _ _ _ _ _ _ (vb_rep _ _ _ _ Hb) Hz HA Hdz Hin) as E.
      rw /sanit_mapped /avail_unmapped in E. lia. }
    split; [done|]. rw Eother //. split; [done|]. exists zs.
    rw lookup_insert_ne; [rw /inuse_mapped /sanit_mapped; lia|]. by rw Hm'; [rw /avail_unmapped /sanit_mapped; lia|].
  - rw lookup_insert_ne; [rw /inuse_mapped /tlb_shootdown_reqs; lia|]. rw Etlb. apply Hi.
Qed.

Lemma wp_vm_alloc s m n p pr base0 size0 :
  let end_ := align_up_vaddr (ulong (base0 + size0)) PAGE_SIZE in
  let base := align_down_vsize base0 PAGE_SIZE in
  vm_inv s m (S (S n)) → v_procs s !! p = Some pr → 0 ≤ base < end_ → end_ < 2 ^ ARCH_WIDTH →
  wp (vm_alloc p base0 size0) (λ r s', ∃ m', vm_inv s' m' n ∧ same_procs s s' ∧
    match r with
    | Some b => allocated s m s' m' p b base (end_ - base)
    | None => m' = m ∧ v_blocks s' = v_blocks s ∧
        ∀ A t x, m !! avail_unmapped p = Some A → 2 * t ∈ A → v_blocks s !! t = Some x →
          fits base (end_ - base) end_ x = false
    end) s.
Proof.
  intros end_ base Hi Ep Hbe Hend. pose proof (vi_base _ _ _ _ Hi) as Hb.
  pose proof (vi_space _ _ _ _ Hi _ _ Ep) as Hsp. destruct (sp_bounds _ _ _ _ _ Hsp) as [Hlo Hhi].
  destruct (sp_lists _ _ _ _ _ Hsp 2 ltac:(lia)) as [A HA]. destruct (sp_lists _ _ _ _ _ Hsp 6 ltac:(lia)) as [I HI].
  change (m !! avail_unmapped p = Some A) in HA. change (m !! inuse_mapped p = Some I) in HI.
  assert (ulong (end_ - base) = end_ - base) as Esz by (apply wrap_small; rw /uint; lia).
  rw /vm_alloc -/end_ -/base Esz. set (size := end_ - base) in *.
  wp_step. eapply wp_salloc_audit; [exact Hb|by rw Ep|].
  intros b s1 Hb0 Hbn%not_elem_of_dom Hb1 Eb1 Hs1 _ Hub Hub'. destruct (same_procs_lookup _ _ _ _ Hs1 Ep) as (pr1 & Ep1 & _).
  wp_step. eapply wp_salloc_audit; [exact Hb1|by rw Ep1|].
  intros e s2 He0 Hen%not_elem_of_dom Hb2 Eb2 Hs2 _ Hue Hue'. rw Eb1 in Hen Eb2. apply lookup_insert_None in Hen as [Hen Hbe'].
  destruct (same_procs_lookup _ _ _ _ Hs2 Ep1) as (pr2 & Ep2 & _).
  assert (∀ d, d ≠ b → d ≠ e → v_blocks s2 !! d = v_blocks s !! d) as Eold
    by (intros d ? ?; rw Eb2 lookup_insert_ne; [congruence|]; by rw lookup_insert_ne; [congruence|]).
  assert (∀ t x, 2 * t ∈ A → v_blocks s !! t = Some x → v_blocks s2 !! t = Some x) as Eold'
    by (intros t x _ Ex; rw Eold //; congruence).
  wp_step. eapply wp_vm_access; [exact Hb2|exact HA|]. intros s3 Hb3 Eb3 Ep3 Hint3. eapply wp_mono.
  { apply (wp_carve s3 m (holding (avail_unmapped p) (v_int s2)) n p b e base size end_ A);
      [exact Hb3|apply holding_locked|exact HA|by rw Ep3 Ep2| | | |done|done|lia|lia|lia|lia].
    - intros k Hk. destruct (sp_good _ _ _ _ _ Hsp k) as (t & x & -> & Ex & Hxp & Hxs & Hx1 & Hx2);
        [exists 2, A; split; [lia|]; done|].
      exists t, x. rw Eb3 (Eold' t x) //. split_and!; try done; try congruence; lia.
    - rw Eb3 Eb2 lookup_insert_ne; [congruence|]. rw lookup_insert_eq. by eexists.
    - rw Eb3 Eb2 lookup_insert_eq. by eexists. }
  intros r s4 [(-> & -> & Hnone)|(t & x & pre & post & c & del & used & m' & -> & EA & Ex & Hfit & Hc & Hc1 & Hc2 & Hcv & Hother & (yb & Eyb & Hyb) & Hb4 & Hs4 & Hint4)].
  - split; [done|]. exists m, n, A. split; [done|]. split; [done|]. intros s5 Hb5 Eb5 Ep5 _. rw Eb3 in Eb5.
    eapply (wp_finish_none s5 (v_blocks s)); [exact Hb5|by rw Ep5 Ep3 Ep2|congruence|done|done|by rw Eb5|done..|].
    intros s6 Hb6 Eb6 Hs6. exists m. assert (same_procs s s6) as Hss.
    { etrans; [exact Hs1|]. etrans; [exact Hs2|]. etrans; [|exact Hs6]. intros q. by rw Ep5 Ep3. }
    split; [|split; [done|split; [done|split; [done|]]]].
    + by eapply (vm_inv_step s s6 m m _ _ _ _ p pr Hi); rw ?Eb6; try apply Hi.
    + intros A' t x HA' Ht Ext. assert (A' = A) as -> by congruence. apply (Hnone t x Ht). rw Eb3. by apply Eold'.
  - subst A. rw Eb3 in Hcv Hother Ex.
    assert (2 * t ∈ pre ++ 2 * t :: post) as Hin by (apply elem_of_app; right; left).
    destruct (carved_unlinked (v_lists s) m _ _ _ _ _ _ _ _ _ _ _ _ _ _ _ _ (vb_rep _ _ _ _ Hb) Hcv HA) as (Hun & Hdel & Huse & Hm' & [A' HA']).
    destruct (sp_good _ _ _ _ _ Hsp (2 * t)) as (t' & x' & Et' & Ext & Hxp & Hxs & Hxlo & Hxhi); [exists 2, (pre ++ 2 * t :: post); split; [lia|]; done|].
    assert (t' = t) as -> by lia. rw (Eold' _ _ Hin Ext) in Ex. injection Ex as <-.
    assert (0 ≤ t) as Ht0 by (apply (vb_live _ _ _ _ Hb t); by apply elem_of_dom_2 in Ext).
    pose proof (tlb_unlinked s m _ _ p 2 _ t x' Hi HA Hin Ht0 ltac:(lia) ltac:(lia) Ext) as Hut.
    split; [by rw Hint4|]. exists m', n, A'. split; [done|]. split; [done|]. intros s5 Hb5 Eb5 Ep5 _. rw -Eb5 in Hcv Hother Eyb.
    assert (v_procs s3 !! p = Some pr2) as E3 by by rw Ep3. destruct (same_procs_lookup _ _ _ _ Hs4 E3) as (pr4 & Ep4 & _).
    assert (is_Some (v_blocks s5 !! e)) as Hse.
    { destruct Hcv as [? ? ? ? Ee|? ? ? ? Ee|? ? ? ? Ee|? ? ? ? (y & Ee & _)]; rw Ee ?Eb2 ?lookup_insert_eq; by eexists. }
    eapply (wp_finish_some s5 m' n p b e size del used yb I); [exact Hb5|by rw Ep5 Ep4|rw Hm' //; rw /inuse_mapped /avail_unmapped; lia|exact Eyb|done|congruence
      |apply Hun; [done|lia]|by intros; apply Huse|apply Hun; [done|lia]|..].
    { intros d Ed. destruct (Hdel d Ed) as [-> Hu]. split_and!; try congruence; [|done|apply Hun; [done|lia]].
      by destruct Hcv. }
    intros s6 ys Hb6 Hs6 Hys Ey Eoth. exists (<[inuse_mapped p := ys]> m').
    assert (same_procs s s6) as Hss.
    { etrans; [exact Hs1|]. etrans; [exact Hs2|]. etrans; [|exact Hs6]. intros q. rw Ep5 (Hs4 q) Ep3. done. }
    split; [|split; [done|]].
    + eapply (alloc_inv s s6 m m' _ n p pr (v_blocks s2) (v_blocks s5) b e t x' c size pre post del used I ys Hi Ep HA HI); try done.
      * lia.
      * intros d ? ? ?. rw Eoth //; [intros E; by destruct (Hdel _ E) as [-> _]|]. rw Hother // Eold //.
      * eexists. split; [exact Ey|]. cbn. split_and!; try done. lia.
      * intros ->. apply Eoth; [congruence|congruence|done].
      * intros ->. apply Eoth; [congruence|done|]. intros E. destruct (Hdel _ E) as [-> _]. congruence.
    + split; [done|]. eexists _, ys. split; [exact Ey|]. split; [by rw lookup_insert_eq|].
      split; [apply Hys; by right|]. split; [done|]. split; [done|]. split; [intros; cbn; rw Hyb; by apply Hc|].
      cbn. rw Hyb. intros a Ha. exists (pre ++ 2 * t :: post), (2 * t). split; [done|]. split; [done|].
      exists x'. rw (_ : 2 * t / 2 = t); [zdiv|]. split; [done|]. lia.
Qed.
End AllocMain.

(** ** Release *)

Section Free.
Context `{Harch : Arch} {K : Type} `{Henv : VmEnv K} `{!VmEnvLaws K}.
Implicit Types (s : vm_state K) (m : gmap Z (list Z)).

Definition same_core s s' : Prop := ∀ d, core <$> v_blocks s' !! d = core <$> v_blocks s !! d.

#[export] Instance same_core_preorder : PreOrder same_core.
Proof. split; [done|]. intros s1 s2 s3 H1 H2 d. by rw H2 H1. Qed.

(** Blocks only move between the lists of process [p]. *)
Lemma vm_inv_move s s' m m' lk lk' n n' p pr : vm_inv_at s m lk n → vm_base s' m' lk' n' → same_procs s s' →
  v_procs s !! p = Some pr →
  (∀ l, (∀ j, 2 ≤ j ≤ 6 → l ≠ 8 * p + j) → l ≠ tlb_shootdown_reqs → m' !! l = m !! l) →
  same_core s s' → (∀ j, 2 ≤ j ≤ 6 → is_Some (m' !! (8 * p + j))) → (∀ k, on_proc m' p k ↔ on_proc m p k) →
  (∀ xs k, m' !! tlb_shootdown_reqs = Some xs → k ∈ xs →
    ∃ b x, k = 2 * b + 1 ∧ v_blocks s' !! b = Some x ∧ ∃ ys, m' !! sanit_mapped (b_proc x) = Some ys ∧ 2 * b ∈ ys) →
  is_Some (m' !! tlb_shootdown_reqs) → vm_inv_at s' m' lk' n'.
Proof.
  intros Hi Hb Hs Ep Hm Hc Hl Hon Ht Htl. eapply (vm_inv_step s s' m m' _ _ _ _ p pr Hi Hb Hs Ep Hm); [| |done|done].
  - intros q k _ _. apply Hc.
  - eapply space_frame; [exact (vi_space _ _ _ _ Hi _ _ Ep)|done|done|]. intros k _. apply Hc.
Qed.

Lemma wp_event_signal s m lk n p (Q : unit → vm_state K → Prop) :
  vm_base s m lk n → is_Some (v_procs s !! p) →
  (∀ s', vm_base s' m lk n → v_blocks s' = v_blocks s → same_procs s s' → v_int s' = v_int s → Q tt s') →
  wp (event_signal p) Q s.
Proof.
  intros Hb [pr Ep] HQ. rw /event_signal. wp_step. eapply wp_get_proc; [exact Ep|]. cbv zeta.
  set (k := ev_kernel _). wp_step. eapply wp_upd_proc; [exact Ep|]. set (s1 := upd_v_procs _ s).
  assert (vm_base s1 m lk n) as Hb1 by (by apply vm_base_procs).
  assert (same_procs s s1) as Hs1 by (exact (same_procs_alter (set_event _) p s (λ _, eq_refl))).
  destruct k; [|wp_step; by apply HQ]. wp_step. eapply wp_upd_proc; [cbn; by rw lookup_alter_eq Ep|].
  set (s2 := upd_v_procs _ s1). assert (vm_base s2 m lk n) as Hb2 by (by apply vm_base_procs).
  apply wp_on_env. eapply wp_mono; [exact (wake_ok _ _ _ p (vb_env _ _ _ _ Hb2))|]. intros [] k' He. apply HQ; try done.
  - destruct Hb2 as [? ? ? ? ?]. by split.
  - etrans; [exact Hs1|]. exact (same_procs_alter (set_event (mk_event true false)) p s1 (λ _, eq_refl)).
Qed.

(** List changes that keep linked nodes inside the set of blocks. *)
Lemma vb_dom_insert s m lk n l xs : vm_base s m lk n →
  (∀ k, k ∈ xs → k < 0 ∨ k / 2 ∈ dom (v_blocks s)) →
  ∀ l' xs' k, <[l := xs]> m !! l' = Some xs' → k ∈ xs' → k < 0 ∨ k / 2 ∈ dom (v_blocks s).
Proof. intros Hb Hx l' xs' k. rw lookup_insert. case_decide; [intros [= <-]; apply Hx|apply Hb]. Qed.

Lemma wp_base_remove s m lk n l xs b ys (Q : list_ptr → vm_state K → Prop) :
  vm_base s m lk n → m !! l = Some (xs ++ 2 * b :: ys) → lk l = SPINLOCK_INIT →
  (∀ s', vm_base s' (<[l := xs ++ ys]> m) lk n → v_blocks s' = v_blocks s → v_procs s' = v_procs s →
     v_int s' = v_int s → Q (blk_node b) s') →
  wp (list_remove_exclusive l (blk_node b)) Q s.
Proof.
  intros Hb Hl El HQ. eapply wp_excl_remove_at; [apply Hb|exact Hl|exact El|]. intros g Hok. apply HQ; try done.
  eapply vm_base_rep; [exact Hb|exact Hok|]. apply (vb_dom_insert s m lk n); [done|]. intros k Hk.
  apply (vb_dom _ _ _ _ Hb _ _ k Hl). rw elem_of_app in Hk. rw elem_of_app elem_of_cons. tauto.
Qed.

Lemma wp_base_push_back s m lk n l xs b x (Q : unit → vm_state K → Prop) :
  vm_base s m lk n → m !! l = Some xs → lk l = SPINLOCK_INIT → v_blocks s !! b = Some x → unlinked (2 * b) m →
  (∀ s', vm_base s' (<[l := xs ++ [2 * b]]> m) lk n → v_blocks s' = v_blocks s → v_procs s' = v_procs s →
     v_int s' = v_int s → Q tt s') →
  wp (list_push_back_exclusive l (blk_node b)) Q s.
Proof.
  intros Hb Hl El Ex Hu HQ. assert (b ∈ dom (v_blocks s)) as Hd by (by apply elem_of_dom_2 in Ex).
  eapply wp_push_back_at; [apply Hb|exact Hl|exact El|apply (vb_live _ _ _ _ Hb b Hd)|done|]. intros g Hok. apply HQ; try done.
  eapply vm_base_rep; [exact Hb|exact Hok|]. apply (vb_dom_insert s m lk n); [done|]. intros k [Hk|Hk]%elem_of_app.
  - by apply (vb_dom _ _ _ _ Hb _ _ k Hl).
  - apply list_elem_of_singleton in Hk as ->. right. by rw (_ : 2 * b / 2 = b); [zdiv|].
Qed.

(** Removing a node from its list leaves it on no list. *)
Lemma removed_unlinked h m lk l xs k ys : rep h m lk → m !! l = Some (xs ++ k :: ys) →
  unlinked k (<[l := xs ++ ys]> m).
Proof.
  intros Hr Hl l' zs. rw lookup_insert. case_decide as E; intros Hz Hin.
  - injection Hz as <-. pose proof (il_nodup _ _ _ (rep_is_list _ _ _ _ _ Hr Hl)) as Hnd.
    apply NoDup_app in Hnd as (_ & Hd & Hn). apply NoDup_cons in Hn as [Hn _].
    apply elem_of_app in Hin as [Hp|Hp]; [|done]. apply (Hd _ Hp). left.
  - apply E. symmetry. exact (rep_unique _ _ _ _ _ _ _ _ Hr Hz Hl Hin ltac:(apply elem_of_app; right; left)).
Qed.

Lemma wp_vm_move_to_sanit_unmapped s m lk n p b x xs ys zs (Q : unit → vm_state K → Prop) :
  vm_base s m lk n → lk (sanit_mapped p) = SPINLOCK_INIT → lk (sanit_unmapped p) = SPINLOCK_INIT → is_Some (v_procs s !! p) → v_blocks s !! b = Some x →
  m !! sanit_mapped p = Some (xs ++ 2 * b :: ys) → m !! sanit_unmapped p = Some zs →
  (∀ s', vm_base s' (<[sanit_unmapped p := zs ++ [2 * b]]> (<[sanit_mapped p := xs ++ ys]> m)) lk n →
     v_blocks s' = v_blocks s → same_procs s s' → v_int s' = v_int s → Q tt s') →
  wp (vm_move_to_sanit_unmapped p b) Q s.
Proof.
  intros Hb El1 El2 Hp Ex Hl Hz HQ. rw /vm_move_to_sanit_unmapped. wp_step.
  eapply wp_base_remove; [exact Hb|exact Hl|exact El1|]. intros s1 Hb1 Eb1 Ep1 Hi1. wp_step.
  eapply wp_base_push_back; [exact Hb1|rw lookup_insert_ne; [rw /sanit_mapped /sanit_unmapped; lia|exact Hz]|exact El2|rw Eb1; exact Ex
    |exact (removed_unlinked _ _ _ _ _ _ _ (vb_rep _ _ _ _ Hb) Hl)|].
  intros s2 Hb2 Eb2 Ep2 Hi2. eapply wp_event_signal; [exact Hb2|by rw Ep2 Ep1|]. intros s3 Hb3 Eb3 Hs3 Hi3.
  apply HQ; [done|congruence| |congruence]. etrans; [|exact Hs3]. intros q. by rw Ep2 Ep1.
Qed.
End Free.

Section Sanitize.
Context `{Harch : Arch} {K : Type} `{Henv : VmEnv K} `{!VmEnvLaws K}.
Implicit Types (s : vm_state K) (m : gmap Z (list Z)).

(** Block [d] has entered the sanitizing lists of [p], with a shootdown
    request when there are other CPUs. *)
Record sanitized m m' (p d : Z) : Prop := {
  sn_other : ∀ l, l ≠ sanit_mapped p → l ≠ sanit_unmapped p → l ≠ tlb_shootdown_reqs → m' !! l = m !! l;
  sn_on : ∀ k, on_proc m' p k ↔ on_proc m p k ∨ k = 2 * d;
  sn_lists : is_Some (m' !! sanit_mapped p) ∧ is_Some (m' !! sanit_unmapped p) ∧ is_Some (m' !! tlb_shootdown_reqs);
  sn_grow : ∀ ys k, m !! sanit_mapped p = Some ys → k ∈ ys → ∃ ys', m' !! sanit_mapped p = Some ys' ∧ k ∈ ys';
  sn_tlb : ∀ xs' k, m' !! tlb_shootdown_reqs = Some xs' → k ∈ xs' →
    (∃ xs, m !! tlb_shootdown_reqs = Some xs ∧ k ∈ xs) ∨
    k = 2 * d + 1 ∧ ∃ ys', m' !! sanit_mapped p = Some ys' ∧ 2 * d ∈ ys'
}.

(** One CPU: the block goes straight to the unmapped list. *)
Lemma sanitized_one m p d SM SU xs ys : m !! sanit_mapped p = Some SM → m !! sanit_unmapped p = Some SU →
  is_Some (m !! tlb_shootdown_reqs) → (∀ i, i ∈ xs ++ ys ↔ i ∈ SM) →
  sanitized m (<[sanit_unmapped p := SU ++ [2 * d]]> (<[sanit_mapped p := xs ++ ys]> m)) p d.
Proof.
  intros HM HU Ht Hel.
  assert (sanit_unmapped p ≠ sanit_mapped p) as Hne by (rw /sanit_unmapped /sanit_mapped; lia).
  assert (tlb_shootdown_reqs ≠ sanit_mapped p ∧ tlb_shootdown_reqs ≠ sanit_unmapped p) as [Ht1 Ht2]
    by (rw /tlb_shootdown_reqs /sanit_mapped /sanit_unmapped; lia).
  split.
  - intros l H1 H2 _. rw lookup_insert_ne; [congruence|]. by rw lookup_insert_ne; [congruence|].
  - intros k. rw (on_proc_add _ p 3 SU _ (2 * d)); [lia|rw lookup_insert_ne; [exact (not_eq_sym Hne)|exact HU]| |].
    { intros i. rw elem_of_app list_elem_of_singleton. done. }
    assert (∀ k, on_proc (<[sanit_mapped p := xs ++ ys]> m) p k ↔ on_proc m p k) as ->; [|done].
    intros i. split.
    + intros (j & zs & Hj & E & Hin). destruct (decide (8 * p + j = sanit_mapped p)) as [Ej|Ej].
      * rw Ej lookup_insert_eq in E. injection E as <-. exists 4, SM. split; [lia|]. split; [exact HM|]. by apply Hel.
      * rw lookup_insert_ne in E; [congruence|]. by exists j, zs.
    + intros (j & zs & Hj & E & Hin). destruct (decide (8 * p + j = sanit_mapped p)) as [Ej|Ej].
      * exists 4, (xs ++ ys). split; [lia|]. split; [apply lookup_insert_eq|]. apply Hel. rw Ej in E. congruence.
      * exists j, zs. split; [done|]. split; [|done]. by rw lookup_insert_ne; [congruence|].
  - split; [rw lookup_insert_ne //; by rw lookup_insert_eq|]. split; [by rw lookup_insert_eq|].
    rw lookup_insert_ne; [congruence|]. by rw lookup_insert_ne; [congruence|].
  - intros zs k E Hk. exists (xs ++ ys). rw lookup_insert_ne // lookup_insert_eq. split; [done|]. apply Hel. congruence.
  - intros zs k. rw lookup_insert_ne; [congruence|]. rw lookup_insert_ne; [congruence|]. intros E Hk. left. by exists zs.
Qed.

(** More CPUs: the block waits, mapped, for their acknowledgements. *)
Lemma sanitized_many m p d SM SU TL ys : m !! sanit_mapped p = Some SM → m !! sanit_unmapped p = Some SU →
  m !! tlb_shootdown_reqs = Some TL → (∀ i, i ∈ ys ↔ i ∈ SM ∨ i = 2 * d) →
  sanitized m (<[tlb_shootdown_reqs := TL ++ [2 * d + 1]]> (<[sanit_mapped p := ys]> m)) p d.
Proof.
  intros HM HU HT Hel.
  assert (tlb_shootdown_reqs ≠ sanit_mapped p ∧ tlb_shootdown_reqs ≠ sanit_unmapped p) as [Ht1 Ht2]
    by (rw /tlb_shootdown_reqs /sanit_mapped /sanit_unmapped; lia).
  assert (sanit_mapped p ≠ sanit_unmapped p) as Hne by (rw /sanit_unmapped /sanit_mapped; lia).
  split.
  - intros l H1 _ H3. rw lookup_insert_ne; [congruence|]. by rw lookup_insert_ne; [congruence|].
  - intros k. rw (on_proc_ext (<[sanit_mapped p := ys]> m)).
    { intros j Hj. rw lookup_insert_ne; [rw /tlb_shootdown_reqs; lia|done]. }
    by rw (on_proc_add m p 4 SM ys (2 * d)); [lia|exact HM|done|].
  - split; [rw lookup_insert_ne //; by rw lookup_insert_eq|]. split; [|by rw lookup_insert_eq].
    rw lookup_insert_ne //. by rw lookup_insert_ne.
  - intros zs k E Hk. exists ys. rw lookup_insert_ne // lookup_insert_eq. split; [done|]. apply Hel. left. congruence.
  - intros zs k. rw lookup_insert_eq. intros [= <-] [Hk|Hk]%elem_of_app; [left; by exists TL|right].
    apply list_elem_of_singleton in Hk as ->. split; [done|]. exists ys. rw lookup_insert_ne // lookup_insert_eq.
    split; [done|]. apply Hel. by right.
Qed.

Lemma wp_request_tlb_shootdown s m n p d x SM SU xs ys TL (Q : Z → vm_state K → Prop) :
  vm_base s (<[sanit_mapped p := xs ++ 2 * d :: ys]> m) unlocked n → is_Some (v_procs s !! p) → v_blocks s !! d = Some x →
  m !! sanit_mapped p = Some SM → m !! sanit_unmapped p = Some SU → m !! tlb_shootdown_reqs = Some TL →
  (∀ i, i ∈ xs ++ ys ↔ i ∈ SM) → unlinked (2 * d + 1) m →
  (∀ r s' m', vm_base s' m' unlocked n → same_procs s s' → same_core s s' → sanitized m m' p d → Q r s') →
  wp (request_tlb_shootdown p d) Q s.
Proof.
  intros Hb [pr Ep] Ex HM HU HT Hel Hut HQ. set (m1 := <[sanit_mapped p := _]> m) in *.
  assert (m1 !! sanit_mapped p = Some (xs ++ 2 * d :: ys)) as HM1 by apply lookup_insert_eq.
  assert (m1 !! sanit_unmapped p = Some SU) as HU1 by (rw lookup_insert_ne //; rw /sanit_unmapped /sanit_mapped; lia).
  assert (m1 !! tlb_shootdown_reqs = Some TL) as HT1 by (rw lookup_insert_ne //; rw /tlb_shootdown_reqs /sanit_mapped; lia).
  rw /request_tlb_shootdown. destruct (env_num_cpus <=? 1).
  - wp_step. eapply wp_get_proc; [exact Ep|]. wp_step. eapply wp_get_blk; [exact Ex|]. wp_step. apply wp_on_env.
    eapply wp_mono; [exact (invalidate_ok _ _ _ _ _ _ (vb_env _ _ _ _ Hb))|]. intros [] k He.
    assert (vm_base (set_v_env k s) m1 unlocked n) as Hb1 by (destruct Hb as [? ? ? ? ?]; by split).
    wp_step. eapply wp_vm_move_to_sanit_unmapped; [exact Hb1|done|done|by exists pr|exact Ex|exact HM1|exact HU1|].
    intros s1 Hb2 Eb2 Hs2 _. wp_step. eapply HQ; [exact Hb2|exact Hs2|intros i; by rw Eb2|].
    rw /m1 insert_insert_eq. apply (sanitized_one m p d SM SU); [done|done|by rw HT|done].
  - wp_step. eapply wp_upd_blk; [exact Ex|]. set (s1 := upd_v_blocks _ s).
    assert (vm_base s1 m1 unlocked n) as Hb1 by (by eapply vm_base_upd_blk).
    wp_step. eapply wp_vm_access; [exact Hb1|exact HT1|]. intros s2 Hb2 Eb2 Ep2 Hi2.
    rw /alloc_tlb_shootdown_seq. do 7 wp_step.
    eapply wp_upd_blk; [cbn; rw Eb2; by rw /s1; blk_simpl|]. set (s3 := upd_v_blocks _ _).
    assert (vm_base (set_v_tlb_seq (ulong (v_tlb_seq s2 + 1)) s2) m1 (holding tlb_shootdown_reqs (v_int s1)) n) as Hb2'
      by (destruct Hb2 as [? ? ? ? ?]; by split).
    assert (vm_base s3 m1 (holding tlb_shootdown_reqs (v_int s1)) n) as Hb3
      by (eapply vm_base_upd_blk; [exact Hb2'|cbn; rw Eb2; by rw /s1; blk_simpl]).
    assert (d ∈ dom (v_blocks s3)) as Hd by (apply elem_of_dom; rw /s3; blk_simpl; eauto).
    apply wp_on_lists. eapply wp_rep_push_back; [apply Hb3|exact HT1|apply holding_locked|apply (vb_live _ _ _ _ Hb3 d Hd)|..].
    { intros l zs. rw /m1 lookup_insert. case_decide; [|apply Hut]. intros [= <-]. rw elem_of_app elem_of_cons.
      intros Hk. assert (2 * d + 1 ∈ SM) as Hin; [|by apply (Hut _ _ HM)].
      apply Hel. rw elem_of_app. destruct Hk as [|[|]]; [by left|lia|by right]. }
    intros h' Hok. split; [done|]. eexists _, n, _. split; [|split; [apply lookup_insert_eq|]].
    { eapply vm_base_rep; [exact Hb3|exact Hok|]. apply (vb_dom_insert s3 m1 (holding tlb_shootdown_reqs (v_int s1)) n); [exact Hb3|]. intros k [Hk|Hk]%elem_of_app.
      - by apply (vb_dom _ _ _ _ Hb3 _ _ k HT1).
      - apply list_elem_of_singleton in Hk as ->. right. by rw (_ : (2 * d + 1) / 2 = d); [zdiv|]. }
    intros s4 Hb4 Eb4 Ep4 Hi4. wp_step. eapply HQ; [exact Hb4|intros q; by rw Ep4 /= Ep2| |].
    + intros i. rw Eb4 /s3. cbn. rw Eb2. cbn. destruct (decide (d = i)) as [<-|Hne]; [rw lookup_insert_eq Ex; done|].
      rw lookup_insert_ne //. by rw lookup_insert_ne.
    + apply (sanitized_many m p d SM SU TL); [done..|]. intros i. rw -Hel !elem_of_app elem_of_cons. tauto.
Qed.
End Sanitize.

Section FreeBlock.
Context `{Harch : Arch} {K : Type} `{Henv : VmEnv K} `{!VmEnvLaws K}.
Implicit Types (s : vm_state K) (m : gmap Z (list Z)).

Lemma wp_sanitize s m n p d x SM SU TL (Q : Z → vm_state K → Prop) :
  vm_base s m unlocked n → is_Some (v_procs s !! p) → v_blocks s !! d = Some x →
  m !! sanit_mapped p = Some SM → m !! sanit_unmapped p = Some SU → m !! tlb_shootdown_reqs = Some TL →
  unlinked (2 * d) m → unlinked (2 * d + 1) m →
  (∀ s' m', vm_base s' m' unlocked n → same_procs s s' → same_core s s' → sanitized m m' p d → Q 0 s') →
  wp (insert_block (sanit_mapped p) d;; request_tlb_shootdown p d;; mret 0) Q s.
Proof.
  intros Hb Hp Ex HM HU HT Hu Hu' HQ. wp_step. eapply wp_insert_block; [exact Hb|exact HM|exact Ex|done|].
  intros g zs Hzs Hb1. assert (2 * d ∈ zs) as Hin by (apply Hzs; by right).
  apply list_elem_of_split in Hin as (xs & ys & ->).
  assert (∀ i, i ∈ xs ++ ys ↔ i ∈ SM) as Hel.
  { pose proof (il_nodup _ _ _ (rep_is_list _ _ _ _ _ (vb_rep _ _ _ _ Hb1) (lookup_insert_eq _ _ _))) as Hnd.
    apply NoDup_app in Hnd as (_ & Hd & Hn). apply NoDup_cons in Hn as [Hn _].
    intros i. specialize (Hzs i). rw elem_of_app elem_of_cons in Hzs. rw elem_of_app.
    destruct (decide (i = 2 * d)) as [->|]; [|naive_solver]. split; [|intros HS; by apply (Hu _ _ HM) in HS].
    intros [Hi|Hi]; [exfalso; apply (Hd _ Hi); left|done]. }
  wp_step. eapply (wp_request_tlb_shootdown (set_lists g s) m n p d x SM SU xs ys TL); try done.
Qed.

(** The part of [_vm_free_removed_block] that picks the block to sanitize. *)
Lemma wp_reuse_pick s m n p b x R (Q : option Z → vm_state K → Prop) :
  vm_base s m unlocked n → v_blocks s !! b = Some x → m !! reuse_mapped p = Some R → unlinked (2 * b) m →
  (∀ k, k ∈ R → ∃ d, k = 2 * d) →
  (∀ s' od R', vm_base s' (<[reuse_mapped p := R']> m) unlocked n → v_blocks s' = v_blocks s → v_procs s' = v_procs s →
     match od with
     | Some d => (2 * d ∈ R ∨ d = b) ∧ unlinked (2 * d) (<[reuse_mapped p := R']> m) ∧ ∀ i, i ∈ R ∨ i = 2 * b ↔ i ∈ R' ∨ i = 2 * d
     | None => ∀ i, i ∈ R' ↔ i ∈ R ∨ i = 2 * b
     end → Q od s') →
  wp (list_access_exclusive (reuse_mapped p) (
        blocks ← gets v_blocks;
        on_lists (list_insert_sorted (reuse_mapped p) (blk_node b) (list_compare blocks));;
        c ← on_lists (get_count (reuse_mapped p));
        if 0 <? c then
          n ← on_lists (list_pop_front (reuse_mapped p));
          d ← lift_outcome (blk_of n);
          mret (Some d)
        else mret None)) Q s.
Proof.
  intros Hb Ex HR Hu Heven HQ. assert (b ∈ dom (v_blocks s)) as Hbd by (by apply elem_of_dom_2 in Ex).
  eapply wp_vm_access; [exact Hb|exact HR|]. intros s1 Hb1 Eb1 Ep1 Hi1. wp_step. wp_step. wp_step. apply wp_on_lists.
  rw -Eb1 in Hbd. eapply wp_rep_insert_sorted; [apply Hb1|exact HR|apply holding_locked|apply (vb_live _ _ _ _ Hb1 b Hbd)|done|..].
  { intros z _. destruct (list_compare_total (v_blocks s1) (2 * b) z); auto. }
  set (R1 := sorted_insert _ _ R). assert (∀ i, i ∈ R1 ↔ i ∈ R ∨ i = 2 * b) as HR1 by (intros i; apply elem_of_sorted_insert).
  intros h1 Hok1. wp_step. set (s2 := set_lists h1 s1). set (lk := holding _ _) in *.
  assert (∀ R2, (∀ i, i ∈ R2 → i ∈ R1) → ∀ l xs k, <[reuse_mapped p := R2]> m !! l = Some xs → k ∈ xs → k < 0 ∨ k / 2 ∈ dom (v_blocks s1)) as Hdom.
  { intros R2 Hsub. apply (vb_dom_insert s1 m lk n); [done|]. intros k [Hk| ->]%Hsub%HR1.
    - by apply (vb_dom _ _ _ _ Hb1 _ _ k HR).
    - right. by rw (_ : 2 * b / 2 = b); [zdiv|]. }
  assert (vm_base s2 (<[reuse_mapped p := R1]> m) lk n) as Hb2 by (eapply vm_base_rep; [exact Hb1|exact Hok1|by apply Hdom]).
  apply wp_on_lists. eapply wp_rep_count; [apply Hb2|apply lookup_insert_eq|]. rw set_lists_same.
  destruct (0 <? _).
  - wp_step. apply wp_on_lists. eapply wp_rep_pop_front; [apply Hb2|apply lookup_insert_eq|apply holding_locked|].
    rw insert_insert_eq. destruct R1 as [|k R1'] eqn:ER1.
    { assert (2 * b ∈ []) as ?%elem_of_nil by (apply HR1; by right). done. }
    intros h2 Hok2. cbn [head tail ptr_of] in Hok2 |- *.
    assert (∃ d, k = 2 * d) as [d ->].
    { destruct (proj1 (HR1 k) ltac:(left)) as [Hk| ->]; [by apply Heven|by exists b]. }
    wp_step. eapply wp_lift; [reflexivity|]. wp_step. rw (_ : 2 * d / 2 = d); [zdiv|].
    split; [done|]. exists (<[reuse_mapped p := R1']> m), n, R1'.
    split; [eapply vm_base_rep; [exact Hb2|exact Hok2|]; apply Hdom; by right|].
    split; [apply lookup_insert_eq|]. intros s3 Hb3 Eb3 Ep3 Hi3. apply (HQ s3 (Some d) R1'); [done|by rw Eb3 /= Eb1|by rw Ep3 /= Ep1|].
    split; [|split].
    + destruct (proj1 (HR1 (2 * d)) ltac:(left)) as [?|?]; [by left|right; lia].
    + pose proof (removed_unlinked _ _ _ _ [] _ _ (vb_rep _ _ _ _ Hb2) (lookup_insert_eq _ _ _)) as Hrm.
      by rw insert_insert_eq in Hrm.
    + intros i. rw -HR1 elem_of_cons. tauto.
  - wp_step. split; [done|]. exists (<[reuse_mapped p := R1]> m), n, R1. split; [done|]. split; [apply lookup_insert_eq|].
    intros s3 Hb3 Eb3 Ep3 Hi3. apply (HQ s3 None R1); [done|by rw Eb3 /= Eb1|by rw Ep3 /= Ep1|done].
Qed.
End FreeBlock.

Section FreeMain.
Context `{Harch : Arch} {K : Type} `{Henv : VmEnv K} `{!VmEnvLaws K}.
Implicit Types (s : vm_state K) (m : gmap Z (list Z)).

(** The shootdown queue after some block of [p] may have been sanitized. *)
Lemma tlb_moved s s' m m2 m' n p d x : vm_inv s m n → same_core s s' → v_blocks s !! d = Some x → b_proc x = p →
  (∀ l, (∀ j, j = 5 ∨ j = 6 → l ≠ 8 * p + j) → m2 !! l = m !! l) → sanitized m2 m' p d →
  ∀ xs k, m' !! tlb_shootdown_reqs = Some xs → k ∈ xs →
    ∃ b x, k = 2 * b + 1 ∧ v_blocks s' !! b = Some x ∧ ∃ ys, m' !! sanit_mapped (b_proc x) = Some ys ∧ 2 * b ∈ ys.
Proof.
  intros Hi Hc Ex Hxp Hm2 Hsn xs k Hl Hk.
  assert (∀ q, m2 !! sanit_mapped q = m !! sanit_mapped q) as Esm by (intros q; apply Hm2; rw /sanit_mapped; lia).
  assert (m2 !! tlb_shootdown_reqs = m !! tlb_shootdown_reqs) as Etl by (apply Hm2; rw /tlb_shootdown_reqs; lia).
  destruct (sn_tlb _ _ _ _ Hsn xs k Hl Hk) as [(xs0 & Hl0 & Hk0)|(-> & ys' & Hys & Hin)].
  - rw Etl in Hl0. destruct (vi_tlb _ _ _ _ Hi _ _ Hl0 Hk0) as (b & z & -> & Ez & ys & Hys & Hin).
    destruct (core_lookup _ _ _ _ (Hc b) Ez) as (z' & Ez' & Ep & _). exists b, z'. split; [done|]. split; [done|]. rw Ep.
    destruct (decide (b_proc z = p)) as [E|Hne].
    + rw E in Hys |- *. apply (sn_grow _ _ _ _ Hsn ys); [by rw Esm|done].
    + exists ys. split; [|done]. rw (sn_other _ _ _ _ Hsn); [rw /sanit_mapped; lia|rw /sanit_mapped /sanit_unmapped; lia
        |rw /sanit_mapped /tlb_shootdown_reqs; lia|]. by rw Esm.
  - destruct (core_lookup _ _ _ _ (Hc d) Ex) as (z' & Ez' & Ep & _). exists d, z'. split; [done|]. split; [done|].
    rw Ep Hxp. by exists ys'.
Qed.

(** The invariant once a released block has been sanitized. *)
Lemma sanitized_inv s s' m m2 m' n n' p pr d x : vm_inv s m n → v_procs s !! p = Some pr → vm_base s' m' unlocked n' →
  same_procs s s' → same_core s s' → v_blocks s !! d = Some x → b_proc x = p →
  (∀ l, (∀ j, j = 5 ∨ j = 6 → l ≠ 8 * p + j) → m2 !! l = m !! l) →
  is_Some (m2 !! reuse_mapped p) → is_Some (m2 !! inuse_mapped p) →
  (∀ k, on_proc m p k ↔ on_proc m2 p k ∨ k = 2 * d) → sanitized m2 m' p d → vm_inv s' m' n'.
Proof.
  intros Hi Ep Hb Hs Hc Ex Hxp Hm2 HR HI Hon Hsn. pose proof (vi_space _ _ _ _ Hi _ _ Ep) as Hsp.
  destruct (sn_lists _ _ _ _ Hsn) as (H4 & H3 & H0').
  eapply (vm_inv_move s s' m m' _ _ _ _ p pr Hi Hb Hs Ep).
  - intros l Hl Hl0. rw (sn_other _ _ _ _ Hsn); [specialize (Hl 4); rw /sanit_mapped; lia|specialize (Hl 3); rw /sanit_unmapped; lia|done|].
    apply Hm2. intros j Hj. apply Hl. lia.
  - done.
  - intros j Hj. assert (j = 3 ∨ j = 4 ∨ j = 2 ∨ j = 5 ∨ j = 6) as [->|[->|Hj']] by lia; [done|done|].
    rw (sn_other _ _ _ _ Hsn); [rw /sanit_mapped; lia|rw /sanit_unmapped; lia|rw /tlb_shootdown_reqs; lia|].
    destruct Hj' as [->|[->| ->]]; [|done|done]. rw Hm2; [lia|]. apply (sp_lists _ _ _ _ _ Hsp). lia.
  - intros k. by rw (sn_on _ _ _ _ Hsn) Hon.
  - exact (tlb_moved s s' m m2 m' n p d x Hi Hc Ex Hxp Hm2 Hsn).
  - done.
Qed.

End FreeMain.

(** A block [b] has just been taken off the in-use list of [p]. *)
Section FreeRemoved.
Context `{Harch : Arch} {K : Type} `{Henv : VmEnv K} `{!VmEnvLaws K}.
Context (s : vm_state K) (m : gmap Z (list Z)) (n : nat) (p : Z) (pr : vm_proc) (b : Z) (I1 I2 : list Z).
Hypothesis Hi : vm_inv s m n.
Hypothesis Ep : v_procs s !! p = Some pr.
Hypothesis HI : m !! inuse_mapped p = Some (I1 ++ 2 * b :: I2).

Let m1 : gmap Z (list Z) := <[inuse_mapped p := I1 ++ I2]> m.

Lemma fr_good j xs k : 2 ≤ j ≤ 6 → m !! (8 * p + j) = Some xs → k ∈ xs →
  ∃ d y, k = 2 * d ∧ v_blocks s !! d = Some y ∧ b_proc y = p ∧ (j ≠ 4 → unlinked (2 * d + 1) m).
Proof.
  intros Hj Hl Hk. pose proof (vi_space _ _ _ _ Hi _ _ Ep) as Hsp.
  destruct (sp_good _ _ _ _ _ Hsp k) as (d & y & -> & Ey & Hy & _); [by exists j, xs|].
  assert (0 ≤ d) as Hd by (apply (vb_live _ _ _ _ (vi_base _ _ _ _ Hi) d); by apply elem_of_dom_2 in Ey).
  exists d, y. split_and!; try done. intros Hj4. exact (tlb_unlinked s m _ n p j xs d y Hi Hl Hk Hd Hj Hj4 Ey).
Qed.

Lemma fr_block : ∃ x, v_blocks s !! b = Some x ∧ b_proc x = p ∧ unlinked (2 * b + 1) m.
Proof.
  destruct (fr_good 6 _ (2 * b) ltac:(lia) HI) as (d & y & E & Ey & Hy & Hu); [apply elem_of_app; right; left|].
  assert (d = b) as -> by lia. exists y. split_and!; try done. by apply Hu.
Qed.

Lemma fr_list l : l ≠ inuse_mapped p → m1 !! l = m !! l.
Proof. intros Hl. by rw /m1 lookup_insert_ne; [congruence|]. Qed.

Lemma fr_list56 l : (∀ j, j = 5 ∨ j = 6 → l ≠ 8 * p + j) → m1 !! l = m !! l.
Proof. intros Hl. apply fr_list. specialize (Hl 6). rw /inuse_mapped. lia. Qed.

Lemma fr_unlinked : unlinked (2 * b) m1.
Proof. exact (removed_unlinked _ _ _ _ _ _ _ (vb_rep _ _ _ _ (vi_base _ _ _ _ Hi)) HI). Qed.

Lemma fr_unlinked_mono k : unlinked k m → unlinked k m1.
Proof.
  intros Hu l xs. rw /m1 lookup_insert. case_decide; [|apply Hu]. intros [= <-] Hk. apply (Hu _ _ HI).
  rw elem_of_app in Hk. rw elem_of_app elem_of_cons. tauto.
Qed.

Lemma fr_on k : on_proc m p k ↔ on_proc m1 p k ∨ k = 2 * b.
Proof.
  assert (on_proc m p (2 * b)) as Hb.
  { exists 6, (I1 ++ 2 * b :: I2). split; [lia|]. split; [done|]. apply elem_of_app. right. left. }
  rw (on_proc_change (v_lists s) m unlocked p 6 (I1 ++ 2 * b :: I2) (I1 ++ I2) [2 * b] []); [apply Hi|lia|exact HI|..].
  - intros i ->%list_elem_of_singleton. apply elem_of_app. right. left.
  - intros i. rw !elem_of_app elem_of_cons elem_of_nil list_elem_of_singleton.
    pose proof (fr_unlinked _ _ (lookup_insert_eq _ _ _)) as Hnb.
    rw elem_of_app in Hnb. destruct (decide (i = 2 * b)) as [->|]; naive_solver.
  - rw elem_of_nil list_elem_of_singleton. destruct (decide (k = 2 * b)) as [->|]; tauto.
Qed.

(** The lists a released block can enter. *)
Lemma fr_lists : ∃ SU SM R TL, m !! sanit_unmapped p = Some SU ∧ m !! sanit_mapped p = Some SM ∧
  m !! reuse_mapped p = Some R ∧ m !! tlb_shootdown_reqs = Some TL.
Proof.
  pose proof (vi_space _ _ _ _ Hi _ _ Ep) as Hsp.
  destruct (sp_lists _ _ _ _ _ Hsp 3 ltac:(lia)) as [SU HSU]. destruct (sp_lists _ _ _ _ _ Hsp 4 ltac:(lia)) as [SM HSM].
  destruct (sp_lists _ _ _ _ _ Hsp 5 ltac:(lia)) as [R HR]. destruct (vi_tlb_list _ _ _ _ Hi) as [TL HTL].
  by exists SU, SM, R, TL.
Qed.

(** What releasing the block promises. *)
Definition released (s' : vm_state K) : Prop := ∃ m', vm_inv s' m' n ∧ same_procs s s' ∧ same_core s s' ∧
  m' !! inuse_mapped p = Some (I1 ++ I2).

(** Block [d] is sanitized, [m2] being the lists without it. *)
Lemma wp_release_block s2 m2 d y (Q : Z → vm_state K → Prop) : vm_base s2 m2 unlocked n → same_procs s s2 → same_core s s2 →
  v_blocks s2 !! d = Some y → b_proc y = p → (∀ l, (∀ j, j = 5 ∨ j = 6 → l ≠ 8 * p + j) → m2 !! l = m !! l) →
  is_Some (m2 !! reuse_mapped p) → m2 !! inuse_mapped p = Some (I1 ++ I2) →
  (∀ k, on_proc m p k ↔ on_proc m2 p k ∨ k = 2 * d) → unlinked (2 * d) m2 → unlinked (2 * d + 1) m2 →
  (∀ s', released s' → Q 0 s') →
  wp (insert_block (sanit_mapped p) d;; request_tlb_shootdown p d;; mret 0) Q s2.
Proof.
  intros Hb2 Hs2 Hc2 Ey Hyp E2 HR2 HI2 Hon Hu Hu' HQ. destruct fr_lists as (SU & SM & R & TL & HSU & HSM & HR & HTL).
  destruct (same_procs_lookup _ _ _ _ Hs2 Ep) as (pr2 & Ep2 & _).
  eapply (wp_sanitize s2 m2 n p d y SM SU TL); [exact Hb2|by rw Ep2|done|rw E2; [rw /sanit_mapped; lia|exact HSM]
    |rw E2; [rw /sanit_unmapped; lia|exact HSU]|rw E2; [rw /tlb_shootdown_reqs; lia|exact HTL]|done|done|].
  intros s3 m3 Hb3 Hs3 Hc3 Hsn. apply HQ. exists m3.
  assert (same_procs s s3) as Hs3' by (etrans; [exact Hs2|exact Hs3]). assert (same_core s s3) as Hc3' by (etrans; [exact Hc2|exact Hc3]).
  destruct (core_lookup _ _ _ _ (eq_sym (Hc2 d)) Ey) as (y0 & Ey0 & Hyp0 & _).
  split; [|split; [done|split; [done|]]].
  - eapply (sanitized_inv s s3 m m2 m3 n n p pr d y0 Hi Ep); try done. congruence.
  - rw (sn_other _ _ _ _ Hsn); [rw /inuse_mapped /sanit_mapped; lia|rw /inuse_mapped /sanit_unmapped; lia|rw /inuse_mapped /tlb_shootdown_reqs; lia|done].
Qed.

(** The block the reuse list gives up. *)
Lemma fr_reuse_on R R' d k : m !! reuse_mapped p = Some R → (∀ i, i ∈ R ∨ i = 2 * b ↔ i ∈ R' ∨ i = 2 * d) →
  2 * d ∈ R ∨ d = b → unlinked (2 * d) (<[reuse_mapped p := R']> m1) →
  on_proc m p k ↔ on_proc (<[reuse_mapped p := R']> m1) p k ∨ k = 2 * d.
Proof.
  intros HR Hset Hd Hud. assert (reuse_mapped p ≠ inuse_mapped p) as Hne by (rw /reuse_mapped /inuse_mapped; lia).
  assert (m1 !! reuse_mapped p = Some R) as HR1 by by rw fr_list.
  pose proof (Hud _ _ (lookup_insert_eq _ _ _)) as HdR'. pose proof (fr_unlinked _ _ HR1) as HbR.
  rw fr_on. split.
  - intros [(j & xs & Hj & Hl & Hk)| ->].
    + destruct (decide (8 * p + j = reuse_mapped p)) as [E|E].
      * rw E HR1 in Hl. injection Hl as <-. destruct (proj1 (Hset k) ltac:(by left)) as [Hk'|]; [|by right].
        left. exists 5, R'. split; [lia|]. split; [apply lookup_insert_eq|done].
      * left. exists j, xs. split; [done|]. split; [|done]. by rw lookup_insert_ne; [congruence|].
    + destruct (proj1 (Hset (2 * b)) ltac:(by right)) as [Hk'|]; [|by right].
      left. exists 5, R'. split; [lia|]. split; [apply lookup_insert_eq|done].
  - intros [(j & xs & Hj & Hl & Hk)| ->].
    + destruct (decide (8 * p + j = reuse_mapped p)) as [E|E].
      * rw E lookup_insert_eq in Hl. injection Hl as <-. destruct (proj2 (Hset k) ltac:(by left)) as [Hk'|]; [|by right].
        left. exists 5, R. split; [lia|]. split; [exact HR1|done].
      * rw lookup_insert_ne in Hl; [congruence|]. left. by exists j, xs.
    + destruct Hd as [Hd| ->]; [|by right]. left. exists 5, R. split; [lia|]. split; [exact HR1|done].
Qed.

(** A thread block goes to the reuse list, which may give up its first block. *)
Lemma wp_free_removed_thread s1 x R (Q : Z → vm_state K → Prop) :
  vm_base s1 m1 unlocked n → v_blocks s1 = v_blocks s → v_procs s1 = v_procs s → v_blocks s !! b = Some x →
  m !! reuse_mapped p = Some R → (∀ s', released s' → Q 0 s') →
  wp (b_sanit ← list_access_exclusive (reuse_mapped p) (
        blocks ← gets v_blocks;
        on_lists (list_insert_sorted (reuse_mapped p) (blk_node b) (list_compare blocks));;
        c ← on_lists (get_count (reuse_mapped p));
        if 0 <? c then
          n ← on_lists (list_pop_front (reuse_mapped p));
          d ← lift_outcome (blk_of n);
          mret (Some d)
        else mret None);
      match b_sanit with
      | Some d => insert_block (sanit_mapped p) d;; request_tlb_shootdown p d;; mret 0
      | None => mret 0
      end) Q s1.
Proof.
  intros Hb1 Eb1 Ep1 Ex HR HQ. assert (reuse_mapped p ≠ inuse_mapped p) as Hne by (rw /reuse_mapped /inuse_mapped; lia).
  assert (m1 !! reuse_mapped p = Some R) as HR1 by by rw fr_list.
  wp_step. eapply (wp_reuse_pick s1 m1 n p b x R); [exact Hb1|by rw Eb1|done|apply fr_unlinked| |].
  { intros k Hk. destruct (fr_good 5 _ _ ltac:(lia) HR Hk) as (d & y & -> & _). by exists d. }
  intros s2 od R' Hb2 Eb2 Ep2 Hod. set (m2 := <[reuse_mapped p := R']> m1) in *.
  assert (∀ l, (∀ j, j = 5 ∨ j = 6 → l ≠ 8 * p + j) → m2 !! l = m !! l) as E2.
  { intros l Hl. rw /m2 lookup_insert_ne; [specialize (Hl 5); rw /reuse_mapped; lia|]. by apply fr_list56. }
  assert (m2 !! inuse_mapped p = Some (I1 ++ I2)) as HI2 by (rw /m2 lookup_insert_ne //; apply lookup_insert_eq).
  assert (same_procs s s2 ∧ same_core s s2) as [Hs2 Hc2] by (split; intros q; by rw ?Ep2 ?Ep1 ?Eb2 ?Eb1).
  destruct od as [d|].
  - destruct Hod as (Hd & Hud & Hset).
    assert (∃ y, v_blocks s !! d = Some y ∧ b_proc y = p ∧ unlinked (2 * d + 1) m) as (y & Ey & Hyp & Hud').
    { destruct Hd as [Hd| ->]; [|apply fr_block]. destruct (fr_good 5 _ _ ltac:(lia) HR Hd) as (d' & y & E & Ey & Hy & Hu).
      assert (d' = d) as -> by lia. exists y. split_and!; try done. by apply Hu. }
    apply (wp_release_block s2 m2 d y); try done.
    + by rw Eb2 Eb1.
    + exists R'. apply lookup_insert_eq.
    + intros k. by apply (fr_reuse_on R).
    + intros l xs. rw /m2 lookup_insert. case_decide; [|by apply fr_unlinked_mono]. intros [= <-] Hk.
      destruct (proj2 (Hset (2 * d + 1)) ltac:(by left)) as [Hk'|Hk']; [|lia]. by apply (Hud' _ _ HR).
  - wp_step. apply HQ. exists m2. split; [|done]. pose proof (vi_space _ _ _ _ Hi _ _ Ep) as Hsp.
    eapply (vm_inv_move s s2 m m2 _ _ _ _ p pr Hi Hb2 Hs2 Ep); [|done|..].
    + intros l Hl _. apply E2. intros j Hj. apply Hl. lia.
    + intros j Hj. destruct (decide (j = 5)) as [->|]; [rw /m2 lookup_insert_eq; by eexists|].
      destruct (decide (j = 6)) as [->|]; [by exists (I1 ++ I2)|]. rw E2; [lia|]. by apply (sp_lists _ _ _ _ _ Hsp).
    + intros k. rw (on_proc_add m1 p 5 R R' (2 * b)); [lia|exact HR1|exact Hod|]. by rw fr_on.
    + rw E2; [rw /tlb_shootdown_reqs; lia|]. intros xs k Hl Hk. destruct (vi_tlb _ _ _ _ Hi xs k Hl Hk) as (c & z & -> & Ez & ys & Hys & Hc).
      exists c, z. rw Eb2 Eb1. split; [done|]. split; [done|]. exists ys. by rw E2; [rw /sanit_mapped; lia|].
    + rw E2; [rw /tlb_shootdown_reqs; lia|]. apply Hi.
Qed.

Lemma wp_free_removed s1 (Q : Z → vm_state K → Prop) :
  vm_base s1 m1 unlocked n → v_blocks s1 = v_blocks s → v_procs s1 = v_procs s → (∀ s', released s' → Q 0 s') →
  wp (_vm_free_removed_block p b) Q s1.
Proof.
  intros Hb1 Eb1 Ep1 HQ. destruct fr_block as (x & Ex & Hxp & Hub'). destruct fr_lists as (SU & SM & R & TL & HSU & HSM & HR & HTL).
  rw /_vm_free_removed_block. wp_step. eapply wp_get_blk; [rw Eb1; exact Ex|].
  destruct (bool_decide _); [by apply (wp_free_removed_thread s1 x R)|].
  wp_step. wp_step. apply (wp_release_block s1 m1 b x); try done.
  - intros q. by rw Ep1.
  - intros q. by rw Eb1.
  - by rw Eb1.
  - apply fr_list56.
  - rw fr_list; [rw /reuse_mapped /inuse_mapped; lia|by rw HR].
  - apply lookup_insert_eq.
  - apply fr_on.
  - apply fr_unlinked.
  - by apply fr_unlinked_mono.
Qed.

Lemma wp_vm_free_block (Q : Z → vm_state K → Prop) : (∀ s', released s' → Q 0 s') → wp (vm_free_block p b) Q s.
Proof.
  intros HQ. rw /vm_free_block. wp_step. eapply wp_base_remove; [exact (vi_base _ _ _ _ Hi)|exact HI|done|].
  intros s1 Hb1 Eb1 Ep1 _. by apply wp_free_removed.
Qed.
End FreeRemoved.
