(* ===== verification/VmMove.v ===== *)
(** Sanitized blocks return to the available list, where they are merged with
    their neighbours: [vm_move_sanit_to_avail], [vm_free] and [vm_purge] of
    [src/src/kernel/proc/vm.c] on the states of [VmSpec.v]. *)

From stdpp Require Import base list gmap sorting.
From Stdlib Require Import ZArith Lia.
From Corelib Require Import ssreflect.
From S2P Require Import Prelude Bits Lock Mem List ListSpec ListRep Vm VmSpec.

(** ** Free by address *)

Section FreeBase.
Context `{Harch : Arch} {K : Type} `{Henv : VmEnv K} `{!VmEnvLaws K}.
Implicit Types (s : vm_state K) (m : gmap Z (list Z)).

Lemma vm_inv_base s s' m n : vm_inv s m n → vm_base s' m unlocked n → same_procs s s' → same_core s s' → vm_inv s' m n.
Proof.
  intros Hi Hb Hs Hc. destruct Hi as [Hb0 Hsp Ht Hw Htl Ho]. split; try done.
  - intros q pr' Eq. specialize (Hs q). rw Eq in Hs. destruct (v_procs s !! q) as [pr0|] eqn:E0; [|done].
    injection Hs as -> -> _ _. specialize (Hsp _ _ E0). eapply space_frame; [exact Hsp|apply Hsp|done|]. intros k _. apply Hc.
  - intros xs k Hl Hk. destruct (Ht xs k Hl Hk) as (b & x & -> & Ex & ys & Hy & Hby).
    destruct (core_lookup _ _ _ _ (Hc b) Ex) as (y & Ey & Hp & _). exists b, y. split; [done|]. split; [done|]. rw Hp. eauto.
  - intros q xs k Hl Hk. destruct (Hw q xs k Hl Hk) as [pr0 E0]. destruct (same_procs_lookup _ _ _ _ Hs E0) as (pr' & -> & _). by eexists.
Qed.

(** The block a search by base address finds. *)
Definition with_base s (base : Z) (k : Z) : option Z :=
  match v_blocks s !! (k / 2) with
  | Some x => if b_base x =? base then Some (k / 2) else None
  | None => None
  end.

Lemma wp_vm_free s m n p pr base t x I (Q : Z → vm_state K → Prop) :
  vm_inv s m n → v_procs s !! p = Some pr → m !! inuse_mapped p = Some I → 2 * t ∈ I →
  v_blocks s !! t = Some x → b_base x = base →
  (∀ s' m' I1 I2, vm_inv s' m' n → same_procs s s' → same_core s s' → I = I1 ++ 2 * t :: I2 →
     m' !! inuse_mapped p = Some (I1 ++ I2) → Q 0 s') →
  wp (vm_free p base) Q s.
Proof.
  intros Hi Ep HI Ht Ex Hx HQ. pose proof (vi_base _ _ _ _ Hi) as Hb. pose proof (vi_space _ _ _ _ Hi _ _ Ep) as Hsp.
  assert (∀ k, k ∈ I → ∃ d y, k = 2 * d ∧ k / 2 = d ∧ v_blocks s !! d = Some y ∧ 0 < b_size y ∧ on_proc m p k) as Hg.
  { intros k Hk. assert (on_proc m p k) as Hon by (exists 6, I; split; [lia|]; done).
    destruct (sp_good _ _ _ _ _ Hsp k Hon) as (d & y & -> & Ey & _ & Hy & _). exists d, y. split_and!; try done. zdiv. }
  assert (first_some (with_base s base) I = Some t) as Efs.
  { destruct (first_some (with_base s base) I) as [d|] eqn:E.
    - apply first_some_Some in E as (pre & k & post & EI & Hk & _).
      assert (k ∈ I) as HkI by (rw EI; apply elem_of_app; right; left). destruct (Hg k HkI) as (d' & y & -> & Ed & Ey & Hy & Hon).
      rw /with_base Ed Ey in Hk. destruct (Z.eqb_spec (b_base y) base) as [Eb|]; [|done]. injection Hk as <-.
      destruct (Hg (2 * t) Ht) as (t' & x' & Et & Et2 & Ex' & Hx' & Hont).
      assert (t' = t) as -> by lia. assert (x' = x) as -> by congruence.
      assert (2 * d' = 2 * t) as Edt; [|f_equal; lia].
      apply (proj2 (sp_part _ _ _ _ _ Hsp) _ _ base Hon Hont); rw /rng ?Ed ?Et2; [exists y|exists x]; split; try done; lia.
    - pose proof (first_some_None _ _ E (2 * t) Ht) as E'. rw /with_base (_ : 2 * t / 2 = t) in E'; [zdiv|].
      rw Ex in E'. by destruct (Z.eqb_spec (b_base x) base). }
  rw /vm_free. wp_step. eapply wp_vm_access; [exact Hb|exact HI|]. intros s1 Hb1 Eb1 Ep1 Hint1.
  eapply (wp_find_first s1 m _ _ I _ (with_base s base)); [apply Hb1|exact HI|..].
  - intros k R Hk HR. destruct (Hg k Hk) as (d & y & -> & Ed & Ey & _). rw /with_base Ed Ey in HR.
    wp_step. wp_step; [reflexivity|]. cbv beta iota. rw Ed. wp_step. eapply wp_get_blk; [rw Eb1; exact Ey|]. by wp_step.
  - rw Efs. split; [done|]. exists m, n, I. split; [done|]. split; [done|]. intros s2 Hb2 Eb2 Ep2 _.
    assert (vm_inv s2 m n) as Hi2.
    { apply (vm_inv_base s); [done|done|intros q; by rw Ep2 Ep1|intros q; by rw Eb2 Eb1]. }
    apply list_elem_of_split in Ht as (I1 & I2 & ->).
    eapply (wp_vm_free_block s2 m n p pr t I1 I2); [done|by rw Ep2 Ep1|done|]. intros s3 (m' & Hi3 & Hs3 & Hc3 & HI3).
    apply (HQ s3 m' I1 I2); [done| | |done|done].
    + etrans; [|exact Hs3]. intros q. by rw Ep2 Ep1.
    + etrans; [|exact Hc3]. intros q. by rw Eb2 Eb1.
Qed.
End FreeBase.

(** ** Freeing the pages of a block *)

Section FreePages.
Context `{Harch : Arch} {K : Type} `{Henv : VmEnv K} `{!VmEnvLaws K}.
Implicit Types (s : vm_state K) (m : gmap Z (list Z)).

Lemma alter_lock p v w (procs : gmap Z vm_proc) :
  alter (set_p_lock v) p (alter (set_p_lock w) p procs) = alter (set_p_lock v) p procs.
Proof.
  apply map_eq. intros j. destruct (decide (p = j)) as [<-|]; [|by rw !lookup_alter_ne].
  rw !lookup_alter_eq. by destruct (procs !! p).
Qed.

#[export] Instance page_table_lock_laws p : LockLaws (S := vm_state K) (page_table_lock p).
Proof.
  split; rw /page_table_lock; cbn [lk_get lk_set].
  - intros v s [w E]. cbn. rw lookup_alter_eq. by destruct (v_procs s !! p).
  - intros v w s. destruct s. rw /upd_v_procs. cbn. f_equal. apply alter_lock.
  - intros v s E. destruct s as [l i bl procs q c k]. rw /upd_v_procs. cbn in *. f_equal. apply map_eq. intros j.
    destruct (decide (p = j)) as [<-|]; [|by rw lookup_alter_ne]. rw lookup_alter_eq.
    destruct (procs !! p) as [[]|]; [|done]. cbn in *. by injection E as ->.
  - done.
  - done.
  - done.
Qed.

(** Releasing a page table lock restores the process. *)
Lemma relock_procs p pr (procs : gmap Z vm_proc) v : procs !! p = Some pr → p_page_table_lock pr = SPINLOCK_INIT →
  alter (set_p_lock SPINLOCK_INIT) p (alter (set_p_lock v) p procs) = procs.
Proof.
  intros E El. rw alter_lock. apply map_eq. intros j. destruct (decide (p = j)) as [<-|]; [|by rw lookup_alter_ne].
  rw lookup_alter_eq E. cbn. f_equal. destruct pr. cbn in *. by subst.
Qed.

(** A critical section on the page table of [p] that only changes the
    environment. *)
Lemma wpn_page_table {A} N s m lk n p pr (body : M (vm_state K) A) (Q : A → vm_state K → Prop) :
  vm_base s m lk n → v_procs s !! p = Some pr →
  (∀ s1 pr1, v_procs s1 !! p = Some pr1 → p_page_table pr1 = p_page_table pr → v_env s1 = v_env s →
     wpn N body (λ a s2, ∃ k, s2 = set_v_env k s1 ∧ Q a (set_v_env k s)) s1) →
  wpn N (spinlock_exclusive_int (page_table_lock p) body) Q s.
Proof.
  intros Hb Ep Hf. pose proof (proj1 (vb_proc _ _ _ _ Hb _ _ Ep)) as Elk.
  eapply (wpn_spinlock_exclusive_int (page_table_lock p)); [cbn; by rw Ep /= Elk|done|].
  eapply wpn_mono; [apply (Hf _ (set_p_lock (mk_spinlock true (v_int s)) pr)); [|done|done]; cbn; by rw lookup_alter_eq Ep|done|].
  intros a s2 (k & -> & HQ). split; [cbn; by rw lookup_alter_eq Ep|]. split; [done|].
  eapply eq_ind; [exact HQ|]. destruct s as [l i bl procs q c k0]. cbn in *.
  rw /set_v_int /upd_v_procs /set_v_env. cbn. f_equal. symmetry. exact (relock_procs p pr procs _ Ep Elk).
Qed.

Lemma vm_base_env s m lk n k : vm_base s m lk n → env_inv k (dom (v_blocks s)) n → vm_base (set_v_env k s) m lk n.
Proof. intros [Hr He Hl Hp Hd] Hk. by split. Qed.

Lemma on_env_panic {A} (m : M K A) s : m (v_env s) = Panic → on_env m s = Panic.
Proof. rw /on_env /zoom. by intros ->. Qed.

(** One page is released, or the kernel panics because it cannot be. *)
Lemma wpn_free_page N s m lk n p pr o vaddr prev (Q : Z → vm_state K → Prop) :
  vm_base s m lk n → v_procs s !! p = Some pr → (cannot_release (p_page_table pr) vaddr → N) →
  (∀ a s', vm_base s' m lk n → v_blocks s' = v_blocks s → same_procs s s' → v_int s' = v_int s → Q a s') →
  wpn N (free_page p o vaddr prev) Q s.
Proof.
  intros Hb Ep HN HQ. pose proof (vb_env _ _ _ _ Hb) as He. pose proof (proj2 (vb_proc _ _ _ _ Hb _ _ Ep)) as Hpt.
  destruct (wp_elim _ _ _ (translate_ok _ _ _ _ vaddr He Hpt)) as (a & k1 & Etr & He1).
  rw /free_page. apply wpn_bind. eapply wpn_page_table; [exact Hb|exact Ep|]. intros s1 pr1 Ep1 Ept Ee1.
  apply wpn_wp_bind. eapply wp_get_proc; [exact Ep1|]. rw Ept. apply wpn_wp_bind, wp_on_env. rw Ee1. eapply wp_intro; [exact Etr|].
  apply wpn_bind. destruct (ctrue a && negb (a =? prev)) eqn:Ec.
  - assert (a ≠ 0) as Ha by (intros ->; done). pose proof (unmap_ok _ _ _ _ _ _ _ He Hpt Etr Ha) as Hu. rw /wpp in Hu.
    destruct (env_unmap_range _ _ _ _ k1) as [[r2 k2]| | |] eqn:Eu; [|..|done|done].
    + destruct Hu as [He2 Hpf]. apply wpn_wp. wp_step. apply wp_on_env. eapply wp_intro; [exact Eu|]. wp_step.
      apply wpn_wp. wp_step. exists k2. split; [done|]. rw Ec. destruct o; [|apply wpn_wp; wp_step; wp_step; wp_step; apply HQ; try done; by apply (vm_base_env s)].
      rw /wpp in Hpf. destruct (env_pfree_paddr a k2) as [[r3 k3]| | |] eqn:Ef; [|..|done|done].
      * apply wpn_wp. wp_step. wp_step. apply wp_on_env. eapply wp_intro; [exact Ef|]. eapply wp_upd_proc; [exact Ep|]. wp_step. apply HQ; try done.
        -- apply vm_base_procs; [|done]. exact (vm_base_env s m lk n k3 Hb Hpf).
        -- exact (same_procs_alter (upd_pages ref_dec) p s (λ _, eq_refl)).
      * apply wpn_bind, wpn_bind, wpn_panic; [by apply on_env_panic|]. apply HN. exists (v_env s), (dom (v_blocks s)), n, a, k1.
        split_and!; try done. right. by exists r2, k2.
    + apply wpn_bind, wpn_panic; [by apply on_env_panic|]. apply HN. exists (v_env s), (dom (v_blocks s)), n, a, k1. split_and!; try done. by left.
  - apply wpn_wp. wp_step. apply wpn_wp. wp_step. exists k1. split; [done|]. rw Ec. apply wpn_wp. wp_step. apply HQ; try done. by apply (vm_base_env s).
Qed.

(** All the pages of a block; the offset does not wrap around because the block
    leaves room for a page at the end of the address space. *)
Lemma wpn_free_pages_loop N fuel : ∀ s m lk n p pr b x offset prev (Q : unit → vm_state K → Prop),
  vm_base s m lk n → v_procs s !! p = Some pr → v_blocks s !! b = Some x →
  (∀ a, b_base x ≤ a < b_base x + b_size x → cannot_release (p_page_table pr) a → N) →
  0 ≤ b_base x → b_base x + b_size x < 2 ^ ARCH_WIDTH →
  0 ≤ offset → b_size x + PAGE_SIZE < 2 ^ ARCH_WIDTH → b_size x - offset ≤ Z.of_nat fuel →
  (∀ s', vm_base s' m lk n → v_blocks s' = v_blocks s → same_procs s s' → v_int s' = v_int s → Q tt s') →
  wpn N (free_pages_loop fuel p b offset prev) Q s.
Proof.
  induction fuel as [|fuel IH]; intros s m lk n p pr b x offset prev Q Hb Ep Ex HN Hx0 Hx1 Ho Hsz Hf HQ; cbn [free_pages_loop];
    apply wpn_wp_bind; (eapply wp_get_blk; [exact Ex|]); (destruct (Z.ltb_spec offset (b_size x)); [|apply wpn_wp; wp_step; by apply HQ]); [lia|].
  apply wpn_bind. assert (ulong (b_base x + offset) = b_base x + offset) as -> by (apply wrap_small; rw /uint; lia).
  eapply wpn_free_page; [exact Hb|exact Ep|apply HN; lia|]. intros a s1 Hb1 Eb1 Hs1 Hi1.
  destruct (same_procs_lookup _ _ _ _ Hs1 Ep) as (pr1 & Ep1 & [= _ _ _ Ept]). pose proof PAGE_SIZE_pos.
  assert (ulong (offset + PAGE_SIZE) = offset + PAGE_SIZE) as -> by (apply wrap_small; rw /uint; lia).
  eapply IH; [exact Hb1|exact Ep1|rw Eb1; exact Ex|by rw Ept|done|done|lia|done|lia|]. intros s2 Hb2 Eb2 Hs2 Hi2.
  apply HQ; [done|congruence|etrans; [exact Hs1|exact Hs2]|congruence].
Qed.

Lemma wpn_free_block_pages N s m lk n p pr b x (Q : unit → vm_state K → Prop) :
  vm_base s m lk n → v_procs s !! p = Some pr → v_blocks s !! b = Some x →
  (∀ a, b_base x ≤ a < b_base x + b_size x → cannot_release (p_page_table pr) a → N) →
  0 ≤ b_base x → b_base x + b_size x < 2 ^ ARCH_WIDTH → 0 < b_size x → b_size x + PAGE_SIZE < 2 ^ ARCH_WIDTH →
  (∀ s', vm_base s' m lk n → v_blocks s' = v_blocks s → same_procs s s' → v_int s' = v_int s → Q tt s') →
  wpn N (vm_free_block_pages p b) Q s.
Proof.
  intros Hb Ep Ex HN Hx0 Hx1 Hx Hsz HQ. rw /vm_free_block_pages. apply wpn_wp_bind. eapply wp_get_blk; [exact Ex|].
  eapply wpn_free_pages_loop; [exact Hb|exact Ep|exact Ex|exact HN|done|done|lia|done|lia|done].
Qed.
End FreePages.

(** ** Merging available blocks *)

(** The lists of process [p] that change: the available blocks, and the
    sanitized ones when [w] is true. *)
Definition changes (w : bool) (p l : Z) : Prop := l = avail_unmapped p ∨ w = true ∧ l = sanit_unmapped p.

(** From [s] to [s'] only those lists and their blocks change. *)
Record moved {K} (w : bool) (p : Z) (s : vm_state K) (m : gmap Z (list Z)) (s' : vm_state K) (m' : gmap Z (list Z)) : Prop := {
  mv_procs : same_procs s s';
  mv_lists : ∀ l, ¬ changes w p l → m' !! l = m !! l;
  mv_blocks : ∀ l xs k, ¬ changes w p l → m !! l = Some xs → k ∈ xs →
    v_blocks s' !! (k / 2) = v_blocks s !! (k / 2)
}.

(** Block [d] can be given back. *)
Definition freeable {K} (s : vm_state K) (m : gmap Z (list Z)) (p d : Z) : Prop :=
  ∃ x, v_blocks s !! d = Some x ∧ b_proc x = p ∧ unlinked (2 * d) m ∧ unlinked (2 * d + 1) m.

Section Merge.
Context `{Harch : Arch} {K : Type} `{Henv : VmEnv K} `{!VmEnvLaws K}.
Implicit Types (s : vm_state K) (m : gmap Z (list Z)).

Lemma moved_refl w p s m : moved w p s m s m.
Proof. by split. Qed.

Lemma moved_trans w p s1 m1 s2 m2 s3 m3 : moved w p s1 m1 s2 m2 → moved w p s2 m2 s3 m3 → moved w p s1 m1 s3 m3.
Proof.
  intros [P1 L1 B1] [P2 L2 B2]. split; [etrans; [exact P1|exact P2]| |].
  - intros l ?. by rw L2 // L1.
  - intros l xs k ? Hl Hk. rw (B2 l xs k) // ?(B1 l xs k) //. by rw L1.
Qed.

Lemma moved_mono p s m s' m' : moved false p s m s' m' → moved true p s m s' m'.
Proof.
  intros [Hp Hl Hb]. assert (∀ l, ¬ changes true p l → ¬ changes false p l) as Hc by (intros l Hn [?|[? ?]]; [apply Hn; by left|done]).
  split; [done|intros l ?; by apply Hl, Hc|]. intros l xs k ?. by apply Hb, Hc.
Qed.

Lemma moved_inv w p s m s' m' lk lk' n n' pr : vm_inv_at s m lk n → v_procs s !! p = Some pr → moved w p s m s' m' →
  vm_base s' m' lk' n' → space (v_blocks s') m' p (p_dynamic_start pr) (p_dynamic_end pr) → vm_inv_at s' m' lk' n'.
Proof.
  intros Hi Ep [Hs Hl Hbl] Hb Hsp.
  assert (m' !! tlb_shootdown_reqs = m !! tlb_shootdown_reqs) as Etl
    by (apply Hl; rw /changes /tlb_shootdown_reqs /avail_unmapped /sanit_unmapped; lia).
  eapply (vm_inv_step s s' m m' _ _ _ _ p pr Hi Hb Hs Ep); [| |done|..].
  - intros l Hj _. apply Hl. intros [->|[_ ->]]; [apply (Hj 2)|apply (Hj 3)]; rw /avail_unmapped /sanit_unmapped; lia.
  - intros q k Hq (j & xs & Hj & Hx & Hk). f_equal. apply (Hbl (8 * q + j) xs); [rw /changes /avail_unmapped /sanit_unmapped; lia|done|done].
  - rw Etl. intros xs k Hx Hk. destruct (vi_tlb _ _ _ _ Hi xs k Hx Hk) as (b & x & -> & Ex & ys & Hy & Hby).
    assert (¬ changes w p (sanit_mapped (b_proc x))) as Hne by (rw /changes /sanit_mapped /avail_unmapped /sanit_unmapped; lia).
    exists b, x. split; [done|]. split; [|exists ys; by rw Hl].
    rw -Ex -{1}(_ : 2 * b / 2 = b); [zdiv|]. rw (Hbl (sanit_mapped (b_proc x)) ys) //. f_equal. zdiv.
  - rw Etl. apply Hi.
Qed.

(** Linked blocks of a list other than that of the sanitized ones. *)
Lemma avail_block s m lk n p pr xs k : vm_inv_at s m lk n → v_procs s !! p = Some pr →
  m !! avail_unmapped p = Some xs → k ∈ xs →
  ∃ d x, k = 2 * d ∧ 0 ≤ d ∧ v_blocks s !! d = Some x ∧ b_proc x = p ∧ 0 < b_size x ∧ unlinked (2 * d + 1) m ∧
    p_dynamic_start pr ≤ b_base x ∧ b_base x + b_size x ≤ p_dynamic_end pr.
Proof.
  intros Hi Ep Hl Hk. pose proof (vi_space _ _ _ _ Hi _ _ Ep) as Hsp.
  destruct (sp_good _ _ _ _ _ Hsp k) as (d & x & -> & Ex & ? & ? & ? & ?); [exists 2, xs; split; [lia|]; done|].
  assert (0 ≤ d) as Hd by (apply (vb_live _ _ _ _ (vi_base _ _ _ _ Hi) d); by apply elem_of_dom_2 in Ex).
  exists d, x. split_and!; try done. by eapply (tlb_unlinked s m lk n p 2); eauto; lia.
Qed.

(** A block is in the list of only one process, and its request nowhere. *)
Lemma avail_elsewhere s m lk n p pr xs d x l ys k : vm_inv_at s m lk n → v_procs s !! p = Some pr →
  m !! avail_unmapped p = Some xs → 2 * d ∈ xs → v_blocks s !! d = Some x → l ≠ avail_unmapped p →
  m !! l = Some ys → k ∈ ys → k / 2 ≠ d.
Proof.
  intros Hi Ep Hl Hd Ex Hne Hy Hk E. destruct (avail_block _ _ _ _ _ _ _ _ Hi Ep Hl Hd) as (d' & x' & E' & Hd0 & _ & _ & _ & Hu & _).
  assert (d' = d) as -> by lia. assert (k = 2 * d ∨ k = 2 * d + 1) as [->| ->] by zdiv; [|by apply (Hu _ _ Hy)].
  apply Hne. exact (rep_unique _ _ _ _ _ _ _ _ (vb_rep _ _ _ _ (vi_base _ _ _ _ Hi)) Hy Hl Hk Hd).
Qed.

(** Block [b] has been merged into its predecessor [a] and unlinked. *)
Lemma merged_inv s m lk n p pr xs a b ys x y g :
  let s' := set_lists g (upd_v_blocks <[a := set_b_size (b_size x + b_size y) x]> s) in
  let m' := <[avail_unmapped p := xs ++ 2 * a :: ys]> m in
  vm_inv_at s m lk n → v_procs s !! p = Some pr → m !! avail_unmapped p = Some (xs ++ 2 * a :: 2 * b :: ys) →
  v_blocks s !! a = Some x → v_blocks s !! b = Some y → b_base x + b_size x = b_base y →
  rep_ok (v_lists s) m' lk g →
  vm_inv_at s' m' lk n ∧ moved false p s m s' m' ∧ freeable s' m' p b.
Proof.
  intros s' m' Hi Ep HA Ex Ey Exy Hok. pose proof (vi_base _ _ _ _ Hi) as Hb. pose proof (vi_space _ _ _ _ Hi _ _ Ep) as Hsp.
  assert (2 * a ∈ xs ++ 2 * a :: 2 * b :: ys) as Ha by (apply elem_of_app; right; left).
  assert (2 * b ∈ xs ++ 2 * a :: 2 * b :: ys) as Hbin by (apply elem_of_app; right; right; left).
  destruct (avail_block _ _ _ _ _ _ _ _ Hi Ep HA Ha) as (a' & x' & E1 & _ & Ex' & Hxp & Hxs & Hua & Hx1 & Hx2).
  destruct (avail_block _ _ _ _ _ _ _ _ Hi Ep HA Hbin) as (b' & y' & E2 & Hb0 & Ey' & Hyp & Hys & Hub & Hy1 & Hy2).
  assert (a' = a) as -> by lia. assert (b' = b) as -> by lia. assert (x' = x) as -> by congruence. assert (y' = y) as -> by congruence.
  assert (a ≠ b) as Hab by (intros ->; assert (x = y) by congruence; subst; lia).
  assert (unlinked (2 * b) m') as Hunb.
  { rw /m'. pose proof (removed_unlinked _ _ _ (avail_unmapped p) (xs ++ [2 * a]) (2 * b) ys (vb_rep _ _ _ _ Hb)) as Hu.
    rw -!app_assoc in Hu. by apply Hu. }
  assert (vm_base s' m' lk n) as Hb'.
  { eapply vm_base_rep; [exact (vm_base_upd_blk s m lk n a _ x Hb Ex)|exact Hok|]. cbn. rw dom_insert_lookup_L; [by exists x|].
    apply (vb_dom_insert s m lk n); [done|]. intros k Hk. apply (vb_dom _ _ _ _ Hb _ _ k HA).
    rw elem_of_app elem_of_cons in Hk. rw elem_of_app !elem_of_cons. tauto. }
  assert (moved false p s m s' m') as Hmv.
  { assert (∀ l, ¬ changes false p l → l ≠ avail_unmapped p) as Hch by (intros l Hc ->; apply Hc; by left).
    split; [done|intros l ?%Hch; rw /m' lookup_insert_ne; [congruence|done]|]. intros l zs k Hl%Hch Hz Hk.
    pose proof (avail_elsewhere _ _ _ _ _ _ _ _ _ _ _ _ Hi Ep HA Ha Ex Hl Hz Hk). cbn. by rw lookup_insert_ne; [congruence|]. }
  split; [|split; [done|]].
  - eapply moved_inv; [exact Hi|exact Ep|exact Hmv|exact Hb'|].
    eapply (space_tiles (v_blocks s) _ m m' p _ _ (b_base x) (b_base y + b_size y) [a; b] [a]); [exact Hsp|..].
    + intros j Hj. rw /m' lookup_insert. case_decide; [done|]. by apply (sp_lists _ _ _ _ _ Hsp).
    + intros k. apply (on_proc_change (v_lists s) m lk p 2 (xs ++ 2 * a :: 2 * b :: ys) (xs ++ 2 * a :: ys) (nodes_of [a; b]) (nodes_of [a]) k (vb_rep _ _ _ _ Hb)); [lia|exact HA|..].
      * intros i. cbn. rw !elem_of_cons elem_of_nil. intros [->|[->|[]]]; done.
      * intros i. cbn. rw !elem_of_app !elem_of_cons elem_of_nil.
        pose proof (il_nodup _ _ _ (rep_is_list _ _ _ _ _ (vb_rep _ _ _ _ Hb) HA)) as (_ & Hd & [Hn1 [Hn2 _]%NoDup_cons]%NoDup_cons)%NoDup_app.
        rw elem_of_cons in Hn1. split; [|naive_solver].
        intros [Hx|[->|Hx]]; [|by right; left|].
        -- left. pose proof (Hd i Hx) as Hd'. rw !elem_of_cons in Hd'. naive_solver.
        -- left. split; [by auto|]. intros [->|[->|[]]]; tauto.
    + intros d [->|[->|[]%elem_of_nil]%elem_of_cons]%elem_of_cons; exists 2, (xs ++ 2 * a :: 2 * b :: ys); split; try lia; done.
    + intros d [->|[]%elem_of_nil]%elem_of_cons _. left.
    + intros d _ Hd. cbn. rw lookup_insert_ne //. intros ->. apply Hd. left.
    + exists (b_base y). split; [lia|]. split; [exists x; split_and!; try done; lia|].
      exists (b_base y + b_size y). split; [lia|]. split; [exists y; split_and!; try done; lia|]. done.
    + exists (b_base y + b_size y). split; [lia|]. split; [|done]. eexists. cbn. rw lookup_insert_eq. split; [done|].
      cbn. split_and!; try done; lia.
    + done.
    + done.
  - exists y. cbn. rw lookup_insert_ne //. split_and!; try done. intros l zs. rw /m' lookup_insert. case_decide; [|apply Hub].
    intros [= <-] Hk. apply (Hub _ _ HA). rw elem_of_app elem_of_cons in Hk. rw elem_of_app !elem_of_cons. tauto.
Qed.
End Merge.

Section ListMerge.
Context `{Harch : Arch} {K : Type} `{Henv : VmEnv K} `{!VmEnvLaws K}.
Implicit Types (s : vm_state K) (m : gmap Z (list Z)).

(** The merge callback on two neighbours of the available list: it merges them
    exactly when the first ends where the second begins. *)
Lemma wp_avail_list_merge s m lk n p pr xs ka kb ys (Q : Z → vm_state K → Prop) :
  vm_inv_at s m lk n → v_procs s !! p = Some pr → m !! avail_unmapped p = Some (xs ++ ka :: kb :: ys) →
  Q (-1) s →
  (∀ a b x y, ka = 2 * a → kb = 2 * b → v_blocks s !! a = Some x → v_blocks s !! b = Some y → b_base x + b_size x = b_base y →
     Q 0 (upd_v_blocks <[a := set_b_size (b_size x + b_size y) x]> s)) →
  wp (avail_list_merge (PNode ka) (PNode kb)) Q s.
Proof.
  intros Hi Ep HA HQ1 HQ2. pose proof (vi_space _ _ _ _ Hi _ _ Ep) as Hsp. destruct (sp_bounds _ _ _ _ _ Hsp) as [Hlo Hhi].
  destruct (avail_block _ _ _ _ _ _ _ ka Hi Ep HA) as (a & x & -> & _ & Ex & Hxp & Hxs & _ & Hx1 & Hx2); [apply elem_of_app; right; left|].
  destruct (avail_block _ _ _ _ _ _ _ kb Hi Ep HA) as (b & y & -> & _ & Ey & Hyp & Hys & _ & Hy1 & Hy2); [apply elem_of_app; right; right; left|].
  rw /avail_list_merge. wp_step. wp_step; [reflexivity|]. wp_step. wp_step; [reflexivity|]. cbv beta.
  rw (_ : 2 * a / 2 = a); [zdiv|]. rw (_ : 2 * b / 2 = b); [zdiv|].
  wp_step. eapply wp_get_blk; [exact Ex|]. wp_step. eapply wp_get_blk; [exact Ey|].
  assert (ulong (b_base x + b_size x) = b_base x + b_size x) as -> by (apply wrap_small; rw /uint; lia).
  destruct (Z.eqb_spec (b_base x + b_size x) (b_base y)) as [E|]; [|by wp_step].
  assert (ulong (b_size x + b_size y) = b_size x + b_size y) as -> by (apply wrap_small; rw /uint; lia).
  wp_step. eapply wp_upd_blk; [exact Ex|]. wp_step. by apply (HQ2 a b x y).
Qed.

(** Merging a node with its predecessor: the node that then holds the addresses, and the one to free. *)
Lemma wp_merge_prev s m lk n p pr xs b ys nd (Q : list_ptr * option list_ptr → vm_state K → Prop) :
  vm_inv_at s m lk n → v_procs s !! p = Some pr → locked (lk (avail_unmapped p)) = true →
  m !! avail_unmapped p = Some (xs ++ 2 * b :: ys) → prev nd = last_ptr (PHead (avail_unmapped p)) xs →
  (∀ s' m' xs' c o, vm_inv_at s' m' lk n → moved false p s m s' m' → v_int s' = v_int s →
     m' !! avail_unmapped p = Some (xs' ++ 2 * c :: ys) → (∀ d, o = Some d → freeable s' m' p d ∧ 2 * d ∉ ys) →
     Q (PNode (2 * c), (λ d, PNode (2 * d)) <$> o) s') →
  wp (if bool_decide (prev nd = PHead (avail_unmapped p)) then mret (PNode (2 * b), None) else
      err ← avail_list_merge (prev nd) (PNode (2 * b));
      if ctrue err then mret (PNode (2 * b), None) else
      on_lists (list_remove (avail_unmapped p) (PNode (2 * b)));;
      nd' ← on_lists (get_node (PNode (2 * b)));
      mret (prev nd', Some (PNode (2 * b)))) Q s.
Proof.
  intros Hi Ep Hlk HA -> HQ. pose proof (vb_rep _ _ _ _ (vi_base _ _ _ _ Hi)) as Hr.
  assert (Q (PNode (2 * b), None) s) as HQ0 by (by apply (HQ s m xs b None); [|apply moved_refl|..]).
  destruct (last_ptr_cases xs (avail_unmapped p)) as [[-> ->]|(xs' & ka & -> & ->)]; [rw bool_decide_eq_true_2; [done|]; by wp_step|].
  rw bool_decide_eq_false_2 //. rw -app_assoc in HA. cbn [app] in HA. wp_step.
  eapply wp_avail_list_merge; [exact Hi|exact Ep|exact HA|exact HQ0|].
  intros a b' x y -> Eb' Ex Ey Exy. assert (b' = b) as -> by lia. change (ctrue 0) with false. cbv iota. wp_step. apply wp_on_lists.
  eapply (wp_rep_remove _ m lk _ (xs' ++ [2 * a]) (2 * b) ys); [exact Hr|by rw -app_assoc|done|]. rw -app_assoc.
  intros h' Hok Hpv. destruct (merged_inv _ _ _ _ _ _ _ _ _ _ _ _ h' Hi Ep HA Ex Ey Exy Hok) as (Hi' & Hmv & Hfr).
  wp_step. apply wp_on_lists. rw /prv last_ptr_snoc in Hpv. rw lists_set. destruct (lnodes h' !! PNode (2 * b)) as [nd'|] eqn:End; [|done].
  injection Hpv as Hpv. eapply wp_get_lnode; [exact End|]. cbv beta. rw set_lists_set. wp_step. rw Hpv.
  apply (HQ _ _ xs' a (Some b) Hi' Hmv); [done|by rw lookup_insert_eq|]. intros d [= <-]. split; [done|].
  intros Hin. destruct Hfr as (_ & _ & _ & Hu & _). apply (Hu _ _ (lookup_insert_eq _ _ _)). apply elem_of_app. by right; right.
Qed.

(** Merging a node with its successor. *)
Lemma wp_merge_next s m lk n p pr xs c ys f1 (Q : option list_ptr * option list_ptr → vm_state K → Prop) :
  vm_inv_at s m lk n → v_procs s !! p = Some pr → locked (lk (avail_unmapped p)) = true →
  m !! avail_unmapped p = Some (xs ++ 2 * c :: ys) →
  (∀ s' m' o, vm_inv_at s' m' lk n → moved false p s m s' m' → v_int s' = v_int s → is_Some (m' !! avail_unmapped p) →
     (∀ k, unlinked k m → unlinked k m') → (∀ d, unlinked (2 * d) m → v_blocks s' !! d = v_blocks s !! d) →
     (∀ d, o = Some d → freeable s' m' p d ∧ 2 * d ∈ ys) →
     Q (f1, (λ d, PNode (2 * d)) <$> o) s') →
  wp (nd2 ← on_lists (get_node (PNode (2 * c)));
      if bool_decide (next nd2 = PTail (avail_unmapped p)) then mret (f1, None) else
      err ← avail_list_merge (PNode (2 * c)) (next nd2);
      if ctrue err then mret (f1, None) else
      nd3 ← on_lists (get_node (PNode (2 * c)));
      let nn := next nd3 in
      on_lists (list_remove (avail_unmapped p) nn);;
      mret (f1, Some nn)) Q s.
Proof.
  intros Hi Ep Hlk HA HQ. pose proof (vb_rep _ _ _ _ (vi_base _ _ _ _ Hi)) as Hr. pose proof (rep_is_list _ _ _ _ _ Hr HA) as Hil.
  wp_step. apply wp_on_lists. apply (wp_node_at _ (avail_unmapped p) xs (2 * c) ys); [done|]. intros nd _ ->. rw set_lists_same.
  assert (Q (f1, None) s) as HQ0 by (by apply (HQ s m None); [|apply moved_refl|..]).
  destruct (first_ptr_cases ys (avail_unmapped p)) as [[-> ->]|(kd & ys' & -> & ->)]; [rw bool_decide_eq_true_2; [done|]; by wp_step|].
  rw bool_decide_eq_false_2 //. wp_step. eapply wp_avail_list_merge; [exact Hi|exact Ep|exact HA|exact HQ0|].
  intros c' d x y Ec' -> Ex Ey Exy. assert (c' = c) as -> by lia. change (ctrue 0) with false. cbv iota. wp_step. apply wp_on_lists.
  apply (wp_node_at _ (avail_unmapped p) xs (2 * c) (2 * d :: ys')); [done|]. intros nd3 _ ->. rw set_lists_same. cbv zeta.
  cbn [first_ptr]. wp_step. apply wp_on_lists.
  eapply (wp_rep_remove _ m lk _ (xs ++ [2 * c]) (2 * d) ys'); [exact Hr|by rw -app_assoc|done|]. rw -app_assoc.
  intros h' Hok _. destruct (merged_inv _ _ _ _ _ _ _ _ _ _ _ _ h' Hi Ep HA Ex Ey Exy Hok) as (Hi' & Hmv & Hfr).
  wp_step. apply (HQ _ _ (Some d) Hi' Hmv); [done|by rw lookup_insert_eq| | |].
  - intros k Hu l zs. rw lookup_insert. case_decide; [|apply Hu]. intros [= <-] Hk. apply (Hu _ _ HA).
    rw elem_of_app elem_of_cons in Hk. rw elem_of_app !elem_of_cons. tauto.
  - intros d' Hu. cbn. rw lookup_insert_ne //. intros <-. apply (Hu _ _ HA), elem_of_app. right. left.
  - intros d' [= <-]. split; [done|left].
Qed.

Lemma wp_list_merge s m lk n p pr xs b ys (Q : option list_ptr * option list_ptr → vm_state K → Prop) :
  vm_inv_at s m lk n → v_procs s !! p = Some pr → locked (lk (avail_unmapped p)) = true →
  m !! avail_unmapped p = Some (xs ++ 2 * b :: ys) →
  (∀ s' m' o1 o2, vm_inv_at s' m' lk n → moved false p s m s' m' → v_int s' = v_int s → is_Some (m' !! avail_unmapped p) →
     (∀ d, o1 = Some d ∨ o2 = Some d → freeable s' m' p d) → (∀ d, o1 = Some d → o2 ≠ Some d) →
     Q ((λ d, PNode (2 * d)) <$> o1, (λ d, PNode (2 * d)) <$> o2) s') →
  wp (list_merge (avail_unmapped p) (PNode (2 * b)) avail_list_merge) Q s.
Proof.
  intros Hi Ep Hlk HA HQ. rw /list_merge. pose proof (vb_rep _ _ _ _ (vi_base _ _ _ _ Hi)) as Hr.
  wp_step. apply wp_on_lists. apply (wp_node_at _ (avail_unmapped p) xs (2 * b) ys); [exact (rep_is_list _ _ _ _ _ Hr HA)|].
  intros nd Hpv _. rw set_lists_same. wp_step. eapply wp_merge_prev; [exact Hi|exact Ep|done|exact HA|done|].
  intros s1 m1 xs1 c o1 Hi1 Hmv1 Hint1 HA1 Ho1. destruct (same_procs_lookup _ _ _ _ (mv_procs _ _ _ _ _ _ Hmv1) Ep) as (pr1 & Ep1 & _).
  eapply wp_merge_next; [exact Hi1|exact Ep1|done|exact HA1|]. intros s2 m2 o2 Hi2 Hmv2 Hint2 HA2 Hun Hbl Ho2.
  apply (HQ s2 m2 o1 o2 Hi2); [eapply moved_trans; [exact Hmv1|exact Hmv2]|congruence|done| |].
  - intros d [E|E]; [|by apply Ho2]. destruct (Ho1 d E) as [(x & Ex & Hx & Hu1 & Hu2) _]. exists x. rw Hbl //. split_and!; auto.
  - intros d E1 E2. destruct (Ho1 d E1) as [_ Hn]. by destruct (Ho2 d E2).
Qed.

(** [avail_list_free] on a block that is on no list. *)
Lemma wp_avail_list_free s m n p pr d (Q : unit → vm_state K → Prop) :
  vm_inv s m n → v_procs s !! p = Some pr → freeable s m p d →
  (∀ s', vm_inv s' m n → moved false p s m s' m → v_int s' = v_int s → v_blocks s' = delete d (v_blocks s) → Q tt s') →
  wp (avail_list_free (PNode (2 * d))) Q s.
Proof.
  intros Hi Ep (x & Ex & Hx & Hu1 & Hu2) HQ. rw /avail_list_free. wp_step. wp_step; [reflexivity|]. cbv beta.
  rw (_ : 2 * d / 2 = d); [zdiv|]. wp_step. eapply wp_get_blk; [exact Ex|]. rw Hx. wp_step.
  eapply wp_upd_proc; [exact Ep|]. set (s1 := upd_v_procs _ _).
  assert (same_procs s s1) as Hs1 by exact (same_procs_alter (upd_ref ref_dec) p s (λ _, eq_refl)).
  destruct (same_procs_lookup _ _ _ _ Hs1 Ep) as (pr1 & Ep1 & _).
  eapply (wp_sfree_audit s1 m unlocked n); [by apply vm_base_procs; [apply Hi|]|by rw Ep1|exact Ex|done|done|].
  intros s2 Hb2 Eb2 Hs2 Hint2. change (v_blocks s1) with (v_blocks s) in Eb2.
  assert (∀ l xs k, m !! l = Some xs → k ∈ xs → v_blocks s2 !! (k / 2) = v_blocks s !! (k / 2)) as Hsame.
  { intros l xs k Hl Hk. rw Eb2 lookup_delete_ne //. intros E. assert (k = 2 * d ∨ k = 2 * d + 1) as [->| ->] by zdiv;
      [by apply (Hu1 _ _ Hl)|by apply (Hu2 _ _ Hl)]. }
  assert (moved false p s m s2 m) as Hmv.
  { split; [etrans; [exact Hs1|exact Hs2]|done|]. intros l xs k _. apply Hsame. }
  apply HQ; try done. eapply moved_inv; [exact Hi|exact Ep|exact Hmv|done|].
  pose proof (vi_space _ _ _ _ Hi _ _ Ep) as Hsp. eapply space_frame; [exact Hsp|apply Hsp|done|].
  intros k (j & xs & Hj & Hl & Hk). f_equal. exact (Hsame _ _ _ Hl Hk).
Qed.

Lemma wp_free_node s m n p pr o (Q : unit → vm_state K → Prop) :
  vm_inv s m n → v_procs s !! p = Some pr → (∀ d, o = Some d → freeable s m p d) →
  (∀ s', vm_inv s' m n → moved false p s m s' m → v_int s' = v_int s → (∀ d, o ≠ Some d → freeable s m p d → freeable s' m p d) → Q tt s') →
  wp (free_node (Some avail_list_free) ((λ d, PNode (2 * d)) <$> o)) Q s.
Proof.
  intros Hi Ep Hf HQ. destruct o as [d|]; cbn [fmap option_fmap option_map free_node].
  - eapply wp_avail_list_free; [exact Hi|exact Ep|by apply Hf|]. intros s' Hi' Hmv Hint Eb. apply HQ; try done.
    intros d' Hd (x & Ex & ?). exists x. by rw Eb lookup_delete_ne; [congruence|].
  - wp_step. by apply HQ.
Qed.
End ListMerge.

(** ** Moving the sanitized blocks *)

Section MoveSanit.
Context `{Harch : Arch} {K : Type} `{Henv : VmEnv K} `{!VmEnvLaws K}.
Implicit Types (s : vm_state K) (m : gmap Z (list Z)).

(** Popping the first block of a list. *)
Lemma wp_vm_pop s m n l SU (Q : list_ptr → vm_state K → Prop) :
  vm_inv s m n → m !! l = Some SU →
  (∀ s', v_int s' = v_int s → SU = [] → vm_inv s' m n → same_procs s s' → v_blocks s' = v_blocks s → Q PNull s') →
  (∀ s' k SU', v_int s' = v_int s → SU = k :: SU' → v_blocks s' = v_blocks s → v_procs s' = v_procs s →
     vm_base s' (<[l := SU']> m) unlocked n → Q (PNode k) s') →
  wp (list_pop_front_exclusive (l)) Q s.
Proof.
  intros Hi Hl HQ1 HQ2. pose proof (vi_base _ _ _ _ Hi) as Hb. eapply wp_excl_pop_front; [apply Hb|exact Hl|].
  intros g Hok. assert (vm_base (set_lists g s) (<[l := tail SU]> m) unlocked n) as Hb'.
  { eapply vm_base_rep; [exact Hb|exact Hok|]. apply (vb_dom_insert s m unlocked n _ _ Hb). intros k Hk.
    apply (vb_dom _ _ _ _ Hb _ _ k Hl). destruct SU; [done|by right]. }
  destruct SU as [|k SU]; [|by apply (HQ2 _ k SU)]. cbn [tail] in Hb'. rw insert_id // in Hb'.
  apply HQ1; try done. by apply (vm_inv_base s).
Qed.

(** [s] is a state between two rounds, with block [b] taken off the front of
    [sanit_unmapped]; [s0] is the state before that. *)
Record popped s0 m0 n p (b : Z) (SU : list Z) s : Prop := {
  pp_inv : vm_inv s0 m0 n;
  pp_list : m0 !! sanit_unmapped p = Some (2 * b :: SU);
  pp_base : vm_base s (<[sanit_unmapped p := SU]> m0) unlocked n;
  pp_procs : same_procs s0 s;
  pp_blocks : v_blocks s = v_blocks s0
}.

(** The popped block goes to the available list. *)
Lemma popped_insert s0 m0 n p pr b SU s A A' s' lk : popped s0 m0 n p b SU s → v_procs s0 !! p = Some pr →
  m0 !! avail_unmapped p = Some A → (∀ i, i ∈ A' ↔ i ∈ A ∨ i = 2 * b) →
  vm_base s' (<[avail_unmapped p := A']> (<[sanit_unmapped p := SU]> m0)) lk n → same_procs s s' → v_blocks s' = v_blocks s →
  let m' := <[avail_unmapped p := A']> (<[sanit_unmapped p := SU]> m0) in vm_inv_at s' m' lk n ∧ moved true p s0 m0 s' m'.
Proof.
  intros [Hi Hl Hb Hs Eb] Ep HA HA' Hb' Hs' Eb' m'. pose proof (vi_space _ _ _ _ Hi _ _ Ep) as Hsp.
  assert (avail_unmapped p ≠ sanit_unmapped p) as Hne by (rw /avail_unmapped /sanit_unmapped; lia).
  pose proof (vb_rep _ _ _ _ (vi_base _ _ _ _ Hi)) as Hr.
  assert (moved true p s0 m0 s' m') as Hmv.
  { split; [etrans; [exact Hs|exact Hs']| |by intros; rw Eb' Eb]. intros l Hc. rw /changes in Hc. by rw /m' !lookup_insert_ne; [naive_solver..|]. }
  split; [|done]. eapply moved_inv; [exact Hi|exact Ep|exact Hmv|exact Hb'|].
  eapply space_frame; [exact Hsp|..|by intros; rw Eb' Eb].
  - intros j Hj. rw /m' !lookup_insert. repeat (case_decide; [done|]). by apply (sp_lists _ _ _ _ _ Hsp).
  - intros k. rw /m'. rw (on_proc_add (<[sanit_unmapped p := SU]> m0) p 2 A A' (2 * b) k);
      [lia|change (<[sanit_unmapped p := SU]> m0 !! avail_unmapped p = Some A); rw lookup_insert_ne; [congruence|done]|done|].
    pose proof (il_nodup _ _ _ (rep_is_list _ _ _ _ _ Hr Hl)) as [Hn _]%NoDup_cons.
    rw (on_proc_change (v_lists s0) m0 unlocked p 3 (2 * b :: SU) SU [2 * b] [] k); [done|lia|exact Hl|set_solver| |].
    + intros i. rw elem_of_cons list_elem_of_singleton elem_of_nil. destruct (decide (i = 2 * b)) as [->|]; tauto.
    + rw list_elem_of_singleton elem_of_nil. destruct (decide (k = 2 * b)) as [->|]; [|tauto].
      split; [|by right]. intros _. exists 3, (2 * b :: SU). split; [lia|]. split; [exact Hl|left].
Qed.

(** One round: the pages of the block are freed, the block enters the available
    list and is merged with its neighbours. *)
Lemma wpn_move_round N s0 m0 n p pr b SU s (rest : M (vm_state K) unit) (Q : unit → vm_state K → Prop) :
  popped s0 m0 n p b SU s → v_procs s0 !! p = Some pr → PAGE_SIZE ≤ p_dynamic_start pr →
  (∀ a, rng (v_blocks s0) (2 * b) a → cannot_release (p_page_table pr) a → N) →
  (∀ s' m', vm_inv s' m' n → moved true p s0 m0 s' m' → m' !! sanit_unmapped p = Some SU →
     (∀ k, k ∈ SU → v_blocks s' !! (k / 2) = v_blocks s0 !! (k / 2)) → wpn N rest Q s') →
  wpn N (vm_free_block_pages p b;;
      blocks ← gets v_blocks;
      list_insert_merge_free_sorted_exclusive (avail_unmapped p) (PNode (2 * b)) (list_compare blocks)
        avail_list_merge (Some avail_list_free);;
      upd_proc p (upd_active ref_dec);;
      rest) Q s.
Proof.
  intros Hpop Ep Hpg HN HQ. pose proof Hpop as [Hi Hl Hb Hs Eb].
  pose proof (vi_space _ _ _ _ Hi _ _ Ep) as Hsp. destruct (sp_bounds _ _ _ _ _ Hsp) as [Hlo Hhi].
  destruct (sp_lists _ _ _ _ _ Hsp 2 ltac:(lia)) as [A HA]. change (m0 !! avail_unmapped p = Some A) in HA.
  assert (avail_unmapped p ≠ sanit_unmapped p) as Hne by (rw /avail_unmapped /sanit_unmapped; lia).
  destruct (sp_good _ _ _ _ _ Hsp (2 * b)) as (b' & x & Eb' & Ex & Hxp & Hxs & Hx1 & Hx2).
  { exists 3, (2 * b :: SU). split; [lia|]. split; [exact Hl|left]. }
  assert (b' = b) as -> by lia. destruct (same_procs_lookup _ _ _ _ Hs Ep) as (pr1 & Ep1 & [= _ _ _ Ept]).
  set (m1 := <[sanit_unmapped p := SU]> m0) in *.
  assert (m1 !! avail_unmapped p = Some A) as HA1 by by (rw /m1 lookup_insert_ne; [congruence|done]).
  apply wpn_bind. eapply wpn_free_block_pages; [exact Hb|exact Ep1|rw Eb; exact Ex| |lia|lia|done|lia|].
  { rw Ept. intros a Ha. apply HN. exists x. split; [by rw (_ : 2 * b / 2 = b); [zdiv|]|done]. }
  intros s1 Hb1 Eb1 Hs1 Hint1. apply wpn_wp_bind. wp_step. apply wpn_wp_bind. rw /list_insert_merge_free_sorted_exclusive. wp_step.
  rw /list_insert_merge_sorted_exclusive.
  assert (unlinked (2 * b) m1) as Hub by exact (removed_unlinked _ _ _ _ [] _ SU (vb_rep _ _ _ _ (vi_base _ _ _ _ Hi)) Hl).
  eapply wp_vm_access; [exact Hb1|exact HA1|]. intros s2 Hb2 Eb2 Ep2 Hint2. wp_step. apply wp_on_lists.
  assert (b ∈ dom (v_blocks s2)) as Hbd by (rw Eb2 Eb1 Eb; by apply elem_of_dom_2 in Ex).
  eapply wp_rep_insert_sorted; [apply Hb2|exact HA1|apply holding_locked|apply (vb_live _ _ _ _ Hb2 b Hbd)|done|..].
  { intros z _. apply list_compare_total. }
  set (A' := sorted_insert _ _ _). intros g Hok.
  assert (∀ i, i ∈ A' ↔ i ∈ A ∨ i = 2 * b) as HA' by (intros i; apply elem_of_sorted_insert).
  set (m2 := <[avail_unmapped p := A']> m1) in *. set (s3 := set_lists g s2).
  assert (vm_base s3 m2 (holding (avail_unmapped p) (v_int s1)) n) as Hb3.
  { eapply vm_base_rep; [exact Hb2|exact Hok|]. apply (vb_dom_insert s2 m1 (holding (avail_unmapped p) (v_int s1)) n); [exact Hb2|]. intros k [Hk| ->]%HA'.
    - exact (vb_dom _ _ _ _ Hb2 _ _ _ HA1 Hk).
    - right. by rw (_ : 2 * b / 2 = b); [zdiv|]. }
  destruct (popped_insert s0 m0 n p pr b SU s A A' s3 _ Hpop Ep HA HA' Hb3) as [Hi3 Hmv3].
  { etrans; [exact Hs1|]. intros q. cbn. by rw Ep2. }
  { cbn. by rw Eb2 Eb1. }
  destruct (same_procs_lookup _ _ _ _ (mv_procs _ _ _ _ _ _ Hmv3) Ep) as (pr3 & Ep3 & _).
  assert (2 * b ∈ A') as (xs & ys & EA')%list_elem_of_split by (apply HA'; by right).
  assert (m2 !! avail_unmapped p = Some (xs ++ 2 * b :: ys)) as HA2 by by rw /m2 lookup_insert_eq EA'.
  eapply wp_list_merge; [exact Hi3|exact Ep3|apply holding_locked|exact HA2|].
  intros s4 m4 o1 o2 Hi4 Hmv4 Hint4 [A4 HA4] Hfr Hdis. split; [by rw Hint4|]. exists m4, n, A4.
  split; [apply Hi4|]. split; [done|]. intros s5 Hb5 Eb5 Ep5 Hint5.
  assert (moved true p s0 m0 s5 m4) as Hmv5.
  { eapply moved_trans; [exact Hmv3|]. apply moved_mono. destruct Hmv4 as [P L B]. split; [intros q; by rw Ep5 P|done|].
    intros l zs k Hc Hz Hk. rw Eb5. by apply (B l zs). }
  destruct (same_procs_lookup _ _ _ _ (mv_procs _ _ _ _ _ _ Hmv5) Ep) as (pr5 & Ep5' & Hfix).
  assert (vm_inv s5 m4 n) as Hi5.
  { eapply moved_inv; [exact Hi|exact Ep|exact Hmv5|exact Hb5|]. rw Eb5. injection Hfix as <- <- _ _.
    rw Ep5 in Ep5'. exact (vi_space _ _ _ _ Hi4 _ _ Ep5'). }
  assert (m4 !! sanit_unmapped p = Some SU) as HS4.
  { rw (mv_lists _ _ _ _ _ _ Hmv4); [intros [E|[? _]]; [rw /avail_unmapped /sanit_unmapped in E; lia|done]|].
    rw /m2 lookup_insert_ne; [rw /avail_unmapped /sanit_unmapped; lia|]. apply lookup_insert_eq. }
  wp_step. eapply wp_free_node; [exact Hi5|exact Ep5'| |].
  { intros d E. destruct (Hfr d ltac:(by left)) as (y & Ey & ?). exists y. by rw Eb5. }
  intros s6 Hi6 Hmv6 Hint6 Hfr6. destruct (same_procs_lookup _ _ _ _ (mv_procs _ _ _ _ _ _ Hmv6) Ep5') as (pr6 & Ep6 & _).
  eapply wp_free_node; [exact Hi6|exact Ep6| |].
  { intros d E. apply Hfr6; [intros E'; by apply (Hdis d)|]. destruct (Hfr d ltac:(by right)) as (y & Ey & ?). exists y. by rw Eb5. }
  intros s7 Hi7 Hmv7 Hint7 _. destruct (same_procs_lookup _ _ _ _ (mv_procs _ _ _ _ _ _ Hmv7) Ep6) as (pr7 & Ep7 & _).
  apply wpn_wp_bind. eapply wp_upd_proc; [exact Ep7|]. set (s8 := upd_v_procs _ s7).
  assert (same_procs s7 s8) as Hs8 by exact (same_procs_alter (upd_active ref_dec) p s7 (λ _, eq_refl)).
  assert (moved false p s5 m4 s8 m4) as Hmv8.
  { eapply moved_trans; [exact Hmv6|]. eapply moved_trans; [exact Hmv7|]. by split. }
  assert (¬ changes false p (sanit_unmapped p)) as Hnc by (intros [E|[? _]]; [rw /avail_unmapped /sanit_unmapped in E; lia|done]).
  apply (HQ s8 m4); [|..|done|].
  - apply (vm_inv_base s7); [done|by apply vm_base_procs; [apply Hi7|]|done|done].
  - eapply moved_trans; [exact Hmv5|]. by apply moved_mono.
  - intros k Hk. rw (mv_blocks _ _ _ _ _ _ Hmv8 _ SU k Hnc HS4 Hk) Eb5 (mv_blocks _ _ _ _ _ _ Hmv4 (sanit_unmapped p) SU k Hnc) //.
    + rw /m2 lookup_insert_ne; [rw /avail_unmapped /sanit_unmapped; lia|]. apply lookup_insert_eq.
    + cbn. by rw Eb2 Eb1 Eb.
Qed.

Lemma wpn_move_sanit_loop N fuel : ∀ s0 m0 n p pr b SU s (Q : unit → vm_state K → Prop),
  popped s0 m0 n p b SU s → v_procs s0 !! p = Some pr → PAGE_SIZE ≤ p_dynamic_start pr → (length SU < fuel)%nat →
  (∀ k a, k ∈ 2 * b :: SU → rng (v_blocks s0) k a → cannot_release (p_page_table pr) a → N) →
  (∀ s' m', vm_inv s' m' n → moved true p s0 m0 s' m' → m' !! sanit_unmapped p = Some [] → Q tt s') →
  wpn N (move_sanit_loop fuel p (PNode (2 * b))) Q s.
Proof.
  induction fuel as [|fuel IH]; intros s0 m0 n p pr b SU s Q Hpop Ep Hpg Hf HN HQ; [lia|]. cbn [move_sanit_loop].
  rw bool_decide_eq_false_2 //. apply wpn_wp_bind. wp_step; [reflexivity|]. cbv beta. rw (_ : 2 * b / 2 = b); [zdiv|].
  eapply wpn_move_round; [exact Hpop|exact Ep|exact Hpg|intros a; apply HN; left|]. intros s1 m1 Hi1 Hmv1 Hl1 Hbl1.
  destruct (same_procs_lookup _ _ _ _ (mv_procs _ _ _ _ _ _ Hmv1) Ep) as (pr1 & Ep1 & Hfix).
  apply wpn_wp_bind. eapply wp_vm_pop; [exact Hi1|exact Hl1|..].
  - intros s2 Hint2 -> Hi2 Hs2 Eb2. apply wpn_wp. destruct fuel; cbn [move_sanit_loop]; (rw bool_decide_eq_true_2; [done|]); wp_step;
      (apply (HQ s2 m1); [done| |done]); destruct Hmv1 as [P L B]; (split; [etrans; [exact P|exact Hs2]|done|]); intros; rw Eb2; eauto.
  - intros s2 k SU' Hint2 -> Eb2 Ep2 Hb2. pose proof (vi_space _ _ _ _ Hi1 _ _ Ep1) as Hsp.
    destruct (sp_good _ _ _ _ _ Hsp k) as (d & y & -> & _); [exists 3, (k :: SU'); split; [lia|]; split; [exact Hl1|left]|].
    injection Hfix as Est _ _ Ept.
    eapply (IH s1 m1 n p pr1 d SU'); [|exact Ep1|by rw Est|cbn in Hf; lia| |].
    + split; [done|done|done|intros q; by rw Ep2|done].
    + rw Ept. intros k a Hk Hr. apply (HN k a); [by right|]. by rw /rng Hbl1 in Hr.
    + intros s3 m3 Hi3 Hmv3 Hl3. apply (HQ s3 m3); [done|eapply moved_trans; [exact Hmv1|exact Hmv3]|done].
Qed.

(** All sanitized blocks of a process; the kernel panics only if a page of
    theirs cannot be released. *)
Lemma wpn_vm_move_sanit_to_avail s m n p pr :
  vm_inv s m n → v_procs s !! p = Some pr → PAGE_SIZE ≤ p_dynamic_start pr →
  wpn (∃ SU k a, m !! sanit_unmapped p = Some SU ∧ k ∈ SU ∧ rng (v_blocks s) k a ∧ cannot_release (p_page_table pr) a)
    (vm_move_sanit_to_avail p) (λ _ s', ∃ m', vm_inv s' m' n ∧ moved true p s m s' m' ∧ m' !! sanit_unmapped p = Some []) s.
Proof.
  intros Hi Ep Hpg. pose proof (vi_space _ _ _ _ Hi _ _ Ep) as Hsp.
  destruct (sp_lists _ _ _ _ _ Hsp 3 ltac:(lia)) as [SU HSU]. change (m !! sanit_unmapped p = Some SU) in HSU.
  rw /vm_move_sanit_to_avail. apply wpn_wp_bind. wp_step. set (fuel := size _).
  assert (length SU < fuel)%nat as Hf.
  { pose proof (is_list_size _ _ _ (rep_is_list _ _ _ _ _ (vb_rep _ _ _ _ (vi_base _ _ _ _ Hi)) HSU)). rw /fuel. lia. }
  apply wpn_wp_bind. eapply wp_vm_pop; [exact Hi|exact HSU|..].
  - intros s1 Hint1 -> Hi1 Hs1 Eb1. apply wpn_wp. destruct fuel; cbn [move_sanit_loop]; (rw bool_decide_eq_true_2; [done|]); wp_step;
      exists m; (split; [done|split; [|done]]); (split; [done|done|]); intros; by rw Eb1.
  - intros s1 k SU' Hint1 -> Eb1 Ep1 Hb1.
    destruct (sp_good _ _ _ _ _ Hsp k) as (d & y & -> & _); [exists 3, (k :: SU'); split; [lia|]; split; [exact HSU|left]|].
    eapply (wpn_move_sanit_loop _ fuel s m n p pr d SU'); [|exact Ep|done|cbn in Hf; lia| |].
    + split; [done|done|done|intros q; by rw Ep1|done].
    + intros k a Hk Hr Hc. by exists (2 * d :: SU'), k, a.
    + intros s2 m2 ? ? ?. by exists m2.
Qed.
End MoveSanit.

(** ** Purge *)

Section Purge.
Context `{Harch : Arch} {K : Type} `{Henv : VmEnv K} `{!VmEnvLaws K}.
Implicit Types (s : vm_state K) (m : gmap Z (list Z)).

Lemma wp_purge_loop fuel : ∀ s0 m0 n p pr b I s count (Q : Z → vm_state K → Prop),
  vm_inv s0 m0 n → v_procs s0 !! p = Some pr → m0 !! inuse_mapped p = Some (2 * b :: I) →
  vm_base s (<[inuse_mapped p := I]> m0) unlocked n → v_blocks s = v_blocks s0 → v_procs s = v_procs s0 →
  (length I < fuel)%nat →
  (∀ c s' m', vm_inv s' m' n → same_procs s0 s' → same_core s0 s' → m' !! inuse_mapped p = Some [] →
     c = ulong (count + Z.of_nat (length (2 * b :: I))) → Q c s') →
  wp (purge_loop fuel p count (PNode (2 * b))) Q s.
Proof.
  induction fuel as [|fuel IH]; intros s0 m0 n p pr b I s count Q Hi Ep HI Hb Eb Epr Hf HQ; [lia|]. cbn [purge_loop].
  rw bool_decide_eq_false_2 //. wp_step. wp_step; [reflexivity|]. cbv beta. rw (_ : 2 * b / 2 = b); [zdiv|].
  wp_step. eapply (wp_free_removed s0 m0 n p pr b [] I Hi Ep HI); [exact Hb|done|done|].
  intros s1 (m1 & Hi1 & Hs1 & Hc1 & HI1). cbn [app] in HI1.
  destruct (same_procs_lookup _ _ _ _ Hs1 Ep) as (pr1 & Ep1 & _).
  wp_step. eapply wp_vm_pop; [exact Hi1|exact HI1|..].
  - intros s2 Hint2 -> Hi2 Hs2 Eb2. destruct fuel; cbn [purge_loop]; (rw bool_decide_eq_true_2; [done|]); wp_step;
      (apply (HQ _ s2 m1); [done|etrans; [exact Hs1|exact Hs2]| |done|done]); intros d; by rw Eb2 (Hc1 d).
  - intros s2 k I' Hint2 -> Eb2 Ep2 Hb2. pose proof (vi_space _ _ _ _ Hi1 _ _ Ep1) as Hsp.
    destruct (sp_good _ _ _ _ _ Hsp k) as (d & y & -> & _); [exists 6, (k :: I'); split; [lia|]; split; [exact HI1|left]|].
    eapply (IH s1 m1 n p pr1 d I'); [done|exact Ep1|done|exact Hb2|done|done|cbn in Hf; lia|].
    intros c s3 m3 Hi3 Hs3 Hc3 HI3 ->. apply (HQ _ s3 m3); [done|etrans; [exact Hs1|exact Hs3]|etrans; [exact Hc1|exact Hc3]|done|].
    cbn [length]. rw count_step. f_equal. lia.
Qed.

Lemma wp_vm_purge s m n p pr I : vm_inv s m n → v_procs s !! p = Some pr → m !! inuse_mapped p = Some I →
  wp (vm_purge p) (λ c s', ∃ m', vm_inv s' m' n ∧ same_procs s s' ∧ same_core s s' ∧ m' !! inuse_mapped p = Some [] ∧
    c = ulong (Z.of_nat (length I))) s.
Proof.
  intros Hi Ep HI. pose proof (vi_space _ _ _ _ Hi _ _ Ep) as Hsp. rw /vm_purge. wp_step. wp_step. set (fuel := size _).
  assert (length I < fuel)%nat as Hf.
  { pose proof (is_list_size _ _ _ (rep_is_list _ _ _ _ _ (vb_rep _ _ _ _ (vi_base _ _ _ _ Hi)) HI)). rw /fuel. lia. }
  assert (∀ c s1 m1, vm_inv s1 m1 n → same_procs s s1 → same_core s s1 → m1 !! inuse_mapped p = Some [] → c = ulong (Z.of_nat (length I)) →
    wp ((if ctrue c then event_signal p else mret tt);; mret c) (λ c s', ∃ m', vm_inv s' m' n ∧ same_procs s s' ∧ same_core s s' ∧
      m' !! inuse_mapped p = Some [] ∧ c = ulong (Z.of_nat (length I))) s1) as Hend.
  { intros c s1 m1 Hi1 Hs1 Hc1 HI1 Ec. destruct (same_procs_lookup _ _ _ _ Hs1 Ep) as (pr1 & Ep1 & _). wp_step.
    destruct (ctrue c); [|wp_step; wp_step; by exists m1].
    eapply wp_event_signal; [apply Hi1|by rw Ep1|]. intros s2 Hb2 Eb2 Hs2 _. wp_step. exists m1.
    assert (same_core s1 s2) as Hc2 by (intros d; by rw Eb2).
    split; [by apply (vm_inv_base s1)|]. split; [etrans; [exact Hs1|exact Hs2]|]. split; [etrans; [exact Hc1|exact Hc2]|done]. }
  wp_step. eapply wp_vm_pop; [exact Hi|exact HI|..].
  - intros s1 Hint1 -> Hi1 Hs1 Eb1. wp_step. destruct fuel; cbn [purge_loop]; (rw bool_decide_eq_true_2; [done|]); wp_step;
      (apply (Hend 0 s1 m); [done|done|intros d; by rw Eb1|done|done]).
  - intros s1 k I' Hint1 -> Eb1 Ep1 Hb1.
    destruct (sp_good _ _ _ _ _ Hsp k) as (d & y & -> & _); [exists 6, (k :: I'); split; [lia|]; split; [exact HI|left]|].
    wp_step. eapply (wp_purge_loop fuel s m n p pr d I'); [done|exact Ep|done|exact Hb1|done|done|cbn in Hf; lia|].
    intros c s2 m2 Hi2 Hs2 Hc2 HI2 ->. by apply (Hend _ s2 m2).
Qed.
End Purge.

(** ** Addresses *)

(** Address [a] is in a block on list [l]. *)
Definition owned {K} (s : vm_state K) (m : gmap Z (list Z)) (l a : Z) : Prop :=
  ∃ xs k, m !! l = Some xs ∧ k ∈ xs ∧ rng (v_blocks s) k a.

Section Addresses.
Context `{Harch : Arch} {K : Type} `{Henv : VmEnv K} `{!VmEnvLaws K}.
Implicit Types (s : vm_state K) (m : gmap Z (list Z)).

(** Every address of the process's range is on exactly one of its lists. *)
Lemma space_owner s m p lo hi a : space (v_blocks s) m p lo hi → lo ≤ a < hi →
  ∃ j, 2 ≤ j ≤ 6 ∧ owned s m (8 * p + j) a.
Proof.
  intros Hsp Ha. destruct (proj1 (sp_part _ _ _ _ _ Hsp) a Ha) as (k & (j & xs & Hj & Hl & Hk) & Hr).
  exists j. split; [done|]. by exists xs, k.
Qed.

Lemma owner_unique s m lk p lo hi a i j : rep (v_lists s) m lk → space (v_blocks s) m p lo hi → 2 ≤ i ≤ 6 → 2 ≤ j ≤ 6 →
  owned s m (8 * p + i) a → owned s m (8 * p + j) a → i = j.
Proof.
  intros Hr Hsp Hi Hj (xs & k & Hl & Hk & Hka) (ys & k' & Hl' & Hk' & Hka').
  assert (k = k') as <-.
  { apply (proj2 (sp_part _ _ _ _ _ Hsp) k k' a); [by exists i, xs|by exists j, ys|done|done]. }
  pose proof (rep_unique _ _ _ _ _ _ _ _ Hr Hl Hl' Hk Hk'). lia.
Qed.

(** When the sanitized list has been emptied, its addresses are available. *)
Lemma moved_owned s m s' m' n p pr a : vm_inv s m n → vm_inv s' m' n → v_procs s !! p = Some pr → moved true p s m s' m' →
  m' !! sanit_unmapped p = Some [] → p_dynamic_start pr ≤ a < p_dynamic_end pr →
  owned s' m' (avail_unmapped p) a ↔ owned s m (avail_unmapped p) a ∨ owned s m (sanit_unmapped p) a.
Proof.
  intros Hi Hi' Ep Hmv HS Ha. pose proof (vi_space _ _ _ _ Hi _ _ Ep) as Hsp.
  destruct (same_procs_lookup _ _ _ _ (mv_procs _ _ _ _ _ _ Hmv) Ep) as (pr' & Ep' & [= E1 E2 _ _]).
  pose proof (vi_space _ _ _ _ Hi' _ _ Ep') as Hsp'. rw E1 E2 in Hsp'.
  pose proof (vb_rep _ _ _ _ (vi_base _ _ _ _ Hi)) as Hr. pose proof (vb_rep _ _ _ _ (vi_base _ _ _ _ Hi')) as Hr'.
  assert (∀ j, 4 ≤ j ≤ 6 → owned s' m' (8 * p + j) a ↔ owned s m (8 * p + j) a) as Hsame.
  { intros j Hj. assert (¬ changes true p (8 * p + j)) as Hc by (rw /changes /avail_unmapped /sanit_unmapped; lia).
    rw /owned (mv_lists _ _ _ _ _ _ Hmv _ Hc). split; intros (xs & k & Hl & Hk & Hka); exists xs, k; (split; [done|]); (split; [done|]);
      [rw /rng -(mv_blocks _ _ _ _ _ _ Hmv _ xs k Hc Hl Hk) //|rw /rng (mv_blocks _ _ _ _ _ _ Hmv _ xs k Hc Hl Hk) //]. }
  split; intros Ho.
  - destruct (space_owner s m p _ _ a Hsp Ha) as (j & Hj & Hoj). destruct (decide (4 ≤ j)) as [Hj4|].
    + pose proof (owner_unique s' m' _ p _ _ a 2 j Hr' Hsp' ltac:(lia) Hj Ho (proj2 (Hsame j ltac:(lia)) Hoj)). lia.
    + assert (j = 2 ∨ j = 3) as [->| ->] by lia; auto.
  - destruct (space_owner s' m' p _ _ a Hsp' Ha) as (j & Hj & Hoj). destruct (decide (4 ≤ j)) as [Hj4|].
    + apply Hsame in Hoj; [|lia]. destruct Ho as [Ho|Ho];
        [pose proof (owner_unique s m _ p _ _ a 2 j Hr Hsp ltac:(lia) Hj Ho Hoj)|pose proof (owner_unique s m _ p _ _ a 3 j Hr Hsp ltac:(lia) Hj Ho Hoj)]; lia.
    + assert (j = 2 ∨ j = 3) as [->| ->] by lia; [done|]. destruct Hoj as (xs & k & Hl & Hk & _).
      change (m' !! sanit_unmapped p = Some xs) in Hl. assert (xs = []) as -> by congruence. by apply elem_of_nil in Hk.
Qed.
End Addresses.
