(* ===== verification/VmAlloc.v ===== *)
(** More on allocation in [src/src/kernel/proc/vm.c]: what [vm_alloc] does with
    a request that is empty or wraps around the end of the address space, and
    that the blocks of [vm_alloc_thread] keep every process's space partitioned. *)

From stdpp Require Import base list gmap sorting.
From Stdlib Require Import ZArith Lia.
From Corelib Require Import ssreflect.
From S2P Require Import Prelude Bits Lock Mem List ListSpec ListRep Vm VmSpec VmMove.

(** ** Requests that are empty or wrap around *)

Section Wrapped.
Context `{Harch : Arch} {K : Type} `{Henv : VmEnv K} `{!VmEnvLaws K}.
Implicit Types (s : vm_state K) (m : gmap Z (list Z)).

(** The two ends of a request are addresses, whatever was passed. *)
Lemma request_range base0 size0 :
  uint ARCH_WIDTH (align_down_vsize base0 PAGE_SIZE) ∧ uint ARCH_WIDTH (align_up_vaddr (ulong (base0 + size0)) PAGE_SIZE).
Proof.
  assert (0 < ARCH_WIDTH) by (destruct arch_width_cases; lia). split; [apply wrap_range; lia|].
  rw /align_up_vaddr /ALIGN_UP. set (x := wrap _ (_ + _)). set (y := bnot _ _).
  assert (Z.land x y = Z.land x y mod 2 ^ ARCH_WIDTH) as ->; [|apply Z.mod_pos_bound; lia].
  rw -(land_ones_mod _ ARCH_WIDTH); [lia|]. rw -Z.land_assoc (Z.land_comm y) Z.land_assoc land_ones_mod; [lia|].
  rw (Z.mod_small x); [apply wrap_range; lia|done].
Qed.

(** What the critical section does with such a request: a block that passes the
    test is never deleted, and only the available list changes. *)
Definition carve_wrapped s m lk n p b e base size end_ (A : list Z) (r : bool * option Z * bool) s' : Prop :=
  (r = (false, None, false) ∧ s' = s ∧
     ∀ t x, 2 * t ∈ A → v_blocks s !! t = Some x → fits base size end_ x = false) ∨
  (∃ used m', r = (true, None, used) ∧ (∃ y, v_blocks s' !! b = Some y ∧ (base ≠ 0 → b_base y = base)) ∧
     is_Some (v_blocks s' !! e) ∧ vm_base s' m' lk n ∧ same_procs s s' ∧ v_int s' = v_int s ∧
     (∀ l, l ≠ avail_unmapped p → m' !! l = m !! l) ∧ is_Some (m' !! avail_unmapped p) ∧
     (∀ k, unlinked k m → k ≠ 2 * e → unlinked k m') ∧ (used = false → unlinked (2 * e) m')).

Lemma wp_carve_wrapped s m lk n p b e base end_ A :
  let size := ulong (end_ - base) in
  vm_base s m lk n → locked (lk (avail_unmapped p)) = true → m !! avail_unmapped p = Some A →
  is_Some (v_procs s !! p) →
  (∀ k, k ∈ A → ∃ t x, k = 2 * t ∧ t ≠ b ∧ t ≠ e ∧ v_blocks s !! t = Some x ∧
     0 < b_size x ∧ 0 < b_base x ∧ b_base x + b_size x < 2 ^ ARCH_WIDTH) →
  is_Some (v_blocks s !! b) → is_Some (v_blocks s !! e) → b ≠ e → unlinked (2 * e) m →
  0 ≤ end_ ≤ base →
  wp (carve p b e base size end_) (carve_wrapped s m lk n p b e base size end_ A) s.
Proof.
  intros size Hb Hlk HA [pr Epr] Hgood [xb Eb] [xe Ee] Hbe Hue Hend.
  eapply (wp_target s m lk); [apply Hb|exact HA| | |].
  { intros k Hk. destruct (Hgood k Hk) as (t & x & -> & _ & _ & Ex & _). by exists t, x. }
  { intros Hno. wp_step. left. by split. }
  intros t x pre post -> Ex Hfit.
  destruct (Hgood (2 * t)) as (t' & x' & Et & Htb & Hte & Ex' & Hxs & Hxb & Hxo); [apply elem_of_app; right; left|].
  assert (t' = t) as -> by lia. assert (x' = x) as -> by congruence.
  wp_step. eapply wp_upd_proc; [exact Epr|]. wp_step. eapply wp_upd_proc; [cbn; by rw lookup_alter_eq Epr|].
  wp_step. eapply wp_get_blk; [exact Ex|]. set (s1 := upd_v_procs _ (upd_v_procs _ s)).
  assert (vm_base s1 m lk n) as Hb1 by (do 2 (apply vm_base_procs; [|done]); done).
  assert (same_procs s s1) as Hs1.
  { etrans; [exact (same_procs_alter (upd_active ref_inc) p s (λ _, eq_refl))|].
    exact (same_procs_alter (upd_ref ref_inc) p _ (λ _, eq_refl)). }
  assert (is_Some (v_procs s1 !! p)) as [pr1 Epr1] by (cbn; rw !lookup_alter_eq Epr; eauto).
  rw /fits in Hfit. rw /ctrue in Hfit |- *. destruct (Z.eqb_spec base 0) as [->|Hnz]; cbn [negb] in Hfit |- *.
  - assert (end_ = 0) as -> by lia. assert (size = 0) as -> by reflexivity. cbv zeta.
    rw Z.sub_0_r Z.add_0_r !wrap_small; [rw /uint; lia|rw /uint; lia|].
    wp_step. eapply wp_upd_blk; [exact Eb|]. wp_step. eapply wp_upd_blk; [blk_simpl; exact Ex|]. wp_step. eapply wp_upd_blk; [blk_simpl; reflexivity|].
    destruct (Z.eqb_spec (b_size x) 0) as [|_]; [lia|]. cbn [negb]. wp_step. right. exists false, m. split_and!; try done.
    + exists (set_b_base (b_base x) xb). by blk_simpl.
    + exists xe. by blk_simpl.
    + apply vm_base_upd_blk; [apply vm_base_upd_blk; [apply vm_base_upd_blk|]|]; [exact Hb1|exact Eb|blk_simpl; exact Ex|by blk_simpl].
  - rw (wrap_small _ (b_base x + b_size x)) in Hfit |- *; [rw /uint; lia|].
    apply andb_true_iff in Hfit as [Hf1%Z.leb_le Hf2%Z.leb_le]. wp_step. eapply wp_upd_blk; [exact Eb|]. cbv zeta.
    set (s2 := upd_v_blocks _ s1). assert (vm_base s2 m lk n) as Hb2 by (apply vm_base_upd_blk; [exact Hb1|exact Eb]).
    assert (v_blocks s2 !! t = Some x) as Et2 by by rw /s2; blk_simpl.
    destruct (Z.eqb_spec (b_base x) base) as [E1|E1]; destruct (Z.eqb_spec (b_base x + b_size x) end_) as [E2|E2]; [lia|..].
    + wp_step. eapply wp_upd_blk; [exact Et2|]. wp_step. eapply wp_upd_blk; [blk_simpl; reflexivity|].
      wp_step. right. exists false, m. split_and!; try done.
      * exists (set_b_base base xb). by blk_simpl.
      * exists xe. by blk_simpl.
      * apply vm_base_upd_blk; [apply vm_base_upd_blk; [done|exact Et2]|by blk_simpl].
    + wp_step. eapply wp_upd_blk; [exact Et2|]. wp_step. right. exists false, m. split_and!; try done.
      * exists (set_b_base base xb). by blk_simpl.
      * exists xe. by blk_simpl.
      * apply vm_base_upd_blk; [done|exact Et2].
    + wp_step. eapply wp_upd_blk; [exact Et2|]. wp_step. eapply wp_upd_blk; [blk_simpl; exact Ee|].
      do 3 (wp_step; eapply wp_upd_blk; [by blk_simpl|]). wp_step. eapply wp_upd_proc; [exact Epr1|]. wp_step. apply wp_on_lists.
      set (s3 := upd_v_procs _ _).
      assert (vm_base s3 m lk n) as Hb3.
      { apply vm_base_procs; [|done]. do 4 (eapply vm_base_upd_blk; [|by blk_simpl]). eapply vm_base_upd_blk; [done|exact Et2]. }
      assert (live (v_lists s3) (blk_node e)) as Hlive by (apply (vb_live _ _ _ _ Hb e); by apply elem_of_dom_2 in Ee).
      rw /blk_node -(last_ptr_snoc (PHead (avail_unmapped p)) pre (2 * t)).
      eapply (wp_rep_insert _ m lk _ (pre ++ [2 * t]) post); [apply Hb3|by rw -app_assoc|done|done|done|]. intros h' Hok.
      rw -app_assoc in Hok. wp_step. right. exists true, (<[avail_unmapped p := pre ++ 2 * t :: 2 * e :: post]> m).
      split_and!; try done.
      * exists (set_b_base base xb). by rw /s3; blk_simpl.
      * rw /s3. blk_simpl. by eexists.
      * apply (vm_base_rep _ m); [done|exact Hok|]. apply (vb_dom_insert s3 m lk n); [done|]. intros k. rw elem_of_app !elem_of_cons.
        intros Hk. destruct (decide (k = 2 * e)) as [->|].
        -- right. rw (_ : 2 * e / 2 = e); [zdiv|]. apply elem_of_dom. rw /s3. blk_simpl. eauto.
        -- apply (vb_dom _ _ _ _ Hb3 _ _ k HA). rw elem_of_app elem_of_cons. tauto.
      * etrans; [exact Hs1|]. exact (same_procs_alter (upd_ref ref_inc) p s1 (λ _, eq_refl)).
      * intros l Hl. by rw lookup_insert_ne; [congruence|].
      * rw lookup_insert_eq. by eexists.
      * intros k Hu Hk l xs. rw lookup_insert. case_decide; [|apply Hu]. intros [= <-]. rw elem_of_app !elem_of_cons. intros Hin.
        apply (Hu _ _ HA). rw elem_of_app elem_of_cons. tauto.
Qed.

(** A request whose end is not above its base: whichever available block passes
    the test, the new block has the size of the difference taken modulo the
    width of an address. *)
Lemma wp_vm_alloc_wrapped s m n p pr base0 size0 :
  let end_ := align_up_vaddr (ulong (base0 + size0)) PAGE_SIZE in
  let base := align_down_vsize base0 PAGE_SIZE in
  vm_inv s m (S (S n)) → v_procs s !! p = Some pr → end_ ≤ base →
  wp (vm_alloc p base0 size0) (λ r s',
    match r with
    | Some b => ∃ y m' I, lists_rep (v_lists s') m' ∧ m' !! inuse_mapped p = Some I ∧ 2 * b ∈ I ∧ v_blocks s' !! b = Some y ∧
        b_proc y = p ∧ (base ≠ 0 → b_base y = base) ∧ b_size y = ulong (end_ - base)
    | None => ∀ A t x, m !! avail_unmapped p = Some A → 2 * t ∈ A → v_blocks s !! t = Some x →
        fits base (ulong (end_ - base)) end_ x = false
    end) s.
Proof.
  intros end_ base Hi Ep Hle. pose proof (vi_base _ _ _ _ Hi) as Hb. destruct (request_range base0 size0) as [_ Hend].
  pose proof (vi_space _ _ _ _ Hi _ _ Ep) as Hsp. destruct (sp_bounds _ _ _ _ _ Hsp) as [Hlo Hhi].
  destruct (sp_lists _ _ _ _ _ Hsp 2 ltac:(lia)) as [A HA]. destruct (sp_lists _ _ _ _ _ Hsp 6 ltac:(lia)) as [I HI].
  change (m !! avail_unmapped p = Some A) in HA. change (m !! inuse_mapped p = Some I) in HI.
  rw /vm_alloc -/end_ -/base. set (size := ulong (end_ - base)) in *.
  wp_step. eapply wp_salloc_audit; [exact Hb|by rw Ep|].
  intros b s1 Hb0 Hbn%not_elem_of_dom Hb1 Eb1 Hs1 _ Hub Hub'. destruct (same_procs_lookup _ _ _ _ Hs1 Ep) as (pr1 & Ep1 & _).
  wp_step. eapply wp_salloc_audit; [exact Hb1|by rw Ep1|].
  intros e s2 He0 Hen%not_elem_of_dom Hb2 Eb2 Hs2 _ Hue Hue'. rw Eb1 in Hen Eb2. apply lookup_insert_None in Hen as [Hen Hbe'].
  destruct (same_procs_lookup _ _ _ _ Hs2 Ep1) as (pr2 & Ep2 & _).
  assert (∀ t x, v_blocks s !! t = Some x → v_blocks s2 !! t = Some x) as Eold.
  { intros t x Ex. rw Eb2 lookup_insert_ne; [congruence|]. by rw lookup_insert_ne; [congruence|]. }
  wp_step. eapply wp_vm_access; [exact Hb2|exact HA|]. intros s3 Hb3 Eb3 Ep3 Hint3. eapply wp_mono.
  { apply (wp_carve_wrapped s3 m (holding (avail_unmapped p) (v_int s2)) n p b e base end_ A);
      [exact Hb3|apply holding_locked|exact HA|by rw Ep3 Ep2| | | |done|done|rw /uint in Hend; lia].
    - intros k Hk. destruct (sp_good _ _ _ _ _ Hsp k) as (t & x & -> & Ex & Hxp & Hxs & Hx1 & Hx2);
        [exists 2, A; split; [lia|]; done|].
      exists t, x. rw Eb3 (Eold t x) //. split_and!; try done; try congruence; lia.
    - rw Eb3 Eb2 lookup_insert_ne; [congruence|]. rw lookup_insert_eq. by eexists.
    - rw Eb3 Eb2 lookup_insert_eq. by eexists. }
  intros r s4 [(-> & -> & Hnone)|(used & m' & -> & (yb & Eyb & Hyb) & Hse & Hb4 & Hs4 & Hint4 & Hm' & [A' HA'] & Hun & Huse)].
  - split; [done|]. exists m, n, A. split; [done|]. split; [done|]. intros s5 Hb5 Eb5 Ep5 _. rw Eb3 in Eb5.
    eapply (wp_finish_none s5 (v_blocks s)); [exact Hb5|by rw Ep5 Ep3 Ep2|congruence|done|done|by rw Eb5|done..|].
    intros s6 _ _ _ A' t x HAt Ht Ext. assert (A' = A) as -> by congruence. apply (Hnone t x Ht). rw Eb3. by apply Eold.
  - split; [by rw Hint4|]. exists m', n, A'. split; [done|]. split; [done|]. intros s5 Hb5 Eb5 Ep5 _. rw -Eb5 in Eyb Hse.
    assert (v_procs s3 !! p = Some pr2) as E3 by by rw Ep3. destruct (same_procs_lookup _ _ _ _ Hs4 E3) as (pr4 & Ep4 & _).
    eapply (wp_finish_some s5 m' n p b e size None used yb I); [exact Hb5|by rw Ep5 Ep4|rw Hm' //; rw /inuse_mapped /avail_unmapped; lia|exact Eyb|done|congruence
      |apply Hun; [done|lia]|done|apply Hun; [done|lia]|done|].
    intros s6 ys Hb6 _ Hys Ey _. eexists _, _, ys. split; [apply rep_unlocked, Hb6|]. split; [by rw lookup_insert_eq|].
    split; [apply Hys; by right|]. split; [exact Ey|]. done.
Qed.
End Wrapped.

(** ** Blocks of threads *)

Section Thread.
Context `{Harch : Arch} {K : Type} `{Henv : VmEnv K} `{!VmEnvLaws K}.
Implicit Types (s : vm_state K) (m : gmap Z (list Z)).

(** A mapper or reuser of thread blocks: it may use the environment and the
    counters of processes but neither lists nor blocks, and it may panic. *)
Definition callback_ok (f : Z → M (vm_state K) unit) : Prop := ∀ s m n b x,
  vm_base s m unlocked n → v_blocks s !! b = Some x →
  wpp (f b) (λ _ s', vm_base s' m unlocked n ∧ v_blocks s' = v_blocks s ∧ same_procs s s') s.

(** The critical section of [vm_alloc_thread]: the end of the last available
    block is cut off. *)
Lemma wp_carve_thread s m lk n p b size A :
  vm_base s m lk n → locked (lk (avail_unmapped p)) = true → m !! avail_unmapped p = Some A →
  is_Some (v_procs s !! p) →
  (∀ k, k ∈ A → ∃ t x, k = 2 * t ∧ t ≠ b ∧ v_blocks s !! t = Some x ∧ b_proc x = p ∧
     0 < b_size x ∧ 0 < b_base x ∧ b_base x + b_size x < 2 ^ ARCH_WIDTH) →
  0 < size →
  wp (carve_thread p size) (λ r s', (r = (0, None) ∧ s' = s) ∨
    ∃ t x pre c del m', r = (c, del) ∧ A = pre ++ [2 * t] ∧ v_blocks s !! t = Some x ∧ 0 < c ∧
      b_base x ≤ c ∧ c + size = b_base x + b_size x ∧
      carved (v_blocks s) m p b b t (b_base x) (b_base x + b_size x) c size pre [] (v_blocks s') m' del false ∧
      (∀ d, d ≠ t → v_blocks s' !! d = v_blocks s !! d) ∧ vm_base s' m' lk n ∧ same_procs s s' ∧ v_int s' = v_int s) s.
Proof.
  intros Hb Hlk HA [pr Ep] Hgood Hsz. rw /carve_thread. wp_step. apply wp_on_lists.
  eapply wp_rep_back; [apply Hb|exact HA|done|]. rw set_lists_same. destruct A as [|k pre _] using rev_ind.
  { rw bool_decide_eq_true_2 //. wp_step. by left. }
  rw last_snoc. destruct (Hgood k) as (t & x & -> & Htb & Ex & Hxp & Hxs & Hxb & Hxo); [apply elem_of_app; right; left|].
  cbn [ptr_of]. rw bool_decide_eq_false_2 //. wp_step. wp_step; [reflexivity|]. cbv beta. rw (_ : 2 * t / 2 = t); [zdiv|].
  wp_step. eapply wp_get_blk; [exact Ex|]. destruct (Z.ltb_spec (b_size x) size) as [|Hle]; [wp_step; by left|]. cbv zeta.
  rw (wrap_small _ (b_size x - size)); [rw /uint; lia|]. rw (wrap_small _ (b_base x + (b_size x - size))); [rw /uint; lia|].
  wp_step. eapply wp_upd_blk; [exact Ex|]. set (s1 := upd_v_blocks _ s).
  assert (vm_base s1 m lk n) as Hb1 by (eapply vm_base_upd_blk; [exact Hb|exact Ex]).
  assert (∀ s2, same_procs s s2 → ∀ f g, (∀ pr, fixed_part (f pr) = fixed_part pr) → (∀ pr, fixed_part (g pr) = fixed_part pr) →
    same_procs s (upd_v_procs (alter g p) (upd_v_procs (alter f p) s2))) as Hsp.
  { intros s2 Hs2 f g Hf Hg. etrans; [exact Hs2|]. etrans; [exact (same_procs_alter f p s2 Hf)|]. by apply same_procs_alter. }
  rw /ctrue. destruct (Z.eqb_spec (b_size x - size) 0) as [Ez|Ez]; cbn [negb].
  - wp_step. wp_step. apply wp_on_lists. eapply (wp_rep_remove _ m lk _ pre (2 * t) []); [apply Hb1|done|done|]. intros h' Hok _. wp_step.
    wp_step. eapply wp_upd_proc; [exact Ep|]. wp_step. eapply wp_upd_proc; [cbn; by rw lookup_alter_eq Ep|]. wp_step. right.
    exists t, x, pre, (b_base x + (b_size x - size)), (Some t), (<[avail_unmapped p := pre ++ []]> m). split_and!; try done; try lia.
    + apply CWhole; [lia|lia|cbn; rw lookup_insert_eq; by eexists|cbn; by rw lookup_insert_ne; [congruence|]].
    + intros d Hd. cbn. by rw lookup_insert_ne; [congruence|].
    + do 2 (apply vm_base_procs; [|done]). eapply vm_base_rep; [exact Hb1|exact Hok|]. apply (vb_dom_insert s1 m lk n); [done|].
      intros k Hk. apply (vb_dom _ _ _ _ Hb1 _ _ k HA). rw app_nil_r in Hk. apply elem_of_app. by left.
    + by apply (Hsp (set_lists h' s1)).
  - wp_step. wp_step. wp_step. eapply wp_upd_proc; [exact Ep|]. wp_step. eapply wp_upd_proc; [cbn; by rw lookup_alter_eq Ep|]. wp_step. right.
    exists t, x, pre, (b_base x + (b_size x - size)), None, m. split_and!; try done; try lia.
    + apply CBack; [lia|lia| |cbn; by rw lookup_insert_ne; [congruence|]]. eexists. cbn. rw lookup_insert_eq. split; [done|]. cbn. split_and!; try done. lia.
    + intros d Hd. cbn. by rw lookup_insert_ne; [congruence|].
    + do 2 (apply vm_base_procs; [|done]). done.
    + by apply (Hsp s1).
Qed.

(** A block of the reuse list goes back into use. *)
Lemma reuse_inv s s' m n p pr b R I ys : vm_inv s m n → v_procs s !! p = Some pr →
  m !! reuse_mapped p = Some (R ++ [2 * b]) → m !! inuse_mapped p = Some I → (∀ i, i ∈ ys ↔ i ∈ I ∨ i = 2 * b) →
  vm_base s' (<[inuse_mapped p := ys]> (<[reuse_mapped p := R]> m)) unlocked n → same_procs s s' → v_blocks s' = v_blocks s →
  vm_inv s' (<[inuse_mapped p := ys]> (<[reuse_mapped p := R]> m)) n.
Proof.
  intros Hi Ep HR HI Hys Hb Hs Eb. set (m' := <[inuse_mapped p := ys]> _) in *. pose proof (vi_space _ _ _ _ Hi _ _ Ep) as Hsp.
  pose proof (vb_rep _ _ _ _ (vi_base _ _ _ _ Hi)) as Hr. assert (inuse_mapped p ≠ reuse_mapped p) as Hne by (rw /inuse_mapped /reuse_mapped; lia).
  assert (∀ l, l ≠ inuse_mapped p → l ≠ reuse_mapped p → m' !! l = m !! l) as Hm by (intros l ? ?; by rw /m' !lookup_insert_ne; [congruence..|]).
  assert (m' !! tlb_shootdown_reqs = m !! tlb_shootdown_reqs) as Etl by (apply Hm; rw /tlb_shootdown_reqs /inuse_mapped /reuse_mapped; lia).
  eapply (vm_inv_move s s' m m' _ _ _ _ p pr Hi Hb Hs Ep).
  - intros l Hl _. apply Hm; [specialize (Hl 6); rw /inuse_mapped; lia|specialize (Hl 5); rw /reuse_mapped; lia].
  - intros d. by rw Eb.
  - intros j Hj. rw /m' !lookup_insert. repeat (case_decide; [done|]). by apply (sp_lists _ _ _ _ _ Hsp).
  - intros k. rw /m' (on_proc_add (<[reuse_mapped p := R]> m) p 6 I ys (2 * b) k); [lia|rw lookup_insert_ne; [rw /reuse_mapped; lia|exact HI]|done|].
    rw (on_proc_change (v_lists s) m unlocked p 5 (R ++ [2 * b]) R [2 * b] [] k); [done|lia|exact HR|set_solver| |].
    + intros i. pose proof (il_nodup _ _ _ (rep_is_list _ _ _ _ _ Hr HR)) as (_ & Hd & _)%NoDup_app.
      rw elem_of_app !list_elem_of_singleton elem_of_nil. split; [|naive_solver]. intros Hi'. left. split; [by left|]. intros ->.
      apply (Hd _ Hi'). left.
    + rw list_elem_of_singleton elem_of_nil. destruct (decide (k = 2 * b)) as [->|]; [|tauto]. split; [|by right]. intros _.
      exists 5, (R ++ [2 * b]). split; [lia|]. split; [exact HR|]. apply elem_of_app. right. left.
  - rw Etl. intros xs k Hx Hk. destruct (vi_tlb _ _ _ _ Hi xs k Hx Hk) as (d & x & -> & Ex & ys' & Hy & Hdy). exists d, x.
    split; [done|]. split; [by rw Eb|]. exists ys'. by rw Hm; [rw /sanit_mapped /inuse_mapped; lia|rw /sanit_mapped /reuse_mapped; lia|].
  - rw Etl. apply Hi.
Qed.

Lemma wpp_reuse s m n p pr b R size reuser s1 : vm_inv s m n → v_procs s !! p = Some pr →
  m !! reuse_mapped p = Some (R ++ [2 * b]) → vm_base s1 (<[reuse_mapped p := R]> m) unlocked n → same_procs s s1 →
  v_blocks s1 = v_blocks s → callback_ok reuser →
  wpp (b ← lift_outcome (blk_of (PNode (2 * b)));
       x ← get_blk b;
       panic_if (negb (b_size x =? size));;
       reuser b;;
       insert_block (inuse_mapped p) b;;
       mret (Some b)) (λ _ s', ∃ m', vm_inv s' m' n ∧ same_procs s s') s1.
Proof.
  intros Hi Ep HR Hb1 Hs1 Eb1 Hcb. pose proof (vi_space _ _ _ _ Hi _ _ Ep) as Hsp.
  destruct (sp_lists _ _ _ _ _ Hsp 6 ltac:(lia)) as [I HI]. change (m !! inuse_mapped p = Some I) in HI.
  destruct (sp_good _ _ _ _ _ Hsp (2 * b)) as (b' & x & Eb' & Ex & _); [exists 5, (R ++ [2 * b]); split; [lia|]; split; [exact HR|apply elem_of_app; right; left]|].
  assert (b' = b) as -> by lia. assert (inuse_mapped p ≠ reuse_mapped p) as Hne by (rw /inuse_mapped /reuse_mapped; lia).
  apply wpp_bind, wpp_wp. wp_step; [reflexivity|]. cbv beta. rw (_ : 2 * b / 2 = b); [zdiv|].
  apply wpp_bind, wpp_wp. eapply wp_get_blk; [rw Eb1; exact Ex|]. apply wpp_bind.
  destruct (negb (b_size x =? size)); [done|]. apply wpp_wp. wp_step; [done|].
  apply wpp_bind. eapply wpp_mono; [apply (Hcb _ _ _ _ x Hb1); by rw Eb1|]. intros [] s2 (Hb2 & Eb2 & Hs2).
  apply wpp_wp. wp_step. eapply (wp_insert_block s2 _ n _ I b x); [exact Hb2|by rw lookup_insert_ne; [congruence|exact HI]|by rw Eb2 Eb1| |].
  { pose proof (removed_unlinked _ _ _ _ R (2 * b) [] (vb_rep _ _ _ _ (vi_base _ _ _ _ Hi)) HR) as Hu. by rw app_nil_r in Hu. }
  intros g ys Hys Hb3. wp_step. eexists. split.
  - eapply (reuse_inv s (set_lists g s2) m n p pr b R I ys Hi Ep HR HI Hys Hb3); [|by rw /= Eb2 Eb1]. etrans; [exact Hs1|exact Hs2].
  - etrans; [exact Hs1|exact Hs2].
Qed.

(** The new block [b] is set up over the piece that was cut off. *)
Definition thread_block (p c size : Z) (y : vm_block) : vm_block :=
  set_b_map_type VM_MAP_TYPE_OWNER (set_b_type VM_TYPE_THREAD (set_b_size size (set_b_base c (set_b_proc p y)))).

Lemma wpp_thread_finish s m n p b y c size del I mapper (Q : option Z → vm_state K → Prop) :
  vm_base s m unlocked n → is_Some (v_procs s !! p) → m !! inuse_mapped p = Some I → v_blocks s !! b = Some y →
  unlinked (2 * b) m → (∀ f, mapper = Some f → callback_ok f) → c ≠ 0 →
  (∀ d, del = Some d → d ≠ b ∧ is_Some (v_blocks s !! d) ∧ unlinked (2 * d) m ∧ unlinked (2 * d + 1) m) →
  (∀ s' ys, vm_base s' (<[inuse_mapped p := ys]> m) unlocked n → same_procs s s' → (∀ i, i ∈ ys ↔ i ∈ I ∨ i = 2 * b) →
     v_blocks s' !! b = Some (thread_block p c size y) →
     (∀ d, d ≠ b → del ≠ Some d → v_blocks s' !! d = v_blocks s !! d) → Q (Some b) s') →
  wpp (res ← (if ctrue c then
                upd_blk b (set_b_proc p);;
                upd_blk b (set_b_base c);;
                upd_blk b (set_b_size size);;
                upd_blk b (set_b_type VM_TYPE_THREAD);;
                upd_blk b (set_b_map_type VM_MAP_TYPE_OWNER);;
                match mapper with Some f => f b | None => mret tt end;;
                insert_block (inuse_mapped p) b;;
                mret (Some b)
              else sfree_audit b p;; mret None);
       free_deleted del p;;
       mret res) Q s.
Proof.
  intros Hb [pr Ep] HI Ey Hub Hcb Hc Hdel HQ. rw /ctrue. destruct (Z.eqb_spec c 0) as [|_]; [done|]. cbn [negb].
  apply wpp_bind, wpp_bind, wpp_wp. eapply wp_upd_blk; [exact Ey|]. do 4 (apply wpp_bind, wpp_wp; eapply wp_upd_blk; [by blk_simpl|]).
  set (s1 := upd_v_blocks _ _).
  assert (vm_base s1 m unlocked n) as Hb1.
  { do 4 (eapply vm_base_upd_blk; [|by blk_simpl]). eapply vm_base_upd_blk; [exact Hb|exact Ey]. }
  assert (v_blocks s1 !! b = Some (thread_block p c size y)) as Ey1 by by rw /s1; blk_simpl.
  assert (∀ d, d ≠ b → v_blocks s1 !! d = v_blocks s !! d) as E1 by (intros d Hd; by rw /s1; blk_simpl).
  apply wpp_bind. eapply (wpp_mono _ (λ _ s2, vm_base s2 m unlocked n ∧ v_blocks s2 = v_blocks s1 ∧ same_procs s1 s2)).
  { destruct mapper as [f|]; [by apply (Hcb f eq_refl _ _ _ _ _ Hb1 Ey1)|]. by apply wpp_wp; wp_step. }
  intros [] s2 (Hb2 & Eb2 & Hs2). apply wpp_bind, wpp_wp.
  eapply (wp_insert_block s2 m n _ I b); [exact Hb2|exact HI|rw Eb2; exact Ey1|done|]. intros g ys Hys Hb3. apply wpp_wp. wp_step.
  destruct (same_procs_lookup s1 _ _ _ Hs2 Ep) as (pr2 & Ep2 & _). apply wpp_wp. wp_step.
  eapply wp_free_deleted; [exact Hb3|by rw /= Ep2| |].
  { intros d Ed. destruct (Hdel d Ed) as (? & ? & ? & ?). split; [by rw /= Eb2 E1|].
    assert (∀ k, k ≠ 2 * b → unlinked k m → unlinked k (<[inuse_mapped p := ys]> m)) as Hun.
    { intros k Hk Hu l xs. rw lookup_insert. case_decide; [|apply Hu]. intros [= <-] [Hin|]%Hys; [|done]. by apply (Hu _ _ HI). }
    split; apply Hun; try done; lia. }
  intros s4 Hb4 Hs4 _ Eb4. wp_step. apply (HQ s4 ys); [done|etrans; [exact Hs2|exact Hs4]|done|..].
  - rw Eb4. destruct del as [d|]; [|by rw /= Eb2]. destruct (Hdel d eq_refl). by rw lookup_delete_ne // /= Eb2.
  - intros d Hd Hne. rw Eb4. destruct del as [d'|]; [rw lookup_delete_ne; [congruence|]|]; by rw /= Eb2 E1.
Qed.

(** [vm_alloc_thread] returns or panics, and keeps every process's space
    partitioned; it uses up at most one structure. *)
Lemma wpp_vm_alloc_thread s m n p pr size mapper reuser : vm_inv s m (S n) → v_procs s !! p = Some pr → 0 < size →
  (∀ f, mapper = Some f → callback_ok f) → callback_ok reuser →
  wpp (vm_alloc_thread p size mapper reuser) (λ _ s', ∃ m' n', (n ≤ n')%nat ∧ vm_inv s' m' n' ∧ same_procs s s') s.
Proof.
  intros Hi Ep Hsz Hmap Hre. pose proof (vi_space _ _ _ _ Hi _ _ Ep) as Hsp. destruct (sp_bounds _ _ _ _ _ Hsp) as [Hlo Hhi].
  destruct (sp_lists _ _ _ _ _ Hsp 5 ltac:(lia)) as [R HR]. destruct (sp_lists _ _ _ _ _ Hsp 2 ltac:(lia)) as [A HA].
  destruct (sp_lists _ _ _ _ _ Hsp 6 ltac:(lia)) as [I HI].
  change (m !! reuse_mapped p = Some R) in HR. change (m !! avail_unmapped p = Some A) in HA. change (m !! inuse_mapped p = Some I) in HI.
  pose proof (vi_base _ _ _ _ Hi) as Hb. rw /vm_alloc_thread. apply wpp_bind, wpp_wp. eapply wp_excl_pop_back; [apply Hb|exact HR|].
  intros g Hok. destruct R as [|k R _] using rev_ind; cbn [last ptr_of].
  2: { rw last_snoc drop_last_snoc in Hok |- *. cbn [ptr_of]. rw bool_decide_eq_false_2 //. cbn [negb].
       destruct (sp_good _ _ _ _ _ Hsp k) as (b & y & -> & _); [exists 5, (R ++ [k]); split; [lia|]; split; [exact HR|apply elem_of_app; right; left]|].
       eapply wpp_mono; [eapply (wpp_reuse s m (S n) p pr b R size reuser _ Hi Ep HR); [|done|done|done]|].
       - eapply vm_base_rep; [exact Hb|exact Hok|]. apply (vb_dom_insert s m unlocked (S n)); [done|]. intros k Hk.
         apply (vb_dom _ _ _ _ Hb _ _ k HR), elem_of_app. by left.
       - intros r s' (m' & Hi' & Hs'). exists m', (S n). split; [lia|done]. }
  cbn in Hok. rw insert_id // in Hok. rw bool_decide_eq_true_2 //. cbn [negb]. set (s0 := set_lists g s).
  assert (vm_inv s0 m (S n)) as Hi0 by (apply (vm_inv_base s); [done|eapply vm_base_rep; [exact Hb|exact Hok|apply Hb]|done|done]).
  clear Hok. apply wpp_bind, wpp_wp. eapply (wp_salloc_audit s0); [apply Hi0|by rw /= Ep|].
  intros b s1 Hb0 Hbn%not_elem_of_dom Hb1 Eb1 Hs1 _ Hub Hub'. destruct (same_procs_lookup s0 _ _ _ Hs1 Ep) as (pr1 & Ep1 & _).
  assert (∀ d, d ≠ b → v_blocks s1 !! d = v_blocks s0 !! d) as Eold by (intros d ?; rw Eb1 lookup_insert_ne; [congruence|done]).
  apply wpp_bind, wpp_wp. eapply wp_vm_access; [exact Hb1|exact HA|]. intros s2 Hb2 Eb2 Ep2 Hint2. eapply wp_mono.
  { apply (wp_carve_thread s2 m (holding (avail_unmapped p) (v_int s1)) n p b size A); [exact Hb2|apply holding_locked|exact HA|by rw Ep2 Ep1| |lia].
    intros k Hk. destruct (sp_good _ _ _ _ _ Hsp k) as (t & x & -> & Ex & Hxp & Hxs & Hx1 & Hx2); [exists 2, A; split; [lia|]; done|].
    assert (t ≠ b) by (intros ->; rw /= Ex in Hbn; done). exists t, x. rw Eb2 Eold //. split_and!; try done; lia. }
  intros r s3 [[-> ->]|(t & x & pre & c & del & m' & -> & EA & Ex & Hc0 & Hc1 & Hc2 & Hcv & Hother & Hb3 & Hs3 & Hint3)].
  - split; [done|]. exists m, n, A. split; [done|]. split; [done|]. intros s4 Hb4 Eb4 Ep4 _. cbv beta iota. change (ctrue 0) with false. cbv iota. apply wpp_wp. wp_step. wp_step.
    eapply wp_sfree_audit; [exact Hb4|by rw Ep4 Ep2 Ep1|rw Eb4 Eb2 Eb1; apply lookup_insert_eq|done|done|].
    intros s5 Hb5 Eb5 Hs5 _. wp_step. rw /free_deleted. wp_step. wp_step. exists m, n. split; [done|].
    assert (same_procs s s5) as Hss by (etrans; [exact Hs1|]; etrans; [|exact Hs5]; intros q; by rw Ep4 Ep2). split; [|done].
    assert (v_blocks s5 = v_blocks s) as E5.
    { rw Eb5 Eb4 Eb2 Eb1. apply map_eq. intros d. destruct (decide (b = d)) as [<-|]; [by rw lookup_delete_eq|].
      rw lookup_delete_ne // lookup_insert_ne //. }
    eapply (vm_inv_step s s5 m m _ _ _ _ p pr Hi); [done|done|done|done| | |..]; rw ?E5; try apply Hi; try done.
  - subst A. rw Eb2 in Hcv Hother Ex. assert (2 * t ∈ pre ++ [2 * t]) as Hin by (apply elem_of_app; right; left).
    destruct (carved_unlinked (v_lists s) m _ _ _ _ _ _ _ _ _ _ _ _ _ _ _ _ (vb_rep _ _ _ _ Hb) Hcv HA) as (Hun & Hdel & Huse & Hm' & [A' HA']).
    destruct (sp_good _ _ _ _ _ Hsp (2 * t)) as (t' & x' & Et' & Ext & Hxp & Hxs & Hxlo & Hxhi); [exists 2, (pre ++ [2 * t]); split; [lia|]; done|].
    assert (t' = t) as -> by lia. assert (t ≠ b) as Htb by (intros ->; rw /= Ext in Hbn; done).
    rw Eold // /= Ext in Ex. injection Ex as <-.
    assert (0 ≤ t) as Ht0 by (apply (vb_live _ _ _ _ Hb t); by apply elem_of_dom_2 in Ext).
    pose proof (tlb_unlinked s m _ _ p 2 _ t x' Hi HA Hin Ht0 ltac:(lia) ltac:(lia) Ext) as Hut.
    split; [by rw Hint3|]. exists m', n, A'. split; [done|]. split; [done|]. intros s4 Hb4 Eb4 Ep4 _. rw -Eb4 in Hcv Hother.
    assert (v_procs s2 !! p = Some pr1) as E2 by by rw Ep2. destruct (same_procs_lookup _ _ _ _ Hs3 E2) as (pr3 & Ep3 & _).
    eapply (wpp_thread_finish s4 m' n p b zero_block c size del I mapper); [exact Hb4|by rw Ep4 Ep3|rw Hm' //; rw /inuse_mapped /avail_unmapped; lia
      |rw Hother; [congruence|]; rw Eb1; apply lookup_insert_eq|by apply Huse|done|lia| |].
    { intros d Ed. destruct (Hdel d Ed) as [-> Hu]. split_and!; try done; [by destruct Hcv|apply Hun; [done|lia]]. }
    intros s5 ys Hb5 Hs5 Hys Ey Eoth. exists (<[inuse_mapped p := ys]> m'), n. split; [done|].
    assert (same_procs s s5) as Hss.
    { etrans; [exact Hs1|]. etrans; [|exact Hs5]. intros q. rw Ep4 (Hs3 q) Ep2. done. }
    split; [|done].
    eapply (alloc_inv s s5 m m' _ n p pr (v_blocks s1) (v_blocks s4) b b t x' c size pre [] del false I ys Hi Ep HA HI); try done.
    + intros d ? _. by rw Eold.
    + intros d ? _ ?. rw Eoth //; [intros E; by destruct (Hdel _ E) as [-> _]|]. rw Hother // Eold //.
    + eexists. split; [exact Ey|]. cbn. split_and!; try done. lia.
    + intros ->. by apply Eoth.
Qed.
End Thread.
