(* ===== verification/VmTlb.v ===== *)
(** Service of TLB shootdown requests, [service_tlb_shootdown_requests] of
    [src/src/kernel/proc/tlb.c]: every request is acknowledged, the requests at
    the front that all CPUs have acknowledged are retired, and the blocks only
    move from the mapped to the unmapped sanitizing list of their process. *)

From stdpp Require Import base list gmap sorting.
From Stdlib Require Import ZArith Lia.
From Corelib Require Import ssreflect.
From S2P Require Import Prelude Bits Lock Mem List ListSpec ListRep Vm VmSpec VmMove.

Section Service.
Context `{Harch : Arch} {K : Type} `{Henv : VmEnv K} `{!VmEnvLaws K}.
Implicit Types (s : vm_state K) (m : gmap Z (list Z)).

(** Neither the lists nor what the invariant sees of blocks and processes changes. *)
Definition acked s m lk n s' : Prop := vm_base s' m lk n ∧ same_core s s' ∧ same_procs s s' ∧ v_int s' = v_int s.

Lemma wp_ack_request s m lk n s1 TL k : vm_inv_at s m lk n → m !! tlb_shootdown_reqs = Some TL → k ∈ TL → acked s m lk n s1 →
  wp (ack_request (PNode k)) (λ _ s2, acked s m lk n s2) s1.
Proof.
  intros Hi Hl Hk (Hb1 & Hc1 & Hs1 & Hint1). destruct (vi_tlb _ _ _ _ Hi _ _ Hl Hk) as (b & x & -> & Ex & ys & Hy & Hby).
  destruct (vi_owner _ _ _ _ Hi _ _ _ Hy Hby) as [pr Ep].
  destruct (core_lookup _ _ _ _ (Hc1 b) Ex) as (x1 & Ex1 & Hp & _). destruct (same_procs_lookup _ _ _ _ Hs1 Ep) as (pr1 & Ep1 & _).
  rw /ack_request. wp_step. wp_step; [reflexivity|]. cbv beta. rw (_ : (2 * b + 1 - 1) / 2 = b); [zdiv|].
  wp_step. eapply wp_get_blk; [exact Ex1|]. wp_step. wp_step. destruct (v_cpu_seq s1 <? b_tlb_seq x1); [|by wp_step].
  wp_step. eapply (wp_mono _ (λ _ s2, vm_base s2 m lk n ∧ v_blocks s2 = v_blocks s1 ∧ v_procs s2 = v_procs s1 ∧ v_int s2 = v_int s1)).
  { destruct env_asid_supported; [|by wp_step]. wp_step. eapply wp_get_proc; [rw Hp; exact Ep1|]. apply wp_on_env.
    eapply wp_mono; [exact (invalidate_ok _ _ _ _ _ _ (vb_env _ _ _ _ Hb1))|]. intros [] k' He. split; [by apply (vm_base_env s1)|done]. }
  intros [] s2 (Hb2 & Eb2 & Ep2 & Hint2). wp_step. eapply wp_upd_blk; [rw Eb2; exact Ex1|]. wp_step. split; [|split; [|split]].
  - eapply (vm_base_ext (upd_v_blocks _ s2)); [eapply vm_base_upd_blk; [exact Hb2|rw Eb2; exact Ex1]|done|done|done|done].
  - intros d. cbn. destruct (decide (b = d)) as [<-|].
    + rw lookup_insert_eq -Hc1 Ex1. done.
    + by rw lookup_insert_ne // Eb2 Hc1.
  - intros q. cbn. by rw Ep2 Hs1.
  - cbn. congruence.
Qed.

(** A request that leaves the queue, and its block that leaves the mapped list. *)
Lemma retired_inv s m lk n s' b x TL SM1 SM2 SU :
  let p := b_proc x in
  let m' := <[sanit_unmapped p := SU ++ [2 * b]]> (<[sanit_mapped p := SM1 ++ SM2]> (<[tlb_shootdown_reqs := TL]> m)) in
  vm_inv_at s m lk n → m !! tlb_shootdown_reqs = Some ((2 * b + 1) :: TL) → v_blocks s !! b = Some x →
  m !! sanit_mapped p = Some (SM1 ++ 2 * b :: SM2) → m !! sanit_unmapped p = Some SU →
  vm_base s' m' lk n → v_blocks s' = v_blocks s → same_procs s s' → vm_inv_at s' m' lk n.
Proof.
  intros p m' Hi HT Ex HM HU Hb Eb Hs. pose proof (vb_rep _ _ _ _ (vi_base _ _ _ _ Hi)) as Hr.
  assert (2 * b ∈ SM1 ++ 2 * b :: SM2) as HbM by (apply elem_of_app; right; left).
  destruct (vi_owner _ _ _ _ Hi _ _ _ HM HbM) as [pr Ep]. pose proof (vi_space _ _ _ _ Hi _ _ Ep) as Hsp.
  assert (∀ l, l ≠ sanit_unmapped p → l ≠ sanit_mapped p → l ≠ tlb_shootdown_reqs → m' !! l = m !! l) as Hm
    by (intros l ? ? ?; rw /m'; do 3 (rw lookup_insert_ne; [congruence|]); done).
  assert (∀ j q, sanit_mapped q = 8 * p + j → 2 ≤ j ≤ 6 → q = p) as Hq by (rw /sanit_mapped; lia).
  assert (m' !! sanit_mapped p = Some (SM1 ++ SM2)) as HM'.
  { rw /m' lookup_insert_ne; [rw /sanit_mapped /sanit_unmapped; lia|]. apply lookup_insert_eq. }
  assert (m' !! tlb_shootdown_reqs = Some TL) as HT'.
  { rw /m' lookup_insert_ne; [rw /sanit_unmapped /tlb_shootdown_reqs; lia|]. rw lookup_insert_ne; [rw /sanit_mapped /tlb_shootdown_reqs; lia|]. apply lookup_insert_eq. }
  eapply (vm_inv_move s s' m m' _ _ _ _ p pr Hi Hb Hs Ep).
  - intros l Hl Hl0. apply Hm; [specialize (Hl 3); rw /sanit_unmapped; lia|specialize (Hl 4); rw /sanit_mapped; lia|done].
  - intros d. by rw Eb.
  - intros j Hj. rw /m' !lookup_insert. repeat (case_decide; [done|]). by apply (sp_lists _ _ _ _ _ Hsp).
  - intros k. set (m1 := <[tlb_shootdown_reqs := TL]> m). set (m2 := <[sanit_mapped p := SM1 ++ SM2]> m1).
    change m' with (<[8 * p + 3 := SU ++ [2 * b]]> m2).
    rw (on_proc_add m2 p 3 SU (SU ++ [2 * b]) (2 * b) k); [lia|rw /m2 lookup_insert_ne; [rw /sanit_mapped; lia|]; rw /m1 lookup_insert_ne; [rw /tlb_shootdown_reqs; lia|exact HU]
      |intros i; by rw elem_of_app list_elem_of_singleton|].
    assert (on_proc m2 p k ↔ on_proc m p k ∧ k ∉ [2 * b]) as ->.
    { pose (m3 := <[8 * p + 4 := SM1 ++ SM2]> m : gmap Z (list Z)). rw (on_proc_ext m3 m2 p).
      - intros j Hj. rw /m2 /m3 /sanit_mapped. destruct (decide (j = 4)) as [->|]; [by rw !lookup_insert_eq|].
        do 2 (rw lookup_insert_ne; [lia|]). rw /m1 lookup_insert_ne //. rw /tlb_shootdown_reqs. lia.
      - rw /m3 (on_proc_change (v_lists s) m lk p 4 (SM1 ++ 2 * b :: SM2) (SM1 ++ SM2) [2 * b] [] k); [done|lia|exact HM|set_solver| |by rw elem_of_nil; tauto].
        intros i. pose proof (removed_unlinked _ _ _ _ _ _ _ Hr HM _ _ (lookup_insert_eq _ _ _)) as Hn.
        rw !elem_of_app elem_of_cons list_elem_of_singleton elem_of_nil. rw elem_of_app in Hn. destruct (decide (i = 2 * b)) as [->|]; tauto. }
    rw list_elem_of_singleton. destruct (decide (k = 2 * b)) as [->|]; [|tauto]. split; [|by right]. intros _.
    exists 4, (SM1 ++ 2 * b :: SM2). by split; [lia|].
  - rw HT'. intros xs k [= <-] Hk. destruct (vi_tlb _ _ _ _ Hi _ k HT) as (d & y & -> & Ey & ys & Hy & Hdy); [by right|].
    exists d, y. split; [done|]. split; [by rw Eb|]. destruct (decide (b_proc y = p)) as [Eq|Hne].
    + rw Eq in Hy |- *. rw HM in Hy. injection Hy as <-. exists (SM1 ++ SM2). split; [done|].
      pose proof (il_nodup _ _ _ (rep_is_list _ _ _ _ _ Hr HT)) as [Hn _]%NoDup_cons.
      rw elem_of_app elem_of_cons in Hdy. rw elem_of_app. destruct Hdy as [|[E|]]; [by left| |by right].
      assert (d = b) as -> by lia. done.
    + exists ys. split; [|done]. rw Hm //; rw /sanit_mapped /sanit_unmapped /tlb_shootdown_reqs; lia.
  - rw HT'. by eexists.
Qed.

(** Retiring requests from the front of the queue, under its lock. *)
Lemma wp_retire_requests fuel : ∀ s m lk n TL (Q : unit → vm_state K → Prop),
  vm_inv_at s m lk n → m !! tlb_shootdown_reqs = Some TL → locked (lk tlb_shootdown_reqs) = true →
  (∀ l, l ≠ tlb_shootdown_reqs → lk l = SPINLOCK_INIT) → (length TL < fuel)%nat →
  (∀ s' m', vm_inv_at s' m' lk n → same_core s s' → same_procs s s' → v_int s' = v_int s → Q tt s') →
  wp (retire_requests fuel) Q s.
Proof.
  induction fuel as [|fuel IH]; intros s m lk n TL Q Hi HT Hlk Hfree Hf HQ; [lia|]. pose proof (vi_base _ _ _ _ Hi) as Hb.
  cbn [retire_requests]. wp_step. apply wp_on_lists. eapply wp_rep_count; [apply Hb|exact HT|]. rw set_lists_same.
  destruct (ctrue (ulong (Z.of_nat (length TL)))) eqn:Ec; [|wp_step; by apply (HQ s m)].
  destruct TL as [|k TL]; [done|]. destruct (vi_tlb _ _ _ _ Hi _ k HT) as (b & x & -> & Ex & SM & HM & HbM); [left|].
  destruct (vi_owner _ _ _ _ Hi _ _ _ HM HbM) as [pr Ep]. pose proof (vi_space _ _ _ _ Hi _ _ Ep) as Hsp.
  destruct (sp_lists _ _ _ _ _ Hsp 3 ltac:(lia)) as [SU HU]. change (m !! sanit_unmapped (b_proc x) = Some SU) in HU.
  wp_step. apply wp_on_lists. eapply wp_rep_front; [apply Hb|exact HT|done|]. rw set_lists_same. cbn [head ptr_of].
  wp_step. wp_step; [reflexivity|]. cbv beta. rw (_ : (2 * b + 1 - 1) / 2 = b); [zdiv|]. wp_step. eapply wp_get_blk; [exact Ex|].
  destruct (ctrue (b_wait_acks x)); [wp_step; by apply (HQ s m)|].
  wp_step. apply wp_on_lists. eapply wp_rep_pop_front; [apply Hb|exact HT|done|]. intros g Hok. cbn [tail] in Hok. wp_step.
  set (m1 := <[tlb_shootdown_reqs := TL]> m) in *. apply list_elem_of_split in HbM as (SM1 & SM2 & ->).
  assert (sanit_mapped (b_proc x) ≠ tlb_shootdown_reqs ∧ sanit_unmapped (b_proc x) ≠ tlb_shootdown_reqs) as [Hne1 Hne2]
    by (rw /sanit_mapped /sanit_unmapped /tlb_shootdown_reqs; lia).
  assert (vm_base (set_lists g s) m1 lk n) as Hb1.
  { eapply vm_base_rep; [exact Hb|exact Hok|]. apply (vb_dom_insert s m lk n); [done|]. intros k Hk.
    apply (vb_dom _ _ _ _ Hb _ _ k HT). by right. }
  eapply (wp_vm_move_to_sanit_unmapped (set_lists g s) m1 lk n (b_proc x) b x SM1 SM2 SU);
    [exact Hb1|by apply Hfree|by apply Hfree|by rw /= Ep|exact Ex|rw /m1 lookup_insert_ne; [congruence|done]|rw /m1 lookup_insert_ne; [congruence|done]|].
  intros s2 Hb2 Eb2 Hs2 Hint2.
  pose proof (retired_inv s m lk n s2 b x TL SM1 SM2 SU Hi HT Ex HM HU Hb2 Eb2 Hs2) as Hi2.
  eapply (IH s2 _ lk n TL); [exact Hi2| |done|done|cbn in Hf; lia|].
  - do 2 (rw lookup_insert_ne; [done|]). apply lookup_insert_eq.
  - intros s3 m3 Hi3 Hc3 Hs3 Hint3. apply (HQ s3 m3); [done| |etrans; [exact Hs2|exact Hs3]|by rw Hint3 Hint2].
    intros d. by rw (Hc3 d) Eb2.
Qed.

(** The service returns; blocks keep their addresses and their process, and
    every process's space stays partitioned. *)
Lemma wp_service_tlb_shootdown_requests s m n : vm_inv s m n →
  wp service_tlb_shootdown_requests (λ _ s', ∃ m', vm_inv s' m' n ∧ same_core s s' ∧ same_procs s s' ∧ v_int s' = v_int s) s.
Proof.
  intros Hi. destruct (vi_tlb_list _ _ _ _ Hi) as [TL HT]. pose proof (vi_base _ _ _ _ Hi) as Hb.
  rw /service_tlb_shootdown_requests. wp_step. eapply wp_vm_access; [exact Hb|exact HT|]. intros s1 Hb1 Eb1 Ep1 Hint1.
  set (lk := holding tlb_shootdown_reqs (v_int s)) in *.
  assert (vm_inv_at s1 m lk n) as Hi1.
  { destruct Hi as [? Hsp Ht Ho Htl Hodd]. split; try done; rw ?Eb1 ?Ep1 //. }
  eapply (wp_list_foreach s1 m lk _ TL _ (acked s1 m lk n)); [split_and!; [exact Hb1|done|done|done]|by intros s2 [Hb2 _]; apply Hb2|exact HT| |].
  { intros s2 k Hs2 Hk. exact (wp_ack_request s1 m lk n s2 TL k Hi1 HT Hk Hs2). }
  intros s2 (Hb2 & Hc2 & Hs2 & Hint2). split; [congruence|]. exists m, n, TL. split; [done|]. split; [done|].
  intros s3 Hb3 Eb3 Ep3 Hint3.
  assert (same_core s s3 ∧ same_procs s s3) as [Hc3 Hs3].
  { split; intros q; [rw Eb3 Hc2 Eb1|rw Ep3 Hs2 Ep1]; done. }
  assert (∀ s4, vm_base s4 m unlocked n → v_blocks s4 = v_blocks s3 → v_procs s4 = v_procs s3 → v_int s4 = v_int s3 →
    wp (list_access_exclusive tlb_shootdown_reqs (fuel ← gets (λ s, size (lnodes (v_lists s))); retire_requests fuel))
      (λ _ s', ∃ m', vm_inv s' m' n ∧ same_core s s' ∧ same_procs s s' ∧ v_int s' = v_int s) s4) as Hret.
  { intros s4 Hb4 Eb4 Ep4 Hint4.
    assert (same_core s s4 ∧ same_procs s s4) as [Hc4 Hs4] by (split; intros q; rw ?Eb4 ?Ep4; [apply Hc3|apply Hs3]).
    pose proof (vm_inv_base s s4 m n Hi Hb4 Hs4 Hc4) as Hi4. eapply wp_vm_access; [exact Hb4|exact HT|].
    intros s5 Hb5 Eb5 Ep5 Hint5. set (lk4 := holding tlb_shootdown_reqs (v_int s4)) in *.
    assert (vm_inv_at s5 m lk4 n) as Hi5 by (destruct Hi4 as [? Hsp Ht Ho Htl Hodd]; split; try done; rw ?Eb5 ?Ep5 //).
    wp_step. wp_step. eapply (wp_retire_requests _ s5 m lk4 n TL); [exact Hi5|exact HT|apply holding_locked| | |].
    - intros l Hl. rw /lk4 /holding decide_False //.
    - pose proof (is_list_size _ _ _ (rep_is_list _ _ _ _ _ (vb_rep _ _ _ _ Hb5) HT)). lia.
    - intros s6 m6 Hi6 Hc6 Hs6 Hint6. split; [congruence|]. destruct (vi_tlb_list _ _ _ _ Hi6) as [TL6 HT6].
      exists m6, n, TL6. split; [apply Hi6|]. split; [done|]. intros s7 Hb7 Eb7 Ep7 Hint7. exists m6. split.
      { destruct Hi6 as [? Hsp Ht Ho Htl Hodd]. split; try done; rw ?Eb7 ?Ep7 //. }
      split; [intros q; by rw Eb7 Hc6 Eb5 Hc4|]. split; [intros q; by rw Ep7 Hs6 Ep5 Hs4|congruence]. }
  wp_step. destruct env_asid_supported; [wp_step; by apply Hret|]. apply wp_on_env.
  eapply wp_mono; [exact (flush_ok _ _ _ (vb_env _ _ _ _ Hb3))|]. intros [] k He. apply Hret; try done. by apply (vm_base_env s3).
Qed.
End Service.
