(* ===== verification/VmProps.v ===== *)
(** The properties of the dynamic virtual memory of [Vm.v]: allocation,
    release, the return of sanitized blocks, purge, and the invariant of every
    state that these calls and the service of shootdown requests can reach, with a concrete environment and state to evaluate them on. *)

From stdpp Require Import base list gmap sorting relations.
From Stdlib Require Import ZArith Lia.
From Corelib Require Import ssreflect.
From S2P Require Import Prelude Bits Lock Mem List ListSpec ListRep Vm VmSpec VmMove VmAlloc VmTlb.

(** ** A concrete environment *)

(** Structures and page frames are handed out in order; pages are mapped one by
    one, except those that belong to a large page and cannot be unmapped alone.
    There is one CPU and one page table. *)
Record kernel_env := mk_kernel {
  k_object : Z;                      (* the next structure *)
  k_frame : Z;                       (* the next page frame *)
  k_allocated : gset Z;              (* page frames in use *)
  k_pages : gmap Z (Z * bool)        (* page, its frame, whether it is part of a large page *)
}.

Definition page_of (vaddr : Z) : Z := vaddr - vaddr mod 4096.

Definition frame_alloc (k : kernel_env) : outcome (Z * kernel_env) :=
  Ret (k_frame k, mk_kernel (k_object k) (k_frame k + 4096) ({[k_frame k]} ∪ k_allocated k) (k_pages k)).

#[local] Instance small_env : VmEnv kernel_env := {
  env_salloc k := Ret (Some (k_object k), mk_kernel (k_object k + 1) (k_frame k) (k_allocated k) (k_pages k));
  env_sfree _ := mret tt;
  env_palloc_paddr _ := frame_alloc;
  env_palloc_paddr_direct_mapped _ := frame_alloc;
  env_pfree_paddr a k :=
    if decide (a ∈ k_allocated k) then Ret (1, mk_kernel (k_object k) (k_frame k) (k_allocated k ∖ {[a]}) (k_pages k)) else Panic;
  env_translate _ vaddr k :=
    Ret (match k_pages k !! page_of vaddr with Some (f, _) => f + vaddr mod 4096 | None => 0 end, k);
  env_map_range _ vaddr paddr _ _ _ _ _ _ k :=
    Ret (1, mk_kernel (k_object k) (k_frame k) (k_allocated k) (<[page_of vaddr := (paddr, false)]> (k_pages k)));
  env_unmap_range _ vaddr _ _ k :=
    match k_pages k !! page_of vaddr with
    | Some (_, false) => Ret (1, mk_kernel (k_object k) (k_frame k) (k_allocated k) (delete (page_of vaddr) (k_pages k)))
    | _ => Panic
    end;
  env_cast_kernel_ptr_to_paddr a := a;
  env_invalidate_tlb _ _ _ := mret tt;
  env_flush_tlb := mret tt;
  env_num_cpus := 1;
  env_asid_supported := false;
  env_wake _ := mret tt
}.

#[local] Instance small_env_laws : VmEnvLaws (H := riscv64) kernel_env.
Proof.
  refine {| env_inv k X _ := 0 ≤ k_object k ∧ ∀ b, b ∈ X → b < k_object k; valid_table pt := pt = 0 |}.
  - intros k X n [Hk HX]. exists (k_object k). split; [done|]. split; [done|]. split; [intros ?%HX; lia|]. cbn. split; [lia|].
    intros b [->%elem_of_singleton|?%HX]%elem_of_union; lia.
  - intros k X n b [Hk HX] _. split; [done|]. intros c [Hc _]%elem_of_difference. by apply HX.
  - done.
  - done.
  - done.
  - by intros k X n pt va Hk _.
  - intros k X n pt va a k1 Hk _ [= _ <-] _. rw /wpp. cbn. destruct (k_pages k !! page_of va) as [[f []]|]; [done| |done].
    split; [exact Hk|]. by case_decide.
Defined.

(** A process with a block available, a block in use and a sanitized block,
    each of one page. *)
Definition demo_heap : list_heap :=
  mk_heap (list_to_map [
      (PHead 0, mk_node PNull (PTail 0) (Some 0)); (PTail 0, mk_node (PHead 0) PNull (Some 0));
      (PHead 2, mk_node PNull (PNode 0) (Some 2)); (PTail 2, mk_node (PNode 0) PNull (Some 2));
      (PHead 3, mk_node PNull (PNode 4) (Some 3)); (PTail 3, mk_node (PNode 4) PNull (Some 3));
      (PHead 4, mk_node PNull (PTail 4) (Some 4)); (PTail 4, mk_node (PHead 4) PNull (Some 4));
      (PHead 5, mk_node PNull (PTail 5) (Some 5)); (PTail 5, mk_node (PHead 5) PNull (Some 5));
      (PHead 6, mk_node PNull (PNode 2) (Some 6)); (PTail 6, mk_node (PNode 2) PNull (Some 6));
      (PNode 0, mk_node (PHead 2) (PTail 2) (Some 2)); (PNode 1, mk_node PNull PNull None);
      (PNode 2, mk_node (PHead 6) (PTail 6) (Some 6)); (PNode 3, mk_node PNull PNull None);
      (PNode 4, mk_node (PHead 3) (PTail 3) (Some 3)); (PNode 5, mk_node PNull PNull None)])
    (list_to_map [(0, mk_hdr 0 SPINLOCK_INIT); (2, mk_hdr 1 SPINLOCK_INIT); (3, mk_hdr 1 SPINLOCK_INIT);
      (4, mk_hdr 0 SPINLOCK_INIT); (5, mk_hdr 0 SPINLOCK_INIT); (6, mk_hdr 1 SPINLOCK_INIT)]).

Definition demo_proc : vm_proc := mk_proc 0 0 0 SPINLOCK_INIT 4096 16384 2 0 3 (mk_event false false) 1.

Definition demo_blocks : gmap Z vm_block :=
  list_to_map [(0, mk_block 0 4096 4096 VM_TYPE_AVAIL VM_MAP_TYPE_NONE 0 0);
               (1, mk_block 0 8192 4096 VM_TYPE_GENERIC VM_MAP_TYPE_OWNER 0 0);
               (2, mk_block 0 12288 4096 VM_TYPE_GENERIC VM_MAP_TYPE_OWNER 0 0)].

(** The sanitized page is mapped to a frame, on its own or in a large page. *)
Definition demo_at (large : bool) : vm_state kernel_env :=
  mk_vm demo_heap true demo_blocks {[0 := demo_proc]} 0 0 (mk_kernel 3 0x80001000 {[0x80000000]} {[12288 := (0x80000000, large)]}).
Definition demo : vm_state kernel_env := demo_at false.

Definition demo_lists : gmap Z (list Z) := list_to_map [(0, []); (2, [0]); (3, [4]); (4, []); (5, []); (6, [2])].

Lemma demo_lists_cases l xs : demo_lists !! l = Some xs →
  (l, xs) ∈ [(0, []); (2, [0]); (3, [4]); (4, []); (5, []); (6, [2])].
Proof. intros E. apply elem_of_list_to_map_2 in E. exact E. Qed.

(** Case analysis on the lists of the demonstration state. *)
Ltac demo_cases H :=
  apply demo_lists_cases in H; repeat (apply elem_of_cons in H as [H|H]; [injection H as -> ->|]); [..|by apply elem_of_nil in H].

Lemma demo_on_proc k : on_proc demo_lists 0 k ↔ k = 0 ∨ k = 2 ∨ k = 4.
Proof.
  split.
  - intros (j & xs & Hj & Hl & Hk). rw Z.mul_0_r Z.add_0_l in Hl.
    demo_cases Hl; try (by apply elem_of_nil in Hk); apply list_elem_of_singleton in Hk; auto.
  - intros [->|[->| ->]]; [exists 2, [0]|exists 6, [2]|exists 3, [4]]; (split; [lia|]); (split; [done|]); left.
Qed.

Lemma demo_inv large n : vm_inv_at (Harch := riscv64) (demo_at large) demo_lists unlocked n.
Proof.
  assert (vm_base (Harch := riscv64) (demo_at large) demo_lists unlocked n) as Hb.
  { split.
    - intros l xs Hl. demo_cases Hl; (split; [split; [by repeat split|by apply (bool_decide_unpack _)|
        intros x Hx; try (by apply elem_of_nil in Hx); by apply list_elem_of_singleton in Hx as ->|done]|done]).
    - split; [done|]. intros b Hb. rw /demo_at /= in Hb. apply elem_of_dom in Hb as [x Hx]. apply elem_of_list_to_map_2 in Hx.
      repeat (apply elem_of_cons in Hx as [Hx|Hx]; [injection Hx as -> _; cbn; lia|]). by apply elem_of_nil in Hx.
    - intros b Hb. rw /demo_at /= in Hb. apply elem_of_dom in Hb as [x Hx]. apply elem_of_list_to_map_2 in Hx.
      repeat (apply elem_of_cons in Hx as [Hx|Hx]; [injection Hx as -> _; split; [lia|]; split; by eexists|]). by apply elem_of_nil in Hx.
    - intros p pr Hp. cbn in Hp. apply lookup_singleton_Some in Hp as [<- <-]. by split.
    - intros l xs k Hl Hk. right. apply elem_of_dom.
      demo_cases Hl; try (by apply elem_of_nil in Hk); apply list_elem_of_singleton in Hk as ->; by eexists. }
  split; [done|..].
  - intros p pr Hp. cbn in Hp. apply lookup_singleton_Some in Hp as [<- <-]. split.
    + split; [done|]. done.
    + intros j Hj. assert (j = 2 ∨ j = 3 ∨ j = 4 ∨ j = 5 ∨ j = 6) as [->|[->|[->|[->| ->]]]] by lia; by eexists.
    + intros k [->|[->| ->]]%demo_on_proc; [exists 0|exists 1|exists 2]; (eexists; split; [done|]); (split; [reflexivity|]); cbn; lia.
    + split.
      * intros a Ha. cbn in Ha. destruct (Z.lt_ge_cases a 8192); [exists 0|destruct (Z.lt_ge_cases a 12288); [exists 2|exists 4]];
          rw demo_on_proc; (split; [auto|]); eexists; (split; [reflexivity|]); cbn; lia.
      * intros k k' a Hk%demo_on_proc Hk'%demo_on_proc (x & Ex & Hx) (x' & Ex' & Hx').
        destruct Hk as [->|[->| ->]], Hk' as [->|[->| ->]]; try done; exfalso;
          vm_compute in Ex, Ex'; injection Ex as <-; injection Ex' as <-; cbn in Hx, Hx'; lia.
  - intros xs k Hl Hk. assert (xs = []) as -> by (by injection Hl). by apply elem_of_nil in Hk.
  - intros q xs k Hl Hk. rw /sanit_mapped in Hl. apply demo_lists_cases in Hl.
    assert (8 * q + 4 = 4 ∨ xs = []) as [E| ->]; [|exists demo_proc; by assert (q = 0) as -> by lia|by apply elem_of_nil in Hk].
    repeat (apply elem_of_cons in Hl as [Hl|Hl]; [injection Hl as E ->; first [by right|left; lia|exfalso; lia]|]). by apply elem_of_nil in Hl.
  - by eexists.
  - intros l xs k Hl Hk _ Ho. demo_cases Hl; try (by apply elem_of_nil in Hk); apply list_elem_of_singleton in Hk as ->; done.
Qed.

(** ** The properties *)

Section Props.
Context `{Harch : Arch} {K : Type} `{Henv : VmEnv K} `{!VmEnvLaws K}.
Implicit Types (s : vm_state K) (m : gmap Z (list Z)).

(** C31. [vm_alloc] on every request, with two structures left to allocate
    (without them it panics).  Let [base] be the requested base rounded
    down and [end] the requested end, modulo the width of an address, rounded up
    to a page.  If [base] is below [end] the call returns: a new block in use of
    exactly that size, at that base unless the base is 0, over addresses that
    were available before, or NULL, in which case no available block could hold
    the request and nothing has changed; every process's space stays
    partitioned.  Otherwise the request is empty or its end wraps around, and the
    call still returns a block in use whenever an available block passes the
    test of the code: the block is empty, or it starts at [base] and reaches
    beyond the process's range up to the end of the address space. *)
Theorem vm_alloc_correct s m n p pr base0 size0 :
  let end_ := align_up_vaddr (ulong (base0 + size0)) PAGE_SIZE in
  let base := align_down_vsize base0 PAGE_SIZE in
  vm_inv s m (S (S n)) → v_procs s !! p = Some pr →
  (base < end_ →
   wp (vm_alloc p base0 size0) (λ r s', ∃ m', vm_inv s' m' n ∧ same_procs s s' ∧
    match r with
    | Some b => allocated s m s' m' p b base (end_ - base)
    | None => m' = m ∧ v_blocks s' = v_blocks s ∧
        ∀ A t x, m !! avail_unmapped p = Some A → 2 * t ∈ A → v_blocks s !! t = Some x →
          fits base (end_ - base) end_ x = false
    end) s) ∧
  (end_ ≤ base →
   wp (vm_alloc p base0 size0) (λ r s',
    match r with
    | Some b => ∃ y m' I, lists_rep (v_lists s') m' ∧ m' !! inuse_mapped p = Some I ∧ 2 * b ∈ I ∧ v_blocks s' !! b = Some y ∧
        (base ≠ 0 → b_base y = base) ∧ (end_ = base → b_size y = 0) ∧
        (end_ < base → b_size y = 2 ^ ARCH_WIDTH + end_ - base ∧ p_dynamic_end pr < b_base y + b_size y)
    | None => ∀ A t x, m !! avail_unmapped p = Some A → 2 * t ∈ A → v_blocks s !! t = Some x →
        fits base (ulong (end_ - base)) end_ x = false
    end) s).
Proof.
  intros end_ base Hi Ep. destruct (request_range base0 size0) as [Hbase Hend]. change (uint ARCH_WIDTH base) in Hbase. change (uint ARCH_WIDTH end_) in Hend.
  rw /uint in Hbase Hend. split; intros Hlt; [exact (wp_vm_alloc s m n p pr base0 size0 Hi Ep (conj (proj1 Hbase) Hlt) (proj2 Hend))|].
  eapply wp_mono; [exact (wp_vm_alloc_wrapped s m n p pr base0 size0 Hi Ep Hlt)|]. intros [b|] s'; [|done].
  intros (y & m' & I & Hr & HI & HbI & Ey & _ & Hyb & Hys). exists y, m', I. split_and!; try done.
  - intros E. by rw Hys -/end_ -/base E Z.sub_diag.
  - intros Hlt'. change (b_size y = ulong (end_ - base)) in Hys.
    assert (ulong (end_ - base) = 2 ^ ARCH_WIDTH + end_ - base) as Ew.
    { rw /ulong /wrap -(Z.mod_add _ 1); [lia|]. rw Z.mod_small; lia. }
    split; [congruence|]. rw Hyb; [lia|]. rw Hys Ew. pose proof (sp_bounds _ _ _ _ _ (vi_space _ _ _ _ Hi _ _ Ep)). lia.
Qed.

(** No block in use has the base: the kernel panics. *)
Lemma vm_free_panics s m n p pr base I : vm_inv s m n → v_procs s !! p = Some pr → m !! inuse_mapped p = Some I →
  (∀ t x, 2 * t ∈ I → v_blocks s !! t = Some x → b_base x ≠ base) → vm_free p base s = Panic.
Proof.
  intros Hi Ep HI Hno. pose proof (vi_base _ _ _ _ Hi) as Hb. pose proof (vi_space _ _ _ _ Hi _ _ Ep) as Hsp.
  assert (∀ k, k ∈ I → ∃ d y, k = 2 * d ∧ k / 2 = d ∧ v_blocks s !! d = Some y) as Hg.
  { intros k Hk. destruct (sp_good _ _ _ _ _ Hsp k) as (d & y & -> & Ey & _); [exists 6, I; split; [lia|]; done|].
    exists d, y. split_and!; try done. zdiv. }
  assert (wp (list_access_exclusive (inuse_mapped p) (find_base (inuse_mapped p) base)) (λ r _, r = None) s) as Hw.
  { eapply wp_vm_access; [exact Hb|exact HI|]. intros s1 Hb1 Eb1 Ep1 Hint1.
    eapply (wp_find_first s1 m _ _ I _ (with_base s base)); [apply Hb1|exact HI|..].
    - intros k R Hk HR. destruct (Hg k Hk) as (d & y & -> & Ed & Ey). rw /with_base Ed Ey in HR.
      wp_step. wp_step; [reflexivity|]. cbv beta iota. rw Ed. wp_step. eapply wp_get_blk; [rw Eb1; exact Ey|]. by wp_step.
    - split; [done|]. exists m, n, I. split; [done|]. split; [done|]. intros s2 _ _ _ _.
      destruct (first_some (with_base s base) I) as [d|] eqn:E; [|done]. apply first_some_Some in E as (pre & k & post & EI & Hk & _).
      assert (k ∈ I) as HkI by (rw EI; apply elem_of_app; right; left). destruct (Hg k HkI) as (d' & y & -> & Ed & Ey).
      rw /with_base Ed Ey in Hk. destruct (Z.eqb_spec (b_base y) base) as [Eb|]; [|done]. by destruct (Hno d' y HkI Ey). }
  apply wp_elim in Hw as (r & s' & E & ->). by rw /vm_free /mbind /M_bind E.
Qed.

(** [vm_free] by address.  If a block in use starts at [base] the call
    returns 0, exactly that block leaves the list of blocks in use, no block
    changes its addresses or is lost, and every process's space stays
    partitioned; if none does, the kernel panics. *)
Theorem vm_free_correct s m n p pr base I : vm_inv s m n → v_procs s !! p = Some pr → m !! inuse_mapped p = Some I →
  (∀ t x, 2 * t ∈ I → v_blocks s !! t = Some x → b_base x = base →
     wp (vm_free p base) (λ r s', r = 0 ∧ ∃ m' I1 I2, vm_inv s' m' n ∧ same_procs s s' ∧ same_core s s' ∧
       I = I1 ++ 2 * t :: I2 ∧ m' !! inuse_mapped p = Some (I1 ++ I2)) s) ∧
  ((∀ t x, 2 * t ∈ I → v_blocks s !! t = Some x → b_base x ≠ base) → vm_free p base s = Panic).
Proof.
  intros Hi Ep HI. split; [|exact (vm_free_panics s m n p pr base I Hi Ep HI)].
  intros t x Ht Ex Hx. eapply wp_vm_free; [exact Hi|exact Ep|exact HI|exact Ht|exact Ex|exact Hx|].
  intros s' m' I1 I2 ? ? ? ? ?. split; [done|]. by exists m', I1, I2.
Qed.

(** C32. [vm_move_sanit_to_avail] on a process whose range does not start in the
    first page.  It never faults or loops, and panics only when a sanitized page
    cannot be released, that is, when unmapping the page or giving its frame back
    panics, as for a page inside a large one.  Otherwise it leaves no sanitized
    block behind: the addresses available afterwards are exactly those that were
    available or sanitized before, the other lists keep their nodes and blocks,
    and every process's space stays partitioned although neighbouring blocks are
    merged and their structures freed. *)
Theorem vm_move_sanit_to_avail_correct s m n p pr :
  vm_inv s m n → v_procs s !! p = Some pr → PAGE_SIZE ≤ p_dynamic_start pr →
  wpn (∃ a, owned s m (sanit_unmapped p) a ∧ cannot_release (p_page_table pr) a)
   (vm_move_sanit_to_avail p) (λ _ s', ∃ m', vm_inv s' m' n ∧ same_procs s s' ∧
    m' !! sanit_unmapped p = Some [] ∧
    (∀ a, p_dynamic_start pr ≤ a < p_dynamic_end pr →
       owned s' m' (avail_unmapped p) a ↔ owned s m (avail_unmapped p) a ∨ owned s m (sanit_unmapped p) a) ∧
    (∀ l xs k, l ≠ avail_unmapped p → l ≠ sanit_unmapped p → m !! l = Some xs → k ∈ xs →
       m' !! l = Some xs ∧ v_blocks s' !! (k / 2) = v_blocks s !! (k / 2))) s.
Proof.
  intros Hi Ep Hpg. eapply wpn_mono; [by apply (wpn_vm_move_sanit_to_avail s m n p pr)| |].
  { intros (SU & k & a & Hl & Hk & Ha & Hc). exists a. split; [by exists SU, k|done]. }
  intros [] s' (m' & Hi' & Hmv & HS). exists m'. split; [done|]. split; [apply Hmv|]. split; [done|]. split.
  - intros a Ha. exact (moved_owned s m s' m' n p pr a Hi Hi' Ep Hmv HS Ha).
  - intros l xs k H1 H2 Hl Hk. assert (¬ changes true p l) as Hc by (rw /changes; naive_solver).
    rw (mv_lists _ _ _ _ _ _ Hmv) //. split; [done|]. by apply (mv_blocks _ _ _ _ _ _ Hmv l xs).
Qed.

(** [vm_purge] terminates, empties the list of blocks in use and returns
    how many there were; every process's space stays partitioned. *)
Theorem vm_purge_correct s m n p pr I : vm_inv s m n → v_procs s !! p = Some pr → m !! inuse_mapped p = Some I →
  wp (vm_purge p) (λ c s', ∃ m', vm_inv s' m' n ∧ same_procs s s' ∧ same_core s s' ∧
    m' !! inuse_mapped p = Some [] ∧ c = ulong (Z.of_nat (length I))) s.
Proof. apply wp_vm_purge. Qed.

(** One call of the kernel on an existing process, or the service of shootdown
    requests by a CPU whose sequence number is [q]. *)
Inductive vm_step s s' : Prop :=
| step_alloc p pr base0 size0 r :
    v_procs s !! p = Some pr →
    align_down_vsize base0 PAGE_SIZE < align_up_vaddr (ulong (base0 + size0)) PAGE_SIZE →
    vm_alloc p base0 size0 s = Ret (r, s') → vm_step s s'
| step_alloc_thread p pr size mapper reuser r :
    v_procs s !! p = Some pr → 0 < size → (∀ f, mapper = Some f → callback_ok f) → callback_ok reuser →
    vm_alloc_thread p size mapper reuser s = Ret (r, s') → vm_step s s'
| step_free p pr base r : v_procs s !! p = Some pr → vm_free p base s = Ret (r, s') → vm_step s s'
| step_move p pr : v_procs s !! p = Some pr → PAGE_SIZE ≤ p_dynamic_start pr →
    vm_move_sanit_to_avail p s = Ret (tt, s') → vm_step s s'
| step_purge p pr c : v_procs s !! p = Some pr → vm_purge p s = Ret (c, s') → vm_step s s'
| step_service q : service_tlb_shootdown_requests (set_v_cpu_seq q s) = Ret (tt, s') → vm_step s s'.

(** A release by address that returns. *)
Lemma vm_free_inv s s' m n p pr base r : vm_inv s m n → v_procs s !! p = Some pr → vm_free p base s = Ret (r, s') →
  ∃ m', vm_inv s' m' n.
Proof.
  intros Hi Ep E. pose proof (vi_space _ _ _ _ Hi _ _ Ep) as Hsp. destruct (sp_lists _ _ _ _ _ Hsp 6 ltac:(lia)) as [I HI].
  change (m !! inuse_mapped p = Some I) in HI.
  destruct (first_some (with_base s base) I) as [t|] eqn:Ef.
  - apply first_some_Some in Ef as (pre & k & post & EI & Hk & _).
    assert (k ∈ I) as HkI by (rw EI; apply elem_of_app; right; left).
    destruct (sp_good _ _ _ _ _ Hsp k) as (d & y & -> & Ey & _); [exists 6, I; split; [lia|]; done|].
    rw /with_base (_ : 2 * d / 2 = d) in Hk; [zdiv|]. rw Ey in Hk. destruct (Z.eqb_spec (b_base y) base) as [Eb|]; [|done].
    assert (wp (vm_free p base) (λ _ s', ∃ m', vm_inv s' m' n) s) as Hw.
    { eapply wp_vm_free; [exact Hi|exact Ep|exact HI|exact HkI|exact Ey|exact Eb|]. eauto. }
    exact (wp_run _ _ _ _ _ Hw E).
  - rw (vm_free_panics s m n p pr base I) // in E. intros t x Ht Ex Hb.
    pose proof (first_some_None _ _ Ef _ Ht) as En. rw /with_base (_ : 2 * t / 2 = t) in En; [zdiv|]. rw Ex in En.
    by destruct (Z.eqb_spec (b_base x) base).
Qed.

Lemma vm_step_inv s s' m n : vm_inv s m (S (S n)) → vm_step s s' → ∃ m' n', (n ≤ n')%nat ∧ vm_inv s' m' n'.
Proof.
  intros Hi Hst.
  destruct Hst as [p pr base0 size0 r Ep Hr E|p pr size mapper reuser r Ep Hsz Hmap Hre E|p pr base r Ep E|p pr Ep Hpg E|p pr c Ep E|q E].
  - destruct (request_range base0 size0) as [Hbase Hend]. rw /uint in Hbase Hend.
    destruct (wp_run _ _ _ _ _ (wp_vm_alloc s m n p pr base0 size0 Hi Ep ltac:(lia) ltac:(lia)) E) as (m' & Hi' & _). eauto.
  - destruct (wpp_run _ _ _ _ _ (wpp_vm_alloc_thread s m _ p pr size mapper reuser Hi Ep Hsz Hmap Hre) E) as (m' & n' & Hn & Hi' & _).
    exists m', n'. split; [lia|done].
  - destruct (vm_free_inv s s' m _ p pr base r Hi Ep E) as (m' & Hi'). exists m', (S (S n)). split; [lia|done].
  - destruct (wpn_run _ _ _ _ _ _ (wpn_vm_move_sanit_to_avail s m _ p pr Hi Ep Hpg) E) as (m' & Hi' & _).
    exists m', (S (S n)). split; [lia|done].
  - pose proof (vi_space _ _ _ _ Hi _ _ Ep) as Hsp. destruct (sp_lists _ _ _ _ _ Hsp 6 ltac:(lia)) as [I HI].
    destruct (wp_run _ _ _ _ _ (wp_vm_purge s m _ p pr I Hi Ep HI) E) as (m' & Hi' & _). exists m', (S (S n)). split; [lia|done].
  - assert (vm_inv (set_v_cpu_seq q s) m (S (S n))) as Hi'
      by (apply (vm_inv_base s); [done|by apply (vm_base_ext s); [apply Hi|..]|done|done]).
    destruct (wp_run _ _ _ _ _ (wp_service_tlb_shootdown_requests _ m _ Hi') E) as (m' & Hi2 & _). exists m', (S (S n)). split; [lia|done].
Qed.

Lemma vm_steps_inv k : ∀ s s' m n, vm_inv s m n → (2 * k ≤ n)%nat → nsteps vm_step k s s' → ∃ m' n', vm_inv s' m' n'.
Proof.
  induction k as [|k IH]; intros s s' m n Hi Hn Hst; [inversion Hst; subst; eauto|].
  inversion Hst as [|? ? s1 ? Hst1 Hst2]; subst. destruct n as [|[|n]]; [lia|lia|].
  destruct (vm_step_inv s s1 m n Hi Hst1) as (m1 & n1 & Hle & Hi1). apply (IH s1 s' m1 n1 Hi1); [lia|done].
Qed.

(** C30. After any sequence of allocations in general, allocations for threads,
    releases, purges, returns of sanitized blocks and services of TLB shootdown
    requests by any CPU, on any processes and in any order, every address of
    every process's dynamic range is owned through exactly one of the process's
    five lists, and by exactly one block of it.  A general allocation must be for
    a request that is neither empty nor wraps around (C31 says what happens
    otherwise), a thread block must not be empty, and its mapper and reuser must
    leave lists and blocks alone; sanitized blocks are returned for a process whose
    range does not start in the first page.  Each call may need two structures,
    so [2 * k] must be left to allocate for [k] calls. *)
Theorem vm_reachable_partition k s s' m n : vm_inv s m n → (2 * k ≤ n)%nat → nsteps vm_step k s s' →
  ∃ m', lists_rep (v_lists s') m' ∧ ∀ p pr a, v_procs s' !! p = Some pr → p_dynamic_start pr ≤ a < p_dynamic_end pr →
    ∃ j, 2 ≤ j ≤ 6 ∧ owned s' m' (8 * p + j) a ∧ (∀ i, 2 ≤ i ≤ 6 → owned s' m' (8 * p + i) a → i = j) ∧
      exists! b, ∃ xs, m' !! (8 * p + j) = Some xs ∧ 2 * b ∈ xs ∧ rng (v_blocks s') (2 * b) a.
Proof.
  intros Hi Hn Hst. destruct (vm_steps_inv k s s' m n Hi Hn Hst) as (m' & n' & Hi'). exists m'.
  pose proof (vb_rep _ _ _ _ (vi_base _ _ _ _ Hi')) as Hr. split; [exact Hr|]. intros p pr a Ep Ha.
  pose proof (vi_space _ _ _ _ Hi' _ _ Ep) as Hsp. destruct (space_owner s' m' p _ _ a Hsp Ha) as (j & Hj & Ho).
  exists j. split; [done|]. split; [done|]. split; [intros i Hij Hoi; exact (owner_unique s' m' _ p _ _ a i j Hr Hsp Hij Hj Hoi Ho)|].
  destruct Ho as (xs & k' & Hl & Hk & Hka).
  destruct (sp_good _ _ _ _ _ Hsp k') as (b & x & -> & _); [by exists j, xs|]. exists b. split; [by exists xs|].
  intros b' (xs' & Hl' & Hk' & Hka'). assert (2 * b = 2 * b'); [|lia].
  apply (proj2 (sp_part _ _ _ _ _ Hsp) _ _ a); [by exists j, xs|by exists j, xs'|done|done].
Qed.
End Props.

(** ** Witnesses *)

(** The available page is allocated; a request from the page in use up to the end
    of the address space and around to the first page is accepted although the
    process owns nothing above address 16384. *)
Lemma vm_alloc_correct_witness :
  wp (vm_alloc (H := riscv64) 0 4096 4096) (λ r s', ∃ b y, r = Some b ∧ v_blocks s' !! b = Some y ∧
    b_base y = 4096 ∧ b_size y = 4096) demo ∧
  wp (vm_alloc (H := riscv64) 0 8192 (2 ^ 64 - 4096)) (λ r s', ∃ b y, r = Some b ∧ v_blocks s' !! b = Some y ∧
    b_base y = 8192 ∧ b_size y = 2 ^ 64 - 4096) demo.
Proof.
  split; eapply wp_mono.
  - apply (proj1 (vm_alloc_correct (Harch := riscv64) demo demo_lists 0 0 demo_proc 4096 4096 (demo_inv false 2) eq_refl)). by vm_compute.
  - intros [b|] s' (m' & _ & _ & Hr).
    + destruct Hr as (_ & y & I & Ey & _ & _ & _ & Hs & Hb & _). exists b, y. split_and!; [done|done|by apply Hb|exact Hs].
    + destruct Hr as (_ & _ & Hno). by specialize (Hno [0] 0 _ eq_refl ltac:(left) eq_refl).
  - apply (proj2 (vm_alloc_correct (Harch := riscv64) demo demo_lists 0 0 demo_proc 8192 (2 ^ 64 - 4096) (demo_inv false 2) eq_refl)). by vm_compute.
  - intros [b|] s'.
    + intros (y & m' & I & _ & _ & _ & Ey & Hb & _ & Hs). exists b, y. split_and!; [done|done|by apply Hb|]. by destruct Hs as [-> _].
    + intros Hno. by specialize (Hno [0] 0 _ eq_refl ltac:(left) eq_refl).
Defined.

(** The state a call leaves. *)
Definition after {A} (m : M (vm_state kernel_env) A) (s : vm_state kernel_env) : vm_state kernel_env :=
  match m s with Ret (_, s') => s' | _ => s end.

(** The sanitized page is unmapped, its frame is given back and the page becomes
    available; if it is part of a large page the kernel panics. *)
Lemma vm_move_sanit_to_avail_correct_witness :
  (∃ s' m', vm_move_sanit_to_avail (H := riscv64) 0 demo = Ret (tt, s') ∧ owned s' m' (avail_unmapped 0) 12288 ∧
     k_pages (v_env s') = ∅ ∧ k_allocated (v_env s') = ∅) ∧
  vm_move_sanit_to_avail (H := riscv64) 0 (demo_at true) = Panic ∧
  ∃ a, owned (demo_at true) demo_lists (sanit_unmapped 0) a ∧ cannot_release (H := riscv64) 0 a.
Proof.
  pose proof (vm_move_sanit_to_avail_correct (Harch := riscv64) (demo_at true) demo_lists 0 0 demo_proc
    (demo_inv true 0) eq_refl ltac:(vm_compute; done)) as Hp.
  pose proof (vm_move_sanit_to_avail_correct (Harch := riscv64) demo demo_lists 0 0 demo_proc
    (demo_inv false 0) eq_refl ltac:(vm_compute; done)) as Hr.
  assert (vm_move_sanit_to_avail (H := riscv64) 0 (demo_at true) = Panic) as Ep by (vm_compute; reflexivity).
  assert (vm_move_sanit_to_avail (H := riscv64) 0 demo = Ret (tt, after (vm_move_sanit_to_avail (H := riscv64) 0) demo)) as Er by (vm_compute; reflexivity).
  split; [|split; [exact Ep|by rw /wpn Ep in Hp]].
  destruct (wpn_run _ _ _ _ _ _ Hr Er) as (m' & _ & _ & _ & Ha & _). exists (after (vm_move_sanit_to_avail (H := riscv64) 0) demo), m'.
  split; [exact Er|]. split; [|split; vm_compute; reflexivity]. apply Ha; [cbn; lia|]. right.
  exists [4], 4. split; [done|]. split; [left|]. eexists. split; [reflexivity|]. cbn. lia.
Defined.

(** Four calls: the sanitized page returns, the page in use is released, a thread
    gets a block and shootdown requests are served. *)
Definition no_reuse (b : Z) : M (vm_state kernel_env) unit := mret tt.
Lemma no_reuse_ok : callback_ok (Harch := riscv64) no_reuse.
Proof. intros s m n b x Hb Ex. rw /wpp /=. split; [exact Hb|]. split; reflexivity. Qed.

Definition demo2 := after (vm_move_sanit_to_avail (H := riscv64) 0) demo.
Definition demo3 := after (vm_free (H := riscv64) 0 8192) demo2.
Definition demo4 := after (vm_alloc_thread (H := riscv64) 0 4096 None no_reuse) demo3.
Definition demo5 := after (service_tlb_shootdown_requests (H := riscv64)) (set_v_cpu_seq 7 demo4).

Lemma vm_reachable_partition_witness :
  ∃ m', lists_rep (Harch := riscv64) (v_lists demo5) m' ∧ ∃ j, 2 ≤ j ≤ 6 ∧ owned demo5 m' (8 * 0 + j) 12288.
Proof.
  destruct (vm_reachable_partition (Harch := riscv64) 4 demo demo5 demo_lists 8) as (m' & Hr & Hp).
  - apply (demo_inv false).
  - lia.
  - apply (nsteps_l _ _ _ demo2); [apply (step_move _ _ 0 demo_proc); [reflexivity|by vm_compute|vm_compute; reflexivity]|].
    apply (nsteps_l _ _ _ demo3).
    { destruct (v_procs demo2 !! 0) as [pr|] eqn:E; [|by vm_compute in E]. apply (step_free _ _ 0 pr 8192 0); [exact E|]. vm_compute. reflexivity. }
    apply (nsteps_l _ _ _ demo4).
    { destruct (v_procs demo3 !! 0) as [pr|] eqn:E; [|by vm_compute in E].
      assert (vm_alloc_thread (H := riscv64) 0 4096 None no_reuse demo3 = Ret (Some 3, demo4)) as Ea by (vm_compute; reflexivity).
      assert (∀ f : Z → M (vm_state kernel_env) unit, None = Some f → callback_ok (Harch := riscv64) f) as Hn by discriminate.
      exact (step_alloc_thread _ _ 0 pr 4096 None no_reuse (Some 3) E eq_refl Hn no_reuse_ok Ea). }
    apply (nsteps_l _ _ _ demo5); [|constructor]. apply (step_service _ _ 7). vm_compute. reflexivity.
  - exists m'. split; [done|]. destruct (v_procs demo5 !! 0) as [pr|] eqn:E; [|by vm_compute in E].
    destruct (Hp 0 pr 12288 E) as (j & Hj & Ho & _); [vm_compute in E; injection E as <-; cbn; lia|]. exists j. split; [exact Hj|exact Ho].
Defined.
