(* ===== verification/Page.v ===== *)
(** Page tables: [src/src/libk/lib/page.c], over the entry formats of
    [src/src/arch/riscv/common/include/page.h] and
    [src/src/arch/x86/common/include/page.h].

    The format of an entry is the interface [PageArch], which the architectures
    implement.  [pg_tables !! ptr] is the table at address [ptr]: its entries by
    index, an entry that is not there being zero.  Allocation and release of
    table frames and the conversion of physical addresses to pointers are the
    function pointers given to [init_libk_page_table], the interface [PageEnv]. *)

From stdpp Require Import base list gmap.
From Stdlib Require Import ZArith Lia.
From Corelib Require Import ssreflect.
From S2P Require Import Prelude Bits Mem.

(** ** Entry formats *)

(** The attributes [page_get_pte_attri] writes through its pointers. *)
Record attri := mk_attri { a_exec : Z; a_read : Z; a_write : Z; a_cache : Z; a_kernel : Z }.

Class PageArch := {
  pte : Type;
  pte_zero : pte;                                (* value == 0 *)
  pte_is_zero : pte → bool;
  PAGE_LEVELS : Z;
  PAGE_TABLE_ENTRY_COUNT : Z;
  page_get_pte : Z → Z → Z;                      (* level, vaddr: the index in the table *)
  page_is_pte_valid : pte → Z → bool;
  page_is_pte_leaf : pte → Z → bool;
  page_get_pte_dest_ppfn : pte → Z → Z;
  page_get_pte_next_table : pte → Z → Z;
  page_get_pte_attri : pte → Z → attri;
  page_compare_pte_attri : pte → Z → Z → Z → Z → Z → Z → Z → Z;
  page_set_pte_attri : Z → Z → Z → Z → Z → Z → Z → pte;
  page_set_pte_next_table : Z → Z → pte;
  page_is_mappable : Z → Z → Z → Z → Z → Z → Z → bool;
  page_get_num_table_pages : Z → Z;
  page_get_block_page_count : Z → Z
}.

(** C's [!x] on integers, and a value stored in a field of [w] bits. *)
Definition cnot (x : Z) : Z := if ctrue x then 0 else 1.
Definition bit (x : Z) : Z := wrap 1 x.

(** *** RISC-V *)

Module Riscv.

Record page_table_entry := mk_pte {
  valid : Z; read : Z; write : Z; exec : Z; user : Z; global : Z; accessed : Z; dirty : Z; leaf : Z; reserved : Z; pfn : Z
}.

Definition zero : page_table_entry := mk_pte 0 0 0 0 0 0 0 0 0 0 0.

Definition is_zero (e : page_table_entry) : bool :=
  forallb (λ x, x =? 0) [valid e; read e; write e; exec e; user e; global e; accessed e; dirty e; leaf e; reserved e; pfn e].

Section Format.
Context `{Arch}.

Definition levels : Z := if ARCH_WIDTH =? 32 then 2 else if MAX_NUM_VADDR_BITS =? 48 then 4 else 3.
Definition entry_bits : Z := if ARCH_WIDTH =? 32 then 10 else 9.
Definition entry_count : Z := if ARCH_WIDTH =? 32 then 1024 else 512.

Definition get_pte (level vaddr : Z) : Z :=
  Z.land (shr (shr vaddr PAGE_BITS) ((levels - level) * entry_bits)) (entry_count - 1).

Definition is_pte_valid (e : page_table_entry) (level : Z) : bool := ctrue (valid e).
Definition is_pte_leaf (e : page_table_entry) (level : Z) : bool := ctrue (leaf e).
Definition get_pte_dest_ppfn (e : page_table_entry) (level : Z) : Z := wrap PADDR_WIDTH (pfn e).
Definition get_pte_next_table (e : page_table_entry) (level : Z) : Z := get_pte_dest_ppfn e level.

Definition get_pte_attri (e : page_table_entry) (level : Z) : attri :=
  mk_attri (if ctrue (exec e) then 1 else 0) (if ctrue (read e) then 1 else 0) (if ctrue (write e) then 1 else 0) 1
    (if ctrue (user e) then 0 else 1).

Definition compare_pte_attri (e : page_table_entry) (level ppfn x r w cache kernel : Z) : Z :=
  if negb (pfn e =? ppfn) || negb (exec e =? x) || negb (read e =? r) || negb (write e =? w) ||
     negb (user e =? cnot kernel)
  then -1 else 0.

Definition set_pte_attri (level ppfn x r w cache kernel : Z) : page_table_entry :=
  mk_pte 1 (bit r) (bit w) (bit x) (bit (cnot kernel)) 0 0 0 1 0 (wrap (ARCH_WIDTH - 10) ppfn).

Definition set_pte_next_table (level ppfn : Z) : page_table_entry :=
  mk_pte 1 0 0 0 0 0 0 0 0 0 (wrap (ARCH_WIDTH - 10) ppfn).

Definition get_block_page_count (level : Z) : Z := shl ARCH_WIDTH 1 ((levels - level) * entry_bits).

Definition format : PageArch := {|
  pte := page_table_entry;
  pte_zero := zero;
  pte_is_zero := is_zero;
  PAGE_LEVELS := levels;
  PAGE_TABLE_ENTRY_COUNT := entry_count;
  page_get_pte := get_pte;
  page_is_pte_valid := is_pte_valid;
  page_is_pte_leaf := is_pte_leaf;
  page_get_pte_dest_ppfn := get_pte_dest_ppfn;
  page_get_pte_next_table := get_pte_next_table;
  page_get_pte_attri := get_pte_attri;
  page_compare_pte_attri := compare_pte_attri;
  page_set_pte_attri := set_pte_attri;
  page_set_pte_next_table := set_pte_next_table;
  page_is_mappable := λ _ _ _ _ _ _ _, true;
  page_get_num_table_pages := λ _, 1;
  page_get_block_page_count := get_block_page_count
|}.

End Format.
End Riscv.

(** *** AMD64 ([PAGE_PAE] is 1) *)

Module Amd64.

Record page_table_entry := mk_pte {
  present : Z; write_allow : Z; user_allow : Z; write_thru : Z; cache_disabled : Z; accessed : Z; dirty : Z;
  large_page : Z; global : Z; avail : Z; pfn : Z; no_exec : Z
}.

Definition zero : page_table_entry := mk_pte 0 0 0 0 0 0 0 0 0 0 0 0.

Definition is_zero (e : page_table_entry) : bool :=
  forallb (λ x, x =? 0) [present e; write_allow e; user_allow e; write_thru e; cache_disabled e; accessed e; dirty e;
                         large_page e; global e; avail e; pfn e; no_exec e].

Definition levels : Z := 4.
Definition entry_bits : Z := 9.
Definition entry_count : Z := 512.

Section Format.
Context `{Arch}.

Definition get_pte (level vaddr : Z) : Z :=
  Z.land (shr (shr vaddr PAGE_BITS) ((levels - level) * entry_bits)) (entry_count - 1).

Definition is_pte_valid (e : page_table_entry) (level : Z) : bool := ctrue (present e).
Definition is_pte_leaf (e : page_table_entry) (level : Z) : bool :=
  if level <? 3 then false else if level =? 3 then ctrue (large_page e) else true.
Definition get_pte_dest_ppfn (e : page_table_entry) (level : Z) : Z := wrap PADDR_WIDTH (pfn e).
Definition get_pte_next_table (e : page_table_entry) (level : Z) : Z := get_pte_dest_ppfn e level.

Definition get_pte_attri (e : page_table_entry) (level : Z) : attri :=
  mk_attri (if ctrue (no_exec e) then 0 else 1) 1 (if ctrue (write_allow e) then 1 else 0)
    (if ctrue (cache_disabled e) then 0 else 1) (if ctrue (user_allow e) then 0 else 1).

Definition compare_pte_attri (e : page_table_entry) (level ppfn x r w cache kernel : Z) : Z :=
  if negb (pfn e =? ppfn) || negb (cache_disabled e =? cnot cache) || negb (write_allow e =? w) ||
     negb (user_allow e =? cnot kernel) || negb (no_exec e =? cnot x)
  then -1 else 0.

Definition set_pte_attri (level ppfn x r w cache kernel : Z) : page_table_entry :=
  mk_pte 1 (bit w) (bit (cnot kernel)) 0 (bit (cnot cache)) 0 0 (if level =? 3 then 1 else 0) 0 0 (wrap 51 ppfn) (bit (cnot x)).

Definition set_pte_next_table (level ppfn : Z) : page_table_entry :=
  mk_pte 1 1 1 0 0 0 0 0 0 0 (wrap 51 ppfn) 0.

Definition get_block_page_count (level : Z) : Z :=
  if level <? 3 then 0 else shl ARCH_WIDTH 1 ((levels - level) * entry_bits).

Definition format : PageArch := {|
  pte := page_table_entry;
  pte_zero := zero;
  pte_is_zero := is_zero;
  PAGE_LEVELS := levels;
  PAGE_TABLE_ENTRY_COUNT := entry_count;
  page_get_pte := get_pte;
  page_is_pte_valid := is_pte_valid;
  page_is_pte_leaf := is_pte_leaf;
  page_get_pte_dest_ppfn := get_pte_dest_ppfn;
  page_get_pte_next_table := get_pte_next_table;
  page_get_pte_attri := get_pte_attri;
  page_compare_pte_attri := compare_pte_attri;
  page_set_pte_attri := set_pte_attri;
  page_set_pte_next_table := set_pte_next_table;
  page_is_mappable := λ _ _ _ _ _ _ _, true;
  page_get_num_table_pages := λ _, 1;
  page_get_block_page_count := get_block_page_count
|}.

End Format.
End Amd64.

(** ** The operations *)

(** [page_palloc], [page_pfree] and [page_paddr_to_ptr]; each may be NULL. *)
Class PageEnv (K : Type) := {
  page_palloc : option (Z → M K Z);
  page_pfree : option (Z → M K Z);
  page_paddr_to_ptr : option (Z → Z)
}.

Record page_state `{PageArch} (K : Type) := mk_pg { pg_tables : gmap Z (gmap Z pte); pg_env : K }.

Arguments mk_pg {_ K} _ _.
Arguments pg_tables {_ K} _.
Arguments pg_env {_ K} _.

Section Page.
Context `{Harch : Arch} `{Hpa : PageArch} {K : Type} `{PageEnv K}.

Abbreviation PG := (M (page_state K)).

Definition set_tables (f : gmap Z (gmap Z pte) → gmap Z (gmap Z pte)) (s : page_state K) : page_state K :=
  mk_pg (f (pg_tables s)) (pg_env s).
Definition set_pg_env (k : K) (s : page_state K) : page_state K := mk_pg (pg_tables s) k.
Definition on_pg_env {A} (m : M K A) : PG A := zoom pg_env set_pg_env m.

(** An entry of the table at [t]. *)
Definition entry_at (T : gmap Z (gmap Z pte)) (t i : Z) : option pte :=
  es ← T !! t; Some (default pte_zero (es !! i)).
Definition read_pte (t i : Z) : PG pte := deref (λ s, entry_at (pg_tables s) t i).
Definition write_pte (t i : Z) (e : pte) : PG unit :=
  read_pte t i;; modify (set_tables (alter (<[i := e]>) t)).

(** The loop of [page_get_block_level] over the levels [ls]. *)
Fixpoint block_level_loop (ls : list Z) (vaddr paddr size : Z) : Z * Z :=
  match ls with
  | [] => (PAGE_LEVELS, 1)
  | level :: ls' =>
      let page_count := page_get_block_page_count level in
      let block_size := shl ARCH_WIDTH page_count PAGE_BITS in
      if ctrue page_count && is_vaddr_aligned vaddr (s32 block_size) && is_paddr_aligned paddr (s32 block_size) &&
         (block_size <=? size)
      then (level, page_count)
      else block_level_loop ls' vaddr paddr size
  end.

(** The level and [block_page_count]. *)
Definition page_get_block_level (vaddr paddr size : Z) : Z * Z :=
  block_level_loop (seqZ 1 PAGE_LEVELS) vaddr paddr size.

Definition page_ppfn_to_ptr (ppfn : Z) : outcome Z :=
  let paddr := ppfn_to_paddr ppfn in
  match page_paddr_to_ptr with
  | Some f => Ret (f paddr)
  | None => cast_paddr_to_ptr paddr
  end.

Definition page_get_block_vmask (level : Z) : outcome Z :=
  let block_page_count := page_get_block_page_count level in
  if ctrue block_page_count
  then Ret (Z.lor (PAGE_SIZE - 1) (shl ARCH_WIDTH (ulong (block_page_count - 1)) PAGE_BITS))
  else Panic.

Definition page_get_pte_dest_paddr (e : pte) (level vaddr : Z) : outcome Z :=
  let ppfn := page_get_pte_dest_ppfn e level in
  vmask ← page_get_block_vmask level;
  let paddr := ppfn_to_paddr ppfn in
  off ← cast_vaddr_to_paddr (Z.land vaddr vmask);
  mret (Z.lor paddr off).

(** The pointer and the frame of a new, zeroed table. *)
Definition page_alloc_table (level : Z) : PG (Z * Z) :=
  let num_pages := page_get_num_table_pages level in
  match page_palloc with
  | None => fault
  | Some palloc =>
      pfn ← on_pg_env (palloc num_pages);
      ptr ← lift_outcome (page_ppfn_to_ptr pfn);
      modify (set_tables <[ptr := ∅]>);;
      mret (ptr, pfn)
  end.

Definition page_free_table (page_table level ppfn : Z) : PG unit :=
  match page_pfree with
  | None => fault
  | Some pfree =>
      num_freed_pages ← on_pg_env (pfree ppfn);
      modify (set_tables (delete page_table));;
      assert (num_freed_pages =? page_get_num_table_pages level)
  end.

(** *** Translate *)

(** [level < PAGE_LEVELS] has at most [PAGE_LEVELS] rounds.  The attributes are
    returned when the walk ends in a mapping. *)
Fixpoint translate_loop (fuel : nat) (page_table level vaddr : Z) : PG (Z * option attri) :=
  if level <? PAGE_LEVELS then
    match fuel with
    | O => diverge
    | S fuel' =>
        e ← read_pte page_table (page_get_pte level vaddr);
        if negb (page_is_pte_valid e level) then mret (0, None)
        else if negb (page_is_pte_leaf e level) then
          t ← lift_outcome (page_ppfn_to_ptr (page_get_pte_next_table e level));
          translate_loop fuel' t (level + 1) vaddr
        else
          paddr ← lift_outcome (page_get_pte_dest_paddr e level vaddr);
          mret (paddr, Some (page_get_pte_attri e level))
    end
  else
    e ← read_pte page_table (page_get_pte level vaddr);
    if negb (page_is_pte_valid e level) then mret (0, None)
    else
      assert (page_is_pte_leaf e level);;
      paddr ← lift_outcome (page_get_pte_dest_paddr e level vaddr);
      mret (paddr, Some (page_get_pte_attri e level)).

Definition _translate_attri (page_table vaddr : Z) : PG (Z * option attri) :=
  translate_loop (Z.to_nat PAGE_LEVELS) page_table 1 vaddr.

Definition generic_translate_attri (page_table vaddr : Z) : PG (Z * option attri) :=
  _translate_attri page_table vaddr.

Definition generic_translate (page_table vaddr : Z) : PG Z :=
  '(paddr, _) ← _translate_attri page_table vaddr;
  mret paddr.

(** *** Map *)

(** The first loop of [map_page]: the table at level [block]. *)
Fixpoint map_walk (fuel : nat) (page_table level vaddr ppfn block cache exec write kernel : Z) : PG Z :=
  if level <? block then
    match fuel with
    | O => diverge
    | S fuel' =>
        let i := page_get_pte level vaddr in
        e ← read_pte page_table i;
        next ←
          (if negb (page_is_pte_valid e level) then
             '(t, next_ppfn) ← page_alloc_table (level + 1);
             assert (ctrue next_ppfn);;
             assert (ctrue t);;
             write_pte page_table i (page_set_pte_next_table level next_ppfn);;
             mret t
           else
             (if page_is_pte_leaf e level &&
                 ctrue (page_compare_pte_attri e level ppfn exec 1 write cache kernel)
              then generic_translate_attri page_table vaddr;; panic
              else mret tt);;
             lift_outcome (page_ppfn_to_ptr (page_get_pte_next_table e level)));
        map_walk fuel' next (level + 1) vaddr ppfn block cache exec write kernel
    end
  else mret page_table.

Definition map_page (page_table vaddr paddr block cache exec write kernel : Z) : PG unit :=
  panic_if ((vaddr =? 0) && ctrue paddr);;
  let ppfn := paddr_to_ppfn paddr in
  t ← map_walk (Z.to_nat block) page_table 1 vaddr ppfn block cache exec write kernel;
  let level := Z.max 1 block in
  let i := page_get_pte level vaddr in
  e ← read_pte t i;
  if page_is_pte_valid e level then
    if ctrue (page_compare_pte_attri e level ppfn exec 1 write cache kernel)
    then generic_translate_attri t vaddr;; panic
    else mret tt
  else write_pte t i (page_set_pte_attri level ppfn exec 1 write exec kernel).

Fixpoint map_range_loop (fuel : nat) (page_table cur_vaddr cur_paddr vaddr_end mapped_pages cache exec write kernel : Z) : PG Z :=
  if cur_vaddr <? vaddr_end then
    match fuel with
    | O => diverge
    | S fuel' =>
        let region_size := ulong (vaddr_end - cur_vaddr) in
        let '(block0, count0) := page_get_block_level cur_vaddr (wrap PADDR_WIDTH cur_paddr) region_size in
        let '(block, block_page_count) := if ctrue block0 then (block0, count0) else (PAGE_LEVELS, 1) in
        map_page page_table cur_vaddr (wrap PADDR_WIDTH cur_paddr) block cache exec write kernel;;
        map_range_loop fuel' page_table (ulong (cur_vaddr + ulong (block_page_count * PAGE_SIZE)))
          (u64 (cur_paddr + ulong (block_page_count * PAGE_SIZE))) vaddr_end
          (s32 (mapped_pages + block_page_count)) cache exec write kernel
    end
  else mret mapped_pages.

Definition generic_map_range (page_table vaddr paddr size cache exec write kernel override : Z) : PG Z :=
  panic_if (match page_palloc with Some _ => false | None => true end);;
  panic_if (negb (page_is_mappable vaddr paddr exec 1 write cache kernel));;
  let vaddr_start := ALIGN_DOWN ARCH_WIDTH vaddr PAGE_SIZE in
  let vaddr_end := ALIGN_UP ARCH_WIDTH (ulong (vaddr + size)) PAGE_SIZE in
  let paddr_start := u64 (ALIGN_DOWN PADDR_WIDTH paddr PAGE_SIZE) in
  map_range_loop (Z.to_nat ((vaddr_end - vaddr_start) / PAGE_SIZE)) page_table vaddr_start paddr_start vaddr_end 0
    cache exec write kernel.

(** *** Unmap *)

Definition page_is_empty_table (page_table level : Z) : PG bool :=
  es ← deref (λ s, pg_tables s !! page_table);
  mret (forallb (λ i, pte_is_zero (default pte_zero (es !! i))) (seqZ 0 PAGE_TABLE_ENTRY_COUNT)).

(** The first loop of [unmap_page]: the table at level [block], and the tables
    above it with the entries followed, the last one first ([page_tables] and
    [ptes]). *)
Fixpoint unmap_walk (fuel : nat) (page_table level vaddr block : Z) (stack : list (Z * Z)) : PG (Z * list (Z * Z)) :=
  if level <? block then
    match fuel with
    | O => diverge
    | S fuel' =>
        let i := page_get_pte level vaddr in
        e ← read_pte page_table i;
        panic_if (negb (page_is_pte_valid e level));;
        panic_if (page_is_pte_leaf e level);;
        t ← lift_outcome (page_ppfn_to_ptr (page_get_pte_next_table e level));
        unmap_walk fuel' t (level + 1) vaddr block ((page_table, i) :: stack)
    end
  else mret (page_table, stack).

(** Free the tables that have become empty. *)
Fixpoint free_tables (stack : list (Z * Z)) (page_table level : Z) : PG unit :=
  match stack with
  | [] => mret tt
  | (prev_table, prev_i) :: stack' =>
      empty ← page_is_empty_table page_table level;
      if negb empty then mret tt else
      e ← read_pte prev_table prev_i;
      let page_table_ppfn := page_get_pte_next_table e (level - 1) in
      page_table_ptr ← lift_outcome (page_ppfn_to_ptr page_table_ppfn);
      assert (page_table_ptr =? page_table);;
      page_free_table page_table level page_table_ppfn;;
      write_pte prev_table prev_i pte_zero;;
      free_tables stack' prev_table (level - 1)
  end.

Definition unmap_page (page_table vaddr paddr block : Z) : PG unit :=
  '(t, stack) ← unmap_walk (Z.to_nat block) page_table 1 vaddr block [];
  let level := Z.max 1 block in
  let i := page_get_pte level vaddr in
  e ← read_pte t i;
  panic_if (negb (page_is_pte_valid e level));;
  panic_if (negb (page_is_pte_leaf e level));;
  old_paddr ← lift_outcome (page_get_pte_dest_paddr e level vaddr);
  panic_if (negb (old_paddr =? paddr));;
  write_pte t i pte_zero;;
  free_tables stack t level.

Fixpoint unmap_range_loop (fuel : nat) (page_table cur_vaddr cur_paddr vaddr_end unmapped_pages : Z) : PG Z :=
  if cur_vaddr <? vaddr_end then
    match fuel with
    | O => diverge
    | S fuel' =>
        let region_size := ulong (vaddr_end - cur_vaddr) in
        let '(block0, count0) := page_get_block_level cur_vaddr cur_paddr region_size in
        let '(block, block_page_count) := if ctrue block0 then (block0, count0) else (PAGE_LEVELS, 1) in
        unmap_page page_table cur_vaddr cur_paddr block;;
        unmap_range_loop fuel' page_table (ulong (cur_vaddr + ulong (block_page_count * PAGE_SIZE)))
          (wrap PADDR_WIDTH (cur_paddr + ulong (block_page_count * PAGE_SIZE))) vaddr_end
          (s32 (unmapped_pages + block_page_count))
    end
  else mret unmapped_pages.

Definition generic_unmap_range (page_table vaddr paddr size : Z) : PG Z :=
  panic_if (match page_pfree with Some _ => false | None => true end);;
  let vaddr_start := align_down_vaddr vaddr PAGE_SIZE in
  let paddr_start := align_down_paddr paddr PAGE_SIZE in
  let vaddr_end := align_up_vaddr (ulong (vaddr + size)) PAGE_SIZE in
  unmap_range_loop (Z.to_nat ((vaddr_end - vaddr_start) / PAGE_SIZE)) page_table vaddr_start paddr_start vaddr_end 0.

End Page.
