(* ===== verification/PageSpec.v ===== *)
(** Correctness of the page tables of [Page.v]: the tables form a tree, a walk
    ends in at most one leaf, and mapping a range changes the translation of the
    addresses of that range and of no other. *)

From stdpp Require Import base list gmap.
From Stdlib Require Import ZArith Lia.
From Corelib Require Import ssreflect.
From S2P Require Import Prelude Bits Mem Page.

(** ** What an entry format promises *)

Class PageArchLaws `{Arch} `{PageArch} := {
  ENTRY_BITS : Z;
  PFN_BITS : Z;
  CACHE_OF : Z → Z;            (* the cache attribute of an entry set with [cache] *)
  pa_levels : 1 ≤ PAGE_LEVELS;
  pa_bits : 0 < ENTRY_BITS;
  pa_pfn_bits : 0 ≤ PFN_BITS ∧ PFN_BITS + PAGE_BITS ≤ PADDR_WIDTH;
  pa_width : PAGE_BITS + PAGE_LEVELS * ENTRY_BITS ≤ ARCH_WIDTH;
  pa_paddr : 31 ≤ MAX_NUM_PADDR_BITS;
  pa_count : PAGE_TABLE_ENTRY_COUNT = 2 ^ ENTRY_BITS;
  pa_index : ∀ l va, 1 ≤ l ≤ PAGE_LEVELS → 0 ≤ va →
    page_get_pte l va = (va / 2 ^ (PAGE_BITS + (PAGE_LEVELS - l) * ENTRY_BITS)) mod 2 ^ ENTRY_BITS;
  pa_block : ∀ l, 1 ≤ l ≤ PAGE_LEVELS → page_get_block_page_count l = 0 ∨
    page_get_block_page_count l = 2 ^ ((PAGE_LEVELS - l) * ENTRY_BITS) ∧ PAGE_BITS + (PAGE_LEVELS - l) * ENTRY_BITS < 31;
  pa_block_last : page_get_block_page_count PAGE_LEVELS = 1;
  pa_leaf : ∀ l ppfn x r w c k, 1 ≤ l ≤ PAGE_LEVELS → page_get_block_page_count l ≠ 0 → 0 ≤ ppfn < 2 ^ PFN_BITS →
    page_is_pte_valid (page_set_pte_attri l ppfn x r w c k) l = true ∧
    page_is_pte_leaf (page_set_pte_attri l ppfn x r w c k) l = true ∧
    page_get_pte_dest_ppfn (page_set_pte_attri l ppfn x r w c k) l = ppfn;
  pa_attri : ∀ l ppfn x w c k, x ∈ [0; 1] → w ∈ [0; 1] → c ∈ [0; 1] → k ∈ [0; 1] →
    page_get_pte_attri (page_set_pte_attri l ppfn x 1 w c k) l = mk_attri x 1 w (CACHE_OF c) k;
  pa_table : ∀ l ppfn, 1 ≤ l < PAGE_LEVELS → 0 ≤ ppfn < 2 ^ PFN_BITS →
    page_is_pte_valid (page_set_pte_next_table l ppfn) l = true ∧
    page_is_pte_leaf (page_set_pte_next_table l ppfn) l = false ∧
    page_get_pte_next_table (page_set_pte_next_table l ppfn) l = ppfn;
  pa_zero : ∀ l, page_is_pte_valid pte_zero l = false;
  pa_is_zero : pte_is_zero pte_zero = true;
  pa_valid_zero : ∀ e l, page_is_pte_valid e l = true → pte_is_zero e = false;
  pa_mappable : ∀ va pa x r w c k, page_is_mappable va pa x r w c k = true;
  pa_table_pages : ∀ l, page_get_num_table_pages l = 1
}.

Lemma index_land va a b n : 0 ≤ a → 0 ≤ b → 0 ≤ n → 0 ≤ va →
  Z.land (shr (shr va a) b) (2 ^ n - 1) = (va / 2 ^ (a + b)) mod 2 ^ n.
Proof.
  intros Ha Hb Hn Hva. rw /shr Z.shiftr_shiftr // Z.shiftr_div_pow2; [lia|].
  rw Z.sub_1_r -Z.ones_equiv Z.land_ones //.
Qed.

(** The format of RISC-V, as configured for 64 and 32 bits, and that of AMD64
    satisfy the laws. *)
Lemma riscv64_laws : PageArchLaws (H := riscv64) (H0 := Riscv.format (H := riscv64)).
Proof.
  refine (Build_PageArchLaws riscv64 (Riscv.format (H := riscv64)) 9 52 (λ _, 1) _ _ _ _ _ _ _ _ _ _ _ _ _ _ _ _ _); try done.
  - intros l va Hl Hva. change (page_get_pte l va) with (Riscv.get_pte (H := riscv64) l va). rw /Riscv.get_pte.
    change (Riscv.entry_count (H := riscv64) - 1) with (2 ^ 9 - 1). apply index_land; cbn in *; lia.
  - intros l Hl. right. cbn in Hl. assert (l = 1 ∨ l = 2 ∨ l = 3) as [->|[->| ->]] by lia; done.
  - intros l ppfn x r w c k Hl _ Hp. split; [done|]. split; [done|]. cbn. rw /Riscv.get_pte_dest_ppfn /=. rw !wrap_small; rw /uint; lia.
  - intros l ppfn x w c k Hx Hw Hc Hk. rw !list_elem_of_In in Hx Hw Hc Hk. cbn in Hx, Hw, Hc, Hk. destruct Hx as [<-|[<-|[]]], Hw as [<-|[<-|[]]], Hc as [<-|[<-|[]]], Hk as [<-|[<-|[]]]; done.
  - intros l ppfn Hl Hp. split; [done|]. split; [done|]. cbn. rw /Riscv.get_pte_next_table /Riscv.get_pte_dest_ppfn /=. rw !wrap_small; rw /uint; lia.
  - intros e l. cbn. rw /Riscv.is_pte_valid /ctrue /Riscv.is_zero. cbn. by destruct (Riscv.valid e =? 0).
Defined.

Lemma riscv32_laws : PageArchLaws (H := riscv32) (H0 := Riscv.format (H := riscv32)).
Proof.
  refine (Build_PageArchLaws riscv32 (Riscv.format (H := riscv32)) 10 22 (λ _, 1) _ _ _ _ _ _ _ _ _ _ _ _ _ _ _ _ _); try done.
  - intros l va Hl Hva. change (page_get_pte l va) with (Riscv.get_pte (H := riscv32) l va). rw /Riscv.get_pte.
    change (Riscv.entry_count (H := riscv32) - 1) with (2 ^ 10 - 1). apply index_land; cbn in *; lia.
  - intros l Hl. right. cbn in Hl. assert (l = 1 ∨ l = 2) as [->| ->] by lia; done.
  - intros l ppfn x r w c k Hl _ Hp. split; [done|]. split; [done|]. cbn. rw /Riscv.get_pte_dest_ppfn /=. rw !wrap_small; rw /uint; lia.
  - intros l ppfn x w c k Hx Hw Hc Hk. rw !list_elem_of_In in Hx Hw Hc Hk. cbn in Hx, Hw, Hc, Hk. destruct Hx as [<-|[<-|[]]], Hw as [<-|[<-|[]]], Hc as [<-|[<-|[]]], Hk as [<-|[<-|[]]]; done.
  - intros l ppfn Hl Hp. split; [done|]. split; [done|]. cbn. rw /Riscv.get_pte_next_table /Riscv.get_pte_dest_ppfn /=. rw !wrap_small; rw /uint; lia.
  - intros e l. cbn. rw /Riscv.is_pte_valid /ctrue /Riscv.is_zero. cbn. by destruct (Riscv.valid e =? 0).
Defined.

(** AMD64: [src/arch/x86/common/include/mem.h]. *)
Definition amd64 : Arch :=
  {| ARCH_WIDTH := 64; ARCH_BIG_ENDIAN := false; PAGE_BITS := 12;
     PADDR_WIDTH := 64; MAX_NUM_PADDR_BITS := 52; MAX_NUM_VADDR_BITS := 48;
     DATA_ALIGNMENT := 8;
     arch_width_cases := or_intror eq_refl;
     paddr_width_cases := or_intror eq_refl;
     page_bits_range := conj (Z.le_refl 12) (Z.le_succ_diag_r 12) |}.

Lemma amd64_laws : PageArchLaws (H := amd64) (H0 := Amd64.format (H := amd64)).
Proof.
  refine (Build_PageArchLaws amd64 (Amd64.format (H := amd64)) 9 51 (λ c, c) _ _ _ _ _ _ _ _ _ _ _ _ _ _ _ _ _); try done.
  - intros l va Hl Hva. change (page_get_pte l va) with (Amd64.get_pte (H := amd64) l va). rw /Amd64.get_pte.
    change (Amd64.entry_count - 1) with (2 ^ 9 - 1). apply index_land; cbn in *; rw /Amd64.levels /Amd64.entry_bits in Hl |- *; lia.
  - intros l Hl. cbn in Hl. rw /Amd64.levels in Hl. assert (l = 1 ∨ l = 2 ∨ l = 3 ∨ l = 4) as [->|[->|[->| ->]]] by lia; [by left|by left|by right|by right].
  - intros l ppfn x r w c k Hl Hc Hp. cbn in Hl, Hc. rw /Amd64.levels in Hl.
    assert (l = 3 ∨ l = 4) as Hl'; [|split; [done|]; split; [by destruct Hl' as [->| ->]|]].
    { destruct (Z.lt_ge_cases l 3); [|lia]. rw /Amd64.get_block_page_count in Hc. by destruct (Z.ltb_spec l 3); [|lia]. }
    cbn. rw /Amd64.get_pte_dest_ppfn /=. rw !wrap_small; rw /uint; lia.
  - intros l ppfn x w c k Hx Hw Hc Hk. rw !list_elem_of_In in Hx Hw Hc Hk. cbn in Hx, Hw, Hc, Hk. destruct Hx as [<-|[<-|[]]], Hw as [<-|[<-|[]]], Hc as [<-|[<-|[]]], Hk as [<-|[<-|[]]]; done.
  - intros l ppfn Hl Hp. cbn in Hl. rw /Amd64.levels in Hl. split; [done|]. split.
    + cbn. rw /Amd64.is_pte_leaf. destruct (Z.ltb_spec l 3); [done|]. by replace l with 3 by lia.
    + cbn. rw /Amd64.get_pte_next_table /Amd64.get_pte_dest_ppfn /=. rw !wrap_small; rw /uint; lia.
  - intros e l. cbn. rw /Amd64.is_pte_valid /ctrue /Amd64.is_zero. cbn. by destruct (Amd64.present e =? 0).
Defined.

(** ** Addresses and paths *)

Section Paths.
Context `{Harch : Arch} `{Hpa : PageArch} `{!PageArchLaws}.

(** The size of what an entry at level [n] covers; level 0 is everything. *)
Definition bsize (n : nat) : Z := 2 ^ (PAGE_BITS + (PAGE_LEVELS - Z.of_nat n) * ENTRY_BITS).

Definition in_range (va : Z) : Prop := 0 ≤ va < bsize 0.

(** The indices a walk follows in the first [n] tables. *)
Definition pth (n : nat) (va : Z) : list Z := (λ i, page_get_pte i va) <$> seqZ 1 (Z.of_nat n).

Lemma pth_S n va : pth (S n) va = pth n va ++ [page_get_pte (Z.of_nat n + 1) va].
Proof.
  rw /pth. rw (_ : Z.of_nat (S n) = Z.of_nat n + 1); [lia|]. rw seqZ_app; [lia..|]. rw fmap_app. f_equal.
  rw (_ : 1 + Z.of_nat n = Z.of_nat n + 1); [lia|]. done.
Qed.

Lemma pth_length n va : length (pth n va) = n.
Proof. rw /pth length_fmap length_seqZ. lia. Qed.

Lemma bsize_pos n : (Z.of_nat n ≤ PAGE_LEVELS) → 0 < bsize n.
Proof. intros Hn. rw /bsize. pose proof pa_bits. pose proof page_bits_range. apply Z.pow_pos_nonneg; [lia|]. nia. Qed.

Lemma bsize_S n : Z.of_nat n < PAGE_LEVELS → bsize n = bsize (S n) * 2 ^ ENTRY_BITS.
Proof.
  intros Hn. rw /bsize. pose proof pa_bits. pose proof page_bits_range. rw -Z.pow_add_r; [nia|lia|]. f_equal. nia.
Qed.

Lemma index_block n va : Z.of_nat n < PAGE_LEVELS → 0 ≤ va →
  page_get_pte (Z.of_nat n + 1) va = (va / bsize (S n)) mod 2 ^ ENTRY_BITS.
Proof. intros Hn Hva. rw pa_index; [lia|done|]. rw /bsize. do 4 f_equal. lia. Qed.

Lemma block_step n va : Z.of_nat n < PAGE_LEVELS → 0 ≤ va →
  va / bsize (S n) = (va / bsize n) * 2 ^ ENTRY_BITS + page_get_pte (Z.of_nat n + 1) va.
Proof.
  intros Hn Hva. pose proof pa_bits. assert (0 < bsize (S n)) by (apply bsize_pos; lia). assert (0 < 2 ^ ENTRY_BITS) by lia.
  rw index_block // (bsize_S n) // -Z.div_div; [lia|lia|].
  assert (2 ^ ENTRY_BITS ≠ 0) as Hne by lia. pose proof (Z.div_mod (va / bsize (S n)) (2 ^ ENTRY_BITS) Hne). lia.
Qed.

(** Two addresses follow the same path when they are in the same block. *)
Lemma path_block n va va' : Z.of_nat n ≤ PAGE_LEVELS → in_range va → in_range va' →
  pth n va = pth n va' ↔ va / bsize n = va' / bsize n.
Proof.
  intros Hn Hva Hva'. induction n as [|n IH].
  - rw !Z.div_small //.
  - rw !pth_S. rw /in_range in Hva Hva'. pose proof (block_step n va ltac:(lia) ltac:(lia)) as E1. pose proof (block_step n va' ltac:(lia) ltac:(lia)) as E2.
    specialize (IH ltac:(lia)). pose proof pa_bits. assert (0 < 2 ^ ENTRY_BITS) by lia. split.
    + intros Heq. apply app_inj_2 in Heq as [Hx1 Hx2]; [|done]. apply IH in Hx1. injection Hx2 as Hx2. rw E1 E2 Hx1 Hx2. done.
    + intros Heq. rw (index_block n va ltac:(lia) ltac:(lia)) (index_block n va' ltac:(lia) ltac:(lia)) Heq. f_equal.
      apply IH. rw (bsize_S n); [lia|]. rw -!Z.div_div; [apply Z.neq_sym, Z.lt_neq, bsize_pos; lia|lia|apply Z.neq_sym, Z.lt_neq, bsize_pos; lia|lia|]. by rw Heq.
Qed.

Lemma path_prefix n m va va' : (n ≤ m)%nat → pth m va = pth m va' → pth n va = pth n va'.
Proof.
  intros Hle. induction Hle as [|m Hle IH]; [done|]. rw !pth_S. intros [Hx _]%app_inj_2; [|done]. by apply IH.
Qed.

(** An address in the same block with a chosen next index. *)
Lemma with_index n va i : Z.of_nat n < PAGE_LEVELS → in_range va → 0 ≤ i < 2 ^ ENTRY_BITS →
  ∃ va', in_range va' ∧ pth n va' = pth n va ∧ page_get_pte (Z.of_nat n + 1) va' = i.
Proof.
  intros Hn Hva Hi. rw /in_range in Hva. set (q := va / bsize n). assert (0 < bsize n) by (apply bsize_pos; lia).
  assert (0 < bsize (S n)) by (apply bsize_pos; lia). pose proof (bsize_S n Hn) as Eb.
  assert (0 ≤ q) by (apply Z.div_pos; lia). set (va' := (q * 2 ^ ENTRY_BITS + i) * bsize (S n)).
  assert (va' / bsize (S n) = q * 2 ^ ENTRY_BITS + i) as E1 by (rw /va' Z.div_mul //; lia).
  assert (va' / bsize n = q) as E2.
  { rw Eb -Z.div_div; [lia|lia|]. rw E1 Z.div_add_l; [lia|]. rw Z.div_small //. lia. }
  assert (in_range va') as Hr.
  { split; [rw /va'; nia|]. destruct n as [|n']; [assert (q = 0) by (apply Z.div_small; lia); rw Eb; nia|].
    assert (va' < (q + 1) * bsize (S n')) by (rw Eb; nia). apply (Z.lt_le_trans _ ((q + 1) * bsize (S n'))); [done|].
    assert (∃ c, bsize 0 = c * bsize (S n')) as [c Ec].
    { exists (2 ^ (Z.of_nat (S n') * ENTRY_BITS)). rw /bsize. pose proof pa_bits. pose proof page_bits_range. rw -Z.pow_add_r; [nia|nia|]. f_equal. lia. }
    rw Ec in Hva |- *. apply Z.mul_le_mono_nonneg_r; [lia|]. assert (q < c); [|lia]. apply Z.div_lt_upper_bound; lia. }
  exists va'. split; [done|]. split; [apply path_block; [lia|done|done|done]|].
  rw index_block //; [apply Hr|]. rw E1 Z.add_comm Z.mod_add; [lia|]. apply Z.mod_small. lia.
Qed.
End Paths.

(** ** The tree of tables *)

Section Tree.
Context `{Harch : Arch} `{Hpa : PageArch} `{!PageArchLaws} {K : Type} `{PageEnv K}.
Implicit Types (T : gmap Z (gmap Z pte)) (own : gmap Z (list Z)) (t root i va : Z) (e : pte) (n : nat).

(** The table an entry at level [l] points to. *)
Definition points_to (e : pte) (l : Z) : option Z :=
  if page_is_pte_valid e l && negb (page_is_pte_leaf e l) then
    match page_ppfn_to_ptr (page_get_pte_next_table e l) with Ret p => Some p | _ => None end
  else None.

(** The table a walk for [va] is at after [n] steps, that is at level [n + 1]. *)
Fixpoint reach T root (n : nat) (va : Z) : option Z :=
  match n with
  | O => Some root
  | S n' => t ← reach T root n' va; e ← entry_at T t (page_get_pte (Z.of_nat n) va); points_to e (Z.of_nat n)
  end.

(** The walk for [va] ends in the leaf [e] after [n] steps. *)
Definition leaf_at T root va e (n : nat) : Prop :=
  ∃ t, reach T root n va = Some t ∧ entry_at T t (page_get_pte (Z.of_nat n + 1) va) = Some e ∧
    page_is_pte_valid e (Z.of_nat n + 1) = true ∧ page_is_pte_leaf e (Z.of_nat n + 1) = true.

(** [own !! t] is the path to table [t].  Every table but the exempt one has an entry. *)
Record pt_wf T own root (exempt : Z → Prop) : Prop := {
  wf_root : own !! root = Some [];
  wf_tab : ∀ t P, own !! t = Some P → is_Some (T !! t) ∧ Z.of_nat (length P) < PAGE_LEVELS;
  wf_next : ∀ t P i e, own !! t = Some P → entry_at T t i = Some e →
    page_is_pte_valid e (Z.of_nat (length P) + 1) = true → page_is_pte_leaf e (Z.of_nat (length P) + 1) = false →
    Z.of_nat (length P) + 1 < PAGE_LEVELS ∧
    ∃ p, page_ppfn_to_ptr (page_get_pte_next_table e (Z.of_nat (length P) + 1)) = Ret p ∧ own !! p = Some (P ++ [i]);
  wf_leaf : ∀ t P i e, own !! t = Some P → entry_at T t i = Some e →
    page_is_pte_valid e (Z.of_nat (length P) + 1) = true → page_is_pte_leaf e (Z.of_nat (length P) + 1) = true →
    page_get_block_page_count (Z.of_nat (length P) + 1) ≠ 0;
  wf_full : ∀ t P, own !! t = Some P → P ≠ [] → ¬ exempt t →
    ∃ i e, 0 ≤ i < 2 ^ ENTRY_BITS ∧ entry_at T t i = Some e ∧ page_is_pte_valid e (Z.of_nat (length P) + 1) = true;
  wf_zero : ∀ t P i e, own !! t = Some P → entry_at T t i = Some e →
    page_is_pte_valid e (Z.of_nat (length P) + 1) = false → pte_is_zero e = true;
  wf_reach : ∀ t P, own !! t = Some P → ∃ va, in_range va ∧ P = pth (length P) va ∧ reach T root (length P) va = Some t;
  wf_frame : ∀ t P i e, own !! t = Some P → entry_at T t i = Some e →
    page_is_pte_valid e (Z.of_nat (length P) + 1) = true → page_is_pte_leaf e (Z.of_nat (length P) + 1) = false →
    0 ≤ page_get_pte_next_table e (Z.of_nat (length P) + 1) < 2 ^ PFN_BITS
}.

Lemma wf_points T own root X t P i e p : pt_wf T own root X → own !! t = Some P → entry_at T t i = Some e →
  points_to e (Z.of_nat (length P) + 1) = Some p → own !! p = Some (P ++ [i]) ∧ Z.of_nat (length P) + 1 < PAGE_LEVELS.
Proof.
  intros Hw Ht He Hp. rw /points_to in Hp. destruct (page_is_pte_valid e _) eqn:Ev; [|done].
  destruct (page_is_pte_leaf e _) eqn:El; [done|]. cbn in Hp. destruct (wf_next _ _ _ _ Hw _ _ _ _ Ht He Ev El) as (Hl & q & Eq & Hq).
  rw Eq in Hp. injection Hp as <-. done.
Qed.

Lemma reach_own T own root X n va t : pt_wf T own root X → reach T root n va = Some t → own !! t = Some (pth n va).
Proof.
  intros Hw. revert t. induction n as [|n IH]; intros t.
  - cbn. intros [= <-]. apply Hw.
  - cbn [reach]. intros (t0 & Ht0 & (e & He & Hp)%bind_Some)%bind_Some. specialize (IH _ Ht0).
    rw (_ : Z.of_nat (S n) = Z.of_nat n + 1) in He Hp; [lia|].
    assert (points_to e (Z.of_nat (length (pth n va)) + 1) = Some t) as Hp' by by rw pth_length.
    destruct (wf_points _ _ _ _ _ _ _ _ _ Hw IH He Hp') as [Hq _]. by rw pth_S.
Qed.

Lemma reach_level T own root X n va t : pt_wf T own root X → reach T root n va = Some t → Z.of_nat n < PAGE_LEVELS.
Proof.
  intros Hw Hr. destruct (wf_tab _ _ _ _ Hw _ _ (reach_own _ _ _ _ _ _ _ Hw Hr)) as [_ Hl]. by rw pth_length in Hl.
Qed.

Lemma reach_path T root n va va' : pth n va = pth n va' → reach T root n va = reach T root n va'.
Proof.
  induction n as [|n IH]; [done|]. rw !pth_S. intros [Hx [= Hi]]%app_inj_2; [|done]. cbn [reach].
  rw (_ : Z.of_nat (S n) = Z.of_nat n + 1); [lia|]. by rw IH // Hi.
Qed.

Lemma own_level own t n n' va va' : own !! t = Some (pth n' va') → own !! t = Some (pth n va) → n' = n.
Proof. intros H1 H2. assert (pth n' va' = pth n va) as E by congruence. apply (f_equal length) in E. by rw !pth_length in E. Qed.

(** A walk that has ended goes no further. *)
Lemma reach_stop T root n va t e m : reach T root n va = Some t → entry_at T t (page_get_pte (Z.of_nat n + 1) va) = Some e →
  points_to e (Z.of_nat n + 1) = None → (n < m)%nat → reach T root m va = None.
Proof.
  intros Hr He Hp Hlt. induction Hlt as [|m Hlt IH]; cbn [reach].
  - rw Hr. cbn [mbind option_bind]. rw (_ : Z.of_nat (S n) = Z.of_nat n + 1); [lia|]. by rw He /=.
  - by rw IH.
Qed.

Lemma points_leaf e l : page_is_pte_leaf e l = true → points_to e l = None.
Proof. intros E. rw /points_to E. by destruct (page_is_pte_valid e l). Qed.

Lemma points_invalid e l : page_is_pte_valid e l = false → points_to e l = None.
Proof. intros E. by rw /points_to E. Qed.

(** There is at most one leaf for an address. *)
Lemma leaf_at_unique T root va e n e' n' : leaf_at T root va e n → leaf_at T root va e' n' → n = n' ∧ e = e'.
Proof.
  intros (t & Hr & He & Hv & Hl) (t' & Hr' & He' & Hv' & Hl'). destruct (Nat.lt_trichotomy n n') as [Hlt|[->|Hlt]].
  - by rw (reach_stop _ _ _ _ _ _ _ Hr He (points_leaf _ _ Hl) Hlt) in Hr'.
  - assert (t' = t) as -> by congruence. split; [done|congruence].
  - by rw (reach_stop _ _ _ _ _ _ _ Hr' He' (points_leaf _ _ Hl') Hlt) in Hr.
Qed.

Lemma leaf_path T root n va va' e : pth (S n) va = pth (S n) va' → leaf_at T root va e n → leaf_at T root va' e n.
Proof.
  intros Hp (t & Hr & He & Hv & Hl). pose proof Hp as Hp'. rw !pth_S in Hp'. apply app_inj_2 in Hp' as [Hp1 [= Hi]]; [|done].
  exists t. split; [by rw -(reach_path T root n va va')|]. rw -Hi. done.
Qed.

(** *** Changing one entry *)

Definition upd T t i e : gmap Z (gmap Z pte) := alter (<[i := e]>) t T.

Lemma entry_upd T t i e x j : is_Some (T !! t) →
  entry_at (upd T t i e) x j = if decide (x = t ∧ j = i) then Some e else entry_at T x j.
Proof.
  intros [es Et]. rw /entry_at /upd. destruct (decide (x = t)) as [->|Hx].
  - rw lookup_alter_eq Et /=. destruct (decide (j = i)) as [->|Hj].
    + rw decide_True // lookup_insert_eq //.
    + rw decide_False; [tauto|]. rw lookup_insert_ne //. congruence.
  - rw lookup_alter_ne; [congruence|]. rw decide_False //. tauto.
Qed.

Lemma upd_is_Some T t i e x : is_Some (upd T t i e !! x) ↔ is_Some (T !! x).
Proof. by rw /upd lookup_alter_is_Some. Qed.

(** An entry that points to no table is replaced by another such entry. *)
Lemma reach_upd T own root X t P i e0 e n va : pt_wf T own root X → own !! t = Some P → entry_at T t i = Some e0 →
  points_to e0 (Z.of_nat (length P) + 1) = None → points_to e (Z.of_nat (length P) + 1) = None →
  reach (upd T t i e) root n va = reach T root n va.
Proof.
  intros Hw Ht He0 Hp0 Hp. induction n as [|n IH]; [done|]. cbn [reach]. rw IH.
  destruct (reach T root n va) as [x|] eqn:Hx; [|done]. cbn [mbind option_bind].
  rw entry_upd; [apply (wf_tab _ _ _ _ Hw _ _ Ht)|]. case_decide as Hd; [|done]. destruct Hd as [-> Hi].
  pose proof (reach_own _ _ _ _ _ _ _ Hw Hx) as Ho. assert (P = pth n va) as -> by congruence. rw pth_length in Hp0 Hp.
  rw (_ : Z.of_nat (S n) = Z.of_nat n + 1) in Hi |- *; [lia|]. rw Hi He0 /=. by rw Hp0 Hp.
Qed.

(** Which leaves there are after such a change. *)
Lemma leaf_upd T own root X t n va i e0 e va' e' n' : pt_wf T own root X → reach T root n va = Some t →
  page_get_pte (Z.of_nat n + 1) va = i → entry_at T t i = Some e0 →
  points_to e0 (Z.of_nat n + 1) = None → points_to e (Z.of_nat n + 1) = None →
  leaf_at (upd T t i e) root va' e' n' ↔
    if decide (pth (S n) va' = pth (S n) va) then n' = n ∧ e' = e ∧ page_is_pte_valid e (Z.of_nat n + 1) = true ∧ page_is_pte_leaf e (Z.of_nat n + 1) = true
    else leaf_at T root va' e' n'.
Proof.
  intros Hw Hr Hi He0 Hp0 Hp. pose proof (reach_own _ _ _ _ _ _ _ Hw Hr) as Ho.
  assert (∀ m v, reach (upd T t i e) root m v = reach T root m v) as Hre.
  { intros m v. apply (reach_upd T own root X t (pth n va) i e0 e); rw ?pth_length //. }
  destruct (wf_tab _ _ _ _ Hw _ _ Ho) as [Hs _]. case_decide as Hd.
  - pose proof Hd as Hd'. rw !pth_S in Hd'. apply app_inj_2 in Hd' as [Hd1 [= Hd2]]; [|done].
    assert (reach T root n va' = Some t) as Hr' by by rw (reach_path T root n va' va).
    split.
    + intros (x & Hx & He & Hv & Hl). rw Hre in Hx. destruct (Nat.lt_trichotomy n' n) as [Hlt|[->|Hlt]].
      * assert (points_to e' (Z.of_nat n' + 1) ≠ None) as Hne; [|by destruct Hne; apply points_leaf].
        intros Hnone. assert (reach (upd T t i e) root n va' = None) as Hz; [|by rw Hre Hr' in Hz].
        eapply reach_stop; [rw Hre; exact Hx|exact He|exact Hnone|done].
      * assert (x = t) as -> by congruence. rw Hd2 Hi entry_upd // decide_True // in He. injection He as <-. done.
      * assert (reach T root n' va' = None); [|congruence]. eapply reach_stop; [exact Hr'|rw Hd2 Hi; exact He0|done|done].
    + intros (-> & -> & Hv & Hl). exists t. rw Hre. split; [done|]. rw Hd2 Hi entry_upd // decide_True //.
  - rw /leaf_at. setoid_rewrite Hre. apply exist_proper. intros x. split; intros (Hx & He & Hv & Hl); (split; [done|]); (split; [|done]).
    + rw entry_upd // decide_False // in He. intros [-> Hj]. apply Hd.
      pose proof (reach_own _ _ _ _ _ _ _ Hw Hx) as Ho'. assert (n' = n) as -> by (exact (own_level _ _ _ _ _ _ Ho' Ho)).
      rw !pth_S Hj -Hi. f_equal. congruence.
    + rw entry_upd // decide_False //. intros [-> Hj]. apply Hd.
      pose proof (reach_own _ _ _ _ _ _ _ Hw Hx) as Ho'. assert (n' = n) as -> by (exact (own_level _ _ _ _ _ _ Ho' Ho)).
      rw !pth_S Hj -Hi. f_equal. congruence.
Qed.
End Tree.

(** ** Growing the tree *)

Section Grow.
Context `{Harch : Arch} `{Hpa : PageArch} `{!PageArchLaws} {K : Type} `{PageEnv K}.
Implicit Types (T : gmap Z (gmap Z pte)) (own : gmap Z (list Z)) (t root i va : Z) (e : pte) (n : nat).

Lemma pte_index_range l va : 1 ≤ l ≤ PAGE_LEVELS → 0 ≤ va → 0 ≤ page_get_pte l va < 2 ^ ENTRY_BITS.
Proof. intros Hl Hva. rw pa_index //. apply Z.mod_pos_bound. pose proof pa_bits. lia. Qed.

(** Setting a leaf. *)
Lemma wf_set_leaf T own root t n va e0 e : let i := page_get_pte (Z.of_nat n + 1) va in
  pt_wf T own root (λ x, x = t) → reach T root n va = Some t → 0 ≤ va →
  entry_at T t i = Some e0 → page_is_pte_valid e0 (Z.of_nat n + 1) = false →
  page_is_pte_valid e (Z.of_nat n + 1) = true → page_is_pte_leaf e (Z.of_nat n + 1) = true →
  page_get_block_page_count (Z.of_nat n + 1) ≠ 0 →
  pt_wf (upd T t i e) own root (λ _, False).
Proof.
  intros i Hw Hr Hva He0 Hv0 Hv Hl Hc. pose proof (reach_own _ _ _ _ _ _ _ Hw Hr) as Ho.
  pose proof (reach_level _ _ _ _ _ _ _ Hw Hr) as Hlv. destruct (wf_tab _ _ _ _ Hw _ _ Ho) as [Hs _]. split.
  - apply Hw.
  - intros x P Hx. rw upd_is_Some. by apply (wf_tab _ _ _ _ Hw).
  - intros x P j e' Hx. rw entry_upd //. case_decide as Hd; [|by apply (wf_next _ _ _ _ Hw)].
    destruct Hd as [-> ->]. intros [= <-] _ Hnl. assert (P = pth n va) as -> by congruence. by rw pth_length Hl in Hnl.
  - intros x P j e' Hx. rw entry_upd //. case_decide as Hd; [|by apply (wf_leaf _ _ _ _ Hw)].
    destruct Hd as [-> ->]. intros [= <-] _ _. assert (P = pth n va) as -> by congruence. by rw pth_length.
  - intros x P Hx HP _. destruct (decide (x = t)) as [->|Hne].
    + assert (P = pth n va) as -> by congruence. exists i, e. rw pth_length entry_upd // decide_True //.
      split; [apply pte_index_range; [lia|done]|]. done.
    + destruct (wf_full _ _ _ _ Hw _ _ Hx HP Hne) as (j & e' & Hj & He' & Hv'). exists j, e'.
      rw entry_upd // decide_False //. tauto.
  - intros x P j e' Hx. rw entry_upd //. case_decide as Hd; [|by apply (wf_zero _ _ _ _ Hw)].
    destruct Hd as [-> ->]. intros [= <-]. assert (P = pth n va) as -> by congruence. by rw pth_length Hv.
  - intros x P Hx. destruct (wf_reach _ _ _ _ Hw _ _ Hx) as (v & Hv1 & HP & Hr1). exists v. split; [done|]. split; [done|].
    rw -Hr1. apply (reach_upd T own root (λ x, x = t) t (pth n va) i e0 e); rw ?pth_length //; [by apply points_invalid|by apply points_leaf].
  - intros x P j e' Hx. rw entry_upd //. case_decide as Hd; [|by apply (wf_frame _ _ _ _ Hw)].
    destruct Hd as [-> ->]. intros [= <-] _ Hnl. assert (P = pth n va) as -> by congruence. by rw pth_length Hl in Hnl.
Qed.

(** Linking a new table. *)
Section Link.
Context T own root t n va (ptr ppfn : Z).
Let i := page_get_pte (Z.of_nat n + 1) va.
Let e := page_set_pte_next_table (Z.of_nat n + 1) ppfn.
Let T' := upd (<[ptr := ∅]> T) t i e.
Let own' := <[ptr := pth (S n) va]> own.
Hypothesis Hw : pt_wf T own root (λ x, x = t).
Hypothesis Hr : reach T root n va = Some t.
Hypothesis Hva : in_range va.
Hypothesis Hn : Z.of_nat n + 1 < PAGE_LEVELS.
Hypothesis Hptr : T !! ptr = None.
Hypothesis Hppfn : 0 ≤ ppfn < 2 ^ PFN_BITS.
Hypothesis Hconv : page_ppfn_to_ptr ppfn = Ret ptr.
Hypothesis Hinv : ∀ e0, entry_at T t i = Some e0 → page_is_pte_valid e0 (Z.of_nat n + 1) = false.

Lemma lk_owned x P : own !! x = Some P → x ≠ ptr ∧ is_Some (T !! x).
Proof. intros Hx. destruct (wf_tab _ _ _ _ Hw _ _ Hx) as [Hs _]. split; [|done]. intros ->. by rw Hptr in Hs; destruct Hs. Qed.

Lemma lk_t : own !! t = Some (pth n va) ∧ t ≠ ptr.
Proof. pose proof (reach_own _ _ _ _ _ _ _ Hw Hr) as Ho. split; [done|]. by apply (lk_owned _ _ Ho). Qed.

Lemma lk_entry_props : page_is_pte_valid e (Z.of_nat n + 1) = true ∧ page_is_pte_leaf e (Z.of_nat n + 1) = false ∧
  points_to e (Z.of_nat n + 1) = Some ptr.
Proof.
  destruct (pa_table (Z.of_nat n + 1) ppfn) as (Hv & Hl & Hnx); [lia|done|]. split; [done|]. split; [done|].
  by rw /points_to Hv Hl /= Hnx Hconv.
Qed.

Lemma lk_entry x j : entry_at T' x j = if decide (x = t ∧ j = i) then Some e else if decide (x = ptr) then Some pte_zero else entry_at T x j.
Proof.
  destruct lk_t as [Ho Hne]. destruct (lk_owned _ _ Ho) as [_ Hs].
  rw /T' entry_upd; [rw lookup_insert_ne //; congruence|]. case_decide; [done|]. case_decide as Hx.
  - subst x. by rw /entry_at lookup_insert_eq /= lookup_empty.
  - rw /entry_at lookup_insert_ne //. congruence.
Qed.

Lemma lk_reach_old m v x : reach T root m v = Some x → reach T' root m v = Some x.
Proof.
  revert x. induction m as [|m IH]; intros x; [done|]. cbn [reach]. intros (t0 & Ht0 & (e0 & He0 & Hp0)%bind_Some)%bind_Some.
  rw (IH _ Ht0) /=. pose proof (reach_own _ _ _ _ _ _ _ Hw Ht0) as Ho0. destruct (lk_owned _ _ Ho0) as [Hne0 _].
  rw lk_entry. case_decide as Hd.
  - destruct Hd as [-> Hj]. destruct lk_t as [Ho _]. assert (m = n) as -> by exact (own_level _ _ _ _ _ _ Ho0 Ho).
    rw (_ : Z.of_nat (S n) = Z.of_nat n + 1) in Hj He0 Hp0; [lia|]. rw Hj in He0.
    by rw (points_invalid _ _ (Hinv _ He0)) in Hp0.
  - rw decide_False //. by rw He0.
Qed.

Lemma lk_reach_new m v x : reach T' root m v = Some x → reach T root m v = Some x ∨ x = ptr ∧ m = S n ∧ pth (S n) v = pth (S n) va.
Proof.
  revert x. induction m as [|m IH]; intros x; [cbn; auto|]. cbn [reach]. intros (t0 & Ht0 & (e0 & He0 & Hp0)%bind_Some)%bind_Some.
  rw lk_entry in He0. destruct (IH _ Ht0) as [Hr0|(-> & -> & _)].
  - pose proof (reach_own _ _ _ _ _ _ _ Hw Hr0) as Ho0. destruct (lk_owned _ _ Ho0) as [Hne0 _]. rw Hr0 /=. case_decide as Hd.
    + destruct Hd as [-> Hj]. destruct lk_t as [Ho _]. assert (m = n) as -> by exact (own_level _ _ _ _ _ _ Ho0 Ho).
      injection He0 as <-. rw (_ : Z.of_nat (S n) = Z.of_nat n + 1) in Hj Hp0; [lia|].
      destruct lk_entry_props as (_ & _ & Hp). right. split; [congruence|]. split; [done|]. rw !pth_S Hj. f_equal. congruence.
    + rw decide_False // in He0. left. by rw He0.
  - rw decide_False in He0; [intros [? _]; destruct lk_t; congruence|]. rw decide_True // in He0. injection He0 as <-.
    by rw points_invalid in Hp0; [apply pa_zero|].
Qed.

Lemma lk_reach : reach T' root (S n) va = Some ptr.
Proof.
  cbn [reach]. rw (lk_reach_old _ _ _ Hr) /=. rw (_ : Z.of_nat (S n) = Z.of_nat n + 1); [lia|]. rw lk_entry decide_True // /=.
  apply lk_entry_props.
Qed.

Lemma lk_wf : pt_wf T' own' root (λ x, x = ptr).
Proof.
  destruct lk_t as [Ho Hne]. destruct lk_entry_props as (Hv & Hl & Hp). destruct (lk_owned _ _ Ho) as [_ Hs].
  pose proof (wf_root _ _ _ _ Hw) as Hroot. split.
  - destruct (lk_owned _ _ Hroot) as [Hrp _]. rw /own' lookup_insert_ne //. congruence.
  - intros x P. rw /own' lookup_insert. rw /T' upd_is_Some. case_decide as Hx.
    + intros [= <-]. subst x. rw lookup_insert_eq pth_length. split; [by eexists|lia].
    + intros HP. rw lookup_insert_ne //. by apply (wf_tab _ _ _ _ Hw).
  - intros x P j e'. rw /own' lookup_insert lk_entry. case_decide as Hx.
    + subst x. intros _. rw decide_False; [intros [? _]; congruence|]. rw decide_True //. intros [= <-]. by rw pa_zero.
    + intros HP. case_decide as Hd.
      * destruct Hd as [-> ->]. intros [= <-] _ _. assert (P = pth n va) as -> by congruence. rw pth_length. split; [done|].
        exists ptr. destruct (pa_table (Z.of_nat n + 1) ppfn) as (_ & _ & Hnx); [lia|done|]. split; [by rw /e Hnx|]. by rw lookup_insert_eq pth_S.
      * rw decide_False; [congruence|]. intros He' Hv' Hl'. destruct (wf_next _ _ _ _ Hw _ _ _ _ HP He' Hv' Hl') as (Hlt & p & Ep & Hp').
        split; [done|]. exists p. split; [done|]. destruct (lk_owned _ _ Hp') as [Hpp _]. rw lookup_insert_ne //. congruence.
  - intros x P j e'. rw /own' lookup_insert lk_entry. case_decide as Hx.
    + subst x. intros _. rw decide_False; [intros [? _]; congruence|]. rw decide_True //. intros [= <-]. by rw pa_zero.
    + intros HP. case_decide as Hd.
      * destruct Hd as [-> ->]. intros [= <-] _ Hlf. assert (P = pth n va) as -> by congruence. by rw pth_length Hl in Hlf.
      * rw decide_False; [congruence|]. by apply (wf_leaf _ _ _ _ Hw).
  - intros x P. rw /own' lookup_insert. case_decide as Hx; [by subst|]. intros HP HPne _. destruct (decide (x = t)) as [->|Hxt].
    + exists i, e. assert (P = pth n va) as -> by congruence. rw lk_entry decide_True // pth_length.
      split; [apply pte_index_range; [lia|apply Hva]|done].
    + destruct (wf_full _ _ _ _ Hw _ _ HP HPne Hxt) as (j & e' & Hj & He' & Hv'). exists j, e'. rw lk_entry decide_False; [tauto|].
      rw decide_False //. congruence.
  - intros x P j e'. rw /own' lookup_insert lk_entry. case_decide as Hx.
    + subst x. intros _. rw decide_False; [intros [? _]; congruence|]. rw decide_True //. intros [= <-] _. apply pa_is_zero.
    + intros HP. case_decide as Hd.
      * destruct Hd as [-> ->]. intros [= <-] Hlf. assert (P = pth n va) as -> by congruence. by rw pth_length Hv in Hlf.
      * rw decide_False; [congruence|]. by apply (wf_zero _ _ _ _ Hw).
  - intros x P. rw /own' lookup_insert. case_decide as Hx.
    + intros [= <-]. subst x. exists va. rw pth_length. split; [done|]. split; [done|apply lk_reach].
    + intros HP. destruct (wf_reach _ _ _ _ Hw _ _ HP) as (v & Hv1 & HP1 & Hr1). exists v. split; [done|]. split; [done|]. by apply lk_reach_old.
  - intros x P j e'. rw /own' lookup_insert lk_entry. case_decide as Hx.
    + subst x. intros _. rw decide_False; [intros [? _]; congruence|]. rw decide_True //. intros [= <-]. by rw pa_zero.
    + intros HP. case_decide as Hd.
      * destruct Hd as [-> ->]. intros [= <-] _ _. assert (P = pth n va) as -> by congruence. rw pth_length.
        destruct (pa_table (Z.of_nat n + 1) ppfn) as (_ & _ & Hnx); [lia|done|]. by rw /e Hnx.
      * rw decide_False; [congruence|]. by apply (wf_frame _ _ _ _ Hw).
Qed.

(** No leaf appears or disappears. *)
Lemma lk_leaf v e' m : leaf_at T' root v e' m ↔ leaf_at T root v e' m.
Proof.
  split.
  - intros (x & Hx & He & Hv' & Hl'). rw lk_entry in He. destruct (lk_reach_new _ _ _ Hx) as [Hx0|(-> & _ & _)].
    + pose proof (reach_own _ _ _ _ _ _ _ Hw Hx0) as Ho0. destruct (lk_owned _ _ Ho0) as [Hne0 _]. case_decide as Hd.
      * destruct Hd as [-> Hj]. destruct lk_t as [Ho _]. assert (m = n) as -> by exact (own_level _ _ _ _ _ _ Ho0 Ho).
        injection He as <-. destruct lk_entry_props as (_ & Hlf & _). by rw Hlf in Hl'.
      * rw decide_False // in He. by exists x.
    + rw decide_False in He; [intros [? _]; destruct lk_t; congruence|]. rw decide_True // in He. injection He as <-. by rw pa_zero in Hv'.
  - intros (x & Hx & He & Hv' & Hl'). exists x. split; [by apply lk_reach_old|].
    pose proof (reach_own _ _ _ _ _ _ _ Hw Hx) as Ho0. destruct (lk_owned _ _ Ho0) as [Hne0 _]. rw lk_entry. case_decide as Hd.
    + destruct Hd as [-> Hj]. destruct lk_t as [Ho _]. assert (m = n) as -> by exact (own_level _ _ _ _ _ _ Ho0 Ho).
      rw Hj in He. by rw (Hinv _ He) in Hv'.
    + by rw decide_False.
Qed.
End Link.

(** Clearing a leaf: its table may become empty. *)
Lemma wf_clear_leaf T own root t n va e0 : let i := page_get_pte (Z.of_nat n + 1) va in
  pt_wf T own root (λ _, False) → reach T root n va = Some t → entry_at T t i = Some e0 →
  page_is_pte_leaf e0 (Z.of_nat n + 1) = true → pt_wf (upd T t i pte_zero) own root (λ x, x = t).
Proof.
  intros i Hw Hr He0 Hl. pose proof (reach_own _ _ _ _ _ _ _ Hw Hr) as Ho. destruct (wf_tab _ _ _ _ Hw _ _ Ho) as [Hs _]. split.
  - apply Hw.
  - intros x P Hx. rw upd_is_Some. by apply (wf_tab _ _ _ _ Hw).
  - intros x P j e' Hx. rw entry_upd //. case_decide as Hd; [|by apply (wf_next _ _ _ _ Hw)]. intros [= <-]. by rw pa_zero.
  - intros x P j e' Hx. rw entry_upd //. case_decide as Hd; [|by apply (wf_leaf _ _ _ _ Hw)]. intros [= <-]. by rw pa_zero.
  - intros x P Hx HP Hne. destruct (wf_full _ _ _ _ Hw _ _ Hx HP) as (j & e' & Hj & He' & Hv'); [tauto|]. exists j, e'.
    rw entry_upd // decide_False //. tauto.
  - intros x P j e' Hx. rw entry_upd //. case_decide as Hd; [|by apply (wf_zero _ _ _ _ Hw)]. intros [= <-] _. apply pa_is_zero.
  - intros x P Hx. destruct (wf_reach _ _ _ _ Hw _ _ Hx) as (v & Hv1 & HP & Hr1). exists v. split; [done|]. split; [done|].
    rw -Hr1. apply (reach_upd T own root (λ _, False) t (pth n va) i e0 pte_zero); rw ?pth_length //; [by apply points_leaf|apply points_invalid, pa_zero].
  - intros x P j e' Hx. rw entry_upd //. case_decide as Hd; [|by apply (wf_frame _ _ _ _ Hw)]. intros [= <-]. by rw pa_zero.
Qed.

(** A table with an entry needs no exemption. *)
Lemma wf_filled T own root t P i e : pt_wf T own root (λ x, x = t) → own !! t = Some P → 0 ≤ i < 2 ^ ENTRY_BITS →
  entry_at T t i = Some e → page_is_pte_valid e (Z.of_nat (length P) + 1) = true → pt_wf T own root (λ _, False).
Proof.
  intros [W1 W2 W3 W4 W5 W6 W7 W8] Ho Hi He Hv. split; try done. intros x P' Hx HP _.
  destruct (decide (x = t)) as [->|Hne]; [|by apply (W5 x P')]. assert (P' = P) as -> by congruence. by exists i, e.
Qed.

Lemma wf_weaken T own root X : pt_wf T own root (λ _, False) → pt_wf T own root X.
Proof. intros [W1 W2 W3 W4 W5 W6 W7 W8]. split; try done. intros x P Hx HP _. by apply (W5 x P); [..|tauto]. Qed.

(** Tables have different paths. *)
Lemma own_inj T own root X x y P : pt_wf T own root X → own !! x = Some P → own !! y = Some P → x = y.
Proof.
  intros Hw Hx Hy. destruct (wf_reach _ _ _ _ Hw _ _ Hx) as (v & _ & HP & Hr). destruct (wf_reach _ _ _ _ Hw _ _ Hy) as (v' & _ & HP' & Hr').
  rw (reach_path T root _ v v') in Hr; congruence.
Qed.

(** Unlinking an empty table. *)
Section Unlink.
Context T own root (p : Z) t n va.
Let i := page_get_pte (Z.of_nat n + 1) va.
Let T' := upd (delete t T) p i pte_zero.
Let own' := delete t own.
Hypothesis Hw : pt_wf T own root (λ x, x = t).
Hypothesis Hp : reach T root n va = Some p.
Hypothesis Ht : reach T root (S n) va = Some t.
Hypothesis Hemp : ∀ j e, 0 ≤ j < 2 ^ ENTRY_BITS → entry_at T t j = Some e → pte_is_zero e = true.

Lemma ul_own : own !! p = Some (pth n va) ∧ own !! t = Some (pth (S n) va) ∧ p ≠ t ∧ root ≠ t.
Proof.
  pose proof (reach_own _ _ _ _ _ _ _ Hw Hp) as Hop. pose proof (reach_own _ _ _ _ _ _ _ Hw Ht) as Hot.
  pose proof (wf_root _ _ _ _ Hw) as Hor. split; [done|]. split; [done|]. split; intros E.
  - assert (pth n va = pth (S n) va) as El%(f_equal length) by congruence. rw !pth_length in El. lia.
  - assert ([] = pth (S n) va) as El%(f_equal length) by congruence. rw pth_length in El. done.
Qed.

(** The entry followed to [t]. *)
Lemma ul_link : ∃ e, entry_at T p i = Some e ∧ points_to e (Z.of_nat n + 1) = Some t.
Proof.
  pose proof Ht as E. cbn [reach] in E. rw Hp (_ : Z.of_nat (S n) = Z.of_nat n + 1) /= in E; [lia|].
  apply bind_Some in E as (e & He & Hpt). by exists e.
Qed.

Lemma ul_empty m v e l : in_range v → 1 ≤ l ≤ PAGE_LEVELS → entry_at T t (page_get_pte l v) = Some e → page_is_pte_valid e m = false.
Proof.
  intros Hv Hl He. destruct (page_is_pte_valid e m) eqn:E; [|done]. apply pa_valid_zero in E.
  rw (Hemp _ _ (pte_index_range l v Hl (proj1 Hv)) He) in E. done.
Qed.

Lemma ul_entry x j : x ≠ t → entry_at T' x j = if decide (x = p ∧ j = i) then Some pte_zero else entry_at T x j.
Proof.
  intros Hx. destruct ul_own as (Hop & _ & Hpt & _). destruct (wf_tab _ _ _ _ Hw _ _ Hop) as [Hs _].
  rw /T' entry_upd; [rw lookup_delete_ne //; congruence|]. case_decide; [done|]. rw /entry_at lookup_delete_ne //. congruence.
Qed.

Lemma ul_reach m v x : in_range v → reach T' root m v = Some x ↔ reach T root m v = Some x ∧ x ≠ t.
Proof.
  intros Hv. destruct ul_own as (Hop & Hot & Hpt & Hrt). revert x. induction m as [|m IH]; intros x.
  { cbn. split; [intros [= <-]; done|tauto]. }
  cbn [reach]. split.
  - intros (t0 & Ht0%IH & (e0 & He0 & Hp0)%bind_Some)%bind_Some. destruct Ht0 as [Hr0 Hne0]. rw ul_entry // in He0. rw Hr0 /=.
    case_decide as Hd; [injection He0 as <-; by rw (points_invalid _ _ (pa_zero _)) in Hp0|]. rw He0 /=. split; [done|].
    intros ->. apply Hd. assert (reach T root (S m) v = Some t) as Hr1 by by cbn [reach]; rw Hr0 /= He0.
    pose proof (reach_own _ _ _ _ _ _ _ Hw Hr1) as Ho1. assert (S m = S n) as [= ->] by exact (own_level _ _ _ _ _ _ Ho1 Hot).
    assert (pth (S n) v = pth (S n) va) as Ep by congruence. rw !pth_S in Ep. apply app_inj_2 in Ep as [Ep [= Ei]]; [|done].
    rw (reach_path T root n v va) // Hp in Hr0. injection Hr0 as <-. split; [done|].
    by rw (_ : Z.of_nat (S n) = Z.of_nat n + 1); [lia|].
  - intros [(t0 & Hr0 & (e0 & He0 & Hp0)%bind_Some)%bind_Some Hxt].
    pose proof (reach_level _ _ _ _ _ _ _ Hw Hr0) as Hlv.
    assert (t0 ≠ t) as Hne0. { intros ->. by rw points_invalid in Hp0; [apply (ul_empty _ v _ (Z.of_nat (S m)) Hv); [lia|exact He0]|]. }
    assert (reach T' root m v = Some t0) as -> by by apply IH. cbn [mbind option_bind]. rw ul_entry //. case_decide as Hd; [|by rw He0].
    destruct Hd as [-> Hi]. assert (m = n) as -> by exact (own_level _ _ _ _ _ _ (reach_own _ _ _ _ _ _ _ Hw Hr0) Hop).
    destruct ul_link as (e1 & He1 & Hp1). rw Hi in He0. rw (_ : Z.of_nat (S n) = Z.of_nat n + 1) in Hp0; [lia|]. congruence.
Qed.

Lemma ul_leaf v e m : in_range v → leaf_at T' root v e m ↔ leaf_at T root v e m.
Proof.
  intros Hv. destruct ul_own as (Hop & Hot & Hpt & Hrt). split.
  - intros (x & [Hx Hne]%ul_reach & He & Hval & Hl); [|done]. rw ul_entry // in He. case_decide; [injection He as <-; by rw pa_zero in Hval|]. by exists x.
  - intros (x & Hx & He & Hval & Hl). pose proof (reach_level _ _ _ _ _ _ _ Hw Hx) as Hlv.
    assert (x ≠ t) as Hne. { intros ->. by rw (ul_empty (Z.of_nat m + 1) v e (Z.of_nat m + 1) Hv) in Hval; [lia|done|]. }
    exists x. split; [by apply ul_reach|]. rw ul_entry //. case_decide as Hd; [|done]. destruct Hd as [-> Hi].
    assert (m = n) as -> by exact (own_level _ _ _ _ _ _ (reach_own _ _ _ _ _ _ _ Hw Hx) Hop).
    destruct ul_link as (e1 & He1 & Hp1). rw Hi in He. assert (e1 = e) as -> by congruence. by rw points_leaf in Hp1.
Qed.

Lemma ul_wf : pt_wf T' own' root (λ x, x = p).
Proof.
  destruct ul_own as (Hop & Hot & Hpt & Hrt).
  assert (∀ x P, own' !! x = Some P → x ≠ t ∧ own !! x = Some P) as Hown by (intros x P [Ha Hb]%lookup_delete_Some; split; [by intros ->|exact Hb]).
  split.
  - rw /own' lookup_delete_ne //; [congruence|]. apply Hw.
  - intros x P [Hne Hx]%Hown. rw /T' upd_is_Some lookup_delete_ne //; [congruence|]. by apply (wf_tab _ _ _ _ Hw).
  - intros x P j e [Hne Hx]%Hown. rw ul_entry //. case_decide as Hd; [intros [= <-]; by rw pa_zero|]. intros He Hv Hl.
    destruct (wf_next _ _ _ _ Hw _ _ _ _ Hx He Hv Hl) as (Hlt & q & Eq & Hq). split; [done|]. exists q. split; [done|].
    rw /own' lookup_delete_ne //. intros <-. apply Hd. rw pth_S in Hot. assert (P ++ [j] = pth n va ++ [page_get_pte (Z.of_nat n + 1) va]) as E by congruence.
    apply app_inj_2 in E as [-> [= ->]]; [|done]. by rw (own_inj _ _ _ _ x p _ Hw Hx Hop).
  - intros x P j e [Hne Hx]%Hown. rw ul_entry //. case_decide as Hd; [intros [= <-]; by rw pa_zero|]. by apply (wf_leaf _ _ _ _ Hw).
  - intros x P [Hne Hx]%Hown HP Hxp. destruct (wf_full _ _ _ _ Hw _ _ Hx HP Hne) as (j & e & Hj & He & Hv). exists j, e.
    rw ul_entry // decide_False //. tauto.
  - intros x P j e [Hne Hx]%Hown. rw ul_entry //. case_decide as Hd; [intros [= <-] _; apply pa_is_zero|]. by apply (wf_zero _ _ _ _ Hw).
  - intros x P [Hne Hx]%Hown. destruct (wf_reach _ _ _ _ Hw _ _ Hx) as (v & Hv1 & HP & Hr1). exists v. split; [done|]. split; [done|].
    by apply ul_reach.
  - intros x P j e [Hne Hx]%Hown. rw ul_entry //. case_decide as Hd; [intros [= <-]; by rw pa_zero|]. by apply (wf_frame _ _ _ _ Hw).
Qed.
End Unlink.

(** Every table leads to a leaf. *)
Lemma table_has_leaf T own root t n va : pt_wf T own root (λ _, False) → reach T root n va = Some t → (0 < n)%nat → in_range va →
  ∃ va' e m, in_range va' ∧ pth n va' = pth n va ∧ (n ≤ m)%nat ∧ leaf_at T root va' e m.
Proof.
  intros Hw. remember (Z.to_nat PAGE_LEVELS - n)%nat as d eqn:Ed. revert n t va Ed.
  induction d as [|d IH]; intros n t va Ed Hr Hn0 Hva; pose proof (reach_level _ _ _ _ _ _ _ Hw Hr) as Hlv; [lia|].
  pose proof (reach_own _ _ _ _ _ _ _ Hw Hr) as Ho.
  destruct (wf_full _ _ _ _ Hw _ _ Ho) as (i & e & Hi & He & Hv); [intros E; apply (f_equal length) in E; rw pth_length in E; cbn in E; lia|tauto|].
  rw pth_length in Hv. destruct (with_index n va i) as (va1 & Hva1 & Hp1 & Hi1); [done|done|done|].
  assert (reach T root n va1 = Some t) as Hr1 by by rw (reach_path T root n va1 va).
  destruct (page_is_pte_leaf e (Z.of_nat n + 1)) eqn:El.
  - exists va1, e, n. split; [done|]. split; [done|]. split; [lia|]. exists t. rw Hi1. done.
  - pose proof (wf_next _ _ _ _ Hw t (pth n va) i e Ho He) as Hnx. rw pth_length in Hnx. destruct (Hnx Hv El) as (Hlt & p & Ep & Hp).
    assert (reach T root (S n) va1 = Some p) as Hr2.
    { cbn [reach]. rw Hr1 /=. rw (_ : Z.of_nat (S n) = Z.of_nat n + 1); [lia|]. rw Hi1 He /= /points_to Hv El /= Ep //. }
    destruct (IH (S n) p va1 ltac:(lia) Hr2 ltac:(lia) Hva1) as (va2 & e2 & m & Hva2 & Hp2 & Hm & Hlf).
    exists va2, e2, m. split; [done|]. split; [|split; [lia|done]]. rw (path_prefix n (S n) va2 va1) //. lia.
Qed.
End Grow.

(** A mask of [a] bits below a mask of [k] bits. *)
Lemma lor_low_high a k : 0 ≤ a → 0 ≤ k → Z.lor (2 ^ a - 1) (Z.shiftl (2 ^ k - 1) a) = 2 ^ (a + k) - 1.
Proof.
  intros Ha Hk. rw !Z.sub_1_r -!Z.ones_equiv. apply Z.bits_inj'. intros i Hi. rw Z.lor_spec Z.shiftl_spec //.
  destruct (Z.lt_ge_cases i a).
  - rw (Z.ones_spec_low a); [lia|]. rw (Z.ones_spec_low (a + k)); [lia|]. done.
  - rw (Z.ones_spec_high a); [lia|]. cbn. destruct (Z.lt_ge_cases i (a + k)).
    + rw !Z.ones_spec_low //; lia.
    + rw !Z.ones_spec_high //; lia.
Qed.

(** ** What the frame allocator promises *)

(** [pg_inv k X n]: the tables at [X] are allocated, and [n] more can be. *)
Class PageEnvLaws (K : Type) `{PageArchLaws} `{PageEnv K} := {
  pg_inv : K → gset Z → nat → Prop;
  page_palloc_given : is_Some page_palloc;
  page_pfree_given : is_Some page_pfree;
  page_palloc_ok : ∀ k X n, pg_inv k X (S n) →
    match page_palloc with
    | Some f => wp (f 1) (λ ppfn k', ∃ ptr, 0 < ppfn < 2 ^ PFN_BITS ∧ page_ppfn_to_ptr ppfn = Ret ptr ∧ ptr ≠ 0 ∧ (ptr ∉ X) ∧
        pg_inv k' ({[ptr]} ∪ X) n) k
    | None => False
    end;
  page_pfree_ok : ∀ k X n ppfn ptr, pg_inv k X n → 0 ≤ ppfn < 2 ^ PFN_BITS → page_ppfn_to_ptr ppfn = Ret ptr → ptr ∈ X →
    match page_pfree with
    | Some f => wp (f ppfn) (λ r k', r = 1 ∧ pg_inv k' (X ∖ {[ptr]}) n) k
    | None => False
    end
}.

Section Ops.
Context `{Harch : Arch} `{Hpa : PageArch} `{!PageArchLaws} {K : Type} `{Henv : PageEnv K} `{!PageEnvLaws K}.
Implicit Types (s : page_state K) (T : gmap Z (gmap Z pte)) (own : gmap Z (list Z)) (t root i va : Z) (e : pte) (n : nat).

(** The tables of a state form a tree rooted at [root]. *)
Record pg_ok s own root (X : Z → Prop) (n : nat) : Prop := {
  ok_wf : pt_wf (pg_tables s) own root X;
  ok_env : pg_inv (pg_env s) (dom (pg_tables s)) n
}.

Lemma wp_read_pte s t i e (Q : pte → page_state K → Prop) :
  entry_at (pg_tables s) t i = Some e → Q e s → wp (read_pte t i) Q s.
Proof. intros E HQ. eapply wp_deref; [exact E|exact HQ]. Qed.

Lemma wp_write_pte s t i e (Q : unit → page_state K → Prop) :
  is_Some (pg_tables s !! t) → Q tt (mk_pg (upd (pg_tables s) t i e) (pg_env s)) → wp (write_pte t i e) Q s.
Proof.
  intros [es Et] HQ. rw /write_pte. wp_step. eapply wp_read_pte; [by rw /entry_at Et|]. wp_step. exact HQ.
Qed.

Lemma owned_entry T own root X t P i : pt_wf T own root X → own !! t = Some P → ∃ e, entry_at T t i = Some e.
Proof. intros Hw Ho. destruct (wf_tab _ _ _ _ Hw _ _ Ho) as [[es Et] _]. rw /entry_at Et /=. eauto. Qed.

(** *** Translation *)

(** The physical address of a leaf of [n] steps. *)
Lemma dest_paddr_value e n va : Z.of_nat n < PAGE_LEVELS → page_get_block_page_count (Z.of_nat n + 1) ≠ 0 → uint ARCH_WIDTH va →
  page_get_pte_dest_paddr e (Z.of_nat n + 1) va =
    Ret (Z.lor (ppfn_to_paddr (page_get_pte_dest_ppfn e (Z.of_nat n + 1))) (va mod bsize (S n))).
Proof.
  intros Hn Hc Hva. rw /page_get_pte_dest_paddr /page_get_block_vmask.
  destruct (pa_block (Z.of_nat n + 1)) as [Hz|[Hcount Hsmall]]; [lia|done|].
  rw /ctrue. destruct (Z.eqb_spec (page_get_block_page_count (Z.of_nat n + 1)) 0); [done|]. cbn [negb mbind outcome_bind].
  rw Hcount. pose proof pa_bits. pose proof page_bits_range as Hpb. set (k := (PAGE_LEVELS - (Z.of_nat n + 1)) * ENTRY_BITS) in *.
  assert (bsize (S n) = 2 ^ (PAGE_BITS + k)) as Ebs by (rw /bsize /k; f_equal; lia).
  assert (0 ≤ k) by (rw /k; nia). assert (32 ≤ ARCH_WIDTH) as HW by arch_lia.
  assert (∀ j, 0 ≤ j < 31 → 0 < 2 ^ j < 2 ^ 31) as Hpow by (intros j Hj; split; [lia|apply Z.pow_lt_mono_r; lia]).
  assert (2 ^ 31 < 2 ^ ARCH_WIDTH) by (apply Z.pow_lt_mono_r; lia). clearbody k. assert (0 ≤ k < 31) as Hk1 by lia. assert (0 ≤ PAGE_BITS + k < 31) as Hk2 by lia. pose proof (Hpow k Hk1). pose proof (Hpow _ Hk2).
  rw /shl (wrap_small _ (2 ^ k - 1)); [rw /uint; lia|].
  assert (Z.shiftl (2 ^ k - 1) PAGE_BITS = 2 ^ (PAGE_BITS + k) - 2 ^ PAGE_BITS) as Esh
    by (rw Z.shiftl_mul_pow2; [lia|]; rw Z.pow_add_r; lia).
  rw wrap_small; [rw Esh /uint; assert (2 ^ PAGE_BITS ≤ 2 ^ (PAGE_BITS + k)) by (apply Z.pow_le_mono_r; lia); lia|].
  rw /PAGE_SIZE lor_low_high; [lia|lia|]. rw -/PAGE_SIZE Z.sub_1_r -Z.ones_equiv Z.land_ones; [lia|].
  rw Ebs. set (x := va mod 2 ^ (PAGE_BITS + k)). assert (0 ≤ x < 2 ^ 31) as Hx.
  { assert (0 < 2 ^ (PAGE_BITS + k)) as Hpp by lia. pose proof (Z.mod_pos_bound va (2 ^ (PAGE_BITS + k)) Hpp). rw /x. lia. }
  pose proof pa_paddr. assert (2 ^ 31 ≤ 2 ^ MAX_NUM_PADDR_BITS) by (apply Z.pow_le_mono_r; lia).
  assert (2 ^ 31 < 2 ^ PADDR_WIDTH) by (apply Z.pow_lt_mono_r; destruct paddr_width_cases; lia).
  rw /cast_vaddr_to_paddr (wrap_small 64); [rw /uint; lia|]. rw clz64_fits; [rw /uint; lia|lia|].
  destruct (Z.ltb_spec x (2 ^ MAX_NUM_PADDR_BITS)); [|lia]. cbn. rw wrap_small //. rw /uint. lia.
Qed.

(** The address the leaf [e] of [n] steps gives [va]. *)
Definition leaf_paddr e n va : Z := Z.lor (ppfn_to_paddr (page_get_pte_dest_ppfn e (Z.of_nat n + 1))) (va mod bsize (S n)).

(** [va] is mapped to [pa] with the attributes [x], [w] and [k].  It can be read,
    and its cache attribute is what [map_page] makes it, that of [x]. *)
Definition mapped T root va pa x w k : Prop :=
  ∃ e n, leaf_at T root va e n ∧ pa = leaf_paddr e n va ∧
    page_get_pte_attri e (Z.of_nat n + 1) = mk_attri x 1 w (CACHE_OF x) k.

Lemma stopped_unmapped T root va t e n : reach T root n va = Some t → entry_at T t (page_get_pte (Z.of_nat n + 1) va) = Some e →
  page_is_pte_valid e (Z.of_nat n + 1) = false → ∀ e' n', ¬ leaf_at T root va e' n'.
Proof.
  intros Hr He Hv e' n' (t' & Hr' & He' & Hv' & Hl'). destruct (Nat.lt_trichotomy n n') as [Hlt|[->|Hlt]].
  - by rw (reach_stop _ _ _ _ _ _ _ Hr He (points_invalid _ _ Hv) Hlt) in Hr'.
  - assert (t' = t) as -> by congruence. assert (e' = e) as -> by congruence. congruence.
  - by rw (reach_stop _ _ _ _ _ _ _ Hr' He' (points_leaf _ _ Hl') Hlt) in Hr.
Qed.

Lemma wp_translate_loop s own root X fuel : ∀ n t va (Q : Z * option attri → page_state K → Prop),
  pt_wf (pg_tables s) own root X → reach (pg_tables s) root n va = Some t → uint ARCH_WIDTH va →
  PAGE_LEVELS - Z.of_nat n ≤ Z.of_nat fuel →
  (∀ e m, leaf_at (pg_tables s) root va e m → Q (leaf_paddr e m va, Some (page_get_pte_attri e (Z.of_nat m + 1))) s) →
  ((∀ e m, ¬ leaf_at (pg_tables s) root va e m) → Q (0, None) s) →
  wp (translate_loop fuel t (Z.of_nat n + 1) va) Q s.
Proof.
  induction fuel as [|fuel IH]; intros n t va Q Hw Hr Hva Hf HQ1 HQ2; pose proof (reach_level _ _ _ _ _ _ _ Hw Hr) as Hlv; [lia|].
  pose proof (reach_own _ _ _ _ _ _ _ Hw Hr) as Ho. destruct (owned_entry _ _ _ _ _ _ (page_get_pte (Z.of_nat n + 1) va) Hw Ho) as [e He].
  pose proof (wf_leaf _ _ _ _ Hw _ _ _ _ Ho He) as Hlf. pose proof (wf_next _ _ _ _ Hw _ _ _ _ Ho He) as Hnx. rw pth_length in Hlf Hnx.
  assert (page_is_pte_valid e (Z.of_nat n + 1) = true → page_is_pte_leaf e (Z.of_nat n + 1) = true →
    wp (paddr ← lift_outcome (page_get_pte_dest_paddr e (Z.of_nat n + 1) va); mret (paddr, Some (page_get_pte_attri e (Z.of_nat n + 1)))) Q s) as Hend.
  { intros Hv Hl. wp_step. wp_step; [by apply dest_paddr_value; [lia|apply Hlf|]|]. cbv beta. wp_step. apply (HQ1 e n). by exists t. }
  cbn [translate_loop]. destruct (Z.ltb_spec (Z.of_nat n + 1) PAGE_LEVELS).
  - wp_step. eapply wp_read_pte; [exact He|]. destruct (page_is_pte_valid e (Z.of_nat n + 1)) eqn:Hv; cbn [negb].
    + destruct (page_is_pte_leaf e (Z.of_nat n + 1)) eqn:Hl; cbn [negb]; [by apply Hend|].
      destruct (Hnx eq_refl eq_refl) as (_ & p & Ep & Hp). wp_step. wp_step; [exact Ep|]. cbv beta.
      rw (_ : Z.of_nat n + 1 + 1 = Z.of_nat (S n) + 1); [lia|]. apply IH; try done; [|lia].
      cbn [reach]. rw Hr /=. rw (_ : Z.of_nat (S n) = Z.of_nat n + 1); [lia|]. rw He /= /points_to Hv Hl /= Ep //.
    + wp_step. apply HQ2. exact (stopped_unmapped _ _ _ _ _ _ Hr He Hv).
  - wp_step. eapply wp_read_pte; [exact He|]. destruct (page_is_pte_valid e (Z.of_nat n + 1)) eqn:Hv; cbn [negb].
    + destruct (page_is_pte_leaf e (Z.of_nat n + 1)) eqn:Hl; [|destruct (Hnx eq_refl eq_refl); lia].
      wp_step. wp_step; [done|]. by apply Hend.
    + wp_step. apply HQ2. exact (stopped_unmapped _ _ _ _ _ _ Hr He Hv).
Qed.

Lemma wp_generic_translate_attri s own root X va (Q : Z * option attri → page_state K → Prop) :
  pt_wf (pg_tables s) own root X → uint ARCH_WIDTH va →
  (∀ e m, leaf_at (pg_tables s) root va e m → Q (leaf_paddr e m va, Some (page_get_pte_attri e (Z.of_nat m + 1))) s) →
  ((∀ e m, ¬ leaf_at (pg_tables s) root va e m) → Q (0, None) s) →
  wp (generic_translate_attri root va) Q s.
Proof. intros Hw Hva HQ1 HQ2. eapply (wp_translate_loop s own root X _ 0); [exact Hw|done|done|lia|exact HQ1|exact HQ2]. Qed.

(** *** Mapping *)

(** The slot of [va] at level [b] is free: no leaf above it, and nothing in it. *)
Definition vacant T root (b : nat) va : Prop :=
  ∀ n t e, (n < b)%nat → reach T root n va = Some t → entry_at T t (page_get_pte (Z.of_nat n + 1) va) = Some e →
    page_is_pte_valid e (Z.of_nat n + 1) = true → page_is_pte_leaf e (Z.of_nat n + 1) = false ∧ (S n < b)%nat.

Lemma wp_alloc_table s X N l (Q : Z * Z → page_state K → Prop) : pg_inv (pg_env s) X (S N) →
  (∀ ptr ppfn k, 0 < ppfn < 2 ^ PFN_BITS → page_ppfn_to_ptr ppfn = Ret ptr → ptr ≠ 0 → ptr ∉ X → pg_inv k ({[ptr]} ∪ X) N →
     Q (ptr, ppfn) (mk_pg (<[ptr := ∅]> (pg_tables s)) k)) →
  wp (page_alloc_table l) Q s.
Proof.
  intros He HQ. rw /page_alloc_table. rw pa_table_pages. pose proof (page_palloc_ok _ _ _ He) as Hp.
  destruct page_palloc as [f|]; [|done]. wp_step. apply wp_zoom. eapply wp_mono; [exact Hp|].
  intros ppfn k (ptr & Hpp & Hptr & Hne & Hn & Hk). wp_step. wp_step; [exact Hptr|]. cbv beta. wp_step. wp_step. wp_step. by apply HQ.
Qed.

(** Linking a table keeps the slot free. *)
Lemma vacant_link T own root t n va ptr ppfn b : pt_wf T own root (λ x, x = t) → reach T root n va = Some t → in_range va →
  Z.of_nat n + 1 < PAGE_LEVELS → T !! ptr = None → 0 ≤ ppfn < 2 ^ PFN_BITS → page_ppfn_to_ptr ppfn = Ret ptr →
  (∀ e0, entry_at T t (page_get_pte (Z.of_nat n + 1) va) = Some e0 → page_is_pte_valid e0 (Z.of_nat n + 1) = false) →
  (S n < b)%nat → vacant T root b va →
  vacant (upd (<[ptr := ∅]> T) t (page_get_pte (Z.of_nat n + 1) va) (page_set_pte_next_table (Z.of_nat n + 1) ppfn)) root b va.
Proof.
  intros Hw Hr Hva Hn Hptr Hpp Hconv Hinv Hb Hvac m x e Hm Hx He Hv.
  rw (lk_entry T own root t n va ptr ppfn) // in He.
  destruct (lk_reach_new T own root t n va ptr ppfn Hw Hr Hn Hptr Hpp Hconv m va x Hx) as [Hx0|(-> & -> & _)].
  - case_decide as Hd.
    + destruct Hd as [-> _]. injection He as <-.
      assert (m = n) as -> by exact (own_level _ _ _ _ _ _ (reach_own _ _ _ _ _ _ _ Hw Hx0) (reach_own _ _ _ _ _ _ _ Hw Hr)).
      split; [|done]. by destruct (pa_table (Z.of_nat n + 1) ppfn) as (_ & ? & _); [lia|done|].
    + rw decide_False in He; [intros ->; destruct (wf_tab _ _ _ _ Hw _ _ (reach_own _ _ _ _ _ _ _ Hw Hx0)) as [[? E] _]; congruence|].
      by apply (Hvac m x e).
  - rw decide_False in He; [intros [-> _]; destruct (wf_tab _ _ _ _ Hw _ _ (reach_own _ _ _ _ _ _ _ Hw Hr)) as [[? E] _]; congruence|].
    rw decide_True // in He. injection He as <-. by rw pa_zero in Hv.
Qed.

Lemma wp_map_walk root b va ppfn cache exec write kernel fuel : ∀ n t s own M (Q : Z → page_state K → Prop),
  pg_ok s own root (λ x, x = t) (b - n - 1 + M) → reach (pg_tables s) root n va = Some t → in_range va →
  (n < b)%nat → Z.of_nat b ≤ PAGE_LEVELS → (b - n ≤ fuel)%nat → vacant (pg_tables s) root b va →
  (∀ t' s' own' M', (M ≤ M')%nat → pg_ok s' own' root (λ x, x = t') M' → reach (pg_tables s') root (b - 1) va = Some t' →
     (∀ v e m, leaf_at (pg_tables s') root v e m ↔ leaf_at (pg_tables s) root v e m) →
     vacant (pg_tables s') root b va → Q t' s') →
  wp (map_walk fuel t (Z.of_nat n + 1) va ppfn (Z.of_nat b) cache exec write kernel) Q s.
Proof.
  induction fuel as [|fuel IH]; intros n t s own M Q [Hw Henv'] Hr Hva Hn Hb Hf Hvac HQ; [lia|]. cbn [map_walk].
  pose proof (reach_own _ _ _ _ _ _ _ Hw Hr) as Ho.
  destruct (Z.ltb_spec (Z.of_nat n + 1) (Z.of_nat b)) as [Hlt|Hge].
  - destruct (owned_entry _ _ _ _ _ _ (page_get_pte (Z.of_nat n + 1) va) Hw Ho) as [e He].
    wp_step. eapply wp_read_pte; [exact He|]. wp_step. destruct (page_is_pte_valid e (Z.of_nat n + 1)) eqn:Hv; cbn [negb].
    + destruct (Hvac n t e ltac:(lia) Hr He Hv) as [Hl _]. rw Hl. cbn [andb]. wp_step. wp_step.
      destruct (wf_next _ _ _ _ Hw _ _ _ _ Ho He) as (_ & p & Ep & Hp); rw ?pth_length //. rw pth_length in Ep.
      wp_step; [exact Ep|]. cbv beta. rw (_ : Z.of_nat n + 1 + 1 = Z.of_nat (S n) + 1); [lia|].
      apply (IH (S n) p s own (S M)); [|..]; try done; try lia.
      * split; [|by rw (_ : b - S n - 1 + S M = b - n - 1 + M)%nat; [lia|]]. apply wf_weaken.
        apply (wf_filled _ _ _ t (pth n va) (page_get_pte (Z.of_nat n + 1) va) e); rw ?pth_length //. apply pte_index_range; [lia|apply Hva].
      * cbn [reach]. rw Hr /=. rw (_ : Z.of_nat (S n) = Z.of_nat n + 1); [lia|]. rw He /= /points_to Hv Hl /= Ep //.
      * intros t' s' own' M' HM. apply HQ. lia.
    + rw (_ : b - n - 1 + M = S (b - S n - 1 + M))%nat in Henv'; [lia|].
      wp_step. eapply (wp_alloc_table s _ (b - S n - 1 + M)); [exact Henv'|].
      intros ptr np k Hnp Hptr Hptr0 Hfresh%not_elem_of_dom Hk. wp_step. wp_step; [apply negb_true_iff, Z.eqb_neq; lia|].
      wp_step. wp_step; [by apply negb_true_iff, Z.eqb_neq|]. wp_step.
      assert (∀ e0, entry_at (pg_tables s) t (page_get_pte (Z.of_nat n + 1) va) = Some e0 → page_is_pte_valid e0 (Z.of_nat n + 1) = false) as Hinv
        by (intros e0 E0; congruence).
      destruct (wf_tab _ _ _ _ Hw _ _ Ho) as [Hs _]. assert (t ≠ ptr) by (intros ->; destruct Hs; congruence).
      apply wp_write_pte; [cbn; by rw lookup_insert_ne; [congruence|]|]. wp_step. cbn [pg_tables pg_env].
      rw (_ : Z.of_nat n + 1 + 1 = Z.of_nat (S n) + 1); [lia|].
      apply (IH (S n) ptr _ (<[ptr := pth (S n) va]> own) M); cbn [pg_tables pg_env]; try done; try lia.
      * split; cbn [pg_tables pg_env].
        -- apply lk_wf; try done; lia.
        -- rw /upd dom_alter_L dom_insert_L. done.
      * apply (lk_reach (pg_tables s) own); try done; lia.
      * apply (vacant_link _ own); try done; lia.
      * intros t' s' own' M' HM Hok Hr' Hlf Hvac'. apply (HQ t' s' own' M'); try done.
        intros v e' m. rw Hlf. apply (lk_leaf _ own); try done; lia.
  - assert (b = S n) as -> by lia. wp_step. apply (HQ t s own M); try done.
    + split; [done|]. by rw (_ : S n - n - 1 + M = M)%nat in Henv'; [lia|].
    + by rw (_ : S n - 1 = n)%nat; [lia|].
Qed.

(** A block without a mapping has a free slot: its tables would lead to one. *)
Lemma unmapped_vacant T own root b va : pt_wf T own root (λ _, False) → in_range va → (0 < b)%nat →
  (∀ va' e n, in_range va' → pth b va' = pth b va → ¬ leaf_at T root va' e n) → vacant T root b va.
Proof.
  intros Hw Hva Hb Hno n t e Hn Hr He Hv. destruct (page_is_pte_leaf e (Z.of_nat n + 1)) eqn:Hl.
  - destruct (Hno va e n Hva eq_refl). by exists t.
  - split; [done|]. destruct (decide (S n < b)%nat) as [|Hge]; [done|]. assert (b = S n) as -> by lia.
    pose proof (reach_own _ _ _ _ _ _ _ Hw Hr) as Ho. destruct (wf_next _ _ _ _ Hw _ _ _ _ Ho He) as (_ & p & Ep & _); rw ?pth_length //.
    rw pth_length in Ep.
    assert (reach T root (S n) va = Some p) as Hr2.
    { cbn [reach]. rw Hr /=. rw (_ : Z.of_nat (S n) = Z.of_nat n + 1); [lia|]. rw He /= /points_to Hv Hl /= Ep //. }
    destruct (table_has_leaf T own root p (S n) va Hw Hr2 ltac:(lia) Hva) as (va' & e' & m & Hva' & Hp & _ & Hlf).
    by destruct (Hno va' e' m Hva' Hp).
Qed.

Lemma wp_map_page s own root b va pa cache exec write kernel M (Q : unit → page_state K → Prop) :
  let e' := page_set_pte_attri (Z.of_nat b) (paddr_to_ppfn pa) exec 1 write exec kernel in
  pg_ok s own root (λ _, False) (b - 1 + M) → in_range va → (0 < b)%nat → Z.of_nat b ≤ PAGE_LEVELS →
  page_get_block_page_count (Z.of_nat b) ≠ 0 → (va = 0 → pa = 0) → 0 ≤ paddr_to_ppfn pa < 2 ^ PFN_BITS →
  vacant (pg_tables s) root b va →
  (∀ s' own' M', (M ≤ M')%nat → pg_ok s' own' root (λ _, False) M' →
     (∀ v e m, leaf_at (pg_tables s') root v e m ↔ if decide (pth b v = pth b va) then m = (b - 1)%nat ∧ e = e' else leaf_at (pg_tables s) root v e m) →
     Q tt s') →
  wp (map_page root va pa (Z.of_nat b) cache exec write kernel) Q s.
Proof.
  intros e' [Hw He] Hva Hb Hbl Hc H0 Hpp Hvac HQ. rw /map_page. wp_step. wp_step.
  { destruct (Z.eqb_spec va 0) as [->|]; [|done]. by rw H0. }
  wp_step. apply (wp_map_walk root b va _ _ _ _ _ _ 0 root s own M); [|done|done|lia|done|lia|done|].
  { split; [by apply wf_weaken|]. by rw (_ : b - 0 - 1 + M = b - 1 + M)%nat; [lia|]. }
  intros t1 s1 own1 M1 HM [Hw1 He1] Hr1 Hlf1 Hvac1. rw (_ : Z.max 1 (Z.of_nat b) = Z.of_nat b); [lia|].
  pose proof (reach_own _ _ _ _ _ _ _ Hw1 Hr1) as Ho1. assert (Z.of_nat (b - 1) + 1 = Z.of_nat b) as Eb by lia.
  destruct (owned_entry _ _ _ _ _ _ (page_get_pte (Z.of_nat b) va) Hw1 Ho1) as [e0 He0].
  assert (page_is_pte_valid e0 (Z.of_nat b) = false) as Hv0.
  { destruct (page_is_pte_valid e0 (Z.of_nat b)) eqn:Hv0; [|done].
    destruct (Hvac1 (b - 1)%nat t1 e0) as [_ Hlt]; rw ?Eb //; lia. }
  destruct (pa_leaf (Z.of_nat b) (paddr_to_ppfn pa) exec 1 write exec kernel) as (Hv' & Hl' & _); [lia|done|done|].
  wp_step. eapply wp_read_pte; [exact He0|]. rw Hv0. apply wp_write_pte; [apply (wf_tab _ _ _ _ Hw1 _ _ Ho1)|].
  apply (HQ _ own1 M1 HM).
  - split; cbn [pg_tables pg_env]; [|by rw /upd dom_alter_L].
    pose proof (wf_set_leaf (pg_tables s1) own1 root t1 (b - 1) va e0 e') as Hset. rw Eb in Hset. apply Hset; try done. apply Hva.
  - intros v e m. cbn [pg_tables].
    pose proof (leaf_upd (pg_tables s1) own1 root (λ x, x = t1) t1 (b - 1) va (page_get_pte (Z.of_nat b) va) e0 e' v e m) as Hup.
    rw Eb in Hup. rw Hup //; [by apply points_invalid|by apply points_leaf|]. rw (_ : S (b - 1) = b); [lia|].
    destruct (decide (pth b v = pth b va)) as [Hd|Hd]; [|apply Hlf1]. split; [by intros (-> & -> & _)|by intros [-> ->]].
Qed.

(** The physical addresses of a new leaf. *)
Lemma lor_aligned pa v b : Z.of_nat b ≤ PAGE_LEVELS → 0 ≤ pa < 2 ^ PADDR_WIDTH → (bsize b | pa) → 0 ≤ v →
  Z.lor (ppfn_to_paddr (paddr_to_ppfn pa)) (v mod bsize b) = pa + v mod bsize b.
Proof.
  intros Hb Hpaddr Hd Hv. pose proof (bsize_pos b Hb) as Hbs. pose proof pa_bits. pose proof page_bits_range.
  assert (∃ k, 0 ≤ k ∧ bsize b = 2 ^ (PAGE_BITS + k)) as (k & Hk & Ek).
  { exists ((PAGE_LEVELS - Z.of_nat b) * ENTRY_BITS). split; [nia|done]. }
  assert (ppfn_to_paddr (paddr_to_ppfn pa) = pa) as ->.
  { rw /ppfn_to_paddr /paddr_to_ppfn /shr /shl Z.shiftr_div_pow2; [lia|]. rw Z.shiftl_mul_pow2; [lia|].
    destruct Hd as [c ->]. rw Ek Z.pow_add_r in Hpaddr |- *; [lia..|]. rw (_ : c * (2 ^ PAGE_BITS * 2 ^ k) = c * 2 ^ k * 2 ^ PAGE_BITS) in Hpaddr |- *; [lia|].
    rw Z.div_mul; [lia|]. apply wrap_small. done. }
  assert (0 ≤ v mod bsize b < bsize b) as Hm by (apply Z.mod_pos_bound; lia). destruct Hd as [c ->]. rw Ek in Hm |- *.
  apply lor_low_part; lia.
Qed.

(** *** Blocks of a range *)

Lemma ALIGNED_pow2 w x k : 0 ≤ k < w → 0 ≤ x → ALIGNED w x (2 ^ k) = (x mod 2 ^ k =? 0).
Proof.
  intros Hk Hx. destruct (pow2_uint w k Hk) as [_ Hu]. rw /ALIGNED wrap_small // Z.sub_1_r -Z.ones_equiv Z.land_ones; [lia|].
  by rw /ctrue negb_involutive.
Qed.

Lemma swrap_id z : 0 ≤ z < 2 ^ 31 → s32 z = z.
Proof. intros Hz. rw /swrap. rw Z.mod_small; [change (2 ^ (32 - 1)) with (2 ^ 31); change (2 ^ 32) with (2 * 2 ^ 31); lia|]. lia. Qed.

Lemma swrap_add a b : s32 (s32 a + b) = s32 (a + b).
Proof.
  rw /swrap. f_equal. rw (_ : (a + 2 ^ (32 - 1)) mod 2 ^ 32 - 2 ^ (32 - 1) + b + 2 ^ (32 - 1) = (a + 2 ^ (32 - 1)) mod 2 ^ 32 + b); [lia|].
  rw Zplus_mod_idemp_l. f_equal. lia.
Qed.

(** The block at level [n] that starts at [va] can be mapped to [pa]. *)
Definition block_fits (n : nat) (count va pa size : Z) : Prop :=
  (0 < n)%nat ∧ Z.of_nat n ≤ PAGE_LEVELS ∧ page_get_block_page_count (Z.of_nat n) ≠ 0 ∧ count * PAGE_SIZE = bsize n ∧ 0 < count < 2 ^ 31 ∧
  (bsize n | va) ∧ (bsize n | pa) ∧ bsize n ≤ size.

Lemma block_level_loop_spec ls va pa size : (∀ l, l ∈ ls → 1 ≤ l ≤ PAGE_LEVELS) → 0 ≤ va → 0 ≤ pa →
  (PAGE_SIZE | va) → (PAGE_SIZE | pa) → PAGE_SIZE ≤ size →
  ∃ n count, block_level_loop ls va pa size = (Z.of_nat n, count) ∧ block_fits n count va pa size.
Proof.
  intros Hls Hva Hpaddr Hdv Hdp Hsz. pose proof pa_bits. pose proof page_bits_range as Hpb. pose proof pa_levels.
  assert (32 ≤ ARCH_WIDTH) as HW by arch_lia. assert (32 ≤ PADDR_WIDTH) as HP by (destruct paddr_width_cases; lia).
  assert (2 ^ 31 < 2 ^ ARCH_WIDTH) by (apply Z.pow_lt_mono_r; lia).
  induction ls as [|l ls IH]; cbn [block_level_loop].
  - exists (Z.to_nat PAGE_LEVELS), 1. split; [f_equal; lia|]. rw /block_fits Z2Nat.id; [lia|]. rw pa_block_last.
    assert (bsize (Z.to_nat PAGE_LEVELS) = PAGE_SIZE) as -> by (rw /bsize Z2Nat.id; [lia|]; rw /PAGE_SIZE; f_equal; lia).
    split_and!; try done; lia.
  - assert (1 ≤ l ≤ PAGE_LEVELS) as Hl by (apply Hls; left). assert (∀ l', l' ∈ ls → 1 ≤ l' ≤ PAGE_LEVELS) as Hls' by (intros l' ?; apply Hls; by right).
    specialize (IH Hls').
    destruct (pa_block l Hl) as [->|[Ec Hsmall]]; [exact IH|]. rw Ec.
    set (k := (PAGE_LEVELS - l) * ENTRY_BITS) in *. assert (0 ≤ k) by (rw /k; nia).
    assert (0 < 2 ^ k < 2 ^ 31) as Hk by (split; [lia|apply Z.pow_lt_mono_r; lia]).
    assert (0 < 2 ^ (PAGE_BITS + k) < 2 ^ 31) as Hpk by (split; [lia|apply Z.pow_lt_mono_r; lia]).
    assert (shl ARCH_WIDTH (2 ^ k) PAGE_BITS = 2 ^ (PAGE_BITS + k)) as ->.
    { rw /shl Z.shiftl_mul_pow2; [lia|]. rw -Z.pow_add_r; [lia..|]. rw Z.add_comm. apply wrap_small. rw /uint. lia. }
    rw swrap_id; [lia|]. assert (2 ^ (PAGE_BITS + k) = bsize (Z.to_nat l)) as Ebs by (rw /bsize /k Z2Nat.id //; lia).
    assert (uint ARCH_WIDTH (2 ^ (PAGE_BITS + k))) as Hu1 by (rw /uint; lia).
    assert (uint PADDR_WIDTH (2 ^ (PAGE_BITS + k))) as Hu2 by (rw /uint; assert (2 ^ 31 < 2 ^ PADDR_WIDTH) by (apply Z.pow_lt_mono_r; lia); lia).
    rw /is_vaddr_aligned /is_paddr_aligned !wrap_small //. rw !ALIGNED_pow2 //; [lia..|].
    destruct (Z.eqb_spec (2 ^ k) 0); [lia|]. rw (_ : ctrue (2 ^ k) = true); [by apply negb_true_iff, Z.eqb_neq|]. cbn [andb].
    destruct (Z.eqb_spec (va mod 2 ^ (PAGE_BITS + k)) 0) as [E1|]; [|exact IH].
    destruct (Z.eqb_spec (pa mod 2 ^ (PAGE_BITS + k)) 0) as [E2|]; [|exact IH].
    destruct (Z.leb_spec (2 ^ (PAGE_BITS + k)) size); [|exact IH]. cbn [andb].
    apply Z.mod_divide in E1; [|lia]. apply Z.mod_divide in E2; [|lia]. exists (Z.to_nat l), (2 ^ k). split; [f_equal; lia|].
    rw /block_fits -Ebs Z2Nat.id; [lia|]. rw Ec. split_and!; try done; try lia. rw /PAGE_SIZE Z.pow_add_r; lia.
Qed.

Lemma page_get_block_level_spec va pa size : 0 ≤ va → 0 ≤ pa → (PAGE_SIZE | va) → (PAGE_SIZE | pa) → PAGE_SIZE ≤ size →
  ∃ n count, page_get_block_level va pa size = (Z.of_nat n, count) ∧ block_fits n count va pa size.
Proof.
  intros. apply block_level_loop_spec; try done. intros l Hl%elem_of_seqZ. lia.
Qed.

(** The addresses of an aligned block. *)
Lemma path_in_block b va v : Z.of_nat b ≤ PAGE_LEVELS → in_range va → in_range v → (bsize b | va) →
  pth b v = pth b va ↔ va ≤ v < va + bsize b.
Proof.
  intros Hb Hva Hv [c ->]. pose proof (bsize_pos b Hb). rw path_block // Z.div_mul; [lia|]. split; intros E.
  - pose proof (Z.div_mod v (bsize b)). pose proof (Z.mod_pos_bound v (bsize b)). nia.
  - symmetry. apply (Z.div_unique v (bsize b) c (v - c * bsize b)); lia.
Qed.

Lemma ppfn_range pa : 0 ≤ pa < 2 ^ (PFN_BITS + PAGE_BITS) → 0 ≤ paddr_to_ppfn pa < 2 ^ PFN_BITS.
Proof.
  intros Hpaddr. pose proof page_bits_range. pose proof pa_pfn_bits as [? _]. rw /paddr_to_ppfn /shr Z.shiftr_div_pow2; [lia|].
  split; [apply Z.div_pos; lia|]. apply Z.div_lt_upper_bound; [lia|]. rw -Z.pow_add_r; [lia..|]. rw Z.add_comm. lia.
Qed.

(** The blocks a range is mapped in, one leaf each. *)
Fixpoint tiled (fuel : nat) T root (cur pa ve : Z) : Prop :=
  cur < ve → match fuel with
  | O => False
  | S fuel' => let '(b, count) := page_get_block_level cur pa (ve - cur) in
      (∃ e, leaf_at T root cur e (Z.to_nat b - 1) ∧ leaf_paddr e (Z.to_nat b - 1) cur = pa) ∧
      tiled fuel' T root (cur + count * PAGE_SIZE) (pa + count * PAGE_SIZE) ve
  end.

(** The number of blocks of a range. *)
Fixpoint range_blocks (fuel : nat) (cur pa ve : Z) : nat :=
  match fuel with
  | O => 0%nat
  | S fuel' => if cur <? ve then
      let '(_, count) := page_get_block_level cur pa (ve - cur) in S (range_blocks fuel' (cur + count * PAGE_SIZE) (pa + count * PAGE_SIZE) ve)
    else 0%nat
  end.

Lemma tiled_end fuel T root cur pa ve : ve ≤ cur → tiled fuel T root cur pa ve.
Proof. destruct fuel; cbn; intros ??; lia. Qed.

(** *** Mapping a range *)

Lemma wp_map_range_loop root cache exec write kernel ve fuel : ∀ s own cur pa acc N (Q : Z → page_state K → Prop),
  exec ∈ [0; 1] → write ∈ [0; 1] → kernel ∈ [0; 1] →
  pg_ok s own root (λ _, False) N → (range_blocks fuel cur pa ve * (Z.to_nat PAGE_LEVELS - 1) ≤ N)%nat →
  0 < cur ≤ ve → ve ≤ bsize 0 → ve < 2 ^ ARCH_WIDTH → 0 ≤ pa → pa + (ve - cur) ≤ 2 ^ (PFN_BITS + PAGE_BITS) →
  (PAGE_SIZE | cur) → (PAGE_SIZE | ve) → (PAGE_SIZE | pa) → ve - cur ≤ Z.of_nat fuel * PAGE_SIZE →
  (∀ v e n, cur ≤ v < ve → ¬ leaf_at (pg_tables s) root v e n) →
  (∀ s' own' N', pg_ok s' own' root (λ _, False) N' →
     (∀ v, cur ≤ v < ve → mapped (pg_tables s') root v (pa + (v - cur)) exec write kernel) →
     (∀ v e n, in_range v → ¬ cur ≤ v < ve → leaf_at (pg_tables s') root v e n ↔ leaf_at (pg_tables s) root v e n) →
     tiled fuel (pg_tables s') root cur pa ve → Q (s32 (acc + (ve - cur) / PAGE_SIZE)) s') →
  wp (map_range_loop fuel root cur pa ve (s32 acc) cache exec write kernel) Q s.
Proof.
  pose proof PAGE_SIZE_pos as Hps. pose proof pa_levels as HL. pose proof pa_pfn_bits as [Hpf1 Hpf2].
  assert (2 ^ (PFN_BITS + PAGE_BITS) ≤ 2 ^ PADDR_WIDTH) as HPW by (apply Z.pow_le_mono_r; lia).
  assert (2 ^ PADDR_WIDTH ≤ 2 ^ 64) as HP64 by (apply Z.pow_le_mono_r; destruct paddr_width_cases; lia).
  induction fuel as [|fuel IH]; intros s own cur pa acc N Q Hx1 Hx2 Hx3 Hok HN Hcur Hve Hmax Hpaddr Hpmax Hdc Hde Hdp Hf Hun HQ; cbn [map_range_loop].
  - assert (cur = ve) as -> by lia. destruct (Z.ltb_spec ve ve); [lia|]. wp_step.
    rw Z.sub_diag Z.div_0_l in HQ; [lia|]. rw Z.add_0_r in HQ. apply (HQ s own N); try done; [intros; lia|by apply tiled_end].
  - destruct (Z.ltb_spec cur ve) as [Hlt|]; cycle 1.
    { assert (cur = ve) as -> by lia. wp_step. rw Z.sub_diag Z.div_0_l in HQ; [lia|]. rw Z.add_0_r in HQ. apply (HQ s own N); try done; [intros; lia|by apply tiled_end]. }
    assert (ulong (ve - cur) = ve - cur) as -> by (apply wrap_small; rw /uint; lia).
    assert (PAGE_SIZE ≤ ve - cur) as Hone.
    { destruct Hdc as [c1 ->], Hde as [c2 ->]. assert (c1 < c2) by nia. nia. }
    assert (wrap PADDR_WIDTH pa = pa) as -> by (apply wrap_small; rw /uint; lia).
    destruct (page_get_block_level_spec cur pa (ve - cur)) as (b & count & Elev & Hb0 & HbL & Hbc & Ebs & Hcount & Hbv & Hbp & Hbsz); [lia|done..|].
    rw Elev. rw (_ : ctrue (Z.of_nat b) = true); [apply negb_true_iff, Z.eqb_neq; lia|].
    assert (in_range cur) as Hrc by (rw /in_range; lia). pose proof (bsize_pos b HbL) as Hbpos.
    assert (∀ v, in_range v → pth b v = pth b cur ↔ cur ≤ v < cur + bsize b) as Hblk by (intros v Hv; by apply path_in_block).
    assert (b - 1 ≤ Z.to_nat PAGE_LEVELS - 1)%nat as Hb1 by lia.
    assert (b - 1 + (N - (b - 1)) = N ∧ range_blocks fuel (cur + bsize b) (pa + bsize b) ve * (Z.to_nat PAGE_LEVELS - 1) ≤ N - (b - 1))%nat as [HNb HNf].
    { cbn [range_blocks] in HN. rw (proj2 (Z.ltb_lt _ _) Hlt) Elev Ebs Nat.mul_succ_l in HN.
      remember (range_blocks fuel (cur + bsize b) (pa + bsize b) ve * (Z.to_nat PAGE_LEVELS - 1))%nat as z eqn:Ez. clear -HN Hb1. lia. }
    wp_step. eapply (wp_map_page s own root b cur pa _ _ _ _ (N - (b - 1))); [by rw HNb|done|done|done|done|lia| | |].
    { apply ppfn_range. lia. }
    { apply (unmapped_vacant _ own); [apply Hok|done|done|]. intros va' e n Hva' Hp. apply Hun. apply Hblk in Hp; [lia|done]. }
    intros s1 own1 N1 HN1 Hok1 Hlf1. rw Ebs.
    assert (ulong (bsize b) = bsize b) as -> by (apply wrap_small; rw /uint; lia).
    assert (ulong (cur + bsize b) = cur + bsize b) as -> by (apply wrap_small; rw /uint; lia).
    assert (u64 (pa + bsize b) = pa + bsize b ∨ cur + bsize b = ve) as Hu.
    { destruct (decide (cur + bsize b = ve)); [by right|left]. apply wrap_small. rw /uint. lia. }
    rw swrap_add.
    assert (PAGE_SIZE | bsize b) as Hdb by (exists count; lia).
    assert (∀ v e n, in_range v → leaf_at (pg_tables s1) root v e n ↔
      if decide (cur ≤ v < cur + bsize b) then n = (b - 1)%nat ∧ e = page_set_pte_attri (Z.of_nat b) (paddr_to_ppfn pa) exec 1 write exec kernel
      else leaf_at (pg_tables s) root v e n) as Hlf.
    { intros v e n Hv. rw Hlf1. destruct (decide (pth b v = pth b cur)) as [Hp|Hp], (decide (cur ≤ v < cur + bsize b)) as [Hd|Hd]; try done.
      - by apply Hblk in Hp.
      - by destruct Hp; apply Hblk. }
    assert (wp (map_range_loop fuel root (cur + bsize b) (u64 (pa + bsize b)) ve (s32 (acc + count)) cache exec write kernel) Q s1); [|done].
    assert (∀ s' own' N', pg_ok s' own' root (λ _, False) N' →
       (∀ v, cur + bsize b ≤ v < ve → mapped (pg_tables s') root v (pa + bsize b + (v - (cur + bsize b))) exec write kernel) →
       (∀ v e n, in_range v → ¬ cur + bsize b ≤ v < ve → leaf_at (pg_tables s') root v e n ↔ leaf_at (pg_tables s1) root v e n) →
       tiled fuel (pg_tables s') root (cur + bsize b) (pa + bsize b) ve → Q (s32 (acc + count + (ve - (cur + bsize b)) / PAGE_SIZE)) s') as HQ'.
    { intros s2 own2 N2 Hok2 Hin Hout Htl. rw (_ : acc + count + (ve - (cur + bsize b)) / PAGE_SIZE = acc + (ve - cur) / PAGE_SIZE).
      { rw -Ebs (_ : ve - cur = ve - (cur + count * PAGE_SIZE) + count * PAGE_SIZE); [lia|]. rw Z.div_add; lia. }
      set (e' := page_set_pte_attri (Z.of_nat b) (paddr_to_ppfn pa) exec 1 write exec kernel) in *.
      assert (∀ v, cur ≤ v < cur + bsize b → leaf_at (pg_tables s2) root v e' (b - 1) ∧ leaf_paddr e' (b - 1) v = pa + (v - cur)) as Hnew.
      { intros v Hv. assert (in_range v) as Hrv by (rw /in_range; lia). split.
        - apply Hout; [done|lia|]. apply Hlf; [done|]. by destruct (decide (cur ≤ v < cur + bsize b)); [|lia].
        - rw /leaf_paddr (_ : Z.of_nat (b - 1) + 1 = Z.of_nat b); [lia|]. rw (_ : S (b - 1) = b); [lia|].
          destruct (pa_leaf (Z.of_nat b) (paddr_to_ppfn pa) exec 1 write exec kernel) as (_ & _ & Ep); [lia|done|apply ppfn_range; lia|].
          rw Ep lor_aligned //; [lia|lia|]. f_equal. destruct Hbv as [c Ec]. symmetry. apply (Z.mod_unique v (bsize b) c (v - cur)); lia. }
      apply (HQ s2 own2 N2); [done| | |].
      - intros v Hv. destruct (decide (cur + bsize b ≤ v)) as [Hge|Hge]; [rw (_ : pa + (v - cur) = pa + bsize b + (v - (cur + bsize b))); [lia|]; apply Hin; lia|].
        destruct (Hnew v) as [Hl1 Hl2]; [lia|]. exists e', (b - 1)%nat. split; [done|]. split; [done|].
        rw (_ : Z.of_nat (b - 1) + 1 = Z.of_nat b); [lia|]. by apply pa_attri.
      - intros v e n Hv Hnv. rw Hout; [done|lia|]. rw Hlf //. by destruct (decide (cur ≤ v < cur + bsize b)); [lia|].
      - intros _. rw Elev Nat2Z.id Ebs. split; [|exact Htl]. exists e'. destruct (Hnew cur) as [Hl1 Hl2]; [lia|]. split; [done|]. rw Hl2. lia. }
    destruct Hu as [-> | Hend].
    + apply (IH s1 own1 (cur + bsize b) (pa + bsize b) (acc + count) N1); [done..|exact Hok1|etrans; [exact HNf|exact HN1]|lia|lia|lia|lia|lia|by apply Z.divide_add_r|exact Hde|by apply Z.divide_add_r| | |exact HQ'].
      { assert (PAGE_SIZE ≤ bsize b) by (apply Z.divide_pos_le; [exact Hbpos|exact Hdb]). lia. }
      intros v e n Hv Hl. apply Hlf in Hl; [|rw /in_range; lia]. destruct (decide (cur ≤ v < cur + bsize b)); [lia|]. by apply (Hun v e n); [lia|].
    + destruct fuel; cbn [map_range_loop]; (destruct (Z.ltb_spec (cur + bsize b) ve); [lia|]); wp_step;
        (rw Hend Z.sub_diag Z.div_0_l in HQ'; [lia|]; rw Z.add_0_r in HQ'); (apply (HQ' s1 own1 N1); [done|intros; lia|done|apply tiled_end; lia]).
Qed.

(** *** Unmapping *)

Lemma reach_down T root m n va : (n ≤ m)%nat → is_Some (reach T root m va) → is_Some (reach T root n va).
Proof.
  intros Hle. induction Hle as [|m Hle IH]; [done|]. cbn [reach]. intros [x (t & Ht & _)%bind_Some]. apply IH. by rw Ht.
Qed.

(** The tables above the one reached after [n] steps, with the entries followed. *)
Fixpoint stack_ok T root va (n : nat) (stack : list (Z * Z)) : Prop :=
  match n, stack with
  | O, [] => True
  | S n', (p, i) :: stack' => reach T root n' va = Some p ∧ i = page_get_pte (Z.of_nat n' + 1) va ∧ stack_ok T root va n' stack'
  | _, _ => False
  end.

Lemma stack_ok_mono T T' root va n stack : (∀ m x, (m < n)%nat → reach T root m va = Some x → reach T' root m va = Some x) →
  stack_ok T root va n stack → stack_ok T' root va n stack.
Proof.
  revert stack. induction n as [|n IH]; intros [|[p i] stack] Hm; [done..|]. cbn. intros (Hp & Hi & Hs).
  split; [apply Hm; [lia|done]|]. split; [done|]. apply IH; [|done]. intros m x Hlt. apply Hm. lia.
Qed.

Lemma wp_unmap_walk s root b va t' fuel : ∀ n t stack (Q : Z * list (Z * Z) → page_state K → Prop),
  reach (pg_tables s) root (b - 1) va = Some t' → reach (pg_tables s) root n va = Some t → (n < b)%nat → (b - n ≤ fuel)%nat →
  stack_ok (pg_tables s) root va n stack →
  (∀ stack', stack_ok (pg_tables s) root va (b - 1) stack' → Q (t', stack') s) →
  wp (unmap_walk fuel t (Z.of_nat n + 1) va (Z.of_nat b) stack) Q s.
Proof.
  induction fuel as [|fuel IH]; intros n t stack Q Hb Hr Hn Hf Hst HQ; [lia|]. cbn [unmap_walk].
  destruct (Z.ltb_spec (Z.of_nat n + 1) (Z.of_nat b)) as [Hlt|Hge].
  - destruct (reach_down (pg_tables s) root (b - 1) (S n) va) as [x Hx]; [lia|by rw Hb|]. pose proof Hx as Hx'. cbn [reach] in Hx'.
    rw Hr (_ : Z.of_nat (S n) = Z.of_nat n + 1) /= in Hx'; [lia|]. apply bind_Some in Hx' as (e & He & Hp). pose proof Hp as Hp'.
    rw /points_to in Hp'. destruct (page_is_pte_valid e _) eqn:Hv; [|done]. destruct (page_is_pte_leaf e _) eqn:Hl; [done|]. cbn in Hp'.
    destruct (page_ppfn_to_ptr _) as [q| | |] eqn:Eq; try done. injection Hp' as ->.
    wp_step. eapply wp_read_pte; [exact He|]. wp_step. wp_step; [by rw Hv|]. wp_step. wp_step; [exact Hl|]. wp_step.
    wp_step; [exact Eq|]. cbv beta. rw (_ : Z.of_nat n + 1 + 1 = Z.of_nat (S n) + 1); [lia|].
    apply IH; [exact Hb|exact Hx|lia|lia|by cbn|exact HQ].
  - assert (n = (b - 1)%nat) as -> by lia. wp_step. assert (t = t') as -> by congruence. by apply HQ.
Qed.

Lemma forallb_false_exists {A} (f : A → bool) l : forallb f l = false → ∃ x, x ∈ l ∧ f x = false.
Proof.
  induction l as [|a l IH]; [done|]. cbn. intros [E|E]%andb_false_iff; [exists a; by split; [left|]|].
  destruct (IH E) as (x & ? & ?). exists x. by split; [right|].
Qed.

(** A table without an entry is recognized. *)
Lemma wp_page_is_empty_table s own root X t P l (Q : bool → page_state K → Prop) : pt_wf (pg_tables s) own root X → own !! t = Some P →
  ((∀ j e, 0 ≤ j < 2 ^ ENTRY_BITS → entry_at (pg_tables s) t j = Some e → pte_is_zero e = true) → Q true s) →
  (∀ j e, 0 ≤ j < 2 ^ ENTRY_BITS → entry_at (pg_tables s) t j = Some e → page_is_pte_valid e (Z.of_nat (length P) + 1) = true → Q false s) →
  wp (page_is_empty_table t l) Q s.
Proof.
  intros Hw Ho HQ1 HQ2. destruct (wf_tab _ _ _ _ Hw _ _ Ho) as [[es Et] _]. rw /page_is_empty_table. wp_step. wp_step; [exact Et|]. cbv beta. wp_step.
  rw pa_count. assert (∀ j, entry_at (pg_tables s) t j = Some (default pte_zero (es !! j))) as Hent by (intros j; by rw /entry_at Et).
  destruct (forallb _ _) eqn:E.
  - apply HQ1. intros j e Hj He. rw forallb_forall in E. rw Hent in He. injection He as <-. apply E. apply list_elem_of_In, elem_of_seqZ. lia.
  - apply forallb_false_exists in E as (j & Hj & Hz). apply elem_of_seqZ in Hj. apply (HQ2 j (default pte_zero (es !! j))); [lia|done|].
    destruct (page_is_pte_valid _ _) eqn:Ev; [done|]. by rw (wf_zero _ _ _ _ Hw t P j _ Ho (Hent j) Ev) in Hz.
Qed.

Lemma wp_free_tables root va n : ∀ stack t s own N (Q : unit → page_state K → Prop),
  pg_ok s own root (λ x, x = t) N → in_range va → reach (pg_tables s) root n va = Some t → stack_ok (pg_tables s) root va n stack →
  (∀ s' own', pg_ok s' own' root (λ _, False) N →
     (∀ v e m, in_range v → leaf_at (pg_tables s') root v e m ↔ leaf_at (pg_tables s) root v e m) → Q tt s') →
  wp (free_tables stack t (Z.of_nat n + 1)) Q s.
Proof.
  induction n as [|n IH]; intros [|[p i] stack] t s own N Q [Hw He] Hva Hr Hst HQ; try done; cbn [free_tables].
  - cbn in Hr. injection Hr as <-. wp_step. apply (HQ s own); [|done]. split; [|done]. destruct Hw as [W1 W2 W3 W4 W5 W6 W7 W8]. split; try done.
    intros x P Hx HP _. apply (W5 x P); [done|done|]. intros ->. congruence.
  - destruct Hst as (Hp & -> & Hst). pose proof (reach_own _ _ _ _ _ _ _ Hw Hr) as Ho. wp_step.
    eapply (wp_page_is_empty_table s own root _ t); [exact Hw|exact Ho| |]; cbn [negb].
    + intros Hemp. destruct (ul_link _ _ _ _ _ _ Hp Hr) as (e & Hent & Hpt). pose proof Hpt as Hpt'. rw /points_to in Hpt'.
      destruct (page_is_pte_valid e _) eqn:Hv; [|done]. destruct (page_is_pte_leaf e _) eqn:Hl; [done|]. cbn in Hpt'.
      destruct (page_ppfn_to_ptr _) as [q| | |] eqn:Eq; try done. injection Hpt' as ->.
      destruct (ul_own _ _ _ _ _ _ _ Hw Hp Hr) as (Hop & Hot & Hpne & Hrt). destruct (wf_tab _ _ _ _ Hw _ _ Hot) as [Hts _].
      destruct (wf_tab _ _ _ _ Hw _ _ Hop) as [Hps _].
      rw (_ : Z.of_nat (S n) + 1 - 1 = Z.of_nat n + 1); [lia|].
      wp_step. eapply wp_read_pte; [exact Hent|]. wp_step. wp_step; [exact Eq|]. cbv beta. wp_step. wp_step; [apply Z.eqb_refl|]. wp_step.
      pose proof (wf_frame _ _ _ _ Hw _ _ _ _ Hop Hent) as Hfr. rw pth_length in Hfr. specialize (Hfr Hv Hl).
      rw /page_free_table. pose proof (page_pfree_ok _ _ _ _ t He Hfr Eq) as Hfree. specialize (Hfree ltac:(by apply elem_of_dom)).
      destruct page_pfree as [f|]; [|done]. wp_step. apply wp_zoom. eapply wp_mono; [exact Hfree|]. intros r k [-> Hk].
      wp_step. wp_step. wp_step; [by rw pa_table_pages|]. wp_step. apply wp_write_pte; [cbn; by rw lookup_delete_ne; [congruence|]|].
      cbn [pg_tables pg_env set_tables set_pg_env].
      pose proof (ul_wf _ _ _ _ _ _ _ Hw Hp Hr Hemp) as Hw'.
      pose proof (λ m v x, ul_reach _ _ _ _ _ _ _ Hw Hp Hr Hemp m v x) as Hre.
      apply (IH stack p _ (delete t own) N); cbn [pg_tables pg_env]; [split; cbn [pg_tables pg_env]; [exact Hw'|by rw /upd dom_alter_L dom_delete_L]|done| | |].
      * by apply Hre.
      * eapply stack_ok_mono; [|exact Hst]. intros m x Hm Hx. apply Hre; [done|]. split; [done|]. intros ->.
        pose proof (own_level _ _ _ _ _ _ (reach_own _ _ _ _ _ _ _ Hw Hx) Hot). lia.
      * intros s' own' Hok' Hlf. apply (HQ s' own' Hok'). intros v e' m Hv'. rw Hlf //. by apply (ul_leaf _ own).
    + intros j e Hj Hent Hv. wp_step. apply (HQ s own); [|done]. split; [|done]. by apply (wf_filled _ _ _ t (pth (S n) va) j e).
Qed.

Lemma in_range_uint va : in_range va → uint ARCH_WIDTH va.
Proof.
  intros [? Hlt]. split; [done|]. eapply Z.lt_le_trans; [exact Hlt|]. rw /bsize. apply Z.pow_le_mono_r; [lia|]. pose proof pa_width. lia.
Qed.

Lemma wp_unmap_page s own root b va e N (Q : unit → page_state K → Prop) :
  pg_ok s own root (λ _, False) N → in_range va → (0 < b)%nat → leaf_at (pg_tables s) root va e (b - 1) →
  (∀ s' own', pg_ok s' own' root (λ _, False) N →
     (∀ v e' m, in_range v → leaf_at (pg_tables s') root v e' m ↔ if decide (pth b v = pth b va) then False else leaf_at (pg_tables s) root v e' m) →
     Q tt s') →
  wp (unmap_page root va (leaf_paddr e (b - 1) va) (Z.of_nat b)) Q s.
Proof.
  intros [Hw He] Hva Hb (t & Hr & Hent & Hv & Hl) HQ. rw /unmap_page. assert (Z.of_nat (b - 1) + 1 = Z.of_nat b) as Eb by lia.
  pose proof (reach_own _ _ _ _ _ _ _ Hw Hr) as Ho. pose proof (reach_level _ _ _ _ _ _ _ Hw Hr) as Hlv.
  pose proof (wf_leaf _ _ _ _ Hw _ _ _ _ Ho Hent) as Hc. rw pth_length in Hc. specialize (Hc Hv Hl).
  pose proof (dest_paddr_value e (b - 1) va Hlv Hc (in_range_uint va Hva)) as Hd.
  wp_step. eapply (wp_unmap_walk s root b va t _ 0 root []); [exact Hr|done|lia|lia|done|]. intros stack Hst. cbv iota beta.
  rw (_ : Z.max 1 (Z.of_nat b) = Z.of_nat (b - 1) + 1); [lia|].
  wp_step. eapply wp_read_pte; [exact Hent|]. wp_step. wp_step; [by rw Hv|]. wp_step. wp_step; [by rw Hl|].
  wp_step. wp_step; [exact Hd|]. cbv beta. wp_step. wp_step; [by rw /leaf_paddr Z.eqb_refl|]. wp_step.
  apply wp_write_pte; [apply (wf_tab _ _ _ _ Hw _ _ Ho)|]. set (i := page_get_pte (Z.of_nat (b - 1) + 1) va) in *.
  assert (∀ m v, reach (upd (pg_tables s) t i pte_zero) root m v = reach (pg_tables s) root m v) as Hre.
  { intros m v. apply (reach_upd _ own root (λ _, False) t (pth (b - 1) va) i e pte_zero); rw ?pth_length //; [by apply points_leaf|apply points_invalid, pa_zero]. }
  apply (wp_free_tables root va (b - 1) stack t _ own N); cbn [pg_tables pg_env].
  - split; cbn [pg_tables pg_env]; [by apply (wf_clear_leaf _ _ _ _ _ _ e)|by rw /upd dom_alter_L].
  - done.
  - by rw Hre.
  - eapply stack_ok_mono; [|exact Hst]. intros m x _. by rw Hre.
  - intros s' own' Hok' Hlf. apply (HQ s' own' Hok'). intros v e' m Hrv. rw Hlf //.
    rw (leaf_upd _ own root (λ _, False) t (b - 1) va i e pte_zero v e' m) //; [by apply points_leaf|apply points_invalid, pa_zero|].
    rw (_ : S (b - 1) = b); [lia|]. destruct (decide (pth b v = pth b va)); [|done]. rw pa_zero. naive_solver.
Qed.

Lemma tiled_mono fuel T T' root ve : ∀ cur pa, 0 ≤ cur → 0 ≤ pa → (PAGE_SIZE | cur) → (PAGE_SIZE | ve) → (PAGE_SIZE | pa) →
  (∀ v e n, cur ≤ v < ve → leaf_at T root v e n → leaf_at T' root v e n) → tiled fuel T root cur pa ve → tiled fuel T' root cur pa ve.
Proof.
  pose proof PAGE_SIZE_pos as Hps. induction fuel as [|fuel IH]; intros cur pa Hc Hpaddr Hdc Hde Hdp Hm; [done|]. cbn [tiled]. intros Ht Hlt. specialize (Ht Hlt).
  assert (PAGE_SIZE ≤ ve - cur) as Hone by (apply Z.divide_pos_le; [lia|]; by apply Z.divide_sub_r).
  destruct (page_get_block_level_spec cur pa (ve - cur)) as (b & count & Elev & _ & _ & _ & _ & Hcount & _ & _ & _); [done..|]. rw Elev in Ht |- *.
  destruct Ht as [(e & Hl & Ep) Ht]. split; [exists e; split; [|done]; apply Hm; [lia|done]|].
  assert (0 ≤ count * PAGE_SIZE) by nia. assert (PAGE_SIZE | count * PAGE_SIZE) by apply Z.divide_factor_r.
  apply IH; try done; try lia; try by apply Z.divide_add_r. intros v e' n Hv. apply Hm. lia.
Qed.

Lemma wp_unmap_range_loop root ve fuel : ∀ s own cur pa acc N (Q : Z → page_state K → Prop),
  pg_ok s own root (λ _, False) N → 0 ≤ cur ≤ ve → ve ≤ bsize 0 → ve < 2 ^ ARCH_WIDTH → 0 ≤ pa → pa + (ve - cur) ≤ 2 ^ (PFN_BITS + PAGE_BITS) →
  (PAGE_SIZE | cur) → (PAGE_SIZE | ve) → (PAGE_SIZE | pa) → tiled fuel (pg_tables s) root cur pa ve →
  (∀ s' own', pg_ok s' own' root (λ _, False) N →
     (∀ v e n, in_range v → leaf_at (pg_tables s') root v e n ↔ if decide (cur ≤ v < ve) then False else leaf_at (pg_tables s) root v e n) →
     Q (s32 (acc + (ve - cur) / PAGE_SIZE)) s') →
  wp (unmap_range_loop fuel root cur pa ve (s32 acc)) Q s.
Proof.
  pose proof PAGE_SIZE_pos as Hps. pose proof pa_levels as HL. pose proof pa_pfn_bits as [Hpf1 Hpf2].
  assert (2 ^ (PFN_BITS + PAGE_BITS) ≤ 2 ^ PADDR_WIDTH) as HPW by (apply Z.pow_le_mono_r; lia).
  induction fuel as [|fuel IH]; intros s own cur pa acc N Q Hok Hcur Hve Hmax Hpaddr Hpmax Hdc Hde Hdp Htl HQ; cbn [unmap_range_loop].
  { cbn in Htl. assert (cur = ve) as -> by (destruct (decide (cur = ve)); [done|]; destruct Htl; lia). destruct (Z.ltb_spec ve ve); [lia|]. wp_step.
    rw Z.sub_diag Z.div_0_l in HQ; [lia|]. rw Z.add_0_r in HQ. apply (HQ s own); [done|]. intros v e n Hv. by destruct (decide (ve ≤ v < ve)); [lia|]. }
  destruct (Z.ltb_spec cur ve) as [Hlt|]; cycle 1.
  { assert (cur = ve) as -> by lia. wp_step. rw Z.sub_diag Z.div_0_l in HQ; [lia|]. rw Z.add_0_r in HQ. apply (HQ s own); [done|].
    intros v e n Hv. by destruct (decide (ve ≤ v < ve)); [lia|]. }
  assert (ulong (ve - cur) = ve - cur) as -> by (apply wrap_small; rw /uint; lia).
  assert (PAGE_SIZE ≤ ve - cur) as Hone by (apply Z.divide_pos_le; [lia|]; by apply Z.divide_sub_r).
  destruct (page_get_block_level_spec cur pa (ve - cur)) as (b & count & Elev & Hb0 & HbL & Hbc & Ebs & Hcount & Hbv & Hbp & Hbsz); [lia|done..|].
  cbn [tiled] in Htl. specialize (Htl Hlt). rw Elev in Htl |- *. rw Nat2Z.id Ebs in Htl. destruct Htl as [(e & Hl & Ep) Htl].
  rw (_ : ctrue (Z.of_nat b) = true); [apply negb_true_iff, Z.eqb_neq; lia|].
  assert (in_range cur) as Hrc by (rw /in_range; lia). pose proof (bsize_pos b HbL) as Hbpos.
  assert (∀ v, in_range v → pth b v = pth b cur ↔ cur ≤ v < cur + bsize b) as Hblk by (intros v Hv; by apply path_in_block).
  wp_step. rw -{1}Ep. eapply (wp_unmap_page s own root b cur e N); [done|done|done|done|]. intros s1 own1 Hok1 Hlf1. rw Ebs swrap_add.
  assert (ulong (bsize b) = bsize b) as -> by (apply wrap_small; rw /uint; lia).
  assert (ulong (cur + bsize b) = cur + bsize b) as -> by (apply wrap_small; rw /uint; lia).
  assert (PAGE_SIZE | bsize b) as Hdb by (exists count; lia).
  assert (∀ v e n, in_range v → leaf_at (pg_tables s1) root v e n ↔ if decide (cur ≤ v < cur + bsize b) then False else leaf_at (pg_tables s) root v e n) as Hlf.
  { intros v e' n Hv. rw Hlf1 //. destruct (decide (pth b v = pth b cur)) as [Hp|Hp], (decide (cur ≤ v < cur + bsize b)) as [Hd|Hd]; try done.
    - by apply Hblk in Hp.
    - by destruct Hp; apply Hblk. }
  assert (∀ s' own', pg_ok s' own' root (λ _, False) N →
     (∀ v e n, in_range v → leaf_at (pg_tables s') root v e n ↔ if decide (cur + bsize b ≤ v < ve) then False else leaf_at (pg_tables s1) root v e n) →
     Q (s32 (acc + count + (ve - (cur + bsize b)) / PAGE_SIZE)) s') as HQ'.
  { intros s2 own2 Hok2 Hout. rw (_ : acc + count + (ve - (cur + bsize b)) / PAGE_SIZE = acc + (ve - cur) / PAGE_SIZE).
    { rw -Ebs (_ : ve - cur = ve - (cur + count * PAGE_SIZE) + count * PAGE_SIZE); [lia|]. rw Z.div_add; lia. }
    apply (HQ s2 own2 Hok2). intros v e' n Hv. rw Hout //. specialize (Hlf v e' n Hv).
    destruct (decide (cur + bsize b ≤ v < ve)), (decide (cur ≤ v < cur + bsize b)), (decide (cur ≤ v < ve)); done || lia. }
  destruct (decide (cur + bsize b = ve)) as [Hend|Hmore].
  - destruct fuel; cbn [unmap_range_loop]; (destruct (Z.ltb_spec (cur + bsize b) ve); [lia|]); wp_step;
      (rw Hend Z.sub_diag Z.div_0_l in HQ'; [lia|]; rw Z.add_0_r in HQ'); (apply (HQ' s1 own1 Hok1)); intros v e' n Hv; (by destruct (decide (ve ≤ v < ve)); [lia|]).
  - rw (wrap_small PADDR_WIDTH); [rw /uint; lia|]. apply (IH s1 own1 _ _ _ N); try done; try lia; try by apply Z.divide_add_r.
    eapply tiled_mono; [..|exact Htl]; try done; try lia; try by apply Z.divide_add_r.
    intros v e' n Hv Hl'. apply Hlf; [rw /in_range; lia|]. by destruct (decide (cur ≤ v < cur + bsize b)); [lia|].
Qed.

End Ops.
