(* ===== verification/PageProps.v ===== *)
(** Properties of the page tables: what mapping and unmapping a range of
    addresses do to their translation, stated of [generic_map_range],
    [generic_unmap_range] and [generic_translate_attri] for every entry format
    that satisfies [PageArchLaws], and run on RISC-V and AMD64. *)

From stdpp Require Import base list gmap.
From Stdlib Require Import ZArith Lia.
From Corelib Require Import ssreflect.
From S2P Require Import Prelude Bits Mem Page PageSpec.

Section Props.
Context `{Harch : Arch} `{Hpa : PageArch} `{!PageArchLaws} {K : Type} `{Henv : PageEnv K} `{!PageEnvLaws K}.
Implicit Types (s : page_state K) (own : gmap Z (list Z)) (root : Z).

(** The page-table trees without an empty table below the root, and room for [n] more tables. *)
Definition page_inv s root n : Prop := ∃ own, pg_ok s own root (λ _, False) n.

(** A new root table. *)
Lemma wp_new_root s N l : pg_inv (pg_env s) ∅ (S N) → pg_tables s = ∅ →
  wp (page_alloc_table l) (λ '(root, _) s', page_inv s' root N ∧ ∀ va, in_range va → ∀ e m, ¬ leaf_at (pg_tables s') root va e m) s.
Proof.
  intros He ET. eapply (wp_alloc_table s ∅ N); [exact He|]. intros ptr ppfn k _ _ _ _ Hk. rw ET.
  assert (∀ t i e, entry_at (<[ptr:=∅]> (∅ : gmap Z (gmap Z pte))) t i = Some e → e = pte_zero) as Hent.
  { intros t i e. rw /entry_at lookup_insert. case_decide; cbn; [|done]. rw lookup_empty. by intros [= <-]. }
  assert (∀ x P, ({[ptr := []]} : gmap Z (list Z)) !! x = Some P → x = ptr ∧ P = []) as Hown by (intros x P [? ?]%lookup_singleton_Some; done).
  split; [|intros va Hva e m (t & _ & He' & Hv & _); apply Hent in He' as ->; by rw pa_zero in Hv].
  exists {[ptr := []]}. split; cbn [pg_tables pg_env]; [|by rw dom_insert_L dom_empty_L]. split.
  - apply lookup_insert_eq.
  - intros t P [-> ->]%Hown. rw lookup_insert_eq. split; [by eexists|]. pose proof pa_levels. cbn. lia.
  - intros t P i e _ ->%Hent. by rw pa_zero.
  - intros t P i e _ ->%Hent. by rw pa_zero.
  - by intros t P [-> ->]%Hown.
  - intros t P i e _ ->%Hent _. apply pa_is_zero.
  - intros t P [-> ->]%Hown. exists 0. split; [|done]. pose proof (bsize_pos 0). pose proof pa_levels. rw /in_range. lia.
  - intros t P i e _ ->%Hent. by rw pa_zero.
Qed.

(** The page-aligned range of [size] bytes at [va]. *)
Definition page_start (va : Z) : Z := PAGE_SIZE * (va / PAGE_SIZE).
Definition page_end (va size : Z) : Z := PAGE_SIZE * ((va + size + PAGE_SIZE - 1) / PAGE_SIZE).
Definition page_span (va size : Z) : Z := (page_end va size - page_start va) / PAGE_SIZE.

(** The number of pages and large pages a range is mapped in. *)
Definition blocks (va pa size : Z) : nat :=
  range_blocks (Z.to_nat (page_span va size)) (page_start va) (page_start pa) (page_end va size).

(** The range does not contain page 0 and ends where the tables and the
    addresses end at the latest. *)
Record range_fits (va pa size : Z) : Prop := {
  rf_start : PAGE_SIZE ≤ va;
  rf_size : 0 ≤ size;
  rf_width : va + size + PAGE_SIZE - 1 < 2 ^ ARCH_WIDTH;
  rf_levels : page_end va size ≤ bsize 0;
  rf_paddr : 0 ≤ pa;
  rf_frames : page_start pa + (page_end va size - page_start va) ≤ 2 ^ (PFN_BITS + PAGE_BITS)
}.

Lemma range_facts va pa size : range_fits va pa size →
  0 < page_start va ≤ page_end va size ∧ page_end va size < 2 ^ ARCH_WIDTH ∧ 0 ≤ page_start pa ≤ pa ∧
  (PAGE_SIZE | page_start va) ∧ (PAGE_SIZE | page_end va size) ∧ (PAGE_SIZE | page_start pa) ∧
  page_end va size - page_start va = page_span va size * PAGE_SIZE.
Proof.
  intros [R1 R2 R3 R4 R5 R6]. pose proof PAGE_SIZE_pos as Hps. rw /page_start /page_end in R4 R6 |- *.
  pose proof (Z.div_mod va PAGE_SIZE). pose proof (Z.mod_pos_bound va PAGE_SIZE Hps).
  pose proof (Z.div_mod pa PAGE_SIZE). pose proof (Z.mod_pos_bound pa PAGE_SIZE Hps).
  pose proof (Z.div_mod (va + size + PAGE_SIZE - 1) PAGE_SIZE). pose proof (Z.mod_pos_bound (va + size + PAGE_SIZE - 1) PAGE_SIZE Hps).
  assert (0 < va / PAGE_SIZE) by (apply Z.div_str_pos; lia). assert (0 ≤ pa / PAGE_SIZE) by (apply Z.div_pos; lia).
  assert (va / PAGE_SIZE ≤ (va + size + PAGE_SIZE - 1) / PAGE_SIZE) by (apply Z.div_le_mono; lia).
  split_and!; try nia; try apply Z.divide_factor_l.
  rw /page_span /page_start /page_end -Z.mul_sub_distr_l Z.mul_comm Z.div_mul; lia.
Qed.

Lemma range_aligned va pa size : range_fits va pa size → uint PADDR_WIDTH pa →
  ALIGN_DOWN ARCH_WIDTH va PAGE_SIZE = page_start va ∧ ALIGN_UP ARCH_WIDTH (ulong (va + size)) PAGE_SIZE = page_end va size ∧
  ALIGN_DOWN PADDR_WIDTH pa PAGE_SIZE = page_start pa.
Proof.
  intros [R1 R2 R3 R4 R5 R6] Hpu. pose proof PAGE_SIZE_pos as Hps. pose proof page_bits_range. pose proof paddr_widths as Hpw.
  assert (0 ≤ PAGE_BITS < ARCH_WIDTH) as Hb by arch_lia. split_and!.
  - apply ALIGN_DOWN_pow2; [done|]. rw /uint. lia.
  - rw wrap_small; [rw /uint; lia|]. apply ALIGN_UP_pow2; [done|lia|]. rw -/PAGE_SIZE. lia.
  - apply ALIGN_DOWN_pow2; [lia|done].
Qed.

(** Every translation ends, in a leaf or with nothing. *)
Lemma translate_value s own root X va : pt_wf (pg_tables s) own root X → in_range va →
  (∃ e m, leaf_at (pg_tables s) root va e m ∧
     generic_translate_attri root va s = Ret ((leaf_paddr e m va, Some (page_get_pte_attri e (Z.of_nat m + 1))), s)) ∨
  ((∀ e m, ¬ leaf_at (pg_tables s) root va e m) ∧ generic_translate_attri root va s = Ret ((0, None), s)).
Proof.
  intros Hw Hva.
  assert (wp (generic_translate_attri root va) (λ r s', s' = s ∧
    ((∃ e m, leaf_at (pg_tables s) root va e m ∧ r = (leaf_paddr e m va, Some (page_get_pte_attri e (Z.of_nat m + 1)))) ∨
     ((∀ e m, ¬ leaf_at (pg_tables s) root va e m) ∧ r = (0, None)))) s) as Hwp.
  { eapply wp_generic_translate_attri; [exact Hw|by apply in_range_uint|..]; intros; (split; [done|]); [left|right]; eauto. }
  destruct (wp_elim _ _ _ Hwp) as (r & s' & E & -> & [(e & m & Hl & ->)|[Hn ->]]); [left|right]; rw E; eauto.
Qed.

(** The translation depends on the leaves alone. *)
Lemma translate_same s own root X s' own' X' va : pt_wf (pg_tables s) own root X → pt_wf (pg_tables s') own' root X' → in_range va →
  (∀ e m, leaf_at (pg_tables s') root va e m ↔ leaf_at (pg_tables s) root va e m) →
  ∃ r, generic_translate_attri root va s = Ret (r, s) ∧ generic_translate_attri root va s' = Ret (r, s').
Proof.
  intros Hw Hw' Hva Heq. destruct (translate_value _ _ _ _ _ Hw Hva) as [(e & m & Hl & ->)|[Hn ->]];
    destruct (translate_value _ _ _ _ _ Hw' Hva) as [(e' & m' & Hl' & ->)|[Hn' ->]].
  - apply Heq in Hl'. destruct (leaf_at_unique _ _ _ _ _ _ _ Hl Hl') as [-> ->]. eauto.
  - apply Heq in Hl. by destruct (Hn' e m).
  - apply Heq in Hl'. by destruct (Hn e' m').
  - eauto.
Qed.

(** An address without a translation has no leaf: no leaf has no attributes. *)
Lemma translate_none s own root X va : pt_wf (pg_tables s) own root X → in_range va →
  generic_translate_attri root va s = Ret ((0, None), s) → ∀ e m, ¬ leaf_at (pg_tables s) root va e m.
Proof. intros Hw Hva E. destruct (translate_value _ _ _ _ _ Hw Hva) as [(e & m & Hl & E')|[Hn _]]; [congruence|done]. Qed.

Lemma wp_generic_map_range s own root N va pa size cache exec write kernel override (Q : Z → page_state K → Prop) :
  pg_ok s own root (λ _, False) N → Z.of_nat (blocks va pa size) * (PAGE_LEVELS - 1) ≤ Z.of_nat N →
  range_fits va pa size → uint PADDR_WIDTH pa → exec ∈ [0; 1] → write ∈ [0; 1] → kernel ∈ [0; 1] →
  (∀ v, page_start va ≤ v < page_end va size → generic_translate_attri root v s = Ret ((0, None), s)) →
  (∀ s' own' N', pg_ok s' own' root (λ _, False) N' →
     (∀ v, page_start va ≤ v < page_end va size →
        mapped (pg_tables s') root v (page_start pa + (v - page_start va)) exec write kernel) →
     (∀ v e n, in_range v → ¬ page_start va ≤ v < page_end va size → leaf_at (pg_tables s') root v e n ↔ leaf_at (pg_tables s) root v e n) →
     tiled (Z.to_nat (page_span va size)) (pg_tables s') root (page_start va) (page_start pa) (page_end va size) →
     Q (s32 (page_span va size)) s') →
  wp (generic_map_range root va pa size cache exec write kernel override) Q s.
Proof.
  intros Hok HN Hf Hpu Hx Hw Hk Hun HQ. destruct (range_facts _ _ _ Hf) as (F1 & F2 & F3 & F4 & F5 & F6 & F7).
  destruct (range_aligned _ _ _ Hf Hpu) as (A1 & A2 & A3). pose proof PAGE_SIZE_pos as Hps. pose proof pa_levels as HL.
  assert (0 ≤ page_span va size) as Hsp by nia. destruct Hf as [R1 R2 R3 R4 R5 R6].
  rw /generic_map_range. wp_step. wp_step.
  { by destruct page_palloc_given as [f ->]. }
  wp_step. wp_step; [by rw pa_mappable|]. rw A1 A2 A3 F7 Z.div_mul; [lia|].
  assert (u64 (page_start pa) = page_start pa) as ->.
  { apply wrap_small. destruct Hpu as [_ Hpu]. assert (2 ^ PADDR_WIDTH ≤ 2 ^ 64) by (apply Z.pow_le_mono_r; destruct paddr_width_cases; lia). rw /uint. lia. }
  apply (wp_map_range_loop root cache exec write kernel (page_end va size) (Z.to_nat (page_span va size)) s own (page_start va) (page_start pa) 0 N);
    try done; try lia; [rw -/(blocks va pa size); clear -HN HL; nia|].
  intros v e n Hv. apply (translate_none _ _ _ _ v (ok_wf _ _ _ _ _ Hok)); [rw /in_range; lia|by apply Hun].
Qed.

(** C28. Mapping a range of unmapped pages succeeds whenever tables can be
    allocated for it, returns the number of its pages and keeps the page tables
    well formed.  Afterwards every address of the range is translated to the
    corresponding physical address, with the permissions to execute, read and
    write and the privilege asked for, and every other address exactly as before,
    whether pages or large pages are used.  The cache attribute is not the one
    asked for: [map_page] hands on [exec] for [cache], so it is what the format
    makes of [exec]. *)
Theorem map_range_correct s root N va pa size cache exec write kernel override :
  page_inv s root N → Z.of_nat (blocks va pa size) * (PAGE_LEVELS - 1) ≤ Z.of_nat N →
  range_fits va pa size → uint PADDR_WIDTH pa → exec ∈ [0; 1] → write ∈ [0; 1] → kernel ∈ [0; 1] →
  (∀ v, page_start va ≤ v < page_end va size → generic_translate_attri root v s = Ret ((0, None), s)) →
  ∃ s', generic_map_range root va pa size cache exec write kernel override s = Ret (s32 (page_span va size), s') ∧
    (∃ N', page_inv s' root N') ∧
    (∀ v, page_start va ≤ v < page_end va size →
       generic_translate_attri root v s' =
         Ret ((page_start pa + (v - page_start va), Some (mk_attri exec 1 write (CACHE_OF exec) kernel)), s')) ∧
    (∀ v, in_range v → ¬ page_start va ≤ v < page_end va size →
       ∃ r, generic_translate_attri root v s = Ret (r, s) ∧ generic_translate_attri root v s' = Ret (r, s')).
Proof.
  intros [own Hok] HN Hf Hpu Hx Hw Hk Hun. destruct (range_facts _ _ _ Hf) as (F1 & _ & _). pose proof (rf_levels _ _ _ Hf) as F2.
  assert (wp (generic_map_range root va pa size cache exec write kernel override) (λ r s', r = s32 (page_span va size) ∧ ∃ own' N',
    pg_ok s' own' root (λ _, False) N' ∧
    (∀ v, page_start va ≤ v < page_end va size → mapped (pg_tables s') root v (page_start pa + (v - page_start va)) exec write kernel) ∧
    (∀ v e n, in_range v → ¬ page_start va ≤ v < page_end va size → leaf_at (pg_tables s') root v e n ↔ leaf_at (pg_tables s) root v e n)) s) as Hwp.
  { apply (wp_generic_map_range s own root N); try done. intros s' own' N' Hok' Hin Hout _. split; [done|]. by exists own', N'. }
  destruct (wp_elim _ _ _ Hwp) as (r & s' & -> & -> & own' & N' & Hok' & Hin & Hout). exists s'. split; [done|].
  split; [by exists N', own'|]. destruct Hok as [Hwf _], Hok' as [Hwf' _]. split.
  - intros v Hv. destruct (Hin v Hv) as (e & m & Hl & -> & Ha). assert (in_range v) as Hrv by (rw /in_range; lia).
    destruct (translate_value _ _ _ _ _ Hwf' Hrv) as [(e' & m' & Hl' & ->)|[Hn _]]; [|by destruct (Hn e m)].
    destruct (leaf_at_unique _ _ _ _ _ _ _ Hl Hl') as [-> ->]. by rw Ha.
  - intros v Hrv Hv. apply (translate_same _ _ _ _ _ _ _ _ Hwf Hwf' Hrv). intros e m. by apply Hout.
Qed.

Lemma wp_generic_unmap_range s own root N va pa size (Q : Z → page_state K → Prop) :
  pg_ok s own root (λ _, False) N → range_fits va pa size → uint PADDR_WIDTH pa →
  tiled (Z.to_nat (page_span va size)) (pg_tables s) root (page_start va) (page_start pa) (page_end va size) →
  (∀ s' own', pg_ok s' own' root (λ _, False) N →
     (∀ v e n, in_range v → leaf_at (pg_tables s') root v e n ↔
        if decide (page_start va ≤ v < page_end va size) then False else leaf_at (pg_tables s) root v e n) →
     Q (s32 (page_span va size)) s') →
  wp (generic_unmap_range root va pa size) Q s.
Proof.
  intros Hok Hf Hpu Htl HQ. destruct (range_facts _ _ _ Hf) as (F1 & F2 & F3 & F4 & F5 & F6 & F7).
  destruct (range_aligned _ _ _ Hf Hpu) as (A1 & A2 & A3). pose proof page_bits_range. pose proof paddr_widths as Hpw.
  pose proof (rf_levels _ _ _ Hf). pose proof (rf_frames _ _ _ Hf).
  rw /generic_unmap_range. wp_step. wp_step; [by destruct page_pfree_given as [f ->]|].
  rw /align_down_vaddr /align_up_vaddr /align_down_paddr !wrap_PAGE_SIZE; [lia|arch_lia|]. rw A1 A2 A3.
  apply (wp_unmap_range_loop root (page_end va size) (Z.to_nat (page_span va size)) s own (page_start va) (page_start pa) 0 N); try done; lia.
Qed.

(** C29. Unmapping the range that has just been mapped succeeds, with the same
    number of pages, and restores the translation of every address; the tables
    that have become empty are given back, so the invariant, which allows no
    empty table, holds again. *)
Theorem map_unmap_roundtrip s root N va pa size cache exec write kernel override :
  page_inv s root N → Z.of_nat (blocks va pa size) * (PAGE_LEVELS - 1) ≤ Z.of_nat N →
  range_fits va pa size → uint PADDR_WIDTH pa → exec ∈ [0; 1] → write ∈ [0; 1] → kernel ∈ [0; 1] →
  (∀ v, page_start va ≤ v < page_end va size → generic_translate_attri root v s = Ret ((0, None), s)) →
  ∃ n s1 s2, generic_map_range root va pa size cache exec write kernel override s = Ret (n, s1) ∧
    generic_unmap_range root va pa size s1 = Ret (n, s2) ∧
    (∃ N', page_inv s2 root N') ∧
    (∀ v, in_range v → ∃ r, generic_translate_attri root v s = Ret (r, s) ∧ generic_translate_attri root v s2 = Ret (r, s2)).
Proof.
  intros [own Hok] HN Hf Hpu Hx Hw Hk Hun. pose proof (rf_levels _ _ _ Hf) as F2. destruct (range_facts _ _ _ Hf) as (F1 & _ & _).
  assert (wp (generic_map_range root va pa size cache exec write kernel override) (λ r s', r = s32 (page_span va size) ∧
    wp (generic_unmap_range root va pa size) (λ r2 s2, r2 = s32 (page_span va size) ∧ ∃ own2 N2, pg_ok s2 own2 root (λ _, False) N2 ∧
      (∀ v e n, in_range v → leaf_at (pg_tables s2) root v e n ↔ leaf_at (pg_tables s) root v e n)) s') s) as Hwp.
  { apply (wp_generic_map_range s own root N); try done. intros s' own' N' Hok' Hin Hout Htl. split; [done|].
    apply (wp_generic_unmap_range s' own' root N'); try done. intros s2 own2 Hok2 Hlf. split; [done|]. exists own2, N'. split; [done|].
    intros v e n Hv. rw Hlf //. destruct (decide _) as [Hd|Hd]; [|by apply Hout]. split; [done|].
    by apply (translate_none _ _ _ _ v (ok_wf _ _ _ _ _ Hok)); [|apply Hun]. }
  destruct (wp_elim _ _ _ Hwp) as (r & s1 & E1 & -> & Hwp2). destruct (wp_elim _ _ _ Hwp2) as (r2 & s2 & E2 & -> & own2 & N2 & Hok2 & Hlf).
  exists (s32 (page_span va size)), s1, s2. split; [done|]. split; [done|]. split; [by exists N2, own2|].
  intros v Hv. apply (translate_same _ _ _ _ _ _ _ _ (ok_wf _ _ _ _ _ Hok) (ok_wf _ _ _ _ _ Hok2) Hv). intros e m. by apply Hlf.
Qed.

(** *** Pages of a large page *)

Lemma unmap_walk_large s root va e m b fuel : ∀ n t stack, leaf_at (pg_tables s) root va e m → reach (pg_tables s) root n va = Some t →
  (n ≤ m)%nat → (S m < b)%nat → (b - n ≤ fuel)%nat → unmap_walk fuel t (Z.of_nat n + 1) va (Z.of_nat b) stack s = Panic.
Proof.
  induction fuel as [|fuel IH]; intros n t stack Hl Hr Hn Hm Hf; [lia|]. cbn [unmap_walk].
  destruct (Z.ltb_spec (Z.of_nat n + 1) (Z.of_nat b)); [|lia]. destruct (decide (n = m)) as [->|Hne].
  - destruct Hl as (t' & Hr' & He & Hv & Hlf). assert (t' = t) as -> by congruence.
    rw /mbind /M_bind /read_pte /deref He Hv /=. by rw Hlf.
  - destruct Hl as (t' & Hr' & Hrest). destruct (reach_down (pg_tables s) root m (S n) va) as [x Hx]; [lia|by rw Hr'|].
    pose proof Hx as Hx'. cbn [reach] in Hx'. rw Hr (_ : Z.of_nat (S n) = Z.of_nat n + 1) /= in Hx'; [lia|].
    apply bind_Some in Hx' as (e' & He' & Hp). rw /points_to in Hp. destruct (page_is_pte_valid e' _) eqn:Hv; [|done].
    destruct (page_is_pte_leaf e' _) eqn:Hlf; [done|]. cbn in Hp. destruct (page_ppfn_to_ptr _) as [q| | |] eqn:Eq; try done. injection Hp as ->.
    rw /mbind /M_bind /read_pte /deref He' Hv /=. rw Hlf /lift_outcome Eq.
    rw (_ : Z.of_nat n + 1 + 1 = Z.of_nat (S n) + 1); [lia|]. apply IH; try done; try lia. by exists t'.
Qed.

(** A page cannot be unmapped out of a large page: [generic_unmap_range] of
    one page looks for a last-level entry, meets the large leaf on the way and
    panics.  The caller has to unmap ranges in the shape they were mapped in. *)
Theorem unmap_page_of_large_page_panics s root va pa e m :
  leaf_at (pg_tables s) root va e m → Z.of_nat m + 1 < PAGE_LEVELS →
  (PAGE_SIZE | va) → (PAGE_SIZE | pa) → range_fits va pa PAGE_SIZE → uint PADDR_WIDTH pa →
  generic_unmap_range root va pa PAGE_SIZE s = Panic.
Proof.
  intros Hl Hm [c Ec] [d Ed] Hf Hpu. pose proof PAGE_SIZE_pos as Hps. pose proof page_bits_range. pose proof paddr_widths.
  destruct (range_aligned _ _ _ Hf Hpu) as (A1 & A2 & A3). pose proof (rf_width _ _ _ Hf) as Hwd. pose proof (rf_start _ _ _ Hf).
  assert (page_start va = va) as Es by (rw /page_start Ec Z.div_mul; lia). assert (page_start pa = pa) as Ep by (rw /page_start Ed Z.div_mul; lia).
  assert (page_end va PAGE_SIZE = va + PAGE_SIZE) as Ee.
  { rw /page_end Ec (_ : c * PAGE_SIZE + PAGE_SIZE + PAGE_SIZE - 1 = PAGE_SIZE - 1 + (c + 1) * PAGE_SIZE); [lia|]. rw Z.div_add; [lia|].
    rw Z.div_small; lia. }
  rw /generic_unmap_range /mbind /M_bind. destruct page_pfree_given as [f ->]. rw /= /align_down_vaddr /align_up_vaddr /align_down_paddr !wrap_PAGE_SIZE; [lia|arch_lia|].
  rw A1 A2 A3 Es Ee Ep. rw (_ : (va + PAGE_SIZE - va) / PAGE_SIZE = 1); [rw Z.add_simpl_l Z.div_same; lia|].
  change (Z.to_nat 1) with 1%nat. cbn [unmap_range_loop]. destruct (Z.ltb_spec va (va + PAGE_SIZE)); [|lia].
  rw (_ : ulong (va + PAGE_SIZE - va) = PAGE_SIZE); [rw Z.add_simpl_l wrap_PAGE_SIZE //; arch_lia|].
  destruct (page_get_block_level_spec va pa PAGE_SIZE) as (b & count & -> & Hb0 & HbL & Hbc & Ebs & Hcount & Hbv & Hbp & Hbsz); [lia|apply Hpu|by exists c|by exists d|lia|].
  rw (_ : ctrue (Z.of_nat b) = true); [apply negb_true_iff, Z.eqb_neq; lia|].
  assert (Z.of_nat b = PAGE_LEVELS) as Eb.
  { destruct (decide (Z.of_nat b = PAGE_LEVELS)); [done|]. exfalso. rw /bsize /PAGE_SIZE in Hbsz. pose proof pa_bits.
    assert (2 ^ PAGE_BITS < 2 ^ (PAGE_BITS + (PAGE_LEVELS - Z.of_nat b) * ENTRY_BITS)); [apply Z.pow_lt_mono_r; nia|lia]. }
  rw /mbind /M_bind /unmap_page /mbind /M_bind. rw (unmap_walk_large s root va e m b _ 0 root) //; lia.
Qed.
End Props.
