(* ===== verification/PageKernel.v ===== *)
(** Page tables over the kernel's frame allocator.

    Once the kernel runs, the hardware layer gives libk the allocator through
    [init_libk_page_table_alloc(kernel_palloc, kernel_pfree)]: [palloc] and
    [pfree] of [Palloc.v].  The buddy allocator keeps what the page tables ask
    of their environment. *)

From stdpp Require Import base list gmap.
From Stdlib Require Import ZArith Lia.
From Corelib Require Import ssreflect.
From S2P Require Import Prelude Bits Lock Mem Palloc PallocSpec PallocProps Page PageSpec PageProps.

Section Kernel.
Context `{Harch : Arch} `{Hpa : PageArch} `{!PageArchLaws}.

Definition kernel_palloc (count : Z) : M palloc_state Z := palloc count.
Definition kernel_pfree (ppfn : Z) : M palloc_state Z := pfree ppfn.

#[export] Instance kernel_page_env : PageEnv palloc_state := {
  page_palloc := Some kernel_palloc;
  page_pfree := Some kernel_pfree;
  page_paddr_to_ptr := None
}.

(** Frames of the allocator can be reached through a pointer and held in an entry. *)
Definition frames_reachable (k : palloc_state) : Prop :=
  0 < pfn_start k ∧ pfn_limit k ≤ 2 ^ PFN_BITS ∧ pfn_limit k * PAGE_SIZE ≤ 2 ^ MAX_NUM_VADDR_BITS ∧ 0 ≤ MAX_NUM_VADDR_BITS ≤ ARCH_WIDTH.

(** The tables are allocated frames, and [n] frames are free. *)
Definition kernel_pg_inv (k : palloc_state) (X : gset Z) (n : nat) : Prop := ∃ B (F : gset Z),
  palloc_inv k B ∧ frames_reachable k ∧
  (∀ x, x ∈ X → ∃ p r, x = p * PAGE_SIZE ∧ allocated B !! p = Some (mk_blk r 0 true)) ∧
  (n ≤ size F)%nat ∧ ∀ q, q ∈ F → ∃ r, 0 ≤ r < region_count k ∧ free_page B r q.

Lemma frame_range k B p b : palloc_inv k B → allocated B !! p = Some b → pfn_start k ≤ p < pfn_limit k.
Proof.
  intros Hpi [Hp _]%allocated_lookup. destruct (pi_lists _ _ Hpi) as [L Hi].
  destruct (di_blk _ _ _ _ (bi_dinv _ _ _ _ _ _ Hi) _ _ Hp) as (_ & Ho & ? & ? & _). assert (0 < 2 ^ b_order b) by lia. lia.
Qed.

(** A frame number that is held in an entry and reached through a pointer. *)
Lemma ppfn_ptr p ptr : 0 ≤ MAX_NUM_VADDR_BITS ≤ ARCH_WIDTH → 0 ≤ p < 2 ^ PFN_BITS →
  page_ppfn_to_ptr p = Ret ptr ↔ p * PAGE_SIZE < 2 ^ MAX_NUM_VADDR_BITS ∧ ptr = p * PAGE_SIZE.
Proof.
  intros Hm Hp. pose proof pa_pfn_bits as [Hp1 Hp2]. pose proof PAGE_SIZE_pos as Hps. pose proof page_bits_range.
  assert (p * PAGE_SIZE < 2 ^ PADDR_WIDTH) as Hf1.
  { eapply Z.lt_le_trans; [|apply (Z.pow_le_mono_r 2 (PFN_BITS + PAGE_BITS)); lia]. rw Z.pow_add_r; [lia..|]. rw -/PAGE_SIZE. nia. }
  assert (2 ^ PADDR_WIDTH ≤ 2 ^ 64) by (apply Z.pow_le_mono_r; destruct paddr_width_cases; lia). assert (0 ≤ p * PAGE_SIZE) by nia.
  assert (2 ^ MAX_NUM_VADDR_BITS ≤ 2 ^ ARCH_WIDTH) by (apply Z.pow_le_mono_r; lia).
  rw /page_ppfn_to_ptr /= ppfn_to_paddr_mul; [lia|lia|]. rw /cast_paddr_to_ptr /cast_paddr_to_vaddr (wrap_small 64); [rw /uint; lia|].
  rw clz64_fits; [rw /uint; lia|lia|]. destruct (Z.ltb_spec (p * PAGE_SIZE) (2 ^ MAX_NUM_VADDR_BITS)); cbn [negb]; [|split; [done|lia]].
  rw wrap_small; [rw /uint; lia|]. split; [by intros [= <-]|by intros [_ ->]].
Qed.

Lemma kernel_palloc_ok k X n : kernel_pg_inv k X (S n) →
  wp (kernel_palloc 1) (λ ppfn k', ∃ ptr, 0 < ppfn < 2 ^ PFN_BITS ∧ page_ppfn_to_ptr ppfn = Ret ptr ∧ ptr ≠ 0 ∧ (ptr ∉ X) ∧
    kernel_pg_inv k' ({[ptr]} ∪ X) n) k.
Proof.
  intros (B & F & Hpi & Hreach & HX & Hsz & HF). destruct Hreach as (R1 & R2 & R3 & R4). pose proof PAGE_SIZE_pos as Hps.
  eapply wp_mono; [apply (wp_palloc k B 1 Hpi (page0_start _ _ Hpi R1)); lia|]. cbv zeta. change (Z.log2_up 1) with 0.
  intros p k' [(-> & -> & Hex)|(Hp & r & B' & Hr & _ & Hpi' & Hss & Hal)].
  - exfalso. assert (size F ≠ 0)%nat as HF0 by lia. destruct (set_choose_L F) as [q Hq]; [intros ->; by rw size_empty in HF0|]. destruct (HF q Hq) as (r & Hr & p & b & Hb & Hfree & <- & Hcov).
    pose proof (pi_count _ _ Hpi). destruct (pi_region _ _ Hpi (b_region b)) as (g & Hg & _); [lia|].
    destruct (Hex _ g Hr Hg eq_refl) as [|Hno]; [done|]. specialize (Hno p b Hb eq_refl Hfree).
    destruct (pi_lists _ _ Hpi) as [L Hi]. destruct (di_blk _ _ _ _ (bi_dinv _ _ _ _ _ _ Hi) _ _ Hb) as (_ & Ho & _). lia.
  - assert (allocated B' !! p = Some (mk_blk r 0 true)) as Hpb by (rw (al_blocks _ _ _ _ _ Hal); apply lookup_insert_eq).
    assert (frames_reachable k') as Hreach' by (rw /frames_reachable (ss_start _ _ Hss) (ss_limit _ _ Hss); done).
    pose proof (frame_range _ _ _ _ Hpi' Hpb) as Hrange. rw (ss_start _ _ Hss) (ss_limit _ _ Hss) in Hrange.
    exists (p * PAGE_SIZE). split; [lia|]. split; [apply ppfn_ptr; [done|lia|]; split; [nia|done]|]. split; [nia|]. split.
    { intros (p' & r' & Ep & Hp')%HX. assert (p' = p) as -> by nia. by rw (al_fresh _ _ _ _ _ Hal) in Hp'. }
    exists B', (F ∖ {[p]}). split; [done|]. split; [done|]. split.
    { intros x [->%elem_of_singleton|Hx]%elem_of_union; [by exists p, r|]. destruct (HX x Hx) as (p' & r' & -> & Hp'). exists p', r'. split; [done|].
      rw (al_blocks _ _ _ _ _ Hal) lookup_insert_ne //. intros <-. by rw (al_fresh _ _ _ _ _ Hal) in Hp'. }
    split; [pose proof (size_union_alt {[p]} F) as Hu; rw size_singleton in Hu; assert (size F ≤ size ({[p]} ∪ F))%nat by (apply subseteq_size; set_solver); lia|].
    intros q [Hq Hne]%elem_of_difference. destruct (HF q Hq) as (r' & Hr' & Hfree). exists r'. rw (ss_count _ _ Hss). split; [done|].
    apply (al_free _ _ _ _ _ Hal). split; [done|]. rw elem_of_singleton in Hne. lia.
Qed.

Lemma kernel_pfree_ok k X n ppfn ptr : kernel_pg_inv k X n → 0 ≤ ppfn < 2 ^ PFN_BITS → page_ppfn_to_ptr ppfn = Ret ptr → ptr ∈ X →
  wp (kernel_pfree ppfn) (λ r k', r = 1 ∧ kernel_pg_inv k' (X ∖ {[ptr]}) n) k.
Proof.
  intros (B & F & Hpi & Hreach & HX & Hsz & HF) Hpp Hptr Hin. pose proof Hreach as (R1 & R2 & R3 & R4). pose proof PAGE_SIZE_pos as Hps.
  apply ppfn_ptr in Hptr as [_ ->]; [|done|done]. destruct (HX _ Hin) as (p & r & Ep & Hp). assert (p = ppfn) as -> by nia.
  pose proof Hp as [HB _]%allocated_lookup. eapply wp_mono; [exact (wp_pfree k B ppfn r 0 Hpi HB)|].
  intros m k' (-> & B' & Hpi' & Hss & Hre). split; [done|]. exists B', F. split; [done|].
  split; [rw /frames_reachable (ss_start _ _ Hss) (ss_limit _ _ Hss); done|]. split.
  { intros x [Hx Hne]%elem_of_difference. destruct (HX x Hx) as (p' & r' & -> & Hp'). exists p', r'. split; [done|].
    rw (re_blocks _ _ _ _ _ Hre) lookup_delete_ne //. intros <-. by rw elem_of_singleton in Hne. }
  split; [done|]. intros q Hq. destruct (HF q Hq) as (r' & Hr' & Hfree). exists r'. rw (ss_count _ _ Hss). split; [done|].
  apply (re_free _ _ _ _ _ Hre). by left.
Qed.

#[export] Instance kernel_page_laws : PageEnvLaws palloc_state := {
  pg_inv := kernel_pg_inv;
  page_palloc_given := ltac:(by eexists);
  page_pfree_given := ltac:(by eexists);
  page_palloc_ok := kernel_palloc_ok;
  page_pfree_ok := kernel_pfree_ok
}.
End Kernel.

(** ** A run on RISC-V *)

#[local] Existing Instance riscv64.
#[local] Instance riscv64_format : PageArch := Riscv.format.
#[local] Existing Instance riscv64_laws.

(** The allocator with the frames 16 to 47 free, and a new root table from it. *)
Definition no_tables : page_state palloc_state := mk_pg ∅ small_state.
Definition new_root : Z * Z * page_state palloc_state :=
  match page_alloc_table 1 no_tables with Ret (r, s) => (r, s) | _ => ((0, 0), no_tables) end.
Definition demo_root : Z := new_root.1.1.
Definition demo : page_state palloc_state := new_root.2.

Lemma small_pg_inv : kernel_pg_inv small_state ∅ 32.
Proof.
  destruct small_state_inv as (B & Hpi & Hf & _). exists B, (list_to_set (seqZ 16 32)). split; [exact Hpi|].
  split; [vm_compute; intuition congruence|]. split; [intros x Hx; by apply elem_of_empty in Hx|].
  split; [vm_compute; lia|]. intros q Hq%elem_of_list_to_set%elem_of_seqZ. exists 0. split; [vm_compute; intuition congruence|]. apply Hf. lia.
Qed.

Lemma demo_ok : page_inv demo demo_root 31 ∧ ∀ va, in_range va → generic_translate_attri demo_root va demo = Ret ((0, None), demo).
Proof.
  assert (pg_inv (pg_env no_tables) ∅ 32) as Hp by exact small_pg_inv.
  destruct (wp_elim _ _ _ (wp_new_root no_tables 31 1 Hp eq_refl)) as ([root p] & s' & E & Hi & Hno).
  rw /demo_root /demo /new_root E. cbn [fst snd]. split; [exact Hi|]. intros va Hva. destruct Hi as [own [Hw _]].
  destruct (translate_value _ _ _ _ _ Hw Hva) as [(e & m & Hl & _)|[_ E']]; [by destruct (Hno va Hva e m)|exact E'].
Qed.

Lemma ret_inj {A S} (x y : A) (s : S) : Ret (x, s) = Ret (y, s) → x = y.
Proof. by intros [= ->]. Qed.

(** A large page and two pages. *)
Lemma demo_range : range_fits 0x200000 0x80200000 0x202000.
Proof. split; vm_compute; congruence. Qed.

Lemma map_range_correct_witness : ∃ s', generic_map_range demo_root 0x200000 0x80200000 0x202000 1 1 1 0 0 demo = Ret (514, s') ∧
  generic_translate_attri demo_root 0x212345 s' = Ret ((0x80212345, Some (mk_attri 1 1 1 1 0)), s') ∧
  generic_translate_attri demo_root 0x402000 s' = Ret ((0, None), s').
Proof.
  destruct demo_ok as [Hi Hno].
  destruct (map_range_correct demo demo_root 31 0x200000 0x80200000 0x202000 1 1 1 0 0 Hi) as (s' & E & _ & Hin & Hout);
    [vm_compute; congruence|exact demo_range|vm_compute; intuition congruence|by right; left|by right; left|by left| |].
  { intros v Hv. apply Hno. change (0x200000 ≤ v < 0x402000) in Hv. change (0 ≤ v < 2 ^ 39). lia. }
  assert (s32 (page_span 0x200000 0x202000) = 514) as En by (vm_compute; reflexivity). rw En in E.
  exists s'. split; [exact E|]. split.
  - exact (Hin 0x212345 ltac:(vm_compute; intuition congruence)).
  - destruct (Hout 0x402000) as (r & Er & Er'); [vm_compute; intuition congruence|vm_compute; intuition congruence|].
    rw Hno in Er; [vm_compute; intuition congruence|]. apply ret_inj in Er. rw -Er in Er'. exact Er'.
Defined.

Lemma map_unmap_roundtrip_witness : ∃ n s1 s2,
  generic_map_range demo_root 0x200000 0x80200000 0x202000 1 1 1 0 0 demo = Ret (n, s1) ∧
  generic_unmap_range demo_root 0x200000 0x80200000 0x202000 s1 = Ret (n, s2) ∧
  generic_translate_attri demo_root 0x212345 s2 = Ret ((0, None), s2).
Proof.
  destruct demo_ok as [Hi Hno].
  destruct (map_unmap_roundtrip demo demo_root 31 0x200000 0x80200000 0x202000 1 1 1 0 0 Hi) as (n & s1 & s2 & E1 & E2 & _ & Hback);
    [vm_compute; congruence|exact demo_range|vm_compute; intuition congruence|by right; left|by right; left|by left| |].
  { intros v Hv. apply Hno. change (0x200000 ≤ v < 0x402000) in Hv. change (0 ≤ v < 2 ^ 39). lia. }
  exists n, s1, s2. split; [exact E1|]. split; [exact E2|].
  destruct (Hback 0x212345) as (r & Er & Er'); [vm_compute; intuition congruence|].
  rw Hno in Er; [vm_compute; intuition congruence|]. apply ret_inj in Er. rw -Er in Er'. exact Er'.
Defined.

(** The large page mapped above. *)
Definition mapped_demo : page_state palloc_state :=
  final demo (generic_map_range demo_root 0x200000 0x80200000 0x200000 1 1 1 0 0 demo).

Lemma unmap_page_of_large_page_panics_witness : generic_unmap_range demo_root 0x201000 0x80201000 PAGE_SIZE mapped_demo = Panic.
Proof.
  assert (∃ e, leaf_at (pg_tables mapped_demo) demo_root 0x201000 e 1) as [e Hl].
  { eexists. rw /leaf_at. eexists. split; [vm_compute; reflexivity|]. split; [vm_compute; reflexivity|]. split; vm_compute; reflexivity. }
  apply (unmap_page_of_large_page_panics mapped_demo demo_root 0x201000 0x80201000 e 1 Hl);
    [done|by exists 0x201|by exists 0x80201|split; vm_compute; congruence|vm_compute; intuition congruence].
Defined.

(** ** Attributes on AMD64 *)

Module Amd64Run.
#[local] Existing Instance amd64 | 0.
#[local] Instance amd64_format : PageArch := Amd64.format (H := amd64).

Definition run {A} (m : M (page_state palloc_state) A) : outcome A :=
  match m (mk_pg ∅ small_state) with Ret (a, _) => Ret a | Panic => Panic | Fault => Fault | Diverge => Diverge end.

Definition map_data_page (root : Z) : M (page_state palloc_state) Z :=
  generic_map_range (Harch := amd64) root 0x200000 0x80200000 4096 1 0 1 0 0.

(** [map_page] gives [page_set_pte_attri] the [exec] flag for [cache]: a page of
    data that is mapped as cacheable has the cache disabled. *)
Example cached_data_page_is_uncached :
  run ('(root, _) ← page_alloc_table (Harch := amd64) 1;
       map_data_page root;;
       '(_, a) ← generic_translate_attri (Harch := amd64) root 0x200000;
       mret (a_cache <$> a)) = Ret (Some 0).
Proof. vm_compute. reflexivity. Qed.

(** Mapping it again with the same arguments, which is meant to have no effect,
    fails: the attributes differ, and the report before the panic walks the last
    table as if it were the root and takes the page itself for a table. *)
Example mapping_a_data_page_again_fails :
  run ('(root, _) ← page_alloc_table (Harch := amd64) 1; map_data_page root;; map_data_page root) = Fault.
Proof. vm_compute. reflexivity. Qed.

(** An executable page can be mapped again. *)
Example mapping_a_code_page_again :
  run ('(root, _) ← page_alloc_table (Harch := amd64) 1;
       generic_map_range (Harch := amd64) root 0x200000 0x80200000 4096 1 1 0 0 0;;
       generic_map_range (Harch := amd64) root 0x200000 0x80200000 4096 1 1 0 0 0) = Ret 1.
Proof. vm_compute. reflexivity. Qed.
End Amd64Run.
