(* ===== verification/Salloc.v ===== *)
(** The structure allocator: [src/src/kernel/mem/salloc.c], with [salloc_obj_t]
    of [src/src/kernel/include/mem.h], and the general allocator on top of it,
    [src/src/kernel/mem/malloc.c].

    A salloc object hands out structures of one size.  It takes buckets of pages
    from the page frame allocator; a bucket starts with a header, followed by
    blocks, each with a header of its own ([salloc_magic_block]) in front of the
    structure.  The free blocks of a bucket form a list, and so do the buckets
    with both free and used blocks.  Buckets, block headers and objects are in
    maps by their addresses; 0 is NULL, and memory that was given back is no
    longer in the maps.  The contents of the structures are not part of the
    state.  [palloc_ptr], [pfree_ptr] and the calls through the constructor and
    destructor pointers are the interface [SallocEnv]. *)

From stdpp Require Import base list gmap.
From Stdlib Require Import ZArith Lia.
From Corelib Require Import ssreflect.
From S2P Require Import Prelude Bits Lock Mem Palloc.

Record salloc_magic_block := mk_mblock { mb_bucket : Z; mb_next : Z }.

Inductive salloc_bucket_state := bucket_empty | bucket_partial | bucket_full.

Record salloc_bucket := mk_bucket {
  bk_prev : Z;
  bk_next : Z;
  bk_state : salloc_bucket_state;
  bk_obj : Z;
  bk_entry_count : Z;
  bk_avail_count : Z;
  bk_block : Z
}.

Record salloc_obj := mk_obj {
  so_next : Z;
  so_struct_size : Z;
  so_block_size : Z;
  so_alignment : Z;
  so_block_start_offset : Z;
  so_constructor : Z;
  so_destructor : Z;
  so_bucket_page_count : Z;
  so_bucket_block_count : Z;
  so_partial_next : Z;
  so_partial_count : Z;
  so_lock : spinlock_t;
  so_num_palloc_pages : Z;
  so_num_active_objs : Z
}.

(** Field updates. *)
Definition set_bk_prev (v : Z) (b : salloc_bucket) := mk_bucket v (bk_next b) (bk_state b) (bk_obj b) (bk_entry_count b) (bk_avail_count b) (bk_block b).
Definition set_bk_next (v : Z) (b : salloc_bucket) := mk_bucket (bk_prev b) v (bk_state b) (bk_obj b) (bk_entry_count b) (bk_avail_count b) (bk_block b).
Definition set_bk_state (v : salloc_bucket_state) (b : salloc_bucket) := mk_bucket (bk_prev b) (bk_next b) v (bk_obj b) (bk_entry_count b) (bk_avail_count b) (bk_block b).
Definition set_bk_avail (v : Z) (b : salloc_bucket) := mk_bucket (bk_prev b) (bk_next b) (bk_state b) (bk_obj b) (bk_entry_count b) v (bk_block b).
Definition set_bk_block (v : Z) (b : salloc_bucket) := mk_bucket (bk_prev b) (bk_next b) (bk_state b) (bk_obj b) (bk_entry_count b) (bk_avail_count b) v.
Definition set_mb_next (v : Z) (m : salloc_magic_block) := mk_mblock (mb_bucket m) v.
Definition set_mb_bucket (v : Z) (m : salloc_magic_block) := mk_mblock v (mb_next m).

Definition set_partial (next count : Z) (o : salloc_obj) : salloc_obj :=
  mk_obj (so_next o) (so_struct_size o) (so_block_size o) (so_alignment o) (so_block_start_offset o) (so_constructor o) (so_destructor o)
    (so_bucket_page_count o) (so_bucket_block_count o) next count (so_lock o) (so_num_palloc_pages o) (so_num_active_objs o).
Definition set_so_lock (l : spinlock_t) (o : salloc_obj) : salloc_obj :=
  mk_obj (so_next o) (so_struct_size o) (so_block_size o) (so_alignment o) (so_block_start_offset o) (so_constructor o) (so_destructor o)
    (so_bucket_page_count o) (so_bucket_block_count o) (so_partial_next o) (so_partial_count o) l (so_num_palloc_pages o) (so_num_active_objs o).
Definition set_so_counts (pages objs : Z) (o : salloc_obj) : salloc_obj :=
  mk_obj (so_next o) (so_struct_size o) (so_block_size o) (so_alignment o) (so_block_start_offset o) (so_constructor o) (so_destructor o)
    (so_bucket_page_count o) (so_bucket_block_count o) (so_partial_next o) (so_partial_count o) (so_lock o) pages objs.

(** [palloc_ptr], [pfree_ptr] and a call of the function at an address with a
    pointer and a size. *)
Class SallocEnv (K : Type) := {
  env_palloc_ptr : Z → M K Z;
  env_pfree_ptr : Z → M K Z;
  env_callback : Z → Z → Z → M K unit
}.

Record salloc_state (K : Type) := mk_sa {
  sa_objs : gmap Z salloc_obj;
  sa_buckets : gmap Z salloc_bucket;
  sa_blocks : gmap Z salloc_magic_block;
  sa_all : Z;                              (* all_salloc_objs *)
  sa_num_objs : Z;                         (* num_salloc_objs *)
  sa_int : bool;
  sa_env : K
}.

Arguments mk_sa {K} _ _ _ _ _ _ _.
Arguments sa_objs {K} _.
Arguments sa_buckets {K} _.
Arguments sa_blocks {K} _.
Arguments sa_all {K} _.
Arguments sa_num_objs {K} _.
Arguments sa_int {K} _.
Arguments sa_env {K} _.

Section Salloc.
Context `{Harch : Arch} {K : Type} `{SallocEnv K}.

Abbreviation SA := (M (salloc_state K)).

Definition upd_objs (f : gmap Z salloc_obj → gmap Z salloc_obj) (s : salloc_state K) : salloc_state K :=
  mk_sa (f (sa_objs s)) (sa_buckets s) (sa_blocks s) (sa_all s) (sa_num_objs s) (sa_int s) (sa_env s).
Definition upd_buckets (f : gmap Z salloc_bucket → gmap Z salloc_bucket) (s : salloc_state K) : salloc_state K :=
  mk_sa (sa_objs s) (f (sa_buckets s)) (sa_blocks s) (sa_all s) (sa_num_objs s) (sa_int s) (sa_env s).
Definition upd_blocks (f : gmap Z salloc_magic_block → gmap Z salloc_magic_block) (s : salloc_state K) : salloc_state K :=
  mk_sa (sa_objs s) (sa_buckets s) (f (sa_blocks s)) (sa_all s) (sa_num_objs s) (sa_int s) (sa_env s).
Definition set_sa_int (b : bool) (s : salloc_state K) : salloc_state K :=
  mk_sa (sa_objs s) (sa_buckets s) (sa_blocks s) (sa_all s) (sa_num_objs s) b (sa_env s).
Definition set_sa_env (k : K) (s : salloc_state K) : salloc_state K :=
  mk_sa (sa_objs s) (sa_buckets s) (sa_blocks s) (sa_all s) (sa_num_objs s) (sa_int s) k.

#[export] Instance salloc_int : HasInt (salloc_state K) := {
  int_state := sa_int;
  set_int := set_sa_int;
  int_set _ _ := eq_refl;
  set_set _ _ _ := eq_refl;
  set_same s := match s with mk_sa _ _ _ _ _ _ _ => eq_refl end
}.

Definition obj_lock (o : Z) : lock_ref (salloc_state K) :=
  mk_lock_ref (λ s, so_lock <$> sa_objs s !! o) (λ l, upd_objs (alter (set_so_lock l) o)).

Definition on_sa_env {A} (m : M K A) : SA A := zoom sa_env set_sa_env m.

Definition read_obj (o : Z) : SA salloc_obj := deref (λ s, sa_objs s !! o).
Definition write_obj (o : Z) (f : salloc_obj → salloc_obj) : SA unit := x ← read_obj o; modify (upd_objs (<[o := f x]>)).
Definition read_bucket (b : Z) : SA salloc_bucket := deref (λ s, sa_buckets s !! b).
Definition write_bucket (b : Z) (f : salloc_bucket → salloc_bucket) : SA unit := x ← read_bucket b; modify (upd_buckets (<[b := f x]>)).
Definition read_block (m : Z) : SA salloc_magic_block := deref (λ s, sa_blocks s !! m).
Definition write_block (m : Z) (f : salloc_magic_block → salloc_magic_block) : SA unit := x ← read_block m; modify (upd_blocks (<[m := f x]>)).

(** [sizeof(struct salloc_magic_block)] and [sizeof(struct salloc_bucket)]. *)
Definition MAGIC_SIZE : Z := 2 * (ARCH_WIDTH / 8).
Definition BUCKET_SIZE : Z := if ARCH_WIDTH =? 64 then 48 else 28.

(** ** Buckets *)

Definition block_addr (o : salloc_obj) (bucket i : Z) : Z :=
  ulong (bucket + so_block_start_offset o + i * so_block_size o).

(** [for (i = 0; i < entry_count; i++)]: the blocks [i], [i + 1], ... are pushed. *)
Fixpoint init_blocks (n : nat) (i : Z) (o : salloc_obj) (bucket : Z) : SA unit :=
  match n with
  | O => mret tt
  | S n' =>
      let block := block_addr o bucket i in
      b ← read_bucket bucket;
      modify (upd_blocks (<[block := mk_mblock bucket (bk_block b)]>));;
      write_bucket bucket (set_bk_block block);;
      init_blocks n' (i + 1) o bucket
  end.

Definition alloc_bucket (obj : Z) : SA Z :=
  o ← read_obj obj;
  bucket ← on_sa_env (env_palloc_ptr (so_bucket_page_count o));
  if bucket =? 0 then mret 0 else
  write_obj obj (λ o, set_so_counts (ulong (so_num_palloc_pages o + so_bucket_page_count o)) (so_num_active_objs o) o);;
  modify (upd_buckets (<[bucket := mk_bucket 0 0 bucket_empty obj (so_bucket_block_count o) (so_bucket_block_count o) 0]>));;
  init_blocks (Z.to_nat (so_bucket_block_count o)) 0 o bucket;;
  mret bucket.

(** The memory of the bucket and of its blocks is given back. *)
Definition free_bucket (obj bucket : Z) : SA unit :=
  o ← read_obj obj;
  on_sa_env (env_pfree_ptr bucket);;
  modify (upd_blocks (λ B, foldr (λ i B, delete (block_addr o bucket i) B) B (seqZ 0 (so_bucket_block_count o))));;
  modify (upd_buckets (delete bucket));;
  write_obj obj (λ o, set_so_counts (ulong (so_num_palloc_pages o - so_bucket_page_count o)) (so_num_active_objs o) o).

Definition insert_bucket (obj bucket : Z) : SA unit :=
  o ← read_obj obj;
  write_bucket bucket (set_bk_next (so_partial_next o));;
  write_bucket bucket (set_bk_prev 0);;
  (if ctrue (so_partial_next o) then write_bucket (so_partial_next o) (set_bk_prev bucket) else mret tt);;
  write_obj obj (λ o, set_partial bucket (ulong (so_partial_count o + 1)) o).

Definition remove_bucket (obj bucket : Z) : SA unit :=
  write_obj obj (λ o, set_partial (so_partial_next o) (ulong (so_partial_count o - 1)) o);;
  b ← read_bucket bucket;
  (if ctrue (bk_prev b) then write_bucket (bk_prev b) (set_bk_next (bk_next b))
   else write_obj obj (λ o, set_partial (bk_next b) (so_partial_count o) o));;
  (if ctrue (bk_next b) then write_bucket (bk_next b) (set_bk_prev (bk_prev b)) else mret tt).

(** ** Creation *)

(** The sizes [salloc_create] computes. *)
Record salloc_layout := mk_layout {
  ly_align : Z; ly_block_size : Z; ly_start_offset : Z; ly_page_count : Z; ly_block_count : Z
}.

Definition compute_layout (size align0 count0 : Z) : outcome salloc_layout :=
  let align := if ctrue align0 then align0 else DATA_ALIGNMENT in
  block_size ← align_up_ulong_any (ulong (size + MAGIC_SIZE)) align;
  start ← align_up_ulong_any (BUCKET_SIZE + MAGIC_SIZE) align;
  let start_offset := ulong (start - MAGIC_SIZE) in
  let count := if ctrue count0 then count0 else 32 in
  let total_size := ulong (start_offset + ulong (block_size * ulong count)) in
  let page_count := total_size / PAGE_SIZE in
  let page_count := if ctrue (total_size mod PAGE_SIZE) then ulong (page_count + 1) else page_count in
  order ← calc_palloc_order (s32 page_count);
  let page_count := ulong (Z.shiftl 1 order) in
  block_count ← quo_ulong (ulong (ulong (page_count * PAGE_SIZE) - start_offset)) block_size;
  mret (mk_layout align block_size start_offset (s32 page_count) (s32 block_count)).

Definition salloc_create (obj size align count ctor dtor : Z) : SA unit :=
  all ← gets sa_all;
  l ← lift_outcome (compute_layout size align count);
  modify (upd_objs (<[obj := mk_obj all size (ly_block_size l) (ly_align l) (ly_start_offset l) ctor dtor (ly_page_count l) (ly_block_count l)
    0 0 SPINLOCK_INIT 0 0]>));;
  modify (λ s, mk_sa (sa_objs s) (sa_buckets s) (sa_blocks s) obj (ulong (sa_num_objs s + 1)) (sa_int s) (sa_env s)).

(** [salloc_create_default]; [default_ctor] is the address of [salloc_default_ctor]. *)
Definition salloc_create_default (default_ctor obj size : Z) : SA unit := salloc_create obj size 0 0 default_ctor 0.

(** ** Allocation and release *)

Definition call (f ptr size : Z) : SA unit := if ctrue f then on_sa_env (env_callback f ptr size) else mret tt.

(** The first block of [bucket] is taken. *)
Definition take_block (obj bucket : Z) : SA Z :=
  b ← read_bucket bucket;
  let block := bk_block b in
  m ← read_block block;
  write_bucket bucket (set_bk_block (mb_next m));;
  write_bucket bucket (λ b, set_bk_avail (s32 (bk_avail_count b - 1)) b);;
  write_block block (set_mb_next 0);;
  write_block block (set_mb_bucket bucket);;
  b ← read_bucket bucket;
  (if negb (ctrue (bk_avail_count b)) then
     write_bucket bucket (set_bk_state bucket_full);; remove_bucket obj bucket
   else if bk_avail_count b =? s32 (bk_entry_count b - 1) then
     write_bucket bucket (set_bk_state bucket_partial);; insert_bucket obj bucket
   else mret tt);;
  mret block.

Definition salloc (obj : Z) : SA Z :=
  spinlock_lock_int (obj_lock obj);;
  o ← read_obj obj;
  bucket ← (if negb (ctrue (so_partial_count o)) then alloc_bucket obj else mret (so_partial_next o));
  if bucket =? 0 then
    spinlock_unlock_int (obj_lock obj);;
    mret 0
  else
    block ← take_block obj bucket;
    write_obj obj (λ o, set_so_counts (so_num_palloc_pages o) (ulong (so_num_active_objs o + 1)) o);;
    spinlock_unlock_int (obj_lock obj);;
    let ptr := ulong (block + MAGIC_SIZE) in
    o ← read_obj obj;
    call (so_constructor o) ptr (so_struct_size o);;
    mret ptr.

(** The block goes back to its bucket. *)
Definition put_block (obj bucket block : Z) : SA unit :=
  b ← read_bucket bucket;
  write_block block (set_mb_next (bk_block b));;
  write_bucket bucket (set_bk_block block);;
  write_bucket bucket (λ b, set_bk_avail (s32 (bk_avail_count b + 1)) b);;
  b ← read_bucket bucket;
  if bk_avail_count b =? bk_entry_count b then
    write_bucket bucket (set_bk_state bucket_empty);;
    remove_bucket obj bucket;;
    free_bucket obj bucket
  else if 1 =? bk_avail_count b then
    write_bucket bucket (set_bk_state bucket_partial);;
    insert_bucket obj bucket
  else mret tt.

Definition sfree (ptr : Z) : SA unit :=
  let block := ulong (ptr - MAGIC_SIZE) in
  m ← read_block block;
  let bucket := mb_bucket m in
  b ← read_bucket bucket;
  let obj := bk_obj b in
  o ← read_obj obj;
  call (so_destructor o) ptr (so_struct_size o);;
  spinlock_lock_int (obj_lock obj);;
  put_block obj bucket block;;
  write_obj obj (λ o, set_so_counts (so_num_palloc_pages o) (ulong (so_num_active_objs o - 1)) o);;
  spinlock_unlock_int (obj_lock obj).

(** ** The general allocator *)

(** The sizes of [malloc_entries]; the object of entry [i] is at [objs + i]. *)
Definition malloc_sizes : list Z := [16; 32; 64; 128; 256; 384; 512; 768].

Fixpoint init_malloc_loop (sizes : list Z) (obj : Z) : SA unit :=
  match sizes with
  | [] => mret tt
  | size :: sizes' => salloc_create obj size 0 0 0 0;; init_malloc_loop sizes' (obj + 1)
  end.

Definition init_malloc (objs : Z) : SA unit := init_malloc_loop malloc_sizes objs.

Fixpoint malloc_loop (sizes : list Z) (obj size : Z) : SA Z :=
  match sizes with
  | [] => panic
  | block_size :: sizes' =>
      ptr ← (if size <=? block_size then salloc obj else mret 0);
      if ctrue ptr then mret ptr else malloc_loop sizes' (obj + 1) size
  end.

Definition malloc (objs size : Z) : SA Z := malloc_loop malloc_sizes objs size.
Definition calloc (objs count size : Z) : SA Z := malloc objs (ulong (count * size)).
Definition free (ptr : Z) : SA unit := if ctrue ptr then sfree ptr else mret tt.

End Salloc.
