(* ===== verification/SallocSpec.v ===== *)
(** Correctness of the structure allocator of [Salloc.v]: the free blocks of a
    bucket form a list, the buckets with free and used blocks form a list per
    object, and the structures in use never overlap. *)

From stdpp Require Import base list gmap.
From Stdlib Require Import ZArith Lia.
From Corelib Require Import ssreflect.
From S2P Require Import Prelude Bits Lock Mem Palloc Salloc.

(** ** Lists in memory *)

(** The list of free blocks that starts at [x]. *)
Fixpoint chain (BL : gmap Z salloc_magic_block) (x : Z) (l : list Z) : Prop :=
  match l with
  | [] => x = 0
  | y :: l' => x = y ∧ ∃ m, BL !! y = Some m ∧ chain BL (mb_next m) l'
  end.

Lemma block_chain_frame BL BL' x l : (∀ y, y ∈ l → BL' !! y = BL !! y) → chain BL x l → chain BL' x l.
Proof.
  revert x. induction l as [|y l IH]; intros x Hf; [done|]. cbn. intros [-> (m & Hm & Hc)]. split; [done|]. exists m.
  split; [rw Hf //; by left|]. apply IH; [|done]. intros z Hz. apply Hf. by right.
Qed.

(** The list of buckets that starts at [x], whose first bucket has [p] before it. *)
Fixpoint dll (BK : gmap Z salloc_bucket) (p x : Z) (l : list Z) : Prop :=
  match l with
  | [] => x = 0
  | y :: l' => x = y ∧ ∃ b, BK !! y = Some b ∧ bk_prev b = p ∧ dll BK y (bk_next b) l'
  end.

Definition links (b : salloc_bucket) : Z * Z := (bk_prev b, bk_next b).

Lemma dll_frame BK BK' p x l : (∀ y, y ∈ l → links <$> BK' !! y = links <$> BK !! y) → dll BK p x l → dll BK' p x l.
Proof.
  revert p x. induction l as [|y l IH]; intros p x Hf; [done|]. cbn. intros [-> (b & Hb & Hp & Hd)]. split; [done|].
  pose proof (Hf y ltac:(by left)) as Hy. rw Hb in Hy. destruct (BK' !! y) as [b'|]; [|done]. cbn in Hy. injection Hy as Hy1 Hy2. exists b'.
  split; [done|]. split; [congruence|]. rw Hy2. apply IH; [|done]. intros z Hz. apply Hf. by right.
Qed.

Lemma dll_head BK p x l : dll BK p x l → (∀ y, y ∈ l → y ≠ 0) → x ≠ 0 ↔ l ≠ [].
Proof. destruct l as [|y l]; cbn; [naive_solver|]. intros [-> _] Hne. split; [done|]. intros _. apply Hne. by left. Qed.

Lemma dll_member BK p x l y : dll BK p x l → y ∈ l → is_Some (BK !! y).
Proof.
  revert p x. induction l as [|z l IH]; intros p x; [by intros _ ?%elem_of_nil|]. cbn. intros [-> (b & Hb & _ & Hd)] [->|Hy]%elem_of_cons; [eauto|eauto].
Qed.

(** What a bucket is apart from its place in the list. *)
Definition bdata (b : salloc_bucket) : salloc_bucket_state * Z * Z * Z * Z :=
  (bk_state b, bk_obj b, bk_entry_count b, bk_avail_count b, bk_block b).

Definition same_bdata (BK BK' : gmap Z salloc_bucket) : Prop := ∀ b, bdata <$> BK' !! b = bdata <$> BK !! b.

(** [insert_bucket] on the buckets. *)
Definition link_front (h b : Z) (BK : gmap Z salloc_bucket) : gmap Z salloc_bucket :=
  let BK1 := alter (λ B, set_bk_prev 0 (set_bk_next h B)) b BK in
  if ctrue h then alter (set_bk_prev b) h BK1 else BK1.

(** [remove_bucket] on the buckets. *)
Definition unlink (B : salloc_bucket) (BK : gmap Z salloc_bucket) : gmap Z salloc_bucket :=
  let BK1 := if ctrue (bk_prev B) then alter (set_bk_next (bk_next B)) (bk_prev B) BK else BK in
  if ctrue (bk_next B) then alter (set_bk_prev (bk_prev B)) (bk_next B) BK1 else BK1.

Lemma alter_bdata f b BK : (∀ B, bdata (f B) = bdata B) → same_bdata BK (alter f b BK).
Proof.
  intros Hf x. destruct (decide (x = b)) as [->|Hne]; [rw lookup_alter_eq|by rw lookup_alter_ne; [congruence|]].
  destruct (BK !! b); [|done]. cbn. by rw Hf.
Qed.

Lemma same_bdata_trans BK1 BK2 BK3 : same_bdata BK1 BK2 → same_bdata BK2 BK3 → same_bdata BK1 BK3.
Proof. intros S1 S2 b. by rw S2 S1. Qed.

Lemma link_front_bdata h b BK : same_bdata BK (link_front h b BK).
Proof.
  rw /link_front. destruct (ctrue h); [eapply same_bdata_trans; [apply (alter_bdata (λ B, set_bk_prev 0 (set_bk_next h B))); done|by apply alter_bdata]|by apply alter_bdata].
Qed.

Lemma unlink_bdata B BK : same_bdata BK (unlink B BK).
Proof.
  rw /unlink. destruct (ctrue (bk_prev B)), (ctrue (bk_next B)); try (by apply alter_bdata); [|done].
  eapply same_bdata_trans; [apply (alter_bdata (set_bk_next (bk_next B))); done|by apply alter_bdata].
Qed.

Lemma ctrue_ne x : ctrue x = true ↔ x ≠ 0.
Proof. rw /ctrue negb_true_iff. apply Z.eqb_neq. Qed.

Lemma ctrue_0 x : x = 0 → ctrue x = false.
Proof. by intros ->. Qed.

Lemma dll_link_front BK h b l : dll BK 0 h l → b ∉ l → NoDup l → is_Some (BK !! b) → (∀ y, y ∈ l → y ≠ 0) → dll (link_front h b BK) 0 b (b :: l).
Proof.
  intros Hd Hb Hnd [B HB] Hnz. cbn. split; [done|]. rw /link_front. destruct l as [|y l].
  - cbn in Hd. subst h. exists (set_bk_prev 0 (set_bk_next 0 B)). cbn. by rw lookup_alter_eq HB.
  - destruct Hd as [-> (Y & HY & Hp & Hd)]. assert (y ≠ 0) as Hy0 by (apply Hnz; left). rw (proj2 (ctrue_ne y) Hy0).
    assert (b ≠ y) as Hby by (intros ->; apply Hb; left). apply NoDup_cons in Hnd as [Hyl Hnd]. exists (set_bk_prev 0 (set_bk_next y B)).
    split; [rw lookup_alter_ne; [congruence|]; by rw lookup_alter_eq HB|]. split; [done|]. cbn. split; [done|].
    exists (set_bk_prev b Y). split; [rw lookup_alter_eq lookup_alter_ne; [congruence|]; by rw HY|]. split; [done|]. cbn.
    eapply dll_frame; [|exact Hd]. intros z Hz. rw !lookup_alter_ne //; [intros ->; done|intros ->; apply Hb; by right].
Qed.

(** The first bucket of a list gets another one before it. *)
Lemma dll_relink BK p p' x l : dll BK p x l → NoDup l → (∀ y, y ∈ l → y ≠ 0) → dll (if ctrue x then alter (set_bk_prev p') x BK else BK) p' x l.
Proof.
  intros Hd Hnd Hnz. destruct l as [|y l]; [cbn in Hd; by subst x|]. destruct Hd as [-> (Y & HY & Hp & Hd)].
  assert (y ≠ 0) as Hy0 by (apply Hnz; left). rw (proj2 (ctrue_ne y) Hy0). apply NoDup_cons in Hnd as [Hyl Hnd]. cbn. split; [done|].
  exists (set_bk_prev p' Y). split; [by rw lookup_alter_eq HY|]. split; [done|]. eapply dll_frame; [|exact Hd].
  intros z Hz. rw lookup_alter_ne //. by intros ->.
Qed.

Lemma unlink_lookup_ne B BK z : z ≠ bk_prev B → z ≠ bk_next B → unlink B BK !! z = BK !! z.
Proof. intros N1 N2. rw /unlink. destruct (ctrue (bk_prev B)), (ctrue (bk_next B)); rw ?lookup_alter_ne //; congruence. Qed.

Lemma dll_next BK p x l1 b l2 B : dll BK p x (l1 ++ b :: l2) → BK !! b = Some B → bk_next B = default 0 (head l2).
Proof.
  revert p x. induction l1 as [|y l1 IH]; intros p x; cbn [app dll].
  - intros [-> (B' & HB' & _ & Hd)] HB. assert (B' = B) as -> by congruence. destruct l2 as [|z l2]; [done|]. by destruct Hd.
  - intros [_ (Y & _ & _ & Hd)]. eauto.
Qed.

Lemma last_cons (l : list Z) y d : List.last (y :: l) d = List.last l y.
Proof. revert y d. induction l as [|z l IH]; intros y d; [done|]. change (List.last (z :: l) d = List.last (z :: l) y). by rw !IH. Qed.

Lemma last_mem (l : list Z) y d : List.last (y :: l) d ∈ y :: l.
Proof. revert y. induction l as [|z l IH]; intros y; [by left|]. right. apply IH. Qed.

Lemma dll_unlink BK p x l1 b l2 B : dll BK p x (l1 ++ b :: l2) → NoDup (l1 ++ b :: l2) → (∀ y, y ∈ l1 ++ b :: l2 → y ≠ 0) → BK !! b = Some B →
  (p ≠ 0 → p ∉ l1 ++ b :: l2) →
  bk_prev B = List.last l1 p ∧
  dll (unlink B BK) p (match l1 with [] => bk_next B | _ => x end) (l1 ++ l2).
Proof.
  revert p x. induction l1 as [|y l1 IH]; intros p x Hd Hnd Hnz HB Hp; pose proof (dll_next _ _ _ _ _ _ _ Hd HB) as Hnext; cbn [app] in *.
  - destruct Hd as [-> (B' & HB' & Hpb & Hd)]. assert (B' = B) as -> by congruence. split; [done|]. apply NoDup_cons in Hnd as [Hb Hnd].
    rw /unlink Hpb.
    assert (∀ y, y ∈ l2 → y ≠ 0) as Hnz2 by (intros y Hy; apply Hnz; by right).
    destruct (ctrue p) eqn:Ep; [|exact (dll_relink BK b p _ l2 Hd Hnd Hnz2)]. apply ctrue_ne in Ep.
    apply (dll_relink _ b p _ l2); [|done|done]. eapply dll_frame; [|exact Hd]. intros z Hz. rw lookup_alter_ne //. intros E. apply (Hp Ep). rw E. by right.
  - destruct Hd as [-> (Y & HY & Hpy & Hd)]. apply NoDup_cons in Hnd as [Hy Hnd].
    assert (y ≠ 0) as Hy0 by (apply Hnz; left).
    destruct (IH y (bk_next Y) Hd Hnd ltac:(intros z Hz; apply Hnz; by right) HB ltac:(intros _; exact Hy)) as [Hprev Hd']. split; [by rw last_cons|].
    cbn. split; [done|].
    assert (y ≠ bk_next B) as Hny by (rw Hnext; destruct l2 as [|z l2]; [done|]; cbn; intros ->; apply Hy; set_solver).
    destruct l1 as [|y2 l1].
    + cbn in Hprev. rw /unlink Hprev (proj2 (ctrue_ne y) Hy0) in Hd' |- *.
      exists (set_bk_next (bk_next B) Y). split; [|done]. destruct (ctrue (bk_next B)); [rw lookup_alter_ne; [congruence|]|]; by rw lookup_alter_eq HY.
    + exists Y. split; [|done]. rw unlink_lookup_ne //. rw Hprev. intros E. apply Hy. rw E. apply elem_of_app. left. apply last_mem.
Qed.

(** ** What the page frame allocator promises *)

(** [sa_env_inv k A]: the buckets at the addresses of [A], with their numbers of
    pages, are allocated. *)
Class SallocEnvLaws `{Arch} (K : Type) `{SallocEnv K} := {
  sa_env_inv : K → gmap Z Z → Prop;
  env_range : ∀ k A b n, sa_env_inv k A → A !! b = Some n → 0 < b ∧ b + n * PAGE_SIZE ≤ 2 ^ ARCH_WIDTH ∧ (PAGE_SIZE | b);
  env_apart : ∀ k A b n b' n', sa_env_inv k A → A !! b = Some n → A !! b' = Some n' → b ≠ b' →
    b + n * PAGE_SIZE ≤ b' ∨ b' + n' * PAGE_SIZE ≤ b;
  env_palloc_ptr_ok : ∀ k A n, sa_env_inv k A → 0 < n ≤ 2 ^ 15 →
    wpp (env_palloc_ptr n) (λ p k', p = 0 ∧ sa_env_inv k' A ∨ p ≠ 0 ∧ A !! p = None ∧ sa_env_inv k' (<[p := n]> A)) k;
  env_pfree_ptr_ok : ∀ k A p n, sa_env_inv k A → A !! p = Some n → wp (env_pfree_ptr p) (λ _ k', sa_env_inv k' (delete p A)) k;
  env_callback_ok : ∀ k A f p n, sa_env_inv k A → wp (env_callback f p n) (λ _ k', sa_env_inv k' A) k
}.

Section Spec.
Context `{Harch : Arch} {K : Type} `{Henv : SallocEnv K} `{!SallocEnvLaws K}.
Implicit Types (s : salloc_state K) (o : salloc_obj) (B : salloc_bucket) (BK : gmap Z salloc_bucket) (BL : gmap Z salloc_magic_block)
  (O : gmap Z salloc_obj) (A : gmap Z Z).

(** *** Single accesses *)

Lemma alter_as_insert {X} (f : X → X) (m : gmap Z X) i x : m !! i = Some x → <[i := f x]> m = alter f i m.
Proof.
  intros Hi. apply map_eq. intros j. destruct (decide (j = i)) as [->|Hne]; [by rw lookup_insert_eq lookup_alter_eq Hi|].
  rw lookup_insert_ne; [congruence|]. by rw lookup_alter_ne; [congruence|].
Qed.

Lemma wp_read_obj s i o (Q : salloc_obj → salloc_state K → Prop) : sa_objs s !! i = Some o → Q o s → wp (read_obj i) Q s.
Proof. intros E HQ. eapply wp_deref; [exact E|exact HQ]. Qed.
Lemma wp_read_bucket s b B (Q : salloc_bucket → salloc_state K → Prop) : sa_buckets s !! b = Some B → Q B s → wp (read_bucket b) Q s.
Proof. intros E HQ. eapply wp_deref; [exact E|exact HQ]. Qed.
Lemma wp_read_block s x m (Q : salloc_magic_block → salloc_state K → Prop) : sa_blocks s !! x = Some m → Q m s → wp (read_block x) Q s.
Proof. intros E HQ. eapply wp_deref; [exact E|exact HQ]. Qed.

Lemma wp_write_obj s i f (Q : unit → salloc_state K → Prop) : is_Some (sa_objs s !! i) → Q tt (upd_objs (alter f i) s) → wp (write_obj i f) Q s.
Proof. intros [o Ho] HQ. rw /write_obj. wp_step. eapply wp_read_obj; [exact Ho|]. wp_step. by rw /upd_objs (alter_as_insert f _ _ _ Ho). Qed.
Lemma wp_write_bucket s b f (Q : unit → salloc_state K → Prop) : is_Some (sa_buckets s !! b) → Q tt (upd_buckets (alter f b) s) → wp (write_bucket b f) Q s.
Proof. intros [B HB] HQ. rw /write_bucket. wp_step. eapply wp_read_bucket; [exact HB|]. wp_step. by rw /upd_buckets (alter_as_insert f _ _ _ HB). Qed.
Lemma wp_write_block s x f (Q : unit → salloc_state K → Prop) : is_Some (sa_blocks s !! x) → Q tt (upd_blocks (alter f x) s) → wp (write_block x f) Q s.
Proof. intros [m Hm] HQ. rw /write_block. wp_step. eapply wp_read_block; [exact Hm|]. wp_step. by rw /upd_blocks (alter_as_insert f _ _ _ Hm). Qed.

Lemma alter_twice {X} (f g : X → X) (m : gmap Z X) i : alter g i (alter f i m) = alter (λ x, g (f x)) i m.
Proof.
  apply map_eq. intros j. destruct (decide (j = i)) as [->|Hne]; [rw !lookup_alter_eq; by destruct (m !! i)|].
  by rw !lookup_alter_ne; [congruence..|].
Qed.

Lemma wp_insert_bucket s obj o b (Q : unit → salloc_state K → Prop) : sa_objs s !! obj = Some o → is_Some (sa_buckets s !! b) →
  (so_partial_next o ≠ 0 → is_Some (sa_buckets s !! so_partial_next o)) →
  Q tt (upd_buckets (link_front (so_partial_next o) b) (upd_objs (alter (λ o, set_partial b (ulong (so_partial_count o + 1)) o) obj) s)) →
  wp (insert_bucket obj b) Q s.
Proof.
  intros Ho Hb Hh HQ. rw /insert_bucket. wp_step. eapply wp_read_obj; [exact Ho|]. wp_step. apply wp_write_bucket; [done|].
  wp_step. apply wp_write_bucket; [by rw lookup_alter_is_Some|]. wp_step. rw /upd_buckets /= alter_twice. rw /link_front in HQ.
  destruct (ctrue (so_partial_next o)) eqn:E.
  - apply ctrue_ne in E. apply wp_write_bucket; [rw lookup_alter_is_Some; auto|]. apply wp_write_obj; [cbn; eauto|]. exact HQ.
  - wp_step. apply wp_write_obj; [cbn; eauto|]. exact HQ.
Qed.

(** The object after [remove_bucket] of [B]. *)
Definition without (B : salloc_bucket) (o : salloc_obj) : salloc_obj :=
  set_partial (if ctrue (bk_prev B) then so_partial_next o else bk_next B) (ulong (so_partial_count o - 1)) o.

Lemma wp_remove_bucket s obj b B (Q : unit → salloc_state K → Prop) : is_Some (sa_objs s !! obj) → sa_buckets s !! b = Some B →
  (bk_prev B ≠ 0 → is_Some (sa_buckets s !! bk_prev B)) → (bk_next B ≠ 0 → is_Some (sa_buckets s !! bk_next B)) →
  Q tt (upd_buckets (unlink B) (upd_objs (alter (without B) obj) s)) → wp (remove_bucket obj b) Q s.
Proof.
  intros Ho HB Hp Hn HQ. rw /remove_bucket. wp_step. apply wp_write_obj; [done|]. wp_step. eapply wp_read_bucket; [exact HB|].
  rw /unlink /without in HQ. destruct (ctrue (bk_prev B)) eqn:Ep.
  - apply ctrue_ne in Ep. wp_step. apply wp_write_bucket; [auto|]. destruct (ctrue (bk_next B)) eqn:En; [|by wp_step].
    apply ctrue_ne in En. apply wp_write_bucket; [rw /upd_buckets /= lookup_alter_is_Some; auto|]. exact HQ.
  - wp_step. apply wp_write_obj; [by rw /upd_objs /= lookup_alter_is_Some|]. rw /upd_objs /= alter_twice.
    destruct (ctrue (bk_next B)) eqn:En; [|by wp_step].
    apply ctrue_ne in En. apply wp_write_bucket; [auto|]. exact HQ.
Qed.

(** *** Geometry of a bucket *)

(** What [salloc_create] establishes of an object. *)
Record obj_ok (o : salloc_obj) : Prop := {
  ok_size : 0 < so_struct_size o ∧ so_struct_size o + MAGIC_SIZE ≤ so_block_size o;
  ok_start : BUCKET_SIZE ≤ so_block_start_offset o;
  ok_fit : so_block_start_offset o + so_bucket_block_count o * so_block_size o ≤ so_bucket_page_count o * PAGE_SIZE;
  ok_count : 2 ≤ so_bucket_block_count o < 2 ^ 31;
  ok_pages : 0 < so_bucket_page_count o ≤ 2 ^ 15;
  ok_align : 0 < so_alignment o ∧ (so_alignment o | so_block_size o) ∧ (so_alignment o | so_block_start_offset o + MAGIC_SIZE) ∧ (so_alignment o | PAGE_SIZE)
}.

(** The addresses of the blocks of the bucket at [b]. *)
Definition blocks_of o (b : Z) : list Z := block_addr o b <$> seqZ 0 (so_bucket_block_count o).

(** A bucket that fits into memory. *)
Definition placed o (b : Z) : Prop := 0 < b ∧ b + so_bucket_page_count o * PAGE_SIZE ≤ 2 ^ ARCH_WIDTH ∧ (PAGE_SIZE | b).

Lemma MAGIC_pos : 0 < MAGIC_SIZE.
Proof. rw /MAGIC_SIZE. by destruct arch_width_cases as [-> | ->]. Qed.

Lemma BUCKET_pos : 0 < BUCKET_SIZE.
Proof. rw /BUCKET_SIZE. by destruct (ARCH_WIDTH =? 64). Qed.

Lemma block_addr_value o b i : obj_ok o → placed o b → 0 ≤ i < so_bucket_block_count o →
  block_addr o b i = b + so_block_start_offset o + i * so_block_size o ∧
  b + BUCKET_SIZE ≤ block_addr o b i ∧ block_addr o b i + so_block_size o ≤ b + so_bucket_page_count o * PAGE_SIZE.
Proof.
  intros [[S1 S2] T F C P _] (H1 & H2 & _) Hi. pose proof MAGIC_pos. pose proof BUCKET_pos. rw /block_addr.
  assert (i * so_block_size o + so_block_size o ≤ so_bucket_block_count o * so_block_size o) by nia. assert (0 ≤ i * so_block_size o) by nia.
  rw wrap_small; [rw /uint|]; lia.
Qed.

Lemma block_addr_apart o b i j : obj_ok o → placed o b → 0 ≤ i < so_bucket_block_count o → 0 ≤ j < so_bucket_block_count o → i ≠ j →
  block_addr o b i + so_block_size o ≤ block_addr o b j ∨ block_addr o b j + so_block_size o ≤ block_addr o b i.
Proof.
  intros Ho Hp Hi Hj Hne. destruct (block_addr_value o b i Ho Hp Hi) as [-> _]. destruct (block_addr_value o b j Ho Hp Hj) as [-> _].
  destruct Ho as [[S1 S2] _ _ _ _ _]. pose proof MAGIC_pos. destruct (Z.lt_ge_cases i j); [left|right]; nia.
Qed.

Lemma elem_of_blocks o b x : x ∈ blocks_of o b ↔ ∃ i, 0 ≤ i < so_bucket_block_count o ∧ x = block_addr o b i.
Proof.
  rw /blocks_of list_elem_of_fmap. split; [intros (i & -> & Hi%elem_of_seqZ); exists i; split; [lia|done]|].
  intros (i & Hi & ->). exists i. split; [done|]. apply elem_of_seqZ. lia.
Qed.

Lemma blocks_length o b : obj_ok o → length (blocks_of o b) = Z.to_nat (so_bucket_block_count o).
Proof. intros Ho. by rw /blocks_of length_fmap length_seqZ. Qed.

Lemma blocks_NoDup o b : obj_ok o → placed o b → NoDup (blocks_of o b).
Proof.
  intros Ho Hp. rw /blocks_of. apply NoDup_fmap_2_strong; [|apply NoDup_seqZ]. intros i j Hi%elem_of_seqZ Hj%elem_of_seqZ E.
  destruct (decide (i = j)) as [|Hne]; [done|]. pose proof (block_addr_apart o b i j Ho Hp) as Ha. destruct Ho as [[S1 S2] _ _ _ _ _]. pose proof MAGIC_pos. lia.
Qed.

(** Blocks of different buckets lie apart. *)
Lemma blocks_other o b o' b' x y : obj_ok o → placed o b → obj_ok o' → placed o' b' →
  b + so_bucket_page_count o * PAGE_SIZE ≤ b' ∨ b' + so_bucket_page_count o' * PAGE_SIZE ≤ b →
  x ∈ blocks_of o b → y ∈ blocks_of o' b' → x + so_block_size o ≤ y ∨ y + so_block_size o' ≤ x.
Proof.
  intros Ho Hp Ho' Hp' Ha (i & Hi & ->)%elem_of_blocks (j & Hj & ->)%elem_of_blocks.
  destruct (block_addr_value o b i Ho Hp Hi) as (_ & ? & ?). destruct (block_addr_value o' b' j Ho' Hp' Hj) as (_ & ? & ?). pose proof BUCKET_pos. lia.
Qed.

(** *** The invariant *)

(** The bucket [B] at [b] has the free blocks [fl]. *)
Record bucket_ok O BL (b : Z) B (fl : list Z) : Prop := {
  bo_obj : is_Some (O !! bk_obj B);
  bo_entry : ∀ o, O !! bk_obj B = Some o → bk_entry_count B = so_bucket_block_count o ∧ (∀ x, x ∈ fl → x ∈ blocks_of o b) ∧
    (∀ x, x ∈ blocks_of o b → ∃ m, BL !! x = Some m ∧ mb_bucket m = b);
  bo_avail : bk_avail_count B = Z.of_nat (length fl);
  bo_nodup : NoDup fl;
  bo_chain : chain BL (bk_block B) fl
}.

(** [G b] are the free blocks of the bucket at [b], [Pl i] the partial buckets of
    object [i], and [e] a bucket that is not in its list yet because all its
    blocks are free. *)
Record heap_inv O BK BL A (G : Z → list Z) (Pl : Z → list Z) (e : option Z) : Prop := {
  hi_obj : ∀ i o, O !! i = Some o → obj_ok o;
  hi_bucket : ∀ b B, BK !! b = Some B → bucket_ok O BL b B (G b);
  hi_used : ∀ b B, BK !! b = Some B → e ≠ Some b → Z.of_nat (length (G b)) < bk_entry_count B;
  hi_exempt : ∀ b, e = Some b → ∃ B, BK !! b = Some B ∧ Z.of_nat (length (G b)) = bk_entry_count B;
  hi_block : ∀ x m, BL !! x = Some m → ∃ b B o, BK !! b = Some B ∧ O !! bk_obj B = Some o ∧ x ∈ blocks_of o b;
  hi_alloc : ∀ b n, A !! b = Some n ↔ ∃ B o, BK !! b = Some B ∧ O !! bk_obj B = Some o ∧ n = so_bucket_page_count o;
  hi_partial : ∀ i o, O !! i = Some o → dll BK 0 (so_partial_next o) (Pl i) ∧ NoDup (Pl i) ∧ so_partial_count o = Z.of_nat (length (Pl i));
  hi_members : ∀ i b, is_Some (O !! i) → b ∈ Pl i ↔ e ≠ Some b ∧ ∃ B, BK !! b = Some B ∧ bk_obj B = i ∧ G b ≠ []
}.

(** The structures in use, with their objects. *)
Definition live s (G : Z → list Z) (i p : Z) : Prop :=
  ∃ b B o, sa_buckets s !! b = Some B ∧ bk_obj B = i ∧ sa_objs s !! i = Some o ∧ p - MAGIC_SIZE ∈ blocks_of o b ∧ p - MAGIC_SIZE ∉ G b.

Definition sa_heap s A G Pl e : Prop := heap_inv (sa_objs s) (sa_buckets s) (sa_blocks s) A G Pl e ∧ sa_env_inv (sa_env s) A.

(** Buckets are where the frame allocator put them. *)
Lemma heap_placed s A G Pl e b B o : sa_heap s A G Pl e → sa_buckets s !! b = Some B → sa_objs s !! bk_obj B = Some o → placed o b ∧ obj_ok o.
Proof.
  intros [HI He] HB Ho. split; [|by apply (hi_obj _ _ _ _ _ _ _ HI (bk_obj B))].
  apply (env_range (sa_env s) A); [done|]. apply (hi_alloc _ _ _ _ _ _ _ HI). by exists B, o.
Qed.

Lemma heap_apart s A G Pl e b B o b' B' o' : sa_heap s A G Pl e → sa_buckets s !! b = Some B → sa_objs s !! bk_obj B = Some o →
  sa_buckets s !! b' = Some B' → sa_objs s !! bk_obj B' = Some o' → b ≠ b' →
  b + so_bucket_page_count o * PAGE_SIZE ≤ b' ∨ b' + so_bucket_page_count o' * PAGE_SIZE ≤ b.
Proof.
  intros [HI He] HB Ho HB' Ho' Hne. apply (env_apart (sa_env s) A); try done; apply (hi_alloc _ _ _ _ _ _ _ HI); eauto.
Qed.

(** An address belongs to one bucket only. *)
Lemma block_bucket s A G Pl e b B o b' B' o' x : sa_heap s A G Pl e → sa_buckets s !! b = Some B → sa_objs s !! bk_obj B = Some o →
  sa_buckets s !! b' = Some B' → sa_objs s !! bk_obj B' = Some o' → x ∈ blocks_of o b → x ∈ blocks_of o' b' → b = b'.
Proof.
  intros Hh HB Ho HB' Ho' Hx Hx'. destruct (decide (b = b')) as [|Hne]; [done|].
  destruct (heap_placed _ _ _ _ _ _ _ _ Hh HB Ho) as [Hp Hok]. destruct (heap_placed _ _ _ _ _ _ _ _ Hh HB' Ho') as [Hp' Hok'].
  pose proof (blocks_other o b o' b' x x Hok Hp Hok' Hp' (heap_apart _ _ _ _ _ _ _ _ _ _ _ Hh HB Ho HB' Ho' Hne) Hx Hx').
  destruct Hok as [[S1 S2] _ _ _ _ _], Hok' as [[S1' S2'] _ _ _ _ _]. pose proof MAGIC_pos. lia.
Qed.

(** Structures in use do not overlap: not even their blocks do. *)
Lemma live_apart s A G Pl e i p o j q o' : sa_heap s A G Pl e → live s G i p → live s G j q → p ≠ q →
  sa_objs s !! i = Some o → sa_objs s !! j = Some o' → p + so_struct_size o ≤ q ∨ q + so_struct_size o' ≤ p.
Proof.
  intros Hh (b & B & o0 & HB & <- & Ho & Hx & _) (b' & B' & o0' & HB' & <- & Ho' & Hx' & _) Hne E E'.
  assert (o0 = o) as -> by congruence. assert (o0' = o') as -> by congruence.
  destruct (heap_placed _ _ _ _ _ _ _ _ Hh HB Ho) as [Hp Hok]. destruct (heap_placed _ _ _ _ _ _ _ _ Hh HB' Ho') as [Hp' Hok'].
  assert (p - MAGIC_SIZE + so_block_size o ≤ q - MAGIC_SIZE ∨ q - MAGIC_SIZE + so_block_size o' ≤ p - MAGIC_SIZE) as Ha.
  { destruct (decide (b = b')) as [->|Hbb].
    - assert (B' = B) as -> by congruence. assert (o' = o) as -> by congruence. apply elem_of_blocks in Hx as (m & Hm & Em). apply elem_of_blocks in Hx' as (n & Hn & En).
      rw Em En. apply (block_addr_apart o b' m n); try done. intros ->. lia.
    - exact (blocks_other o b o' b' _ _ Hok Hp Hok' Hp' (heap_apart _ _ _ _ _ _ _ _ _ _ _ Hh HB Ho HB' Ho' Hbb) Hx Hx'). }
  destruct Hok as [[S1 S2] _ _ _ _ _], Hok' as [[S1' S2'] _ _ _ _ _]. pose proof MAGIC_pos. lia.
Qed.

(** *** Changing one bucket *)

(** What never changes of an object. *)
Definition static o : salloc_obj := set_so_counts 0 0 (set_so_lock SPINLOCK_INIT (set_partial 0 0 o)).

Lemma static_fields o o' : static o = static o' →
  so_struct_size o = so_struct_size o' ∧ so_block_size o = so_block_size o' ∧ so_alignment o = so_alignment o' ∧
  so_block_start_offset o = so_block_start_offset o' ∧ so_bucket_page_count o = so_bucket_page_count o' ∧
  so_bucket_block_count o = so_bucket_block_count o' ∧ so_constructor o = so_constructor o' ∧ so_destructor o = so_destructor o'.
Proof. rw /static /set_so_counts /set_so_lock /set_partial /=. by intros [= ]. Qed.

Lemma static_blocks o o' b : static o = static o' → blocks_of o b = blocks_of o' b.
Proof. intros (_ & E1 & _ & E2 & _ & E3 & _)%static_fields. rw /blocks_of E3. apply list_fmap_ext. intros k i _. by rw /block_addr E1 E2. Qed.

Lemma static_ok o o' : static o = static o' → obj_ok o → obj_ok o'.
Proof. intros (E1 & E2 & E3 & E4 & E5 & E6 & _)%static_fields [S T F C P L]. split; by rw -?E1 -?E2 -?E3 -?E4 -?E5 -?E6. Qed.

Definition same_static O O' : Prop := ∀ i, static <$> O' !! i = static <$> O !! i.

Lemma same_static_r O O' i o' : same_static O O' → O' !! i = Some o' → ∃ o, O !! i = Some o ∧ static o = static o'.
Proof. intros Hs Ho'. specialize (Hs i). rw Ho' in Hs. destruct (O !! i) as [o|]; [|done]. apply (inj Some) in Hs. exists o. by split. Qed.

Lemma same_static_l O O' i o : same_static O O' → O !! i = Some o → ∃ o', O' !! i = Some o' ∧ static o = static o'.
Proof. intros Hs Ho. specialize (Hs i). rw Ho in Hs. destruct (O' !! i) as [o'|]; [|done]. apply (inj Some) in Hs. exists o'. by split. Qed.

Lemma alter_static f i O : (∀ o, static (f o) = static o) → same_static O (alter f i O).
Proof.
  intros Hf j. destruct (decide (j = i)) as [->|Hne]; [rw lookup_alter_eq|by rw lookup_alter_ne; [congruence|]].
  destruct (O !! i); [|done]. cbn. by rw Hf.
Qed.

Lemma same_static_trans O1 O2 O3 : same_static O1 O2 → same_static O2 O3 → same_static O1 O3.
Proof. intros S1 S2 i. by rw S2 S1. Qed.

Lemma bdata_fields C C' : bdata C' = bdata C → bk_state C' = bk_state C ∧ bk_obj C' = bk_obj C ∧ bk_entry_count C' = bk_entry_count C ∧
  bk_avail_count C' = bk_avail_count C ∧ bk_block C' = bk_block C.
Proof. rw /bdata. by intros [= ]. Qed.

(** The blocks in [G' b] become the free blocks of the bucket at [b]. *)
Lemma heap_update O BK BL A G Pl e e' O' BK' BL' (G' Pl' : Z → list Z) b B B' o :
  heap_inv O BK BL A G Pl e → BK !! b = Some B → O !! bk_obj B = Some o → (∀ c, e = Some c → c = b) → e' = None ∨ e' = Some b →
  (∀ c C oc y, BK !! c = Some C → O !! bk_obj C = Some oc → c ≠ b → y ∈ blocks_of oc c → y ∉ blocks_of o b) →
  same_static O O' →
  BK' !! b = Some B' → bk_obj B' = bk_obj B → bk_entry_count B' = bk_entry_count B →
  (∀ c, c ≠ b → bdata <$> BK' !! c = bdata <$> BK !! c) →
  (∀ c, c ≠ b → G' c = G c) →
  bk_avail_count B' = Z.of_nat (length (G' b)) → (e' = None → Z.of_nat (length (G' b)) < bk_entry_count B) → (e' = Some b → Z.of_nat (length (G' b)) = bk_entry_count B) → NoDup (G' b) → (∀ x, x ∈ G' b → x ∈ blocks_of o b) →
  chain BL' (bk_block B') (G' b) →
  (∀ y, y ∉ blocks_of o b → BL' !! y = BL !! y) → (∀ y, y ∈ blocks_of o b → ∃ m, BL' !! y = Some m ∧ mb_bucket m = b) →
  (∀ i o', O' !! i = Some o' → dll BK' 0 (so_partial_next o') (Pl' i) ∧ NoDup (Pl' i) ∧ so_partial_count o' = Z.of_nat (length (Pl' i))) →
  (∀ i, i ≠ bk_obj B → Pl' i = Pl i) →
  (∀ c, c ∈ Pl' (bk_obj B) ↔ (c ≠ b ∧ c ∈ Pl (bk_obj B)) ∨ (c = b ∧ e' = None ∧ G' b ≠ [])) →
  heap_inv O' BK' BL' A G' Pl' e'.
Proof.
  intros HI HB Ho He He' Hdisj HO HB' Hobj Hent Hbd HG Hav Hlt Hexm Hnd Hsub Hch Hbl1 Hbl2 Hpart Hpl1 Hpl2.
  assert (∀ c C', BK' !! c = Some C' → c ≠ b → ∃ C, BK !! c = Some C ∧ bdata C' = bdata C) as Hother.
  { intros c C' Hc Hne. specialize (Hbd c Hne). rw Hc in Hbd. destruct (BK !! c) as [C|]; [|done]. apply (inj Some) in Hbd. eauto. }
  assert (∀ c C, BK !! c = Some C → ∃ C', BK' !! c = Some C' ∧ bk_obj C' = bk_obj C) as Hback.
  { intros c C Hc. destruct (decide (c = b)) as [->|Hne]; [exists B'; split; [done|congruence]|]. specialize (Hbd c Hne). rw Hc in Hbd.
    destruct (BK' !! c) as [C'|]; [|done]. apply (inj Some) in Hbd. apply bdata_fields in Hbd as (_ & Eo & _). eauto. }
  split.
  - intros i o' Ho'. destruct (same_static_r _ _ _ _ HO Ho') as (o0 & Ho0 & Es). apply (static_ok _ _ Es). by apply (hi_obj _ _ _ _ _ _ _ HI i).
  - intros c C' Hc. destruct (decide (c = b)) as [->|Hne].
    + assert (C' = B') as -> by congruence. pose proof (hi_bucket _ _ _ _ _ _ _ HI b B HB) as [K1 K2 K3 K4 K5]. destruct (K2 o Ho) as (E1 & _ & _).
      split; [destruct (same_static_l _ _ _ _ HO Ho) as (o' & Ho' & _); rw Hobj; eauto| |done|done|done].
      intros o' Ho'. rw Hobj in Ho'. destruct (same_static_r _ _ _ _ HO Ho') as (o0 & Ho0 & Es). assert (o0 = o) as -> by congruence.
      rw -(static_blocks _ _ b Es). apply static_fields in Es as (_ & _ & _ & _ & _ & Ec & _). split; [congruence|]. done.
    + destruct (Hother c C' Hc Hne) as (C & HC & Ed). apply bdata_fields in Ed as (_ & Eo & Ee & Ea & Eb).
      pose proof (hi_bucket _ _ _ _ _ _ _ HI c C HC) as [[oc K1] K2 K3 K4 K5]. rw (HG c Hne). destruct (K2 oc K1) as (E1 & E2 & E3).
      assert (∀ y, y ∈ blocks_of oc c → BL' !! y = BL !! y) as Hsame by (intros y Hy; apply Hbl1; by apply (Hdisj c C oc)).
      split; [rw Eo; destruct (same_static_l _ _ _ _ HO K1) as (o' & Ho' & _); eauto| |congruence|done|].
      * intros o' Ho'. rw Eo in Ho'. destruct (same_static_r _ _ _ _ HO Ho') as (o0 & Ho0 & Es). assert (o0 = oc) as -> by congruence.
        rw -(static_blocks _ _ c Es). apply static_fields in Es as (_ & _ & _ & _ & _ & Ec & _). split; [congruence|]. split; [done|].
        intros x Hx. rw Hsame //. by apply E3.
      * rw Eb. eapply block_chain_frame; [|exact K5]. intros y Hy. apply Hsame. by apply E2.
  - intros c C' Hc Hec. destruct (decide (c = b)) as [->|Hne]; [assert (C' = B') as -> by congruence; destruct He' as [E|E]; [specialize (Hlt E); lia|done]|].
    destruct (Hother c C' Hc Hne) as (C & HC & Ed). apply bdata_fields in Ed as (_ & _ & Ee & _). rw (HG c Hne) Ee. apply (hi_used _ _ _ _ _ _ _ HI c C HC).
    intros E. apply Hne. by apply He.
  - intros c Hc. destruct He' as [E|E]; [congruence|]. assert (c = b) as -> by congruence. exists B'. split; [done|]. rw Hent. by apply Hexm.
  - intros x m Hx. assert (is_Some (BL !! x) ∨ x ∈ blocks_of o b) as [[m' Hm']|Hin].
    { destruct (decide (x ∈ blocks_of o b)); [by right|]. left. rw -Hbl1; [done|]. rw Hx. done. }
    + destruct (hi_block _ _ _ _ _ _ _ HI x m' Hm') as (c & C & oc & HC & Hoc & Hin). destruct (Hback c C HC) as (C' & HC' & Eo).
      destruct (same_static_l _ _ _ _ HO Hoc) as (o' & Ho' & Es). exists c, C', o'. rw Eo -(static_blocks _ _ c Es). done.
    + destruct (same_static_l _ _ _ _ HO Ho) as (o' & Ho' & Es). exists b, B', o'. rw Hobj -(static_blocks _ _ b Es). done.
  - intros c n. rw (hi_alloc _ _ _ _ _ _ _ HI). split.
    + intros (C & oc & HC & Hoc & ->). destruct (Hback c C HC) as (C' & HC' & Eo). destruct (same_static_l _ _ _ _ HO Hoc) as (o' & Ho' & Es).
      exists C', o'. rw Eo. apply static_fields in Es as (_ & _ & _ & _ & Ec & _). done.
    + intros (C' & o' & HC' & Ho' & ->). assert (∃ C, BK !! c = Some C ∧ bk_obj C' = bk_obj C) as (C & HC & Eo).
      { destruct (decide (c = b)) as [->|Hne]; [exists B; split; [done|congruence]|]. destruct (Hother c C' HC' Hne) as (C & HC & Ed). apply bdata_fields in Ed as (_ & Eo & _). eauto. }
      rw Eo in Ho'. destruct (same_static_r _ _ _ _ HO Ho') as (oc & Hoc & Es). exists C, oc. apply static_fields in Es as (_ & _ & _ & _ & Ec & _). done.
  - done.
  - intros i c [o' Ho']. destruct (same_static_r _ _ _ _ HO Ho') as (oi & Hoi & _).
    assert (c ≠ b → (∃ C', BK' !! c = Some C' ∧ bk_obj C' = i ∧ G' c ≠ []) ↔ (∃ C, BK !! c = Some C ∧ bk_obj C = i ∧ G c ≠ [])) as Hc.
    { intros Hne. rw (HG c Hne). split.
      - intros (C' & HC' & Hi & Hg). destruct (Hother c C' HC' Hne) as (C & HC & Ed). apply bdata_fields in Ed as (_ & Eo & _). exists C. split; [done|]. split; [congruence|done].
      - intros (C & HC & Hi & Hg). destruct (Hback c C HC) as (C' & HC' & Eo). exists C'. split; [done|]. split; [congruence|done]. }
    pose proof (hi_members _ _ _ _ _ _ _ HI i c ltac:(eauto)) as Hmem. destruct (decide (i = bk_obj B)) as [->|Hni].
    + rw Hpl2. destruct (decide (c = b)) as [->|Hne].
      * split; [intros [[? _]|(_ & E & Hg)]; [done|]|]; [split; [congruence|]; by exists B'|]. intros [E (C' & HC' & _ & Hg)]. right.
        split; [done|]. split; [by destruct He'|done].
      * rw Hmem (Hc Hne). assert (e ≠ Some c) by (intros E; by apply Hne, He). assert (e' ≠ Some c) by (destruct He' as [->| ->]; congruence). split; [intros [[_ [_ ?]]|[? _]]; [by split|done]|]. intros [_ ?]. left. done.
    + rw (Hpl1 i Hni). destruct (decide (c = b)) as [->|Hne].
      * rw Hmem. split; [intros [_ (C & HC & Hi & _)]; congruence|intros [_ (C & HC & Hi & _)]; congruence].
      * rw Hmem (Hc Hne). assert (e ≠ Some c) by (intros E; by apply Hne, He). assert (e' ≠ Some c) by (destruct He' as [->| ->]; congruence). tauto.
Qed.

(** Locks and counters of the objects play no part in the invariant. *)
Definition core o : salloc_obj := set_so_counts 0 0 (set_so_lock SPINLOCK_INIT o).
Definition same_core O O' : Prop := ∀ i, core <$> O' !! i = core <$> O !! i.

Lemma core_static o o' : core o = core o' → static o = static o' ∧ so_partial_next o = so_partial_next o' ∧ so_partial_count o = so_partial_count o'.
Proof. rw /core /static /set_so_counts /set_so_lock /set_partial /=. intros [= ]. by repeat (split; [congruence|]). Qed.

Lemma alter_core f i O : (∀ o, core (f o) = core o) → same_core O (alter f i O).
Proof.
  intros Hf j. destruct (decide (j = i)) as [->|Hne]; [rw lookup_alter_eq|by rw lookup_alter_ne; [congruence|]].
  destruct (O !! i); [|done]. cbn. by rw Hf.
Qed.

Lemma same_core_r O O' i o' : same_core O O' → O' !! i = Some o' → ∃ o, O !! i = Some o ∧ core o = core o'.
Proof. intros Hs Ho'. specialize (Hs i). rw Ho' in Hs. destruct (O !! i) as [o|]; [|done]. apply (inj Some) in Hs. exists o. by split. Qed.

Lemma same_core_l O O' i o : same_core O O' → O !! i = Some o → ∃ o', O' !! i = Some o' ∧ core o = core o'.
Proof. intros Hs Ho. specialize (Hs i). rw Ho in Hs. destruct (O' !! i) as [o'|]; [|done]. apply (inj Some) in Hs. exists o'. by split. Qed.

Lemma bucket_ok_core O O' BL b B fl : same_core O O' → bucket_ok O BL b B fl → bucket_ok O' BL b B fl.
Proof.
  intros HO [[o K1] K2 K3 K4 K5]. split; [destruct (same_core_l _ _ _ _ HO K1) as (o' & -> & _); eauto| |done..].
  intros o' Ho'. destruct (same_core_r _ _ _ _ HO Ho') as (o0 & Ho0 & [Es _]%core_static). rw -(static_blocks _ _ b Es).
  apply static_fields in Es as (_ & _ & _ & _ & _ & <- & _). auto.
Qed.

Lemma heap_core O O' BK BL A G Pl e : same_core O O' → heap_inv O BK BL A G Pl e → heap_inv O' BK BL A G Pl e.
Proof.
  intros HO [I1 I2 I3 I4 I5 I6 I7 I8]. split; [| |done|done| | | |].
  - intros i o' Ho'. destruct (same_core_r _ _ _ _ HO Ho') as (o & Ho & [Es _]%core_static). eapply static_ok; eauto.
  - intros b B HB. eapply bucket_ok_core; eauto.
  - intros x m Hx. destruct (I5 x m Hx) as (b & B & o & HB & Ho & Hb). destruct (same_core_l _ _ _ _ HO Ho) as (o' & Ho' & [Es _]%core_static).
    exists b, B, o'. by rw -(static_blocks _ _ b Es).
  - intros b n. rw I6. split; intros (B & o & HB & Ho & ->).
    + destruct (same_core_l _ _ _ _ HO Ho) as (o' & Ho' & [Es _]%core_static). exists B, o'. by apply static_fields in Es as (_ & _ & _ & _ & -> & _).
    + destruct (same_core_r _ _ _ _ HO Ho) as (o' & Ho' & [Es _]%core_static). exists B, o'. by apply static_fields in Es as (_ & _ & _ & _ & -> & _).
  - intros i o' Ho'. destruct (same_core_r _ _ _ _ HO Ho') as (o & Ho & (_ & <- & <-)%core_static). auto.
  - intros i b [o' Ho']. destruct (same_core_r _ _ _ _ HO Ho') as (o & Ho & _). apply I8. eauto.
Qed.

(** *** A new bucket *)

Definition gset_at (b : Z) (l : list Z) (G : Z → list Z) : Z → list Z := λ c, if decide (c = b) then l else G c.

Lemma gset_same b l G : gset_at b l G b = l.
Proof. rw /gset_at. by rw decide_True. Qed.
Lemma gset_other b l G c : c ≠ b → gset_at b l G c = G c.
Proof. intros Hne. rw /gset_at. by rw decide_False. Qed.

(** Only buckets of the heap are allocated. *)
Lemma heap_fresh O BK BL A G Pl e b : heap_inv O BK BL A G Pl e → A !! b = None ↔ BK !! b = None.
Proof.
  intros HI. split; intros Hn.
  - destruct (BK !! b) as [B|] eqn:HB; [|done]. destruct (bo_obj _ _ _ _ _ (hi_bucket _ _ _ _ _ _ _ HI b B HB)) as [o Ho].
    pose proof (proj2 (hi_alloc _ _ _ _ _ _ _ HI b _) (ex_intro _ B (ex_intro _ o (conj HB (conj Ho eq_refl))))). congruence.
  - destruct (A !! b) as [n|] eqn:HA; [|done]. apply (hi_alloc _ _ _ _ _ _ _ HI) in HA as (B & _ & HB & _). congruence.
Qed.

Lemma heap_add O BK BL A G Pl i o b B BL' fl : heap_inv O BK BL A G Pl None → O !! i = Some o → BK !! b = None → bk_obj B = i →
  (∀ c C oc y, BK !! c = Some C → O !! bk_obj C = Some oc → y ∈ blocks_of oc c → y ∉ blocks_of o b) →
  (∀ y, y ∉ blocks_of o b → BL' !! y = BL !! y) →
  bucket_ok O BL' b B fl → Z.of_nat (length fl) = bk_entry_count B →
  heap_inv O (<[b := B]> BK) BL' (<[b := so_bucket_page_count o]> A) (gset_at b fl G) Pl (Some b).
Proof.
  intros HI Ho Hb <- Hdisj Hbl HB Hlen.
  assert (∀ c C, c ≠ b → (<[b := B]> BK) !! c = Some C → BK !! c = Some C) as Hother.
  { intros c C Hne. by rw lookup_insert_ne; [congruence|]. }
  assert (∀ c C, BK !! c = Some C → c ≠ b ∧ (<[b := B]> BK) !! c = Some C) as Hback.
  { intros c C Hc. assert (c ≠ b) by congruence. split; [done|]. by rw lookup_insert_ne; [congruence|]. }
  split.
  - apply (hi_obj _ _ _ _ _ _ _ HI).
  - intros c C Hc. destruct (decide (c = b)) as [->|Hne]; [rw lookup_insert_eq in Hc; injection Hc as <-; by rw gset_same|].
    apply Hother in Hc; [|done]. rw gset_other; [done|]. destruct (hi_bucket _ _ _ _ _ _ _ HI c C Hc) as [[oc K1] K2 K3 K4 K5].
    destruct (K2 oc K1) as (E1 & E2 & E3). split; [eauto| |done|done|].
    + intros o' Ho'. assert (o' = oc) as -> by congruence. split; [done|]. split; [done|]. intros x Hx. rw Hbl; [by apply (Hdisj c C oc)|]. auto.
    + eapply block_chain_frame; [|exact K5]. intros y Hy. apply Hbl. apply (Hdisj c C oc); auto.
  - intros c C Hc Hne. assert (c ≠ b) by congruence. apply Hother in Hc; [|done]. rw gset_other; [done|]. by apply (hi_used _ _ _ _ _ _ _ HI).
  - intros c [= <-]. exists B. by rw gset_same lookup_insert_eq.
  - intros x m Hx. destruct (decide (x ∈ blocks_of o b)) as [Hin|Hin]; [exists b, B, o; by rw lookup_insert_eq|]. rw Hbl in Hx; [done|].
    destruct (hi_block _ _ _ _ _ _ _ HI x m Hx) as (c & C & oc & HC & Hoc & Hin'). exists c, C, oc. by destruct (Hback c C HC).
  - intros c n. destruct (decide (c = b)) as [->|Hne].
    + rw !lookup_insert_eq. split; [intros [= <-]; by exists B, o|]. intros (? & ? & [= <-] & ? & ->). f_equal. congruence.
    + rw !lookup_insert_ne; [congruence..|]. apply (hi_alloc _ _ _ _ _ _ _ HI).
  - intros i o' Ho'. destruct (hi_partial _ _ _ _ _ _ _ HI i o' Ho') as (D1 & D2 & D3). split; [|done].
    eapply dll_frame; [|exact D1]. intros y Hy. destruct (dll_member _ _ _ _ _ D1 Hy) as [Y HY]. rw HY. by rw (proj2 (Hback y Y HY)).
  - intros i c Hi. rw (hi_members _ _ _ _ _ _ _ HI i c Hi). split.
    + intros [_ (C & HC & Hi' & Hg)]. destruct (Hback c C HC) as [Hne HC']. split; [congruence|]. exists C. by rw gset_other.
    + intros [Hne (C & HC & Hi' & Hg)]. assert (c ≠ b) by congruence. rw gset_other in Hg; [done|]. apply Hother in HC; [|done]. split; [done|]. by exists C.
Qed.

(** *** A bucket goes back *)

Lemma heap_drop O BK BL A G Pl b B o BL' : heap_inv O BK BL A G Pl (Some b) → BK !! b = Some B → O !! bk_obj B = Some o →
  (∀ c C oc y, BK !! c = Some C → O !! bk_obj C = Some oc → c ≠ b → y ∈ blocks_of oc c → y ∉ blocks_of o b) →
  (∀ y, y ∉ blocks_of o b → BL' !! y = BL !! y) → (∀ y, y ∈ blocks_of o b → BL' !! y = None) →
  heap_inv O (delete b BK) BL' (delete b A) G Pl None.
Proof.
  intros HI HB Ho Hdisj Hbl1 Hbl2.
  assert (∀ c C, delete b BK !! c = Some C → c ≠ b ∧ BK !! c = Some C) as Hother by (intros c C [Hn ?]%lookup_delete_Some; split; [congruence|done]).
  assert (∀ c C, c ≠ b → BK !! c = Some C → delete b BK !! c = Some C) as Hback by (intros c C Hne Hc; rw lookup_delete_ne; [congruence|done]).
  split.
  - apply (hi_obj _ _ _ _ _ _ _ HI).
  - intros c C [Hne Hc]%Hother. destruct (hi_bucket _ _ _ _ _ _ _ HI c C Hc) as [[oc K1] K2 K3 K4 K5].
    destruct (K2 oc K1) as (E1 & E2 & E3). split; [eauto| |done|done|].
    + intros o' Ho'. assert (o' = oc) as -> by congruence. split; [done|]. split; [done|]. intros x Hx. rw Hbl1; [by apply (Hdisj c C oc)|]. auto.
    + eapply block_chain_frame; [|exact K5]. intros y Hy. apply Hbl1. apply (Hdisj c C oc); auto.
  - intros c C [Hne Hc]%Hother _. apply (hi_used _ _ _ _ _ _ _ HI); [done|congruence].
  - done.
  - intros x m Hx. destruct (decide (x ∈ blocks_of o b)) as [Hin|Hin]; [rw Hbl2 in Hx; done|]. rw Hbl1 in Hx; [done|].
    destruct (hi_block _ _ _ _ _ _ _ HI x m Hx) as (c & C & oc & HC & Hoc & Hin'). exists c, C, oc. split; [|done]. apply Hback; [|done].
    intros ->. apply Hin. congruence.
  - intros c n. destruct (decide (c = b)) as [->|Hne].
    + rw !lookup_delete_eq. split; [done|]. by intros (? & ? & ? & _).
    + rw !lookup_delete_ne; [congruence..|]. apply (hi_alloc _ _ _ _ _ _ _ HI).
  - intros i o' Ho'. destruct (hi_partial _ _ _ _ _ _ _ HI i o' Ho') as (D1 & D2 & D3). split; [|done].
    eapply dll_frame; [|exact D1]. intros y Hy. rw lookup_delete_ne; [|done].
    apply (hi_members _ _ _ _ _ _ _ HI i y) in Hy as [Hy _]; [congruence|eauto].
  - intros i c Hi. rw (hi_members _ _ _ _ _ _ _ HI i c Hi). split.
    + intros [Hne (C & HC & Hi' & Hg)]. split; [done|]. exists C. split; [|done]. apply Hback; [congruence|done].
    + intros [_ (C & [Hne HC]%Hother & Hi' & Hg)]. split; [congruence|]. by exists C.
Qed.

(** *** The lists of partial buckets *)

Definition bounded BK : Prop := ∀ c C, BK !! c = Some C → 0 < c < 2 ^ ARCH_WIDTH.

Lemma heap_bounded s A G Pl e : sa_heap s A G Pl e → bounded (sa_buckets s).
Proof.
  intros Hh c C Hc. destruct Hh as [HI He]. destruct (bo_obj _ _ _ _ _ (hi_bucket _ _ _ _ _ _ _ HI c C Hc)) as [o Ho].
  destruct (heap_placed s A G Pl e c C o (conj HI He) Hc Ho) as [(P1 & P2 & _) Hok]. pose proof (ok_pages _ Hok). pose proof PAGE_SIZE_pos. nia.
Qed.

Lemma bounded_length (l : list Z) n : 0 < n → NoDup l → (∀ x, x ∈ l → 0 < x < n) → Z.of_nat (length l) < n.
Proof.
  intros Hn Hnd Hl. assert (length l ≤ length (seqZ 1 (n - 1)))%nat as Hle.
  { apply submseteq_length, NoDup_submseteq; [done|]. intros x Hx. apply elem_of_seqZ. apply Hl in Hx. lia. }
  rw length_seqZ in Hle. lia.
Qed.

Lemma pow_width_pos : 0 < 2 ^ ARCH_WIDTH.
Proof. by destruct arch_width_cases as [-> | ->]. Qed.

Lemma partial_bounded O BK BL A G Pl e i : bounded BK → heap_inv O BK BL A G Pl e → is_Some (O !! i) → ∀ c, c ∈ Pl i → 0 < c < 2 ^ ARCH_WIDTH.
Proof. intros Hb HI Hi c Hc. apply (hi_members _ _ _ _ _ _ _ HI i c Hi) in Hc as [_ (C & HC & _)]. eauto. Qed.

(** Partial buckets of other objects are other buckets. *)
Lemma partial_other O BK BL A G Pl e i j c : heap_inv O BK BL A G Pl e → is_Some (O !! i) → is_Some (O !! j) → c ∈ Pl i → c ∈ Pl j → i = j.
Proof.
  intros HI Hi Hj (_ & C & HC & <- & _)%(hi_members _ _ _ _ _ _ _ HI i c Hi) (_ & C' & HC' & <- & _)%(hi_members _ _ _ _ _ _ _ HI j c Hj). congruence.
Qed.

(** What the lists of partial buckets have to be. *)
Definition lists_ok O BK (Pl : Z → list Z) : Prop :=
  ∀ i o, O !! i = Some o → dll BK 0 (so_partial_next o) (Pl i) ∧ NoDup (Pl i) ∧ so_partial_count o = Z.of_nat (length (Pl i)).

Lemma lists_keep O BK Pl f b : (∀ B, links (f B) = links B) → lists_ok O BK Pl → lists_ok O (alter f b BK) Pl.
Proof.
  intros Hf HL i o Ho. destruct (HL i o Ho) as [D1 D2]. split; [|done]. eapply dll_frame; [|exact D1]. intros y _.
  destruct (decide (y = b)) as [->|Hne]; [rw lookup_alter_eq|by rw lookup_alter_ne; [congruence|]]. destruct (BK !! b); [|done]. cbn. by rw Hf.
Qed.

Lemma link_front_other h b BK c : c ≠ b → c ≠ h → link_front h b BK !! c = BK !! c.
Proof. intros N1 N2. rw /link_front. destruct (ctrue h); rw !lookup_alter_ne //; congruence. Qed.

Lemma lists_front O BK Pl obj o b : lists_ok O BK Pl → O !! obj = Some o → is_Some (BK !! b) → bounded BK →
  (∀ i c, is_Some (O !! i) → i ≠ obj → c ∈ Pl i → c ≠ b ∧ c ∉ Pl obj) → b ∉ Pl obj → (∀ c, c ∈ Pl obj → is_Some (BK !! c)) →
  lists_ok (alter (λ o, set_partial b (ulong (so_partial_count o + 1)) o) obj O) (link_front (so_partial_next o) b BK) (gset_at obj (b :: Pl obj) Pl).
Proof.
  intros HL Ho Hb Hbd Hoth Hnin Hmem. destruct (HL obj o Ho) as (D1 & D2 & D3).
  assert (∀ c, c ∈ b :: Pl obj → 0 < c < 2 ^ ARCH_WIDTH) as Hpos.
  { intros c [->|Hc]%elem_of_cons; [destruct Hb as [B HB]; by apply (Hbd b B)|]. destruct (Hmem c Hc) as [C HC]. by apply (Hbd c C). }
  assert (NoDup (b :: Pl obj)) as Hnd by by apply NoDup_cons. intros i o'. destruct (decide (i = obj)) as [->|Hne].
  - rw lookup_alter_eq Ho gset_same. intros [= <-]. cbn -[dll length]. split; [|split; [done|]].
    + apply dll_link_front; try done. intros y Hy. assert (0 < y < 2 ^ ARCH_WIDTH); [|lia]. apply Hpos. by right.
    + pose proof (bounded_length _ _ pow_width_pos Hnd Hpos) as Hlt. rw wrap_small; rw D3; cbn [length] in *; [rw /uint|]; lia.
  - rw lookup_alter_ne; [congruence|]. intros Ho'. destruct (HL i o' Ho') as (E1 & E2). rw gset_other; [done|]. split; [|done].
    eapply dll_frame; [|exact E1]. intros y Hy. destruct (Hoth i y ltac:(eauto) Hne Hy) as [N1 N2]. rw link_front_other //.
    intros ->. destruct (Pl obj) as [|z l]; [|destruct D1 as [E _]; apply N2; rw E; by left].
    cbn in D1. rw D1 in Hy. destruct (dll_member _ _ _ _ _ E1 Hy) as [C HC]. apply Hbd in HC. lia.
Qed.

Lemma dll_prev_mem BK p x l1 b l2 B : dll BK p x (l1 ++ b :: l2) → NoDup (l1 ++ b :: l2) → (∀ y, y ∈ l1 ++ b :: l2 → y ≠ 0) → BK !! b = Some B →
  (p ≠ 0 → p ∉ l1 ++ b :: l2) → (bk_prev B = p ∧ l1 = [] ∨ bk_prev B ∈ l1 ∧ l1 ≠ []) ∧ (bk_next B = 0 ∨ bk_next B ∈ l2).
Proof.
  intros Hd Hnd Hnz HB Hp. rw (dll_next _ _ _ _ _ _ _ Hd HB). destruct (dll_unlink _ _ _ _ _ _ _ Hd Hnd Hnz HB Hp) as [-> _]. split.
  - destruct l1 as [|y l1]; [by left|]. right. split; [apply last_mem|done].
  - destruct l2; [by left|]. right. by left.
Qed.

Lemma lists_remove O BK Pl obj o b B l1 l2 : lists_ok O BK Pl → O !! obj = Some o → BK !! b = Some B → bounded BK →
  (∀ i c, is_Some (O !! i) → i ≠ obj → c ∈ Pl i → c ∉ Pl obj) → Pl obj = l1 ++ b :: l2 → (∀ c, c ∈ Pl obj → is_Some (BK !! c)) →
  lists_ok (alter (without B) obj O) (unlink B BK) (gset_at obj (l1 ++ l2) Pl) ∧
  (bk_prev B ≠ 0 → is_Some (BK !! bk_prev B)) ∧ (bk_next B ≠ 0 → is_Some (BK !! bk_next B)).
Proof.
  intros HL Ho HB Hbd Hoth El Hmem. destruct (HL obj o Ho) as (D1 & D2 & D3). rw El in D1 D2 D3 Hoth Hmem.
  assert (∀ c, c ∈ l1 ++ b :: l2 → 0 < c < 2 ^ ARCH_WIDTH) as Hpos by (intros c Hc; destruct (Hmem c Hc) as [C HC]; by apply (Hbd c C)).
  assert (∀ c, c ∈ l1 ++ b :: l2 → c ≠ 0) as Hnz by (intros c Hc; apply Hpos in Hc; lia).
  destruct (dll_unlink _ _ _ _ _ _ _ D1 D2 Hnz HB ltac:(done)) as [_ Hd].
  destruct (dll_prev_mem _ _ _ _ _ _ _ D1 D2 Hnz HB ltac:(done)) as [Hprev Hnext].
  assert (bk_prev B ≠ 0 → bk_prev B ∈ l1 ++ b :: l2) as Hp1 by (intros ?; destruct Hprev as [[? _]|[? _]]; [done|set_solver]).
  assert (bk_next B ≠ 0 → bk_next B ∈ l1 ++ b :: l2) as Hn1 by (intros ?; destruct Hnext as [?|?]; [done|set_solver]).
  split; [|split; auto]. intros i o'. destruct (decide (i = obj)) as [->|Hne].
  - rw lookup_alter_eq Ho gset_same. intros [= <-]. rw /without /set_partial; cbn [so_partial_next so_partial_count]. split; [|split].
    + destruct Hprev as [[Hp Hl1]|[Hp Hl1]].
      * rw (ctrue_0 _ Hp). by rw Hl1 in Hd |- *.
      * rw (proj2 (ctrue_ne (bk_prev B))); [apply Hnz; set_solver|]. by destruct l1.
    + apply NoDup_app in D2 as (N1 & N2 & [N3 N4]%NoDup_cons). apply NoDup_app. split; [done|]. split; [|done]. set_solver.
    + pose proof (bounded_length _ _ pow_width_pos D2 Hpos) as Hlt. rw !length_app /= in D3 Hlt |- *. rw wrap_small; rw D3; [rw /uint|]; lia.
  - rw lookup_alter_ne; [congruence|]. intros Ho'. destruct (HL i o' Ho') as (E1 & E2). rw gset_other; [done|]. split; [|done].
    eapply dll_frame; [|exact E1]. intros y Hy. pose proof (Hoth i y ltac:(eauto) Hne Hy) as N.
    assert (y ≠ 0). { destruct (dll_member _ _ _ _ _ E1 Hy) as [C HC]. apply Hbd in HC. lia. }
    rw unlink_lookup_ne; [| |done]; intros ->; auto.
Qed.

(** *** One block of a bucket *)

Lemma heap_alter O BK BL A G Pl e e' O' BK' f g Pl' b B o x l :
  heap_inv O BK BL A G Pl e → BK !! b = Some B → O !! bk_obj B = Some o → (∀ c, e = Some c → c = b) → e' = None ∨ e' = Some b →
  (∀ c C oc y, BK !! c = Some C → O !! bk_obj C = Some oc → c ≠ b → y ∈ blocks_of oc c → y ∉ blocks_of o b) →
  same_static O O' → same_bdata (alter f b BK) BK' →
  bk_obj (f B) = bk_obj B → bk_entry_count (f B) = bk_entry_count B → bk_avail_count (f B) = Z.of_nat (length l) →
  (e' = None → Z.of_nat (length l) < bk_entry_count B) → (e' = Some b → Z.of_nat (length l) = bk_entry_count B) →
  NoDup l → (∀ y, y ∈ l → y ∈ blocks_of o b) → x ∈ blocks_of o b → (∀ m, mb_bucket m = b → mb_bucket (g m) = b) →
  chain (alter g x BL) (bk_block (f B)) l → lists_ok O' BK' Pl' → (∀ i, i ≠ bk_obj B → Pl' i = Pl i) →
  (∀ c, c ∈ Pl' (bk_obj B) ↔ (c ≠ b ∧ c ∈ Pl (bk_obj B)) ∨ (c = b ∧ e' = None ∧ l ≠ [])) →
  heap_inv O' BK' (alter g x BL) A (gset_at b l G) Pl' e'.
Proof.
  intros HI HB Ho He He' Hdisj HO HBK Hobj Hent Hav Hlt Heq Hnd Hsub Hx Hg Hch HL Hpl1 Hpl2.
  pose proof (HBK b) as Hb. rw lookup_alter_eq HB in Hb. destruct (BK' !! b) as [B'|] eqn:HB'; [|done].
  apply (inj Some) in Hb. apply bdata_fields in Hb as (_ & F1 & F2 & F3 & F4).
  eapply (heap_update O BK BL A G Pl e e' O' BK' _ (gset_at b l G) Pl' b B B' o); try done; rw ?gset_same; try done; try congruence.
  - intros c Hne. rw (HBK c) lookup_alter_ne; [congruence|done].
  - intros c Hne. by rw gset_other.
  - intros y Hy. rw lookup_alter_ne; [|done]. by intros ->.
  - intros y Hy. destruct (bo_entry _ _ _ _ _ (hi_bucket _ _ _ _ _ _ _ HI b B HB) o Ho) as (_ & _ & Hm). destruct (Hm y Hy) as (m & Hm1 & Hm2).
    destruct (decide (y = x)) as [->|Hne]; [rw lookup_alter_eq Hm1; exists (g m); split; [done|auto]|rw lookup_alter_ne; [congruence|]; eauto].
Qed.

(** What no operation on the heap touches. *)
Record frame s s' : Prop := {
  fr_int : sa_int s' = sa_int s;
  fr_lock : ∀ i, so_lock <$> sa_objs s' !! i = so_lock <$> sa_objs s !! i;
  fr_static : same_static (sa_objs s) (sa_objs s')
}.

Lemma frame_trans s1 s2 s3 : frame s1 s2 → frame s2 s3 → frame s1 s3.
Proof. intros [A1 A2 A3] [B1 B2 B3]. split; [congruence|intros i; by rw B2|by eapply same_static_trans]. Qed.

Lemma frame_alter f i s s' : sa_int s' = sa_int s → sa_objs s' = alter f i (sa_objs s) → (∀ o, so_lock (f o) = so_lock o) → (∀ o, static (f o) = static o) → frame s s'.
Proof.
  intros Hi Ho Hl Hs. split; [done| |rw Ho; by apply alter_static]. intros j. rw Ho.
  destruct (decide (j = i)) as [->|Hne]; [rw lookup_alter_eq|by rw lookup_alter_ne; [congruence|]]. destruct (sa_objs s !! i); [|done]. cbn. by rw Hl.
Qed.

Lemma frame_refl s s' : sa_int s' = sa_int s → sa_objs s' = sa_objs s → frame s s'.
Proof. intros Hi Ho. split; [done|by rw Ho|intros i; by rw Ho]. Qed.

(** *** Structures in use *)

Definition same_owner BK BK' : Prop := ∀ c, bk_obj <$> BK' !! c = bk_obj <$> BK !! c.

Lemma bdata_owner BK BK' : same_bdata BK BK' → same_owner BK BK'.
Proof.
  intros Hs c. specialize (Hs c). destruct (BK !! c), (BK' !! c); try done. apply (inj Some) in Hs. apply bdata_fields in Hs as (_ & E & _). cbn. by rw E.
Qed.

Lemma alter_owner f b BK BK' : (∀ B, bk_obj (f B) = bk_obj B) → same_owner (alter f b BK) BK' → same_owner BK BK'.
Proof.
  intros Hf Hs c. rw Hs. destruct (decide (c = b)) as [->|Hne]; [rw lookup_alter_eq|by rw lookup_alter_ne; [congruence|]].
  destruct (BK !! b); [|done]. cbn. by rw Hf.
Qed.

Lemma live_owner s s' G i p : same_static (sa_objs s) (sa_objs s') → same_owner (sa_buckets s) (sa_buckets s') → live s G i p → live s' G i p.
Proof.
  intros HO HB (b & B & o & Hb & Hi & Ho & Hp & Hg). specialize (HB b). rw Hb in HB. destruct (sa_buckets s' !! b) as [B'|] eqn:Hb'; [|done].
  apply (inj Some) in HB. destruct (same_static_l _ _ _ _ HO Ho) as (o' & Ho' & Es). exists b, B', o'. rw -(static_blocks _ _ b Es). by rw HB.
Qed.

Lemma same_static_sym O O' : same_static O O' → same_static O' O.
Proof. by intros Hs i. Qed.
Lemma same_owner_sym BK BK' : same_owner BK BK' → same_owner BK' BK.
Proof. by intros Hs i. Qed.

Lemma live_same s s' G i p : same_static (sa_objs s) (sa_objs s') → same_owner (sa_buckets s) (sa_buckets s') → live s' G i p ↔ live s G i p.
Proof. intros HO HB. split; apply live_owner; auto using same_static_sym, same_owner_sym. Qed.

Lemma live_take s A G Pl e b B o x fl i p : sa_heap s A G Pl e → sa_buckets s !! b = Some B → sa_objs s !! bk_obj B = Some o → G b = x :: fl →
  live s (gset_at b fl G) i p ↔ live s G i p ∨ (i = bk_obj B ∧ p = x + MAGIC_SIZE).
Proof.
  intros [HI _] HB Ho HG. destruct (hi_bucket _ _ _ _ _ _ _ HI b B HB) as [_ K2 _ K4 _]. rw HG in K2 K4.
  apply NoDup_cons in K4 as [Hx _]. destruct (K2 o Ho) as (_ & Hin & _). specialize (Hin x ltac:(left)). split.
  - intros (c & C & oc & HC & <- & Hoc & Hp & Hn). destruct (decide (c = b)) as [->|Hne].
    + rw gset_same in Hn. assert (C = B) as -> by congruence. assert (oc = o) as -> by congruence.
      destruct (decide (p - MAGIC_SIZE = x)) as [<-|Hpx]; [right; split; [done|lia]|]. left. exists b, B, o. rw HG. repeat (split; [done|]). set_solver.
    + left. rw gset_other in Hn; [done|]. by exists c, C, oc.
  - intros [(c & C & oc & HC & <- & Hoc & Hp & Hn)|[-> ->]].
    + exists c, C, oc. repeat (split; [done|]). destruct (decide (c = b)) as [->|Hne]; [rw gset_same; rw HG in Hn; set_solver|by rw gset_other].
    + exists b, B, o. repeat (split; [done|]). replace (x + MAGIC_SIZE - MAGIC_SIZE) with x by lia. by rw gset_same.
Qed.

Lemma live_put s A G Pl e b B o x i p : sa_heap s A G Pl e → sa_buckets s !! b = Some B → sa_objs s !! bk_obj B = Some o → x ∈ blocks_of o b →
  live s (gset_at b (x :: G b) G) i p ↔ live s G i p ∧ p ≠ x + MAGIC_SIZE.
Proof.
  intros Hh HB Ho Hx. split.
  - intros (c & C & oc & HC & <- & Hoc & Hp & Hn). destruct (decide (c = b)) as [->|Hne].
    + rw gset_same in Hn. apply not_elem_of_cons in Hn as [Hn1 Hn2]. split; [by exists b, C, oc|lia].
    + rw gset_other in Hn; [done|]. split; [by exists c, C, oc|]. intros ->. apply Hne. replace (x + MAGIC_SIZE - MAGIC_SIZE) with x in Hp by lia.
      by apply (block_bucket s A G Pl e c C oc b B o x).
  - intros [(c & C & oc & HC & <- & Hoc & Hp & Hn) Hpx]. exists c, C, oc. repeat (split; [done|]).
    destruct (decide (c = b)) as [->|Hne]; [rw gset_same; apply not_elem_of_cons; split; [lia|done]|by rw gset_other].
Qed.

(** A bucket outside its list has no structure in use. *)
Lemma exempt_free s A G Pl b B o x : sa_heap s A G Pl (Some b) → sa_buckets s !! b = Some B → sa_objs s !! bk_obj B = Some o → x ∈ blocks_of o b → x ∈ G b.
Proof.
  intros [HI _] HB Ho Hx. destruct (hi_bucket _ _ _ _ _ _ _ HI b B HB) as [_ K2 _ K4 _]. destruct (K2 o Ho) as (E1 & E2 & _).
  destruct (hi_exempt _ _ _ _ _ _ _ HI b eq_refl) as (B' & HB' & El). assert (B' = B) as -> by congruence.
  assert (G b ≡ₚ blocks_of o b) as HP; [|by rw HP]. apply submseteq_length_Permutation; [by apply NoDup_submseteq|].
  rw blocks_length; [by apply (hi_obj _ _ _ _ _ _ _ HI (bk_obj B))|]. lia.
Qed.

Lemma live_except s s' G G' b i p : same_static (sa_objs s) (sa_objs s') → (∀ c, c ≠ b → sa_buckets s' !! c = sa_buckets s !! c ∧ G' c = G c) →
  (∀ B o x, sa_buckets s !! b = Some B → sa_objs s !! bk_obj B = Some o → x ∈ blocks_of o b → x ∈ G b) →
  live s G i p → live s' G' i p.
Proof.
  intros HO Hc Hb (c & C & oc & HC & <- & Hoc & Hp & Hn). assert (c ≠ b) as Hne by (intros ->; by apply Hn, (Hb C oc)).
  destruct (Hc c Hne) as [E1 E2]. destruct (same_static_l _ _ _ _ HO Hoc) as (o' & Ho' & Es). exists c, C, o'.
  rw E1 E2 -(static_blocks _ _ c Es). done.
Qed.

(** ** Operations *)

Lemma wp_sa_env {X} (m : M K X) (Q : X → salloc_state K → Prop) s : wp m (λ a k, Q a (set_sa_env k s)) (sa_env s) → wp (on_sa_env m) Q s.
Proof. apply wp_zoom. Qed.

Lemma wp_init_blocks n i o b s B (Q : unit → salloc_state K → Prop) : obj_ok o → placed o b → 0 ≤ i → i + Z.of_nat n = so_bucket_block_count o →
  sa_buckets s !! b = Some B → chain (sa_blocks s) (bk_block B) (reverse (block_addr o b <$> seqZ 0 i)) →
  (∀ j, 0 ≤ j < i → ∃ m, sa_blocks s !! block_addr o b j = Some m ∧ mb_bucket m = b) →
  (∀ h BL', chain BL' h (reverse (blocks_of o b)) → (∀ y, y ∉ blocks_of o b → BL' !! y = sa_blocks s !! y) →
     (∀ y, y ∈ blocks_of o b → ∃ m, BL' !! y = Some m ∧ mb_bucket m = b) →
     Q tt (upd_buckets (<[b := set_bk_block h B]>) (upd_blocks (λ _, BL') s))) →
  wp (init_blocks n i o b) Q s.
Proof.
  intros Hok Hpl. revert i s B. induction n as [|n IH]; intros i s B Hi Hn HB Hch Hm HQ; cbn [init_blocks].
  - wp_step. assert (i = so_bucket_block_count o) as -> by lia. specialize (HQ (bk_block B) (sa_blocks s) Hch ltac:(done)).
    assert (Q tt (upd_buckets <[b := set_bk_block (bk_block B) B]> (upd_blocks (λ _, sa_blocks s) s))) as HQ'.
    { apply HQ. intros y (j & Hj & ->)%elem_of_blocks. auto. }
    revert HQ'. rw /upd_buckets /upd_blocks /=. replace (set_bk_block (bk_block B) B) with B by by destruct B. rw insert_id //. by destruct s.
  - assert (block_addr o b i ∉ reverse (block_addr o b <$> seqZ 0 i)) as Hfresh.
    { rw elem_of_reverse list_elem_of_fmap. intros (j & E & Hj%elem_of_seqZ). pose proof (block_addr_apart o b i j Hok Hpl ltac:(lia) ltac:(lia) ltac:(lia)) as Ha.
      destruct Hok as [[S1 S2] _ _ _ _ _]. pose proof MAGIC_pos. lia. }
    wp_step. eapply wp_read_bucket; [exact HB|]. wp_step. wp_step. wp_step. apply wp_write_bucket; [cbn; eauto|].
    eapply (IH (i + 1)); [lia|lia|cbn; by rw lookup_alter_eq HB| | |].
    + rw seqZ_app; [lia|lia|]. change (seqZ (0 + i) 1) with [i]. rw fmap_app reverse_app /=. split; [done|]. eexists. rw lookup_insert_eq. split; [done|].
      cbn. eapply block_chain_frame; [|exact Hch]. intros y Hy. rw lookup_insert_ne //. by intros <-.
    + cbn. intros j Hj. destruct (decide (block_addr o b i = block_addr o b j)) as [->|Hne]; [rw lookup_insert_eq; eauto|].
      rw lookup_insert_ne //. apply Hm. assert (j ≠ i) by congruence. lia.
    + intros h BL' C1 C2 C3. specialize (HQ h BL' C1). cbn in C2. revert HQ. rw /upd_buckets /upd_blocks /=.
      rw -(alter_as_insert _ _ _ _ HB) insert_insert_eq. intros HQ. apply HQ; [|done]. intros y Hy. rw C2 //. rw lookup_insert_ne //.
      intros <-. apply Hy. apply elem_of_blocks. exists i. split; [lia|done].
Qed.

Lemma core_counts p q o : core (set_so_counts p q o) = core o.
Proof. done. Qed.

Lemma wpp_alloc_bucket s A G Pl obj o (Q : Z → salloc_state K → Prop) : sa_heap s A G Pl None → sa_objs s !! obj = Some o →
  (∀ s', frame s s' → sa_heap s' A G Pl None → (∀ i p, live s' G i p ↔ live s G i p) → Q 0 s') →
  (∀ s' b B fl, frame s s' → sa_heap s' (<[b := so_bucket_page_count o]> A) (gset_at b fl G) Pl (Some b) → b ≠ 0 → sa_buckets s' !! b = Some B → bk_obj B = obj →
     (∀ i p, live s' (gset_at b fl G) i p ↔ live s G i p) → Q b s') →
  wpp (alloc_bucket obj) Q s.
Proof.
  intros [HI He] Ho HQ0 HQ. pose proof (hi_obj _ _ _ _ _ _ _ HI obj o Ho) as Hok. rw /alloc_bucket. apply wpp_bind, wpp_wp. eapply wp_read_obj; [exact Ho|].
  apply wpp_bind, wpp_zoom. eapply wpp_mono; [apply env_palloc_ptr_ok; [exact He|apply (ok_pages _ Hok)]|]. intros b k [[-> Hk]|(Hb0 & HA & Hk)].
  { cbn. apply HQ0; [by apply frame_refl|by split|by intros i p; apply live_same]. }
  rw (proj2 (Z.eqb_neq b 0) Hb0). set (A' := <[b := so_bucket_page_count o]> A) in *.
  assert (placed o b) as Hpl by (apply (env_range k A'); [done|apply lookup_insert_eq]).
  assert (∀ c C oc, sa_buckets s !! c = Some C → sa_objs s !! bk_obj C = Some oc → c ≠ b ∧ placed oc c ∧ obj_ok oc ∧
    (c + so_bucket_page_count oc * PAGE_SIZE ≤ b ∨ b + so_bucket_page_count o * PAGE_SIZE ≤ c)) as Hoth.
  { intros c C oc HC Hoc. destruct (heap_placed s A G Pl None c C oc ltac:(by split) HC Hoc) as [P1 P2].
    assert (A !! c = Some (so_bucket_page_count oc)) as HAc by (apply (hi_alloc _ _ _ _ _ _ _ HI); eauto). assert (c ≠ b) as Hne by congruence.
    split; [done|]. split; [done|]. split; [done|]. apply (env_apart k A'); [done| |apply lookup_insert_eq|done]. by rw lookup_insert_ne; [congruence|]. }
  apply wpp_wp. wp_step. apply wp_write_obj; [cbn; eauto|]. wp_step. wp_step. wp_step.
  assert (2 ≤ so_bucket_block_count o) as Hcnt by apply (ok_count _ Hok).
  eapply (wp_init_blocks _ 0 o b _ _ _ Hok Hpl); [lia|lia|cbn; apply lookup_insert_eq|cbn; done|lia|]. intros h BL' C1 C2 C3. wp_step. cbn in C2.
  pose proof (proj1 (heap_fresh _ _ _ _ _ _ _ b HI) HA) as Hfr.
  match goal with |- Q b ?st => set (s' := st) end. set (B' := mk_bucket 0 0 bucket_empty obj (so_bucket_block_count o) (so_bucket_block_count o) h).
  assert (sa_buckets s' = <[b := B']> (sa_buckets s)) as HBK by (cbn; by rw insert_insert_eq).
  assert (same_core (sa_objs s) (sa_objs s')) as Hcore by by apply alter_core.
  assert (frame s s') as Hf by by eapply frame_alter.
  assert (length (reverse (blocks_of o b)) = Z.to_nat (so_bucket_block_count o)) as Hlen by by rw length_reverse blocks_length.
  assert (sa_heap s' A' (gset_at b (reverse (blocks_of o b)) G) Pl (Some b)) as Hh'.
  { split; [|done]. rw HBK. apply (heap_core (sa_objs s)); [done|].
    eapply heap_add; [exact HI|exact Ho|done|done| |exact C2| |cbn; lia].
    - intros c C oc y HC Hoc Hy Hy'. destruct (Hoth c C oc HC Hoc) as (_ & P1 & P2 & P3).
      pose proof (blocks_other oc c o b y y P2 P1 Hok Hpl P3 Hy Hy'). destruct P2 as [[S1 S2] _ _ _ _ _], Hok as [[S3 S4] _ _ _ _ _]. pose proof MAGIC_pos. lia.
    - split; [cbn; eauto| |cbn; lia|rw reverse_Permutation; by apply blocks_NoDup|done]. change (bk_obj B') with obj. intros o' Ho'. assert (o' = o) as -> by congruence.
      split; [done|]. split; [intros x; by rw elem_of_reverse|done]. }
  assert (sa_buckets s' !! b = Some B') as HB' by by rw HBK lookup_insert_eq.
  apply (HQ s' b B' (reverse (blocks_of o b))); try done. intros i p. split; apply (live_except _ _ _ _ b).
  - apply same_static_sym, Hf.
  - intros c Hne. rw HBK lookup_insert_ne; [congruence|]. by rw gset_other.
  - intros B o' x HB Ho' Hx. exact (exempt_free _ _ _ _ _ _ _ _ Hh' HB Ho' Hx).
  - apply Hf.
  - intros c Hne. rw HBK lookup_insert_ne; [congruence|]. by rw gset_other.
  - congruence.
Qed.

(** *** A block is taken or put back *)

(** The bucket changes by [f], its block at [x] by [g], and [l] are then its free blocks. *)
Record block_change BL b B o (f : salloc_bucket → salloc_bucket) (g : salloc_magic_block → salloc_magic_block) (x : Z) (l : list Z) : Prop := {
  bc_owner : ∀ C, bk_obj (f C) = bk_obj C;
  bc_entry : bk_entry_count (f B) = bk_entry_count B;
  bc_links : ∀ C, links (f C) = links C;
  bc_avail : bk_avail_count (f B) = Z.of_nat (length l);
  bc_nodup : NoDup l;
  bc_sub : ∀ y, y ∈ l → y ∈ blocks_of o b;
  bc_in : x ∈ blocks_of o b;
  bc_bucket : ∀ m, mb_bucket m = b → mb_bucket (g m) = b;
  bc_chain : chain (alter g x BL) (bk_block (f B)) l
}.

Section Change.
Context s A G Pl e b B o (Hh : sa_heap s A G Pl e) (HB : sa_buckets s !! b = Some B) (Ho : sa_objs s !! bk_obj B = Some o)
  (He : e = None ∨ e = Some b) f g x l (Hbc : block_change (sa_blocks s) b B o f g x l).

Abbreviation obj := (bk_obj B).
Abbreviation BK1 := (alter f b (sa_buckets s)).

Lemma change_disjoint c C oc y : sa_buckets s !! c = Some C → sa_objs s !! bk_obj C = Some oc → c ≠ b → y ∈ blocks_of oc c → y ∉ blocks_of o b.
Proof. intros HC Hoc Hne Hy Hy'. apply Hne. by apply (block_bucket s A G Pl e c C oc b B o y). Qed.

Lemma change_exempt c : e = Some c → c = b.
Proof. destruct He; congruence. Qed.

Lemma change_bounded : bounded BK1.
Proof.
  intros c C HC. destruct (decide (c = b)) as [->|Hne]; [by apply (heap_bounded s A G Pl e Hh b B)|].
  rw lookup_alter_ne in HC; [congruence|]. by apply (heap_bounded s A G Pl e Hh c C).
Qed.

Lemma change_lists : lists_ok (sa_objs s) BK1 Pl.
Proof. apply lists_keep; [apply (bc_links _ _ _ _ _ _ _ _ Hbc)|]. destruct Hh as [HI _]. exact (hi_partial _ _ _ _ _ _ _ HI). Qed.

Lemma change_other i c : is_Some (sa_objs s !! i) → i ≠ obj → c ∈ Pl i → c ≠ b ∧ c ∉ Pl obj.
Proof.
  intros Hi Hne Hc. destruct Hh as [HI _]. split.
  - intros ->. apply (hi_members _ _ _ _ _ _ _ HI i b Hi) in Hc as (_ & C & HC & <- & _). apply Hne. congruence.
  - intros Hc'. apply Hne. eapply (partial_other _ _ _ _ _ _ _ i obj c HI); eauto.
Qed.

Lemma change_member c : c ∈ Pl obj → is_Some (BK1 !! c).
Proof.
  destruct Hh as [HI _]. intros (_ & C & HC & _)%(hi_members _ _ _ _ _ _ _ HI obj c ltac:(eauto)). rw lookup_alter_is_Some. eauto.
Qed.

Lemma change_in_list : b ∈ Pl obj ↔ e = None ∧ G b ≠ [].
Proof.
  destruct Hh as [HI _]. rw (hi_members _ _ _ _ _ _ _ HI obj b ltac:(eauto)). split; [intros (N & C & HC & _ & Hg)|intros [-> Hg]].
  - split; [by destruct He|done].
  - split; [done|]. by exists B.
Qed.

Let HB1 : BK1 !! b = Some (f B).
Proof. by rw lookup_alter_eq HB. Qed.

(** The bucket leaves its list. *)
Lemma heap_detach e' : b ∈ Pl obj → e' = None ∧ l = [] ∨ e' = Some b ∧ Z.of_nat (length l) = bk_entry_count B →
  (∃ Pl', heap_inv (alter (without (f B)) obj (sa_objs s)) (unlink (f B) BK1) (alter g x (sa_blocks s)) A (gset_at b l G) Pl' e') ∧
  (bk_prev (f B) ≠ 0 → is_Some (BK1 !! bk_prev (f B))) ∧ (bk_next (f B) ≠ 0 → is_Some (BK1 !! bk_next (f B))).
Proof using All.
  intros Hin He'. destruct (list_elem_of_split _ _ Hin) as (l1 & l2 & El). pose proof Hh as [HI _]. destruct Hbc as [X1 X2 X3 X4 X5 X6 X7 X8 X9].
  destruct (lists_remove _ _ _ _ _ b (f B) l1 l2 change_lists Ho HB1 change_bounded) as [HL Hpn]; [|done|exact change_member|].
  { intros i c Hi Hne Hc. by apply (change_other i c). }
  split; [|done]. exists (gset_at obj (l1 ++ l2) Pl). pose proof (ok_count _ (hi_obj _ _ _ _ _ _ _ HI obj o Ho)) as Hcnt.
  pose proof (bo_entry _ _ _ _ _ (hi_bucket _ _ _ _ _ _ _ HI b B HB) o Ho) as (Hent & _ & _).
  eapply (heap_alter _ _ _ _ _ _ _ _ _ _ f g _ b B o x l HI HB Ho change_exempt); try done.
  - destruct He' as [[-> _]|[-> _]]; auto.
  - exact change_disjoint.
  - by apply alter_static.
  - apply unlink_bdata.
  - destruct He' as [[-> ->]|[-> _]]; [cbn; lia|done].
  - by destruct He' as [[-> _]|[_ ?]].
  - intros i Hi. by rw gset_other.
  - intros c. rw gset_same El. destruct (hi_partial _ _ _ _ _ _ _ HI obj o Ho) as (_ & Hnd & _). rw El in Hnd.
    apply NoDup_app in Hnd as (_ & N1 & [N2 _]%NoDup_cons). rw !elem_of_app elem_of_cons. specialize (N1 b). split.
    + intros Hc. left. split; [|tauto]. intros ->. set_solver.
    + intros [[Hne Hc]|(-> & -> & Hl)]; [tauto|]. destruct He' as [[_ ?]|[? _]]; done.
Qed.

(** The bucket enters its list. *)
Lemma heap_attach : b ∉ Pl obj → l ≠ [] → Z.of_nat (length l) < bk_entry_count B →
  (∃ Pl', heap_inv (alter (λ o, set_partial b (ulong (so_partial_count o + 1)) o) obj (sa_objs s)) (link_front (so_partial_next o) b BK1)
     (alter g x (sa_blocks s)) A (gset_at b l G) Pl' None) ∧ (so_partial_next o ≠ 0 → is_Some (BK1 !! so_partial_next o)).
Proof using All.
  intros Hnin Hl Hlt. pose proof Hh as [HI _]. destruct Hbc as [X1 X2 X3 X4 X5 X6 X7 X8 X9]. split.
  - exists (gset_at obj (b :: Pl obj) Pl).
    eapply (heap_alter _ _ _ _ _ _ _ _ _ _ f g _ b B o x l HI HB Ho change_exempt); try done.
    + by left.
    + exact change_disjoint.
    + by apply alter_static.
    + apply link_front_bdata.
    + apply lists_front; [exact change_lists|done|by rw HB1|exact change_bounded|exact change_other|done|exact change_member].
    + intros i Hi. by rw gset_other.
    + intros c. rw gset_same elem_of_cons. split; [intros [->|Hc]; [by right|left; split; [congruence|done]]|]. intros [[_ ?]|[-> _]]; auto.
  - destruct (change_lists obj o Ho) as [D _]. intros Hne. apply change_member. destruct (Pl obj) as [|y l']; [done|]. destruct D as [-> _]. by left.
Qed.

(** The bucket stays in its list. *)
Lemma heap_stay : b ∈ Pl obj → l ≠ [] → Z.of_nat (length l) < bk_entry_count B →
  heap_inv (sa_objs s) BK1 (alter g x (sa_blocks s)) A (gset_at b l G) Pl None.
Proof using All.
  intros Hin Hl Hlt. pose proof Hh as [HI _]. destruct Hbc as [X1 X2 X3 X4 X5 X6 X7 X8 X9].
  eapply (heap_alter _ _ _ _ _ _ _ _ _ _ f g _ b B o x l HI HB Ho change_exempt); try done.
  - by left.
  - exact change_disjoint.
  - exact change_lists.
  - intros c. split; [intros Hc; destruct (decide (c = b)); [by right|by left]|]. by intros [[_ ?]|[-> _]].
Qed.

End Change.

Definition taken (n : Z) (st : salloc_bucket_state → salloc_bucket_state) (B : salloc_bucket) : salloc_bucket :=
  set_bk_state (st (bk_state B)) (set_bk_avail (s32 (bk_avail_count B - 1)) (set_bk_block n B)).

Lemma take_change s A G Pl e b B o x fl m st : sa_heap s A G Pl e → sa_buckets s !! b = Some B → sa_objs s !! bk_obj B = Some o → G b = x :: fl →
  sa_blocks s !! x = Some m →
  bk_block B = x ∧ bk_avail_count B = Z.of_nat (length (G b)) ∧ 2 ≤ bk_entry_count B < 2 ^ 31 ∧ Z.of_nat (length (G b)) ≤ bk_entry_count B ∧
  block_change (sa_blocks s) b B o (taken (mb_next m) st) (λ m, set_mb_bucket b (set_mb_next 0 m)) x fl.
Proof.
  intros Hh HB Ho HG Hm. pose proof Hh as [HI _]. destruct (hi_bucket _ _ _ _ _ _ _ HI b B HB) as [_ K2 K3 K4 K5]. destruct (K2 o Ho) as (E1 & E2 & _).
  pose proof (ok_count _ (hi_obj _ _ _ _ _ _ _ HI _ o Ho)) as Hcnt. rw HG in E2 K3 K4 K5. destruct K5 as [Hx (m' & Hm' & Hch)]. assert (m' = m) as -> by congruence.
  assert (Z.of_nat (length (G b)) ≤ bk_entry_count B) as Hle.
  { rw HG E1. destruct (heap_placed s A G Pl e b B o Hh HB Ho) as [_ Hok]. pose proof (submseteq_length _ _ (NoDup_submseteq _ _ K4 E2)) as Hlen.
    rw blocks_length in Hlen; [done|]. lia. }
  split; [done|]. split; [by rw HG|]. split; [lia|]. split; [done|]. rw HG in Hle. cbn [length] in *. apply NoDup_cons in K4 as [Hx1 Hx2].
  split; try done.
  - cbn. rw K3. rw swrap32_small; lia.
  - intros y Hy. apply E2. by right.
  - apply E2. by left.
  - cbn. eapply block_chain_frame; [|exact Hch]. intros y Hy. rw lookup_alter_ne //. by intros <-.
Qed.

Lemma wp_salloc_take s A G Pl e b B o x fl (Q : Z → salloc_state K → Prop) : sa_heap s A G Pl e → e = None ∨ e = Some b →
  sa_buckets s !! b = Some B → sa_objs s !! bk_obj B = Some o → G b = x :: fl →
  (∀ s' Pl', frame s s' → sa_heap s' A (gset_at b fl G) Pl' None → same_owner (sa_buckets s) (sa_buckets s') → Q x s') →
  wp (take_block (bk_obj B) b) Q s.
Proof.
  intros Hh He HB Ho HG HQ. pose proof Hh as [HI Henv']. destruct (hi_bucket _ _ _ _ _ _ _ HI b B HB) as [_ _ _ _ K5]. rw HG in K5. destruct K5 as [_ (m & Hm & _)].
  destruct (take_change s A G Pl e b B o x fl m id Hh HB Ho HG Hm) as (E1 & E2 & E3 & E4 & Hbc).
  pose proof (bc_avail _ _ _ _ _ _ _ _ Hbc) as Hav. change (s32 (bk_avail_count B - 1) = Z.of_nat (length fl)) in Hav.
  pose proof (change_in_list s A G Pl e b B o Hh HB Ho He) as Hin. rw /take_block. wp_step. eapply wp_read_bucket; [exact HB|]. rw E1.
  wp_step. eapply wp_read_block; [exact Hm|]. wp_step. apply wp_write_bucket; [eauto|]. wp_step. apply wp_write_bucket; [cbn; rw lookup_alter_is_Some; eauto|].
  rw /upd_buckets /= alter_twice. wp_step. apply wp_write_block; [cbn; eauto|]. wp_step. apply wp_write_block; [cbn; rw lookup_alter_is_Some; eauto|].
  rw /upd_blocks /= alter_twice. wp_step. eapply wp_read_bucket; [cbn; by rw lookup_alter_eq HB|]. cbn [bk_avail_count bk_entry_count set_bk_avail set_bk_block].
  rw Hav (swrap32_small (bk_entry_count B - 1)); [lia|]. wp_step. destruct (ctrue (Z.of_nat (length fl))) eqn:El; cbn [negb].
  - apply ctrue_ne in El. assert (fl ≠ []) as Hfl by by intros ->. destruct (Z.of_nat (length fl) =? bk_entry_count B - 1) eqn:Ee.
    + apply Z.eqb_eq in Ee. destruct (take_change s A G Pl e b B o x fl m (λ _, bucket_partial) Hh HB Ho HG Hm) as (_ & _ & _ & _ & Hbc').
      assert (e = Some b) as Ees.
      { destruct He as [->|?]; [|done]. pose proof (hi_used _ _ _ _ _ _ _ HI b B HB ltac:(done)) as Hu. rw HG in Hu. cbn [length] in Hu. lia. }
      destruct (heap_attach s A G Pl e b B o Hh HB Ho He _ _ x fl Hbc') as [[Pl' HI'] Hp]; [rw Hin Ees; naive_solver|done|lia|].
      wp_step. apply wp_write_bucket; [cbn; rw lookup_alter_is_Some; eauto|]. rw /upd_buckets /= alter_twice.
      eapply wp_insert_bucket; [exact Ho|cbn; rw lookup_alter_is_Some; eauto|exact Hp|]. wp_step.
      apply (HQ _ Pl'); [by eapply frame_alter|by split|]. cbn. eapply alter_owner; [|apply bdata_owner, link_front_bdata]. done.
    + apply Z.eqb_neq in Ee. rw HG in E4. cbn [length] in E4. wp_step. wp_step. apply (HQ _ Pl); [by apply frame_refl| |].
      * split; [|done]. apply (heap_stay s A G Pl e b B o Hh HB Ho He _ _ x fl Hbc); [rw Hin; split; [|by rw HG]|done|lia].
        destruct He as [?|Ees]; [done|]. destruct (hi_exempt _ _ _ _ _ _ _ HI b Ees) as (B' & HB' & Hl). assert (B' = B) as -> by congruence. rw HG in Hl. cbn [length] in Hl. lia.
      * cbn. eapply alter_owner; [|by intros c]. done.
  - assert (fl = []) as Hfl by (destruct fl; [done|cbn in El; done]).
    destruct (take_change s A G Pl e b B o x fl m (λ _, bucket_full) Hh HB Ho HG Hm) as (_ & _ & _ & _ & Hbc').
    destruct (heap_detach s A G Pl e b B o Hh HB Ho He _ _ x fl Hbc' None) as [[Pl' HI'] [Hp Hn]]; [|by left|].
    { rw Hin. split; [|by rw HG]. destruct He as [?|Ees]; [done|]. destruct (hi_exempt _ _ _ _ _ _ _ HI b Ees) as (B' & HB' & Hl).
      assert (B' = B) as -> by congruence. rw HG Hfl in Hl. cbn in Hl. lia. }
    wp_step. apply wp_write_bucket; [cbn; rw lookup_alter_is_Some; eauto|]. rw /upd_buckets /= alter_twice.
    eapply wp_remove_bucket; [cbn; eauto|cbn; by rw lookup_alter_eq HB|exact Hp|exact Hn|]. wp_step.
    apply (HQ _ Pl'); [by eapply frame_alter|by split|]. cbn. eapply alter_owner; [|apply bdata_owner, unlink_bdata]. done.
Qed.

Lemma foldr_delete_lookup {X} (h : Z → Z) (l : list Z) (m : gmap Z X) y :
  foldr (λ i m, delete (h i) m) m l !! y = if decide (y ∈ h <$> l) then None else m !! y.
Proof.
  induction l as [|i l IH]; [done|]. cbn [foldr fmap list_fmap]. destruct (decide (y = h i)) as [->|Hne].
  - rw lookup_delete_eq decide_True //. by left.
  - rw lookup_delete_ne; [congruence|]. rw IH. apply decide_ext. rw elem_of_cons. naive_solver.
Qed.

Lemma wp_free_bucket s A G Pl b B o (Q : unit → salloc_state K → Prop) : sa_heap s A G Pl (Some b) → sa_buckets s !! b = Some B → sa_objs s !! bk_obj B = Some o →
  (∀ s', frame s s' → sa_heap s' (delete b A) G Pl None → (∀ i p, live s' G i p ↔ live s G i p) → Q tt s') →
  wp (free_bucket (bk_obj B) b) Q s.
Proof.
  intros Hh HB Ho HQ. pose proof Hh as [HI He]. rw /free_bucket. wp_step. eapply wp_read_obj; [exact Ho|]. wp_step. apply wp_sa_env.
  eapply wp_mono; [eapply env_pfree_ptr_ok; [exact He|]; apply (hi_alloc _ _ _ _ _ _ _ HI); by exists B, o|].
  intros r k Hk. cbn beta. wp_step. wp_step. wp_step. wp_step. apply wp_write_obj; [cbn; eauto|]. match goal with |- Q tt ?st => set (s' := st) end.
  assert (frame s s') as Hf by by eapply frame_alter. apply HQ; [done| |].
  - split; [|done]. apply (heap_core (sa_objs s)); [by apply alter_core|].
    eapply (heap_drop _ _ _ _ _ _ b B o); [exact HI|done|done| | |]; cbn.
    + intros c C oc y HC Hoc Hne Hy Hy'. apply Hne. by apply (block_bucket s A G Pl (Some b) c C oc b B o y).
    + intros y Hy. rw foldr_delete_lookup decide_False //.
    + intros y Hy. rw foldr_delete_lookup decide_True //.
  - intros i p. split; apply (live_except _ _ _ _ b).
    + apply same_static_sym, Hf.
    + intros c Hne. cbn. rw lookup_delete_ne; [congruence|done].
    + cbn. intros B' o' y. by rw lookup_delete_eq.
    + apply Hf.
    + intros c Hne. cbn. rw lookup_delete_ne; [congruence|done].
    + intros B' o' y HB' Ho' Hy. exact (exempt_free _ _ _ _ _ _ _ _ Hh HB' Ho' Hy).
Qed.

Definition given (x : Z) (st : salloc_bucket_state → salloc_bucket_state) (B : salloc_bucket) : salloc_bucket :=
  set_bk_state (st (bk_state B)) (set_bk_avail (s32 (bk_avail_count B + 1)) (set_bk_block x B)).

Lemma put_change s A G Pl b B o x st : sa_heap s A G Pl None → sa_buckets s !! b = Some B → sa_objs s !! bk_obj B = Some o →
  x ∈ blocks_of o b → x ∉ G b →
  is_Some (sa_blocks s !! x) ∧ bk_avail_count B = Z.of_nat (length (G b)) ∧ 2 ≤ bk_entry_count B < 2 ^ 31 ∧ Z.of_nat (length (G b)) < bk_entry_count B ∧
  block_change (sa_blocks s) b B o (given x st) (set_mb_next (bk_block B)) x (x :: G b).
Proof.
  intros Hh HB Ho Hx Hn. pose proof Hh as [HI _]. destruct (hi_bucket _ _ _ _ _ _ _ HI b B HB) as [_ K2 K3 K4 K5]. destruct (K2 o Ho) as (E1 & E2 & E3).
  destruct (E3 x Hx) as (m & Hm & _). pose proof (ok_count _ (hi_obj _ _ _ _ _ _ _ HI _ o Ho)) as Hcnt. pose proof (hi_used _ _ _ _ _ _ _ HI b B HB ltac:(done)) as Hu.
  split; [eauto|]. split; [done|]. split; [lia|]. split; [done|]. split; try done.
  - cbn -[length]. rw K3 swrap32_small; cbn [length]; lia.
  - by apply NoDup_cons.
  - intros y [->|Hy]%elem_of_cons; auto.
  - cbn. split; [done|]. exists (set_mb_next (bk_block B) m). rw lookup_alter_eq Hm. split; [done|]. cbn.
    eapply block_chain_frame; [|exact K5]. intros y Hy. rw lookup_alter_ne //. by intros <-.
Qed.

Lemma wp_put_block s A G Pl b B o x (Q : unit → salloc_state K → Prop) : sa_heap s A G Pl None → sa_buckets s !! b = Some B → sa_objs s !! bk_obj B = Some o →
  x ∈ blocks_of o b → x ∉ G b →
  (∀ s' A' G' Pl', frame s s' → sa_heap s' A' G' Pl' None → (∀ i p, live s' G' i p ↔ live s G i p ∧ p ≠ x + MAGIC_SIZE) → Q tt s') →
  wp (put_block (bk_obj B) b x) Q s.
Proof.
  intros Hh HB Ho Hx Hxn HQ. pose proof Hh as [HI Henv']. destruct (put_change s A G Pl b B o x id Hh HB Ho Hx Hxn) as (E1 & E2 & E3 & E4 & Hbc).
  pose proof (bc_avail _ _ _ _ _ _ _ _ Hbc) as Hav. change (s32 (bk_avail_count B + 1) = Z.of_nat (length (x :: G b))) in Hav.
  pose proof (λ i p, live_put s A G Pl None b B o x i p Hh HB Ho Hx) as Hlive.
  pose proof (change_in_list s A G Pl None b B o Hh HB Ho ltac:(by left)) as Hin. rw /put_block. wp_step. eapply wp_read_bucket; [exact HB|].
  wp_step. apply wp_write_block; [done|]. wp_step. apply wp_write_bucket; [cbn; eauto|]. wp_step. apply wp_write_bucket; [cbn; rw lookup_alter_is_Some; eauto|].
  rw /upd_buckets /upd_blocks. cbn [sa_objs sa_buckets sa_blocks sa_all sa_num_objs sa_int sa_env]. rw alter_twice. wp_step. eapply wp_read_bucket; [cbn; by rw lookup_alter_eq HB|]. cbn [bk_avail_count bk_entry_count set_bk_avail set_bk_block].
  rw Hav. cbn [length]. destruct (Z.of_nat (S (length (G b))) =? bk_entry_count B) eqn:Ee; [apply Z.eqb_eq in Ee|apply Z.eqb_neq in Ee].
  - destruct (put_change s A G Pl b B o x (λ _, bucket_empty) Hh HB Ho Hx Hxn) as (_ & _ & _ & _ & Hbc').
    destruct (heap_detach s A G Pl None b B o Hh HB Ho ltac:(by left) _ _ x _ Hbc' (Some b)) as [[Pl' HI'] [Hp Hn]];
      [rw Hin; split; [done|]; intros E; rw E in Ee; cbn in Ee; lia|right; split; [done|cbn [length]; lia]|].
    wp_step. apply wp_write_bucket; [cbn; rw lookup_alter_is_Some; eauto|]. rw /upd_buckets /= alter_twice.
    wp_step. eapply wp_remove_bucket; [cbn; eauto|cbn; by rw lookup_alter_eq HB|exact Hp|exact Hn|].
    set (s1 := upd_buckets _ _). assert (frame s s1) as Hf by by eapply frame_alter.
    assert (same_owner (sa_buckets s) (sa_buckets s1)) as Hown. { cbn. eapply alter_owner; [|apply bdata_owner, unlink_bdata]. done. }
    assert (sa_heap s1 A (gset_at b (x :: G b) G) Pl' (Some b)) as Hh1 by by split.
    pose proof (Hown b) as Hb. rw HB in Hb. destruct (sa_buckets s1 !! b) as [B1|] eqn:HB1; [|done]. apply (inj Some) in Hb.
    destruct (same_static_l _ _ _ _ (fr_static _ _ Hf) Ho) as (o1 & Ho1 & _). rw -Hb in Ho1 |- *.
    eapply wp_free_bucket; [exact Hh1|done|exact Ho1|]. intros s2 Hf2 Hh2 Hl2. eapply HQ; [exact (frame_trans _ _ _ Hf Hf2)|exact Hh2|].
    intros i p. by rw Hl2 (live_same s s1 _ i p (fr_static _ _ Hf) Hown).
  - destruct (1 =? Z.of_nat (S (length (G b)))) eqn:E1'.
    + apply Z.eqb_eq in E1'. assert (G b = []) as HG by (apply length_zero_iff_nil; lia).
      destruct (put_change s A G Pl b B o x (λ _, bucket_partial) Hh HB Ho Hx Hxn) as (_ & _ & _ & _ & Hbc').
      destruct (heap_attach s A G Pl None b B o Hh HB Ho ltac:(by left) _ _ x _ Hbc') as [[Pl' HI'] Hp]; [rw Hin; naive_solver|done|rw HG; cbn; lia|].
      wp_step. apply wp_write_bucket; [cbn; rw lookup_alter_is_Some; eauto|]. rw /upd_buckets /= alter_twice.
      eapply wp_insert_bucket; [exact Ho|cbn; rw lookup_alter_is_Some; eauto|exact Hp|]. set (s1 := upd_buckets _ _). assert (frame s s1) as Hf by by eapply frame_alter.
      apply (HQ s1 A (gset_at b (x :: G b) G) Pl'); [done|by split|]. intros i p. rw -Hlive. apply live_same; [apply Hf|].
      cbn. eapply alter_owner; [|apply bdata_owner, link_front_bdata]. done.
    + wp_step. apply Z.eqb_neq in E1'. set (s1 := mk_sa _ _ _ _ _ _ _). assert (frame s s1) as Hf by by apply frame_refl.
      apply (HQ s1 A (gset_at b (x :: G b) G) Pl); [done| |].
      * split; [|done]. apply (heap_stay s A G Pl None b B o Hh HB Ho ltac:(by left) _ _ x _ Hbc); [rw Hin; split; [done|]|done|cbn [length]; lia].
        intros E. rw E in E1'. cbn in E1'. lia.
      * intros i p. rw -Hlive. apply live_same; [apply Hf|]. cbn. eapply alter_owner; [|by intros c]. done.
Qed.

End Spec.
