(* ===== verification/SallocProps.v ===== *)
(** The structure allocator of [Salloc.v] refines an abstract allocator: a map
    from the addresses of the structures in use to their objects, to which
    [salloc] adds a fresh address and from which [sfree] takes one away.  Here is
    also what [salloc_create] computes, and [malloc] and [free] on top. *)

From stdpp Require Import base list gmap relations.
From Stdlib Require Import ZArith Lia.
From Corelib Require Import ssreflect.
From S2P Require Import Prelude Bits Lock Mem Palloc PallocProps Salloc SallocSpec.

Section Props.
Context `{Harch : Arch} {K : Type} `{Henv : SallocEnv K} `{!SallocEnvLaws K}.
Implicit Types (s : salloc_state K) (o : salloc_obj) (L A : gmap Z Z).

#[export] Instance salloc_lock_laws i : LockLaws (S := salloc_state K) (obj_lock i).
Proof.
  split; cbn.
  - intros v s [w Hw]. rw lookup_alter_eq. destruct (sa_objs s !! i); done.
  - intros v w s. rw /upd_objs /=. f_equal. rw alter_alter_eq. done.
  - intros v s Hv. rw /upd_objs. destruct s as [O BK BL a n I k]. cbn in *. f_equal.
    apply alter_id. intros o Ho. rw Ho in Hv. injection Hv as <-. by destruct o.
  - done.
  - done.
  - done.
Qed.

(** The lock of object [obj] is [v], the others are free. *)
Definition locks s (obj : Z) (v : spinlock_t) : Prop :=
  ∀ i o, sa_objs s !! i = Some o → so_lock o = if decide (i = obj) then v else SPINLOCK_INIT.
Definition unlocked s : Prop := ∀ i o, sa_objs s !! i = Some o → so_lock o = SPINLOCK_INIT.

(** Two states that differ at most in locks, counters and the interrupt state. *)
Record alike s s' : Prop := {
  ak_objs : same_core (sa_objs s) (sa_objs s');
  ak_buckets : sa_buckets s' = sa_buckets s;
  ak_blocks : sa_blocks s' = sa_blocks s;
  ak_env : sa_env s' = sa_env s
}.

Lemma same_core_static O O' : same_core O O' → same_static O O'.
Proof.
  intros HO i. specialize (HO i). destruct (O !! i) as [o|], (O' !! i) as [o'|]; try done. apply (inj Some) in HO. cbn. f_equal.
  by apply core_static in HO as [-> _].
Qed.

Lemma alike_heap s s' A G Pl e : alike s s' → sa_heap s A G Pl e → sa_heap s' A G Pl e.
Proof. intros [A1 A2 A3 A4] [HI He]. split; [|by rw A4]. rw A2 A3. by apply (heap_core (sa_objs s)). Qed.

Lemma alike_live s s' G i p : alike s s' → live s' G i p ↔ live s G i p.
Proof. intros [A1 A2 _ _]. apply live_same; [by apply same_core_static|intros c; by rw A2]. Qed.

Lemma alike_trans s1 s2 s3 : alike s1 s2 → alike s2 s3 → alike s1 s3.
Proof. intros [A1 A2 A3 A4] [B1 B2 B3 B4]. split; [intros i; by rw B1 A1|congruence..]. Qed.

Lemma locked_alike s obj : alike s (locked_state (obj_lock obj) s).
Proof. split; [|done..]. by apply alter_core. Qed.

Lemma released_alike s obj b : alike s (set_int b (lk_set (obj_lock obj) SPINLOCK_INIT s)).
Proof. split; [|done..]. by apply alter_core. Qed.

Lemma counted_alike s obj f : (∀ o, core (f o) = core o) → alike s (upd_objs (alter f obj) s).
Proof. intros Hf. split; [|done..]. by apply alter_core. Qed.

Lemma locks_frame s s' obj v : frame s s' → locks s obj v → locks s' obj v.
Proof.
  intros Hf HL i o' Ho'. pose proof (fr_lock _ _ Hf i) as E. rw Ho' in E. destruct (sa_objs s !! i) as [o|] eqn:Ho; [|done]. apply (inj Some) in E.
  rw E. by apply HL.
Qed.

Lemma locks_locked s obj : unlocked s → locks (locked_state (obj_lock obj) s) obj (mk_spinlock true (int_state s)).
Proof.
  intros HU i o. cbn. destruct (decide (i = obj)) as [->|Hne]; [rw lookup_alter_eq; destruct (sa_objs s !! obj); [|done]; by intros [= <-]|].
  rw lookup_alter_ne; [congruence|]. apply HU.
Qed.

Lemma locks_released s obj v b : locks s obj v → unlocked (set_int b (lk_set (obj_lock obj) SPINLOCK_INIT s)).
Proof.
  intros HL i o. cbn. destruct (decide (i = obj)) as [->|Hne]; [rw lookup_alter_eq; destruct (sa_objs s !! obj); [|done]; by intros [= <-]|].
  rw lookup_alter_ne; [congruence|]. intros Ho. rw (HL i o Ho). by rw decide_False.
Qed.

(** *** The abstract allocator *)

(** [L] are the structures in use, with their objects. *)
Definition sa_inv s L : Prop :=
  unlocked s ∧ ∃ A G Pl, sa_heap s A G Pl None ∧ ∀ p i, L !! p = Some i ↔ live s G i p.

(** Structures in use are apart, and where their objects want them. *)
Lemma inv_apart s L p i o q j o' : sa_inv s L → L !! p = Some i → L !! q = Some j → p ≠ q →
  sa_objs s !! i = Some o → sa_objs s !! j = Some o' → p + so_struct_size o ≤ q ∨ q + so_struct_size o' ≤ p.
Proof. intros [_ (A & G & Pl & Hh & HL)] Hp%HL Hq%HL Hne Ho Ho'. by eapply (live_apart s A G Pl None i p o j q o'). Qed.

Lemma block_ptr s A G Pl e b B o x : sa_heap s A G Pl e → sa_buckets s !! b = Some B → sa_objs s !! bk_obj B = Some o → x ∈ blocks_of o b →
  0 < x ∧ x + MAGIC_SIZE + so_struct_size o ≤ 2 ^ ARCH_WIDTH ∧ (so_alignment o | x + MAGIC_SIZE).
Proof.
  intros Hh HB Ho (i & Hi & ->)%elem_of_blocks. destruct (heap_placed _ _ _ _ _ _ _ _ Hh HB Ho) as [Hp Hok].
  destruct (block_addr_value o b i Hok Hp Hi) as (E & E1 & E2). destruct Hp as (P1 & P2 & P3), Hok as [[S1 S2] _ _ _ _ (A1 & A2 & A3 & A4)].
  pose proof BUCKET_pos. split; [lia|]. split; [lia|]. rw E. replace (_ + _ + _ + _) with (b + (so_block_start_offset o + MAGIC_SIZE) + i * so_block_size o) by lia.
  apply Z.divide_add_r; [apply Z.divide_add_r; [exact (Z.divide_trans _ _ _ A4 P3)|done]|by apply Z.divide_mul_r].
Qed.

Lemma ptr_of_block s A G Pl e b B o x : sa_heap s A G Pl e → sa_buckets s !! b = Some B → sa_objs s !! bk_obj B = Some o → x ∈ blocks_of o b →
  ulong (x + MAGIC_SIZE) = x + MAGIC_SIZE ∧ ulong (x + MAGIC_SIZE - MAGIC_SIZE) = x.
Proof.
  intros Hh HB Ho Hx. destruct (block_ptr _ _ _ _ _ _ _ _ _ Hh HB Ho Hx) as (E1 & E2 & _). destruct (heap_placed _ _ _ _ _ _ _ _ Hh HB Ho) as [_ [[S1 _] _ _ _ _ _]].
  pose proof MAGIC_pos. replace (x + MAGIC_SIZE - MAGIC_SIZE) with x by lia. split; (apply wrap_small; rw /uint; lia).
Qed.

Lemma wp_call s A G Pl f p n (Q : unit → salloc_state K → Prop) : sa_heap s A G Pl None →
  (∀ k, sa_heap (set_sa_env k s) A G Pl None → Q tt (set_sa_env k s)) → wp (call f p n) Q s.
Proof.
  intros [HI He] HQ. rw /call. destruct (ctrue f).
  - apply wp_sa_env. eapply wp_mono; [exact (env_callback_ok _ A _ _ _ He)|]. intros [] k Hk. apply HQ. by split.
  - wp_step. specialize (HQ (sa_env s)). destruct s. apply HQ. by split.
Qed.

(** *** Allocation *)

(** What [salloc] does once it has a bucket. *)
Definition finish_salloc (obj bucket : Z) : M (salloc_state K) Z :=
  block ← take_block obj bucket;
  write_obj obj (λ o, set_so_counts (so_num_palloc_pages o) (ulong (so_num_active_objs o + 1)) o);;
  spinlock_unlock_int (obj_lock obj);;
  let ptr := ulong (block + MAGIC_SIZE) in
  o ← read_obj obj;
  call (so_constructor o) ptr (so_struct_size o);;
  mret ptr.

(** What an operation on [L] leaves alone. *)
Definition kept s s' : Prop := sa_int s' = sa_int s ∧ same_static (sa_objs s) (sa_objs s').

Definition salloc_post s L obj o (p : Z) s' : Prop :=
  kept s s' ∧ (p = 0 ∧ sa_inv s' L ∨ p ≠ 0 ∧ L !! p = None ∧ (so_alignment o | p) ∧ sa_inv s' (<[p := obj]> L)).

Lemma inv_unlocked s L : sa_inv s L → unlocked s.
Proof. by intros [? _]. Qed.

Lemma lk_get_locks s obj o v : sa_objs s !! obj = Some o → locks s obj v → lk_get (obj_lock obj) s = Some v.
Proof. intros Ho HL. cbn. rw Ho /= (HL obj o Ho). by rw decide_True. Qed.

Lemma locks_counts s obj v i f : (∀ o, so_lock (f o) = so_lock o) → locks s obj v → locks (upd_objs (alter f i) s) obj v.
Proof.
  intros Hf HL j o. cbn. destruct (decide (j = i)) as [->|Hne]; [|rw lookup_alter_ne; [congruence|]; apply HL].
  rw lookup_alter_eq. destruct (sa_objs s !! i) as [o1|] eqn:Ho; [|done]. intros [= <-]. rw Hf. by apply HL.
Qed.

Lemma wp_finish_salloc s0 L s A G Pl e obj o0 b B x fl : sa_objs s0 !! obj = Some o0 →
  sa_heap s A G Pl e → e = None ∨ e = Some b → sa_buckets s !! b = Some B → bk_obj B = obj → G b = x :: fl →
  locks s obj (mk_spinlock true (sa_int s0)) → sa_int s = false → same_static (sa_objs s0) (sa_objs s) → (∀ p i, L !! p = Some i ↔ live s G i p) →
  wp (finish_salloc obj b) (salloc_post s0 L obj o0) s.
Proof.
  intros Ho0 Hh He HB <- HG Hlk Hint Hst HL. destruct (same_static_l _ _ _ _ Hst Ho0) as (o & Ho & Es). pose proof Hh as [HI _].
  destruct (hi_bucket _ _ _ _ _ _ _ HI b B HB) as [_ K2 _ K4 _]. destruct (K2 o Ho) as (_ & Hsub & _).
  assert (x ∈ blocks_of o b) as Hx by (apply Hsub; rw HG; by left). destruct (block_ptr _ _ _ _ _ _ _ _ _ Hh HB Ho Hx) as (X1 & X2 & X3).
  destruct (ptr_of_block _ _ _ _ _ _ _ _ _ Hh HB Ho Hx) as [Ep _]. pose proof MAGIC_pos as HM. rw HG in K4. apply NoDup_cons in K4 as [K4 _].
  rw /finish_salloc. wp_step. eapply wp_salloc_take; [exact Hh|exact He|exact HB|exact Ho|exact HG|]. intros s1 Pl1 Hf1 Hh1 Hown.
  destruct (same_static_l _ _ _ _ (fr_static _ _ Hf1) Ho) as (o1 & Ho1 & Es1). wp_step. apply wp_write_obj; [eauto|]. set (s2 := upd_objs _ s1).
  assert (alike s1 s2) as A2 by by apply counted_alike. assert (locks s2 (bk_obj B) (mk_spinlock true (sa_int s0))) as L2 by (apply locks_counts; [done|exact (locks_frame _ _ _ _ Hf1 Hlk)]).
  assert (∃ o2, sa_objs s2 !! bk_obj B = Some o2) as [o2 Ho2] by (cbn; rw lookup_alter_eq Ho1; eauto).
  wp_step. eapply (wp_spinlock_unlock_int (obj_lock _)); [exact (lk_get_locks _ _ _ _ Ho2 L2)|cbn; by rw (fr_int _ _ Hf1)|]. set (s3 := set_int _ _).
  assert (alike s1 s3) as A3 by (eapply alike_trans; [exact A2|apply released_alike]). assert (unlocked s3) as U3 by exact (locks_released _ _ _ _ L2).
  destruct (same_static_l _ _ _ _ (same_core_static _ _ (ak_objs _ _ A3)) Ho1) as (o3 & Ho3 & _).
  wp_step. eapply wp_read_obj; [exact Ho3|]. wp_step. rw Ep. eapply wp_call; [exact (alike_heap _ _ _ _ _ _ A3 Hh1)|]. intros k Hh4. wp_step.
  split; [split; [done|]|].
  { eapply same_static_trans; [exact Hst|]. eapply same_static_trans; [apply Hf1|]. exact (same_core_static _ _ (ak_objs _ _ A3)). }
  assert (∀ p i, live (set_sa_env k s3) (gset_at b fl G) i p ↔ live s G i p ∨ (i = bk_obj B ∧ p = x + MAGIC_SIZE)) as Hlive.
  { intros p i. rw -(live_take s A G Pl e b B o x fl i p Hh HB Ho HG). rw -(live_same s s1 _ i p (fr_static _ _ Hf1) Hown). exact (alike_live s1 s3 _ i p A3). }
  right. split; [lia|]. assert (L !! (x + MAGIC_SIZE) = None) as Hnew.
  { destruct (L !! (x + MAGIC_SIZE)) as [i|] eqn:E; [|done]. apply HL in E as (c & C & oc & HC & <- & Hoc & Hc & Hn).
    replace (x + MAGIC_SIZE - MAGIC_SIZE) with x in Hc, Hn by lia. assert (c = b) as -> by by apply (block_bucket s A G Pl e c C oc b B o x).
    destruct Hn. rw HG. by left. }
  split; [done|]. split; [by apply static_fields in Es as (_ & _ & -> & _)|]. split; [done|]. exists A, (gset_at b fl G), Pl1. split; [done|].
  intros p i. rw Hlive -HL. destruct (decide (p = x + MAGIC_SIZE)) as [->|Hne].
  - rw lookup_insert_eq Hnew. naive_solver.
  - rw lookup_insert_ne; [congruence|]. naive_solver.
Qed.

(** [salloc] inside the critical section, with the object it read. *)
Definition salloc_rest (obj : Z) (o : salloc_obj) : M (salloc_state K) Z :=
  bucket ← (if negb (ctrue (so_partial_count o)) then alloc_bucket obj else mret (so_partial_next o));
  if bucket =? 0 then spinlock_unlock_int (obj_lock obj);; mret 0 else finish_salloc obj bucket.

(** What holds there. *)
Record entered s L obj s1 A G Pl o1 : Prop := {
  en_heap : sa_heap s1 A G Pl None;
  en_obj : sa_objs s1 !! obj = Some o1;
  en_locks : locks s1 obj (mk_spinlock true (sa_int s));
  en_int : sa_int s1 = false;
  en_static : same_static (sa_objs s) (sa_objs s1);
  en_live : ∀ p i, L !! p = Some i ↔ live s1 G i p
}.

Lemma salloc_enter s L obj o : sa_inv s L → sa_objs s !! obj = Some o →
  ∃ s1 A G Pl o1, salloc obj s = salloc_rest obj o1 s1 ∧ entered s L obj s1 A G Pl o1 ∧ so_partial_count o1 = so_partial_count o.
Proof.
  intros [HU (A & G & Pl & Hh & HL)] Ho. pose proof (locked_alike s obj) as A1. pose proof (locks_locked s obj HU) as L1.
  pose proof (same_core_static _ _ (ak_objs _ _ A1)) as S1. assert (sa_objs (locked_state (obj_lock obj) s) !! obj = Some (set_so_lock (mk_spinlock true (sa_int s)) o)) as Ho1.
  { cbn. by rw lookup_alter_eq Ho. }
  exists (locked_state (obj_lock obj) s), A, G, Pl, (set_so_lock (mk_spinlock true (sa_int s)) o). split; [|split; [|done]].
  - rw /salloc. assert (wp (spinlock_lock_int (obj_lock obj)) (λ _ s', s' = locked_state (obj_lock obj) s) s) as Hw.
    { eapply (wp_spinlock_lock_int (obj_lock _)); [cbn; by rw Ho /= (HU obj o Ho)|done|done]. }
    apply wp_elim in Hw as ([] & s1 & Hrun & ->). rw {1}/mbind /M_bind Hrun. rw /read_obj /deref {1}/mbind /M_bind Ho1. done.
  - split; [exact (alike_heap _ _ _ _ _ _ A1 Hh)|done|done|done|done|]. intros p i. rw HL. symmetry. by apply alike_live.
Qed.

(** A block of a partial bucket. *)
Lemma wp_salloc_partial s L obj o0 s1 A G Pl o1 : sa_objs s !! obj = Some o0 → entered s L obj s1 A G Pl o1 → so_partial_count o1 ≠ 0 →
  wp (salloc_rest obj o1) (salloc_post s L obj o0) s1.
Proof.
  intros Ho0 [Hh1 Ho1 L1 I1 S1 HL1] Ec. pose proof Hh1 as [HI1 _]. destruct (hi_partial _ _ _ _ _ _ _ HI1 obj o1 Ho1) as (D1 & _ & D3).
  rw /salloc_rest (proj2 (ctrue_ne _) Ec). cbn [negb]. wp_step. wp_step. destruct (Pl obj) as [|b l] eqn:El; [cbn in D3; lia|]. destruct D1 as [Hb _].
  assert (b ∈ Pl obj) as Hin by (rw El; by left). apply (hi_members _ _ _ _ _ _ _ HI1 obj b ltac:(eauto)) in Hin as (_ & B & HB & Hobj & Hg).
  pose proof (heap_bounded _ _ _ _ _ Hh1 b B HB) as Hpos. rw Hb (proj2 (Z.eqb_neq b 0)); [lia|].
  destruct (G b) as [|x fl] eqn:HG; [done|]. by eapply (wp_finish_salloc s L s1 A G Pl None obj o0 b B x fl); eauto.
Qed.

(** A block of a new bucket. *)
Lemma wpp_salloc_new s L obj o0 s1 A G Pl o1 : sa_objs s !! obj = Some o0 → entered s L obj s1 A G Pl o1 → so_partial_count o1 = 0 →
  wpp (salloc_rest obj o1) (salloc_post s L obj o0) s1.
Proof.
  intros Ho0 [Hh1 Ho1 L1 I1 S1 HL1] Ec. rw /salloc_rest (ctrue_0 _ Ec). cbn [negb]. apply wpp_bind. eapply wpp_alloc_bucket; [exact Hh1|exact Ho1| |].
  - intros s2 Hf2 Hh2 Hl2. apply wpp_wp. pose proof (locks_frame _ _ _ _ Hf2 L1) as L2. destruct (same_static_l _ _ _ _ (fr_static _ _ Hf2) Ho1) as (o2 & Ho2 & _).
    change (0 =? 0) with true. cbv iota. wp_step. eapply (wp_spinlock_unlock_int (obj_lock _)); [exact (lk_get_locks _ _ _ _ Ho2 L2)|by rw /= (fr_int _ _ Hf2)|]. wp_step.
    pose proof (released_alike s2 obj (sa_int s)) as A3. set (s3 := set_int _ _) in *. split; [split; [done|]|left; split; [done|]].
    + eapply same_static_trans; [exact S1|]. eapply same_static_trans; [apply Hf2|]. exact (same_core_static _ _ (ak_objs _ _ A3)).
    + split; [exact (locks_released _ _ _ _ L2)|]. exists A, G, Pl. split; [exact (alike_heap _ _ _ _ _ _ A3 Hh2)|]. intros p i. rw HL1 -Hl2. symmetry. by apply alike_live.
  - intros s2 b B fl Hf2 Hh2 Hb HB Hobj Hl2. apply wpp_wp. rw (proj2 (Z.eqb_neq b 0) Hb). pose proof Hh2 as [HI2 _].
    destruct (hi_exempt _ _ _ _ _ _ _ HI2 b eq_refl) as (B' & HB' & Hlen). assert (B' = B) as -> by congruence. destruct (same_static_l _ _ _ _ (fr_static _ _ Hf2) Ho1) as (o2 & Ho2 & _).
    pose proof (bo_entry _ _ _ _ _ (hi_bucket _ _ _ _ _ _ _ HI2 b B HB) o2 ltac:(by rw Hobj)) as (Hent & _). pose proof (ok_count _ (hi_obj _ _ _ _ _ _ _ HI2 obj o2 Ho2)) as Hc.
    destruct (gset_at b fl G b) as [|x fl'] eqn:HG; [cbn in Hlen; lia|].
    eapply (wp_finish_salloc s L s2 _ _ Pl (Some b) obj o0 b B x fl' Ho0 Hh2); [by right|done|done|done|exact (locks_frame _ _ _ _ Hf2 L1)|by rw (fr_int _ _ Hf2)| |].
    + eapply same_static_trans; [exact S1|apply Hf2].
    + intros p i. by rw HL1 Hl2.
Qed.

(** [salloc] gives out a fresh structure, or NULL; it panics at most when a new bucket is asked for. *)
Lemma wpp_salloc s L obj o : sa_inv s L → sa_objs s !! obj = Some o →
  wpp (salloc obj) (salloc_post s L obj o) s ∧ (so_partial_count o ≠ 0 → wp (salloc obj) (salloc_post s L obj o) s).
Proof.
  intros HI Ho. destruct (salloc_enter s L obj o HI Ho) as (s1 & A & G & Pl & o1 & E & He & Hc). rw /wp /wpp E. split.
  - destruct (decide (so_partial_count o1 = 0)) as [Hz|Hz]; [exact (wpp_salloc_new _ _ _ _ _ _ _ _ _ Ho He Hz)|].
    exact (wpp_wp _ _ _ (wp_salloc_partial _ _ _ _ _ _ _ _ _ Ho He Hz)).
  - rw -Hc. exact (wp_salloc_partial _ _ _ _ _ _ _ _ _ Ho He).
Qed.

(** *** Release *)

Lemma wp_sfree s L p i : sa_inv s L → L !! p = Some i → wp (sfree p) (λ _ s', kept s s' ∧ sa_inv s' (delete p L)) s.
Proof.
  intros [HU (A & G & Pl & Hh & HL)] Hp. pose proof (proj1 (HL p i) Hp) as (b & B & o & HB & <- & Ho & Hx & Hn). set (x := p - MAGIC_SIZE) in *.
  assert (p = x + MAGIC_SIZE) as Ep by lia. destruct (ptr_of_block _ _ _ _ _ _ _ _ _ Hh HB Ho Hx) as [_ Ex]. rw -Ep in Ex.
  pose proof Hh as [HI _]. destruct (bo_entry _ _ _ _ _ (hi_bucket _ _ _ _ _ _ _ HI b B HB) o Ho) as (_ & _ & Hm). destruct (Hm x Hx) as (m & Hm1 & Hm2).
  rw /sfree Ex. wp_step. eapply wp_read_block; [exact Hm1|]. rw Hm2. wp_step. eapply wp_read_bucket; [exact HB|]. wp_step. eapply wp_read_obj; [exact Ho|].
  wp_step. eapply wp_call; [exact Hh|]. intros k Hh1. set (s1 := set_sa_env k s) in *.
  wp_step. eapply (wp_spinlock_lock_int (obj_lock _)); [cbn; by rw Ho /= (HU _ o Ho)|done|].
  pose proof (locked_alike s1 (bk_obj B)) as A2. pose proof (locks_locked s1 (bk_obj B) HU) as L2. set (s2 := locked_state _ s1) in *.
  pose proof (alike_heap _ _ _ _ _ _ A2 Hh1) as Hh2. pose proof (same_core_static _ _ (ak_objs _ _ A2)) as S2.
  destruct (same_static_l _ _ _ _ S2 Ho) as (o2 & Ho2 & Es2).
  wp_step. eapply wp_put_block; [exact Hh2|exact HB|exact Ho2|by rw -(static_blocks _ _ b Es2)|exact Hn|]. intros s3 A3 G3 Pl3 Hf3 Hh3 Hl3.
  destruct (same_static_l _ _ _ _ (fr_static _ _ Hf3) Ho2) as (o3 & Ho3 & _). wp_step. apply wp_write_obj; [eauto|]. set (s4 := upd_objs _ s3).
  assert (alike s3 s4) as A4 by by apply counted_alike.
  assert (locks s4 (bk_obj B) (mk_spinlock true (int_state s1))) as L4 by (apply locks_counts; [done|exact (locks_frame _ _ _ _ Hf3 L2)]).
  assert (∃ o4, sa_objs s4 !! bk_obj B = Some o4) as [o4 Ho4] by (cbn; rw lookup_alter_eq Ho3; eauto).
  eapply (wp_spinlock_unlock_int (obj_lock _)); [exact (lk_get_locks _ _ _ _ Ho4 L4)|cbn; by rw (fr_int _ _ Hf3)|]. set (s5 := set_int _ _).
  assert (alike s3 s5) as A5 by (eapply alike_trans; [exact A4|apply released_alike]). split; [split; [done|]|].
  { eapply same_static_trans; [exact S2|]. eapply same_static_trans; [apply Hf3|]. exact (same_core_static _ _ (ak_objs _ _ A5)). }
  split; [exact (locks_released _ _ _ _ L4)|]. exists A3, G3, Pl3. split; [exact (alike_heap _ _ _ _ _ _ A5 Hh3)|].
  intros q j. rw (alike_live s3 s5 G3 j q A5) Hl3 -Ep (alike_live s1 s2 G j q A2). change (live s1 G j q) with (live s G j q). rw -HL lookup_delete_Some. naive_solver.
Qed.

(** *** Creation *)

(** The sizes [salloc_create] is called with: the structures of a first bucket fit into the largest block of frames, and on a
    64-bit machine the sizes are already aligned. *)
Record create_ok (size align count : Z) : Prop := {
  cr_size : 0 < size;
  cr_align : 0 < align ∧ (align | PAGE_SIZE);
  cr_count : 2 ≤ count;
  cr_total : round_up (BUCKET_SIZE + MAGIC_SIZE) align + round_up (size + MAGIC_SIZE) align * count ≤ 2 ^ 15 * PAGE_SIZE;
  cr_width : ARCH_WIDTH = 32 ∨ (align | size + MAGIC_SIZE) ∧ (align | BUCKET_SIZE + MAGIC_SIZE)
}.

Definition create_layout (size align count : Z) : salloc_layout :=
  let bs := round_up (size + MAGIC_SIZE) align in
  let start := round_up (BUCKET_SIZE + MAGIC_SIZE) align - MAGIC_SIZE in
  let pages := 2 ^ Z.log2_up (round_up (start + bs * count) PAGE_SIZE / PAGE_SIZE) in
  mk_layout align bs start pages ((pages * PAGE_SIZE - start) / bs).

Definition object_of (l : salloc_layout) (next size ctor dtor : Z) : salloc_obj :=
  mk_obj next size (ly_block_size l) (ly_align l) (ly_start_offset l) ctor dtor (ly_page_count l) (ly_block_count l) 0 0 SPINLOCK_INIT 0 0.

Lemma BUCKET_le : BUCKET_SIZE ≤ 48 ∧ MAGIC_SIZE ≤ 16.
Proof. rw /BUCKET_SIZE /MAGIC_SIZE. by destruct arch_width_cases as [-> | ->]. Qed.

Lemma PAGE_SIZE_cases : PAGE_SIZE = 4096 ∨ PAGE_SIZE = 8192.
Proof. rw /PAGE_SIZE. pose proof page_bits_range. assert (PAGE_BITS = 12 ∨ PAGE_BITS = 13) as [-> | ->] by lia; auto. Qed.

Lemma ret_bind {X Y} (x : X) (f : X → outcome Y) : Ret x ≫= f = f x.
Proof. done. Qed.

(** Rounding up by the remainder. *)
Lemma pages_value v : 0 ≤ v ≤ 2 ^ 28 → (if ctrue (v mod PAGE_SIZE) then ulong (v / PAGE_SIZE + 1) else v / PAGE_SIZE) = round_up v PAGE_SIZE / PAGE_SIZE.
Proof.
  intros Hv. pose proof PAGE_SIZE_pos as HP. assert (PAGE_SIZE ≠ 0) as Hnz by lia. assert (0 ≤ v) as Hv0 by lia. rw /round_up. rw Z.div_mul; [done|]. pose proof (Z.div_mod v PAGE_SIZE Hnz) as Hd.
  pose proof (Z.mod_pos_bound v PAGE_SIZE HP) as Hm. pose proof (Z.div_pos v PAGE_SIZE Hv0 HP) as Hq. destruct (ctrue (v mod PAGE_SIZE)) eqn:E.
  - apply ctrue_ne in E. assert ((v + PAGE_SIZE - 1) / PAGE_SIZE = v / PAGE_SIZE + 1) as -> by (symmetry; apply (Z.div_unique_pos _ _ _ (v mod PAGE_SIZE - 1)); lia).
    apply wrap_small. assert (2 ^ 32 ≤ 2 ^ ARCH_WIDTH) by by destruct arch_width_cases as [-> | ->]. rw /uint. nia.
  - rw /ctrue in E. apply negb_false_iff, Z.eqb_eq in E. apply (Z.div_unique_pos _ _ _ (PAGE_SIZE - 1)); lia.
Qed.

Section Layout.
Context size align count (Hc : create_ok size align count).

Abbreviation bs := (round_up (size + MAGIC_SIZE) align).
Abbreviation start := (round_up (BUCKET_SIZE + MAGIC_SIZE) align - MAGIC_SIZE).
Abbreviation total := (start + bs * count).
Abbreviation pc := (round_up total PAGE_SIZE / PAGE_SIZE).
Abbreviation pages := (2 ^ Z.log2_up pc).

Lemma layout_sizes : size + MAGIC_SIZE ≤ bs ∧ BUCKET_SIZE ≤ start ∧ 0 < bs ∧ 0 < bs * count ∧ total ≤ 2 ^ 15 * PAGE_SIZE ∧
  0 < pc ≤ 2 ^ 15 ∧ total ≤ pc * PAGE_SIZE ∧ (align | bs) ∧ (align | start + MAGIC_SIZE).
Proof using Hc.
  destruct Hc as [C1 [C2 C3] C4 C5 C6]. pose proof (round_up_bounds (size + MAGIC_SIZE) align C2) as [B1 B2].
  pose proof (round_up_bounds (BUCKET_SIZE + MAGIC_SIZE) align C2) as [B3 B4]. pose proof MAGIC_pos. pose proof BUCKET_pos.
  pose proof PAGE_SIZE_pos as HP. pose proof (round_up_bounds total PAGE_SIZE PAGE_SIZE_pos) as [B5 [k Ek]]. assert (0 < bs) by lia. assert (0 < bs * count) by nia.
  assert (total ≤ 2 ^ 15 * PAGE_SIZE) by lia. rw Ek. rw Z.div_mul; [lia|]. rw Ek in B5. repeat split; try lia; try nia; try done.
  by replace (start + MAGIC_SIZE) with (round_up (BUCKET_SIZE + MAGIC_SIZE) align) by lia.
Qed.

Lemma layout_pages : pc ≤ pages ≤ 2 ^ 15.
Proof using Hc.
  destruct layout_sizes as (_ & _ & _ & _ & _ & Hpc & _). split; [apply Z.log2_up_le_pow2; lia|].
  apply Z.pow_le_mono_r; [lia|]. apply Z.log2_up_le_pow2; lia.
Qed.

Lemma layout_count : count ≤ (pages * PAGE_SIZE - start) / bs.
Proof using Hc.
  destruct layout_sizes as (L1 & L2 & L3 & L4 & L5 & L6 & L7 & L8 & L9). pose proof layout_pages as L10. pose proof PAGE_SIZE_pos as HP.
  assert (pc * PAGE_SIZE ≤ pages * PAGE_SIZE) by nia. apply Z.div_le_lower_bound; lia.
Qed.

Lemma layout_object next ctor dtor : obj_ok (object_of (create_layout size align count) next size ctor dtor).
Proof using Hc.
  destruct layout_sizes as (L1 & L2 & L3 & L4 & L5 & L6 & L7 & L8 & L9). pose proof layout_pages as L10. pose proof PAGE_SIZE_pos as HP.
  pose proof layout_count as Hcnt. destruct Hc as [C1 [C2 C3] C4 C5 C6].
  split; cbn [object_of create_layout so_struct_size so_block_size so_alignment so_block_start_offset so_bucket_page_count so_bucket_block_count
    ly_align ly_block_size ly_start_offset ly_page_count ly_block_count].
  - lia.
  - done.
  - pose proof (Z.mul_div_le (pages * PAGE_SIZE - start) bs L3). lia.
  - split; [lia|]. apply Z.div_lt_upper_bound; [done|]. destruct PAGE_SIZE_cases as [E|E]; rw E in L10 |- *; pose proof BUCKET_pos; nia.
  - lia.
  - done.
Qed.

Lemma layout_value align0 count0 : align = (if ctrue align0 then align0 else DATA_ALIGNMENT) → count = (if ctrue count0 then count0 else 32) →
  compute_layout size align0 count0 = Ret (create_layout size align count).
Proof using Hc.
  intros Ea Ec. destruct layout_sizes as (L1 & L2 & L3 & L4 & L5 & L6 & L7 & L8 & L9). pose proof layout_pages as L10. pose proof PAGE_SIZE_cases as HP.
  pose proof BUCKET_le as [B1 B2]. pose proof BUCKET_pos as B3. pose proof MAGIC_pos as B4. destruct Hc as [C1 [C2 C3] C4 C5 C6].
  assert (align ≤ PAGE_SIZE) as Hal by (apply Z.divide_pos_le; [lia|done]). assert (bs ≤ bs * count) as Hbs by nia.
  assert (2 ^ 32 ≤ 2 ^ ARCH_WIDTH) as Hw by by destruct arch_width_cases as [-> | ->].
  assert (∀ v, 0 ≤ v < 2 ^ 32 → ulong v = v) as Hul by (intros v Hv; apply wrap_small; rw /uint; lia).
  assert (2 ^ 15 * PAGE_SIZE ≤ 2 ^ 28) as Hbig by (destruct HP as [-> | ->]; done).
  rw /compute_layout -Ea -Ec. rw (Hul (size + MAGIC_SIZE)); [lia|].
  rw (align_up_any_value (size + MAGIC_SIZE)); [lia|lia|lia|tauto|]. rw ret_bind. rw align_up_any_value; [lia|lia|lia|tauto|]. rw ret_bind. cbv zeta.
  rw (Hul start); [lia|]. assert (count ≤ bs * count) by nia. rw (Hul count); [lia|]. rw (Hul (bs * count)); [lia|]. rw (Hul total); [lia|].
  assert ((if ctrue (total mod PAGE_SIZE) then ulong (total / PAGE_SIZE + 1) else total / PAGE_SIZE) = pc) as Epc by (apply pages_value; lia).
  rw Epc. rw (swrap32_small pc); [lia|]. rw calc_order_value; [lia|]. rw (proj2 (Z.leb_le _ _)); [lia|]. rw ret_bind.
  rw Z.shiftl_1_l. assert (pc * PAGE_SIZE ≤ pages * PAGE_SIZE ≤ 2 ^ 15 * PAGE_SIZE) as Hpp by (split; apply Z.mul_le_mono_nonneg_r; lia).
  assert (0 < pages) by lia. rw (Hul pages); [lia|]. rw (Hul (pages * PAGE_SIZE)); [lia|]. rw (Hul (pages * PAGE_SIZE - start)); [lia|].
  assert (0 ≤ (pages * PAGE_SIZE - start) / bs < 2 ^ 29) as Hq by (split; [apply Z.div_pos; lia|apply Z.div_lt_upper_bound; nia]).
  rw quo_ulong_value; [rw /uint; lia|rw /uint; lia|lia|lia|]. rw ret_bind.
  rw (swrap32_small pages); [lia|]. rw swrap32_small; [lia|]. reflexivity.
Qed.
End Layout.

Lemma heap_create O BK BL A G Pl obj o : heap_inv O BK BL A G Pl None → O !! obj = None → obj_ok o → so_partial_next o = 0 → so_partial_count o = 0 →
  heap_inv (<[obj := o]> O) BK BL A G (gset_at obj [] Pl) None.
Proof.
  intros [I1 I2 I3 I4 I5 I6 I7 I8] Hn Hok Hp1 Hp2.
  assert (∀ i oi, O !! i = Some oi → (<[obj := o]> O) !! i = Some oi) as Hkeep by (intros i oi Hi; rw lookup_insert_ne; [congruence|done]).
  assert (∀ i oi, i ≠ obj → (<[obj := o]> O) !! i = Some oi → O !! i = Some oi) as Hback by (intros i oi Hne; by rw lookup_insert_ne; [congruence|]).
  assert (∀ b B, BK !! b = Some B → bk_obj B ≠ obj) as Hown by (intros b B HB E; destruct (bo_obj _ _ _ _ _ (I2 b B HB)); congruence).
  split; [| |done|done| | | |].
  - intros i oi Hi. destruct (decide (i = obj)) as [->|Hne]; [rw lookup_insert_eq in Hi; congruence|eauto].
  - intros b B HB. pose proof (Hown b B HB). destruct (I2 b B HB) as [[ob K1] K2 K3 K4 K5]. split; [eauto| |done..]. intros o' Ho'. apply K2. auto.
  - intros x m Hx. destruct (I5 x m Hx) as (b & B & ob & HB & Hob & Hin). exists b, B, ob. auto.
  - intros b n. rw I6. split; intros (B & ob & HB & Hob & ->); exists B, ob; [auto|]. split; [done|]. split; [|done]. apply Hback; [eauto|done].
  - intros i oi Hi. destruct (decide (i = obj)) as [->|Hne]; [rw lookup_insert_eq in Hi; injection Hi as <-; rw gset_same Hp1 Hp2; split; [done|]; split; [constructor|done]|].
    rw gset_other //. eauto.
  - intros i b Hi. destruct (decide (i = obj)) as [->|Hne].
    + rw gset_same. split; [by intros ?%elem_of_nil|]. intros (_ & B & HB & E & _). by destruct (Hown b B HB).
    + rw gset_other //. apply I8. destruct Hi as [oi Hi]. eauto.
Qed.

Lemma wp_salloc_create s L obj size align0 count0 ctor dtor align count : sa_inv s L → sa_objs s !! obj = None → create_ok size align count →
  align = (if ctrue align0 then align0 else DATA_ALIGNMENT) → count = (if ctrue count0 then count0 else 32) →
  wp (salloc_create obj size align0 count0 ctor dtor) (λ _ s', sa_inv s' L ∧ sa_int s' = sa_int s ∧
    sa_objs s' = <[obj := object_of (create_layout size align count) (sa_all s) size ctor dtor]> (sa_objs s)) s.
Proof.
  intros [HU (A & G & Pl & [HI He] & HL)] Hn Hc Ea Ec. rw /salloc_create. wp_step. wp_step. wp_step.
  eapply wp_lift; [exact (layout_value size align count Hc _ _ Ea Ec)|]. wp_step. wp_step. wp_step. set (o := mk_obj _ _ _ _ _ _ _ _ _ _ _ _ _ _).
  pose proof (layout_object size align count Hc (sa_all s) ctor dtor : obj_ok o) as Hok. cbn. split; [|done]. split.
  - intros i oi. cbn. destruct (decide (i = obj)) as [->|Hne]; [rw lookup_insert_eq; by intros [= <-]|rw lookup_insert_ne; [congruence|]; apply HU].
  - exists A, G, (gset_at obj [] Pl). split; [split; [by apply heap_create|done]|]. intros p i. rw HL. split; intros (b & B & ob & HB & <- & Hob & Hin); exists b, B, ob.
    + split; [done|]. split; [done|]. split; [|done]. cbn. rw lookup_insert_ne; [congruence|done].
    + split; [done|]. split; [done|]. split; [|done]. cbn in Hob. destruct (bo_obj _ _ _ _ _ (hi_bucket _ _ _ _ _ _ _ HI b B HB)) as [ob' Hob'].
      rw lookup_insert_ne in Hob; [congruence|done].
Qed.

(** ** Histories *)

(** The next call, with the structures in use before and after it. *)
Inductive sa_step : salloc_state K * gmap Z Z → salloc_state K * gmap Z Z → Prop :=
| step_create s L s' obj size align count ctor dtor :
    sa_objs s !! obj = None → create_ok size (if ctrue align then align else DATA_ALIGNMENT) (if ctrue count then count else 32) →
    salloc_create obj size align count ctor dtor s = Ret (tt, s') → sa_step (s, L) (s', L)
| step_salloc s L s' obj p : is_Some (sa_objs s !! obj) → salloc obj s = Ret (p, s') → sa_step (s, L) (s', if p =? 0 then L else <[p := obj]> L)
| step_sfree s L s' p i : L !! p = Some i → sfree p s = Ret (tt, s') → sa_step (s, L) (s', delete p L).

Definition sa_start (k : K) : salloc_state K := mk_sa ∅ ∅ ∅ 0 0 true k.

Lemma start_inv k : sa_env_inv k ∅ → sa_inv (sa_start k) ∅.
Proof.
  intros Hk. split; [by intros i o|]. exists ∅, (λ _, []), (λ _, []). split; [split; [|done]|].
  - split; try done; [intros b n|intros i b [o ?]; done]. rw lookup_empty. split; [done|]. by intros (? & ? & ? & _).
  - intros p i. rw lookup_empty. split; [done|]. by intros (? & ? & ? & ? & _).
Qed.

(** The structures in use have an object and lie where it wants them. *)
Lemma inv_placed s L p i : sa_inv s L → L !! p = Some i →
  ∃ o, sa_objs s !! i = Some o ∧ 0 < p ∧ p + so_struct_size o ≤ 2 ^ ARCH_WIDTH ∧ (so_alignment o | p).
Proof.
  intros [_ (A & G & Pl & Hh & HL)] (b & B & o & HB & <- & Ho & Hx & _)%HL. exists o. split; [done|].
  destruct (block_ptr _ _ _ _ _ _ _ _ _ Hh HB Ho Hx) as (X1 & X2 & X3). pose proof MAGIC_pos. replace (p - MAGIC_SIZE + MAGIC_SIZE) with p in * by lia.
  split; [lia|done].
Qed.

Lemma step_inv c c' : sa_inv c.1 c.2 → sa_step c c' → sa_inv c'.1 c'.2.
Proof.
  intros HI Hs. inversion Hs; subst; cbn in *.
  - match goal with H : sa_objs s !! obj = None, H2 : create_ok _ _ _, H3 : salloc_create _ _ _ _ _ _ _ = _ |- _ =>
      exact (proj1 (wp_run _ _ _ _ _ (wp_salloc_create s L obj size align count ctor dtor _ _ HI H H2 eq_refl eq_refl) H3)) end.
  - match goal with H : is_Some _, H2 : salloc _ _ = _ |- _ => destruct H as [o Ho]; destruct (wpp_run _ _ _ _ _ (proj1 (wpp_salloc s L obj o HI Ho)) H2) as [_ [[-> Hi]|(Hp & _ & _ & Hi)]] end.
    + done.
    + by rw (proj2 (Z.eqb_neq p 0) Hp).
  - match goal with H : L !! p = Some i, H2 : sfree _ _ = _ |- _ => exact (proj2 (wp_run _ _ _ _ _ (wp_sfree s L p i HI H) H2)) end.
Qed.

Lemma history_inv k s L : sa_env_inv k ∅ → rtc sa_step (sa_start k, ∅) (s, L) → sa_inv s L.
Proof.
  intros Hk Hr. assert (∀ c c', rtc sa_step c c' → sa_inv c.1 c.2 → sa_inv c'.1 c'.2) as Hind.
  { intros c c'. induction 1; eauto using step_inv. }
  exact (Hind _ _ Hr (start_inv k Hk)).
Qed.

(** ** The general allocator *)

(** The objects of [malloc_entries] have their sizes. *)
Definition sized s (obj : Z) (sizes : list Z) : Prop :=
  ∀ i size, sizes !! i = Some size → ∃ o, sa_objs s !! (obj + Z.of_nat i) = Some o ∧ so_struct_size o = size.

Lemma sized_tail s obj size sizes : sized s obj (size :: sizes) → sized s (obj + 1) sizes.
Proof. intros Hs i sz Hi. destruct (Hs (S i) sz Hi) as (o & Ho & Hz). exists o. split; [|done]. rw -Ho. f_equal. lia. Qed.

Lemma sized_kept s s' obj sizes : kept s s' → sized s obj sizes → sized s' obj sizes.
Proof.
  intros [_ HO] Hs i sz Hi. destruct (Hs i sz Hi) as (o & Ho & Hz). destruct (same_static_l _ _ _ _ HO Ho) as (o' & Ho' & Es). exists o'. split; [done|].
  apply static_fields in Es as (<- & _). done.
Qed.

Lemma kept_trans s1 s2 s3 : kept s1 s2 → kept s2 s3 → kept s1 s3.
Proof. intros [A1 A2] [B1 B2]. split; [congruence|exact (same_static_trans _ _ _ A2 B2)]. Qed.

(** A structure of at least [size] bytes was given out. *)
Definition malloc_post s L (size p : Z) s' : Prop :=
  kept s s' ∧ p ≠ 0 ∧ L !! p = None ∧ ∃ i o, sa_objs s' !! i = Some o ∧ size ≤ so_struct_size o ∧ sa_inv s' (<[p := i]> L).

Lemma wpp_malloc_loop sizes obj size s L : sa_inv s L → sized s obj sizes → wpp (malloc_loop sizes obj size) (malloc_post s L size) s.
Proof.
  revert obj s. induction sizes as [|sz sizes IH]; intros obj s HI Hs; cbn [malloc_loop]; [done|].
  destruct (Hs 0%nat sz eq_refl) as (o & Ho & Hz). replace (obj + Z.of_nat 0) with obj in Ho by lia. apply sized_tail in Hs. apply wpp_bind.
  destruct (Z.leb_spec size sz) as [Hle|Hgt]; [|by apply wpp_wp, wp_ret, IH].
  eapply wpp_mono; [exact (proj1 (wpp_salloc s L obj o HI Ho))|]. intros p s' [Hk [[-> Hi]|(Hp & Hn & _ & Hi)]].
  - eapply wpp_mono; [apply (IH (obj + 1) s' Hi); exact (sized_kept _ _ _ _ Hk Hs)|]. intros q s2 [Hk2 Hq]. split; [exact (kept_trans _ _ _ Hk Hk2)|done].
  - rw (proj2 (ctrue_ne p) Hp). apply wpp_wp, wp_ret. split; [done|]. split; [done|]. split; [done|].
    destruct Hk as [_ HO]. destruct (same_static_l _ _ _ _ HO Ho) as (o' & Ho' & Es). exists obj, o'. split; [done|]. apply static_fields in Es as (<- & _). split; [lia|done].
Qed.

Lemma malloc_loop_large sizes obj size s : Forall (λ sz, sz < size) sizes → malloc_loop sizes obj size s = Panic.
Proof.
  revert obj. induction sizes as [|sz sizes IH]; intros obj; cbn [malloc_loop]; [done|]. intros [Hlt Hs]%Forall_cons. rw (proj2 (Z.leb_gt size sz)); [lia|]. by apply IH.
Qed.

Lemma malloc_create_ok size : DATA_ALIGNMENT = 8 → size ∈ malloc_sizes → create_ok size (if ctrue 0 then 0 else DATA_ALIGNMENT) (if ctrue 0 then 0 else 32).
Proof.
  intros Ha Hin. cbn. rw Ha. split; [|split; [done|destruct PAGE_SIZE_cases as [-> | ->]; [by exists 512|by exists 1024]]|done| |].
  - rw /malloc_sizes !elem_of_cons elem_of_nil in Hin. lia.
  - assert (2 ^ 15 * 4096 ≤ 2 ^ 15 * PAGE_SIZE) as Hb by (destruct PAGE_SIZE_cases as [-> | ->]; done). eapply Z.le_trans; [|exact Hb].
    rw /BUCKET_SIZE /MAGIC_SIZE. rw /malloc_sizes !elem_of_cons elem_of_nil in Hin.
    destruct arch_width_cases as [-> | ->]; destruct_or! Hin; subst; try done; vm_compute; congruence.
  - rw /BUCKET_SIZE /MAGIC_SIZE. rw /malloc_sizes !elem_of_cons elem_of_nil in Hin.
    destruct arch_width_cases as [-> | ->]; [by left|right]. cbn. split; [|by exists 8].
    destruct_or! Hin; subst; try done; [by exists 4|by exists 6|by exists 10|by exists 18|by exists 34|by exists 50|by exists 66|by exists 98].
Qed.

Lemma wp_init_malloc_loop sizes obj s L : DATA_ALIGNMENT = 8 → sa_inv s L → (∀ size, size ∈ sizes → size ∈ malloc_sizes) →
  (∀ i, obj ≤ i < obj + Z.of_nat (length sizes) → sa_objs s !! i = None) →
  wp (init_malloc_loop sizes obj) (λ _ s', sa_inv s' L ∧ sized s' obj sizes ∧ ∀ i, i < obj → sa_objs s' !! i = sa_objs s !! i) s.
Proof.
  intros Ha. revert obj s. induction sizes as [|sz sizes IH]; intros obj s HI Hsub Hfree; cbn [init_malloc_loop]; [wp_step; by split_and!|]. cbn [length] in Hfree.
  wp_step. eapply wp_mono; [apply (wp_salloc_create s L obj sz 0 0 0 0 DATA_ALIGNMENT 32 HI); [apply Hfree; lia|apply (malloc_create_ok sz Ha), Hsub; by left|done|done]|].
  cbv beta. intros _ s1 (HI1 & _ & HO1). eapply wp_mono; [apply (IH (obj + 1) s1 HI1)|].
  - intros z Hz. apply Hsub. by right.
  - intros i Hi. rw HO1 lookup_insert_ne; [lia|]. apply Hfree. lia.
  - cbv beta. intros _ s2 (HI2 & Hs2 & Hk2). split; [done|]. split.
    + intros [|i] z Hz.
      * injection Hz as <-. replace (obj + Z.of_nat 0) with obj by lia. rw Hk2; [lia|]. rw HO1 lookup_insert_eq. eexists. by split.
      * destruct (Hs2 i z Hz) as (o & Ho & Hoz). exists o. split; [|done]. rw -Ho. f_equal. lia.
    + intros i Hi. rw Hk2; [lia|]. rw HO1 lookup_insert_ne; [lia|done].
Qed.

(** ** Claims *)

(** C6. However objects are created and structures allocated and released, the
    structures in use never overlap, and each has the alignment its object was
    created with. *)
Theorem salloc_structures_disjoint k s L p i o q j o' : sa_env_inv k ∅ → rtc sa_step (sa_start k, ∅) (s, L) →
  L !! p = Some i → L !! q = Some j → p ≠ q → sa_objs s !! i = Some o → sa_objs s !! j = Some o' →
  (p + so_struct_size o ≤ q ∨ q + so_struct_size o' ≤ p) ∧ (so_alignment o | p) ∧ (so_alignment o' | q).
Proof.
  intros Hk Hr Hp Hq Hne Ho Ho'. pose proof (history_inv k s L Hk Hr) as HI. split; [by eapply (inv_apart s L p i o q j o')|].
  destruct (inv_placed s L p i HI Hp) as (o1 & Ho1 & _ & _ & Ha). destruct (inv_placed s L q j HI Hq) as (o2 & Ho2 & _ & _ & Ha'). split; congruence.
Qed.

(** C7. [salloc] and [sfree] implement an abstract allocator: [salloc] returns
    NULL and changes nothing, or returns an aligned address that was not in use
    and is then; it panics at most when it has to ask for a new bucket.
    [sfree] of a structure in use always returns and only that structure is then
    no longer in use.  Locks and the interrupt state are as before. *)
Theorem salloc_refines_allocator s L : sa_inv s L →
  (∀ obj o, sa_objs s !! obj = Some o →
     wpp (salloc obj) (salloc_post s L obj o) s ∧ (so_partial_count o ≠ 0 → wp (salloc obj) (salloc_post s L obj o) s)) ∧
  (∀ p i, L !! p = Some i → wp (sfree p) (λ _ s', kept s s' ∧ sa_inv s' (delete p L)) s).
Proof. intros HI. split; [intros obj o; by apply wpp_salloc|intros p i; by apply wp_sfree]. Qed.

(** The sizes [salloc_create] computes: at least the requested number of
    blocks fits into the pages of a bucket behind its header, a block holds its
    own header and the structure, and every structure is aligned in a bucket. *)
Theorem salloc_create_layout size align count : create_ok size (if ctrue align then align else DATA_ALIGNMENT) (if ctrue count then count else 32) →
  ∃ l, compute_layout size align count = Ret l ∧ (∀ next ctor dtor, obj_ok (object_of l next size ctor dtor)) ∧
    ly_page_count l = 2 ^ Z.log2 (ly_page_count l) ∧ (if ctrue count then count else 32) ≤ ly_block_count l.
Proof.
  intros Hc. exists (create_layout size (if ctrue align then align else DATA_ALIGNMENT) (if ctrue count then count else 32)).
  split; [by apply layout_value|]. split; [by apply layout_object|]. split; [cbn; by rw Z.log2_pow2; [apply Z.log2_up_nonneg|]|].
  by apply layout_count.
Qed.

(** [malloc] gives out a structure of at least the requested size that was
    not in use, from the first object large enough that has one; it panics when
    no object does, and in particular for more than 768 bytes. *)
Theorem malloc_serves s L objs size : sa_inv s L → sized s objs malloc_sizes →
  wpp (malloc objs size) (malloc_post s L size) s ∧ (768 < size → malloc objs size s = Panic).
Proof.
  intros HI Hs. split; [by apply wpp_malloc_loop|]. intros Hlt. apply malloc_loop_large. repeat (constructor; [lia|]). constructor.
Qed.
End Props.
