(* ===== verification/SallocKernel.v ===== *)
(** The structure allocator over the kernel's frame allocator: [palloc_ptr] and
    [pfree_ptr] of [PallocInit.v] keep what [SallocSpec.v] asks of them, so the
    claims about structures hold for buckets the buddy allocator hands out.

    Kernel pointers are physical addresses moved by a constant, as in the direct
    maps of the architectures.  The interrupt state is part of both components'
    states; each leaves it as it found it.  [salloc_default_ctor] only clears the
    structure, whose contents are not modelled. *)

From stdpp Require Import base list gmap relations.
From Stdlib Require Import ZArith Lia.
From Corelib Require Import ssreflect.
From S2P Require Import Prelude Bits Lock Mem Palloc PallocSpec PallocProps PallocInit Salloc SallocSpec SallocProps.

Section Kernel.
Context `{Harch : Arch} (base : Z).

Definition to_ptr (paddr : Z) : Z := base + paddr.
Definition to_paddr (ptr : Z) : Z := ptr - base.

#[export] Instance kernel_salloc_env : SallocEnv palloc_state := {
  env_palloc_ptr := palloc_ptr to_ptr;
  env_pfree_ptr := pfree_ptr to_paddr;
  env_callback _ _ _ := mret tt
}.

(** All frames of the allocator have a kernel pointer. *)
Definition frames_mapped (k : palloc_state) : Prop :=
  0 < pfn_start k ∧ (PAGE_SIZE | base) ∧ 0 < base + pfn_start k * PAGE_SIZE ∧ base + pfn_limit k * PAGE_SIZE ≤ 2 ^ ARCH_WIDTH ∧
  pfn_limit k * PAGE_SIZE ≤ 2 ^ PADDR_WIDTH.

(** The buckets of [A] are allocated blocks. *)
Definition kernel_sa_inv (k : palloc_state) (A : gmap Z Z) : Prop := ∃ B,
  palloc_inv k B ∧ frames_mapped k ∧
  ∀ b n, A !! b = Some n → 0 < n ∧ ∃ p r, b = base + p * PAGE_SIZE ∧ allocated B !! p = Some (mk_blk r (Z.log2_up n) true).

Lemma block_range k B p b : palloc_inv k B → allocated B !! p = Some b → pfn_start k ≤ p ∧ p + 2 ^ b_order b ≤ pfn_limit k ∧ 0 ≤ b_order b.
Proof.
  intros Hpi [Hp _]%allocated_lookup. destruct (pi_lists _ _ Hpi) as [L Hi].
  destruct (di_blk _ _ _ _ (bi_dinv _ _ _ _ _ _ Hi) _ _ Hp) as (_ & Ho & ? & ? & _). lia.
Qed.

Lemma log2_up_holds n : 0 < n → n ≤ 2 ^ Z.log2_up n.
Proof. intros Hn. apply Z.log2_up_le_pow2; lia. Qed.

Lemma kernel_range k A b n : kernel_sa_inv k A → A !! b = Some n → 0 < b ∧ b + n * PAGE_SIZE ≤ 2 ^ ARCH_WIDTH ∧ (PAGE_SIZE | b).
Proof.
  intros (B & Hpi & (F1 & F2 & F3 & F4 & F5) & HA) Hb. destruct (HA b n Hb) as (Hn & p & r & -> & Hp). pose proof PAGE_SIZE_pos as HP.
  destruct (block_range _ _ _ _ Hpi Hp) as (R1 & R2 & _). cbn in R2. pose proof (log2_up_holds n Hn). split; [nia|]. split; [nia|].
  apply Z.divide_add_r; [done|by exists p].
Qed.

Lemma kernel_apart k A b n b' n' : kernel_sa_inv k A → A !! b = Some n → A !! b' = Some n' → b ≠ b' → b + n * PAGE_SIZE ≤ b' ∨ b' + n' * PAGE_SIZE ≤ b.
Proof.
  intros (B & Hpi & _ & HA) Hb Hb' Hne. destruct (HA b n Hb) as (Hn & p & r & -> & Hp). destruct (HA b' n' Hb') as (Hn' & p' & r' & -> & Hp').
  pose proof PAGE_SIZE_pos as HP. pose proof (log2_up_holds n Hn). pose proof (log2_up_holds n' Hn'). assert (p ≠ p') as Hpp by congruence.
  assert (p + 2 ^ Z.log2_up n ≤ p' ∨ p' + 2 ^ Z.log2_up n' ≤ p) as [?|?]; [|left; nia|right; nia].
  pose proof Hp as [HB _]%allocated_lookup. pose proof Hp' as [HB' _]%allocated_lookup. destruct (pi_lists _ _ Hpi) as [L Hi].
  pose proof (di_disj _ _ _ _ (bi_dinv _ _ _ _ _ _ Hi) _ _ _ _ (Z.max p p') HB HB') as Hd.
  destruct (Z.lt_ge_cases (Z.max p p') (p + 2 ^ Z.log2_up n)); [|lia]. destruct (Z.lt_ge_cases (Z.max p p') (p' + 2 ^ Z.log2_up n')); [|lia].
  destruct Hpp. apply Hd; split; cbn; lia.
Qed.

Lemma kernel_palloc_ptr_ok k A n : kernel_sa_inv k A → 0 < n ≤ 2 ^ 15 →
  wpp (palloc_ptr to_ptr n) (λ p k', p = 0 ∧ kernel_sa_inv k' A ∨ p ≠ 0 ∧ A !! p = None ∧ kernel_sa_inv k' (<[p := n]> A)) k.
Proof.
  intros HK Hn. pose proof HK as (B & Hpi & HF & HA). pose proof HF as (F1 & F2 & F3 & F4 & F5). pose proof PAGE_SIZE_pos as HP.
  rw /palloc_ptr /palloc_paddr_direct_mapped /palloc_direct_mapped. apply wpp_bind, wpp_bind, wpp_bind, wpp_wp.
  eapply wp_mono; [exact (wp_palloc_tags_loop k B n direct_mapped_tags Hpi (page0_start _ _ Hpi F1) Hn)|]. cbv zeta.
  intros pfn k' [(-> & -> & _)|(Hpfn & r & g & B' & _ & _ & _ & _ & Hpi' & Hss & Hal)]; [done|].
  apply wpp_bind. rw (proj2 (ctrue_ne pfn) Hpfn). apply wpp_wp, wp_ret. apply wpp_wp, wp_ret, wpp_wp, wp_ret. apply wpp_wp, wp_ret.
  assert (allocated B' !! pfn = Some (mk_blk r (Z.log2_up n) true)) as Hp by (rw (al_blocks _ _ _ _ _ Hal); apply lookup_insert_eq).
  assert (frames_mapped k') as HF' by (rw /frames_mapped (ss_start _ _ Hss) (ss_limit _ _ Hss); done).
  destruct (block_range _ _ _ _ Hpi' Hp) as (R1 & R2 & R3). rw (ss_start _ _ Hss) in R1. rw (ss_limit _ _ Hss) in R2. cbn in R2, R3.
  assert (0 < 2 ^ Z.log2_up n) by lia. rw ppfn_to_paddr_mul; [lia|nia|]. rw (proj2 (ctrue_ne (pfn * PAGE_SIZE))); [nia|]. right. rw /to_ptr. split; [nia|]. split.
  - destruct (A !! (base + pfn * PAGE_SIZE)) as [m|] eqn:Em; [|done]. destruct (HA _ _ Em) as (_ & p & r' & E & Hp'). assert (p = pfn) as -> by nia.
    by rw (al_fresh _ _ _ _ _ Hal) in Hp'.
  - exists B'. split; [done|]. split; [done|]. intros b m. destruct (decide (b = base + pfn * PAGE_SIZE)) as [->|Hne].
    + rw lookup_insert_eq. intros [= <-]. split; [lia|]. by exists pfn, r.
    + rw lookup_insert_ne; [congruence|]. intros Hb. destruct (HA b m Hb) as (Hm & p & r' & -> & Hp'). split; [done|]. exists p, r'. split; [done|].
      rw (al_blocks _ _ _ _ _ Hal) lookup_insert_ne //. congruence.
Qed.

Lemma kernel_pfree_ptr_ok k A p n : kernel_sa_inv k A → A !! p = Some n → wp (pfree_ptr to_paddr p) (λ _ k', kernel_sa_inv k' (delete p A)) k.
Proof.
  intros (B & Hpi & HF & HA) Hp. destruct (HA p n Hp) as (Hn & q & r & -> & Hq). pose proof PAGE_SIZE_pos as HP.
  rw /pfree_ptr /to_paddr. replace (base + q * PAGE_SIZE - base) with (q * PAGE_SIZE) by lia. rw paddr_to_ppfn_div Z.div_mul; [lia|].
  pose proof Hq as [HB _]%allocated_lookup. eapply wp_mono; [exact (wp_pfree k B q r _ Hpi HB)|]. intros c k' (_ & B' & Hpi' & Hss & Hre).
  exists B'. split; [done|]. split; [rw /frames_mapped (ss_start _ _ Hss) (ss_limit _ _ Hss); done|].
  intros b m [Hne Hb]%lookup_delete_Some. destruct (HA b m Hb) as (Hm & q' & r' & -> & Hq'). split; [done|]. exists q', r'. split; [done|].
  rw (re_blocks _ _ _ _ _ Hre) lookup_delete_ne //. congruence.
Qed.

#[export] Instance kernel_salloc_laws : SallocEnvLaws palloc_state := {
  sa_env_inv := kernel_sa_inv;
  env_range := kernel_range;
  env_apart := kernel_apart;
  env_palloc_ptr_ok := kernel_palloc_ptr_ok;
  env_pfree_ptr_ok := kernel_pfree_ptr_ok;
  env_callback_ok := ltac:(by intros)
}.

End Kernel.

(** ** A run on RISC-V *)

#[local] Existing Instance riscv64.

(** Kernel pointers are physical addresses here; the frames 16 to 47 are free. *)
#[local] Instance demo_env : SallocEnv palloc_state := kernel_salloc_env 0.
#[local] Instance demo_laws : SallocEnvLaws palloc_state := kernel_salloc_laws 0.

Lemma demo_env_inv : sa_env_inv small_state ∅.
Proof.
  destruct small_state_inv as (B & Hpi & _). exists B. split; [exact Hpi|]. split; [|by intros b n ?].
  split; [done|]. split; [by exists 0|]. vm_compute. intuition congruence.
Qed.

(** An object for structures of 104 bytes, and two structures of it. *)
Definition demo0 : salloc_state palloc_state := final (sa_start small_state) (salloc_create 1 104 0 0 0 0 (sa_start small_state)).
Definition demo1 : salloc_state palloc_state := final demo0 (salloc 1 demo0).
Definition demo2 : salloc_state palloc_state := final demo1 (salloc 1 demo1).

Lemma demo_create_ok : create_ok 104 (if ctrue 0 then 0 else DATA_ALIGNMENT) (if ctrue 0 then 0 else 32).
Proof. split; [done|split; [done|by exists 512]|done|vm_compute; congruence|]. right. split; [by exists 15|by exists 8]. Qed.

Lemma demo_run : rtc sa_step (sa_start small_state, ∅) (demo2, <[196296 := 1]> (<[196416 := 1]> ∅)).
Proof.
  assert (salloc_create 1 104 0 0 0 0 (sa_start small_state) = Ret (tt, demo0)) as E0 by (apply final_run; vm_compute; reflexivity).
  assert (salloc 1 demo0 = Ret (196416, demo1)) as E1 by (apply final_run; vm_compute; reflexivity).
  assert (salloc 1 demo1 = Ret (196296, demo2)) as E2 by (apply final_run; vm_compute; reflexivity).
  eapply rtc_l; [exact (step_create (sa_start small_state) ∅ demo0 1 104 0 0 0 0 eq_refl demo_create_ok E0)|].
  eapply rtc_l; [apply (step_salloc demo0 ∅ demo1 1 196416); [vm_compute; by eexists|exact E1]|].
  eapply rtc_l; [apply (step_salloc demo1 (<[196416 := 1]> ∅) demo2 1 196296); [vm_compute; by eexists|exact E2]|]. apply rtc_refl.
Qed.

Lemma salloc_structures_disjoint_witness : 196416 + 104 ≤ 196296 ∨ 196296 + 104 ≤ 196416.
Proof.
  destruct (sa_objs demo2 !! 1) as [o|] eqn:Ho; [|vm_compute in Ho; discriminate].
  destruct (salloc_structures_disjoint small_state demo2 _ 196416 1 o 196296 1 o demo_env_inv demo_run) as [Hd _]; [reflexivity|reflexivity|lia|exact Ho|exact Ho|].
  assert (so_struct_size o = 104) as E by (vm_compute in Ho; injection Ho as <-; reflexivity). by rw E in Hd.
Defined.

Lemma salloc_refines_allocator_witness : sa_inv demo2 (<[196296 := 1]> (<[196416 := 1]> ∅)) ∧
  ∃ s', sfree 196416 demo2 = Ret (tt, s') ∧ sa_inv s' (<[196296 := 1]> ∅).
Proof.
  pose proof (history_inv _ _ _ demo_env_inv demo_run) as HI. split; [exact HI|]. destruct (salloc_refines_allocator demo2 _ HI) as [_ Hf].
  destruct (wp_elim _ _ _ (Hf 196416 1 eq_refl)) as ([] & s' & E & _ & Hi). exists s'. split; [exact E|].
  rw delete_insert_ne in Hi; [done|]. by rw delete_insert_id in Hi.
Defined.

Lemma salloc_create_layout_witness : ∃ l, compute_layout 104 0 0 = Ret l ∧ 32 ≤ ly_block_count l ∧ ly_block_count l = 33.
Proof.
  destruct (salloc_create_layout 104 0 0 demo_create_ok) as (l & E & _ & _ & Hc). exists l. split; [exact E|]. split; [exact Hc|].
  vm_compute in E. by injection E as <-.
Defined.

(** The objects of the general allocator. *)
Definition demo_malloc : salloc_state palloc_state := final (sa_start small_state) (init_malloc 100 (sa_start small_state)).

Lemma demo_malloc_ok : sa_inv demo_malloc ∅ ∧ sized demo_malloc 100 malloc_sizes.
Proof.
  pose proof (wp_init_malloc_loop malloc_sizes 100 (sa_start small_state) ∅ eq_refl (start_inv _ demo_env_inv) ltac:(done) ltac:(done)) as Hw.
  destruct (wp_elim _ _ _ Hw) as ([] & s' & E & HI & Hs & _). assert (demo_malloc = s') as -> by (rw /demo_malloc /init_malloc E; reflexivity). split; [exact HI|exact Hs].
Qed.

Lemma malloc_serves_witness : malloc 100 1000 demo_malloc = Panic ∧
  ∃ p s' i o, malloc 100 50 demo_malloc = Ret (p, s') ∧ p ≠ 0 ∧ sa_objs s' !! i = Some o ∧ 50 ≤ so_struct_size o.
Proof.
  destruct demo_malloc_ok as [HI Hs]. split; [apply (malloc_serves demo_malloc ∅ 100 1000 HI Hs); lia|].
  destruct (malloc_serves demo_malloc ∅ 100 50 HI Hs) as [Hm _]. destruct (result (malloc 100 50 demo_malloc)) as [p|] eqn:Er; [|vm_compute in Er; discriminate].
  apply (final_run demo_malloc) in Er. destruct (wpp_run _ _ _ _ _ Hm Er) as (_ & Hp & _ & i & o & Ho & Hz & _). exists p, (final demo_malloc (malloc 100 50 demo_malloc)), i, o.
  split; [exact Er|]. split; [exact Hp|]. split; [exact Ho|exact Hz].
Defined.

(** A bucket with one block becomes full at once; it is taken off a list it was
    never in, and the number of partial buckets wraps. *)
Lemma one_block_bucket_wraps : result ((salloc_create 1 4000 0 1 0 0;; salloc 1;; o ← read_obj 1; mret (so_bucket_block_count o, so_partial_count o)) (sa_start small_state)) =
  Some (1, 2 ^ 64 - 1).
Proof. vm_compute. reflexivity. Qed.
