(* ===== verification/Str.v ===== *)
(** Byte memory, and the string library of the kernel and the user programs:
    [src/src/libk/lib/string.c].

    Memory maps the addresses of live objects to bytes; an access to any other
    address, NULL included, is undefined behaviour ([Fault]).  Whether the plain
    [char] type is signed depends on the compiler's target, so it is a parameter
    ([CHAR_SIGNED]).  A loop that runs to the end of a string moves through
    mapped addresses, so the number of mapped bytes is fuel enough
    ([scan_fuel]).

    [cstr m p l] says that the string [l] with its terminating NUL is stored at
    [p], [arr m p l] that the bytes [l] are, and [put m p l] is the memory in
    which they have been written there. *)

From stdpp Require Import base list gmap.
From Stdlib Require Import ZArith Lia.
From Corelib Require Import ssreflect.
From S2P Require Import Prelude Bits.

(** The signedness of [char]. *)
Class CharType := { CHAR_SIGNED : bool }.

Definition mem := gmap Z Z.
Definition SM := M mem.

(** ** Memory accesses *)

Definition ldb (p : Z) : SM Z := deref (λ m, m !! p).
Definition stb (p v : Z) : SM unit := λ m,
  match m !! p with
  | Some _ => Ret (tt, <[p := u8 v]> m)
  | None => Fault
  end.

Definition scan_fuel (m : mem) : nat := S (size m).

Section Str.
Context `{Arch} `{CharType}.

(** The value of a byte as a [char]. *)
Definition to_char (b : Z) : Z := if CHAR_SIGNED then swrap 8 b else u8 b.
Definition ldc (p : Z) : SM Z := b ← ldb p; mret (to_char b).
Definition stc (p ch : Z) : SM unit := stb p ch.

(** ** Strings *)

Fixpoint strcpy_loop (fuel : nat) (ch dest src : Z) : SM Z :=
  match fuel with
  | O => diverge
  | S f =>
      if ctrue ch then
        stc dest ch;;
        ch ← ldc (src + 1);
        strcpy_loop f ch (dest + 1) (src + 1)
      else mret dest
  end.

Definition strcpy (dest src : Z) : SM Z :=
  fuel ← gets scan_fuel;
  ch ← ldc src;
  d ← strcpy_loop fuel ch dest src;
  stb d 0;;
  mret dest.

(** The loop returns the last value of [dest] and [i]. *)
Fixpoint strncpy_loop (fuel : nat) (ch dest src i n : Z) : SM (Z * Z) :=
  match fuel with
  | O => diverge
  | S f =>
      if ctrue ch && (i <? n) then
        stc dest ch;;
        ch ← ldc (src + 1);
        strncpy_loop f ch (dest + 1) (src + 1) (i + 1) n
      else mret (dest, i)
  end.

Definition strncpy (dest src n : Z) : SM Z :=
  fuel ← gets scan_fuel;
  ch ← ldc src;
  '(d, i) ← strncpy_loop fuel ch dest src 0 n;
  (if i <? n then stb d 0 else mret tt);;
  mret dest.

(** [*s1 || *s2]: the second string is read only when the first has ended. *)
Definition more (s1 s2 : Z) : SM bool :=
  c1 ← ldc s1;
  if ctrue c1 then mret true else
  c2 ← ldc s2;
  mret (ctrue c2).

Fixpoint strcmp_loop (fuel : nat) (s1 s2 : Z) : SM Z :=
  match fuel with
  | O => diverge
  | S f =>
      b ← more s1 s2;
      if b : bool then
        c1 ← ldc s1;
        c2 ← ldc s2;
        if negb (c1 =? c2) then mret (if c2 <? c1 then 1 else -1)
        else strcmp_loop f (s1 + 1) (s2 + 1)
      else mret 0
  end.

Definition strcmp (s1 s2 : Z) : SM Z :=
  if (s1 =? 0) && (s2 =? 0) then mret 0 else
  fuel ← gets scan_fuel;
  strcmp_loop fuel s1 s2.

Fixpoint strncmp_loop (n : nat) (s1 s2 : Z) : SM Z :=
  match n with
  | O => mret 0
  | S n' =>
      b ← more s1 s2;
      if b : bool then
        c1 ← ldc s1;
        c2 ← ldc s2;
        if negb (c1 =? c2) then mret (if c2 <? c1 then 1 else -1)
        else strncmp_loop n' (s1 + 1) (s2 + 1)
      else mret 0
  end.

Definition strncmp (s1 s2 n : Z) : SM Z :=
  if (s1 =? 0) && (s2 =? 0) then mret 0 else strncmp_loop (Z.to_nat n) s1 s2.

(** The length is counted in an [int]. *)
Fixpoint strlen_loop (fuel : nat) (s len : Z) : SM Z :=
  match fuel with
  | O => diverge
  | S f =>
      c ← ldc s;
      if ctrue c then
        if len =? 2 ^ 31 - 1 then fault else strlen_loop f (s + 1) (len + 1)
      else mret (ulong len)
  end.

Definition strlen (s : Z) : SM Z := fuel ← gets scan_fuel; strlen_loop fuel s 0.

(** The inner loop: is the character at [str1] one of those at [cmp]? *)
Fixpoint strpbrk_inner (fuel : nat) (str1 cmp : Z) : SM bool :=
  match fuel with
  | O => diverge
  | S f =>
      c ← ldc cmp;
      if ctrue c then
        c' ← ldc str1;
        if c =? c' then mret true else strpbrk_inner f str1 (cmp + 1)
      else mret false
  end.

Fixpoint strpbrk_loop (fuel : nat) (str1 str2 : Z) : SM Z :=
  match fuel with
  | O => diverge
  | S f =>
      c ← ldc str1;
      if ctrue c then
        n ← gets scan_fuel;
        b ← strpbrk_inner n str1 str2;
        if b : bool then mret str1 else strpbrk_loop f (str1 + 1) str2
      else mret 0
  end.

Definition strpbrk (str1 str2 : Z) : SM Z :=
  if (str1 =? 0) || (str2 =? 0) then mret 0 else
  fuel ← gets scan_fuel;
  strpbrk_loop fuel str1 str2.

Fixpoint strchr_loop (fuel : nat) (str c : Z) : SM Z :=
  match fuel with
  | O => diverge
  | S f =>
      ch ← ldc str;
      if ctrue ch then
        if ch =? c then mret str else strchr_loop f (str + 1) c
      else mret 0
  end.

Definition strchr (str c : Z) : SM Z :=
  if str =? 0 then mret 0 else
  fuel ← gets scan_fuel;
  strchr_loop fuel str c.

(** ** Memory *)

(** The counter is unsigned, so the loop runs [count] times. *)
Fixpoint memcpy_loop (n : nat) (d s : Z) : SM unit :=
  match n with
  | O => mret tt
  | S n' => b ← ldb s; stb d b;; memcpy_loop n' (d + 1) (s + 1)
  end.

Definition memcpy (dest src count : Z) : SM Z :=
  memcpy_loop (Z.to_nat count) dest src;; mret dest.

Fixpoint memset_loop (n : nat) (ptr val8 : Z) : SM unit :=
  match n with
  | O => mret tt
  | S n' => stb ptr val8;; memset_loop n' (ptr + 1) val8
  end.

Definition memset (src value size : Z) : SM Z :=
  memset_loop (Z.to_nat size) src (u8 value);; mret src.

Definition memzero (src size : Z) : SM Z := memset src 0 size.

Fixpoint memcmp_loop (n : nat) (cmp1 cmp2 : Z) : SM Z :=
  match n with
  | O => mret 0
  | S n' =>
      b1 ← ldb cmp1;
      b2 ← ldb cmp2;
      if b2 <? b1 then mret 1
      else if b1 <? b2 then mret (-1)
      else memcmp_loop n' (cmp1 + 1) (cmp2 + 1)
  end.

Definition memcmp (src1 src2 len : Z) : SM Z := memcmp_loop (Z.to_nat len) src1 src2.

Fixpoint memchr_loop (n : nat) (s c : Z) : SM Z :=
  match n with
  | O => mret 0
  | S n' => ch ← ldc s; if ch =? c then mret s else memchr_loop n' (s + 1) c
  end.

Definition memchr (blk c size : Z) : SM Z :=
  if blk =? 0 then mret 0 else memchr_loop (Z.to_nat size) blk c.

(** ** Search *)

(** [*s == first && !memcmp(s, needle, l)] *)
Definition matches_at (s first needle l : Z) : SM bool :=
  ch ← ldc s;
  if ch =? first then r ← memcmp s needle l; mret (r =? 0) else mret false.

Fixpoint strstr_loop (fuel : nat) (str first needle len : Z) : SM Z :=
  match fuel with
  | O => diverge
  | S f =>
      ch ← ldc str;
      if ctrue ch then
        remain_len ← strlen str;
        if remain_len <? len then mret 0 else
        b ← matches_at str first needle len;
        if b : bool then mret str else strstr_loop f (str + 1) first needle len
      else mret 0
  end.

Definition strstr (str needle : Z) : SM Z :=
  if (str =? 0) || (needle =? 0) then mret 0 else
  ch ← ldc needle;
  if negb (ctrue ch) then mret 0 else
  len ← strlen needle;
  fuel ← gets scan_fuel;
  first ← ldc needle;
  strstr_loop fuel str first needle len.

Fixpoint memstr_loop (n : nat) (s first needle l : Z) : SM Z :=
  match n with
  | O => mret 0
  | S n' =>
      b ← matches_at s first needle l;
      if b : bool then mret s else memstr_loop n' (s + 1) first needle l
  end.

Definition memstr (blk needle size : Z) : SM Z :=
  if (blk =? 0) || (needle =? 0) then mret 0 else
  ch ← ldc needle;
  if negb (ctrue ch) then mret 0 else
  l ← strlen needle;
  if size <? l then mret 0 else
  first ← ldc needle;
  memstr_loop (Z.to_nat (ulong (size - (l - 1)))) blk first needle l.

(** ** Digits and numbers *)

Definition isdigit (ch : Z) : bool := ctrue ch && ((48 <=? ch) && (ch <=? 57)).
Definition isxdigit (ch : Z) : bool :=
  ctrue ch && (((48 <=? ch) && (ch <=? 57)) || ((97 <=? ch) && (ch <=? 102)) || ((65 <=? ch) && (ch <=? 70))).

(** The body of the loop of [stou64] on one character. *)
Definition add_digit (base num ch : Z) : Z :=
  let num := if base =? 16 then u64 (num * 16) else u64 (num * 10) in
  if (48 <=? ch) && (ch <=? 57) then u64 (num + (ch - 48))
  else if (base =? 16) && (97 <=? ch) && (ch <=? 102) then u64 (num + (ch - 97 + 10))
  else if (base =? 16) && (65 <=? ch) && (ch <=? 70) then u64 (num + (ch - 65 + 10))
  else num.

Fixpoint stou64_loop (fuel : nat) (str base ch num : Z) : SM Z :=
  match fuel with
  | O => diverge
  | S f =>
      if isxdigit ch then
        ch' ← ldc (str + 1);
        stou64_loop f (str + 1) base ch' (add_digit base num ch)
      else mret num
  end.

(** [str[0] == '0' && (str[1] == 'x' || str[1] == 'X')] *)
Definition hex_prefix (str : Z) : SM bool :=
  c0 ← ldc str;
  if c0 =? 48 then c1 ← ldc (str + 1); mret ((c1 =? 120) || (c1 =? 88)) else mret false.

Definition stou64 (str base : Z) : SM Z :=
  if str =? 0 then mret 0 else
  c ← ldc str;
  if negb (ctrue c) then mret 0 else
  let neg := c =? 45 in
  let str := if neg then str + 1 else str in
  hex ← (if (base =? 0) || (base =? 16) then hex_prefix str else mret false);
  let str := if hex : bool then str + 2 else str in
  let base := if hex then 16 else base in
  fuel ← gets scan_fuel;
  ch ← ldc str;
  num ← stou64_loop fuel str base ch 0;
  mret (if neg then u64 (- num) else num).

Definition stou32 (str base : Z) : SM Z := r ← stou64 str base; mret (u32 r).
Definition stoul (str base : Z) : SM Z := r ← stou64 str base; mret (ulong r).
Definition stoi (str base : Z) : SM Z := r ← stou64 str base; mret (s32 r).
Definition atoi (str : Z) : SM Z := stoi str 10.
End Str.
