(* ===== verification/StrSpec.v ===== *)
(** Correctness of the string library: searching, comparing and copying agree
    with the corresponding functions on lists of bytes, and stay within the
    strings and blocks they are given. *)

From stdpp Require Import base list gmap.
From Stdlib Require Import ZArith Lia.
From Corelib Require Import ssreflect.
From S2P Require Import Prelude Bits Str.

(** ** Arrays and strings in memory *)

Fixpoint arr (m : mem) (p : Z) (l : list Z) : Prop :=
  match l with
  | [] => True
  | b :: l => m !! p = Some b ∧ arr m (p + 1) l
  end.

Fixpoint put (m : mem) (p : Z) (l : list Z) : mem :=
  match l with
  | [] => m
  | b :: l => put (<[p := b]> m) (p + 1) l
  end.

(** The [n] bytes from [p] on belong to live objects. *)
Definition owned (m : mem) (p n : Z) : Prop := ∀ a, p ≤ a < p + n → is_Some (m !! a).

Definition byte (b : Z) : Prop := uint 8 b.
Definition text (l : list Z) : Prop := Forall (λ b, 0 < b < 256) l.
Definition cstr (m : mem) (p : Z) (l : list Z) : Prop := arr m p (l ++ [0]) ∧ text l.

Lemma arr_app m p l1 l2 : arr m p (l1 ++ l2) ↔ arr m p l1 ∧ arr m (p + Z.of_nat (length l1)) l2.
Proof.
  revert p. induction l1 as [|b l1 IH]; intros p; cbn [app arr length].
  - rw Z.add_0_r. naive_solver.
  - rw IH. replace (p + 1 + Z.of_nat (length l1)) with (p + Z.of_nat (S (length l1))) by lia. naive_solver.
Qed.

Lemma arr_lookup m p l : arr m p l ↔ ∀ i b, l !! i = Some b → m !! (p + Z.of_nat i) = Some b.
Proof.
  revert p. induction l as [|c l IH]; intros p; cbn [arr]; [split; [by intros _ i b; rw lookup_nil|done]|].
  rw IH. split.
  - intros [Hp Hl] [|i] b Hb; [cbn in Hb; simplify_eq; by rw Z.add_0_r|]. replace (p + Z.of_nat (S i)) with (p + 1 + Z.of_nat i) by lia. by apply Hl.
  - intros Ha. split; [rw -(Z.add_0_r p); by apply (Ha 0%nat)|]. intros i b Hb. replace (p + 1 + Z.of_nat i) with (p + Z.of_nat (S i)) by lia. by apply Ha.
Qed.

Lemma arr_ext m m' p l : (∀ a, p ≤ a < p + Z.of_nat (length l) → m' !! a = m !! a) → arr m p l → arr m' p l.
Proof.
  intros Hm. rw !arr_lookup. intros Ha i b Hb. rw Hm; [|by apply Ha]. apply lookup_lt_Some in Hb. lia.
Qed.

Lemma arr_owned m p l : arr m p l → owned m p (Z.of_nat (length l)).
Proof.
  rw arr_lookup. intros Ha a Hr. destruct (lookup_lt_is_Some_2 l (Z.to_nat (a - p))) as [b Hb]; [lia|].
  exists b. replace a with (p + Z.of_nat (Z.to_nat (a - p))) by lia. by apply Ha.
Qed.

(** Consecutive mapped bytes are at most as many as there are mapped bytes. *)
Lemma owned_size m p n : owned m p (Z.of_nat n) → (n ≤ size m)%nat.
Proof.
  intros Ho. rw -size_dom. transitivity (size (list_to_set (seqZ p (Z.of_nat n)) : gset Z)).
  - rw size_list_to_set; [apply NoDup_seqZ|]. rw length_seqZ. lia.
  - apply subseteq_size. intros a Ha. apply elem_of_dom, Ho. by apply elem_of_list_to_set, elem_of_seqZ in Ha.
Qed.

Lemma arr_fuel m p l : arr m p l → (length l < scan_fuel m)%nat.
Proof. intros Ha. rw /scan_fuel. apply Nat.lt_succ_r, (owned_size m p), arr_owned, Ha. Qed.

Lemma put_out m p l a : ¬ (p ≤ a < p + Z.of_nat (length l)) → put m p l !! a = m !! a.
Proof.
  revert m p. induction l as [|b l IH]; intros m p Hr; cbn [put length] in *; [done|].
  rw IH; [lia|]. apply lookup_insert_ne. lia.
Qed.

Lemma put_arr m p l : arr (put m p l) p l.
Proof.
  revert m p. induction l as [|b l IH]; intros m p; cbn [put arr]; [done|].
  split; [|apply IH]. rw put_out; [lia|]. apply lookup_insert_eq.
Qed.

Lemma put_owned m p l q n : owned m q n → owned (put m p l) q n.
Proof.
  intros Ho a Ha. destruct (decide (p ≤ a < p + Z.of_nat (length l))) as [Hr|Hr]; [|rw put_out //; by apply Ho].
  by apply (arr_owned (put m p l) p l (put_arr m p l)).
Qed.

Lemma put_app m p l1 l2 : put m p (l1 ++ l2) = put (put m p l1) (p + Z.of_nat (length l1)) l2.
Proof.
  revert m p. induction l1 as [|b l1 IH]; intros m p; cbn [put app length]; [by rw Z.add_0_r|].
  rw IH. f_equal. lia.
Qed.

Lemma wp_ldb p b Q m : m !! p = Some b → Q b m → wp (ldb p) Q m.
Proof. apply wp_deref. Qed.

Lemma wp_stb p v Q m : is_Some (m !! p) → Q tt (<[p := u8 v]> m) → wp (stb p v) Q m.
Proof. intros [b Hb]. rw /wp /stb Hb. done. Qed.

(** Read-only code is specified by the equation of its run. *)
Lemma bind_run {S A B} (c : M S A) (f : A → M S B) s a s' : c s = Ret (a, s') → (c ≫= f) s = f a s'.
Proof. rw /mbind /M_bind. by intros ->. Qed.

Lemma ldb_run p b m : m !! p = Some b → ldb p m = Ret (b, m).
Proof. rw /ldb /deref. by intros ->. Qed.

Lemma byte_u8 b : byte b → u8 b = b.
Proof. apply wrap_small. Qed.

Section StrSpec.
Context `{Arch} `{CharType}.

(** ** Characters *)

Lemma to_char_0 : to_char 0 = 0.
Proof. rw /to_char. by destruct CHAR_SIGNED. Qed.

Lemma to_char_cases b : byte b → to_char b = if CHAR_SIGNED then (if b <? 128 then b else b - 256) else b.
Proof.
  intros [??]. rw /to_char. destruct CHAR_SIGNED; [|by apply byte_u8].
  rw /swrap. change (2 ^ (8 - 1)) with 128. change (2 ^ 8) with 256 in *. destruct (Z.ltb_spec b 128).
  - rw Z.mod_small; lia.
  - rw -(Z.mod_add _ (-1)); [lia|]. rw Z.mod_small; lia.
Qed.

Lemma to_char_inj b c : byte b → byte c → to_char b = to_char c → b = c.
Proof.
  intros Hb Hc. rw !to_char_cases //. destruct Hb, Hc. change (2 ^ 8) with 256 in *. destruct CHAR_SIGNED; [|done].
  destruct (Z.ltb_spec b 128), (Z.ltb_spec c 128); lia.
Qed.

(** A byte below 128 is the same character everywhere. *)
Lemma to_char_ascii b : 0 ≤ b < 128 → to_char b = b.
Proof. intros. rw to_char_cases; [rw /byte /uint; lia|]. rw (proj2 (Z.ltb_lt _ _)); [lia|]. by destruct CHAR_SIGNED. Qed.

Lemma text_byte b : 0 < b < 256 → byte b.
Proof. rw /byte /uint. lia. Qed.

Lemma to_char_true b : byte b → ctrue (to_char b) = ctrue b.
Proof.
  intros Hb. rw /ctrue. f_equal. destruct (Z.eqb_spec b 0) as [->|]; [by rw to_char_0|].
  apply Z.eqb_neq. rw -to_char_0. intros E%to_char_inj; done.
Qed.

Lemma text_char b : 0 < b < 256 → ctrue (to_char b) = true.
Proof. intros Hb. rw to_char_true; [by apply text_byte|]. apply negb_true_iff, Z.eqb_neq. lia. Qed.

Lemma to_char_eqb b c : byte b → byte c → (to_char b =? to_char c) = (b =? c).
Proof.
  intros Hb Hc. destruct (Z.eqb_spec b c) as [->|Hn]; [apply Z.eqb_refl|]. apply Z.eqb_neq. intros E%to_char_inj; done.
Qed.

Lemma u8_to_char b : byte b → u8 (to_char b) = b.
Proof.
  intros [??]. rw to_char_cases; [done|]. change (2 ^ 8) with 256 in *. destruct CHAR_SIGNED; [|by apply byte_u8].
  destruct (Z.ltb_spec b 128); [by apply byte_u8|]. rw /wrap -(Z.mod_add _ 1); [lia|]. change (2 ^ 8) with 256. rw Z.mod_small; lia.
Qed.

Lemma wp_ldc p b Q m : m !! p = Some b → Q (to_char b) m → wp (ldc p) Q m.
Proof. intros Hb HQ. apply wp_bind. eapply wp_ldb; [exact Hb|exact HQ]. Qed.

Lemma cstr_cons m p b l : cstr m p (b :: l) ↔ m !! p = Some b ∧ 0 < b < 256 ∧ cstr m (p + 1) l.
Proof. rw /cstr /text /= Forall_cons. naive_solver. Qed.

Lemma cstr_nil m p : cstr m p [] ↔ m !! p = Some 0.
Proof. rw /cstr /text /=. split; [naive_solver|]. intros ->. split; [done|by apply Forall_nil]. Qed.

Lemma cstr_fuel m p l : cstr m p l → (S (length l) < scan_fuel m)%nat.
Proof. intros [Ha _]. apply arr_fuel in Ha. rw length_app /= in Ha. lia. Qed.

Lemma cstr_drop m p l i : (i ≤ length l)%nat → cstr m p l → cstr m (p + Z.of_nat i) (drop i l).
Proof.
  intros Hi [Ha Ht]. split; [|by apply Forall_drop].
  rw -{1}(take_drop i l) -app_assoc arr_app length_take_le // in Ha. by destruct Ha.
Qed.

(** The first character of a string, NUL when it is empty. *)
Lemma cstr_head m p l : cstr m p l → ∃ b, m !! p = Some b ∧ b = hd 0 l ∧ byte b ∧ (ctrue b = true ↔ l ≠ []).
Proof.
  destruct l as [|b l]; [rw cstr_nil|rw cstr_cons].
  - exists 0. split_and!; done.
  - intros (Hp & Hb & _). exists b. split_and!; [done|done|by apply text_byte|]. split; [done|].
    intros _. apply negb_true_iff, Z.eqb_neq. lia.
Qed.
Lemma ldc_run p b m : m !! p = Some b → ldc p m = Ret (to_char b, m).
Proof. intros Hp. rw /ldc. by rw (bind_run _ _ _ _ _ (ldb_run _ _ _ Hp)). Qed.

(** Reading the next character of a string. *)
Lemma bind_ldc {B} (f : Z → SM B) p b m : m !! p = Some b → (ldc p ≫= f) m = f (to_char b) m.
Proof. intros Hp. by apply bind_run, ldc_run. Qed.

(** ** Length *)

Lemma strlen_loop_run m l : ∀ fuel p n, (length l < fuel)%nat → cstr m p l → 0 ≤ n → n + Z.of_nat (length l) < 2 ^ 31 →
  strlen_loop fuel p n m = Ret (ulong (n + Z.of_nat (length l)), m).
Proof.
  induction l as [|b l IH]; intros [|fuel] p n Hf Hs Hn Hl; [cbn in Hf; lia| |cbn in Hf; lia|]; cbn [strlen_loop].
  - apply cstr_nil in Hs. rw (bind_ldc _ _ _ _ Hs) to_char_0 /=. by rw Z.add_0_r.
  - apply cstr_cons in Hs as (Hp & Hb & Hs). cbn [length] in *. rw (bind_ldc _ _ _ _ Hp) text_char //.
    rw (proj2 (Z.eqb_neq n _)); [lia|]. rw IH //; [lia..|]. do 3 f_equal. lia.
Qed.

Lemma ulong_small n : 0 ≤ n < 2 ^ 31 → ulong n = n.
Proof. intros. apply wrap_small. split; [lia|]. destruct arch_width_cases as [-> | ->]; lia. Qed.

Lemma strlen_run m p l : cstr m p l → Z.of_nat (length l) < 2 ^ 31 → strlen p m = Ret (Z.of_nat (length l), m).
Proof.
  intros Hs Hl. rw /strlen. rw (bind_run _ _ m (scan_fuel m) m) //. rw (strlen_loop_run _ l) //; [apply cstr_fuel in Hs; lia|].
  by rw Z.add_0_l ulong_small; [lia|].
Qed.

(** ** Comparison *)

(** The order of strings the code implements: the first difference decides,
    a string that ends compares as NUL. *)
Fixpoint lex (l1 l2 : list Z) : Z :=
  match l1, l2 with
  | [], [] => 0
  | a :: l1', b :: l2' => if a =? b then lex l1' l2' else if to_char b <? to_char a then 1 else -1
  | a :: _, [] => if 0 <? to_char a then 1 else -1
  | [], b :: _ => if to_char b <? 0 then 1 else -1
  end.

Lemma lex_eq l1 l2 : lex l1 l2 = 0 ↔ l1 = l2.
Proof.
  revert l2. induction l1 as [|a l1 IH]; intros [|b l2]; cbn [lex]; [done|by case_match|by case_match|].
  destruct (Z.eqb_spec a b) as [->|]; [rw IH; naive_solver|]. case_match; naive_solver.
Qed.

Lemma lex_sign l1 l2 : lex l1 l2 = 0 ∨ lex l1 l2 = 1 ∨ lex l1 l2 = -1.
Proof. revert l2. induction l1 as [|a l1 IH]; intros [|b l2]; cbn [lex]; repeat case_match; auto. Qed.

Lemma lex_opp l1 l2 : text l1 → text l2 → lex l2 l1 = - lex l1 l2.
Proof.
  revert l2. induction l1 as [|a l1 IH]; intros [|b l2] H1 H2; cbn [lex]; [done| | |].
  - apply Forall_cons in H2 as [Hb _]. pose proof (text_char b Hb) as Hc. apply negb_true_iff, Z.eqb_neq in Hc.
    destruct (Z.ltb_spec 0 (to_char b)), (Z.ltb_spec (to_char b) 0); lia.
  - apply Forall_cons in H1 as [Ha _]. pose proof (text_char a Ha) as Hc. apply negb_true_iff, Z.eqb_neq in Hc.
    destruct (Z.ltb_spec 0 (to_char a)), (Z.ltb_spec (to_char a) 0); lia.
  - apply Forall_cons in H1 as [Ha H1], H2 as [Hb H2]. rw (Z.eqb_sym b a). destruct (Z.eqb_spec a b) as [|Hn]; [by apply IH|].
    assert (to_char a ≠ to_char b) by (intros E%to_char_inj; [done|by apply text_byte..]).
    destruct (Z.ltb_spec (to_char a) (to_char b)), (Z.ltb_spec (to_char b) (to_char a)); lia.
Qed.

Lemma bind_more {B} (f : bool → SM B) m p q l1 l2 : cstr m p l1 → cstr m q l2 →
  (more p q ≫= f) m = f (negb (bool_decide (l1 = [] ∧ l2 = []))) m.
Proof.
  intros (a & Hp & _ & Ha & E1)%cstr_head (b & Hq & _ & Hb & E2)%cstr_head. apply bind_run. rw /more (bind_ldc _ _ _ _ Hp) to_char_true //.
  destruct (ctrue a) eqn:Ea; [rw bool_decide_false //; naive_solver|].
  rw (bind_ldc _ _ _ _ Hq) to_char_true //. repeat f_equal. assert (l1 = []) as -> by (destruct l1; naive_solver).
  destruct (ctrue b) eqn:Eb; [rw bool_decide_false; naive_solver|]. assert (l2 = []) as -> by (destruct l2; naive_solver). by rw bool_decide_true.
Qed.

Lemma strcmp_loop_run m l1 : ∀ l2 fuel p q, (length l1 < fuel)%nat → cstr m p l1 → cstr m q l2 →
  strcmp_loop fuel p q m = Ret (lex l1 l2, m).
Proof.
  induction l1 as [|a l1 IH]; intros l2 [|fuel] p q Hf H1 H2; [cbn in Hf; lia| |cbn in Hf; lia|]; cbn [strcmp_loop];
    rw (bind_more _ m p q _ _ H1 H2).
  - destruct l2 as [|b l2]; [done|]. apply cstr_nil in H1. apply cstr_cons in H2 as (Hq & Hb & H2). rw bool_decide_false; [naive_solver|].
    cbn [negb]. rw (bind_ldc _ _ _ _ H1) (bind_ldc _ _ _ _ Hq) to_char_eqb; [done|by apply text_byte|]. rw (proj2 (Z.eqb_neq 0 b)); [lia|]. by rw to_char_0.
  - rw bool_decide_false; [naive_solver|]. cbn [negb length] in *. apply cstr_cons in H1 as (Hp & Ha & H1). rw (bind_ldc _ _ _ _ Hp).
    destruct l2 as [|b l2].
    + apply cstr_nil in H2. rw (bind_ldc _ _ _ _ H2) to_char_eqb; [by apply text_byte|done|]. rw (proj2 (Z.eqb_neq a 0)); [lia|]. by rw to_char_0.
    + apply cstr_cons in H2 as (Hq & Hb & H2). rw (bind_ldc _ _ _ _ Hq) to_char_eqb; [by apply text_byte..|]. cbn [lex].
      destruct (Z.eqb_spec a b); cbn [negb]; [|done]. apply IH; [lia|done..].
Qed.

Lemma strcmp_run m p q l1 l2 : p ≠ 0 → cstr m p l1 → cstr m q l2 → strcmp p q m = Ret (lex l1 l2, m).
Proof.
  intros Hp H1 H2. rw /strcmp (proj2 (Z.eqb_neq p 0)) //. cbn [andb]. rw (bind_run _ _ m (scan_fuel m) m) //.
  apply strcmp_loop_run; [apply cstr_fuel in H1; lia|done..].
Qed.

(** [strncmp] compares the first [n] characters. *)
Lemma strncmp_loop_run m n : ∀ l1 l2 p q, cstr m p l1 → cstr m q l2 →
  strncmp_loop n p q m = Ret (lex (take n l1) (take n l2), m).
Proof.
  induction n as [|n IH]; intros l1 l2 p q H1 H2; cbn [strncmp_loop]; [by rw !take_0|]. rw (bind_more _ m p q _ _ H1 H2).
  pose proof (cstr_head _ _ _ H1) as (a & Hp & Ea & Ha & _). pose proof (cstr_head _ _ _ H2) as (b & Hq & Eb & Hb & _).
  case_bool_decide as E; cbn [negb]; [by destruct E as [-> ->]|]. rw (bind_ldc _ _ _ _ Hp) (bind_ldc _ _ _ _ Hq) to_char_eqb //.
  destruct l1 as [|a1 l1], l2 as [|b1 l2]; cbn [hd] in *; subst; [naive_solver|..].
  - apply cstr_cons in H2 as (_ & Hr & _). rw (proj2 (Z.eqb_neq 0 b1)); [lia|]. by rw to_char_0.
  - apply cstr_cons in H1 as (_ & Hr & _). rw (proj2 (Z.eqb_neq a1 0)); [lia|]. by rw to_char_0.
  - apply cstr_cons in H1 as (_ & _ & H1), H2 as (_ & _ & H2). rw !firstn_cons. cbn [lex].
    destruct (Z.eqb_spec a1 b1); cbn [negb]; [by apply IH|done].
Qed.

(** ** Blocks of memory *)

Definition bytes (l : list Z) : Prop := Forall byte l.

(** The copy runs upwards, so it is right for blocks that do not overlap and
    for a destination below its source. *)
Lemma memcpy_loop_run l : ∀ m d s, arr m s l → bytes l → owned m d (Z.of_nat (length l)) →
  d ≤ s ∨ s + Z.of_nat (length l) ≤ d →
  memcpy_loop (length l) d s m = Ret (tt, put m d l).
Proof.
  induction l as [|b l IH]; intros m d s Ha Hb Ho Hd; cbn [memcpy_loop length put arr] in *; [done|].
  destruct Ha as [Hs Ha]. apply Forall_cons in Hb as [Hb Hl]. rw (bind_run _ _ _ _ _ (ldb_run _ _ _ Hs)).
  destruct (Ho d) as [c Hc]; [lia|].
  rw (bind_run _ _ m tt (<[d := b]> m)); [by rw /stb Hc byte_u8|].
  apply IH; [|done| |lia].
  - eapply arr_ext; [|exact Ha]. intros a Hr. apply lookup_insert_ne. lia.
  - intros a Hr. rw lookup_insert_is_Some. destruct (decide (d = a)); [by left|right; split; [done|]]. apply Ho. lia.
Qed.

Lemma memcpy_run l m d s n : n = Z.of_nat (length l) → arr m s l → bytes l → owned m d n → d ≤ s ∨ s + n ≤ d →
  memcpy d s n m = Ret (d, put m d l).
Proof.
  intros -> Ha Hb Ho Hd. rw /memcpy Nat2Z.id. by rw (bind_run _ _ _ _ _ (memcpy_loop_run l m d s Ha Hb Ho Hd)).
Qed.

Lemma memset_loop_run v n : ∀ m p, owned m p (Z.of_nat n) → memset_loop n p (u8 v) m = Ret (tt, put m p (replicate n (u8 v))).
Proof.
  induction n as [|k IH]; intros m p Ho; cbn [memset_loop replicate put]; [done|].
  destruct (Ho p) as [c Hc]; [lia|]. rw (bind_run _ _ m tt (<[p := u8 v]> m)); [by rw /stb Hc wrap_wrap|].
  apply IH. intros a Hr. rw lookup_insert_is_Some. destruct (decide (p = a)); [by left|right; split; [done|]]. apply Ho. lia.
Qed.

Lemma memset_run m p v n : 0 ≤ n → owned m p n → memset p v n m = Ret (p, put m p (replicate (Z.to_nat n) (u8 v))).
Proof.
  intros Hn Ho. rw /memset. rw (bind_run _ _ _ _ _ (memset_loop_run v (Z.to_nat n) m p _)) //. by rw Z2Nat.id.
Qed.

(** The order of blocks of equal length. *)
Fixpoint lexb (l1 l2 : list Z) : Z :=
  match l1, l2 with
  | a :: l1', b :: l2' => if b <? a then 1 else if a <? b then -1 else lexb l1' l2'
  | _, _ => 0
  end.

Lemma memcmp_loop_run m l1 : ∀ l2 p q, length l1 = length l2 → arr m p l1 → arr m q l2 →
  memcmp_loop (length l1) p q m = Ret (lexb l1 l2, m).
Proof.
  induction l1 as [|a l1 IH]; intros [|b l2] p q Hl H1 H2; try done; cbn [memcmp_loop length arr lexb] in *.
  destruct H1 as [Hp H1], H2 as [Hq H2]. rw (bind_run _ _ _ _ _ (ldb_run _ _ _ Hp)) (bind_run _ _ _ _ _ (ldb_run _ _ _ Hq)).
  case_match; [done|]. case_match; [done|]. apply IH; [congruence|done..].
Qed.

Lemma lexb_eq l1 l2 : length l1 = length l2 → lexb l1 l2 = 0 ↔ l1 = l2.
Proof.
  revert l2. induction l1 as [|a l1 IH]; intros [|b l2] Hl; try done; cbn [lexb length] in *.
  destruct (Z.ltb_spec b a), (Z.ltb_spec a b); [naive_solver lia..|]. rw IH; [congruence|]. assert (a = b) by lia. naive_solver.
Qed.

Lemma memcmp_run m p q l1 l2 : length l1 = length l2 → arr m p l1 → arr m q l2 →
  memcmp p q (Z.of_nat (length l1)) m = Ret (lexb l1 l2, m).
Proof. intros. rw /memcmp Nat2Z.id. by apply memcmp_loop_run. Qed.

(** ** Search *)

(** The least offset at which [nd] occurs in [l]. *)
Fixpoint occurs (nd l : list Z) : option nat :=
  if decide (nd `prefix_of` l) then Some O else
  match l with
  | [] => None
  | _ :: l' => S <$> occurs nd l'
  end.

Lemma occurs_spec nd l :
  match occurs nd l with
  | Some i => nd `prefix_of` drop i l ∧ (i ≤ length l)%nat ∧ ∀ j, (j < i)%nat → ¬ nd `prefix_of` drop j l
  | None => ∀ j, (j ≤ length l)%nat → ¬ nd `prefix_of` drop j l
  end.
Proof.
  induction l as [|b l IH]; cbn [occurs].
  - case_decide as Hp; [split_and!; [done|cbn; lia|lia]|]. intros [|j] Hj; [done|cbn in Hj; lia].
  - case_decide as Hp; [split_and!; [done|cbn; lia|lia]|]. destruct (occurs nd l) as [i|]; cbn [fmap option_fmap option_map].
    + destruct IH as (Hi & Hl & Hj). split_and!; [done|cbn; lia|]. intros [|j] Hlt; [done|]. apply Hj. lia.
    + intros [|j] Hj; [done|]. apply IH. cbn in Hj. lia.
Qed.

Lemma prefix_take (nd l : list Z) : (length nd ≤ length l)%nat → nd `prefix_of` l ↔ take (length nd) l = nd.
Proof.
  intros Hl. split; [intros [k ->]; apply take_app_length|]. intros E. exists (drop (length nd) l). by rw -{1}E take_drop.
Qed.

Lemma cstr_bytes m p l : cstr m p l → bytes l.
Proof. intros [_ Ht]. eapply Forall_impl; [exact Ht|]. apply text_byte. Qed.

Lemma cstr_arr m p l : cstr m p l → arr m p l.
Proof. intros [Ha _]. by apply arr_app in Ha as [? _]. Qed.

Lemma bytes_head_eqb b c : bytes [b] → bytes [c] → (to_char b =? to_char c) = (b =? c).
Proof. intros [Hb _]%Forall_cons [Hc _]%Forall_cons. by apply to_char_eqb. Qed.

Lemma bind_matches_at {B} (f : bool → SM B) m s q c nd l : arr m s l → bytes l → arr m q (c :: nd) → bytes (c :: nd) →
  (S (length nd) ≤ length l)%nat →
  (matches_at s (to_char c) q (Z.of_nat (S (length nd))) ≫= f) m = f (bool_decide (c :: nd `prefix_of` l)) m.
Proof.
  intros Hl Hbl Hq Hbq Hn. apply bind_run. destruct l as [|b l]; [cbn in Hn; lia|]. rw /matches_at.
  destruct Hl as [Hs Hl]. rw (bind_ldc _ _ _ _ Hs). apply Forall_cons in Hbl as [Hb Hbl], Hbq as [Hc Hbq]. rw to_char_eqb //.
  destruct (Z.eqb_spec b c) as [->|Hne].
  - assert (length (take (S (length nd)) (c :: l)) = S (length nd)) as E by (rw length_take_le; done).
    assert (arr m s (take (S (length nd)) (c :: l))) as Ht.
    { assert (arr m s (c :: l)) as Ha by done. rw -(take_drop (S (length nd)) (c :: l)) arr_app in Ha. by destruct Ha. }
    pose proof (memcmp_run m s q _ (c :: nd) E Ht Hq) as Hr. rw E in Hr. rw (bind_run _ _ _ _ _ Hr).
    rw /mret /M_ret. do 2 f_equal. apply eq_true_iff_eq. rw Z.eqb_eq lexb_eq // bool_decide_eq_true (prefix_take (c :: nd)) //.
  - rw bool_decide_false //. intros [k E]. cbn in E. congruence.
Qed.

Lemma occurs_short nd l : (length l < length nd)%nat → occurs nd l = None.
Proof.
  induction l as [|b l IH]; cbn [occurs length]; intros Hl; (rw decide_False; [intros Hp%prefix_length; cbn in Hp; lia|]); [done|].
  rw IH //. lia.
Qed.

Lemma strstr_loop_run m q c nd l : cstr m q (c :: nd) → ∀ fuel p, (length l < fuel)%nat → cstr m p l → Z.of_nat (length l) < 2 ^ 31 →
  strstr_loop fuel p (to_char c) q (Z.of_nat (S (length nd))) m =
  Ret (match occurs (c :: nd) l with Some i => p + Z.of_nat i | None => 0 end, m).
Proof.
  intros Hq. induction l as [|b l IH]; intros [|fuel] p Hf Hs Hl; [cbn in Hf; lia| |cbn in Hf; lia|]; cbn [strstr_loop].
  - apply cstr_nil in Hs. by rw (bind_ldc _ _ _ _ Hs) to_char_0 occurs_short; [cbn; lia|].
  - pose proof Hs as (Hp & Hb & Hs')%cstr_cons. rw (bind_ldc _ _ _ _ Hp) text_char //. rw (bind_run _ _ _ _ _ (strlen_run m p _ Hs Hl)).
    destruct (Z.ltb_spec (Z.of_nat (length (b :: l))) (Z.of_nat (S (length nd)))) as [Hlt|Hge]; [by rw occurs_short; [cbn [length] in *; lia|]|].
    rw (bind_matches_at _ m p q c nd (b :: l)); [by apply cstr_arr|exact (cstr_bytes _ _ _ Hs)|by apply cstr_arr|exact (cstr_bytes _ _ _ Hq)|cbn [length] in *; lia|].
    cbn [occurs length] in *. case_bool_decide as Hpre; [rw decide_True // Z.add_0_r //|]. rw decide_False //. rw IH //; [lia..|].
    destruct (occurs (c :: nd) l) as [i|]; cbn [fmap option_fmap option_map]; [|done]. do 2 f_equal. lia.
Qed.

(** Where [strstr] finds the needle. *)
Lemma strstr_run m p q nd l : p ≠ 0 → q ≠ 0 → nd ≠ [] → cstr m p l → cstr m q nd →
  Z.of_nat (length l) < 2 ^ 31 → Z.of_nat (length nd) < 2 ^ 31 →
  strstr p q m = Ret (match occurs nd l with Some i => p + Z.of_nat i | None => 0 end, m).
Proof.
  intros Hp Hq Hn Hs Hd Hl Hld. destruct nd as [|c nd]; [done|]. pose proof Hd as (Hc & Hcr & _)%cstr_cons.
  rw /strstr (proj2 (Z.eqb_neq p 0)) // (proj2 (Z.eqb_neq q 0)) //. cbn [orb]. rw (bind_ldc _ _ _ _ Hc) text_char //. cbn [negb].
  rw (bind_run _ _ _ _ _ (strlen_run m q _ Hd Hld)) (bind_run _ _ m (scan_fuel m) m) // (bind_ldc _ _ _ _ Hc).
  apply strstr_loop_run; [done|apply cstr_fuel in Hs; lia|done..].
Qed.

(** ** Copying strings *)

Lemma arr_insert m p l a b : ¬ (p ≤ a < p + Z.of_nat (length l)) → arr m p l → arr (<[a := b]> m) p l.
Proof. intros Ha. apply arr_ext. intros c Hc. apply lookup_insert_ne. lia. Qed.

Lemma owned_insert m p n a b : owned m p n → owned (<[a := b]> m) p n.
Proof. intros Ho c Hc. rw lookup_insert_is_Some. destruct (decide (a = c)); [by left|right; split; [done|by apply Ho]]. Qed.

Lemma strncpy_loop_run l : ∀ fuel m b d s i n, (length l < fuel)%nat → arr m s (l ++ [0]) → text l → m !! s = Some b →
  0 ≤ i ≤ n → owned m d (Z.min (n - i) (Z.of_nat (length l))) →
  (s + Z.of_nat (length l) < d ∨ d + Z.min (n - i) (Z.of_nat (length l)) ≤ s) →
  let k := Z.min (n - i) (Z.of_nat (length l)) in
  strncpy_loop fuel (to_char b) d s i n m = Ret ((d + k, i + k), put m d (take (Z.to_nat k) l)).
Proof.
  induction l as [|c l IH]; intros [|fuel] m b d s i n Hf Ha Ht Hs Hi Ho Hd k; [cbn in Hf; lia| |cbn in Hf; lia|]; cbn [strncpy_loop].
  - destruct Ha as [Ha _]. rw Ha in Hs. simplify_eq. rw to_char_0 /=. subst k. rw Z.min_r; [cbn; lia|]. rw !Z.add_0_r. done.
  - destruct Ha as [Ha Hr]. rw Ha in Hs. simplify_eq. apply Forall_cons in Ht as [Hb Ht]. rw text_char //. cbn [andb length] in *.
    destruct (Z.ltb_spec i n) as [Hlt|Hge]; [|by assert (k = 0) as -> by lia; rw !Z.add_0_r].
    destruct (Ho d) as [x Hx]; [lia|]. rw (bind_run _ _ m tt (<[d := b]> m)); [rw /stc /stb Hx u8_to_char //; by apply text_byte|].
    assert (arr (<[d := b]> m) (s + 1) (l ++ [0])) as Hr' by (apply arr_insert; [rw length_app /=; lia|done]).
    assert (∃ b', <[d := b]> m !! (s + 1) = Some b') as [b' Hb'].
    { destruct (arr_owned _ _ _ Hr' (s + 1)) as [b' ?]; [rw length_app /=; lia|by exists b']. }
    rw (bind_ldc _ _ _ _ Hb'). rw (IH fuel _ b' (d + 1) (s + 1) (i + 1) n) //; [lia|lia| |lia|].
    + apply owned_insert. intros a Hra. apply Ho. lia.
    + assert (Z.min (n - (i + 1)) (Z.of_nat (length l)) = k - 1) as -> by lia. replace (d + 1 + (k - 1)) with (d + k) by lia.
      replace (i + 1 + (k - 1)) with (i + k) by lia. replace (Z.to_nat k) with (S (Z.to_nat (k - 1))) by lia. done.
Qed.

(** [strncpy] copies at most [n] characters, and the terminating NUL only when
    there is room for it. *)
Lemma strncpy_run m d s l n : cstr m s l → 0 ≤ n → owned m d (Z.min n (Z.of_nat (length l) + 1)) →
  (s + Z.of_nat (length l) < d ∨ d + Z.min n (Z.of_nat (length l) + 1) ≤ s) →
  strncpy d s n m = Ret (d, put m d (take (Z.to_nat n) (l ++ [0]))).
Proof.
  intros [Ha Ht] Hn Ho Hd. pose proof (arr_fuel _ _ _ Ha) as Hf. rw length_app /= in Hf. rw /strncpy (bind_run _ _ m (scan_fuel m) m) //.
  destruct (arr_owned _ _ _ Ha s) as [b Hb]; [rw length_app /=; lia|]. rw (bind_ldc _ _ _ _ Hb).
  rw (bind_run _ _ _ _ _ (strncpy_loop_run l (scan_fuel m) m b d s 0 n _ Ha Ht Hb _ _ _)); [lia|lia| |lia|].
  { intros a Hra. apply Ho. lia. }
  rw Z.sub_0_r Z.add_0_l. destruct (Z.ltb_spec (Z.min n (Z.of_nat (length l))) n).
  - rw Z.min_r; [lia|]. rw Nat2Z.id firstn_all. rw take_ge; [rw length_app /=; lia|]. rw put_app.
    rw (bind_run _ _ _ tt (<[d + Z.of_nat (length l) := 0]> (put m d l))); [|done].
    rw /stb. destruct (put_owned m d l d _ Ho (d + Z.of_nat (length l))) as [x Hx]; [lia|]. by rw Hx.
  - rw (bind_run _ _ _ tt (put m d (take (Z.to_nat (Z.min n (Z.of_nat (length l)))) l))) //.
    rw Z.min_l; [lia|]. by rw take_app_le; [lia|].
Qed.

(** ** Numbers *)

Definition radix (base : Z) : Z := if base =? 16 then 16 else 10.
(** What a digit counts for: the letters count only in base 16. *)
Definition digit (base ch : Z) : Z :=
  if (48 <=? ch) && (ch <=? 57) then ch - 48
  else if (base =? 16) && (97 <=? ch) && (ch <=? 102) then ch - 87
  else if (base =? 16) && (65 <=? ch) && (ch <=? 70) then ch - 55
  else 0.
Definition value (base : Z) (l : list Z) : Z := foldl (λ v ch, v * radix base + digit base ch) 0 l.

Lemma add_digit_value base v ch : add_digit base (u64 v) ch = u64 (v * radix base + digit base ch).
Proof.
  rw /add_digit /digit /radix /wrap. destruct (base =? 16); cbn [andb]; repeat case_match; try by rw Z.add_0_r Z.mul_mod_idemp_l.
  all: rw Z.mul_mod_idemp_l // Z.add_mod_idemp_l //; try (f_equal; lia).
Qed.

Lemma isxdigit_ascii ch : isxdigit ch = true → 48 ≤ ch ≤ 102.
Proof. rw /isxdigit. intros [_ E]%andb_true_iff. rw !orb_true_iff !andb_true_iff !Z.leb_le in E. lia. Qed.

Lemma stou64_loop_run m base l c : isxdigit (to_char c) = false → ∀ fuel p v b, (length l < fuel)%nat →
  arr m p (l ++ [c]) → Forall (λ x, isxdigit x = true) l → m !! p = Some b →
  stou64_loop fuel p base (to_char b) (u64 v) m = Ret (u64 (foldl (λ v ch, v * radix base + digit base ch) v l), m).
Proof.
  intros Hc. induction l as [|x l IH]; intros [|fuel] p v b Hf Ha Hx Hp; [cbn in Hf; lia| |cbn in Hf; lia|]; cbn [stou64_loop foldl].
  - destruct Ha as [Ha _]. rw Ha in Hp. simplify_eq. by rw Hc.
  - destruct Ha as [Ha Hr]. rw Ha in Hp. simplify_eq. apply Forall_cons in Hx as [Hx Hl]. pose proof (isxdigit_ascii _ Hx). rw to_char_ascii; [lia|]. rw Hx.
    destruct (arr_owned _ _ _ Hr (p + 1)) as [b' Hb']; [rw length_app /=; lia|]. rw (bind_ldc _ _ _ _ Hb') add_digit_value.
    apply IH; [cbn in Hf; lia|done..].
Qed.

Lemma arr_head m p b l : arr m p (b :: l) → m !! p = Some b.
Proof. by intros [? _]. Qed.

(** [hex_prefix] at a text that starts with digits. *)
Lemma hex_prefix_run m p (hex : bool) l c : l ≠ [] → Forall (λ x, isxdigit x = true) l → to_char c ≠ 120 → to_char c ≠ 88 →
  arr m p ((if hex then [48; 120] else []) ++ l ++ [c]) → hex_prefix p m = Ret (hex, m).
Proof.
  intros Hn Hx H1 H2 Ha. rw /hex_prefix. destruct hex; cbn [app] in Ha.
  - destruct Ha as (H0' & H1' & _). rw (bind_ldc _ _ _ _ H0') to_char_ascii //= (bind_ldc _ _ _ _ H1') to_char_ascii //.
  - destruct l as [|x l]; [done|]. apply Forall_cons in Hx as [Hx Hl]. pose proof (isxdigit_ascii x Hx). destruct Ha as [Hp Ha].
    rw (bind_ldc _ _ _ _ Hp) to_char_ascii; [lia|]. case_match; [|done]. destruct l as [|y l]; cbn [app] in Ha; destruct Ha as [Hp1 _]; rw (bind_ldc _ _ _ _ Hp1).
    + by rw (proj2 (Z.eqb_neq _ 120)) // (proj2 (Z.eqb_neq _ 88)).
    + apply Forall_cons in Hl as [Hy _]. pose proof (isxdigit_ascii y Hy). rw to_char_ascii; [lia|]. rw (proj2 (Z.eqb_neq y 120)); [lia|].
      destruct (Z.eqb_spec y 88) as [->|]; done.
Qed.

(** The text of a number: an optional sign and prefix, digits, and a character
    that ends it. *)
Definition numeral (neg hex : bool) (l : list Z) (c : Z) : list Z :=
  (if neg then [45] else []) ++ (if hex then [48; 120] else []) ++ l ++ [c].

Lemma numeral_first neg hex l c : l ≠ [] → Forall (λ x, isxdigit x = true) l →
  ∃ b r, numeral neg hex l c = b :: r ∧ 0 < b < 128 ∧ (b =? 45) = neg.
Proof.
  intros Hn Hx. rw /numeral. destruct neg; [by eexists 45, _|]. destruct hex; [by eexists 48, _|].
  destruct l as [|x l]; [done|]. apply Forall_cons in Hx as [Hx _]. pose proof (isxdigit_ascii x Hx).
  eexists x, _. split_and!; [done|lia|lia|]. apply Z.eqb_neq. lia.
Qed.

Lemma stou64_run m p base neg hex l c : p ≠ 0 → l ≠ [] → Forall (λ x, isxdigit x = true) l →
  isxdigit (to_char c) = false → to_char c ≠ 120 → to_char c ≠ 88 →
  (hex = true → base = 0 ∨ base = 16) → arr m p (numeral neg hex l c) →
  let v := value (if hex then 16 else base) l in
  stou64 p base m = Ret (if neg then u64 (- u64 v) else u64 v, m).
Proof.
  intros Hp Hn Hx Hc Hc1 Hc2 Hh Ha v. rw /stou64 (proj2 (Z.eqb_neq p 0)) //.
  destruct (numeral_first neg hex l c Hn Hx) as (b & r & E & Hb & En). pose proof Ha as Ha0. rw E in Ha0. apply arr_head in Ha0.
  rw (bind_ldc _ _ _ _ Ha0) to_char_ascii; [lia|]. assert (ctrue b = true) as -> by (apply negb_true_iff, Z.eqb_neq; lia). cbn [negb]. rw En.
  rw /numeral arr_app in Ha. destruct Ha as [_ Ha]. set (q := if neg then p + 1 else p).
  assert (arr m q ((if hex then [48; 120] else []) ++ l ++ [c])) as Hq by (subst q; destruct neg; cbn in Ha; by rw ?Z.add_0_r in Ha).
  rw (bind_run _ _ m hex m).
  { destruct ((base =? 0) || (base =? 16)) eqn:Eb; [exact (hex_prefix_run m q hex l c Hn Hx Hc1 Hc2 Hq)|]. destruct hex; [|done].
    exfalso. apply orb_false_iff in Eb as [?%Z.eqb_neq ?%Z.eqb_neq]. destruct (Hh eq_refl); lia. }
  rw arr_app in Hq. destruct Hq as [_ Hq]. set (q2 := if hex then q + 2 else q).
  assert (arr m q2 (l ++ [c])) as Hq2 by (subst q2; destruct hex; cbn in Hq; by rw ?Z.add_0_r in Hq).
  rw (bind_run _ _ m (scan_fuel m) m) //. destruct (arr_owned _ _ _ Hq2 q2) as [b' Hb']; [rw length_app /=; lia|].
  rw (bind_ldc _ _ _ _ Hb'). pose proof (arr_fuel _ _ _ Hq2) as Hf. rw length_app /= in Hf.
  rw (bind_run _ _ _ _ _ (stou64_loop_run m _ l c Hc (scan_fuel m) q2 0 b' _ Hq2 Hx Hb')) //. lia.
Qed.

(** Every result of [stou64] is a 64-bit number. *)
Lemma add_digit_range base v ch : uint 64 (add_digit base v ch).
Proof. rw /add_digit. repeat case_match; by apply wrap_range. Qed.

Lemma stou64_loop_range base fuel : ∀ p ch v m r m', uint 64 v → stou64_loop fuel p base ch v m = Ret (r, m') → uint 64 r.
Proof.
  induction fuel as [|fuel IH]; intros p ch v m r m' Hv; cbn [stou64_loop]; [done|]. destruct (isxdigit ch); [|by intros [= <- _]].
  rw /mbind /M_bind. destruct (ldc (p + 1) m) as [[ch' m1]| | |]; [|done..]. apply IH, add_digit_range.
Qed.

Lemma stou64_range p base m r m' : stou64 p base m = Ret (r, m') → uint 64 r.
Proof.
  assert (uint 64 0) as Hz by done. rw /stou64 /mbind /M_bind. case_match; [by intros [= <- _]|]. destruct (ldc p m) as [[c m1]| | |]; [|done..].
  destruct (ctrue c); cbn [negb]; [|by intros [= <- _]]. match goal with |- context [match ?h m1 with _ => _ end] => destruct (h m1) as [[hex m2]| | |]; [|done..] end. cbn [gets].
  destruct (ldc _ m2) as [[ch m3]| | |]; [|done..]. destruct (stou64_loop _ _ _ _ _ _) as [[v m4]| | |] eqn:El; [|done..].
  apply stou64_loop_range in El; [|done]. intros [= <- _]. case_match; [by apply wrap_range|done].
Qed.

(** C18. [strcmp] implements the order of strings in which the first difference
    of two characters decides and a string that ends compares as NUL: it
    returns 0 exactly for equal strings, otherwise 1 or -1, and swapping the
    arguments swaps the sign.  It reads nothing outside the two strings. *)
Theorem strcmp_orders m p q l1 l2 : p ≠ 0 → q ≠ 0 → cstr m p l1 → cstr m q l2 →
  strcmp p q m = Ret (lex l1 l2, m) ∧ strcmp q p m = Ret (- lex l1 l2, m) ∧ (lex l1 l2 = 0 ↔ l1 = l2) ∧
  (lex l1 l2 = 0 ∨ lex l1 l2 = 1 ∨ lex l1 l2 = -1).
Proof.
  intros Hp Hq H1 H2. split_and!; [by apply strcmp_run| |apply lex_eq|apply lex_sign].
  rw (strcmp_run m q p l2 l1) // lex_opp //; [apply H1|apply H2].
Qed.

(** [strstr] returns the position of the first occurrence of a non-empty
    needle: the needle is there, and at no earlier position; it returns NULL
    exactly when the needle occurs nowhere. *)
Theorem strstr_first m p q nd l : p ≠ 0 → q ≠ 0 → nd ≠ [] → cstr m p l → cstr m q nd →
  Z.of_nat (length l) < 2 ^ 31 → Z.of_nat (length nd) < 2 ^ 31 →
  strstr p q m = Ret (match occurs nd l with Some i => p + Z.of_nat i | None => 0 end, m) ∧
  match occurs nd l with
  | Some i => nd `prefix_of` drop i l ∧ ∀ j, (j < i)%nat → ¬ nd `prefix_of` drop j l
  | None => ∀ j, (j ≤ length l)%nat → ¬ nd `prefix_of` drop j l
  end.
Proof.
  intros. split; [by apply strstr_run|]. pose proof (occurs_spec nd l) as Ho. destruct (occurs nd l); [|done].
  by destruct Ho as (? & _ & ?).
Qed.

(** [stou64] reads an optional minus sign, the prefix 0x where the base is
    0 or 16, and the digits up to the first character that is no hexadecimal
    digit, and returns their value modulo 2^64.  The letters a to f end no
    decimal number: with a base other than 16 each of them counts as the digit 0. *)
Theorem stou64_reads m p base neg hex l c : p ≠ 0 → l ≠ [] → Forall (λ x, isxdigit x = true) l →
  isxdigit (to_char c) = false → to_char c ≠ 120 → to_char c ≠ 88 →
  (hex = true → base = 0 ∨ base = 16) → arr m p (numeral neg hex l c) →
  stou64 p base m = Ret (u64 ((if neg then -1 else 1) * value (if hex then 16 else base) l), m) ∧
  (base ≠ 16 → ∀ x r, isxdigit x = true → isdigit x = false → value base (r ++ [x]) = value base r * 10).
Proof.
  intros. split.
  - rw (stou64_run m p base neg hex l c) //. do 2 f_equal. destruct neg; [|by rw Z.mul_1_l].
    rw /wrap. match goal with |- (- ?a) mod _ = _ => replace (- a) with (-1 * a) by lia end. by rw Z.mul_mod_idemp_r.
  - intros Hb x r Hx Hd. rw /value foldl_app /=. rw /radix (proj2 (Z.eqb_neq base 16)) //. rw /digit (proj2 (Z.eqb_neq base 16)) //=.
    rw /isxdigit /isdigit in Hx Hd. apply andb_true_iff in Hx as [Hx _]. rw Hx /= in Hd. rw Hd. lia.
Qed.
End StrSpec.

(** ** Examples *)

Definition signed_char : CharType := {| CHAR_SIGNED := true |}.

(** A memory with the texts "say hi", "hi" and "-1f " at 16, 32 and 48. *)
Definition demo_mem : mem :=
  put (put (put ∅ 16 [115; 97; 121; 32; 104; 105; 0]) 32 [104; 105; 0]) 48 [45; 49; 102; 32].

Lemma demo_say : cstr demo_mem 16 [115; 97; 121; 32; 104; 105].
Proof. split; [cbn [app arr]; split_and!; vm_compute; done|repeat constructor]. Qed.

Lemma demo_hi : cstr demo_mem 32 [104; 105].
Proof. split; [cbn [app arr]; split_and!; vm_compute; done|repeat constructor]. Qed.

Lemma strcmp_orders_witness : @strcmp signed_char 16 32 demo_mem = Ret (1, demo_mem).
Proof. exact (proj1 (@strcmp_orders signed_char demo_mem 16 32 _ _ ltac:(discriminate) ltac:(discriminate) demo_say demo_hi)). Defined.

Lemma strstr_first_witness : @strstr riscv64 signed_char 16 32 demo_mem = Ret (20, demo_mem).
Proof.
  exact (proj1 (@strstr_first riscv64 signed_char demo_mem 16 32 [104; 105] [115; 97; 121; 32; 104; 105] ltac:(discriminate) ltac:(discriminate) ltac:(discriminate)
    demo_say demo_hi ltac:(reflexivity) ltac:(reflexivity))).
Defined.

(** In base 10 the text "-1f" reads as minus ten. *)
Lemma stou64_reads_witness : @stou64 signed_char 48 10 demo_mem = Ret (2 ^ 64 - 10, demo_mem).
Proof.
  apply (@stou64_reads signed_char demo_mem 48 10 true false [49; 102] 32); try discriminate; try reflexivity.
  - repeat constructor.
  - cbn [numeral app arr]. split_and!; vm_compute; done.
Defined.
