(* ===== verification/MemWords.v ===== *)
(** Numbers of several bytes in memory, in the byte order of the machine, and
    lemmas on writing and reading them that the users of byte memory share. *)

From stdpp Require Import base list gmap.
From Stdlib Require Import ZArith Lia.
From Corelib Require Import ssreflect.
From S2P Require Import Prelude Bits Str StrSpec.

(** ** Blocks of bytes *)

Lemma put_in m p l a : p ≤ a < p + Z.of_nat (length l) → put m p l !! a = l !! Z.to_nat (a - p).
Proof.
  intros Ha. destruct (lookup_lt_is_Some_2 l (Z.to_nat (a - p))) as [b Hb]; [lia|]. rw Hb.
  replace a with (p + Z.of_nat (Z.to_nat (a - p))) by lia. exact (proj1 (arr_lookup _ _ _) (put_arr m p l) _ _ Hb).
Qed.

Lemma put_twice m p l1 l2 : length l1 = length l2 → put (put m p l1) p l2 = put m p l2.
Proof.
  intros Hl. apply map_eq. intros a. destruct (decide (p ≤ a < p + Z.of_nat (length l2))) as [Ha|Ha]; [by rw !put_in|].
  rw !put_out //. by rw Hl.
Qed.

Lemma put_comm m p l1 q l2 : p + Z.of_nat (length l1) ≤ q ∨ q + Z.of_nat (length l2) ≤ p → put (put m p l1) q l2 = put (put m q l2) p l1.
Proof.
  intros Hd. apply map_eq. intros a. destruct (decide (p ≤ a < p + Z.of_nat (length l1))) as [Ha|Ha].
  - rw (put_out _ q); [lia|]. by rw !put_in.
  - rw (put_out _ p l1) //. destruct (decide (q ≤ a < q + Z.of_nat (length l2))) as [Hq|Hq]; [by rw !put_in|]. by rw !put_out.
Qed.

Lemma put_arr_out m p l q l' : q + Z.of_nat (length l') ≤ p ∨ p + Z.of_nat (length l) ≤ q → arr m q l' → arr (put m p l) q l'.
Proof. intros Hd. apply arr_ext. intros a Hr. apply put_out. lia. Qed.

Lemma owned_arr m p n : 0 ≤ n → owned m p n → (∀ a b, p ≤ a < p + n → m !! a = Some b → byte b) →
  ∃ l, Z.of_nat (length l) = n ∧ arr m p l ∧ bytes l.
Proof.
  intros Hn. rw -(Z2Nat.id n) //. generalize (Z.to_nat n) as k. clear n Hn. intros k. revert p. induction k as [|k IH]; intros p Ho Hb.
  - exists []. split_and!; [done|done|constructor].
  - destruct (Ho p) as [b Hp]; [lia|]. destruct (IH (p + 1)) as (l & Hl & Ha & Hbs); [intros a Hr; apply Ho; lia|intros a c Hr; apply Hb; lia|].
    exists (b :: l). cbn [length arr]. split_and!; [lia|done|done|]. constructor; [apply (Hb p); [lia|done]|done].
Qed.

Lemma owned_sub m p n q k : owned m p n → p ≤ q → q + k ≤ p + n → owned m q k.
Proof. intros Ho ? ? a Ha. apply Ho. lia. Qed.

Section MemWords.
Context `{Arch}.

(** ** Numbers *)

(** [sizeof(ulong)] *)
Definition WORD : Z := ARCH_WIDTH / 8.

Fixpoint le_bytes (n : nat) (v : Z) : list Z :=
  match n with
  | O => []
  | S n' => v mod 256 :: le_bytes n' (v / 256)
  end.
Definition le_val (l : list Z) : Z := foldr (λ b v, b + 256 * v) 0 l.

Definition endian (l : list Z) : list Z := if ARCH_BIG_ENDIAN then reverse l else l.
Fixpoint ld_bytes (n : nat) (p : Z) : SM (list Z) :=
  match n with
  | O => mret []
  | S n' => b ← ldb p; l ← ld_bytes n' (p + 1); mret (b :: l)
  end.
Fixpoint st_bytes (p : Z) (l : list Z) : SM unit :=
  match l with
  | [] => mret tt
  | b :: l => stb p b;; st_bytes (p + 1) l
  end.

(** A number of [k] bytes. *)
Definition num_bytes (k : nat) (v : Z) : list Z := endian (le_bytes k v).
Definition ldn (k : nat) (p : Z) : SM Z := l ← ld_bytes k p; mret (le_val (endian l)).
Definition stn (k : nat) (p v : Z) : SM unit := st_bytes p (num_bytes k v).

Lemma WORD_cases : (ARCH_WIDTH = 32 ∧ WORD = 4) ∨ (ARCH_WIDTH = 64 ∧ WORD = 8).
Proof. rw /WORD. destruct arch_width_cases as [-> | ->]; [by left|by right]. Qed.

Lemma length_le_bytes n v : length (le_bytes n v) = n.
Proof. revert v. induction n as [|n IH]; intros v; cbn; [done|by rw IH]. Qed.

Lemma le_bytes_bytes n v : bytes (le_bytes n v).
Proof. revert v. induction n as [|n IH]; intros v; cbn [le_bytes]; constructor; [by apply Z.mod_pos_bound|apply IH]. Qed.

Lemma le_val_bytes n : ∀ v, 0 ≤ v < 256 ^ Z.of_nat n → le_val (le_bytes n v) = v.
Proof.
  induction n as [|n IH]; intros v Hv; cbn [le_bytes le_val foldr]; [change (256 ^ Z.of_nat 0) with 1 in Hv; lia|].
  rw Nat2Z.inj_succ Z.pow_succ_r in Hv; [lia|]. rw -/(le_val _) IH.
  - split; [apply Z.div_pos; lia|apply Z.div_lt_upper_bound; lia].
  - pose proof (Z.div_mod v 256). lia.
Qed.

Lemma endian_endian l : endian (endian l) = l.
Proof. rw /endian. destruct ARCH_BIG_ENDIAN; [apply reverse_involutive|done]. Qed.

Lemma length_endian l : length (endian l) = length l.
Proof. rw /endian. destruct ARCH_BIG_ENDIAN; [apply length_reverse|done]. Qed.

Lemma endian_bytes l : bytes l → bytes (endian l).
Proof. rw /endian /bytes. destruct ARCH_BIG_ENDIAN; [apply Forall_reverse|done]. Qed.

Lemma ld_bytes_run l : ∀ m p, arr m p l → ld_bytes (length l) p m = Ret (l, m).
Proof.
  induction l as [|b l IH]; intros m p Ha; cbn [ld_bytes length]; [done|]. destruct Ha as [Hp Ha].
  by rw (bind_run _ _ _ _ _ (ldb_run _ _ _ Hp)) (bind_run _ _ _ _ _ (IH _ _ Ha)).
Qed.

Lemma st_bytes_run l : ∀ m p, bytes l → owned m p (Z.of_nat (length l)) → st_bytes p l m = Ret (tt, put m p l).
Proof.
  induction l as [|b l IH]; intros m p Hb Ho; cbn [st_bytes put length]; [done|]. apply Forall_cons in Hb as [Hb Hl].
  destruct (Ho p) as [x Hx]; [cbn; lia|]. rw (bind_run _ _ m tt (<[p := b]> m)); [by rw /stb Hx byte_u8|].
  apply IH; [done|]. apply owned_insert. intros a Hr. apply Ho. cbn; lia.
Qed.

Lemma length_num_bytes k v : length (num_bytes k v) = k.
Proof. by rw /num_bytes length_endian length_le_bytes. Qed.

Lemma num_bytes_bytes k v : bytes (num_bytes k v).
Proof. apply endian_bytes, le_bytes_bytes. Qed.

Lemma num_bytes_val k v : 0 ≤ v < 256 ^ Z.of_nat k → le_val (endian (num_bytes k v)) = v.
Proof. intros Hv. by rw /num_bytes endian_endian le_val_bytes. Qed.

Lemma ldn_run m k p v : arr m p (num_bytes k v) → 0 ≤ v < 256 ^ Z.of_nat k → ldn k p m = Ret (v, m).
Proof.
  intros Ha Hv. rw /ldn. pose proof (ld_bytes_run _ _ _ Ha) as Hl. rw length_num_bytes in Hl. rw (bind_run _ _ _ _ _ Hl). by rw num_bytes_val.
Qed.

Lemma stn_run m k p v : owned m p (Z.of_nat k) → stn k p v m = Ret (tt, put m p (num_bytes k v)).
Proof. intros Ho. apply st_bytes_run; [apply num_bytes_bytes|]. by rw length_num_bytes. Qed.
End MemWords.
