(* ===== verification/Print.v ===== *)
(** Formatted output: [src/src/libk/print/vkprintf.c], [kprintf.c] and
    [kputchar.c].

    The console is the list of characters handed to the registered output
    function.  Digit buffers of a call are lists; string literals are lists of
    characters.  [va_list] is the list of the remaining arguments, each with the
    width it was passed at; fetching an argument at another width is undefined.
    Characters are written by their codes: 37 is the percent sign, 48 the digit
    0, 97 the letter a. *)

From stdpp Require Import base list gmap.
From Stdlib Require Import ZArith Lia.
From Corelib Require Import ssreflect.
From S2P Require Import Prelude Bits Str.

(** ** State *)

Record con := mk_con {
  con_mem : mem;
  con_out : list Z;          (* what putchar_func was called with *)
  putchar_func : bool        (* is an output function registered? *)
}.

Definition PM := M con.

Definition on_con_mem {A} : SM A → PM A := zoom con_mem (λ m c, mk_con m (con_out c) (putchar_func c)).

(** An argument of a call with a variable number of arguments. *)
Record va := mk_va { va_width : Z; va_val : Z }.

Definition va_arg (w : Z) (arg : list va) : PM (Z * list va) :=
  match arg with
  | a :: arg' => if va_width a =? w then mret (va_val a, arg') else fault
  | [] => fault
  end.

(** ** Output of a character *)

Definition init_libk_putchar (func : bool) : PM unit := modify (λ c, mk_con (con_mem c) (con_out c) func).

Definition __kputchar (ch : Z) : PM Z :=
  f ← gets putchar_func;
  if f : bool then modify (λ c, mk_con (con_mem c) (con_out c ++ [ch]) (putchar_func c));; mret 1
  else mret 0.

Definition print_char (ch : Z) : PM Z := __kputchar ch;; mret 1.

(** [print_string] of a string literal. *)
Fixpoint print_lit (l : list Z) : PM Z :=
  match l with
  | [] => mret 0
  | ch :: l => __kputchar ch;; n ← print_lit l; mret (n + 1)
  end.

(** ** Digits *)

(** [0x1 << i] as an [int]: a shift into the sign bit is the most negative
    value, a shift by the width or more is undefined. *)
Definition int_bit (i : Z) : outcome Z := if i <? 32 then Ret (s32 (Z.shiftl 1 i)) else Fault.

Section Print.
Context `{Arch} `{CharType}.

Definition hex_char (digit : Z) : Z := to_char (if 10 <=? digit then digit - 10 + 97 else digit + 48).

Definition u32_to_hex (num : Z) : list Z := (λ i, hex_char (shr (shl 32 num (4 * i)) 28)) <$> seqZ 0 8.
Definition u64_to_hex (num : Z) : list Z := (λ i, hex_char (shr (shl 64 num (4 * i)) 60)) <$> seqZ 0 16.

Definition dividers32 : list Z :=
  [1000000000; 100000000; 10000000; 1000000; 100000; 10000; 1000; 100; 10; 1].
Definition dividers64 : list Z :=
  [10000000000000000000; 1000000000000000000; 100000000000000000; 10000000000000000; 1000000000000000;
   100000000000000; 10000000000000; 1000000000000; 100000000000; 10000000000; 1000000000; 100000000; 10000000;
   1000000; 100000; 10000; 1000; 100; 10; 1].

(** The loop of [u32_to_dec] and [u64_to_dec], with the division of its width. *)
Fixpoint to_dec (div : Z → Z → outcome (Z * Z)) (dividers : list Z) (num : Z) : outcome (list Z) :=
  match dividers with
  | [] => Ret []
  | d :: ds =>
      '(q, num) ← div num d;
      l ← to_dec div ds num;
      Ret (to_char (48 + q) :: l)
  end.

Definition u32_to_dec (num : Z) : outcome (list Z) := to_dec div_u32 dividers32 num.
Definition u64_to_dec (num : Z) : outcome (list Z) := to_dec div_u64 dividers64 num.

(** ** Printing items *)

Fixpoint print_string_loop (fuel : nat) (s len : Z) : PM Z :=
  match fuel with
  | O => diverge
  | S f =>
      ch ← on_con_mem (ldc s);
      if ctrue ch then __kputchar ch;; print_string_loop f (s + 1) (len + 1) else mret len
  end.

Definition print_string (str : Z) : PM Z :=
  fuel ← gets (λ c, scan_fuel (con_mem c));
  print_string_loop fuel str 0.

(** The digits of a buffer from the first that is not 0. *)
Fixpoint print_digits (buf : list Z) (started : bool) (printed : Z) : PM Z :=
  match buf with
  | [] => mret printed
  | ch :: buf =>
      let started := if negb (ch =? 48) then true else started in
      if started then print_char ch;; print_digits buf started (printed + 1)
      else print_digits buf started printed
  end.

(** [for (i = n - 1; i >= 0; i--)] over the bits of [num], a value of [w] bits. *)
Fixpoint print_bits (w : Z) (n : nat) (num : Z) : PM unit :=
  match n with
  | O => mret tt
  | S n' =>
      b ← lift_outcome (int_bit (Z.of_nat n'));
      print_char (if ctrue (Z.land num (wrap w b)) then 49 else 48);;
      print_bits w n' num
  end.

Definition lit_0x : list Z := [48; 120].
Definition lit_unknown : list Z := [95; 95; 117; 110; 107; 110; 111; 119; 110; 95; 102; 111; 114; 109; 97; 116; 95].

Definition print_unknown (fmt : Z) : PM Z :=
  print_lit lit_unknown;; print_char fmt;; print_lit [95; 95];; mret 20.

(** The cases [h] and [u], which the cases before them fall through to. *)
Definition print_hex (to_hex : Z → list Z) (num : Z) : PM Z :=
  if num =? 0 then print_char 48;; mret 0 else print_digits (to_hex num) false 0.
Definition print_dec (to_dec : Z → outcome (list Z)) (num : Z) : PM Z :=
  if num =? 0 then print_char 48;; mret 0 else
  buf ← lift_outcome (to_dec num);
  print_digits buf false 0.

Definition print_u32 (fmt num : Z) : PM Z :=
  if fmt =? 98 then print_bits 32 32 num;; mret 0
  else if (fmt =? 112) || (fmt =? 120) then print_lit lit_0x;; print_hex u32_to_hex num
  else if fmt =? 104 then print_hex u32_to_hex num
  else if fmt =? 100 then
    num ← (if ctrue (Z.land num (2 ^ 31)) then print_char 45;; mret (u32 (bnot 32 num + 1)) else mret num);
    print_dec u32_to_dec num
  else if fmt =? 117 then print_dec u32_to_dec num
  else print_unknown fmt.

Definition print_u64 (fmt num : Z) : PM Z :=
  if fmt =? 98 then print_bits 64 64 num;; mret 0
  else if (fmt =? 112) || (fmt =? 120) then print_lit lit_0x;; print_hex u64_to_hex num
  else if fmt =? 104 then print_hex u64_to_hex num
  else if fmt =? 100 then
    num ← (if ctrue (Z.land num (2 ^ 63)) then print_char 45;; mret (u64 (bnot 64 num + 1)) else mret num);
    print_dec u64_to_dec num
  else if fmt =? 117 then print_dec u64_to_dec num
  else print_unknown fmt.

Definition print_ulong (fmt num : Z) : PM Z :=
  if ARCH_WIDTH =? 32 then print_u32 fmt (u32 num) else print_u64 fmt (u64 num).

(** ** Tokens *)

Inductive print_token_types :=
| PRINT_TOKEN_NONE
| PRINT_TOKEN_CHAR
| PRINT_TOKEN_U32
| PRINT_TOKEN_U64
| PRINT_TOKEN_ULONG
| PRINT_TOKEN_STR.

(** What a token function leaves behind: the length it returns, the position,
    the type and the token. *)
Record token := mk_token { tok_len : Z; tok_s : Z; tok_type : print_token_types; tok_ch : Z }.

(** The letters every number token accepts: d, u, h, x and b. *)
Definition is_num (t : Z) : bool := (t =? 100) || (t =? 117) || (t =? 104) || (t =? 120) || (t =? 98).

Definition print_token_ll (s : Z) : PM token :=
  t ← on_con_mem (ldc s);
  if is_num t then mret (mk_token 0 s PRINT_TOKEN_U64 t)
  else if t =? 0 then n ← print_lit [37; 108; 108]; mret (mk_token n s PRINT_TOKEN_NONE t)
  else n ← print_lit [37; 108; 108]; k ← print_char t; mret (mk_token (n + k) s PRINT_TOKEN_NONE t).

Definition print_token_l (s : Z) : PM token :=
  t ← on_con_mem (ldc s);
  if t =? 108 then print_token_ll (s + 1)
  else if is_num t || (t =? 112) then mret (mk_token 0 s PRINT_TOKEN_ULONG t)
  else if t =? 0 then n ← print_lit [37; 108]; mret (mk_token n s PRINT_TOKEN_NONE t)
  else n ← print_lit [37; 108]; k ← print_char t; mret (mk_token (n + k) s PRINT_TOKEN_NONE t).

Definition print_token (s : Z) : PM token :=
  t ← on_con_mem (ldc s);
  if t =? 108 then print_token_l (s + 1)
  else if is_num t then mret (mk_token 0 s PRINT_TOKEN_U32 t)
  else if t =? 115 then mret (mk_token 0 s PRINT_TOKEN_STR t)
  else if t =? 99 then mret (mk_token 0 s PRINT_TOKEN_CHAR t)
  else if t =? 112 then mret (mk_token 0 s PRINT_TOKEN_ULONG t)
  else if t =? 37 then n ← print_char 37; mret (mk_token n s PRINT_TOKEN_NONE t)
  else if t =? 0 then n ← print_char 37; mret (mk_token n s PRINT_TOKEN_NONE t)
  else n ← print_char 37; k ← print_char t; mret (mk_token (n + k) s PRINT_TOKEN_NONE t).

(** The inner switch: fetch and print the argument of a token. *)
Definition print_arg (k : token) (arg : list va) : PM (list va) :=
  match tok_type k with
  | PRINT_TOKEN_CHAR => '(v, arg) ← va_arg 32 arg; print_char (to_char v);; mret arg
  | PRINT_TOKEN_U32 => '(v, arg) ← va_arg 32 arg; print_u32 (tok_ch k) v;; mret arg
  | PRINT_TOKEN_U64 => '(v, arg) ← va_arg 64 arg; print_u64 (tok_ch k) v;; mret arg
  | PRINT_TOKEN_ULONG => '(v, arg) ← va_arg ARCH_WIDTH arg; print_ulong (tok_ch k) v;; mret arg
  | PRINT_TOKEN_STR => '(v, arg) ← va_arg ARCH_WIDTH arg; print_string v;; mret arg
  | PRINT_TOKEN_NONE => mret arg
  end.

Fixpoint vkprintf_loop (fuel : nat) (s len : Z) (arg : list va) : PM Z :=
  match fuel with
  | O => diverge
  | S f =>
      ch ← on_con_mem (ldc s);
      if ctrue ch then
        if ch =? 37 then
          k ← print_token (s + 1);
          arg ← print_arg k arg;
          vkprintf_loop f (tok_s k + 1) (len + tok_len k) arg
        else n ← print_char ch; vkprintf_loop f (s + 1) (len + n) arg
      else mret len
  end.

Definition __vkprintf (fmt : Z) (arg : list va) : PM Z :=
  fuel ← gets (λ c, scan_fuel (con_mem c));
  vkprintf_loop fuel fmt 0 arg.

Definition __kprintf (fmt : Z) (arg : list va) : PM Z := __vkprintf fmt arg.
End Print.
