(* ===== verification/PrintSpec.v ===== *)
(** Correctness of formatted output: what is printed, digit by digit, that a
    printed number is read back by [stou64], and what a format may contain. *)

From stdpp Require Import base list gmap.
From Stdlib Require Import ZArith Lia.
From Corelib Require Import ssreflect.
From S2P Require Import Prelude Bits Str StrSpec Print.

(** ** Positional numbers *)

(** The [k] digits of [n] in base [b], the most significant first. *)
Fixpoint digits (b : Z) (k : nat) (n : Z) : list Z :=
  match k with
  | O => []
  | S k' => n / b ^ Z.of_nat k' :: digits b k' (n mod b ^ Z.of_nat k')
  end.

Definition undigits (b : Z) (v : Z) (l : list Z) : Z := foldl (λ v d, v * b + d) v l.

Lemma digits_undigits b k : ∀ n v, 0 < b → 0 ≤ n < b ^ Z.of_nat k → undigits b v (digits b k n) = v * b ^ Z.of_nat k + n.
Proof.
  induction k as [|k IH]; intros n v Hb Hn; cbn [digits].
  - change (b ^ Z.of_nat 0) with 1 in *. rw /undigits /=. lia.
  - assert (0 < b ^ Z.of_nat k) by (apply Z.pow_pos_nonneg; lia).
    rw /undigits /= -/(undigits b _ _) IH //; [by apply Z.mod_pos_bound|].
    rw Nat2Z.inj_succ Z.pow_succ_r; [lia|]. rw {3}(Z.div_mod n (b ^ Z.of_nat k)); lia.
Qed.

Lemma digits_range b k : ∀ n, 0 < b → 0 ≤ n < b ^ Z.of_nat k → Forall (λ d, 0 ≤ d < b) (digits b k n).
Proof.
  induction k as [|k IH]; intros n Hb Hn; cbn [digits]; constructor.
  - assert (0 < b ^ Z.of_nat k) by (apply Z.pow_pos_nonneg; lia). rw Nat2Z.inj_succ Z.pow_succ_r in Hn; [lia|].
    split; [apply Z.div_pos; lia|]. apply Z.div_lt_upper_bound; lia.
  - apply IH; [done|]. apply Z.mod_pos_bound, Z.pow_pos_nonneg; lia.
Qed.

Lemma digits_all_zero b k : ∀ n, 0 < b → 0 ≤ n < b ^ Z.of_nat k → Forall (λ d, d = 0) (digits b k n) → n = 0.
Proof.
  intros n Hb Hn Hz. pose proof (digits_undigits b k n 0 Hb Hn) as E. rw Z.mul_0_l Z.add_0_l in E. rw -E.
  clear -Hz. induction Hz as [|d l -> _ IH]; [done|]. rw /undigits /= -/(undigits b _ _). by rw IH.
Qed.

(** A digit does not change when higher digits are cut off. *)
Lemma digit_cut b n i k : 0 < b → (i < k)%nat → (n mod b ^ Z.of_nat k) / b ^ Z.of_nat i mod b = n / b ^ Z.of_nat i mod b.
Proof.
  intros Hb Hi. assert (∀ j : nat, 0 < b ^ Z.of_nat j) as Hp by (intros; apply Z.pow_pos_nonneg; lia).
  rw {2}(Z.div_mod n (b ^ Z.of_nat k)); [specialize (Hp k); lia|].
  replace (b ^ Z.of_nat k) with (b ^ Z.of_nat (k - i - 1) * b * b ^ Z.of_nat i) at 2.
  2:{ rw -Z.mul_assoc -Z.pow_succ_r; [lia|]. rw -Z.pow_add_r; [lia..|]. f_equal. lia. }
  replace (b ^ Z.of_nat (k - i - 1) * b * b ^ Z.of_nat i * (n / b ^ Z.of_nat k) + n mod b ^ Z.of_nat k)
    with (n mod b ^ Z.of_nat k + (b ^ Z.of_nat (k - i - 1) * (n / b ^ Z.of_nat k) * b) * b ^ Z.of_nat i) by lia.
  rw Z.div_add; [specialize (Hp i); lia|]. rw Z.mod_add; [lia|]. done.
Qed.

(** The digits, each computed from the whole number. *)
Lemma digits_by_position b k : ∀ n, 0 < b → 0 ≤ n < b ^ Z.of_nat k →
  digits b k n = (λ i, n / b ^ Z.of_nat i mod b) <$> rev (seq 0 k).
Proof.
  induction k as [|k IH]; intros n Hb Hn; [done|]. assert (0 < b ^ Z.of_nat k) by (apply Z.pow_pos_nonneg; lia).
  rw seq_S rev_unit. cbn [digits fmap list_fmap]. f_equal.
  - rw Nat.add_0_l Z.mod_small //. rw Nat2Z.inj_succ Z.pow_succ_r in Hn; [lia|]. split; [apply Z.div_pos; lia|]. apply Z.div_lt_upper_bound; lia.
  - rw IH //; [by apply Z.mod_pos_bound|]. apply list_fmap_ext. intros j i Hi.
    apply digit_cut; [done|]. apply list_elem_of_lookup_2, list_elem_of_In, in_rev, in_seq in Hi. lia.
Qed.

(** ** What is printed *)

Definition say (c : con) (l : list Z) : con := mk_con (con_mem c) (con_out c ++ l) (putchar_func c).

Lemma say_say c l1 l2 : say (say c l1) l2 = say c (l1 ++ l2).
Proof. rw /say /=. by rw app_assoc. Qed.

Lemma say_nil c : say c [] = c.
Proof. rw /say. destruct c as [? l ?]. cbn. by rw app_nil_r. Qed.

(** A number without its leading zeros. *)
Fixpoint strip (l : list Z) : list Z :=
  match l with
  | [] => []
  | ch :: l' => if ch =? 48 then strip l' else l
  end.

Lemma strip_nil l : strip l = [] → Forall (λ ch, ch = 48) l.
Proof. induction l as [|ch l IH]; cbn [strip]; intros E; constructor; destruct (Z.eqb_spec ch 48); auto; done. Qed.

Lemma strip_Forall (P : Z → Prop) l : Forall P l → Forall P (strip l).
Proof. induction 1 as [|ch l Hc Hl IH]; cbn [strip]; [constructor|]. case_match; [done|by constructor]. Qed.

Section PrintSpec.
Context `{Arch} `{CharType}.

Lemma print_char_run c ch : putchar_func c = true → print_char ch c = Ret (1, say c [ch]).
Proof. intros Hf. rw /print_char /__kputchar /mbind /M_bind /gets Hf. done. Qed.

Lemma bind_print_char {B} (f : Z → PM B) c ch : putchar_func c = true → (print_char ch ≫= f) c = f 1 (say c [ch]).
Proof. intros Hf. by apply bind_run, print_char_run. Qed.

Lemma print_lit_run l c : putchar_func c = true → print_lit l c = Ret (Z.of_nat (length l), say c l).
Proof.
  revert c. induction l as [|ch l IH]; intros c Hf; cbn [print_lit length]; [by rw say_nil|].
  rw (bind_run _ _ c 1 (say c [ch])); [rw /__kputchar /mbind /M_bind /gets Hf //|].
  rw (bind_run _ _ _ _ _ (IH (say c [ch]) Hf)) say_say. rw /mret /M_ret. do 2 f_equal. lia.
Qed.

Lemma print_digits_run l : ∀ st n c, putchar_func c = true →
  ∃ k, print_digits l st n c = Ret (k, say c (if st : bool then l else strip l)).
Proof.
  induction l as [|ch l IH]; intros st n c Hf; cbn [print_digits strip].
  - exists n. destruct st; by rw say_nil.
  - destruct (Z.eqb_spec ch 48) as [->|Hn]; cbn [negb]; [destruct st|].
    + rw bind_print_char //. destruct (IH true (n + 1) (say c [48]) Hf) as [k ->]. exists k. by rw say_say.
    + by destruct (IH false n c Hf) as [k ->]; exists k.
    + rw bind_print_char //. destruct (IH true (n + 1) (say c [ch]) Hf) as [k ->]. exists k. rw say_say. by destruct st.
Qed.

(** ** Digits of numbers *)

Definition dchar (d : Z) : Z := if 10 <=? d then d + 87 else d + 48.

Lemma hex_char_dchar d : 0 ≤ d < 16 → hex_char d = dchar d.
Proof. intros. rw /hex_char /dchar. destruct (Z.leb_spec 10 d); (rw to_char_ascii; lia). Qed.

Lemma dchar_xdigit d : 0 ≤ d < 16 → isxdigit (dchar d) = true.
Proof.
  intros Hr. assert (d ∈ seqZ 0 16) as Hd by (apply elem_of_seqZ; lia). clear Hr. revert d Hd.
  apply list.Forall_forall. repeat constructor.
Qed.

Lemma dchar_digit base d : 0 ≤ d < radix base → digit base (dchar d) = d.
Proof.
  rw /radix /digit /dchar. intros Hd. destruct (base =? 16); cbn [andb]; (destruct (Z.leb_spec 10 d); [try lia|]).
  - destruct (Z.leb_spec 48 (d + 87)), (Z.leb_spec (d + 87) 57); cbn [andb]; try lia.
    destruct (Z.leb_spec 97 (d + 87)), (Z.leb_spec (d + 87) 102); cbn [andb]; lia.
  - destruct (Z.leb_spec 48 (d + 48)), (Z.leb_spec (d + 48) 57); cbn [andb]; lia.
  - destruct (Z.leb_spec 48 (d + 48)), (Z.leb_spec (d + 48) 57); cbn [andb]; lia.
Qed.

Lemma dchar_zero d : 0 ≤ d < 16 → dchar d = 48 → d = 0.
Proof. rw /dchar. intros. destruct (Z.leb_spec 10 d); lia. Qed.

Lemma value_dchars base l : Forall (λ d, 0 ≤ d < radix base) l → ∀ v,
  foldl (λ v ch, v * radix base + digit base ch) v (dchar <$> l) = undigits (radix base) v l.
Proof.
  induction 1 as [|d l Hd Hl IH]; intros v; cbn [fmap list_fmap foldl]; [done|]. by rw dchar_digit.
Qed.

Lemma value_strip base l : value base (strip l) = value base l.
Proof.
  induction l as [|ch l IH]; cbn [strip]; [done|]. destruct (Z.eqb_spec ch 48) as [->|]; [|done]. rw IH /value /=. done.
Qed.

(** The printed digits of a number, zero as a single digit. *)
Definition num_text (b : Z) (k : nat) (n : Z) : list Z := if n =? 0 then [48] else strip (dchar <$> digits b k n).

Lemma radix_range base : 0 < radix base ≤ 16.
Proof. rw /radix. case_match; lia. Qed.

(** The text is a numeral with the value of the number. *)
Lemma num_text_value base k n : 0 ≤ n < radix base ^ Z.of_nat k →
  let l := num_text (radix base) k n in l ≠ [] ∧ Forall (λ x, isxdigit x = true) l ∧ value base l = n.
Proof.
  intros Hn l. subst l. rw /num_text. pose proof (radix_range base). destruct (Z.eqb_spec n 0) as [->|Hz].
  { split_and!; [done|repeat constructor|]. rw /value /digit /=. lia. }
  assert (0 < radix base) as Hr by lia. pose proof (digits_range _ k n Hr Hn) as Hd. split_and!.
  - intros E%strip_nil. apply Hz. apply (digits_all_zero (radix base) k); [done|done|].
    rw Forall_fmap in E. eapply Forall_impl; [apply Forall_and; split; [exact E|exact Hd]|]. intros d [Ed Hdr]. apply dchar_zero; [lia|done].
  - apply strip_Forall, Forall_fmap. eapply Forall_impl; [exact Hd|]. intros d Hdr. cbn in Hdr. apply dchar_xdigit. lia.
  - rw value_strip /value value_dchars // digits_undigits //.
Qed.

Lemma hex_digit w num s : 4 ≤ w → 0 ≤ s ≤ w - 4 → shr (shl w num s) (w - 4) = num / 2 ^ (w - 4 - s) mod 16.
Proof.
  intros Hw Hs. rw /shr /shl /wrap Z.shiftr_div_pow2; [lia|]. rw Z.shiftl_mul_pow2; [lia|].
  replace (2 ^ w) with (2 ^ (w - 4) * 16) by (change 16 with (2 ^ 4); rw -Z.pow_add_r; [lia..|]; f_equal; lia).
  assert (0 < 2 ^ (w - 4)) by (apply Z.pow_pos_nonneg; lia). rw Z.rem_mul_r; [lia..|].
  rw (Z.mul_comm (2 ^ (w - 4)) (_ mod _)) Z.div_add; [lia|]. rw Z.div_small; [by apply Z.mod_pos_bound|]. rw Z.add_0_l. f_equal.
  replace (2 ^ (w - 4)) with (2 ^ (w - 4 - s) * 2 ^ s) by (rw -Z.pow_add_r; [lia..|]; f_equal; lia).
  apply Z.div_mul_cancel_r; apply Z.pow_nonzero; lia.
Qed.

(** The hexadecimal conversions, at width [4 * k]. *)
Lemma to_hex_digits k num : 0 ≤ num < 16 ^ Z.of_nat k → (0 < k)%nat →
  ((λ i, hex_char (shr (shl (4 * Z.of_nat k) num (4 * i)) (4 * Z.of_nat k - 4))) <$> seqZ 0 (Z.of_nat k)) = dchar <$> digits 16 k num.
Proof.
  intros Hn Hk. rw digits_by_position // -list_fmap_compose. rw rev_alt. change (rev_append (seq 0 k) []) with (reverse (seq 0 k)). apply list_eq. intros i.
  rw (list_lookup_fmap _ (seqZ _ _)) (list_lookup_fmap _ (reverse _)).
  destruct (decide (i < k)%nat) as [Hi|Hi].
  - rw lookup_seqZ_lt; [lia|]. rw reverse_lookup; [by rw length_seq|]. rw length_seq. rw lookup_seq_lt; [lia|]. cbn [fmap option_fmap option_map compose].
    rw hex_digit; [lia..|]. rw hex_char_dchar; [by apply Z.mod_pos_bound|]. 
    assert (2 ^ (4 * Z.of_nat k - 4 - 4 * (0 + Z.of_nat i)) = 16 ^ Z.of_nat (0 + (k - S i))) as ->; [|done].
    change 16 with (2 ^ 4). rw -Z.pow_mul_r; [lia..|]. f_equal. lia.
  - rw lookup_seqZ_ge; [lia|]. rw lookup_ge_None_2 //. rw length_reverse length_seq. lia.
Qed.

Lemma u32_to_hex_digits num : uint 32 num → u32_to_hex num = dchar <$> digits 16 8 num.
Proof. intros Hn. exact (to_hex_digits 8 num Hn ltac:(lia)). Qed.

Lemma u64_to_hex_digits num : uint 64 num → u64_to_hex num = dchar <$> digits 16 16 num.
Proof. intros Hn. exact (to_hex_digits 16 num Hn ltac:(lia)). Qed.

Fixpoint pow10s (k : nat) : list Z :=
  match k with
  | O => []
  | S k' => 10 ^ Z.of_nat k' :: pow10s k'
  end.

Lemma to_dec_digits div w k : ∀ num, (∀ a b, uint w a → 0 < b < 2 ^ w → a / b < 10 → div a b = Ret (a / b, a mod b)) →
  (∀ j, (j < k)%nat → 10 ^ Z.of_nat j < 2 ^ w) → uint w num → num < 10 ^ Z.of_nat k →
  to_dec div (pow10s k) num = Ret (dchar <$> digits 10 k num).
Proof.
  induction k as [|k IH]; intros num Hd Hw [Hn Hn'] Hk; cbn [to_dec pow10s digits fmap list_fmap]; [done|].
  assert (0 < 10 ^ Z.of_nat k) by (apply Z.pow_pos_nonneg; lia). rw Nat2Z.inj_succ Z.pow_succ_r in Hk; [lia|].
  assert (0 ≤ num / 10 ^ Z.of_nat k < 10) as Hq by (split; [apply Z.div_pos; lia|apply Z.div_lt_upper_bound; lia]).
  pose proof (Z.mod_pos_bound num (10 ^ Z.of_nat k) ltac:(lia)) as Hm.
  rw Hd; [done|split; [lia|by apply Hw; lia]|lia|]. cbn [mbind outcome_bind]. rw IH //; [intros; apply Hw; lia| |lia|].
  - split; [lia|]. pose proof (Z.mod_le num (10 ^ Z.of_nat k)). lia.
  - cbn [mbind outcome_bind]. do 2 f_equal. rw to_char_ascii; [lia|]. rw /dchar (proj2 (Z.leb_gt 10 _)); lia.
Qed.

Lemma u32_to_dec_digits num : uint 32 num → u32_to_dec num = Ret (dchar <$> digits 10 10 num).
Proof.
  intros Hn. apply (to_dec_digits div_u32 32 10 num); [|intros j Hj|done|destruct Hn; lia].
  - intros a b Ha Hb _. by apply div_u32_spec.
  - apply (Z.le_lt_trans _ (10 ^ 9)); [apply Z.pow_le_mono_r; lia|lia].
Qed.

Lemma u64_to_dec_digits num : uint 64 num → u64_to_dec num = Ret (dchar <$> digits 10 20 num).
Proof.
  intros Hn. apply (to_dec_digits div_u64 64 20 num); [|intros j Hj|done|destruct Hn; lia].
  - intros a b Ha Hb Hq. rw div_u64_spec //. by rw (proj2 (Z.ltb_lt _ _)); [lia|].
  - apply (Z.le_lt_trans _ (10 ^ 19)); [apply Z.pow_le_mono_r; lia|lia].
Qed.

Lemma print_hex_run to_hex k num c : putchar_func c = true → to_hex num = dchar <$> digits 16 k num →
  ∃ n, print_hex to_hex num c = Ret (n, say c (num_text 16 k num)).
Proof.
  intros Hf E. rw /print_hex /num_text. case_match; [exists 0; by rw bind_print_char|]. rw E. by apply (print_digits_run _ false).
Qed.

Lemma print_dec_run td k num c : putchar_func c = true → td num = Ret (dchar <$> digits 10 k num) →
  ∃ n, print_dec td num c = Ret (n, say c (num_text 10 k num)).
Proof.
  intros Hf E. rw /print_dec /num_text. case_match; [exists 0; by rw bind_print_char|].
  rw (bind_run _ _ c (dchar <$> digits 10 k num) c); [by rw /lift_outcome E|]. by apply (print_digits_run _ false).
Qed.

(** ** Numbers in a format *)

(** What [fmt] prints of a number of [w] bits: the digits [kh] and [kd] are
    those of the widest number. *)
Definition number (w : Z) (kh kd : nat) (fmt num : Z) : list Z :=
  if (fmt =? 112) || (fmt =? 120) then lit_0x ++ num_text 16 kh num
  else if fmt =? 104 then num_text 16 kh num
  else if (fmt =? 100) && Z.testbit num (w - 1) then 45 :: num_text 10 kd (2 ^ w - num)
  else num_text 10 kd num.

(** The formats of numbers with digits: p, x, h, d and u. *)
Definition is_digits (fmt : Z) : bool := (fmt =? 112) || (fmt =? 120) || (fmt =? 104) || (fmt =? 100) || (fmt =? 117).

Lemma negated w num : 0 < w → uint w num → Z.testbit num (w - 1) = true → wrap w (bnot w num + 1) = 2 ^ w - num ∧ uint w (2 ^ w - num).
Proof.
  intros Hw [Hn Hn'] Hb. assert (0 < num) as Hp.
  { destruct (Z.eq_dec num 0) as [->|]; [by rw Z.bits_0 in Hb|lia]. }
  assert (uint w (2 ^ w - num)) as Hu by (split; lia). split; [|done]. rw /bnot /wrap Z.add_mod_idemp_l; [lia|].
  replace (Z.lnot num + 1) with (- num) by (rw /Z.lnot; lia). rw -(Z.mod_add _ 1); [lia|]. rw Z.mod_small; lia.
Qed.

(** The code of [print_u32] and [print_u64] differs in the width and the
    conversions only. *)
Definition print_number (w : Z) (n : nat) (to_hex : Z → list Z) (to_dec : Z → outcome (list Z)) (fmt num : Z) : PM Z :=
  if fmt =? 98 then print_bits w n num;; mret 0
  else if (fmt =? 112) || (fmt =? 120) then print_lit lit_0x;; print_hex to_hex num
  else if fmt =? 104 then print_hex to_hex num
  else if fmt =? 100 then
    num ← (if ctrue (Z.land num (2 ^ (w - 1))) then print_char 45;; mret (wrap w (bnot w num + 1)) else mret num);
    print_dec to_dec num
  else if fmt =? 117 then print_dec to_dec num
  else print_unknown fmt.

Lemma print_number_run w n to_hex to_dec kh kd fmt num c : 0 < w → putchar_func c = true → uint w num → is_digits fmt = true →
  (∀ x, uint w x → to_hex x = dchar <$> digits 16 kh x) → (∀ x, uint w x → to_dec x = Ret (dchar <$> digits 10 kd x)) →
  ∃ r, print_number w n to_hex to_dec fmt num c = Ret (r, say c (number w kh kd fmt num)).
Proof.
  intros Hw Hf Hn Hd Hh Hdec. rw /print_number /number. destruct (Z.eqb_spec fmt 98) as [->|_]; [done|].
  destruct ((fmt =? 112) || (fmt =? 120)) eqn:E1.
  { rw (bind_run _ _ _ _ _ (print_lit_run lit_0x c Hf)). destruct (print_hex_run to_hex kh num (say c lit_0x) Hf) as [r ->]; [by apply Hh|].
    exists r. by rw say_say. }
  destruct (fmt =? 104) eqn:E2; [by apply print_hex_run, Hh|].
  destruct (fmt =? 100) eqn:E3; cbn [andb].
  - rw ctrue_land_pow2; [lia|]. destruct (Z.testbit num (w - 1)) eqn:Eb.
    + destruct (negated w num Hw Hn Eb) as [Ew Hu]. rw (bind_run _ _ c (2 ^ w - num) (say c [45])); [rw bind_print_char // Ew //|].
      destruct (print_dec_run to_dec kd (2 ^ w - num) (say c [45]) Hf) as [r ->]; [by apply Hdec|]. exists r. by rw say_say.
    + rw (bind_run _ _ c num c) //. by apply print_dec_run, Hdec.
  - destruct (fmt =? 117) eqn:E4; [by apply print_dec_run, Hdec|]. exfalso. by rw /is_digits E1 E2 E3 E4 in Hd.
Qed.

Lemma print_u32_run fmt num c : putchar_func c = true → uint 32 num → is_digits fmt = true →
  ∃ n, print_u32 fmt num c = Ret (n, say c (number 32 8 10 fmt num)).
Proof.
  intros Hf Hn Hd. exact (print_number_run 32 32 u32_to_hex u32_to_dec 8 10 fmt num c ltac:(lia) Hf Hn Hd u32_to_hex_digits u32_to_dec_digits).
Qed.

Lemma print_u64_run fmt num c : putchar_func c = true → uint 64 num → is_digits fmt = true →
  ∃ n, print_u64 fmt num c = Ret (n, say c (number 64 16 20 fmt num)).
Proof.
  intros Hf Hn Hd. exact (print_number_run 64 64 u64_to_hex u64_to_dec 16 20 fmt num c ltac:(lia) Hf Hn Hd u64_to_hex_digits u64_to_dec_digits).
Qed.

(** ** Reading back *)

(** The base in which a number printed with [fmt] reads back. *)
Definition reads_in (fmt base : Z) : bool :=
  if (fmt =? 112) || (fmt =? 120) then (base =? 0) || (base =? 16)
  else if fmt =? 104 then base =? 16
  else is_digits fmt && negb (base =? 16).

Lemma stou64_zero c : c = 0 → isxdigit (to_char c) = false ∧ to_char c ≠ 120 ∧ to_char c ≠ 88.
Proof. intros ->. by rw to_char_0. Qed.

(** Reading the text of a number, with the sign taken off. *)
Lemma number_reads w kh kd fmt base num m p : 0 < w ≤ 64 → uint w num → 2 ^ w ≤ 16 ^ Z.of_nat kh → 2 ^ w ≤ 10 ^ Z.of_nat kd →
  reads_in fmt base = true → p ≠ 0 → arr m p (number w kh kd fmt num ++ [0]) →
  ∃ r, stou64 p base m = Ret (r, m) ∧ wrap w r = num.
Proof.
  intros Hw Hn Hkh Hkd Hr Hp Ha. destruct (stou64_zero 0 eq_refl) as (H1 & H2 & H3). destruct Hn as [Hn Hn'].
  assert (2 ^ w ≤ 2 ^ 64) as Hw64 by (apply Z.pow_le_mono_r; lia).
  assert (u64 num = num) as E64 by (apply wrap_small; split; lia). assert (wrap w num = num) as Ew by by apply wrap_small.
  rw /reads_in in Hr. rw /number in Ha. destruct ((fmt =? 112) || (fmt =? 120)).
  { destruct (num_text_value 16 kh num) as (Hl & Hx & Hv); [cbn; lia|].
    rw (stou64_run m p base false true _ 0 Hp Hl Hx H1 H2 H3); [intros _; apply orb_true_iff in Hr; rw !Z.eqb_eq in Hr; done|by rw -app_assoc in Ha|].
    rw Hv E64. by exists num. }
  destruct (fmt =? 104).
  { apply Z.eqb_eq in Hr as ->. destruct (num_text_value 16 kh num) as (Hl & Hx & Hv); [cbn; lia|].
    rw (stou64_run m p 16 false false _ 0 Hp Hl Hx H1 H2 H3) //. rw Hv E64. by exists num. }
  apply andb_true_iff in Hr as [_ Hb]. apply negb_true_iff in Hb. assert (radix base = 10) as Er by by rw /radix Hb.
  destruct ((fmt =? 100) && Z.testbit num (w - 1)) eqn:Es.
  - apply andb_true_iff in Es as [_ Hbit]. destruct (negated w num ltac:(lia) (conj Hn Hn') Hbit) as [_ [Hu Hu']].
    destruct (num_text_value base kd (2 ^ w - num)) as (Hl & Hx & Hv); [rw Er; lia|]. rw Er in Hl Hx Hv.
    rw (stou64_run m p base true false _ 0 Hp Hl Hx H1 H2 H3) //. rw Hv. eexists. split; [done|].
    rw (wrap_small 64 (2 ^ w - num)); [split; lia|]. rw /wrap Z.mod_mod_divide; [apply pow2_divide_le; lia|].
    replace (- (2 ^ w - num)) with (num + -1 * 2 ^ w) by lia. rw Z.mod_add; [lia|]. by apply Z.mod_small.
  - destruct (num_text_value base kd num) as (Hl & Hx & Hv); [rw Er; lia|]. rw Er in Hl Hx Hv.
    rw (stou64_run m p base false false _ 0 Hp Hl Hx H1 H2 H3) //. rw Hv E64. by exists num.
Qed.

(** ** Formats *)

Lemma bind_con_ldc {B} (f : Z → PM B) c p b : con_mem c !! p = Some b → (on_con_mem (ldc p) ≫= f) c = f (to_char b) c.
Proof. intros Hp. apply bind_run. rw /on_con_mem /zoom (ldc_run _ _ _ Hp). by destruct c. Qed.

Lemma print_string_loop_run l : ∀ fuel p n c, putchar_func c = true → (length l < fuel)%nat → cstr (con_mem c) p l →
  print_string_loop fuel p n c = Ret (n + Z.of_nat (length l), say c (to_char <$> l)).
Proof.
  induction l as [|b l IH]; intros [|fuel] p n c Hf Hl Hs; [cbn in Hl; lia| |cbn in Hl; lia|]; cbn [print_string_loop].
  - apply cstr_nil in Hs. rw (bind_con_ldc _ _ _ _ Hs) to_char_0 /=. by rw say_nil Z.add_0_r.
  - apply cstr_cons in Hs as (Hp & Hb & Hs). cbn [length] in *. rw (bind_con_ldc _ _ _ _ Hp) text_char //.
    rw (bind_run _ _ c 1 (say c [to_char b])); [rw /__kputchar /mbind /M_bind /gets Hf //|].
    rw IH //; [lia|]. rw say_say. do 2 f_equal. lia.
Qed.

Lemma print_string_run p l c : putchar_func c = true → cstr (con_mem c) p l →
  print_string p c = Ret (Z.of_nat (length l), say c (to_char <$> l)).
Proof.
  intros Hf Hs. rw /print_string (bind_run _ _ c (scan_fuel (con_mem c)) c) //.
  rw (print_string_loop_run l) //. apply cstr_fuel in Hs. lia.
Qed.

(** The parts of a format: characters, the percent sign, numbers of each width
    with digits, pointers, characters and strings as arguments. *)
Inductive piece :=
| Chr (b : Z)
| Percent
| Int (fmt v : Z)
| Long (fmt v : Z)
| LongLong (fmt v : Z)
| Ptr (v : Z)
| Char (v : Z)
| Str (p : Z) (l : list Z).

Definition piece_fmt (x : piece) : list Z :=
  match x with
  | Chr b => [b]
  | Percent => [37; 37]
  | Int fmt _ => [37; fmt]
  | Long fmt _ => [37; 108; fmt]
  | LongLong fmt _ => [37; 108; 108; fmt]
  | Ptr _ => [37; 112]
  | Char _ => [37; 99]
  | Str _ _ => [37; 115]
  end.

Definition piece_arg (x : piece) : list va :=
  match x with
  | Chr _ | Percent => []
  | Int _ v | Char v => [mk_va 32 v]
  | LongLong _ v => [mk_va 64 v]
  | Long _ v | Ptr v | Str v _ => [mk_va ARCH_WIDTH v]
  end.

Definition long_number (fmt v : Z) : list Z := if ARCH_WIDTH =? 32 then number 32 8 10 fmt v else number 64 16 20 fmt v.

Definition piece_out (x : piece) : list Z :=
  match x with
  | Chr b => [to_char b]
  | Percent => [37]
  | Int fmt v => number 32 8 10 fmt v
  | Long fmt v => long_number fmt v
  | LongLong fmt v => number 64 16 20 fmt v
  | Ptr v => long_number 112 v
  | Char v => [to_char v]
  | Str _ l => to_char <$> l
  end.

(** What a piece adds to the result of the call. *)
Definition piece_len (x : piece) : Z := match x with Chr _ | Percent => 1 | _ => 0 end.

Definition piece_ok (m : mem) (x : piece) : Prop :=
  match x with
  | Chr b => 0 < b < 256 ∧ b ≠ 37
  | Percent | Char _ => True
  | Int fmt v => is_digits fmt = true ∧ fmt ≠ 112 ∧ uint 32 v
  | Long fmt v => is_digits fmt = true ∧ uint ARCH_WIDTH v
  | LongLong fmt v => is_digits fmt = true ∧ fmt ≠ 112 ∧ uint 64 v
  | Ptr v => uint ARCH_WIDTH v
  | Str p l => cstr m p l
  end.

Lemma is_digits_cases fmt : is_digits fmt = true → fmt = 112 ∨ fmt = 120 ∨ fmt = 104 ∨ fmt = 100 ∨ fmt = 117.
Proof. rw /is_digits !orb_true_iff !Z.eqb_eq. lia. Qed.

Lemma print_ulong_run fmt v c : putchar_func c = true → is_digits fmt = true → uint ARCH_WIDTH v →
  ∃ n, print_ulong fmt v c = Ret (n, say c (long_number fmt v)).
Proof.
  intros Hf Hd Hv. rw /print_ulong /long_number. destruct arch_width_cases as [E|E]; rw E in Hv |- *; cbn [Z.eqb Pos.eqb];
    rw wrap_small //; [by apply print_u32_run|by apply print_u64_run].
Qed.

(** The bytes of a format at the current position. *)
Lemma arr_cons_inv m p b l : arr m p (b :: l) → m !! p = Some b ∧ arr m (p + 1) l.
Proof. done. Qed.

(** The iteration of the loop that a percent sign starts. *)
Lemma loop_percent fuel s len arg c k arg' c' c'' : con_mem c !! s = Some 37 → print_token (s + 1) c = Ret (k, c') →
  print_arg k arg c' = Ret (arg', c'') →
  vkprintf_loop (S fuel) s len arg c = vkprintf_loop fuel (tok_s k + 1) (len + tok_len k) arg' c''.
Proof.
  intros Hs Hk Ha. cbn [vkprintf_loop]. rw (bind_con_ldc _ _ _ _ Hs) to_char_ascii //. change (ctrue 37) with true. change (37 =? 37) with true. cbn match.
  by rw (bind_run _ _ _ _ _ Hk) (bind_run _ _ _ _ _ Ha).
Qed.

(** The token of a piece that starts with a percent sign. *)
Definition piece_type (x : piece) : print_token_types :=
  match x with
  | Chr _ | Percent => PRINT_TOKEN_NONE
  | Int _ _ => PRINT_TOKEN_U32
  | Long _ _ | Ptr _ => PRINT_TOKEN_ULONG
  | LongLong _ _ => PRINT_TOKEN_U64
  | Char _ => PRINT_TOKEN_CHAR
  | Str _ _ => PRINT_TOKEN_STR
  end.
Definition piece_ch (x : piece) : Z := List.last (piece_fmt x) 0.
Definition token_out (x : piece) : list Z := match x with Percent => [37] | _ => [] end.
Definition piece_tok (s : Z) (x : piece) : token :=
  mk_token (piece_len x) (s + Z.of_nat (length (piece_fmt x)) - 1) (piece_type x) (piece_ch x).

Lemma piece_token x s c r : putchar_func c = true → piece_ok (con_mem c) x → (∀ b, x ≠ Chr b) → arr (con_mem c) s (piece_fmt x ++ r) →
  con_mem c !! s = Some 37 ∧ print_token (s + 1) c = Ret (piece_tok s x, say c (token_out x)).
Proof.
  intros Hf Hx Hn Ha. rw /piece_tok. destruct x as [b| |fmt v|fmt v|fmt v|v|v|p l]; cbn [piece_fmt piece_ok length app arr] in *;
    [by destruct (Hn b)|destruct Ha as (Hs & Ht & Ha)..]; (split; [done|]); rw /print_token (bind_con_ldc _ _ _ _ Ht); cbn [token_out].
  - rw to_char_ascii //=. rw bind_print_char //. rw /mret /M_ret. do 3 f_equal. lia.
  - rw say_nil. replace (s + Z.of_nat 2 - 1) with (s + 1) by lia. destruct Hx as (Hd & Hp & _).
    apply is_digits_cases in Hd as [->|[->|[->|[-> | ->]]]]; try done; rw to_char_ascii //.
  - rw to_char_ascii //=. rw /print_token_l (bind_con_ldc _ _ _ _ (proj1 Ha)) say_nil. replace (s + Z.of_nat 3 - 1) with (s + 1 + 1) by lia. destruct Hx as (Hd & _).
    apply is_digits_cases in Hd as [->|[->|[->|[-> | ->]]]]; try done; rw to_char_ascii //.
  - rw to_char_ascii //=. destruct Ha as (Hl & Ht2 & _). rw /print_token_l (bind_con_ldc _ _ _ _ Hl) to_char_ascii //=.
    rw /print_token_ll (bind_con_ldc _ _ _ _ Ht2) say_nil. replace (s + Z.of_nat 4 - 1) with (s + 1 + 1 + 1) by lia. destruct Hx as (Hd & Hp & _).
    apply is_digits_cases in Hd as [->|[->|[->|[-> | ->]]]]; try done; rw to_char_ascii //.
  - rw to_char_ascii //=. rw say_nil. by replace (s + Z.of_nat 2 - 1) with (s + 1) by lia.
  - rw to_char_ascii //=. rw say_nil. by replace (s + Z.of_nat 2 - 1) with (s + 1) by lia.
  - rw to_char_ascii //=. rw say_nil. by replace (s + Z.of_nat 2 - 1) with (s + 1) by lia.
Qed.

(** Fetching an argument and printing it. *)
Lemma arg_run {n l} k v arg (pr : Z → PM Z) c : pr v c = Ret (n, say c l) →
  ('(v, arg) ← va_arg k (mk_va k v :: arg); pr v;; mret arg) c = Ret (arg, say c l).
Proof.
  intros Hn. rw (bind_run _ _ c (v, arg) c); [rw /va_arg /= Z.eqb_refl //|]. by rw (bind_run _ _ _ _ _ Hn).
Qed.

Lemma piece_print x s c arg : putchar_func c = true → piece_ok (con_mem c) x → (∀ b, x ≠ Chr b) →
  print_arg (piece_tok s x) (piece_arg x ++ arg) (say c (token_out x)) = Ret (arg, say c (piece_out x)).
Proof.
  intros Hf Hx Hn. destruct x as [b| |fmt v|fmt v|fmt v|v|v|p l]; cbn [piece_ok token_out piece_arg app] in *; [by destruct (Hn b)|done|..]; rw say_nil.
  - destruct Hx as (Hd & _ & Hv). destruct (print_u32_run fmt v c Hf Hv Hd) as [n E]. exact (arg_run 32 v arg (print_u32 fmt) c E).
  - destruct Hx as (Hd & Hv). destruct (print_ulong_run fmt v c Hf Hd Hv) as [n E]. exact (arg_run ARCH_WIDTH v arg (print_ulong fmt) c E).
  - destruct Hx as (Hd & _ & Hv). destruct (print_u64_run fmt v c Hf Hv Hd) as [n E]. exact (arg_run 64 v arg (print_u64 fmt) c E).
  - destruct (print_ulong_run 112 v c Hf eq_refl Hx) as [n E]. exact (arg_run ARCH_WIDTH v arg (print_ulong 112) c E).
  - exact (arg_run 32 v arg (λ v, print_char (to_char v)) c (print_char_run c _ Hf)).
  - exact (arg_run ARCH_WIDTH p arg print_string c (print_string_run p l c Hf Hx)).
Qed.

(** One piece of the format: the loop goes on behind it with its text printed. *)
Lemma loop_piece x fuel s len arg c r : putchar_func c = true → piece_ok (con_mem c) x → arr (con_mem c) s (piece_fmt x ++ r) →
  vkprintf_loop (S fuel) s len (piece_arg x ++ arg) c =
  vkprintf_loop fuel (s + Z.of_nat (length (piece_fmt x))) (len + piece_len x) arg (say c (piece_out x)).
Proof.
  intros Hf Hx Ha. assert ((∃ b, x = Chr b) ∨ ∀ b, x ≠ Chr b) as [[b ->]|Hn] by (destruct x; naive_solver).
  - destruct Ha as [Hs _], Hx as [Hb Hn]. cbn [vkprintf_loop]. rw (bind_con_ldc _ _ _ _ Hs) text_char //.
    assert ((to_char b =? 37) = false) as -> by (rw -(to_char_ascii 37) // to_char_eqb; [by apply text_byte|done|by apply Z.eqb_neq]).
    by rw bind_print_char.
  - destruct (piece_token x s c r Hf Hx Hn Ha) as [Hs Ht].
    rw (loop_percent fuel s len _ c _ arg _ _ Hs Ht (piece_print x s c arg Hf Hx Hn)). rw /piece_tok /=. f_equal. lia.
Qed.

Lemma pieces_run xs : ∀ fuel s len c, putchar_func c = true → (length xs < fuel)%nat → Forall (piece_ok (con_mem c)) xs →
  arr (con_mem c) s ((xs ≫= piece_fmt) ++ [0]) →
  vkprintf_loop fuel s len (xs ≫= piece_arg) c = Ret (len + foldr (λ x n, piece_len x + n) 0 xs, say c (xs ≫= piece_out)).
Proof.
  induction xs as [|x xs IH]; intros [|fuel] s len c Hf Hl Hx Ha; [cbn in Hl; lia| |cbn in Hl; lia|].
  - destruct Ha as [Hs _]. cbn [vkprintf_loop foldr]. rw (bind_con_ldc _ _ _ _ Hs) to_char_0 /= say_nil. by rw Z.add_0_r.
  - rw !bind_cons in Ha |- *. rw -app_assoc in Ha. apply Forall_cons in Hx as [Hx Hxs]. rw (loop_piece x fuel s len _ c _ Hf Hx Ha).
    apply arr_app in Ha as [_ Ha]. rw IH //; [cbn in Hl; lia|]. cbn [foldr]. rw say_say. do 2 f_equal. lia.
Qed.

Lemma pieces_length xs m : Forall (piece_ok m) xs → (length xs ≤ length (xs ≫= piece_fmt))%nat.
Proof. induction 1 as [|x xs Hx Hxs IH]; [done|]. rw bind_cons length_app /=. destruct x; cbn [piece_fmt length]; lia. Qed.

(** A long number in binary has no defined output: the first bit is tested with
    an [int] shifted by 63. *)
Lemma print_u64_binary_faults num c : print_u64 98 num c = Fault.
Proof. done. Qed.

Lemma loop_plain l : ∀ fuel s len arg c r, putchar_func c = true → Forall (λ b, 0 < b < 256 ∧ b ≠ 37) l → arr (con_mem c) s (l ++ r) →
  vkprintf_loop (length l + fuel) s len arg c = vkprintf_loop fuel (s + Z.of_nat (length l)) (len + Z.of_nat (length l)) arg (say c (to_char <$> l)).
Proof.
  induction l as [|b l IH]; intros fuel s len arg c r Hf Hl Ha; cbn [length Nat.add fmap list_fmap]; [by rw say_nil !Z.add_0_r|].
  apply Forall_cons in Hl as [Hb Hl]. rw (loop_piece (Chr b) _ s len arg c (l ++ r) Hf Hb Ha). destruct Ha as [_ Ha].
  cbn [piece_fmt piece_len piece_out length]. rw (IH _ _ _ _ _ r) //. rw say_say. f_equal; lia.
Qed.

(** C16. A printed number reads back: what [print_u64] prints of a 64-bit number
    with the formats u, d (as a two's complement number), h, x or p is read by
    [stou64] as that number, in base 16 for h, in base 0 or 16 for x and p, in
    any base but 16 for u and d; the same holds of [print_u32] and [stou32]. *)
Theorem print_read_round_trip fmt base num c : putchar_func c = true → reads_in fmt base = true →
  (uint 64 num → ∃ n l, print_u64 fmt num c = Ret (n, say c l) ∧
    ∀ m p, p ≠ 0 → arr m p (l ++ [0]) → stou64 p base m = Ret (num, m)) ∧
  (uint 32 num → ∃ n l, print_u32 fmt num c = Ret (n, say c l) ∧
    ∀ m p, p ≠ 0 → arr m p (l ++ [0]) → stou32 p base m = Ret (num, m)).
Proof.
  intros Hf Hr. assert (is_digits fmt = true) as Hd.
  { rw /reads_in /is_digits in Hr |- *. destruct ((fmt =? 112) || (fmt =? 120)); [done|]. destruct (fmt =? 104); [done|]. by apply andb_true_iff in Hr as [? _]. }
  split; intros Hn.
  - destruct (print_u64_run fmt num c Hf Hn Hd) as [n E]. exists n, (number 64 16 20 fmt num). split; [done|]. intros m p Hp Ha.
    destruct (number_reads 64 16 20 fmt base num m p) as (r & Es & Ew); [lia|exact Hn|vm_compute; discriminate|vm_compute; discriminate|exact Hr|exact Hp|exact Ha|]. rw Es -Ew. do 2 f_equal.
    symmetry. apply wrap_small. exact (stou64_range p base m r m Es).
  - destruct (print_u32_run fmt num c Hf Hn Hd) as [n E]. exists n, (number 32 8 10 fmt num). split; [done|]. intros m p Hp Ha.
    destruct (number_reads 32 8 10 fmt base num m p) as (r & Es & Ew); [lia|exact Hn|vm_compute; discriminate|vm_compute; discriminate|exact Hr|exact Hp|exact Ha|]. rw /stou32 (bind_run _ _ _ _ _ Es). by rw Ew.
Qed.

(** C17. For a format made of plain characters, percent signs written twice, and
    conversions d, u, h and x with or without l or ll, p, lp, c and s, with an
    argument of the right width for each, [__kprintf] prints the text of every
    part in order and reads nothing outside the format and its strings.  The
    result of the call counts the plain characters and percent signs only. *)
Theorem kprintf_prints xs s c : putchar_func c = true → Forall (piece_ok (con_mem c)) xs → cstr (con_mem c) s (xs ≫= piece_fmt) →
  __kprintf s (xs ≫= piece_arg) c = Ret (foldr (λ x n, piece_len x + n) 0 xs, say c (xs ≫= piece_out)).
Proof.
  intros Hf Hx Hs. rw /__kprintf /__vkprintf (bind_run _ _ c (scan_fuel (con_mem c)) c) //. apply (pieces_run xs); [done| |done|apply Hs].
  apply pieces_length in Hx. apply cstr_fuel in Hs. lia.
Qed.

(** A format that ends in a single percent sign is read past its end: the
    code steps over the terminating NUL and goes on with the byte behind it,
    which is undefined behaviour where that byte is in no object. *)
Theorem kprintf_trailing_percent l s arg c : putchar_func c = true → Forall (λ b, 0 < b < 256 ∧ b ≠ 37) l →
  cstr (con_mem c) s (l ++ [37]) → con_mem c !! (s + Z.of_nat (length l) + 2) = None →
  __kprintf s arg c = Fault.
Proof.
  intros Hf Hl [Ha _] Hn. rw /__kprintf /__vkprintf (bind_run _ _ c (scan_fuel (con_mem c)) c) //.
  pose proof (arr_fuel _ _ _ Ha) as Hfu. rw !length_app /= in Hfu. rw -app_assoc /= in Ha.
  replace (scan_fuel (con_mem c)) with (length l + S (S (scan_fuel (con_mem c) - length l - 2)))%nat by lia.
  rw (loop_plain l _ s 0 arg c _ Hf Hl Ha). apply arr_app in Ha as (_ & H37 & H0' & _). set (c1 := say c _).
  rw (loop_percent _ _ _ _ c1 (mk_token 1 (s + Z.of_nat (length l) + 1) PRINT_TOKEN_NONE 0) arg (say c1 [37]) (say c1 [37]) H37) //.
  - rw /print_token (bind_con_ldc _ c1 _ _ H0') to_char_0 /=. by rw bind_print_char.
  - cbn [vkprintf_loop tok_s]. rw /mbind /M_bind /on_con_mem /zoom /ldc /mbind /M_bind /ldb /deref.
    replace (s + Z.of_nat (length l) + 1 + 1) with (s + Z.of_nat (length l) + 2) by lia. change (con_mem (say c1 [37])) with (con_mem c). by rw Hn.
Qed.
End PrintSpec.

(** ** Examples *)

(** A console whose memory holds the format "a%d %lx%%" at 16 and the format
    "ok%" at 40. *)
Definition demo_con : con :=
  mk_con (put (put ∅ 16 [97; 37; 100; 32; 37; 108; 120; 37; 37; 0]) 40 [111; 107; 37; 0]) [] true.

Lemma print_read_round_trip_witness :
  ∃ n l, @print_u64 signed_char 100 (2 ^ 64 - 1234) demo_con = Ret (n, say demo_con l) ∧
  ∀ m p, p ≠ 0 → arr m p (l ++ [0]) → @stou64 signed_char p 10 m = Ret (2 ^ 64 - 1234, m).
Proof. exact (proj1 (@print_read_round_trip signed_char 100 10 (2 ^ 64 - 1234) demo_con eq_refl eq_refl) ltac:(rw /uint; lia)). Defined.

(** The call prints "a-5 0xff%". *)
Lemma kprintf_prints_witness :
  @__kprintf riscv64 signed_char 16 [mk_va 32 (2 ^ 32 - 5); mk_va 64 255] demo_con =
  Ret (3, say demo_con [97; 45; 53; 32; 48; 120; 102; 102; 37]).
Proof.
  apply (@kprintf_prints riscv64 signed_char [Chr 97; Int 100 (2 ^ 32 - 5); Chr 32; Long 120 255; Percent] 16 demo_con).
  - reflexivity.
  - apply Forall_cons; split; [cbn; lia|]. apply Forall_cons; split; [split_and!; [reflexivity|discriminate|rw /uint; lia]|].
    apply Forall_cons; split; [cbn; lia|]. apply Forall_cons; split; [split; [reflexivity|rw /uint; cbn [ARCH_WIDTH riscv64]; lia]|]. by apply Forall_singleton.
  - split; [cbn [piece_fmt mbind list_bind app arr]; split_and!; vm_compute; done|repeat constructor].
Defined.

Lemma kprintf_trailing_percent_witness : @__kprintf riscv64 signed_char 40 [] demo_con = Fault.
Proof.
  apply (@kprintf_trailing_percent riscv64 signed_char [111; 107] 40 [] demo_con).
  - reflexivity.
  - repeat constructor; discriminate.
  - split; [cbn [app arr]; split_and!; vm_compute; done|repeat constructor].
  - vm_compute. reflexivity.
Defined.
