(* ===== verification/Msg.v ===== *)
(** Messages: the layout of [src/src/common/include/ipc.h], the library user
    programs build and read them with, [src/src/libsys/ipc.c], and the copy the
    kernel makes of them, [copy_msg] of [src/src/kernel/proc/ipc.c].

    A message is a buffer of [MAX_MSG_SIZE] bytes of memory: a word of bit
    fields, the sender, the parameters and the data words.  Bit fields are
    allocated from the least significant bit on little-endian machines and from
    the most significant bit on big-endian ones, as the ABIs prescribe; a field
    of fewer bits than an [int] is an [int] in expressions. *)

From stdpp Require Import base list gmap.
From Stdlib Require Import ZArith Lia.
From Corelib Require Import ssreflect.
From S2P Require Import Prelude Bits Mem Str StrSpec MemWords.

Section Msg.
Context `{Arch} `{CharType}.

(** ** Words in memory *)

Definition word_bytes (v : Z) : list Z := endian (le_bytes (Z.to_nat WORD) v).
Definition bytes_word (l : list Z) : Z := le_val (endian l).

Definition ldw (p : Z) : SM Z := l ← ld_bytes (Z.to_nat WORD) p; mret (bytes_word l).
Definition stw (p v : Z) : SM unit := st_bytes p (word_bytes (ulong v)).

(** ** Layout *)

Definition MAX_MSG_SIZE : Z := 2048.
Definition MAX_MSG_PARAMS : Z := 15.
Definition MAX_MSG_DATA_WORDS : Z := MAX_MSG_SIZE / WORD - 3 - MAX_MSG_PARAMS.

(** The bit fields of the first word, by offset and width. *)
Inductive field := param_type_map | num_params | num_data_words.
Definition f_off (f : field) : Z := match f with param_type_map => 0 | num_params => 16 | num_data_words => 20 end.
Definition f_width (f : field) : Z := match f with param_type_map => 16 | num_params => 4 | num_data_words => 12 end.
Definition f_pos (f : field) : Z := if ARCH_BIG_ENDIAN then ARCH_WIDTH - f_off f - f_width f else f_off f.

Definition get_field (f : field) (w : Z) : Z := Z.land (shr w (f_pos f)) (Z.ones (f_width f)).
Definition set_field (f : field) (w v : Z) : Z :=
  Z.lor (Z.land w (bnot ARCH_WIDTH (Z.shiftl (Z.ones (f_width f)) (f_pos f))))
        (Z.shiftl (Z.land v (Z.ones (f_width f))) (f_pos f)).

Definition msg_size (msg : Z) : Z := msg.
Definition sender_pid (msg : Z) : Z := msg + WORD.
Definition sender_tid (msg : Z) : Z := msg + 2 * WORD.
Definition params (msg i : Z) : Z := msg + 3 * WORD + i * WORD.
Definition data (msg i : Z) : Z := msg + 18 * WORD + i * WORD.

Definition ldf (msg : Z) (f : field) : SM Z := w ← ldw (msg_size msg); mret (get_field f w).
Definition stf (msg : Z) (f : field) (v : Z) : SM unit := w ← ldw (msg_size msg); stw (msg_size msg) (set_field f w v).

(** ** Message manipulation *)

(** [tib_msg] is the buffer of the thread, from its information block. *)
Definition get_msg (tib_msg : Z) : SM Z := mret tib_msg.
Definition get_empty_msg (tib_msg : Z) : SM Z := msg ← get_msg tib_msg; stw (msg_size msg) 0;; mret msg.
Definition get_response_msg (tib_msg : Z) : SM Z := get_msg tib_msg.
Definition clear_msg (msg : Z) : SM unit := stw (msg_size msg) 0.
Definition zero_msg (msg : Z) : SM unit := memzero msg MAX_MSG_SIZE;; mret tt.

Definition msg_remain_data_size (msg : Z) : SM Z :=
  d ← ldf msg num_data_words;
  mret (ulong ((MAX_MSG_DATA_WORDS - d) * WORD)).

(** ** Append *)

(** Both conversions to [ulong]: a parameter as it is, an [int] sign-extended. *)
Definition append_value (msg v : Z) : SM unit :=
  n ← ldf msg num_params;
  panic_if (MAX_MSG_PARAMS <=? n);;
  n ← ldf msg num_params;
  stw (params msg n) v;;
  stf msg num_params (n + 1).

Definition msg_append_param (msg param : Z) : SM unit := append_value msg param.
Definition msg_append_int (msg param : Z) : SM unit := append_value msg (ulong param).

(** [align_up_vsize(size, sizeof(ulong)) / sizeof(ulong)] *)
Definition data_words (size : Z) : Z := align_up_vsize size WORD / WORD.

(** [params[num_params] = v; param_type_map |= 0x1 << num_params; num_params++],
    around the update of [num_data_words]. *)
Definition append_block (msg v new_data_words : Z) : SM unit :=
  n ← ldf msg num_params;
  stw (params msg n) v;;
  n ← ldf msg num_params;
  t ← ldf msg param_type_map;
  stf msg param_type_map (Z.lor t (Z.shiftl 1 n));;
  d ← ldf msg num_data_words;
  stf msg num_data_words (d + new_data_words);;
  n ← ldf msg num_params;
  stf msg num_params (n + 1).

Definition append_new (msg new_data_words : Z) : SM unit :=
  d ← ldf msg num_data_words;
  append_block msg (Z.lor (Z.shiftl d 16) new_data_words) new_data_words.

Definition msg_append_data (msg dat size : Z) : SM Z :=
  n ← ldf msg num_params;
  panic_if (MAX_MSG_PARAMS <=? n);;
  let new_data_words := data_words size in
  d ← ldf msg num_data_words;
  panic_if (MAX_MSG_DATA_WORDS <? ulong (d + new_data_words));;
  d ← ldf msg num_data_words;
  let data_start := data msg d in
  (if ctrue dat then memcpy data_start dat size;; mret tt else mret tt);;
  append_new msg new_data_words;;
  mret data_start.

Definition msg_try_append_data (msg dat size : Z) : SM Z :=
  n ← ldf msg num_params;
  if MAX_MSG_PARAMS <=? n then mret 0 else
  let new_data_words := data_words size in
  d ← ldf msg num_data_words;
  if MAX_MSG_DATA_WORDS <? ulong (d + new_data_words) then mret 0 else
  d ← ldf msg num_data_words;
  let data_start := data msg d in
  (if ctrue dat then memcpy data_start dat size;; mret tt else mret tt);;
  append_new msg new_data_words;;
  mret data_start.

Definition msg_append_str (msg str size : Z) : SM Z :=
  n ← ldf msg num_params;
  panic_if (MAX_MSG_PARAMS <=? n);;
  if negb (ctrue str) && negb (ctrue size) then
    n ← ldf msg num_params;
    stw (params msg n) 0;;
    n ← ldf msg num_params;
    t ← ldf msg param_type_map;
    stf msg param_type_map (Z.lor t (Z.shiftl 1 n));;
    n ← ldf msg num_params;
    stf msg num_params (n + 1);;
    mret 0
  else
  size ← (if negb (ctrue size) then strlen str else mret size);
  let new_data_words := data_words (ulong (size + 1)) in
  d ← ldf msg num_data_words;
  panic_if (MAX_MSG_DATA_WORDS <? ulong (d + new_data_words));;
  d ← ldf msg num_data_words;
  let data_start := data msg d in
  (if ctrue str then strncpy data_start str (ulong (size + 1));; stb (data_start + size) 0 else mret tt);;
  append_new msg new_data_words;;
  mret data_start.

(** ** Get and set *)

(** The checks of an index: the comparison is between [int]s, a shift by a
    negative count is undefined. *)
Definition check_index (msg idx : Z) (is_data : bool) : SM unit :=
  n ← ldf msg num_params;
  panic_if (n <=? idx);;
  t ← ldf msg param_type_map;
  b ← lift_outcome (shl_chk 32 1 idx);
  panic_if (xorb is_data (ctrue (Z.land t b))).

Definition msg_get_param (msg idx : Z) : SM Z := check_index msg idx false;; ldw (params msg idx).
Definition msg_get_int (msg idx : Z) : SM Z := param ← msg_get_param msg idx; mret (s32 param).

(** The pointer, and what is stored through a non-NULL [size]. *)
Definition msg_get_data (msg idx : Z) : SM (Z * option Z) :=
  check_index msg idx true;;
  v ← ldw (params msg idx);
  let data_word_idx := shr v 16 in
  v ← ldw (params msg idx);
  let data_words := Z.land v 0xffff in
  if negb (ctrue data_words) then mret (0, None) else
  mret (data msg data_word_idx, Some (ulong (data_words * WORD))).

Definition msg_copy_data (msg idx buf size : Z) : SM unit :=
  check_index msg idx true;;
  v ← ldw (params msg idx);
  let data_word_idx := shr v 16 in
  v ← ldw (params msg idx);
  let data_words := Z.land v 0xffff in
  let dat := data msg data_word_idx in
  let data_size := ulong (data_words * WORD) in
  if ctrue buf then
    let copy_size := if data_size <? size then data_size else size in
    memcpy buf dat copy_size;; mret tt
  else mret tt.

Definition msg_set_param (msg idx val : Z) : SM unit := check_index msg idx false;; stw (params msg idx) val.
Definition msg_set_int (msg idx val : Z) : SM unit := msg_set_param msg idx (ulong val).

(** ** Numbers of 64 bits *)

(** [tmp] is the address of the local variable that is passed by reference on
    32-bit machines. *)
Definition msg_append_param_u64 (tmp msg param : Z) : SM unit :=
  if ARCH_WIDTH =? 32 then st_bytes tmp (endian (le_bytes 8 param));; msg_append_data msg tmp 8;; mret tt
  else msg_append_param msg (ulong param).

Definition msg_get_param_u64 (tmp msg idx : Z) : SM Z :=
  if ARCH_WIDTH =? 32 then
    st_bytes tmp (endian (le_bytes 8 0));;
    msg_copy_data msg idx tmp 8;;
    l ← ld_bytes 8 tmp;
    mret (bytes_word l)
  else msg_get_param msg idx.

(** ** The copy made by the kernel *)

(** The number of parameters is read again in every round; it has four bits, so
    16 rounds are enough. *)
Fixpoint copy_params (fuel : nat) (dst_msg src_msg i : Z) : SM unit :=
  match fuel with
  | O => diverge
  | S f =>
      n ← ldf src_msg num_params;
      if i <? n then
        v ← ldw (params src_msg i);
        stw (params dst_msg i) v;;
        copy_params f dst_msg src_msg (i + 1)
      else mret tt
  end.

(** [pid] and [tid] are those of the sending thread. *)
Definition copy_msg (dst_msg src_msg pid tid : Z) : SM unit :=
  w ← ldw (msg_size src_msg);
  stw (msg_size dst_msg) w;;
  stw (sender_pid dst_msg) pid;;
  stw (sender_tid dst_msg) tid;;
  copy_params 16 dst_msg src_msg 0;;
  d ← ldf src_msg num_data_words;
  if ctrue d then
    d ← ldf src_msg num_data_words;
    memcpy (data dst_msg 0) (data src_msg 0) (ulong (d * WORD));; mret tt
  else mret tt.
End Msg.
