(* ===== verification/MsgSpec.v ===== *)
(** Correctness of messages: a message stands for the list of items that were
    appended to it ([msg_rep]); appending, copying and reading agree with that
    list, and stay within the buffer. *)

From stdpp Require Import base list gmap.
From Stdlib Require Import ZArith Lia.
From Corelib Require Import ssreflect.
From S2P Require Import Prelude Bits Mem Str StrSpec MemWords Msg.

Section MsgSpec.
Context `{Arch} `{CharType}.

(** ** Words *)

Lemma length_word_bytes v : Z.of_nat (length (word_bytes v)) = WORD.
Proof. rw /word_bytes length_endian length_le_bytes Z2Nat.id //. destruct WORD_cases as [[_ ->]|[_ ->]]; lia. Qed.

Lemma word_bytes_bytes v : bytes (word_bytes v).
Proof. apply endian_bytes, le_bytes_bytes. Qed.

Lemma bytes_word_bytes v : uint ARCH_WIDTH v → bytes_word (word_bytes v) = v.
Proof.
  intros Hv. rw /bytes_word /word_bytes endian_endian le_val_bytes //. rw /uint in Hv. destruct WORD_cases as [[E ->]|[E ->]]; rw E in Hv; exact Hv.
Qed.

(** The word [v] is stored at [p]. *)
Definition word_at (m : mem) (p v : Z) : Prop := arr m p (word_bytes v) ∧ uint ARCH_WIDTH v.

Lemma ldw_run m p v : word_at m p v → ldw p m = Ret (v, m).
Proof.
  intros [Ha Hv]. rw /ldw. pose proof (ld_bytes_run _ _ _ Ha) as Hl. rw -(Nat2Z.id (length _)) length_word_bytes in Hl.
  rw (bind_run _ _ _ _ _ Hl). by rw bytes_word_bytes.
Qed.

Lemma bind_ldw {B} (f : Z → SM B) m p v : word_at m p v → (ldw p ≫= f) m = f v m.
Proof. intros Hw. by apply bind_run, ldw_run. Qed.

(** The memory after a word has been stored. *)
Definition putw (m : mem) (p v : Z) : mem := put m p (word_bytes v).

Lemma stw_run m p v : uint ARCH_WIDTH v → owned m p WORD → stw p v m = Ret (tt, putw m p v).
Proof.
  intros Hv Ho. rw /stw wrap_small //. apply st_bytes_run; [apply word_bytes_bytes|]. by rw length_word_bytes.
Qed.

Lemma bind_stw {B} (f : unit → SM B) m p v : uint ARCH_WIDTH v → owned m p WORD → (stw p v ≫= f) m = f tt (putw m p v).
Proof. intros. by apply bind_run, stw_run. Qed.

Lemma putw_at m p v : uint ARCH_WIDTH v → word_at (putw m p v) p v.
Proof. split; [apply put_arr|done]. Qed.

Lemma putw_out m p v a : ¬ (p ≤ a < p + WORD) → putw m p v !! a = m !! a.
Proof. intros Ha. apply put_out. by rw length_word_bytes. Qed.

Lemma putw_word m p v q u : q + WORD ≤ p ∨ p + WORD ≤ q → word_at m q u → word_at (putw m p v) q u.
Proof.
  intros Hd [Ha Hu]. split; [|done]. eapply arr_ext; [|exact Ha]. intros a Hr. apply putw_out. rw length_word_bytes in Hr. lia.
Qed.

Lemma putw_arr m p v q l : q + Z.of_nat (length l) ≤ p ∨ p + WORD ≤ q → arr m q l → arr (putw m p v) q l.
Proof. intros Hd. apply arr_ext. intros a Hr. apply putw_out. lia. Qed.

Lemma putw_owned m p v q n : owned m q n → owned (putw m p v) q n.
Proof. apply put_owned. Qed.

(** ** Bit fields *)

Lemma f_pos_range f : 0 ≤ f_pos f ∧ f_pos f + f_width f ≤ ARCH_WIDTH ∧ 0 < f_width f.
Proof. rw /f_pos. destruct WORD_cases as [[E _]|[E _]]; rw E; destruct ARCH_BIG_ENDIAN, f; cbn; lia. Qed.

Lemma get_field_testbit f w i : 0 ≤ i → Z.testbit (get_field f w) i = (i <? f_width f) && Z.testbit w (i + f_pos f).
Proof.
  intros Hi. pose proof (f_pos_range f). rw /get_field /shr Z.land_spec Z.shiftr_spec // Z.testbit_ones; [lia|].
  rw (proj2 (Z.leb_le 0 i)) //. cbn [andb]. apply andb_comm.
Qed.

Lemma get_field_range f w : 0 ≤ get_field f w < 2 ^ f_width f.
Proof. pose proof (f_pos_range f). rw /get_field Z.land_ones; [lia|]. apply Z.mod_pos_bound, Z.pow_pos_nonneg; lia. Qed.

Lemma set_field_testbit f w v i : 0 ≤ i → uint ARCH_WIDTH w → Z.testbit (set_field f w v) i =
  if (f_pos f <=? i) && (i <? f_pos f + f_width f) then Z.testbit v (i - f_pos f) else Z.testbit w i.
Proof.
  intros Hi Hw. pose proof (f_pos_range f). rw /set_field /bnot Z.lor_spec Z.land_spec wrap_testbit; [lia|]. rw Z.lnot_spec // !Z.shiftl_spec //.
  rw Z.land_spec Z.testbit_ones; [lia|]. destruct (Z.leb_spec (f_pos f) i); cbn [andb].
  - rw (proj2 (Z.leb_le 0 (i - f_pos f))); [lia|]. cbn [andb]. destruct (Z.ltb_spec (i - f_pos f) (f_width f)).
    + rw (proj2 (Z.ltb_lt i (f_pos f + f_width f))); [lia|]. by rw /= !andb_false_r andb_true_r.
    + rw (proj2 (Z.ltb_ge i (f_pos f + f_width f))); [lia|]. rw /= andb_false_r orb_false_r.
      destruct (Z.ltb_spec i ARCH_WIDTH); [by destruct (Z.testbit w i)|]. by rw (uint_testbit_high ARCH_WIDTH w i).
  - rw (Z.testbit_neg_r v); [lia|]. rw (proj2 (Z.leb_gt 0 (i - f_pos f))); [lia|]. rw /= orb_false_r.
    rw (proj2 (Z.ltb_lt i ARCH_WIDTH)); [lia|]. by destruct (Z.testbit w i).
Qed.

Lemma set_field_uint f w v : uint ARCH_WIDTH w → uint ARCH_WIDTH (set_field f w v).
Proof.
  intros Hw. pose proof (f_pos_range f). apply uint_of_bits; [lia|]. intros i Hi.
  rw set_field_testbit //; [lia|]. rw (proj2 (Z.ltb_ge i (f_pos f + f_width f))); [lia|]. rw andb_false_r. by apply (uint_testbit_high ARCH_WIDTH).
Qed.

Lemma get_set_same f w v : uint ARCH_WIDTH w → 0 ≤ v < 2 ^ f_width f → get_field f (set_field f w v) = v.
Proof.
  intros Hw Hv. pose proof (f_pos_range f). apply Z.bits_inj'. intros i Hi. rw get_field_testbit // set_field_testbit //; [lia|].
  destruct (Z.ltb_spec i (f_width f)); cbn [andb].
  - rw (proj2 (Z.leb_le _ _)); [lia|]. rw (proj2 (Z.ltb_lt _ _)); [lia|]. cbn [andb]. f_equal. lia.
  - by rw (uint_testbit_high (f_width f) v).
Qed.

Lemma get_set_other f g w v : uint ARCH_WIDTH w → f ≠ g → get_field g (set_field f w v) = get_field g w.
Proof.
  intros Hw Hn. pose proof (f_pos_range g). apply Z.bits_inj'. intros i Hi. rw !get_field_testbit // set_field_testbit //; [lia|].
  destruct (Z.ltb_spec i (f_width g)); cbn [andb]; [|done].
  assert (((f_pos f <=? i + f_pos g) && (i + f_pos g <? f_pos f + f_width f)) = false) as ->; [|done].
  apply andb_false_iff. rw Z.leb_gt Z.ltb_ge. rw /f_pos in H1 |- *. destruct ARCH_BIG_ENDIAN, f, g; try done; cbn in *; lia.
Qed.

(** ** Writing words twice, and words in a row *)

Lemma putw_putw m p u v : putw (putw m p u) p v = putw m p v.
Proof. apply put_twice. apply Nat2Z.inj. by rw !length_word_bytes. Qed.

(** The bytes of consecutive words. *)
Definition words_bytes (vs : list Z) : list Z := vs ≫= word_bytes.

Lemma length_words_bytes vs : Z.of_nat (length (words_bytes vs)) = Z.of_nat (length vs) * WORD.
Proof.
  induction vs as [|v vs IH]; [done|]. rw /words_bytes bind_cons length_app Nat2Z.inj_add -/(words_bytes vs) IH length_word_bytes /=. lia.
Qed.

Lemma words_arr m p vs : arr m p (words_bytes vs) ↔ ∀ i v, vs !! i = Some v → arr m (p + Z.of_nat i * WORD) (word_bytes v).
Proof.
  revert p. induction vs as [|v vs IH]; intros p; rw /words_bytes; cbn [mbind list_bind]; [split; [by intros _ i v; rw lookup_nil|done]|].
  rw arr_app IH length_word_bytes. split.
  - intros [Hv Hvs] [|i] u Hu; [cbn in Hu; simplify_eq; by rw Z.mul_0_l Z.add_0_r|].
    replace (p + Z.of_nat (S i) * WORD) with (p + WORD + Z.of_nat i * WORD) by lia. by apply Hvs.
  - intros Ha. split; [specialize (Ha 0%nat v eq_refl); by rw Z.mul_0_l Z.add_0_r in Ha|]. intros i u Hu.
    replace (p + WORD + Z.of_nat i * WORD) with (p + Z.of_nat (S i) * WORD) by lia. by apply Ha.
Qed.

(** ** Fields *)

Lemma bind_ldf {B} (k : Z → SM B) m msg f w : word_at m msg w → (ldf msg f ≫= k) m = k (get_field f w) m.
Proof. intros Hw. apply bind_run. by rw /ldf (bind_ldw _ _ _ _ Hw). Qed.

Lemma bind_stf {B} (k : unit → SM B) m msg f w v : word_at m msg w → owned m msg MAX_MSG_SIZE →
  (stf msg f v ≫= k) m = k tt (putw m msg (set_field f w v)).
Proof.
  intros Hw Ho. apply bind_run. rw /stf (bind_ldw _ _ _ _ Hw). apply stw_run; [apply set_field_uint, Hw|].
  intros a Ha. apply Ho. rw /msg_size /MAX_MSG_SIZE in Ha |- *. destruct WORD_cases as [[_ E]|[_ E]]; rw E in Ha; lia.
Qed.

Lemma stf_run m msg f w v : word_at m msg w → owned m msg MAX_MSG_SIZE → stf msg f v m = Ret (tt, putw m msg (set_field f w v)).
Proof.
  intros Hw Ho. pose proof (bind_stf (λ _, mret tt) m msg f w v Hw Ho) as E. rw /mbind /M_bind in E.
  destruct (stf msg f v m) as [[[] m']| | |]; [|done..]. done.
Qed.

(** ** What a message stands for *)

Inductive item :=
| Param (v : Z)
| Data (l : list Z).

(** The data words that [n] bytes take. *)
Definition nwords (n : Z) : Z := (n + WORD - 1) / WORD.
Definition item_words (x : item) : Z := match x with Param _ => 0 | Data l => nwords (Z.of_nat (length l)) end.
Definition is_data (x : item) : bool := match x with Param _ => false | Data _ => true end.

Definition item_at (m : mem) (msg w : Z) (i : nat) (x : item) : Prop :=
  Z.testbit (get_field param_type_map w) (Z.of_nat i) = is_data x ∧
  match x with
  | Param v => word_at m (params msg (Z.of_nat i)) v
  | Data l => ∃ start, 0 ≤ start ∧ word_at m (params msg (Z.of_nat i)) (start * 2 ^ 16 + item_words x) ∧
      start + item_words x ≤ get_field num_data_words w ∧ arr m (data msg start) l
  end.

Record msg_rep (m : mem) (msg w : Z) (items : list item) : Prop := {
  rep_owned : owned m msg MAX_MSG_SIZE;
  rep_bytes : ∀ a b, msg ≤ a < msg + MAX_MSG_SIZE → m !! a = Some b → byte b;
  rep_hdr : word_at m msg w;
  rep_np : get_field num_params w = Z.of_nat (length items);
  rep_data : get_field num_data_words w ≤ MAX_MSG_DATA_WORDS;
  rep_types : ∀ i, Z.of_nat (length items) ≤ i → Z.testbit (get_field param_type_map w) i = false;
  rep_items : ∀ i x, items !! i = Some x → item_at m msg w i x
}.

Lemma WORD_pos : 0 < WORD ≤ 8 ∧ 2048 = WORD * (18 + MAX_MSG_DATA_WORDS) ∧ 0 ≤ MAX_MSG_DATA_WORDS < 2 ^ 12.
Proof.
  rw /MAX_MSG_DATA_WORDS /MAX_MSG_SIZE /MAX_MSG_PARAMS. destruct WORD_cases as [[_ ->]|[_ ->]]; [change (2048 / 4) with 512|change (2048 / 8) with 256]; lia.
Qed.

Lemma nwords_spec n : 0 ≤ n → n ≤ nwords n * WORD < n + WORD ∧ 0 ≤ nwords n.
Proof.
  pose proof WORD_pos as (Hw & _). intros Hn. rw /nwords. assert (WORD ≠ 0) as Hz by lia.
  pose proof (Z.div_mod (n + WORD - 1) WORD Hz). pose proof (Z.mod_pos_bound (n + WORD - 1) WORD (proj1 Hw)). split; [nia|apply Z.div_pos; lia].
Qed.

Lemma data_words_value n : 0 ≤ n < 2 ^ 32 - 8 → data_words n = nwords n.
Proof.
  intros Hn. rw /data_words /align_up_vsize /nwords. assert (∃ k, WORD = 2 ^ k ∧ 2 ≤ k ≤ 3) as (k & Ek & Hk).
  { destruct WORD_cases as [[_ ->]|[_ ->]]; [by exists 2|by exists 3]. }
  assert (2 ^ 2 ≤ 2 ^ k ≤ 2 ^ 3) as Hk2 by (split; apply Z.pow_le_mono_r; lia). rw Ek.
  assert (∀ w, w = 32 ∨ w = 64 → 2 ^ 32 ≤ 2 ^ w) as Hw by (intros w [-> | ->]; lia).
  pose proof (Hw _ arch_width_cases) as Ha. pose proof (Hw _ paddr_width_cases) as Hp. pose proof paddr_width_cases.
  assert (2 ^ 32 ≤ 2 ^ Z.max ARCH_WIDTH PADDR_WIDTH) as Hm by (apply Hw; destruct arch_width_cases, paddr_width_cases; lia).
  rw (wrap_small PADDR_WIDTH (2 ^ k)); [rw /uint; lia|]. rw (wrap_small PADDR_WIDTH (2 ^ k - 1)); [rw /uint; lia|].
  rw (wrap_small (Z.max _ _)); [rw /uint; lia|]. rw Z.add_sub_assoc. rw land_bnot_low; [lia|rw /uint; lia|].
  pose proof (Z.mul_div_le (n + 2 ^ k - 1) (2 ^ k) ltac:(lia)). pose proof (Z.div_pos (n + 2 ^ k - 1) (2 ^ k)).
  rw wrap_small; [rw /uint; split; [nia|lia]|]. rw Z.mul_comm Z.div_mul //. lia.
Qed.

Lemma data_words_small n : 0 ≤ n < 2 ^ 31 → data_words n = nwords n.
Proof. intros Hn. apply data_words_value. lia. Qed.

(** Addresses of the parts of a message. *)
Lemma params_range msg i : 0 ≤ i < 15 → msg + 3 * WORD ≤ params msg i ∧ params msg i + WORD ≤ data msg 0.
Proof. rw /params /data. pose proof WORD_pos. nia. Qed.

Lemma params_apart msg i j : 0 ≤ i → 0 ≤ j → i ≠ j → params msg i + WORD ≤ params msg j ∨ params msg j + WORD ≤ params msg i.
Proof. rw /params. pose proof WORD_pos. nia. Qed.

Lemma data_range msg i n : 0 ≤ i → i * WORD + n ≤ MAX_MSG_DATA_WORDS * WORD → data msg 0 ≤ data msg i ∧ data msg i + n ≤ msg + MAX_MSG_SIZE.
Proof. rw /data. pose proof WORD_pos. rw /MAX_MSG_SIZE. nia. Qed.

(** A number of items fits the four bits of the field. *)
Lemma rep_length m msg w items : msg_rep m msg w items → Z.of_nat (length items) ≤ 15.
Proof. intros HR. pose proof (get_field_range num_params w) as Hr. rw (rep_np _ _ _ _ HR) in Hr. change (2 ^ f_width num_params) with 16 in Hr. lia. Qed.

Lemma put_bytes_ok m p l msg : bytes l → (∀ a b, msg ≤ a < msg + MAX_MSG_SIZE → m !! a = Some b → byte b) →
  ∀ a b, msg ≤ a < msg + MAX_MSG_SIZE → put m p l !! a = Some b → byte b.
Proof.
  intros Hl Hm a b Ha Hb. destruct (decide (p ≤ a < p + Z.of_nat (length l))) as [Hr|Hr]; [|rw put_out // in Hb; by apply (Hm a)].
  rw put_in // in Hb. by apply (proj1 (Forall_lookup _ _) Hl _ _ Hb).
Qed.

(** Writing into the unused data words changes no item. *)
Lemma rep_put_data m msg w items d l : msg_rep m msg w items → d = get_field num_data_words w → bytes l →
  d * WORD + Z.of_nat (length l) ≤ MAX_MSG_DATA_WORDS * WORD → msg_rep (put m (data msg d) l) msg w items.
Proof.
  intros HR -> Hl Hfit. pose proof (get_field_range num_data_words w) as Hd. pose proof WORD_pos as HW. pose proof (rep_length _ _ _ _ HR) as Hlen.
  destruct (data_range msg _ _ (proj1 Hd) Hfit) as [Hd1 Hd2]. destruct HR as [Ho Hb [Hh Hu] Hn Hdm Ht Hi].
  split; [by apply put_owned|by apply put_bytes_ok| |done|done|done|].
  - split; [|done]. apply put_arr_out; [rw length_word_bytes; rw /data in Hd1 |- *; nia|done].
  - intros i x Hx. destruct (Hi i x Hx) as [Hty Hx']. split; [done|]. pose proof (lookup_lt_Some _ _ _ Hx).
    destruct (params_range msg (Z.of_nat i) ltac:(lia)) as [Hp1 Hp2]. destruct x as [v|l'].
    + destruct Hx' as [Ha Hv]. split; [|done]. apply put_arr_out; [rw length_word_bytes; lia|done].
    + destruct Hx' as (st & Hs0 & [Ha Hv] & Hse & Hd'). exists st. split_and!; [done| |done|].
      * split; [|done]. apply put_arr_out; [rw length_word_bytes; lia|done].
      * apply put_arr_out; [|done]. left. cbn [item_words] in Hse. pose proof (nwords_spec (Z.of_nat (length l')) ltac:(lia)). rw /data. nia.
Qed.

(** An item whose words are kept, under a header that keeps its type bit and has
    at least as many data words. *)
Lemma item_at_kept m m' msg w w' i x : item_at m msg w i x →
  Z.testbit (get_field param_type_map w') (Z.of_nat i) = Z.testbit (get_field param_type_map w) (Z.of_nat i) →
  get_field num_data_words w ≤ get_field num_data_words w' →
  (∀ a, params msg (Z.of_nat i) ≤ a < params msg (Z.of_nat i) + WORD → m' !! a = m !! a) →
  (∀ a, data msg 0 ≤ a → m' !! a = m !! a) → item_at m' msg w' i x.
Proof.
  intros [Ht Hx] Et Ed Hp Hd. split; [by rw Et|]. assert (∀ v, word_at m (params msg (Z.of_nat i)) v → word_at m' (params msg (Z.of_nat i)) v) as Hw.
  { intros v [Ha Hv]. split; [|done]. eapply arr_ext; [|exact Ha]. intros a. rw length_word_bytes. apply Hp. }
  destruct x as [v|l]; [by apply Hw|]. destruct Hx as (st & Hs & Hv & He & Ha). exists st. split_and!; [done|by apply Hw|lia|].
  eapply arr_ext; [|exact Ha]. intros a Hr. apply Hd. rw /data in Hr |- *. pose proof WORD_pos. nia.
Qed.

(** Writing the next parameter and the new header appends an item. *)
Lemma rep_append m msg w items x v w' : msg_rep m msg w items → Z.of_nat (length items) < 15 → uint ARCH_WIDTH v → uint ARCH_WIDTH w' →
  get_field num_params w' = Z.of_nat (length items) + 1 →
  (∀ i, 0 ≤ i → Z.testbit (get_field param_type_map w') i =
     if i =? Z.of_nat (length items) then is_data x else Z.testbit (get_field param_type_map w) i) →
  get_field num_data_words w ≤ get_field num_data_words w' ≤ MAX_MSG_DATA_WORDS →
  match x with
  | Param u => v = u
  | Data l => ∃ st, 0 ≤ st ∧ v = st * 2 ^ 16 + item_words x ∧ st + item_words x ≤ get_field num_data_words w' ∧ arr m (data msg st) l
  end →
  msg_rep (putw (putw m (params msg (Z.of_nat (length items))) v) msg w') msg w' (items ++ [x]).
Proof.
  intros HR Hlen Hv Hw' Hn Ht Hd Hx. set (n := length items) in *. destruct (params_range msg (Z.of_nat n) ltac:(lia)) as [Hp1 Hp2].
  pose proof WORD_pos as HW. assert (msg + WORD ≤ data msg 0) as Hdm by (rw /data; lia).
  set (m1 := putw m (params msg (Z.of_nat n)) v).
  assert (∀ a, data msg 0 ≤ a → putw m1 msg w' !! a = m !! a) as Hdat by (intros a Ha; rw !putw_out //; lia).
  destruct HR as [Ho Hb Hh Hnp Hdw Hty Hi]. split.
  - by do 2 apply putw_owned.
  - apply put_bytes_ok; [apply word_bytes_bytes|]. apply put_bytes_ok; [apply word_bytes_bytes|done].
  - by apply putw_at.
  - rw Hn length_app /= -/n. lia.
  - lia.
  - intros i Hli. rw length_app /= -/n in Hli. rw Ht; [lia|]. rw (proj2 (Z.eqb_neq _ _)); [lia|]. apply Hty. lia.
  - intros i y Hy. apply lookup_app_Some in Hy as [Hy|[Hge Hy]].
    + pose proof (lookup_lt_Some _ _ _ Hy) as Hlt. apply (item_at_kept m _ msg w w'); [by apply Hi|rw Ht; [lia|]; by rw (proj2 (Z.eqb_neq _ _)); [lia|]|lia| |done].
      intros a Ha. destruct (params_range msg (Z.of_nat i) ltac:(lia)) as [Hq1 Hq2]. rw putw_out; [lia|]. apply putw_out.
      destruct (params_apart msg (Z.of_nat i) (Z.of_nat n)); lia.
    + apply list_lookup_singleton_Some in Hy as [E <-]. assert (i = n) as -> by lia.
      assert (word_at (putw m1 msg w') (params msg (Z.of_nat n)) v) as Hwv by (apply putw_word; [lia|by apply putw_at]).
      split; [rw Ht; [lia|]; by rw Z.eqb_refl|]. destruct x as [u|l]; [by subst|]. destruct Hx as (st & Hs & -> & He & Ha).
      exists st. split_and!; [done|done|done|]. eapply arr_ext; [|exact Ha]. intros a Hr. apply Hdat. rw /data in Hr |- *. nia.
Qed.

(** ** Appending *)

Lemma hdr_uint m msg w items : msg_rep m msg w items → uint ARCH_WIDTH w.
Proof. intros HR. apply (rep_hdr _ _ _ _ HR). Qed.

Lemma owned_param m msg w items : msg_rep m msg w items → Z.of_nat (length items) < 15 → owned m (params msg (Z.of_nat (length items))) WORD.
Proof.
  intros HR Hl. destruct (params_range msg (Z.of_nat (length items)) ltac:(lia)) as [Hp1 Hp2]. pose proof WORD_pos.
  eapply owned_sub; [exact (rep_owned _ _ _ _ HR)|lia|]. rw /data /MAX_MSG_SIZE in Hp2 |- *. nia.
Qed.

(** The header keeps its place while a parameter is written. *)
Lemma hdr_kept m msg w items v : msg_rep m msg w items → Z.of_nat (length items) < 15 → word_at (putw m (params msg (Z.of_nat (length items))) v) msg w.
Proof.
  intros HR Hl. destruct (params_range msg (Z.of_nat (length items)) ltac:(lia)) as [Hp1 Hp2]. pose proof WORD_pos.
  apply putw_word; [lia|apply HR].
Qed.

Definition apart (m m' : mem) (msg : Z) : Prop := ∀ a, ¬ (msg ≤ a < msg + MAX_MSG_SIZE) → m' !! a = m !! a.

Lemma putw2_apart m msg n v w' : 0 ≤ n < 15 → apart m (putw (putw m (params msg n) v) msg w') msg.
Proof.
  intros Hn a Ha. destruct (params_range msg n Hn). pose proof WORD_pos. rw /data /MAX_MSG_SIZE in H2 Ha. rw !putw_out //; nia.
Qed.

Lemma apart_trans m1 m2 m3 msg : apart m1 m2 msg → apart m2 m3 msg → apart m1 m3 msg.
Proof. intros H1 H2 a Ha. by rw H2 // H1. Qed.

Lemma append_value_run m msg w items v : msg_rep m msg w items → Z.of_nat (length items) < 15 → uint ARCH_WIDTH v →
  ∃ m' w', append_value msg v m = Ret (tt, m') ∧ msg_rep m' msg w' (items ++ [Param v]) ∧ apart m m' msg ∧
    get_field num_data_words w' = get_field num_data_words w.
Proof.
  intros HR Hl Hv. pose proof (hdr_uint _ _ _ _ HR) as Hu. pose proof (rep_hdr _ _ _ _ HR) as Hh. pose proof (rep_np _ _ _ _ HR) as Hn.
  pose proof (rep_owned _ _ _ _ HR) as Ho. set (n := Z.of_nat (length items)) in *. eexists _, (set_field num_params w (n + 1)). split_and!.
  - rw /append_value (bind_ldf _ _ _ _ _ Hh) Hn. rw (bind_run _ _ m tt m); [by rw /panic_if (proj2 (Z.leb_gt _ _)); [rw /MAX_MSG_PARAMS; lia|]|].
    rw (bind_ldf _ _ _ _ _ Hh) Hn bind_stw //; [exact (owned_param _ _ _ _ HR Hl)|]. apply stf_run; [exact (hdr_kept _ _ _ _ _ HR Hl)|by apply putw_owned].
  - apply (rep_append m msg w items (Param v) v); [done|done|done|by apply set_field_uint| | | |done].
    + apply get_set_same; [done|]. cbn. lia.
    + intros i Hi. rw get_set_other //. case_match eqn:E; [|done]. apply Z.eqb_eq in E as ->. apply (rep_types _ _ _ _ HR). lia.
    + rw get_set_other //. pose proof (rep_data _ _ _ _ HR). lia.
  - apply putw2_apart. lia.
  - by rw get_set_other.
Qed.

Lemma lor_fields d k : 0 ≤ d → 0 ≤ k < 2 ^ 12 → Z.lor (Z.shiftl d 16) k = d * 2 ^ 16 + k.
Proof. intros. rw Z.shiftl_mul_pow2 //. apply lor_low_part; lia. Qed.

Lemma small_uint z : 0 ≤ z < 2 ^ 32 → uint ARCH_WIDTH z.
Proof. intros. destruct arch_width_cases as [-> | ->]; rw /uint; lia. Qed.

(** The three field updates of an appended block. *)
Definition block_hdr (w n nw : Z) : Z :=
  set_field num_params
    (set_field num_data_words (set_field param_type_map w (Z.lor (get_field param_type_map w) (Z.shiftl 1 n))) (get_field num_data_words w + nw))
    (n + 1).

Lemma type_bit_range t n : 0 ≤ t < 2 ^ 16 → 0 ≤ n < 15 → 0 ≤ Z.lor t (Z.shiftl 1 n) < 2 ^ f_width param_type_map.
Proof.
  intros Ht Hn. apply (lor_uint 16); [lia|done|]. rw Z.shiftl_1_l. split; [apply Z.pow_nonneg; lia|]. apply Z.pow_lt_mono_r; lia.
Qed.

Lemma block_hdr_fields w n nw : uint ARCH_WIDTH w → 0 ≤ n < 15 → 0 ≤ nw → get_field num_data_words w + nw ≤ MAX_MSG_DATA_WORDS →
  uint ARCH_WIDTH (block_hdr w n nw) ∧ get_field num_params (block_hdr w n nw) = n + 1 ∧
  get_field num_data_words (block_hdr w n nw) = get_field num_data_words w + nw ∧
  get_field param_type_map (block_hdr w n nw) = Z.lor (get_field param_type_map w) (Z.shiftl 1 n).
Proof.
  intros Hw Hn Hnw Hd. pose proof WORD_pos as (_ & _ & Hm). pose proof (get_field_range num_data_words w). pose proof (get_field_range param_type_map w) as Ht.
  rw /block_hdr. assert (uint ARCH_WIDTH (set_field param_type_map w (Z.lor (get_field param_type_map w) (Z.shiftl 1 n)))) as Hw1 by by apply set_field_uint.
  split_and!; [by do 2 apply set_field_uint| | |].
  - apply get_set_same; [by apply set_field_uint|cbn; lia].
  - rw get_set_other //; [by apply set_field_uint|]. apply get_set_same; [done|cbn; lia].
  - rw get_set_other //; [by apply set_field_uint|]. rw get_set_other //. apply get_set_same; [done|]. by apply type_bit_range.
Qed.

Lemma append_new_run m msg w items l nw : msg_rep m msg w items → Z.of_nat (length items) < 15 → nw = nwords (Z.of_nat (length l)) →
  get_field num_data_words w + nw ≤ MAX_MSG_DATA_WORDS → arr m (data msg (get_field num_data_words w)) l →
  ∃ m' w', append_new msg nw m = Ret (tt, m') ∧ msg_rep m' msg w' (items ++ [Data l]) ∧ apart m m' msg ∧
    get_field num_data_words w' = get_field num_data_words w + nw.
Proof.
  intros HR Hl Enw Hfit Ha. pose proof (hdr_uint _ _ _ _ HR) as Hu. pose proof (rep_hdr _ _ _ _ HR) as Hh. pose proof (rep_np _ _ _ _ HR) as Hn.
  pose proof (rep_owned _ _ _ _ HR) as Ho. pose proof WORD_pos as (_ & _ & Hm). pose proof (nwords_spec (Z.of_nat (length l)) ltac:(lia)) as [_ Hnw]. rw -Enw in Hnw.
  set (n := Z.of_nat (length items)) in *. set (d := get_field num_data_words w) in *. pose proof (get_field_range num_data_words w : 0 ≤ d < _) as Hd.
  destruct (block_hdr_fields w n nw Hu ltac:(lia) Hnw Hfit) as (Hw3 & Hf1 & Hf2 & Hf3). set (v := d * 2 ^ 16 + nw).
  assert (uint ARCH_WIDTH v) as Hv by (apply small_uint; subst v; lia). pose proof (hdr_kept _ _ _ _ v HR Hl) as Hk.
  set (m1 := putw m (params msg n) v) in *. assert (owned m1 msg MAX_MSG_SIZE) as Ho1 by by apply putw_owned.
  exists (putw m1 msg (block_hdr w n nw)), (block_hdr w n nw). split_and!.
  - rw /append_new (bind_ldf _ _ _ _ _ Hh) lor_fields; [lia..|]. rw /append_block (bind_ldf _ _ _ _ _ Hh) Hn bind_stw //; [exact (owned_param _ _ _ _ HR Hl)|].
    rw -/m1 !(bind_ldf _ _ _ _ _ Hk) Hn (bind_stf _ _ _ _ _ _ Hk Ho1). set (w1 := set_field param_type_map w _).
    assert (uint ARCH_WIDTH w1) as Hw1 by by apply set_field_uint. pose proof (putw_at m1 msg w1 Hw1) as Hk1.
    rw (bind_ldf _ _ _ _ _ Hk1) (bind_stf _ _ _ _ _ _ Hk1 (putw_owned _ _ _ _ _ Ho1)). set (w2 := set_field num_data_words w1 _).
    assert (uint ARCH_WIDTH w2) as Hw2 by by apply set_field_uint. rw putw_putw. pose proof (putw_at m1 msg w2 Hw2) as Hk2.
    rw (bind_ldf _ _ _ _ _ Hk2) (stf_run _ _ _ _ _ Hk2 (putw_owned _ _ _ _ _ Ho1)) putw_putw. subst w2 w1.
    rw (get_set_other num_data_words num_params) //. rw (get_set_other param_type_map num_params) // Hn (get_set_other param_type_map num_data_words) //.
  - apply (rep_append m msg w items (Data l) v); [done|done|done|done|done| |lia|].
    + intros i Hi. rw Hf3 Z.lor_spec Z.shiftl_1_l. rw Z.pow2_bits_eqb; [lia|]. rw (Z.eqb_sym n i). change (Z.of_nat (length items)) with n. destruct (Z.eqb_spec i n); [apply orb_true_r|apply orb_false_r].
    + exists d. cbn [item_words]. rw -Enw Hf2. split_and!; [lia|done|lia|done].
  - apply putw2_apart. lia.
  - done.
Qed.

Definition outside (p n msg : Z) : Prop := p + n ≤ msg ∨ msg + MAX_MSG_SIZE ≤ p.

Lemma append_data_room m msg w items (l : list Z) : msg_rep m msg w items →
  get_field num_data_words w + nwords (Z.of_nat (length l)) ≤ MAX_MSG_DATA_WORDS →
  data_words (Z.of_nat (length l)) = nwords (Z.of_nat (length l)) ∧
  ulong (get_field num_data_words w + nwords (Z.of_nat (length l))) = get_field num_data_words w + nwords (Z.of_nat (length l)) ∧
  get_field num_data_words w * WORD + Z.of_nat (length l) ≤ MAX_MSG_DATA_WORDS * WORD.
Proof.
  intros HR Hfit. pose proof (nwords_spec (Z.of_nat (length l)) ltac:(lia)) as [Hs Hs0]. pose proof WORD_pos as (Hw & _ & Hm).
  pose proof (get_field_range num_data_words w). assert (Z.of_nat (length l) < 2 ^ 31) by nia.
  split_and!; [apply data_words_small; lia|apply ulong_small; lia|nia].
Qed.

Lemma msg_append_data_run m msg w items dat l : msg_rep m msg w items → Z.of_nat (length items) < 15 →
  get_field num_data_words w + nwords (Z.of_nat (length l)) ≤ MAX_MSG_DATA_WORDS →
  dat ≠ 0 → arr m dat l → bytes l → outside dat (Z.of_nat (length l)) msg →
  ∃ m' w', msg_append_data msg dat (Z.of_nat (length l)) m = Ret (data msg (get_field num_data_words w), m') ∧
    msg_rep m' msg w' (items ++ [Data l]) ∧ apart m m' msg ∧
    get_field num_data_words w' = get_field num_data_words w + nwords (Z.of_nat (length l)).
Proof.
  intros HR Hl Hfit Hdat Ha Hb Hout. pose proof (rep_hdr _ _ _ _ HR) as Hh. pose proof (rep_np _ _ _ _ HR) as Hn.
  destruct (append_data_room _ _ _ _ _ HR Hfit) as (Edw & Eul & Hroom). set (d := get_field num_data_words w) in *.
  pose proof (get_field_range num_data_words w : 0 ≤ d < _) as Hd. destruct (data_range msg d _ (proj1 Hd) Hroom) as [Hr1 Hr2].
  pose proof (rep_put_data m msg w items d l HR eq_refl Hb Hroom) as HR1.
  destruct (append_new_run _ msg w items l _ HR1 Hl eq_refl Hfit (put_arr _ _ _)) as (m' & w' & Ea & HR2 & Hap & Ed). exists m', w'. split_and!; [|done| |done].
  - rw /msg_append_data (bind_ldf _ _ _ _ _ Hh) Hn. rw (bind_run _ _ m tt m); [by rw /panic_if (proj2 (Z.leb_gt _ _)); [rw /MAX_MSG_PARAMS; lia|]|].
    rw (bind_ldf _ _ _ _ _ Hh) Edw Eul. rw (bind_run _ _ m tt m); [by rw /panic_if (proj2 (Z.ltb_ge _ _)); [lia|]|].
    rw (bind_ldf _ _ _ _ _ Hh) -/d. rw (bind_run _ _ m tt (put m (data msg d) l)); [|by rw (bind_run _ _ _ _ _ Ea)].
    rw /ctrue (proj2 (Z.eqb_neq dat 0)) //. cbn [negb]. rw (bind_run _ _ _ _ _ (memcpy_run l m (data msg d) dat _ eq_refl Ha Hb _ _)) //.
    + eapply owned_sub; [exact (rep_owned _ _ _ _ HR)| |lia]. rw /data in Hr1 |- *. pose proof WORD_pos. nia.
    + rw /outside /data in Hout Hr1 Hr2 |- *. pose proof WORD_pos. nia.
  - eapply apart_trans; [|exact Hap]. intros a Hna. apply put_out. rw /data in Hr1 Hr2 |- *. pose proof WORD_pos. nia.
Qed.

(** ** Reading *)

Lemma check_index_run m msg w items i x : msg_rep m msg w items → items !! i = Some x →
  check_index msg (Z.of_nat i) (is_data x) m = Ret (tt, m).
Proof.
  intros HR Hx. pose proof (rep_hdr _ _ _ _ HR) as Hh. pose proof (lookup_lt_Some _ _ _ Hx) as Hi. pose proof (rep_length _ _ _ _ HR).
  rw /check_index (bind_ldf _ _ _ _ _ Hh) (rep_np _ _ _ _ HR). rw (bind_run _ _ m tt m); [by rw /panic_if (proj2 (Z.leb_gt _ _)); [lia|]|].
  rw (bind_ldf _ _ _ _ _ Hh). rw (bind_run _ _ m (2 ^ Z.of_nat i) m).
  { rw /lift_outcome /shl_chk (proj2 (Z.leb_le _ _)); [lia|]. rw (proj2 (Z.ltb_lt _ _)); [lia|]. cbn [andb]. rw shl_1_pow2 //. lia. }
  rw ctrue_land_pow2; [lia|]. destruct (rep_items _ _ _ _ HR i x Hx) as [-> _]. by rw xorb_nilpotent.
Qed.

Lemma msg_get_param_run m msg w items i v : msg_rep m msg w items → items !! i = Some (Param v) →
  msg_get_param msg (Z.of_nat i) m = Ret (v, m).
Proof.
  intros HR Hx. rw /msg_get_param (bind_run _ _ _ _ _ (check_index_run _ _ _ _ _ _ HR Hx)). apply ldw_run, (rep_items _ _ _ _ HR i _ Hx).
Qed.

(** The two halves of the parameter of a data item. *)
Lemma data_param st k : 0 ≤ k < 2 ^ 12 → shr (st * 2 ^ 16 + k) 16 = st ∧ Z.land (st * 2 ^ 16 + k) 0xffff = k.
Proof.
  intros Hk. rw /shr Z.shiftr_div_pow2 //. rw Z.div_add_l // Z.div_small; [lia|]. split; [lia|].
  change 0xffff with (2 ^ 16 - 1). rw land_ones_mod // Z.add_comm Z.mod_add // Z.mod_small //. lia.
Qed.

Lemma msg_get_data_run m msg w items i l : msg_rep m msg w items → items !! i = Some (Data l) → l ≠ [] →
  ∃ p, msg_get_data msg (Z.of_nat i) m = Ret ((p, Some (nwords (Z.of_nat (length l)) * WORD)), m) ∧ arr m p l ∧
    data msg 0 ≤ p ∧ p + nwords (Z.of_nat (length l)) * WORD ≤ msg + MAX_MSG_SIZE.
Proof.
  intros HR Hx Hl. destruct (rep_items _ _ _ _ HR i _ Hx) as [_ (st & Hs & Hw & He & Ha)]. cbn [item_words] in Hw, He. pose proof (rep_data _ _ _ _ HR) as Hd.
  pose proof (nwords_spec (Z.of_nat (length l)) ltac:(lia)) as [Hn Hn0]. pose proof WORD_pos as (HW & Hsz & Hm). assert (0 < Z.of_nat (length l)) by (destruct l; [done|cbn; lia]).
  destruct (data_param st (nwords (Z.of_nat (length l))) ltac:(lia)) as [E1 E2]. exists (data msg st). split_and!; [|done|rw /data; nia|rw /data /MAX_MSG_SIZE; nia].
  rw /msg_get_data (bind_run _ _ _ _ _ (check_index_run _ _ _ _ _ _ HR Hx)) !(bind_ldw _ _ _ _ Hw) E1 E2.
  rw /ctrue (proj2 (Z.eqb_neq (nwords _) 0)); [nia|]. cbn [negb]. rw ulong_small //. nia.
Qed.

(** ** Copying *)

Lemma put_words_app m p l1 l2 q : q = p + Z.of_nat (length l1) * WORD →
  put (put m p (words_bytes l1)) q (words_bytes l2) = put m p (words_bytes (l1 ++ l2)).
Proof. intros ->. by rw /words_bytes bind_app put_app -/(words_bytes l1) length_words_bytes. Qed.

Lemma putw_words m p l v q : q = p + Z.of_nat (length l) * WORD → putw (put m p (words_bytes l)) q v = put m p (words_bytes (l ++ [v])).
Proof. intros E. rw -(put_words_app _ _ _ [v] _ E) /words_bytes /=. by rw app_nil_r. Qed.

(** The first [n] bytes of two buffers do not meet. *)
Definition sep (p q n : Z) : Prop := p + n ≤ q ∨ q + n ≤ p.

Lemma put_word_at m p l q v : q + WORD ≤ p ∨ p + Z.of_nat (length l) ≤ q → word_at m q v → word_at (put m p l) q v.
Proof. intros Hd [Ha Hv]. split; [|done]. apply put_arr_out; [|done]. by rw length_word_bytes. Qed.

Lemma copy_params_run dst src w k us : sep dst src k → 18 * WORD ≤ k → ∀ fuel i m, (length us < fuel)%nat → 0 ≤ i →
  get_field num_params w = i + Z.of_nat (length us) → word_at m src w → owned m dst k →
  (∀ j u, us !! j = Some u → word_at m (params src (i + Z.of_nat j)) u) →
  copy_params fuel dst src i m = Ret (tt, put m (params dst i) (words_bytes us)).
Proof.
  intros Hsep Hk. induction us as [|u us IH]; intros [|fuel] i m Hf Hi Hn Hh Ho Hus; [cbn in Hf; lia| |cbn in Hf; lia|]; cbn [copy_params].
  - rw (bind_ldf _ _ _ _ _ Hh) Hn (proj2 (Z.ltb_ge _ _)); [cbn; lia|]. done.
  - pose proof WORD_pos as (HW & _). pose proof (get_field_range num_params w) as Hr. change (2 ^ f_width num_params) with 16 in Hr. cbn [length] in *.
    rw (bind_ldf _ _ _ _ _ Hh) Hn (proj2 (Z.ltb_lt _ _)); [lia|].
    pose proof (Hus 0%nat u eq_refl) as Hu. rw Z.add_0_r in Hu. rw (bind_ldw _ _ _ _ Hu).
    rw bind_stw; [apply Hu|eapply owned_sub; [exact Ho|rw /params; nia|rw /params; nia]|]. rw (IH fuel (i + 1)) //; [lia|lia|lia| | | |].
    + apply putw_word; [rw /sep /params in Hsep |- *; nia|done].
    + by apply putw_owned.
    + intros j v Hj. specialize (Hus (S j) v Hj). pose proof (lookup_lt_Some _ _ _ Hj).
      apply putw_word; [rw /sep /params in Hsep |- *; nia|]. by replace (i + 1 + Z.of_nat j) with (i + Z.of_nat (S j)) by lia.
    + rw /words_bytes bind_cons put_app length_word_bytes -/(words_bytes us) -/(putw _ _ _). do 3 f_equal. rw /params. lia.
Qed.

(** The memory after [copy_msg]: the words of the header, the sender and the
    parameters, and the data. *)
Definition copied (m : mem) (dst w pid tid : Z) (us ds : list Z) : mem :=
  put (put m dst (words_bytes ([w; pid; tid] ++ us))) (data dst 0) ds.

Lemma copy_msg_run m dst src w pid tid us ds k : k = 18 * WORD + Z.of_nat (length ds) → sep dst src k → owned m dst k →
  uint ARCH_WIDTH pid → uint ARCH_WIDTH tid → word_at m src w → get_field num_params w = Z.of_nat (length us) →
  (∀ j u, us !! j = Some u → word_at m (params src (Z.of_nat j)) u) →
  arr m (data src 0) ds → bytes ds → Z.of_nat (length ds) = get_field num_data_words w * WORD →
  copy_msg dst src pid tid m = Ret (tt, copied m dst w pid tid us ds).
Proof.
  intros Ek Hsep Ho Hpid Htid Hh Hn Hus Hds Hb Hlen. pose proof WORD_pos as (HW & _). pose proof (get_field_range num_params w) as Hr.
  change (2 ^ f_width num_params) with 16 in Hr. pose proof (get_field_range num_data_words w) as Hd. change (2 ^ f_width num_data_words) with 4096 in Hd.
  rw /copy_msg (bind_ldw _ _ _ _ Hh). rw bind_stw; [apply Hh|eapply owned_sub; [exact Ho|rw /msg_size; lia|rw /msg_size; lia]|].
  rw bind_stw //; [apply putw_owned; eapply owned_sub; [exact Ho|rw /sender_pid; lia|rw /sender_pid; lia]|].
  rw bind_stw //; [do 2 apply putw_owned; eapply owned_sub; [exact Ho|rw /sender_tid; lia|rw /sender_tid; lia]|].
  assert (putw (putw (putw m (msg_size dst) w) (sender_pid dst) pid) (sender_tid dst) tid = put m dst (words_bytes [w; pid; tid])) as ->.
  { rw -(putw_words m dst [w; pid] tid (sender_tid dst)); [rw /sender_tid /=; lia|]. rw -(putw_words m dst [w] pid (sender_pid dst)); [rw /sender_pid /=; lia|].
    rw -(putw_words m dst [] w dst); [cbn; lia|]. done. }
  set (m3 := put m dst (words_bytes [w; pid; tid])). pose proof (length_words_bytes [w; pid; tid]) as L3. cbn [length] in L3.
  pose proof (length_words_bytes ([w; pid; tid] ++ us)) as Lu. rw length_app /= in Lu.
  rw (bind_run _ _ m3 tt (put m dst (words_bytes ([w; pid; tid] ++ us)))).
  { rw (copy_params_run dst src w k us) //; [lia|lia| |by apply put_owned| |].
    - apply put_word_at; [rw L3; rw /sep in Hsep; lia|done].
    - intros j u Hj. apply put_word_at; [|by apply Hus]. pose proof (lookup_lt_Some _ _ _ Hj). rw L3. rw /sep /params in Hsep |- *. nia.
    - rw (put_words_app m dst [w; pid; tid] us) //. rw /params /=. lia. }
  set (m4 := put m dst _). assert (word_at m4 src w) as Hh4 by (apply put_word_at; [rw Lu; rw /sep in Hsep; nia|done]). rw (bind_ldf _ _ _ _ _ Hh4).
  rw /copied -/m4. destruct (ctrue (get_field num_data_words w)) eqn:Ec.
  - rw (bind_ldf _ _ _ _ _ Hh4) ulong_small; [nia|]. rw (bind_run _ _ _ _ _ (memcpy_run ds m4 (data dst 0) (data src 0) _ _ _ Hb _ _)) //.
    + apply put_arr_out; [|done]. rw Lu. rw /sep /data in Hsep |- *. nia.
    + rw -Hlen. apply put_owned. eapply owned_sub; [exact Ho|rw /data; lia|rw /data; lia].
    + rw -Hlen. rw /sep /data in Hsep |- *. lia.
  - apply negb_false_iff, Z.eqb_eq in Ec. destruct ds; [done|cbn in Hlen; lia].
Qed.

Lemma choose_list {A} (P : nat → A → Prop) n : (∀ i, (i < n)%nat → ∃ a, P i a) → ∃ l, length l = n ∧ ∀ i a, l !! i = Some a → P i a.
Proof.
  induction n as [|n IH]; intros HP; [exists []; split; [done|]; intros i a; by rw lookup_nil|].
  destruct IH as (l & Hl & Hi); [intros i Hi; apply HP; lia|]. destruct (HP n) as [a Ha]; [lia|]. exists (l ++ [a]). split; [rw length_app /=; lia|].
  intros i b [Hb|[Hge Hb]]%lookup_app_Some; [by apply Hi|]. apply list_lookup_singleton_Some in Hb as [E <-]. by replace i with n by lia.
Qed.

Lemma rep_values m msg w items : msg_rep m msg w items →
  ∃ us, length us = length items ∧ ∀ j u, us !! j = Some u → word_at m (params msg (Z.of_nat j)) u.
Proof.
  intros HR. apply choose_list. intros i Hi. destruct (lookup_lt_is_Some_2 _ _ Hi) as [x Hx].
  destruct (rep_items _ _ _ _ HR i x Hx) as [_ Hw]. destruct x as [v|l]; [by exists v|]. destruct Hw as (st & _ & Hw & _). eexists. exact Hw.
Qed.

Lemma word_at_inj m p u v : word_at m p u → word_at m p v → u = v.
Proof. intros Hu%ldw_run Hv%ldw_run. rw Hu in Hv. by simplify_eq. Qed.

Lemma copied_header m dst w pid tid us ds i u : ([w; pid; tid] ++ us) !! i = Some u → uint ARCH_WIDTH u → (i < 18)%nat →
  word_at (copied m dst w pid tid us ds) (dst + Z.of_nat i * WORD) u.
Proof.
  intros Hi Hu Hlt. pose proof WORD_pos as (HW & _). apply put_word_at; [left; rw /data; nia|]. split; [|done].
  by apply (proj1 (words_arr _ _ _) (put_arr m dst (words_bytes ([w; pid; tid] ++ us)))).
Qed.

Lemma copied_out m dst w pid tid us ds a : (length us ≤ 15)%nat → ¬ (dst ≤ a < dst + 18 * WORD + Z.of_nat (length ds)) →
  copied m dst w pid tid us ds !! a = m !! a.
Proof.
  intros Hl Ha. pose proof WORD_pos as (HW & _). rw /copied put_out; [rw /data; nia|]. apply put_out. rw length_words_bytes length_app. cbn [length]. nia.
Qed.

(** A copied message stands for the same items. *)
Lemma rep_copied m src dst w items pid tid us ds : msg_rep m src w items → owned m dst MAX_MSG_SIZE →
  (∀ a b, dst ≤ a < dst + MAX_MSG_SIZE → m !! a = Some b → byte b) →
  length us = length items → (∀ j u, us !! j = Some u → word_at m (params src (Z.of_nat j)) u) →
  arr m (data src 0) ds → bytes ds → Z.of_nat (length ds) = get_field num_data_words w * WORD →
  msg_rep (copied m dst w pid tid us ds) dst w items.
Proof.
  intros HR Ho Hbd Hlu Hus Hds Hb Hlen. pose proof (rep_length _ _ _ _ HR) as H15. pose proof (hdr_uint _ _ _ _ HR) as Hu.
  destruct HR as [Ho' Hbs Hh Hn Hd Ht Hi]. split; [| | |done|done|done|].
  - by do 2 apply put_owned.
  - apply put_bytes_ok; [done|]. apply put_bytes_ok; [|done]. rw /words_bytes /bytes. apply Forall_bind, Forall_true. intros x. apply word_bytes_bytes.
  - pose proof (copied_header m dst w pid tid us ds 0 w eq_refl Hu ltac:(lia)) as Hw. by rw Z.mul_0_l Z.add_0_r in Hw.
  - intros i x Hx. pose proof (lookup_lt_Some _ _ _ Hx) as Hlt. destruct (Hi i x Hx) as [Hty Hx']. split; [done|].
    destruct (lookup_lt_is_Some_2 us i) as [u Hui]; [lia|]. pose proof (Hus i u Hui) as Hwu.
    assert (word_at (copied m dst w pid tid us ds) (params dst (Z.of_nat i)) u) as Hc.
    { pose proof (copied_header m dst w pid tid us ds (3 + i) u Hui (proj2 Hwu) ltac:(lia)) as Hw. rw Nat2Z.inj_add in Hw. rw /params.
      replace (dst + 3 * WORD + Z.of_nat i * WORD) with (dst + (Z.of_nat 3 + Z.of_nat i) * WORD) by lia. done. }
    destruct x as [v|l]; [by rw (word_at_inj _ _ _ _ Hx' Hwu)|]. destruct Hx' as (st & Hs & Hw & He & Ha). exists st.
    rw (word_at_inj _ _ _ _ Hw Hwu). split_and!; [done|done|done|]. cbn [item_words] in He. pose proof (nwords_spec (Z.of_nat (length l)) ltac:(lia)).
    pose proof WORD_pos as (HW & _). rw arr_lookup. intros j b Hj. pose proof (lookup_lt_Some _ _ _ Hj).
    rw arr_lookup in Ha. specialize (Ha j b Hj). rw arr_lookup in Hds. set (o := Z.to_nat (st * WORD + Z.of_nat j)).
    assert (Z.of_nat o = st * WORD + Z.of_nat j) as Eo by (subst o; nia).
    destruct (lookup_lt_is_Some_2 ds o) as [c Hc']; [nia|]. pose proof (Hds o c Hc') as Hm.
    replace (data src 0 + Z.of_nat o) with (data src st + Z.of_nat j) in Hm by (rw /data; lia). rw Ha in Hm. simplify_eq.
    replace (data dst st + Z.of_nat j) with (data dst 0 + Z.of_nat o) by (rw /data; lia). exact (proj1 (arr_lookup _ _ _) (put_arr _ _ _) o _ Hc').
Qed.

Lemma msg_copied m src dst w items pid tid : msg_rep m src w items → owned m dst MAX_MSG_SIZE →
  (∀ a b, dst ≤ a < dst + MAX_MSG_SIZE → m !! a = Some b → byte b) → sep dst src MAX_MSG_SIZE →
  uint ARCH_WIDTH pid → uint ARCH_WIDTH tid →
  ∃ m', copy_msg dst src pid tid m = Ret (tt, m') ∧ msg_rep m' dst w items ∧ apart m m' dst ∧
    word_at m' (sender_pid dst) pid ∧ word_at m' (sender_tid dst) tid.
Proof.
  intros HR Ho Hbd Hsep Hpid Htid. destruct (rep_values _ _ _ _ HR) as (us & Hlu & Hus). pose proof WORD_pos as (HW & Hsz & Hm).
  pose proof (rep_data _ _ _ _ HR) as Hd. pose proof (get_field_range num_data_words w) as Hd0. pose proof (rep_length _ _ _ _ HR).
  destruct (owned_arr m (data src 0) (get_field num_data_words w * WORD)) as (ds & Hlen & Hds & Hb); [nia| | |].
  { eapply owned_sub; [exact (rep_owned _ _ _ _ HR)|rw /data; lia|rw /data /MAX_MSG_SIZE; nia]. }
  { intros a b Ha. apply (rep_bytes _ _ _ _ HR). rw /data /MAX_MSG_SIZE in Ha |- *. nia. }
  assert (18 * WORD + Z.of_nat (length ds) ≤ 2048) as Hk by nia.
  exists (copied m dst w pid tid us ds). split_and!.
  - eapply (copy_msg_run m dst src w pid tid us ds); [done| | |done|done|apply HR|rw (rep_np _ _ _ _ HR) Hlu //|done|done|done|done].
    + rw /sep /MAX_MSG_SIZE in Hsep |- *. lia.
    + apply (owned_sub m dst MAX_MSG_SIZE); [exact Ho|lia|]. rw /MAX_MSG_SIZE. lia.
  - by apply (rep_copied m src).
  - intros a Ha. apply copied_out; [lia|]. rw /MAX_MSG_SIZE in Ha. lia.
  - pose proof (copied_header m dst w pid tid us ds 1 pid eq_refl Hpid ltac:(lia)) as Hw. by rw Z.mul_1_l in Hw.
  - exact (copied_header m dst w pid tid us ds 2 tid eq_refl Htid ltac:(lia)).
Qed.

(** ** Sending *)

(** What a program appends: a value, or the bytes [l] found at [dat]. *)
Inductive append :=
| AParam (v : Z)
| AData (dat : Z) (l : list Z).

Definition append_item (a : append) : item := match a with AParam v => Param v | AData _ l => Data l end.

Definition append_one (msg : Z) (a : append) : SM unit :=
  match a with
  | AParam v => msg_append_param msg v
  | AData dat l => msg_append_data msg dat (Z.of_nat (length l));; mret tt
  end.
Fixpoint build (msg : Z) (xs : list append) : SM unit :=
  match xs with
  | [] => mret tt
  | a :: xs => append_one msg a;; build msg xs
  end.

Definition append_ok (m : mem) (msg : Z) (a : append) : Prop :=
  match a with
  | AParam v => uint ARCH_WIDTH v
  | AData dat l => dat ≠ 0 ∧ arr m dat l ∧ bytes l ∧ outside dat (Z.of_nat (length l)) msg
  end.

Definition total_words (xs : list append) : Z := foldr (λ a n, item_words (append_item a) + n) 0 xs.

Lemma total_words_nonneg xs : 0 ≤ total_words xs.
Proof.
  induction xs as [|[v|dat l] xs IH]; cbn [total_words foldr append_item item_words]; [done|done|].
  pose proof (nwords_spec (Z.of_nat (length l)) ltac:(lia)) as [_ Hn]. rw /total_words in IH. lia.
Qed.

Lemma append_ok_apart m m' msg a : apart m m' msg → append_ok m msg a → append_ok m' msg a.
Proof.
  intros Hap. destruct a as [v|dat l]; [done|]. intros (Hd & Ha & Hb & Ho). split_and!; [done| |done|done].
  eapply arr_ext; [|exact Ha]. intros b Hr. apply Hap. rw /outside in Ho. lia.
Qed.

Lemma append_one_run m msg w items a : msg_rep m msg w items → Z.of_nat (length items) < 15 →
  get_field num_data_words w + item_words (append_item a) ≤ MAX_MSG_DATA_WORDS → append_ok m msg a →
  ∃ m' w', append_one msg a m = Ret (tt, m') ∧ msg_rep m' msg w' (items ++ [append_item a]) ∧ apart m m' msg ∧
    get_field num_data_words w' = get_field num_data_words w + item_words (append_item a).
Proof.
  intros HR Hl Hfit Hok. destruct a as [v|dat l]; cbn [append_one append_item item_words append_ok] in *.
  - destruct (append_value_run m msg w items v HR Hl Hok) as (m' & w' & E & HR' & Hap & Hd). exists m', w'. rw Z.add_0_r. done.
  - destruct Hok as (Hd & Ha & Hb & Ho). destruct (msg_append_data_run m msg w items dat l HR Hl Hfit Hd Ha Hb Ho) as (m' & w' & E & HR' & Hap & Hdw).
    exists m', w'. split_and!; [by rw (bind_run _ _ _ _ _ E)|done..].
Qed.

Lemma build_run xs : ∀ m msg w items, msg_rep m msg w items → Z.of_nat (length items + length xs) ≤ 15 →
  get_field num_data_words w + total_words xs ≤ MAX_MSG_DATA_WORDS → Forall (append_ok m msg) xs →
  ∃ m' w', build msg xs m = Ret (tt, m') ∧ msg_rep m' msg w' (items ++ (append_item <$> xs)) ∧ apart m m' msg.
Proof.
  induction xs as [|a xs IH]; intros m msg w items HR Hl Hfit Hok; cbn [build fmap list_fmap].
  - exists m, w. rw app_nil_r. split_and!; [done|done|by intros ? _].
  - cbn [length total_words foldr] in *. rw -/(total_words xs) in Hfit. pose proof (total_words_nonneg xs). apply Forall_cons in Hok as [Ha Hxs].
    destruct (append_one_run m msg w items a HR ltac:(lia) ltac:(lia) Ha) as (m1 & w1 & E1 & HR1 & Hap1 & Hd1).
    destruct (IH m1 msg w1 _ HR1) as (m2 & w2 & E2 & HR2 & Hap2); [rw length_app /=; lia|lia| |].
    { eapply Forall_impl; [exact Hxs|]. intros y. by apply append_ok_apart. }
    exists m2, w2. rw (bind_run _ _ _ _ _ E1). rw -app_assoc /= in HR2. split_and!; [done|done|]. exact (apart_trans _ _ _ _ Hap1 Hap2).
Qed.

Lemma get_field_0 f : get_field f 0 = 0.
Proof. by rw /get_field /shr Z.shiftr_0_l. Qed.

Lemma clear_msg_run m msg : owned m msg MAX_MSG_SIZE → (∀ a b, msg ≤ a < msg + MAX_MSG_SIZE → m !! a = Some b → byte b) →
  clear_msg msg m = Ret (tt, putw m msg 0) ∧ msg_rep (putw m msg 0) msg 0 [] ∧ apart m (putw m msg 0) msg.
Proof.
  intros Ho Hb. assert (uint ARCH_WIDTH 0) as Hz by by apply small_uint. pose proof WORD_pos as (HW & Hsz & Hm). split_and!.
  - apply stw_run; [done|]. eapply owned_sub; [exact Ho|rw /msg_size; lia|]. rw /msg_size /MAX_MSG_SIZE. lia.
  - split; [by apply putw_owned|apply put_bytes_ok; [apply word_bytes_bytes|done]|by apply putw_at|apply get_field_0|rw get_field_0; lia| |].
    + intros i _. by rw get_field_0 Z.bits_0.
    + intros i x. by rw lookup_nil.
  - intros a Ha. apply putw_out. rw /MAX_MSG_SIZE in Ha. lia.
Qed.

(** A buffer for messages: live bytes. *)
Definition buffer (m : mem) (msg : Z) : Prop :=
  owned m msg MAX_MSG_SIZE ∧ ∀ a b, msg ≤ a < msg + MAX_MSG_SIZE → m !! a = Some b → byte b.

Lemma buffer_apart m m' msg other : apart m m' other → sep msg other MAX_MSG_SIZE → buffer m msg → buffer m' msg.
Proof.
  intros Hap Hsep [Ho Hb]. rw /sep in Hsep. split; [intros a Ha; rw Hap; [lia|by apply Ho]|]. intros a b Ha. rw Hap; [lia|]. by apply Hb.
Qed.

(** C14. A message arrives as it was sent.  A program clears its buffer and
    appends at most 15 values and data blocks that together fit the data words;
    the kernel copies the message to another buffer.  All calls return, the
    receiver reads back every value and every block at its index and the
    sender's ids, and no memory outside the two buffers has changed. *)
Theorem message_delivered m src dst pid tid xs : buffer m src → buffer m dst → sep dst src MAX_MSG_SIZE →
  uint ARCH_WIDTH pid → uint ARCH_WIDTH tid → (length xs ≤ 15)%nat → total_words xs ≤ MAX_MSG_DATA_WORDS →
  Forall (append_ok m src) xs →
  ∃ m', (clear_msg src;; build src xs;; copy_msg dst src pid tid) m = Ret (tt, m') ∧
    (∀ i v, xs !! i = Some (AParam v) → msg_get_param dst (Z.of_nat i) m' = Ret (v, m')) ∧
    (∀ i dat l, xs !! i = Some (AData dat l) → l ≠ [] →
       ∃ p, msg_get_data dst (Z.of_nat i) m' = Ret ((p, Some (nwords (Z.of_nat (length l)) * WORD)), m') ∧ arr m' p l) ∧
    ldw (sender_pid dst) m' = Ret (pid, m') ∧ ldw (sender_tid dst) m' = Ret (tid, m') ∧
    (∀ a, ¬ (src ≤ a < src + MAX_MSG_SIZE) → ¬ (dst ≤ a < dst + MAX_MSG_SIZE) → m' !! a = m !! a).
Proof.
  intros [Hos Hbs] Hbd Hsep Hpid Htid Hl Hfit Hok. destruct (clear_msg_run m src Hos Hbs) as (E0 & HR0 & Hap0). set (m0 := putw m src 0) in *.
  destruct (build_run xs m0 src 0 [] HR0) as (m1 & w & E1 & HR1 & Hap1); [cbn; lia|rw get_field_0; lia| |].
  { eapply Forall_impl; [exact Hok|]. intros y. by apply append_ok_apart. }
  pose proof (apart_trans _ _ _ _ Hap0 Hap1) as Hap. destruct (buffer_apart m m1 dst src Hap Hsep Hbd) as [Hod Hbd'].
  destruct (msg_copied m1 src dst w _ pid tid HR1 Hod Hbd' Hsep Hpid Htid) as (m2 & E2 & HR2 & Hap2 & Hp & Ht). exists m2. split_and!.
  - by rw (bind_run _ _ _ _ _ E0) (bind_run _ _ _ _ _ E1).
  - intros i v Hi. apply (msg_get_param_run _ _ _ _ _ _ HR2). by rw /= list_lookup_fmap Hi.
  - intros i dat l Hi Hne. destruct (msg_get_data_run m2 dst w _ i l HR2) as (p & E & Ha & _); [by rw /= list_lookup_fmap Hi|done|]. by exists p.
  - by apply ldw_run.
  - by apply ldw_run.
  - intros a Ha1 Ha2. rw Hap2 //. by apply Hap.
Qed.

(** A message that is full is left as it is: with 15 parameters, or for a
    block (of less than 2^31 bytes) that exceeds the data words left,
    [msg_append_data] panics and [msg_try_append_data] returns NULL without
    writing anything; with 15 parameters [msg_append_param] panics. *)
Theorem full_message_refuses m msg w items dat size v : msg_rep m msg w items → 0 ≤ size < 2 ^ 31 →
  (length items = 15%nat ∨ MAX_MSG_DATA_WORDS < get_field num_data_words w + nwords size) →
  msg_append_data msg dat size m = Panic ∧ msg_try_append_data msg dat size m = Ret (0, m) ∧
  (length items = 15%nat → msg_append_param msg v m = Panic).
Proof.
  intros HR Hs Hfull. pose proof (rep_hdr _ _ _ _ HR) as Hh. pose proof (rep_np _ _ _ _ HR) as Hn. pose proof (rep_length _ _ _ _ HR) as Hl.
  pose proof (get_field_range num_data_words w) as Hd. change (2 ^ f_width num_data_words) with 4096 in Hd. pose proof (nwords_spec size (proj1 Hs)) as [Hw Hw0].
  pose proof WORD_pos as (HW & _ & Hm). assert (nwords size < 2 ^ 32 - 4096) as Hnw by nia.
  assert (ulong (get_field num_data_words w + nwords size) = get_field num_data_words w + nwords size) as Eul by (apply wrap_small, small_uint; lia).
  rw /msg_append_data /msg_try_append_data /msg_append_param /append_value !(bind_ldf _ _ _ _ _ Hh) Hn data_words_small // /MAX_MSG_PARAMS.
  destruct (Z.leb_spec 15 (Z.of_nat (length items))) as [H15|H15]; [done|]. split_and!; [| |intros E; exfalso; lia].
  - rw (bind_run _ _ m tt m) // (bind_ldf _ _ _ _ _ Hh) Eul. rw (proj2 (Z.ltb_lt _ _)); [lia|]. done.
  - rw (bind_ldf _ _ _ _ _ Hh) Eul. rw (proj2 (Z.ltb_lt _ _)); [lia|]. done.
Qed.

(** C15. The kernel copies as many data words as the sender's header says, up to
    4095, whatever the size of the buffers: with more than
    [MAX_MSG_DATA_WORDS] of them [copy_msg] overwrites the memory behind the
    receiver's buffer with what lies behind the sender's. *)
Theorem copy_msg_overruns m dst src w pid tid us ds k : k = 18 * WORD + Z.of_nat (length ds) → sep dst src k → owned m dst k →
  uint ARCH_WIDTH pid → uint ARCH_WIDTH tid → word_at m src w → get_field num_params w = Z.of_nat (length us) →
  (∀ j u, us !! j = Some u → word_at m (params src (Z.of_nat j)) u) →
  arr m (data src 0) ds → bytes ds → Z.of_nat (length ds) = get_field num_data_words w * WORD →
  MAX_MSG_DATA_WORDS < get_field num_data_words w →
  ∃ m', copy_msg dst src pid tid m = Ret (tt, m') ∧ MAX_MSG_SIZE < k ∧
    ∀ o, MAX_MSG_SIZE ≤ o < k → m' !! (dst + o) = m !! (src + o).
Proof.
  intros Ek Hsep Ho Hpid Htid Hh Hn Hus Hds Hb Hlen Hbig. exists (copied m dst w pid tid us ds). pose proof WORD_pos as (HW & Hsz & Hm).
  split; [exact (copy_msg_run m dst src w pid tid us ds k Ek Hsep Ho Hpid Htid Hh Hn Hus Hds Hb Hlen)|]. rw /MAX_MSG_SIZE. split; [nia|]. intros o Hoff. rw /copied put_in; [rw /data; nia|].
  destruct (lookup_lt_is_Some_2 ds (Z.to_nat (o - 18 * WORD))) as [b Hb']; [nia|]. rw arr_lookup in Hds. pose proof (Hds _ _ Hb') as Hm'.
  replace (data src 0 + Z.of_nat (Z.to_nat (o - 18 * WORD))) with (src + o) in Hm' by (rw /data; nia).
  rw Hm' -Hb'. f_equal. rw /data. lia.
Qed.
End MsgSpec.

(** ** Examples *)

(** Two empty buffers at 4096 and 8192, and the bytes "hi!" at 64. *)
Definition demo_buffers : mem :=
  put (put (put ∅ 64 [104; 105; 33]) 4096 (replicate 2048 0)) 8192 (replicate 2048 0).

Lemma zeros_bytes n : bytes (replicate n 0).
Proof. apply Forall_replicate. done. Qed.

Lemma demo_buffers_bytes a b : demo_buffers !! a = Some b → byte b.
Proof.
  assert (∀ m p l, bytes l → (∀ a b, m !! a = Some b → byte b) → ∀ a b, put m p l !! a = Some b → byte b) as Hp.
  { intros m p l Hl Hm c d Hc. destruct (decide (p ≤ c < p + Z.of_nat (length l))) as [Hr|Hr]; [|rw put_out // in Hc; by apply (Hm c)].
    rw put_in // in Hc. by apply (proj1 (Forall_lookup _ _) Hl _ _ Hc). }
  apply Hp; [apply zeros_bytes|]. apply Hp; [apply zeros_bytes|]. apply Hp; [repeat constructor; done|]. intros c d. by rw lookup_empty.
Qed.

Lemma demo_src : buffer demo_buffers 4096.
Proof.
  split; [|intros a b _; apply demo_buffers_bytes]. apply put_owned. pose proof (arr_owned _ _ _ (put_arr (put ∅ 64 [104; 105; 33]) 4096 (replicate 2048 0))) as Ho.
  by rw length_replicate in Ho.
Qed.

Lemma demo_dst : buffer demo_buffers 8192.
Proof.
  split; [|intros a b _; apply demo_buffers_bytes]. pose proof (arr_owned _ _ _ (put_arr (put (put ∅ 64 [104; 105; 33]) 4096 (replicate 2048 0)) 8192 (replicate 2048 0))) as Ho.
  by rw length_replicate in Ho.
Qed.

Lemma demo_text : arr demo_buffers 64 [104; 105; 33].
Proof. cbn [arr]. split_and!; vm_compute; done. Qed.

(** The value 7 and the text "hi!" are sent from thread 5 of process 3. *)
Lemma message_delivered_witness :
  ∃ m', (@clear_msg riscv64 4096;; @build riscv64 4096 [AParam 7; AData 64 [104; 105; 33]];; @copy_msg riscv64 8192 4096 3 5) demo_buffers = Ret (tt, m') ∧
    @msg_get_param riscv64 8192 0 m' = Ret (7, m') ∧
    (∃ p, @msg_get_data riscv64 8192 1 m' = Ret ((p, Some 8), m') ∧ arr m' p [104; 105; 33]).
Proof.
  destruct (@message_delivered riscv64 demo_buffers 4096 8192 3 5 [AParam 7; AData 64 [104; 105; 33]] demo_src demo_dst) as (m' & E & Hp & Hd & _).
  - right. vm_compute. discriminate.
  - rw /uint. cbn [ARCH_WIDTH riscv64]. lia.
  - rw /uint. cbn [ARCH_WIDTH riscv64]. lia.
  - cbn. lia.
  - vm_compute. discriminate.
  - apply Forall_cons; split; [rw /append_ok /uint; cbn [ARCH_WIDTH riscv64]; lia|]. apply Forall_singleton.
    split_and!; [done|exact demo_text|repeat constructor; done|left; vm_compute; discriminate].
  - exists m'. split; [exact E|]. split; [exact (Hp 0%nat 7 eq_refl)|]. exact (Hd 1%nat 64 [104; 105; 33] eq_refl ltac:(discriminate)).
Defined.

(** An empty message has no room for 2000 bytes on a 64-bit machine. *)
Lemma full_message_refuses_witness :
  @msg_append_data riscv64 4096 64 2000 (@putw riscv64 demo_buffers 4096 0) = Panic.
Proof.
  apply (@full_message_refuses riscv64 (@putw riscv64 demo_buffers 4096 0) 4096 0 [] 64 2000 0).
  - apply (@clear_msg_run riscv64 demo_buffers 4096); apply demo_src.
  - lia.
  - right. vm_compute. reflexivity.
Defined.

(** A header that announces 240 data words, two more than fit. *)
Definition demo_over : mem :=
  put (put ∅ 4096 (@word_bytes riscv64 (240 * 2 ^ 20) ++ replicate 136 0 ++ replicate 1920 0)) 8192 (replicate 2064 7).

Lemma demo_over_arr : arr demo_over 4096 (@word_bytes riscv64 (240 * 2 ^ 20)) ∧ arr demo_over 4240 (replicate 1920 0).
Proof.
  assert (arr demo_over 4096 (@word_bytes riscv64 (240 * 2 ^ 20) ++ replicate 136 0 ++ replicate 1920 0)) as Ha.
  { apply put_arr_out; [|apply put_arr]. left. rw !length_app !length_replicate. vm_compute. discriminate. }
  rw !arr_app length_replicate in Ha. by destruct Ha as (? & _ & ?).
Qed.

Lemma copy_msg_overruns_witness :
  ∃ m', @copy_msg riscv64 8192 4096 3 5 demo_over = Ret (tt, m') ∧ ∀ o, 2048 ≤ o < 2064 → m' !! (8192 + o) = demo_over !! (4096 + o).
Proof.
  destruct demo_over_arr as [Hw Hd].
  destruct (@copy_msg_overruns riscv64 demo_over 8192 4096 (240 * 2 ^ 20) 3 5 [] (replicate 1920 0) 2064) as (m' & E & _ & Ho).
  - rw length_replicate. vm_compute. reflexivity.
  - right. vm_compute. discriminate.
  - pose proof (arr_owned _ _ _ (put_arr (put ∅ 4096 (@word_bytes riscv64 (240 * 2 ^ 20) ++ replicate 136 0 ++ replicate 1920 0)) 8192 (replicate 2064 7))) as Ho.
    by rw length_replicate in Ho.
  - rw /uint. cbn [ARCH_WIDTH riscv64]. lia.
  - rw /uint. cbn [ARCH_WIDTH riscv64]. lia.
  - split; [exact Hw|]. rw /uint. cbn [ARCH_WIDTH riscv64]. lia.
  - vm_compute. reflexivity.
  - intros j u. by rw lookup_nil.
  - exact Hd.
  - apply zeros_bytes.
  - rw length_replicate. vm_compute. reflexivity.
  - vm_compute. reflexivity.
  - exists m'. split; [exact E|exact Ho].
Defined.
