(* ===== verification/MemSafe.v ===== *)
(** What holds of the string and message libraries for every memory and every
    argument, valid or not: which addresses a call writes ([writes]), that a
    message stays a message ([keeps_message]), and that no call runs forever
    ([halts]).

    [halts c] is shown for the loops that scan memory by counting the addresses
    they have read: these are consecutive and mapped, so there are at most as
    many as there are mapped addresses ([scan_fuel]). *)

From stdpp Require Import base list gmap.
From Stdlib Require Import ZArith Lia.
From Corelib Require Import ssreflect.
From S2P Require Import Prelude Bits Mem Str StrSpec MemWords Msg MsgSpec.

(** ** Where memory is written *)

(** [m'] is [m] with bytes written to mapped addresses from [lo] to [hi - 1]. *)
Definition scribbled (lo hi : Z) (m m' : mem) : Prop := ∀ a,
  m' !! a = m !! a ∨ lo ≤ a < hi ∧ is_Some (m !! a) ∧ ∃ b, m' !! a = Some b ∧ byte b.

(** A call that returns has written to these addresses only. *)
Definition writes {A} (lo hi : Z) (c : SM A) : Prop := ∀ m a m', c m = Ret (a, m') → scribbled lo hi m m'.

Lemma scribbled_refl lo hi m : scribbled lo hi m m.
Proof. intros a. by left. Qed.

Lemma scribbled_trans lo hi m1 m2 m3 : scribbled lo hi m1 m2 → scribbled lo hi m2 m3 → scribbled lo hi m1 m3.
Proof.
  intros H1 H2 a. destruct (H2 a) as [E|(Ha & Hs & b & E & Hb)].
  - destruct (H1 a) as [E1|(Ha & Hs & b & E1 & Hb)]; [left; congruence|]. right. split_and!; [lia..|done|]. exists b. split; [congruence|done].
  - right. split_and!; [lia..| |by exists b]. destruct (H1 a) as [E1|(_ & Hs1 & _)]; [by rw -E1|done].
Qed.

Lemma scribbled_mono lo hi lo' hi' m m' : lo' ≤ lo → hi ≤ hi' → scribbled lo hi m m' → scribbled lo' hi' m m'.
Proof. intros Hl Hh H a. destruct (H a) as [E|(Ha & H')]; [by left|]. right. split; [lia|done]. Qed.

Lemma writes_mono {A} lo hi lo' hi' (c : SM A) : writes lo hi c → lo' ≤ lo → hi ≤ hi' → writes lo' hi' c.
Proof. intros Hc Hl Hh m a m' E. exact (scribbled_mono _ _ _ _ _ _ Hl Hh (Hc m a m' E)). Qed.

Lemma writes_ret {A} lo hi (a : A) : writes lo hi (mret a).
Proof. intros m b m' [= <- <-]. apply scribbled_refl. Qed.

Lemma writes_gets {A} lo hi (f : mem → A) : writes lo hi (gets f).
Proof. intros m b m' [= <- <-]. apply scribbled_refl. Qed.

Lemma writes_diverge {A} lo hi : writes lo hi (A := A) diverge.
Proof. done. Qed.

Lemma writes_fault {A} lo hi : writes lo hi (A := A) fault.
Proof. done. Qed.

Lemma writes_bind {A B} lo hi (c : SM A) (f : A → SM B) : writes lo hi c → (∀ a, writes lo hi (f a)) → writes lo hi (c ≫= f).
Proof.
  intros Hc Hf m b m'. rw /mbind /M_bind. destruct (c m) as [[a m1]| | |] eqn:E; [|done..]. intros E'.
  exact (scribbled_trans _ _ _ _ _ (Hc _ _ _ E) (Hf a _ _ _ E')).
Qed.

Lemma writes_ldb lo hi p : writes lo hi (ldb p).
Proof. intros m a m'. rw /ldb /deref. case_match; [|done]. intros [= <- <-]. apply scribbled_refl. Qed.

Lemma writes_stb p v : writes p (p + 1) (stb p v).
Proof.
  intros m u m'. rw /stb. case_match eqn:E; [|done]. intros [= <- <-] a. destruct (decide (a = p)) as [->|Hne].
  - right. split_and!; [lia..|by rw E|]. exists (u8 v). rw lookup_insert_eq. split; [done|by apply wrap_range].
  - left. by rw lookup_insert_ne; [congruence|].
Qed.

Create HintDb writes.
#[export] Hint Resolve writes_ret writes_gets writes_ldb writes_diverge writes_fault : writes.

Section Writes.
Context `{Arch} `{CharType}.

Lemma writes_ldc lo hi p : writes lo hi (ldc p).
Proof. rw /ldc. apply writes_bind; auto with writes. Qed.
Hint Resolve writes_ldc : writes.

Lemma writes_memcpy d s n : writes d (d + Z.max 0 n) (memcpy d s n).
Proof.
  assert (∀ k d s, writes d (d + Z.of_nat k) (memcpy_loop k d s)) as Hl.
  { clear. intros k. induction k as [|k IH]; intros d s; cbn [memcpy_loop]; [apply writes_ret|].
    apply writes_bind; [apply writes_ldb|]. intros b. apply writes_bind; [|intros _]; eapply writes_mono; [apply writes_stb|lia|lia|apply IH|lia|lia]. }
  rw /memcpy. apply writes_bind; [|auto with writes]. eapply writes_mono; [apply Hl|lia|lia].
Qed.

Lemma writes_memset p v n : writes p (p + Z.max 0 n) (memset p v n).
Proof.
  assert (∀ k p v, writes p (p + Z.of_nat k) (memset_loop k p v)) as Hl.
  { clear. intros k. induction k as [|k IH]; intros p v; cbn [memset_loop]; [apply writes_ret|].
    apply writes_bind; [|intros _]; eapply writes_mono; [apply writes_stb|lia|lia|apply IH|lia|lia]. }
  rw /memset. apply writes_bind; [|auto with writes]. eapply writes_mono; [apply Hl|lia|lia].
Qed.

(** The loop of [strncpy] stops before [n] characters, where there is room for
    the terminator, or has written all [n]. *)
Lemma strncpy_loop_writes fuel : ∀ ch d s i n m x j m', strncpy_loop fuel ch d s i n m = Ret ((x, j), m') → i ≤ Z.max i n →
  scribbled d (d + Z.max 0 (n - i)) m m' ∧ x - d = j - i ∧ i ≤ j ≤ Z.max i n.
Proof.
  induction fuel as [|fuel IH]; intros ch d s i n m x j m'; cbn [strncpy_loop]; [done|].
  destruct (ctrue ch && (i <? n)) eqn:Ec; [|intros [= <- <- <-] ?; split; [apply scribbled_refl|lia]].
  apply andb_prop in Ec as [_ Hi%Z.ltb_lt]. rw /stc /mbind /M_bind. destruct (stb d ch m) as [[[] m1]| | |] eqn:E1; [|done..].
  destruct (ldc (s + 1) m1) as [[c m2]| | |] eqn:E2; [|done..]. intros E3 _.
  destruct (IH _ _ _ _ _ _ _ _ _ E3 ltac:(lia)) as (H1 & H2 & H3). split; [|lia].
  eapply scribbled_trans; [eapply scribbled_mono; [| |exact (writes_stb _ _ _ _ _ E1)]; lia|].
  eapply scribbled_trans; [exact (writes_ldc _ _ _ _ _ _ E2)|]. eapply scribbled_mono; [| |exact H1]; lia.
Qed.

Lemma writes_strncpy d s n : writes d (d + Z.max 0 n) (strncpy d s n).
Proof.
  rw /strncpy. apply writes_bind; [apply writes_gets|]. intros fuel. apply writes_bind; [apply writes_ldc|]. intros ch.
  intros m a m'. rw /mbind /M_bind. destruct (strncpy_loop fuel ch d s 0 n m) as [[[x j] m1]| | |] eqn:E1; [|done..].
  destruct (strncpy_loop_writes _ _ _ _ _ _ _ _ _ _ E1 ltac:(lia)) as (H1 & H2 & H3). rw Z.sub_0_r in H1.
  destruct (Z.ltb_spec j n); [|intros [= <- <-]; exact H1].
  destruct (stb x 0 m1) as [[[] m2]| | |] eqn:E2; [|done..]. intros [= <- <-].
  eapply scribbled_trans; [exact H1|]. eapply scribbled_mono; [| |exact (writes_stb _ _ _ _ _ E2)]; lia.
Qed.

Lemma writes_strlen lo hi s : writes lo hi (strlen s).
Proof.
  assert (∀ fuel s n, writes lo hi (strlen_loop fuel s n)) as Hl.
  { intros fuel. induction fuel; intros; cbn [strlen_loop]; [apply writes_diverge|]. apply writes_bind; [apply writes_ldc|].
    intros c. repeat case_match; auto with writes. }
  rw /strlen. apply writes_bind; [apply writes_gets|]. intros fuel. apply Hl.
Qed.

Lemma writes_stw p v : writes p (p + WORD) (stw p v).
Proof.
  assert (∀ l p, writes p (p + Z.of_nat (length l)) (st_bytes p l)) as Hl.
  { clear. intros l. induction l as [|b l IH]; intros p; cbn [st_bytes length]; [apply writes_ret|].
    apply writes_bind; [|intros _]; eapply writes_mono; [apply writes_stb|lia|lia|apply IH|lia|lia]. }
  rw /stw -(length_word_bytes (ulong v)). apply Hl.
Qed.


(** ** Messages keep their type *)

(** The buffer at [msg] holds bytes, its header is [w], and the rest of memory is
    that of [m0]. *)
Record at_msg (m0 : mem) (msg w : Z) (m : mem) : Prop := {
  am_apart : apart m0 m msg;
  am_buffer : buffer m msg;
  am_header : word_at m msg w
}.

(** What holds after a call that returns. *)
Definition post {A} (c : SM A) (Q : A → mem → Prop) (m : mem) : Prop := ∀ a m', c m = Ret (a, m') → Q a m'.

Lemma post_bind {A B} (c : SM A) (f : A → SM B) Q m : post c (λ a, post (f a) Q) m → post (c ≫= f) Q m.
Proof. rw /post /mbind /M_bind. intros Hc b m'. destruct (c m) as [[a m1]| | |]; [|done..]. by apply Hc. Qed.

Lemma post_ret {A} (a : A) (Q : A → mem → Prop) m : Q a m → post (mret a) Q m.
Proof. by intros HQ b m' [= <- <-]. Qed.

Lemma post_panic_if b (Q : unit → mem → Prop) m : (b = false → Q tt m) → post (panic_if b) Q m.
Proof. destruct b; [by intros _ ??|]. intros HQ. by apply post_ret, HQ. Qed.

Lemma post_mono {A} (c : SM A) (Q Q' : A → mem → Prop) m : post c Q m → (∀ a m', Q a m' → Q' a m') → post c Q' m.
Proof. intros Hc HQ a m' E. by apply HQ, Hc. Qed.

Lemma post_ldf msg f w (Q : Z → mem → Prop) m : word_at m msg w → Q (get_field f w) m → post (ldf msg f) Q m.
Proof. intros Hw HQ a m'. rw /ldf (bind_ldw _ _ _ _ Hw). by intros [= <- <-]. Qed.

(** Writing behind the header, inside the buffer. *)
Lemma post_inside {A} (c : SM A) lo hi m0 msg w (Q : A → mem → Prop) m : writes lo hi c → at_msg m0 msg w m →
  msg + WORD ≤ lo → hi ≤ msg + MAX_MSG_SIZE → (∀ a m', at_msg m0 msg w m' → Q a m') → post c Q m.
Proof.
  intros Hc [Hap [Ho Hb] [Hw Hu]] Hlo Hhi HQ a m' E. pose proof (Hc m a m' E) as Hs. apply HQ. pose proof WORD_pos as (HW & _). split; [|split|split; [|done]].
  - intros x Hx. destruct (Hs x) as [->|[? _]]; [by apply Hap|lia].
  - intros x Hx. destruct (Hs x) as [->|(_ & _ & b & -> & _)]; [by apply Ho|done].
  - intros x b Hx Hbx. destruct (Hs x) as [Ex|(_ & _ & b' & Ex & Hb')]; [apply (Hb x b Hx); congruence|]. assert (b = b') as -> by congruence. done.
  - eapply arr_ext; [|exact Hw]. intros x Hx. rw length_word_bytes in Hx. destruct (Hs x) as [->|[? _]]; [done|lia].
Qed.

Lemma post_stf m0 msg f w v (Q : unit → mem → Prop) m : at_msg m0 msg w m →
  (∀ m', at_msg m0 msg (set_field f w v) m' → Q tt m') → post (stf msg f v) Q m.
Proof.
  intros [Hap [Ho Hb] Hw] HQ a m'. rw (stf_run m msg f w v Hw Ho). intros [= <- <-]. apply HQ. pose proof WORD_pos as (HW & _). split; [|split|].
  - intros x Hx. rw putw_out; [rw /MAX_MSG_SIZE in Hx; lia|]. by apply Hap.
  - by apply putw_owned.
  - apply put_bytes_ok; [apply word_bytes_bytes|done].
  - apply putw_at, set_field_uint, Hw.
Qed.

Lemma post_param m0 msg w n v (Q : unit → mem → Prop) m : at_msg m0 msg w m → 0 ≤ n < 15 →
  (∀ m', at_msg m0 msg w m' → Q tt m') → post (stw (params msg n) v) Q m.
Proof.
  intros Hm Hn HQ. destruct (params_range msg n Hn) as [H1 H2]. pose proof WORD_pos as (HW & Hsz & ?).
  eapply (post_inside _ _ _ m0 msg w); [apply writes_stw|done|lia|rw /data /MAX_MSG_SIZE in H2 |- *; nia|]. intros [] m'. apply HQ.
Qed.

(** A message: its data words fit the buffer. *)
Definition msg_type (m0 : mem) (msg : Z) (m : mem) : Prop :=
  ∃ w, at_msg m0 msg w m ∧ get_field num_data_words w ≤ MAX_MSG_DATA_WORDS.

Lemma append_value_type m0 msg v m : msg_type m0 msg m → post (append_value msg v) (λ _, msg_type m0 msg) m.
Proof.
  intros (w & Hm & Hd). pose proof (get_field_range num_params w) as Hn. rw /append_value.
  apply post_bind. eapply post_ldf; [apply Hm|]. apply post_bind, post_panic_if. intros Hlt%Z.leb_gt. change MAX_MSG_PARAMS with 15 in Hlt.
  apply post_bind. eapply post_ldf; [apply Hm|]. apply post_bind. eapply post_param; [exact Hm|lia|]. intros m1 H1.
  eapply post_stf; [exact H1|]. intros m2 H2. exists (set_field num_params w (get_field num_params w + 1)). split; [done|].
  rw get_set_other //. apply Hm.
Qed.

(** The header of a block is written after its data. *)
Lemma append_new_type m0 msg nw w m : at_msg m0 msg w m → get_field num_params w < 15 → 0 ≤ nw →
  get_field num_data_words w + nw ≤ MAX_MSG_DATA_WORDS → post (append_new msg nw) (λ _, msg_type m0 msg) m.
Proof.
  intros Hm Hlt Hnw Hd. pose proof (get_field_range num_params w) as Hn. pose proof (get_field_range num_data_words w) as Hr. pose proof WORD_pos as (_ & _ & HM).
  assert (uint ARCH_WIDTH w) as Hu by apply Hm.
  rw /append_new /append_block. apply post_bind. eapply post_ldf; [apply Hm|]. apply post_bind. eapply post_ldf; [apply Hm|].
  apply post_bind. eapply post_param; [exact Hm|lia|]. intros m1 H1. apply post_bind. eapply post_ldf; [apply H1|]. apply post_bind. eapply post_ldf; [apply H1|].
  apply post_bind. eapply post_stf; [exact H1|]. intros m2 H2. set (w2 := set_field param_type_map w _) in *.
  assert (uint ARCH_WIDTH w2) as Hu2 by by apply set_field_uint. assert (∀ g, g ≠ param_type_map → get_field g w2 = get_field g w) as E2 by (intros g Hg; apply get_set_other; [done|congruence]).
  apply post_bind. eapply post_ldf; [apply H2|]. apply post_bind. eapply post_stf; [exact H2|]. intros m3 H3. rw (E2 num_data_words) // in H3 *. set (w3 := set_field num_data_words w2 _) in *.
  apply post_bind. eapply post_ldf; [apply H3|]. eapply post_stf; [exact H3|]. intros m4 H4. eexists. split; [exact H4|].
  rw get_set_other //; [by apply set_field_uint|]. rw /w3 get_set_same //. change (2 ^ f_width num_data_words) with (2 ^ 12). lia.
Qed.

(** Where a block of [n] bytes goes if its words fit. *)
Lemma block_room msg w n : 0 ≤ n → get_field num_data_words w + nwords n ≤ MAX_MSG_DATA_WORDS →
  msg + WORD ≤ data msg (get_field num_data_words w) ∧ data msg (get_field num_data_words w) + n ≤ msg + MAX_MSG_SIZE.
Proof.
  intros Hn Hd. pose proof (get_field_range num_data_words w). pose proof (nwords_spec n Hn) as [Hs Hs0]. pose proof WORD_pos as (HW & _).
  destruct (data_range msg (get_field num_data_words w) n) as [H3 H4]; [lia|nia|]. split; [|done]. rw /data in H3 |- *. nia.
Qed.

Lemma fits_words w n : 0 ≤ n < 2 ^ 32 - 8 → (MAX_MSG_DATA_WORDS <? ulong (get_field num_data_words w + data_words n)) = false →
  data_words n = nwords n ∧ get_field num_data_words w + nwords n ≤ MAX_MSG_DATA_WORDS.
Proof.
  intros Hn Hlt%Z.ltb_ge. rw data_words_value // in Hlt |- *. split; [done|]. pose proof (get_field_range num_data_words w) as Hr.
  change (2 ^ f_width num_data_words) with 4096 in Hr. pose proof (nwords_spec n (proj1 Hn)) as [Hs Hs0]. pose proof WORD_pos as (HW & _).
  assert (ulong (get_field num_data_words w + nwords n) = get_field num_data_words w + nwords n) as Eu; [|by rw Eu in Hlt].
  apply wrap_small, small_uint. destruct WORD_cases as [[_ E]|[_ E]]; rw E in Hs; lia.
Qed.

(** The end of [msg_append_data]. *)
Lemma block_type m0 msg w n dat m : at_msg m0 msg w m → get_field num_params w < 15 → 0 ≤ n →
  get_field num_data_words w + nwords n ≤ MAX_MSG_DATA_WORDS →
  post ((if ctrue dat then memcpy (data msg (get_field num_data_words w)) dat n;; mret tt else mret tt);;
        append_new msg (nwords n);; mret (data msg (get_field num_data_words w))) (λ _, msg_type m0 msg) m.
Proof.
  intros Hm Hlt Hn Hfit. destruct (block_room msg w n Hn Hfit) as [Hlo Hhi]. apply post_bind. apply (post_mono _ (λ _, at_msg m0 msg w)).
  - destruct (ctrue dat); [|by apply post_ret]. apply post_bind. eapply (post_inside _ _ _ m0 msg w); [apply writes_memcpy|done|lia|lia|].
    intros u m1 H1. by apply post_ret.
  - intros _ m1 H1. apply post_bind. eapply post_mono; [apply (append_new_type m0 msg (nwords n) w)|]; [done|done|by apply nwords_spec|done|].
    intros u m2 H2. by apply post_ret.
Qed.

(** The length of a string is an [int]. *)
Lemma strlen_post s m : post (strlen s) (λ k m', 0 ≤ k < 2 ^ 31 ∧ m' = m) m.
Proof.
  assert (∀ fuel s n, 0 ≤ n < 2 ^ 31 → post (strlen_loop fuel s n) (λ k m', 0 ≤ k < 2 ^ 31 ∧ m' = m) m) as Hl; [|by apply Hl].
  intros fuel. induction fuel as [|fuel IH]; intros p n Hn; cbn [strlen_loop]; [by intros ??|]. apply post_bind.
  intros c m' Ec. assert (m' = m) as ->.
  { rw /ldc /ldb /deref /mbind /M_bind in Ec. destruct (m !! p); [|done]. by injection Ec as _ <-. }
  destruct (ctrue c); [|apply post_ret; rw ulong_small; [lia|done]]. destruct (Z.eqb_spec n (2 ^ 31 - 1)); [by intros ??|]. apply IH. lia.
Qed.

Lemma ulong_small_32 n : 0 ≤ n < 2 ^ 32 → ulong n = n.
Proof. intros Hn. by apply wrap_small, small_uint. Qed.

Lemma append_data_type m0 msg dat n m : 0 ≤ n < 2 ^ 31 → msg_type m0 msg m → post (msg_append_data msg dat n) (λ _, msg_type m0 msg) m.
Proof.
  intros Hn (w & Hm & Hd). rw /msg_append_data. apply post_bind. eapply post_ldf; [apply Hm|]. apply post_bind, post_panic_if. intros Hlt%Z.leb_gt.
  apply post_bind. eapply post_ldf; [apply Hm|]. apply post_bind, post_panic_if. intros Hfit. apply fits_words in Hfit as [Ed Hfit]; [|lia].
  apply post_bind. eapply post_ldf; [apply Hm|]. rw Ed. apply (block_type m0 msg w n dat); [done|exact Hlt|lia|done].
Qed.

Lemma try_append_data_type m0 msg dat n m : 0 ≤ n < 2 ^ 31 → msg_type m0 msg m → post (msg_try_append_data msg dat n) (λ _, msg_type m0 msg) m.
Proof.
  intros Hn (w & Hm & Hd). assert (msg_type m0 msg m) as Ht by by exists w.
  rw /msg_try_append_data. apply post_bind. eapply post_ldf; [apply Hm|]. destruct (Z.leb_spec MAX_MSG_PARAMS (get_field num_params w)) as [|Hlt]; [by apply post_ret|].
  apply post_bind. eapply post_ldf; [apply Hm|]. destruct (_ <? _) eqn:Hfit; [by apply post_ret|]. apply fits_words in Hfit as [Ed Hfit]; [|lia].
  apply post_bind. eapply post_ldf; [apply Hm|]. rw Ed. apply (block_type m0 msg w n dat); [done|exact Hlt|lia|done].
Qed.

Lemma append_str_type m0 msg str n m : 0 ≤ n < 2 ^ 31 → msg_type m0 msg m → post (msg_append_str msg str n) (λ _, msg_type m0 msg) m.
Proof.
  intros Hn (w & Hm & Hd). pose proof (get_field_range num_params w) as Hr. assert (uint ARCH_WIDTH w) as Hu by apply Hm.
  rw /msg_append_str. apply post_bind. eapply post_ldf; [apply Hm|]. apply post_bind, post_panic_if. intros Hlt%Z.leb_gt. change MAX_MSG_PARAMS with 15 in Hlt.
  destruct (negb (ctrue str) && negb (ctrue n)).
  - apply post_bind. eapply post_ldf; [apply Hm|]. apply post_bind. eapply post_param; [exact Hm|lia|]. intros m1 H1.
    apply post_bind. eapply post_ldf; [apply H1|]. apply post_bind. eapply post_ldf; [apply H1|]. apply post_bind. eapply post_stf; [exact H1|]. intros m2 H2.
    apply post_bind. eapply post_ldf; [apply H2|]. apply post_bind. eapply post_stf; [exact H2|]. intros m3 H3. apply post_ret.
    eexists. split; [exact H3|]. rw !get_set_other //. by apply set_field_uint.
  - apply post_bind. apply (post_mono _ (λ k m', 0 ≤ k < 2 ^ 31 ∧ m' = m)).
    { destruct (negb (ctrue n)); [apply strlen_post|by apply post_ret]. }
    intros k m' [Hk ->]. rw (ulong_small_32 (k + 1)); [lia|]. apply post_bind. eapply post_ldf; [apply Hm|]. apply post_bind, post_panic_if. intros Hfit.
    apply fits_words in Hfit as [Ed Hfit]; [|lia]. apply post_bind. eapply post_ldf; [apply Hm|]. rw Ed.
    destruct (block_room msg w (k + 1) ltac:(lia) Hfit) as [Hlo Hhi]. apply post_bind. apply (post_mono _ (λ _, at_msg m0 msg w)).
    + destruct (ctrue str); [|by apply post_ret]. apply post_bind. eapply (post_inside _ _ _ m0 msg w); [apply writes_strncpy|done|lia|lia|]. intros _ m1 H1.
      eapply (post_inside _ _ _ m0 msg w); [apply writes_stb|done|lia|lia|]. by intros _ m2.
    + intros _ m1 H1. apply post_bind. eapply post_mono; [apply (append_new_type m0 msg (nwords (k + 1)) w)|]; [done|done|apply nwords_spec; lia|done|].
      intros u m2 H2. by apply post_ret.
Qed.

Lemma check_index_post msg idx b w m : word_at m msg w → post (check_index msg idx b) (λ _ m', m' = m ∧ 0 ≤ idx < get_field num_params w) m.
Proof.
  intros Hw. rw /check_index. apply post_bind. eapply post_ldf; [exact Hw|]. apply post_bind, post_panic_if. intros Hlt%Z.leb_gt.
  apply post_bind. eapply post_ldf; [exact Hw|]. apply post_bind. intros x m' Ex. rw /lift_outcome /shl_chk in Ex.
  destruct (Z.leb_spec 0 idx); [|done]. assert (m' = m) as -> by (destruct (idx <? 32); [by injection Ex as _ <-|done]).
  apply post_panic_if. intros _. split; [done|lia].
Qed.

Lemma set_param_type m0 msg idx v m : msg_type m0 msg m → post (msg_set_param msg idx v) (λ _, msg_type m0 msg) m.
Proof.
  intros (w & Hm & Hd). pose proof (get_field_range num_params w) as Hr. change (2 ^ f_width num_params) with 16 in Hr.
  rw /msg_set_param. apply post_bind. eapply post_mono; [apply (check_index_post msg idx false w); apply Hm|]. intros u m' [-> Hi].
  eapply post_param; [exact Hm|lia|]. intros m' Hm'. by exists w.
Qed.

(** *** The bytes of a buffer are words *)

Lemma le_bytes_val l : bytes l → le_bytes (length l) (le_val l) = l ∧ 0 ≤ le_val l < 256 ^ Z.of_nat (length l).
Proof.
  induction l as [|b l IH]; [done|]. intros [Hb Hl]%Forall_cons. destruct (IH Hl) as [E Hr]. cbn [length le_bytes le_val foldr]. rw -/(le_val l).
  rw /byte /uint in Hb. change (2 ^ 8) with 256 in Hb. rw Nat2Z.inj_succ Z.pow_succ_r; [lia|].
  assert ((b + 256 * le_val l) mod 256 = b ∧ (b + 256 * le_val l) / 256 = le_val l) as [-> ->].
  { rw Z.mul_comm. split; [rw Z_mod_plus_full; apply Z.mod_small; lia|]. rw Z_div_plus_full // Z.div_small; lia. }
  split; [by rw E|lia].
Qed.

Lemma buffer_word m msg p : buffer m msg → msg ≤ p → p + WORD ≤ msg + MAX_MSG_SIZE → ∃ v, word_at m p v.
Proof.
  intros [Ho Hb] H1 H2. pose proof WORD_pos as (HW & _). destruct (owned_arr m p WORD) as (l & Hl & Ha & Hbs); [lia|eapply owned_sub; [exact Ho|lia|lia]|intros a b Hr; apply Hb; lia|].
  destruct (le_bytes_val (endian l) (endian_bytes l Hbs)) as [E Hr]. rw length_endian in E Hr. exists (bytes_word l). split.
  - rw /word_bytes /bytes_word -Hl Nat2Z.id E endian_endian. done.
  - rw /bytes_word. rw Hl in Hr. destruct WORD_cases as [[Ew E4]|[Ew E4]]; rw E4 in Hr; rw Ew; exact Hr.
Qed.

(** A buffer that holds a message. *)
Definition message (m : mem) (msg : Z) : Prop :=
  buffer m msg ∧ ∃ w, word_at m msg w ∧ get_field num_data_words w ≤ MAX_MSG_DATA_WORDS.

Lemma message_type m msg : message m msg → msg_type m msg m.
Proof. intros [Hb (w & Hw & Hd)]. exists w. by split. Qed.

Lemma type_message m0 m msg : msg_type m0 msg m → message m msg ∧ apart m0 m msg.
Proof. intros (w & [Hap Hb Hw] & Hd). split; [|done]. split; [done|]. by exists w. Qed.

(** A call that returns has made a message of a message, and has written to its
    buffer only. *)
Definition keeps_message {A} (msg : Z) (c : SM A) : Prop := ∀ m a m', message m msg → c m = Ret (a, m') → message m' msg ∧ apart m m' msg.

Lemma keeps_message_post {A} msg (c : SM A) : (∀ m0 m, msg_type m0 msg m → post c (λ _, msg_type m0 msg) m) → keeps_message msg c.
Proof. intros Hc m a m' Hm E. apply type_message. exact (Hc m m (message_type _ _ Hm) a m' E). Qed.

Lemma copy_msg_message m dst src pid tid : message m src → buffer m dst → sep dst src MAX_MSG_SIZE → uint ARCH_WIDTH pid → uint ARCH_WIDTH tid →
  ∃ m', copy_msg dst src pid tid m = Ret (tt, m') ∧ message m' dst ∧ apart m m' dst.
Proof.
  intros [[Ho Hb] (w & Hw & Hd)] [Hod Hbd] Hsep Hpid Htid. pose proof WORD_pos as (HW & Hsz & HM). pose proof (get_field_range num_params w) as Hn.
  pose proof (get_field_range num_data_words w) as Hd0. change (2 ^ f_width num_params) with 16 in Hn.
  destruct (choose_list (λ i u, word_at m (params src (Z.of_nat i)) u) (Z.to_nat (get_field num_params w))) as (us & Hlu & Hus).
  { intros i Hi. apply (buffer_word m src); [done|rw /params; nia|]. destruct (params_range src (Z.of_nat i) ltac:(lia)) as [_ Hp]. rw /data /MAX_MSG_SIZE in Hp |- *. nia. }
  destruct (owned_arr m (data src 0) (get_field num_data_words w * WORD)) as (ds & Hlen & Hds & Hbs); [nia| | |].
  { eapply owned_sub; [exact Ho|rw /data; lia|rw /data /MAX_MSG_SIZE; nia]. }
  { intros a b Ha. apply Hb. rw /data /MAX_MSG_SIZE in Ha |- *. nia. }
  exists (copied m dst w pid tid us ds). assert (18 * WORD + Z.of_nat (length ds) ≤ 2048) as Hk by nia. split_and!.
  - eapply (copy_msg_run m dst src w pid tid us ds); [done| | |done|done|done|lia|done|done|done|done].
    + rw /sep /MAX_MSG_SIZE in Hsep |- *. lia.
    + apply (owned_sub m dst MAX_MSG_SIZE); [exact Hod|lia|]. rw /MAX_MSG_SIZE. lia.
  - split; [split|].
    + by do 2 apply put_owned.
    + apply put_bytes_ok; [done|]. apply put_bytes_ok; [|done]. rw /words_bytes /bytes. apply Forall_bind, Forall_true. intros x. apply word_bytes_bytes.
    + exists w. split; [|done]. pose proof (copied_header m dst w pid tid us ds 0 w eq_refl (proj2 Hw) ltac:(lia)) as Hh. by rw Z.mul_0_l Z.add_0_r in Hh.
  - intros a Ha. apply copied_out; [lia|]. rw /MAX_MSG_SIZE in Ha. lia.
Qed.

End Writes.

(** ** Termination *)

Definition runs {A} (c : SM A) (m : mem) : Prop := c m ≠ Diverge.

Lemma runs_bind {A B} (c : SM A) (f : A → SM B) m : runs c m → (∀ a m', c m = Ret (a, m') → runs (f a) m') → runs (c ≫= f) m.
Proof. rw /runs /mbind /M_bind. destruct (c m) as [[a m']| | |]; [|done..]. intros _ Hf. by apply Hf. Qed.

Lemma runs_ret {A} (a : A) m : runs (mret a) m.
Proof. done. Qed.

Lemma runs_fault {A} m : runs (A := A) fault m.
Proof. done. Qed.

Lemma runs_gets {A B} (g : mem → A) (f : A → SM B) m : runs (f (g m)) m → runs (gets g ≫= f) m.
Proof. done. Qed.

Lemma runs_ldb {B} (f : Z → SM B) p m : (∀ b, m !! p = Some b → runs (f b) m) → runs (ldb p ≫= f) m.
Proof. intros Hf. rw /runs /mbind /M_bind /ldb /deref. destruct (m !! p) as [b|] eqn:E; [by apply Hf|done]. Qed.

Lemma runs_stb {B} (f : unit → SM B) p v m : (∀ b, m !! p = Some b → runs (f tt) (<[p := u8 v]> m)) → runs (stb p v ≫= f) m.
Proof. intros Hf. rw /runs /mbind /M_bind /stb. destruct (m !! p) as [b|] eqn:E; [by apply (Hf b)|done]. Qed.

Lemma runs_stb_last p v m : runs (stb p v) m.
Proof. rw /runs /stb. by case_match. Qed.

(** The addresses from [s0] up to [s] have been read, and the fuel left exceeds
    the mapped addresses that may follow. *)
Definition scanned (m : mem) (s0 s : Z) (fuel : nat) : Prop :=
  s0 ≤ s ∧ owned m s0 (s - s0) ∧ Z.of_nat (size m) < Z.of_nat fuel + (s - s0).

Lemma scanned_start m s : scanned m s s (scan_fuel m).
Proof. split_and!; [lia|intros a Ha; lia|rw /scan_fuel; lia]. Qed.

Lemma scanned_fuel m s0 s : ¬ scanned m s0 s 0.
Proof. intros (Hs & Ho & Hf). replace (s - s0) with (Z.of_nat (Z.to_nat (s - s0))) in Ho by lia. apply owned_size in Ho. lia. Qed.

Lemma scanned_step m s0 s fuel b : m !! s = Some b → scanned m s0 s (S fuel) → scanned m s0 (s + 1) fuel.
Proof.
  intros Hb (Hs & Ho & Hf). split_and!; [lia| |lia]. intros a Ha. destruct (decide (a = s)) as [->|]; [by exists b|]. apply Ho. lia.
Qed.

Lemma scanned_insert m s0 s fuel p v b : m !! p = Some b → scanned m s0 s fuel → scanned (<[p := v]> m) s0 s fuel.
Proof.
  intros Hb (Hs & Ho & Hf). split_and!; [done|by apply owned_insert|]. rw map_size_insert_Some //.
Qed.

(** Code that changes nothing. *)
Definition reads {A} (c : SM A) : Prop := ∀ m a m', c m = Ret (a, m') → m' = m.

Lemma reads_ret {A} (a : A) : reads (mret a).
Proof. by intros m b m' [= <- <-]. Qed.

Lemma reads_gets {A} (f : mem → A) : reads (gets f).
Proof. by intros m b m' [= <- <-]. Qed.

Lemma reads_bind {A B} (c : SM A) (f : A → SM B) : reads c → (∀ a, reads (f a)) → reads (c ≫= f).
Proof.
  intros Hc Hf m b m'. rw /mbind /M_bind. destruct (c m) as [[a m1]| | |] eqn:E; [|done..]. apply Hc in E as ->. apply Hf.
Qed.

Lemma reads_fault {A} : reads (A := A) fault.
Proof. done. Qed.

Lemma reads_diverge {A} : reads (A := A) diverge.
Proof. done. Qed.

Lemma reads_ldb p : reads (ldb p).
Proof. intros m a m'. rw /ldb /deref. case_match; [|done]. by intros [= <- <-]. Qed.

Create HintDb reads.
#[export] Hint Resolve reads_ret reads_gets reads_fault reads_diverge reads_ldb : reads.
Ltac readonly := repeat first [ progress intros | solve [auto 2 with reads] | apply reads_bind | case_match ].

Section Halts.
Context `{Arch} `{CharType}.

Lemma reads_ldc p : reads (ldc p).
Proof. rw /ldc. readonly. Qed.
Hint Resolve reads_ldc : reads.

Lemma reads_strpbrk_inner fuel x s : reads (strpbrk_inner fuel x s).
Proof. revert s. induction fuel; intros; cbn [strpbrk_inner]; readonly. Qed.

Lemma reads_strlen s : reads (strlen s).
Proof.
  assert (∀ fuel s n, reads (strlen_loop fuel s n)) by (intros fuel; induction fuel; intros; cbn [strlen_loop]; readonly). rw /strlen. readonly.
Qed.

Lemma reads_memcmp p q n : reads (memcmp p q n).
Proof.
  rw /memcmp. generalize (Z.to_nat n) as k. intros k. revert p q. induction k; intros; cbn [memcmp_loop]; readonly.
Qed.
Hint Resolve reads_strlen reads_memcmp : reads.

Lemma reads_matches_at s f q n : reads (matches_at s f q n).
Proof. rw /matches_at. readonly. Qed.

Lemma runs_ldc {B} (f : Z → SM B) p m : (∀ b, m !! p = Some b → runs (f (to_char b)) m) → runs (ldc p ≫= f) m.
Proof. intros Hf. rw /runs /mbind /M_bind /ldc /mbind /M_bind /ldb /deref. destruct (m !! p) as [b|] eqn:E; [by apply Hf|done]. Qed.

Lemma strlen_loop_halts fuel : ∀ m s0 s n, scanned m s0 s fuel → runs (strlen_loop fuel s n) m.
Proof.
  induction fuel as [|fuel IH]; intros m s0 s n Hs; [by apply scanned_fuel in Hs|]. cbn [strlen_loop]. apply runs_ldc. intros b Hb.
  case_match; [|done]. case_match; [done|]. eapply IH, scanned_step; eassumption.
Qed.

Lemma strlen_halts s m : runs (strlen s) m.
Proof. apply runs_gets. exact (strlen_loop_halts _ _ _ _ _ (scanned_start m s)). Qed.

Lemma strcpy_loop_halts fuel : ∀ m s0 s d ch, scanned m s0 (s + 1) fuel → runs (strcpy_loop fuel ch d s) m.
Proof.
  induction fuel as [|fuel IH]; intros m s0 s d ch Hs; [by apply scanned_fuel in Hs|]. cbn [strcpy_loop]. case_match; [|done].
  apply runs_stb. intros x Hx. apply runs_ldc. intros b Hb. eapply IH, scanned_step; [exact Hb|]. exact (scanned_insert _ _ _ _ _ _ _ Hx Hs).
Qed.

Lemma strncpy_loop_halts fuel n : ∀ m s0 s d ch i, scanned m s0 (s + 1) fuel → runs (strncpy_loop fuel ch d s i n) m.
Proof.
  induction fuel as [|fuel IH]; intros m s0 s d ch i Hs; [by apply scanned_fuel in Hs|]. cbn [strncpy_loop]. case_match; [|done].
  apply runs_stb. intros x Hx. apply runs_ldc. intros b Hb. eapply IH, scanned_step; [exact Hb|]. exact (scanned_insert _ _ _ _ _ _ _ Hx Hs).
Qed.

(** The scan has begun with the first character read. *)
Lemma scanned_first m s b : m !! s = Some b → scanned m s (s + 1) (scan_fuel m).
Proof. intros Hb. pose proof (scanned_start m s) as (_ & Ho & Hf). split_and!; [lia| |lia]. intros a Ha. replace a with s by lia. by exists b. Qed.

Lemma strcpy_halts d s m : runs (strcpy d s) m.
Proof.
  apply runs_gets, runs_ldc. intros b Hb. apply runs_bind; [exact (strcpy_loop_halts _ _ _ _ _ _ (scanned_first m s b Hb))|].
  intros a m' _. by apply runs_stb.
Qed.

Lemma strncpy_halts d s n m : runs (strncpy d s n) m.
Proof.
  apply runs_gets, runs_ldc. intros b Hb. apply runs_bind; [exact (strncpy_loop_halts _ _ _ _ _ _ _ _ (scanned_first m s b Hb))|].
  intros [a i] m' _. apply runs_bind; [case_match; [apply runs_stb_last|done]|done].
Qed.

Lemma runs_more {B} (f : bool → SM B) p q m : (∀ c b, m !! p = Some c → runs (f b) m) → runs (more p q ≫= f) m.
Proof.
  intros Hf. apply runs_bind; [apply runs_ldc; intros; case_match; [done|by apply runs_ldc]|]. intros b m'. rw /more /mbind /M_bind /ldc /mbind /M_bind /ldb /deref.
  destruct (m !! p) as [c|] eqn:E; [|done]. cbn. case_match; [intros [= <- <-]; by apply (Hf c)|].
  destruct (m !! q) as [c'|]; [|done]. intros [= <- <-]. by apply (Hf c).
Qed.

Lemma strcmp_halts p q m : runs (strcmp p q) m.
Proof.
  assert (∀ fuel s0 s1 s2, scanned m s0 s1 fuel → runs (strcmp_loop fuel s1 s2) m) as Hl.
  { intros fuel. induction fuel as [|fuel IH]; intros s0 s1 s2 Hs; [by apply scanned_fuel in Hs|]. cbn [strcmp_loop]. apply runs_more. intros c b Hc.
    case_match; [|done]. apply runs_ldc. intros b1 _. apply runs_ldc. intros b2 _. case_match; [done|]. eapply IH, scanned_step; eassumption. }
  rw /strcmp. case_match; [done|]. apply runs_gets. exact (Hl _ _ _ _ (scanned_start m p)).
Qed.

Lemma strncmp_halts p q n m : runs (strncmp p q n) m.
Proof.
  rw /strncmp. case_match; [done|]. generalize (Z.to_nat n) as k. intros k. generalize q, p. clear. intros q p. revert q p. induction k as [|k IH]; intros q p; cbn [strncmp_loop]; [done|].
  apply runs_more. intros c b _. case_match; [|done]. apply runs_ldc. intros b1 _. apply runs_ldc. intros b2 _. case_match; [done|apply IH].
Qed.

Lemma strchr_halts p c m : runs (strchr p c) m.
Proof.
  assert (∀ fuel s0 s, scanned m s0 s fuel → runs (strchr_loop fuel s c) m) as Hl.
  { intros fuel. induction fuel as [|fuel IH]; intros s0 s Hs; [by apply scanned_fuel in Hs|]. cbn [strchr_loop]. apply runs_ldc. intros b Hb.
    case_match; [|done]. case_match; [done|]. eapply IH, scanned_step; eassumption. }
  rw /strchr. case_match; [done|]. apply runs_gets. exact (Hl _ _ _ (scanned_start m p)).
Qed.

Lemma strpbrk_halts p q m : runs (strpbrk p q) m.
Proof.
  assert (∀ fuel x s0 s, scanned m s0 s fuel → runs (strpbrk_inner fuel x s) m) as Hi.
  { intros fuel. induction fuel as [|fuel IH]; intros x s0 s Hs; [by apply scanned_fuel in Hs|]. cbn [strpbrk_inner]. apply runs_ldc. intros b Hb.
    case_match; [|done]. apply runs_ldc. intros b' _. case_match; [done|]. eapply IH, scanned_step; eassumption. }
  assert (∀ fuel s0 s, scanned m s0 s fuel → runs (strpbrk_loop fuel s q) m) as Hl.
  { intros fuel. induction fuel as [|fuel IH]; intros s0 s Hs; [by apply scanned_fuel in Hs|]. cbn [strpbrk_loop]. apply runs_ldc. intros b Hb.
    case_match; [|done]. apply runs_gets, runs_bind; [exact (Hi _ _ _ _ (scanned_start m q))|]. intros r m' E. case_match; [done|].
    apply reads_strpbrk_inner in E as ->. eapply IH, scanned_step; eassumption. }
  rw /strpbrk. case_match; [done|]. apply runs_gets. exact (Hl _ _ _ (scanned_start m p)).
Qed.

Lemma memcmp_halts p q n m : runs (memcmp p q n) m.
Proof.
  rw /memcmp. generalize (Z.to_nat n) as k. intros k. revert p q. induction k as [|k IH]; intros p q; cbn [memcmp_loop]; [done|].
  apply runs_ldb. intros b1 _. apply runs_ldb. intros b2 _. case_match; [done|]. case_match; [done|apply IH].
Qed.

Lemma matches_at_halts s f q n m : runs (matches_at s f q n) m.
Proof. apply runs_ldc. intros b _. case_match; [|done]. apply runs_bind; [apply memcmp_halts|done]. Qed.

Lemma strstr_loop_halts m q f n fuel : ∀ s0 s, scanned m s0 s fuel → runs (strstr_loop fuel s f q n) m.
Proof.
  induction fuel as [|fuel IH]; intros s0 s Hs; [by apply scanned_fuel in Hs|]. cbn [strstr_loop]. apply runs_ldc. intros b Hb. case_match; [|done].
  apply runs_bind; [apply strlen_halts|]. intros r m' ->%reads_strlen. case_match; [done|].
  apply runs_bind; [apply matches_at_halts|]. intros x m' ->%reads_matches_at. case_match; [done|]. eapply IH, scanned_step; eassumption.
Qed.

Lemma strstr_halts p q m : runs (strstr p q) m.
Proof.
  rw /strstr. case_match; [done|]. apply runs_ldc. intros b _. case_match; [done|]. apply runs_bind; [apply strlen_halts|]. intros n m' ->%reads_strlen.
  apply runs_gets, runs_ldc. intros c _. exact (strstr_loop_halts m q _ _ _ _ _ (scanned_start m p)).
Qed.

Lemma memstr_halts p q n m : runs (memstr p q n) m.
Proof.
  rw /memstr. case_match; [done|]. apply runs_ldc. intros b _. case_match; [done|]. apply runs_bind; [apply strlen_halts|]. intros l m' ->%reads_strlen.
  case_match; [done|]. apply runs_ldc. intros c _. generalize (Z.to_nat (ulong (n - (l - 1)))) as k. intros k. generalize p as s.
  induction k as [|k IH]; intros s; cbn [memstr_loop]; [done|]. apply runs_bind; [apply matches_at_halts|]. intros x m' ->%reads_matches_at. case_match; [done|apply IH].
Qed.

Lemma stou64_halts p base m : runs (stou64 p base) m.
Proof.
  assert (∀ b fuel s0 s ch v, scanned m s0 (s + 1) fuel → runs (stou64_loop fuel s b ch v) m) as Hl.
  { intros bs fuel. induction fuel as [|fuel IH]; intros s0 s ch v Hs; [by apply scanned_fuel in Hs|]. cbn [stou64_loop]. case_match; [|done].
    apply runs_ldc. intros b Hb. eapply IH, scanned_step; eassumption. }
  rw /stou64. case_match; [done|]. apply runs_ldc. intros b _. case_match; [done|]. apply runs_bind.
  { case_match; [|done]. apply runs_ldc. intros c _. case_match; [by apply runs_ldc|done]. }
  intros hex m' E. assert (m' = m) as ->.
  { revert E. case_match; [|by intros [= _ <-]]. rw /hex_prefix. intros E. assert (∀ q, reads (hex_prefix q)) as Hr by (intros; rw /hex_prefix; readonly). exact (Hr _ _ _ _ E). }
  apply runs_gets, runs_ldc. intros c Hc. apply runs_bind; [exact (Hl _ _ _ _ _ _ (scanned_first m _ c Hc))|done].
Qed.

Lemma memcpy_halts p q n m : runs (memcpy p q n) m.
Proof.
  rw /memcpy. apply runs_bind; [|done]. generalize (Z.to_nat n) as k. intros k. revert p q m. induction k as [|k IH]; intros p q m; cbn [memcpy_loop]; [done|].
  apply runs_ldb. intros b _. apply runs_stb. intros c _. apply IH.
Qed.

Lemma memset_halts p v n m : runs (memset p v n) m.
Proof.
  rw /memset. apply runs_bind; [|done]. generalize (u8 v) as x. generalize (Z.to_nat n) as k. intros k x. revert p m. induction k as [|k IH]; intros p m; cbn [memset_loop]; [done|].
  apply runs_stb. intros c _. apply IH.
Qed.

Lemma memchr_halts p c n m : runs (memchr p c n) m.
Proof.
  rw /memchr. case_match; [done|]. generalize p as s. generalize (Z.to_nat n) as k. intros k.
  induction k as [|k IH]; intros s; cbn [memchr_loop]; [done|]. apply runs_ldc. intros b _. case_match; [done|apply IH].
Qed.

(** C20. No call of the string library runs forever: whatever the memory holds,
    whether the strings are terminated or not and wherever the pointers point,
    every function returns or faults within as many steps as there are mapped
    bytes. *)
Theorem string_functions_halt p q n c base m :
  runs (strcpy p q) m ∧ runs (strncpy p q n) m ∧ runs (strcmp p q) m ∧ runs (strncmp p q n) m ∧ runs (strlen p) m ∧
  runs (strchr p c) m ∧ runs (strpbrk p q) m ∧ runs (strstr p q) m ∧ runs (memstr p q n) m ∧ runs (memcmp p q n) m ∧
  runs (memcpy p q n) m ∧ runs (memset p c n) m ∧ runs (memzero p n) m ∧ runs (memchr p c n) m ∧
  runs (stou64 p base) m ∧ runs (stou32 p base) m ∧ runs (stoul p base) m ∧ runs (stoi p base) m ∧ runs (atoi p) m.
Proof.
  split_and!; try (apply runs_bind; [apply stou64_halts|done]); [apply strcpy_halts|apply strncpy_halts|apply strcmp_halts|apply strncmp_halts|apply strlen_halts|apply strchr_halts|
    apply strpbrk_halts|apply strstr_halts|apply memstr_halts|apply memcmp_halts|apply memcpy_halts|apply memset_halts|apply memset_halts|apply memchr_halts|apply stou64_halts].
Qed.
End Halts.

(** ** Witness *)

