(* ===== verification/Devtree.v ===== *)
(** The device tree: construction, traversal, search and the reading of
    properties, [src/src/libk/devtree/devtree.c], [node.c] and [prop.c], on the
    structures of [src/src/common/include/devtree.h].

    The state is the byte memory and the static variables of [devtree.c].
    References inside the tree are offsets from its head, kept in 32-bit signed
    fields; offset 0 stands for NULL.  The address of each string constant is a
    parameter ([lit]).  The macro [DEVTREE_OFFSET] evaluates its argument twice,
    which the model does too.  Names are shorter than 2^31 characters, so lengths
    fit the type int.  Arguments that are tested against NULL and are
    passed as NULL somewhere are of type [option]. *)

From stdpp Require Import base list gmap.
From Stdlib Require Import ZArith Lia String Ascii.
From Corelib Require Import ssreflect.
From S2P Require Import Prelude Bits Str StrSpec MemWords.

(** The characters of a string constant, and where the constant is stored. *)
Definition chars (s : string) : list Z := (λ a, Z.of_nat (nat_of_ascii a)) <$> list_ascii_of_string s.
Class Literals := { lit : list Z → Z }.
Definition chars_ranges : list Z := chars "ranges".

Record dt := mk_dt {
  dt_mem : mem;
  dt_buf : Z;
  string_offset : Z;
  struct_offset : Z;
  string_size : Z;
  struct_size : Z;
  remain_size : Z;
  dt_head : Z;
  dt_strs : Z
}.

Definition DT := M dt.
Definition set_dt_mem (m : mem) (d : dt) : dt :=
  mk_dt m (dt_buf d) (string_offset d) (struct_offset d) (string_size d) (struct_size d) (remain_size d) (dt_head d) (dt_strs d).
Definition on_dt {A} : SM A → DT A := zoom dt_mem set_dt_mem.
Definition set_string (off size remain : Z) (d : dt) : dt :=
  mk_dt (dt_mem d) (dt_buf d) off (struct_offset d) size (struct_size d) remain (dt_head d) (dt_strs d).
Definition set_struct (off size remain : Z) (d : dt) : dt :=
  mk_dt (dt_mem d) (dt_buf d) (string_offset d) off (string_size d) size remain (dt_head d) (dt_strs d).

Definition DEVTREE_BUF_SIZE : Z := 128 * 1024.
Definition DEVTREE_DATA (head offset : Z) : Z := if ctrue offset then head + offset else 0.
Definition OFFSET_OF (head ptr : Z) : Z := s32 (ptr - head).

(** [DEVTREE_OFFSET(head, ptr)] for an expression [ptr]. *)
Definition DEVTREE_OFFSET (ptr : DT Z) : DT Z :=
  p ← ptr;
  if ctrue p then p ← ptr; head ← gets dt_head; mret (OFFSET_OF head p) else mret 0.

(** Sizes and fields of the structures. *)
Definition sizeof_node : Z := 20.
Definition sizeof_prop : Z := 20.
Definition node_name (n : Z) : Z := n.
Definition node_prop (n : Z) : Z := n + 4.
Definition node_parent (n : Z) : Z := n + 8.
Definition node_child (n : Z) : Z := n + 12.
Definition node_next (n : Z) : Z := n + 16.
Definition prop_name (p : Z) : Z := p.
Definition prop_data (p : Z) : Z := p + 4.
Definition prop_len (p : Z) : Z := p + 8.
Definition prop_parent (p : Z) : Z := p + 12.
Definition prop_next (p : Z) : Z := p + 16.
Definition head_root (h : Z) : Z := h.
Definition head_strs (h : Z) : Z := h + 4.
Definition head_buf_size (h : Z) : Z := h + 8.

Section Devtree.
Context `{Arch} `{CharType} `{Literals}.

Definition sizeof_head : Z := 8 + WORD.

(** Fields of type [int], and numbers of 32 and 64 bits. *)
Definition ldi (p : Z) : DT Z := v ← on_dt (ldn 4 p); mret (s32 v).
Definition sti (p v : Z) : DT unit := on_dt (stn 4 p (u32 v)).
Definition ld32 (p : Z) : DT Z := on_dt (ldn 4 p).
Definition ld64 (p : Z) : DT Z := on_dt (ldn 8 p).

(** ** Construction *)

Definition alloc_struct (size : Z) : DT Z :=
  buf ← gets dt_buf;
  panic_if (negb (ctrue buf));;
  remain ← gets remain_size;
  panic_if (remain <? size);;
  prev_struct_offset ← gets struct_offset;
  let off := s32 (ALIGN_DOWN ARCH_WIDTH (ulong (prev_struct_offset - size)) WORD) in
  let size := prev_struct_offset - off in
  modify (λ d, set_struct off (struct_size d + size) (remain_size d - size) d);;
  mret (buf + off).

Definition alloc_and_copy_data (data size : Z) : DT Z :=
  dest ← alloc_struct size;
  (if ctrue data then on_dt (memcpy dest data (ulong size));; mret tt else mret tt);;
  mret dest.

Definition alloc_and_copy_str (str : Z) : DT Z :=
  buf ← gets dt_buf;
  panic_if (negb (ctrue buf));;
  strs ← gets dt_strs;
  ssize ← gets string_size;
  exist ← on_dt (memstr strs str (ulong ssize));
  if ctrue exist then mret exist else
  l ← on_dt (strlen str);
  let size := s32 (l + 1) in
  remain ← gets remain_size;
  panic_if (remain <? size);;
  prev_string_offset ← gets string_offset;
  let off := s32 (ALIGN_UP ARCH_WIDTH (ulong prev_string_offset) WORD) in
  let size := size + (off - prev_string_offset) in
  let dest := buf + off in
  on_dt (strcpy dest str);;
  modify (λ d, set_string (off + size) (string_size d + size) (remain_size d - size) d);;
  mret dest.

Definition devtree_alloc_node (parent name : Z) : DT Z :=
  node ← alloc_struct sizeof_node;
  off ← DEVTREE_OFFSET (alloc_and_copy_str (if ctrue parent then name else lit (chars "root")));
  sti (node_name node) off;;
  sti (node_prop node) 0;;
  sti (node_child node) 0;;
  head ← gets dt_head;
  (if negb (ctrue parent) then
     sti (node_parent node) 0;;
     sti (node_next node) 0;;
     r ← DEVTREE_OFFSET (mret node);
     sti (head_root head) r
   else
     p ← DEVTREE_OFFSET (mret parent);
     sti (node_parent node) p;;
     c ← ldi (node_child parent);
     sti (node_next node) c;;
     n ← DEVTREE_OFFSET (mret node);
     sti (node_child parent) n);;
  mret node.

Definition devtree_alloc_prop (node name data len : Z) : DT Z :=
  prop ← alloc_struct sizeof_prop;
  off ← DEVTREE_OFFSET (alloc_and_copy_str name);
  sti (prop_name prop) off;;
  d ← (if ctrue len then DEVTREE_OFFSET (alloc_and_copy_data data len) else mret 0);
  sti (prop_data prop) d;;
  sti (prop_len prop) len;;
  n ← DEVTREE_OFFSET (mret node);
  sti (prop_parent prop) n;;
  p ← ldi (node_prop node);
  sti (prop_next prop) p;;
  o ← DEVTREE_OFFSET (mret prop);
  sti (node_prop node) o;;
  mret prop.

(** [tmp] is the address of the parameter [data], which is passed by reference. *)
Definition devtree_alloc_prop_u32 (tmp node name data : Z) : DT Z :=
  on_dt (stn 4 tmp (swap_big_endian32 data));;
  devtree_alloc_prop node name tmp 4.

Definition devtree_alloc_prop_u64 (tmp node name data : Z) : DT Z :=
  on_dt (stn 8 tmp (swap_big_endian64 data));;
  devtree_alloc_prop node name tmp 8.

Definition devtree_alloc_prop_str (node name str : Z) : DT Z :=
  l ← on_dt (strlen str);
  devtree_alloc_prop node name str (s32 (l + 1)).

(** ** Traversal *)

Definition devtree_get_head : DT Z := gets dt_head.

Definition devtree_get_root : DT Z :=
  head ← gets dt_head;
  if negb (ctrue head) then mret 0 else
  r ← ldi (head_root head);
  if negb (ctrue r) then mret 0 else
  r ← ldi (head_root head);
  mret (DEVTREE_DATA head r).

(** [DEVTREE_DATA(head, ...)] of the field at [p]. *)
Definition follow (p : Z) : DT Z := head ← gets dt_head; v ← ldi p; mret (DEVTREE_DATA head v).

Definition devtree_get_next_node (node : Z) : DT Z :=
  if negb (ctrue node) then devtree_get_root else follow (node_next node).
Definition devtree_get_child_node (node : Z) : DT Z :=
  if negb (ctrue node) then devtree_get_root else follow (node_child node).
Definition devtree_get_parent_node (node : Z) : DT Z := follow (node_parent node).
Definition devtree_get_prop (node : Z) : DT Z := follow (node_prop node).
Definition devtree_get_next_prop (prop : Z) : DT Z := follow (prop_next prop).

Definition devtree_get_data (offset : Z) : DT Z := head ← gets dt_head; mret (DEVTREE_DATA head offset).
Definition devtree_get_node_name (node : Z) : DT Z := follow (node_name node).
Definition devtree_get_prop_name (prop : Z) : DT Z := follow (prop_name prop).
Definition devtree_get_prop_data (prop : Z) : DT Z := follow (prop_data prop).

Definition devtree_get_prop_data_u32 (prop : Z) : DT Z :=
  len ← ldi (prop_len prop);
  panic_if (negb (len =? 4));;
  data ← devtree_get_prop_data prop;
  v ← ld32 data;
  mret (swap_big_endian32 v).

Definition devtree_get_prop_data_u64 (prop : Z) : DT Z :=
  len ← ldi (prop_len prop);
  panic_if (negb (len =? 8));;
  data ← devtree_get_prop_data prop;
  v ← ld64 data;
  mret (swap_big_endian64 v).

(** ** Initialisation *)

Definition open_libk_devtree (devtree : Z) : DT unit :=
  modify (λ d, mk_dt (dt_mem d) (dt_buf d) (string_offset d) (struct_offset d) (string_size d) (struct_size d) (remain_size d) devtree (dt_strs d)).

Definition create_libk_devtree (buf size : Z) : DT Z :=
  on_dt (memzero buf size);;
  let head := buf in
  let strs := buf + sizeof_head in
  sti (head_strs head) (OFFSET_OF head strs);;
  on_dt (stn (Z.to_nat WORD) (head_buf_size head) (ulong size));;
  modify (λ d, mk_dt (dt_mem d) buf sizeof_head DEVTREE_BUF_SIZE 0 0 (DEVTREE_BUF_SIZE - sizeof_head) head strs);;
  mret head.

Definition devtree_get_buf_size : DT Z := head ← gets dt_head; on_dt (ldn (Z.to_nat WORD) (head_buf_size head)).
Definition devtree_get_buf_size2 (d : Z) : DT Z := on_dt (ldn (Z.to_nat WORD) (head_buf_size d)).

(** ** Search *)

(** The fuel of the walks along lists and up the tree: every step reads another
    structure of the memory. *)
Definition dt_fuel (d : dt) : nat := scan_fuel (dt_mem d).

(** [strchr(name, '@')], and the test of the part of [full] before its @. *)
Definition at_sign : Z := 64.
Definition matches_before_at (name full : Z) : DT bool :=
  a ← on_dt (strchr full at_sign);
  if ctrue a then
    let to_at_len := s32 (a - full) in
    l ← on_dt (strlen name);
    if to_at_len =? l then r ← on_dt (memcmp name full (ulong to_at_len)); mret (r =? 0) else mret false
  else mret false.

Fixpoint find_child_exact (fuel : nat) (child name : Z) : DT Z :=
  match fuel with
  | O => diverge
  | S f =>
      if ctrue child then
        child_name ← devtree_get_node_name child;
        r ← on_dt (strcmp child_name name);
        if r =? 0 then mret child else
        next ← devtree_get_next_node child;
        find_child_exact f next name
      else mret 0
  end.

Fixpoint find_child_partial (fuel : nat) (child name : Z) : DT Z :=
  match fuel with
  | O => diverge
  | S f =>
      if ctrue child then
        child_name ← devtree_get_node_name child;
        b ← matches_before_at name child_name;
        if b : bool then mret child else
        next ← devtree_get_next_node child;
        find_child_partial f next name
      else mret 0
  end.

Definition devtree_find_child_node (node name : Z) : DT Z :=
  if negb (ctrue node) then devtree_get_root else
  fuel ← gets dt_fuel;
  child ← devtree_get_child_node node;
  r ← find_child_exact fuel child name;
  if ctrue r then mret r else
  a ← on_dt (strchr name at_sign);
  if ctrue a then mret 0 else
  child ← devtree_get_child_node node;
  find_child_partial fuel child name.

Fixpoint find_prop_loop (fuel : nat) (prop name : Z) : DT Z :=
  match fuel with
  | O => diverge
  | S f =>
      if ctrue prop then
        pname ← devtree_get_prop_name prop;
        r ← on_dt (strcmp pname name);
        if r =? 0 then mret prop else
        a ← on_dt (strchr name at_sign);
        b ← (if ctrue a then mret false else matches_before_at name pname);
        if b : bool then mret prop else
        next ← devtree_get_next_prop prop;
        find_prop_loop f next name
      else mret 0
  end.

Definition devtree_find_prop (node name : Z) : DT Z :=
  if negb (ctrue node) then mret 0 else
  fuel ← gets dt_fuel;
  prop ← devtree_get_prop node;
  find_prop_loop fuel prop name.

Fixpoint in_subtree_loop (fuel : nat) (parent node : Z) : DT bool :=
  match fuel with
  | O => diverge
  | S f =>
      if ctrue node && negb (parent =? node) then
        node ← devtree_get_parent_node node;
        in_subtree_loop f parent node
      else mret (parent =? node)
  end.

Definition devtree_in_subtree (parent node : Z) : DT bool :=
  if negb (ctrue parent) then mret false else
  fuel ← gets dt_fuel;
  in_subtree_loop fuel parent node.

(** ** Properties with a number *)

(** [(int)data] of a 32-bit property, -1 without it. *)
Definition devtree_get_phandle (node : Z) : DT Z :=
  prop ← devtree_find_prop node (lit (chars "phandle"));
  if negb (ctrue prop) then mret (-1) else
  data ← devtree_get_prop_data_u32 prop;
  mret (s32 data).

Definition devtree_get_reg_shift (node : Z) : DT Z :=
  prop ← devtree_find_prop node (lit (chars "reg-shift"));
  if negb (ctrue prop) then mret 0 else
  data ← devtree_get_prop_data_u32 prop;
  mret (s32 data).

Definition devtree_get_num_int_cells (node : Z) : DT Z :=
  prop ← devtree_find_prop node (lit (chars "#interrupt-cells"));
  if ctrue prop then data ← devtree_get_prop_data_u32 prop; mret (s32 data) else mret (-1).

Definition devtree_get_clock_frequency (node : Z) : DT Z :=
  prop ← devtree_find_prop node (lit (chars "clock-frequency"));
  prop ← (if negb (ctrue prop) then devtree_find_prop node (lit (chars "frequency")) else mret prop);
  if negb (ctrue prop) then mret 0 else
  len ← ldi (prop_len prop);
  if len =? 4 then devtree_get_prop_data_u32 prop
  else if len =? 8 then devtree_get_prop_data_u64 prop
  else panic.

Definition devtree_is_intc (node : Z) : DT bool :=
  prop ← devtree_find_prop node (lit (chars "interrupt-controller"));
  mret (ctrue prop).

Definition devtree_get_use_poll (node : Z) : DT bool :=
  prop ← devtree_find_prop node (lit (chars "use-poll"));
  mret (ctrue prop).

Fixpoint use_ioport_loop (fuel : nat) (cur_node : Z) : DT bool :=
  match fuel with
  | O => diverge
  | S f =>
      if ctrue cur_node then
        prop ← devtree_find_prop cur_node (lit (chars "use-ioport"));
        if ctrue prop then mret true else
        cur_node ← devtree_get_parent_node cur_node;
        use_ioport_loop f cur_node
      else mret false
  end.

Definition devtree_get_use_ioport (node : Z) : DT bool := fuel ← gets dt_fuel; use_ioport_loop fuel node.

Definition devtree_get_enabled (node : Z) : DT bool :=
  prop ← devtree_find_prop node (lit (chars "disabled"));
  if ctrue prop then mret false else
  prop ← devtree_find_prop node (lit (chars "status"));
  if negb (ctrue prop) then mret true else
  data ← devtree_get_prop_data prop;
  len ← ldi (prop_len prop);
  if (8 <=? len) && ctrue data then
    r ← on_dt (memcmp data (lit (chars "disabled")) 8);
    mret (negb (r =? 0))
  else mret true.

(** ** Cells *)

(** What [get_num_cells] stores through a pointer that is not NULL. *)
Definition cells_from (node : Z) (name : list Z) (old : option Z) : DT (option Z) :=
  match old with
  | None => mret None
  | Some v =>
      prop ← devtree_find_prop node (lit name);
      if ctrue prop then
        data ← devtree_get_prop_data prop;
        v ← ld32 data;
        mret (Some (s32 (swap_big_endian32 v)))
      else mret (Some v)
  end.

Definition get_num_cells (node : Z) (num_addr_cells num_size_cells : option Z) : DT (option Z * option Z) :=
  a ← cells_from node (chars "#address-cells") num_addr_cells;
  s ← cells_from node (chars "#size-cells") num_size_cells;
  mret (a, s).

(** All callers pass pointers that are not NULL. *)
Definition devtree_get_reg_num_cells (node : Z) : DT (Z * Z) :=
  node ← devtree_get_parent_node node;
  if ctrue node then
    '(a, s) ← get_num_cells node (Some 1) (Some 1);
    mret (default 1 a, default 1 s)
  else mret (1, 1).

(** The cells of a child's address, of a parent's address and of a size, in the
    order of the parameters of the C function. *)
Definition devtree_get_ranges_num_cells (node : Z) : DT (Z * Z * Z) :=
  '(child, size) ← get_num_cells node (Some 1) (Some 1);
  parent_node ← devtree_get_parent_node node;
  parent ← (if ctrue parent_node then '(p, _) ← get_num_cells parent_node (Some 1) None; mret p else mret (Some 1));
  mret (default 1 child, default 1 parent, default 1 size).

Definition parse_cell_num (data num_cells : Z) : DT Z :=
  if num_cells =? 0 then mret 0
  else if num_cells =? 1 then v ← ld32 data; mret (swap_big_endian32 v)
  else
    panic_if (negb (num_cells =? 2));;
    v ← ld64 (data + num_cells - 2);
    mret (swap_big_endian64 v).

(** The result, and the child's address, the parent's address and the size when
    it is not -1.  The call of [devtree_get_ranges_num_cells] passes the
    variable for the parent's cells where the child's are stored, and the other
    way round. *)
Definition get_ranges (node idx : Z) : DT (Z * option (Z * Z * Z)) :=
  prop ← devtree_find_prop node (lit chars_ranges);
  if negb (ctrue prop) then mret (-1, None) else
  '(num_parent_cells, num_child_cells, num_size_cells) ← devtree_get_ranges_num_cells node;
  let pair_size := s32 (Z.shiftl (num_parent_cells + num_child_cells + num_size_cells) 2) in
  len ← ldi (prop_len prop);
  if len <? pair_size then mret (-1, None) else
  '(count, _) ← lift_outcome (div_u32 (u32 len) (u32 pair_size));
  let count := s32 count in
  if count <=? idx then mret (-1, None) else
  data ← devtree_get_prop_data prop;
  let data := data + pair_size * idx in
  child_addr ← parse_cell_num data num_child_cells;
  let data := data + Z.shiftl num_child_cells 2 in
  parent_addr ← parse_cell_num data num_parent_cells;
  let data := data + Z.shiftl num_parent_cells 2 in
  size ← parse_cell_num data num_size_cells;
  mret (if 1 <? count - idx then idx + 1 else 0, Some (child_addr, parent_addr, size)).

(** [addr >= child && addr < child + size], in 64 bits. *)
Definition in_range (addr child size : Z) : bool := (child <=? addr) && (addr <? u64 (child + size)).

(** The inner loop over the pairs of a node; [old] holds the variables. *)
Fixpoint translate_pairs (fuel : nat) (node range_idx addr : Z) (old : Z * Z * Z) : DT Z :=
  match fuel with
  | O => diverge
  | S f =>
      '(range_idx, out) ← get_ranges node range_idx;
      let '(child, parent, size) := default old out in
      if (0 <=? range_idx) && in_range addr child size then mret (u64 (parent + addr - child))
      else if 0 <? range_idx then translate_pairs f node range_idx addr (child, parent, size)
      else mret addr
  end.

Fixpoint translate_up (fuel : nat) (node addr : Z) : DT Z :=
  match fuel with
  | O => diverge
  | S f =>
      if ctrue node then
        k ← gets dt_fuel;
        addr ← translate_pairs k node 0 addr (0, 0, 0);
        node ← devtree_get_parent_node node;
        translate_up f node addr
      else mret addr
  end.

Definition devtree_translate_addr (node addr : Z) : DT Z :=
  fuel ← gets dt_fuel;
  node ← devtree_get_parent_node node;
  translate_up fuel node addr.

(** The result, and the address and the size when it is not -1. *)
Definition devtree_get_addr (node idx name : Z) : DT (Z * option (Z * Z)) :=
  prop ← devtree_find_prop node name;
  if negb (ctrue prop) then mret (-1, None) else
  '(num_addr_cells, num_size_cells) ← devtree_get_reg_num_cells node;
  let pair_size := s32 (Z.shiftl (num_addr_cells + num_size_cells) 2) in
  len ← ldi (prop_len prop);
  if negb (ctrue pair_size) || (len <? pair_size) then mret (-1, None) else
  '(count, _) ← lift_outcome (div_u32 (u32 len) (u32 pair_size));
  let count := s32 count in
  if count <=? idx then mret (-1, None) else
  data ← devtree_get_prop_data prop;
  let data := data + pair_size * idx in
  addr ← parse_cell_num data num_addr_cells;
  let data := data + Z.shiftl num_addr_cells 2 in
  size ← parse_cell_num data num_size_cells;
  mret (if 1 <? count - idx then idx + 1 else 0, Some (addr, size)).

Definition devtree_get_reg (node idx : Z) : DT (Z * option (Z * Z)) := devtree_get_addr node idx (lit (chars "reg")).

Definition devtree_get_translated_addr (node idx name : Z) : DT (Z * option (Z * Z)) :=
  '(next_idx, out) ← devtree_get_addr node idx name;
  if next_idx <? 0 then mret (-1, None) else
  let '(val_addr, val_size) := default (0, 0) out in
  val_addr ← devtree_translate_addr node val_addr;
  mret (next_idx, Some (val_addr, val_size)).

Definition devtree_get_translated_reg (node idx : Z) : DT (Z * option (Z * Z)) :=
  devtree_get_translated_addr node idx (lit (chars "reg")).

(** ** Compatible *)

(** The loop that skips [n] strings: the position and the length used, or
    [None] when the list ends. *)
Fixpoint skip_strings (n : nat) (data used_len len : Z) : DT (option (Z * Z)) :=
  match n with
  | O => mret (Some (data, used_len))
  | S n' =>
      l ← on_dt (strlen data);
      let l := ulong (l + 1) in
      let used_len := ulong (used_len + l) in
      if ulong len <=? used_len then mret None else skip_strings n' (data + l) used_len len
  end.

(** The result, and the name when it is not -1. *)
Definition devtree_get_compatible (node idx : Z) : DT (Z * option Z) :=
  prop ← devtree_find_prop node (lit (chars "compatible"));
  if negb (ctrue prop) then mret (-1, None) else
  data ← devtree_get_prop_data prop;
  len ← ldi (prop_len prop);
  r ← skip_strings (Z.to_nat idx) data 0 len;
  match r with
  | None => mret (-1, None)
  | Some (data, used_len) =>
      l ← on_dt (strlen data);
      let used_len := ulong (used_len + l + 1) in
      mret (if ulong len <=? used_len then 0 else idx + 1, Some data)
  end.

(** ** Phandles and paths *)

(** The search below [node], and the loop over [child] and its siblings. *)
Fixpoint find_by_phandle (fuel : nat) (node phandle : Z) : DT Z :=
  match fuel with
  | O => diverge
  | S f =>
      if phandle <=? 0 then mret 0 else
      node ← (if negb (ctrue node) then devtree_get_root else mret node);
      h ← (if negb (phandle =? -1) then devtree_get_phandle node else mret (-1));
      if negb (phandle =? -1) && (h =? phandle) then mret node else
      child ← devtree_get_child_node node;
      find_by_phandle_children f child phandle
  end
with find_by_phandle_children (fuel : nat) (child phandle : Z) : DT Z :=
  match fuel with
  | O => diverge
  | S f =>
      if ctrue child then
        n ← find_by_phandle f child phandle;
        if ctrue n then mret n else
        child ← devtree_get_next_node child;
        find_by_phandle_children f child phandle
      else mret 0
  end.

Definition devtree_find_node_by_phandle (node phandle : Z) : DT Z :=
  fuel ← gets dt_fuel;
  find_by_phandle fuel node phandle.

(** [name] is the address of the local array of 64 characters. *)
Fixpoint walk_loop (fuel : nat) (name path cur : Z) : DT Z :=
  match fuel with
  | O => diverge
  | S f =>
      ch ← (if ctrue path then on_dt (ldc path) else mret 0);
      if ctrue path && ctrue ch && negb (ch =? 58) then
        next_path ← on_dt (strpbrk path (lit (chars "/:")));
        ok ← (if ctrue next_path then
                let len := ulong (next_path - path) in
                if ctrue len then
                  if negb (ctrue cur) then mret false else
                  on_dt (memcpy name path len);; on_dt (stb (name + len) 0);; mret true
                else mret true
              else on_dt (strcpy name path);; mret true);
        if negb ok then mret 0 else
        cur ← devtree_find_child_node cur (if ctrue cur then name else lit (chars "root"));
        if negb (ctrue cur) then mret 0
        else if ctrue next_path then walk_loop f name (next_path + 1) cur
        else mret cur
      else mret cur
  end.

Definition devtree_walk (name path : Z) : DT Z :=
  if negb (ctrue path) then mret 0 else
  ch ← on_dt (ldc path);
  if negb (ch =? 47) then mret 0 else
  fuel ← gets dt_fuel;
  walk_loop fuel name path 0.

(** ** Interrupts *)

(** The number, and the node of the interrupt parent. *)
Fixpoint int_parent2_loop (fuel : nat) (cur_node node : Z) : DT (Z * Z) :=
  match fuel with
  | O => diverge
  | S f =>
      if ctrue cur_node then
        b ← devtree_is_intc cur_node;
        if b && negb (cur_node =? node) then h ← devtree_get_phandle cur_node; mret (h, cur_node) else
        prop ← devtree_find_prop cur_node (lit (chars "interrupt-parent"));
        if ctrue prop then
          phandle ← devtree_get_prop_data_u32 prop;
          pnode ← devtree_find_node_by_phandle 0 (s32 phandle);
          mret (s32 phandle, pnode)
        else
          cur_node ← devtree_get_parent_node cur_node;
          int_parent2_loop f cur_node node
      else mret (-1, 0)
  end.

Definition devtree_get_int_parent2 (node : Z) : DT (Z * Z) := fuel ← gets dt_fuel; int_parent2_loop fuel node node.

Fixpoint int_parent_loop (fuel : nat) (cur_node node : Z) : DT Z :=
  match fuel with
  | O => diverge
  | S f =>
      if ctrue cur_node then
        b ← devtree_is_intc cur_node;
        if b && negb (cur_node =? node) then devtree_get_phandle cur_node else
        prop ← devtree_find_prop cur_node (lit (chars "interrupt-parent"));
        if ctrue prop then data ← devtree_get_prop_data_u32 prop; mret (s32 data)
        else
          cur_node ← devtree_get_parent_node cur_node;
          int_parent_loop f cur_node node
      else devtree_get_phandle node
  end.

Definition devtree_get_int_parent (node : Z) : DT Z := fuel ← gets dt_fuel; int_parent_loop fuel node node.

(** The data, and its length where there is any. *)
Definition devtree_get_int_encode (node : Z) : DT (Z * option Z) :=
  prop ← devtree_find_prop node (lit (chars "interrupts"));
  if negb (ctrue prop) then mret (0, None) else
  len ← ldi (prop_len prop);
  data ← devtree_get_prop_data prop;
  mret (data, Some len).

(** What is stored through the pointers: the parent's phandle and node, the
    encoding and its length. *)
Record int_out := mk_int_out { io_phandle : Z; io_parent : Z; io_encode : Z; io_len : option Z }.

Definition devtree_get_int_ext (node pos : Z) : DT (Z * option int_out) :=
  prop ← devtree_find_prop node (lit (chars "interrupts-extended"));
  if (pos <? 0) || negb (ctrue prop) then mret (-1, None) else
  len ← ldi (prop_len prop);
  data ← devtree_get_prop_data prop;
  if len <=? pos then mret (-1, None) else
  v ← ld32 (data + pos);
  let phandle := swap_big_endian32 v in
  pnode ← devtree_find_node_by_phandle 0 (s32 phandle);
  panic_if (negb (ctrue pnode));;
  let pos := pos + 4 in
  num_int_cells ← devtree_get_num_int_cells pnode;
  let encode_bytes := s32 (num_int_cells * 4) in
  panic_if (len <? pos + encode_bytes);;
  let out := mk_int_out (s32 phandle) pnode (data + pos) (Some encode_bytes) in
  let pos := pos + encode_bytes in
  mret (if len <=? pos then 0 else pos, Some out).

Definition devtree_get_int (node pos : Z) : DT (Z * option int_out) :=
  prop ← devtree_find_prop node (lit (chars "interrupts-extended"));
  if ctrue prop then devtree_get_int_ext node pos else
  if ctrue pos then mret (-1, None) else
  '(phandle, parent_node) ← devtree_get_int_parent2 node;
  '(encode_data, len) ← devtree_get_int_encode node;
  mret (0, Some (mk_int_out phandle parent_node encode_data len)).
End Devtree.
