(* ===== verification/DevtreeSpec.v ===== *)
(** Correctness of the device tree library: searches find the first entry whose
    name fits; and what its construction and its translation of addresses get
    wrong. *)

From stdpp Require Import base list gmap.
From Stdlib Require Import ZArith Lia.
From Corelib Require Import ssreflect.
From S2P Require Import Prelude Bits Mem Str StrSpec MemWords Devtree.

Section DevtreeSpec.
Context `{Arch} `{CharType} `{Literals}.

(** ** Reading fields *)

Definition sint (v : Z) : Prop := - 2 ^ 31 ≤ v < 2 ^ 31.
Definition int_at (m : mem) (p v : Z) : Prop := arr m p (num_bytes 4 (u32 v)) ∧ sint v.

Lemma s32_u32 v : sint v → s32 (u32 v) = v.
Proof.
  intros [??]. rw /swrap /wrap. change (2 ^ (32 - 1)) with (2 ^ 31). rw Z.add_mod_idemp_l //. rw Z.mod_small; lia.
Qed.

Lemma set_dt_mem_same d : set_dt_mem (dt_mem d) d = d.
Proof. by destruct d. Qed.

Lemma on_dt_run {A} (c : SM A) d a : c (dt_mem d) = Ret (a, dt_mem d) → on_dt c d = Ret (a, d).
Proof. rw /on_dt /zoom. intros ->. by rw set_dt_mem_same. Qed.

Lemma bind_on_dt {A B} (c : SM A) (f : A → DT B) d a : c (dt_mem d) = Ret (a, dt_mem d) → (on_dt c ≫= f) d = f a d.
Proof. intros E. by apply bind_run, on_dt_run. Qed.

Lemma ldi_run d p v : int_at (dt_mem d) p v → ldi p d = Ret (v, d).
Proof.
  intros [Ha Hv]. rw /ldi (bind_on_dt _ _ _ (u32 v)); [apply ldn_run; [done|by apply wrap_range]|]. by rw s32_u32.
Qed.

Lemma int_at_inj m p u v : int_at m p u → int_at m p v → u = v.
Proof.
  intros Hu Hv. set (d := mk_dt m 0 0 0 0 0 0 0 0). pose proof (ldi_run d p u Hu) as E1. pose proof (ldi_run d p v Hv) as E2. rw E1 in E2. by simplify_eq.
Qed.

Lemma follow_run d p v : int_at (dt_mem d) p v → follow p d = Ret (DEVTREE_DATA (dt_head d) v, d).
Proof. intros Hv. rw /follow (bind_run _ _ d (dt_head d) d) //. by rw (bind_run _ _ _ _ _ (ldi_run _ _ _ Hv)). Qed.

Lemma bind_follow {B} (f : Z → DT B) d p v : int_at (dt_mem d) p v → (follow p ≫= f) d = f (DEVTREE_DATA (dt_head d) v) d.
Proof. intros Hv. by apply bind_run, follow_run. Qed.

(** ** Linked structures *)

(** From [p] on, the references at offset [o] lead through the addresses [l]. *)
Fixpoint links (m : mem) (h o p : Z) (l : list Z) : Prop :=
  match l with
  | [] => p = 0
  | q :: l' => p = q ∧ p ≠ 0 ∧ ∃ nx, int_at m (p + o) nx ∧ links m h o (DEVTREE_DATA h nx) l'
  end.

Lemma links_det m h o l : ∀ p l', links m h o p l → links m h o p l' → length l = length l'.
Proof.
  induction l as [|q l IH]; intros p [|q' l']; cbn [links length]; [done|naive_solver|naive_solver|].
  intros (_ & _ & nx & Hx & Hc) (_ & _ & nx' & Hx' & Hc'). rw (int_at_inj _ _ _ _ Hx' Hx) in Hc'. f_equal. by apply (IH _ _ Hc).
Qed.

Lemma links_suffix m h o l2 : ∀ l1 p, links m h o p (l1 ++ l2) → ∃ q, links m h o q l2.
Proof. intros l1. induction l1 as [|q l1 IH]; intros p; [by exists p|]. cbn [app links]. intros (_ & _ & nx & _ & Hc). exact (IH _ Hc). Qed.

(** Following references does not come back to an address, so there are no more
    of them than bytes in memory. *)
Lemma links_NoDup m h o l : ∀ p, links m h o p l → NoDup l.
Proof.
  induction l as [|q l IH]; intros p Hc; [constructor|]. pose proof Hc as (-> & Hq & nx & _ & Hc'). constructor; [|exact (IH _ Hc')].
  intros (l1 & l2 & ->)%list_elem_of_split. destruct (links_suffix m h o (q :: l2) l1 _ Hc') as [p' Hs]. pose proof Hs as (-> & _).
  pose proof (links_det _ _ _ _ _ _ Hc Hs) as E. cbn [length] in E. rw length_app in E. cbn [length] in E. lia.
Qed.

Lemma links_mapped m h o l : ∀ p, links m h o p l → Forall (λ q, is_Some (m !! (q + o))) l.
Proof.
  induction l as [|q l IH]; intros p Hc; [constructor|]. destruct Hc as (-> & _ & nx & [Ho _] & Hc). constructor; [|exact (IH _ Hc)].
  apply (arr_owned _ _ _ Ho). rw length_num_bytes. lia.
Qed.

Lemma links_fuel m h o p l : links m h o p l → (length l < scan_fuel m)%nat.
Proof.
  intros Hc. rw /scan_fuel -size_dom. apply Nat.lt_succ_r. pose proof (links_NoDup _ _ _ _ _ Hc) as Hn. pose proof (links_mapped _ _ _ _ _ Hc) as Hm.
  rw -(length_fmap (λ q, q + o)) -(size_list_to_set (C := gset Z)); [apply NoDup_fmap_2; [intros x y E; lia|done]|].
  apply subseteq_size. intros q Hq%elem_of_list_to_set. apply list_elem_of_fmap in Hq as (q' & -> & Hq'). apply elem_of_dom.
  exact (proj1 (list.Forall_forall _ _) Hm _ Hq').
Qed.

(** ** Lists of nodes and properties *)

(** A string at a valid address. *)
Definition name_at (m : mem) (p : Z) (l : list Z) : Prop := 0 < p ∧ cstr m p l ∧ Z.of_nat (length l) < 2 ^ 31.

(** Nodes and properties have the name first and the reference to the next one
    at offset 16: the list from [p] on has these addresses and names. *)
Fixpoint chain (m : mem) (h p : Z) (l : list (Z * list Z)) : Prop :=
  match l with
  | [] => p = 0
  | (q, name) :: l' =>
      p = q ∧ p ≠ 0 ∧ (∃ off, int_at m p off ∧ off ≠ 0 ∧ name_at m (h + off) name) ∧
      ∃ nx, int_at m (p + 16) nx ∧ chain m h (DEVTREE_DATA h nx) l'
  end.

Lemma chain_links m h l : ∀ p, chain m h p l → links m h 16 p l.*1.
Proof.
  induction l as [|[q n] l IH]; intros p; cbn [chain links fmap list_fmap fst]; [done|]. intros (-> & Hq & _ & nx & Hx & Hc).
  split_and!; [done|done|]. exists nx. split; [done|by apply IH].
Qed.

Lemma chain_fuel m h p l : chain m h p l → (length l < scan_fuel m)%nat.
Proof. intros Hc%chain_links%links_fuel. by rw length_fmap in Hc. Qed.

(** ** Names *)

Lemma s32_small v : sint v → s32 v = v.
Proof. intros [??]. rw /swrap. change (2 ^ (32 - 1)) with (2 ^ 31). rw Z.mod_small; lia. Qed.

(** [strchr] finds the first occurrence of an ASCII character. *)
Lemma strchr_loop_run m c l : 0 < c < 128 → ∀ fuel p, (length l < fuel)%nat → cstr m p l →
  strchr_loop fuel p c m = Ret (match list_find (λ b, b = c) l with Some (i, _) => p + Z.of_nat i | None => 0 end, m).
Proof.
  intros Hc. induction l as [|b l IH]; intros [|fuel] p Hf Hs; [cbn in Hf; lia| |cbn in Hf; lia|]; cbn [strchr_loop].
  - apply cstr_nil in Hs. by rw (bind_ldc _ _ _ _ Hs) to_char_0.
  - apply cstr_cons in Hs as (Hp & Hb & Hs). rw (bind_ldc _ _ _ _ Hp) text_char //. rw -{1}(to_char_ascii c); [lia|].
    rw to_char_eqb; [by apply text_byte|rw /byte /uint; lia|]. cbn [list_find length] in *. destruct (Z.eqb_spec b c) as [->|Hn].
    + rw decide_True //. by rw Z.add_0_r.
    + rw decide_False //. rw IH //; [lia|]. destruct (list_find _ l) as [[i x]|]; cbn; [|done]. do 2 f_equal. lia.
Qed.

Lemma strchr_run m p c l : 0 < c < 128 → p ≠ 0 → cstr m p l →
  strchr p c m = Ret (match list_find (λ b, b = c) l with Some (i, _) => p + Z.of_nat i | None => 0 end, m).
Proof.
  intros Hc Hp Hs. rw /strchr (proj2 (Z.eqb_neq p 0)) //. rw (bind_run _ _ m (scan_fuel m) m) //.
  apply strchr_loop_run; [done|apply cstr_fuel in Hs; lia|done].
Qed.

(** A name fits a full name up to its @ sign. *)
Definition fits_before_at (name full : list Z) : bool := bool_decide ((at_sign ∉ name) ∧ name ++ [at_sign] `prefix_of` full).
Definition name_fits (name full : list Z) : bool := bool_decide (full = name) || fits_before_at name full.

Lemma first_at full i : list_find (λ b, b = at_sign) full = Some (i, at_sign) ↔
  (at_sign ∉ take i full) ∧ take i full ++ [at_sign] `prefix_of` full ∧ (i < length full)%nat.
Proof.
  rw list_find_Some. split.
  - intros (Hi & _ & Hf). split_and!; [|exists (drop (S i) full)|exact (lookup_lt_Some _ _ _ Hi)].
    + intros (j & Hj)%list_elem_of_lookup. apply lookup_take_Some in Hj as [Hj Hlt]. exact (Hf _ _ Hj Hlt eq_refl).
    + rw -app_assoc /= -drop_S //. by rw take_drop.
  - intros (Hn & [k E] & Hlt). split_and!; [|done|].
    + rw E lookup_app_l; [rw length_app length_take /=; lia|]. rw lookup_app_r; [rw length_take; lia|]. by rw length_take_le; [lia|]; rw Nat.sub_diag.
    + intros j y Hj Hji ->. apply Hn. apply list_elem_of_lookup. exists j. by rw lookup_take_lt.
Qed.

Lemma matches_before_at_run d pn pf name full : name_at (dt_mem d) pn name → name_at (dt_mem d) pf full →
  matches_before_at pn pf d = Ret (fits_before_at name full, d).
Proof.
  intros (Hpn & Hn & Hln) (Hpf & Hf & Hlf). rw /matches_before_at (bind_on_dt _ _ _ _ (strchr_run _ pf at_sign full ltac:(rw /at_sign; lia) ltac:(lia) Hf)).
  destruct (list_find (λ b, b = at_sign) full) as [[i x]|] eqn:E.
  - assert (x = at_sign) as -> by (apply list_find_Some in E; naive_solver). apply first_at in E as (Hno & Hpre & Hi).
    rw /ctrue (proj2 (Z.eqb_neq _ 0)); [lia|]. cbn [negb]. replace (pf + Z.of_nat i - pf) with (Z.of_nat i) by lia.
    rw (bind_on_dt _ _ _ _ (strlen_run _ pn name Hn Hln)). rw s32_small; [rw /sint; lia|].
    destruct (Z.eqb_spec (Z.of_nat i) (Z.of_nat (length name))) as [Eq|Hne].
    + apply Nat2Z.inj in Eq. rw ulong_small; [lia|]. assert (length name = length (take i full)) as El by (rw length_take; lia).
      assert (arr (dt_mem d) pf (take i full)) as Ha by (apply cstr_arr in Hf; rw -(take_drop i full) arr_app in Hf; by destruct Hf).
      pose proof (memcmp_run _ pn pf _ _ El (cstr_arr _ _ _ Hn) Ha) as Hm. rw Eq. rw (bind_on_dt _ _ _ _ Hm).
      rw /mret /M_ret. do 2 f_equal. apply eq_true_iff_eq. rw Z.eqb_eq lexb_eq // /fits_before_at bool_decide_eq_true. split.
      * intros ->. done.
      * intros [_ [k ->]]. rw -app_assoc Eq take_app_length //.
    + rw /mret /M_ret. do 2 f_equal. symmetry. apply bool_decide_eq_false. intros [Hnn [k Ek]]. apply Hne. f_equal.
      destruct (Nat.lt_trichotomy i (length name)) as [Hlt|[->|Hgt]]; [|done|].
      * exfalso. destruct Hpre as [k' Ek']. assert (full !! i = Some at_sign) as Hl.
        { rw Ek' lookup_app_l; [rw length_app length_take /=; lia|]. rw lookup_app_r; [rw length_take; lia|]. by rw length_take_le; [lia|]; rw Nat.sub_diag. }
        rw Ek -app_assoc lookup_app_l // in Hl. apply Hnn. apply list_elem_of_lookup. by exists i.
      * exfalso. apply Hno. apply list_elem_of_lookup. exists (length name). rw lookup_take_lt //. rw Ek -app_assoc /= list_lookup_middle //.
  - cbn. rw /mret /M_ret. do 2 f_equal. symmetry. apply bool_decide_eq_false. intros [_ [k ->]]. apply list_find_None in E.
    rw !Forall_app Forall_singleton in E. naive_solver.
Qed.

(** ** Search *)

(** The address of the first entry whose name passes a test. *)
Fixpoint first_named (f : list Z → bool) (l : list (Z * list Z)) : Z :=
  match l with
  | [] => 0
  | (q, n) :: l' => if f n then q else first_named f l'
  end.

Lemma name_of_run d p off l : int_at (dt_mem d) p off → off ≠ 0 → name_at (dt_mem d) (dt_head d + off) l →
  follow p d = Ret (dt_head d + off, d).
Proof. intros Ho Hz _. rw (follow_run _ _ _ Ho) /DEVTREE_DATA /ctrue (proj2 (Z.eqb_neq off 0)) //. Qed.

Lemma strcmp_name_run m p q l1 l2 : name_at m p l1 → name_at m q l2 → strcmp p q m = Ret (lex l1 l2, m).
Proof. intros (Hp & Hs1 & _) (Hq & Hs2 & _). apply strcmp_run; [lia|done..]. Qed.

Lemma lex_eqb l1 l2 : (lex l1 l2 =? 0) = bool_decide (l1 = l2).
Proof. apply eq_true_iff_eq. by rw Z.eqb_eq lex_eq bool_decide_eq_true. Qed.

Lemma ctrue_nonzero p : p ≠ 0 → ctrue p = true.
Proof. intros Hp. rw /ctrue (proj2 (Z.eqb_neq p 0)) //. Qed.

Lemma has_at_run d p l : name_at (dt_mem d) p l → ∃ a, strchr p at_sign (dt_mem d) = Ret (a, dt_mem d) ∧ ctrue a = bool_decide (at_sign ∈ l).
Proof.
  intros (Hp & Hs & _). rw (strchr_run _ p at_sign l); [rw /at_sign; lia|lia|done|]. eexists. split; [done|].
  destruct (list_find (λ b, b = at_sign) l) as [[i x]|] eqn:E.
  - apply list_find_Some in E as (Hi & -> & _). rw ctrue_nonzero; [lia|]. symmetry. apply bool_decide_eq_true. apply list_elem_of_lookup. by exists i.
  - apply list_find_None in E. symmetry. apply bool_decide_eq_false. intros Hin. by apply (proj1 (list.Forall_forall _ _) E _ Hin).
Qed.

Lemma find_prop_loop_run d pn name l : name_at (dt_mem d) pn name → ∀ fuel p, (length l < fuel)%nat → chain (dt_mem d) (dt_head d) p l →
  find_prop_loop fuel p pn d = Ret (first_named (name_fits name) l, d).
Proof.
  intros Hn. induction l as [|[q n] l IH]; intros [|fuel] p Hf Hc; [cbn in Hf; lia| |cbn in Hf; lia|]; cbn [find_prop_loop first_named].
  - by rw Hc.
  - destruct Hc as (-> & Hq & (off & Ho & Hz & Hna) & nx & Hx & Hc). rw ctrue_nonzero //. rw (bind_run _ _ _ _ _ (name_of_run d q off n Ho Hz Hna)).
    rw (bind_on_dt _ _ _ _ (strcmp_name_run _ _ _ _ _ Hna Hn)) lex_eqb /name_fits. destruct (bool_decide (n = name)); [done|]. cbn [orb].
    destruct (has_at_run d pn name Hn) as (a & Ea & Ha). rw (bind_on_dt _ _ _ _ Ea) Ha.
    rw (bind_run _ _ d (fits_before_at name n) d).
    { case_bool_decide as Hin; [|by apply matches_before_at_run]. rw /mret /M_ret. do 2 f_equal. symmetry. apply bool_decide_eq_false. naive_solver. }
    destruct (fits_before_at name n); [done|]. rw (bind_follow _ _ _ _ Hx). apply IH; [cbn in Hf; lia|done].
Qed.

Lemma find_prop_run d node pn name l off : node ≠ 0 → name_at (dt_mem d) pn name → int_at (dt_mem d) (node_prop node) off →
  chain (dt_mem d) (dt_head d) (DEVTREE_DATA (dt_head d) off) l →
  devtree_find_prop node pn d = Ret (first_named (name_fits name) l, d).
Proof.
  intros Hz Hn Ho Hc. rw /devtree_find_prop ctrue_nonzero //. cbn [negb]. rw (bind_run _ _ d (dt_fuel d) d) // (bind_follow _ _ _ _ Ho).
  apply find_prop_loop_run; [done|exact (chain_fuel _ _ _ _ Hc)|done].
Qed.

Lemma find_child_exact_run d pn name l : name_at (dt_mem d) pn name → ∀ fuel p, (length l < fuel)%nat → chain (dt_mem d) (dt_head d) p l →
  find_child_exact fuel p pn d = Ret (first_named (λ n, bool_decide (n = name)) l, d).
Proof.
  intros Hn. induction l as [|[q n] l IH]; intros [|fuel] p Hf Hc; [cbn in Hf; lia| |cbn in Hf; lia|]; cbn [find_child_exact first_named].
  - by rw Hc.
  - destruct Hc as (-> & Hq & (off & Ho & Hz & Hna) & nx & Hx & Hc). rw ctrue_nonzero //. rw (bind_run _ _ _ _ _ (name_of_run d q off n Ho Hz Hna)).
    rw (bind_on_dt _ _ _ _ (strcmp_name_run _ _ _ _ _ Hna Hn)) lex_eqb. destruct (bool_decide (n = name)); [done|].
    rw /devtree_get_next_node ctrue_nonzero //. rw (bind_follow _ _ _ _ Hx). apply IH; [cbn in Hf; lia|done].
Qed.

Lemma find_child_partial_run d pn name l : name_at (dt_mem d) pn name → ∀ fuel p, (length l < fuel)%nat → chain (dt_mem d) (dt_head d) p l →
  find_child_partial fuel p pn d = Ret (first_named (fits_before_at name) l, d).
Proof.
  intros Hn. induction l as [|[q n] l IH]; intros [|fuel] p Hf Hc; [cbn in Hf; lia| |cbn in Hf; lia|]; cbn [find_child_partial first_named].
  - by rw Hc.
  - destruct Hc as (-> & Hq & (off & Ho & Hz & Hna) & nx & Hx & Hc). rw ctrue_nonzero //. rw (bind_run _ _ _ _ _ (name_of_run d q off n Ho Hz Hna)).
    rw (bind_run _ _ _ _ _ (matches_before_at_run d pn _ name n Hn Hna)). destruct (fits_before_at name n); [done|].
    rw /devtree_get_next_node ctrue_nonzero //. rw (bind_follow _ _ _ _ Hx). apply IH; [cbn in Hf; lia|done].
Qed.

Lemma first_named_zero f m h p l : chain m h p l → first_named f l = 0 ↔ Forall (λ e, f e.2 = false) l.
Proof.
  revert p. induction l as [|[q n] l IH]; intros p Hc; cbn [first_named]; [split; [constructor|done]|].
  destruct Hc as (-> & Hq & _ & nx & _ & Hc). rw Forall_cons. cbn [snd]. destruct (f n); [split; [done|by intros [? _]]|].
  rw (IH _ Hc). split; [done|by intros [_ ?]].
Qed.

Lemma find_child_run d node pn name l off : node ≠ 0 → name_at (dt_mem d) pn name → int_at (dt_mem d) (node_child node) off →
  chain (dt_mem d) (dt_head d) (DEVTREE_DATA (dt_head d) off) l →
  devtree_find_child_node node pn d = Ret (if bool_decide (name ∈ l.*2) then first_named (λ n, bool_decide (n = name)) l
                                            else first_named (fits_before_at name) l, d).
Proof.
  intros Hz Hn Ho Hc. pose proof (chain_fuel _ _ _ _ Hc) as Hf. rw /devtree_find_child_node ctrue_nonzero //. cbn [negb]. rw (bind_run _ _ d (dt_fuel d) d) //.
  rw /devtree_get_child_node ctrue_nonzero //. cbn [negb]. rw (bind_follow _ _ _ _ Ho) (bind_run _ _ _ _ _ (find_child_exact_run d pn name l Hn _ _ Hf Hc)).
  pose proof (first_named_zero (λ n, bool_decide (n = name)) _ _ _ _ Hc) as Hz0. rw bool_decide_decide. destruct (decide (name ∈ l.*2)) as [Hin|Hin].
  - rw ctrue_nonzero //. rw Hz0. intros Hall. apply list_elem_of_fmap in Hin as (e & -> & He). pose proof (proj1 (list.Forall_forall _ _) Hall _ He) as Hb. by apply bool_decide_eq_false in Hb.
  - rw (proj2 Hz0). { apply list.Forall_forall. intros e He. apply bool_decide_eq_false. intros <-. apply Hin. by apply list_elem_of_fmap_2. }
    change (ctrue 0) with false. cbv iota. destruct (has_at_run d pn name Hn) as (a & Ea & Ha). rw (bind_on_dt _ _ _ _ Ea) Ha. case_bool_decide as Hat.
    + rw /mret /M_ret. do 2 f_equal. symmetry. rw (first_named_zero _ _ _ _ _ Hc). apply list.Forall_forall. intros e He. apply bool_decide_eq_false. naive_solver.
    + rw (bind_follow _ _ _ _ Ho). by apply find_child_partial_run.
Qed.

(** ** Cells *)

(** The value of bytes, the most significant first. *)
Definition be_val (l : list Z) : Z := le_val (reverse l).

Lemma le_val_uint l : bytes l → uint (8 * Z.of_nat (length l)) (le_val l).
Proof.
  induction 1 as [|b l [Hb Hb'] Hl IH]; [done|]. cbn [le_val foldr length]. rw -/(le_val l). rw /uint in IH |- *.
  replace (8 * Z.of_nat (S (length l))) with (8 + 8 * Z.of_nat (length l)) by lia. rw Z.pow_add_r; [lia..|]. change (2 ^ 8) with 256 in *. lia.
Qed.

Lemma byte_of_le_val l : bytes l → ∀ k : nat, (k < length l)%nat → byte_of (Z.of_nat k) (le_val l) = l !!! k.
Proof.
  induction 1 as [|b l [Hb Hb'] Hl IH]; intros k Hk; [cbn in Hk; lia|]. cbn [le_val foldr length] in *. rw -/(le_val l) /byte_of. change (2 ^ 8) with 256 in *.
  destruct k as [|k]; cbn [lookup_total list_lookup_total].
  - rw Z.mul_0_r Z.pow_0_r Z.div_1_r. rw Z.mul_comm Z.mod_add //. rw Z.mod_small //.
  - rw -IH; [lia|]. rw /byte_of. replace (8 * Z.of_nat (S k)) with (8 + 8 * Z.of_nat k) by lia. rw Z.pow_add_r; [lia..|]. rw -Z.div_div; [lia|apply Z.pow_pos_nonneg; lia|].
    change (2 ^ 8) with 256. rw (Z.mul_comm 256) Z.div_add // (Z.div_small b) //.
Qed.

(** Swapping the bytes of a number read in little-endian order gives the
    number in big-endian order. *)
Lemma swap_bytes n (swap : Z → Z) l : bytes l → length l = n → (∀ v, uint (8 * Z.of_nat n) (swap v)) →
  (∀ k v, 0 ≤ k < Z.of_nat n → byte_of k (swap v) = byte_of (Z.of_nat n - 1 - k) v) → swap (le_val l) = be_val l.
Proof.
  intros Hl Hn Hu Hs. apply (bytes_inj (Z.of_nat n)); [lia|apply Hu| |].
  { rw /be_val -Hn -length_reverse. apply le_val_uint, Forall_reverse, Hl. }
  intros k Hk. rw Hs //. rw /be_val -(Z2Nat.id k); [lia|]. rw byte_of_le_val; [by apply Forall_reverse|rw length_reverse; lia|].
  replace (Z.of_nat n - 1 - Z.of_nat (Z.to_nat k)) with (Z.of_nat (n - 1 - Z.to_nat k)) by lia. rw byte_of_le_val //; [lia|].
  rw !list_lookup_total_alt. f_equal. rw reverse_lookup; [lia|]. f_equal. lia.
Qed.

Lemma swap_be32 l : bytes l → length l = 4%nat → swap_big_endian32 (le_val (endian l)) = be_val l.
Proof.
  intros Hl Hn. rw /swap_big_endian32 /endian. destruct ARCH_BIG_ENDIAN; [done|]. apply (swap_bytes 4); [done|done| |].
  - apply swap_endian32_uint.
  - apply swap_endian32_byte.
Qed.

Lemma swap_be64 l : bytes l → length l = 8%nat → swap_big_endian64 (le_val (endian l)) = be_val l.
Proof.
  intros Hl Hn. rw /swap_big_endian64 /endian. destruct ARCH_BIG_ENDIAN; [done|]. apply (swap_bytes 8); [done|done| |].
  - apply swap_endian64_uint.
  - apply swap_endian64_byte.
Qed.

Lemma ldn_bytes m p l : arr m p l → ldn (length l) p m = Ret (le_val (endian l), m).
Proof. intros Ha. rw /ldn. by rw (bind_run _ _ _ _ _ (ld_bytes_run _ _ _ Ha)). Qed.

(** Up to two cells hold their bytes' value, the most significant byte first. *)
Lemma parse_cell_run d p l n : arr (dt_mem d) p l → bytes l → Z.of_nat (length l) = 4 * n → 0 ≤ n ≤ 2 →
  parse_cell_num p n d = Ret (be_val l, d).
Proof.
  intros Ha Hb Hl Hn. rw /parse_cell_num. assert (n = 0 ∨ n = 1 ∨ n = 2) as [->|[-> | ->]] by lia.
  - destruct l; [done|cbn in Hl; lia].
  - assert (length l = 4%nat) as E by lia. pose proof (ldn_bytes _ _ _ Ha) as Hr. rw E in Hr. cbn [Z.eqb Pos.eqb]. rw /ld32 (bind_on_dt _ _ _ _ Hr). by rw swap_be32.
  - assert (length l = 8%nat) as E by lia. pose proof (ldn_bytes _ _ _ Ha) as Hr. rw E in Hr. cbn [Z.eqb Pos.eqb negb]. rw (bind_run _ _ d tt d) //.
    replace (p + 2 - 2) with p by lia. rw /ld64 (bind_on_dt _ _ _ _ Hr). by rw swap_be64.
Qed.

(** ** Ranges *)

(** The bytes [l] are the pair at index [i] of a property with pairs of [sz] bytes. *)
Definition pair_at (m : mem) (data sz i : Z) (l : list Z) : Prop := arr m (data + sz * i) l ∧ bytes l ∧ Z.of_nat (length l) = sz.

Lemma div_count len sz : 0 ≤ len < 2 ^ 31 → 0 < sz < 2 ^ 31 → div_u32 (u32 len) (u32 sz) = Ret (len / sz, len mod sz).
Proof.
  intros Hl Hs. rw (wrap_small 32 len); [rw /uint; lia|]. rw (wrap_small 32 sz); [rw /uint; lia|]. apply div_u32_spec; [rw /uint; lia|lia].
Qed.

Lemma get_ranges_run d node q cc pc sc len doff i lc lp ls :
  devtree_find_prop node (lit chars_ranges) d = Ret (q, d) → q ≠ 0 →
  devtree_get_ranges_num_cells node d = Ret ((cc, pc, sc), d) → 0 ≤ cc ≤ 2 → 0 ≤ pc ≤ 2 → 0 ≤ sc ≤ 2 → 0 < cc + pc + sc →
  int_at (dt_mem d) (prop_len q) len → int_at (dt_mem d) (prop_data q) doff →
  let sz := 4 * (cc + pc + sc) in 0 ≤ i < len / sz → sz ≤ len →
  pair_at (dt_mem d) (DEVTREE_DATA (dt_head d) doff) sz i (lc ++ lp ++ ls) →
  Z.of_nat (length lc) = 4 * pc → Z.of_nat (length lp) = 4 * cc → Z.of_nat (length ls) = 4 * sc →
  get_ranges node i d = Ret ((if 1 <? len / sz - i then i + 1 else 0, Some (be_val lc, be_val lp, be_val ls)), d).
Proof.
  intros Hf Hq Hcells Hcc Hpc Hsc Hpos Hlen Hdoff sz Hi Hsz (Ha & Hb & _) Lc Lp Ls. rw /get_ranges (bind_run _ _ _ _ _ Hf) ctrue_nonzero //. cbn [negb].
  rw (bind_run _ _ _ _ _ Hcells). rw (Z.shiftl_mul_pow2 (cc + pc + sc)) //. change (2 ^ 2) with 4. replace ((cc + pc + sc) * 4) with sz by lia.
  rw s32_small; [rw /sint; lia|]. rw (bind_run _ _ _ _ _ (ldi_run _ _ _ Hlen)). destruct Hlen as [_ [Hl1 Hl2]]. rw (proj2 (Z.ltb_ge len sz)); [lia|].
  assert (0 ≤ len / sz ≤ len) as Hc by (split; [apply Z.div_pos; lia|apply Z.div_le_upper_bound; nia]).
  rw (bind_run _ _ d (len / sz, len mod sz) d); [rw /lift_outcome div_count //; lia|]. rw s32_small; [rw /sint; lia|]. rw (proj2 (Z.leb_gt _ _)); [lia|].
  rw (bind_follow _ _ _ _ Hdoff). rw !arr_app in Ha. destruct Ha as (Hac & Hap & Has). rw /bytes !Forall_app in Hb. destruct Hb as (Hbc & Hbp & Hbs).
  rw (Z.shiftl_mul_pow2 pc) // (Z.shiftl_mul_pow2 cc) //. change (2 ^ 2) with 4. rw Lc in Hap Has. rw Lp in Has.
  rw (bind_run _ _ _ _ _ (parse_cell_run d _ lc pc Hac Hbc Lc Hpc)). replace (pc * 4) with (4 * pc) by lia.
  rw (bind_run _ _ _ _ _ (parse_cell_run d _ lp cc Hap Hbp Lp Hcc)). replace (cc * 4) with (4 * cc) by lia.
  by rw (bind_run _ _ _ _ _ (parse_cell_run d _ ls sc Has Hbs Ls Hsc)).
Qed.

(** ** Translation of addresses *)

(** One bus: the first pair (child's address, parent's address, size) around
    the address moves it. *)
Fixpoint translate1 (addr : Z) (pairs : list (Z * Z * Z)) : Z :=
  match pairs with
  | [] => addr
  | (c, p, s) :: pairs' => if in_range addr c s then u64 (p + addr - c) else translate1 addr pairs'
  end.

(** The pairs that [get_ranges] yields for a node, one per index, none when the
    node has no usable property. *)
Definition ranges_at (d : dt) (node : Z) (pairs : list (Z * Z * Z)) : Prop :=
  (∃ a, owned (dt_mem d) a (Z.of_nat (length pairs))) ∧
  (pairs = [] → get_ranges node 0 d = Ret ((-1, None), d)) ∧
  ∀ i x, pairs !! i = Some x →
    get_ranges node (Z.of_nat i) d = Ret ((if 1 <? Z.of_nat (length pairs) - Z.of_nat i then Z.of_nat i + 1 else 0, Some x), d).

Lemma translate_pairs_run d node pairs : ranges_at d node pairs → ∀ r fuel i addr old, (length r < fuel)%nat → pairs ≠ [] → r ≠ [] → drop i pairs = r →
  translate_pairs fuel node (Z.of_nat i) addr old d = Ret (translate1 addr r, d).
Proof.
  intros (_ & _ & Hr). induction r as [|[[c p] s] r IH]; intros [|fuel] i addr old Hf Hne Hne' Hd; [done|done|cbn in Hf; lia|]. cbn [translate_pairs translate1].
  assert (pairs !! i = Some (c, p, s)) as Hi by (rw -(Nat.add_0_r i) -lookup_drop Hd //).
  rw (bind_run _ _ _ _ _ (Hr i _ Hi)). change (default old (Some (c, p, s))) with (c, p, s). cbv iota beta. pose proof (lookup_lt_Some _ _ _ Hi) as Hlt. assert (length r = length pairs - S i)%nat as Hlr.
  { pose proof (f_equal length Hd) as E. rw length_drop in E. cbn in E. lia. }
  destruct (Z.ltb_spec 1 (Z.of_nat (length pairs) - Z.of_nat i)) as [Hm|Hm].
  - assert ((0 <=? Z.of_nat i + 1) = true) as -> by (apply Z.leb_le; lia). cbn [andb]. destruct (in_range addr c s); [done|].
    assert ((0 <? Z.of_nat i + 1) = true) as -> by (apply Z.ltb_lt; lia).
    replace (Z.of_nat i + 1) with (Z.of_nat (S i)) by lia. apply IH; [cbn in Hf; lia|done|destruct r; [cbn in Hlr; lia|done]|].
    rw (drop_S _ _ _ Hi) in Hd. by simplify_eq.
  - assert (r = []) as -> by (apply length_zero_iff_nil; lia). cbn [Z.leb andb translate1]. change (0 <=? 0) with true. cbn [andb]. by destruct (in_range addr c s).
Qed.

Lemma translate_node d node pairs addr : ranges_at d node pairs →
  translate_pairs (dt_fuel d) node 0 addr (0, 0, 0) d = Ret (translate1 addr pairs, d).
Proof.
  intros HR. pose proof HR as ([a Ho] & Hn & _). apply owned_size in Ho. destruct pairs as [|x pairs].
  - rw /dt_fuel /scan_fuel. cbn [translate_pairs]. by rw (bind_run _ _ _ _ _ (Hn eq_refl)).
  - apply (translate_pairs_run d node (x :: pairs) HR (x :: pairs) (dt_fuel d) 0); [rw /dt_fuel /scan_fuel; lia|done..].
Qed.

(** The ancestors of a node with their pairs, from its parent up. *)
Lemma translate_up_run d anc : Forall (λ e, ranges_at d e.1 e.2) anc → ∀ fuel p addr, (length anc < fuel)%nat →
  links (dt_mem d) (dt_head d) 8 p anc.*1 → translate_up fuel p addr d = Ret (foldl (λ a e, translate1 a e.2) addr anc, d).
Proof.
  induction 1 as [|[q pairs] anc HR Hall IH]; intros [|fuel] p addr Hf Hl; [cbn in Hf; lia| |cbn in Hf; lia|]; cbn [translate_up foldl].
  - by rw Hl.
  - destruct Hl as (-> & Hq & nx & Hx & Hl). cbn [fst] in *. rw ctrue_nonzero //. rw (bind_run _ _ d (dt_fuel d) d) // (bind_run _ _ _ _ _ (translate_node _ _ _ _ HR)).
    rw /devtree_get_parent_node (bind_follow _ _ _ _ Hx). apply IH; [cbn in Hf; lia|done].
Qed.

(** ** Construction *)

Lemma strcpy_loop_run l : ∀ fuel m b d s, (length l < fuel)%nat → arr m s (l ++ [0]) → text l → m !! s = Some b →
  owned m d (Z.of_nat (length l)) → (s + Z.of_nat (length l) < d ∨ d + Z.of_nat (length l) ≤ s) →
  strcpy_loop fuel (to_char b) d s m = Ret (d + Z.of_nat (length l), put m d l).
Proof.
  induction l as [|c l IH]; intros [|fuel] m b d s Hf Ha Ht Hs Ho Hd; [cbn in Hf; lia| |cbn in Hf; lia|]; cbn [strcpy_loop].
  - destruct Ha as [Ha _]. rw Ha in Hs. simplify_eq. rw to_char_0 /=. by rw Z.add_0_r.
  - destruct Ha as [Ha Hr]. rw Ha in Hs. simplify_eq. apply Forall_cons in Ht as [Hb Ht]. rw text_char //. cbn [length] in *.
    destruct (Ho d) as [x Hx]; [lia|]. rw (bind_run _ _ m tt (<[d := b]> m)); [rw /stc /stb Hx u8_to_char //; by apply text_byte|].
    assert (arr (<[d := b]> m) (s + 1) (l ++ [0])) as Hr' by (apply arr_insert; [rw length_app /=; lia|done]).
    destruct (arr_owned _ _ _ Hr' (s + 1)) as [b' Hb']; [rw length_app /=; lia|]. rw (bind_ldc _ _ _ _ Hb').
    rw (IH fuel _ b' (d + 1) (s + 1)) //; [lia| |lia|].
    + apply owned_insert. intros a Hra. apply Ho. lia.
    + cbn [put]. do 2 f_equal. lia.
Qed.

Lemma strcpy_run m d s l : cstr m s l → owned m d (Z.of_nat (length l) + 1) →
  (s + Z.of_nat (length l) < d ∨ d + Z.of_nat (length l) + 1 ≤ s) → strcpy d s m = Ret (d, put m d (l ++ [0])).
Proof.
  intros [Ha Ht] Ho Hd. pose proof (arr_fuel _ _ _ Ha) as Hf. rw length_app /= in Hf. rw /strcpy (bind_run _ _ m (scan_fuel m) m) //.
  destruct (arr_owned _ _ _ Ha s) as [b Hb]; [rw length_app /=; lia|]. rw (bind_ldc _ _ _ _ Hb).
  rw (bind_run _ _ _ _ _ (strcpy_loop_run l (scan_fuel m) m b d s _ Ha Ht Hb _ _)); [lia|intros a Hra; apply Ho; lia|lia|].
  rw (bind_run _ _ _ tt (put m d (l ++ [0]))); [|done]. rw put_app /stb.
  destruct (put_owned m d l d _ Ho (d + Z.of_nat (length l))) as [x Hx]; [lia|]. by rw Hx.
Qed.

Lemma memstr_loop_run m q c nd l : arr m q (c :: nd) → bytes (c :: nd) → ∀ k s, k = (length l - length nd)%nat → arr m s l → bytes l →
  memstr_loop k s (to_char c) q (Z.of_nat (S (length nd))) m =
  Ret (match occurs (c :: nd) l with Some i => s + Z.of_nat i | None => 0 end, m).
Proof.
  intros Hq Hbq. induction l as [|b l IH]; intros k s Hk Ha Hb.
  - rw occurs_short; [cbn; lia|]. cbn in Hk. subst k. done.
  - cbn [length] in Hk. destruct (decide (length nd ≤ length l)%nat) as [Hle|Hgt].
    + replace k with (S (length l - length nd)) by lia. cbn [memstr_loop]. rw (bind_matches_at _ m s q c nd (b :: l)) //; [cbn; lia|].
      cbn [occurs]. case_bool_decide as Hpre; [rw decide_True // Z.add_0_r //|]. rw decide_False //. destruct Ha as [_ Ha]. apply Forall_cons in Hb as [_ Hb].
      rw IH //. destruct (occurs (c :: nd) l) as [i|]; cbn [fmap option_fmap option_map]; [|done]. do 2 f_equal. lia.
    + assert (k = 0%nat) as -> by lia. rw occurs_short //. cbn. lia.
Qed.

(** [memstr] finds the first occurrence of the characters of a string, without
    its NUL, in a block. *)
Lemma memstr_run m p q nd l : p ≠ 0 → q ≠ 0 → nd ≠ [] → arr m p l → bytes l → cstr m q nd → Z.of_nat (length l) < 2 ^ 31 → Z.of_nat (length nd) < 2 ^ 31 →
  memstr p q (Z.of_nat (length l)) m = Ret (match occurs nd l with Some i => p + Z.of_nat i | None => 0 end, m).
Proof.
  intros Hp Hq Hn Ha Hb Hs Hl Hln. destruct nd as [|c nd]; [done|]. pose proof Hs as (Hc & Hcr & _)%cstr_cons.
  rw /memstr (proj2 (Z.eqb_neq p 0)) // (proj2 (Z.eqb_neq q 0)) //. cbn [orb]. rw (bind_ldc _ _ _ _ Hc) text_char //. cbn [negb].
  rw (bind_run _ _ _ _ _ (strlen_run m q _ Hs Hln)). destruct (Z.ltb_spec (Z.of_nat (length l)) (Z.of_nat (length (c :: nd)))) as [Hlt|Hge].
  - by rw occurs_short; [cbn [length] in *; lia|].
  - rw (bind_ldc _ _ _ _ Hc). apply memstr_loop_run; [by apply cstr_arr|exact (cstr_bytes _ _ _ Hs)| |done|done].
    cbn [length] in *. rw ulong_small; lia.
Qed.

(** The block of strings of a tree under construction. *)
Definition strings_at (d : dt) (l : list Z) : Prop :=
  dt_buf d ≠ 0 ∧ 0 < dt_strs d ∧ arr (dt_mem d) (dt_strs d) l ∧ bytes l ∧ string_size d = Z.of_nat (length l) ∧ Z.of_nat (length l) < 2 ^ 31.

Lemma find_string d pn name l : strings_at d l → name ≠ [] → name_at (dt_mem d) pn name →
  memstr (dt_strs d) pn (ulong (string_size d)) (dt_mem d) =
  Ret (match occurs name l with Some i => dt_strs d + Z.of_nat i | None => 0 end, dt_mem d).
Proof.
  intros (Hb & Hs & Ha & Hbl & -> & Hl) Hn (Hp & Hc & Hln). rw ulong_small; [lia|]. apply memstr_run; [lia|lia|done..].
Qed.

Lemma alloc_str_found d pn name l i : strings_at d l → name ≠ [] → name_at (dt_mem d) pn name → occurs name l = Some i →
  alloc_and_copy_str pn d = Ret (dt_strs d + Z.of_nat i, d).
Proof.
  intros Hs Hn Hp Ho. pose proof (find_string d pn name l Hs Hn Hp) as Hf. rw Ho in Hf. destruct Hs as (Hb & Hst & _).
  rw /alloc_and_copy_str (bind_run _ _ d (dt_buf d) d) // ctrue_nonzero //. rw (bind_run _ _ d tt d) // (bind_run _ _ d (dt_strs d) d) // (bind_run _ _ d (string_size d) d) //.
  rw (bind_on_dt _ _ _ _ Hf). rw ctrue_nonzero //. lia.
Qed.

Lemma align_up_word n : 0 ≤ n < 2 ^ 30 → s32 (ALIGN_UP ARCH_WIDTH (ulong n) WORD) = WORD * ((n + WORD - 1) / WORD) ∧
  n ≤ WORD * ((n + WORD - 1) / WORD) < n + WORD.
Proof.
  intros Hn. rw ulong_small; [lia|]. assert (∃ k, WORD = 2 ^ k ∧ 2 ≤ k ≤ 3) as (k & Ek & Hk).
  { destruct WORD_cases as [[_ ->]|[_ ->]]; [by exists 2|by exists 3]. }
  assert (2 ^ 2 ≤ 2 ^ k ≤ 2 ^ 3) as Hk2 by (split; apply Z.pow_le_mono_r; lia). rw Ek.
  assert (2 ^ 32 ≤ 2 ^ ARCH_WIDTH) by (destruct arch_width_cases as [-> | ->]; lia). assert (3 < ARCH_WIDTH) by (destruct arch_width_cases as [-> | ->]; lia).
  rw ALIGN_UP_pow2; [lia|lia|lia|]. pose proof (Z.div_mod (n + 2 ^ k - 1) (2 ^ k) ltac:(lia)). pose proof (Z.mod_pos_bound (n + 2 ^ k - 1) (2 ^ k) ltac:(lia)).
  split; [apply s32_small; rw /sint; lia|lia].
Qed.

(** A string that is not found is stored at the next word, and the space it
    takes is computed twice with the padding but counted once. *)
Lemma alloc_str_new d pn name l off : strings_at d l → name ≠ [] → name_at (dt_mem d) pn name → occurs name l = None →
  0 ≤ string_offset d < 2 ^ 30 → Z.of_nat (length name) + 1 < 2 ^ 30 → Z.of_nat (length name) + 1 ≤ remain_size d →
  off = WORD * ((string_offset d + WORD - 1) / WORD) → owned (dt_mem d) (dt_buf d + off) (Z.of_nat (length name) + 1) →
  (pn + Z.of_nat (length name) < dt_buf d + off ∨ dt_buf d + off + Z.of_nat (length name) + 1 ≤ pn) →
  let size := Z.of_nat (length name) + 1 + (off - string_offset d) in
  alloc_and_copy_str pn d = Ret (dt_buf d + off,
    set_string (off + size) (string_size d + size) (remain_size d - size) (set_dt_mem (put (dt_mem d) (dt_buf d + off) (name ++ [0])) d)).
Proof.
  intros Hs Hn Hp Ho Hoff Hlen Hrem Eoff Hown Hdis size. pose proof (find_string d pn name l Hs Hn Hp) as Hf. rw Ho in Hf. destruct Hs as (Hb & Hst & _).
  destruct Hp as (Hpn & Hc & Hln). destruct (align_up_word _ Hoff) as [Eal _].
  rw /alloc_and_copy_str (bind_run _ _ d (dt_buf d) d) // ctrue_nonzero //. rw (bind_run _ _ d tt d) // (bind_run _ _ d (dt_strs d) d) // (bind_run _ _ d (string_size d) d) //.
  rw (bind_on_dt _ _ _ _ Hf). change (ctrue 0) with false. cbv iota. rw (bind_on_dt _ _ _ _ (strlen_run _ pn name Hc Hln)) s32_small; [rw /sint; lia|].
  rw (bind_run _ _ d (remain_size d) d) //. rw (proj2 (Z.ltb_ge _ _)); [lia|]. rw (bind_run _ _ d tt d) // (bind_run _ _ d (string_offset d) d) // Eal -Eoff.
  set (d1 := set_dt_mem (put (dt_mem d) (dt_buf d + off) (name ++ [0])) d).
  rw (bind_run _ _ d (dt_buf d + off) d1); [rw /on_dt /zoom (strcpy_run _ (dt_buf d + off) pn name Hc Hown Hdis) //|]. done.
Qed.

(** C21. Searches in the device tree find the first entry that fits:
    [devtree_find_prop] the first property of a node with that name, or, for a
    name without @, whose name continues with @; [devtree_find_child_node] the
    first child with exactly that name, and only when there is none the first
    child whose name continues with @.  They return NULL exactly when no entry
    fits, end for every list, and change nothing. *)
Theorem searches_find_first d node pn name props children offp offc : node ≠ 0 → name_at (dt_mem d) pn name →
  int_at (dt_mem d) (node_prop node) offp → chain (dt_mem d) (dt_head d) (DEVTREE_DATA (dt_head d) offp) props →
  int_at (dt_mem d) (node_child node) offc → chain (dt_mem d) (dt_head d) (DEVTREE_DATA (dt_head d) offc) children →
  devtree_find_prop node pn d = Ret (first_named (name_fits name) props, d) ∧
  (first_named (name_fits name) props = 0 ↔ Forall (λ e, name_fits name e.2 = false) props) ∧
  devtree_find_child_node node pn d =
    Ret (if bool_decide (name ∈ children.*2) then first_named (λ n, bool_decide (n = name)) children
         else first_named (fits_before_at name) children, d).
Proof.
  intros Hz Hn Hp Hcp Hc Hcc. split_and!; [exact (find_prop_run d node pn name props offp Hz Hn Hp Hcp)|exact (first_named_zero _ _ _ _ _ Hcp)|exact (find_child_run d node pn name children offc Hz Hn Hc Hcc)].
Qed.

(** [devtree_translate_addr] carries an address up the tree: every ancestor,
    from the parent on, moves it by the first of its pairs that contains it, or
    leaves it where none does; it ends at the root. *)
Theorem translate_addr_correct d node off anc addr : int_at (dt_mem d) (node_parent node) off →
  links (dt_mem d) (dt_head d) 8 (DEVTREE_DATA (dt_head d) off) anc.*1 → Forall (λ e, ranges_at d e.1 e.2) anc →
  devtree_translate_addr node addr d = Ret (foldl (λ a e, translate1 a e.2) addr anc, d).
Proof.
  intros Ho Hl Hr. rw /devtree_translate_addr (bind_run _ _ d (dt_fuel d) d) //. rw /devtree_get_parent_node (bind_follow _ _ _ _ Ho).
  apply translate_up_run; [done| |done]. apply links_fuel in Hl. by rw length_fmap in Hl.
Qed.

(** C22. [get_ranges] divides a pair at the wrong place: it passes the variables
    for the two address sizes in the wrong order, so the child's address is read
    with the number of cells of the parent's address and the other way round.
    For a pair of a child's address [lc], a parent's address [lp] and a size
    [ls] it returns the first [4 * pc] bytes of the two addresses as the child's
    and the rest as the parent's, which is right only for equal sizes. *)
Theorem get_ranges_swaps_cells d node q cc pc sc len doff i lc lp ls :
  devtree_find_prop node (lit chars_ranges) d = Ret (q, d) → q ≠ 0 →
  devtree_get_ranges_num_cells node d = Ret ((cc, pc, sc), d) → 0 ≤ cc ≤ 2 → 0 ≤ pc ≤ 2 → 0 ≤ sc ≤ 2 → 0 < cc + pc + sc →
  int_at (dt_mem d) (prop_len q) len → int_at (dt_mem d) (prop_data q) doff →
  0 ≤ i < len / (4 * (cc + pc + sc)) → 4 * (cc + pc + sc) ≤ len →
  pair_at (dt_mem d) (DEVTREE_DATA (dt_head d) doff) (4 * (cc + pc + sc)) i (lc ++ lp ++ ls) →
  Z.of_nat (length lc) = 4 * cc → Z.of_nat (length lp) = 4 * pc → Z.of_nat (length ls) = 4 * sc →
  let k := Z.to_nat (4 * pc) in
  get_ranges node i d = Ret ((if 1 <? len / (4 * (cc + pc + sc)) - i then i + 1 else 0,
    Some (be_val (take k (lc ++ lp)), be_val (drop k (lc ++ lp)), be_val ls)), d) ∧
  (cc = pc → take k (lc ++ lp) = lc ∧ drop k (lc ++ lp) = lp).
Proof.
  intros Hf Hq Hcells Hcc Hpc Hsc Hpos Hlen Hdoff Hi Hsz Hpair Lc Lp Ls k. split.
  - eapply (get_ranges_run d node q cc pc sc len doff i); try done.
    + by rw app_assoc take_drop -app_assoc.
    + rw length_take length_app. lia.
    + rw length_drop length_app. lia.
  - intros ->. assert (k = length lc) as -> by lia. by rw take_app_length drop_app_length.
Qed.

(** A name that begins a longer name already stored is lost: the search for
    an existing copy ignores where the stored string ends, so the new node or
    property gets the longer name. *)
Theorem stored_name_grows d pn name suf pre rest : strings_at d (pre ++ (name ++ suf) ++ 0 :: rest) → name ≠ [] → suf ≠ [] → text (name ++ suf) →
  name_at (dt_mem d) pn name → occurs name (pre ++ (name ++ suf) ++ 0 :: rest) = Some (length pre) →
  ∃ p, alloc_and_copy_str pn d = Ret (p, d) ∧ cstr (dt_mem d) p (name ++ suf) ∧ name ++ suf ≠ name.
Proof.
  intros Hs Hn Hsuf Ht Hp Ho. exists (dt_strs d + Z.of_nat (length pre)). split_and!; [exact (alloc_str_found d pn name _ _ Hs Hn Hp Ho)| |].
  - split; [|done]. destruct Hs as (_ & _ & Ha & _). apply arr_app in Ha as [_ Ha]. replace ((name ++ suf) ++ 0 :: rest) with (((name ++ suf) ++ [0]) ++ rest) in Ha.
    + by apply arr_app in Ha as [? _].
    + by rw -(app_assoc (name ++ suf)).
  - intros E. apply Hsuf. rw -{2}(app_nil_r name) in E. by apply app_inv_head in E.
Qed.

(** The space left is overestimated by the padding of every new string, and a
    string that fits the estimate only overwrites the structures behind the
    strings. *)
Theorem string_space_overestimated d pn name l off : strings_at d l → name ≠ [] → name_at (dt_mem d) pn name → occurs name l = None →
  0 ≤ string_offset d < 2 ^ 30 → Z.of_nat (length name) + 1 < 2 ^ 30 → Z.of_nat (length name) + 1 ≤ remain_size d →
  off = WORD * ((string_offset d + WORD - 1) / WORD) → owned (dt_mem d) (dt_buf d + off) (Z.of_nat (length name) + 1) →
  (pn + Z.of_nat (length name) < dt_buf d + off ∨ dt_buf d + off + Z.of_nat (length name) + 1 ≤ pn) →
  ∃ d', alloc_and_copy_str pn d = Ret (dt_buf d + off, d') ∧
    remain_size d' - (struct_offset d' - string_offset d') = remain_size d - (struct_offset d - string_offset d) + (off - string_offset d) ∧
    (off ≤ struct_offset d < off + Z.of_nat (length name) + 1 →
     dt_mem d' !! (dt_buf d + struct_offset d) = (name ++ [0]) !! Z.to_nat (struct_offset d - off)).
Proof.
  intros Hs Hn Hp Ho Hoff Hlen Hrem Eoff Hown Hdis. eexists. split; [exact (alloc_str_new d pn name l off Hs Hn Hp Ho Hoff Hlen Hrem Eoff Hown Hdis)|]. cbn. split; [lia|]. intros Hr.
  rw put_in; [rw length_app /=; lia|]. f_equal. lia.
Qed.
End DevtreeSpec.
