(* ===== verification/DevtreeDemo.v ===== *)
(** A small device tree in memory, on which the properties of the device tree
    library are applied. *)

From Stdlib Require Import String.
From stdpp Require Import base list gmap.
From Stdlib Require Import ZArith Lia.
From Corelib Require Import ssreflect.
From S2P Require Import Prelude Bits Str StrSpec MemWords Devtree DevtreeSpec.

(** A tree at 1000: the root, a bus with addresses of two cells, and the bus's
    two children "cpu@1" and "cpu".  Byte 64 on holds "cpu@1" and byte 72 on a
    text "cpu" that callers pass. *)
Definition demo_ints (l : list Z) : list Z := l ≫= λ v, @num_bytes riscv64 4 (u32 v).
Definition demo_tree_mem : mem :=
  put (put (put (put (put (put (put (put (put (put ∅
    1000 (demo_ints [100; 64; 400; 0]))
    1016 (chars "ranges" ++ [0]))
    1032 (chars "#address-cells" ++ [0]))
    1048 (chars "#size-cells" ++ [0]))
    1064 (chars "cpu@1" ++ [0]))
    1072 (chars "cpu" ++ [0]))
    1100 (demo_ints [64; 0; 0; 120; 0] ++ demo_ints [64; 200; 100; 140; 0] ++ demo_ints [64; 0; 120; 0; 160] ++ demo_ints [72; 0; 120; 0; 0]))
    1200 (demo_ints [16; 300; 16; 120; 220] ++ demo_ints [32; 320; 4; 120; 0]))
    1300 ([0; 0; 0; 0; 0; 0; 16; 0] ++ [128; 0; 0; 0] ++ [0; 0; 16; 0]))
    1320 [0; 0; 0; 2].
Definition demo_tree : dt := mk_dt demo_tree_mem 1000 96 100 6 300 0 1000 1064.
Definition demo_lit : Literals :=
  {| lit := λ l, if decide (l = chars_ranges) then 1016 else if decide (l = chars "#address-cells") then 1032 else 1048 |}.

Ltac demo_bytes := vm_compute; repeat split; discriminate.

Lemma demo_name p l : arr demo_tree_mem p (l ++ [0]) → text l → 0 < p → (length l < 20)%nat → name_at demo_tree_mem p l.
Proof. intros. split_and!; [done|done|lia]. Qed.

Lemma demo_entry p off l nx r : p ≠ 0 → @int_at riscv64 demo_tree_mem p off → off ≠ 0 → name_at demo_tree_mem (1000 + off) l →
  @int_at riscv64 demo_tree_mem (p + 16) nx → @chain riscv64 demo_tree_mem 1000 (DEVTREE_DATA 1000 nx) r →
  @chain riscv64 demo_tree_mem 1000 p ((p, l) :: r).
Proof. intros. cbn [chain]. split_and!; [done|done|by exists off|by exists nx]. Qed.

Lemma demo_cpu : name_at demo_tree_mem 1072 (chars "cpu").
Proof. apply demo_name; [demo_bytes|repeat constructor|lia|vm_compute; lia]. Qed.

Lemma demo_cpu1 : name_at demo_tree_mem 1064 (chars "cpu@1").
Proof. apply demo_name; [demo_bytes|repeat constructor|lia|vm_compute; lia]. Qed.

Lemma demo_props : @chain riscv64 demo_tree_mem 1000 1200 [(1200, chars "ranges"); (1220, chars "#address-cells")].
Proof.
  apply (demo_entry 1200 16 _ 220); [lia|demo_bytes|lia| |demo_bytes|].
  { apply demo_name; [demo_bytes|repeat constructor|lia|vm_compute; lia]. }
  apply (demo_entry 1220 32 _ 0); [lia|demo_bytes|lia| |demo_bytes|done].
  apply demo_name; [demo_bytes|repeat constructor|lia|vm_compute; lia].
Qed.

Lemma demo_children : @chain riscv64 demo_tree_mem 1000 1140 [(1140, chars "cpu@1"); (1160, chars "cpu")].
Proof.
  apply (demo_entry 1140 64 _ 160); [lia|demo_bytes|lia|exact demo_cpu1|demo_bytes|].
  apply (demo_entry 1160 72 _ 0); [lia|demo_bytes|lia|exact demo_cpu|demo_bytes|done].
Qed.

(** The bus has no property "cpu"; of its children the second is found, because
    its name is exactly "cpu". *)
Lemma searches_find_first_witness :
  @devtree_find_prop riscv64 signed_char 1120 1072 demo_tree = Ret (0, demo_tree) ∧
  @devtree_find_child_node riscv64 signed_char 1120 1072 demo_tree = Ret (1160, demo_tree).
Proof.
  destruct (@searches_find_first riscv64 signed_char demo_tree 1120 1072 (chars "cpu") [(1200, chars "ranges"); (1220, chars "#address-cells")]
    [(1140, chars "cpu@1"); (1160, chars "cpu")] 200 140) as (E1 & _ & E2);
    [discriminate|exact demo_cpu|demo_bytes|exact demo_props|demo_bytes|exact demo_children|]. split; [exact E1|exact E2].
Defined.

(** The bus's pair maps 16 * 256 to 2^31; the code reads it otherwise. *)
Lemma get_ranges_swaps_cells_witness :
  @get_ranges riscv64 signed_char demo_lit 1120 0 demo_tree = Ret ((0, Some (0, 4096 * 2 ^ 32 + 2 ^ 31, 4096)), demo_tree).
Proof.
  pose proof (@get_ranges_swaps_cells riscv64 signed_char demo_lit demo_tree 1120 1200 2 1 1 16 300 0 [0; 0; 0; 0; 0; 0; 16; 0] [128; 0; 0; 0] [0; 0; 16; 0]) as T.
  destruct T as [E _]; [vm_compute; reflexivity|discriminate|vm_compute; reflexivity|lia|lia|lia|lia|demo_bytes|demo_bytes|vm_compute; split; [discriminate|reflexivity]|vm_compute; discriminate| | reflexivity..|].
  - split; [demo_bytes|]. split; [repeat constructor; discriminate|reflexivity].
  - exact E.
Defined.

Lemma demo_bus_ranges : @ranges_at riscv64 signed_char demo_lit demo_tree 1120 [(0, 4096 * 2 ^ 32 + 2 ^ 31, 4096)].
Proof.
  split_and!; [|done|].
  - exists 1000. intros a Ha. cbn in Ha. assert (a = 1000) as -> by lia. by eexists.
  - intros i x Hi. destruct i; [|done]. injection Hi as <-. vm_compute. reflexivity.
Qed.

Lemma demo_root_ranges : @ranges_at riscv64 signed_char demo_lit demo_tree 1100 [].
Proof.
  split_and!; [|intros _; vm_compute; reflexivity|by intros].
  exists 1000. intros a Ha. cbn in Ha. lia.
Qed.

(** An address of a child of the bus, moved by the bus's pair as it is read. *)
Lemma translate_addr_correct_witness :
  @devtree_translate_addr riscv64 signed_char demo_lit 1140 16 demo_tree = Ret (4096 * 2 ^ 32 + 2 ^ 31 + 16, demo_tree).
Proof.
  rw (@translate_addr_correct riscv64 signed_char demo_lit demo_tree 1140 120 [(1120, [(0, 4096 * 2 ^ 32 + 2 ^ 31, 4096)]); (1100, [])] 16).
  - demo_bytes.
  - split_and!; [done|discriminate|]. exists 100. split; [demo_bytes|]. split_and!; [done|discriminate|]. exists 0. split; [demo_bytes|done].
  - apply Forall_cons. split; [exact demo_bus_ranges|]. apply Forall_singleton. exact demo_root_ranges.
  - reflexivity.
Defined.

(** "cpu" is found in the stored "cpu@1". *)
Lemma stored_name_grows_witness :
  ∃ p, @alloc_and_copy_str riscv64 signed_char 1072 demo_tree = Ret (p, demo_tree) ∧ cstr demo_tree_mem p (chars "cpu@1").
Proof.
  destruct (@stored_name_grows riscv64 signed_char demo_tree 1072 (chars "cpu") (chars "@1") [] []) as (p & E & Hc & _).
  - split_and!; [discriminate|done|demo_bytes|repeat constructor; discriminate|done|done].
  - discriminate.
  - discriminate.
  - repeat constructor.
  - exact demo_cpu.
  - vm_compute. reflexivity.
  - exists p. split; [exact E|exact Hc].
Defined.
