(* ===== verification/Futex.v ===== *)
(** Synchronisation of user threads: the futexes of [src/src/libc/sys/futex.c],
    and on top of them the mutexes, semaphores, condition variables,
    readers-writer locks and barriers of [src/src/libc/kth], the wait events of
    [src/src/kernel/proc/event.c], with the kernel's side of waiting on a futex
    ([src/src/kernel/proc/wait.c]) and the atomic operations of
    [src/src/common/include/atomic.h].

    Threads run at the same time on a memory of words.  A function is a program
    whose steps are its accesses to shared memory and its system calls; local
    computation takes no step of its own.  Nested loops whose only exits are
    [break]s of the innermost loop are one loop: an iteration ends by returning
    from the function or by continuing with the values of [num_spins] and
    [f_new], the two local variables that live longer than an iteration.
    [f_new] is not initialised: what it holds first is a parameter ([junk]).
    Barriers of the memory model have no counterpart.  [max_spin], a field that
    does not change after initialisation, is an argument, and so is the address
    of a local variable that other threads reach. *)

From stdpp Require Import base list gmap.
From Stdlib Require Import ZArith Lia.
From Corelib Require Import ssreflect.
From S2P Require Import Prelude Wait MemWords.

(** ** Programs *)

(** How an iteration or a function ends. *)
Inductive ctl :=
| Continue (num_spins f_new : Z)
| Return (v : Z).

(** [SysWait2], [SysWake2] are system calls that hold the lock of the wait queue
    and have seen the kernel bit they need; [Asleep] is a thread in the queue. *)
Inductive prog :=
| Done (o : ctl)
| Bind (e : prog) (k : ctl → prog)
| Loop (body : Z → Z → prog) (num_spins f_new : Z)
| Load (p : Z)
| Store (p v : Z)
| CasVal (p old_val new_val : Z)
| Stop
| SysWait (f when : Z)
| SysWait2 (f when : Z)
| Asleep (ticket : nat)
| SysWake (f when : Z)
| SysWake2 (f when : Z).

Definition ret (v : Z) : prog := Done (Return v).
Definition again (num_spins : Z) : prog := Done (Continue num_spins 0).
Definition then_do (e : prog) (k : Z → prog) : prog :=
  Bind e (λ o, match o with Return v => k v | Continue n f => Done (Continue n f) end).

Declare Scope prog_scope.
Delimit Scope prog_scope with prog.
Notation "x ← e ; k" := (then_do e (λ x, k)) (at level 20, e at level 100, k at level 200, only parsing) : prog_scope.
Notation "e ;; k" := (then_do e (λ _, k)) (at level 100, k at level 200, right associativity, only parsing) : prog_scope.

(** ** The machine *)

(** Memory, the threads in the wait queue with the futexes they wait for, and
    whether the queue is locked.  Every entry of the queue has its own number. *)
Record machine := mk_machine {
  words : gmap Z Z;
  queue : gmap nat Z;
  queue_locked : bool;
  next_ticket : nat
}.

Definition set_words (w : gmap Z Z) (s : machine) : machine := mk_machine w (queue s) (queue_locked s) (next_ticket s).
Definition set_queue (q : gmap nat Z) (l : bool) (s : machine) : machine := mk_machine (words s) q l (next_ticket s).

Section Machine.
Context `{Arch}.
Local Open Scope prog_scope.

(** The test of [futex->locked] against [wait_value] in [wait_on_object] and
    [wake_on_object]. *)
Definition when_holds (value when : Z) : bool :=
  let when_val := Z.land when FUTEX_VALUE_MASK in
  if ctrue (Z.land when FUTEX_WHEN_NE) then negb (futex_locked value =? when_val) else futex_locked value =? when_val.

Definition sleep_on (f : Z) (s : machine) : machine :=
  mk_machine (words s) (<[next_ticket s := f]> (queue s)) false (S (next_ticket s)).
Definition wake_all (f : Z) (s : machine) : machine := set_queue (filter (λ e, e.2 ≠ f) (queue s)) false s.

(** The next step of a thread.  A thread that has to wait for the lock of the
    queue, or that sleeps, stays where it is; one that accesses memory that is
    not there, or has stopped in a panic, has no next step. *)
Fixpoint pstep (e : prog) (s : machine) : option (prog * machine) :=
  match e with
  | Done _ => None
  | Bind (Done o) k => Some (k o, s)
  | Bind e k => match pstep e s with Some (e', s') => Some (Bind e' k, s') | None => None end
  | Loop body n f => Some (Bind (body n f) (λ o, match o with Continue n' f' => Loop body n' f' | Return v => ret v end), s)
  | Load p => match words s !! p with Some v => Some (ret v, s) | None => None end
  | Store p v => match words s !! p with Some _ => Some (ret 0, set_words (<[p := v]> (words s)) s) | None => None end
  | CasVal p old_val new_val =>
      match words s !! p with
      | Some v => Some (ret v, if v =? old_val then set_words (<[p := new_val]> (words s)) s else s)
      | None => None
      end
  | Stop => None
  | SysWait f when =>
      if queue_locked s then Some (e, s) else
      match words s !! f with
      | Some v => if futex_kernel v then Some (SysWait2 f when, set_queue (queue s) true s) else Some (ret (-1), s)
      | None => Some (ret (-1), s)
      end
  | SysWait2 f when =>
      match words s !! f with
      | Some v => if when_holds v when then Some (Asleep (next_ticket s), sleep_on f s) else Some (ret (-1), set_queue (queue s) false s)
      | None => Some (ret (-1), set_queue (queue s) false s)
      end
  | Asleep n => match queue s !! n with Some _ => Some (e, s) | None => Some (ret 0, s) end
  | SysWake f when =>
      if queue_locked s then Some (e, s) else
      match words s !! f with
      | Some v => if futex_kernel v then Some (ret 0, s) else Some (SysWake2 f when, set_queue (queue s) true s)
      | None => Some (ret 0, s)
      end
  | SysWake2 f when =>
      match words s !! f with
      | Some v => if when_holds v when then Some (ret 0, wake_all f s) else Some (ret 0, set_queue (queue s) false s)
      | None => Some (ret 0, set_queue (queue s) false s)
      end
  end.

(** ** Futex words *)

(** Assignments to the fields [kernel] and [locked] of a word. *)
Definition kernel_pos : Z := if ARCH_BIG_ENDIAN then ARCH_WIDTH - 1 else 0.
Definition set_kernel (v : Z) (b : bool) : Z := if b then Z.setbit v kernel_pos else Z.clearbit v kernel_pos.
Definition set_locked (v l : Z) : Z :=
  let l := wrap (ARCH_WIDTH - 1) l in
  if ARCH_BIG_ENDIAN then Z.lor (Z.land v (2 ^ (ARCH_WIDTH - 1))) l else Z.lor (Z.land v 1) (Z.shiftl l 1).

Definition FUTEX_WHEN_EQ : Z := 0.

Definition atomic_cas_bool (p old_val new_val : Z) : prog :=
  read_val ← CasVal p old_val new_val;
  ret (if read_val =? old_val then 1 else 0).

(** ** Futexes *)

Definition futex_init (f : Z) : prog := Store f 0;; ret 0.
Definition futex_destory (f : Z) : prog := Store f 0;; ret 0.

(** [spin >= 0 || ++num_spins > spin]: the test, and [num_spins] after it. *)
Definition go_kernel (spin num_spins : Z) : bool * Z :=
  if 0 <=? spin then (true, num_spins) else (spin <? num_spins + 1, num_spins + 1).

Definition futex_lock (f spin : Z) : prog :=
  Loop (λ num_spins _,
    f_old ← Load f;
    if ctrue (futex_locked f_old) then
      let '(go, num_spins) := go_kernel spin num_spins in
      let f_new := if go then set_kernel f_old true else f_old in
      ok ← atomic_cas_bool f f_old f_new;
      if ctrue ok then
        if futex_kernel f_new then SysWait f (Z.lor FUTEX_WHEN_EQ 1);; again 0 else again 0
      else again num_spins
    else
      ok ← atomic_cas_bool f f_old (set_locked f_old 1);
      if ctrue ok then ret 0 else again num_spins) 0 0.

(** [continue] leads to the test of the loop, the swap of [f_new], which in the
    first iteration has not been assigned. *)
Definition futex_wait (junk f spin : Z) : prog :=
  Loop (λ num_spins f_new,
    f_old ← Load f;
    if negb (ctrue (futex_locked f_old)) then ret 0 else
    let go_on := (spin <? 0) || (spin <? num_spins + 1) in
    let num_spins := if spin <? 0 then num_spins else num_spins + 1 in
    let f_new := if go_on then f_new else set_kernel f_old true in
    ok ← atomic_cas_bool f f_old f_new;
    if ctrue ok then
      if futex_kernel f_new then SysWait f (Z.lor FUTEX_WHEN_EQ 1);; Done (Continue 0 f_new)
      else Done (Continue 0 f_new)
    else Done (Continue num_spins f_new)) 0 junk.

Definition futex_trylock (f : Z) : prog :=
  f_old ← Load f;
  if ctrue (futex_locked f_old) then ret (-1) else
  success ← atomic_cas_bool f f_old (set_locked f_old 1);
  ret (if ctrue success then 0 else -1).

(** The second loop of [futex_unlock], and the call after it. *)
Definition futex_notify (f : Z) : prog :=
  Loop (λ _ _,
    f_old ← Load f;
    if ctrue (futex_locked f_old) || negb (futex_kernel f_old) then ret 0 else
    ok ← atomic_cas_bool f f_old (set_kernel f_old false);
    if ctrue ok then SysWake f (Z.lor FUTEX_WHEN_EQ 0);; ret 0 else again 0) 0 0.

Definition futex_unlock (f : Z) : prog :=
  Loop (λ _ _,
    f_old ← Load f;
    if negb (ctrue (futex_locked f_old)) then ret (-1) else
    let f_new := set_locked f_old 0 in
    ok ← atomic_cas_bool f f_old f_new;
    if ctrue ok then if futex_kernel f_new then futex_notify f else ret 0
    else again 0) 0 0.

Definition futex_is_locked (f : Z) : prog := v ← Load f; ret (if ctrue (futex_locked v) then 1 else 0).

(** ** Mutexes *)

(** The futex is the first field of a mutex; what is stored in [max_spin] is
    passed to the operations. *)
Definition MUTEX_MAX_SPIN : Z := 100.
Definition mutex_init (lock : Z) : prog := futex_init lock;; ret 0.
Definition mutex_init_spin (lock : Z) : prog := futex_init lock;; ret 0.
Definition mutex_destroy (lock : Z) : prog := futex_destory lock;; ret 0.
Definition mutex_lock (lock max_spin : Z) : prog := futex_lock lock max_spin;; ret 0.
Definition mutex_lock_spin (lock max_spin : Z) : prog := futex_lock lock max_spin;; ret 0.
Definition mutex_trylock (lock : Z) : prog := futex_trylock lock.
Definition mutex_unlock (lock : Z) : prog := futex_unlock lock;; ret 0.
Definition mutex_is_locked (lock : Z) : prog := futex_is_locked lock.

(** ** Semaphores *)

(** The futex is the first field; [max_count] and [max_spin] are arguments. *)
Definition SEMA_MAX_SPIN : Z := 100.
Definition sema_init (sema : Z) : prog := futex_init sema;; ret 0.
Definition sema_init_default (sema : Z) : prog := futex_init sema;; ret 0.
Definition sema_init_spin (sema : Z) : prog := futex_init sema;; ret 0.
Definition sema_init_default_spin (sema : Z) : prog := futex_init sema;; ret 0.
Definition sema_destroy (sema : Z) : prog := futex_destory sema;; ret 0.

Definition sema_wait_spin (sema max_spin : Z) : prog :=
  Loop (λ num_spins _,
    f_old ← Load sema;
    if negb (ctrue (futex_locked f_old)) then
      let '(go, num_spins) := go_kernel max_spin num_spins in
      let f_new := if go then set_kernel f_old true else f_old in
      ok ← atomic_cas_bool sema f_old f_new;
      if ctrue ok then
        if futex_kernel f_new then SysWait sema (Z.lor FUTEX_WHEN_EQ 0);; again 0 else again 0
      else again num_spins
    else
      ok ← atomic_cas_bool sema f_old (set_locked f_old (futex_locked f_old - 1));
      if ctrue ok then ret 0 else again num_spins) 0 0.

Definition sema_wait (sema max_spin : Z) : prog := sema_wait_spin sema max_spin.

Definition sema_trywait (sema : Z) : prog :=
  f_old ← Load sema;
  if negb (ctrue (futex_locked f_old)) then ret (-1) else
  success ← atomic_cas_bool sema f_old (set_locked f_old (futex_locked f_old - 1));
  ret (if ctrue success then 0 else -1).

(** [f_new] of [sema_post_count]. *)
Definition sema_add (max_count f_old count : Z) : Z :=
  let f_new := set_locked f_old (futex_locked f_old + count) in
  if ctrue max_count && (max_count <? futex_locked f_new) then set_locked f_new max_count else f_new.

Definition sema_notify (sema : Z) : prog :=
  Loop (λ _ _,
    f_old ← Load sema;
    if negb (ctrue (futex_locked f_old)) || negb (futex_kernel f_old) then ret 0 else
    ok ← atomic_cas_bool sema f_old (set_kernel f_old false);
    if ctrue ok then SysWake sema (Z.lor FUTEX_WHEN_NE 0);; ret 0 else again 0) 0 0.

Definition sema_post_count (sema max_count count : Z) : prog :=
  Loop (λ _ _,
    f_old ← Load sema;
    let f_new := sema_add max_count f_old count in
    ok ← atomic_cas_bool sema f_old f_new;
    if ctrue ok then if futex_kernel f_new then sema_notify sema else ret 0
    else again 0) 0 0.

Definition sema_post (sema max_count : Z) : prog := sema_post_count sema max_count 1.

(** ** Condition variables *)

Definition COND_MAX_SPIN : Z := 100.
Definition cond_init (cond : Z) : prog := futex_init cond;; ret 0.
Definition cond_init_spin (cond : Z) : prog := futex_init cond;; ret 0.
Definition cond_destroy (cond : Z) : prog := futex_destory cond;; ret 0.
Definition cond_is_signaled (cond : Z) : prog := futex_is_locked cond.

(** After the first loop: the kernel bit is set and the thread sleeps. *)
Definition cond_sleep (cond : Z) : prog :=
  Loop (λ _ _,
    f_old ← Load cond;
    if ctrue (futex_locked f_old) then ret 0 else
    ok ← atomic_cas_bool cond f_old (set_kernel f_old true);
    if ctrue ok then SysWait cond (Z.lor FUTEX_WHEN_EQ 0);; ret 0 else again 0) 0 0.

Definition cond_wait_spin (cond max_spin : Z) : prog :=
  Loop (λ num_spins _,
    if (max_spin <? 0) || (num_spins <=? max_spin) then
      let num_spins := if max_spin <? 0 then num_spins else num_spins + 1 in
      v ← Load cond;
      if ctrue (futex_locked v) then ret 0 else again num_spins
    else cond_sleep cond) 0 0.

Definition cond_wait (cond max_spin : Z) : prog := cond_wait_spin cond max_spin.
Definition cond_wait2_spin (cond mutex max_spin : Z) : prog := ret (-1).
Definition cond_wait2 (cond mutex max_spin : Z) : prog := cond_wait2_spin cond mutex max_spin.

Definition cond_notify (cond : Z) : prog :=
  Loop (λ _ _,
    f_old ← Load cond;
    if negb (futex_kernel f_old) then ret 0 else
    ok ← atomic_cas_bool cond f_old (set_kernel f_old false);
    if ctrue ok then SysWake cond (Z.lor FUTEX_WHEN_EQ 1);; ret 0 else again 0) 0 0.

Definition cond_signal (cond : Z) : prog :=
  Loop (λ _ _,
    f_old ← Load cond;
    let f_new := set_locked f_old 1 in
    ok ← atomic_cas_bool cond f_old f_new;
    if ctrue ok then if futex_kernel f_new then cond_notify cond else ret 0
    else again 0) 0 0.

(** ** Wait events of the kernel *)

(** [src/src/kernel/proc/event.c]: a condition variable that a thread resets
    after it has waited.  The futex is the first field. *)
Definition event_init (e : Z) : prog := Store e 0;; ret 0.

(** [_wait_for_signal] is written like [cond_wait_spin]. *)
Definition event_sleep (e : Z) : prog :=
  Loop (λ _ _,
    f_old ← Load e;
    if ctrue (futex_locked f_old) then ret 0 else
    ok ← atomic_cas_bool e f_old (set_kernel f_old true);
    if ctrue ok then SysWait e (Z.lor FUTEX_WHEN_EQ 0);; ret 0 else again 0) 0 0.

Definition _wait_for_signal (e max_spin : Z) : prog :=
  Loop (λ num_spins _,
    if (max_spin <? 0) || (num_spins <=? max_spin) then
      let num_spins := if max_spin <? 0 then num_spins else num_spins + 1 in
      v ← Load e;
      if ctrue (futex_locked v) then ret 0 else again num_spins
    else event_sleep e) 0 0.

Definition _reset_signal (e : Z) : prog :=
  Loop (λ _ _,
    f_old ← Load e;
    if negb (ctrue (futex_locked f_old)) then ret 0 else
    ok ← atomic_cas_bool e f_old (set_locked f_old 0);
    if ctrue ok then ret 0 else again 0) 0 0.

Definition event_wait (e max_spin : Z) : prog := _wait_for_signal e max_spin;; _reset_signal e;; ret 0.

Definition event_notify (e : Z) : prog :=
  Loop (λ _ _,
    f_old ← Load e;
    if negb (futex_kernel f_old) then ret 0 else
    ok ← atomic_cas_bool e f_old (set_kernel f_old false);
    if ctrue ok then SysWake e (Z.lor FUTEX_WHEN_EQ 1);; ret 0 else again 0) 0 0.

Definition event_signal (e : Z) : prog :=
  Loop (λ _ _,
    f_old ← Load e;
    let f_new := set_locked f_old 1 in
    ok ← atomic_cas_bool e f_old f_new;
    if ctrue ok then if futex_kernel f_new then event_notify e else ret 0
    else again 0) 0 0.

(** ** Readers-writer locks *)

Definition RWLOCK_MAX_SPIN : Z := -1.
Definition rd_futex (lock : Z) : Z := lock.
Definition wr_futex (lock : Z) : Z := lock + WORD.
Definition wait_futex (lock : Z) : Z := lock + 2 * WORD.

Definition rwlock_init (lock : Z) : prog :=
  futex_init (rd_futex lock);; futex_init (wr_futex lock);; futex_init (wait_futex lock);; ret 0.

Definition rwlock_rlock (junk lock max_spin : Z) : prog :=
  Loop (λ _ _,
    futex_wait junk (wait_futex lock) max_spin;;
    f_old ← Load (rd_futex lock);
    if ctrue (Z.land (futex_locked f_old) 1) then again 0 else
    ok ← atomic_cas_bool (rd_futex lock) f_old (set_locked f_old (futex_locked f_old + 2));
    if ctrue ok then ret 0 else again 0) 0 0.

Definition rwlock_rtrylock (lock : Z) : prog :=
  f_old ← Load (rd_futex lock);
  if ctrue (Z.land (futex_locked f_old) 1) then ret (-1) else
  ok ← atomic_cas_bool (rd_futex lock) f_old (set_locked f_old (futex_locked f_old + 2));
  ret (if ctrue ok then 0 else -1).

(** [Check if syscall is required, and clear kernel flag]. *)
Definition rwlock_notify (lock : Z) : prog :=
  Loop (λ _ _,
    f_old ← Load (rd_futex lock);
    if negb (futex_kernel f_old) then ret 0 else
    ok ← atomic_cas_bool (rd_futex lock) f_old (set_kernel f_old false);
    if ctrue ok then SysWake (rd_futex lock) (Z.lor FUTEX_WHEN_NE 0);; ret 0 else again 0) 0 0.

Definition rwlock_runlock (lock : Z) : prog :=
  Loop (λ _ _,
    f_old ← Load (rd_futex lock);
    if futex_locked f_old <=? 1 then Stop else
    let f_new := set_locked f_old (futex_locked f_old - 2) in
    ok ← atomic_cas_bool (rd_futex lock) f_old f_new;
    if ctrue ok then if futex_locked f_new =? 1 then rwlock_notify lock else ret 0
    else again 0) 0 0.

(** The second loop of [wait_for_reads]. *)
Definition wait_readers_gone (f spin : Z) : prog :=
  Loop (λ num_spins _,
    f_old ← Load f;
    if negb (futex_locked f_old =? 1) then
      let '(go, num_spins) := go_kernel spin num_spins in
      let f_new := if go then set_kernel f_old true else f_old in
      ok ← atomic_cas_bool f f_old f_new;
      if ctrue ok then
        if futex_kernel f_new then SysWait f (Z.lor FUTEX_WHEN_NE 1);; again 0 else again 0
      else again num_spins
    else
      ok ← atomic_cas_bool f f_old (set_kernel f_old false);
      if ctrue ok then ret 0 else again num_spins) 0 0.

Definition wait_for_reads (f spin : Z) : prog :=
  Loop (λ _ _,
    f_old ← Load f;
    if ctrue (Z.land (futex_locked f_old) 1) then Stop else
    ok ← atomic_cas_bool f f_old (set_locked f_old (futex_locked f_old + 1));
    if ctrue ok then wait_readers_gone f spin else again 0) 0 0.

Definition rwlock_wlock (lock max_spin : Z) : prog :=
  futex_lock (wr_futex lock) max_spin;;
  err ← futex_trylock (wait_futex lock);
  if ctrue err then Stop else
  wait_for_reads (rd_futex lock) max_spin.

Definition rwlock_wtrylock (lock : Z) : prog :=
  err ← futex_trylock (wr_futex lock);
  if negb (ctrue err) then ret (-1) else
  f_old ← Load (rd_futex lock);
  if ctrue (Z.land (futex_locked f_old) 1) then Stop else
  if ctrue (futex_locked f_old) then futex_unlock (wr_futex lock);; ret (-1) else
  ok ← atomic_cas_bool (rd_futex lock) f_old (set_locked f_old (Z.lor (futex_locked f_old) 1));
  if negb (ctrue ok) then futex_unlock (wr_futex lock);; ret (-1) else ret 0.

Definition rwlock_wunlock (lock : Z) : prog :=
  f_old ← Load (rd_futex lock);
  if negb (futex_locked f_old =? 1) then Stop else
  ok ← atomic_cas_bool (rd_futex lock) f_old (set_locked f_old 0);
  if negb (ctrue ok) then Stop else
  futex_unlock (wait_futex lock);;
  futex_unlock (wr_futex lock);;
  ret 0.

Definition rwlock_upgrade (lock : Z) : prog := Stop.
Definition rwlock_tryupgrade (lock : Z) : prog := Stop.
Definition rwlock_downgrade (lock : Z) : prog := Stop.

(** ** Barriers *)

Definition atomic_fetch_and_add (p add : Z) : prog :=
  Loop (λ _ _,
    old_val ← Load p;
    ret_val ← CasVal p old_val (ulong (old_val + add));
    if ret_val =? old_val then ret ret_val else again 0) 0 0.
Definition atomic_fetch_and_sub (p sub : Z) : prog :=
  Loop (λ _ _,
    old_val ← Load p;
    ret_val ← CasVal p old_val (ulong (old_val - sub));
    if ret_val =? old_val then ret ret_val else again 0) 0 0.
Definition atomic_inc (p : Z) : prog := atomic_fetch_and_add p 1;; ret 0.
Definition atomic_dec (p : Z) : prog := atomic_fetch_and_sub p 1;; ret 0.

(** Fields of [barrier_local_t] and [barrier_t]. *)
Definition bl_count (l : Z) : Z := l.
Definition bl_release (l : Z) : Z := l + WORD.
Definition bar_local (bar : Z) : Z := bar.
Definition bar_total (bar : Z) : Z := bar + WORD.
Definition bar_wait_obj_id (bar : Z) : Z := bar + 2 * WORD.

(** [obj_id] is the result of [syscall_wait_obj_alloc]. *)
Definition barrier_init (obj_id bar total : Z) : prog :=
  Store (bar_local bar) 0;; Store (bar_total bar) total;; Store (bar_wait_obj_id bar) obj_id;; ret 0.
Definition barrier_destroy (bar : Z) : prog :=
  Store (bar_local bar) 0;; Store (bar_total bar) 0;; Store (bar_wait_obj_id bar) 0;; ret 0.

(** [while (l->count != n)] with [n] read from memory or a constant, and
    [while (!l->release)]. *)
Definition await_total (l bar : Z) : prog :=
  Loop (λ _ _, c ← Load (bl_count l); n ← Load (bar_total bar); if c =? n then ret 0 else again 0) 0 0.
Definition await_one (l : Z) : prog := Loop (λ _ _, c ← Load (bl_count l); if c =? 1 then ret 0 else again 0) 0 0.
Definition await_release (l : Z) : prog := Loop (λ _ _, r ← Load (bl_release l); if ctrue r then ret 0 else again 0) 0 0.

(** [local] is the address of the local variable. *)
Definition barrier_wait (local bar : Z) : prog :=
  total ← Load (bar_total bar);
  if total <=? 1 then ret 0 else
  Store (bl_release local) 0;;
  Store (bl_count local) 0;;
  other_local ← CasVal (bar_local bar) 0 local;
  let first := negb (ctrue other_local) in
  let my_local := if first then local else other_local in
  atomic_inc (bl_count my_local);;
  if first then
    await_total my_local bar;;
    Store (bar_local bar) 0;;
    Store (bl_release my_local) 1;;
    await_one my_local
  else
    await_release my_local;;
    atomic_dec (bl_count my_local).
End Machine.

(** ** Schedules *)

Section Schedule.
Context `{Arch}.

(** The threads take the steps that the list of their numbers says. *)
Fixpoint run_schedule (l : list nat) (ts : list prog) (s : machine) : option (list prog * machine) :=
  match l with
  | [] => Some (ts, s)
  | i :: l =>
      match ts !! i with
      | Some e => match pstep e s with Some (e', s') => run_schedule l (<[i := e']> ts) s' | None => None end
      | None => None
      end
  end.

(** Any thread takes the next step. *)
Inductive pool_step : list prog * machine → list prog * machine → Prop :=
| pool_thread ts s i e e' s' : ts !! i = Some e → pstep e s = Some (e', s') → pool_step (ts, s) (<[i := e']> ts, s').

Lemma run_schedule_steps l : ∀ ts s c, run_schedule l ts s = Some c → rtc pool_step (ts, s) c.
Proof.
  induction l as [|i l IH]; intros ts s c; cbn [run_schedule]; [intros [= <-]; constructor|].
  destruct (ts !! i) as [e|] eqn:Ei; [|done]. destruct (pstep e s) as [[e' s']|] eqn:Ep; [|done].
  intros E. eapply rtc_l; [exact (pool_thread ts s i e _ _ Ei Ep)|]. exact (IH _ _ _ E).
Qed.

(** A thread that has returned, and the number under which a thread sleeps. *)
Definition finished (e : prog) : option Z := match e with Done (Return v) => Some v | _ => None end.
Fixpoint asleep (e : prog) : option nat :=
  match e with Asleep n => Some n | Bind e _ => asleep e | _ => None end.
End Schedule.
