(* ===== verification/FutexLogic.v ===== *)
(** A program logic for threads that share words of memory: the programs of
    [Futex.v] as an Iris language, with rules for accesses to memory that may
    happen while an invariant is open.  System calls need no permission: the
    kernel only reads the futex, and a system call that finds nothing to do
    returns. *)

From iris.proofmode Require Import proofmode.
From iris.base_logic.lib Require Import invariants gen_heap.
From iris.program_logic Require Import weakestpre lifting adequacy.
From Stdlib Require Import ZArith.
From S2P Require Import Prelude Wait Futex.

#[local] Unset SsrOldRewriteGoalsOrder.

(** ** The language *)

Section Language.
Context `{Arch}.

Definition prog_val (e : prog) : option ctl := match e with Done o => Some o | _ => None end.
Definition prog_step (e : prog) (s : machine) (κ : list Empty_set) (e' : prog) (s' : machine) (efs : list prog) : Prop :=
  pstep e s = Some (e', s') ∧ κ = [] ∧ efs = [].

Lemma prog_mixin : LanguageMixin Done prog_val prog_step.
Proof. split; [done|by intros [] ? [= ->]|by intros [] ? ? ? ? ? (? & _)]. Qed.
End Language.

Canonical Structure prog_lang `{Arch} : language := Language prog_mixin.

Section Steps.
Context `{Arch}.

Lemma pstep_bind e k s : prog_val e = None → pstep (Bind e k) s = match pstep e s with Some (e', s') => Some (Bind e' k, s') | None => None end.
Proof. by destruct e. Qed.

#[export] Instance bind_ctx k : LanguageCtx (Λ := prog_lang) (λ e, Bind e k).
Proof.
  split; cbn.
  - done.
  - intros e s κ e' s' efs (E & -> & ->). split; [|done]. rw pstep_bind; [by destruct e|by rw E].
  - intros e s κ e' s' efs Hv (E & -> & ->). rw pstep_bind // in E. destruct (pstep e s) as [[e2 s2]|] eqn:Ep; [|done].
    simplify_eq. by exists e2.
Qed.

Lemma pool_erased c c' : pool_step c c' → erased_step (Λ := prog_lang) c c'.
Proof.
  intros [ts s i e e' s' Hi Hp]. exists []. apply list_elem_of_split_length in Hi as (l1 & l2 & -> & ->).
  eapply (step_atomic e s e' s' [] l1 l2); [done| |done]. cbn. rw app_nil_r. by rw insert_app_r_alt // Nat.sub_diag.
Qed.

Lemma pool_erased_rtc c c' : rtc pool_step c c' → rtc (erased_step (Λ := prog_lang)) c c'.
Proof. induction 1 as [|c1 c2 c3 Hs _ IH]; [constructor|]. eapply rtc_l; [by apply pool_erased|done]. Qed.
End Steps.

(** ** Permissions *)

Class threadGS Σ := ThreadGS {
  thread_invGS :: invGS Σ;
  thread_heapGS :: gen_heapGS Z Z Σ
}.

(** The permission to access a word, and its value. *)
Notation "p ↦ v" := (pointsto (L := Z) (V := Z) p (DfracOwn 1) v) (at level 20, format "p  ↦  v") : bi_scope.

#[export] Instance thread_irisGS `{Arch} `{!threadGS Σ} : irisGS prog_lang Σ := {|
  iris_invGS := thread_invGS;
  state_interp (s : machine) _ _ _ := gen_heap_interp (words s);
  fork_post _ := True%I;
  num_laters_per_step _ := 0%nat;
  state_interp_mono _ _ _ _ := fupd_intro _ _
|}.

Section Rules.
Context `{Arch} `{!threadGS Σ}.
Implicit Types (p v : Z) (Φ : ctl → iProp Σ).

#[export] Instance into_val_done o : IntoVal (Λ := prog_lang) (Done o) o.
Proof. done. Qed.

Lemma wp_return v Φ : Φ (Return v) ⊢ WP ret v {{ Φ }}.
Proof. iIntros "H". by iApply (wp_value _ _ _ (Done (Return v))). Qed.

(** A step that leaves memory alone. *)
Lemma wp_silent e Φ : prog_val e = None →
  (∀ s, ∃ e' s', pstep e s = Some (e', s')) →
  (∀ s e' s', pstep e s = Some (e', s') → words s' = words s) →
  ▷ (∀ s e' s', ⌜pstep e s = Some (e', s')⌝ -∗ WP e' {{ Φ }}) ⊢ WP e {{ Φ }}.
Proof.
  iIntros (Hv Hr Hw) "H". iApply wp_lift_step; [done|]. iIntros (s ns κ κs nt) "Hs".
  iApply fupd_mask_intro; [set_solver|]. iIntros "Hclose". iSplit.
  { iPureIntro. destruct (Hr s) as (e' & s' & E). by exists [], e', s', []. }
  iNext. iIntros (e' s' efs (E & -> & ->)) "_". iMod "Hclose" as "_". iModIntro. cbn. rw (Hw _ _ _ E). iFrame "Hs".
  iSplit; [|done]. by iApply "H".
Qed.

Lemma wp_loop body n f Φ :
  ▷ WP Bind (body n f) (λ o, match o with Continue n' f' => Loop body n' f' | Return v => ret v end) {{ Φ }} ⊢ WP Loop body n f {{ Φ }}.
Proof.
  iIntros "H". iApply wp_silent; [done|by intros s; eexists _, _|by intros s e' s' [= _ <-]|]. iIntros "!>" (s e' s' [= <- <-]). done.
Qed.

Lemma wp_done o k Φ : ▷ WP k o {{ Φ }} ⊢ WP Bind (Done o) k {{ Φ }}.
Proof.
  iIntros "H". iApply wp_silent; [done|by intros s; eexists _, _|by intros s e' s' [= _ <-]|]. iIntros "!>" (s e' s' [= <- <-]). done.
Qed.

Lemma wp_seq e k Φ : WP e {{ o, ▷ WP k o {{ Φ }} }} ⊢ WP Bind e k {{ Φ }}.
Proof. iIntros "H". iApply (weakestpre.wp_bind (λ e, Bind e k)). iApply (wp_wand with "H"). iIntros (o) "H". by iApply wp_done. Qed.

(** A loop keeps an invariant [R] of its variables. *)
Lemma wp_loop_inv (R : Z → Z → iProp Σ) body n f Φ :
  □ (∀ n f, R n f -∗ WP body n f {{ o, match o with Continue n' f' => R n' f' | Return v => Φ (Return v) end }}) -∗
  R n f -∗ WP Loop body n f {{ Φ }}.
Proof.
  iIntros "#Hb". iLöb as "IH" forall (n f). iIntros "HR". iApply wp_loop. iNext. iApply wp_seq. iApply (wp_wand with "[HR]"); [by iApply "Hb"|].
  iIntros ([n' f'|v]) "H"; iNext; [by iApply "IH"|]. by iApply wp_return.
Qed.

(** Sequences of a step that returns. *)
Lemma wp_then e k Φ : WP e {{ o, ∃ v, ⌜o = Return v⌝ ∗ ▷ WP k v {{ Φ }} }} ⊢ WP then_do e k {{ Φ }}.
Proof. iIntros "H". iApply wp_seq. iApply (wp_wand with "H"). by iIntros (o) "(%v & -> & H)". Qed.

(** An access to a word while invariants are open. *)
Lemma wp_load_acc E p Φ : (|={⊤,E}=> ∃ v, ▷ p ↦ v ∗ (p ↦ v ={E,⊤}=∗ Φ (Return v))) ⊢ WP Load p {{ Φ }}.
Proof.
  iIntros "H". iApply wp_lift_step; [done|]. iIntros (s ns κ κs nt) "Hs". iMod "H" as (v) "[>Hp H]".
  iDestruct (gen_heap_valid with "Hs Hp") as %Hv. iApply fupd_mask_intro; [set_solver|]. iIntros "Hc". iSplit.
  { iPureIntro. exists [], (ret v), s, []. split; [|done]. cbn. by rw Hv. }
  iNext. iIntros (e' s' efs (Ep & -> & ->)) "_". cbn in Ep. rw Hv in Ep. simplify_eq. iMod "Hc" as "_". iMod ("H" with "Hp") as "H". iModIntro. iFrame "Hs".
  iSplit; [|done]. by iApply wp_return.
Qed.

Lemma wp_cas_acc E p old new Φ :
  (|={⊤,E}=> ∃ v, ▷ p ↦ v ∗ (p ↦ (if v =? old then new else v) ={E,⊤}=∗ Φ (Return v))) ⊢ WP CasVal p old new {{ Φ }}.
Proof.
  iIntros "H". iApply wp_lift_step; [done|]. iIntros (s ns κ κs nt) "Hs". iMod "H" as (v) "[>Hp H]".
  iDestruct (gen_heap_valid with "Hs Hp") as %Hv. iApply fupd_mask_intro; [set_solver|]. iIntros "Hc". iSplit.
  { iPureIntro. eexists [], (ret v), _, []. split; [|done]. cbn. by rw Hv. }
  iNext. iIntros (e' s' efs (Ep & -> & ->)) "_". cbn in Ep. rw Hv in Ep. simplify_eq. iMod "Hc" as "_". destruct (v =? old).
  - iMod (gen_heap_update with "Hs Hp") as "[Hs Hp]". iMod ("H" with "Hp") as "H". iModIntro. iFrame "Hs". iSplit; [|done]. by iApply wp_return.
  - iMod ("H" with "Hp") as "H". iModIntro. iFrame "Hs". iSplit; [|done]. by iApply wp_return.
Qed.

Lemma wp_load p v Φ : p ↦ v -∗ (p ↦ v -∗ Φ (Return v)) -∗ WP Load p {{ Φ }}.
Proof.
  iIntros "Hp H". iApply (wp_load_acc ⊤). iModIntro. iExists v. iFrame "Hp". iIntros "Hp !>". by iApply "H".
Qed.

(** A part of the permission is enough for a read. *)
Lemma wp_load_frac p q v Φ : pointsto p (DfracOwn q) v -∗ (pointsto p (DfracOwn q) v -∗ Φ (Return v)) -∗ WP Load p {{ Φ }}.
Proof.
  iIntros "Hp H". iApply wp_lift_step; [done|]. iIntros (s ns κ κs nt) "Hs". iDestruct (gen_heap_valid with "Hs Hp") as %Hv.
  iApply fupd_mask_intro; [set_solver|]. iIntros "Hc". iSplit.
  { iPureIntro. exists [], (ret v), s, []. split; [|done]. cbn. by rw Hv. }
  iNext. iIntros (e' s' efs (E & -> & ->)) "_". cbn in E. rw Hv in E. simplify_eq. iMod "Hc" as "_". iModIntro. iFrame "Hs".
  iSplit; [|done]. iApply wp_return. by iApply "H".
Qed.

(** The permissions for different words. *)
Lemma take_words (m : gmap Z Z) (l : list (Z * Z)) : NoDup l.*1 → Forall (λ e, m !! e.1 = Some e.2) l →
  ([∗ map] p ↦ v ∈ m, p ↦ v) ⊢ [∗ list] e ∈ l, e.1 ↦ e.2.
Proof.
  intros Hd Hl. rw (big_sepM_subseteq _ m (list_to_map l)).
  - apply map_subseteq_spec. intros p v Hp. apply elem_of_list_to_map in Hp; [|done]. exact (proj1 (list.Forall_forall _ _) Hl _ Hp).
  - rw big_sepM_list_to_map //.
Qed.

Lemma wp_store p v w Φ : p ↦ v -∗ (p ↦ w -∗ Φ (Return 0)) -∗ WP Store p w {{ Φ }}.
Proof.
  iIntros "Hp H". iApply wp_lift_step; [done|]. iIntros (s ns κ κs nt) "Hs". iDestruct (gen_heap_valid with "Hs Hp") as %Hv.
  iApply fupd_mask_intro; [set_solver|]. iIntros "Hc". iSplit.
  { iPureIntro. eexists [], (ret 0), _, []. split; [|done]. cbn. by rw Hv. }
  iNext. iIntros (e' s' efs (E & -> & ->)) "_". cbn in E. rw Hv in E. simplify_eq.
  iMod (gen_heap_update with "Hs Hp") as "[Hs Hp]". iMod "Hc" as "_". iModIntro. iFrame "Hs". iSplit; [|done]. iApply wp_return. by iApply "H".
Qed.

Lemma wp_cas_bool_acc E p old new Φ :
  (|={⊤,E}=> ∃ v, ▷ p ↦ v ∗ (p ↦ (if v =? old then new else v) ={E,⊤}=∗ Φ (Return (if v =? old then 1 else 0)))) ⊢
  WP atomic_cas_bool p old new {{ Φ }}.
Proof.
  iIntros "H". iApply wp_seq. iApply (wp_cas_acc E). iMod "H" as (v) "[Hp H]". iModIntro. iExists v. iFrame "Hp". iIntros "Hp".
  iMod ("H" with "Hp") as "H". iIntros "!> !>". by iApply wp_return.
Qed.

(** ** System calls *)

Lemma wp_asleep n Φ : (∀ v, Φ (Return v)) ⊢ WP Asleep n {{ Φ }}.
Proof.
  iIntros "H". iLöb as "IH". iApply wp_silent; [done| | |].
  - intros s. cbn. destruct (queue s !! n); by eexists _, _.
  - intros s e' s'. cbn. by destruct (queue s !! n); intros [= _ <-].
  - iIntros "!>" (s e' s' E). cbn in E. destruct (queue s !! n); simplify_eq; [by iApply "IH"|]. iApply wp_return. iApply "H".
Qed.

Lemma wp_syswait f w Φ : (∀ v, Φ (Return v)) ⊢ WP SysWait f w {{ Φ }}.
Proof.
  iIntros "H". iLöb as "IH". iApply wp_silent; [done| | |].
  - intros s. cbn. destruct (queue_locked s), (words s !! f) as [v|]; [by eexists _, _..| |by eexists _, _]. destruct (futex_kernel v); by eexists _, _.
  - intros s e' s'. cbn. destruct (queue_locked s), (words s !! f) as [v|]; [by intros [= _ <-]..| |by intros [= _ <-]]. by destruct (futex_kernel v); intros [= _ <-].
  - iIntros "!>" (s e' s' E). cbn in E. destruct (queue_locked s), (words s !! f) as [v|]; [simplify_eq; by iApply "IH"..| |].
    + destruct (futex_kernel v); simplify_eq; [|iApply wp_return; iApply "H"]. iApply wp_silent; [done| | |].
      * intros s2. cbn. destruct (words s2 !! f) as [v2|]; [destruct (when_holds v2 w)|]; by eexists _, _.
      * intros s2 e' s'. cbn. destruct (words s2 !! f) as [v2|]; [destruct (when_holds v2 w)|]; by intros [= _ <-].
      * iIntros "!>" (s2 e' s' E). cbn in E. destruct (words s2 !! f) as [v2|]; [destruct (when_holds v2 w)|]; simplify_eq; [by iApply wp_asleep|iApply wp_return; iApply "H"..].
    + simplify_eq. iApply wp_return. iApply "H".
Qed.

Lemma wp_syswake f w Φ : (∀ v, Φ (Return v)) ⊢ WP SysWake f w {{ Φ }}.
Proof.
  iIntros "H". iLöb as "IH". iApply wp_silent; [done| | |].
  - intros s. cbn. destruct (queue_locked s), (words s !! f) as [v|]; [by eexists _, _..| |by eexists _, _]. destruct (futex_kernel v); by eexists _, _.
  - intros s e' s'. cbn. destruct (queue_locked s), (words s !! f) as [v|]; [by intros [= _ <-]..| |by intros [= _ <-]]. by destruct (futex_kernel v); intros [= _ <-].
  - iIntros "!>" (s e' s' E). cbn in E. destruct (queue_locked s), (words s !! f) as [v|]; [simplify_eq; by iApply "IH"..| |].
    + destruct (futex_kernel v); simplify_eq; [iApply wp_return; iApply "H"|]. iApply wp_silent; [done| | |].
      * intros s2. cbn. destruct (words s2 !! f) as [v2|]; [destruct (when_holds v2 w)|]; by eexists _, _.
      * intros s2 e' s'. cbn. destruct (words s2 !! f) as [v2|]; [destruct (when_holds v2 w)|]; by intros [= _ <-].
      * iIntros "!>" (s2 e' s' E). cbn in E. destruct (words s2 !! f) as [v2|]; [destruct (when_holds v2 w)|]; simplify_eq; iApply wp_return; iApply "H".
    + simplify_eq. iApply wp_return. iApply "H".
Qed.
End Rules.

(** ** From proofs to runs *)

Class threadGpreS Σ := ThreadGpreS {
  threadGpre_inv :: invGpreS Σ;
  threadGpre_heap :: gen_heapGpreS Z Z Σ
}.
Definition threadΣ : gFunctors := #[invΣ; gen_heapΣ Z Z].
#[export] Instance subG_threadΣ Σ : subG threadΣ Σ → threadGpreS Σ.
Proof. solve_inG. Qed.

(** A thread has returned or can go on. *)
Definition not_stopped `{Arch} (e : prog) (s : machine) : Prop := (∃ o, e = Done o) ∨ ∃ e' s', pstep e s = Some (e', s').

Section Adequacy.
Context `{Arch} Σ `{!threadGpreS Σ}.

(** What is proved of the threads with permissions for all of memory holds of
    every run. *)
Lemma pool_adequacy es s ts s' (φ : Prop) :
  (∀ `{!threadGS Σ}, ([∗ map] p ↦ v ∈ words s, p ↦ v) ⊢ |={⊤}=> ∃ Φs : list (ctl → iProp Σ),
     ([∗ list] e;Φ ∈ es;Φs, WP e {{ Φ }}) ∗
     (⌜length ts = length es⌝ -∗ gen_heap_interp (words s') -∗ ([∗ list] e;Φ ∈ ts;Φs, from_option Φ True (prog_val e)) ={⊤,∅}=∗ ⌜φ⌝)) →
  rtc pool_step (es, s) (ts, s') → Forall (λ e, not_stopped e s') ts ∧ φ.
Proof.
  intros Hwp Hr%pool_erased_rtc. apply erased_steps_nsteps in Hr as (n & κs & Hn).
  assert (length ts = length es) as Hlen.
  { clear Hwp. remember (es, s) as c eqn:Ec. remember (ts, s') as c' eqn:Ec'. revert es s ts s' Ec Ec'.
    induction Hn as [ρ|n ρ1 ρ2 ρ3 κ κs' Hs Hn IH]; intros es s ts s' -> Ec'; [by injection Ec' as <- <-|].
    destruct Hs as [e1 σ1 e2 σ2 efs t1 t2 [= -> ->] -> (_ & _ & ->)]. rw (IH _ _ _ _ eq_refl Ec') app_nil_r !length_app. done. }
  eapply (wp_strong_adequacy Σ prog_lang NotStuck es s n κs ts s' _ (λ _, 0%nat)); [|done]. intros Hinv.
  iMod (gen_heap_init (words s)) as (Hheap) "(Hs & Hw & _)". set (G := ThreadGS Σ Hinv Hheap). iMod (Hwp G with "Hw") as (Φs) "[Hes Hφ]".
  iModIntro. iExists (λ s _ _ _, gen_heap_interp (words s)), Φs, (λ _, True%I), (λ _ _ _ _, fupd_intro _ _). iFrame "Hs Hes".
  iIntros (es' t2 -> Hl Hns) "Hs HΦ _". assert (@length prog es' = @length prog es) as Hl' by exact Hl.
  assert (@length prog (es' ++ t2) = @length prog es) as Hlen' by exact Hlen. rw (@length_app prog) in Hlen'.
  assert (t2 = []) as -> by (apply (@length_zero_iff_nil prog); lia). rw app_nil_r in Hns Hlen |- *.
  iMod ("Hφ" with "[//] Hs HΦ") as %Hφ. iPureIntro. split; [|done]. apply list.Forall_forall. intros e He. destruct (Hns e eq_refl He) as [[v Hv]|(κ & e' & s2 & efs & Hp & _)].
  - left. exists v. by apply (of_to_val (Λ := prog_lang)) in Hv.
  - right. by exists e', s2.
Qed.
End Adequacy.
