(* ===== verification/FutexSpec.v ===== *)
(** Contracts of the futexes, mutexes and semaphores: whoever gets a lock gets
    what it protects, and a semaphore hands out what was put in. *)

From iris.proofmode Require Import proofmode.
From iris.base_logic.lib Require Import invariants gen_heap token.
From iris.algebra Require Import auth numbers.
From iris.program_logic Require Import weakestpre adequacy.
From Stdlib Require Import ZArith Lia.
From S2P Require Import Prelude Wait Futex FutexLogic.

#[local] Unset SsrOldRewriteGoalsOrder.

(** ** Fields of a word *)

Section Words.
Context `{Arch}.

Lemma width_pos : 31 < ARCH_WIDTH ∧ 2 ^ ARCH_WIDTH = 2 * 2 ^ (ARCH_WIDTH - 1).
Proof. destruct arch_width_cases as [-> | ->]; (split; [lia|reflexivity]). Qed.

Lemma kernel_pos_range : 0 ≤ kernel_pos < ARCH_WIDTH.
Proof. rw /kernel_pos. pose proof width_pos. destruct ARCH_BIG_ENDIAN; lia. Qed.

Lemma set_kernel_testbit v b n : 0 ≤ n → Z.testbit (set_kernel v b) n = if n =? kernel_pos then b else Z.testbit v n.
Proof.
  intros Hn. pose proof kernel_pos_range. rw /set_kernel. destruct (Z.eqb_spec n kernel_pos) as [->|Hne].
  - destruct b; [apply Z.setbit_eq; lia|apply Z.clearbit_eq].
  - destruct b; [apply Z.setbit_neq; lia|apply Z.clearbit_neq; lia].
Qed.

(** The bits of [locked] are those of the word next to the kernel bit. *)
Lemma locked_testbit v n : uint ARCH_WIDTH v → 0 ≤ n →
  Z.testbit (futex_locked v) n = if ARCH_BIG_ENDIAN then (n <? ARCH_WIDTH - 1) && Z.testbit v n else Z.testbit v (n + 1).
Proof.
  intros Hv Hn. rw /futex_locked. destruct ARCH_BIG_ENDIAN.
  - rw -/(wrap (ARCH_WIDTH - 1) v) wrap_testbit //. pose proof width_pos; lia.
  - rw /shr Z.shiftr_spec //.
Qed.

Lemma locked_uint v : uint ARCH_WIDTH v → uint (ARCH_WIDTH - 1) (futex_locked v).
Proof.
  intros [Hv1 Hv2]. pose proof width_pos. rw /futex_locked. destruct ARCH_BIG_ENDIAN.
  - apply Z.mod_pos_bound, Z.pow_pos_nonneg; lia.
  - rw /shr Z.shiftr_div_pow2 //. change (2 ^ 1) with 2. split; [apply Z.div_pos; lia|]. apply Z.div_lt_upper_bound; lia.
Qed.

Lemma set_kernel_uint v b : uint ARCH_WIDTH v → uint ARCH_WIDTH (set_kernel v b).
Proof.
  intros Hv. pose proof kernel_pos_range. apply uint_of_bits; [lia|]. intros n Hn. rw set_kernel_testbit; [lia|].
  rw (proj2 (Z.eqb_neq n kernel_pos)); [lia|]. by apply (uint_testbit_high ARCH_WIDTH).
Qed.

Lemma locked_set_kernel v b : uint ARCH_WIDTH v → futex_locked (set_kernel v b) = futex_locked v.
Proof.
  intros Hv. apply Z.bits_inj'. intros n Hn. rw !locked_testbit //; [by apply set_kernel_uint|]. pose proof width_pos. destruct ARCH_BIG_ENDIAN eqn:E.
  - destruct (Z.ltb_spec n (ARCH_WIDTH - 1)) as [Hlt|]; [|done]. cbn [andb]. rw set_kernel_testbit // /kernel_pos E (proj2 (Z.eqb_neq _ _)) //. lia.
  - rw set_kernel_testbit; [lia|]. rw /kernel_pos E (proj2 (Z.eqb_neq _ _)) //. lia.
Qed.

Lemma set_locked_testbit v l n : 0 ≤ n → uint (ARCH_WIDTH - 1) l → uint ARCH_WIDTH v →
  Z.testbit (set_locked v l) n = if n =? kernel_pos then Z.testbit v n else Z.testbit l (if ARCH_BIG_ENDIAN then n else n - 1).
Proof.
  intros Hn Hl Hv. pose proof width_pos. rw /set_locked wrap_small //. rw /kernel_pos. destruct ARCH_BIG_ENDIAN.
  - rw Z.lor_spec Z.land_spec Z.pow2_bits_eqb; [lia|]. rw (Z.eqb_sym n). destruct (Z.eqb_spec (ARCH_WIDTH - 1) n) as [<-|].
    + rw andb_true_r (uint_testbit_high _ _ _ Hl) // orb_false_r //.
    + by rw andb_false_r.
  - rw Z.lor_spec Z.land_spec Z.shiftl_spec //. change 1 with (2 ^ 0) at 1. rw Z.pow2_bits_eqb // (Z.eqb_sym n). destruct (Z.eqb_spec 0 n) as [<-|].
    + rw andb_true_r. by rw (Z.testbit_neg_r l) // orb_false_r.
    + by rw andb_false_r.
Qed.

Lemma set_locked_uint v l : uint ARCH_WIDTH v → uint (ARCH_WIDTH - 1) l → uint ARCH_WIDTH (set_locked v l).
Proof.
  intros Hv Hl. pose proof kernel_pos_range. apply uint_of_bits; [lia|]. intros n Hn. rw set_locked_testbit //; [lia|].
  rw (proj2 (Z.eqb_neq n kernel_pos)); [lia|]. apply (uint_testbit_high (ARCH_WIDTH - 1)); [done|]. destruct ARCH_BIG_ENDIAN; lia.
Qed.

Lemma locked_set_locked v l : uint ARCH_WIDTH v → uint (ARCH_WIDTH - 1) l → futex_locked (set_locked v l) = l.
Proof.
  intros Hv Hl. apply Z.bits_inj'. intros n Hn. rw locked_testbit //; [by apply set_locked_uint|]. pose proof width_pos. destruct ARCH_BIG_ENDIAN eqn:E.
  - destruct (Z.ltb_spec n (ARCH_WIDTH - 1)) as [Hlt|]; cbn [andb].
    + rw set_locked_testbit // /kernel_pos E (proj2 (Z.eqb_neq _ _)) //. lia.
    + symmetry. by apply (uint_testbit_high (ARCH_WIDTH - 1)).
  - rw set_locked_testbit //; [lia|]. rw /kernel_pos E (proj2 (Z.eqb_neq _ _)); [lia|]. f_equal. lia.
Qed.

Lemma set_locked_wrap v l : set_locked v l = set_locked v (wrap (ARCH_WIDTH - 1) l).
Proof. rw /set_locked. by rw wrap_wrap. Qed.

Lemma one_uint : uint (ARCH_WIDTH - 1) 1.
Proof. pose proof width_pos. split; [lia|]. apply (Z.pow_gt_1 2); lia. Qed.

Lemma zero_uint w : 0 ≤ w → uint w 0.
Proof. intros Hw. split; [done|]. apply Z.pow_pos_nonneg; lia. Qed.
End Words.

(** ** Locks *)

Section Locks.
Context `{Arch} `{!threadGS Σ, !tokenG Σ}.
Implicit Types (f v : Z) (T P : iProp Σ) (γ : gname).

Definition lockN : namespace := nroot .@ "futex".

(** Whoever has the lock has the token and what the lock protects, [P], and
    has left [T] in exchange. *)
Definition lock_inv γ f T P : iProp Σ :=
  ∃ v, f ↦ v ∗ ⌜uint ARCH_WIDTH v⌝ ∗ ((⌜futex_locked v = 0⌝ ∗ token γ ∗ P) ∨ (⌜futex_locked v = 1⌝ ∗ T)).
Definition is_futex γ f T P : iProp Σ := inv lockN (lock_inv γ f T P).

(** A read of the futex. *)
Lemma wp_load_futex γ f T P Φ : is_futex γ f T P -∗ (∀ v, ⌜uint ARCH_WIDTH v⌝ -∗ ⌜futex_locked v = 0 ∨ futex_locked v = 1⌝ -∗ Φ (Return v)) -∗ WP Load f {{ Φ }}.
Proof.
  iIntros "#I H". iApply wp_load_acc. iInv "I" as (v) "(>Hf & >%Hv & HP)" "Hclose". iModIntro. iExists v. iFrame "Hf". iIntros "Hf".
  iAssert (▷ ⌜futex_locked v = 0 ∨ futex_locked v = 1⌝)%I as "#>%Hl". { iNext. iDestruct "HP" as "[[% _]|[% _]]"; iPureIntro; auto. }
  iMod ("Hclose" with "[Hf HP]") as "_". { iNext. iExists v. by iFrame. }
  iModIntro. by iApply "H".
Qed.

(** A swap that leaves [locked] as it is. *)
Lemma wp_cas_same γ f T P old new Φ : uint ARCH_WIDTH new → futex_locked new = futex_locked old →
  is_futex γ f T P -∗ (∀ b, Φ (Return b)) -∗ WP atomic_cas_bool f old new {{ Φ }}.
Proof.
  iIntros (Hn E) "#I H". iApply wp_cas_bool_acc. iInv "I" as (v) "(>Hf & >%Hv & HP)" "Hclose". iModIntro. iExists v. iFrame "Hf". iIntros "Hf".
  iMod ("Hclose" with "[Hf HP]") as "_"; [|iModIntro; iApply "H"].
  iNext. destruct (Z.eqb_spec v old) as [->|_]; [|iExists v; by iFrame]. iExists new. rw E. by iFrame.
Qed.

(** A swap that takes the lock. *)
Lemma wp_cas_take γ f T P old Φ : uint ARCH_WIDTH old → futex_locked old = 0 →
  is_futex γ f T P -∗ T -∗ (token γ -∗ ▷ P -∗ Φ (Return 1)) ∧ (T -∗ Φ (Return 0)) -∗ WP atomic_cas_bool f old (set_locked old 1) {{ Φ }}.
Proof.
  iIntros (Ho E) "#I HT H". iApply wp_cas_bool_acc. iInv "I" as (v) "(>Hf & >%Hv & HP)" "Hclose". iModIntro. iExists v. iFrame "Hf". iIntros "Hf".
  destruct (Z.eqb_spec v old) as [->|_].
  - iDestruct "HP" as "[(_ & >Ht & HP)|[>% _]]"; [|congruence]. iMod ("Hclose" with "[Hf HT]") as "_".
    { iNext. iExists _. iFrame "Hf". iSplit; [iPureIntro; apply set_locked_uint; [done|apply one_uint]|]. iRight. iFrame "HT". iPureIntro. by apply locked_set_locked; [|apply one_uint]. }
    iModIntro. by iApply ("H" with "Ht").
  - iMod ("Hclose" with "[Hf HP]") as "_". { iNext. iExists v. by iFrame. } iModIntro. iDestruct "H" as "[_ H]". by iApply "H".
Qed.

Lemma futex_lock_spec γ f T P spin : is_futex γ f T P -∗ T -∗ WP futex_lock f spin {{ o, ⌜o = Return 0⌝ ∗ token γ ∗ P }}.
Proof.
  iIntros "#I HT". iApply (wp_loop_inv (λ _ _, T) with "[] HT"). iIntros "!>" (n m) "HT". iApply wp_seq.
  iApply (wp_load_futex with "I"). iIntros (v Hv Hl) "!>". destruct Hl as [E|E]; rw E; cbn [ctrue Z.eqb negb].
  - iApply wp_seq. iApply (wp_cas_take with "I HT"); [done|done|]. iSplit.
    + iIntros "Ht HP !>". iApply wp_return. by iFrame.
    + iIntros "HT !>". by iApply wp_value.
  - destruct (go_kernel spin n) as [go n']. iApply wp_seq. set (new := if go then _ else _). iApply (wp_cas_same with "I").
    + rw /new. destruct go; [by apply set_kernel_uint|done].
    + rw /new. destruct go; [by apply locked_set_kernel|done].
    + iIntros (b) "!>". destruct (ctrue b); [|by iApply wp_value]. destruct (futex_kernel new); [|by iApply wp_value].
      iApply wp_seq. iApply wp_syswait. iIntros (w) "!>". by iApply wp_value.
Qed.

Lemma futex_trylock_spec γ f T P : is_futex γ f T P -∗ T -∗
  WP futex_trylock f {{ o, (⌜o = Return 0⌝ ∗ token γ ∗ P) ∨ (⌜o = Return (-1)⌝ ∗ T) }}.
Proof.
  iIntros "#I HT". iApply wp_seq. iApply (wp_load_futex with "I"). iIntros (v Hv Hl) "!>". destruct Hl as [E|E]; rw E; cbn [ctrue Z.eqb negb].
  - iApply wp_seq. iApply (wp_cas_take with "I HT"); [done|done|]. iSplit.
    + iIntros "Ht HP !>". iApply wp_return. iLeft. by iFrame.
    + iIntros "HT !>". iApply wp_return. iRight. by iFrame.
  - iApply wp_return. iRight. by iFrame.
Qed.

Lemma futex_notify_spec γ f T P : is_futex γ f T P -∗ WP futex_notify f {{ o, ⌜o = Return 0⌝ }}.
Proof.
  iIntros "#I". iApply (wp_loop_inv (λ _ _, True%I)); [|done]. iIntros "!>" (n m) "_". iApply wp_seq.
  iApply (wp_load_futex with "I"). iIntros (v Hv Hl) "!>". destruct (_ || _); [by iApply wp_return|]. iApply wp_seq. iApply (wp_cas_same with "I").
  { by apply set_kernel_uint. } { by apply locked_set_kernel. }
  iIntros (b) "!>". destruct (ctrue b); [|by iApply wp_value]. iApply wp_seq. iApply wp_syswake. iIntros (w) "!>". by iApply wp_return.
Qed.

(** Who has the token finds the futex locked. *)
Lemma wp_load_held γ f T P Φ : is_futex γ f T P -∗ token γ -∗
  (∀ v, ⌜uint ARCH_WIDTH v⌝ -∗ ⌜futex_locked v = 1⌝ -∗ token γ -∗ Φ (Return v)) -∗ WP Load f {{ Φ }}.
Proof.
  iIntros "#I Ht H". iApply wp_load_acc. iInv "I" as (v) "(>Hf & >%Hv & HP)" "Hclose". iModIntro. iExists v. iFrame "Hf". iIntros "Hf".
  iDestruct "HP" as "[(_ & >Ht' & _)|[>%E HT]]"; [by iDestruct (token_exclusive with "Ht Ht'") as %[]|].
  iMod ("Hclose" with "[Hf HT]") as "_". { iNext. iExists v. iFrame "Hf". iSplit; [done|]. iRight. by iFrame. }
  iModIntro. by iApply "H".
Qed.

Lemma futex_unlock_spec γ f T P : is_futex γ f T P -∗ token γ -∗ P -∗ WP futex_unlock f {{ o, ⌜o = Return 0⌝ ∗ T }}.
Proof.
  iIntros "#I Ht HP". iApply (wp_loop_inv (λ _ _, token γ ∗ P)%I with "[] [$]"). iIntros "!>" (n m) "[Ht HP]". iApply wp_seq.
  iApply (wp_load_held with "I Ht"). iIntros (v Hv E) "Ht !>". rw E. cbn [ctrue Z.eqb negb]. iApply wp_seq. iApply wp_cas_bool_acc.
  iInv "I" as (v') "(>Hf & >%Hv' & HI)" "Hclose". iModIntro. iExists v'. iFrame "Hf". iIntros "Hf".
  assert (uint (ARCH_WIDTH - 1) 0) as Hz by (apply zero_uint; pose proof width_pos; lia). destruct (Z.eqb_spec v' v) as [->|_].
  - iDestruct "HI" as "[(_ & >Ht' & _)|[_ HT]]"; [by iDestruct (token_exclusive with "Ht Ht'") as %[]|].
    iMod ("Hclose" with "[Hf Ht HP]") as "_".
    { iNext. iExists _. iFrame. iSplit; [iPureIntro; by apply set_locked_uint|]. iLeft. iFrame. iPureIntro. by apply locked_set_locked. }
    iIntros "!> !>". cbn [ctrue Z.eqb negb]. destruct (futex_kernel _); [|iApply wp_return; by iFrame]. iApply (wp_wand with "[]"); [by iApply futex_notify_spec|]. iIntros (o ->). by iFrame.
  - iMod ("Hclose" with "[Hf HI]") as "_". { iNext. iExists v'. by iFrame. }
    iIntros "!> !>". iApply wp_value. iFrame.
Qed.
End Locks.

(** ** Mutexes *)

Section Mutex.
Context `{Arch} `{!threadGS Σ, !tokenG Σ}.
Implicit Types (T P : iProp Σ) (γ : gname).

(** A word that is not locked becomes a lock. *)
Lemma is_futex_alloc f v T P E : uint ARCH_WIDTH v → futex_locked v = 0 → f ↦ v -∗ P ={E}=∗ ∃ γ, is_futex γ f T P.
Proof.
  iIntros (Hv Hl) "Hf HP". iMod token_alloc as (γ) "Ht". iExists γ. iApply inv_alloc. iNext. iExists v. iFrame "Hf". iSplit; [done|].
  iLeft. by iFrame.
Qed.

Lemma mutex_lock_spec γ f T P spin : is_futex γ f T P -∗ T -∗ WP mutex_lock f spin {{ o, ⌜o = Return 0⌝ ∗ token γ ∗ P }}.
Proof.
  iIntros "#I HT". iApply wp_then. iApply (wp_wand with "[HT]"); [by iApply futex_lock_spec|]. iIntros (o) "(-> & H)". iExists 0. iSplit; [done|].
  iNext. iApply wp_return. by iFrame.
Qed.

Lemma mutex_unlock_spec γ f T P : is_futex γ f T P -∗ token γ -∗ P -∗ WP mutex_unlock f {{ o, ⌜o = Return 0⌝ ∗ T }}.
Proof.
  iIntros "#I Ht HP". iApply wp_then. iApply (wp_wand with "[Ht HP]"); [by iApply (futex_unlock_spec with "I Ht HP")|]. iIntros (o) "(-> & H)". iExists 0. iSplit; [done|].
  iNext. iApply wp_return. by iFrame.
Qed.
End Mutex.

(** ** Counting *)

Class countG Σ := { count_inG :: inG Σ (authR natUR) }.
Definition countΣ : gFunctors := #[GFunctor (authR natUR)].
#[export] Instance subG_countΣ Σ : subG countΣ Σ → countG Σ.
Proof. solve_inG. Qed.

Section Count.
Context `{!countG Σ}.

Lemma frag_count γ n k {A} (l : list A) : own γ (● n ⋅ ◯ k) -∗ ([∗ list] _ ∈ l, own γ (◯ 1%nat)) -∗ ⌜(k + length l ≤ n)%nat⌝.
Proof.
  iInduction l as [|x l IH] forall (k); cbn [length].
  - iIntros "H _". iDestruct (own_valid with "H") as %[Hi _]%auth_both_valid_discrete. iPureIntro. apply nat_included in Hi. lia.
  - iIntros "H [Hx Hl]". iCombine "H Hx" as "H". rw -assoc -auth_frag_op nat_op. iDestruct ("IH" with "H Hl") as %Hle. iPureIntro. lia.
Qed.

Lemma auth_count γ n {A} (l : list A) : own γ (● n) -∗ ([∗ list] _ ∈ l, own γ (◯ 1%nat)) -∗ ⌜(length l ≤ n)%nat⌝.
Proof.
  destruct l as [|x l]; cbn [length]; [iIntros "_ _"; iPureIntro; lia|]. iIntros "H [Hx Hl]". iCombine "H Hx" as "H".
  iDestruct (frag_count with "H Hl") as %Hle. done.
Qed.

Lemma count_incr γ n : own γ (● n) ==∗ own γ (● (S n)) ∗ own γ (◯ 1%nat).
Proof.
  iIntros "H". iMod (own_update _ _ (● (S n) ⋅ ◯ 1%nat) with "H") as "[$ $]"; [|done].
  apply auth_update_alloc, nat_local_update. change (n + 1 = S n + 0)%nat. lia.
Qed.

Lemma count_decr γ n : own γ (● n) -∗ own γ (◯ 1%nat) ==∗ ∃ m, ⌜n = S m⌝ ∗ own γ (● m).
Proof.
  iIntros "H Hf". iCombine "H Hf" as "H". iDestruct (own_valid with "H") as %[Hi%nat_included _]%auth_both_valid_discrete.
  iExists (n - 1)%nat. iSplitR; [iPureIntro; lia|]. iApply (own_update with "H"). apply auth_update_dealloc, nat_local_update.
  change (n + 0 = n - 1 + 1)%nat. lia.
Qed.

Lemma frag_le γ n k : own γ (● n) -∗ own γ (◯ k) -∗ ⌜(k ≤ n)%nat⌝.
Proof. iIntros "H Hf". iCombine "H Hf" as "H". iDestruct (own_valid with "H") as %[Hi%nat_included _]%auth_both_valid_discrete. done. Qed.

Lemma frag_succ γ n : own γ (◯ (S n)) ⊢ own γ (◯ 1%nat) ∗ own γ (◯ n).
Proof. rw (_ : S n = (1 + n)%nat) // -nat_op auth_frag_op. iIntros "[$ $]". Qed.

(** [n] fragments for as many threads. *)
Lemma frags_split γ {A} (l : list A) : own γ (◯ (length l)) ⊢ [∗ list] _ ∈ l, own γ (◯ 1%nat).
Proof.
  iInduction l as [|x l IH]; cbn [length]; [by iIntros "_"|]. iIntros "H". iDestruct (frag_succ with "H") as "[$ H]". by iApply "IH".
Qed.
End Count.

(** ** A counter behind a mutex *)

(** A thread that increments the word at [c], with plain accesses, while it has
    the mutex at [f]. *)
Definition counter_client `{Arch} (f c spin : Z) : prog :=
  (mutex_lock f spin;; x ← Load c; Store c (ulong (x + 1));; mutex_unlock f)%prog.

Section Counter.
Context `{Arch} `{!threadGS Σ, !tokenG Σ, !countG Σ}.

(** The counter has been incremented [k] times: [k] threads have spent their
    tickets ([γt]) and got receipts ([γd]). *)
Definition counted (γt γd : gname) (c x0 : Z) : iProp Σ :=
  ∃ k : nat, c ↦ ulong (x0 + Z.of_nat k) ∗ own γt (◯ k) ∗ own γd (● k).
#[local] Instance counted_timeless γt γd c x0 : Timeless (counted γt γd c x0).
Proof. apply _. Qed.

Lemma ulong_succ x : ulong (ulong x + 1) = ulong (x + 1).
Proof. rw /wrap Z.add_mod_idemp_l //. pose proof width_pos. apply Z.pow_nonzero; lia. Qed.

Lemma counter_client_spec γ γh γt γd f c x0 spin :
  is_futex γ f (own γh (◯ 1%nat)) (counted γt γd c x0) -∗ own γh (◯ 1%nat) -∗ own γt (◯ 1%nat) -∗
  WP counter_client f c spin {{ o, ⌜∃ v, o = Return v⌝ ∗ own γh (◯ 1%nat) ∗ own γd (◯ 1%nat) }}.
Proof.
  iIntros "#I Hh Ht". iApply wp_then. iApply (wp_wand with "[Hh]"); [by iApply (mutex_lock_spec with "I Hh")|].
  iIntros (o) "(-> & Htok & (%k & Hc & Hk & Hd))". iExists 0. iSplit; [done|]. iNext. iApply wp_then. iApply (wp_load with "Hc"). iIntros "Hc".
  iExists _. iSplit; [done|]. iNext. iApply wp_then. iApply (wp_store with "Hc"). iIntros "Hc". iExists 0. iSplit; [done|]. iNext.
  iMod (count_incr with "Hd") as "[Hd Hr]".
  iCombine "Ht Hk" as "Hk". iApply (wp_wand with "[Htok Hc Hk Hd]").
  - iApply (mutex_unlock_spec with "I Htok"). iExists (S k). iFrame "Hd Hk". rw ulong_succ. replace (x0 + Z.of_nat k + 1) with (x0 + Z.of_nat (S k)) by lia. iApply "Hc".
  - iIntros (o) "(-> & Hh)". iFrame. iPureIntro. by eexists.
Qed.
End Counter.

Section CounterRun.
Context `{Arch}.

Definition counterΣ : gFunctors := #[threadΣ; tokenΣ; countΣ].

Lemma all_posts {Σ} (ts : list prog) n (Q : iProp Σ) : Forall (λ e, is_Some (finished e)) ts →
  ([∗ list] e;Φ ∈ ts;replicate n (λ o : ctl, ⌜∃ v, o = Return v⌝ ∗ Q)%I, from_option Φ True (prog_val e)) ⊢ [∗ list] _ ∈ ts, Q.
Proof.
  iIntros (Hf) "H". iInduction ts as [|e ts IH] forall (n); [done|]. apply Forall_cons in Hf as [[v He] Hf].
  destruct n as [|n]; [done|]. cbn. iDestruct "H" as "[He H]". destruct e as [[|v']| | | | | | | | | | |]; try done. cbn.
  iDestruct "He" as "[_ $]". iApply ("IH" with "[//] H").
Qed.

(** C23. Mutual exclusion of mutexes.  Any number of threads take a mutex,
    increment a shared counter with an ordinary load and store, and release the
    mutex, with any interleaving of their accesses to memory and of the kernel's
    waiting and waking: no thread stops in an error, and when all have returned
    no increment is lost. *)
Theorem mutex_protects_counter f c x0 (spins : list Z) s ts s' : f ≠ c → words s !! f = Some 0 → words s !! c = Some (ulong x0) →
  rtc pool_step (counter_client f c <$> spins, s) (ts, s') →
  Forall (λ e, not_stopped e s') ts ∧
  (Forall (λ e, is_Some (finished e)) ts → words s' !! c = Some (ulong (x0 + Z.of_nat (length spins)))).
Proof.
  intros Hne Hf Hc. apply (pool_adequacy counterΣ). iIntros (G) "Hw".
  iDestruct (big_sepM_delete _ _ f with "Hw") as "[Hf Hw]"; [done|]. iDestruct (big_sepM_delete _ _ c with "Hw") as "[Hc _]"; [by rw lookup_delete_ne|].
  set (N := length spins).
  iMod (own_alloc (● N ⋅ ◯ N)) as (γh) "[Hh● Hh]"; [by apply auth_both_valid_discrete|].
  iMod (own_alloc (● N ⋅ (◯ 0%nat ⋅ ◯ N))) as (γt) "(Ht● & Ht0 & Ht)"; [rw -auth_frag_op; by apply auth_both_valid_discrete|].
  iMod (own_alloc (● 0%nat)) as (γd) "Hd"; [by apply auth_auth_valid|].
  iMod (is_futex_alloc f 0 (own γh (◯ 1%nat)) (counted γt γd c x0) with "Hf [Hc Ht0 Hd]") as (γ) "#I".
  { pose proof width_pos. apply zero_uint. lia. } { rw /futex_locked /shr. by destruct ARCH_BIG_ENDIAN. }
  { iExists 0%nat. rw Z.add_0_r. iFrame. }
  iModIntro. iExists (replicate N (λ o, ⌜∃ v, o = Return v⌝ ∗ own γh (◯ 1%nat) ∗ own γd (◯ 1%nat))%I). iSplitL "Hh Ht".
  - rw big_sepL2_fmap_l. iApply big_sepL2_replicate_r; [done|]. iDestruct (frags_split with "Hh") as "Hh". iDestruct (frags_split with "Ht") as "Ht".
    iDestruct (big_sepL_sep with "[$Hh $Ht]") as "H". iApply (big_sepL_impl with "H"). iIntros "!>" (i spin _) "[Hh Ht]". iApply (counter_client_spec with "I Hh Ht").
  - iIntros (Hl) "Hs HΦ". rw length_fmap in Hl. destruct (decide (Forall (λ e, is_Some (finished e)) ts)) as [Hfin|Hfin].
    2:{ iApply fupd_mask_intro_discard; [set_solver|]. iPureIntro. naive_solver. }
    iDestruct (all_posts with "HΦ") as "H"; [done|]. iDestruct (big_sepL_sep with "H") as "[Hh Hd]".
    iInv "I" as (v) ">(Hf & _ & [(_ & _ & (%k & Hc & Ht & Hd●))|(_ & Hh1)])" "_".
    + iDestruct (auth_count with "Hd● Hd") as %Hle. iDestruct (frag_le with "Ht● Ht") as %Hge.
      iDestruct (gen_heap_valid with "Hs Hc") as %Hv. iApply fupd_mask_intro_discard; [set_solver|]. iPureIntro. intros _. rw Hv. assert (k = N) as -> by lia. done.
    + iCombine "Hh● Hh1" as "H1". iDestruct (frag_count with "H1 Hh") as %Hle. lia.
Qed.
End CounterRun.

(** ** Semaphores *)

Section Sema.
Context `{Arch} `{!threadGS Σ}.
Implicit Types (R : iProp Σ).

Definition semaN : namespace := nroot .@ "sema".

(** The semaphore holds as many [R] as it counts. *)
Definition sema_inv f R : iProp Σ := ∃ v, f ↦ v ∗ ⌜uint ARCH_WIDTH v⌝ ∗ [∗] replicate (Z.to_nat (futex_locked v)) R.
Definition is_sema f R : iProp Σ := inv semaN (sema_inv f R).

Lemma copies_le n m R : (m ≤ n)%nat → [∗] replicate n R ⊢ [∗] replicate m R.
Proof. intros Hle. rw -(Nat.sub_add m n) // Nat.add_comm replicate_add big_sepL_app. iIntros "[$ _]". Qed.

Lemma wp_load_sema f R Φ : is_sema f R -∗ (∀ v, ⌜uint ARCH_WIDTH v⌝ -∗ Φ (Return v)) -∗ WP Load f {{ Φ }}.
Proof.
  iIntros "#I H". iApply wp_load_acc. iInv "I" as (v) "(>Hf & >%Hv & HR)" "Hclose". iModIntro. iExists v. iFrame "Hf". iIntros "Hf".
  iMod ("Hclose" with "[Hf HR]") as "_". { iNext. iExists v. by iFrame. } iModIntro. by iApply "H".
Qed.

(** A swap that puts in [R1] and takes out [R2]. *)
Lemma wp_cas_sema f R R1 R2 old new Φ : uint ARCH_WIDTH new →
  (R1 ∗ [∗] replicate (Z.to_nat (futex_locked old)) R ⊢ R2 ∗ [∗] replicate (Z.to_nat (futex_locked new)) R) →
  is_sema f R -∗ R1 -∗ (▷ R2 -∗ Φ (Return 1)) ∧ (R1 -∗ Φ (Return 0)) -∗ WP atomic_cas_bool f old new {{ Φ }}.
Proof.
  iIntros (Hn Hex) "#I H1 H". iApply wp_cas_bool_acc. iInv "I" as (v) "(>Hf & >%Hv & HR)" "Hclose". iModIntro. iExists v. iFrame "Hf". iIntros "Hf".
  destruct (Z.eqb_spec v old) as [->|_].
  - iAssert (▷ (R2 ∗ [∗] replicate (Z.to_nat (futex_locked new)) R))%I with "[H1 HR]" as "[H2 HR]". { iNext. iApply Hex. iFrame. }
    iMod ("Hclose" with "[Hf HR]") as "_". { iNext. iExists new. by iFrame. } iModIntro. by iApply "H".
  - iMod ("Hclose" with "[Hf HR]") as "_". { iNext. iExists v. by iFrame. } iModIntro. iDestruct "H" as "[_ H]". by iApply "H".
Qed.

Lemma wp_cas_sema_same f R old new Φ : uint ARCH_WIDTH new → futex_locked new = futex_locked old →
  is_sema f R -∗ (∀ b, Φ (Return b)) -∗ WP atomic_cas_bool f old new {{ Φ }}.
Proof.
  iIntros (Hn E) "#I H". iApply (wp_cas_sema f R True True with "I [//]"); [done|by rw E|]. iSplit; iIntros "_"; iApply "H".
Qed.

(** Taking one. *)
Lemma wp_cas_sema_take f R old Φ : uint ARCH_WIDTH old → futex_locked old ≠ 0 →
  is_sema f R -∗ (▷ R -∗ Φ (Return 1)) ∧ Φ (Return 0) -∗ WP atomic_cas_bool f old (set_locked old (futex_locked old - 1)) {{ Φ }}.
Proof.
  iIntros (Hv Hz) "#I H". pose proof (locked_uint _ Hv) as [Hl1 Hl2]. assert (uint (ARCH_WIDTH - 1) (futex_locked old - 1)) as Hu by (split; lia).
  iApply (wp_cas_sema f R True R with "I [//]"); [by apply set_locked_uint| |].
  - rw locked_set_locked //. rw (_ : Z.to_nat (futex_locked old) = S (Z.to_nat (futex_locked old - 1))); [lia|]. by iIntros "[_ [$ $]]".
  - iSplit; [by iDestruct "H" as "[H _]"|]. iIntros "_". by iDestruct "H" as "[_ H]".
Qed.

Lemma sema_wait_spec f R spin : is_sema f R -∗ WP sema_wait f spin {{ o, ⌜o = Return 0⌝ ∗ R }}.
Proof.
  iIntros "#I". iApply (wp_loop_inv (λ _ _, True%I)); [|done]. iIntros "!>" (n m) "_". iApply wp_seq. iApply (wp_load_sema with "I").
  iIntros (v Hv) "!>". rw /ctrue. destruct (Z.eqb_spec (futex_locked v) 0) as [E|E]; cbn [negb].
  - destruct (go_kernel spin n) as [go n']. iApply wp_seq. set (new := if go then _ else _). iApply (wp_cas_sema_same with "I").
    + rw /new. destruct go; [by apply set_kernel_uint|done].
    + rw /new. destruct go; [by apply locked_set_kernel|done].
    + iIntros (b) "!>". destruct (negb (b =? 0)); [|by iApply wp_value]. destruct (futex_kernel new); [|by iApply wp_value].
      iApply wp_seq. iApply wp_syswait. iIntros (w) "!>". by iApply wp_value.
  - iApply wp_seq. iApply (wp_cas_sema_take with "I"); [done|done|]. iSplit.
    + iIntros "HR !>". iApply wp_return. by iFrame.
    + iNext. by iApply wp_value.
Qed.

Lemma sema_trywait_spec f R : is_sema f R -∗ WP sema_trywait f {{ o, (⌜o = Return 0⌝ ∗ R) ∨ ⌜o = Return (-1)⌝ }}.
Proof.
  iIntros "#I". iApply wp_seq. iApply (wp_load_sema with "I"). iIntros (v Hv) "!>". rw /ctrue. destruct (Z.eqb_spec (futex_locked v) 0) as [E|E]; cbn [negb].
  - iApply wp_return. by iRight.
  - iApply wp_seq. iApply (wp_cas_sema_take with "I"); [done|done|]. iSplit.
    + iIntros "HR !>". iApply wp_return. iLeft. by iFrame.
    + iNext. iApply wp_return. by iRight.
Qed.

Lemma sema_notify_spec f R : is_sema f R -∗ WP sema_notify f {{ o, ⌜o = Return 0⌝ }}.
Proof.
  iIntros "#I". iApply (wp_loop_inv (λ _ _, True%I)); [|done]. iIntros "!>" (n m) "_". iApply wp_seq.
  iApply (wp_load_sema with "I"). iIntros (v Hv) "!>". destruct (_ || _); [by iApply wp_return|]. iApply wp_seq. iApply (wp_cas_sema_same with "I").
  { by apply set_kernel_uint. } { by apply locked_set_kernel. }
  iIntros (b) "!>". destruct (ctrue b); [|by iApply wp_value]. iApply wp_seq. iApply wp_syswake. iIntros (w) "!>". by iApply wp_return.
Qed.

(** What [sema_post_count] stores counts no more than what was there and what
    is added, whether the sum is cut at the maximum or wraps around. *)
Lemma sema_add_spec max_count old count : uint ARCH_WIDTH old → 0 ≤ count → 0 ≤ max_count →
  uint ARCH_WIDTH (sema_add max_count old count) ∧ 0 ≤ futex_locked (sema_add max_count old count) ≤ futex_locked old + count.
Proof.
  intros Hv Hc Hm. pose proof (locked_uint _ Hv) as [Hl1 Hl2]. pose proof width_pos as [Hw _]. set (sum := futex_locked old + count).
  assert (uint (ARCH_WIDTH - 1) (wrap (ARCH_WIDTH - 1) sum)) as Hu by (apply wrap_range; lia).
  assert (wrap (ARCH_WIDTH - 1) sum ≤ sum) as Hle by (apply Z.mod_le; [lia|apply Z.pow_pos_nonneg; lia]).
  rw /sema_add set_locked_wrap -/sum. set (new := set_locked old _). assert (uint ARCH_WIDTH new) as Hn by by apply set_locked_uint.
  assert (futex_locked new = wrap (ARCH_WIDTH - 1) sum) as En by by apply locked_set_locked.
  destruct (ctrue max_count && (max_count <? futex_locked new)) eqn:E; [|by rw En; destruct Hu].
  apply andb_true_iff in E as [_ Hlt%Z.ltb_lt]. rw En in Hlt. assert (uint (ARCH_WIDTH - 1) max_count) as Hmu by (destruct Hu; split; lia).
  split; [by apply set_locked_uint|]. rw locked_set_locked //. lia.
Qed.

Lemma sema_post_spec f R max_count count : 0 ≤ count → 0 ≤ max_count →
  is_sema f R -∗ [∗] replicate (Z.to_nat count) R -∗ WP sema_post_count f max_count count {{ o, ⌜o = Return 0⌝ }}.
Proof.
  iIntros (Hc Hm) "#I HR". iApply (wp_loop_inv (λ _ _, [∗] replicate (Z.to_nat count) R)%I with "[] HR"). iIntros "!>" (n m) "HR".
  iApply wp_seq. iApply (wp_load_sema with "I"). iIntros (v Hv) "!>". destruct (sema_add_spec max_count v count Hv Hc Hm) as [Hn Hle]. iApply wp_seq.
  iApply (wp_cas_sema f R _ True with "I HR"); [done| |].
  - pose proof (locked_uint _ Hv) as [Hl1 _]. rw comm -big_sepL_app -replicate_add. iIntros "H". iSplit; [done|]. iApply (copies_le with "H"). lia.
  - iSplit; [|iIntros "HR !>"; by iApply wp_value]. iIntros "_ !>". cbn [ctrue Z.eqb negb]. destruct (futex_kernel _); [|by iApply wp_return].
    iApply (wp_wand with "[]"); [by iApply sema_notify_spec|]. by iIntros (o ->).
Qed.
End Sema.

(** ** Threads on a semaphore *)

(** A thread that posts or waits. *)
Inductive sema_user := Post (count : Z) | Wait (spin : Z).

Definition sema_client `{Arch} (f max_count : Z) (u : sema_user) : prog :=
  match u with Post count => sema_post_count f max_count count | Wait spin => sema_wait f spin end.

Definition posts (u : sema_user) : nat := match u with Post count => Z.to_nat count | Wait _ => 0%nat end.
Definition posted (us : list sema_user) : nat := foldr (λ u n, (posts u + n)%nat) 0%nat us.

(** The threads that wait and have been let through. *)
Definition let_through (u : sema_user) (e : prog) : bool :=
  match u with Wait _ => bool_decide (is_Some (finished e)) | Post _ => false end.
Definition admitted (us : list sema_user) (ts : list prog) : list (sema_user * prog) :=
  filter (λ ue, let_through ue.1 ue.2 = true) (zip us ts).

Section SemaRun.
Context `{Arch}.

Section Posts.
Context `{!countG Σ} (γ : gname).

Lemma frags_copies k : own γ (◯ k) ⊢ [∗] replicate k (own γ (◯ 1%nat)).
Proof.
  iIntros "H". iInduction k as [|k IH]; cbn [replicate]; [done|]. iDestruct (frag_succ with "H") as "[$ H]". by iApply "IH".
Qed.

Lemma frags_users us : own γ (◯ (posted us)) ⊢ [∗ list] u ∈ us, [∗] replicate (posts u) (own γ (◯ 1%nat)).
Proof.
  iIntros "H". iInduction us as [|u us IH]; [done|]. cbn [posted foldr]. rw -/(posted us) -nat_op auth_frag_op. iDestruct "H" as "[Hu H]".
  iSplitL "Hu"; [by iApply frags_copies|by iApply "IH"].
Qed.

Definition user_post (u : sema_user) (o : ctl) : iProp Σ :=
  ⌜o = Return 0⌝ ∗ match u with Wait _ => own γ (◯ 1%nat) | Post _ => True end.

Lemma admitted_posts us ts : ([∗ list] e;Φ ∈ ts;(user_post <$> us), from_option Φ True (prog_val e)) ⊢ [∗ list] _ ∈ admitted us ts, own γ (◯ 1%nat).
Proof.
  iIntros "H". iInduction us as [|u us IH] forall (ts); [by destruct ts|]. destruct ts as [|e ts]; [done|]. rw /admitted. cbn [zip zip_with fmap list_fmap].
  iDestruct "H" as "[He H]". iDestruct ("IH" with "H") as "H". rw filter_cons. case_decide as Hd; [|done]. iFrame "H". cbn in Hd. destruct u as [|spin]; [done|].
  apply bool_decide_eq_true in Hd as [v Hv]. destruct e as [[|v']| | | | | | | | | | |]; try done. cbn. by iDestruct "He" as "[_ $]".
Qed.
End Posts.

Definition semaΣ : gFunctors := #[threadΣ; countΣ].

(** C24. A semaphore lets no more threads through than its first value and the
    posts together allow.  For any number of threads that post or wait, any
    interleaving, and any maximum, also when the count is cut at the maximum or
    wraps around; no thread stops in an error. *)
Theorem semaphore_bounds_waiters f max_count v0 us s ts s' : words s !! f = Some v0 → uint ARCH_WIDTH v0 → 0 ≤ max_count →
  Forall (λ u, ∀ count, u = Post count → 0 ≤ count) us →
  rtc pool_step (sema_client f max_count <$> us, s) (ts, s') →
  Forall (λ e, not_stopped e s') ts ∧ Z.of_nat (length (admitted us ts)) ≤ futex_locked v0 + Z.of_nat (posted us).
Proof.
  intros Hf Hv Hm Hus. pose proof (locked_uint _ Hv) as [Hl _]. set (n0 := Z.to_nat (futex_locked v0)). apply (pool_adequacy semaΣ). iIntros (G) "Hw".
  iDestruct (big_sepM_delete _ _ f with "Hw") as "[Hf _]"; [done|].
  iMod (own_alloc (● (n0 + posted us)%nat ⋅ (◯ n0 ⋅ ◯ (posted us)))) as (γ) "(Ha & H0 & Hp)"; [rw -auth_frag_op; by apply auth_both_valid_discrete|].
  iMod (inv_alloc semaN _ (sema_inv f (own γ (◯ 1%nat))) with "[Hf H0]") as "#I".
  { iNext. iExists v0. iFrame "Hf". iSplit; [done|]. by iApply frags_copies. }
  iModIntro. iExists (user_post γ <$> us). iSplitL "Hp".
  - rw big_sepL2_fmap_l big_sepL2_fmap_r. iApply big_sepL_sepL2_diag. iDestruct (frags_users with "Hp") as "H". iApply (big_sepL_impl with "H").
    iIntros "!>" (i u Hi) "HR". destruct u as [count|spin]; cbn [sema_client posts].
    + iApply (wp_wand with "[HR]"); [iApply (sema_post_spec with "I HR"); [|done]; by apply (proj1 (list.Forall_forall _ _) Hus _ (list_elem_of_lookup_2 _ _ _ Hi))|].
      iIntros (o ->). by iSplit.
    + iApply (wp_wand with "[]"); [by iApply sema_wait_spec|]. iIntros (o) "(-> & H)". by iFrame "H".
  - iIntros (_) "_ HΦ". iDestruct (admitted_posts with "HΦ") as "H". iDestruct (auth_count with "Ha H") as %Hle.
    iApply fupd_mask_intro_discard; [set_solver|]. iPureIntro. lia.
Qed.
End SemaRun.

(** ** Runs *)

(** Two threads, one after the other. *)
Definition counter_start : machine := mk_machine {[ 8 := 0; 16 := 5 ]} ∅ false 0.
Definition counter_check (r : option (list prog * machine)) : bool :=
  match r with Some ([e0; e1], _) => bool_decide (finished e0 = Some 0) && bool_decide (finished e1 = Some 0) | _ => false end.

Lemma mutex_protects_counter_witness : ∃ ts s',
  rtc (pool_step (H := riscv64)) ([counter_client (H := riscv64) 8 16 100; counter_client (H := riscv64) 8 16 (-1)], counter_start) (ts, s') ∧
  words s' !! 16 = Some 7.
Proof.
  assert (counter_check (run_schedule (H := riscv64) (replicate 21 0 ++ replicate 21 1)%nat
    [counter_client (H := riscv64) 8 16 100; counter_client (H := riscv64) 8 16 (-1)] counter_start) = true) as Hc by (vm_compute; reflexivity).
  destruct (run_schedule _ _ _) as [[ts s']|] eqn:E; [|discriminate]. exists ts, s'. pose proof (run_schedule_steps _ _ _ _ E) as Hr. split; [exact Hr|].
  destruct (mutex_protects_counter (H := riscv64) 8 16 5 [100; -1] counter_start ts s' ltac:(discriminate) eq_refl eq_refl Hr) as [_ Hw]. apply Hw.
  destruct ts as [|e0 [|e1 [|]]]; try discriminate. apply andb_true_iff in Hc as [H0 H1]. apply bool_decide_eq_true in H0, H1. rw !Forall_cons H0 H1. by repeat split.
Defined.

(** One of two waiting threads gets through. *)
Lemma semaphore_bounds_waiters_witness : ∃ ts s',
  rtc (pool_step (H := riscv64)) ([sema_client (H := riscv64) 8 0 (Wait 100); sema_client (H := riscv64) 8 0 (Wait 100)], mk_machine {[ 8 := 2 ]} ∅ false 0) (ts, s') ∧
  (∃ e, ts !! 0%nat = Some e ∧ finished e = Some 0) ∧ Z.of_nat (length (admitted [Wait 100; Wait 100] ts)) ≤ 1.
Proof.
  assert (match run_schedule (H := riscv64) (replicate 7 0%nat) [sema_client (H := riscv64) 8 0 (Wait 100); sema_client (H := riscv64) 8 0 (Wait 100)] (mk_machine {[ 8 := 2 ]} ∅ false 0) with
    Some (e0 :: _, _) => bool_decide (finished e0 = Some 0) | _ => false end = true) as Hc by (vm_compute; reflexivity).
  destruct (run_schedule _ _ _) as [[ts s']|] eqn:E; [|discriminate]. exists ts, s'. pose proof (run_schedule_steps _ _ _ _ E) as Hr. split; [exact Hr|]. split.
  - destruct ts as [|e0 ts]; [discriminate|]. exists e0. split; [reflexivity|]. by apply bool_decide_eq_true in Hc.
  - apply (semaphore_bounds_waiters (H := riscv64) 8 0 2 [Wait 100; Wait 100] (mk_machine {[ 8 := 2 ]} ∅ false 0) ts s'); [apply lookup_insert_eq|split; [discriminate|reflexivity]|discriminate| |exact Hr].
    repeat apply Forall_cons_2; [discriminate|discriminate|apply Forall_nil_2].
Defined.
