(* ===== verification/UserRwlock.v ===== *)
(** The contract of the readers-writer locks of user threads: a writer has what
    the lock protects alone, readers share it, for locks whose [max_spin] is at
    least 1.  What the lock protects comes in pieces, one for each reader that
    may hold the lock at the same time; a writer gets all of them. *)

From iris.proofmode Require Import proofmode.
From iris.base_logic.lib Require Import invariants gen_heap token ghost_var.
From iris.algebra Require Import auth numbers.
From iris.program_logic Require Import weakestpre adequacy.
From Stdlib Require Import ZArith Lia.
From S2P Require Import Prelude Wait MemWords Futex FutexLogic FutexSpec.

#[local] Unset SsrOldRewriteGoalsOrder.

(** What the writer that has the writers' futex has done. *)
Inductive wstate := WFree | WPending | WActive.
#[export] Instance wstate_inhabited : Inhabited wstate := populate WFree.

Class rwlockG Σ := {
  rw_count :: countG Σ;
  rw_token :: tokenG Σ;
  rw_wstate :: ghost_varG Σ wstate;
  rw_word :: ghost_varG Σ (option Z)
}.
Definition rwlockΣ : gFunctors := #[countΣ; tokenΣ; ghost_varΣ wstate; ghost_varΣ (option Z)].
#[export] Instance subG_rwlockΣ Σ : subG rwlockΣ Σ → rwlockG Σ.
Proof. solve_inG. Qed.

Section Words.
Context `{Arch}.

(** A word is its two fields. *)
Lemma word_fields v v' : uint ARCH_WIDTH v → uint ARCH_WIDTH v' → futex_locked v = futex_locked v' → futex_kernel v = futex_kernel v' → v = v'.
Proof.
  intros Hv Hv' El Ek. apply Z.bits_inj'. intros n Hn. pose proof width_pos as [Hw _]. rw /futex_kernel in Ek.
  pose proof (locked_testbit v) as T. pose proof (locked_testbit v') as T'. rw El in T. destruct ARCH_BIG_ENDIAN.
  - destruct (Z.lt_trichotomy n (ARCH_WIDTH - 1)) as [Hlt|[->|Hgt]]; [|done|].
    + specialize (T n Hv Hn). rw (T' n Hv' Hn) (proj2 (Z.ltb_lt _ _) Hlt) /= in T. done.
    + rw !(uint_testbit_high ARCH_WIDTH) //; lia.
  - destruct (Z.eq_dec n 0) as [->|Hz]; [done|]. specialize (T (n - 1) Hv ltac:(lia)). rw (T' (n - 1) Hv') in T; [lia|].
    by replace (n - 1 + 1) with n in T by lia.
Qed.

Lemma kernel_set_kernel v b : futex_kernel (set_kernel v b) = b.
Proof. rw /futex_kernel -/kernel_pos set_kernel_testbit; [apply kernel_pos_range|]. by rw Z.eqb_refl. Qed.

Lemma land_odd n : ctrue (Z.land n 1) = Z.odd n.
Proof. rw /ctrue. change 1 with (Z.ones 1). rw Z.land_ones // Zmod_odd. by destruct (Z.odd n). Qed.
End Words.

Section Rwlock.
Context `{Arch} `{!threadGS Σ, !rwlockG Σ}.
Context (lock : Z) (N : nat) (Piece : iProp Σ).
Context (γt γn γw γv γl : gname).
Context (Nsmall : 2 * Z.of_nat N + 1 < 2 ^ (ARCH_WIDTH - 1)).

Definition rdN : namespace := nroot .@ "rd".
Definition waitN : namespace := nroot .@ "wait".

(** [n] readers have left their tickets; a writer that is waiting for them has
    set the lowest bit, and an active writer has all pieces. *)
Definition rd_state (v : Z) (n : nat) (st : wstate) : iProp Σ :=
  match st with
  | WFree => ⌜futex_locked v = (2 * Z.of_nat n)%Z⌝ ∗ [∗] replicate (N - n) Piece
  | WPending => ⌜futex_locked v = (2 * Z.of_nat n + 1)%Z⌝ ∗ [∗] replicate (N - n) Piece
  | WActive => ⌜n = 0%nat ∧ futex_locked v = 1 ∧ futex_kernel v = false⌝
  end.
Definition rd_inv : iProp Σ :=
  ∃ v n st, rd_futex lock ↦ v ∗ ⌜uint ARCH_WIDTH v⌝ ∗ own γt (● N) ∗ own γt (◯ n) ∗ own γn (● n) ∗ ghost_var γw (1/2) st ∗ rd_state v n st.

(** The value of an unlocked [wait_futex] is known to whoever may write. *)
Definition wait_inv : iProp Σ :=
  ∃ v, wait_futex lock ↦ v ∗ ⌜uint ARCH_WIDTH v⌝ ∗
    ((⌜futex_locked v = 0⌝ ∗ ghost_var γv (1/2) (Some v)) ∨ (⌜futex_locked v = 1⌝ ∗ ghost_var γv (1/2) None)).
Definition may_write : iProp Σ := ghost_var γw (1/2) WFree ∗ ∃ v, ghost_var γv (1/2) (Some v).

Definition is_rwlock : iProp Σ := inv rdN rd_inv ∗ inv waitN wait_inv ∗ is_futex γl (wr_futex lock) True may_write.

Definition ticket : iProp Σ := own γt (◯ 1%nat).
Definition reading : iProp Σ := Piece ∗ own γn (◯ 1%nat).
Definition writing : iProp Σ := token γl ∗ ghost_var γw (1/2) WActive ∗ ghost_var γv (1/2) None ∗ [∗] replicate N Piece.

(** ** Waiting readers *)

Lemma wp_load_wait Φ : inv waitN wait_inv -∗
  (∀ v, ⌜uint ARCH_WIDTH v⌝ -∗ ⌜futex_locked v = 0 ∨ futex_locked v = 1⌝ -∗ Φ (Return v)) -∗ WP Load (wait_futex lock) {{ Φ }}.
Proof.
  iIntros "#I H". iApply wp_load_acc. iInv "I" as (v) ">(Hf & %Hv & Hl)" "Hclose". iModIntro. iExists v. iFrame "Hf". iIntros "Hf".
  iAssert (⌜futex_locked v = 0 ∨ futex_locked v = 1⌝)%I as %Hl. { iDestruct "Hl" as "[[% _]|[% _]]"; iPureIntro; auto. }
  iMod ("Hclose" with "[Hf Hl]") as "_". { iNext. iExists v. by iFrame. } iModIntro. by iApply "H".
Qed.

(** A swap of a locked [wait_futex] for a locked one. *)
Lemma wp_cas_wait old new Φ : uint ARCH_WIDTH new → futex_locked old = 1 → futex_locked new = 1 →
  inv waitN wait_inv -∗ (∀ b, Φ (Return b)) -∗ WP atomic_cas_bool (wait_futex lock) old new {{ Φ }}.
Proof.
  iIntros (Hn Eo En) "#I H". iApply wp_cas_bool_acc. iInv "I" as (v) ">(Hf & %Hv & Hl)" "Hclose". iModIntro. iExists v. iFrame "Hf". iIntros "Hf".
  iMod ("Hclose" with "[Hf Hl]") as "_"; [|iModIntro; iApply "H"]. iNext. destruct (Z.eqb_spec v old) as [->|_]; [|iExists v; by iFrame].
  iExists new. iFrame "Hf". iSplit; [done|]. iDestruct "Hl" as "[[%E _]|[_ Hg]]"; [congruence|]. iRight. by iFrame.
Qed.

(** With [spin >= 1] the variable that is swapped in has been assigned. *)
Lemma futex_wait_spec junk spin : 1 ≤ spin → inv waitN wait_inv -∗ WP futex_wait junk (wait_futex lock) spin {{ o, ⌜∃ v, o = Return v⌝ }}.
Proof.
  iIntros (Hs) "#I". iApply (wp_loop_inv (λ n f, ⌜0 ≤ n ∧ (n = 0 ∨ (uint ARCH_WIDTH f ∧ futex_locked f = 1))⌝)%I); [|iPureIntro; lia].
  iIntros "!>" (n m [Hn Hm]). iApply wp_seq. iApply (wp_load_wait with "I"). iIntros (v Hv Hl) "!>". destruct Hl as [E|E]; rw E; cbn [ctrue Z.eqb negb].
  { iApply wp_return. by iExists 0. }
  rw (proj2 (Z.ltb_ge spin 0)); [lia|]. cbn [orb]. set (new := if spin <? n + 1 then m else set_kernel v true).
  assert (uint ARCH_WIDTH new ∧ futex_locked new = 1) as [Hu Hnl].
  { rw /new. destruct (Z.ltb_spec spin (n + 1)); [destruct Hm as [->|Hm]; [lia|done]|]. split; [by apply set_kernel_uint|by rw locked_set_kernel]. }
  iApply wp_seq. iApply (wp_cas_wait with "I"); [done..|]. iIntros (b) "!>". destruct (ctrue b).
  - destruct (futex_kernel new).
    + iApply wp_seq. iApply wp_syswait. iIntros (w) "!>". iApply wp_value. iPureIntro. lia.
    + iApply wp_value. iPureIntro. lia.
  - iApply wp_value. iPureIntro. split; [lia|]. by right.
Qed.

(** ** Readers *)

Lemma wp_load_rd Φ : inv rdN rd_inv -∗ (∀ v, ⌜uint ARCH_WIDTH v⌝ -∗ Φ (Return v)) -∗ WP Load (rd_futex lock) {{ Φ }}.
Proof.
  iIntros "#I H". iApply wp_load_acc. iInv "I" as (v n st) "(>Hf & >%Hv & Hr)" "Hclose". iModIntro. iExists v. iFrame "Hf". iIntros "Hf".
  iMod ("Hclose" with "[Hf Hr]") as "_". { iNext. iExists v, n, st. by iFrame. } iModIntro. by iApply "H".
Qed.

(** A swap that adds a reader. *)
Lemma wp_cas_enter old Φ : uint ARCH_WIDTH old → Z.odd (futex_locked old) = false → inv rdN rd_inv -∗ ticket -∗
  (▷ Piece -∗ own γn (◯ 1%nat) -∗ Φ (Return 1)) ∧ (ticket -∗ Φ (Return 0)) -∗
  WP atomic_cas_bool (rd_futex lock) old (set_locked old (futex_locked old + 2)) {{ Φ }}.
Proof.
  iIntros (Ho Hodd) "#I Hk H". iApply wp_cas_bool_acc. iInv "I" as (v n st) "(>Hf & >%Hv & >Ht● & >Ht & >Hn & >Hw & Hst)" "Hclose".
  iModIntro. iExists v. iFrame "Hf". iIntros "Hf". destruct (Z.eqb_spec v old) as [->|_].
  - destruct st; cbn [rd_state]; [|iDestruct "Hst" as "[>%E _]"; exfalso; rw E in Hodd; by rw Z.add_comm Z.odd_add_mul_2 in Hodd|iDestruct "Hst" as ">%E"; exfalso; destruct E as (_ & E & _); by rw E in Hodd].
    iDestruct "Hst" as "[>%E Hp]". iCombine "Hk Ht" as "Ht". iDestruct (frag_le with "Ht● Ht") as %Hle. change (1 + n ≤ N)%nat in Hle.
    iMod (count_incr with "Hn") as "[Hn Hr]". rw (_ : (N - n)%nat = S (N - S n)); [lia|]. iDestruct "Hp" as "[HP Hp]".
    assert (uint (ARCH_WIDTH - 1) (futex_locked old + 2)) as Hu by (split; lia).
    iMod ("Hclose" with "[Hf Ht● Ht Hn Hw Hp]") as "_".
    { iNext. iExists _, (S n), WFree. iFrame "Hf Ht● Ht Hn Hw Hp". iSplit; [iPureIntro; by apply set_locked_uint|]. iPureIntro. rw locked_set_locked //. lia. }
    iModIntro. iDestruct "H" as "[H _]". iApply ("H" with "HP Hr").
  - iMod ("Hclose" with "[Hf Ht● Ht Hn Hw Hst]") as "_". { iNext. iExists v, n, st. by iFrame. } iModIntro. iDestruct "H" as "[_ H]". by iApply "H".
Qed.

Lemma rlock_spec junk spin : 1 ≤ spin → is_rwlock -∗ ticket -∗ WP rwlock_rlock junk lock spin {{ o, ⌜o = Return 0⌝ ∗ reading }}.
Proof.
  iIntros (Hs) "(#I & #Iw & _) Hk". iApply (wp_loop_inv (λ _ _, ticket) with "[] Hk"). iIntros "!>" (n m) "Hk". iApply wp_seq.
  iApply (wp_wand with "[]"); [by iApply futex_wait_spec|]. iIntros (o (v0 & ->)) "!>". iApply wp_seq. iApply (wp_load_rd with "I"). iIntros (v Hv) "!>".
  rw land_odd. destruct (Z.odd (futex_locked v)) eqn:Hodd; [by iApply wp_value|]. iApply wp_seq. iApply (wp_cas_enter with "I Hk"); [done|done|]. iSplit.
  - iIntros "HP Hr !>". iApply wp_return. by iFrame.
  - iIntros "Hk !>". by iApply wp_value.
Qed.

Lemma rtrylock_spec : is_rwlock -∗ ticket -∗ WP rwlock_rtrylock lock {{ o, (⌜o = Return 0⌝ ∗ reading) ∨ (⌜o = Return (-1)⌝ ∗ ticket) }}.
Proof.
  iIntros "(#I & _ & _) Hk". iApply wp_seq. iApply (wp_load_rd with "I"). iIntros (v Hv) "!>".
  rw land_odd. destruct (Z.odd (futex_locked v)) eqn:Hodd; [iApply wp_return; iRight; by iFrame|]. iApply wp_seq. iApply (wp_cas_enter with "I Hk"); [done|done|]. iSplit.
  - iIntros "HP Hr !>". iApply wp_return. iLeft. by iFrame.
  - iIntros "Hk !>". iApply wp_return. iRight. by iFrame.
Qed.

(** A swap that clears the kernel bit only. *)
Lemma wp_cas_notify old Φ : uint ARCH_WIDTH old → futex_kernel old = true → inv rdN rd_inv -∗ (∀ b, Φ (Return b)) -∗
  WP atomic_cas_bool (rd_futex lock) old (set_kernel old false) {{ Φ }}.
Proof.
  iIntros (Ho Hk) "#I H". iApply wp_cas_bool_acc. iInv "I" as (v n st) "(>Hf & >%Hv & Hg1 & Hg2 & Hg3 & Hg4 & Hst)" "Hclose".
  iModIntro. iExists v. iFrame "Hf". iIntros "Hf". iAssert (▷ rd_state (if v =? old then set_kernel old false else v) n st)%I with "[Hst]" as "Hst".
  { iNext. destruct (Z.eqb_spec v old) as [->|_]; [|done]. destruct st; cbn [rd_state]; rw ?locked_set_kernel //.
    iDestruct "Hst" as %(_ & _ & Hf). congruence. }
  iMod ("Hclose" with "[Hf Hg1 Hg2 Hg3 Hg4 Hst]") as "_"; [|iModIntro; iApply "H"]. iNext. iExists _, n, st. iFrame. iPureIntro. destruct (v =? old); [by apply set_kernel_uint|done].
Qed.

Lemma rwlock_notify_spec : inv rdN rd_inv -∗ WP rwlock_notify lock {{ o, ⌜o = Return 0⌝ }}.
Proof.
  iIntros "#I". iApply (wp_loop_inv (λ _ _, True%I)); [|done]. iIntros "!>" (n m) "_". iApply wp_seq. iApply (wp_load_rd with "I"). iIntros (v Hv) "!>".
  destruct (futex_kernel v) eqn:Hk; cbn [negb]; [|by iApply wp_return]. iApply wp_seq. iApply (wp_cas_notify with "I"); [done|done|]. iIntros (b) "!>".
  destruct (ctrue b); [|by iApply wp_value]. iApply wp_seq. iApply wp_syswake. iIntros (w) "!>". by iApply wp_return.
Qed.

(** A reader finds itself counted. *)
Lemma wp_load_reading Φ : inv rdN rd_inv -∗ own γn (◯ 1%nat) -∗
  (∀ v, ⌜uint ARCH_WIDTH v⌝ -∗ ⌜1 < futex_locked v⌝ -∗ own γn (◯ 1%nat) -∗ Φ (Return v)) -∗ WP Load (rd_futex lock) {{ Φ }}.
Proof.
  iIntros "#I Hr H". iApply wp_load_acc. iInv "I" as (v n st) "(>Hf & >%Hv & Ht● & Ht & >Hn & Hw & Hst)" "Hclose". iModIntro. iExists v. iFrame "Hf". iIntros "Hf".
  iDestruct (frag_le with "Hn Hr") as %Hle. iAssert (▷ ⌜1 < futex_locked v⌝)%I as "#>%Hl".
  { iNext. destruct st; cbn [rd_state]; [iDestruct "Hst" as "[% _]"|iDestruct "Hst" as "[% _]"|iDestruct "Hst" as %(-> & _)]; iPureIntro; lia. }
  iMod ("Hclose" with "[Hf Ht● Ht Hn Hw Hst]") as "_". { iNext. iExists v, n, st. by iFrame. } iModIntro. by iApply "H".
Qed.

Lemma runlock_spec : is_rwlock -∗ reading -∗ WP rwlock_runlock lock {{ o, ⌜o = Return 0⌝ ∗ ticket }}.
Proof.
  iIntros "(#I & _ & _) Hr". iApply (wp_loop_inv (λ _ _, reading) with "[] Hr"). iIntros "!>" (n m) "[HP Hr]". iApply wp_seq.
  iApply (wp_load_reading with "I Hr"). iIntros (v Hv Hl) "Hr !>". rw (proj2 (Z.leb_gt _ _) Hl). iApply wp_seq. iApply wp_cas_bool_acc.
  iInv "I" as (v' k st) "(>Hf & >%Hv' & >Ht● & >Ht & >Hn & >Hw & Hst)" "Hclose". iModIntro. iExists v'. iFrame "Hf". iIntros "Hf".
  destruct (Z.eqb_spec v' v) as [->|_].
  - pose proof (locked_uint _ Hv) as [_ Hu2]. assert (uint (ARCH_WIDTH - 1) (futex_locked v - 2)) as Hu by (split; lia).
    iDestruct (frag_le with "Ht● Ht") as %HkN. iMod (count_decr with "Hn Hr") as (j ->) "Hn". iDestruct (frag_succ with "Ht") as "[Hk Ht]".
    iAssert (▷ rd_state (set_locked v (futex_locked v - 2)) j st)%I with "[HP Hst]" as "Hst".
    { iNext. destruct st; cbn [rd_state]; rw ?locked_set_locked //.
      - iDestruct "Hst" as "[%E Hp]". rw (_ : (N - j)%nat = S (N - S j)); [lia|]. iFrame. iPureIntro. lia.
      - iDestruct "Hst" as "[%E Hp]". rw (_ : (N - j)%nat = S (N - S j)); [lia|]. iFrame. iPureIntro. lia.
      - by iDestruct "Hst" as %(? & _). }
    iMod ("Hclose" with "[Hf Ht● Ht Hn Hw Hst]") as "_". { iNext. iExists _, j, st. iFrame. iPureIntro. by apply set_locked_uint. }
    iIntros "!> !>". cbn [ctrue Z.eqb negb]. destruct (_ =? 1).
    + iApply (wp_wand with "[]"); [by iApply rwlock_notify_spec|]. iIntros (o ->). by iFrame.
    + iApply wp_return. by iFrame.
  - iMod ("Hclose" with "[Hf Ht● Ht Hn Hw Hst]") as "_". { iNext. iExists v', k, st. by iFrame. } iIntros "!> !>". iApply wp_value. iFrame.
Qed.

(** ** Writers *)

(** Whoever may write reads the value of [wait_futex] that it knows. *)
Lemma wp_load_known w Φ : inv waitN wait_inv -∗ ghost_var γv (1/2) w -∗
  (∀ v, ⌜uint ARCH_WIDTH v⌝ -∗ ⌜match w with Some u => v = u ∧ futex_locked v = 0 | None => futex_locked v = 1 end⌝ -∗ ghost_var γv (1/2) w -∗ Φ (Return v)) -∗
  WP Load (wait_futex lock) {{ Φ }}.
Proof.
  iIntros "#I Hg H". iApply wp_load_acc. iInv "I" as (v) ">(Hf & %Hv & Hl)" "Hclose". iModIntro. iExists v. iFrame "Hf". iIntros "Hf".
  iAssert (⌜match w with Some u => v = u ∧ futex_locked v = 0 | None => futex_locked v = 1 end⌝)%I as %Hw.
  { iDestruct "Hl" as "[[%E Hg']|[%E Hg']]"; by iDestruct (ghost_var_agree (A := option Z) with "Hg Hg'") as %->. }
  iMod ("Hclose" with "[Hf Hl]") as "_". { iNext. iExists v. by iFrame. } iModIntro. by iApply ("H" with "[//] [//] Hg").
Qed.

(** Its swap of an unlocked [wait_futex] succeeds. *)
Lemma wp_cas_known u new w Φ : uint ARCH_WIDTH new → (w = Some new ∧ futex_locked new = 0 ∨ w = None ∧ futex_locked new = 1) →
  inv waitN wait_inv -∗ ghost_var γv (1/2) (Some u) -∗ (ghost_var γv (1/2) w -∗ Φ (Return 1)) -∗ WP atomic_cas_bool (wait_futex lock) u new {{ Φ }}.
Proof.
  iIntros (Hn Hw) "#I Hg H". iApply wp_cas_bool_acc. iInv "I" as (v) ">(Hf & %Hv & Hl)" "Hclose". iModIntro. iExists v. iFrame "Hf". iIntros "Hf".
  iDestruct "Hl" as "[[%E Hg']|[_ Hg']]"; [|by iDestruct (ghost_var_agree (A := option Z) with "Hg Hg'") as %?].
  iDestruct (ghost_var_agree (A := option Z) with "Hg Hg'") as %[= ->]. rw Z.eqb_refl. iMod (ghost_var_update_halves w with "Hg Hg'") as "[Hg Hg']".
  iMod ("Hclose" with "[Hf Hg']") as "_"; [|iModIntro; by iApply "H"]. iNext. iExists new. iFrame "Hf". iSplit; [done|].
  destruct Hw as [[-> El]|[-> El]]; [iLeft|iRight]; by iFrame.
Qed.

Lemma wait_trylock_spec u : inv waitN wait_inv -∗ ghost_var γv (1/2) (Some u) -∗
  WP futex_trylock (wait_futex lock) {{ o, ⌜o = Return 0⌝ ∗ ghost_var γv (1/2) None }}.
Proof.
  iIntros "#I Hg". iApply wp_seq. iApply (wp_load_known with "I Hg"). iIntros (v Hv [-> E]) "Hg !>". rw E. cbn [ctrue Z.eqb negb].
  iApply wp_seq. iApply (wp_cas_known _ _ None with "I Hg").
  { by apply set_locked_uint; [|apply one_uint]. } { right. split; [done|]. by apply locked_set_locked; [|apply one_uint]. }
  iIntros "Hg !>". iApply wp_return. by iFrame.
Qed.

Lemma wait_notify_spec u : inv waitN wait_inv -∗ ghost_var γv (1/2) (Some u) -∗
  WP futex_notify (wait_futex lock) {{ o, ⌜o = Return 0⌝ ∗ ∃ v, ghost_var γv (1/2) (Some v) }}.
Proof.
  iIntros "#I Hg". iApply (wp_loop_inv (λ _ _, ghost_var γv (1/2) (Some u)) with "[] Hg"). iIntros "!>" (n m) "Hg". iApply wp_seq.
  iApply (wp_load_known with "I Hg"). iIntros (v Hv [-> E]) "Hg !>". rw E. cbn [ctrue Z.eqb negb orb]. destruct (futex_kernel u); cbn [negb]; [|iApply wp_return; iFrame; done].
  iApply wp_seq. iApply (wp_cas_known _ _ (Some (set_kernel u false)) with "I Hg"). { by apply set_kernel_uint. } { left. split; [done|]. by rw locked_set_kernel. }
  iIntros "Hg !>". cbn [ctrue Z.eqb negb]. iApply wp_seq. iApply wp_syswake. iIntros (w) "!>". iApply wp_return. iFrame. done.
Qed.

Lemma wait_unlock_spec : inv waitN wait_inv -∗ ghost_var γv (1/2) None -∗
  WP futex_unlock (wait_futex lock) {{ o, ⌜o = Return 0⌝ ∗ ∃ v, ghost_var γv (1/2) (Some v) }}.
Proof.
  iIntros "#I Hg". iApply (wp_loop_inv (λ _ _, ghost_var γv (1/2) None) with "[] Hg"). iIntros "!>" (n m) "Hg". iApply wp_seq.
  iApply (wp_load_known with "I Hg"). iIntros (v Hv E) "Hg !>". rw E. cbn [ctrue Z.eqb negb]. iApply wp_seq. iApply wp_cas_bool_acc.
  iInv "I" as (v') ">(Hf & %Hv' & Hl)" "Hclose". iModIntro. iExists v'. iFrame "Hf". iIntros "Hf".
  iDestruct "Hl" as "[[_ Hg']|[%E' Hg']]"; [by iDestruct (ghost_var_agree (A := option Z) with "Hg Hg'") as %?|]. destruct (Z.eqb_spec v' v) as [->|_].
  - assert (uint (ARCH_WIDTH - 1) 0) as Hz by (apply zero_uint; pose proof width_pos; lia). set (new := set_locked v 0).
    iMod (ghost_var_update_halves (Some new) with "Hg Hg'") as "[Hg Hg']". iMod ("Hclose" with "[Hf Hg']") as "_".
    { iNext. iExists new. iFrame "Hf". iSplit; [iPureIntro; by apply set_locked_uint|]. iLeft. iFrame. iPureIntro. by apply locked_set_locked. }
    iIntros "!> !>". cbn [ctrue Z.eqb negb]. destruct (futex_kernel new); [|iApply wp_return; iFrame; done].
    iApply (wp_wand with "[Hg]"); [by iApply (wait_notify_spec with "I Hg")|]. iIntros (o) "(-> & H)". by iFrame.
  - iMod ("Hclose" with "[Hf Hg']") as "_". { iNext. iExists v'. iFrame "Hf". iSplit; [done|]. iRight. by iFrame. } iIntros "!> !>". by iApply wp_value.
Qed.

(** What the state of the writer says about the readers' futex. *)
Definition rd_word (v : Z) (st : wstate) : Prop :=
  match st with
  | WFree => Z.odd (futex_locked v) = false
  | WPending => Z.odd (futex_locked v) = true
  | WActive => futex_locked v = 1 ∧ futex_kernel v = false
  end.

Lemma rd_state_word v n st : rd_state v n st -∗ ⌜rd_word v st⌝.
Proof.
  destruct st; cbn [rd_state rd_word].
  - iIntros "[%E _]". iPureIntro. rw E. by rw Z.odd_mul.
  - iIntros "[%E _]". iPureIntro. rw E Z.add_comm Z.odd_add_mul_2 //.
  - iIntros (?). iPureIntro. tauto.
Qed.

Lemma wp_load_writer st Φ : inv rdN rd_inv -∗ ghost_var γw (1/2) st -∗
  (∀ v, ⌜uint ARCH_WIDTH v⌝ -∗ ⌜rd_word v st⌝ -∗ ghost_var γw (1/2) st -∗ Φ (Return v)) -∗ WP Load (rd_futex lock) {{ Φ }}.
Proof.
  iIntros "#I Hg H". iApply wp_load_acc. iInv "I" as (v n st') "(>Hf & >%Hv & Ht● & Ht & Hn & >Hw & Hst)" "Hclose". iModIntro. iExists v. iFrame "Hf". iIntros "Hf".
  iDestruct (ghost_var_agree (A := wstate) with "Hg Hw") as %<-. iAssert (▷ ⌜rd_word v st⌝)%I as "#>%Hr". { iNext. by iApply rd_state_word. }
  iMod ("Hclose" with "[Hf Ht● Ht Hn Hw Hst]") as "_". { iNext. iExists v, n, st. by iFrame. } iModIntro. by iApply ("H" with "[//] [//] Hg").
Qed.

(** A swap by the writer that moves on to another state. *)
Lemma wp_cas_writer st st' old new (Q1 Q2 : iProp Σ) Φ : uint ARCH_WIDTH new →
  (∀ n, Q1 ∗ rd_state old n st ⊢ Q2 ∗ rd_state new n st') →
  inv rdN rd_inv -∗ ghost_var γw (1/2) st -∗ Q1 -∗
  (ghost_var γw (1/2) st' -∗ ▷ Q2 -∗ Φ (Return 1)) ∧ (∀ v, ⌜uint ARCH_WIDTH v⌝ -∗ ⌜rd_word v st⌝ -∗ ⌜v ≠ old⌝ -∗ ghost_var γw (1/2) st -∗ Q1 -∗ Φ (Return 0)) -∗
  WP atomic_cas_bool (rd_futex lock) old new {{ Φ }}.
Proof.
  iIntros (Hn Hex) "#I Hg HQ H". iApply wp_cas_bool_acc. iInv "I" as (v n st0) "(>Hf & >%Hv & Ht● & Ht & Hn & >Hw & Hst)" "Hclose". iModIntro. iExists v. iFrame "Hf". iIntros "Hf".
  iDestruct (ghost_var_agree (A := wstate) with "Hg Hw") as %<-. destruct (Z.eqb_spec v old) as [->|Hne].
  - iMod (ghost_var_update_halves st' with "Hg Hw") as "[Hg Hw]". iAssert (▷ (Q2 ∗ rd_state new n st'))%I with "[HQ Hst]" as "[HQ Hst]". { iNext. iApply Hex. iFrame. }
    iMod ("Hclose" with "[Hf Ht● Ht Hn Hw Hst]") as "_". { iNext. iExists new, n, st'. by iFrame. } iModIntro. iDestruct "H" as "[H _]". by iApply ("H" with "Hg").
  - iAssert (▷ ⌜rd_word v st⌝)%I as "#>%Hr". { iNext. by iApply rd_state_word. }
    iMod ("Hclose" with "[Hf Ht● Ht Hn Hw Hst]") as "_". { iNext. iExists v, n, st. by iFrame. } iModIntro. iDestruct "H" as "[_ H]". by iApply ("H" with "[//] [//] [//] Hg").
Qed.

Lemma wait_readers_gone_spec spin : inv rdN rd_inv -∗ ghost_var γw (1/2) WPending -∗
  WP wait_readers_gone (rd_futex lock) spin {{ o, ⌜o = Return 0⌝ ∗ ghost_var γw (1/2) WActive ∗ [∗] replicate N Piece }}.
Proof.
  iIntros "#I Hg". iApply (wp_loop_inv (λ _ _, ghost_var γw (1/2) WPending) with "[] Hg"). iIntros "!>" (n m) "Hg". iApply wp_seq.
  iApply (wp_load_writer with "I Hg"). iIntros (v Hv Hw) "Hg !>". destruct (Z.eqb_spec (futex_locked v) 1) as [E|E]; cbn [negb].
  - iApply wp_seq. iApply (wp_cas_writer _ WActive _ _ True ([∗] replicate N Piece) with "I Hg [//]"); [by apply set_kernel_uint| |iSplit].
    + iIntros (k) "[_ [%Ek Hp]]". assert (k = 0%nat) as -> by lia. rw Nat.sub_0_r. iFrame "Hp". iPureIntro. by rw locked_set_kernel // kernel_set_kernel.
    + iIntros "Hg Hp !>". iApply wp_return. by iFrame.
    + iIntros (v' _ _ _) "Hg _ !>". by iApply wp_value.
  - destruct (go_kernel spin n) as [go n']. set (new := if go then _ else _). assert (uint ARCH_WIDTH new ∧ futex_locked new = futex_locked v) as [Hu El].
    { rw /new. destruct go; [split; [by apply set_kernel_uint|by apply locked_set_kernel]|done]. }
    iApply wp_seq. iApply (wp_cas_writer _ WPending _ _ True True with "I Hg [//]"); [done| |iSplit].
    + iIntros (k) "[_ [%Ek Hp]]". iSplit; [done|]. iFrame "Hp". iPureIntro. lia.
    + iIntros "Hg _ !>". cbn [ctrue Z.eqb negb]. destruct (futex_kernel new); [|by iApply wp_value].
      iApply wp_seq. iApply wp_syswait. iIntros (w) "!>". by iApply wp_value.
    + iIntros (v' _ _ _) "Hg _ !>". by iApply wp_value.
Qed.

Lemma wait_for_reads_spec spin : inv rdN rd_inv -∗ ghost_var γw (1/2) WFree -∗
  WP wait_for_reads (rd_futex lock) spin {{ o, ⌜o = Return 0⌝ ∗ ghost_var γw (1/2) WActive ∗ [∗] replicate N Piece }}.
Proof.
  iIntros "#I Hg". iApply (wp_loop_inv (λ _ _, ghost_var γw (1/2) WFree) with "[] Hg"). iIntros "!>" (n m) "Hg". iApply wp_seq.
  iApply (wp_load_writer with "I Hg"). iIntros (v Hv Hw) "Hg !>". rw land_odd Hw. iApply wp_seq. pose proof (locked_uint _ Hv) as [Hl1 Hl2].
  assert (uint (ARCH_WIDTH - 1) (futex_locked v + 1)) as Hu.
  { split; [lia|]. assert (futex_locked v ≠ 2 ^ (ARCH_WIDTH - 1) - 1); [|lia]. intros E. cbn in Hw. rw E in Hw. pose proof width_pos as [Hwp _].
    rw Z.odd_sub Z.odd_pow in Hw; [lia|done]. }
  iApply (wp_cas_writer _ WPending _ _ True True with "I Hg [//]"); [by apply set_locked_uint| |iSplit].
  - iIntros (k) "[_ [%Ek Hp]]". iSplit; [done|]. iFrame "Hp". iPureIntro. rw locked_set_locked //. lia.
  - iIntros "Hg _ !>". cbn [ctrue Z.eqb negb]. iApply (wp_wand with "[Hg]"); [by iApply (wait_readers_gone_spec with "I Hg")|]. iIntros (o) "(-> & H)". by iFrame.
  - iIntros (v' _ _ _) "Hg _ !>". by iApply wp_value.
Qed.

Lemma wlock_spec spin : is_rwlock -∗ WP rwlock_wlock lock spin {{ o, ⌜o = Return 0⌝ ∗ writing }}.
Proof.
  iIntros "(#I & #Iw & #Il)". iApply wp_then. iApply (wp_wand with "[]"); [by iApply (futex_lock_spec with "Il")|].
  iIntros (o) "(-> & Ht & Hg & (%u & Hv))". iExists 0. iSplit; [done|]. iNext. iApply wp_then. iApply (wp_wand with "[Hv]"); [by iApply (wait_trylock_spec with "Iw Hv")|].
  iIntros (o) "(-> & Hv)". iExists 0. iSplit; [done|]. iNext. cbn [ctrue Z.eqb negb]. iApply (wp_wand with "[Hg]"); [by iApply (wait_for_reads_spec with "I Hg")|].
  iIntros (o) "(-> & Hg & Hp)". by iFrame.
Qed.

Lemma wunlock_spec : is_rwlock -∗ writing -∗ WP rwlock_wunlock lock {{ o, ⌜o = Return 0⌝ }}.
Proof.
  iIntros "(#I & #Iw & #Il) (Ht & Hg & Hv & Hp)". iApply wp_seq. iApply (wp_load_writer with "I Hg"). iIntros (v Hu [El Ek]) "Hg !>". rw El. cbn [Z.eqb Pos.eqb negb].
  assert (uint (ARCH_WIDTH - 1) 0) as Hz by (apply zero_uint; pose proof width_pos; lia).
  iApply wp_seq. iApply (wp_cas_writer _ WFree _ _ ([∗] replicate N Piece) True with "I Hg Hp"); [by apply set_locked_uint| |iSplit].
  - iIntros (k) "[Hp [-> _]]". iSplit; [done|]. cbn [rd_state]. rw Nat.sub_0_r. iFrame "Hp". iPureIntro. by rw locked_set_locked.
  - iIntros "Hg _ !>". cbn [ctrue Z.eqb negb]. iApply wp_then. iApply (wp_wand with "[Hv]"); [by iApply (wait_unlock_spec with "Iw Hv")|].
    iIntros (o) "(-> & Hv)". iExists 0. iSplit; [done|]. iNext. iApply wp_then. iApply (wp_wand with "[Ht Hg Hv]"); [by iApply (futex_unlock_spec with "Il Ht [$Hg $Hv]")|].
    iIntros (o) "(-> & _)". iExists 0. iSplit; [done|]. iNext. by iApply wp_return.
  - iIntros (v' Hu' [El' Ek'] Hne) "_ _ !>". exfalso. apply Hne. by apply word_fields; [| |rw El El'|rw Ek Ek'].
Qed.
End Rwlock.

(** ** A pair of words behind a readers-writer lock *)

(** Readers compare the words, writers change both. *)
Inductive pair_user := PairReader (junk spin : Z) | PairWriter (spin : Z).

Definition pair_client `{Arch} (lock a b : Z) (u : pair_user) : prog :=
  (match u with
   | PairReader junk spin => rwlock_rlock junk lock spin;; x ← Load a; y ← Load b; rwlock_runlock lock;; ret (x - y)
   | PairWriter spin => rwlock_wlock lock spin;; x ← Load a; Store a (ulong (x + 1));; Store b (ulong (x + 1));; rwlock_wunlock lock;; ret 0
   end)%prog.

Section Pair.
Context `{Arch} `{!threadGS Σ, !rwlockG Σ}.
Context (lock a b : Z) (n0 : nat) (γt γn γw γv γl : gname).

Definition share : Qp := / pos_to_Qp (Pos.of_succ_nat n0).
Definition piece : iProp Σ := ∃ x, pointsto a (DfracOwn share) x ∗ pointsto b (DfracOwn share) x.
Definition shares (k : nat) : Qp := pos_to_Qp (Pos.of_succ_nat k) * share.

Lemma shares_0 : shares 0 = share.
Proof. rw /shares. apply Qp.mul_1_l. Qed.
Lemma shares_S k : shares (S k) = (share + shares k)%Qp.
Proof. rw /shares /=. by rw -Pos.add_1_l -pos_to_Qp_add Qp.mul_add_distr_r Qp.mul_1_l. Qed.
Lemma shares_all : shares n0 = 1%Qp.
Proof. apply Qp.mul_inv_r. Qed.

Lemma pieces_split k x : pointsto a (DfracOwn (shares k)) x -∗ pointsto b (DfracOwn (shares k)) x -∗ [∗] replicate (S k) piece.
Proof.
  iInduction k as [|k IH].
  - rw shares_0. iIntros "Ha Hb". cbn. iSplit; [|done]. iExists x. iFrame.
  - rw shares_S -dfrac_op_own !pointsto_fractional. iIntros "[Ha Ha'] [Hb Hb']". iSplitL "Ha Hb"; [iExists x; iFrame|]. iApply ("IH" with "Ha' Hb'").
Qed.

Lemma pieces_join k : [∗] replicate (S k) piece ⊢ ∃ x, pointsto a (DfracOwn (shares k)) x ∗ pointsto b (DfracOwn (shares k)) x.
Proof.
  induction k as [|k IH].
  - rw shares_0. iIntros "[H _]". done.
  - iIntros "[(%x & Ha & Hb) H]". iDestruct (IH with "H") as (y) "[Ha' Hb']". iDestruct (pointsto_combine with "Ha Ha'") as "[Ha ->]".
    iDestruct (pointsto_combine with "Hb Hb'") as "[Hb _]". iExists y. rw shares_S dfrac_op_own. iFrame.
Qed.

Context (Nsmall : 2 * Z.of_nat (S n0) + 1 < 2 ^ (ARCH_WIDTH - 1)).
Abbreviation the_lock := (is_rwlock lock (S n0) piece γt γn γw γv γl).

Lemma pair_reader_spec junk spin : 1 ≤ spin → the_lock -∗ ticket γt -∗ WP pair_client lock a b (PairReader junk spin) {{ o, ⌜o = Return 0⌝ }}.
Proof.
  iIntros (Hs) "#I Hk". iApply wp_then. iApply (wp_wand with "[Hk]"); [by iApply (rlock_spec with "I Hk")|].
  iIntros (o) "(-> & (%x & Ha & Hb) & Hr)". iExists 0. iSplit; [done|]. iNext. iApply wp_then. iApply (wp_load_frac with "Ha"). iIntros "Ha". iExists x. iSplit; [done|]. iNext.
  iApply wp_then. iApply (wp_load_frac with "Hb"). iIntros "Hb". iExists x. iSplit; [done|]. iNext. iApply wp_then.
  iApply (wp_wand with "[Ha Hb Hr]"); [iApply (runlock_spec with "I"); iFrame "Hr"; iExists x; iFrame|].
  iIntros (o) "(-> & _)". iExists 0. iSplit; [done|]. iNext. iApply wp_return. by rw Z.sub_diag.
Qed.

Lemma pair_writer_spec spin : the_lock -∗ WP pair_client lock a b (PairWriter spin) {{ o, ⌜o = Return 0⌝ }}.
Proof.
  iIntros "#I". iApply wp_then. iApply (wp_wand with "[]"); [by iApply wlock_spec|]. iIntros (o) "(-> & Ht & Hg & Hv & Hp)". iExists 0. iSplit; [done|]. iNext.
  iDestruct (pieces_join with "Hp") as (x) "[Ha Hb]". rw shares_all. iApply wp_then. iApply (wp_load with "Ha"). iIntros "Ha". iExists x. iSplit; [done|]. iNext.
  iApply wp_then. iApply (wp_store with "Ha"). iIntros "Ha". iExists 0. iSplit; [done|]. iNext. iApply wp_then. iApply (wp_store with "Hb"). iIntros "Hb". iExists 0. iSplit; [done|]. iNext.
  iApply wp_then. iApply (wp_wand with "[Ht Hg Hv Ha Hb]").
  { iApply (wunlock_spec with "I"). iFrame "Ht Hg Hv". rw -{1 2}shares_all. iApply (pieces_split with "Ha Hb"). }
  iIntros (o ->). iExists 0. iSplit; [done|]. iNext. by iApply wp_return.
Qed.
End Pair.

Section PairRun.
Context `{Arch}.

Definition pairΣ : gFunctors := #[threadΣ; rwlockΣ].

Lemma zero_posts {Σ} (ts : list prog) n : ([∗ list] e;Φ ∈ ts;replicate n (λ o : ctl, ⌜o = Return 0⌝ : iProp Σ)%I, from_option Φ True (prog_val e)) ⊢
  ⌜Forall (λ e, ∀ v, finished e = Some v → v = 0) ts⌝.
Proof.
  iIntros "H". iInduction ts as [|e ts IH] forall (n); [iPureIntro; constructor|]. destruct n as [|n]; [done|]. cbn. iDestruct "H" as "[He H]".
  iDestruct ("IH" with "H") as %Hf. destruct e as [[|v']| | | | | | | | | | |]; try (iPureIntro; by constructor). cbn. iDestruct "He" as %[= ->]. iPureIntro. constructor; [|done]. by intros v [= <-].
Qed.

(** C25. Exclusion of the readers-writer locks of user threads.  Any number of
    threads read two words behind such a lock, or change both to a new value;
    readers whose [max_spin] is at least 1 never see one word changed and the
    other not, and no thread stops in one of the library's own checks. *)
Theorem rwlock_keeps_pair lock a b x0 us s ts s' :
  NoDup [rd_futex lock; wr_futex lock; wait_futex lock; a; b] →
  words s !! rd_futex lock = Some 0 → words s !! wr_futex lock = Some 0 → words s !! wait_futex lock = Some 0 →
  words s !! a = Some x0 → words s !! b = Some x0 →
  Forall (λ u, ∀ junk spin, u = PairReader junk spin → 1 ≤ spin) us → 2 * Z.of_nat (length us) + 3 < 2 ^ (ARCH_WIDTH - 1) →
  rtc pool_step (pair_client lock a b <$> us, s) (ts, s') →
  Forall (λ e, not_stopped e s') ts ∧ Forall (λ e, ∀ v, finished e = Some v → v = 0) ts.
Proof.
  intros Hd H1 H2 H3 Ha Hb Hus Hsmall. apply (pool_adequacy pairΣ). iIntros (G) "Hw".
  iDestruct (take_words _ [(rd_futex lock, 0); (wr_futex lock, 0); (wait_futex lock, 0); (a, x0); (b, x0)] with "Hw") as "(Hrd & Hwr & Hwait & Ha & Hb & _)"; [done|by repeat apply Forall_cons_2|].
  set (N := length us) in *. pose proof width_pos as [Hwp _]. assert (uint ARCH_WIDTH 0) as Hz by (apply zero_uint; lia).
  assert (futex_locked 0 = 0) as Hl0 by (rw /futex_locked /shr; by destruct ARCH_BIG_ENDIAN).
  iMod (own_alloc (● (S N) ⋅ (◯ 0%nat ⋅ ◯ (S N)))) as (γt) "(Ht● & Ht0 & Ht)"; [rw -auth_frag_op; by apply auth_both_valid_discrete|].
  iMod (own_alloc (● 0%nat)) as (γn) "Hn"; [by apply auth_auth_valid|].
  iMod (ghost_var_alloc WFree) as (γw) "[Hw1 Hw2]". iMod (ghost_var_alloc (Some 0)) as (γv) "[Hv1 Hv2]".
  iMod (is_futex_alloc (wr_futex lock) 0 True (may_write γw γv) with "Hwr [Hw1 Hv1]") as (γl) "#Il"; [done|done|iFrame|].
  iMod (inv_alloc waitN _ (wait_inv lock γv) with "[Hwait Hv2]") as "#Iw". { iNext. iExists 0. iFrame "Hwait". iSplit; [done|]. iLeft. by iFrame. }
  iMod (inv_alloc rdN _ (rd_inv lock (S N) (piece a b N) γt γn γw) with "[Hrd Ht● Ht0 Hn Hw2 Ha Hb]") as "#I".
  { iNext. iExists 0, 0%nat, WFree. iFrame. iSplit; [done|]. iSplit; [done|]. iApply (pieces_split with "[Ha] [Hb]"); rw shares_all; iFrame. }
  iModIntro. iExists (replicate N (λ o, ⌜o = Return 0⌝)%I). iSplitL "Ht".
  - rw big_sepL2_fmap_l. iApply big_sepL2_replicate_r; [done|]. iDestruct (frag_succ with "Ht") as "[_ Ht]". iDestruct (frags_split with "Ht") as "Ht".
    iApply (big_sepL_impl with "Ht"). iIntros "!>" (i u Hi) "Hk". destruct u as [junk spin|spin].
    + iApply (pair_reader_spec lock a b N γt γn γw γv γl with "[] Hk"); [lia|by apply (proj1 (list.Forall_forall _ _) Hus _ (list_elem_of_lookup_2 _ _ _ Hi) junk)|]. iFrame "I Iw Il".
    + iApply (pair_writer_spec lock a b N γt γn γw γv γl). iFrame "I Iw Il".
  - iIntros (Hl) "_ HΦ". iDestruct (zero_posts with "HΦ") as %Hp. iApply fupd_mask_intro_discard; [set_solver|]. done.
Qed.
End PairRun.

(** A writer and then a reader. *)
Definition pair_start : machine := mk_machine (list_to_map [(64, 0); (72, 0); (80, 0); (128, 7); (136, 7)]) ∅ false 0.
Definition pair_check (r : option (list prog * machine)) : bool :=
  match r with Some ([e0; e1], _) => bool_decide (is_Some (finished e0)) && bool_decide (is_Some (finished e1)) | _ => false end.

Lemma rwlock_keeps_pair_witness : ∃ e0 e1 s',
  rtc (pool_step (H := riscv64)) ([pair_client (H := riscv64) 64 128 136 (PairWriter 100); pair_client (H := riscv64) 64 128 136 (PairReader 0 100)], pair_start) ([e0; e1], s') ∧
  finished e0 = Some 0 ∧ finished e1 = Some 0.
Proof.
  assert (pair_check (run_schedule (H := riscv64) (replicate 57 0 ++ replicate 25 1)%nat
    [pair_client (H := riscv64) 64 128 136 (PairWriter 100); pair_client (H := riscv64) 64 128 136 (PairReader 0 100)] pair_start) = true) as Hc by (vm_compute; reflexivity).
  destruct (run_schedule _ _ _) as [[ts s']|] eqn:E; [|discriminate]. pose proof (run_schedule_steps _ _ _ _ E) as Hr.
  destruct ts as [|e0 [|e1 [|]]]; try discriminate. exists e0, e1, s'. split; [exact Hr|].
  destruct (rwlock_keeps_pair (H := riscv64) 64 128 136 7 [PairWriter 100; PairReader 0 100] pair_start [e0; e1] s') as [_ Hf].
  - by apply (bool_decide_unpack _).
  - vm_compute. reflexivity.
  - vm_compute. reflexivity.
  - vm_compute. reflexivity.
  - vm_compute. reflexivity.
  - vm_compute. reflexivity.
  - repeat apply Forall_cons_2; [discriminate|intros junk spin [= <- <-]; discriminate|apply Forall_nil_2].
  - vm_compute. reflexivity.
  - exact Hr.
  - apply andb_true_iff in Hc as [[v0 H0]%bool_decide_eq_true [v1 H1]%bool_decide_eq_true]. apply Forall_cons in Hf as [F0 [F1 _]%Forall_cons].
    by rw H0 H1 (F0 _ H0) (F1 _ H1).
Defined.
