(* ===== verification/FutexDemo.v ===== *)
(** What goes wrong with futexes: a thread that sleeps for ever on a free lock, a
    futex that a waiting thread overwrites, and a lock that fails when it is free.
    Small machines at which the contracts are used. *)

From stdpp Require Import base list gmap.
From Stdlib Require Import ZArith Lia.
From Corelib Require Import ssreflect.
From S2P Require Import Prelude Wait Futex.

(** ** Threads that sleep for ever *)

Section Asleep.
Context `{Arch}.

(** Nothing but sleeping threads and threads that have returned. *)
Definition at_rest (s : machine) (e : prog) : Prop :=
  is_Some (finished e) ∨ ∃ n f, asleep e = Some n ∧ queue s !! n = Some f.

Lemma asleep_stays e s n f : asleep e = Some n → queue s !! n = Some f → pstep e s = Some (e, s).
Proof.
  induction e as [| e IH k | | | | | | | |m| |] in n |- *; try done; cbn [asleep].
  - intros Ha Hq. rw /= (IH n Ha Hq). by destruct e.
  - intros [= ->] Hq. cbn. by rw Hq.
Qed.

Lemma rest_stays ts s c : Forall (at_rest s) ts → rtc pool_step (ts, s) c → c = (ts, s).
Proof.
  intros Hr Hs. remember (ts, s) as c0 eqn:E0. induction Hs as [c|c1 c2 c3 Hst Hs IH]; [done|]. subst c1.
  inversion Hst as [ts0 s0 i e e' s' Hi Hp]; subst. pose proof (proj1 (list.Forall_forall _ _) Hr _ (list_elem_of_lookup_2 _ _ _ Hi)) as [[v Hf]|(n & f & Ha & Hq)].
  - destruct e as [[|]| | | | | | | | | | |]; done.
  - rw (asleep_stays _ _ _ _ Ha Hq) in Hp. simplify_eq. rw list_insert_id // in IH. by apply IH.
Qed.
End Asleep.

(** ** A lost wake-up *)

Section LostWakeup.
Context `{Arch} (f spin : Z) (w : gmap Z Z).

(** A thread that takes and releases the futex at [f]. *)
Definition futex_user : prog := (futex_lock f spin;; futex_unlock f)%prog.

(** The words of the run: locked, locked with the kernel bit, and released with
    the kernel bit. *)
Definition held_word : Z := set_locked 0 1.
Definition waited_word : Z := set_kernel held_word true.
Definition released_word : Z := set_locked waited_word 0.

Definition futex_state (v : Z) (q : gmap nat Z) (l : bool) (n : nat) : machine := mk_machine (<[f := v]> w) q l n.

Lemma word_facts :
  futex_locked 0 = 0 ∧ (futex_locked held_word = 1 ∧ futex_kernel held_word = false) ∧
  (futex_locked waited_word = 1 ∧ futex_kernel waited_word = true) ∧
  (futex_locked released_word = 0 ∧ futex_kernel released_word = true) ∧
  set_kernel released_word false = 0 ∧ set_locked held_word 0 = 0 ∧ futex_kernel 0 = false.
Proof.
  rw /released_word /waited_word /held_word /set_kernel /set_locked /futex_locked /futex_kernel /kernel_pos.
  destruct arch_width_cases as [-> | ->], ARCH_BIG_ENDIAN; vm_compute; split_and!; reflexivity.
Qed.

(** Steps of one thread, as steps of the pool. *)
Definition thread_step (c c' : prog * machine) : Prop := pstep c.1 c.2 = Some c'.

Lemma pool_thread_steps ts i e s e' s' : ts !! i = Some e → rtc thread_step (e, s) (e', s') →
  rtc pool_step (ts, s) (<[i := e']> ts, s').
Proof.
  intros Hi Hr. remember (e, s) as c eqn:E. revert ts e s Hi E.
  remember (e', s') as c' eqn:E'. induction Hr as [c|c [e1 s1] c2 Hst Hr IH]; intros ts e s Hi ->.
  - injection E' as <- <-. rw list_insert_id; [exact Hi|]. apply rtc_refl.
  - eapply rtc_l; [exact (pool_thread ts s i e e1 s1 Hi Hst)|].
    rw -(list_insert_insert_eq ts i e' e1). apply (IH E' _ e1 s1); [|done]. apply list_lookup_insert_eq. exact (lookup_lt_Some _ _ _ Hi).
Qed.

End LostWakeup.

#[local] Arguments set_kernel : simpl never.
#[local] Arguments set_locked : simpl never.
#[local] Arguments futex_locked : simpl never.
#[local] Arguments futex_kernel : simpl never.

(** One step of a thread, with the tests of the word decided by [word_facts]. *)
Ltac thread_tick E := eapply rtc_l; [rw /thread_step /= ?lookup_insert_eq ?Z.eqb_refl ?E; reflexivity|];
  rw /set_words /set_queue /= ?insert_insert_eq ?E.

Section LostWakeupRun.
Context `{Arch} (f spin : Z) (w : gmap Z Z).

Lemma user_takes q l n : rtc thread_step (futex_user f spin, futex_state f w 0 q l n) (futex_unlock f, futex_state f w held_word q l n).
Proof.
  destruct word_facts as (E0 & _). rw /futex_user /futex_state. do 8 thread_tick E0. apply rtc_refl.
Qed.

(** A thread that finds the lock taken sets the kernel bit and goes to sleep. *)
Lemma user_sleeps q n : 0 ≤ spin → ∃ e, asleep e = Some n ∧
  rtc thread_step (futex_user f spin, futex_state f w held_word q false n) (e, futex_state f w waited_word (<[n := f]> q) false (S n)).
Proof.
  intros Hs. destruct word_facts as (_ & [E1 _] & [E2 E3] & _). rw /futex_user /futex_state.
  assert (when_holds waited_word 1 = true) as E4 by (rw /when_holds E2 /FUTEX_WHEN_NE /FUTEX_VALUE_MASK; destruct arch_width_cases as [-> | ->]; reflexivity).
  assert (∀ k, go_kernel spin k = (true, k)) as E5 by (intros k; by rw /go_kernel (proj2 (Z.leb_le _ _) Hs)).
  eexists. split; cycle 1.
  - do 3 thread_tick E1. rw E5. rw -/waited_word. do 4 thread_tick E3. rw /futex_state. thread_tick E4. apply rtc_refl.
  - done.
Qed.

(** The owner releases the lock and clears the kernel bit.  If the lock is taken
    before its system call, the call wakes nobody. *)
Lemma owner_wakes_nobody q n : ∃ e,
  rtc thread_step (futex_unlock f, futex_state f w waited_word q false n) (e, futex_state f w 0 q false n) ∧
  rtc thread_step (e, futex_state f w held_word q false n) (ret 0, futex_state f w held_word q false n).
Proof.
  destruct word_facts as (_ & [E1 E1'] & [E2 E3] & [E4 E5] & E6 & _). rw /futex_unlock /futex_state.
  assert (when_holds held_word 0 = false) as E7
    by (rw /when_holds E1 /FUTEX_WHEN_NE /FUTEX_VALUE_MASK; destruct arch_width_cases as [-> | ->]; reflexivity).
  eexists. split.
  - do 3 thread_tick E2. rw -/released_word. do 4 thread_tick E5. rw /futex_notify. do 2 thread_tick E4. rw E5 E6. cbn [negb]. do 3 thread_tick E6. apply rtc_refl.
  - thread_tick E1'. thread_tick E7. do 3 thread_tick E1. apply rtc_refl.
Qed.

(** An owner that finds the kernel bit clear calls nobody. *)
Lemma owner_returns q l n : rtc thread_step (futex_unlock f, futex_state f w held_word q l n) (ret 0, futex_state f w 0 q l n).
Proof.
  destruct word_facts as (_ & [E1 _] & _ & _ & _ & E2 & E3). rw /futex_unlock /futex_state.
  do 3 thread_tick E1. rw E2 E3. do 4 thread_tick E2. apply rtc_refl.
Qed.
End LostWakeupRun.

(** C26. A wake-up can be lost.  Let the futex be free, let three threads take and
    release it once each, with a limit of at least 0 on spinning, and let all
    other threads have returned or be asleep.  Then there is a run after which the
    futex is free, the second and the third thread have returned, and the first
    one sleeps on the futex; and from there no thread ever moves, so it sleeps for
    ever.  (The kernel wakes nobody when the lock has been taken again since it was
    released, and the bit that makes the next release call the kernel has been
    cleared.) *)
Theorem futex_lost_wakeup `{Arch} f spin ts s a b c : 0 ≤ spin →
  words s !! f = Some 0 → queue_locked s = false → NoDup [a; b; c] →
  (∀ i, i ∈ [a; b; c] → ts !! i = Some (futex_user f spin)) →
  (∀ i e, i ∉ [a; b; c] → ts !! i = Some e → at_rest s e) →
  ∃ ts' s', rtc pool_step (ts, s) (ts', s') ∧ words s' !! f = Some 0 ∧
    (∃ e n, ts' !! a = Some e ∧ asleep e = Some n ∧ queue s' !! n = Some f) ∧
    ts' !! b = Some (ret 0) ∧ ts' !! c = Some (ret 0) ∧
    ∀ d, rtc pool_step (ts', s') d → d = (ts', s').
Proof.
  intros Hs Hw Hl Hnd Hu Hrest. destruct s as [w q l n]. cbn in Hw, Hl. subst l.
  rw !NoDup_cons !not_elem_of_cons in Hnd. destruct Hnd as ((Hab & Hac & _) & (Hbc & _) & _).
  assert (mk_machine w q false n = futex_state f w 0 q false n) as Es by (by rw /futex_state insert_id).
  pose proof (Hu a ltac:(set_solver)) as Ha. pose proof (Hu b ltac:(set_solver)) as Hb. pose proof (Hu c ltac:(set_solver)) as Hc.
  destruct (user_sleeps f spin w q n Hs) as (ea & Hasl & Ra). destruct (owner_wakes_nobody f w (<[n := f]> q) (S n)) as (eb & Rb1 & Rb2).
  set (q' := <[n := f]> q) in *.
  set (t1 := <[b := futex_unlock f]> ts). set (t2 := <[a := ea]> t1). set (t3 := <[b := eb]> t2).
  set (t4 := <[c := futex_unlock f]> t3). set (t5 := <[b := ret 0]> t4). set (t6 := <[c := ret 0]> t5).
  assert (∀ i (x : prog) (l : list prog), is_Some (l !! i) → (<[i := x]> l) !! i = Some x) as Heq
    by (intros i x l Hi; by apply list_lookup_insert_eq, lookup_lt_is_Some_1).
  assert (∀ i j (x : prog) (l : list prog), i ≠ j → (<[j := x]> l) !! i = l !! i) as Hne by (intros i j x l Hij; apply list_lookup_insert_ne; congruence).
  assert (b ≠ a ∧ c ≠ a ∧ c ≠ b) as (Hba & Hca & Hcb) by (split_and!; congruence).
  assert (t1 !! a = Some (futex_user f spin)) as L1 by (rw /t1 Hne //).
  assert (t2 !! b = Some (futex_unlock f)) as L2 by (rw /t2 Hne //; apply Heq; by rw Hb).
  assert (t3 !! c = Some (futex_user f spin)) as L3 by (rw /t3 /t2 /t1 !Hne //).
  assert (t4 !! b = Some eb) as L4 by (rw /t4 Hne //; apply Heq; by rw L2).
  assert (t5 !! c = Some (futex_unlock f)) as L5 by (rw /t5 Hne //; apply Heq; by rw L3).
  assert (t6 !! a = Some ea) as La by (rw /t6 Hne // /t5 Hne // /t4 Hne // /t3 Hne //; apply Heq; by rw L1).
  assert (t6 !! b = Some (ret 0)) as Lb by (rw /t6 Hne //; apply Heq; by rw L4).
  assert (t6 !! c = Some (ret 0)) as Lc by (apply Heq; by rw L5).
  assert (queue (futex_state f w 0 q' false (S n)) !! n = Some f) as Hq by apply lookup_insert_eq.
  exists t6, (futex_state f w 0 q' false (S n)). split_and!; [|apply lookup_insert_eq|by exists ea, n|done|done|].
  - rw Es. etrans; [exact (pool_thread_steps _ _ _ _ _ _ Hb (user_takes f spin w q false n))|].
    etrans; [exact (pool_thread_steps _ _ _ _ _ _ L1 Ra)|]. etrans; [exact (pool_thread_steps _ _ _ _ _ _ L2 Rb1)|].
    etrans; [exact (pool_thread_steps _ _ _ _ _ _ L3 (user_takes f spin w q' false (S n)))|].
    etrans; [exact (pool_thread_steps _ _ _ _ _ _ L4 Rb2)|]. exact (pool_thread_steps _ _ _ _ _ _ L5 (owner_returns f w q' false (S n))).
  - intros d. apply rest_stays, Forall_lookup_2. intros i e Hi.
    destruct (decide (i = a)) as [->|Hia]; [rw La in Hi; injection Hi as <-; right; by exists n, f|].
    destruct (decide (i = b)) as [->|Hib]; [rw Lb in Hi; injection Hi as <-; left; by exists 0|].
    destruct (decide (i = c)) as [->|Hic]; [rw Lc in Hi; injection Hi as <-; left; by exists 0|].
    rw /t6 /t5 /t4 /t3 /t2 /t1 !Hne // in Hi. destruct (Hrest i e) as [Hf|(k & g & Hk & Hg)]; [set_solver|done|by left|right].
    destruct (decide (k = n)) as [->|Hkn]; [by exists n, f|]. exists k, g. split; [done|]. cbn. rw lookup_insert_ne; [congruence|done].
Qed.

(** ** A signal that is missed *)

(** A free futex at 8. *)
Definition futex_start : machine := mk_machine {[ 8 := 0 ]} ∅ false 0.

(** The first thread sleeps on 8, the other two have returned, and the word is [w]. *)
Definition lost_check (w : Z) (r : option (list prog * machine)) : bool :=
  match r with
  | Some ([e0; e1; e2], s) =>
      bool_decide (asleep e0 = Some 0%nat) && bool_decide (queue s !! 0%nat = Some 8) && bool_decide (finished e1 = Some 0) &&
      bool_decide (finished e2 = Some 0) && bool_decide (words s !! 8 = Some w)
  | _ => false
  end.

Lemma lost_run l ts w : lost_check w (@run_schedule riscv64 l ts futex_start) = true → ∃ e0 e1 e2 s,
  rtc (@pool_step riscv64) (ts, futex_start) ([e0; e1; e2], s) ∧
  words s !! 8 = Some w ∧ asleep e0 = Some 0%nat ∧ queue s !! 0%nat = Some 8 ∧ finished e1 = Some 0 ∧ finished e2 = Some 0 ∧
  ∀ c, rtc (@pool_step riscv64) ([e0; e1; e2], s) c → c = ([e0; e1; e2], s).
Proof.
  intros Hc. destruct (run_schedule _ _ _) as [[ts' s]|] eqn:E; [|done]. destruct ts' as [|e0 [|e1 [|e2 [|]]]]; try done. cbn [lost_check] in Hc.
  rw !andb_true_iff !bool_decide_eq_true in Hc. destruct Hc as ((((Ha & Hq) & H1) & H2) & Hw). exists e0, e1, e2, s.
  split_and!; [exact (@run_schedule_steps riscv64 _ _ _ _ E)|done..|]. intros c. apply rest_stays. repeat apply Forall_cons_2; [..|constructor].
  - right. by exists 0%nat, 8.
  - left. by exists 0.
  - left. by exists 0.
Qed.

Definition event_threads : list prog := [@event_wait riscv64 8 0; @event_wait riscv64 8 0; (@event_signal riscv64 8;; @event_signal riscv64 8)%prog].
Definition event_schedule : list nat := (replicate 13 0 ++ replicate 12 2 ++ replicate 13 1 ++ replicate 13 2)%nat.

(** With two threads that wait, an event of the kernel can be signalled twice
    and still leave one of them asleep for ever: the other one resets the event
    before the kernel tests it. *)
Theorem event_signal_missed : ∃ e0 e1 e2 s, rtc (@pool_step riscv64) (event_threads, futex_start) ([e0; e1; e2], s) ∧
  words s !! 8 = Some 2 ∧ asleep e0 = Some 0%nat ∧ queue s !! 0%nat = Some 8 ∧ finished e1 = Some 0 ∧ finished e2 = Some 0 ∧
  ∀ c, rtc (@pool_step riscv64) ([e0; e1; e2], s) c → c = ([e0; e1; e2], s).
Proof. apply (lost_run event_schedule). vm_compute. reflexivity. Qed.

(** ** A futex overwritten *)

Section Overwritten.
Context `{Arch}.

Lemma lone_step e s e' s' : pstep e s = Some (e', s') → pool_step ([e], s) ([e'], s').
Proof. intros Hp. by apply (pool_thread [e] s 0 e). Qed.

(** C27. A thread that waits for a locked futex with [spin <= 0] stores the value
    of a variable that it has not set: the swap is reached through [continue].
    [-1] is what the readers-writer locks pass. *)
Theorem futex_wait_overwrites junk f spin v s : words s !! f = Some v → futex_locked v ≠ 0 → spin ≤ 0 →
  ∃ ts s', rtc pool_step ([futex_wait junk f spin], s) (ts, s') ∧ words s' !! f = Some junk.
Proof.
  intros Hf Hl Hs. assert ((spin <? 0) || (spin <? 0 + 1) = true) as Hgo by (rw orb_true_iff !Z.ltb_lt; lia).
  eexists _, _. split.
  - eapply rtc_l; [apply lone_step; reflexivity|]. eapply rtc_l; [apply lone_step; cbn; rw Hf; reflexivity|].
    eapply rtc_l; [apply lone_step; reflexivity|]. rw /ctrue (proj2 (Z.eqb_neq (futex_locked v) 0)) //. cbn [negb]. rw Hgo.
    apply rtc_once, lone_step. cbn. rw Hf Z.eqb_refl. reflexivity.
  - cbn. by rw lookup_insert_eq.
Qed.
End Overwritten.

(** ** A lock that fails when it is free *)

(** A readers-writer lock at 64. *)
Definition rwlock_start : machine := mk_machine {[ 64 := 0; 72 := 0; 80 := 0 ]} ∅ false 0.
Definition trylock_check (r : option (list prog * machine)) : bool :=
  match r with
  | Some ([e0; e1], s) =>
      bool_decide (finished e0 = Some (-1)) && bool_decide (asleep e1 = Some 0%nat) && bool_decide (queue s !! 0%nat = Some 72) &&
      bool_decide (words s !! 64 = Some 0)
  | _ => false
  end.

(** [rwlock_wtrylock] takes the result of [futex_trylock] the wrong way round: on
    a free lock it fails and keeps the writers' futex, so that the next writer
    sleeps for ever although nobody has the lock. *)
Theorem rwlock_wtrylock_inverted : ∃ e0 e1 s,
  rtc (@pool_step riscv64) ([@rwlock_wtrylock riscv64 64; @rwlock_wlock riscv64 64 RWLOCK_MAX_SPIN], rwlock_start) ([e0; e1], s) ∧
  finished e0 = Some (-1) ∧ asleep e1 = Some 0%nat ∧ queue s !! 0%nat = Some 72 ∧ words s !! 64 = Some 0 ∧
  ∀ c, rtc (@pool_step riscv64) ([e0; e1], s) c → c = ([e0; e1], s).
Proof.
  assert (trylock_check (@run_schedule riscv64 (replicate 6 0 ++ replicate 10 1)%nat
    [@rwlock_wtrylock riscv64 64; @rwlock_wlock riscv64 64 RWLOCK_MAX_SPIN] rwlock_start) = true) as Hc by (vm_compute; reflexivity).
  destruct (run_schedule _ _ _) as [[ts s]|] eqn:E; [|done]. destruct ts as [|e0 [|e1 [|]]]; try done. cbn [trylock_check] in Hc.
  rw !andb_true_iff !bool_decide_eq_true in Hc. destruct Hc as (((H1 & Ha) & Hq) & Hw). exists e0, e1, s.
  split_and!; [exact (@run_schedule_steps riscv64 _ _ _ _ E)|done..|]. intros c. apply rest_stays. repeat apply Forall_cons_2; [..|constructor].
  - left. by exists (-1).
  - right. by exists 0%nat, 72.
Qed.

(** A reader that meets a writer, with the default of -1. *)
Lemma futex_wait_overwrites_witness : ∃ ts s',
  rtc (@pool_step riscv64) ([@futex_wait riscv64 0 8 RWLOCK_MAX_SPIN], mk_machine {[ 8 := 2 ]} ∅ false 0) (ts, s') ∧ words s' !! 8 = Some 0.
Proof. apply (@futex_wait_overwrites riscv64 0 8 RWLOCK_MAX_SPIN 2); [reflexivity|discriminate|discriminate]. Defined.

Lemma futex_lost_wakeup_witness : ∃ ts' s',
  rtc (@pool_step riscv64) (replicate 3 (@futex_user riscv64 8 100), futex_start) (ts', s') ∧ words s' !! 8 = Some 0 ∧
  ∃ e n, ts' !! 0%nat = Some e ∧ asleep e = Some n ∧ queue s' !! n = Some 8.
Proof.
  destruct (@futex_lost_wakeup riscv64 8 100 (replicate 3 (@futex_user riscv64 8 100)) futex_start 0 1 2) as (ts' & s' & Hr & Hw & Ha & _).
  - lia.
  - reflexivity.
  - reflexivity.
  - repeat constructor; set_solver.
  - intros i Hi. apply list_elem_of_lookup_1 in Hi as [[|[|[|k]]] E]; cbn in E; try discriminate E; injection E as <-; reflexivity.
  - intros i e Hi He. destruct i as [|[|[|i]]]; [exfalso; apply Hi; set_solver..|discriminate He].
  - exists ts', s'. split; [exact Hr|]. split; [exact Hw|exact Ha].
Defined.
